(* ===== verification/_CoqProject ===== *)
-Q . S2P
Prelude.v
Session.v
Teleport.v
OpLogSpec.v
OpLog.v
MetaTypes.v
Placement.v
MetaOps.v
MetaSession.v
MetaTeleport.v
MetaHost.v
MetaOutbox.v
MetaStep.v
MetaCalls.v
Scenario.v
MetaProps.v
Reserve.v
HostProps.v
Gaps.v
Text.v
Manifest.v
World.v
ChunkStore.v
StoreProps.v
StoreRun.v
Scrub.v
Singleflight.v
Gc.v
Prog.v
Scaler.v
Operator.v
OperatorProps.v
OperatorRun.v
Fence.v
Wire.v
DirtyMap.v
Backend.v
PeerServer.v
Uffd.v
UffdProps.v
UffdRoles.v
UffdPool.v
Image.v
Pipeline.v
Rechunk.v
ChunkFile.v
Materialize.v
Region.v
Bytes.v
EgressPolicy.v
EgressRegistry.v
EgressHttp.v
EgressGate.v
EgressRedact.v
EgressRedactProps.v
EgressScan.v
EgressResponse.v
EgressTransform.v
EgressObserve.v
EgressObserveProps.v
EgressH2.v
EgressCred.v
Rank.v
Coord.v
TeleportDriver.v
TeleportSafe.v
TeleportPool.v
HostLoss.v
HostLossRun.v
Executor.v
Lane.v
OpFront.v
TeleportPlan.v
PlanRun.v
Journal.v
JournalProps.v
JournalRun.v
