(* ===== verification/Prelude.v ===== *)
(** * engrams: a verification development of its lifecycle, coordinator, storage, fleet, migration, egress and exec kernels

    engrams runs agent sessions in micro-VMs on a fleet of hosts.  Coordinator
    replicas drive the sessions through a metadata store (Postgres in
    production); host agents run the VMs, heartbeat under a lease, and read
    disk and memory images as content-addressed chunks from an object store
    through a local cache.  A session moves between hosts by post-copy: its
    destination runs while a handler of page faults pulls the memory of the
    paused source.  A proxy on the host puts credentials into the requests of a
    guest that never sees them.  An agent in the guest runs commands and keeps
    their records.  An operator sizes and rolls the fleet.  This
    development models seven kernels: the metadata store with its session op log,
    state machines, placement and leases; the drivers of the coordinator over
    it; the chunk store with its cache and the code that makes and uses images;
    the operator's reconcile; the migration of memory with the gate that fences
    the host agent; the egress proxy; and the exec journal of the guest agent.

    ** The program and the files

    Shared
    - [Prelude]: results, record update, identifiers, JSON, machine integers,
      the tactics, lists and ordered maps every other file uses.
    - [Prog]: code over services it does not own, as trees of typed requests;
      histories, weakest preconditions, adequacy for runs cut anywhere.
    - [Bytes]: byte strings, ASCII and line scanning, decimal and hexadecimal
      numbers, for the egress proxy.

    The lifecycle kernel ([crates/engram-core], [crates/engram-sim/src/meta],
    the placement code of [crates/engram-postgres])
    - [Session], [Teleport]: [types/session.rs], [types/teleport.rs]; the state
      and phase tables, rows and requests.
    - [OpLogSpec], [OpLog]: [types/session_op.rs]; the durable per-session op
      log as an abstract machine with its fencing invariants, and
      [InMemoryOpLog], the reference implementation, proved to refine it.
    - [MetaTypes]: the tables of [SimMetadataStore] ([meta/mod.rs]) and its
      transactions as a state-and-error monad; an early [return Err] keeps what
      was written before it.
    - [Placement]: the two-dimensional host pick of the Postgres store and of
      the simulated store, against one specification.
    - [MetaOps], [MetaSession], [MetaTeleport], [MetaHost], [MetaOutbox]: those
      methods of [meta/store_impl.rs] that work on ops, sessions and their
      events, teleports, hosts and the outbox, one definition each; the methods
      that are left out are listed below.
    - [MetaStep], [MetaCalls]: these methods as a transition system; each of
      them but the deletes of a pending session and of a host is a sequence of
      primitive writes, and the invariants are proved by rule induction on those.
    - [Scenario]: a small concrete fleet the theorems are exercised on.
    - [MetaProps], [Reserve], [HostProps], [Gaps]: the theorems.

    The coordinator's drivers ([crates/engram-coordinator/src])
    - [Rank]: [placement.rs], the vetoes, the ranking, the pick of the resume
      path, capture candidates, the counts the autoscaler reads.
    - [Coord]: [error.rs], and what the drivers share: the requests to the store
      and the hosts, op contexts, fenced transitions, events.
    - [TeleportDriver]: [teleport.rs], the driver of a move with all its steps;
      [TeleportSafe]: what each step may ask for after what it has seen;
      [TeleportPool]: any number of drivers on the store, cut anywhere;
      [TeleportPlan]: the planner and the admission by request.
    - [HostLoss]: [dead_host.rs] and [reconcile.rs], with what they may ask for;
      [HostLossRun]: the sweep on the store.
    - [Executor], [Lane]: the op executor of [session_ops.rs] and its loop on a
      lane of retrying ops; [OpFront]: entering a lane, the claims handlers hold
      inline, the reclaim sweep.
    - [PlanRun]: the planner and the sweep on the store, and admission against
      any answers.

    The storage kernel ([crates/engram-chunk-store])
    - [Text], [Manifest]: object keys, [manifest.rs], [working_set.rs].
    - [World]: asynchronous programs as trees of requests to the object store
      ([BlobStorage]) and the cache's files, the answers each request can get,
      faults included, interleavings with evictions, and a small
      rely-guarantee logic ([wp], [pool_sound]).
    - [ChunkStore]: [store.rs], [resolver.rs] and the operations of [cache.rs]
      they call, one program per method.
    - [StoreProps]: any interleaving of the operations.  [ByteCorrect] is what a
      resolver promises its store; both resolvers are instances.
    - [StoreRun]: the operations alone and without faults.
    - [Scrub]: unverified peer landings and the scrubber.
    - [Singleflight]: [ChunkCache::get_with_source] with its in-flight map and
      [LeaderGuard] as a state machine.
    - [Gc]: the pin set ([gc.rs]) and the promote pass of the coordinator's
      sweep ([engram-coordinator/src/chunk_gc.rs]), as programs whose every
      request may get any answer.
    - [Image]: what a manifest says of an image; [Pipeline]: the bounded upload
      pipelines as a step relation over the tasks in flight.
    - [ChunkFile], [Rechunk], [Materialize]: [file.rs], chunking a file, the
      incremental update over a sparse diff, writing a manifest to a file.
    - [Region]: [region.rs], the chunker fed by regions in any order.

    The fleet kernel ([crates/engram-host-operator])
    - [Scaler]: the pure planners [scaler.rs] and [wave.rs].
    - [Operator]: [reconcile.rs], [autoscale.rs], [coord.rs]: the whole reconcile
      as a program over the Kubernetes API, the coordinator and the cloud.
    - [OperatorProps]: what it may remove and kill, whatever the services answer;
      [OperatorRun]: that it gets there on a cluster that answers.

    The migration kernel ([crates/engram-migrate-proto],
    [crates/engram-uffd-handler], [crates/engram-host-agent])
    - [Fence]: [session_epochs.rs] and the gate of [grpc_server.rs] on a disk
      with faults and crashes.
    - [Wire]: the seal bitmap, the messages and the frames.
    - [DirtyMap]: [dirty_map.rs], which chunks diverge from the manifest.
    - [Backend]: [chunked.rs], what backs an offset of the guest.
    - [PeerServer]: [migrate_peer.rs], a connection of the page server.
    - [Uffd]: [peer.rs] and [runtime.rs], the threads of the handler as programs.
    - [UffdProps]: each thread against its environment; [UffdRoles]: which of
      them reads and sets the flag of the drain; [UffdPool]: all of them on the
      shared table, with the page server at the other end.

    The egress kernel ([crates/engram-egress-proxy], [-proxyd], [-proto])
    - [EgressPolicy]: [policy.rs], [google_denylist.rs] and the globs and request
      policies of [registry.rs].
    - [EgressRegistry]: the sessions registered, the decision on a connection,
      the control protocol of the daemon ([control.rs]), the DNS filter ([dns.rs]).
    - [EgressHttp]: the request half of an intercepted HTTP/1 connection
      ([intercept.rs], [inject.rs], [substitute.rs], [violation.rs],
      [graphql.rs]); [EgressGate]: what it lets through.
    - [EgressRedact]: the framing tracker, the redactor and the streaming
      transformer; [EgressRedactProps], [EgressScan], [EgressResponse],
      [EgressTransform]: that nothing of a credential passes them.
    - [EgressObserve], [EgressObserveProps]: observed assets ([observe.rs]).
    - [EgressH2]: an HTTP/2 stream; [EgressCred]: refreshable credentials.

    The exec kernel ([crates/engram-agentd])
    - [Journal]: [exec_journal.rs] and the replay of [handler.rs], as programs
      over files, processes and clocks.
    - [JournalProps]: against any answers; [JournalRun]: on a file system.

    ** What is proved

    - Fencing and lanes: once a claim moved a session past an epoch, no call
      with the old epoch changes anything; a session has one running op, under
      its current epoch ([MetaProps]); both op logs refine the abstract one, the
      reference log call by call against the specification of each call.
    - Session and teleport lifecycle: every logged status change is an edge of
      the state table, terminal sessions never change, one open teleport per
      session, dense event logs, the exact effect of a transition, the atomic
      swap of a teleport commit.
    - Capacity: creating, placing a queued session and admitting a teleport keep
      everything reserved on the chosen host within its budgets ([Reserve]); the
      pick is the best fit its specification asks for, in both stores.
    - Hosts: what a dead host loses, which sandboxes are entombed, that a lease
      protects its host, that retirement is granted only to an empty host and is
      permanent until the row is deleted ([HostProps]); an outbox row is lost only
      by a withdrawal before its acknowledgement ([MetaOutbox]).
    - Drivers: a move is both taken back and given up only if it is taken back by
      the abort of a failed load, from a row of the blackout that moved on later,
      which the source's host has to refuse; whichever drivers run and wherever
      they are cut, and no driver panics ([TeleportPool]); the
      resume path picks the host its tiers ask for ([Rank]); a host is declared
      dead and a sandbox destroyed only after the probes the code promises
      ([HostLoss]), and a sweep settles every stranded session ([HostLossRun]);
      two retrying ops cannot keep a lane busy for ever ([Lane]); a scan of the
      planner or of the sweep leaves no open move, no session of a retiring host
      and no session placed without a boot to itself, and an admission by request
      asks for the end of its claim before it returns, or leaves that to a task
      when queueing failed ([PlanRun]).
    - Content addressing: under every interleaving, fault and eviction the cache
      and the chunk objects hold what their names say, no object is lost and a
      success is true; round trips of chunks, manifests, deltas and keys;
      landings never leave unhashed bytes unmarked; the single flight has one
      leader per hash, never wedges, and fetches a chunk once.
    - Images: a file chunked and materialized again is the same, the update over
      a sparse diff and the region chunker give the manifest a full chunking
      gives, and materializing is atomic.
    - Garbage collection: a pin set is exactly what was read, the promote pass
      deletes only unpinned candidates past the grace period, and never a chunk
      that stays pinned ([Gc]).
    - Fleet: the size asked for is within its bounds and holds the queue; a wave
      leaves the survivors room; a node is removed only after the coordinator
      granted its retirement, a pod is killed only behind a cordon; victims end.
    - Migration: the dirty scan is exact, the page server answers only an
      authenticated peer and answers right, and every chunk the destination
      declares installed holds the paused guest's memory or the manifest's
      content, in any interleaving of its threads, and the drain is reported done
      only with every sealed chunk installed ([migration_exact]).  The fencing
      gate never goes back for calls one after the other that carry an epoch;
      epoch 0 is not fenced.
    - Egress: what an intercepted request must be to be forwarded, over HTTP/1,
      where what follows it is passed on unjudged to a connection that is to be
      closed, and over HTTP/2; that a well-formed response reaches the guest whole but for
      its credentials; that streaming substitution and the globs compute what
      their definitions say; that a sync replaces the registered sessions; that
      a credential is re-minted by one stream at a time and only when needed.
    - Exec: requests stay inside the journal, a record that all answers show
      runs, starts, was completed or written within the TTL is not collected, a
      cancellation kills
      only its own command, a capture persists the output up to its cap, and a
      reattached client is sent the files without a gap, and a complete record
      whole ([JournalProps], [JournalRun]).
    - Behaviours the comments rule out: [Gaps], [manifest_put_race],
      [scrub_unmarks_corrupt], [gc_generation_race], [chunk_key_lenient],
      [oplog_backoff_overtakes], [placement_vcpus_zero_divergence], [fence_race],
      [region_overlap_accepted], [response_leaks], [foreign_placeholder_missed],
      [sync_strands_reused_address], [dns_gaps], [request_swallows_pipelined],
      [h2_path_unscanned], [observation_lost], [journal_double_start],
      [tail_loses_end], [ladders_differ]; and one they admit, [trio_churns].

    ** Conventions and bounds

    Identifiers are numbers, instants and durations nanoseconds in [Z]; the
    instant [now] and fresh ids are arguments.  Budgets are [Z] with the
    checked and saturating operations of the code written out; versions and
    offsets are [N], bounded where the code's width matters.  A message built
    with [format!] is kept as its template.  Most loops run over lists.  The
    single flight's loop is a step function with a proved bound on its steps.
    The promote pass drains a shard batch by batch until its budget is spent;
    its model takes the greatest number of batches as fuel, and the theorems
    about it hold for every fuel and for runs cut anywhere.  In the programs of
    [Prog] a loop that ends takes enough fuel and asks [Unreachable] (or
    [Never]) beyond it, which the theorems show is never asked; a loop that may
    run forever (a claim that is retried, a connection that is served, the
    driver of a move, the loop over a lane, a capture, a replay) takes any fuel and asks [Spin] or
    [SNever], which is never answered: the run is cut there, and the theorems
    hold of every cut; [pair_drains], [capture_exact] and [complete_replayed]
    prove the fuel that is enough.  The
    parsers and scanners of the egress proxy (header lines, globs, framing,
    chunk sizes) and the region chunker take the length of their input as fuel,
    which their theorems show is enough.

    SHA-256, blake3, lz4, the JSON and frame codecs and the chunk fetchers are
    parameters; the hypotheses about them (32-byte digests, decoding what was
    encoded) are instantiated by concrete stand-ins in the witnesses.  So are
    the decoder of DNS messages, the JSON and GraphQL parsers and the header map
    of the HTTP/2 library, an interface with its laws.  The theorems about
    header lines ask for a server name, header names and values and secrets
    without line ends, and those about refreshed credentials for a clock that
    does not go back.  In [TeleportPool] the store's own methods answer the
    requests that touch moves, and every other request is answered anyhow.

    ** Not modelled

    Of the store's methods: [rewind_session_to_cursor],
    [set_session_suggested_title], the satellite writes of a session (runtime
    spec, capabilities, integration policy, secrets), snapshots
    ([record_snapshot], [fenced_record_snapshot], their prunes), artifacts,
    registry credentials, enabled images, enable and capture jobs, cold bases,
    garbage-collection candidates and leases, organisation secrets, broker
    tokens and OAuth; the SQL of the Postgres store outside placement; the cache's LRU
    index, pins and budgets, and the budget of uploads; the bootstrap of a base
    image; the mark pass and the lease of the sweep; the coordinator's HTTP and
    gRPC handlers, the idle evictor, the boot, resume and deliver verbs, the
    heartbeats, the due-session scan and the observers of the op executor; the Helm hooks of the
    operator; the shared base file, control socket and recorder of the fault
    handler; the rest of the host agent; DNS over TCP, which decides as over UDP,
    and the proxy's TLS, certificates, sockets and tunnels and the connection
    loop of HTTP/2, which belong to libraries; the live stream of a command that
    is started, and the rest of the guest agent.  Device, network and process
    I/O, adapters of cloud services, the CLI, TUI and harnesses have no logic of
    their own to state. *)

From stdpp Require Export base tactics option list gmap strings sorting.
From Stdlib Require Export ZArith Lia.
From Stdlib Require OrdersEx.

(** ** Results

    Rust's [Result<T, E>].  Fallible code returns a value of this type; code
    that mutates state before it fails returns the pair of the result and the
    state it leaves behind. *)

Inductive result (A E : Type) : Type :=
| Ok (a : A)
| Err (e : E).
Arguments Ok {A E} a.
Arguments Err {A E} e.

Declare Scope rust_scope.
Delimit Scope rust_scope with rust.
Open Scope rust_scope.

(** [let? x := e in k]: the [?] operator on a pure [Result]. *)
Notation "'let?' x ':=' e 'in' k" :=
  (match e with Ok x => k | Err err => Err err end)
  (at level 10, x pattern, e at level 100, k at level 200) : rust_scope.

Definition is_ok {A E} (r : result A E) : bool :=
  match r with Ok _ => true | Err _ => false end.

#[export] Instance result_eq_dec {A E} `{EqDecision A, EqDecision E} :
  EqDecision (result A E).
Proof. solve_decision. Defined.

(** ** Functional record update

    [r <| f := v |>] is the record [r] with field [f] replaced by [v].  A
    record opts in with an [Eta] instance, its constructor applied to its own
    projections; the setter of a field is found by abstracting that field. *)

Class Eta (R : Type) := eta_expand : R → R.
Class Setter {R T : Type} (f : R → T) := setter : (T → T) → R → R.
Arguments setter {R T} f {_} _ _.

Ltac find_setter f :=
  lazymatch type of f with
  | ?R → ?T =>
      let inst := constr:(_ : Eta R) in
      let inst := (eval red in inst) in
      let body := (eval cbv beta in (inst : R → R)) in
      lazymatch (eval pattern f in body) with
      | ?g _ =>
          let s := constr:(fun (h : T → T) (r : R) => g (fun r' : R => h (f r')) r) in
          let s := (eval cbv beta in s) in
          exact s
      end
  end.

#[export] Hint Extern 1 (Setter ?f) => unfold Setter; find_setter f : typeclass_instances.

Notation "r <| f := v |>" := (setter f (fun _ => v) r)
  (at level 1, f at level 0, left associativity) : rust_scope.
Notation "r <| f ::= h |>" := (setter f h r)
  (at level 1, f at level 0, left associativity) : rust_scope.

(** ** Identifiers and instants

    Session, host, sandbox, snapshot, teleport and capture-job ids are UUIDs,
    128-bit numbers ordered like their bytes.  A [DateTime<Utc>] or a
    [Duration] is a number of nanoseconds. *)

Notation SessionId := N (only parsing).
Notation HostId := N (only parsing).
Notation SandboxId := N (only parsing).
Notation SnapshotId := N (only parsing).
Notation TeleportId := N (only parsing).
Notation CaptureJobId := N (only parsing).
Notation Uuid := N (only parsing).
Notation DateTime := Z (only parsing).
Notation Duration := Z (only parsing).

(** ** Strings and JSON

    [serde_json::Value], with objects as association lists in which a key
    occurs once ([fields_insert] replaces).  The text chrono writes for a
    timestamp is kept as the timestamp ([JTime]). *)

Inductive json : Type :=
| JNull
| JBool (b : bool)
| JNum (z : Z)
| JStr (s : string)
| JTime (t : DateTime)
| JArr (l : list json)
| JObj (fields : list (string * json)).

(** [Value::get(key)] on a string index: [None] unless the value is an object
    holding the key. *)
Definition json_get (k : string) (v : json) : option json :=
  match v with
  | JObj fs => snd <$> List.find (fun kv => bool_decide (fst kv = k)) fs
  | _ => None
  end.

(** [Map::insert]. *)
Definition fields_insert (k : string) (x : json) (fs : list (string * json)) :
    list (string * json) :=
  (k, x) :: List.filter (fun kv => negb (bool_decide (fst kv = k))) fs.

(** [value[key] = x]: indexing a [Null] makes an object of it; any other
    non-object panics, which is [None] here. *)
Definition json_index_set (k : string) (x : json) (v : json) : option json :=
  match v with
  | JNull => Some (JObj [(k, x)])
  | JObj fs => Some (JObj (fields_insert k x fs))
  | _ => None
  end.

(** [==] of JSON values: the fields of an object compare as a map. *)
Fixpoint json_eqb (a b : json) : bool :=
  match a, b with
  | JNull, JNull => true
  | JBool x, JBool y => Bool.eqb x y
  | JNum x, JNum y => (x =? y)%Z
  | JStr x, JStr y => String.eqb x y
  | JTime x, JTime y => (x =? y)%Z
  | JArr l, JArr l' =>
      (fix go (l l' : list json) : bool :=
         match l, l' with
         | [], [] => true
         | x :: l, y :: l' => json_eqb x y && go l l'
         | _, _ => false
         end) l l'
  | JObj fs, JObj fs' =>
      Nat.eqb (length fs) (length fs') &&
      forallb (fun kv => match json_get (fst kv) (JObj fs') with
                         | Some y => json_eqb (snd kv) y
                         | None => false
                         end) fs
  | _, _ => false
  end.

Definition json_as_bool (v : json) : option bool :=
  match v with JBool b => Some b | _ => None end.

Definition json_as_str (v : json) : option string :=
  match v with JStr s => Some s | _ => None end.

Lemma json_get_index_set k x v v' :
  json_index_set k x v = Some v' → json_get k v' = Some x.
Proof.
  destruct v; simpl; intros; simplify_eq; simpl; by rewrite bool_decide_eq_true_2.
Qed.

(** *** Hexadecimal text *)

Definition hex_digit (n : N) : Ascii.ascii :=
  Ascii.ascii_of_N (if (n <? 10)%N then 48 + n else 87 + n)%N.

(** The [k] low base-16 digits of [n], most significant first. *)
Fixpoint hex_digits (k : nat) (n : N) : string :=
  match k with
  | O => EmptyString
  | S k' => String.append (hex_digits k' (n / 16)) (String (hex_digit (n mod 16)) EmptyString)
  end.

(** [Uuid]'s [Display]: 8-4-4-4-12 lower-case hexadecimal digits. *)
Definition uuid_str (u : Uuid) : string :=
  (hex_digits 8 (u / 2 ^ 96) +:+ "-" +:+ hex_digits 4 (u / 2 ^ 80) +:+ "-" +:+
   hex_digits 4 (u / 2 ^ 64) +:+ "-" +:+ hex_digits 4 (u / 2 ^ 48) +:+ "-" +:+
   hex_digits 12 u)%string.

(** ** Machine integers *)

Definition u64_max : Z := 2 ^ 64 - 1.
Definition u32_max : Z := 2 ^ 32 - 1.
Definition i64_max : Z := 2 ^ 63 - 1.

Definition is_u64 (z : Z) : Prop := (0 ≤ z ≤ u64_max)%Z.

(** The value an addition leaves in a [u64], and [as u32]. *)
Definition wrap_u64 (z : Z) : Z := (z mod 2 ^ 64)%Z.
Definition as_u32 (z : Z) : Z := (z mod 2 ^ 32)%Z.

Lemma wrap_u64_id z : is_u64 z → wrap_u64 z = z.
Proof. unfold is_u64, u64_max, wrap_u64. intros. apply Z.mod_small. lia. Qed.

Lemma as_u32_id z : (0 ≤ z ≤ u32_max)%Z → as_u32 z = z.
Proof. unfold u32_max, as_u32. intros. apply Z.mod_small. lia. Qed.

(** [as i64] of a [u64]. *)
Definition as_i64 (z : Z) : Z := if decide (z ≤ i64_max)%Z then z else (z - 2 ^ 64)%Z.

(** [i32::try_from]. *)
(** [i64::try_from] of a [u64]. *)
Definition i64_try_from (z : Z) : option Z :=
  if decide (0 ≤ z < 2 ^ 63)%Z then Some z else None.

Definition i32_try_from (z : Z) : option Z :=
  if decide (- 2 ^ 31 ≤ z < 2 ^ 31)%Z then Some z else None.

(** [chrono::Duration::from_std(d).unwrap_or_else(|_| zero())]: a duration of
    more than [i64::MAX] milliseconds becomes zero. *)
Definition from_std_or_zero (d : Duration) : Duration :=
  if decide (d ≤ i64_max * 1000000)%Z then d else 0%Z.

(** [u64::checked_add]. *)
Definition checked_add (a b : Z) : option Z :=
  if decide (a + b ≤ u64_max)%Z then Some (a + b)%Z else None.

(** [u64::saturating_sub]. *)
Definition saturating_sub (a b : Z) : Z := Z.max 0 (a - b).

(** [u64::div_ceil], for a positive divisor. *)
Definition div_ceil (a b : Z) : Z := (a / b + (if decide (a mod b = 0) then 0 else 1))%Z.

(** ** Shared tactics *)

(** Split every [match]/[if] of a hypothesis and clear the absurd branches. *)
Ltac destr_match H :=
  repeat (lazymatch type of H with
          | context [match ?x with _ => _ end] =>
              let E := fresh "E" in destruct x eqn:E
          end; simplify_eq; try done).

(** The same for the goal. *)
Ltac split_match :=
  repeat (case_match; simplify_eq/=; try done).

(** Turn [bool_decide] and boolean connectives into propositions. *)
Ltac bool_prop :=
  repeat match goal with
  | H : bool_decide _ = true |- _ => apply bool_decide_eq_true_1 in H
  | H : bool_decide _ = false |- _ => apply bool_decide_eq_false_1 in H
  | H : _ && _ = true |- _ => apply andb_true_iff in H as [??]
  | H : _ && _ = false |- _ => apply andb_false_iff in H as [|]
  | H : _ || _ = true |- _ => apply orb_true_iff in H as [|]
  | H : _ || _ = false |- _ => apply orb_false_iff in H as [??]
  | H : negb _ = true |- _ => apply negb_true_iff in H
  | H : negb _ = false |- _ => apply negb_false_iff in H
  | H : Is_true _ |- _ => apply Is_true_true_1 in H
  end.

(** ** Lists *)

(** [iter().find] is [List.find]; [iter_mut().find(P)] followed by a write is
    [update_first]: the first match is rewritten, [None] when there is none. *)
Fixpoint update_first {A} (P : A → bool) (f : A → A) (l : list A) : option (list A) :=
  match l with
  | [] => None
  | x :: l' => if P x then Some (f x :: l') else (cons x) <$> update_first P f l'
  end.

(** [Vec::dedup]: drop consecutive repetitions. *)
Fixpoint dedup {A} `{EqDecision A} (l : list A) : list A :=
  match l with
  | [] => []
  | x :: l' =>
      match l' with
      | y :: _ => if decide (x = y) then dedup l' else x :: dedup l'
      | [] => [x]
      end
  end.

(** [sort_by], which is stable: an insertion sort on the order's test. *)
Fixpoint insert_by {A} (le : A → A → bool) (x : A) (l : list A) : list A :=
  match l with
  | [] => [x]
  | y :: l' => if le x y then x :: l else y :: insert_by le x l'
  end.

Definition sort_by {A} (le : A → A → bool) (l : list A) : list A :=
  foldr (insert_by le) [] l.

Lemma insert_by_perm {A} (le : A → A → bool) x l : insert_by le x l ≡ₚ x :: l.
Proof.
  induction l as [|y l IH]; simpl; [done|]. case_match; [done|].
  rewrite IH. constructor.
Qed.

Lemma sort_by_perm {A} (le : A → A → bool) l : sort_by le l ≡ₚ l.
Proof. induction l as [|x l IH]; simpl; [done|]. by rewrite insert_by_perm, IH. Qed.

Lemma sort_by_sorted {A} (le : A → A → bool) l :
  (∀ x y, le x y = false → le y x = true) →
  (∀ x y z, le x y = true → le y z = true → le x z = true) →
  StronglySorted (fun x y => le x y = true) (sort_by le l).
Proof.
  intros Htot Htr. induction l as [|x l IH]; simpl; [constructor|].
  induction IH as [|y l' Hs IH' Hf]; simpl; [by repeat constructor|].
  destruct (le x y) eqn:E.
  - repeat constructor; [done|done|done|].
    eapply Forall_impl; [exact Hf|]. naive_solver.
  - constructor; [done|]. rewrite insert_by_perm. constructor; auto.
Qed.

Lemma filter_submseteq {A} (P : A → bool) (l : list A) : List.filter P l ⊆+ l.
Proof. induction l as [|x l IH]; simpl; [done|]. case_match; by constructor. Qed.

Lemma submseteq_NoDup {A} (l k : list A) : NoDup k → l ⊆+ k → NoDup l.
Proof. intros Hk [l' Hl]%submseteq_Permutation. rewrite Hl, NoDup_app in Hk. by destruct Hk. Qed.

(** *** Comparisons

    What [sort_by] asks of a comparison, for the comparisons built with [cmp],
    [reverse], keys and [then]. *)

Class TotalCmp {A} (c : A → A → comparison) : Prop := {
  cmp_anti x y : c y x = CompOpp (c x y);
  cmp_trans x y z : c x y = Lt → c y z = Lt → c x z = Lt;
  cmp_eq_l x y z : c x y = Eq → c x z = c y z;
}.

Definition cmp_leb {A} (c : A → A → comparison) (x y : A) : bool :=
  match c x y with Gt => false | _ => true end.

(** [a.cmp(b).then(..)]. *)
Definition cmp_then {A} (c1 c2 : A → A → comparison) (x y : A) : comparison :=
  match c1 x y with Eq => c2 x y | o => o end.

Definition cmp_on {A B} (f : A → B) (c : B → B → comparison) (x y : A) : comparison := c (f x) (f y).
Definition cmp_rev {A} (c : A → A → comparison) (x y : A) : comparison := c y x.

#[export] Typeclasses Opaque cmp_then cmp_on cmp_rev.

#[export] Instance Z_total_cmp : TotalCmp Z.compare.
Proof.
  split; intros.
  - apply Z.compare_antisym.
  - rewrite Z.compare_lt_iff in *. lia.
  - apply Z.compare_eq in H. by subst.
Qed.

#[export] Instance bool_total_cmp : TotalCmp Bool.compare.
Proof. split; intros x y; try intros z; destruct x, y; try destruct z; done. Qed.

#[export] Instance string_total_cmp : TotalCmp String.compare.
Proof.
  split; intros.
  - apply String.compare_antisym.
  - pose proof (OrdersEx.String_as_OT.compare_spec x y) as Hxy.
    pose proof (OrdersEx.String_as_OT.compare_spec y z) as Hyz.
    pose proof (OrdersEx.String_as_OT.compare_spec x z) as Hxz.
    change (OrdersEx.String_as_OT.compare x y) with (String.compare x y) in Hxy.
    change (OrdersEx.String_as_OT.compare y z) with (String.compare y z) in Hyz.
    change (OrdersEx.String_as_OT.compare x z) with (String.compare x z) in Hxz.
    rewrite H in Hxy. rewrite H0 in Hyz. inversion Hxy; inversion Hyz; subst.
    destruct OrdersEx.String_as_OT.lt_strorder as [Hirr Htr].
    assert (OrdersEx.String_as_OT.lt x z) by eauto.
    inversion Hxz as [Heq|Hlt|Hlt]; [|done|].
    + change (x = z) in Heq. subst. by destruct (Hirr z).
    + destruct (Hirr x); eauto.
  - apply String.compare_eq_iff in H. by subst.
Qed.

#[export] Instance cmp_on_total {A B} (f : A → B) c : TotalCmp c → TotalCmp (cmp_on f c).
Proof.
  unfold cmp_on. split; intros; [apply cmp_anti|eapply cmp_trans; eauto|by apply cmp_eq_l].
Qed.

#[export] Instance cmp_rev_total {A} (c : A → A → comparison) : TotalCmp c → TotalCmp (cmp_rev c).
Proof.
  unfold cmp_rev. split; intros; [apply cmp_anti|eapply cmp_trans; eauto|].
  rewrite (cmp_anti x z), (cmp_anti y z). f_equal. apply cmp_eq_l.
  by rewrite cmp_anti, H0.
Qed.

#[export] Instance cmp_then_total {A} (c1 c2 : A → A → comparison) :
  TotalCmp c1 → TotalCmp c2 → TotalCmp (cmp_then c1 c2).
Proof.
  unfold cmp_then. split; intros.
  - rewrite (cmp_anti x y). destruct (c1 x y); simpl; [apply cmp_anti|done|done].
  - destruct (c1 x y) eqn:E1; [|destruct (c1 y z) eqn:E2|]; try done.
    + rewrite (cmp_eq_l x y z) by done. destruct (c1 y z); try done. eapply cmp_trans; eauto.
    + assert (c1 z y = Eq) as E3 by (by rewrite cmp_anti, E2).
      rewrite (cmp_anti z x), (cmp_eq_l z y x E3), cmp_anti, E1. done.
    + by rewrite (cmp_trans x y z).
  - destruct (c1 x y) eqn:E1; try done. rewrite (cmp_eq_l x y z E1).
    destruct (c1 y z); try done. by apply cmp_eq_l.
Qed.

Lemma cmp_leb_total {A} (c : A → A → comparison) `{!TotalCmp c} x y :
  cmp_leb c x y = false → cmp_leb c y x = true.
Proof. unfold cmp_leb. rewrite (cmp_anti x y). by destruct (c x y). Qed.

Lemma cmp_leb_trans {A} (c : A → A → comparison) `{!TotalCmp c} x y z :
  cmp_leb c x y = true → cmp_leb c y z = true → cmp_leb c x z = true.
Proof.
  unfold cmp_leb. destruct (c x y) eqn:E1; [| |done].
  - by rewrite (cmp_eq_l x y z E1).
  - intros _. destruct (c y z) eqn:E2; [| |done]; intros _.
    + assert (c z y = Eq) as E3 by (by rewrite cmp_anti, E2).
      by rewrite (cmp_anti z x), (cmp_eq_l z y x E3), cmp_anti, E1.
    + by rewrite (cmp_trans x y z).
Qed.

Lemma sort_by_cmp_sorted {A} (c : A → A → comparison) `{!TotalCmp c} l :
  StronglySorted (fun x y => cmp_leb c x y = true) (sort_by (cmp_leb c) l).
Proof. apply sort_by_sorted; [apply cmp_leb_total|apply cmp_leb_trans]; apply _. Qed.

(** [.map(|o| o.id).min()]. *)
Definition min_id (l : list Z) : option Z :=
  match l with [] => None | x :: l' => Some (fold_left Z.min l' x) end.

Lemma existsb_exists_elem {A} (P : A → bool) (l : list A) :
  existsb P l = true ↔ ∃ x, x ∈ l ∧ P x = true.
Proof. rewrite existsb_exists. by setoid_rewrite list_elem_of_In. Qed.

Lemma existsb_false {A} (P : A → bool) (l : list A) :
  existsb P l = false ↔ ∀ x, x ∈ l → P x = false.
Proof.
  rewrite <- not_true_iff_false, existsb_exists_elem. split.
  - intros H x Hx. apply not_true_iff_false. naive_solver.
  - intros H (x&Hx&HP). by rewrite H in HP.
Qed.

Lemma elem_of_filterb {A} (P : A → bool) l x : x ∈ List.filter P l ↔ x ∈ l ∧ P x = true.
Proof. by rewrite !list_elem_of_In, filter_In. Qed.

Lemma find_Some_elem {A} (P : A → bool) (l : list A) x :
  List.find P l = Some x → x ∈ l ∧ P x = true.
Proof. intros [??]%find_some. by rewrite list_elem_of_In. Qed.

Lemma find_None_elem {A} (P : A → bool) (l : list A) :
  List.find P l = None ↔ ∀ x, x ∈ l → P x = false.
Proof.
  split.
  - intros H x Hx%list_elem_of_In. by eapply find_none.
  - induction l as [|y l IH]; intros H; [done|]. simpl.
    rewrite H by set_solver. apply IH. set_solver.
Qed.

Lemma update_first_Some {A} (P : A → bool) f (l l' : list A) :
  update_first P f l = Some l' →
  ∃ l1 x l2, l = l1 ++ x :: l2 ∧ l' = l1 ++ f x :: l2 ∧ P x = true ∧
             (∀ y, y ∈ l1 → P y = false).
Proof.
  revert l'; induction l as [|x l IH]; intros l'; simpl; [done|].
  destruct (P x) eqn:E.
  - intros; simplify_eq. exists [], x, l. set_solver.
  - intros (l''&H&->)%fmap_Some_1.
    destruct (IH _ H) as (l1&y&l2&->&->&?&Hn).
    exists (x :: l1), y, l2. repeat split; try done. set_solver.
Qed.

Lemma update_first_None {A} (P : A → bool) f (l : list A) :
  update_first P f l = None ↔ ∀ x, x ∈ l → P x = false.
Proof.
  induction l as [|x l IH]; simpl.
  { split; [intros _ y Hy; by apply not_elem_of_nil in Hy|done]. }
  destruct (P x) eqn:E.
  - split; [done|]. intros H. rewrite (H x) in E; [done|]. apply list_elem_of_here.
  - rewrite fmap_None, IH. split.
    + intros H y [->|Hy]%elem_of_cons; auto.
    + intros H y Hy. apply H. by apply list_elem_of_further.
Qed.

(** The sorted lists produced by [sort_by_key(..); dedup()]. *)
Lemma elem_of_dedup {A} `{EqDecision A} (l : list A) x : x ∈ dedup l ↔ x ∈ l.
Proof.
  induction l as [|y l IH]; [done|]. simpl. destruct l as [|z l]; [done|].
  case_decide; set_solver.
Qed.

Lemma dedup_strict (l : list N) :
  Sorted N.le l → Sorted N.lt (dedup l).
Proof.
  induction 1 as [|x l Hs IH Hd]; simpl; [done|].
  destruct l as [|y l]; [by repeat constructor|].
  inversion Hd; subst. case_decide as Heq; [done|].
  constructor; [done|]. simpl in *.
  assert (H : HdRel N.lt x (dedup (y :: l)) ); [|exact H].
  assert (Hy : ∃ m, dedup (y :: l) = y :: m).
  { clear. revert y. induction l as [|z l IHl]; intros y; simpl; [by exists []|].
    case_decide; subst; [apply IHl|eauto]. }
  destruct Hy as [m ->]. constructor. lia.
Qed.

Lemma fold_min_le l x y : y ∈ x :: l → (fold_left Z.min l x ≤ y)%Z.
Proof.
  revert x y. induction l as [|z l IH]; intros x y; simpl.
  - intros ->%list_elem_of_singleton. lia.
  - intros Hy. destruct (decide (y ∈ l)).
    + apply IH. set_solver.
    + trans (Z.min x z); [apply IH; set_solver|].
      rewrite !elem_of_cons in Hy. destruct Hy as [->|[->|?]]; [lia..|done].
Qed.

Lemma fold_min_elem l x : fold_left Z.min l x ∈ x :: l.
Proof.
  revert x. induction l as [|z l IH]; intros x; simpl; [set_solver|].
  specialize (IH (Z.min x z)). set_unfold.
  destruct IH as [->|?]; [|tauto]. destruct (Z.min_spec x z) as [[_ ->]|[_ ->]]; tauto.
Qed.

Lemma min_id_Some l i : min_id l = Some i → i ∈ l ∧ ∀ j, j ∈ l → (i ≤ j)%Z.
Proof.
  destruct l as [|x l]; simpl; [done|]. intros; simplify_eq.
  split; [apply fold_min_elem|]. intros. by apply fold_min_le.
Qed.

(** ** Ordered maps

    [BTreeMap<K, V>] is a [gmap]; what iterates it sees the entries in key
    order. *)

Class KeyOrd (K : Type) := key_leb : K → K → bool.

#[export] Instance KeyOrd_N : KeyOrd N := N.leb.
#[export] Instance KeyOrd_Z : KeyOrd Z := Z.leb.
#[export] Instance KeyOrd_string : KeyOrd string := String.leb.
#[export] Instance KeyOrd_prod {A B} `{EqDecision A} `{KeyOrd A} `{KeyOrd B} : KeyOrd (A * B) :=
  fun x y => if decide (x.1 = y.1) then key_leb x.2 y.2 else key_leb x.1 y.1.

Section btree.
Context {K : Type} `{Countable K} `{KeyOrd K} {A : Type}.
Implicit Types (m : gmap K A) (k : K) (x : A).

(** [iter()], [keys()], [values()]. *)
Definition btree m : list (K * A) :=
  merge_sort (fun a b => Is_true (key_leb a.1 b.1)) (map_to_list m).
Definition keys m : list K := (btree m).*1.
Definition values m : list A := (btree m).*2.

(** [entry(k).or_insert(x)]. *)
Definition or_insert k x m : gmap K A :=
  match m !! k with Some _ => m | None => <[k := x]> m end.

Lemma btree_perm m : btree m ≡ₚ map_to_list m.
Proof. apply merge_sort_Permutation. Qed.

Lemma elem_of_btree m k x : (k, x) ∈ btree m ↔ m !! k = Some x.
Proof. by rewrite btree_perm, elem_of_map_to_list. Qed.

Lemma elem_of_values m x : x ∈ values m ↔ ∃ k, m !! k = Some x.
Proof.
  unfold values. rewrite list_elem_of_fmap. setoid_rewrite <- elem_of_btree. split.
  - intros ([k x']&->&Hin). by exists k.
  - intros [k Hin]. by exists (k, x).
Qed.

Lemma elem_of_keys m k : k ∈ keys m ↔ is_Some (m !! k).
Proof.
  unfold keys. rewrite list_elem_of_fmap. split.
  - intros ([k' x]&->&Hin%elem_of_btree). by exists x.
  - intros [x Hin%elem_of_btree]. by exists (k, x).
Qed.

Lemma lookup_or_insert m k x k' y :
  or_insert k x m !! k' = Some y ↔
  m !! k' = Some y ∨ (m !! k = None ∧ k' = k ∧ y = x).
Proof.
  unfold or_insert. destruct (m !! k) as [z|] eqn:E.
  - naive_solver.
  - rewrite lookup_insert_Some. split.
    + intros [[-> ->]|[? ?]]; naive_solver.
    + intros [Hy|(_&->&->)]; [|by left]. right. split; [congruence|done].
Qed.

End btree.

Lemma existsb_values {K} `{Countable K} `{KeyOrd K} {A} (P : A → bool) (m : gmap K A) :
  existsb P (values m) = true ↔ ∃ k x, m !! k = Some x ∧ P x = true.
Proof. rewrite existsb_exists_elem. setoid_rewrite elem_of_values. naive_solver. Qed.

(** A loop of removals. *)
Lemma fold_delete_lookup {K A} `{Countable K} (l : list K) (m : gmap K A) k :
  fold_left (fun m x => delete x m) l m !! k = if decide (k ∈ l) then None else m !! k.
Proof.
  revert m. induction l as [|x l IH]; intros m; cbn [fold_left].
  { by rewrite decide_False by apply not_elem_of_nil. }
  rewrite IH, lookup_delete. repeat case_decide; set_solver.
Qed.
