(* ===== verification/Session.v ===== *)
(** * The session state machine

    [engram-core/src/types/session.rs]: the thirteen session states, the table
    of legal transitions, the forced-termination target and the legality of a
    binding disposition. *)

From S2P Require Import Prelude.

(** [SessionState]. *)
Inductive SessionState : Type :=
| Pending | Queued | Created | Active | Unreachable | Parked | Idle
| HostLost | Evacuating | Evicting | Failed | Completed | Dead.

#[export] Instance SessionState_eq_dec : EqDecision SessionState.
Proof. solve_decision. Defined.

Definition all_states : list SessionState :=
  [Pending; Queued; Created; Active; Unreachable; Parked; Idle;
   HostLost; Evacuating; Evicting; Failed; Completed; Dead].

Lemma all_states_complete s : s ∈ all_states.
Proof. destruct s; set_solver. Qed.

#[export] Instance SessionState_finite : finite.Finite SessionState.
Proof.
  refine {| finite.enum := all_states |}.
  - by apply (bool_decide_unpack _).
  - exact all_states_complete.
Defined.

(** [SessionState::reserves_host_memory]. *)
Definition reserves_host_memory (s : SessionState) : bool :=
  match s with
  | Pending | Created | Active | Unreachable | Parked | Evacuating | Evicting => true
  | _ => false
  end.

(** [SessionState::host_memory_reserving_states]: the SQL literals. *)
Definition host_memory_reserving_states : list string :=
  ["pending"; "created"; "active"; "unreachable"; "parked"; "evacuating"; "evicting"]%string.

(** [SessionState::as_str]. *)
Definition as_str (s : SessionState) : string :=
  match s with
  | Pending => "pending"
  | Queued => "queued"
  | Created => "created"
  | Active => "active"
  | Unreachable => "unreachable"
  | Parked => "parked"
  | Idle => "idle"
  | HostLost => "host_lost"
  | Evacuating => "evacuating"
  | Evicting => "evicting"
  | Completed => "completed"
  | Failed => "failed"
  | Dead => "dead"
  end.

(** [SessionState::is_terminal]. *)
Definition is_terminal (s : SessionState) : bool :=
  match s with Failed | Completed | Dead => true | _ => false end.

(** [SessionState::can_transition_to]: one arm per source state. *)
Definition can_transition_to (from target : SessionState) : bool :=
  match from with
  | Pending => match target with Created | Failed | Queued => true | _ => false end
  | Queued => match target with Pending | Idle | Failed => true | _ => false end
  | Created => match target with Active | Failed | HostLost | Idle => true | _ => false end
  | Active =>
      match target with
      | Idle | HostLost | Evacuating | Evicting | Failed | Completed | Dead
      | Unreachable => true
      | _ => false
      end
  | Unreachable =>
      match target with
      | Active | Idle | HostLost | Evicting | Failed | Completed | Dead => true
      | _ => false
      end
  | Idle => match target with Active | Created | Dead | Completed | Queued => true | _ => false end
  | HostLost => match target with Created | Idle | Dead | Completed => true | _ => false end
  | Evacuating =>
      match target with Active | Created | Idle | Dead | Completed => true | _ => false end
  | Evicting =>
      match target with
      | Active | Parked | Idle | HostLost | Dead | Completed => true
      | _ => false
      end
  | Parked =>
      match target with Active | Evicting | HostLost | Dead | Completed => true | _ => false end
  | Failed | Completed | Dead => false
  end.

(** [IllegalTransition]. *)
Record IllegalTransition := { from : SessionState; to : SessionState }.

(** [SessionState::try_transition_to]. *)
Definition try_transition_to (s target : SessionState) :
    result SessionState IllegalTransition :=
  if can_transition_to s target then Ok target else Err {| from := s; to := target |}.

(** [SessionState::terminal_target].  The source asserts with [invariant!]
    that the target is a legal edge; [terminal_target_legal] proves that the
    assertion never fires. *)
Definition terminal_target (s : SessionState) : option SessionState :=
  match s with
  | Active | Unreachable | Parked | Idle | HostLost | Evacuating | Evicting => Some Completed
  | Pending | Queued | Created => Some Failed
  | Failed | Completed | Dead => None
  end.

(** [BindingDisposition]. *)
Inductive BindingDisposition : Type := Detach | Retain | RequireUnbound.

#[export] Instance BindingDisposition_eq_dec : EqDecision BindingDisposition.
Proof. solve_decision. Defined.

(** [SessionState::binding_disposition_legal], of the target state. *)
Definition binding_disposition_legal (target : SessionState) (arriving_bound : bool)
    (d : BindingDisposition) : bool :=
  if negb arriving_bound then true
  else match d with
       | Detach => true
       | RequireUnbound => false
       | Retain =>
           match target with
           | Created | Active | Unreachable | Parked | Evacuating | Evicting
           | HostLost | Idle => true
           | _ => false
           end
       end.

(** The binding a legal transition leaves on the row. *)
Definition disposed {A} (d : BindingDisposition) (b : option A) : option A :=
  match d with Detach => None | _ => b end.

(** ** Reachability along legal edges *)

Definition edge (s t : SessionState) : Prop := can_transition_to s t = true.

#[export] Instance edge_dec : RelDecision edge.
Proof. intros s t. unfold edge. apply _. Defined.

(** States that can own a sandbox after a [Retain]. *)
Definition may_own_sandbox (s : SessionState) : bool :=
  match s with
  | Pending | Queued | Failed | Completed | Dead => false
  | _ => true
  end.

(** ** Lemmas *)

Lemma as_str_inj s t : as_str s = as_str t → s = t.
Proof. by destruct s, t. Qed.

Lemma can_transition_irrefl s : can_transition_to s s = false.
Proof. by destruct s. Qed.

Lemma session_terminal_no_edge s t : is_terminal s = true → can_transition_to s t = false.
Proof. by destruct s, t. Qed.

Lemma terminal_target_legal s t :
  terminal_target s = Some t → can_transition_to s t = true ∧ is_terminal t = true.
Proof. destruct s; simpl; intros; by simplify_eq. Qed.

Lemma try_transition_ok s t u :
  try_transition_to s t = Ok u ↔ u = t ∧ can_transition_to s t = true.
Proof. unfold try_transition_to. split_match; naive_solver. Qed.

Lemma binding_retain_owner t d :
  binding_disposition_legal t true d = true → d ≠ Detach → may_own_sandbox t = true.
Proof. by destruct d, t. Qed.

Lemma edges_reach s : rtc edge Pending s.
Proof.
  assert (Hc : rtc edge Pending Created) by by apply rtc_once.
  assert (Ha : rtc edge Pending Active) by (by apply (rtc_r _ Created)).
  assert (He : rtc edge Pending Evicting) by (by apply (rtc_r _ Active)).
  destruct s; try done; try (by apply rtc_once); try (by apply (rtc_r _ Active)).
  by apply (rtc_r _ Evicting).
Qed.

(** The session state machine is well formed: every state is reachable from
    [Pending] along legal edges; a state is terminal exactly when it has no
    outgoing edge and exactly when forced termination has nothing to do; the
    forced-termination target of any other state is one legal edge away and
    terminal, so the assertion in [terminal_target] never fires. *)
Theorem session_fsm_wellformed s :
  rtc edge Pending s ∧
  (is_terminal s = true ↔ ∀ t, can_transition_to s t = false) ∧
  (is_terminal s = true ↔ terminal_target s = None) ∧
  (∀ t, terminal_target s = Some t → can_transition_to s t = true ∧ is_terminal t = true) ∧
  (∀ t, try_transition_to s t = if can_transition_to s t then Ok t
                                else Err {| from := s; to := t |}).
Proof.
  split; [apply edges_reach|]. split; [|split; [by destruct s|split; [apply terminal_target_legal|done]]].
  split; [intros H t; by apply session_terminal_no_edge|].
  intros H. destruct (terminal_target s) as [t|] eqn:Et; [|by destruct s].
  apply terminal_target_legal in Et as [He _]. by rewrite H in He.
Qed.

(** The SQL literal list twin agrees with the predicate: a state's name is
    in [host_memory_reserving_states] exactly when the state reserves host
    memory, and names determine states. *)
Theorem session_reserving_literals s t :
  (as_str s ∈ host_memory_reserving_states ↔ reserves_host_memory s = true) ∧
  (as_str s = as_str t ↔ s = t).
Proof.
  split; [|split; [apply as_str_inj|by intros ->]].
  rewrite <- (bool_decide_eq_true (_ ∈ _)). by destruct s.
Qed.
