(* ===== verification/Teleport.v ===== *)
(** * Teleport phases

    [engram-core/src/types/teleport.rs]: the durable record of one session
    move between hosts and the table of its phases. *)

From S2P Require Import Prelude Session.

Inductive TeleportKind : Type := Snapshot | Live.

Inductive TeleportReason : Type := RetireHost | AdminDrain | Ui.

(** [TeleportPhase], in a module of its own because it shares constructor
    names with [SessionState]. *)
Module TeleportPhase.

Inductive t : Type :=
| Admitted_ | Captured | Restored | Committed | Attached | Done
| RollingBack | Aborted | Failed.

#[global] Instance t_eq_dec : EqDecision t.
Proof. solve_decision. Defined.

Definition as_str (p : t) : string :=
  match p with
  | Admitted_ => "admitted"
  | Captured => "captured"
  | Restored => "restored"
  | Committed => "committed"
  | Attached => "attached"
  | Done => "done"
  | RollingBack => "rolling_back"
  | Aborted => "aborted"
  | Failed => "failed"
  end.

Definition is_terminal (p : t) : bool :=
  match p with Done | Aborted | Failed => true | _ => false end.

Definition dest_reserving_phases : list string :=
  ["admitted"; "captured"; "restored"; "rolling_back"]%string.

Definition source_reserving_phases : list string := ["committed"; "attached"]%string.

Definition can_transition_to (p target : t) : bool :=
  match p with
  | Admitted_ => match target with Admitted_ | Captured | RollingBack => true | _ => false end
  | Captured => match target with Restored | RollingBack => true | _ => false end
  | Restored => match target with Committed | RollingBack => true | _ => false end
  | Committed => match target with Attached | Failed => true | _ => false end
  | Attached => match target with Done | Failed => true | _ => false end
  | RollingBack => match target with Aborted | Failed => true | _ => false end
  | Done | Aborted | Failed => false
  end.

(** The two reservation filters of the placement sums, as the code writes
    them: membership of [as_str] in the literal lists. *)
Definition reserves_dest (p : t) : bool := bool_decide (as_str p ∈ dest_reserving_phases).
Definition reserves_source (p : t) : bool := bool_decide (as_str p ∈ source_reserving_phases).

Lemma reserves_open p : reserves_dest p || reserves_source p = negb (is_terminal p).
Proof. by destruct p. Qed.

Lemma reserves_disjoint p : reserves_dest p && reserves_source p = false.
Proof. by destruct p. Qed.

Lemma terminal_no_edge p q : is_terminal p = true → can_transition_to p q = false.
Proof. by destruct p, q. Qed.

End TeleportPhase.

(** [TeleportRow]. *)
Module TeleportRow.

Record t := Mk {
  id : TeleportId;
  session_id : SessionId;
  kind : TeleportKind;
  reason : TeleportReason;
  phase : TeleportPhase.t;
  source_host_id : HostId;
  source_sandbox_id : SandboxId;
  dest_host_id : HostId;
  dest_sandbox_id : option SandboxId;
  pinned_dest : bool;
  mem_budget_mib : Z;
  cpu_budget_vcpus : Z;
  snapshot_id : option SnapshotId;
  export_id : option string;
  live_payload : option json;
  attempts : Z;
  error : option string;
  created_at : DateTime;
  updated_at : DateTime;
  finished_at : option DateTime;
}.

#[global] Instance t_eta : Eta t := fun r =>
  Mk (id r) (session_id r) (kind r) (reason r) (phase r) (source_host_id r)
     (source_sandbox_id r) (dest_host_id r) (dest_sandbox_id r) (pinned_dest r)
     (mem_budget_mib r) (cpu_budget_vcpus r) (snapshot_id r) (export_id r)
     (live_payload r) (attempts r) (error r) (created_at r) (updated_at r)
     (finished_at r).

(** An open teleport has not reached a terminal phase. *)
Definition is_open (r : t) : bool := negb (TeleportPhase.is_terminal (phase r)).

End TeleportRow.

(** [TeleportAdmitRequest]. *)
Module TeleportAdmitRequest.

Record t := Mk {
  id : TeleportId;
  session_id : SessionId;
  reason : TeleportReason;
  epoch : Z;
  candidates : list HostId;
  pinned_dest : option HostId;
  mem_budget_mib : Z;
  cpu_budget_vcpus : Z;
  max_open_per_dest : N;
  kind : TeleportKind;
}.

End TeleportAdmitRequest.

(** [TeleportAdmitOutcome]. *)
Inductive TeleportAdmitOutcome : Type :=
| Admitted_ (r : TeleportRow.t)
| NoFit
| SessionNotActive (s : SessionState)
| Fenced.

(** [TeleportPatch]. *)
Module TeleportPatch.

Record t := Mk {
  dest_sandbox_id : option SandboxId;
  snapshot_id : option SnapshotId;
  export_id : option string;
  live_payload : option json;
  kind : option TeleportKind;
  error : option string;
}.

Definition default : t := Mk None None None None None None.

End TeleportPatch.

(** [TeleportSettle]. *)
Module TeleportSettle.

Record t := Mk {
  error : string;
  session : option SessionState;
  entomb_source : bool;
}.

End TeleportSettle.

Inductive SourceRelease : Type := DestroyAcked | SourceHostGone.
