(* ===== verification/OpLogSpec.v ===== *)
(** * The session op log: data and abstract specification

    [engram-core/src/types/session_op.rs]: the rows of the durable per-session
    op log, and the abstract machine every implementation of the log refines.
    The machine keeps a finite map from op ids to rows and the fencing epoch of
    each session; its steps are the log's operations.  The invariants that make
    an epoch a fence are proved once, here. *)

From S2P Require Import Prelude.

(** ** Data *)

(** [OpKind]. *)
Inductive OpKind : Type :=
| CreateBoot | Resume | Evict | Deliver | Destroy | CheckpointFinalize | Teleport.

#[export] Instance OpKind_eq_dec : EqDecision OpKind.
Proof. solve_decision. Defined.

Module OpKind.

Definition as_str (k : OpKind) : string :=
  match k with
  | CreateBoot => "create_boot"
  | Resume => "resume"
  | Evict => "evict"
  | Deliver => "deliver"
  | Destroy => "destroy"
  | CheckpointFinalize => "checkpoint_finalize"
  | Teleport => "teleport"
  end.

Definition parse (s : string) : option OpKind :=
  if bool_decide (s = "create_boot")%string then Some CreateBoot
  else if bool_decide (s = "resume")%string then Some Resume
  else if bool_decide (s = "evict")%string then Some Evict
  else if bool_decide (s = "deliver")%string then Some Deliver
  else if bool_decide (s = "destroy")%string then Some Destroy
  else if bool_decide (s = "checkpoint_finalize")%string then Some CheckpointFinalize
  else if bool_decide (s = "teleport")%string then Some Teleport
  else None.

End OpKind.

(** [OpState]. *)
Module OpState.

Inductive t : Type := Queued | Running | Done | Failed | Cancelled.

#[global] Instance t_eq_dec : EqDecision t.
Proof. solve_decision. Defined.

Definition as_str (s : t) : string :=
  match s with
  | Queued => "queued"
  | Running => "running"
  | Done => "done"
  | Failed => "failed"
  | Cancelled => "cancelled"
  end.

Definition parse (s : string) : option t :=
  if bool_decide (s = "queued")%string then Some Queued
  else if bool_decide (s = "running")%string then Some Running
  else if bool_decide (s = "done")%string then Some Done
  else if bool_decide (s = "failed")%string then Some Failed
  else if bool_decide (s = "cancelled")%string then Some Cancelled
  else None.

(** [matches!(state, Queued | Running)]. *)
Definition active (s : t) : bool := match s with Queued | Running => true | _ => false end.

End OpState.

(** [SessionOp]. *)
Module SessionOp.

Record t := Mk {
  id : Z;
  session_id : SessionId;
  kind : OpKind;
  payload : json;
  state : OpState.t;
  step : option string;
  epoch : option Z;
  attempts : Z;
  not_before : option DateTime;
  idempotency_key : option string;
  claimed_by : option string;
  error : option string;
  created_at : DateTime;
  finished_at : option DateTime;
}.

#[global] Instance t_eta : Eta t := fun o =>
  Mk (id o) (session_id o) (kind o) (payload o) (state o) (step o) (epoch o)
     (attempts o) (not_before o) (idempotency_key o) (claimed_by o) (error o)
     (created_at o) (finished_at o).

End SessionOp.

(** [EnqueueOutcome]. *)
Inductive EnqueueOutcome : Type :=
| Claimed (o : SessionOp.t)
| QueuedAs (o : SessionOp.t)
| Duplicate.

(** ** The abstract log *)

Record alog := ALog {
  a_ops : gmap Z SessionOp.t;
  a_epochs : gmap SessionId Z;
}.

#[export] Instance alog_eta : Eta alog := fun l => ALog (a_ops l) (a_epochs l).

Section alog_ops.
Import SessionOp.
Implicit Types (l : alog) (o : SessionOp.t) (s : SessionId).

(** The fencing epoch of a session, 0 before its first claim. *)
Definition epoch_of l s : Z := default 0%Z (a_epochs l !! s).

(** A row of session [s] satisfying [P]. *)
Definition lane_has l s (P : SessionOp.t → bool) : Prop :=
  ∃ i o, a_ops l !! i = Some o ∧ session_id o = s ∧ P o = true.

Definition is_running o : bool := bool_decide (state o = OpState.Running).
Definition is_queued o : bool := bool_decide (state o = OpState.Queued).
Definition is_active o : bool := OpState.active (state o).

(** A queued row whose backoff has elapsed. *)
Definition is_due (now : DateTime) o : bool :=
  is_queued o && match not_before o with None => true | Some nb => bool_decide (nb ≤ now)%Z end.

(** The row an enqueue inserts. *)
Definition fresh_op (i : Z) s (k : OpKind) (p : json) (key : option string)
    (now : DateTime) : SessionOp.t :=
  Mk i s k p OpState.Queued None None 0 None key None None now None.

(** The stamp of a claim under epoch [e]. *)
Definition claim_stamp (e : Z) (by_ : string) o : SessionOp.t :=
  o <| state := OpState.Running |> <| epoch := Some e |>
    <| attempts ::= Z.succ |> <| claimed_by := Some by_ |>.

(** Bump the epoch of [s] and stamp row [o]. *)
Definition a_claim (by_ : string) o l : alog :=
  let e := (epoch_of l (session_id o) + 1)%Z in
  ALog (<[id o := claim_stamp e by_ o]> (a_ops l)) (<[session_id o := e]> (a_epochs l)).

(** The id is new: larger than every row's. *)
Definition fresh_id l (i : Z) : Prop := ∀ j o, a_ops l !! j = Some o → (j < i)%Z.

(** The fence of a step write: the row is running under this epoch. *)
Definition fenced l (i e : Z) o : Prop :=
  a_ops l !! i = Some o ∧ epoch o = Some e ∧ state o = OpState.Running.

(** The keyed duplicate an enqueue refuses. *)
Definition has_duplicate l s (k : OpKind) (key : option string) : Prop :=
  is_Some key ∧
  lane_has l s (fun o => bool_decide (kind o = k) && bool_decide (idempotency_key o = key)
                          && is_active o).

(** The filter of the bulk writes: the queued rows of one kind. *)
Definition queued_of s (k : OpKind) o : bool :=
  bool_decide (session_id o = s) && bool_decide (kind o = k)
  && bool_decide (state o = OpState.Queued).

(** The operations of the log, as a transition relation.  Every constructor is
    the effect of one successful call; a call that reports "busy", "stale" or
    "duplicate" leaves the log unchanged and is no step. *)
Inductive astep : alog → alog → Prop :=
| as_enqueue_claimed l i s k p key by_ now :
    fresh_id l i → ¬ has_duplicate l s k key → ¬ lane_has l s is_active →
    astep l (a_claim by_ (fresh_op i s k p key now) l)
| as_enqueue_queued l i s k p key now :
    fresh_id l i → ¬ has_duplicate l s k key → lane_has l s is_active →
    astep l (l <| a_ops := <[i := fresh_op i s k p key now]> (a_ops l) |>)
| as_claim_head l i o by_ now :
    a_ops l !! i = Some o → is_due now o = true →
    ¬ lane_has l (session_id o) is_running →
    (∀ j oj, a_ops l !! j = Some oj → session_id oj = session_id o →
       is_due now oj = true → (i ≤ j)%Z) →
    astep l (a_claim by_ o l)
| as_record_step l i e o st :
    fenced l i e o →
    astep l (l <| a_ops := <[i := o <| step := Some st |>]> (a_ops l) |>)
| as_finish l i e o st err now :
    fenced l i e o → OpState.active st = false →
    astep l (l <| a_ops := <[i := o <| state := st |> <| error := err |>
                                    <| finished_at := Some now |>]> (a_ops l) |>)
| as_requeue l i e o until err :
    fenced l i e o →
    astep l (l <| a_ops := <[i := o <| state := OpState.Queued |>
                                    <| not_before := Some until |> <| error := Some err |>
                                    <| epoch := None |> <| claimed_by := None |>]> (a_ops l) |>)
| as_cancel l (P : SessionOp.t → bool) now :
    (∀ o, P o = true → state o = OpState.Queued) →
    astep l (l <| a_ops := (fun o => if P o then o <| state := OpState.Cancelled |>
                                                   <| finished_at := Some now |> else o)
                           <$> a_ops l |>)
| as_wake l (P : SessionOp.t → bool) now :
    (∀ o, P o = true → state o = OpState.Queued) →
    astep l (l <| a_ops := (fun o => if P o then o <| not_before :=
                                Some (match not_before o with
                                      | None => now | Some nb => Z.min nb now end) |> else o)
                           <$> a_ops l |>)
| as_payload l i o p :
    a_ops l !! i = Some o → state o = OpState.Running →
    astep l (l <| a_ops := <[i := o <| payload := p |>]> (a_ops l) |>)
| as_reclaim l i o by_ :
    a_ops l !! i = Some o → state o = OpState.Running →
    astep l (a_claim by_ o l).

End alog_ops.

(** ** The invariant of the log *)

Section alog_inv.
Import SessionOp.
Implicit Types (l : alog) (o : SessionOp.t) (s : SessionId).

(** Two rows of one lane that would both answer the same idempotency key. *)
Definition same_key o1 o2 : Prop :=
  session_id o1 = session_id o2 ∧ kind o1 = kind o2 ∧
  idempotency_key o1 = idempotency_key o2 ∧ is_Some (idempotency_key o1).

Record ainv l : Prop := {
  inv_id : ∀ i o, a_ops l !! i = Some o → id o = i;
  inv_one_running : ∀ i j oi oj,
    a_ops l !! i = Some oi → a_ops l !! j = Some oj →
    session_id oi = session_id oj →
    state oi = OpState.Running → state oj = OpState.Running → i = j;
  inv_running_epoch : ∀ i o,
    a_ops l !! i = Some o → state o = OpState.Running →
    epoch o = Some (epoch_of l (session_id o));
  inv_queued_epoch : ∀ i o,
    a_ops l !! i = Some o → state o = OpState.Queued → epoch o = None;
  inv_epoch_bound : ∀ i o e,
    a_ops l !! i = Some o → epoch o = Some e → (1 ≤ e ≤ epoch_of l (session_id o))%Z;
  inv_key_unique : ∀ i j oi oj,
    a_ops l !! i = Some oi → a_ops l !! j = Some oj → same_key oi oj →
    is_active oi = true → is_active oj = true → i = j;
  inv_epoch_pos : ∀ s, (0 ≤ epoch_of l s)%Z;
}.

Lemma ainv_empty : ainv (ALog ∅ ∅).
Proof. split; intros *; simpl; try rewrite lookup_empty; try done. Qed.

Lemma is_running_true o : is_running o = true ↔ state o = OpState.Running.
Proof. unfold is_running. by rewrite bool_decide_eq_true. Qed.

Lemma is_queued_true o : is_queued o = true ↔ state o = OpState.Queued.
Proof. unfold is_queued. by rewrite bool_decide_eq_true. Qed.

Lemma is_active_iff o :
  is_active o = true ↔ state o = OpState.Queued ∨ state o = OpState.Running.
Proof. unfold is_active. destruct (state o); naive_solver. Qed.

Lemma is_due_queued now o : is_due now o = true → state o = OpState.Queued.
Proof. unfold is_due. intros [H _]%andb_true_iff. by apply is_queued_true. Qed.

Lemma queued_of_state s k o : queued_of s k o = true → state o = OpState.Queued.
Proof. unfold queued_of. intros. by bool_prop. Qed.

(** Cancelling one queued row is a bulk cancel with a one-row filter. *)
Lemma as_cancel_one l i o now :
  (∀ j oj, a_ops l !! j = Some oj → id oj = j) →
  a_ops l !! i = Some o → state o = OpState.Queued →
  astep l (l <| a_ops := <[i := o <| state := OpState.Cancelled |>
                                  <| finished_at := Some now |>]> (a_ops l) |>).
Proof.
  intros Hids Hi Hq.
  set (P o' := bool_decide (state o' = OpState.Queued) && bool_decide (id o' = i)).
  assert (Hmap : <[i := o <| state := OpState.Cancelled |> <| finished_at := Some now |>]>
                   (a_ops l) =
          (fun o' => if P o' then o' <| state := OpState.Cancelled |> <| finished_at := Some now |>
                     else o') <$> a_ops l).
  { apply map_eq. intros j. rewrite lookup_fmap, lookup_insert. unfold P.
    case_decide as Hj; subst.
    - rewrite Hi. simpl. rewrite !bool_decide_eq_true_2; [done|by eapply Hids|done].
    - destruct (a_ops l !! j) as [oj|] eqn:Ej; [|done]. simpl.
      rewrite (bool_decide_eq_false_2 (id oj = i)) by (rewrite (Hids _ _ Ej); done).
      by rewrite andb_false_r. }
  rewrite Hmap. apply as_cancel. unfold P. intros o' ?. by bool_prop.
Qed.

(** Replacing one row: the obligations that remain. *)
Lemma ainv_put l eps i o :
  ainv l →
  id o = i →
  let l' := ALog (<[i := o]> (a_ops l)) eps in
  (∀ s, s ≠ session_id o → epoch_of l' s = epoch_of l s) →
  (epoch_of l (session_id o) ≤ epoch_of l' (session_id o))%Z →
  (∀ j oj, j ≠ i → a_ops l !! j = Some oj → session_id oj = session_id o →
     state oj = OpState.Running →
     state o ≠ OpState.Running ∧ epoch_of l' (session_id o) = epoch_of l (session_id o)) →
  (state o = OpState.Running → epoch o = Some (epoch_of l' (session_id o))) →
  (state o = OpState.Queued → epoch o = None) →
  (∀ e, epoch o = Some e → 1 ≤ e ≤ epoch_of l' (session_id o))%Z →
  (∀ j oj, j ≠ i → a_ops l !! j = Some oj → same_key o oj →
     is_active o = true → is_active oj = true → False) →
  ainv l'.
Proof.
  intros Hinv Hid l' Hother Hmono Hlane Hrun Hque Hbound Hkey.
  assert (Hge : ∀ s, (epoch_of l s ≤ epoch_of l' s)%Z).
  { intros s. destruct (decide (s = session_id o)) as [->|Hs]; [done|].
    rewrite Hother by done. lia. }
  split; simpl; intros *; rewrite ?lookup_insert_Some.
  - intros [[-> ->]|[_ ?]]; eauto using inv_id.
  - intros [[<- <-]|[??]] [[<- <-]|[??]] Hs ??; [done|..].
    + destruct (Hlane j oj); congruence.
    + destruct (Hlane i0 oi); congruence.
    + eapply (inv_one_running l); eauto.
  - intros [[<- <-]|[Hne Hj]] Hst; [auto|].
    rewrite (inv_running_epoch l Hinv _ _ Hj Hst). f_equal.
    destruct (decide (session_id o0 = session_id o)) as [Hs|Hs].
    + destruct (Hlane _ _ (not_eq_sym Hne) Hj Hs Hst) as [_ He]. by rewrite Hs.
    + by rewrite Hother.
  - intros [[<- <-]|[_ Hj]] Hst; [auto|]. by eapply (inv_queued_epoch l).
  - intros [[<- <-]|[_ Hj]] Hst; [auto|].
    destruct (inv_epoch_bound l Hinv _ _ _ Hj Hst).
    pose proof (Hge (session_id o0)). lia.
  - intros [[<- <-]|[??]] [[<- <-]|[??]] Hs ??; [done|..].
    + exfalso. eapply Hkey; eauto.
    + exfalso. eapply (Hkey i0 oi); eauto.
      destruct Hs as (?&?&?&?). repeat split; congruence.
    + eapply (inv_key_unique l); eauto.
  - pose proof (inv_epoch_pos l Hinv s). pose proof (Hge s). lia.
Qed.

(** Rewriting every row without touching its lane identity. *)
Lemma ainv_map l f :
  ainv l →
  (∀ o, id (f o) = id o ∧ session_id (f o) = session_id o ∧ kind (f o) = kind o ∧
        idempotency_key (f o) = idempotency_key o ∧ epoch (f o) = epoch o) →
  (∀ o, state (f o) = state o ∨
        (state o = OpState.Queued ∧ is_active (f o) = false)) →
  ainv (l <| a_ops := f <$> a_ops l |>).
Proof.
  intros Hinv Hf Hst. set (l' := l <| a_ops := _ |>).
  assert (Hep : ∀ s, epoch_of l' s = epoch_of l s) by done.
  assert (Hact : ∀ o, is_active (f o) = true → is_active o = true ∧ state (f o) = state o).
  { intros o Ha. destruct (Hst o) as [He|[? Hn]]; [|congruence].
    unfold is_active in *. by rewrite <- He. }
  assert (Hrunf : ∀ o, state (f o) = OpState.Running → state o = OpState.Running).
  { intros o Hr. destruct (Hst o) as [<-|[_ Hn]]; [done|].
    unfold is_active in Hn. by rewrite Hr in Hn. }
  split; unfold l'; simpl; intros *; rewrite ?lookup_fmap_Some.
  - intros (o0 & <- & H). destruct (Hf o0) as [-> _]. by apply (inv_id l).
  - intros (o1 & <- & H1) (o2 & <- & H2) Hs Hr1 Hr2.
    destruct (Hf o1) as (_&E1&_), (Hf o2) as (_&E2&_).
    eapply (inv_one_running l); eauto; congruence.
  - intros (o0 & <- & H) Hr. destruct (Hf o0) as (_&->&_&_&->).
    by apply (inv_running_epoch l Hinv i), Hrunf.
  - intros (o0 & <- & H) Hq. destruct (Hf o0) as (_&_&_&_&->).
    eapply (inv_queued_epoch l); eauto. destruct (Hst o0) as [<-|[? _]]; done.
  - intros (o0 & <- & H). destruct (Hf o0) as (_&->&_&_&->).
    by eapply (inv_epoch_bound l).
  - intros (o1 & <- & H1) (o2 & <- & H2) Hk Ha1 Ha2.
    apply Hact in Ha1 as [??], Ha2 as [??].
    eapply (inv_key_unique l); eauto.
    destruct Hk as (?&?&?&?), (Hf o1) as (_&E1&E2&E3&_), (Hf o2) as (_&F1&F2&F3&_).
    repeat split; congruence.
  - apply (inv_epoch_pos l Hinv).
Qed.

Lemma epoch_of_claim by_ o l s :
  epoch_of (a_claim by_ o l) s =
    (epoch_of l s + if decide (s = session_id o) then 1 else 0)%Z.
Proof.
  unfold a_claim, epoch_of; simpl. rewrite lookup_insert.
  repeat case_decide; simplify_eq/=; unfold epoch_of; try done; lia.
Qed.

(** Claiming [o], be it a fresh row, the head or a stale running row. *)
Lemma ainv_claim l o by_ :
  ainv l →
  (∀ j oj, j ≠ id o → a_ops l !! j = Some oj → session_id oj = session_id o →
     state oj ≠ OpState.Running) →
  (∀ j oj, j ≠ id o → a_ops l !! j = Some oj → same_key o oj →
     is_active oj = true → False) →
  ainv (a_claim by_ o l).
Proof.
  intros Hinv Hlane Hkey. unfold a_claim.
  pose proof (inv_epoch_pos l Hinv (session_id o)).
  pose proof (epoch_of_claim by_ o l) as He. unfold a_claim in He.
  apply ainv_put; try done; simpl.
  - intros s Hs. rewrite He. case_decide; [done|lia].
  - rewrite He. case_decide; lia.
  - intros j oj ? Hj ??. exfalso. by eapply Hlane.
  - intros _. rewrite He. by rewrite decide_True.
  - intros e ?; simplify_eq. rewrite He, decide_True by done. lia.
  - intros j oj Hne Hj Hk _ Ha. by eapply Hkey.
Qed.

End alog_inv.

(** ** Preservation and its consequences *)

Section alog_steps.
Import SessionOp.
Implicit Types (l : alog) (o : SessionOp.t) (s : SessionId).

Lemma lane_free_running l s j o :
  ¬ lane_has l s is_active → a_ops l !! j = Some o → session_id o = s →
  is_active o = false.
Proof. intros Hn Hj Hs. apply not_true_is_false. intros Ha. apply Hn. by exists j, o. Qed.

Lemma no_duplicate_key l s k key i p now j oj :
  ¬ has_duplicate l s k key → a_ops l !! j = Some oj →
  same_key (fresh_op i s k p key now) oj → is_active oj = true → False.
Proof.
  intros Hd Hj (Hs&Hk&Hkey&Hsome) Ha. simpl in *. apply Hd. split; [done|].
  exists j, oj. rewrite Ha. by rewrite !bool_decide_eq_true_2 by done.
Qed.

Lemma same_key_put l i o j oj :
  ainv l → a_ops l !! i = Some o → is_active o = true →
  j ≠ i → a_ops l !! j = Some oj → same_key o oj → is_active oj = true → False.
Proof. intros Hinv Hi Ha Hne Hj Hk Haj. apply Hne. symmetry. by eapply (inv_key_unique l). Qed.

(** A write to one row that keeps its lane identity and does not claim. *)
Lemma ainv_update l i o o' :
  ainv l → a_ops l !! i = Some o → state o = OpState.Running →
  id o' = id o → session_id o' = session_id o → kind o' = kind o →
  idempotency_key o' = idempotency_key o →
  (state o' = OpState.Running → epoch o' = epoch o) →
  (state o' = OpState.Queued → epoch o' = None) →
  (epoch o' = epoch o ∨ epoch o' = None) →
  ainv (l <| a_ops := <[i := o']> (a_ops l) |>).
Proof.
  intros Hinv Hi Hst Hid Hs Hk Hkey Hr Hq He.
  pose proof (inv_id l Hinv _ _ Hi) as Hi'.
  pose proof (inv_running_epoch l Hinv _ _ Hi Hst) as Hre.
  assert (Hact : is_active o = true) by (apply is_active_iff; by right).
  change (ainv (ALog (<[i := o']> (a_ops l)) (a_epochs l))).
  apply ainv_put; try done; try congruence.
  - intros j oj Hne Hj Hsj Hrj. exfalso. apply Hne.
    by eapply (inv_one_running l Hinv j i); eauto; congruence.
  - intros Hro. rewrite Hr, Hs, Hre; done.
  - intros e Hee. destruct He as [He|He]; [|congruence].
    rewrite Hs. eapply (inv_epoch_bound l Hinv i o); congruence.
  - intros j oj Hne Hj (?&?&?&?) _ Haj. eapply (same_key_put l i o j oj); eauto.
    repeat split; congruence.
Qed.

Lemma astep_inv l l' : ainv l → astep l l' → ainv l'.
Proof.
  intros Hinv Hstep; destruct Hstep.
  - apply ainv_claim; [done|..]; simpl; intros j oj Hne Hj.
    + intros Hs Hr. pose proof (lane_free_running _ _ _ _ H1 Hj Hs) as Hf.
      unfold is_active in Hf. by rewrite Hr in Hf.
    + by eapply no_duplicate_key.
  - change (ainv (ALog (<[i := fresh_op i s k p key now]> (a_ops l)) (a_epochs l))).
    apply ainv_put; try done. intros j oj _ Hj Hk _. by eapply no_duplicate_key.
  - pose proof (inv_id l Hinv _ _ H) as Hid.
    apply ainv_claim; [done|..]; intros j oj Hne Hj.
    + intros Hs Hr. apply H1. exists j, oj. by rewrite is_running_true.
    + intros Hk Ha. eapply (same_key_put l i o j oj); eauto; [|congruence].
      apply is_active_iff. left. by eapply is_due_queued.
  - destruct H as (Hi&He&Hr). eapply ainv_update; try done; simpl; auto; congruence.
  - destruct H as (Hi&He&Hr). eapply ainv_update; try done; simpl; auto.
    by intros ->.
  - destruct H as (Hi&He&Hr). eapply ainv_update; try done; simpl; auto; congruence.
  - apply ainv_map; [done|intros o; by destruct (P o)|].
    intros o. destruct (P o) eqn:E; [right|by left]. split; [by apply H|done].
  - apply ainv_map; [done|intros o; by destruct (P o)|].
    intros o. left. by destruct (P o).
  - eapply ainv_update; eauto.
    intros Hq. simpl in Hq. congruence.
  - pose proof (inv_id l Hinv _ _ H) as Hid.
    apply ainv_claim; [done|..]; intros j oj Hne Hj.
    + intros Hs Hr. apply Hne. rewrite Hid. by eapply (inv_one_running l).
    + intros Hk Ha. eapply (same_key_put l i o j oj); eauto; [|congruence].
      apply is_active_iff. by right.
Qed.

Lemma astep_epoch_mono l l' s : astep l l' → (epoch_of l s ≤ epoch_of l' s)%Z.
Proof.
  destruct 1; rewrite ?epoch_of_claim; try case_decide; try lia;
    unfold epoch_of; simpl; lia.
Qed.

Lemma asteps_inv l l' : ainv l → rtc astep l l' → ainv l'.
Proof. intros Hi. induction 1; eauto using astep_inv. Qed.

Lemma asteps_epoch_mono l l' s : rtc astep l l' → (epoch_of l s ≤ epoch_of l' s)%Z.
Proof.
  induction 1 as [|l l1 l2 H _ IH]; [lia|].
  pose proof (astep_epoch_mono _ _ s H). lia.
Qed.

(** A fenced write only succeeds under the lane's current epoch. *)
Lemma fenced_current l i e o :
  ainv l → fenced l i e o → e = epoch_of l (session_id o).
Proof.
  intros Hinv (Hi&He&Hr). pose proof (inv_running_epoch l Hinv _ _ Hi Hr). congruence.
Qed.

(** Once a later claim has bumped the lane's epoch, the fence of an older
    epoch never opens again. *)
Lemma stale_fence_closed l l' i e o o' :
  ainv l → rtc astep l l' →
  a_ops l !! i = Some o → (e < epoch_of l (session_id o))%Z →
  session_id o' = session_id o → ¬ fenced l' i e o'.
Proof.
  intros Hinv Hsteps Hi He Hs Hf.
  pose proof (fenced_current _ _ _ _ (asteps_inv _ _ Hinv Hsteps) Hf) as ->.
  pose proof (asteps_epoch_mono _ _ (session_id o) Hsteps). rewrite Hs in He. lia.
Qed.

(** Finished rows are history: no operation changes them. *)
Lemma astep_history l l' i o :
  ainv l → astep l l' → a_ops l !! i = Some o → is_active o = false →
  a_ops l' !! i = Some o.
Proof.
  intros Hinv Hstep Hi Ha.
  assert (Hna : ∀ j oj, a_ops l !! j = Some oj → is_active oj = true → j ≠ i) by
    (intros j oj Hj Haj ->; congruence).
  destruct Hstep; simpl; rewrite ?lookup_fmap, ?Hi.
  - rewrite lookup_insert_ne; [done|]. pose proof (H _ _ Hi). lia.
  - rewrite lookup_insert_ne; [done|]. pose proof (H _ _ Hi). lia.
  - rewrite lookup_insert_ne; [done|]. rewrite (inv_id l Hinv _ _ H).
    apply (Hna _ _ H), is_active_iff. left. by eapply is_due_queued.
  - destruct H as (?&?&?). rewrite lookup_insert_ne; [done|].
    eapply Hna; [done|]. apply is_active_iff. by right.
  - destruct H as (?&?&?). rewrite lookup_insert_ne; [done|].
    eapply Hna; [done|]. apply is_active_iff. by right.
  - destruct H as (?&?&?). rewrite lookup_insert_ne; [done|].
    eapply Hna; [done|]. apply is_active_iff. by right.
  - simpl. destruct (P o) eqn:E; [|done]. apply H in E. unfold is_active in Ha.
    by rewrite E in Ha.
  - simpl. destruct (P o) eqn:E; [|done]. apply H in E. unfold is_active in Ha.
    by rewrite E in Ha.
  - rewrite lookup_insert_ne; [done|]. eapply Hna; [done|]. apply is_active_iff. by right.
  - rewrite (inv_id l Hinv _ _ H), lookup_insert_ne; [done|].
    eapply Hna; [done|]. apply is_active_iff. by right.
Qed.

Lemma asteps_history l l' i o :
  ainv l → rtc astep l l' → a_ops l !! i = Some o → is_active o = false →
  a_ops l' !! i = Some o.
Proof. intros Hinv. induction 1; eauto using astep_inv, astep_history. Qed.

(** A row never changes lane. *)
Lemma astep_session l l' i o :
  ainv l → astep l l' → a_ops l !! i = Some o →
  ∃ o', a_ops l' !! i = Some o' ∧ session_id o' = session_id o.
Proof.
  intros Hinv Hstep Hi.
  assert (Hput : ∀ j o1 o2, a_ops l !! j = Some o1 → session_id o2 = session_id o1 →
    ∃ o', <[j := o2]> (a_ops l) !! i = Some o' ∧ session_id o' = session_id o).
  { intros j o1 o2 Hj Hs. destruct (decide (j = i)) as [->|Hne].
    - rewrite lookup_insert_eq. eexists; split; [done|congruence].
    - rewrite lookup_insert_ne by done. by eexists. }
  destruct Hstep; unfold fenced in *; destruct_and?; simpl; rewrite ?lookup_fmap, ?Hi;
    try (eapply Hput; [done..]).
  - pose proof (H _ _ Hi). rewrite lookup_insert_ne by lia. by eexists.
  - pose proof (H _ _ Hi). rewrite lookup_insert_ne by lia. by eexists.
  - rewrite (inv_id l Hinv _ _ H). by eapply Hput.
  - simpl. eexists; split; [done|]. by destruct (P o).
  - simpl. eexists; split; [done|]. by destruct (P o).
  - rewrite (inv_id l Hinv _ _ H). by eapply Hput.
Qed.

Lemma asteps_session l l' i o o' :
  ainv l → rtc astep l l' → a_ops l !! i = Some o → a_ops l' !! i = Some o' →
  session_id o' = session_id o.
Proof.
  intros Hinv Hr. revert o Hinv. induction Hr as [|l l1 l2 Hs _ IH]; intros o Hinv Hi Hi'.
  - congruence.
  - destruct (astep_session _ _ _ _ Hinv Hs Hi) as (o1&H1&<-).
    eapply IH; eauto using astep_inv.
Qed.

End alog_steps.

(** Dropping a lane with its epoch (the row of a deleted session cascades). *)
Section purge.
Import SessionOp.

Definition purge (s : SessionId) (l : alog) : alog :=
  ALog (filter (fun io => session_id io.2 ≠ s) (a_ops l)) (delete s (a_epochs l)).

Lemma ainv_purge l s : ainv l → ainv (purge s l).
Proof.
  intros Hinv.
  assert (Hep : ∀ s', s' ≠ s → epoch_of (purge s l) s' = epoch_of l s').
  { intros s' Hs. unfold epoch_of, purge. simpl. by rewrite lookup_delete_ne. }
  split; simpl; intros *; rewrite ?map_lookup_filter_Some; simpl.
  - intros [Ho _]. by eapply inv_id.
  - intros [H1 _] [H2 _]. by eapply inv_one_running.
  - intros [Ho Hs] Hr. rewrite Hep by done. by eapply inv_running_epoch.
  - intros [Ho _]. by eapply inv_queued_epoch.
  - intros [Ho Hs] He. rewrite Hep by done. by eapply inv_epoch_bound.
  - intros [H1 _] [H2 _]. by eapply inv_key_unique.
  - destruct (decide (s0 = s)) as [->|Hs]; [|rewrite Hep by done; by apply inv_epoch_pos].
    unfold epoch_of, purge. simpl. by rewrite lookup_delete_eq.
Qed.

End purge.

Create HintDb oplog.
#[export] Hint Resolve ainv_empty astep_inv asteps_inv astep_epoch_mono asteps_epoch_mono
  astep_history asteps_history fenced_current : oplog.
