(* ===== verification/OpLog.v ===== *)
(** * The in-memory op log

    [InMemoryOpLog] of [engram-core/src/types/session_op.rs], the reference
    implementation of the op-log surface: a vector of rows in id order, the
    next id and the epoch of each session.  The mutex makes each method one
    atomic step, so a method is a function from the state under the lock to its
    result and the next state; [now] is the value of [Utc::now()]. *)

From S2P Require Import Prelude OpLogSpec.

Module InMemoryOpLog.
Import SessionOp.

(** [OpLogInner]. *)
Record inner := Inner {
  next_id : Z;
  ops : list SessionOp.t;
  epochs : gmap SessionId Z;
}.

#[global] Instance inner_eta : Eta inner := fun i => Inner (next_id i) (ops i) (epochs i).

(** [OpLogInner::default()]. *)
Definition empty : inner := Inner 0 [] ∅.

(** ** Methods *)

Definition current_epoch (st : inner) (s : SessionId) : Z := default 0%Z (epochs st !! s).

(** The two lines [*epochs.entry(s).or_insert(0) += 1] of every claim. *)
Definition bump_epoch (s : SessionId) (st : inner) : Z * inner :=
  let e := (current_epoch st s + 1)%Z in (e, st <| epochs := <[s := e]> (epochs st) |>).

Definition enqueue_and_claim (s : SessionId) (k : OpKind) (p : json)
    (key : option string) (by_ : string) (now : DateTime) (st : inner) :
    EnqueueOutcome * inner :=
  let dup :=
    match key with
    | Some key =>
        existsb (fun o => bool_decide (session_id o = s) && bool_decide (kind o = k)
                          && bool_decide (idempotency_key o = Some key)
                          && OpState.active (state o)) (ops st)
    | None => false
    end in
  if dup then (Duplicate, st)
  else
    let st := st <| next_id ::= Z.succ |> in
    let i := next_id st in
    let op := Mk i s k p OpState.Queued None None 0 None key None None now None in
    let claimable :=
      negb (existsb (fun o => bool_decide (session_id o = s)
                    && (bool_decide (state o = OpState.Running)
                        || (bool_decide (state o = OpState.Queued)
                            && bool_decide (id o < i)%Z))) (ops st)) in
    if claimable then
      let '(e, st) := bump_epoch s st in
      let op := op <| state := OpState.Running |> <| epoch := Some e |>
                   <| attempts := 1%Z |> <| claimed_by := Some by_ |> in
      (Claimed op, st <| ops ::= fun l => l ++ [op] |>)
    else (QueuedAs op, st <| ops ::= fun l => l ++ [op] |>).

Definition enqueue_and_claim_exclusive (s : SessionId) (k : OpKind) (p : json)
    (by_ : string) (now : DateTime) (st : inner) : option SessionOp.t * inner :=
  let free := negb (existsb (fun o => bool_decide (session_id o = s)
                                      && OpState.active (state o)) (ops st)) in
  if negb free then (None, st)
  else
    let st := st <| next_id ::= Z.succ |> in
    let i := next_id st in
    let '(e, st) := bump_epoch s st in
    let op := Mk i s k p OpState.Running None (Some e) 1 None None (Some by_) None now None in
    (Some op, st <| ops ::= fun l => l ++ [op] |>).

Definition claim_head (s : SessionId) (by_ : string) (now : DateTime) (st : inner) :
    option SessionOp.t * inner :=
  if existsb (fun o => bool_decide (session_id o = s)
                       && bool_decide (state o = OpState.Running)) (ops st)
  then (None, st)
  else
    let due := List.filter (fun o => bool_decide (session_id o = s)
                 && bool_decide (state o = OpState.Queued)
                 && match not_before o with
                    | None => true | Some nb => bool_decide (nb ≤ now)%Z end) (ops st) in
    match min_id (id <$> due) with
    | None => (None, st)
    | Some head_id =>
        let '(e, st) := bump_epoch s st in
        let stamp o := o <| state := OpState.Running |> <| epoch := Some e |>
                         <| attempts ::= Z.succ |> <| claimed_by := Some by_ |> in
        match update_first (fun o => bool_decide (id o = head_id)) stamp (ops st) with
        | Some ops' =>
            (stamp <$> List.find (fun o => bool_decide (id o = head_id)) (ops st),
             st <| ops := ops' |>)
        | None => (None, st)
        end
    end.

Definition due_sessions (now : DateTime) (st : inner) : list SessionId :=
  let due :=
    List.filter (fun o => negb (existsb (fun r => bool_decide (session_id r = session_id o)
                             && bool_decide (state r = OpState.Running)) (ops st)))
      (List.filter (fun o => bool_decide (state o = OpState.Queued)
                 && match not_before o with
                    | None => true | Some nb => bool_decide (nb ≤ now)%Z end) (ops st)) in
  dedup (merge_sort N.le (session_id <$> due)).

(** The fence of a step write: [id == op_id && epoch == Some(epoch) && Running]. *)
Definition fence (op_id e : Z) (o : SessionOp.t) : bool :=
  bool_decide (id o = op_id) && bool_decide (epoch o = Some e)
  && bool_decide (state o = OpState.Running).

(** [match ops.iter_mut().find(P) { Some(op) => { f; true } None => false }]. *)
Definition find_mut (P : SessionOp.t → bool) (f : SessionOp.t → SessionOp.t) (st : inner) :
    bool * inner :=
  match update_first P f (ops st) with
  | Some ops' => (true, st <| ops := ops' |>)
  | None => (false, st)
  end.

Definition record_step (op_id e : Z) (stp : string) (st : inner) : bool * inner :=
  find_mut (fence op_id e) (fun o => o <| step := Some stp |>) st.

Definition heartbeat (op_id e : Z) (st : inner) : bool := existsb (fence op_id e) (ops st).

Definition finish (op_id e : Z) (final : OpState.t) (err : option string) (now : DateTime)
    (st : inner) : bool * inner :=
  find_mut (fence op_id e)
    (fun o => o <| state := final |> <| error := err |> <| finished_at := Some now |>) st.

(** [chrono::Duration::milliseconds(backoff.as_millis())]. *)
Definition as_millis (d : Duration) : Duration := (d / 1000000 * 1000000)%Z.

Definition requeue_with_backoff (op_id e : Z) (backoff : Duration) (err : string)
    (now : DateTime) (st : inner) : bool * inner :=
  find_mut (fence op_id e)
    (fun o => o <| state := OpState.Queued |> <| not_before := Some (now + as_millis backoff)%Z |>
                <| error := Some err |> <| epoch := None |> <| claimed_by := None |>) st.

Definition cancel_queued (s : SessionId) (k : OpKind) (now : DateTime) (st : inner) :
    bool * inner :=
  (existsb (queued_of s k) (ops st),
   st <| ops ::= fmap (fun o => if queued_of s k o
                                then o <| state := OpState.Cancelled |>
                                       <| finished_at := Some now |> else o) |>).

Definition wake_queued_kind (s : SessionId) (k : OpKind) (now : DateTime) (st : inner) :
    nat * inner :=
  (length (List.filter (queued_of s k) (ops st)),
   st <| ops ::= fmap (fun o => if queued_of s k o
                                then o <| not_before := Some (match not_before o with
                                                              | None => now
                                                              | Some nb => Z.min nb now end) |>
                                else o) |>).

Definition pending_exists (s : SessionId) (k : OpKind) (st : inner) : bool :=
  existsb (fun o => bool_decide (session_id o = s) && bool_decide (kind o = k)
                    && OpState.active (state o)) (ops st).

Definition cancel_by_id (op_id : Z) (now : DateTime) (st : inner) : bool * inner :=
  find_mut (fun o => bool_decide (id o = op_id) && bool_decide (state o = OpState.Queued))
    (fun o => o <| state := OpState.Cancelled |> <| finished_at := Some now |>) st.

(** [None] is the panic of [payload["_cancel"] = true] on a payload that is
    neither an object nor null. *)
Definition request_cancel_running (s : SessionId) (k : OpKind) (st : inner) :
    option (bool * inner) :=
  let P o := bool_decide (session_id o = s) && bool_decide (kind o = k)
             && bool_decide (state o = OpState.Running) in
  match List.find P (ops st) with
  | None => Some (false, st)
  | Some o =>
      p ← json_index_set "_cancel" (JBool true) (payload o);
      Some (find_mut P (fun o => o <| payload := p |>) st)
  end.

Definition cancel_requested (op_id : Z) (st : inner) : bool :=
  match List.find (fun o => bool_decide (id o = op_id)) (ops st) with
  | Some o => match json_get "_cancel" (payload o) with
              | Some (JBool true) => true | _ => false end
  | None => false
  end.

Definition running_for (s : SessionId) (st : inner) : option SessionOp.t :=
  List.find (fun o => bool_decide (session_id o = s)
                      && bool_decide (state o = OpState.Running)) (ops st).

Definition get (op_id : Z) (st : inner) : option SessionOp.t :=
  List.find (fun o => bool_decide (id o = op_id)) (ops st).

(** ** The state-changing calls, as one interface *)

Inductive call : Type :=
| CEnqueue (s : SessionId) (k : OpKind) (p : json) (key : option string) (by_ : string) (now : DateTime)
| CExclusive (s : SessionId) (k : OpKind) (p : json) (by_ : string) (now : DateTime)
| CClaimHead (s : SessionId) (by_ : string) (now : DateTime)
| CRecordStep (op_id e : Z) (stp : string)
| CFinish (op_id e : Z) (final : OpState.t) (err : option string) (now : DateTime)
| CRequeue (op_id e : Z) (backoff : Duration) (err : string) (now : DateTime)
| CCancelQueued (s : SessionId) (k : OpKind) (now : DateTime)
| CWake (s : SessionId) (k : OpKind) (now : DateTime)
| CCancelById (op_id : Z) (now : DateTime)
| CRequestCancel (s : SessionId) (k : OpKind).

(** The state a call leaves; [None] when it panics. *)
Definition exec (c : call) (st : inner) : option inner :=
  match c with
  | CEnqueue s k p key by_ now => Some (enqueue_and_claim s k p key by_ now st).2
  | CExclusive s k p by_ now => Some (enqueue_and_claim_exclusive s k p by_ now st).2
  | CClaimHead s by_ now => Some (claim_head s by_ now st).2
  | CRecordStep i e stp => Some (record_step i e stp st).2
  | CFinish i e final err now => Some (finish i e final err now st).2
  | CRequeue i e b err now => Some (requeue_with_backoff i e b err now st).2
  | CCancelQueued s k now => Some (cancel_queued s k now st).2
  | CWake s k now => Some (wake_queued_kind s k now st).2
  | CCancelById i now => Some (cancel_by_id i now st).2
  | CRequestCancel s k => snd <$> request_cancel_running s k st
  end.

(** [finish] is only called with a final state. *)
Definition call_ok (c : call) : bool :=
  match c with CFinish _ _ final _ _ => negb (OpState.active final) | _ => true end.

Fixpoint exec_all (cs : list call) (st : inner) : option inner :=
  match cs with
  | [] => Some st
  | c :: cs => exec c st ≫= exec_all cs
  end.

(** ** Abstraction *)

Definition ops_map (l : list SessionOp.t) : gmap Z SessionOp.t :=
  list_to_map ((fun o => (id o, o)) <$> l).

Definition abs (st : inner) : alog := ALog (ops_map (ops st)) (epochs st).

(** Rows carry distinct ids, none above the counter. *)
Record wf (st : inner) : Prop := {
  wf_nodup : NoDup (id <$> ops st);
  wf_next : ∀ o, o ∈ ops st → (id o ≤ next_id st)%Z;
}.

Lemma lookup_ops_map l i o :
  NoDup (id <$> l) → ops_map l !! i = Some o ↔ o ∈ l ∧ id o = i.
Proof.
  intros Hnd. unfold ops_map. rewrite <- elem_of_list_to_map.
  - rewrite list_elem_of_fmap. naive_solver.
  - by rewrite <- list_fmap_compose.
Qed.

Lemma ops_map_snoc l o :
  id o ∉ id <$> l → ops_map (l ++ [o]) = <[id o := o]> (ops_map l).
Proof.
  intros Hn. unfold ops_map. rewrite fmap_app. simpl. apply list_to_map_snoc.
  by rewrite <- list_fmap_compose.
Qed.

Lemma ops_map_fmap f l :
  (∀ o, id (f o) = id o) → ops_map (f <$> l) = f <$> ops_map l.
Proof.
  intros Hf. unfold ops_map. rewrite <- list_to_map_fmap, <- !list_fmap_compose.
  f_equal. apply list_fmap_ext. intros ? o _. simpl. by rewrite Hf.
Qed.

Lemma ops_map_update l1 o o' l2 :
  NoDup (id <$> l1 ++ o :: l2) → id o' = id o →
  ops_map (l1 ++ o' :: l2) = <[id o := o']> (ops_map (l1 ++ o :: l2)).
Proof.
  intros Hnd Hid.
  assert (Hnd' : NoDup (id <$> l1 ++ o' :: l2)).
  { rewrite fmap_app, fmap_cons in Hnd |- *. by rewrite Hid. }
  apply map_eq. intros i. apply option_eq. intros x.
  rewrite lookup_insert_Some, !lookup_ops_map by done.
  rewrite fmap_app, fmap_cons, NoDup_app, NoDup_cons in Hnd.
  destruct Hnd as (Hn1&Hdis&Hn2&Hn3).
  assert (Hno : ∀ y, y ∈ l1 ++ l2 → id y ≠ id o).
  { intros y [Hy|Hy]%elem_of_app He.
    - eapply (Hdis (id y)); [by apply list_elem_of_fmap_2|]. rewrite He. by left.
    - apply Hn2. rewrite <- He. by apply list_elem_of_fmap_2. }
  rewrite !elem_of_app, !elem_of_cons. split.
  - intros [Hx <-].
    assert (x = o' ∨ x ∈ l1 ++ l2) as [->|Hin] by (rewrite elem_of_app; tauto); [by left|].
    right. split; [by apply not_eq_sym, Hno|]. rewrite elem_of_app in Hin. tauto.
  - intros [[<- <-]|[Hne [Hx <-]]]; [tauto|]. split; [|done].
    destruct Hx as [?|[->|?]]; [tauto|congruence|tauto].
Qed.

Lemma log_lookup_abs st i o :
  wf st → a_ops (abs st) !! i = Some o ↔ o ∈ ops st ∧ id o = i.
Proof. intros H. apply lookup_ops_map, H. Qed.

(** A lane test of the code is the lane predicate of the specification. *)
Lemma log_lane_has_abs st s P :
  wf st →
  lane_has (abs st) s P ↔
  existsb (fun o => bool_decide (session_id o = s) && P o) (ops st) = true.
Proof.
  intros Hwf. rewrite existsb_exists_elem. unfold lane_has. split.
  - intros (i&o&Hi&Hs&HP). apply log_lookup_abs in Hi as [? _]; [|done].
    exists o. by rewrite bool_decide_eq_true_2, HP by done.
  - intros (o&Ho&[Hs%bool_decide_eq_true HP]%andb_true_iff).
    exists (id o), o. rewrite log_lookup_abs; done.
Qed.

(** ** Refinement *)

(** A write of one row of the abstract log. *)
Definition put_row (i : Z) (o : SessionOp.t) (l : alog) : alog := l <| a_ops := <[i := o]> (a_ops l) |>.

(** A write of the owner of row [i] under epoch [e]: it is done if that row runs
    under that epoch, and else nothing is. *)
Definition fenced_write (l : alog) (i e : Z) (f : SessionOp.t → SessionOp.t) (l' : alog) : Prop :=
  (∃ o, fenced l i e o ∧ l' = put_row i (f o) l) ∨ (∀ o, ¬ fenced l i e o) ∧ l' = l.

(** The head of a lane: its due row with the smallest id. *)
Definition lane_head (l : alog) (s : SessionId) (now : DateTime) (o : SessionOp.t) : Prop :=
  a_ops l !! id o = Some o ∧ session_id o = s ∧ is_due now o = true ∧
  ∀ j oj, a_ops l !! j = Some oj → session_id oj = s → is_due now oj = true → (id o ≤ j)%Z.

(** The specification of each call: its effect on the abstract log, and when it
    has none. *)
Definition acall (c : call) (l l' : alog) : Prop :=
  match c with
  | CEnqueue s k p key by_ now =>
      has_duplicate l s k key ∧ l' = l ∨
      ¬ has_duplicate l s k key ∧ ∃ i, fresh_id l i ∧
        (lane_has l s is_active ∧ l' = put_row i (fresh_op i s k p key now) l ∨
         ¬ lane_has l s is_active ∧ l' = a_claim by_ (fresh_op i s k p key now) l)
  | CExclusive s k p by_ now =>
      lane_has l s is_active ∧ l' = l ∨
      ¬ lane_has l s is_active ∧ ∃ i, fresh_id l i ∧ l' = a_claim by_ (fresh_op i s k p None now) l
  | CClaimHead s by_ now =>
      (lane_has l s is_running ∨ ¬ lane_has l s (is_due now)) ∧ l' = l ∨
      ¬ lane_has l s is_running ∧ ∃ o, lane_head l s now o ∧ l' = a_claim by_ o l
  | CRecordStep i e stp => fenced_write l i e (fun o => o <| step := Some stp |>) l'
  | CFinish i e final err now =>
      fenced_write l i e (fun o => o <| state := final |> <| error := err |> <| finished_at := Some now |>) l'
  | CRequeue i e backoff err now =>
      fenced_write l i e (fun o => o <| state := OpState.Queued |> <| not_before := Some (now + as_millis backoff)%Z |>
                            <| error := Some err |> <| epoch := None |> <| claimed_by := None |>) l'
  | CCancelQueued s k now =>
      l' = l <| a_ops := (fun o => if queued_of s k o then o <| state := OpState.Cancelled |>
                                      <| finished_at := Some now |> else o) <$> a_ops l |>
  | CWake s k now =>
      l' = l <| a_ops := (fun o => if queued_of s k o then o <| not_before :=
                            Some (match not_before o with None => now | Some nb => Z.min nb now end) |> else o)
                         <$> a_ops l |>
  | CCancelById i now =>
      let waits o := a_ops l !! i = Some o ∧ state o = OpState.Queued in
      (∃ o, waits o ∧ l' = put_row i (o <| state := OpState.Cancelled |> <| finished_at := Some now |>) l) ∨
      (∀ o, ¬ waits o) ∧ l' = l
  | CRequestCancel s k =>
      let runs o := a_ops l !! id o = Some o ∧ session_id o = s ∧ kind o = k ∧ state o = OpState.Running in
      (∃ o p, runs o ∧ json_index_set "_cancel" (JBool true) (payload o) = Some p ∧
         l' = put_row (id o) (o <| payload := p |>) l) ∨
      (∀ o, ¬ runs o) ∧ l' = l
  end.

(** A call does what its specification says. *)
Definition refines (c : call) (st st' : inner) : Prop := wf st' ∧ acall c (abs st) (abs st').

(** A call is one step of the abstract log or leaves it alone. *)
Lemma acall_step c st l' :
  wf st → call_ok c = true → acall c (abs st) l' → l' = abs st ∨ astep (abs st) l'.
Proof.
  intros Hwf Hok. assert (Hid : ∀ j o, a_ops (abs st) !! j = Some o → id o = j).
  { intros j o Hj. unfold abs in Hj. cbn in Hj. by apply lookup_ops_map in Hj as [_ ?]; [|apply Hwf]. }
  destruct c; cbn.
  - intros [[_ ->]|(Hd&i&Hi&[[Ha ->]|[Ha ->]])]; [by left|right; by apply as_enqueue_queued|right; by apply as_enqueue_claimed].
  - intros [[_ ->]|(Ha&i&Hi&->)]; [by left|right]. apply as_enqueue_claimed; [done| |done]. by intros [[] _].
  - intros [[_ ->]|(Hr&o&(Ho&<-&Hd&Hmin)&->)]; [by left|right]. by eapply as_claim_head.
  - intros [(o&Ho&->)|[_ ->]]; [right; by eapply as_record_step|by left].
  - intros [(o&Ho&->)|[_ ->]]; [right|by left]. eapply as_finish; [done|]. by apply negb_true_iff.
  - intros [(o&Ho&->)|[_ ->]]; [right; by eapply as_requeue|by left].
  - intros ->. right. apply as_cancel, queued_of_state.
  - intros ->. right. apply as_wake, queued_of_state.
  - intros [(o&[Ho Hq]&->)|[_ ->]]; [right|by left]. by apply as_cancel_one.
  - intros [(o&p&(Ho&_&_&Hr)&_&->)|[_ ->]]; [right|by left]. by apply as_payload.
Qed.

Lemma fresh_next st : wf st → fresh_id (abs st) (next_id st + 1).
Proof.
  intros Hwf j o [Ho <-]%log_lookup_abs; [|done]. pose proof (wf_next _ Hwf _ Ho). lia.
Qed.

Lemma fresh_next_notin st : wf st → (next_id st + 1)%Z ∉ id <$> ops st.
Proof.
  intros Hwf (o&He&Ho)%list_elem_of_fmap. pose proof (wf_next _ Hwf _ Ho). lia.
Qed.

Lemma wf_snoc st o eps :
  wf st → id o = (next_id st + 1)%Z → wf (Inner (next_id st + 1) (ops st ++ [o]) eps).
Proof.
  intros Hwf Hid. split; simpl.
  - rewrite fmap_app, NoDup_app. repeat split; [apply Hwf| |by apply NoDup_singleton].
    intros x Hx ->%list_elem_of_singleton. rewrite Hid in Hx. by apply fresh_next_notin in Hx.
  - intros x [Hx| ->%list_elem_of_singleton]%elem_of_app; [|lia].
    pose proof (wf_next _ Hwf _ Hx). lia.
Qed.

Lemma abs_snoc st o eps :
  wf st → id o = (next_id st + 1)%Z →
  abs (Inner (next_id st + 1) (ops st ++ [o]) eps) =
    ALog (<[id o := o]> (a_ops (abs st))) eps.
Proof.
  intros Hwf Hid. unfold abs. simpl. rewrite ops_map_snoc; [done|].
  rewrite Hid. by apply fresh_next_notin.
Qed.

Lemma current_epoch_abs st s : current_epoch st s = epoch_of (abs st) s.
Proof. done. Qed.

(** The claimability test of an enqueue is an empty lane. *)
Lemma claimable_abs st s :
  wf st →
  existsb (fun o => bool_decide (session_id o = s)
                    && (bool_decide (state o = OpState.Running)
                        || (bool_decide (state o = OpState.Queued)
                            && bool_decide (id o < next_id st + 1)%Z))) (ops st)
  = existsb (fun o => bool_decide (session_id o = s) && is_active o) (ops st).
Proof.
  intros Hwf. apply eq_true_iff_eq. rewrite !existsb_exists_elem.
  apply exist_proper; intros o. split; intros [Ho Hb]; (split; [done|]);
    pose proof (wf_next _ Hwf _ Ho); unfold is_active in *;
    rewrite andb_true_iff in *; destruct Hb as [-> Hb]; (split; [done|]);
    destruct (state o); try done.
  rewrite (bool_decide_eq_true_2 (id o < _)%Z) by lia. done.
Qed.

Lemma duplicate_abs st s k key :
  wf st →
  has_duplicate (abs st) s k key ↔
  match key with
  | Some key =>
      existsb (fun o => bool_decide (session_id o = s) && bool_decide (kind o = k)
                        && bool_decide (idempotency_key o = Some key)
                        && OpState.active (state o)) (ops st)
  | None => false
  end = true.
Proof.
  intros Hwf. unfold has_duplicate. destruct key as [key|]; [|by split; [intros [[] _]|]].
  rewrite log_lane_has_abs by done. rewrite !existsb_exists_elem. split.
  - intros [_ (o&Ho&H)]. exists o. split; [done|].
    by rewrite <- !andb_assoc in *.
  - intros (o&Ho&H). split; [by eexists|]. exists o. split; [done|].
    by rewrite <- !andb_assoc in *.
Qed.

Lemma log_refines_enqueue s k p key by_ now st :
  wf st → refines (CEnqueue s k p key by_ now) st (enqueue_and_claim s k p key by_ now st).2.
Proof.
  intros Hwf. unfold enqueue_and_claim.
  pose proof (duplicate_abs st s k key Hwf) as Hdup.
  match goal with |- context [if ?d then (Duplicate, _) else _] => destruct d eqn:Ed end.
  { split; [done|]. left. split; [by apply Hdup|done]. }
  assert (Hnd : ¬ has_duplicate (abs st) s k key) by (rewrite Hdup; congruence).
  unfold setter. simpl. change (Z.succ (next_id st)) with (next_id st + 1)%Z.
  rewrite claimable_abs by done.
  pose proof (log_lane_has_abs st s is_active Hwf) as Hlane.
  destruct (existsb _ (ops st)) eqn:Ea; simpl.
  - split; [by apply wf_snoc|]. right. rewrite abs_snoc by done. split; [done|].
    eexists. split; [by apply fresh_next|]. left. split; [by apply Hlane|done].
  - split; [by apply wf_snoc|]. right. rewrite abs_snoc by done. split; [done|].
    eexists. split; [by apply fresh_next|]. right. split; [rewrite Hlane; congruence|done].
Qed.

Lemma log_refines_exclusive s k p by_ now st :
  wf st → refines (CExclusive s k p by_ now) st (enqueue_and_claim_exclusive s k p by_ now st).2.
Proof.
  intros Hwf. unfold enqueue_and_claim_exclusive. rewrite negb_involutive.
  pose proof (log_lane_has_abs st s is_active Hwf) as Hlane. unfold is_active in Hlane.
  destruct (existsb _ (ops st)) eqn:Ea.
  { split; [done|]. left. split; [by apply Hlane|done]. }
  unfold setter. simpl. change (Z.succ (next_id st)) with (next_id st + 1)%Z.
  split; [by apply wf_snoc|]. right. rewrite abs_snoc by done. split; [unfold is_active; rewrite Hlane; congruence|].
  eexists. split; [by apply fresh_next|done].
Qed.

(** A write to the first match is a write to one abstract row. *)
Lemma find_mut_abs P f st :
  wf st → (∀ o, id (f o) = id o) →
  (find_mut P f st = (false, st) ∧ ∀ o, o ∈ ops st → P o = false) ∨
  (∃ o st', find_mut P f st = (true, st') ∧ wf st' ∧ o ∈ ops st ∧ P o = true ∧
     a_ops (abs st) !! id o = Some o ∧
     abs st' = (abs st) <| a_ops := <[id o := f o]> (a_ops (abs st)) |> ∧
     List.find P (ops st) = Some o).
Proof.
  intros Hwf Hf. unfold find_mut. destruct (update_first P f (ops st)) as [l'|] eqn:E.
  - right. apply update_first_Some in E as (l1&o&l2&Hl&->&HP&Hfst).
    assert (Ho : o ∈ ops st) by (rewrite Hl; set_solver).
    eexists o, _. split; [done|]. split; [|split; [done|split; [done|split; [|split]]]].
    + split; simpl.
      * pose proof (wf_nodup _ Hwf) as Hnd. rewrite Hl in Hnd.
        rewrite fmap_app, fmap_cons in Hnd |- *. by rewrite Hf.
      * intros x Hx. assert (Hx' : x ∈ ops st ∨ x = f o).
        { rewrite Hl. set_solver. }
        destruct Hx' as [Hx'| ->]; [by apply Hwf|]. rewrite Hf. by apply Hwf.
    + by apply log_lookup_abs.
    + unfold abs, setter. simpl. f_equal. rewrite Hl.
      apply ops_map_update; [|done]. rewrite <- Hl. apply Hwf.
    + rewrite Hl. clear -HP Hfst. induction l1 as [|x l1 IH]; simpl; [by rewrite HP|].
      rewrite (Hfst x) by (by left). apply IH. intros y Hy. apply Hfst. by right.
  - left. split; [done|]. by rewrite update_first_None in E.
Qed.

Lemma fence_fenced st op_id e o :
  wf st → o ∈ ops st → fence op_id e o = true → id o = op_id ∧ fenced (abs st) op_id e o.
Proof.
  intros Hwf Ho H. unfold fence in H. bool_prop. split; [done|].
  split; [by apply log_lookup_abs|done].
Qed.

Lemma fenced_fence st op_id e o :
  wf st → fenced (abs st) op_id e o → o ∈ ops st ∧ fence op_id e o = true.
Proof.
  intros Hwf ([Ho Hid]%log_lookup_abs&He&Hr); [|done]. split; [done|]. unfold fence.
  by rewrite !bool_decide_eq_true_2.
Qed.

(** Every write under the fence is a fenced write. *)
Lemma refines_fenced st op_id e f :
  wf st → (∀ o, id (f o) = id o) →
  wf (find_mut (fence op_id e) f st).2 ∧
  fenced_write (abs st) op_id e f (abs (find_mut (fence op_id e) f st).2).
Proof.
  intros Hwf Hf.
  destruct (find_mut_abs (fence op_id e) f st Hwf Hf)
    as [[-> Hno]|(o&st'&->&Hwf'&Ho&HP&_&Habs&_)]; (split; [done|]).
  - right. split; [|done]. intros o [Ho HP]%fenced_fence; [|done]. by rewrite Hno in HP.
  - destruct (fence_fenced st op_id e o Hwf Ho HP) as [Hid Hfen]. left. exists o. split; [done|].
    simpl. by rewrite Habs, Hid.
Qed.

(** The bulk writes. *)
Lemma log_abs_map st f :
  (∀ o, id (f o) = id o) →
  abs (st <| ops ::= fmap f |>) = (abs st) <| a_ops := f <$> a_ops (abs st) |>.
Proof. intros Hf. unfold abs, setter. simpl. by rewrite ops_map_fmap. Qed.

Lemma log_wf_map st f :
  wf st → (∀ o, id (f o) = id o) → wf (st <| ops ::= fmap f |>).
Proof.
  intros Hwf Hf. split; simpl.
  - rewrite <- list_fmap_compose.
    rewrite (list_fmap_ext _ id) by (intros; simpl; apply Hf). apply Hwf.
  - intros x (o&->&Ho)%list_elem_of_fmap. rewrite Hf. by apply Hwf.
Qed.

Lemma log_refines_cancel_queued s k now st :
  wf st → refines (CCancelQueued s k now) st (cancel_queued s k now st).2.
Proof.
  intros Hwf. unfold cancel_queued, snd.
  assert (Hid : ∀ o, id (if queued_of s k o then o <| state := OpState.Cancelled |>
                         <| finished_at := Some now |> else o) = id o)
    by (intros o; by destruct (queued_of s k o)).
  split; [by apply log_wf_map|]. by apply log_abs_map.
Qed.

Lemma log_refines_wake s k now st : wf st → refines (CWake s k now) st (wake_queued_kind s k now st).2.
Proof.
  intros Hwf. unfold wake_queued_kind, snd.
  set (f o := if queued_of s k o then _ else _).
  assert (Hid : ∀ o, id (f o) = id o) by (intros o; unfold f; by destruct (queued_of s k o)).
  split; [by apply log_wf_map|]. by apply log_abs_map.
Qed.

(** The candidates of [claim_head]: the due rows of the lane. *)
Lemma elem_of_due st s now o :
  o ∈ List.filter (fun o => bool_decide (session_id o = s)
                 && bool_decide (state o = OpState.Queued)
                 && match not_before o with
                    | None => true | Some nb => bool_decide (nb ≤ now)%Z end) (ops st) ↔
  o ∈ ops st ∧ session_id o = s ∧ is_due now o = true.
Proof.
  rewrite !list_elem_of_In, filter_In. unfold is_due, is_queued.
  rewrite !andb_true_iff, !bool_decide_eq_true. naive_solver.
Qed.

Lemma ops_id_inj st o o' : wf st → o ∈ ops st → o' ∈ ops st → id o = id o' → o = o'.
Proof.
  intros Hwf Ho Ho' He.
  assert (H1 : a_ops (abs st) !! id o = Some o) by by apply log_lookup_abs.
  assert (H2 : a_ops (abs st) !! id o = Some o') by by apply log_lookup_abs.
  congruence.
Qed.

Lemma find_id st o :
  wf st → o ∈ ops st → List.find (fun o' => bool_decide (id o' = id o)) (ops st) = Some o.
Proof.
  intros Hwf Ho. destruct (List.find _ _) as [o'|] eqn:E.
  - apply find_Some_elem in E as [Ho' He%bool_decide_eq_true]. f_equal.
    by eapply ops_id_inj.
  - rewrite find_None_elem in E. specialize (E o Ho). by rewrite bool_decide_eq_true_2 in E.
Qed.

(** What [claim_head] does on every branch. *)
Lemma claim_head_spec s by_ now st :
  wf st →
  (claim_head s by_ now st = (None, st) ∧
     (lane_has (abs st) s is_running ∨
      ∀ o, o ∈ ops st → session_id o = s → is_due now o = false)) ∨
  (∃ o st', o ∈ ops st ∧ session_id o = s ∧ is_due now o = true ∧
     ¬ lane_has (abs st) s is_running ∧
     (∀ o', o' ∈ ops st → session_id o' = s → is_due now o' = true → (id o ≤ id o')%Z) ∧
     claim_head s by_ now st = (Some (claim_stamp (current_epoch st s + 1) by_ o), st') ∧
     wf st' ∧ abs st' = a_claim by_ o (abs st)).
Proof.
  intros Hwf. unfold claim_head.
  pose proof (log_lane_has_abs st s is_running Hwf) as Hlane. unfold is_running in Hlane.
  destruct (existsb _ (ops st)) eqn:Er; [left; split; [done|]; left; by apply Hlane|].
  assert (Hnr : ¬ lane_has (abs st) s is_running) by (unfold is_running; rewrite Hlane; done).
  match goal with |- context [id <$> ?d] => set (due := d) end.
  destruct (min_id (id <$> due)) as [i|] eqn:Em.
  - right. apply min_id_Some in Em as [Hi Hmin].
    apply list_elem_of_fmap in Hi as (o&->&Ho). apply elem_of_due in Ho as (Ho&Hs&Hd).
    unfold bump_epoch. set (st1 := st <| epochs := _ |>).
    assert (Hwf1 : wf st1) by (destruct Hwf; by split).
    change (ops st1) with (ops st).
    destruct (find_mut_abs (fun o' => bool_decide (id o' = id o))
                (claim_stamp (current_epoch st s + 1) by_) _ Hwf1)
      as [[_ Hno]|(o'&st'&Hfm&Hwf'&Ho'&HP%bool_decide_eq_true&_&Habs&_)]; [done| |].
    { specialize (Hno o Ho). by rewrite bool_decide_eq_true_2 in Hno. }
    assert (o' = o) as -> by by eapply (ops_id_inj st).
    unfold find_mut in Hfm. change (ops st1) with (ops st) in Hfm.
    match goal with |- context [update_first _ ?g (ops st)] =>
      change g with (claim_stamp (current_epoch st s + 1) by_) end.
    destruct (update_first _ _ (ops st)) as [ops'|]; [|done]. simplify_eq.
    eexists o, _. rewrite find_id by done. repeat split; try done.
    + intros o' Ho'' Hs' Hd'. apply Hmin. apply list_elem_of_fmap_2, elem_of_due. done.
    + apply Hwf'.
    + apply Hwf'.
  - left. split; [done|]. right. intros o Ho Hs. apply not_true_is_false. intros Hd.
    assert (o ∈ due) by by apply elem_of_due.
    destruct due; [set_solver|done].
Qed.

Lemma log_refines_claim_head s by_ now st :
  wf st → refines (CClaimHead s by_ now) st (claim_head s by_ now st).2.
Proof.
  intros Hwf.
  destruct (claim_head_spec s by_ now st Hwf)
    as [[-> Hno]|(o&st'&Ho&<-&Hd&Hnr&Hmin&->&Hwf'&Habs)]; (split; [done|]).
  - left. split; [|done]. destruct Hno as [?|Hno]; [by left|right].
    intros (i&o&[Ho _]%log_lookup_abs&Hs&Hd); [|done]. by rewrite Hno in Hd.
  - right. split; [done|]. exists o. split; [|done]. split; [by apply log_lookup_abs|]. split; [done|]. split; [done|].
    intros j oj [Hoj <-]%log_lookup_abs; [|done]. by apply Hmin.
Qed.

Lemma log_refines_cancel_by_id i now st :
  wf st → refines (CCancelById i now) st (cancel_by_id i now st).2.
Proof.
  intros Hwf. unfold cancel_by_id.
  destruct (find_mut_abs
    (fun o => bool_decide (id o = i) && bool_decide (state o = OpState.Queued))
    (fun o => o <| state := OpState.Cancelled |> <| finished_at := Some now |>) st Hwf)
    as [[-> Hno]|(o&st'&->&Hwf'&Ho&HP&Hi&Habs&_)]; [done|split; [done|]..].
  - right. split; [|done]. intros o [[Ho Hid]%log_lookup_abs Hq]; [|done].
    specialize (Hno o Ho). by rewrite !bool_decide_eq_true_2 in Hno.
  - apply andb_true_iff in HP as [<-%bool_decide_eq_true Hq%bool_decide_eq_true].
    left. exists o. split; [done|]. simpl. by rewrite Habs.
Qed.

Lemma log_refines_request_cancel s k st st' :
  wf st → snd <$> request_cancel_running s k st = Some st' → refines (CRequestCancel s k) st st'.
Proof.
  intros Hwf. unfold request_cancel_running.
  set (P o := bool_decide (session_id o = s) && bool_decide (kind o = k)
             && bool_decide (state o = OpState.Running)).
  destruct (List.find P (ops st)) as [o|] eqn:Ef.
  2:{ intros; simplify_eq/=. split; [done|]. right. split; [|done]. intros o ([Ho _]%log_lookup_abs&Hs&Hk&Hr); [|done].
      rewrite find_None_elem in Ef. specialize (Ef o Ho). unfold P in Ef. by rewrite !bool_decide_eq_true_2 in Ef. }
  destruct (json_index_set _ _ (payload o)) as [p|] eqn:Ep; [|done].
  change (Some (find_mut P (fun o => o <| payload := p |>) st).2 = Some st' → refines (CRequestCancel s k) st st').
  intros Heq. apply (inj Some) in Heq. subst st'. pose proof (find_Some_elem _ _ _ Ef) as [Ho HP].
  destruct (find_mut_abs P (fun o => o <| payload := p |>) st Hwf)
    as [[_ Hno]|(o'&st'&Hfm&Hwf'&Ho'&HP'&Hi&Habs&Hfd)]; [done|by rewrite Hno in HP|].
  assert (o' = o) as -> by congruence.
  rewrite Hfm. split; [done|]. left. exists o, p. unfold P in HP. bool_prop. split; [done|]. split; [done|].
  unfold snd. by rewrite Habs.
Qed.

(** Every call refines the abstract log. *)
Lemma exec_refines c st st' :
  wf st → exec c st = Some st' → refines c st st'.
Proof.
  intros Hwf He. destruct c; simpl in *; simplify_eq.
  - by apply log_refines_enqueue.
  - by apply log_refines_exclusive.
  - by apply log_refines_claim_head.
  - by apply refines_fenced.
  - by apply refines_fenced.
  - by apply refines_fenced.
  - by apply log_refines_cancel_queued.
  - by apply log_refines_wake.
  - by apply log_refines_cancel_by_id.
  - by eapply log_refines_request_cancel.
Qed.

Lemma wf_empty : wf empty.
Proof. split; simpl; [constructor|]. intros o Ho. by apply not_elem_of_nil in Ho. Qed.

Lemma abs_empty : abs empty = ALog ∅ ∅.
Proof. done. Qed.

Lemma exec_all_refines cs st st' :
  wf st → forallb call_ok cs = true → exec_all cs st = Some st' →
  wf st' ∧ rtc astep (abs st) (abs st').
Proof.
  revert st. induction cs as [|c cs IH]; intros st Hwf Hok Hex; simpl in *.
  { simplify_eq. split; [done|constructor]. }
  apply andb_true_iff in Hok as [Hc Hok].
  destruct (exec c st) as [st1|] eqn:E; simpl in *; [|done].
  destruct (exec_refines c st st1 Hwf E) as [Hwf1 Hac].
  destruct (IH st1 Hwf1 Hok Hex) as [? Hr]. split; [done|].
  destruct (acall_step c st (abs st1) Hwf Hc Hac) as [Heq|Hst].
  - by rewrite <- Heq.
  - by eapply rtc_l.
Qed.

(** Everything reachable from the empty log satisfies the invariant. *)
Lemma reachable_inv cs st :
  forallb call_ok cs = true → exec_all cs empty = Some st → wf st ∧ ainv (abs st).
Proof.
  intros Hok Hex. destruct (exec_all_refines cs empty st wf_empty Hok Hex) as [? Hr].
  split; [done|]. eapply asteps_inv; [|done]. rewrite abs_empty. apply ainv_empty.
Qed.

#[global] Hint Resolve wf_empty reachable_inv exec_refines : oplog.

Lemma elem_of_due_sessions st now s :
  s ∈ due_sessions now st ↔
  existsb (fun r => bool_decide (session_id r = s)
                    && bool_decide (state r = OpState.Running)) (ops st) = false ∧
  ∃ o, o ∈ ops st ∧ session_id o = s ∧ is_due now o = true.
Proof.
  unfold due_sessions. rewrite elem_of_dedup, merge_sort_Permutation, list_elem_of_fmap.
  setoid_rewrite list_elem_of_In. setoid_rewrite filter_In. setoid_rewrite filter_In.
  setoid_rewrite <- list_elem_of_In.
  change (fun o => bool_decide (state o = OpState.Queued) && _) with (is_due now).
  setoid_rewrite negb_true_iff. split.
  - intros (o&->&[Ho Hd]&Hr). eauto.
  - intros (Hr&o&Ho&<-&Hd). eauto.
Qed.

(** ** Properties *)

(** C29. The vector-and-counter log refines the specification, call by call.
    After any calls from the empty log, each method that changes state and does
    not panic does to the abstract log what its specification says, and has no
    effect exactly when it says so: a duplicate or a busy lane, no due row, a
    write whose row does not run under the caller's epoch, no row to cancel; and
    what it does is one step of the abstract log, or nothing.  A finish is with
    a final state. *)
Theorem oplog_refinement cs st c st' :
  forallb call_ok cs = true → exec_all cs empty = Some st →
  call_ok c = true → exec c st = Some st' →
  acall c (abs st) (abs st') ∧ (abs st' = abs st ∨ astep (abs st) (abs st')).
Proof.
  intros Hok Hex Hc He. destruct (exec_all_refines cs empty st wf_empty Hok Hex) as [Hwf _].
  destruct (exec_refines c st st' Hwf He) as [_ Ha]. split; [done|]. by apply (acall_step c st).
Qed.

(** Lane exclusion: after any sequence of calls at most one op per session
    is running, it carries the session's current epoch, and a queued op
    carries none. *)
Theorem oplog_lane_exclusion cs st :
  forallb call_ok cs = true → exec_all cs empty = Some st →
  (∀ o1 o2, o1 ∈ ops st → o2 ∈ ops st → session_id o1 = session_id o2 →
     state o1 = OpState.Running → state o2 = OpState.Running → o1 = o2) ∧
  (∀ o, o ∈ ops st → state o = OpState.Running →
     epoch o = Some (current_epoch st (session_id o))) ∧
  (∀ o, o ∈ ops st → state o = OpState.Queued → epoch o = None).
Proof.
  intros Hok Hex. destruct (reachable_inv cs st Hok Hex) as [Hwf Hinv].
  split; [|split].
  - intros o1 o2 H1 H2 Hs Hr1 Hr2. eapply ops_id_inj; [done..|].
    eapply (inv_one_running _ Hinv); try done; by apply log_lookup_abs.
  - intros o Ho. rewrite current_epoch_abs.
    apply (inv_running_epoch _ Hinv (id o)). by apply log_lookup_abs.
  - intros o Ho. apply (inv_queued_epoch _ Hinv (id o)). by apply log_lookup_abs.
Qed.

(** The fence: once a later claim moved the session's epoch past [e], every
    fenced write an owner of epoch [e] still issues (a step, a heartbeat, a
    finish, a requeue) is refused and leaves the log unchanged, however many
    calls follow. *)
Theorem oplog_stale_writer_fenced cs cs' st st' op_id e s :
  forallb call_ok (cs ++ cs') = true →
  exec_all cs empty = Some st → exec_all cs' st = Some st' →
  (∃ o, get op_id st = Some o ∧ session_id o = s) → (e < current_epoch st s)%Z →
  (∀ stp, record_step op_id e stp st' = (false, st')) ∧
  heartbeat op_id e st' = false ∧
  (∀ final err now, finish op_id e final err now st' = (false, st')) ∧
  (∀ b err now, requeue_with_backoff op_id e b err now st' = (false, st')).
Proof.
  rewrite forallb_app, andb_true_iff. intros [Hok Hok'] Hex Hex' (o&Hget&<-) He.
  destruct (reachable_inv cs st Hok Hex) as [Hwf Hinv].
  destruct (exec_all_refines cs' st st' Hwf Hok' Hex') as [Hwf' Hr].
  apply find_Some_elem in Hget as [Ho Hid%bool_decide_eq_true].
  assert (Hi : a_ops (abs st) !! op_id = Some o) by by apply log_lookup_abs.
  assert (Hno : ∀ o', o' ∈ ops st' → fence op_id e o' = false).
  { intros o' Ho'. apply not_true_is_false. intros Hf.
    destruct (fence_fenced st' op_id e o' Hwf' Ho' Hf) as [_ Hfen].
    eapply (stale_fence_closed (abs st) (abs st') op_id e o o'); try done.
    destruct Hfen as (Hl&_&_). by eapply (asteps_session (abs st)). }
  assert (Hfm : ∀ f, find_mut (fence op_id e) f st' = (false, st')).
  { intros f. unfold find_mut. by rewrite (proj2 (update_first_None _ f _) Hno). }
  repeat split; intros; try apply Hfm. by apply existsb_false.
Qed.

(** [claim_head] claims exactly when no op of the session is running and
    some queued op is due; it then claims the due op of smallest id, bumps the
    session's epoch by one and stamps the row with it, and otherwise leaves the
    log unchanged. *)
Theorem oplog_claim_head cs st s by_ now :
  forallb call_ok cs = true → exec_all cs empty = Some st →
  let claimable := ¬ lane_has (abs st) s is_running ∧
                   ∃ o, o ∈ ops st ∧ session_id o = s ∧ is_due now o = true in
  (¬ claimable → claim_head s by_ now st = (None, st)) ∧
  (claimable → ∃ o st',
     o ∈ ops st ∧ session_id o = s ∧ is_due now o = true ∧
     (∀ o', o' ∈ ops st → session_id o' = s → is_due now o' = true → (id o ≤ id o')%Z) ∧
     claim_head s by_ now st = (Some (claim_stamp (current_epoch st s + 1) by_ o), st') ∧
     current_epoch st' s = (current_epoch st s + 1)%Z ∧
     get (id o) st' = Some (claim_stamp (current_epoch st s + 1) by_ o)).
Proof.
  intros Hok Hex claimable. destruct (reachable_inv cs st Hok Hex) as [Hwf _].
  destruct (claim_head_spec s by_ now st Hwf)
    as [[Heq Hn]|(o&st'&Ho&Hs&Hd&Hnr&Hmin&Heq&Hwf'&Habs)].
  - split; [done|]. intros [Hnr (o&Ho&Hs&Hd)]. exfalso.
    destruct Hn as [?|Hn]; [done|]. rewrite Hn in Hd by done. done.
  - split; [intros Hc; exfalso; apply Hc; split; [done|by exists o]|]. intros _.
    exists o, st'. repeat split; try done.
    + rewrite !current_epoch_abs, Habs, epoch_of_claim. by rewrite decide_True.
    + assert (Hl : a_ops (abs st') !! id o =
                   Some (claim_stamp (current_epoch st s + 1) by_ o)).
      { rewrite Habs. unfold a_claim. simpl. rewrite lookup_insert_eq. by rewrite Hs. }
      apply log_lookup_abs in Hl as [Hin _]; [|done]. by apply (find_id st') in Hin.
Qed.

(** The dispatcher's work list: [due_sessions] is strictly increasing, so
    no session is listed twice, and it holds exactly the sessions whose head
    [claim_head] can claim at that instant. *)
Theorem oplog_due_sessions cs st now :
  forallb call_ok cs = true → exec_all cs empty = Some st →
  Sorted N.lt (due_sessions now st) ∧
  ∀ s by_, s ∈ due_sessions now st ↔ is_Some (claim_head s by_ now st).1.
Proof.
  intros Hok Hex. destruct (reachable_inv cs st Hok Hex) as [Hwf _].
  split; [apply dedup_strict, Sorted_merge_sort; apply _|]. intros s by_.
  rewrite elem_of_due_sessions.
  destruct (claim_head_spec s by_ now st Hwf)
    as [[-> Hn]|(o&st'&Ho&Hs&Hd&Hnr&_&->&_)]; simpl.
  - split; [|by intros []]. intros [Hnr (o&Ho&Hs&Hd)]. exfalso.
    rewrite log_lane_has_abs in Hn by done. destruct Hn as [Hn|Hn].
    + unfold is_running in Hn. congruence.
    + rewrite Hn in Hd by done. done.
  - split; [by eexists|]. intros _. split; [|by exists o].
    rewrite log_lane_has_abs in Hnr by done. unfold is_running in Hnr.
    by apply not_true_is_false.
Qed.

(** Idempotency: at most one op per (session, kind, key) is queued or
    running at any time, and enqueueing a key that such an op holds answers
    [Duplicate] without changing the log. *)
Theorem oplog_idempotent_enqueue cs st :
  forallb call_ok cs = true → exec_all cs empty = Some st →
  (∀ o1 o2, o1 ∈ ops st → o2 ∈ ops st → same_key o1 o2 →
     is_active o1 = true → is_active o2 = true → o1 = o2) ∧
  (∀ o p by_ now, o ∈ ops st → is_active o = true → is_Some (idempotency_key o) →
     enqueue_and_claim (session_id o) (kind o) p (idempotency_key o) by_ now st
     = (Duplicate, st)).
Proof.
  intros Hok Hex. destruct (reachable_inv cs st Hok Hex) as [Hwf Hinv]. split.
  - intros o1 o2 H1 H2 Hk Ha1 Ha2. eapply ops_id_inj; [done..|].
    eapply (inv_key_unique _ Hinv); try done; by apply log_lookup_abs.
  - intros o p by_ now Ho Ha Hk. unfold enqueue_and_claim.
    assert (Hd : has_duplicate (abs st) (session_id o) (kind o) (idempotency_key o)).
    { split; [done|]. exists (id o), o. rewrite log_lookup_abs by done.
      rewrite Ha, !bool_decide_eq_true_2 by done. done. }
    apply duplicate_abs in Hd; [|done]. by rewrite Hd.
Qed.

(** Finished ops are history: a row that is done, failed or cancelled is
    returned unchanged by [get] after any further calls. *)
Theorem oplog_history_frozen cs cs' st st' i o :
  forallb call_ok (cs ++ cs') = true →
  exec_all cs empty = Some st → exec_all cs' st = Some st' →
  get i st = Some o → is_active o = false → get i st' = Some o.
Proof.
  rewrite forallb_app, andb_true_iff. intros [Hok Hok'] Hex Hex' Hget Ha.
  destruct (reachable_inv cs st Hok Hex) as [Hwf Hinv].
  destruct (exec_all_refines cs' st st' Hwf Hok' Hex') as [Hwf' Hr].
  apply find_Some_elem in Hget as [Ho <-%bool_decide_eq_true].
  assert (Hl : a_ops (abs st') !! id o = Some o).
  { eapply (asteps_history (abs st)); try done. by apply log_lookup_abs. }
  apply log_lookup_abs in Hl as [Ho' _]; [|done]. by apply (find_id st').
Qed.

(** ** Concrete runs *)

(** Two sessions; session 1 is claimed, requeued with a one-second backoff and
    then claimed again by its younger op. *)
Definition demo : list call :=
  [ CEnqueue 1 Resume JNull (Some "k"%string) "a" 10;
    CEnqueue 1 Evict JNull None "a" 11;
    CEnqueue 2 Destroy JNull None "b" 12;
    CRequeue 1 1 1000000000 "busy" 20;
    CClaimHead 1 "b" 30 ].

Definition demo_state : inner := default empty (exec_all demo empty).

(** The backoff overtake: after op 1 is requeued with a backoff, the
    younger op 2 of the same session is claimed while op 1 is still queued, so
    queued ops do not execute strictly in id order. *)
Theorem oplog_backoff_overtakes :
  exec_all demo empty = Some demo_state ∧
  (state <$> get 1 demo_state) = Some OpState.Queued ∧
  (state <$> get 2 demo_state) = Some OpState.Running.
Proof. vm_compute. done. Qed.

(** The owner of op 1 lost it: its finish changes nothing. *)
Lemma oplog_refinement_witness :
  exec_all demo empty = Some demo_state ∧
  acall (CFinish 1 1 OpState.Done None 40) (abs demo_state) (abs demo_state) ∧
  ∃ st', acall (CFinish 2 2 OpState.Done None 40) (abs demo_state) (abs st') ∧ state <$> get 2 st' = Some OpState.Done.
Proof.
  split; [vm_compute; reflexivity|]. split.
  - exact (proj1 (oplog_refinement demo demo_state (CFinish 1 1 OpState.Done None 40) demo_state
      ltac:(vm_compute; reflexivity) ltac:(vm_compute; reflexivity) eq_refl ltac:(vm_compute; reflexivity))).
  - exists (default empty (exec (CFinish 2 2 OpState.Done None 40) demo_state)). split; [|vm_compute; reflexivity].
    exact (proj1 (oplog_refinement demo demo_state (CFinish 2 2 OpState.Done None 40) _
      ltac:(vm_compute; reflexivity) ltac:(vm_compute; reflexivity) eq_refl ltac:(vm_compute; reflexivity))).
Defined.

Lemma oplog_lane_exclusion_witness :
  epoch <$> get 2 demo_state = Some (Some (current_epoch demo_state 1)) ∧
  ∀ o, o ∈ ops demo_state → state o = OpState.Running →
     epoch o = Some (current_epoch demo_state (session_id o)).
Proof.
  split; [vm_compute; reflexivity|].
  apply (oplog_lane_exclusion demo demo_state);
    vm_compute; reflexivity.
Defined.

Lemma oplog_stale_writer_fenced_witness :
  (1 < current_epoch demo_state 1)%Z ∧ heartbeat 1 1 demo_state = false.
Proof.
  split; [vm_compute; reflexivity|].
  apply (oplog_stale_writer_fenced demo [] demo_state demo_state 1 1 1);
    [vm_compute; reflexivity..| |vm_compute; reflexivity].
  eexists. split; vm_compute; reflexivity.
Defined.

Lemma oplog_claim_head_witness :
  ∃ o st', claim_head 1 "c" (30 + 1000000000)
             (default empty (exec_all (demo ++ [CFinish 2 2 OpState.Done None 40]) empty))
           = (Some o, st') ∧ id o = 1%Z.
Proof.
  set (st := default empty _).
  assert (Hst : exec_all (demo ++ [CFinish 2 2 OpState.Done None 40]) empty = Some st)
    by (vm_compute; reflexivity).
  assert (Hwf : wf st) by (eapply reachable_inv, Hst; vm_compute; reflexivity).
  destruct (proj2 (oplog_claim_head (demo ++ [CFinish 2 2 OpState.Done None 40]) st 1 "c"
                     (30 + 1000000000) ltac:(vm_compute; reflexivity) Hst)) as (o&st'&Ho&Hs&Hd&_&Hc&_&_).
  - split; [|exists (default (fresh_op 0 0 Resume JNull None 0) (get 1 st))].
    + rewrite log_lane_has_abs by done. vm_compute. done.
    + split; [|split; vm_compute; reflexivity]. apply (find_Some_elem (fun o => bool_decide (id o = 1%Z))).
      vm_compute; reflexivity.
  - exists (claim_stamp (current_epoch st 1 + 1) "c" o), st'. split; [exact Hc|].
    assert (Hr : (id <$> (claim_head 1 "c" (30 + 1000000000) st).1) = Some 1%Z) by (vm_compute; reflexivity).
    rewrite Hc in Hr. by injection Hr.
Defined.

Lemma oplog_due_sessions_witness :
  due_sessions 2000000000 (default empty (exec_all (take 4 demo) empty)) = [1%N] ∧
  (1%N ∈ due_sessions 2000000000 (default empty (exec_all (take 4 demo) empty)) ↔
   is_Some (claim_head 1 "b" 2000000000 (default empty (exec_all (take 4 demo) empty))).1).
Proof.
  split; [vm_compute; reflexivity|]. apply (oplog_due_sessions (take 4 demo));
    vm_compute; reflexivity.
Defined.

Lemma oplog_idempotent_enqueue_witness :
  ∃ o, get 1 demo_state = Some o ∧
       enqueue_and_claim (session_id o) (kind o) JNull (idempotency_key o) "z" 99 demo_state
       = (Duplicate, demo_state).
Proof.
  eexists. split; [vm_compute; reflexivity|].
  apply (oplog_idempotent_enqueue demo demo_state); [vm_compute; reflexivity..| |vm_compute; reflexivity|by eexists].
  apply (find_Some_elem (fun o => bool_decide (id o = 1%Z))). vm_compute; reflexivity.
Defined.

Lemma oplog_history_frozen_witness :
  ∃ o, get 2 (default empty (exec_all (demo ++ [CFinish 2 2 OpState.Done None 40]) empty))
         = Some o ∧
       get 2 (default empty (exec_all
         (demo ++ [CFinish 2 2 OpState.Done None 40; CClaimHead 1 "c" 5000000000]) empty))
         = Some o.
Proof.
  set (st := default empty (exec_all (demo ++ [CFinish 2 2 OpState.Done None 40]) empty)).
  exists (default (fresh_op 0 0 Resume JNull None 0) (get 2 st)).
  split; [vm_compute; reflexivity|].
  apply (oplog_history_frozen (demo ++ [CFinish 2 2 OpState.Done None 40])
           [CClaimHead 1 "c" 5000000000] st); vm_compute; reflexivity.
Defined.

End InMemoryOpLog.
