(* ===== verification/MetaTypes.v ===== *)
(** * The metadata store: tables, transactions, shared helpers

    [engram-sim/src/meta/mod.rs] and the free functions of [store_impl.rs].
    [SimMetadataStore] is the in-memory store with the observable semantics of
    the Postgres one: every method takes the database lock once, so a method is
    one transaction, here a function of the store in the monad [M].  An early
    [return Err(..)] keeps what the method wrote before it, as in the code.

    The instant [now] and fresh UUIDs are arguments.  A message built with
    [format!] is kept as its template. *)

From S2P Require Import Prelude Session Teleport OpLogSpec.
From Stdlib Require Import QArith Qround.

(** ** Rows *)

(** [MetaError]. *)
Inductive MetaError : Type :=
| NotFound
| Conflict (msg : string)
| DbError (msg : string)
| Migration (msg : string)
| Serialization (msg : string).

(** [QueueOrigin]. *)
Module QueueOrigin.
Inductive t : Type := Create | Resume.
End QueueOrigin.

(** [SessionMode]. *)
Inductive SessionMode : Type := Agent | DevVm.

(** [Session]. *)
Module Session.
Record t := Mk {
  id : SessionId;
  status : SessionState;
  host_id : option HostId;
  sandbox_id : option SandboxId;
  image : string;
  mode : SessionMode;
  created_at : DateTime;
  last_active_at : DateTime;
  last_event_at : option DateTime;
  park_rung : Z;
  parked_at : option DateTime;
  suggested_title : option string;
}.
#[global] Instance t_eta : Eta t := fun r =>
  Mk (id r) (status r) (host_id r) (sandbox_id r) (image r) (mode r) (created_at r)
     (last_active_at r) (last_event_at r) (park_rung r) (parked_at r) (suggested_title r).
End Session.

(** [SessionSpec]. *)
Record SessionSpec := { spec_image : string; spec_mode : SessionMode }.

(** [SessRow]. *)
Module SessRow.
Record t := Mk {
  session : Session.t;
  mem_budget_mib : Z;
  cpu_budget_vcpus : Z;
  queue_origin : option QueueOrigin.t;
  queued_at : option DateTime;
  missing_strikes : Z;
  current_epoch : Z;
  binding_epoch : Z;
  attached_binding_epoch : Z;
  next_event_idx : Z;
  recovery_epoch : Z;
  shell_pinned_until : option DateTime;
  durable_head : option SnapshotId;
  evict_attempts : Z;
  updated_at : DateTime;
}.
#[global] Instance t_eta : Eta t := fun r =>
  Mk (session r) (mem_budget_mib r) (cpu_budget_vcpus r) (queue_origin r) (queued_at r)
     (missing_strikes r) (current_epoch r) (binding_epoch r) (attached_binding_epoch r)
     (next_event_idx r) (recovery_epoch r) (shell_pinned_until r) (durable_head r)
     (evict_attempts r) (updated_at r).
(** Shorthands for the fields of the nested session. *)
Definition status (r : t) : SessionState := Session.status (session r).
Definition host_id (r : t) : option HostId := Session.host_id (session r).
Definition sandbox_id (r : t) : option SandboxId := Session.sandbox_id (session r).
End SessRow.

(** [OpRow]. *)
Module OpRow.
Record t := Mk {
  id : Z;
  session_id : SessionId;
  kind : OpKind;
  payload : json;
  state : OpState.t;
  step : option string;
  epoch : option Z;
  attempts : Z;
  not_before : option DateTime;
  idempotency_key : option string;
  claimed_by : option string;
  claimed_at : option DateTime;
  heartbeat_at : option DateTime;
  error : option string;
  created_at : DateTime;
  finished_at : option DateTime;
}.
#[global] Instance t_eta : Eta t := fun o =>
  Mk (id o) (session_id o) (kind o) (payload o) (state o) (step o) (epoch o)
     (attempts o) (not_before o) (idempotency_key o) (claimed_by o) (claimed_at o)
     (heartbeat_at o) (error o) (created_at o) (finished_at o).
End OpRow.

(** [op_row_to_domain]. *)
Definition op_row_to_domain (r : OpRow.t) : SessionOp.t :=
  SessionOp.Mk (OpRow.id r) (OpRow.session_id r) (OpRow.kind r) (OpRow.payload r)
    (OpRow.state r) (OpRow.step r) (OpRow.epoch r) (OpRow.attempts r) (OpRow.not_before r)
    (OpRow.idempotency_key r) (OpRow.claimed_by r) (OpRow.error r) (OpRow.created_at r)
    (OpRow.finished_at r).

(** [HostStatus], with its table of legal edges. *)
Module HostStatus.
Inductive t : Type := Ready | Draining | Dead | Retired.
#[global] Instance t_eq_dec : EqDecision t.
Proof. solve_decision. Defined.
Definition can_transition_to (s target : t) : bool :=
  match s with
  | Ready => match target with Draining | Dead | Retired => true | _ => false end
  | Draining => match target with Ready | Dead | Retired => true | _ => false end
  | Dead | Retired => false
  end.
(** [matches!(status, Ready | Draining)]. *)
Definition live (s : t) : bool := match s with Ready | Draining => true | _ => false end.
End HostStatus.

(** [HostLeaseState]. *)
Module HostLeaseState.
Inductive t : Type := None | Active | Handoff.
#[global] Instance t_eq_dec : EqDecision t.
Proof. solve_decision. Defined.
End HostLeaseState.

(** [CordonOwner]. *)
Inductive CordonOwner : Type := Operator | Admin.
#[export] Instance CordonOwner_eq_dec : EqDecision CordonOwner.
Proof. solve_decision. Defined.

(** [HostCapacity]. *)
Record HostCapacity := {
  total_gb : Z; used_gb : Z; total_mib : Z; used_mib : Z; running_sandboxes : Z;
}.

(** [HostUtilization]; the floating-point [cpu_pct] is only carried. *)
Record HostUtilization := {
  pool_data_free_mib : Z; pool_data_total_mib : Z;
  pool_metadata_free_mib : Z; pool_metadata_total_mib : Z;
  disk_total_mib : Z; disk_used_mib : Z; mem_total_mib : Z; mem_used_mib : Z;
  allocatable_mib : Z; cpu_pct : json; base_shm_mib : Z; base_shm_pending_mib : Z;
  parked_pss_mib : Z; running_pss_mib : Z;
}.

Definition HostUtilization_default : HostUtilization :=
  Build_HostUtilization 0 0 0 0 0 0 0 0 0 (JNum 0) 0 0 0 0.

(** [HostRecord]; cloud metadata, bundles and capabilities are only carried. *)
Module HostRecord.
Record t := Mk {
  id : HostId;
  hostname : string;
  cloud_metadata : json;
  capacity : HostCapacity;
  utilization : HostUtilization;
  status : HostStatus.t;
  last_heartbeat_at : DateTime;
  host_addr : option string;
  ready_images : list string;
  current_bundles : list json;
  sandbox_bundles : list json;
  cordoned : bool;
  cordon_owner : option CordonOwner;
  cordon_reason : option string;
  retire_requested_at : option DateTime;
  retired_at : option DateTime;
  total_vcpus : Z;
  wire_version : Z;
  stages_images : bool;
  capabilities : json;
  lease_expires_at : option DateTime;
  lease_state : HostLeaseState.t;
  lease_epoch : Z;
}.
#[global] Instance t_eta : Eta t := fun h =>
  Mk (id h) (hostname h) (cloud_metadata h) (capacity h) (utilization h) (status h)
     (last_heartbeat_at h) (host_addr h) (ready_images h) (current_bundles h)
     (sandbox_bundles h) (cordoned h) (cordon_owner h) (cordon_reason h)
     (retire_requested_at h) (retired_at h) (total_vcpus h) (wire_version h)
     (stages_images h) (capabilities h) (lease_expires_at h) (lease_state h) (lease_epoch h).
End HostRecord.

(** [HostHeartbeat]. *)
Module HostHeartbeat.
Record t := Mk {
  status : HostStatus.t;
  capacity : HostCapacity;
  utilization : HostUtilization;
  ready_images : list string;
  current_bundles : list json;
  sandbox_bundles : list json;
  total_vcpus : Z;
  wire_version : Z;
  stages_images : bool;
  capabilities : json;
  lease_renew_until : option DateTime;
}.
End HostHeartbeat.

(** [CaptureJobStage]. *)
Module CaptureJobStage.
Inductive t : Type := Assigned | Booting | Warming | Freezing | Done | Failed.
Definition is_terminal (s : t) : bool := match s with Done | Failed => true | _ => false end.
End CaptureJobStage.

(** The columns of [CaptureJobRow] that placement and retirement read. *)
Module CaptureJobRow.
Record t := Mk {
  id : CaptureJobId;
  host_id : option HostId;
  mem_budget_mib : Z;
  cpu_budget_vcpus : Z;
  stage : CaptureJobStage.t;
}.
End CaptureJobRow.

(** [EnableJobState] and the columns of [EnableJobRow] retirement reads. *)
Module EnableJobState.
Inductive t : Type := Pending | Materializing | Capturing | Prestaging | Done | Failed.
#[global] Instance t_eq_dec : EqDecision t.
Proof. solve_decision. Defined.
End EnableJobState.

Module EnableJobRow.
Record t := Mk {
  state : EnableJobState.t;
  materialize_host_id : option HostId;
  claimed_at : option DateTime;
}.
End EnableJobRow.

(** [OutboxRow]. *)
Module OutboxRow.
Inductive kind_t : Type := Prompt | Answer | ToolResult.
#[global] Instance kind_t_eq_dec : EqDecision kind_t.
Proof. solve_decision. Defined.
Record t := Mk {
  prompt_id : string;
  session_id : SessionId;
  kind : kind_t;
  payload : json;
  created_at : DateTime;
  attempts : Z;
  not_before : DateTime;
  delivered_at : option DateTime;
  acked_at : option DateTime;
}.
#[global] Instance t_eta : Eta t := fun r =>
  Mk (prompt_id r) (session_id r) (kind r) (payload r) (created_at r) (attempts r)
     (not_before r) (delivered_at r) (acked_at r).
End OutboxRow.

(** [PersistedEvent]. *)
Module PersistedEvent.
Record t := Mk {
  idx : Z;
  kind : string;
  payload : json;
  created_at : DateTime;
  recovery_epoch : Z;
  rewound_at : option DateTime;
}.
End PersistedEvent.

(** [TransitionLogEntry]. *)
Module TransitionLogEntry.
Record t := Mk { session : SessionId; from : SessionState; to : SessionState; exempt : bool }.
End TransitionLogEntry.

(** [OAuthCredentialKey], as the triple of its columns, and the part of a
    sealed credential the create transaction reads. *)
Notation OAuthCredentialKey := (string * string * string)%type (only parsing).
Record SealedOAuthCredential := { sealed_payload : json; revoked_at : option DateTime }.

(** [SessionOAuthBinding]. *)
Record SessionOAuthBinding := { bound_session : SessionId; bound_key : OAuthCredentialKey }.

(** [SessionCreateWriteSet]; the satellites are only stored. *)
Module SessionCreateWriteSet.
Record t := Mk {
  session_id : SessionId;
  spec : SessionSpec;
  mem_budget_mib : Z;
  cpu_budget_vcpus : Z;
  sealed_secrets : option json;
  capabilities : list json;
  integration_policy_json : option string;
  runtime_spec : json;
  oauth_binding : option SessionOAuthBinding;
}.
End SessionCreateWriteSet.

(** [CreateDisposition]. *)
Module CreateDisposition.
Inductive t : Type := Placed (h : HostId) | Queued.
End CreateDisposition.

(** ** The database *)

(** [SimDb], the tables the modelled transactions read or write. *)
Record SimDb := MkDb {
  serial : Z;
  teleports : gmap TeleportId TeleportRow.t;
  sessions : gmap SessionId SessRow.t;
  hosts : gmap HostId HostRecord.t;
  session_events : gmap SessionId (list PersistedEvent.t);
  enable_jobs : gmap Uuid EnableJobRow.t;
  capture_jobs : gmap CaptureJobId CaptureJobRow.t;
  session_secrets : gmap SessionId json;
  oauth_credentials : gmap OAuthCredentialKey SealedOAuthCredential;
  session_oauth_bindings : gmap SessionId SessionOAuthBinding;
  session_ops : gmap Z OpRow.t;
  outbox : gmap string OutboxRow.t;
  sandbox_tombstones : gmap (HostId * SandboxId) (option SessionId * DateTime);
  sandbox_unbound_sightings : gmap (HostId * SandboxId) DateTime;
  dead_host_inflight : gmap HostId (string * DateTime);
  runtime_specs : gmap SessionId json;
  session_capabilities : gmap SessionId (list json);
  session_integration_policy : gmap SessionId string;
  transition_log : list TransitionLogEntry.t;
}.

#[export] Instance SimDb_eta : Eta SimDb := fun d =>
  MkDb (serial d) (teleports d) (sessions d) (hosts d) (session_events d) (enable_jobs d)
    (capture_jobs d) (session_secrets d) (oauth_credentials d) (session_oauth_bindings d)
    (session_ops d) (outbox d) (sandbox_tombstones d) (sandbox_unbound_sightings d)
    (dead_host_inflight d) (runtime_specs d) (session_capabilities d) (session_integration_policy d)
    (transition_log d).

(** [SimDb::default()]. *)
Definition SimDb_default : SimDb :=
  MkDb 0 ∅ ∅ ∅ ∅ ∅ ∅ ∅ ∅ ∅ ∅ ∅ ∅ ∅ ∅ ∅ ∅ ∅ [].

(** [SimNotify]; the JSON of a [session_events] notification is kept as its
    two values, a session or host id as the id. *)
Inductive NotifyPayload : Type :=
| PText (s : string)
| PSession (s : SessionId)
| PHost (h : HostId)
| PEvent (s : SessionId) (idx : Z).

Record SimNotify := Notify { channel : string; notify_payload : NotifyPayload }.

(** [SimMetadataStore]: the database, the outage switch, the recorded
    notifications and the [ENGRAM_CPU_OVERCOMMIT] setting of the process. *)
Record Store := MkStore {
  db : SimDb;
  outage : bool;
  notifications : list SimNotify;
  env_cpu_overcommit : option Q;
}.

#[export] Instance Store_eta : Eta Store := fun st =>
  MkStore (db st) (outage st) (notifications st) (env_cpu_overcommit st).

(** [SimMetadataStore::new]. *)
Definition Store_new (env : option Q) : Store := MkStore SimDb_default false [] env.

(** ** Transactions *)

Definition M (A : Type) : Type := Store → result A MetaError * Store.

#[export] Instance M_ret : MRet M := fun A a st => (Ok a, st).
#[export] Instance M_bind : MBind M := fun A B k m st =>
  match m st with
  | (Ok a, st') => k a st'
  | (Err e, st') => (Err e, st')
  end.

Definition throw {A} (e : MetaError) : M A := fun st => (Err e, st).
Definition get_db : M SimDb := fun st => (Ok (db st), st).
Definition put_db (d : SimDb) : M unit := fun st => (Ok tt, st <| db := d |>).
Definition modify_db (f : SimDb → SimDb) : M unit := fun st => (Ok tt, st <| db ::= f |>).
Definition get_env : M (option Q) := fun st => (Ok (env_cpu_overcommit st), st).

(** [ok_or(e)?]. *)
Definition ok_or {A} (o : option A) (e : MetaError) : M A :=
  match o with Some a => mret a | None => throw e end.

(** [SimMetadataStore::gate]. *)
Definition gate : M unit := fun st =>
  if outage st then (Err (DbError "sim: pg outage window"), st) else (Ok tt, st).

(** [SimMetadataStore::notify]. *)
Definition notify (ch : string) (p : NotifyPayload) : M unit := fun st =>
  (Ok tt, st <| notifications ::= fun l => l ++ [Notify ch p] |>).

Definition notify_text (ch p : string) : M unit := notify ch (PText p).

(** [if b { f }]. *)
Definition when (b : bool) (m : M unit) : M unit := if b then m else mret tt.

(** A [for] loop over effects. *)
Fixpoint for_each {A} (l : list A) (f : A → M unit) : M unit :=
  match l with
  | [] => mret tt
  | x :: l' => f x;; for_each l' f
  end.

(** [SimDb::next_serial]. *)
Definition next_serial (d : SimDb) : Z * SimDb :=
  let d := d <| serial ::= Z.succ |> in (serial d, d).

(** Writes to one row of a table. *)
Definition put_session (s : SessionId) (r : SessRow.t) (d : SimDb) : SimDb :=
  d <| sessions := <[s := r]> (sessions d) |>.
Definition put_teleport (t : TeleportId) (r : TeleportRow.t) (d : SimDb) : SimDb :=
  d <| teleports := <[t := r]> (teleports d) |>.
Definition put_host (h : HostId) (r : HostRecord.t) (d : SimDb) : SimDb :=
  d <| hosts := <[h := r]> (hosts d) |>.
Definition put_op (i : Z) (r : OpRow.t) (d : SimDb) : SimDb :=
  d <| session_ops := <[i := r]> (session_ops d) |>.
Definition log_transition (e : TransitionLogEntry.t) (d : SimDb) : SimDb :=
  d <| transition_log ::= fun l => l ++ [e] |>.
Definition push_event (s : SessionId) (e : PersistedEvent.t) (d : SimDb) : SimDb :=
  d <| session_events := <[s := default [] (session_events d !! s) ++ [e]]> (session_events d) |>.
(** [sandbox_tombstones.entry((h, sb)).or_insert((sid, now))]. *)
Definition entomb (h : HostId) (sb : SandboxId) (sid : option SessionId) (now : DateTime)
    (d : SimDb) : SimDb :=
  d <| sandbox_tombstones ::= or_insert (h, sb) (sid, now) |>.

(** [append_event_idempotent_locked].  [or_default] leaves an empty event list
    behind even when the append is refused. *)
Definition append_event_idempotent_locked (s : SessionId) (key kind : string) (payload : json)
    (now : DateTime) : M (option Z) :=
  d ← get_db;
  row ← ok_or (sessions d !! s) NotFound;
  let events := default [] (session_events d !! s) in
  put_db (d <| session_events := <[s := events]> (session_events d) |>);;
  if existsb (fun e => bool_decide
       ((json_get "idempotency_key" (PersistedEvent.payload e) ≫= json_as_str) = Some key)) events
  then mret None
  else
    match payload with
    | JObj fields =>
        let payload := JObj (fields_insert "idempotency_key" (JStr key) fields) in
        let idx := SessRow.next_event_idx row in
        let row := row <| SessRow.next_event_idx ::= Z.succ |> <| SessRow.updated_at := now |>
          <| SessRow.session ::= fun x => x <| Session.last_event_at := Some now |> |> in
        modify_db (put_session s row);;
        modify_db (push_event s (PersistedEvent.Mk idx kind payload now
                                   (SessRow.recovery_epoch row) None));;
        mret (Some idx)
    | _ => throw (Serialization "event payload must be an object")
    end.

(** Unfold the monad around a method body. *)
Ltac run_m :=
  unfold ok_or, when, notify_text in *;
  unfold mbind, M_bind, mret, M_ret, gate, get_db, put_db, modify_db, notify, throw, get_env,
    option_bind in *;
  cbn beta iota zeta.

(** Split on the outage switch: a gated method does nothing during an outage. *)
Ltac gated st :=
  run_m; destruct (outage st); cbn beta iota zeta; [try done|].

(** Reduce [db] of an updated store. *)
Ltac db_red :=
  cbn [snd];
  repeat match goal with
  | |- context [db (?st <| db := ?x |>)] => change (db (st <| db := x |>)) with x
  | |- context [db (?st <| db ::= ?f |>)] => change (db (st <| db ::= f |>)) with (f (db st))
  | |- context [db (?st <| notifications ::= ?f |>)] =>
      change (db (st <| notifications ::= f |>)) with (db st)
  end.
