(* ===== verification/Placement.v ===== *)
(** * Two-dimensional placement

    The host pick every reserving placer runs: [choose_placement_host],
    [best_fit_measured] and [classify_no_fit] of [engram-postgres/src/lib.rs]
    with the fit map [pick_host_2d] builds for them, and the [pick_host_2d],
    [reserved_budgets] and [placement_no_fit_details] of the simulated store.
    Both picks are proved against one specification ([placement_spec]). *)

From S2P Require Import Prelude Session Teleport OpLogSpec MetaTypes.
From Stdlib Require Import QArith Qround.

(** [cpu_overcommit_factor]: [None] is an unset or unparsable variable. *)
Definition cpu_overcommit_factor (env : option Q) : Q :=
  match env with
  | Some f => if Qlt_le_dec 0 f then f else 4#1
  | None => 4#1
  end.

(** [host_cpu_budget]. *)
Definition host_cpu_budget (env : option Q) (total_vcpus : Z) : Z :=
  Qfloor (inject_Z total_vcpus * cpu_overcommit_factor env).

(** ** The Postgres pick *)

(** [HostFit]. *)
Record HostFit := MkFit {
  alloc_mib : Z;
  reserved_mib : Z;
  cpu_budget : Z;
  reserved_vcpus : Z;
}.

#[export] Instance HostFit_eta : Eta HostFit := fun f =>
  MkFit (alloc_mib f) (reserved_mib f) (cpu_budget f) (reserved_vcpus f).

(** [PlacementNoFit]. *)
Record PlacementNoFit := MkNoFit {
  nf_host_id : HostId;
  nf_reason : string;
  nf_free_mib : Z;
  nf_free_vcpus : Z;
}.

Section postgres.
Context (fit : gmap HostId HostFit) (budget_mib budget_vcpus : Z).

(** One iteration of the loop of [best_fit_measured]. *)
Definition best_fit_step (best : option (Z * HostId)) (h : HostId) : option (Z * HostId) :=
  match fit !! h with
  | None => best
  | Some f =>
      if decide (alloc_mib f ≤ 0)%Z then best
      else
        let free_mib := (alloc_mib f - reserved_mib f)%Z in
        if decide (free_mib < budget_mib)%Z then best
        else if bool_decide (cpu_budget f > 0)%Z
                && bool_decide (cpu_budget f - reserved_vcpus f < budget_vcpus)%Z then best
        else match best with
             | Some (bf, hb) => if decide (bf ≤ free_mib)%Z then best else Some (free_mib, h)
             | None => Some (free_mib, h)
             end
  end.

Definition best_fit_measured (candidates : list HostId) : option HostId :=
  snd <$> fold_left best_fit_step candidates None.

Definition choose_placement_host (candidates : list HostId) (affinity_len : nat) :
    option HostId :=
  let split := Nat.min affinity_len (length candidates) in
  match best_fit_measured (take split candidates) with
  | Some h => Some h
  | None =>
      match best_fit_measured (drop split candidates) with
      | Some h => Some h
      | None =>
          List.find (fun h => match fit !! h with
                              | Some f => bool_decide (alloc_mib f ≤ 0)%Z
                              | None => false end) candidates
      end
  end.

Definition classify_no_fit (candidates : list HostId) : list PlacementNoFit :=
  (fun h =>
     match fit !! h with
     | None => MkNoFit h "not_lockable" 0 0
     | Some f =>
         let free_vcpus := if decide (cpu_budget f > 0)%Z
                           then (cpu_budget f - reserved_vcpus f)%Z else i64_max in
         let free_mib := (alloc_mib f - reserved_mib f)%Z in
         let reason :=
           if decide (alloc_mib f ≤ 0)%Z then "unmeasured"%string
           else if decide (free_mib < budget_mib)%Z then "ram_full"%string
           else if decide (free_vcpus < budget_vcpus)%Z then "cpu_full"%string
           else "fits_now"%string in
         MkNoFit h reason free_mib free_vcpus
     end) <$> candidates.

End postgres.

(** ** Reservations *)

(** [reserves]. *)
Definition reserves (s : SessionState) : bool := reserves_host_memory s.

(** The rows [reserved_budgets] sums: host, memory, vcpus. *)
Definition session_reservation (r : SessRow.t) : option (HostId * Z * Z) :=
  if reserves (SessRow.status r) then
    (fun h => (h, SessRow.mem_budget_mib r, SessRow.cpu_budget_vcpus r)) <$> SessRow.host_id r
  else None.

Definition capture_reservation (r : CaptureJobRow.t) : option (HostId * Z * Z) :=
  if CaptureJobStage.is_terminal (CaptureJobRow.stage r) then None
  else (fun h => (h, CaptureJobRow.mem_budget_mib r, CaptureJobRow.cpu_budget_vcpus r))
         <$> CaptureJobRow.host_id r.

Definition dest_reservation (r : TeleportRow.t) : option (HostId * Z * Z) :=
  if TeleportPhase.reserves_dest (TeleportRow.phase r)
  then Some (TeleportRow.dest_host_id r, TeleportRow.mem_budget_mib r,
             TeleportRow.cpu_budget_vcpus r)
  else None.

Definition source_reservation (r : TeleportRow.t) : option (HostId * Z * Z) :=
  if TeleportPhase.reserves_source (TeleportRow.phase r)
  then Some (TeleportRow.source_host_id r, TeleportRow.mem_budget_mib r,
             TeleportRow.cpu_budget_vcpus r)
  else None.

Definition reservations (d : SimDb) : list (HostId * Z * Z) :=
  omap session_reservation (values (sessions d)) ++
  omap capture_reservation (values (capture_jobs d)) ++
  omap dest_reservation (values (teleports d)) ++
  omap source_reservation (values (teleports d)).

(** [let e = out.entry(h).or_default(); e.0 += mem; e.1 += cpu]. *)
Definition add_reservation (out : gmap HostId (Z * Z)) (x : HostId * Z * Z) :
    gmap HostId (Z * Z) :=
  let '(h, mem, cpu) := x in
  let e := default (0, 0)%Z (out !! h) in
  <[h := (e.1 + mem, e.2 + cpu)%Z]> out.

Definition reserved_budgets (d : SimDb) : gmap HostId (Z * Z) :=
  fold_left add_reservation (reservations d) ∅.

Definition reserved_of (d : SimDb) (h : HostId) : Z * Z :=
  default (0, 0)%Z (reserved_budgets d !! h).

(** The fit map of the Postgres [pick_host_2d]: the lockable candidates with
    the reservations of the four-way [UNION ALL]. *)
Definition lockable (h : HostRecord.t) : bool :=
  HostStatus.live (HostRecord.status h) && negb (HostRecord.cordoned h).

Definition pg_fit_map (env : option Q) (d : SimDb) (cand : list HostId) : gmap HostId HostFit :=
  fold_left (fun m id =>
    match hosts d !! id with
    | Some h =>
        if lockable h then
          <[id := MkFit (as_i64 (allocatable_mib (HostRecord.utilization h)))
                        (reserved_of d id).1
                        (host_cpu_budget env (Z.max 0 (HostRecord.total_vcpus h)))
                        (reserved_of d id).2]> m
        else m
    | None => m
    end) cand ∅.

Definition pg_pick_host_2d (env : option Q) (d : SimDb) (cand : list HostId)
    (affinity_len : nat) (budget_mib budget_vcpus : Z) : option HostId :=
  match cand with
  | [] => None
  | _ => choose_placement_host (pg_fit_map env d cand) budget_mib budget_vcpus cand affinity_len
  end.

(** ** The simulated pick *)

Section sim.
Context (env : option Q) (d : SimDb) (mem_budget_mib cpu_budget_vcpus : Z).

(** The closure [fits]. *)
Definition sim_fits (reserved : gmap HostId (Z * Z)) (h : HostRecord.t) : option Z :=
  let alloc := as_i64 (allocatable_mib (HostRecord.utilization h)) in
  if decide (alloc ≤ 0)%Z then None
  else
    let '(mem_res, cpu_res) := default (0, 0)%Z (reserved !! HostRecord.id h) in
    let free_mem := (alloc - mem_res)%Z in
    let cpu_budget := host_cpu_budget env (HostRecord.total_vcpus h) in
    let free_cpu := (cpu_budget - cpu_res)%Z in
    if bool_decide (mem_budget_mib ≤ free_mem)%Z && bool_decide (cpu_budget_vcpus ≤ free_cpu)%Z
    then Some free_mem else None.

(** [min_by_key(|(free, id)| (free, id))]: ties keep the earlier element. *)
Definition pair_lt (a b : Z * HostId) : bool :=
  bool_decide (a.1 < b.1)%Z || (bool_decide (a.1 = b.1) && bool_decide (a.2 < b.2)%N).

Definition min_pair (l : list (Z * HostId)) : option (Z * HostId) :=
  match l with
  | [] => None
  | x :: l' => Some (fold_left (fun m y => if pair_lt y m then y else m) l' x)
  end.

(** The closure [best_of]. *)
Definition sim_best_of (reserved : gmap HostId (Z * Z)) (tier : list HostRecord.t) :
    option HostId :=
  snd <$> min_pair (omap (fun h => (fun free => (free, HostRecord.id h)) <$> sim_fits reserved h)
                         tier).

Definition pick_host_2d (candidates : list HostId) (affinity_len : nat) : option HostId :=
  let eligible := List.filter lockable (omap (fun id => hosts d !! id) candidates) in
  match eligible with
  | [] => None
  | _ =>
      let reserved := reserved_budgets d in
      let prefix := take (Nat.min affinity_len (length candidates)) candidates in
      let in_prefix h := bool_decide (HostRecord.id h ∈ prefix) in
      let affinity := List.filter in_prefix eligible in
      let rest := List.filter (fun h => negb (in_prefix h)) eligible in
      match sim_best_of reserved affinity with
      | Some h => Some h
      | None =>
          match sim_best_of reserved rest with
          | Some h => Some h
          | None =>
              HostRecord.id <$>
                List.find (fun h => bool_decide
                  (allocatable_mib (HostRecord.utilization h) = 0)%Z) eligible
          end
      end
  end.

(** [placement_no_fit_details], one candidate. *)
Definition sim_no_fit (id : HostId) : PlacementNoFit :=
  match (h ← hosts d !! id; if lockable h then Some h else None) with
  | None => MkNoFit id "not_lockable" 0 0
  | Some h =>
      let '(res_mib, res_vcpus) := reserved_of d id in
      let alloc := as_i64 (allocatable_mib (HostRecord.utilization h)) in
      let cpu_budget := host_cpu_budget env (HostRecord.total_vcpus h) in
      let free_vcpus := if decide (cpu_budget > 0)%Z then (cpu_budget - res_vcpus)%Z
                        else i64_max in
      let free_mib := (alloc - res_mib)%Z in
      let reason :=
        if decide (alloc ≤ 0)%Z then "unmeasured"%string
        else if decide (free_mib < mem_budget_mib)%Z then "ram_full"%string
        else if decide (free_vcpus < cpu_budget_vcpus)%Z then "cpu_full"%string
        else "fits_now"%string in
      MkNoFit id reason free_mib free_vcpus
  end.

End sim.

(** [oracle_pick_any_host]: the pick over every host, for the quiescence
    oracle. *)
Definition oracle_pick_any_host (st : Store) (mem cpu : Z) : option HostId :=
  pick_host_2d (env_cpu_overcommit st) (db st) mem cpu (keys (hosts (db st))) 0.

(** [MetadataStore::placement_no_fit_details] of the simulated store. *)
Definition placement_no_fit_details (candidates : list HostId) (mem cpu : Z) :
    M (list PlacementNoFit) :=
  gate;;
  match candidates with
  | [] => mret []
  | _ => d ← get_db; env ← get_env; mret (sim_no_fit env d mem cpu <$> candidates)
  end.

(** [MetadataStore::per_host_reserved]. *)
Definition per_host_reserved : M (gmap HostId (Z * Z)) :=
  gate;; d ← get_db; mret (reserved_budgets d).

(** ** The specification of a pick *)

Section spec.
Context (fits : HostId → option Z) (unmeasured : HostId → bool).

(** Host [h] fits with the least free memory of its tier. *)
Definition tier_min (tier : list HostId) (h : HostId) : Prop :=
  ∃ free, h ∈ tier ∧ fits h = Some free ∧
    ∀ h' free', h' ∈ tier → fits h' = Some free' → (free ≤ free')%Z.

Definition no_fit (tier : list HostId) : Prop := ∀ h, h ∈ tier → fits h = None.

(** The affinity tier first, then every candidate, then the first unmeasured
    one; nothing only when no tier offers a host. *)
Definition placement_spec (affinity all : list HostId) (o : option HostId) : Prop :=
  match o with
  | Some h =>
      tier_min affinity h ∨
      (no_fit affinity ∧ tier_min all h) ∨
      (no_fit all ∧ List.find unmeasured all = Some h)
  | None => no_fit all ∧ ∀ h, h ∈ all → unmeasured h = false
  end.

Lemma tier_min_free tier h1 h2 : tier_min tier h1 → tier_min tier h2 → fits h1 = fits h2.
Proof.
  intros (f1&H1&E1&M1) (f2&H2&E2&M2). rewrite E1, E2. f_equal.
  pose proof (M1 _ _ H2 E2). pose proof (M2 _ _ H1 E1). lia.
Qed.

Lemma tier_min_not_no_fit tier h : tier_min tier h → no_fit tier → False.
Proof. intros (f&H&E&_) Hn. by rewrite Hn in E. Qed.

(** The specification leaves only ties open. *)
Lemma placement_spec_unique affinity all o1 o2 :
  (∀ x, x ∈ affinity → x ∈ all) →
  placement_spec affinity all o1 → placement_spec affinity all o2 →
  o1 = o2 ∨ ∃ h1 h2 free, o1 = Some h1 ∧ o2 = Some h2 ∧
                          fits h1 = Some free ∧ fits h2 = Some free.
Proof.
  intros Hsub.
  assert (Hna : no_fit all → no_fit affinity) by (intros H x Hx; auto).
  assert (Htie : ∀ t h1 h2, tier_min t h1 → tier_min t h2 →
    ∃ h1' h2' free, Some h1 = Some h1' ∧ Some h2 = Some h2' ∧
                    fits h1' = Some free ∧ fits h2' = Some free).
  { intros t h1 h2 T1 T2. pose proof (tier_min_free t h1 h2 T1 T2) as He.
    destruct T1 as (f&_&E&_). exists h1, h2, f. by rewrite <- He, E. }
  destruct o1 as [h1|], o2 as [h2|]; simpl.
  - intros [T1|[[N1 T1]|[N1 F1]]] [T2|[[N2 T2]|[N2 F2]]]; eauto;
      try solve [exfalso; eauto using tier_min_not_no_fit]. left. congruence.
  - intros [T1|[[N1 T1]|[N1 F1]]] [N2 U2]; try solve [exfalso; eauto using tier_min_not_no_fit].
    apply find_Some_elem in F1 as [Hin Hu]. by rewrite U2 in Hu.
  - intros [N2 U2] [T1|[[N1 T1]|[N1 F1]]]; try solve [exfalso; eauto using tier_min_not_no_fit].
    apply find_Some_elem in F1 as [Hin Hu]. by rewrite U2 in Hu.
  - by left.
Qed.

End spec.

(** Pointwise equal inputs on the candidates give the same specification. *)
Lemma placement_spec_ext f1 f2 u1 u2 affinity all o :
  (∀ x, x ∈ affinity → x ∈ all) →
  (∀ x, x ∈ all → f1 x = f2 x) → (∀ x, x ∈ all → u1 x = u2 x) →
  placement_spec f1 u1 affinity all o → placement_spec f2 u2 affinity all o.
Proof.
  intros Hsub Hf Hu.
  assert (Hmin : ∀ t h, (∀ x, x ∈ t → x ∈ all) → tier_min f1 t h → tier_min f2 t h).
  { intros t h Ht (f&Hin&E&Hm). exists f. split; [done|]. rewrite <- Hf by auto.
    split; [done|]. intros h' f' Hin' E'. apply (Hm h'); [done|]. rewrite Hf by auto. done. }
  assert (Hno : ∀ t, (∀ x, x ∈ t → x ∈ all) → no_fit f1 t → no_fit f2 t).
  { intros t Ht Hn x Hx. rewrite <- Hf by auto. auto. }
  assert (Hfind : List.find u1 all = List.find u2 all).
  { clear -Hu. induction all as [|x l IH]; [done|]. simpl.
    rewrite Hu by apply list_elem_of_here.
    destruct (u2 x); [done|]. apply IH. intros y Hy. apply Hu. by apply list_elem_of_further. }
  destruct o as [h|]; simpl.
  - intros [H|[[H1 H2]|[H1 H2]]].
    + left. auto.
    + right; left. auto.
    + right; right. split; [auto|]. by rewrite <- Hfind.
  - intros [H1 H2]. split; [auto|]. intros h Hh. rewrite <- Hu by done. auto.
Qed.

Lemma take_sub {A} k (l : list A) x : x ∈ take k l → x ∈ l.
Proof. intros H. rewrite <- (take_drop k l). apply elem_of_app. by left. Qed.

(** ** The Postgres pick meets it *)

Section postgres_spec.
Context (fit : gmap HostId HostFit) (budget_mib budget_vcpus : Z).

(** The free memory of a candidate the pick accepts. *)
Definition pg_fits (h : HostId) : option Z :=
  f ← fit !! h;
  if decide (alloc_mib f ≤ 0)%Z then None
  else if decide (alloc_mib f - reserved_mib f < budget_mib)%Z then None
  else if bool_decide (cpu_budget f > 0)%Z
          && bool_decide (cpu_budget f - reserved_vcpus f < budget_vcpus)%Z then None
  else Some (alloc_mib f - reserved_mib f)%Z.

Definition pg_unmeasured (h : HostId) : bool :=
  match fit !! h with Some f => bool_decide (alloc_mib f ≤ 0)%Z | None => false end.

Lemma best_fit_step_fits best h :
  best_fit_step fit budget_mib budget_vcpus best h =
  match pg_fits h with
  | None => best
  | Some free =>
      match best with
      | Some (bf, hb) => if decide (bf ≤ free)%Z then best else Some (free, h)
      | None => Some (free, h)
      end
  end.
Proof.
  unfold best_fit_step, pg_fits. destruct (fit !! h) as [f|]; [|done]. cbn [mbind option_bind].
  repeat case_match; simplify_eq/=; done.
Qed.

Lemma best_fit_fold l best :
  match fold_left (best_fit_step fit budget_mib budget_vcpus) l best with
  | Some (f, h) =>
      (best = Some (f, h) ∨ (h ∈ l ∧ pg_fits h = Some f)) ∧
      (∀ f' h', best = Some (f', h') → (f ≤ f')%Z) ∧
      (∀ h' f', h' ∈ l → pg_fits h' = Some f' → (f ≤ f')%Z)
  | None => best = None ∧ no_fit pg_fits l
  end.
Proof.
  revert best. induction l as [|x l IH]; intros best.
  { simpl. destruct best as [[f h]|].
    - split; [by left|]. split; [intros; simplify_eq; lia|]. set_solver.
    - split; [done|]. intros h Hh. by apply not_elem_of_nil in Hh. }
  cbn [fold_left]. specialize (IH (best_fit_step fit budget_mib budget_vcpus best x)).
  rewrite best_fit_step_fits in *. destruct (fold_left _ l _) as [[f h]|].
  - destruct IH as (Hsrc&Hb&Hl). destruct (pg_fits x) as [free|] eqn:Ex.
    + destruct best as [[bf hb]|]; [case_decide|].
      * split; [set_solver|]. split; [done|].
        intros h' f' [->|Hin]%elem_of_cons E; [|eauto]. simplify_eq.
        specialize (Hb _ _ eq_refl). lia.
      * split; [destruct Hsrc as [|]; [simplify_eq; set_solver|set_solver]|].
        specialize (Hb _ _ eq_refl). split; [intros; simplify_eq; lia|].
        intros h' f' [->|Hin]%elem_of_cons E; [|eauto]. by simplify_eq.
      * split; [destruct Hsrc as [|]; [simplify_eq; set_solver|set_solver]|].
        specialize (Hb _ _ eq_refl). split; [done|].
        intros h' f' [->|Hin]%elem_of_cons E; [|eauto]. by simplify_eq.
    + split; [set_solver|]. split; [done|].
      intros h' f' [->|Hin]%elem_of_cons E; [congruence|eauto].
  - destruct IH as [Hb Hn]. destruct (pg_fits x) as [free|] eqn:Ex.
    + destruct best as [[bf hb]|]; [case_decide|]; done.
    + split; [done|]. intros h [->|Hin]%elem_of_cons; auto.
Qed.

Lemma best_fit_measured_spec l :
  match best_fit_measured fit budget_mib budget_vcpus l with
  | Some h => tier_min pg_fits l h
  | None => no_fit pg_fits l
  end.
Proof.
  unfold best_fit_measured. pose proof (best_fit_fold l None) as H.
  destruct (fold_left _ l None) as [[f h]|]; simpl.
  - destruct H as ([?|[Hin E]]&_&Hm); [done|]. exists f. eauto.
  - apply H.
Qed.

Lemma choose_placement_spec candidates k :
  placement_spec pg_fits pg_unmeasured
    (take (Nat.min k (length candidates)) candidates) candidates
    (choose_placement_host fit budget_mib budget_vcpus candidates k).
Proof.
  unfold choose_placement_host. set (split := Nat.min k (length candidates)).
  pose proof (best_fit_measured_spec (take split candidates)) as Ha.
  destruct (best_fit_measured _ _ _ (take split candidates)) as [h|]; [by left|].
  pose proof (best_fit_measured_spec (drop split candidates)) as Hr.
  assert (Hcov : ∀ x, x ∈ candidates → x ∈ take split candidates ∨ x ∈ drop split candidates).
  { intros x Hx. rewrite <- (take_drop split candidates) in Hx. by apply elem_of_app. }
  destruct (best_fit_measured _ _ _ (drop split candidates)) as [h|].
  - right; left. split; [done|]. destruct Hr as (f&Hin&E&Hm). exists f.
    split; [|split; [done|]].
    + rewrite <- (take_drop split candidates). apply elem_of_app. by right.
    + intros h' f' Hin' E'. destruct (Hcov _ Hin') as [Hl|Hl]; [|eauto].
      by rewrite (Ha _ Hl) in E'.
  - assert (Hn : no_fit pg_fits candidates) by (intros x Hx; destruct (Hcov x Hx); auto).
    change (fun h => match fit !! h with Some f => _ | None => false end) with pg_unmeasured.
    destruct (List.find pg_unmeasured candidates) as [h|] eqn:Ef; simpl.
    + right; right. done.
    + split; [done|]. by apply find_None_elem.
Qed.

End postgres_spec.

(** ** The simulated pick meets it *)

(** Host rows are stored under their own id. *)
Definition hosts_keyed (d : SimDb) : Prop :=
  ∀ id h, hosts d !! id = Some h → HostRecord.id h = id.

Lemma pair_lt_false a b : pair_lt a b = false → (b.1 ≤ a.1)%Z.
Proof. unfold pair_lt. intros H. bool_prop; lia. Qed.

Lemma pair_lt_true a b : pair_lt a b = true → (a.1 ≤ b.1)%Z.
Proof. unfold pair_lt. intros H. bool_prop; lia. Qed.

Lemma min_pair_spec l :
  match min_pair l with
  | Some x => x ∈ l ∧ ∀ y, y ∈ l → (x.1 ≤ y.1)%Z
  | None => l = []
  end.
Proof.
  destruct l as [|x l]; simpl; [done|]. revert x. induction l as [|z l IH]; intros x; simpl.
  { split; [set_solver|]. intros y ->%list_elem_of_singleton. lia. }
  specialize (IH (if pair_lt z x then z else x)). destruct IH as [Hin Hm].
  assert (Hz : ((if pair_lt z x then z else x).1 ≤ z.1)%Z ∧
               ((if pair_lt z x then z else x).1 ≤ x.1)%Z).
  { destruct (pair_lt z x) eqn:E; [apply pair_lt_true in E|apply pair_lt_false in E]; lia. }
  pose proof (Hm _ (list_elem_of_here _ _)) as H0. split.
  - destruct (pair_lt z x); set_solver.
  - intros y Hy. rewrite !elem_of_cons in Hy. destruct Hy as [->|[->|Hy]]; [lia..|].
    apply Hm. by apply list_elem_of_further.
Qed.

Section sim_spec.
Context (env : option Q) (d : SimDb) (mem cpu : Z).

Definition sim_fit_of (id : HostId) : option Z :=
  h ← hosts d !! id; if lockable h then sim_fits env mem cpu (reserved_budgets d) h else None.

Definition sim_unmeasured (id : HostId) : bool :=
  match hosts d !! id with
  | Some h => lockable h && bool_decide (allocatable_mib (HostRecord.utilization h) = 0)%Z
  | None => false
  end.

(** A tier of records is the tier of their ids. *)
Definition tier_of (tier : list HostRecord.t) (ids : list HostId) : Prop :=
  ∀ id, (∃ h, h ∈ tier ∧ HostRecord.id h = id) ↔
        id ∈ ids ∧ ∃ h, hosts d !! id = Some h ∧ lockable h = true.

Lemma best_of_spec tier ids :
  hosts_keyed d →
  (∀ h, h ∈ tier → hosts d !! HostRecord.id h = Some h ∧ lockable h = true) →
  tier_of tier ids →
  match sim_best_of env mem cpu (reserved_budgets d) tier with
  | Some h => tier_min sim_fit_of ids h
  | None => no_fit sim_fit_of ids
  end.
Proof.
  intros Hk Hrow Ht. unfold sim_best_of.
  set (l := omap _ tier). pose proof (min_pair_spec l) as Hm.
  assert (Hl : ∀ f id, (f, id) ∈ l ↔ id ∈ ids ∧ sim_fit_of id = Some f).
  { intros f id. unfold l. rewrite list_elem_of_omap. split.
    - intros (h&Hh&He). destruct (Hrow h Hh) as [Hlk Hlock].
      destruct (sim_fits _ _ _ _ h) as [f'|] eqn:Ef; simplify_eq/=.
      destruct (proj1 (Ht (HostRecord.id h)) (ex_intro _ h (conj Hh eq_refl))) as [Hid _].
      split; [done|]. unfold sim_fit_of. rewrite Hlk. cbn. by rewrite Hlock.
    - intros [Hid He]. unfold sim_fit_of in He.
      destruct (hosts d !! id) as [h|] eqn:Eh; cbn in He; [|done].
      destruct (lockable h) eqn:El; [|done].
      destruct (proj2 (Ht id)) as (h'&Hin&Hid'); [eauto|].
      destruct (Hrow h' Hin) as [Hh' _]. rewrite Hid' in Hh'.
      assert (h' = h) as -> by congruence. exists h. split; [done|]. rewrite He. simpl. by rewrite Hid'. }
  destruct (min_pair l) as [[f h]|]; simpl.
  - destruct Hm as [Hin Hm]. apply Hl in Hin as [Hin E]. exists f. split; [done|].
    split; [done|]. intros h' f' Hin' E'. by apply (Hm (f', h')), Hl.
  - intros id Hid. destruct (sim_fit_of id) as [f|] eqn:E; [|done].
    assert (Hc : (f, id) ∈ l) by by apply Hl. rewrite Hm in Hc.
    by apply not_elem_of_nil in Hc.
Qed.

Lemma find_omap_eligible candidates :
  hosts_keyed d →
  HostRecord.id <$> List.find (fun h => bool_decide
     (allocatable_mib (HostRecord.utilization h) = 0)%Z)
     (List.filter lockable (omap (fun id => hosts d !! id) candidates))
  = List.find sim_unmeasured candidates.
Proof.
  intros Hk. induction candidates as [|id l IH]; [done|]. cbn.
  unfold sim_unmeasured at 1. destruct (hosts d !! id) as [h|] eqn:Eh; [|apply IH].
  cbn. destruct (lockable h); [|apply IH]. cbn.
  destruct (bool_decide _); [|apply IH]. cbn. f_equal. by apply Hk.
Qed.

Lemma elem_of_eligible candidates h :
  h ∈ List.filter lockable (omap (fun id => hosts d !! id) candidates) ↔
  lockable h = true ∧ ∃ id, id ∈ candidates ∧ hosts d !! id = Some h.
Proof.
  rewrite list_elem_of_In, filter_In, <- list_elem_of_In, list_elem_of_omap. tauto.
Qed.

(** The best of a tier cut out of the eligible hosts by a test on their ids. *)
Lemma best_of_tier candidates (P : HostId → bool) :
  hosts_keyed d →
  match sim_best_of env mem cpu (reserved_budgets d)
          (List.filter (fun h => P (HostRecord.id h))
             (List.filter lockable (omap (fun id => hosts d !! id) candidates))) with
  | Some h => tier_min sim_fit_of (List.filter P candidates) h
  | None => no_fit sim_fit_of (List.filter P candidates)
  end.
Proof.
  intros Hk. apply best_of_spec; [done|..].
  - intros h [[Hl (id&_&Hh)]%elem_of_eligible _]%elem_of_filterb. by rewrite (Hk _ _ Hh).
  - intros id. setoid_rewrite elem_of_filterb. setoid_rewrite elem_of_eligible. split.
    + intros (h&[[Hl (id'&Hin&Hh)] HP]&<-). rewrite (Hk _ _ Hh) in *. eauto.
    + intros ([Hin HP]&h&Hh&Hl). exists h. rewrite (Hk _ _ Hh). eauto 10.
Qed.

Lemma no_eligible candidates :
  List.filter lockable (omap (fun id => hosts d !! id) candidates) = [] →
  no_fit sim_fit_of candidates ∧ ∀ h, h ∈ candidates → sim_unmeasured h = false.
Proof.
  intros He.
  assert (Hn : ∀ id h, id ∈ candidates → hosts d !! id = Some h → lockable h = false).
  { intros id h Hid Hh. apply not_true_is_false. intros Hl.
    assert (Hc : h ∈ List.filter lockable (omap (fun id => hosts d !! id) candidates))
      by (apply elem_of_eligible; eauto).
    rewrite He in Hc. by apply not_elem_of_nil in Hc. }
  split; intros id Hid; unfold sim_fit_of, sim_unmeasured;
    destruct (hosts d !! id) as [h|] eqn:Eh; cbn; rewrite ?(Hn _ _ Hid Eh); done.
Qed.

Lemma pick_host_2d_spec candidates k :
  hosts_keyed d →
  placement_spec sim_fit_of sim_unmeasured
    (take (Nat.min k (length candidates)) candidates) candidates
    (pick_host_2d env d mem cpu candidates k).
Proof.
  intros Hk. unfold pick_host_2d. cbv zeta.
  set (prefix := take (Nat.min k (length candidates)) candidates).
  assert (Hsub : ∀ x, x ∈ prefix → x ∈ candidates) by apply take_sub.
  pose proof (find_omap_eligible candidates Hk) as Hfind.
  pose proof (no_eligible candidates) as Hempty.
  pose proof (best_of_tier candidates (fun id => bool_decide (id ∈ prefix)) Hk) as Ha.
  pose proof (best_of_tier candidates (fun id => negb (bool_decide (id ∈ prefix))) Hk) as Hr.
  destruct (List.filter lockable _) as [|e0 el]; [by apply Hempty|].
  assert (Hpre : ∀ x, x ∈ List.filter (fun id => bool_decide (id ∈ prefix)) candidates
                      ↔ x ∈ prefix).
  { intros x. rewrite elem_of_filterb, bool_decide_eq_true. naive_solver. }
  destruct (sim_best_of _ _ _ _ _) as [h|].
  { left. destruct Ha as (f&Hin&E&Hm). exists f. setoid_rewrite Hpre in Hm.
    by apply Hpre in Hin. }
  assert (Hna : no_fit sim_fit_of prefix) by (intros x Hx; by apply Ha, Hpre).
  assert (Hcov : ∀ x, x ∈ candidates → x ∈ prefix ∨
     x ∈ List.filter (fun id => negb (bool_decide (id ∈ prefix))) candidates).
  { intros x Hx. destruct (decide (x ∈ prefix)) as [|Hn]; [by left|right].
    apply elem_of_filterb. by rewrite bool_decide_eq_false_2. }
  destruct (sim_best_of _ _ _ _ _) as [h|].
  - right; left. split; [done|]. destruct Hr as (f&Hih&E&Hm). exists f.
    apply elem_of_filterb in Hih as [Hih _]. split; [done|]. split; [done|].
    intros h' f' Hin' E'. destruct (Hcov _ Hin') as [Hl|Hl]; [|eauto].
    by rewrite (Hna _ Hl) in E'.
  - assert (Hn : no_fit sim_fit_of candidates) by (intros x Hx; destruct (Hcov x Hx); auto).
    rewrite Hfind. destruct (List.find sim_unmeasured candidates) as [h|] eqn:Ef.
    + right; right. done.
    + split; [done|]. by apply find_None_elem.
Qed.

End sim_spec.

(** ** The two picks agree *)

(** What the fleet reports: keyed rows, memory that fits an [i64], and a core
    count whose overcommitted budget is positive. *)
Record fleet_ok (env : option Q) (d : SimDb) : Prop := {
  fo_keyed : hosts_keyed d;
  fo_alloc : ∀ id h, hosts d !! id = Some h →
    (0 ≤ allocatable_mib (HostRecord.utilization h) ≤ i64_max)%Z;
  fo_vcpus : ∀ id h, hosts d !! id = Some h → lockable h = true →
    (0 < HostRecord.total_vcpus h)%Z ∧ (0 < host_cpu_budget env (HostRecord.total_vcpus h))%Z;
}.

Lemma lookup_pg_fit_map env d cand id :
  pg_fit_map env d cand !! id =
  if decide (id ∈ cand) then
    h ← hosts d !! id;
    if lockable h then
      Some (MkFit (as_i64 (allocatable_mib (HostRecord.utilization h))) (reserved_of d id).1
              (host_cpu_budget env (Z.max 0 (HostRecord.total_vcpus h))) (reserved_of d id).2)
    else None
  else None.
Proof.
  unfold pg_fit_map.
  induction cand as [|x l IH] using rev_ind.
  { cbn [fold_left]. rewrite lookup_empty, decide_False; [done|]. apply not_elem_of_nil. }
  rewrite fold_left_app. cbn [fold_left].
  assert (Hd : id ∈ l ++ [x] ↔ id ∈ l ∨ id = x)
    by (rewrite elem_of_app, list_elem_of_singleton; done).
  destruct (hosts d !! x) as [hx|] eqn:Ex; [destruct (lockable hx) eqn:El|].
  - rewrite lookup_insert. destruct (decide (x = id)) as [->|Hxi].
    + rewrite decide_True by tauto. rewrite Ex. cbn. by rewrite El.
    + rewrite IH. destruct (decide (id ∈ l)), (decide (id ∈ l ++ [x])); naive_solver.
  - rewrite IH. destruct (decide (id ∈ l)), (decide (id ∈ l ++ [x])); try naive_solver.
    assert (id = x) as -> by tauto. rewrite Ex. cbn. by rewrite El.
  - rewrite IH. destruct (decide (id ∈ l)), (decide (id ∈ l ++ [x])); try naive_solver.
    assert (id = x) as -> by tauto. by rewrite Ex.
Qed.

Lemma as_i64_id z : (z ≤ i64_max)%Z → as_i64 z = z.
Proof. intros. unfold as_i64. by case_decide. Qed.

Lemma pg_sim_fits env d cand mem cpu id :
  fleet_ok env d → id ∈ cand →
  pg_fits (pg_fit_map env d cand) mem cpu id = sim_fit_of env d mem cpu id.
Proof.
  intros Hok Hin. unfold pg_fits, sim_fit_of. rewrite lookup_pg_fit_map, decide_True by done.
  destruct (hosts d !! id) as [h|] eqn:Eh; [|done]. cbn [mbind option_bind].
  destruct (lockable h) eqn:El; [|done]. cbn [mbind option_bind].
  destruct (fo_vcpus _ _ Hok _ _ Eh El) as [Hv Hb].
  unfold sim_fits. rewrite (fo_keyed _ _ Hok _ _ Eh).
  change (default (0, 0)%Z (reserved_budgets d !! id)) with (reserved_of d id).
  cbn [alloc_mib reserved_mib cpu_budget reserved_vcpus].
  rewrite Z.max_r by lia. destruct (reserved_of d id) as [mres cres]. cbn [fst snd].
  rewrite (bool_decide_eq_true_2 (host_cpu_budget _ _ > 0)%Z) by lia.
  repeat case_match; bool_prop; simplify_eq; try done; lia.
Qed.

Lemma pg_sim_unmeasured env d cand id :
  fleet_ok env d → id ∈ cand →
  pg_unmeasured (pg_fit_map env d cand) id = sim_unmeasured d id.
Proof.
  intros Hok Hin. unfold pg_unmeasured, sim_unmeasured.
  rewrite lookup_pg_fit_map, decide_True by done.
  destruct (hosts d !! id) as [h|] eqn:Eh; [|done]. cbn.
  destruct (lockable h); [|done]. cbn.
  pose proof (fo_alloc _ _ Hok _ _ Eh). rewrite as_i64_id by lia.
  apply bool_decide_ext. lia.
Qed.

Lemma pg_pick_spec env d mem cpu cand k :
  fleet_ok env d →
  placement_spec (sim_fit_of env d mem cpu) (sim_unmeasured d)
    (take (Nat.min k (length cand)) cand) cand (pg_pick_host_2d env d cand k mem cpu).
Proof.
  intros Hok. unfold pg_pick_host_2d. destruct cand as [|c0 cl] eqn:Ec.
  { split; intros h Hh; by apply not_elem_of_nil in Hh. }
  rewrite <- Ec. eapply placement_spec_ext; [apply take_sub| | |apply choose_placement_spec].
  - intros x Hx. by apply pg_sim_fits.
  - intros x Hx. by apply pg_sim_unmeasured.
Qed.

(** A measured host that fits has room for the budgets it is given. *)
Lemma sim_fit_capacity env d mem cpu id free :
  hosts_keyed d → sim_fit_of env d mem cpu id = Some free →
  ∃ h, hosts d !! id = Some h ∧ lockable h = true ∧
    let alloc := as_i64 (allocatable_mib (HostRecord.utilization h)) in
    (0 < alloc)%Z ∧ free = (alloc - (reserved_of d id).1)%Z ∧
    ((reserved_of d id).1 + mem ≤ alloc)%Z ∧
    ((reserved_of d id).2 + cpu ≤ host_cpu_budget env (HostRecord.total_vcpus h))%Z.
Proof.
  intros Hk. unfold sim_fit_of. destruct (hosts d !! id) as [h|] eqn:Eh; [|done]. cbn.
  destruct (lockable h) eqn:El; [|done]. unfold sim_fits. rewrite (Hk _ _ Eh).
  change (default (0, 0)%Z (reserved_budgets d !! id)) with (reserved_of d id).
  case_decide as Ha; [done|]. destruct (reserved_of d id) as [mres cres] eqn:Er. cbn.
  intros He. destr_match He. bool_prop. exists h. repeat split; try done; lia.
Qed.

(** Every host a pick returns is a lockable candidate that fits or is
    unmeasured. *)
Lemma placement_spec_elem fits unm aff all h :
  (∀ x, x ∈ aff → x ∈ all) →
  placement_spec fits unm aff all (Some h) → h ∈ all ∧ (is_Some (fits h) ∨ unm h = true).
Proof.
  intros Hsub [(f&?&?&_)|[[_ (f&?&?&_)]|[_ [??]%find_Some_elem]]]; eauto.
Qed.

(** ** Properties *)

(** The Postgres pick is best fit in tiers: among the snapshot-affinity
    candidates that fit both budgets it takes one with the least free memory;
    if none fits, one with the least free memory of all candidates; if none
    fits, the first unmeasured candidate; and it reports "no fit" only when no
    candidate fits and none is unmeasured. *)
Theorem placement_best_fit fit budget_mib budget_vcpus candidates k :
  placement_spec (pg_fits fit budget_mib budget_vcpus) (pg_unmeasured fit)
    (take (Nat.min k (length candidates)) candidates) candidates
    (choose_placement_host fit budget_mib budget_vcpus candidates k).
Proof. apply choose_placement_spec. Qed.

(** The simulated store's pick and the Postgres pick agree on a fleet that
    reports its core counts: both place or both refuse, and when they name
    different hosts the two have exactly the same free memory (a tie). *)
Theorem placement_sim_equiv env d mem cpu cand k :
  fleet_ok env d →
  let sim := pick_host_2d env d mem cpu cand k in
  let pg := pg_pick_host_2d env d cand k mem cpu in
  sim = pg ∨
  ∃ h1 h2 free, sim = Some h1 ∧ pg = Some h2 ∧
    sim_fit_of env d mem cpu h1 = Some free ∧ sim_fit_of env d mem cpu h2 = Some free.
Proof.
  intros Hok. cbv zeta. eapply placement_spec_unique.
  - apply (take_sub (Nat.min k (length cand))).
  - apply pick_host_2d_spec, Hok.
  - by apply pg_pick_spec.
Qed.

(** No oversubscription: a host the simulated pick returns is a candidate,
    accepts placements, and either has room for the memory and vcpu budgets on
    top of everything already reserved on it, or has never reported its
    memory. *)
Theorem placement_no_oversubscription env d mem cpu cand k h :
  hosts_keyed d → pick_host_2d env d mem cpu cand k = Some h →
  h ∈ cand ∧ ∃ r, hosts d !! h = Some r ∧ lockable r = true ∧
    (allocatable_mib (HostRecord.utilization r) = 0%Z ∨
     ((reserved_of d h).1 + mem ≤ as_i64 (allocatable_mib (HostRecord.utilization r)) ∧
      (reserved_of d h).2 + cpu ≤ host_cpu_budget env (HostRecord.total_vcpus r))%Z).
Proof.
  intros Hk Hp. pose proof (pick_host_2d_spec env d mem cpu cand k Hk) as Hs. rewrite Hp in Hs.
  apply placement_spec_elem in Hs as [Hin [[f Hf]|Hu]]; [..|apply take_sub]; (split; [done|]).
  - destruct (sim_fit_capacity env d mem cpu h f Hk Hf) as (r&?&?&?&_&?&?).
    exists r. do 2 (split; [done|]). by right.
  - unfold sim_unmeasured in Hu. destruct (hosts d !! h) as [r|]; [|done].
    bool_prop. exists r. do 2 (split; [done|]). by left.
Qed.

(** The diagnostic never disagrees with the Postgres pick: when the pick
    refuses, every candidate is reported as not lockable, RAM-full or CPU-full
    (never as fitting or unmeasured). *)
Theorem placement_diagnosis_agrees fit budget_mib budget_vcpus candidates k r :
  (budget_vcpus ≤ i64_max)%Z →
  choose_placement_host fit budget_mib budget_vcpus candidates k = None →
  r ∈ classify_no_fit fit budget_mib budget_vcpus candidates →
  nf_reason r ∈ ["not_lockable"; "ram_full"; "cpu_full"]%string.
Proof.
  intros Hb Hc (h&->&Hh)%list_elem_of_fmap.
  pose proof (choose_placement_spec fit budget_mib budget_vcpus candidates k) as Hs.
  rewrite Hc in Hs. destruct Hs as [Hn Hu]. specialize (Hn h Hh). specialize (Hu h Hh).
  unfold pg_fits, pg_unmeasured in *. destruct (fit !! h) as [f|]; [|set_solver].
  cbn in *. bool_prop. repeat case_decide; cbn; try set_solver; try lia.
Qed.

(** ** Concrete fleets *)

Definition fixture_host (id : HostId) (alloc vcpus : Z) : HostRecord.t :=
  HostRecord.Mk id "host" JNull (Build_HostCapacity 0 0 0 0 0)
    (Build_HostUtilization 0 0 0 0 0 0 0 0 alloc (JNum 0) 0 0 0 0)
    HostStatus.Ready 0 None [] [] [] false None None None None vcpus 1 true JNull
    (Some 1000%Z) HostLeaseState.Active 1.

Definition fixture_db (hs : list HostRecord.t) : SimDb :=
  SimDb_default <| hosts := list_to_map ((fun h => (HostRecord.id h, h)) <$> hs) |>.

Definition fixture_fleet : SimDb :=
  fixture_db [fixture_host 1 8192 4; fixture_host 2 4096 2; fixture_host 3 0 8].

(** The two stores diverge on a host that reports memory but no core
    count: Postgres places there (no CPU gate), the simulated pick refuses, and
    the simulated diagnostic reports that the refused host fits. *)
Theorem placement_vcpus_zero_divergence :
  let d := fixture_db [fixture_host 1 8192 0] in
  pg_pick_host_2d None d [1%N] 0 1024 1 = Some 1%N ∧
  pick_host_2d None d 1024 1 [1%N] 0 = None ∧
  nf_reason (sim_no_fit None d 1024 1 1%N) = "fits_now"%string.
Proof. vm_compute. done. Qed.

Lemma fixture_fleet_keyed : hosts_keyed fixture_fleet.
Proof.
  intros id h Hh. unfold fixture_fleet, fixture_db in Hh. simpl in Hh.
  repeat (apply lookup_insert_Some in Hh as [[<- <-]|[_ Hh]]; [done|]). by rewrite lookup_empty in Hh.
Qed.

Lemma fixture_fleet_ok : fleet_ok None fixture_fleet.
Proof.
  split; [apply fixture_fleet_keyed|..]; intros id h Hh;
    unfold fixture_fleet, fixture_db in Hh; simpl in Hh;
    repeat (apply lookup_insert_Some in Hh as [[<- <-]|[_ Hh]]; [by vm_compute|]);
    by rewrite lookup_empty in Hh.
Qed.

Lemma placement_sim_equiv_witness :
  pick_host_2d None fixture_fleet 1024 1 [1; 2; 3]%N 0 = Some 2%N ∧
  (pick_host_2d None fixture_fleet 1024 1 [1; 2; 3]%N 0 =
   pg_pick_host_2d None fixture_fleet [1; 2; 3]%N 0 1024 1 ∨
   ∃ h1 h2 free, pick_host_2d None fixture_fleet 1024 1 [1; 2; 3]%N 0 = Some h1 ∧
     pg_pick_host_2d None fixture_fleet [1; 2; 3]%N 0 1024 1 = Some h2 ∧
     sim_fit_of None fixture_fleet 1024 1 h1 = Some free ∧
     sim_fit_of None fixture_fleet 1024 1 h2 = Some free).
Proof.
  split; [vm_compute; reflexivity|].
  apply (placement_sim_equiv None fixture_fleet 1024 1 [1; 2; 3]%N 0), fixture_fleet_ok.
Defined.

Lemma placement_no_oversubscription_witness :
  pick_host_2d None fixture_fleet 1024 1 [1; 2; 3]%N 1 = Some 1%N ∧ 1%N ∈ [1; 2; 3]%N.
Proof.
  split; [vm_compute; reflexivity|].
  apply (placement_no_oversubscription None fixture_fleet 1024 1 [1; 2; 3]%N 1 1%N);
    [apply fixture_fleet_keyed|vm_compute; reflexivity].
Defined.

Lemma placement_diagnosis_agrees_witness :
  let fit := {[1%N := MkFit 512 0 16 0]} in
  choose_placement_host fit 1024 1 [1%N] 0 = None ∧
  nf_reason (MkNoFit 1 "ram_full" 512 16) ∈ ["not_lockable"; "ram_full"; "cpu_full"]%string.
Proof.
  cbv zeta. split; [vm_compute; reflexivity|].
  apply (placement_diagnosis_agrees {[1%N := MkFit 512 0 16 0]} 1024 1 [1%N] 0);
    [vm_compute; congruence|vm_compute; reflexivity|].
  apply list_elem_of_here.
Defined.
