(* ===== verification/MetaOps.v ===== *)
(** * The op log of the metadata store

    The session-op methods of [SimMetadataStore] ([store_impl.rs]).  Unlike
    [InMemoryOpLog] the fencing epoch lives on the session row
    ([sessions.current_epoch]), rows carry a lease ([heartbeat_at]) and stale
    running ops are reclaimed.  The methods are proved to refine the same
    abstract log. *)

From S2P Require Import Prelude Session Teleport OpLogSpec MetaTypes.
From Stdlib Require Import QArith.

Module MetaOps.
Import OpRow.

(** ** Methods *)

(** Rows of a session in one of the two active states, and running ones. *)
Definition lane_active (s : SessionId) (o : OpRow.t) : bool :=
  bool_decide (session_id o = s) && OpState.active (state o).
Definition lane_running (s : SessionId) (o : OpRow.t) : bool :=
  bool_decide (session_id o = s) && bool_decide (state o = OpState.Running).
(** [state == Queued && not_before.is_none_or(|nb| nb <= now)]. *)
Definition row_due (now : DateTime) (o : OpRow.t) : bool :=
  bool_decide (state o = OpState.Queued)
  && match not_before o with None => true | Some nb => bool_decide (nb ≤ now)%Z end.

(** The stamp of a claim. *)
Definition claim_row (e : Z) (by_ : string) (now : DateTime) (o : OpRow.t) : OpRow.t :=
  o <| state := OpState.Running |> <| epoch := Some e |> <| claimed_by := Some by_ |>
    <| claimed_at := Some now |> <| heartbeat_at := Some now |>.

Definition op_enqueue_and_claim (s : SessionId) (k : OpKind) (p : json)
    (key : option string) (by_ : string) (now : DateTime) : M EnqueueOutcome :=
  gate;;
  d ← get_db;
  let dup :=
    match key with
    | Some key =>
        existsb (fun o => bool_decide (session_id o = s) && bool_decide (kind o = k)
                          && bool_decide (idempotency_key o = Some key)
                          && OpState.active (state o)) (values (session_ops d))
    | None => false
    end in
  if dup then mret Duplicate
  else
    let '(i, d) := next_serial d in
    put_db d;;
    let row := Mk i s k p OpState.Queued None None 0 None key None None None None now None in
    let running := existsb (lane_running s) (values (session_ops d)) in
    let older_queued :=
      existsb (fun o => bool_decide (session_id o = s) && bool_decide (state o = OpState.Queued)
                        && bool_decide (id o < i)%Z) (values (session_ops d)) in
    if negb running && negb older_queued then
      sess ← ok_or (sessions d !! s) NotFound;
      let e := (SessRow.current_epoch sess + 1)%Z in
      let row := claim_row e by_ now row <| attempts := 1%Z |> in
      put_db (put_op i row (put_session s (sess <| SessRow.current_epoch := e |>) d));;
      notify "session_ops" (PSession s);;
      mret (Claimed (op_row_to_domain row))
    else
      put_db (put_op i row d);;
      notify "session_ops" (PSession s);;
      mret (QueuedAs (op_row_to_domain row)).

Definition op_enqueue_and_claim_exclusive (s : SessionId) (k : OpKind) (p : json)
    (by_ : string) (now : DateTime) : M (option SessionOp.t) :=
  gate;;
  d ← get_db;
  if existsb (lane_active s) (values (session_ops d)) then mret None
  else
    sess ← ok_or (sessions d !! s) NotFound;
    let e := (SessRow.current_epoch sess + 1)%Z in
    let '(i, d) := next_serial (put_session s (sess <| SessRow.current_epoch := e |>) d) in
    let row := Mk i s k p OpState.Running None (Some e) 1 None None (Some by_)
                  (Some now) (Some now) None now None in
    put_db (put_op i row d);;
    notify "session_ops" (PSession s);;
    mret (Some (op_row_to_domain row)).

Definition op_claim_head (s : SessionId) (by_ : string) (now : DateTime) :
    M (option SessionOp.t) :=
  gate;;
  d ← get_db;
  if existsb (lane_running s) (values (session_ops d)) then mret None
  else
    match min_id (id <$> List.filter (fun o => bool_decide (session_id o = s) && row_due now o)
                           (values (session_ops d))) with
    | None => mret None
    | Some i =>
        sess ← ok_or (sessions d !! s) NotFound;
        let e := (SessRow.current_epoch sess + 1)%Z in
        let d := put_session s (sess <| SessRow.current_epoch := e |>) d in
        match session_ops d !! i with
        | Some o =>
            let row := claim_row e by_ now o <| attempts ::= Z.succ |> in
            put_db (put_op i row d);; mret (Some (op_row_to_domain row))
        | None => put_db d;; mret None
        end
    end.

(** A [BTreeSet] of session ids, in order. *)
Definition op_due_sessions (now : DateTime) : M (list SessionId) :=
  gate;;
  d ← get_db;
  mret (dedup (merge_sort N.le (session_id <$>
          List.filter (fun o => row_due now o
                         && negb (existsb (lane_running (session_id o)) (values (session_ops d))))
            (values (session_ops d))))).

(** The guard of every fenced write: a running row under this epoch. *)
Definition fenced_row (op_id e : Z) (d : SimDb) : option OpRow.t :=
  o ← session_ops d !! op_id;
  if bool_decide (epoch o = Some e) && bool_decide (state o = OpState.Running)
  then Some o else None.

Definition fenced_write (op_id e : Z) (f : OpRow.t → OpRow.t) : M bool :=
  gate;;
  d ← get_db;
  match fenced_row op_id e d with
  | None => mret false
  | Some o => put_db (put_op op_id (f o) d);; mret true
  end.

Definition op_record_step (op_id e : Z) (stp : string) (now : DateTime) : M bool :=
  fenced_write op_id e (fun o => o <| step := Some stp |> <| heartbeat_at := Some now |>).

Definition op_heartbeat (op_id e : Z) (now : DateTime) : M bool :=
  fenced_write op_id e (fun o => o <| heartbeat_at := Some now |>).

Definition op_finish (op_id e : Z) (final : OpState.t) (err : option string) (now : DateTime) :
    M bool :=
  fenced_write op_id e
    (fun o => o <| state := final |> <| error := err |> <| finished_at := Some now |>).

Definition op_requeue_with_backoff (op_id e : Z) (backoff : Duration) (err : string)
    (now : DateTime) : M bool :=
  fenced_write op_id e
    (fun o => o <| state := OpState.Queued |>
                <| not_before := Some (now + from_std_or_zero backoff)%Z |>
                <| error := Some err |> <| epoch := None |> <| claimed_by := None |>
                <| heartbeat_at := None |>).

Definition queued_of (s : SessionId) (k : OpKind) (o : OpRow.t) : bool :=
  bool_decide (session_id o = s) && bool_decide (kind o = k)
  && bool_decide (state o = OpState.Queued).

Definition op_cancel_queued (s : SessionId) (k : OpKind) (now : DateTime) : M bool :=
  gate;;
  d ← get_db;
  put_db (d <| session_ops ::= fmap (fun o => if queued_of s k o
            then o <| state := OpState.Cancelled |> <| finished_at := Some now |> else o) |>);;
  mret (existsb (queued_of s k) (values (session_ops d))).

Definition op_wake_queued_kind (s : SessionId) (k : OpKind) (now : DateTime) : M nat :=
  gate;;
  d ← get_db;
  put_db (d <| session_ops ::= fmap (fun o => if queued_of s k o
            then o <| not_before := Some (match not_before o with
                                          | None => now | Some nb => Z.min nb now end) |>
            else o) |>);;
  let woken := length (List.filter (queued_of s k) (values (session_ops d))) in
  when (bool_decide (0 < woken)%nat) (notify "session_ops" (PSession s));;
  mret woken.

(** The [values_mut] loop of [op_request_cancel_running]; the result is [None]
    when [payload["_cancel"] = true] panics on a payload that is neither an
    object nor null, the rows before it being already written. *)
Fixpoint cancel_loop (P : OpRow.t → bool) (l : list (Z * OpRow.t)) (any : bool) (d : SimDb) :
    option bool * SimDb :=
  match l with
  | [] => (Some any, d)
  | (i, o) :: l' =>
      if P o then
        match json_index_set "_cancel" (JBool true) (payload o) with
        | Some p => cancel_loop P l' true (put_op i (o <| payload := p |>) d)
        | None => (None, d)
        end
      else cancel_loop P l' any d
  end.

Definition op_request_cancel_running (s : SessionId) (k : OpKind) : M (option bool) :=
  gate;;
  d ← get_db;
  let '(r, d') := cancel_loop
    (fun o => bool_decide (session_id o = s) && bool_decide (kind o = k)
              && bool_decide (state o = OpState.Running)) (btree (session_ops d)) false d in
  put_db d';; mret r.

Definition op_cancel_requested (op_id : Z) : M bool :=
  gate;;
  d ← get_db;
  mret (default false (o ← session_ops d !! op_id;
                       json_get "_cancel" (payload o) ≫= json_as_bool)).

Definition op_running_for (s : SessionId) : M (option SessionOp.t) :=
  gate;;
  d ← get_db;
  mret (op_row_to_domain <$> List.find (lane_running s) (values (session_ops d))).

(** [max_by_key(|o| o.id)]: rows come in id order, so the last one. *)
Definition op_latest_for_kind (s : SessionId) (k : OpKind) : M (option SessionOp.t) :=
  gate;;
  d ← get_db;
  mret (op_row_to_domain <$>
    last (List.filter (fun o => bool_decide (session_id o = s) && bool_decide (kind o = k))
            (values (session_ops d)))).

Definition op_get (op_id : Z) : M (option SessionOp.t) :=
  gate;; d ← get_db; mret (op_row_to_domain <$> session_ops d !! op_id).

Definition op_cancel_by_id (op_id : Z) (now : DateTime) : M bool :=
  gate;;
  d ← get_db;
  match session_ops d !! op_id with
  | None => mret false
  | Some o =>
      if bool_decide (state o = OpState.Queued) then
        put_db (put_op op_id (o <| state := OpState.Cancelled |>
                                <| finished_at := Some now |>) d);; mret true
      else mret false
  end.

Definition op_pending_exists (s : SessionId) (k : OpKind) : M bool :=
  gate;;
  d ← get_db;
  mret (existsb (fun o => bool_decide (session_id o = s) && bool_decide (kind o = k)
                          && OpState.active (state o)) (values (session_ops d))).

(** [matches!(step, Some("restore" | "bind" | "finish"))]. *)
Definition effectful_step (s : option string) : bool :=
  match s with
  | Some s => bool_decide (s ∈ ["restore"; "bind"; "finish"]%string)
  | None => false
  end.

Definition op_resume_failure_streak (s : SessionId) : M nat :=
  gate;;
  d ← get_db;
  let resumes st := List.filter (fun o => bool_decide (session_id o = s)
                      && bool_decide (kind o = Resume) && bool_decide (state o = st))
                      (values (session_ops d)) in
  let last_done := foldr Z.max 0%Z (id <$> resumes OpState.Done) in
  mret (length (List.filter (fun o => bool_decide (last_done < id o)%Z && effectful_step (step o))
                  (resumes OpState.Failed))).

Definition orphaned_pending_sessions (older_than : Duration) (now : DateTime) :
    M (list SessionId) :=
  gate;;
  let cutoff := (now - from_std_or_zero older_than)%Z in
  d ← get_db;
  mret ((fun r => Session.id (SessRow.session r)) <$>
    List.filter (fun r =>
        bool_decide (SessRow.status r = Pending)
        && bool_decide (Session.last_active_at (SessRow.session r) < cutoff)%Z
        && negb (existsb (fun o => bool_decide (session_id o = Session.id (SessRow.session r))
                                   && bool_decide (kind o = CreateBoot)
                                   && OpState.active (state o)) (values (session_ops d))))
      (values (sessions d))).

(** One iteration of the reclaim loop. *)
Definition reclaim_one (by_ : string) (now : DateTime) (acc : list SessionOp.t * SimDb) (i : Z) :
    list SessionOp.t * SimDb :=
  let '(out, d) := acc in
  match session_ops d !! i with
  | None => (out, d)
  | Some o =>
      match sessions d !! session_id o with
      | None => (out, d)
      | Some sess =>
          let e := (SessRow.current_epoch sess + 1)%Z in
          let row := o <| epoch := Some e |> <| claimed_by := Some by_ |>
                       <| claimed_at := Some now |> <| heartbeat_at := Some now |>
                       <| attempts ::= Z.succ |> in
          (out ++ [op_row_to_domain row],
           put_op i row (put_session (session_id o) (sess <| SessRow.current_epoch := e |>) d))
      end
  end.

Definition op_reclaim_stale (stale : Duration) (by_ : string) (now : DateTime) :
    M (list SessionOp.t) :=
  gate;;
  let cutoff := (now - from_std_or_zero stale)%Z in
  d ← get_db;
  let stale_ids := id <$> List.filter (fun o => bool_decide (state o = OpState.Running)
      && match heartbeat_at o with Some h => bool_decide (h < cutoff)%Z | None => false end)
      (values (session_ops d)) in
  let '(out, d') := fold_left (reclaim_one by_ now) stale_ids ([], d) in
  put_db d';; mret out.

(** ** Abstraction

    The abstract log of a database: the rows of existing sessions, and the
    epoch of each session that was ever claimed.  (A row whose session was
    deleted is unreachable for every claim.) *)

Definition live_row (d : SimDb) (io : Z * OpRow.t) : Prop :=
  is_Some (sessions d !! session_id io.2).

Definition epoch_entry (r : SessRow.t) : option Z :=
  if decide (SessRow.current_epoch r = 0%Z) then None else Some (SessRow.current_epoch r).

Definition abs (d : SimDb) : alog :=
  ALog (op_row_to_domain <$> filter (live_row d) (session_ops d)) (omap epoch_entry (sessions d)).

(** Rows carry their id, ids come from the serial, epochs are counters. *)
Record wf (d : SimDb) : Prop := {
  wf_id : ∀ i o, session_ops d !! i = Some o → id o = i ∧ (i ≤ serial d)%Z;
  wf_epoch : ∀ s r, sessions d !! s = Some r → (0 ≤ SessRow.current_epoch r)%Z;
}.

Lemma lookup_abs d i o' :
  a_ops (abs d) !! i = Some o' ↔
  ∃ o, session_ops d !! i = Some o ∧ is_Some (sessions d !! session_id o) ∧
       op_row_to_domain o = o'.
Proof.
  unfold abs. simpl. rewrite lookup_fmap_Some. setoid_rewrite map_lookup_filter_Some.
  unfold live_row. simpl. naive_solver.
Qed.

Lemma epoch_abs d s :
  epoch_of (abs d) s = default 0%Z (SessRow.current_epoch <$> sessions d !! s).
Proof.
  unfold epoch_of, abs. simpl. rewrite lookup_omap.
  destruct (sessions d !! s) as [r|]; [|done]. simpl. unfold epoch_entry. by case_decide.
Qed.

Lemma abs_eq d l :
  (∀ i o', a_ops (abs d) !! i = Some o' ↔ a_ops l !! i = Some o') →
  (∀ s, omap epoch_entry (sessions d) !! s = a_epochs l !! s) →
  abs d = l.
Proof.
  intros Ho He. destruct l as [ops eps]. unfold abs. f_equal.
  - apply map_eq. intros i. apply option_eq. intros o'. apply (Ho i o').
  - apply map_eq. intros s. apply (He s).
Qed.

(** Writes that keep op rows and epochs are invisible. *)
Lemma abs_ext d d' :
  session_ops d' = session_ops d →
  (∀ s, SessRow.current_epoch <$> sessions d' !! s = SessRow.current_epoch <$> sessions d !! s) →
  abs d' = abs d.
Proof.
  intros Ho Hs. apply abs_eq.
  - intros i o'. rewrite !lookup_abs, Ho.
    assert (Hl : ∀ s, is_Some (sessions d' !! s) ↔ is_Some (sessions d !! s)).
    { intros s. specialize (Hs s). rewrite <- !(fmap_is_Some SessRow.current_epoch).
      by rewrite Hs. }
    by setoid_rewrite Hl.
  - intros s. simpl. rewrite !lookup_omap. specialize (Hs s). unfold epoch_entry.
    destruct (sessions d' !! s), (sessions d !! s); simpl in *; try done.
    by injection Hs as ->.
Qed.

Lemma abs_put_op d i row :
  is_Some (sessions d !! session_id row) →
  abs (put_op i row d) = (abs d) <| a_ops := <[i := op_row_to_domain row]> (a_ops (abs d)) |>.
Proof.
  intros Hs. apply abs_eq; [|done]. intros j o'. rewrite lookup_abs. simpl.
  rewrite lookup_insert_Some. setoid_rewrite lookup_insert_Some.
  pose proof (lookup_abs d j o') as Hl. simpl in Hl. rewrite Hl. naive_solver.
Qed.

Lemma abs_put_dead d i row :
  sessions d !! session_id row = None →
  (∀ o, session_ops d !! i = Some o → sessions d !! session_id o = None) →
  abs (put_op i row d) = abs d.
Proof.
  intros Hs Hold. apply abs_eq; [|done]. intros j o'. rewrite !lookup_abs. simpl.
  setoid_rewrite lookup_insert_Some. split.
  - intros (o&[[-> ->]|[Hne Ho]]&[r Hr]&Hd); [congruence|]. eauto.
  - intros (o&Ho&[r Hr]&Hd). exists o. split; [|eauto]. right. split; [|done].
    intros ->. rewrite (Hold _ Ho) in Hr. done.
Qed.

Lemma abs_put_epoch d s sess e :
  sessions d !! s = Some sess → e ≠ 0%Z →
  abs (put_session s (sess <| SessRow.current_epoch := e |>) d) =
    (abs d) <| a_epochs := <[s := e]> (a_epochs (abs d)) |>.
Proof.
  intros Hs He. apply abs_eq.
  - intros i o'. rewrite !lookup_abs. simpl.
    assert (Hl : ∀ s', is_Some (<[s := sess <| SessRow.current_epoch := e |>]> (sessions d) !! s')
                       ↔ is_Some (sessions d !! s')).
    { intros s'. rewrite lookup_insert. case_decide; subst; [|done]. rewrite Hs.
      by split; eexists. }
    setoid_rewrite Hl. pose proof (lookup_abs d i o') as Hl'. simpl in Hl'. by rewrite Hl'.
  - intros s'. simpl. rewrite lookup_omap, !lookup_insert. case_decide; [|by rewrite lookup_omap].
    simpl. unfold epoch_entry. simpl. by case_decide.
Qed.

(** A claim of the code is a claim of the specification. *)
Lemma abs_claim d s sess i row by_ o :
  sessions d !! s = Some sess → (0 ≤ SessRow.current_epoch sess)%Z →
  SessionOp.id o = i → SessionOp.session_id o = s → session_id row = s →
  let e := (SessRow.current_epoch sess + 1)%Z in
  op_row_to_domain row = claim_stamp e by_ o →
  abs (put_op i row (put_session s (sess <| SessRow.current_epoch := e |>) d)) =
    a_claim by_ o (abs d).
Proof.
  intros Hs Hpos Hi Ho Hrow e Hst. rewrite abs_put_op.
  - rewrite (abs_put_epoch d s sess e) by (done || unfold e; lia).
    unfold a_claim. rewrite Ho, Hi, epoch_abs, Hs. simpl. rewrite Hst. done.
  - simpl. rewrite Hrow, lookup_insert_eq. by eexists.
Qed.

(** A lane of an existing session, seen from both sides. *)
Lemma lane_has_abs d s P Q :
  (∀ o, Q (op_row_to_domain o) = P o) →
  lane_has (abs d) s Q ↔
  is_Some (sessions d !! s) ∧
  existsb (fun o => bool_decide (session_id o = s) && P o) (values (session_ops d)) = true.
Proof.
  intros HPQ. rewrite existsb_values. unfold lane_has. split.
  - intros (i&o'&(o&Ho&Hl&<-)%lookup_abs&<-&HQ). split; [done|]. exists i, o.
    rewrite HPQ in HQ. by rewrite HQ, bool_decide_eq_true_2.
  - intros (Hl&i&o&Ho&H). bool_prop. subst. exists i, (op_row_to_domain o).
    rewrite lookup_abs, HPQ. eauto 10.
Qed.

(** ** Refinement *)

Definition refines (d d' : SimDb) : Prop := wf d' ∧ rtc astep (abs d) (abs d').

Lemma refines_refl d : wf d → refines d d.
Proof. split; [done|apply rtc_refl]. Qed.

Lemma refines_same d d' : wf d' → abs d' = abs d → refines d d'.
Proof. intros ? Heq. split; [done|]. rewrite Heq. apply rtc_refl. Qed.

Lemma refines_step d d' : wf d' → astep (abs d) (abs d') → refines d d'.
Proof. split; [done|by apply rtc_once]. Qed.

Lemma wf_put_op d i row :
  wf d → id row = i → (i ≤ serial d)%Z → wf (put_op i row d).
Proof.
  intros [Hid Hep] Hrow Hi. split; [|done]. simpl. intros j o.
  rewrite lookup_insert_Some. naive_solver.
Qed.

Lemma wf_put_session d s r :
  wf d → (0 ≤ SessRow.current_epoch r)%Z → wf (put_session s r d).
Proof.
  intros [Hid Hep] Hr. split; [done|]. simpl. intros s' r'.
  rewrite lookup_insert_Some. naive_solver.
Qed.

Lemma wf_serial d : wf d → wf (d <| serial ::= Z.succ |>).
Proof.
  intros [Hid Hep]. split; [|done]. simpl. intros i o Ho.
  destruct (Hid _ _ Ho). split; [done|lia].
Qed.

Lemma wf_map d f : wf d → (∀ o, id (f o) = id o) → wf (d <| session_ops ::= fmap f |>).
Proof.
  intros [Hid Hep] Hf. split; [|done]. simpl. intros i o (o0&<-&Ho)%lookup_fmap_Some.
  rewrite Hf. eauto.
Qed.

Lemma fresh_serial d : wf d → fresh_id (abs d) (serial d + 1).
Proof.
  intros Hwf j o' (o&Ho&_&_)%lookup_abs. destruct (wf_id _ Hwf _ _ Ho). lia.
Qed.

Lemma not_claimable_lane d s i :
  wf d → (serial d < i)%Z →
  existsb (lane_running s) (values (session_ops d)) ||
  existsb (fun o => bool_decide (session_id o = s) && bool_decide (state o = OpState.Queued)
                    && bool_decide (id o < i)%Z) (values (session_ops d)) =
  existsb (lane_active s) (values (session_ops d)).
Proof.
  intros Hwf Hi. apply eq_true_iff_eq. rewrite orb_true_iff, !existsb_values.
  unfold lane_running, lane_active. split.
  - intros [(j&o&Ho&H)|(j&o&Ho&H)]; exists j, o; bool_prop; split; try done;
      rewrite bool_decide_eq_true_2 by done; by rewrite H0 || (destruct (state o)).
  - intros (j&o&Ho&H). apply andb_true_iff in H as [Hs Ha].
    destruct (wf_id _ Hwf _ _ Ho) as [Hid Hj].
    destruct (state o) eqn:Es; try done; [right|left]; exists j, o;
      rewrite Hs, Es; (split; [done|]); try done.
    simpl. apply bool_decide_eq_true. lia.
Qed.

Lemma lane_active_abs d s :
  lane_has (abs d) s is_active ↔
  is_Some (sessions d !! s) ∧ existsb (lane_active s) (values (session_ops d)) = true.
Proof. by apply lane_has_abs. Qed.

Lemma lane_running_abs d s :
  lane_has (abs d) s is_running ↔
  is_Some (sessions d !! s) ∧ existsb (lane_running s) (values (session_ops d)) = true.
Proof. by apply lane_has_abs. Qed.

(** The keyed-duplicate scan of an enqueue. *)
Definition dup_scan (s : SessionId) (k : OpKind) (key : option string) (d : SimDb) : bool :=
  match key with
  | Some key =>
      existsb (fun o => bool_decide (session_id o = s) && bool_decide (kind o = k)
                        && bool_decide (idempotency_key o = Some key)
                        && OpState.active (state o)) (values (session_ops d))
  | None => false
  end.

Lemma dup_scan_false d s k key :
  dup_scan s k key d = false → ¬ has_duplicate (abs d) s k key.
Proof.
  intros Hd [[key' ->] (i&o'&(o&Ho&_&<-)%lookup_abs&Hs&HQ)]. cbn in *.
  apply not_true_iff_false in Hd. apply Hd, existsb_values. exists i, o. split; [done|].
  rewrite Hs. bool_prop. by rewrite !bool_decide_eq_true_2.
Qed.

Lemma refines_enqueue s k p key by_ now st :
  wf (db st) → refines (db st) (db (op_enqueue_and_claim s k p key by_ now st).2).
Proof.
  intros Hwf. unfold op_enqueue_and_claim. gated st.
  fold (dup_scan s k key (db st)).
  destruct (dup_scan s k key (db st)) eqn:Ed; [by apply refines_refl|].
  apply dup_scan_false in Ed. unfold next_serial. cbn -[put_op put_session].
  set (d := db st) in *. change (Z.succ (serial d)) with (serial d + 1)%Z.
  pose proof (wf_serial d Hwf) as Hwf1.
  rewrite <- negb_orb, not_claimable_lane by (done || lia).
  set (d1 := d <| serial ::= Z.succ |>) in *.
  assert (Habs1 : abs d1 = abs d) by by apply abs_ext.
  destruct (existsb (lane_active s) (values (session_ops d))) eqn:Ea; cbn -[put_op put_session].
  - (* queued behind the lane *)
    set (row := Mk _ _ _ _ _ _ _ _ _ _ _ _ _ _ _ _).
    change (refines d (put_op (serial d + 1) row d1)).
    assert (Hwf2 : wf (put_op (serial d + 1) row d1)) by (apply wf_put_op; [done..|simpl; lia]).
    destruct (sessions d !! s) as [sess|] eqn:Es.
    + apply refines_step; [done|]. rewrite abs_put_op by (simpl; by rewrite Es).
      rewrite Habs1. eapply (as_enqueue_queued (abs d) (serial d + 1) s k p key now); try done.
      * by apply fresh_serial.
      * apply lane_active_abs. split; [by rewrite Es|done].
    + apply refines_same; [done|]. rewrite abs_put_dead; [done..|].
      intros o Ho. cbn in Ho. destruct (wf_id _ Hwf _ _ Ho). lia.
  - change (sessions d1 !! s) with (sessions d !! s).
    destruct (sessions d !! s) as [sess|] eqn:Es; cbn -[put_op put_session].
    + pose proof (wf_epoch _ Hwf _ _ Es) as Hep. apply refines_step.
      * apply wf_put_op; [|done|simpl; lia]. apply wf_put_session; [done|]. simpl. lia.
      * erewrite (abs_claim d1 s sess (serial d + 1) _ by_
                    (fresh_op (serial d + 1) s k p key now)); try done.
        rewrite Habs1. apply as_enqueue_claimed; [by apply fresh_serial|done|].
        rewrite lane_active_abs. intros [_ ?]. congruence.
    + by apply refines_same.
Qed.

Lemma refines_exclusive s k p by_ now st :
  wf (db st) → refines (db st) (db (op_enqueue_and_claim_exclusive s k p by_ now st).2).
Proof.
  intros Hwf. unfold op_enqueue_and_claim_exclusive. gated st.
  set (d := db st) in *.
  destruct (existsb (lane_active s) _) eqn:Ea; [by apply refines_refl|].
  destruct (sessions d !! s) as [sess|] eqn:Es; cbn -[put_op put_session]; [|by apply refines_refl].
  pose proof (wf_epoch _ Hwf _ _ Es) as Hep. set (e := (SessRow.current_epoch sess + 1)%Z).
  change ((put_session s _ d) <| serial ::= Z.succ |>)
    with (put_session s (sess <| SessRow.current_epoch := e |>) (d <| serial ::= Z.succ |>)).
  pose proof (wf_serial d Hwf) as Hwf1.
  apply refines_step.
  - apply wf_put_op; [|done|simpl; lia]. apply wf_put_session; [done|]. simpl. lia.
  - erewrite (abs_claim _ s sess (serial d + 1) _ by_ (fresh_op (serial d + 1) s k p None now));
      try done.
    rewrite (abs_ext d (d <| serial ::= Z.succ |>)) by done. apply as_enqueue_claimed; [by apply fresh_serial|by intros [[] _]|].
    rewrite lane_active_abs. intros [_ ?]. congruence.
Qed.

Lemma domain_due now o : is_due now (op_row_to_domain o) = row_due now o.
Proof. done. Qed.

Lemma refines_claim_head s by_ now st :
  wf (db st) → refines (db st) (db (op_claim_head s by_ now st).2).
Proof.
  intros Hwf. unfold op_claim_head. gated st.
  set (d := db st) in *.
  destruct (existsb (lane_running s) _) eqn:Er; [by apply refines_refl|].
  destruct (min_id _) as [i|] eqn:Em; [|by apply refines_refl].
  destruct (sessions d !! s) as [sess|] eqn:Es; cbn -[put_op put_session]; [|by apply refines_refl].
  apply min_id_Some in Em as [Hi Hmin].
  apply list_elem_of_fmap in Hi as (o&->&Ho). apply elem_of_filterb in Ho as [Ho HP].
  apply elem_of_values in Ho as [i Ho]. destruct (wf_id _ Hwf _ _ Ho) as [-> Hser]. bool_prop.
  change (session_ops (put_session s (sess <| SessRow.current_epoch :=
    (SessRow.current_epoch sess + 1)%Z |>) d) !! i) with (session_ops d !! i).
  rewrite Ho. pose proof (wf_epoch _ Hwf _ _ Es) as Hep. cbn -[put_op put_session].
  apply refines_step.
  - apply wf_put_op; [|by destruct (wf_id _ Hwf _ _ Ho)|done]. apply wf_put_session; [done|].
    simpl. lia.
  - erewrite (abs_claim d s sess i _ by_ (op_row_to_domain o)); try done;
      [|by destruct (wf_id _ Hwf _ _ Ho)].
    eapply as_claim_head with (i := i) (now := now).
    + apply lookup_abs. exists o. split; [done|]. split; [|done]. subst s. by rewrite Es.
    + done.
    + cbn. subst s. rewrite lane_running_abs. intros [_ ?]. congruence.
    + intros j oj (o2&Ho2&_&<-)%lookup_abs Hs Hd. cbn in Hs.
      destruct (wf_id _ Hwf _ _ Ho2) as [<- _].
      destruct (wf_id _ Hwf _ _ Ho) as [<- _]. apply Hmin, list_elem_of_fmap_2, elem_of_filterb.
      rewrite elem_of_values. split; [by eexists|]. rewrite <- domain_due, Hd.
      rewrite bool_decide_eq_true_2; [done|]. congruence.
Qed.

(** A fenced write is one abstract step, or invisible. *)
Lemma refines_fenced_write op_id e f g st :
  wf (db st) → (∀ o, id (f o) = id o ∧ session_id (f o) = session_id o) →
  (∀ o, op_row_to_domain (f o) = g (op_row_to_domain o)) →
  (∀ o', fenced (abs (db st)) op_id e o' →
     rtc astep (abs (db st))
               ((abs (db st)) <| a_ops := <[op_id := g o']> (a_ops (abs (db st))) |>)) →
  refines (db st) (db (fenced_write op_id e f st).2).
Proof.
  intros Hwf Hf Hg Hstep. unfold fenced_write. gated st.
  set (d := db st) in *. unfold fenced_row.
  destruct (session_ops d !! op_id) as [o|] eqn:Eo; cbn -[put_op]; [|by apply refines_refl].
  destruct (_ && _) eqn:Eg; cbn -[put_op]; [|by apply refines_refl]. bool_prop.
  destruct (wf_id _ Hwf _ _ Eo) as [Hid Hser]. destruct (Hf o) as [Hfi Hfs].
  assert (Hwf' : wf (put_op op_id (f o) d)) by (apply wf_put_op; [done|congruence|done]).
  destruct (sessions d !! session_id o) as [sess|] eqn:Es.
  - split; [done|]. rewrite abs_put_op by (rewrite Hfs, Es; by eexists). rewrite Hg.
    apply Hstep. split; [|done]. apply lookup_abs. exists o. rewrite Es. split; [done|].
    split; [by eexists|done].
  - apply refines_same; [done|]. apply abs_put_dead; [by rewrite Hfs|]. intros. by simplify_eq.
Qed.

Lemma refines_record_step op_id e stp now st :
  wf (db st) → refines (db st) (db (op_record_step op_id e stp now st).2).
Proof.
  intros Hwf. apply (refines_fenced_write op_id e _
    (fun o => o <| SessionOp.step := Some stp |>)); try done.
  intros o' Hf. by eapply rtc_once, as_record_step.
Qed.

Lemma put_same l i o : a_ops l !! i = Some o → l <| a_ops := <[i := o]> (a_ops l) |> = l.
Proof. intros H. destruct l. simpl in *. by rewrite insert_id. Qed.

Lemma refines_heartbeat op_id e now st :
  wf (db st) → refines (db st) (db (op_heartbeat op_id e now st).2).
Proof.
  intros Hwf. apply (refines_fenced_write op_id e _ (fun o => o)); try done.
  intros o' (Hl&_&_). rewrite put_same by done. apply rtc_refl.
Qed.

Lemma refines_finish op_id e final err now st :
  wf (db st) → OpState.active final = false →
  refines (db st) (db (op_finish op_id e final err now st).2).
Proof.
  intros Hwf Hfin. apply (refines_fenced_write op_id e _
    (fun o => o <| SessionOp.state := final |> <| SessionOp.error := err |>
                <| SessionOp.finished_at := Some now |>)); try done.
  intros o' Hf. by eapply rtc_once, as_finish.
Qed.

Lemma refines_requeue op_id e backoff err now st :
  wf (db st) → refines (db st) (db (op_requeue_with_backoff op_id e backoff err now st).2).
Proof.
  intros Hwf. apply (refines_fenced_write op_id e _
    (fun o => o <| SessionOp.state := OpState.Queued |>
       <| SessionOp.not_before := Some (now + from_std_or_zero backoff)%Z |>
       <| SessionOp.error := Some err |> <| SessionOp.epoch := None |>
       <| SessionOp.claimed_by := None |>)); try done.
  intros o' Hf. by eapply rtc_once, as_requeue.
Qed.

(** The bulk writes. *)
Lemma abs_map d f g :
  (∀ o, session_id (f o) = session_id o) →
  (∀ o, op_row_to_domain (f o) = g (op_row_to_domain o)) →
  abs (d <| session_ops ::= fmap f |>) = (abs d) <| a_ops := g <$> a_ops (abs d) |>.
Proof.
  intros Hs Hg. apply abs_eq; [|done]. intros i o'. rewrite lookup_abs.
  change (a_ops (_ <| a_ops := _ |>)) with (g <$> a_ops (abs d)).
  pose proof (lookup_abs d i) as Hd. generalize dependent (a_ops (abs d)). intros m Hd.
  rewrite lookup_fmap_Some. change (session_ops (_ <| session_ops ::= _ |>))
    with (f <$> session_ops d). setoid_rewrite lookup_fmap_Some. split.
  - intros (o&(o0&<-&Ho)&Hl&<-). rewrite Hg. rewrite Hs in Hl.
    exists (op_row_to_domain o0). split; [done|]. apply Hd. eauto.
  - intros (o1&<-&(o0&Ho&Hl&<-)%Hd). exists (f o0). rewrite Hs, Hg. eauto 10.
Qed.

Lemma queued_of_domain s k o :
  OpLogSpec.queued_of s k (op_row_to_domain o) = queued_of s k o.
Proof. done. Qed.

Lemma refines_cancel_queued s k now st :
  wf (db st) → refines (db st) (db (op_cancel_queued s k now st).2).
Proof.
  intros Hwf. unfold op_cancel_queued. gated st.
  apply refines_step.
  - apply (wf_map (db st)); [done|]. intros o. by destruct (queued_of s k o).
  - cbn. erewrite (abs_map (db st) _ (fun o => if OpLogSpec.queued_of s k o
      then o <| SessionOp.state := OpState.Cancelled |>
             <| SessionOp.finished_at := Some now |> else o)).
    + apply as_cancel, OpLogSpec.queued_of_state.
    + intros o. by destruct (queued_of s k o).
    + intros o. rewrite queued_of_domain. by destruct (queued_of s k o).
Qed.

Lemma refines_wake s k now st :
  wf (db st) → refines (db st) (db (op_wake_queued_kind s k now st).2).
Proof.
  intros Hwf. unfold op_wake_queued_kind. gated st.
  assert (Hn : ∀ b st', db ((if b : bool then fun st0 : Store => (Ok tt, st0 <| notifications ::=
     fun l => l ++ [Notify "session_ops" (PSession s)] |>)
     else fun st0 => (Ok tt, st0)) st' : result unit MetaError * Store).2 = db st')
    by by intros [].
  set (st1 := st <| db := _ |>).
  assert (Hst : refines (db st) (db st1)).
  { apply refines_step.
    - apply (wf_map (db st)); [done|]. intros o. by destruct (queued_of s k o).
    - cbn. erewrite (abs_map (db st) _ (fun o => if OpLogSpec.queued_of s k o
        then o <| SessionOp.not_before := Some (match SessionOp.not_before o with
                    | None => now | Some nb => Z.min nb now end) |> else o)).
      + apply as_wake, OpLogSpec.queued_of_state.
      + intros o. by destruct (queued_of s k o).
      + intros o. rewrite queued_of_domain. by destruct (queued_of s k o). }
  destruct (bool_decide _); exact Hst.
Qed.

Lemma refines_cancel_by_id op_id now st :
  wf (db st) → refines (db st) (db (op_cancel_by_id op_id now st).2).
Proof.
  intros Hwf. unfold op_cancel_by_id. gated st.
  destruct (session_ops (db st) !! op_id) as [o|] eqn:Eo; [|by apply refines_refl].
  destruct (bool_decide _) eqn:Eq; [|by apply refines_refl]. cbn -[put_op]. bool_prop.
  destruct (wf_id _ Hwf _ _ Eo) as [Hid Hser].
  match goal with |- refines _ (put_op _ ?r _) => set (row := r) end.
  assert (Hwf' : wf (put_op op_id row (db st))) by by apply wf_put_op.
  destruct (sessions (db st) !! session_id o) as [sess|] eqn:Es.
  - apply refines_step; [done|]. rewrite abs_put_op by (cbn; rewrite Es; by eexists).
    apply (as_cancel_one (abs (db st)) op_id (op_row_to_domain o) now); [| |done].
    + intros j oj (o2&Ho2&_&<-)%lookup_abs. by destruct (wf_id _ Hwf _ _ Ho2).
    + apply lookup_abs. exists o. rewrite Es. eauto.
  - apply refines_same; [done|]. apply abs_put_dead; [done|]. intros. by simplify_eq.
Qed.

(** The loops: every iteration is a step of the specification. *)
Lemma refines_trans d1 d2 d3 : refines d1 d2 → refines d2 d3 → refines d1 d3.
Proof. intros [_ H1] [? H2]. split; [done|]. by etrans. Qed.

Lemma cancel_loop_refines P l any d :
  wf d → (∀ o, P o = true → state o = OpState.Running) →
  NoDup l.*1 → (∀ i o, (i, o) ∈ l → session_ops d !! i = Some o) →
  refines d (cancel_loop P l any d).2.
Proof.
  intros Hwf HP. revert any d Hwf. induction l as [|[i o] l IH]; intros any d Hwf Hnd Hl;
    simpl; [by apply refines_refl|]. apply NoDup_cons in Hnd as [Hni Hnd].
  assert (Ho : session_ops d !! i = Some o) by (apply Hl; set_solver).
  destruct (P o) eqn:EP; [|apply IH; [done..|]; intros; apply Hl; set_solver].
  destruct (json_index_set _ _ _) as [p|]; [|by apply refines_refl].
  destruct (wf_id _ Hwf _ _ Ho) as [Hid Hser].
  set (row := o <| payload := p |>).
  assert (Hwf' : wf (put_op i row d)) by by apply wf_put_op.
  eapply refines_trans; [|apply IH; [done..|]].
  - destruct (sessions d !! session_id o) as [sess|] eqn:Es.
    + apply refines_step; [done|]. rewrite abs_put_op by (cbn; rewrite Es; by eexists).
      apply (as_payload (abs d) i (op_row_to_domain o) p); [|by apply HP].
      apply lookup_abs. exists o. rewrite Es. eauto.
    + apply refines_same; [done|]. apply abs_put_dead; [done|]. intros. by simplify_eq.
  - intros j oj Hj. cbn. rewrite lookup_insert_ne; [apply Hl; set_solver|].
    intros ->. apply Hni. by apply (list_elem_of_fmap_2 fst) in Hj.
Qed.

Lemma refines_request_cancel s k st :
  wf (db st) → refines (db st) (db (op_request_cancel_running s k st).2).
Proof.
  intros Hwf. unfold op_request_cancel_running. gated st.
  match goal with |- context [cancel_loop ?P ?l ?a ?d] =>
    pose proof (cancel_loop_refines P l a d Hwf) as H end.
  destruct (cancel_loop _ _ _ _) as [r d']. apply H.
  - intros o ?. by bool_prop.
  - rewrite btree_perm. apply NoDup_fst_map_to_list.
  - intros i o. apply elem_of_btree.
Qed.

Lemma reclaim_row_domain o e by_ now :
  state o = OpState.Running →
  op_row_to_domain (o <| epoch := Some e |> <| claimed_by := Some by_ |>
    <| claimed_at := Some now |> <| heartbeat_at := Some now |> <| attempts ::= Z.succ |>) =
  claim_stamp e by_ (op_row_to_domain o).
Proof. destruct o. simpl. by intros ->. Qed.

Lemma reclaim_loop_refines by_ now ids out d :
  wf d → (∀ i, i ∈ ids → ∃ o, session_ops d !! i = Some o ∧ state o = OpState.Running) →
  refines d (fold_left (reclaim_one by_ now) ids (out, d)).2.
Proof.
  revert out d. induction ids as [|i ids IH]; intros out d Hwf Hids; cbn [fold_left];
    [by apply refines_refl|].
  destruct (Hids i) as (o&Ho&Hr); [set_solver|]. unfold reclaim_one at 2. rewrite Ho.
  destruct (sessions d !! session_id o) as [sess|] eqn:Es; [|apply IH; [done|set_solver]].
  destruct (wf_id _ Hwf _ _ Ho) as [Hid Hser]. pose proof (wf_epoch _ Hwf _ _ Es) as Hep.
  cbv zeta. eapply refines_trans; [|apply IH].
  - apply refines_step.
    + apply wf_put_op; [|done..]. apply wf_put_session; [done|]. cbn. lia.
    + erewrite (abs_claim d (session_id o) sess i _ by_ (op_row_to_domain o)); try done.
      * eapply as_reclaim with (i := i); [|done]. apply lookup_abs. exists o.
        rewrite Es. eauto.
      * by apply reclaim_row_domain.
  - apply wf_put_op; [|done..]. apply wf_put_session; [done|]. cbn. lia.
  - intros j Hj. cbn. rewrite lookup_insert. case_decide; subst; [by eexists|].
    apply Hids. set_solver.
Qed.

Lemma refines_reclaim stale by_ now st :
  wf (db st) → refines (db st) (db (op_reclaim_stale stale by_ now st).2).
Proof.
  intros Hwf. unfold op_reclaim_stale. gated st.
  match goal with |- context [fold_left ?f ?ids ([], db st)] =>
    pose proof (reclaim_loop_refines by_ now ids [] (db st) Hwf) as H end.
  destruct (fold_left _ _ _) as [out d']. apply H.
  intros i (o&->&Ho)%list_elem_of_fmap. apply elem_of_filterb in Ho as [Ho HP].
  apply elem_of_values in Ho as [i Ho]. destruct (wf_id _ Hwf _ _ Ho) as [-> _].
  bool_prop. eauto.
Qed.

End MetaOps.
