(* ===== verification/MetaSession.v ===== *)
(** * Session transactions of the metadata store

    The session methods of [SimMetadataStore]: creation and placement, status
    transitions (plain and epoch-fenced), bindings of hosts and sandboxes,
    strikes, the queue, and the event log a session keeps.  The suggested title
    and the rewind to a cursor are not here. *)

From S2P Require Import Prelude Session Teleport OpLogSpec MetaTypes Placement.
From Stdlib Require Import QArith.

Module MetaSession.
Import SessRow.

(** The row both create paths insert. *)
Definition new_row (id : SessionId) (st : SessionState) (h : option HostId) (sp : SessionSpec)
    (mem cpu : Z) (qo : option QueueOrigin.t) (qa : option DateTime) (now : DateTime) : SessRow.t :=
  SessRow.Mk
    (Session.Mk id st h None (spec_image sp) (spec_mode sp) now now None 0 None None)
    mem cpu qo qa 0 0 0 0 0 0 None None 0 now.

(** [self.entropy.uuid()] is the argument [id]. *)
Definition create_session (id : SessionId) (sp : SessionSpec) (now : DateTime) : M SessionId :=
  gate;;
  modify_db (put_session id (new_row id Pending None sp 0 0 None None now));;
  mret id.

Definition transition_session_created (id : SessionId) (sandbox : SandboxId) (now : DateTime) :
    M Z :=
  gate;;
  d ← get_db;
  row ← ok_or (sessions d !! id) NotFound;
  if negb (bool_decide (status row = Pending)) then throw NotFound
  else
    let row := row <| session ::= fun s => s <| Session.status := Created |>
                        <| Session.sandbox_id := Some sandbox |>
                        <| Session.last_active_at := now |> |>
                   <| binding_epoch ::= Z.succ |> in
    put_db (log_transition (TransitionLogEntry.Mk id Pending Created false)
              (put_session id row d));;
    mret (binding_epoch row).

Definition get_session (id : SessionId) : M Session.t :=
  gate;; d ← get_db; row ← ok_or (sessions d !! id) NotFound; mret (session row).

Definition list_active_sessions : M (list Session.t) :=
  gate;;
  d ← get_db;
  mret (session <$> List.filter (fun r => reserves_host_memory (status r)
                                         || bool_decide (status r = Idle)) (values (sessions d))).

Definition session_binding_generations (id : SessionId) : M (Z * Z) :=
  gate;;
  d ← get_db;
  row ← ok_or (sessions d !! id) NotFound;
  mret (binding_epoch row, attached_binding_epoch row).

Definition reserve_and_persist_create (ws : SessionCreateWriteSet.t) (candidates : list HostId)
    (affinity_len : nat) (now : DateTime) : M CreateDisposition.t :=
  gate;;
  d ← get_db;
  env ← get_env;
  let revoked :=
    match SessionCreateWriteSet.oauth_binding ws with
    | Some b => match oauth_credentials d !! bound_key b with
                | Some c => bool_decide (is_Some (revoked_at c))
                | None => true
                end
    | None => false
    end in
  if revoked then throw (Conflict "session OAuth binding requires a live credential")
  else
    let sid := SessionCreateWriteSet.session_id ws in
    let mem := SessionCreateWriteSet.mem_budget_mib ws in
    let cpu := SessionCreateWriteSet.cpu_budget_vcpus ws in
    let picked := pick_host_2d env d mem cpu candidates affinity_len in
    let row :=
      match picked with
      | Some h => new_row sid Pending (Some h) (SessionCreateWriteSet.spec ws) mem cpu None None now
      | None => new_row sid Queued None (SessionCreateWriteSet.spec ws) mem cpu
                  (Some QueueOrigin.Create) (Some now) now
      end in
    modify_db (put_session sid row);;
    modify_db (fun d => d <| runtime_specs ::= insert sid (SessionCreateWriteSet.runtime_spec ws) |>);;
    (match SessionCreateWriteSet.sealed_secrets ws with
     | Some x => modify_db (fun d => d <| session_secrets ::= insert sid x |>)
     | None => mret tt end);;
    (match SessionCreateWriteSet.capabilities ws with
     | [] => mret tt
     | caps => modify_db (fun d => d <| session_capabilities ::= insert sid caps |>) end);;
    (match SessionCreateWriteSet.integration_policy_json ws with
     | Some x => modify_db (fun d => d <| session_integration_policy ::= insert sid x |>)
     | None => mret tt end);;
    (match SessionCreateWriteSet.oauth_binding ws with
     | Some x => modify_db (fun d => d <| session_oauth_bindings ::= insert sid x |>)
     | None => mret tt end);;
    match picked with
    | Some h => mret (CreateDisposition.Placed h)
    | None => notify_text "placement_changed" "enqueued";; mret CreateDisposition.Queued
    end.

Definition delete_pending_session (id : SessionId) : M unit :=
  gate;;
  d ← get_db;
  let remove := match sessions d !! id with
                | Some r => bool_decide (status r = Pending) && bool_decide (sandbox_id r = None)
                | None => false
                end in
  when remove (put_db (d <| sessions ::= delete id |>)).

(** The row writes shared by the three transition methods. *)
Definition transition_row (target : SessionState) (disp : BindingDisposition) (now : DateTime)
    (row : SessRow.t) : SessRow.t :=
  let row := row <| session ::= fun s => s <| Session.status := target |> |> in
  let row := if bool_decide (disp = Detach)
             then row <| session ::= fun s => s <| Session.sandbox_id := None |> |> else row in
  let row := row <| session ::= fun s => s <| Session.last_active_at := now |> |>
                 <| updated_at := now |> in
  let row := if bool_decide (target = Evicting) then row <| evict_attempts := 0%Z |> else row in
  if bool_decide (target = Queued) then
    row <| queued_at := Some now |>
        <| queue_origin ::= fun o => Some (default QueueOrigin.Create o) |>
  else row.

(** The legality checks, in the order of the code. *)
Definition check_transition (row : SessRow.t) (target : SessionState)
    (disp : BindingDisposition) : M unit :=
  match try_transition_to (status row) target with
  | Err _ => throw (Conflict "illegal session transition: {from:?} -> {to:?}")
  | Ok _ =>
      if binding_disposition_legal target (bool_decide (is_Some (sandbox_id row))) disp
      then mret tt
      else throw (Conflict "illegal binding disposition {disposition:?} into {} on a bound row")
  end.

Definition notify_freed (current target : SessionState) : M unit :=
  when (reserves current && negb (reserves target))
       (notify_text "placement_changed" "session_freed").

Definition transition_session (id : SessionId) (target : SessionState)
    (disp : BindingDisposition) (now : DateTime) : M SessionState :=
  gate;;
  d ← get_db;
  row ← ok_or (sessions d !! id) NotFound;
  let current := status row in
  check_transition row target disp;;
  put_db (log_transition (TransitionLogEntry.Mk id current target false)
            (put_session id (transition_row target disp now row) d));;
  notify_freed current target;;
  mret current.

Definition terminate_session (id : SessionId) (now : DateTime) :
    M (option (SessionState * SessionState)) :=
  s ← get_session id;
  match terminal_target (Session.status s) with
  | None => mret None
  | Some target =>
      prev ← transition_session id target Detach now;
      mret (Some (prev, target))
  end.

Definition assign_session_host (id : SessionId) (h : option HostId) (now : DateTime) : M unit :=
  gate;;
  d ← get_db;
  row ← ok_or (sessions d !! id) NotFound;
  put_db (put_session id (row <| session ::= fun s => s <| Session.host_id := h |> |>
                              <| updated_at := now |>) d).

Definition enqueue_session_resume (id : SessionId) (e : Z) (now : DateTime) : M bool :=
  gate;;
  d ← get_db;
  match sessions d !! id with
  | None => mret false
  | Some row =>
      if negb (bool_decide (status row = Idle)) || negb (bool_decide (current_epoch row = e))
      then mret false
      else
        let row := row <| session ::= fun s => s <| Session.status := Queued |>
                            <| Session.last_active_at := now |> |>
                       <| queue_origin := Some QueueOrigin.Resume |>
                       <| queued_at := Some now |> in
        put_db (log_transition (TransitionLogEntry.Mk id Idle Queued false)
                  (put_session id row d));;
        notify_text "placement_changed" "enqueued";;
        mret true
  end.

(** [QueuedSession]. *)
Record QueuedSession := MkQueued {
  q_session : Session.t;
  q_origin : QueueOrigin.t;
  q_mem_budget_mib : Z;
  q_cpu_budget_vcpus : Z;
  q_queued_at : DateTime;
}.

(** [sort_by_key(|r| (r.queued_at, r.session.id))]: [None] sorts first. *)
Definition fifo_le (a b : SessRow.t) : Prop :=
  match queued_at a, queued_at b with
  | None, Some _ => True
  | Some _, None => False
  | None, None => (Session.id (session a) ≤ Session.id (session b))%N
  | Some x, Some y =>
      (x < y)%Z ∨ (x = y ∧ (Session.id (session a) ≤ Session.id (session b))%N)
  end.

#[global] Instance fifo_le_dec : RelDecision fifo_le.
Proof.
  intros a b. unfold fifo_le. destruct (queued_at a), (queued_at b); apply _.
Defined.

Definition list_queued_sessions_fifo : M (list QueuedSession) :=
  gate;;
  d ← get_db;
  mret ((fun r => MkQueued (session r) (default QueueOrigin.Create (queue_origin r))
                    (mem_budget_mib r) (cpu_budget_vcpus r)
                    (default (Session.created_at (session r)) (queued_at r))) <$>
        merge_sort fifo_le
          (List.filter (fun r => bool_decide (status r = Queued)) (values (sessions d)))).

Definition place_queued_session (id : SessionId) (mem cpu : Z) (candidates : list HostId)
    (affinity_len : nat) (now : DateTime) : M (option HostId) :=
  gate;;
  match candidates with
  | [] => mret None
  | _ =>
      d ← get_db;
      env ← get_env;
      match sessions d !! id with
      | None => mret None
      | Some row =>
          match pick_host_2d env d mem cpu candidates affinity_len with
          | None => mret None
          | Some host =>
              if negb (bool_decide (status row = Queued)) then mret None
              else
                let row := row <| session ::= fun s => s <| Session.status := Pending |>
                                    <| Session.host_id := Some host |>
                                    <| Session.last_active_at := now |> |> in
                put_db (log_transition (TransitionLogEntry.Mk id Queued Pending false)
                          (put_session id row d));;
                mret (Some host)
          end
      end
  end.

(** ** Strikes, pins and park rungs *)

(** One iteration of the [missing] loop. *)
Definition strike (grace_ticks : Z) (acc : list SessionId * SimDb) (id : SessionId) :
    list SessionId * SimDb :=
  let '(crossed, d) := acc in
  match sessions d !! id with
  | None => (crossed, d)
  | Some r =>
      let n := (missing_strikes r + 1)%Z in
      if bool_decide (grace_ticks ≤ n)%Z
      then (crossed ++ [id], put_session id (r <| missing_strikes := 0%Z |>) d)
      else (crossed, put_session id (r <| missing_strikes := n |>) d)
  end.

Definition clear_strikes (d : SimDb) (id : SessionId) : SimDb :=
  match sessions d !! id with
  | None => d
  | Some r => put_session id (r <| missing_strikes := 0%Z |>) d
  end.

Definition apply_missing_sandbox_strikes (present missing : list SessionId) (grace_ticks : Z) :
    M (list SessionId) :=
  gate;;
  match present, missing with
  | [], [] => mret []
  | _, _ =>
      d ← get_db;
      let '(crossed, d) := fold_left (strike grace_ticks) missing
                             ([], fold_left clear_strikes present d) in
      put_db d;; mret crossed
  end.

Definition stamp_shell_pin (id : SessionId) (until : DateTime) : M unit :=
  gate;;
  d ← get_db;
  match sessions d !! id with
  | None => mret tt
  | Some r => put_db (put_session id (r <| shell_pinned_until := Some until |>) d)
  end.

Definition park_row (rung : Z) (parked : option DateTime) (r : SessRow.t) : SessRow.t :=
  r <| session ::= fun s => s <| Session.park_rung := rung |> <| Session.parked_at := parked |> |>.

Definition set_session_park_rung (id : SessionId) (rung : Z) (parked : option DateTime) : M unit :=
  gate;;
  d ← get_db;
  match sessions d !! id with
  | None => mret tt
  | Some r => put_db (put_session id (park_row rung parked r) d)
  end.

Definition fenced_set_session_park_rung (id : SessionId) (e rung : Z)
    (parked : option DateTime) : M bool :=
  gate;;
  d ← get_db;
  match sessions d !! id with
  | None => mret false
  | Some r =>
      if negb (bool_decide (current_epoch r = e)) then mret false
      else put_db (put_session id (park_row rung parked r) d);; mret true
  end.

(** ** Fenced transitions and bindings *)

Definition fenced_transition_session (id : SessionId) (e : Z) (to : SessionState)
    (disp : BindingDisposition) (now : DateTime) : M (option SessionState) :=
  gate;;
  d ← get_db;
  row ← ok_or (sessions d !! id) NotFound;
  if negb (bool_decide (current_epoch row = e)) then mret None
  else
    let current := status row in
    check_transition row to disp;;
    put_db (log_transition (TransitionLogEntry.Mk id current to false)
              (put_session id (transition_row to disp now row) d));;
    notify_freed current to;;
    mret (Some current).

(** One iteration of the event loop: the next index, then the push. *)
Definition append_event (id : SessionId) (now : DateTime) (acc : list Z * SimDb)
    (ev : string * json) : list Z * SimDb :=
  let '(indices, d) := acc in
  match sessions d !! id with
  | None => (indices, d)
  | Some row =>
      let idx := next_event_idx row in
      let row' := row <| next_event_idx ::= Z.succ |>
                      <| session ::= fun s => s <| Session.last_event_at := Some now |> |> in
      (indices ++ [idx],
       push_event id (PersistedEvent.Mk idx ev.1 ev.2 now (recovery_epoch row) None)
         (put_session id row' d))
  end.

Definition fenced_transition_session_with_events (id : SessionId) (e : Z) (to : SessionState)
    (disp : BindingDisposition) (events : list (string * json)) (now : DateTime) :
    M (option (SessionState * list Z)) :=
  gate;;
  d ← get_db;
  row ← ok_or (sessions d !! id) NotFound;
  if negb (bool_decide (current_epoch row = e)) then mret None
  else
    let current := status row in
    check_transition row to disp;;
    let '(indices, d) := fold_left (append_event id now) events
                           ([], put_session id (transition_row to disp now row) d) in
    put_db (log_transition (TransitionLogEntry.Mk id current to false) d);;
    for_each indices (fun idx => notify "session_events" (PEvent id idx));;
    notify_freed current to;;
    mret (Some (current, indices)).

(** [sandbox_id.map(|_| { binding_epoch += 1; binding_epoch })]. *)
Definition mint (sandbox : option SandboxId) (row : SessRow.t) : option Z * SessRow.t :=
  match sandbox with
  | Some _ => let row := row <| binding_epoch ::= Z.succ |> in (Some (binding_epoch row), row)
  | None => (None, row)
  end.

Definition fenced_assign_sandbox (id : SessionId) (e : Z) (sandbox : option SandboxId)
    (host : option HostId) (now : DateTime) : M (option Z) :=
  gate;;
  d ← get_db;
  match sessions d !! id with
  | None => throw (Conflict "stale session fence")
  | Some r =>
      if negb (bool_decide (current_epoch r = e)) then throw (Conflict "stale session fence")
      else
        let r := r <| session ::= fun s => s <| Session.sandbox_id := sandbox |>
                        <| Session.host_id := host |> <| Session.last_active_at := now |> |>
                   <| missing_strikes := 0%Z |> <| updated_at := now |> in
        let '(minted, r) := mint sandbox r in
        put_db (put_session id r d);; mret minted
  end.

Definition assign_session_sandbox_guarded (id : SessionId) (sandbox : option SandboxId)
    (expected_current : option (option SandboxId)) (allowed_states : list SessionState)
    (now : DateTime) : M (option Z) :=
  gate;;
  d ← get_db;
  row ← ok_or (sessions d !! id) NotFound;
  let cas_ok := match expected_current with
                | Some expected => bool_decide (sandbox_id row = expected)
                | None => true end in
  if negb cas_ok then
    throw (Conflict "assign_session_sandbox_guarded CAS: sandbox_id is {:?}, expected {:?}")
  else if negb (bool_decide (allowed_states = [])) && negb (bool_decide (status row ∈ allowed_states))
  then throw (Conflict "assign_session_sandbox_guarded CAS: status is {}, not in {:?}")
  else
    let row := row <| session ::= fun s => s <| Session.sandbox_id := sandbox |> |>
                   <| missing_strikes := 0%Z |> <| updated_at := now |> in
    let '(minted, row) := mint sandbox row in
    put_db (put_session id row d);; mret minted.

(** [allowed_states.is_empty() || allowed_states.contains(&status)]. *)
Definition state_allowed (allowed_states : list SessionState) (r : SessRow.t) : bool :=
  bool_decide (allowed_states = []) || bool_decide (status r ∈ allowed_states).

(** [None] expects nothing of the binding. *)
Definition sandbox_expected (expected_current : option (option SandboxId)) (r : SessRow.t) : bool :=
  match expected_current with
  | Some expected => bool_decide (sandbox_id r = expected)
  | None => true
  end.

Definition assign_session_host_guarded (id : SessionId) (host : option HostId)
    (expected_current : option (option SandboxId)) (allowed_states : list SessionState)
    (now : DateTime) : M unit :=
  gate;;
  d ← get_db;
  r ← ok_or (sessions d !! id) NotFound;
  if negb (state_allowed allowed_states r) || negb (sandbox_expected expected_current r)
  then throw (Conflict "guarded session write rejected for {id}: state/sandbox precondition not met")
  else put_db (put_session id (r <| session ::= fun s => s <| Session.host_id := host |> |>
                                 <| updated_at := now |>) d).

Definition rebind_session_guarded (id : SessionId) (host : HostId) (sandbox : SandboxId)
    (expected_current : option (option SandboxId)) (allowed_states : list SessionState)
    (now : DateTime) : M Z :=
  gate;;
  d ← get_db;
  r ← ok_or (sessions d !! id) NotFound;
  if negb (sandbox_expected expected_current r)
  then throw (Conflict "rebind_session_guarded CAS: sandbox_id is {:?}, expected {:?}")
  else if negb (state_allowed allowed_states r)
  then throw (Conflict "rebind_session_guarded CAS: status is {}, not in {:?}")
  else
    let tombstone := match host_id r, sandbox_id r with
                     | Some old_host, Some old_sandbox =>
                         if negb (bool_decide (old_sandbox = sandbox))
                         then entomb old_host old_sandbox (Some id) now else fun d => d
                     | _, _ => fun d => d
                     end in
    let r := r <| session ::= fun s => s <| Session.host_id := Some host |>
                    <| Session.sandbox_id := Some sandbox |> |>
               <| missing_strikes := 0%Z |> <| updated_at := now |> <| binding_epoch ::= Z.succ |> in
    put_db (tombstone (put_session id r d));; mret (binding_epoch r).

Definition touch_session_activity (id : SessionId) (now : DateTime) : M unit :=
  gate;;
  d ← get_db;
  match sessions d !! id with
  | Some r => put_db (put_session id (r <| session ::= fun s => s <| Session.last_active_at := now |> |>) d)
  | None => mret tt
  end.

(** [evict_attempts.max(0) as u32]. *)
Definition bump_evict_attempts (id : SessionId) : M Z :=
  gate;;
  d ← get_db;
  r ← ok_or (sessions d !! id) NotFound;
  let r := r <| evict_attempts ::= Z.succ |> in
  put_db (put_session id r d);; mret (Z.max 0 (evict_attempts r)).

(** The lookup of the snapshot row, [recoverable] and of this session, is the
    argument [row_recoverable]. *)
Definition settle_evicted_session_idle (id : SessionId) (sandbox : SandboxId) (row_recoverable : bool)
    (events : list (string * json)) (now : DateTime) : M (option (list Z)) :=
  gate;;
  d ← get_db;
  if negb row_recoverable then mret None
  else
    match sessions d !! id with
    | None => mret None
    | Some r =>
        if negb (bool_decide (status r = Evicting)) || negb (bool_decide (sandbox_id r = Some sandbox))
        then mret None
        else
          let r' := r <| session ::= fun s => s <| Session.status := Idle |> <| Session.sandbox_id := None |> |> in
          let d := put_session id r' d in
          let d := match host_id r with Some h => entomb h sandbox (Some id) now d | None => d end in
          let '(indices, d) := fold_left (append_event id now) events ([], d) in
          put_db d;;
          for_each indices (fun idx => notify "session_events" (PEvent id idx));;
          notify_text "placement_changed" "session_freed";;
          mret (Some indices)
    end.

(** ** Events *)

Definition append_session_event (id : SessionId) (kind : string) (payload : json) (now : DateTime) : M Z :=
  gate;;
  d ← get_db;
  row ← ok_or (sessions d !! id) NotFound;
  let idx := next_event_idx row in
  let row := row <| next_event_idx ::= Z.succ |> <| updated_at := now |>
                 <| session ::= fun s => s <| Session.last_event_at := Some now |> |> in
  put_db (push_event id (PersistedEvent.Mk idx kind payload now (recovery_epoch row) None)
            (put_session id row d));;
  notify "session_events" (PEvent id idx);;
  mret idx.

Definition append_session_event_fenced (id : SessionId) (e : Z) (kind : string) (payload : json)
    (now : DateTime) : M (option Z) :=
  gate;;
  d ← get_db;
  match sessions d !! id with
  | None => mret None
  | Some r =>
      if negb (bool_decide (current_epoch r = e)) then mret None
      else idx ← append_session_event id kind payload now; mret (Some idx)
  end.

Definition append_session_event_idempotent (id : SessionId) (key kind : string) (payload : json)
    (now : DateTime) : M (option Z) :=
  gate;;
  idx ← append_event_idempotent_locked id key kind payload now;
  match idx with Some idx => notify "session_events" (PEvent id idx) | None => mret tt end;;
  mret idx.

(** [payload.get("run_id")?.as_str()?]. *)
Definition run_id_of (e : PersistedEvent.t) : option string :=
  json_get "run_id" (PersistedEvent.payload e) ≫= json_as_str.

(** A later event that ends the run. *)
Definition ends_run (started : PersistedEvent.t) (run : string) (e : PersistedEvent.t) : bool :=
  bool_decide (PersistedEvent.idx started < PersistedEvent.idx e)%Z
  && (bool_decide (PersistedEvent.kind e = "run_completed"%string)
      || bool_decide (PersistedEvent.kind e = "run_interrupted"%string))
  && bool_decide (run_id_of e = Some run).

(** The runs that started, were not continued and have no end; a [BTreeSet]. *)
Definition open_runs (continued : list string) (events : list PersistedEvent.t) : list string :=
  let open_run started :=
    match run_id_of started with
    | Some run => if bool_decide (run ∈ continued) || existsb (ends_run started run) events then None else Some run
    | None => None
    end in
  dedup (merge_sort (fun a b => Is_true (String.leb a b))
    (omap open_run (List.filter (fun e => bool_decide (PersistedEvent.kind e = "run_started"%string)) events))).

(** The loop over the runs: those that got an event, with its index. *)
Fixpoint interrupt_runs (id : SessionId) (runs : list string) (now : DateTime) : M (list (string * Z)) :=
  match runs with
  | [] => mret []
  | run :: runs =>
      idx ← append_event_idempotent_locked id ("run_interrupted:" +:+ run) "run_interrupted"
              (JObj [("type", JStr "harness_run_interrupted"); ("run_id", JStr run);
                     ("cause", JStr "harness_replaced"); ("at", JTime now)]%string) now;
      rest ← interrupt_runs id runs now;
      mret (match idx with Some idx => (run, idx) :: rest | None => rest end)
  end.

Definition settle_harness_generation (id : SessionId) (epoch : Z) (continued : list string) (now : DateTime) :
    M (option (list (string * Z))) :=
  gate;;
  epoch ← ok_or (i64_try_from epoch) (Serialization "out of range integral type conversion attempted");
  d ← get_db;
  match sessions d !! id with
  | None => mret None
  | Some row =>
      if bool_decide (epoch ≤ attached_binding_epoch row)%Z then mret None
      else
        put_db (put_session id (row <| attached_binding_epoch := epoch |>) d);;
        settled ← interrupt_runs id (open_runs continued (default [] (session_events d !! id))) now;
        for_each settled (fun ri => notify "session_events" (PEvent id ri.2));;
        mret (Some settled)
  end.

End MetaSession.
