(* ===== verification/MetaTeleport.v ===== *)
(** * Teleport transactions of the metadata store

    The durable move of a running session between two hosts: admission picks a
    destination and reserves it, the driver advances the phases under the
    session's epoch, the commit swaps the binding, and the row settles as done,
    aborted or failed. *)

From S2P Require Import Prelude Session Teleport OpLogSpec MetaTypes Placement.
From Stdlib Require Import QArith.

Module MetaTeleport.
Import TeleportRow.

(** [append_teleport_finished]; [expect("teleport session")] is the [None] of
    the lookup, which no reachable state takes. *)
Definition append_teleport_finished (id : TeleportId) (now : DateTime) (d : SimDb) :
    option (SessionId * Z) * SimDb :=
  match teleports d !! id with
  | None => (None, d)
  | Some r =>
      if negb (TeleportPhase.is_terminal (phase r)) then (None, d)
      else
        let sid := session_id r in
        let payload := JObj
          [("type", JStr "teleport_finished"); ("teleport_id", JStr (uuid_str (TeleportRow.id r)));
           ("outcome", JStr (TeleportPhase.as_str (phase r)));
           ("kind", JStr (match kind r with Snapshot => "snapshot" | Live => "live" end));
           ("dest_host_id", JStr (uuid_str (dest_host_id r)));
           ("error", match error r with Some e => JStr e | None => JNull end);
           ("at", JTime now);
           ("idempotency_key",
             JStr ("teleport:" +:+ uuid_str (TeleportRow.id r) +:+ ":finished"))]%string in
        match sessions d !! sid with
        | None => (None, d)
        | Some s =>
            let idx := SessRow.next_event_idx s in
            let s' := s <| SessRow.next_event_idx ::= Z.succ |> <| SessRow.updated_at := now |>
                        <| SessRow.session ::= fun x => x <| Session.last_event_at := Some now |> |> in
            (Some (sid, idx),
             push_event sid (PersistedEvent.Mk idx "teleport_finished" payload now
                               (SessRow.recovery_epoch s) None) (put_session sid s' d))
        end
  end.

(** Append the event, store the database, notify. *)
Definition finish_event (id : TeleportId) (now : DateTime) (d : SimDb) : M unit :=
  let '(ev, d) := append_teleport_finished id now d in
  put_db d;;
  match ev with
  | Some (sid, idx) => notify "session_events" (PEvent sid idx)
  | None => mret tt
  end.

(** [db.teleports.values().filter(|r| r.dest_host_id == h && open).count()]. *)
Definition open_to (h : HostId) (d : SimDb) : nat :=
  length (List.filter (fun r => bool_decide (dest_host_id r = h) && is_open r)
            (values (teleports d))).

Definition teleport_admit (req : TeleportAdmitRequest.t) (now : DateTime) :
    M TeleportAdmitOutcome :=
  gate;;
  d ← get_db;
  env ← get_env;
  let sid := TeleportAdmitRequest.session_id req in
  match (s ← sessions d !! sid;
         if bool_decide (SessRow.current_epoch s = TeleportAdmitRequest.epoch req)
         then Some s else None) with
  | None => mret Fenced
  | Some s =>
      if existsb (fun r => bool_decide (session_id r = sid) && is_open r) (values (teleports d))
      then throw (Conflict "session already has an open teleport")
      else if negb (bool_decide (SessRow.status s = Active)) then
        mret (SessionNotActive (SessRow.status s))
      else
        match SessRow.host_id s, SessRow.sandbox_id s with
        | Some source, Some sandbox =>
            let candidates :=
              List.filter (fun h => negb (bool_decide (h = source))
                  && bool_decide (open_to h d < N.to_nat (TeleportAdmitRequest.max_open_per_dest req))%nat)
                (match TeleportAdmitRequest.pinned_dest req with
                 | Some h => [h] | None => TeleportAdmitRequest.candidates req end) in
            match pick_host_2d env d (TeleportAdmitRequest.mem_budget_mib req)
                    (TeleportAdmitRequest.cpu_budget_vcpus req) candidates 0 with
            | None => mret NoFit
            | Some dest =>
                if bool_decide (is_Some (teleports d !! TeleportAdmitRequest.id req))
                then throw (Conflict "teleport already exists")
                else
                  cpu ← ok_or (i32_try_from (TeleportAdmitRequest.cpu_budget_vcpus req))
                              (Serialization "out of range integral type conversion attempted");
                  let row := TeleportRow.Mk (TeleportAdmitRequest.id req) sid
                    (TeleportAdmitRequest.kind req) (TeleportAdmitRequest.reason req)
                    TeleportPhase.Admitted_ source sandbox dest None
                    (bool_decide (is_Some (TeleportAdmitRequest.pinned_dest req)))
                    (TeleportAdmitRequest.mem_budget_mib req) cpu None None None 0 None
                    now now None in
                  let idx := SessRow.next_event_idx s in
                  let s' := s <| SessRow.session ::= fun x => x <| Session.status := Evacuating |>
                                   <| Session.last_active_at := now |>
                                   <| Session.last_event_at := Some now |> |>
                              <| SessRow.updated_at := now |>
                              <| SessRow.next_event_idx ::= Z.succ |> in
                  let payload := JObj
                    [("type", JStr "status_changed"); ("from", JStr "active");
                     ("to", JStr "evacuating"); ("at", JTime now);
                     ("idempotency_key",
                       JStr ("teleport:" +:+ uuid_str (TeleportAdmitRequest.id req)
                             +:+ ":admitted"))]%string in
                  let d := put_session sid s' d in
                  let d := push_event sid (PersistedEvent.Mk idx "status_changed" payload now
                                             (SessRow.recovery_epoch s) None) d in
                  let d := log_transition (TransitionLogEntry.Mk sid Active Evacuating false) d in
                  put_db (put_teleport (TeleportAdmitRequest.id req) row d);;
                  notify "session_events" (PEvent sid idx);;
                  mret (Admitted_ row)
            end
        | _, _ => throw (Conflict "active session has no source binding")
        end
  end.

(** [db.sessions.get(&sid).is_none_or(|s| s.current_epoch != epoch)]. *)
Definition epoch_stale (sid : SessionId) (e : Z) (d : SimDb) : bool :=
  match sessions d !! sid with
  | Some s => negb (bool_decide (SessRow.current_epoch s = e))
  | None => true
  end.

(** [patch.x.or(row.x)]. *)
Definition or_else {A} (a b : option A) : option A := match a with Some _ => a | None => b end.

Definition teleport_advance (tid : TeleportId) (from to : TeleportPhase.t)
    (patch : TeleportPatch.t) (e : Z) (now : DateTime) : M bool :=
  gate;;
  if negb (TeleportPhase.can_transition_to from to) then
    throw (Conflict "illegal teleport phase: {from:?} -> {to:?}")
  else
    d ← get_db;
    match teleports d !! tid with
    | None => mret false
    | Some r =>
        if negb (bool_decide (phase r = from)) || epoch_stale (session_id r) e d then mret false
        else
          let r' := r <| phase := to |>
            <| dest_sandbox_id ::= or_else (TeleportPatch.dest_sandbox_id patch) |>
            <| snapshot_id ::= or_else (TeleportPatch.snapshot_id patch) |>
            <| export_id ::= or_else (TeleportPatch.export_id patch) |>
            <| live_payload ::= or_else (TeleportPatch.live_payload patch) |>
            <| kind := default (kind r) (TeleportPatch.kind patch) |>
            <| error := TeleportPatch.error patch |>
            <| attempts ::= Z.succ |> <| updated_at := now |>
            <| finished_at := if TeleportPhase.is_terminal to then Some now else None |> in
          finish_event tid now (put_teleport tid r' d);;
          mret true
    end.

Definition teleport_commit (tid : TeleportId) (e : Z) (now : DateTime) : M (option Z) :=
  gate;;
  d ← get_db;
  match (r ← teleports d !! tid;
         if bool_decide (phase r = TeleportPhase.Restored)
            && bool_decide (is_Some (dest_sandbox_id r)) then Some r else None) with
  | None => mret None
  | Some r =>
      match (s ← sessions d !! session_id r;
             if bool_decide (SessRow.current_epoch s = e)
                && bool_decide (SessRow.status s = Evacuating)
                && bool_decide (SessRow.host_id s = Some (source_host_id r))
                && bool_decide (SessRow.sandbox_id s = Some (source_sandbox_id r))
             then Some s else None) with
      | None => mret None
      | Some s =>
          let s' := s <| SessRow.session ::= fun x => x
                           <| Session.host_id := Some (dest_host_id r) |>
                           <| Session.sandbox_id := dest_sandbox_id r |> |>
                      <| SessRow.binding_epoch ::= Z.succ |>
                      <| SessRow.missing_strikes := 0%Z |> <| SessRow.updated_at := now |> in
          let r' := r <| phase := TeleportPhase.Committed |> <| attempts ::= Z.succ |>
                      <| updated_at := now |> in
          put_db (put_teleport tid r' (put_session (session_id r) s' d));;
          notify_text "placement_changed" "teleport_committed";;
          mret (Some (SessRow.binding_epoch s'))
      end
  end.

Definition teleport_release_source (tid : TeleportId) (e : Z) (how : SourceRelease)
    (now : DateTime) : M bool :=
  gate;;
  d ← get_db;
  match teleports d !! tid with
  | None => mret false
  | Some r =>
      let host_gone :=
        match hosts d !! source_host_id r with
        | Some h => negb (HostStatus.live (HostRecord.status h))
        | None => true
        end in
      if negb (bool_decide (phase r = TeleportPhase.Attached)) || epoch_stale (session_id r) e d
      then mret false
      else if match how with SourceHostGone => negb host_gone | DestroyAcked => false end
      then mret false
      else
        let d := entomb (source_host_id r) (source_sandbox_id r) (Some (session_id r)) now d in
        let r' := r <| phase := TeleportPhase.Done |> <| attempts ::= Z.succ |>
                    <| updated_at := now |> <| finished_at := Some now |> in
        finish_event tid now (put_teleport tid r' d);;
        mret true
  end.

(** The session half of a settle: flip the status, drop the sandbox and record
    the change; [None] when the settle leaves the session alone or the event
    was already recorded. *)
Definition settle_session (tid : TeleportId) (r : TeleportRow.t) (settle : TeleportSettle.t)
    (now : DateTime) : M (option Z) :=
  d ← get_db;
  match TeleportSettle.session settle, sessions d !! session_id r with
  | Some target, Some s =>
      let current := SessRow.status s in
      match try_transition_to current target with
      | Err _ => throw (Conflict "illegal session transition: {from:?} -> {to:?}")
      | Ok _ =>
          let s' := s <| SessRow.session ::= fun x => x <| Session.status := target |>
                           <| Session.sandbox_id := None |> |>
                      <| SessRow.updated_at := now |> in
          modify_db (put_session (session_id r) s');;
          append_event_idempotent_locked (session_id r)
            ("teleport:" +:+ uuid_str tid +:+ ":settled")%string "status_changed"
            (JObj [("type", JStr "status_changed"); ("from", JStr (as_str current));
                   ("to", JStr (as_str target)); ("at", JTime now)]%string) now
      end
  | _, _ => mret None
  end.

(** The teleport half: entomb the source if asked, fail the row, record and
    notify. *)
Definition settle_teleport (tid : TeleportId) (r : TeleportRow.t) (settle : TeleportSettle.t)
    (ev : option Z) (now : DateTime) : M bool :=
  when (TeleportSettle.entomb_source settle)
    (modify_db (entomb (source_host_id r) (source_sandbox_id r) (Some (session_id r)) now));;
  d ← get_db;
  let r' := r <| phase := TeleportPhase.Failed |>
              <| error := Some (TeleportSettle.error settle) |>
              <| attempts ::= Z.succ |> <| updated_at := now |>
              <| finished_at := Some now |> in
  let '(fin, d) := append_teleport_finished tid now (put_teleport tid r' d) in
  put_db d;;
  for_each (option_list ((fun idx => (session_id r, idx)) <$> ev) ++ option_list fin)
    (fun si => notify "session_events" (PEvent si.1 si.2));;
  when (bool_decide (is_Some (TeleportSettle.session settle)))
    (notify_text "placement_changed" "teleport_settled");;
  mret true.

Definition teleport_settle (tid : TeleportId) (e : Z) (settle : TeleportSettle.t)
    (now : DateTime) : M bool :=
  gate;;
  d ← get_db;
  match teleports d !! tid with
  | None => mret false
  | Some r =>
      if TeleportPhase.is_terminal (phase r) || epoch_stale (session_id r) e d then mret false
      else
        ev ← settle_session tid r settle now;
        settle_teleport tid r settle ev now
  end.

(** The error is read before the call, the patch clears nothing else. *)
Definition teleport_abort (tid : TeleportId) (e : Z) (now : DateTime) : M bool :=
  gate;;
  d ← get_db;
  teleport_advance tid TeleportPhase.RollingBack TeleportPhase.Aborted
    (TeleportPatch.Mk None None None None None (teleports d !! tid ≫= error)) e now.

(** [sort_by_key(|r| (r.created_at, r.id))]. *)
Definition created_le (a b : TeleportRow.t) : Prop :=
  (created_at a < created_at b)%Z ∨
  (created_at a = created_at b ∧ (TeleportRow.id a ≤ TeleportRow.id b)%N).

#[global] Instance created_le_dec : RelDecision created_le.
Proof. intros a b. unfold created_le. apply _. Defined.

Definition list_open_teleports : M (list TeleportRow.t) :=
  gate;;
  d ← get_db;
  mret (merge_sort created_le (List.filter is_open (values (teleports d)))).

Definition open_teleport_for_session (sid : SessionId) : M (option TeleportRow.t) :=
  gate;;
  d ← get_db;
  mret (List.find (fun r => bool_decide (session_id r = sid) && is_open r) (values (teleports d))).

End MetaTeleport.
