(* ===== verification/MetaHost.v ===== *)
(** * Host transactions of the metadata store

    Registration, heartbeats and leases, cordons and retirement, the dead-host
    transaction, and the tombstones that make a lost sandbox destroy durable. *)

From S2P Require Import Prelude Session Teleport OpLogSpec MetaTypes Placement.
From Stdlib Require Import QArith.

Module MetaHost.
Import HostRecord.

(** The [ON CONFLICT] arm: a retired row keeps its status, a lease target
    replaces the deadline and bumps the lease generation. *)
Definition upsert_existing (host prev : HostRecord.t) : HostRecord.t :=
  let prev := if bool_decide (status prev = HostStatus.Retired) then prev
              else prev <| status := status host |> in
  let prev := prev <| hostname := hostname host |>
    <| cloud_metadata := cloud_metadata host |> <| capacity := capacity host |>
    <| last_heartbeat_at := last_heartbeat_at host |> in
  let prev := match host_addr host with
              | Some a => prev <| host_addr := Some a |> | None => prev end in
  let prev := prev <| capabilities := capabilities host |> in
  match lease_expires_at host with
  | Some until =>
      prev <| lease_expires_at := Some until |>
           <| lease_state := if bool_decide (status prev = HostStatus.Retired)
                             then HostLeaseState.None else HostLeaseState.Active |>
           <| lease_epoch ::= Z.succ |>
  | None => prev
  end.

(** The [INSERT] arm: the heartbeat-only columns take their defaults. *)
Definition upsert_fresh (host : HostRecord.t) : HostRecord.t :=
  host <| utilization := HostUtilization_default |> <| ready_images := [] |>
       <| current_bundles := [] |> <| sandbox_bundles := [] |> <| cordoned := false |>
       <| cordon_owner := None |> <| cordon_reason := None |>
       <| retire_requested_at := None |> <| retired_at := None |>
       <| total_vcpus := 0%Z |> <| wire_version := 0%Z |> <| stages_images := false |>
       <| lease_state := if bool_decide (is_Some (lease_expires_at host))
                         then HostLeaseState.Active else HostLeaseState.None |>
       <| lease_epoch := 1%Z |>.

Definition upsert_host (host : HostRecord.t) : M unit :=
  gate;;
  d ← get_db;
  put_db (put_host (id host) (match hosts d !! id host with
                              | Some prev => upsert_existing host prev
                              | None => upsert_fresh host end) d);;
  notify_text "placement_changed" "host_upserted".

Definition get_host (h : HostId) : M (option HostRecord.t) :=
  gate;; d ← get_db; mret (hosts d !! h).

(** ** Retirement *)

Definition request_host_retirement (h : HostId) (owner : CordonOwner) (reason : string)
    (now : DateTime) : M bool :=
  gate;;
  d ← get_db;
  match hosts d !! h with
  | None => mret false
  | Some r =>
      if negb (HostStatus.live (status r)) then mret false
      else if match cordon_owner r with
              | Some o => negb (bool_decide (o = owner)) | None => false end then mret false
      else
        put_db (put_host h (r <| cordoned := true |> <| cordon_owner := Some owner |>
                              <| cordon_reason := Some reason |>
                              <| retire_requested_at ::= fun t => Some (default now t) |>) d);;
        mret true
  end.

Definition cancel_host_retirement (h : HostId) (owner : CordonOwner) : M bool :=
  gate;;
  d ← get_db;
  match hosts d !! h with
  | None => mret false
  | Some r =>
      if negb (bool_decide (cordon_owner r = Some owner))
         || bool_decide (status r = HostStatus.Retired) then mret false
      else
        put_db (put_host h (r <| cordoned := false |> <| cordon_owner := None |>
                              <| cordon_reason := None |> <| retire_requested_at := None |>) d);;
        notify_text "placement_changed" "host_uncordoned";;
        mret true
  end.

Definition list_retiring_hosts : M (list HostRecord.t) :=
  gate;;
  d ← get_db;
  mret (List.filter (fun h => bool_decide (is_Some (retire_requested_at h))
                             && HostStatus.live (status h)) (values (hosts d))).

(** [LiveEnableWork]. *)
Record LiveEnableWork := MkWork { materializes : Z; captures : Z }.

(** [out.entry(h).or_default().materializes += 1], and the same for captures. *)
Definition bump_materializes (m : gmap HostId LiveEnableWork) (h : HostId) :
    gmap HostId LiveEnableWork :=
  let w := default (MkWork 0 0) (m !! h) in <[h := MkWork (materializes w + 1) (captures w)]> m.
Definition bump_captures (m : gmap HostId LiveEnableWork) (h : HostId) :
    gmap HostId LiveEnableWork :=
  let w := default (MkWork 0 0) (m !! h) in <[h := MkWork (materializes w) (captures w + 1)]> m.

Definition live_materialize (now : DateTime) (lease : Duration) (j : EnableJobRow.t) : bool :=
  bool_decide (EnableJobRow.state j = EnableJobState.Materializing)
  && match EnableJobRow.claimed_at j with
     | Some t => bool_decide (now - lease < t)%Z | None => false end.

Definition live_capture (j : CaptureJobRow.t) : bool :=
  negb (CaptureJobStage.is_terminal (CaptureJobRow.stage j)).

Definition enable_work (d : SimDb) (now : DateTime) (lease : Duration) :
    gmap HostId LiveEnableWork :=
  fold_left bump_captures
    (omap CaptureJobRow.host_id (List.filter live_capture (values (capture_jobs d))))
    (fold_left bump_materializes
       (omap EnableJobRow.materialize_host_id
          (List.filter (live_materialize now lease) (values (enable_jobs d)))) ∅).

(** [ENABLE_MATERIALIZE_LEASE_SECS], in nanoseconds. *)
Definition ENABLE_MATERIALIZE_LEASE : Duration := (300 * 1000000000)%Z.

(** [RetirementBlocker]. *)
Inductive RetirementBlocker : Type :=
| BoundSessions (n : Z) | CaptureJobs (n : Z) | OpenTeleportsAsSource (n : Z)
| OpenTeleportsAsDest (n : Z) | PendingTombstones (n : Z) | ResidentSandboxes (n : Z)
| EnableWork (n : Z) | NoHeartbeatSinceRequest | NotCordoned.

(** [RetirementBlocker::count]. *)
Definition blocker_count (b : RetirementBlocker) : Z :=
  match b with
  | BoundSessions n | CaptureJobs n | OpenTeleportsAsSource n | OpenTeleportsAsDest n
  | PendingTombstones n | ResidentSandboxes n | EnableWork n => n
  | NoHeartbeatSinceRequest | NotCordoned => 0
  end.

(** [RetirementStatus]. *)
Record RetirementStatus := MkStatus {
  rs_requested_at : option DateTime;
  rs_retired_at : option DateTime;
  rs_blockers : list RetirementBlocker;
}.

(** [RetirementGrant]. *)
Inductive RetirementGrant : Type :=
| Granted | Blocked (bs : list RetirementBlocker) | NotRequested.

Definition countb {A} (P : A → bool) (l : list A) : Z := Z.of_nat (length (List.filter P l)).

Definition retirement_blockers (d : SimDb) (hid : HostId) (h : HostRecord.t) (now : DateTime) :
    list RetirementBlocker :=
  let work := default (MkWork 0 0) (enable_work d now ENABLE_MATERIALIZE_LEASE !! hid) in
  let counts :=
    [ BoundSessions (countb (fun s => bool_decide (SessRow.host_id s = Some hid)
                                      && reserves (SessRow.status s)) (values (sessions d)));
      CaptureJobs (countb (fun j => bool_decide (CaptureJobRow.host_id j = Some hid)
                                    && live_capture j) (values (capture_jobs d)));
      OpenTeleportsAsSource (countb (fun t => bool_decide (TeleportRow.source_host_id t = hid)
                                    && TeleportRow.is_open t) (values (teleports d)));
      OpenTeleportsAsDest (countb (fun t => bool_decide (TeleportRow.dest_host_id t = hid)
                                    && TeleportRow.is_open t) (values (teleports d)));
      PendingTombstones (countb (fun k => bool_decide (k.1 = hid)) (keys (sandbox_tombstones d)));
      ResidentSandboxes (running_sandboxes (capacity h));
      EnableWork (materializes work) ] in
  List.filter (fun b => bool_decide (0 < blocker_count b)%Z) counts ++
  (if match retire_requested_at h with
      | Some t => bool_decide (last_heartbeat_at h ≤ t)%Z | None => false end
   then [NoHeartbeatSinceRequest] else []) ++
  (if cordoned h then [] else [NotCordoned]).

Definition retirement_status (d : SimDb) (hid : HostId) (now : DateTime) :
    option RetirementStatus :=
  h ← hosts d !! hid;
  Some (MkStatus (retire_requested_at h) (retired_at h)
          (match retired_at h with
           | None => retirement_blockers d hid h now
           | Some _ => [] end)).

Definition host_retirement_status (hid : HostId) (now : DateTime) : M (option RetirementStatus) :=
  gate;; d ← get_db; mret (retirement_status d hid now).

Definition grant_host_retirement (hid : HostId) (now : DateTime) : M RetirementGrant :=
  gate;;
  d ← get_db;
  match retirement_status d hid now with
  | None => mret NotRequested
  | Some st =>
      if bool_decide (is_Some (rs_retired_at st)) then mret Granted
      else if bool_decide (rs_requested_at st = None) then mret NotRequested
      else
        match rs_blockers st with
        | _ :: _ => mret (Blocked (rs_blockers st))
        | [] =>
            h ← ok_or (hosts d !! hid) NotFound;
            put_db (put_host hid (h <| status := HostStatus.Retired |> <| retired_at := Some now |>
                                    <| lease_state := HostLeaseState.None |>) d);;
            notify_text "placement_changed" "host_retired";;
            mret Granted
        end
  end.

(** ** Status, heartbeats, leases, cordons *)

Definition list_active_hosts : M (list HostRecord.t) :=
  gate;;
  d ← get_db;
  mret (List.filter (fun h => HostStatus.live (status h)) (values (hosts d))).

Definition set_host_status (h : HostId) (s : HostStatus.t) : M unit :=
  gate;;
  d ← get_db;
  r ← ok_or (hosts d !! h) NotFound;
  if bool_decide (status r = HostStatus.Retired) || bool_decide (s = HostStatus.Retired)
  then throw NotFound
  else put_db (put_host h (r <| status := s |>) d).

(** [HeartbeatAck]. *)
Inductive HeartbeatAck : Type := Accepted | Refused (s : HostStatus.t).

(** [Some(match existing { Some(x) => x.max(until), None => until })]. *)
Definition greatest (until : DateTime) (existing : option DateTime) : option DateTime :=
  Some (match existing with Some x => Z.max x until | None => until end).

(** [matches!(status, Dead | Retired)]. *)
Definition gone (s : HostStatus.t) : bool := negb (HostStatus.live s).

Definition touch_host_heartbeat (h : HostId) (hb : HostHeartbeat.t) (now : DateTime) :
    M HeartbeatAck :=
  gate;;
  d ← get_db;
  r ← ok_or (hosts d !! h) NotFound;
  let previous := status r in
  let r := if gone previous then r else r <| status := HostHeartbeat.status hb |> in
  let r := r <| capacity := HostHeartbeat.capacity hb |>
    <| utilization := HostHeartbeat.utilization hb |>
    <| ready_images := HostHeartbeat.ready_images hb |>
    <| current_bundles := HostHeartbeat.current_bundles hb |>
    <| sandbox_bundles := HostHeartbeat.sandbox_bundles hb |>
    <| total_vcpus := HostHeartbeat.total_vcpus hb |>
    <| wire_version := HostHeartbeat.wire_version hb |>
    <| stages_images := HostHeartbeat.stages_images hb |>
    <| capabilities := HostHeartbeat.capabilities hb |>
    <| last_heartbeat_at := now |> in
  let r :=
    match HostHeartbeat.lease_renew_until hb with
    | Some renew =>
        let r := r <| lease_expires_at ::= greatest renew |> in
        if bool_decide (previous = HostStatus.Retired) then r <| lease_state := HostLeaseState.None |>
        else if bool_decide (lease_state r = HostLeaseState.Handoff) then r
        else r <| lease_state := HostLeaseState.Active |>
    | None => r
    end in
  put_db (put_host h r d);;
  mret (if gone previous then Refused previous else Accepted).

Definition begin_host_handoff (h : HostId) (until : DateTime) : M bool :=
  gate;;
  d ← get_db;
  match hosts d !! h with
  | None => mret false
  | Some r =>
      if gone (status r) then mret false
      else put_db (put_host h (r <| lease_state := HostLeaseState.Handoff |>
                                 <| lease_expires_at ::= greatest until |>) d);; mret true
  end.

(** [lease_expires_at.is_none_or(|expires| expires < now)]. *)
Definition lease_expired (now : DateTime) (h : HostRecord.t) : bool :=
  match lease_expires_at h with Some x => bool_decide (x < now)%Z | None => true end.

Definition list_lease_expired_hosts (now : DateTime) : M (list HostRecord.t) :=
  gate;;
  d ← get_db;
  mret (List.filter (lease_expired now)
          (List.filter (fun h => bool_decide (status h = HostStatus.Ready)) (values (hosts d)))).

Definition renew_host_lease (h : HostId) (until : DateTime) : M bool :=
  gate;;
  d ← get_db;
  match hosts d !! h with
  | None => mret false
  | Some r =>
      if gone (status r) then mret false
      else
        let r := r <| lease_expires_at ::= greatest until |> in
        let r := if bool_decide (lease_state r = HostLeaseState.None)
                 then r <| lease_state := HostLeaseState.Active |> else r in
        put_db (put_host h r d);; mret true
  end.

Definition set_host_cordon (h : HostId) (owner : option CordonOwner) (reason : option string) :
    M unit :=
  gate;;
  d ← get_db;
  r ← ok_or (hosts d !! h) NotFound;
  if bool_decide (status r = HostStatus.Retired) then throw NotFound
  else
    let r := r <| cordoned := bool_decide (is_Some owner) |> <| cordon_owner := owner |>
               <| cordon_reason := reason |> in
    let r := if bool_decide (owner = None) then r <| retire_requested_at := None |> else r in
    put_db (put_host h r d);;
    when (bool_decide (owner = None)) (notify_text "placement_changed" "host_uncordoned").

(** ** The dead-host transaction *)

(** Sessions an open teleport moves away from the host. *)
Definition owned_by_move (h : HostId) (d : SimDb) : list SessionId :=
  TeleportRow.session_id <$>
    List.filter (fun r => bool_decide (TeleportRow.source_host_id r = h) && TeleportRow.is_open r)
      (values (teleports d)).

(** The guard of the session loop. *)
Definition orphaned (h : HostId) (owned : list SessionId) (row : SessRow.t) : bool :=
  bool_decide (SessRow.host_id row = Some h)
  && negb (bool_decide (Session.id (SessRow.session row) ∈ owned))
  && negb (is_terminal (SessRow.status row)).

Definition lose_host (now : DateTime) (row : SessRow.t) : SessRow.t :=
  row <| SessRow.session ::= fun s => s <| Session.host_id := None |>
           <| Session.sandbox_id := None |> <| Session.status := HostLost |>
           <| Session.last_active_at := now |> |>.

Definition mark_host_dead_if_lease_expired (h : HostId) (now : DateTime) :
    M (list (SessionId * SessionState)) :=
  gate;;
  d ← get_db;
  match hosts d !! h with
  | None => mret []
  | Some r =>
      if gone (status r) then mret []
      else if negb (lease_expired now r) then
        throw (Conflict "host {host_id} lease renewed to {:?}; refusing to mark dead")
      else
        let d := put_host h (r <| status := HostStatus.Dead |>) d in
        let owned := owned_by_move h d in
        let lost := List.filter (orphaned h owned) (values (sessions d)) in
        let out := (fun s => (Session.id (SessRow.session s), SessRow.status s)) <$> lost in
        let d := d <| sessions ::= fmap (fun s => if orphaned h owned s then lose_host now s
                                                  else s) |> in
        let d := fold_left (fun d s =>
            match SessRow.sandbox_id s with
            | Some sb => entomb h sb (Some (Session.id (SessRow.session s))) now d
            | None => d end) lost d in
        let d := d <| transition_log ::= fun l => l ++
          ((fun s => TransitionLogEntry.Mk (Session.id (SessRow.session s)) (SessRow.status s)
                       HostLost true) <$> lost) |> in
        put_db d;; mret out
  end.

(** ** Tombstones *)

Definition record_sandbox_tombstone (h : HostId) (sb : SandboxId) (sid : option SessionId)
    (now : DateTime) : M unit :=
  gate;; modify_db (entomb h sb sid now).

(** The closure [move_owned]. *)
Definition move_owned (h : HostId) (d : SimDb) (sb : SandboxId) : bool :=
  existsb (fun t => TeleportRow.is_open t
             && (bool_decide (TeleportRow.source_sandbox_id t = sb)
                 || bool_decide (TeleportRow.dest_sandbox_id t = Some sb)
                 || (bool_decide (TeleportRow.dest_host_id t = h)
                     && bool_decide (TeleportRow.dest_sandbox_id t = None))))
    (values (teleports d)).

Definition bound_sandboxes (d : SimDb) : list SandboxId :=
  omap SessRow.sandbox_id (values (sessions d)).

Definition unbound_running (h : HostId) (running : list SandboxId) (d : SimDb) : list SandboxId :=
  let capture_active :=
    existsb (fun j => bool_decide (CaptureJobRow.host_id j = Some h) && live_capture j)
      (values (capture_jobs d)) in
  List.filter (fun s => negb capture_active && negb (bool_decide (s ∈ bound_sandboxes d))
                        && negb (move_owned h d s)) running.

Definition entomb_stably_unbound (h : HostId) (running : list SandboxId) (grace_secs : Z)
    (now : DateTime) : M (list SandboxId) :=
  gate;;
  d ← get_db;
  let unbound := unbound_running h running d in
  let kept := filter (fun kv => kv.1.1 ≠ h ∨ kv.1.2 ∈ unbound) (sandbox_unbound_sightings d) in
  let stamped := fold_left (fun m s => or_insert (h, s) now m) unbound kept in
  let cutoff := (now - grace_secs * 1000000000)%Z in
  let graduated := (fun kv => kv.1.2) <$>
    List.filter (fun kv => bool_decide (kv.1.1 = h) && bool_decide (kv.2 ≤ cutoff)%Z)
      (btree stamped) in
  let d := d <| sandbox_unbound_sightings :=
                  fold_left (fun m s => delete (h, s) m) graduated stamped |> in
  put_db (fold_left (fun d s => entomb h s None now d) graduated d);;
  mret graduated.

Definition sandbox_tombstones_for_host (h : HostId) : M (list SandboxId) :=
  gate;;
  d ← get_db;
  mret (snd <$> List.filter (fun k => bool_decide (k.1 = h)) (keys (sandbox_tombstones d))).

Definition ack_sandbox_tombstones_by_absence (h : HostId) (running : list SandboxId) :
    M (list SandboxId) :=
  gate;;
  d ← get_db;
  let acked := snd <$> List.filter (fun k => bool_decide (k.1 = h)
                                      && negb (bool_decide (k.2 ∈ running)))
                 (keys (sandbox_tombstones d)) in
  put_db (d <| sandbox_tombstones ::= fun m => fold_left (fun m s => delete (h, s) m) acked m |>);;
  mret acked.

Definition host_status (h : HostId) : M (option HostStatus.t) :=
  gate;; d ← get_db; mret (status <$> hosts d !! h).

(** ** The eviction lease of a dead host *)

(** [from_std(stale_after).unwrap_or_else(|_| seconds(180))]. *)
Definition stale_cutoff (stale_after : Duration) (now : DateTime) : DateTime :=
  (now - if decide (stale_after ≤ i64_max * 1000000)%Z then stale_after else 180 * 1000000000)%Z.

Definition try_acquire_dead_host_lease (h : HostId) (claimant : string) (stale_after : Duration)
    (now : DateTime) : M bool :=
  gate;;
  d ← get_db;
  let take := put_db (d <| dead_host_inflight ::= insert h (claimant, now) |>);; mret true in
  match dead_host_inflight d !! h with
  | Some (_, claimed_at) =>
      if bool_decide (stale_cutoff stale_after now ≤ claimed_at)%Z then mret false else take
  | None => take
  end.

Definition release_dead_host_lease (h : HostId) (claimant : string) : M unit :=
  gate;;
  d ← get_db;
  match dead_host_inflight d !! h with
  | Some (by_, _) =>
      when (bool_decide (by_ = claimant)) (put_db (d <| dead_host_inflight ::= delete h |>))
  | None => mret tt
  end.

Definition notify_host_dead (h : HostId) : M unit :=
  gate;; notify "host_dead" (PHost h).

(** ** Deletion *)

(** [DeleteHostOutcome]. *)
Inductive DeleteHostOutcome : Type := Deleted | NotRetired (s : HostStatus.t).

Definition unhosted (h : HostId) (r : SessRow.t) : SessRow.t :=
  if bool_decide (SessRow.host_id r = Some h)
  then r <| SessRow.session ::= fun s => s <| Session.host_id := None |> |> else r.

Definition delete_host (h : HostId) : M DeleteHostOutcome :=
  gate;;
  d ← get_db;
  let go := put_db (d <| sessions ::= fmap (unhosted h) |> <| hosts ::= delete h |>);; mret Deleted in
  match hosts d !! h with
  | Some r => if gone (status r) then go else mret (NotRetired (status r))
  | None => go
  end.

End MetaHost.
