(* ===== verification/MetaOutbox.v ===== *)
(** * The durable command outbox

    The [session_outbox] methods of [SimMetadataStore]: commands to the guest
    stay in the table until the confirming event acknowledges them, and are
    redelivered on a schedule until then.  A command that is not acknowledged
    yet can be withdrawn, and the text of a prompt edited. *)

From S2P Require Import Prelude Session Teleport OpLogSpec MetaTypes Placement MetaSession.
From Stdlib Require Import QArith.

Module MetaOutbox.
Import OutboxRow.

Definition outbox_enqueue (row : OutboxRow.t) : M unit :=
  gate;;
  modify_db (fun d => d <| outbox ::= or_insert (prompt_id row) row |>);;
  notify "session_outbox" (PSession (session_id row)).

(** [acked_at.is_none() && not_before <= now]. *)
Definition deliverable (now : DateTime) (r : OutboxRow.t) : bool :=
  bool_decide (acked_at r = None) && bool_decide (not_before r ≤ now)%Z.

Definition outbox_due_sessions (now : DateTime) : M (list SessionId) :=
  gate;;
  d ← get_db;
  mret (dedup (merge_sort N.le (session_id <$> List.filter (deliverable now) (values (outbox d))))).

(** [a.created_at.cmp(&b.created_at).then(a.prompt_id.cmp(&b.prompt_id))] is
    [Less]. *)
Definition older (a b : OutboxRow.t) : bool :=
  bool_decide (created_at a < created_at b)%Z
  || (bool_decide (created_at a = created_at b) && String.ltb (prompt_id a) (prompt_id b)).

(** [min_by]: the first of the smallest. *)
Definition oldest (l : list OutboxRow.t) : option OutboxRow.t :=
  match l with
  | [] => None
  | x :: l' => Some (fold_left (fun m y => if older y m then y else m) l' x)
  end.

Definition outbox_next_due (s : SessionId) (now : DateTime) : M (option OutboxRow.t) :=
  gate;;
  d ← get_db;
  mret (oldest (List.filter (fun r => bool_decide (session_id r = s) && deliverable now r)
                  (values (outbox d)))).

(** Rewrite an un-acked row; anything else is left alone. *)
Definition update_unacked (p : string) (f : OutboxRow.t → OutboxRow.t) : M bool :=
  gate;;
  d ← get_db;
  match outbox d !! p with
  | Some r =>
      if bool_decide (acked_at r = None)
      then put_db (d <| outbox ::= insert p (f r) |>);; mret true
      else mret false
  | None => mret false
  end.

Definition outbox_mark_delivered (p : string) (ack_timeout : Duration) (now : DateTime) : M unit :=
  update_unacked p (fun r => r <| delivered_at := Some now |> <| attempts ::= Z.succ |>
    <| not_before := (now + from_std_or_zero ack_timeout)%Z |>);; mret tt.

Definition outbox_defer (p : string) (delay : Duration) (now : DateTime) : M unit :=
  update_unacked p (fun r => r <| not_before := (now + from_std_or_zero delay)%Z |>
    <| attempts ::= Z.succ |>);; mret tt.

(** The rows [outbox_make_due] moves. *)
Definition waiting (s : SessionId) (now : DateTime) (r : OutboxRow.t) : bool :=
  bool_decide (session_id r = s) && bool_decide (acked_at r = None)
  && bool_decide (now < not_before r)%Z.

Definition outbox_make_due (s : SessionId) (now : DateTime) : M nat :=
  gate;;
  d ← get_db;
  put_db (d <| outbox ::= fmap (fun r => if waiting s now r
                                         then r <| not_before := now |> else r) |>);;
  mret (length (List.filter (waiting s now) (values (outbox d)))).

Definition outbox_ack (p : string) (now : DateTime) : M bool :=
  update_unacked p (fun r => r <| acked_at := Some now |>).

Definition outbox_get (p : string) : M (option OutboxRow.t) :=
  gate;;
  d ← get_db;
  mret (outbox d !! p).

(** A payload that is neither null nor an object panics, with nothing
    written: [None]. *)
Definition outbox_update_prompt_text (p text : string) : M (option bool) :=
  gate;;
  d ← get_db;
  match outbox d !! p with
  | Some r =>
      if bool_decide (kind r = Prompt) && bool_decide (acked_at r = None) then
        match json_index_set "text" (JStr text) (payload r) with
        | Some v => put_db (d <| outbox ::= insert p (r <| payload := v |>) |>);; mret (Some true)
        | None => mret None
        end
      else mret (Some false)
  | None => mret (Some false)
  end.

Definition outbox_delete_unacked (p : string) : M bool :=
  gate;;
  d ← get_db;
  match outbox d !! p with
  | Some r =>
      if bool_decide (acked_at r = None)
      then put_db (d <| outbox ::= delete p |>);; mret true
      else mret false
  | None => mret false
  end.

(** The row already there is the same command. *)
Definition same_command (existing row : OutboxRow.t) : bool :=
  bool_decide (session_id existing = session_id row) && bool_decide (kind existing = kind row)
  && json_eqb (payload existing) (payload row).

(** The insert of both methods that also append events; whether it inserted. *)
Definition claim_prompt_id (row : OutboxRow.t) : M bool :=
  d ← get_db;
  match outbox d !! prompt_id row with
  | None => put_db (d <| outbox ::= insert (prompt_id row) row |>);; mret true
  | Some existing =>
      if same_command existing row then mret false
      else throw (Conflict "outbox id {} belongs to another command")
  end.

Definition append_session_event_and_outbox (s : SessionId) (event : string) (body : json)
    (row : OutboxRow.t) (now : DateTime) : M Z :=
  gate;;
  if negb (bool_decide (session_id row = s)) then throw (Serialization "outbox row session_id mismatch")
  else
    claim_prompt_id row;;
    idx ← MetaSession.append_session_event s event body now;
    notify "session_outbox" (PSession s);;
    mret idx.

(** The loop over the events. *)
Fixpoint append_all (s : SessionId) (events : list (string * json)) (now : DateTime) : M (list Z) :=
  match events with
  | [] => mret []
  | ev :: events =>
      idx ← MetaSession.append_session_event s ev.1 ev.2 now;
      idxs ← append_all s events now;
      mret (idx :: idxs)
  end.

Definition append_events_with_outbox_idempotent (s : SessionId) (events : list (string * json))
    (row : OutboxRow.t) (now : DateTime) : M (option (list Z)) :=
  gate;;
  if negb (bool_decide (session_id row = s)) then throw (Serialization "outbox row session_id mismatch")
  else
    inserted ← claim_prompt_id row;
    if (inserted : bool) then
      idxs ← append_all s events now;
      notify "session_outbox" (PSession s);;
      mret (Some idxs)
    else mret None.

(** ** The calls, as one interface *)

Inductive call : Type :=
| CEnqueue (row : OutboxRow.t)
| CEnqueueEvent (s : SessionId) (event : string) (body : json) (row : OutboxRow.t) (now : DateTime)
| CEnqueueEvents (s : SessionId) (events : list (string * json)) (row : OutboxRow.t) (now : DateTime)
| CUpdateText (p text : string)
| CDelete (p : string)
| CDelivered (p : string) (ack_timeout : Duration) (now : DateTime)
| CDefer (p : string) (delay : Duration) (now : DateTime)
| CMakeDue (s : SessionId) (now : DateTime)
| CAck (p : string) (now : DateTime).

Definition exec (c : call) (st : Store) : Store :=
  match c with
  | CEnqueue row => (outbox_enqueue row st).2
  | CEnqueueEvent s event body row now => (append_session_event_and_outbox s event body row now st).2
  | CEnqueueEvents s events row now => (append_events_with_outbox_idempotent s events row now st).2
  | CUpdateText p text => (outbox_update_prompt_text p text st).2
  | CDelete p => (outbox_delete_unacked p st).2
  | CDelivered p t now => (outbox_mark_delivered p t now st).2
  | CDefer p t now => (outbox_defer p t now st).2
  | CMakeDue s now => (outbox_make_due s now st).2
  | CAck p now => (outbox_ack p now st).2
  end.

Definition exec_all (cs : list call) (st : Store) : Store := fold_left (fun st c => exec c st) cs st.

(** What calls may do to a row: its identity never changes, its payload only by
    an edit of a prompt, and an acknowledged row is final. *)
Record evolves (edited : Prop) (r r' : OutboxRow.t) : Prop := {
  ev_id : prompt_id r' = prompt_id r ∧ session_id r' = session_id r ∧ kind r' = kind r ∧
          created_at r' = created_at r;
  ev_payload : payload r' = payload r ∨ (kind r = Prompt ∧ edited);
  ev_final : is_Some (acked_at r) → r' = r;
}.

Lemma evolves_refl (P : Prop) r : evolves P r r.
Proof. split; auto. Qed.

Lemma evolves_trans (P P1 P2 : Prop) r1 r2 r3 :
  (P1 → P) → (P2 → P) → evolves P1 r1 r2 → evolves P2 r2 r3 → evolves P r1 r3.
Proof.
  intros HP1 HP2 [(I1&I2&I3&I4) Hp1 Ha1] [(J1&J2&J3&J4) Hp2 Ha2]. split.
  - repeat split; congruence.
  - destruct Hp1 as [E1|[K1 H1]]; [|auto]. destruct Hp2 as [E2|[K2 H2]]; [left; congruence|].
    right. split; [congruence|auto].
  - intros Ha. specialize (Ha1 Ha). subst. auto.
Qed.

(** The text of prompt [p] is edited, its row withdrawn. *)
Definition edits (p : string) (c : call) : Prop := ∃ text, c = CUpdateText p text.
Definition withdraws (p : string) (c : call) : Prop := c = CDelete p.

Lemma update_unacked_evolves p f st q r :
  (∀ r, prompt_id (f r) = prompt_id r ∧ session_id (f r) = session_id r ∧ kind (f r) = kind r ∧
        payload (f r) = payload r ∧ created_at (f r) = created_at r) →
  outbox (db st) !! q = Some r →
  ∃ r', outbox (db (update_unacked p f st).2) !! q = Some r' ∧ evolves False r r'.
Proof.
  intros Hf Hq. unfold update_unacked. run_m. destruct (outage st); cbn; [by eauto using evolves_refl|].
  destruct (outbox (db st) !! p) as [x|] eqn:Ep; cbn; [|by eauto using evolves_refl].
  destruct (bool_decide _) eqn:Eb; cbn; [|by eauto using evolves_refl]. bool_prop.
  rewrite lookup_insert. case_decide; subst; [|by eauto using evolves_refl].
  simplify_eq. eexists; split; [done|]. destruct (Hf r) as (?&?&?&?&?). split; [done|by left|].
  rewrite Eb. by intros [].
Qed.

Lemma claim_prompt_row row st q r :
  outbox (db st) !! q = Some r → outbox (db (claim_prompt_id row st).2) !! q = Some r.
Proof.
  intros Hq. unfold claim_prompt_id. run_m. destruct (outbox (db st) !! prompt_id row) as [x|] eqn:Ex; cbn.
  - by destruct (same_command x row).
  - rewrite lookup_insert_ne; [done|]. congruence.
Qed.

Lemma append_event_outbox s event body now st :
  outbox (db (MetaSession.append_session_event s event body now st).2) = outbox (db st).
Proof. unfold MetaSession.append_session_event. gated st. by destruct (sessions (db st) !! s). Qed.

Lemma append_all_outbox s events now st : outbox (db (append_all s events now st).2) = outbox (db st).
Proof.
  revert st. induction events as [|ev events IH]; intros st; [done|]. cbn [append_all]. run_m.
  pose proof (append_event_outbox s ev.1 ev.2 now st) as H.
  destruct (MetaSession.append_session_event _ _ _ _ st) as [[idx|] st1]; [|done].
  specialize (IH st1). destruct (append_all s events now st1) as [[idxs|] st2]; cbn in *; congruence.
Qed.

Lemma enqueue_event_row s event body row now st q r :
  outbox (db st) !! q = Some r →
  outbox (db (append_session_event_and_outbox s event body row now st).2) !! q = Some r.
Proof.
  intros Hq. unfold append_session_event_and_outbox. gated st. destruct (negb _); [done|].
  pose proof (claim_prompt_row row st q r Hq) as H.
  destruct (claim_prompt_id row st) as [[b|] st1]; [|done]. cbn [snd] in H.
  pose proof (append_event_outbox s event body now st1) as H'.
  destruct (MetaSession.append_session_event _ _ _ _ st1) as [[idx|] st2]; cbn in *; by rewrite H'.
Qed.

Lemma enqueue_events_row s events row now st q r :
  outbox (db st) !! q = Some r →
  outbox (db (append_events_with_outbox_idempotent s events row now st).2) !! q = Some r.
Proof.
  intros Hq. unfold append_events_with_outbox_idempotent. gated st. destruct (negb _); [done|].
  pose proof (claim_prompt_row row st q r Hq) as H.
  destruct (claim_prompt_id row st) as [[[]|] st1]; [|done..]. cbn [snd] in H.
  pose proof (append_all_outbox s events now st1) as H'.
  destruct (append_all s events now st1) as [[idx|] st2]; cbn in *; by rewrite H'.
Qed.

Lemma update_text_row p text st q r :
  outbox (db st) !! q = Some r →
  ∃ r', outbox (db (outbox_update_prompt_text p text st).2) !! q = Some r' ∧ evolves (q = p) r r'.
Proof.
  intros Hq. unfold outbox_update_prompt_text. run_m. destruct (outage st); cbn; [by eauto using evolves_refl|].
  destruct (outbox (db st) !! p) as [x|] eqn:Ep; cbn; [|by eauto using evolves_refl].
  destruct (_ && _) eqn:Eb; cbn; [|by eauto using evolves_refl]. bool_prop.
  destruct (json_index_set _ _ _) as [v|]; cbn; [|by eauto using evolves_refl].
  rewrite lookup_insert. case_decide; subst; [|by eauto using evolves_refl].
  simplify_eq. eexists; split; [done|]. split; [done|by right|].
  by match goal with H : acked_at r = None |- _ => rewrite H; intros [] end.
Qed.

Lemma delete_row p st q r :
  outbox (db st) !! q = Some r →
  outbox (db (outbox_delete_unacked p st).2) !! q = Some r ∨ (q = p ∧ acked_at r = None).
Proof.
  intros Hq. unfold outbox_delete_unacked. run_m. destruct (outage st); cbn; [by left|].
  destruct (outbox (db st) !! p) as [x|] eqn:Ep; cbn; [|by left].
  destruct (bool_decide _) eqn:Eb; cbn; [|by left]. bool_prop.
  destruct (decide (q = p)) as [->|Hne]; [right; by simplify_eq|left]. by rewrite lookup_delete_ne.
Qed.

Lemma exec_evolves c st q r :
  outbox (db st) !! q = Some r →
  (∃ r', outbox (db (exec c st)) !! q = Some r' ∧ evolves (edits q c) r r') ∨
  (withdraws q c ∧ acked_at r = None).
Proof.
  intros Hq.
  assert (Hkeep : outbox (db (exec c st)) !! q = Some r →
    (∃ r', outbox (db (exec c st)) !! q = Some r' ∧ evolves (edits q c) r r') ∨ (withdraws q c ∧ acked_at r = None)).
  { intros H. left. exists r. split; [done|apply evolves_refl]. }
  assert (Hstep : ∀ P : Prop, (P → edits q c) → (∃ r', outbox (db (exec c st)) !! q = Some r' ∧ evolves P r r') →
    (∃ r', outbox (db (exec c st)) !! q = Some r' ∧ evolves (edits q c) r r') ∨ (withdraws q c ∧ acked_at r = None)).
  { intros P HP (r'&H1&H2). left. exists r'. split; [done|].
    eapply (evolves_trans _ _ False); [exact HP|done|exact H2|apply evolves_refl]. }
  assert (Hquiet : ∀ p f, (∀ r, prompt_id (f r) = prompt_id r ∧ session_id (f r) = session_id r ∧ kind (f r) = kind r ∧
        payload (f r) = payload r ∧ created_at (f r) = created_at r) →
    ∃ r', outbox (db ((update_unacked p f;; mret tt) st).2) !! q = Some r' ∧ evolves False r r').
  { intros p f Hf. destruct (update_unacked_evolves p f st q r Hf Hq) as (r'&H1&H2). exists r'. split; [|done].
    run_m. by destruct (update_unacked p f st) as [[] ?]. }
  destruct c; cbn [exec] in *.
  - apply Hkeep. unfold outbox_enqueue. run_m. destruct (outage st); cbn; [done|]. apply lookup_or_insert. by left.
  - by apply Hkeep, enqueue_event_row.
  - by apply Hkeep, enqueue_events_row.
  - apply (Hstep (q = p)); [intros ->; by exists text|]. by apply update_text_row.
  - destruct (delete_row p st q r Hq) as [H|[-> H]]; [by apply Hkeep|by right].
  - apply (Hstep False); [done|]. by apply Hquiet.
  - apply (Hstep False); [done|]. by apply Hquiet.
  - apply (Hstep False); [done|]. unfold outbox_make_due. run_m. destruct (outage st); cbn; [by eauto using evolves_refl|].
    rewrite lookup_fmap, Hq. cbn. eexists; split; [done|].
    destruct (waiting s now r) eqn:Ew; [|apply evolves_refl].
    unfold waiting in Ew. apply andb_true_iff in Ew as [[_ Ha]%andb_true_iff _].
    apply bool_decide_eq_true in Ha. split; [done|by left|]. rewrite Ha. by intros [].
  - apply (Hstep False); [done|]. by apply update_unacked_evolves.
Qed.

Lemma exec_all_evolves cs st q r :
  outbox (db st) !! q = Some r →
  (∃ r', outbox (db (exec_all cs st)) !! q = Some r' ∧ evolves (Exists (edits q) cs) r r') ∨
  (Exists (withdraws q) cs ∧ acked_at r = None).
Proof.
  revert st r. induction cs as [|c cs IH]; intros st r Hq; [by eauto using evolves_refl|].
  destruct (exec_evolves c st q r Hq) as [(r1&H1&E1)|[Hw Ha]]; [|right; split; [by left|done]].
  destruct (IH _ _ H1) as [(r2&H2&E2)|[Hw Ha]].
  - left. exists r2. split; [done|]. eapply evolves_trans; [| |exact E1|exact E2]; [by left|by right].
  - right. split; [by right|]. destruct (acked_at r) eqn:Er; [|done].
    assert (r1 = r) as -> by (apply (ev_final _ _ _ E1); by rewrite Er). congruence.
Qed.

Lemma older_false a b : older a b = false → (created_at b ≤ created_at a)%Z.
Proof. unfold older. intros H. bool_prop; lia. Qed.

Lemma older_true a b : older a b = true → (created_at a ≤ created_at b)%Z.
Proof. unfold older. intros H. bool_prop; lia. Qed.

Lemma oldest_spec l :
  match oldest l with
  | Some x => x ∈ l ∧ ∀ y, y ∈ l → (created_at x ≤ created_at y)%Z
  | None => l = []
  end.
Proof.
  destruct l as [|x l]; simpl; [done|]. revert x. induction l as [|z l IH]; intros x; simpl.
  { split; [set_solver|]. intros y ->%list_elem_of_singleton. lia. }
  specialize (IH (if older z x then z else x)). destruct IH as [Hin Hm].
  assert (Hz : (created_at (if older z x then z else x) ≤ created_at z)%Z ∧
               (created_at (if older z x then z else x) ≤ created_at x)%Z).
  { destruct (older z x) eqn:E; [apply older_true in E|apply older_false in E]; lia. }
  pose proof (Hm _ (list_elem_of_here _ _)) as H0. split.
  - destruct (older z x); set_solver.
  - intros y Hy. rewrite !elem_of_cons in Hy. destruct Hy as [->|[->|Hy]]; [lia..|].
    apply Hm. by apply list_elem_of_further.
Qed.

(** ** Properties *)

(** A command row is lost only when it is withdrawn, before it was
    acknowledged; its identity never changes, and its payload only by an edit of
    a prompt; once acknowledged it is frozen, so it is never rescheduled, edited
    or withdrawn. *)
Theorem outbox_durable cs st p r :
  outbox (db st) !! p = Some r →
  (∃ r', outbox (db (exec_all cs st)) !! p = Some r' ∧ evolves (Exists (edits p) cs) r r') ∨
  (Exists (withdraws p) cs ∧ acked_at r = None).
Proof. apply exec_all_evolves. Qed.

(** The delivery pick: [outbox_next_due] returns an un-acknowledged command
    of the session whose gate has passed, the oldest such, and returns none
    only when there is none; a session is due exactly when it has one. *)
Theorem outbox_next_due_oldest s now st :
  outage st = false →
  ∃ o, outbox_next_due s now st = (Ok o, st) ∧
    let due r := (∃ p, outbox (db st) !! p = Some r) ∧ session_id r = s ∧
                 acked_at r = None ∧ (not_before r ≤ now)%Z in
    match o with
    | Some r => due r ∧ ∀ r', due r' → (created_at r ≤ created_at r')%Z
    | None => ∀ r, ¬ due r
    end ∧
    (is_Some o ↔ ∃ l, outbox_due_sessions now st = (Ok l, st) ∧ s ∈ l).
Proof.
  intros Hout. unfold outbox_next_due, outbox_due_sessions. run_m. rewrite Hout.
  eexists. split; [reflexivity|]. cbv zeta.
  set (l := List.filter _ _). pose proof (oldest_spec l) as Ho.
  assert (Hl : ∀ r, r ∈ l ↔ (∃ p, outbox (db st) !! p = Some r) ∧ session_id r = s ∧
                            acked_at r = None ∧ (not_before r ≤ now)%Z).
  { intros r. unfold l, deliverable. rewrite elem_of_filterb, elem_of_values, !andb_true_iff,
      !bool_decide_eq_true. tauto. }
  split.
  - destruct (oldest l) as [r|].
    + destruct Ho as [Hin Hm]. split; [by apply Hl|]. intros r' Hr'. by apply Hm, Hl.
    + intros r Hr. apply Hl in Hr. rewrite Ho in Hr. by apply not_elem_of_nil in Hr.
  - split.
    + intros [r Er]. rewrite Er in Ho. destruct Ho as [Hin _]. eexists. split; [done|].
      rewrite elem_of_dedup, merge_sort_Permutation, list_elem_of_fmap. apply Hl in Hin.
      destruct Hin as (Hp&Hs&Ha&Hn). exists r. split; [done|].
      apply elem_of_filterb. rewrite elem_of_values. split; [done|].
      unfold deliverable. by rewrite !bool_decide_eq_true_2.
    + intros (l'&Heq&Hin). injection Heq as <-.
      rewrite elem_of_dedup, merge_sort_Permutation, list_elem_of_fmap in Hin.
      destruct Hin as (r&->&[Hin%elem_of_values Hd]%elem_of_filterb).
      unfold deliverable in Hd. bool_prop.
      assert (Hr : r ∈ l) by by apply Hl. destruct (oldest l); [by eexists|].
      rewrite Ho in Hr. by apply not_elem_of_nil in Hr.
Qed.

(** ** Concrete runs *)

Definition row (p : string) (s : SessionId) (at_ : DateTime) : OutboxRow.t :=
  OutboxRow.Mk p s Prompt (JObj [("text"%string, JStr p)]) at_ 0 at_ None None.

Definition demo : list call :=
  [CEnqueue (row "b" 1 20); CEnqueue (row "a" 1 10); CDelivered "a" 50 12; CAck "b" 30].

Lemma outbox_durable_witness :
  let cs := [CDelivered "a" 50 12; CUpdateText "a" "new"; CAck "a" 30; CDelete "b"; CDefer "a" 9 40] in
  ∃ r', outbox (db (exec_all cs (exec_all [CEnqueue (row "a" 1 10)] (Store_new None)))) !! "a"%string = Some r' ∧
        evolves (Exists (edits "a") cs) (row "a" 1 10) r'.
Proof.
  intros cs. destruct (outbox_durable cs (exec_all [CEnqueue (row "a" 1 10)] (Store_new None)) "a" (row "a" 1 10))
    as [H|[H _]]; [vm_compute; reflexivity|exact H|].
  exfalso. unfold cs, withdraws in H. rewrite !Exists_cons, Exists_nil in H. destruct H as [|[|[|[|[|]]]]]; done.
Defined.

Lemma outbox_next_due_oldest_witness :
  (outbox_next_due 1 25 (exec_all (take 2 demo) (Store_new None))).1 = Ok (Some (row "a" 1 10)) ∧
  ∃ o, outbox_next_due 1 25 (exec_all (take 2 demo) (Store_new None))
       = (Ok o, exec_all (take 2 demo) (Store_new None)).
Proof.
  split; [vm_compute; reflexivity|].
  destruct (outbox_next_due_oldest 1 25 (exec_all (take 2 demo) (Store_new None)))
    as (o&Ho&_); [vm_compute; reflexivity|]. exists o. exact Ho.
Defined.

End MetaOutbox.
