(* ===== verification/MetaStep.v ===== *)
(** * The metadata store as a transition system

    Every modelled method of the store but the two deletes decomposes into a
    few primitive writes ([prim]); the invariants of the database are proved by rule induction on
    those.  The primitives say what a transaction may do to a session row, the
    event log, the transition log, the op log, a teleport and a host. *)

From S2P Require Import Prelude Session Teleport OpLogSpec MetaTypes MetaOps.
From Stdlib Require Import QArith.

(** The event list of a session; a missing entry is an empty list. *)
Definition events_of (d : SimDb) (s : SessionId) : list PersistedEvent.t :=
  default [] (session_events d !! s).

(** ** What a write may do to a session row *)

(** Legal effects on one row: the id and the epoch stay, events take the next
    indices, and the status stays or follows an edge of the state machine. *)
Record row_step (s : SessionId) (r r' : SessRow.t) (evs : list PersistedEvent.t)
    (log : list TransitionLogEntry.t) : Prop := {
  rs_id : Session.id (SessRow.session r') = Session.id (SessRow.session r);
  rs_epoch : SessRow.current_epoch r' = SessRow.current_epoch r;
  rs_binding : (SessRow.binding_epoch r ≤ SessRow.binding_epoch r')%Z;
  rs_idx : SessRow.next_event_idx r' = (SessRow.next_event_idx r + Z.of_nat (length evs))%Z;
  rs_evs : PersistedEvent.idx <$> evs = seqZ (SessRow.next_event_idx r) (Z.of_nat (length evs));
  rs_status : SessRow.status r' = SessRow.status r ∨
              can_transition_to (SessRow.status r) (SessRow.status r') = true;
  rs_log : ∀ e, e ∈ log → e = TransitionLogEntry.Mk s (SessRow.status r) (SessRow.status r') false ∧
                can_transition_to (SessRow.status r) (SessRow.status r') = true;
}.

(** The tables a primitive leaves alone are listed field by field. *)
Record frame_but_sessions (d d' : SimDb) : Prop := {
  fs_serial : serial d' = serial d;
  fs_ops : session_ops d' = session_ops d;
  fs_teleports : teleports d' = teleports d;
  fs_hosts : hosts d' = hosts d;
}.

Inductive prim : SimDb → SimDb → Prop :=
| pr_session d d' s r r' evs log
    (Pold : sessions d !! s = Some r)
    (Prow : row_step s r r' evs log)
    (Pframe : frame_but_sessions d d')
    (Psess : sessions d' = <[s := r']> (sessions d))
    (Pevs : ∀ s', events_of d' s' = events_of d s' ++ (if decide (s' = s) then evs else []))
    (Plog : transition_log d' = transition_log d ++ log) :
    prim d d'
| pr_create d d' s r
    (Pold : sessions d !! s = None)
    (Pnoev : events_of d s = [])
    (Pnoop : ∀ i o, session_ops d !! i = Some o → OpRow.session_id o ≠ s)
    (Pstatus : SessRow.status r = Pending ∨ SessRow.status r = Queued)
    (Pid : Session.id (SessRow.session r) = s)
    (Pepoch : SessRow.current_epoch r = 0%Z)
    (Pidx : SessRow.next_event_idx r = 0%Z)
    (Pframe : frame_but_sessions d d')
    (Psess : sessions d' = <[s := r]> (sessions d))
    (Pevs : session_events d' = session_events d)
    (Plog : transition_log d' = transition_log d) :
    prim d d'
| pr_host_lost d d' h (lost : SessRow.t → bool) (f : SessRow.t → SessRow.t)
    (Plost : ∀ r, lost r = true →
       SessRow.host_id r = Some h ∧ is_terminal (SessRow.status r) = false)
    (Pf : ∀ r, f r = r ∨ (lost r = true ∧ SessRow.status (f r) = HostLost ∧
          Session.id (SessRow.session (f r)) = Session.id (SessRow.session r) ∧
          SessRow.current_epoch (f r) = SessRow.current_epoch r ∧
          SessRow.binding_epoch (f r) = SessRow.binding_epoch r ∧
          SessRow.next_event_idx (f r) = SessRow.next_event_idx r))
    (Pframe : frame_but_sessions d d')
    (Psess : sessions d' = f <$> sessions d)
    (Pevs : session_events d' = session_events d)
    (Plog : ∃ log, transition_log d' = transition_log d ++ log ∧
            ∀ e, e ∈ log → TransitionLogEntry.exempt e = true ∧
                           TransitionLogEntry.to e = HostLost) :
    prim d d'
| pr_ops d d'
    (Pref : MetaOps.refines d d')
    (Psess : ∀ s, match sessions d !! s, sessions d' !! s with
          | Some r, Some r' => (SessRow.current_epoch r ≤ SessRow.current_epoch r')%Z ∧
                               r' = r <| SessRow.current_epoch := SessRow.current_epoch r' |>
          | None, None => True
          | _, _ => False end)
    (Ptel : teleports d' = teleports d)
    (Phost : hosts d' = hosts d)
    (Pevs : session_events d' = session_events d)
    (Plog : transition_log d' = transition_log d) :
    prim d d'
| pr_teleport d d' t r'
    (Prow : match teleports d !! t with
    | Some r => TeleportRow.id r' = TeleportRow.id r ∧
        TeleportRow.session_id r' = TeleportRow.session_id r ∧
        TeleportRow.source_host_id r' = TeleportRow.source_host_id r ∧
        TeleportRow.source_sandbox_id r' = TeleportRow.source_sandbox_id r ∧
        TeleportRow.dest_host_id r' = TeleportRow.dest_host_id r ∧
        TeleportRow.is_open r = true ∧
        (TeleportPhase.can_transition_to (TeleportRow.phase r) (TeleportRow.phase r') = true ∨
         TeleportRow.phase r' = TeleportPhase.Failed)
    | None => TeleportRow.id r' = t ∧ TeleportRow.phase r' = TeleportPhase.Admitted_ ∧
        (∀ t0 r0, teleports d !! t0 = Some r0 →
           TeleportRow.session_id r0 = TeleportRow.session_id r' → TeleportRow.is_open r0 = false)
    end)
    (Pserial : serial d' = serial d)
    (Pops : session_ops d' = session_ops d)
    (Psess : sessions d' = sessions d)
    (Phost : hosts d' = hosts d)
    (Pevs : session_events d' = session_events d)
    (Plog : transition_log d' = transition_log d)
    (Ptel : teleports d' = <[t := r']> (teleports d)) :
    prim d d'
| pr_host d d' h r'
    (Pid : HostRecord.id r' = h)
    (Prow : match hosts d !! h with
     | Some r => HostRecord.status r = HostStatus.Retired →
         HostRecord.status r' = HostStatus.Retired ∧
         HostRecord.retired_at r' = HostRecord.retired_at r
     | None => HostRecord.retired_at r' = None end)
    (Pret : HostRecord.status r' = HostStatus.Retired ↔ is_Some (HostRecord.retired_at r'))
    (Pserial : serial d' = serial d)
    (Pops : session_ops d' = session_ops d)
    (Psess : sessions d' = sessions d)
    (Ptel : teleports d' = teleports d)
    (Pevs : session_events d' = session_events d)
    (Plog : transition_log d' = transition_log d)
    (Phost : hosts d' = <[h := r']> (hosts d)) :
    prim d d'
| pr_frame d d'
    (Pserial : serial d' = serial d)
    (Pops : session_ops d' = session_ops d)
    (Psess : sessions d' = sessions d)
    (Ptel : teleports d' = teleports d)
    (Phost : hosts d' = hosts d)
    (Plog : transition_log d' = transition_log d)
    (Pevs : ∀ s, events_of d' s = events_of d s) :
    prim d d'.

(** Deleting a pending row.  It is not a primitive: what the primitives never
    undo may be undone by a delete of that very session. *)
Record deletes (s : SessionId) (d d' : SimDb) : Prop := {
  dl_old : ∃ r, sessions d !! s = Some r ∧ SessRow.status r = Pending;
  dl_frame : frame_but_sessions d d';
  dl_sess : sessions d' = delete s (sessions d);
  dl_evs : session_events d' = session_events d;
  dl_log : transition_log d' = transition_log d;
}.

(** ** The invariant *)

Record minv (d : SimDb) : Prop := {
  mi_ops_wf : MetaOps.wf d;
  mi_ops : ainv (MetaOps.abs d);
  mi_sess_keyed : ∀ s r, sessions d !! s = Some r → Session.id (SessRow.session r) = s;
  mi_hosts_keyed : ∀ h r, hosts d !! h = Some r → HostRecord.id r = h;
  mi_tele_keyed : ∀ t r, teleports d !! t = Some r → TeleportRow.id r = t;
  mi_one_open : ∀ t1 t2 r1 r2, teleports d !! t1 = Some r1 → teleports d !! t2 = Some r2 →
    TeleportRow.session_id r1 = TeleportRow.session_id r2 →
    TeleportRow.is_open r1 = true → TeleportRow.is_open r2 = true → t1 = t2;
  mi_events : ∀ s r, sessions d !! s = Some r →
    (0 ≤ SessRow.next_event_idx r)%Z ∧
    PersistedEvent.idx <$> events_of d s = seqZ 0 (SessRow.next_event_idx r);
  mi_log : ∀ e, e ∈ transition_log d →
    if TransitionLogEntry.exempt e then TransitionLogEntry.to e = HostLost
    else can_transition_to (TransitionLogEntry.from e) (TransitionLogEntry.to e) = true;
  mi_retired : ∀ h r, hosts d !! h = Some r →
    HostRecord.status r = HostStatus.Retired ↔ is_Some (HostRecord.retired_at r);
}.

Lemma minv_init : minv SimDb_default.
Proof.
  assert (Hnil : ∀ e : TransitionLogEntry.t, e ∉ []) by (intros e; apply not_elem_of_nil).
  split; [split|apply ainv_empty|..]; cbn; intros *; rewrite ?lookup_empty; try done.
  intros He. by apply Hnil in He.
Qed.

(** ** Preservation *)

Lemma seqZ_extend n k : (0 ≤ n)%Z → (0 ≤ k)%Z → seqZ 0 n ++ seqZ n k = seqZ 0 (n + k).
Proof.
  intros Hn Hk. rewrite (seqZ_app 0 n k) by done. by rewrite Z.add_0_l.
Qed.

Lemma epochs_row d s r r' :
  sessions d !! s = Some r → SessRow.current_epoch r' = SessRow.current_epoch r →
  ∀ s', SessRow.current_epoch <$> <[s := r']> (sessions d) !! s' =
        SessRow.current_epoch <$> sessions d !! s'.
Proof.
  intros Hs He s'. rewrite lookup_insert. case_decide; subst; [|done].
  rewrite Hs. simpl. by rewrite He.
Qed.

Lemma ops_wf_sessions d d' :
  MetaOps.wf d → serial d' = serial d → session_ops d' = session_ops d →
  (∀ s r, sessions d' !! s = Some r → (0 ≤ SessRow.current_epoch r)%Z) → MetaOps.wf d'.
Proof. intros [Hid _] Hser Hops Hep. split; [|done]. by rewrite Hser, Hops. Qed.

Lemma minv_session d d' s r r' evs log :
  minv d → sessions d !! s = Some r → row_step s r r' evs log → frame_but_sessions d d' →
  sessions d' = <[s := r']> (sessions d) →
  (∀ s', events_of d' s' = events_of d s' ++ (if decide (s' = s) then evs else [])) →
  transition_log d' = transition_log d ++ log →
  minv d'.
Proof.
  intros Hinv Hs Hrow [Fser Fops Ftel Fhost] Hsess Hev Hlog. split.
  - eapply ops_wf_sessions; [apply Hinv|done..|]. rewrite Hsess. intros s' x.
    rewrite lookup_insert_Some. intros [[<- <-]|[_ Hx]].
    + rewrite (rs_epoch _ _ _ _ _ Hrow). by eapply (MetaOps.wf_epoch _ (mi_ops_wf _ Hinv)).
    + by eapply (MetaOps.wf_epoch _ (mi_ops_wf _ Hinv)).
  - rewrite (MetaOps.abs_ext d d'); [apply Hinv|done|]. rewrite Hsess.
    eapply epochs_row; [done|]. apply Hrow.
  - rewrite Hsess. intros s' x. rewrite lookup_insert_Some. intros [[<- <-]|[_ Hx]].
    + rewrite (rs_id _ _ _ _ _ Hrow). by apply Hinv.
    + by apply Hinv.
  - rewrite Fhost. apply Hinv.
  - rewrite Ftel. apply Hinv.
  - rewrite Ftel. apply Hinv.
  - rewrite Hsess. intros s' x. rewrite lookup_insert_Some, Hev. intros [[<- <-]|[Hne Hx]].
    + destruct (mi_events _ Hinv _ _ Hs) as [Hpos Hidx]. rewrite decide_True by done.
      rewrite (rs_idx _ _ _ _ _ Hrow), fmap_app, Hidx, (rs_evs _ _ _ _ _ Hrow).
      split; [lia|]. apply seqZ_extend; lia.
    + rewrite decide_False by done. rewrite app_nil_r. by apply Hinv.
  - rewrite Hlog. intros e [He|He]%elem_of_app; [by apply Hinv|].
    by destruct (rs_log _ _ _ _ _ Hrow e He) as [-> ?].
  - rewrite Fhost. apply Hinv.
Qed.

Lemma minv_create d d' s r :
  minv d → sessions d !! s = None → events_of d s = [] →
  (∀ i o, session_ops d !! i = Some o → OpRow.session_id o ≠ s) →
  Session.id (SessRow.session r) = s → SessRow.current_epoch r = 0%Z →
  SessRow.next_event_idx r = 0%Z →
  frame_but_sessions d d' → sessions d' = <[s := r]> (sessions d) →
  session_events d' = session_events d → transition_log d' = transition_log d → minv d'.
Proof.
  intros Hinv Hs Hev Hfresh Hid Hep Hidx [Fser Fops Ftel Fhost] Hsess Hevs Hlog.
  assert (Hev' : ∀ s', events_of d' s' = events_of d s') by (intros; unfold events_of; by rewrite Hevs).
  split; rewrite ?Ftel, ?Fhost, ?Hlog; try apply Hinv.
  - eapply ops_wf_sessions; [apply Hinv|done..|]. rewrite Hsess. intros s' x.
    rewrite lookup_insert_Some. intros [[<- <-]|[_ Hx]]; [lia|].
    by eapply (MetaOps.wf_epoch _ (mi_ops_wf _ Hinv)).
  - assert (Habs : MetaOps.abs d' = MetaOps.abs d); [|rewrite Habs; apply Hinv].
    apply MetaOps.abs_eq.
    + intros i o'. rewrite !MetaOps.lookup_abs, Fops, Hsess.
      apply exist_proper. intros o. split; intros (Ho&Hl&He); (split; [done|]); (split; [|done]).
      * rewrite lookup_insert_ne in Hl by (apply not_eq_sym; by eapply Hfresh). done.
      * rewrite lookup_insert_ne by (apply not_eq_sym; by eapply Hfresh). done.
    + intros s'. simpl. rewrite Hsess, !lookup_omap, lookup_insert. case_decide; subst; [|done].
      rewrite Hs. simpl. unfold MetaOps.epoch_entry. by rewrite Hep.
  - rewrite Hsess. intros s' x. rewrite lookup_insert_Some. intros [[<- <-]|[_ Hx]]; [done|].
    by apply Hinv.
  - rewrite Hsess. intros s' x. rewrite lookup_insert_Some, Hev'. intros [[<- <-]|[Hne Hx]].
    + by rewrite Hev, Hidx.
    + by apply Hinv.
Qed.

Lemma minv_delete d d' s : minv d → deletes s d d' → minv d'.
Proof.
  intros Hinv [_ [Fser Fops Ftel Fhost] Hsess Hevs Hlog].
  split; rewrite ?Ftel, ?Fhost, ?Hlog; try apply Hinv.
  - eapply ops_wf_sessions; [apply Hinv|done..|]. rewrite Hsess. intros s' x [_ Hx]%lookup_delete_Some.
    by eapply (MetaOps.wf_epoch _ (mi_ops_wf _ Hinv)).
  - assert (Habs : MetaOps.abs d' = purge s (MetaOps.abs d)); [|rewrite Habs; apply ainv_purge, Hinv].
    apply MetaOps.abs_eq.
    + intros i o'. rewrite MetaOps.lookup_abs, Fops, Hsess. unfold purge.
      change (a_ops (ALog ?x ?y)) with x.
      rewrite map_lookup_filter_Some, MetaOps.lookup_abs. split.
      * intros (o&Ho&[x Hx]&<-). apply lookup_delete_Some in Hx as [Hne Hx].
        split; [eauto|]. simpl. congruence.
      * intros [(o&Ho&Hl&<-) Hne]. simpl in Hne. exists o. split; [done|].
        split; [|done]. by rewrite lookup_delete_ne by congruence.
    + intros s'. simpl. rewrite Hsess, lookup_omap, !lookup_delete. case_decide; [done|].
      by rewrite lookup_omap.
  - rewrite Hsess. intros s' x [_ Hx]%lookup_delete_Some. by apply Hinv.
  - rewrite Hsess. intros s' x [_ Hx]%lookup_delete_Some. unfold events_of. rewrite Hevs.
    by apply Hinv.
Qed.

Lemma minv_host_lost d d' (f : SessRow.t → SessRow.t) :
  minv d →
  (∀ r, Session.id (SessRow.session (f r)) = Session.id (SessRow.session r) ∧
        SessRow.current_epoch (f r) = SessRow.current_epoch r ∧
        SessRow.next_event_idx (f r) = SessRow.next_event_idx r) →
  frame_but_sessions d d' → sessions d' = f <$> sessions d →
  session_events d' = session_events d →
  (∃ log, transition_log d' = transition_log d ++ log ∧
          ∀ e, e ∈ log → TransitionLogEntry.exempt e = true ∧
                         TransitionLogEntry.to e = HostLost) →
  minv d'.
Proof.
  intros Hinv Hf [Fser Fops Ftel Fhost] Hsess Hevs (log&Hlog&Hex).
  assert (Hrow : ∀ s x, sessions d' !! s = Some x → ∃ x0, x = f x0 ∧ sessions d !! s = Some x0).
  { rewrite Hsess. intros s x (x0&<-&Hx)%lookup_fmap_Some. eauto. }
  split; rewrite ?Ftel, ?Fhost; try apply Hinv.
  - eapply ops_wf_sessions; [apply Hinv|done..|]. intros s x (x0&->&Hx)%Hrow.
    destruct (Hf x0) as (_&->&_). by eapply (MetaOps.wf_epoch _ (mi_ops_wf _ Hinv)).
  - rewrite (MetaOps.abs_ext d d'); [apply Hinv|done|]. intros s. rewrite Hsess, lookup_fmap.
    destruct (sessions d !! s) as [x|]; [|done]. simpl. by destruct (Hf x) as (_&->&_).
  - intros s x (x0&->&Hx)%Hrow. destruct (Hf x0) as (->&_&_). by apply Hinv.
  - intros s x (x0&->&Hx)%Hrow. destruct (Hf x0) as (_&_&->). unfold events_of.
    rewrite Hevs. by apply Hinv.
  - rewrite Hlog. intros e [He|He]%elem_of_app; [by apply Hinv|].
    by destruct (Hex e He) as [-> ?].
Qed.

Lemma minv_ops d d' :
  minv d → MetaOps.refines d d' →
  (∀ s, match sessions d !! s, sessions d' !! s with
        | Some r, Some r' => (SessRow.current_epoch r ≤ SessRow.current_epoch r')%Z ∧
                             r' = r <| SessRow.current_epoch := SessRow.current_epoch r' |>
        | None, None => True
        | _, _ => False end) →
  teleports d' = teleports d → hosts d' = hosts d → session_events d' = session_events d →
  transition_log d' = transition_log d → minv d'.
Proof.
  intros Hinv [Hwf Hsteps] Hs Ftel Fhost Hevs Hlog.
  assert (Hrow : ∀ s r', sessions d' !! s = Some r' → ∃ r, sessions d !! s = Some r ∧
     SessRow.session r' = SessRow.session r ∧
     SessRow.next_event_idx r' = SessRow.next_event_idx r).
  { intros s r' Hr'. specialize (Hs s). rewrite Hr' in Hs.
    destruct (sessions d !! s) as [r|]; [|done]. destruct Hs as [_ ->]. eauto. }
  split; rewrite ?Ftel, ?Fhost, ?Hlog; try apply Hinv.
  - done.
  - eapply asteps_inv; [apply Hinv|done].
  - intros s r' (r&Hr&->&_)%Hrow. by apply Hinv.
  - intros s r' (r&Hr&_&->)%Hrow. unfold events_of. rewrite Hevs. by apply Hinv.
Qed.

Lemma minv_same d d' :
  minv d → serial d' = serial d → session_ops d' = session_ops d → sessions d' = sessions d →
  transition_log d' = transition_log d → (∀ s, events_of d' s = events_of d s) →
  (∀ t r, teleports d' !! t = Some r → TeleportRow.id r = t) →
  (∀ t1 t2 r1 r2, teleports d' !! t1 = Some r1 → teleports d' !! t2 = Some r2 →
     TeleportRow.session_id r1 = TeleportRow.session_id r2 →
     TeleportRow.is_open r1 = true → TeleportRow.is_open r2 = true → t1 = t2) →
  (∀ h r, hosts d' !! h = Some r → HostRecord.id r = h ∧
     (HostRecord.status r = HostStatus.Retired ↔ is_Some (HostRecord.retired_at r))) →
  minv d'.
Proof.
  intros Hinv Hser Hops Hsess Hlog Hev Htk Hto Hh.
  split; rewrite ?Hsess, ?Hlog; try apply Hinv; try done.
  - eapply ops_wf_sessions; [apply Hinv|done..|]. rewrite Hsess.
    apply (MetaOps.wf_epoch _ (mi_ops_wf _ Hinv)).
  - rewrite (MetaOps.abs_ext d d'); [apply Hinv|done|]. by rewrite Hsess.
  - intros h r Hr. by destruct (Hh h r Hr).
  - intros s r Hr. rewrite Hev. by apply Hinv.
  - intros h r Hr. by destruct (Hh h r Hr).
Qed.

Lemma open_terminal r : TeleportRow.is_open r = true ↔ TeleportPhase.is_terminal (TeleportRow.phase r) = false.
Proof. unfold TeleportRow.is_open. by rewrite negb_true_iff. Qed.

Lemma prim_inv d d' : minv d → prim d d' → minv d'.
Proof.
  intros Hinv Hp.
  assert (Hh : ∀ h r, hosts d !! h = Some r → HostRecord.id r = h ∧
     (HostRecord.status r = HostStatus.Retired ↔ is_Some (HostRecord.retired_at r)))
    by (intros h r Hr; split; [by eapply mi_hosts_keyed|by eapply mi_retired]).
  assert (Htel : ∀ d', teleports d' = teleports d →
    (∀ t r, teleports d' !! t = Some r → TeleportRow.id r = t) ∧
    (∀ t1 t2 r1 r2, teleports d' !! t1 = Some r1 → teleports d' !! t2 = Some r2 →
     TeleportRow.session_id r1 = TeleportRow.session_id r2 →
     TeleportRow.is_open r1 = true → TeleportRow.is_open r2 = true → t1 = t2))
    by (intros ? ->; split; apply Hinv).
  destruct Hp.
  - by eapply minv_session.
  - by eapply minv_create.
  - apply (minv_host_lost d d' f); try done.
    intros r. destruct (Pf r) as [->|(_&_&?&?&_&?)]; done.
  - by eapply minv_ops.
  - eapply (minv_same d d'); try done.
    + intros s. unfold events_of. by rewrite Pevs.
    + rewrite Ptel. intros t0 r0. rewrite lookup_insert_Some.
      intros [[<- <-]|[_ Hr]]; [|by apply Hinv].
      destruct (teleports d !! t) as [r|] eqn:Et; destruct_and?; [|done].
      by rewrite <- (mi_tele_keyed _ Hinv _ _ Et).
    + rewrite Ptel. intros t1 t2 r1 r2. rewrite !lookup_insert_Some.
      assert (Hc : ∀ t0 r0, t ≠ t0 → teleports d !! t0 = Some r0 →
        TeleportRow.session_id r0 = TeleportRow.session_id r' →
        TeleportRow.is_open r0 = true → False).
      { intros t0 r0 Hne Hr0 Hs Ho. destruct (teleports d !! t) as [r|] eqn:Et.
        - destruct Prow as (_&Hsid&_&_&_&Hopen&_). apply Hne.
          eapply (mi_one_open _ Hinv); eauto; congruence.
        - destruct Prow as (_&_&Hno). by rewrite (Hno _ _ Hr0 Hs) in Ho. }
      intros [[<- <-]|[? H1']] [[<- <-]|[? H2']] Hs Ho1 Ho2; try done.
      * exfalso. eapply Hc; eauto.
      * exfalso. eapply Hc; eauto.
      * by eapply (mi_one_open _ Hinv).
    + by rewrite Phost.
  - destruct (Htel d' Ptel). eapply (minv_same d d'); try done.
    + intros s. unfold events_of. by rewrite Pevs.
    + rewrite Phost. intros h0 r0. rewrite lookup_insert_Some.
      intros [[<- <-]|[_ Hr]]; [done|]. by apply Hh.
  - destruct (Htel d' Ptel). eapply (minv_same d d'); try done. by rewrite Phost.
Qed.

Lemma prims_inv d d' : minv d → rtc prim d d' → minv d'.
Proof. intros Hi. induction 1; eauto using prim_inv. Qed.

(** ** What no transaction undoes *)

(** A terminal session keeps its status, and its row, for ever. *)
Lemma prim_terminal d d' s r :
  prim d d' → sessions d !! s = Some r → is_terminal (SessRow.status r) = true →
  ∃ r', sessions d' !! s = Some r' ∧ SessRow.status r' = SessRow.status r.
Proof.
  intros Hp Hs Ht. destruct Hp.
  - rewrite Psess, lookup_insert. case_decide; subst; [|eauto]. simplify_eq.
    eexists; split; [done|]. destruct (rs_status _ _ _ _ _ Prow) as [|He]; [done|].
    by rewrite session_terminal_no_edge in He.
  - rewrite Psess, lookup_insert. case_decide; subst; [congruence|eauto].
  - rewrite Psess, lookup_fmap, Hs. simpl. eexists; split; [done|].
    destruct (Pf r) as [->|(Hl&_)]; [done|]. destruct (Plost r Hl). congruence.
  - specialize (Psess s). rewrite Hs in Psess. destruct (sessions d' !! s) as [r'|]; [|done].
    destruct Psess as [_ ->]. eauto.
  - rewrite Psess. eauto.
  - rewrite Psess. eauto.
  - rewrite Psess. eauto.
Qed.

Lemma prims_terminal d d' s r :
  rtc prim d d' → sessions d !! s = Some r → is_terminal (SessRow.status r) = true →
  ∃ r', sessions d' !! s = Some r' ∧ SessRow.status r' = SessRow.status r.
Proof.
  intros Hp. revert r. induction Hp as [|d d1 d2 H1 _ IH]; intros r Hs Ht; [eauto|].
  destruct (prim_terminal _ _ _ _ H1 Hs Ht) as (r1&Hs1&E1).
  destruct (IH r1 Hs1) as (r2&?&E2); [congruence|]. exists r2. split; [done|congruence].
Qed.

(** A retired host stays retired. *)
Lemma prim_retired d d' h r :
  prim d d' → hosts d !! h = Some r → HostRecord.status r = HostStatus.Retired →
  ∃ r', hosts d' !! h = Some r' ∧ HostRecord.status r' = HostStatus.Retired ∧
        HostRecord.retired_at r' = HostRecord.retired_at r.
Proof.
  intros Hp Hh Hr. destruct Hp; try destruct Pframe; try (rewrite Phost || rewrite fs_hosts0);
    try by eauto.
  rewrite lookup_insert. case_decide; subst; [|eauto]. rewrite Hh in Prow.
  destruct (Prow Hr) as (?&?). eauto.
Qed.

Lemma prims_retired d d' h r :
  rtc prim d d' → hosts d !! h = Some r → HostRecord.status r = HostStatus.Retired →
  ∃ r', hosts d' !! h = Some r' ∧ HostRecord.status r' = HostStatus.Retired ∧
        HostRecord.retired_at r' = HostRecord.retired_at r.
Proof.
  intros Hp. revert r. induction Hp as [|d d1 d2 H1 _ IH]; intros r Hh Hr; [eauto|].
  destruct (prim_retired _ _ _ _ H1 Hh Hr) as (r1&Hh1&Hr1&E1).
  destruct (IH r1 Hh1 Hr1) as (r2&?&?&E2). exists r2. repeat split; try done. congruence.
Qed.

(** No primitive removes a session row; its fencing and binding epochs only
    grow. *)
Lemma prim_epoch_mono d d' s r :
  prim d d' → sessions d !! s = Some r →
  ∃ r', sessions d' !! s = Some r' ∧
    (SessRow.current_epoch r ≤ SessRow.current_epoch r' ∧
     SessRow.binding_epoch r ≤ SessRow.binding_epoch r')%Z.
Proof.
  intros Hp Hs. destruct Hp.
  - rewrite Psess, lookup_insert. case_decide; simplify_eq; [|eauto with lia].
    eexists; split; [done|]. rewrite (rs_epoch _ _ _ _ _ Prow).
    pose proof (rs_binding _ _ _ _ _ Prow). lia.
  - rewrite Psess, lookup_insert. case_decide; simplify_eq. eauto with lia.
  - rewrite Psess, lookup_fmap, Hs. eexists; split; [done|].
    destruct (Pf r) as [->|(_&_&_&->&->&_)]; lia.
  - specialize (Psess s). rewrite Hs in Psess. destruct (sessions d' !! s) as [r'|]; [|done].
    destruct Psess as [? Heq]. eexists; split; [done|]. split; [done|].
    rewrite Heq. simpl. lia.
  - rewrite Psess. eauto with lia.
  - rewrite Psess. eauto with lia.
  - rewrite Psess. eauto with lia.
Qed.

Lemma prims_epoch_mono d d' s r :
  rtc prim d d' → sessions d !! s = Some r →
  ∃ r', sessions d' !! s = Some r' ∧
    (SessRow.current_epoch r ≤ SessRow.current_epoch r' ∧
     SessRow.binding_epoch r ≤ SessRow.binding_epoch r')%Z.
Proof.
  intros Hp. revert r. induction Hp as [|d d1 d2 H1 _ IH]; intros r Hs; [eauto with lia|].
  destruct (prim_epoch_mono _ _ _ _ H1 Hs) as (r1&Hs1&?).
  destruct (IH r1 Hs1) as (r2&?&?). exists r2. split; [done|lia].
Qed.

(** A teleport row keeps its session. *)
Lemma prim_tele_session d d' t r :
  prim d d' → teleports d !! t = Some r →
  ∃ r', teleports d' !! t = Some r' ∧ TeleportRow.session_id r' = TeleportRow.session_id r.
Proof.
  intros Hp Ht. destruct Hp; try destruct Pframe; try (rewrite Ptel || rewrite fs_teleports0);
    try by eauto.
  rewrite lookup_insert. case_decide; subst; [|eauto]. rewrite Ht in Prow.
  destruct Prow as (_&?&_). eauto.
Qed.

(** Event logs are append-only. *)
Lemma prim_events_prefix d d' s :
  prim d d' → events_of d s `prefix_of` events_of d' s.
Proof.
  destruct 1; try (rewrite Pevs; by first [done|eexists]); unfold events_of; by rewrite Pevs.
Qed.

Create HintDb meta.
#[export] Hint Resolve minv_init prim_inv prims_inv : meta.
