(* ===== verification/MetaCalls.v ===== *)
(** * The store's methods as transitions

    One constructor per modelled state-changing method of the store but
    [delete_host] ([HostProps]), and the proof that each call but the delete of a
    pending session is a sequence of primitive writes.  The invariants and the
    "never undone" facts of [MetaStep] then hold for every interleaving of
    these calls.  What is not among them is listed in the header of the
    development. *)

From S2P Require Import Prelude Session Teleport OpLogSpec MetaTypes Placement MetaOps.
From S2P Require Import MetaSession MetaTeleport MetaHost MetaOutbox MetaStep.
From Stdlib Require Import QArith.

Inductive call : Type :=
(* session ops *)
| OpEnqueue (s : SessionId) (k : OpKind) (p : json) (key : option string) (by_ : string) (now : DateTime)
| OpExclusive (s : SessionId) (k : OpKind) (p : json) (by_ : string) (now : DateTime)
| OpClaimHead (s : SessionId) (by_ : string) (now : DateTime)
| OpRecordStep (i e : Z) (stp : string) (now : DateTime)
| OpHeartbeat (i e : Z) (now : DateTime)
| OpFinish (i e : Z) (final : OpState.t) (err : option string) (now : DateTime)
| OpRequeue (i e : Z) (backoff : Duration) (err : string) (now : DateTime)
| OpCancelQueued (s : SessionId) (k : OpKind) (now : DateTime)
| OpWake (s : SessionId) (k : OpKind) (now : DateTime)
| OpRequestCancel (s : SessionId) (k : OpKind)
| OpCancelById (i : Z) (now : DateTime)
| OpReclaim (stale : Duration) (by_ : string) (now : DateTime)
(* sessions *)
| CreateSession (id : SessionId) (sp : SessionSpec) (now : DateTime)
| TransitionCreated (id : SessionId) (sb : SandboxId) (now : DateTime)
| ReserveCreate (ws : SessionCreateWriteSet.t) (cand : list HostId) (aff : nat) (now : DateTime)
| DeletePending (id : SessionId)
| TransitionSession (id : SessionId) (target : SessionState) (disp : BindingDisposition) (now : DateTime)
| TerminateSession (id : SessionId) (now : DateTime)
| AssignHost (id : SessionId) (h : option HostId) (now : DateTime)
| EnqueueResume (id : SessionId) (e : Z) (now : DateTime)
| PlaceQueued (id : SessionId) (mem cpu : Z) (cand : list HostId) (aff : nat) (now : DateTime)
| Strikes (present missing : list SessionId) (grace : Z)
| ShellPin (id : SessionId) (until : DateTime)
| SetParkRung (id : SessionId) (rung : Z) (parked : option DateTime)
| FencedParkRung (id : SessionId) (e rung : Z) (parked : option DateTime)
| FencedTransition (id : SessionId) (e : Z) (to : SessionState) (disp : BindingDisposition) (now : DateTime)
| FencedTransitionEvents (id : SessionId) (e : Z) (to : SessionState) (disp : BindingDisposition)
    (events : list (string * json)) (now : DateTime)
| FencedAssign (id : SessionId) (e : Z) (sb : option SandboxId) (h : option HostId) (now : DateTime)
| AssignGuarded (id : SessionId) (sb : option SandboxId) (expected : option (option SandboxId))
    (allowed : list SessionState) (now : DateTime)
| AssignHostGuarded (id : SessionId) (h : option HostId) (expected : option (option SandboxId))
    (allowed : list SessionState) (now : DateTime)
| Rebind (id : SessionId) (h : HostId) (sb : SandboxId) (expected : option (option SandboxId))
    (allowed : list SessionState) (now : DateTime)
| TouchActivity (id : SessionId) (now : DateTime)
| BumpEvict (id : SessionId)
| SettleEvicted (id : SessionId) (sb : SandboxId) (row_recoverable : bool) (events : list (string * json))
    (now : DateTime)
| AppendEvent (id : SessionId) (kind : string) (payload : json) (now : DateTime)
| AppendFenced (id : SessionId) (e : Z) (kind : string) (payload : json) (now : DateTime)
| AppendIdempotent (id : SessionId) (key kind : string) (payload : json) (now : DateTime)
| SettleHarness (id : SessionId) (epoch : Z) (continued : list string) (now : DateTime)
(* teleports *)
| TeleportAdmit (req : TeleportAdmitRequest.t) (now : DateTime)
| TeleportAdvance (t : TeleportId) (from to : TeleportPhase.t) (patch : TeleportPatch.t) (e : Z) (now : DateTime)
| TeleportCommit (t : TeleportId) (e : Z) (now : DateTime)
| TeleportRelease (t : TeleportId) (e : Z) (how : SourceRelease) (now : DateTime)
| TeleportSettleC (t : TeleportId) (e : Z) (settle : TeleportSettle.t) (now : DateTime)
| TeleportAbort (t : TeleportId) (e : Z) (now : DateTime)
(* hosts *)
| UpsertHost (h : HostRecord.t)
| RequestRetirement (h : HostId) (o : CordonOwner) (reason : string) (now : DateTime)
| CancelRetirement (h : HostId) (o : CordonOwner)
| GrantRetirement (h : HostId) (now : DateTime)
| SetHostStatus (h : HostId) (s : HostStatus.t)
| Heartbeat (h : HostId) (hb : HostHeartbeat.t) (now : DateTime)
| BeginHandoff (h : HostId) (until : DateTime)
| RenewLease (h : HostId) (until : DateTime)
| SetCordon (h : HostId) (o : option CordonOwner) (reason : option string)
| MarkDead (h : HostId) (now : DateTime)
| RecordTombstone (h : HostId) (sb : SandboxId) (sid : option SessionId) (now : DateTime)
| Entomb (h : HostId) (running : list SandboxId) (grace : Z) (now : DateTime)
| AckTombstones (h : HostId) (running : list SandboxId)
| AcquireDeadLease (h : HostId) (claimant : string) (stale_after : Duration) (now : DateTime)
| ReleaseDeadLease (h : HostId) (claimant : string)
(* outbox *)
| Outbox (c : MetaOutbox.call)
(* the fault hook [set_outage] *)
| SetOutage (on : bool).

Definition exec (c : call) (st : Store) : Store :=
  match c with
  | OpEnqueue s k p key by_ now => (MetaOps.op_enqueue_and_claim s k p key by_ now st).2
  | OpExclusive s k p by_ now => (MetaOps.op_enqueue_and_claim_exclusive s k p by_ now st).2
  | OpClaimHead s by_ now => (MetaOps.op_claim_head s by_ now st).2
  | OpRecordStep i e stp now => (MetaOps.op_record_step i e stp now st).2
  | OpHeartbeat i e now => (MetaOps.op_heartbeat i e now st).2
  | OpFinish i e final err now => (MetaOps.op_finish i e final err now st).2
  | OpRequeue i e b err now => (MetaOps.op_requeue_with_backoff i e b err now st).2
  | OpCancelQueued s k now => (MetaOps.op_cancel_queued s k now st).2
  | OpWake s k now => (MetaOps.op_wake_queued_kind s k now st).2
  | OpRequestCancel s k => (MetaOps.op_request_cancel_running s k st).2
  | OpCancelById i now => (MetaOps.op_cancel_by_id i now st).2
  | OpReclaim stale by_ now => (MetaOps.op_reclaim_stale stale by_ now st).2
  | CreateSession id sp now => (MetaSession.create_session id sp now st).2
  | TransitionCreated id sb now => (MetaSession.transition_session_created id sb now st).2
  | ReserveCreate ws cand aff now =>
      (MetaSession.reserve_and_persist_create ws cand aff now st).2
  | DeletePending id => (MetaSession.delete_pending_session id st).2
  | TransitionSession id t disp now => (MetaSession.transition_session id t disp now st).2
  | TerminateSession id now => (MetaSession.terminate_session id now st).2
  | AssignHost id h now => (MetaSession.assign_session_host id h now st).2
  | EnqueueResume id e now => (MetaSession.enqueue_session_resume id e now st).2
  | PlaceQueued id mem cpu cand aff now =>
      (MetaSession.place_queued_session id mem cpu cand aff now st).2
  | Strikes present missing grace =>
      (MetaSession.apply_missing_sandbox_strikes present missing grace st).2
  | ShellPin id until => (MetaSession.stamp_shell_pin id until st).2
  | SetParkRung id rung parked => (MetaSession.set_session_park_rung id rung parked st).2
  | FencedParkRung id e rung parked =>
      (MetaSession.fenced_set_session_park_rung id e rung parked st).2
  | FencedTransition id e to disp now =>
      (MetaSession.fenced_transition_session id e to disp now st).2
  | FencedTransitionEvents id e to disp events now =>
      (MetaSession.fenced_transition_session_with_events id e to disp events now st).2
  | FencedAssign id e sb h now => (MetaSession.fenced_assign_sandbox id e sb h now st).2
  | AssignGuarded id sb expected allowed now =>
      (MetaSession.assign_session_sandbox_guarded id sb expected allowed now st).2
  | AssignHostGuarded id h expected allowed now =>
      (MetaSession.assign_session_host_guarded id h expected allowed now st).2
  | Rebind id h sb expected allowed now =>
      (MetaSession.rebind_session_guarded id h sb expected allowed now st).2
  | TouchActivity id now => (MetaSession.touch_session_activity id now st).2
  | BumpEvict id => (MetaSession.bump_evict_attempts id st).2
  | SettleEvicted id sb ok events now =>
      (MetaSession.settle_evicted_session_idle id sb ok events now st).2
  | AppendEvent id kind p now => (MetaSession.append_session_event id kind p now st).2
  | AppendFenced id e kind p now => (MetaSession.append_session_event_fenced id e kind p now st).2
  | AppendIdempotent id key kind p now =>
      (MetaSession.append_session_event_idempotent id key kind p now st).2
  | SettleHarness id e continued now => (MetaSession.settle_harness_generation id e continued now st).2
  | TeleportAdmit req now => (MetaTeleport.teleport_admit req now st).2
  | TeleportAdvance t from to patch e now =>
      (MetaTeleport.teleport_advance t from to patch e now st).2
  | TeleportCommit t e now => (MetaTeleport.teleport_commit t e now st).2
  | TeleportRelease t e how now => (MetaTeleport.teleport_release_source t e how now st).2
  | TeleportSettleC t e settle now => (MetaTeleport.teleport_settle t e settle now st).2
  | TeleportAbort t e now => (MetaTeleport.teleport_abort t e now st).2
  | UpsertHost h => (MetaHost.upsert_host h st).2
  | RequestRetirement h o reason now => (MetaHost.request_host_retirement h o reason now st).2
  | CancelRetirement h o => (MetaHost.cancel_host_retirement h o st).2
  | GrantRetirement h now => (MetaHost.grant_host_retirement h now st).2
  | SetHostStatus h s => (MetaHost.set_host_status h s st).2
  | Heartbeat h hb now => (MetaHost.touch_host_heartbeat h hb now st).2
  | BeginHandoff h until => (MetaHost.begin_host_handoff h until st).2
  | RenewLease h until => (MetaHost.renew_host_lease h until st).2
  | SetCordon h o reason => (MetaHost.set_host_cordon h o reason st).2
  | MarkDead h now => (MetaHost.mark_host_dead_if_lease_expired h now st).2
  | RecordTombstone h sb sid now => (MetaHost.record_sandbox_tombstone h sb sid now st).2
  | Entomb h running grace now => (MetaHost.entomb_stably_unbound h running grace now st).2
  | AckTombstones h running => (MetaHost.ack_sandbox_tombstones_by_absence h running st).2
  | AcquireDeadLease h claimant stale now =>
      (MetaHost.try_acquire_dead_host_lease h claimant stale now st).2
  | ReleaseDeadLease h claimant => (MetaHost.release_dead_host_lease h claimant st).2
  | Outbox c => MetaOutbox.exec c st
  | SetOutage on => st <| outage := on |>
  end.

(** A session id that was never used: no row, no events, no ops. *)
Definition fresh_session (d : SimDb) (s : SessionId) : Prop :=
  sessions d !! s = None ∧ events_of d s = [] ∧
  ∀ i o, session_ops d !! i = Some o → OpRow.session_id o ≠ s.

(** What callers guarantee: session ids are fresh UUIDs, an op finishes in a
    final state, and nobody but a retirement grant reports a host retired. *)
Definition call_ok (c : call) (st : Store) : Prop :=
  match c with
  | OpFinish _ _ final _ _ => OpState.active final = false
  | CreateSession id _ _ => fresh_session (db st) id
  | ReserveCreate ws _ _ _ => fresh_session (db st) (SessionCreateWriteSet.session_id ws)
  | UpsertHost h => HostRecord.status h ≠ HostStatus.Retired
  | Heartbeat _ hb _ => HostHeartbeat.status hb ≠ HostStatus.Retired
  | _ => True
  end.

(** A run: calls in sequence, each within its precondition. *)
Inductive run : Store → list call → Store → Prop :=
| run_nil st : run st [] st
| run_cons st c cs st' : call_ok c st → run (exec c st) cs st' → run st (c :: cs) st'.

(** ** Primitive writes, packaged *)

Lemma prim_put_session d s r r' :
  sessions d !! s = Some r → row_step s r r' [] [] → prim d (put_session s r' d).
Proof.
  intros Hs Hr. eapply pr_session with (evs := []) (log := []); try done.
  - intros s'. case_decide; by rewrite app_nil_r.
  - cbn. by rewrite app_nil_r.
Qed.

Lemma prim_put_log d s r r' :
  sessions d !! s = Some r → can_transition_to (SessRow.status r) (SessRow.status r') = true →
  row_step s r r' [] [] →
  prim d (log_transition (TransitionLogEntry.Mk s (SessRow.status r) (SessRow.status r') false)
            (put_session s r' d)).
Proof.
  intros Hs Ht Hr.
  eapply pr_session with (s := s) (r := r) (r' := r') (evs := [])
    (log := [TransitionLogEntry.Mk s (SessRow.status r) (SessRow.status r') false]); try done.
  - destruct Hr. split; try done. by intros e ->%list_elem_of_singleton.
  - intros s'. case_decide; by rewrite app_nil_r.
Qed.

Lemma events_of_push d s e s' :
  events_of (push_event s e d) s' = events_of d s' ++ (if decide (s' = s) then [e] else []).
Proof.
  unfold events_of. cbn. rewrite lookup_insert. repeat case_decide; subst; try done.
  by rewrite app_nil_r.
Qed.

Lemma prim_put_event d s r r' e :
  sessions d !! s = Some r → row_step s r r' [e] [] →
  prim d (push_event s e (put_session s r' d)).
Proof.
  intros Hs Hr. eapply pr_session with (evs := [e]) (log := []); try done.
  - intros s'. apply (events_of_push (put_session s r' d)).
  - cbn. by rewrite app_nil_r.
Qed.

(** Close a [row_step] between a row and an explicit update of it. *)
Ltac row_step_tac :=
  split; cbn; rewrite ?Z.add_0_r; try done; try lia; try tauto;
  try (by intros ? ?%not_elem_of_nil).

(** ** Session methods *)

Lemma quiet_row s r r' :
  Session.id (SessRow.session r') = Session.id (SessRow.session r) →
  SessRow.status r' = SessRow.status r → SessRow.current_epoch r' = SessRow.current_epoch r →
  (SessRow.binding_epoch r ≤ SessRow.binding_epoch r')%Z →
  SessRow.next_event_idx r' = SessRow.next_event_idx r → row_step s r r' [] [].
Proof. intros. row_step_tac. Qed.

Lemma transition_row_step s target disp now r :
  can_transition_to (SessRow.status r) target = true →
  row_step s r (MetaSession.transition_row target disp now r) [] [] ∧
  SessRow.status (MetaSession.transition_row target disp now r) = target.
Proof.
  intros Ht. unfold MetaSession.transition_row.
  destruct (bool_decide (disp = Detach)), (bool_decide (target = Evicting)),
    (bool_decide (target = Queued)); (split; [row_step_tac|done]).
Qed.

(** The legality checks pass only on an edge. *)
Lemma check_transition_cases r target disp st :
  (∃ e, MetaSession.check_transition r target disp st = (Err e, st)) ∨
  (MetaSession.check_transition r target disp st = (Ok tt, st) ∧
   can_transition_to (SessRow.status r) target = true ∧
   binding_disposition_legal target (bool_decide (is_Some (SessRow.sandbox_id r))) disp = true).
Proof.
  unfold MetaSession.check_transition, try_transition_to.
  destruct (can_transition_to _ _); [|left; by eexists].
  destruct (binding_disposition_legal _ _ _); [by right|left; by eexists].
Qed.

Lemma notify_freed_db a b st : ∃ st', MetaSession.notify_freed a b st = (Ok tt, st') ∧ db st' = db st.
Proof. unfold MetaSession.notify_freed. run_m. destruct (_ && _); by eexists. Qed.

Lemma for_each_notify_db {A} (l : list A) ch (f : A → NotifyPayload) st :
  ∃ st', for_each l (fun x => notify ch (f x)) st = (Ok tt, st') ∧ db st' = db st.
Proof.
  revert st. induction l as [|x l IH]; intros st; cbn [for_each]; [by exists st|].
  run_m. destruct (IH (st <| notifications ::= fun l => l ++ [Notify ch (f x)] |>)) as (st'&->&Hd).
  exists st'. by rewrite Hd.
Qed.

Lemma logged_transition d s r target disp now :
  sessions d !! s = Some r → can_transition_to (SessRow.status r) target = true →
  prim d (log_transition (TransitionLogEntry.Mk s (SessRow.status r) target false)
            (put_session s (MetaSession.transition_row target disp now r) d)).
Proof.
  intros Hs Ht. destruct (transition_row_step s target disp now r Ht) as [Hstep Hst].
  pose proof (prim_put_log d s r (MetaSession.transition_row target disp now r) Hs) as Hp.
  rewrite Hst in Hp. auto.
Qed.

Lemma transition_prim id target disp now st :
  rtc prim (db st) (db (MetaSession.transition_session id target disp now st).2).
Proof.
  unfold MetaSession.transition_session. gated st.
  destruct (sessions (db st) !! id) as [r|] eqn:Er; [|done]. cbn beta iota.
  destruct (check_transition_cases r target disp st) as [[e ->]|(->&Ht&_)]; [done|].
  cbn beta iota.
  destruct (notify_freed_db (SessRow.status r) target (st <| db :=
    log_transition (TransitionLogEntry.Mk id (SessRow.status r) target false)
      (put_session id (MetaSession.transition_row target disp now r) (db st)) |>)) as (st'&->&Hd).
  cbn [snd]. rewrite Hd. apply rtc_once. by apply logged_transition.
Qed.

Lemma terminate_prim id now st :
  rtc prim (db st) (db (MetaSession.terminate_session id now st).2).
Proof.
  unfold MetaSession.terminate_session, MetaSession.get_session. gated st.
  destruct (sessions (db st) !! id) as [r|] eqn:Er; [|done]. cbn beta iota.
  destruct (terminal_target _) as [t|]; [|done].
  pose proof (transition_prim id t Detach now st) as H.
  by destruct (MetaSession.transition_session id t Detach now st) as [[] st'].
Qed.

Lemma fenced_transition_prim id e to disp now st :
  rtc prim (db st) (db (MetaSession.fenced_transition_session id e to disp now st).2).
Proof.
  unfold MetaSession.fenced_transition_session. gated st.
  destruct (sessions (db st) !! id) as [r|] eqn:Er; [|done]. cbn beta iota.
  destruct (negb _); [done|].
  destruct (check_transition_cases r to disp st) as [[x ->]|(->&Ht&_)]; [done|].
  cbn beta iota.
  destruct (notify_freed_db (SessRow.status r) to (st <| db :=
    log_transition (TransitionLogEntry.Mk id (SessRow.status r) to false)
      (put_session id (MetaSession.transition_row to disp now r) (db st)) |>)) as (st'&->&Hd).
  cbn [snd]. rewrite Hd. apply rtc_once. by apply logged_transition.
Qed.

(** The event loop pushes each event under the next index. *)
Lemma append_events_prim id now events indices d :
  is_Some (sessions d !! id) →
  rtc prim d (fold_left (MetaSession.append_event id now) events (indices, d)).2 ∧
  is_Some (sessions (fold_left (MetaSession.append_event id now) events (indices, d)).2 !! id).
Proof.
  revert indices d. induction events as [|ev events IH]; intros indices d Hs; cbn [fold_left];
    [by split|].
  destruct Hs as [r Hr]. unfold MetaSession.append_event at 2 4. rewrite Hr. cbv zeta.
  match goal with |- context [fold_left _ events (?i, ?x)] =>
    destruct (IH i x) as [Hp Hs']; [cbn; rewrite lookup_insert_eq; by eexists|] end.
  split; [|done]. eapply rtc_l; [|exact Hp]. eapply prim_put_event; [done|]. row_step_tac.
Qed.

Lemma append_events_log id now events indices d e :
  fold_left (MetaSession.append_event id now) events (indices, log_transition e d) =
  let '(i, d') := fold_left (MetaSession.append_event id now) events (indices, d) in
  (i, log_transition e d').
Proof.
  revert indices d. induction events as [|ev events IH]; intros indices d; cbn [fold_left]; [done|].
  unfold MetaSession.append_event at 2 4. cbn [log_transition].
  change (sessions (log_transition e d) !! id) with (sessions d !! id).
  destruct (sessions d !! id) as [r|]; [|apply IH]. cbv zeta. rewrite <- IH. done.
Qed.

Lemma fenced_events_prim id e to disp events now st :
  rtc prim (db st)
    (db (MetaSession.fenced_transition_session_with_events id e to disp events now st).2).
Proof.
  unfold MetaSession.fenced_transition_session_with_events. gated st.
  destruct (sessions (db st) !! id) as [r|] eqn:Er; [|done]. cbn beta iota.
  destruct (negb _); [done|].
  destruct (check_transition_cases r to disp st) as [[x ->]|(->&Ht&_)]; [done|].
  cbn beta iota. set (row := MetaSession.transition_row to disp now r).
  set (entry := TransitionLogEntry.Mk id (SessRow.status r) to false).
  pose proof (append_events_log id now events [] (put_session id row (db st)) entry) as Hlog.
  destruct (append_events_prim id now events [] (log_transition entry (put_session id row (db st))))
    as [Hp _]; [cbn; rewrite lookup_insert_eq; by eexists|].
  destruct (fold_left _ events ([], put_session id row (db st))) as [indices d'].
  rewrite Hlog in Hp.
  destruct (for_each_notify_db indices "session_events" (PEvent id)
              (st <| db := log_transition entry d' |>)) as (st1&Hfe&Hd1).
  unfold notify in Hfe. rewrite Hfe. cbn beta iota.
  destruct (notify_freed_db (SessRow.status r) to st1) as (st2&->&Hd2).
  cbn [snd]. rewrite Hd2, Hd1. eapply rtc_l; [|exact Hp]. by apply logged_transition.
Qed.

(** A single session write in the middle of a gated method. *)
Ltac one_session_write r := apply rtc_once, (prim_put_session _ _ r); [done|row_step_tac].

Lemma created_prim id sb now st :
  rtc prim (db st) (db (MetaSession.transition_session_created id sb now st).2).
Proof.
  unfold MetaSession.transition_session_created. gated st.
  destruct (sessions (db st) !! id) as [r|] eqn:Er; [|done]. cbn beta iota.
  destruct (negb _) eqn:Es; [done|]. cbn [snd]. bool_prop.
  apply rtc_once. rewrite <- Es. eapply prim_put_log; [done|by rewrite Es|].
  row_step_tac. right. by rewrite Es.
Qed.

Lemma mint_row sb r :
  let '(_, r') := MetaSession.mint sb r in
  SessRow.session r' = SessRow.session r ∧ SessRow.current_epoch r' = SessRow.current_epoch r ∧
  (SessRow.binding_epoch r ≤ SessRow.binding_epoch r')%Z ∧
  SessRow.next_event_idx r' = SessRow.next_event_idx r.
Proof. destruct sb; cbn; repeat split; lia. Qed.

Lemma fenced_assign_prim id e sb h now st :
  rtc prim (db st) (db (MetaSession.fenced_assign_sandbox id e sb h now st).2).
Proof.
  unfold MetaSession.fenced_assign_sandbox. gated st.
  destruct (sessions (db st) !! id) as [r|] eqn:Er; [|done]. cbn beta iota.
  destruct (negb _); [done|].
  match goal with |- context [MetaSession.mint sb ?x] => pose proof (mint_row sb x) as Hm end.
  destruct (MetaSession.mint _ _) as [m r']. destruct Hm as (Hs&He&Hb&Hi).
  apply rtc_once, (prim_put_session _ _ r); [done|].
  apply quiet_row; unfold SessRow.status; rewrite ?Hs; done.
Qed.

Lemma assign_guarded_prim id sb expected allowed now st :
  rtc prim (db st) (db (MetaSession.assign_session_sandbox_guarded id sb expected allowed now st).2).
Proof.
  unfold MetaSession.assign_session_sandbox_guarded. gated st.
  destruct (sessions (db st) !! id) as [r|] eqn:Er; [|done]. cbn beta iota.
  destruct (negb _); [done|]. destruct (_ && _); [done|].
  match goal with |- context [MetaSession.mint sb ?x] => pose proof (mint_row sb x) as Hm end.
  destruct (MetaSession.mint _ _) as [m r']. destruct Hm as (Hs&He&Hb&Hi).
  apply rtc_once, (prim_put_session _ _ r); [done|].
  apply quiet_row; unfold SessRow.status; rewrite ?Hs; done.
Qed.

Lemma enqueue_resume_prim id e now st :
  rtc prim (db st) (db (MetaSession.enqueue_session_resume id e now st).2).
Proof.
  unfold MetaSession.enqueue_session_resume. gated st.
  destruct (sessions (db st) !! id) as [r|] eqn:Er; [|done].
  destruct (_ || _) eqn:Es; [done|]. cbn [snd]. bool_prop.
  apply rtc_once. rewrite <- H. eapply prim_put_log; [done|by rewrite H|].
  row_step_tac. right. by rewrite H.
Qed.

Lemma place_queued_prim id mem cpu cand aff now st :
  rtc prim (db st) (db (MetaSession.place_queued_session id mem cpu cand aff now st).2).
Proof.
  unfold MetaSession.place_queued_session. gated st. destruct cand as [|c0 cl]; [done|].
  cbn beta iota. destruct (sessions (db st) !! id) as [r|] eqn:Er; [|done].
  destruct (pick_host_2d _ _ _ _ _ _) as [h|]; [|done].
  destruct (negb _) eqn:Es; [done|]. cbn [snd]. bool_prop.
  apply rtc_once. rewrite <- Es. eapply prim_put_log; [done|by rewrite Es|].
  row_step_tac. right. by rewrite Es.
Qed.

Lemma strikes_prim present missing grace st :
  rtc prim (db st) (db (MetaSession.apply_missing_sandbox_strikes present missing grace st).2).
Proof.
  unfold MetaSession.apply_missing_sandbox_strikes. gated st.
  assert (Hc : ∀ l d, rtc prim d (fold_left MetaSession.clear_strikes l d)).
  { intros l. induction l as [|x l IH]; intros d; cbn [fold_left]; [done|].
    etrans; [|apply IH]. unfold MetaSession.clear_strikes.
    destruct (sessions d !! x) as [r|] eqn:Er; [|done]. one_session_write r. }
  assert (Hm : ∀ l acc d, rtc prim d (fold_left (MetaSession.strike grace) l (acc, d)).2).
  { intros l. induction l as [|x l IH]; intros acc d; cbn [fold_left]; [done|].
    unfold MetaSession.strike at 2.
    destruct (sessions d !! x) as [r|] eqn:Er; [|apply IH].
    cbv zeta. destruct (bool_decide _); (etrans; [|apply IH]); one_session_write r. }
  assert (Hrun : ∀ p m, rtc prim (db st) (db ((let '(crossed, d) :=
      fold_left (MetaSession.strike grace) m ([], fold_left MetaSession.clear_strikes p (db st)) in
      fun st0 => (@Ok (list SessionId) MetaError crossed, st0 <| db := d |>)) st).2)).
  { intros p m. pose proof (Hm m [] (fold_left MetaSession.clear_strikes p (db st))) as H.
    destruct (fold_left _ m _) as [crossed d']. cbn in *. etrans; [apply Hc|done]. }
  destruct present, missing; [done|apply Hrun..].
Qed.

Lemma simple_writes_prim id st :
  (∀ until, rtc prim (db st) (db (MetaSession.stamp_shell_pin id until st).2)) ∧
  (∀ rung parked, rtc prim (db st) (db (MetaSession.set_session_park_rung id rung parked st).2)) ∧
  (∀ e rung parked,
     rtc prim (db st) (db (MetaSession.fenced_set_session_park_rung id e rung parked st).2)) ∧
  (∀ h now, rtc prim (db st) (db (MetaSession.assign_session_host id h now st).2)).
Proof.
  repeat split; intros.
  - unfold MetaSession.stamp_shell_pin. gated st.
    destruct (sessions (db st) !! id) as [r|] eqn:Er; [|done]. one_session_write r.
  - unfold MetaSession.set_session_park_rung. gated st.
    destruct (sessions (db st) !! id) as [r|] eqn:Er; [|done]. one_session_write r.
  - unfold MetaSession.fenced_set_session_park_rung. gated st.
    destruct (sessions (db st) !! id) as [r|] eqn:Er; [|done].
    destruct (negb _); [done|]. one_session_write r.
  - unfold MetaSession.assign_session_host. gated st.
    destruct (sessions (db st) !! id) as [r|] eqn:Er; [|done]. one_session_write r.
Qed.

Lemma delete_cases id st :
  db (MetaSession.delete_pending_session id st).2 = db st ∨
  deletes id (db st) (db (MetaSession.delete_pending_session id st).2).
Proof.
  unfold MetaSession.delete_pending_session. gated st; [by left|].
  destruct (sessions (db st) !! id) as [r|] eqn:Er; [|by left].
  destruct (_ && _) eqn:Eb; [right|by left]. bool_prop. split; [eauto|by split|done..].
Qed.

(** The satellite inserts of a create are outside the core tables. *)
Lemma create_satellites d d1 s r :
  fresh_session d s → (SessRow.status r = Pending ∨ SessRow.status r = Queued) →
  Session.id (SessRow.session r) = s → SessRow.current_epoch r = 0%Z →
  SessRow.next_event_idx r = 0%Z →
  frame_but_sessions d d1 → sessions d1 = <[s := r]> (sessions d) →
  session_events d1 = session_events d → transition_log d1 = transition_log d → rtc prim d d1.
Proof. intros (Hs&He&Ho) ????????. apply rtc_once. by eapply pr_create. Qed.

Lemma create_prim id sp now st :
  fresh_session (db st) id →
  rtc prim (db st) (db (MetaSession.create_session id sp now st).2).
Proof.
  intros Hf. unfold MetaSession.create_session. gated st.
  eapply create_satellites; [exact Hf|..]; [|..|reflexivity|done|done];
    first [by left|done|by split].
Qed.

Lemma reserve_create_prim ws cand aff now st :
  fresh_session (db st) (SessionCreateWriteSet.session_id ws) →
  rtc prim (db st) (db (MetaSession.reserve_and_persist_create ws cand aff now st).2).
Proof.
  intros Hf. unfold MetaSession.reserve_and_persist_create. gated st.
  destruct (match SessionCreateWriteSet.oauth_binding ws with Some _ => _ | None => _ end); [done|].
  destruct (pick_host_2d _ _ _ _ _ _) as [h|], (SessionCreateWriteSet.sealed_secrets ws),
    (SessionCreateWriteSet.capabilities ws), (SessionCreateWriteSet.integration_policy_json ws),
    (SessionCreateWriteSet.oauth_binding ws); cbn beta iota;
    (eapply create_satellites; [exact Hf|..]; [|..|reflexivity|done|done];
     first [by left|by right|done|by split]).
Qed.

(** ** Teleport methods *)

Lemma finished_event_prim t now d :
  rtc prim d (MetaTeleport.append_teleport_finished t now d).2.
Proof.
  unfold MetaTeleport.append_teleport_finished.
  destruct (teleports d !! t) as [r|]; [|done]. destruct (negb _); [done|]. cbv zeta.
  destruct (sessions d !! _) as [s|] eqn:Es; [|done].
  apply rtc_once. eapply prim_put_event; [done|]. row_step_tac.
Qed.

Lemma finish_event_run t now d st :
  ∃ st', MetaTeleport.finish_event t now d st = (Ok tt, st') ∧
         db st' = (MetaTeleport.append_teleport_finished t now d).2.
Proof.
  unfold MetaTeleport.finish_event.
  destruct (MetaTeleport.append_teleport_finished t now d) as [[[sid idx]|] d'];
    run_m; by eexists.
Qed.

(** A phase write under a legal edge or into [Failed]. *)
Lemma phase_write_prim d t r r' :
  teleports d !! t = Some r →
  TeleportRow.id r' = TeleportRow.id r → TeleportRow.session_id r' = TeleportRow.session_id r →
  TeleportRow.source_host_id r' = TeleportRow.source_host_id r →
  TeleportRow.source_sandbox_id r' = TeleportRow.source_sandbox_id r →
  TeleportRow.dest_host_id r' = TeleportRow.dest_host_id r →
  TeleportRow.is_open r = true →
  (TeleportPhase.can_transition_to (TeleportRow.phase r) (TeleportRow.phase r') = true ∨
   TeleportRow.phase r' = TeleportPhase.Failed) →
  prim d (put_teleport t r' d).
Proof. intros Ht **. eapply pr_teleport; try done. by rewrite Ht. Qed.

Lemma edge_open r p :
  TeleportPhase.can_transition_to (TeleportRow.phase r) p = true → TeleportRow.is_open r = true.
Proof.
  intros H. apply open_terminal, not_true_is_false. intros Ht.
  by rewrite TeleportPhase.terminal_no_edge in H.
Qed.

Lemma entomb_prim h sb sid now d : prim d (entomb h sb sid now d).
Proof. by apply pr_frame. Qed.

Lemma advance_prim t from to patch e now st :
  rtc prim (db st) (db (MetaTeleport.teleport_advance t from to patch e now st).2).
Proof.
  unfold MetaTeleport.teleport_advance. gated st.
  destruct (negb (TeleportPhase.can_transition_to from to)) eqn:Ec; [done|]. cbn beta iota.
  destruct (teleports (db st) !! t) as [r|] eqn:Et; [|done].
  destruct (_ || _) eqn:Eg; [done|]. bool_prop.
  match goal with |- context [MetaTeleport.finish_event t now ?x st] =>
    destruct (finish_event_run t now x st) as (st'&->&Hd) end.
  cbn [snd]. rewrite Hd. eapply rtc_l; [|apply finished_event_prim].
  eapply phase_write_prim; try done; cbn.
  - apply (edge_open r to). congruence.
  - left. congruence.
Qed.

Lemma abort_prim t e now st :
  rtc prim (db st) (db (MetaTeleport.teleport_abort t e now st).2).
Proof.
  unfold MetaTeleport.teleport_abort. run_m. destruct (outage st) eqn:Eo; cbn beta iota; [done|].
  apply advance_prim.
Qed.

Lemma commit_prim t e now st :
  rtc prim (db st) (db (MetaTeleport.teleport_commit t e now st).2).
Proof.
  unfold MetaTeleport.teleport_commit. gated st.
  destruct (teleports (db st) !! t) as [r|] eqn:Et; cbn beta iota; [|done].
  destruct (_ && _) eqn:Ep; cbn beta iota; [|done]. bool_prop.
  destruct (sessions (db st) !! TeleportRow.session_id r) as [s|] eqn:Es; cbn beta iota; [|done].
  destruct (_ && _ && _ && _); cbn beta iota; [|done]. cbn [snd].
  db_red. match goal with |- rtc prim _ (put_teleport ?t ?r ?x) => apply (rtc_r _ x) end.
  - apply rtc_once, (prim_put_session _ _ s); [done|row_step_tac].
  - eapply phase_write_prim; try done; [apply open_terminal; by rewrite H|].
    left. by rewrite H.
Qed.

Lemma release_prim t e how now st :
  rtc prim (db st) (db (MetaTeleport.teleport_release_source t e how now st).2).
Proof.
  unfold MetaTeleport.teleport_release_source. gated st.
  destruct (teleports (db st) !! t) as [r|] eqn:Et; [|done].
  destruct (_ || _) eqn:Eg; [done|]. destruct (match how with DestroyAcked => _ | _ => _ end); [done|].
  bool_prop.
  match goal with |- context [MetaTeleport.finish_event t now ?x st] =>
    destruct (finish_event_run t now x st) as (st'&->&Hd) end.
  cbn [snd]. rewrite Hd. eapply rtc_l; [apply entomb_prim|].
  eapply rtc_l; [|apply finished_event_prim]. eapply phase_write_prim; try done.
  - apply open_terminal. by rewrite H.
  - left. by rewrite H.
Qed.

Lemma admit_prim req now st :
  rtc prim (db st) (db (MetaTeleport.teleport_admit req now st).2).
Proof.
  unfold MetaTeleport.teleport_admit. gated st.
  set (sid := TeleportAdmitRequest.session_id req).
  destruct (sessions (db st) !! sid) as [s|] eqn:Es; cbn beta iota; [|done].
  destruct (bool_decide _); cbn beta iota; [|done].
  destruct (existsb _ _) eqn:Eo; [done|].
  destruct (negb _) eqn:Ea; [done|]. bool_prop.
  destruct (SessRow.host_id s) as [src|]; [|done].
  destruct (SessRow.sandbox_id s) as [sb|]; [|done].
  destruct (pick_host_2d _ _ _ _ _ _) as [dest|]; [|done].
  destruct (bool_decide (is_Some (teleports _ !! _))) eqn:Et; [done|]. bool_prop.
  apply eq_None_not_Some in Et.
  destruct (i32_try_from _) as [cpu|]; cbn beta iota; [|done]. cbn [snd].
  db_red. match goal with |- rtc prim _ (put_teleport ?t ?r ?x) => set (row := r); set (d1 := x) end.
  apply (rtc_r _ d1).
  - apply rtc_once. eapply (pr_session _ _ sid s);
      [done| |by split|done|apply (events_of_push (put_session sid _ (db st)))|done].
    row_step_tac; [right; by rewrite Ea|].
    intros x ->%list_elem_of_singleton. by rewrite Ea.
  - apply (pr_teleport d1 _ (TeleportAdmitRequest.id req) row); try done.
    change (teleports d1) with (teleports (db st)). rewrite Et. split; [done|]. split; [done|].
    intros t0 r0 Hr0 Hs0. apply not_true_is_false. intros Hop.
    apply not_true_iff_false in Eo. apply Eo, existsb_values. exists t0, r0.
    split; [done|]. rewrite Hop, Hs0. by rewrite bool_decide_eq_true_2.
Qed.

Lemma append_idempotent_run s key kind fields now st r :
  sessions (db st) !! s = Some r →
  ∃ o st', append_event_idempotent_locked s key kind (JObj fields) now st = (Ok o, st') ∧
           rtc prim (db st) (db st') ∧ teleports (db st') = teleports (db st).
Proof.
  intros Hs. unfold append_event_idempotent_locked. run_m. rewrite Hs. cbn beta iota.
  set (d1 := (db st) <| session_events := _ |>).
  assert (Hd1 : prim (db st) d1).
  { apply pr_frame; try done. intros s'. unfold events_of, d1. cbn. rewrite lookup_insert.
    by case_decide; subst. }
  destruct (existsb _ _).
  - eexists _, _. split; [done|]. db_red. split; [by apply rtc_once|done].
  - eexists _, _. split; [reflexivity|]. db_red. split; [|done].
    eapply rtc_l; [exact Hd1|]. apply rtc_once.
    eapply prim_put_event; [exact Hs|]. row_step_tac.
Qed.

Lemma append_event_prim s kind payload now st :
  rtc prim (db st) (db (MetaSession.append_session_event s kind payload now st).2).
Proof.
  unfold MetaSession.append_session_event. gated st.
  destruct (sessions (db st) !! s) as [r|] eqn:Er; [|done]. db_red.
  apply rtc_once. eapply prim_put_event; [done|]. row_step_tac.
Qed.

Lemma append_fenced_prim s e kind payload now st :
  rtc prim (db st) (db (MetaSession.append_session_event_fenced s e kind payload now st).2).
Proof.
  unfold MetaSession.append_session_event_fenced. gated st.
  destruct (sessions (db st) !! s) as [r|] eqn:Er; [|done]. destruct (negb _); [done|].
  pose proof (append_event_prim s kind payload now st) as H.
  by destruct (MetaSession.append_session_event _ _ _ _ st) as [[] st'].
Qed.

Lemma append_locked_prim s key kind payload now st :
  rtc prim (db st) (db (append_event_idempotent_locked s key kind payload now st).2).
Proof.
  destruct (sessions (db st) !! s) as [r|] eqn:Er.
  - destruct payload as [| | | | | |fields]; try (unfold append_event_idempotent_locked; run_m; rewrite Er;
      cbn beta iota; destruct (existsb _ _); db_red; apply rtc_once, pr_frame; try done;
      intros s'; unfold events_of; cbn; rewrite lookup_insert; by case_decide; subst).
    destruct (append_idempotent_run s key kind fields now st r Er) as (o&st'&->&H&_). exact H.
  - unfold append_event_idempotent_locked. run_m. by rewrite Er.
Qed.

Lemma append_idempotent_prim s key kind payload now st :
  rtc prim (db st) (db (MetaSession.append_session_event_idempotent s key kind payload now st).2).
Proof.
  unfold MetaSession.append_session_event_idempotent. gated st.
  pose proof (append_locked_prim s key kind payload now st) as H.
  by destruct (append_event_idempotent_locked s key kind payload now st) as [[[]|] st'].
Qed.

Lemma interrupt_runs_prim s runs now st :
  rtc prim (db st) (db (MetaSession.interrupt_runs s runs now st).2).
Proof.
  revert st. induction runs as [|run runs IH]; intros st; [done|]. cbn [MetaSession.interrupt_runs]. run_m.
  match goal with |- context [append_event_idempotent_locked s ?k ?kd ?p now st] =>
    pose proof (append_locked_prim s k kd p now st) as H;
    destruct (append_event_idempotent_locked s k kd p now st) as [[idx|] st1] end; [|done].
  specialize (IH st1). destruct (MetaSession.interrupt_runs s runs now st1) as [[l|] st2]; cbn in *; by etrans.
Qed.

Lemma settle_harness_prim s e continued now st :
  rtc prim (db st) (db (MetaSession.settle_harness_generation s e continued now st).2).
Proof.
  unfold MetaSession.settle_harness_generation. gated st. destruct (i64_try_from e) as [e'|]; [|done]. cbn beta iota.
  destruct (sessions (db st) !! s) as [r|] eqn:Er; [|done]. destruct (bool_decide _); [done|]. cbn beta iota.
  match goal with |- context [MetaSession.interrupt_runs s ?l now ?x] =>
    pose proof (interrupt_runs_prim s l now x) as H;
    assert (H0 : rtc prim (db st) (db x)) by (db_red; one_session_write r);
    destruct (MetaSession.interrupt_runs s l now x) as [[settled|] st2] end; [|by etrans].
  destruct (for_each_notify_db settled "session_events" (fun ri => PEvent s ri.2) st2) as (st3&Hfe&Hd).
  unfold notify in Hfe. rewrite Hfe. cbn [snd] in *. rewrite Hd. by etrans.
Qed.

Lemma settle_evicted_prim id sb ok events now st :
  rtc prim (db st) (db (MetaSession.settle_evicted_session_idle id sb ok events now st).2).
Proof.
  unfold MetaSession.settle_evicted_session_idle. gated st. destruct ok; [|done]. cbn beta iota.
  destruct (sessions (db st) !! id) as [r|] eqn:Er; [|done]. destruct (_ || _) eqn:Eg; [done|]. bool_prop.
  match goal with |- context [fold_left _ events ([], ?x)] => set (d1 := x) end.
  assert (Hp : rtc prim (db st) d1).
  { match goal with d1 := context [put_session id ?r' (db st)] |- _ =>
      apply (rtc_l _ _ (put_session id r' (db st))) end.
    - apply (prim_put_session _ _ r); [done|]. row_step_tac.
      match goal with H : SessRow.status r = Evicting |- _ => right; by rewrite H end.
    - subst d1. destruct (SessRow.host_id r); [apply rtc_once, entomb_prim|done]. }
  destruct (append_events_prim id now events [] d1) as [Hp2 _].
  { subst d1. destruct (SessRow.host_id r); cbn; rewrite lookup_insert_eq; by eexists. }
  destruct (fold_left _ events ([], d1)) as [indices d2].
  cbn [negb]. cbn beta iota. match goal with |- context [for_each indices _ ?x] =>
    destruct (for_each_notify_db indices "session_events" (PEvent id) x) as (st1&Hfe&Hd) end.
  unfold notify in Hfe. rewrite Hfe. cbn [snd] in *. cbn beta iota. db_red. rewrite Hd. by etrans.
Qed.

Lemma touch_prim id now st : rtc prim (db st) (db (MetaSession.touch_session_activity id now st).2).
Proof.
  unfold MetaSession.touch_session_activity. gated st.
  destruct (sessions (db st) !! id) as [r|] eqn:Er; [|done]. one_session_write r.
Qed.

Lemma bump_prim id st : rtc prim (db st) (db (MetaSession.bump_evict_attempts id st).2).
Proof.
  unfold MetaSession.bump_evict_attempts. gated st.
  destruct (sessions (db st) !! id) as [r|] eqn:Er; [|done]. one_session_write r.
Qed.

Lemma host_guarded_prim id h expected allowed now st :
  rtc prim (db st) (db (MetaSession.assign_session_host_guarded id h expected allowed now st).2).
Proof.
  unfold MetaSession.assign_session_host_guarded. gated st.
  destruct (sessions (db st) !! id) as [r|] eqn:Er; [|done]. cbn beta iota.
  destruct (_ || _); [done|]. one_session_write r.
Qed.

Lemma rebind_prim id h sb expected allowed now st :
  rtc prim (db st) (db (MetaSession.rebind_session_guarded id h sb expected allowed now st).2).
Proof.
  unfold MetaSession.rebind_session_guarded. gated st.
  destruct (sessions (db st) !! id) as [r|] eqn:Er; [|done]. cbn beta iota.
  destruct (negb _); [done|]. destruct (negb _); [done|]. db_red.
  match goal with |- context [put_session id ?r' (db st)] =>
    apply (rtc_l _ _ (put_session id r' (db st))) end.
  - apply (prim_put_session _ _ r); [done|]. row_step_tac.
  - destruct (SessRow.host_id r), (SessRow.sandbox_id r); try done.
    destruct (negb _); [apply rtc_once, entomb_prim|done].
Qed.

Lemma settle_session_run t r settle now st :
  (∃ x, MetaTeleport.settle_session t r settle now st = (Err x, st)) ∨
  (∃ o st', MetaTeleport.settle_session t r settle now st = (Ok o, st') ∧
            rtc prim (db st) (db st') ∧ teleports (db st') = teleports (db st)).
Proof.
  unfold MetaTeleport.settle_session. run_m.
  destruct (TeleportSettle.session settle) as [target|]; [|right; by eexists _, _].
  destruct (sessions (db st) !! _) as [s|] eqn:Es; [|right; by eexists _, _].
  unfold try_transition_to. destruct (can_transition_to _ _) eqn:Et; [|left; by eexists].
  cbn beta iota. right.
  match goal with |- context [append_event_idempotent_locked ?a ?b ?c ?p ?n ?x] =>
    set (st1 := x); set (key := b); set (fields := p) end.
  assert (Hp1 : prim (db st) (db st1)).
  { unfold st1. db_red. apply (prim_put_session _ _ s); [done|]. row_step_tac. }
  destruct (append_idempotent_run (TeleportRow.session_id r) key "status_changed"
    [("type", JStr "status_changed"); ("from", JStr (as_str (SessRow.status s)));
     ("to", JStr (as_str target)); ("at", JTime now)]%string now st1
    (s <| SessRow.session ::= fun x => x <| Session.status := target |>
                           <| Session.sandbox_id := None |> |> <| SessRow.updated_at := now |>))
    as (o&st'&Hrun&Hp&Ht); [by apply lookup_insert_eq|].
  eexists o, st'. split; [exact Hrun|]. split; [by eapply rtc_l|]. by rewrite Ht.
Qed.

Lemma settle_teleport_prim t r settle ev now st :
  teleports (db st) !! t = Some r → TeleportRow.is_open r = true →
  rtc prim (db st) (db (MetaTeleport.settle_teleport t r settle ev now st).2).
Proof.
  intros Ht Ho. unfold MetaTeleport.settle_teleport.
  assert (Hw : ∃ st1, when (TeleportSettle.entomb_source settle)
    (modify_db (entomb (TeleportRow.source_host_id r) (TeleportRow.source_sandbox_id r)
       (Some (TeleportRow.session_id r)) now)) st = (Ok tt, st1) ∧
    rtc prim (db st) (db st1) ∧ teleports (db st1) = teleports (db st)).
  { run_m. destruct (TeleportSettle.entomb_source settle); eexists; split; try done; db_red.
    split; [|done]. apply rtc_once, entomb_prim. }
  destruct Hw as (st1&Hrun&Hp1&Ht1). unfold mbind at 1, M_bind. rewrite Hrun. run_m.
  match goal with |- context [MetaTeleport.append_teleport_finished t now ?x] =>
    pose proof (finished_event_prim t now x) as Hp2; set (d2 := x) in * end.
  assert (Hp3 : prim (db st1) d2).
  { apply (phase_write_prim _ t r); [by rewrite Ht1|done..|by right]. }
  destruct (MetaTeleport.append_teleport_finished t now d2) as [fin d3].
  match goal with |- context [for_each ?l _ ?x] =>
    destruct (for_each_notify_db l "session_events" (fun si => PEvent si.1 si.2) x)
      as (st4&Hfe&Hd4) end.
  unfold notify in Hfe. rewrite Hfe. cbn beta iota. db_red.
  assert (Hgoal : rtc prim (db st) (db st4)).
  { rewrite Hd4. db_red. etrans; [exact Hp1|]. eapply rtc_l; [exact Hp3|exact Hp2]. }
  destruct (bool_decide _); cbn beta iota; db_red; exact Hgoal.
Qed.

Lemma settle_prim t e settle now st :
  rtc prim (db st) (db (MetaTeleport.teleport_settle t e settle now st).2).
Proof.
  unfold MetaTeleport.teleport_settle. gated st.
  destruct (teleports (db st) !! t) as [r|] eqn:Et; [|done].
  destruct (_ || _) eqn:Eg; [done|]. apply orb_false_iff in Eg as [Hterm _].
  destruct (settle_session_run t r settle now st) as [[x ->]|(o&st'&->&Hp&Ht)]; [done|].
  cbn beta iota. etrans; [exact Hp|]. apply settle_teleport_prim; [by rewrite Ht|].
  by apply open_terminal.
Qed.

(** ** Host methods *)

Lemma host_write_prim d h r r' :
  minv d → hosts d !! h = Some r → HostRecord.id r' = HostRecord.id r →
  (HostRecord.status r = HostStatus.Retired → HostRecord.status r' = HostStatus.Retired) →
  HostRecord.retired_at r' = HostRecord.retired_at r →
  (HostRecord.status r' = HostStatus.Retired → HostRecord.status r = HostStatus.Retired) →
  prim d (put_host h r' d).
Proof.
  intros Hinv Hh Hid Hst Hra Hback. apply (pr_host d _ h r'); try done.
  - rewrite Hid. by apply Hinv.
  - rewrite Hh. auto.
  - rewrite Hra, <- (mi_retired _ Hinv _ _ Hh). split; auto.
Qed.

Lemma upsert_prim h st :
  minv (db st) → HostRecord.status h ≠ HostStatus.Retired →
  rtc prim (db st) (db (MetaHost.upsert_host h st).2).
Proof.
  intros Hinv Hnr. unfold MetaHost.upsert_host. gated st. db_red.
  destruct (hosts (db st) !! HostRecord.id h) as [r|] eqn:Eh; apply rtc_once.
  - apply (host_write_prim _ _ r); [done|done|..]; unfold MetaHost.upsert_existing;
      destruct (bool_decide (HostRecord.status r = HostStatus.Retired)) eqn:Er,
        (HostRecord.host_addr h), (HostRecord.lease_expires_at h); bool_prop; done.
  - apply (pr_host (db st) _ (HostRecord.id h) (MetaHost.upsert_fresh h)); try done.
    + by rewrite Eh.
    + cbn. split; [done|by intros []].
Qed.

(** A write that leaves the host's status and retirement stamp alone. *)
Ltac quiet_host Hinv := apply rtc_once; eapply host_write_prim; [exact Hinv|done|done..].

Lemma request_retirement_prim h o reason now st :
  minv (db st) → rtc prim (db st) (db (MetaHost.request_host_retirement h o reason now st).2).
Proof.
  intros Hinv. unfold MetaHost.request_host_retirement. gated st.
  destruct (hosts (db st) !! h) as [r|] eqn:Eh; [|done].
  destruct (negb _); [done|].
  destruct (match HostRecord.cordon_owner r with Some _ => _ | None => _ end); [done|].
  quiet_host Hinv.
Qed.

Lemma cancel_retirement_prim h o st :
  minv (db st) → rtc prim (db st) (db (MetaHost.cancel_host_retirement h o st).2).
Proof.
  intros Hinv. unfold MetaHost.cancel_host_retirement. gated st.
  destruct (hosts (db st) !! h) as [r|] eqn:Eh; [|done].
  destruct (_ || _); [done|]. quiet_host Hinv.
Qed.

Lemma grant_prim h now st :
  minv (db st) → rtc prim (db st) (db (MetaHost.grant_host_retirement h now st).2).
Proof.
  intros Hinv. unfold MetaHost.grant_host_retirement, MetaHost.retirement_status. gated st.
  destruct (hosts (db st) !! h) as [r|] eqn:Eh; cbn beta iota; [|done].
  destruct (bool_decide (is_Some _)) eqn:Er; [done|]. bool_prop. destruct (bool_decide _); [done|].
  destruct (MetaHost.rs_blockers _); [|done]. cbn beta iota. db_red. apply rtc_once.
  eapply (pr_host _ _ h); try done.
  - cbn. by apply Hinv.
  - rewrite Eh. intros Hr. exfalso. apply Er. by apply (mi_retired _ Hinv _ _ Eh).
  - cbn. split; [by eexists|done].
Qed.

Lemma set_status_prim h s st :
  minv (db st) → rtc prim (db st) (db (MetaHost.set_host_status h s st).2).
Proof.
  intros Hinv. unfold MetaHost.set_host_status. gated st.
  destruct (hosts (db st) !! h) as [r|] eqn:Eh; cbn beta iota; [|done].
  destruct (_ || _) eqn:Er; [done|]. bool_prop. quiet_host Hinv.
Qed.

Lemma live_not_retired s : MetaHost.gone s = false → s ≠ HostStatus.Retired.
Proof. by destruct s. Qed.

Lemma heartbeat_prim h hb now st :
  minv (db st) → HostHeartbeat.status hb ≠ HostStatus.Retired →
  rtc prim (db st) (db (MetaHost.touch_host_heartbeat h hb now st).2).
Proof.
  intros Hinv Hnr. unfold MetaHost.touch_host_heartbeat. gated st.
  destruct (hosts (db st) !! h) as [r|] eqn:Eh; cbn beta iota; [|done]. db_red.
  apply rtc_once. eapply host_write_prim; [done|done|..];
    destruct (MetaHost.gone _) eqn:Eg, (HostHeartbeat.lease_renew_until hb);
    repeat case_match; try done; try (by intros ?%Hnr); by apply live_not_retired in Eg.
Qed.

Lemma leases_prim h until st :
  minv (db st) →
  rtc prim (db st) (db (MetaHost.begin_host_handoff h until st).2) ∧
  rtc prim (db st) (db (MetaHost.renew_host_lease h until st).2).
Proof.
  intros Hinv. split.
  - unfold MetaHost.begin_host_handoff. gated st.
    destruct (hosts (db st) !! h) as [r|] eqn:Eh; [|done].
    destruct (MetaHost.gone _); [done|]. quiet_host Hinv.
  - unfold MetaHost.renew_host_lease. gated st.
    destruct (hosts (db st) !! h) as [r|] eqn:Eh; [|done].
    destruct (MetaHost.gone _); [done|]. db_red. destruct (bool_decide _); quiet_host Hinv.
Qed.

Lemma cordon_prim h o reason st :
  minv (db st) → rtc prim (db st) (db (MetaHost.set_host_cordon h o reason st).2).
Proof.
  intros Hinv. unfold MetaHost.set_host_cordon. gated st.
  destruct (hosts (db st) !! h) as [r|] eqn:Eh; cbn beta iota; [|done].
  destruct (bool_decide (_ = HostStatus.Retired)); [done|].
  destruct (bool_decide (o = None)); db_red; quiet_host Hinv.
Qed.

(** Folds of tombstone writes stay outside the core tables. *)
Lemma fold_entomb_frame {A} (f : SimDb → A → SimDb) l d :
  (∀ d x, f d x = d ∨ ∃ h sb sid now, f d x = entomb h sb sid now d) →
  serial (fold_left f l d) = serial d ∧ session_ops (fold_left f l d) = session_ops d ∧
  sessions (fold_left f l d) = sessions d ∧ teleports (fold_left f l d) = teleports d ∧
  hosts (fold_left f l d) = hosts d ∧ transition_log (fold_left f l d) = transition_log d ∧
  session_events (fold_left f l d) = session_events d.
Proof.
  intros Hf. revert d. induction l as [|x l IH]; intros d; [done|]. cbn [fold_left].
  destruct (IH (f d x)) as (->&->&->&->&->&->&->).
  by destruct (Hf d x) as [->|(?&?&?&?&->)].
Qed.

Lemma dead_lease_prim h claimant st :
  (∀ stale now, rtc prim (db st) (db (MetaHost.try_acquire_dead_host_lease h claimant stale now st).2)) ∧
  rtc prim (db st) (db (MetaHost.release_dead_host_lease h claimant st).2).
Proof.
  assert (Hf : ∀ f, rtc prim (db st) ((db st) <| dead_host_inflight ::= f |>)) by (intros f; by apply rtc_once, pr_frame).
  split; intros; [unfold MetaHost.try_acquire_dead_host_lease|unfold MetaHost.release_dead_host_lease]; gated st;
    destruct (dead_host_inflight (db st) !! h) as [[by_ at_]|]; try done; db_red; try apply Hf.
  - destruct (bool_decide _); [done|]. apply Hf.
  - destruct (bool_decide _); [|done]. apply Hf.
Qed.

Lemma mark_dead_prim h now st :
  minv (db st) → rtc prim (db st) (db (MetaHost.mark_host_dead_if_lease_expired h now st).2).
Proof.
  intros Hinv. unfold MetaHost.mark_host_dead_if_lease_expired. gated st.
  destruct (hosts (db st) !! h) as [r|] eqn:Eh; cbn beta iota; [|done].
  destruct (MetaHost.gone _) eqn:Eg; [done|]. destruct (negb _); [done|]. db_red.
  apply live_not_retired in Eg.
  set (d1 := put_host h _ (db st)). set (owned := MetaHost.owned_by_move h d1).
  apply (rtc_l _ _ d1); [eapply host_write_prim; done|]. apply rtc_once.
  match goal with |- prim _ (setter transition_log _ (fold_left ?f ?l ?x)) =>
    destruct (fold_entomb_frame f l x) as (F1&F2&F3&F4&F5&F6&F7) end.
  { intros d x. destruct (SessRow.sandbox_id x); eauto 10. }
  eapply (pr_host_lost d1 _ h (MetaHost.orphaned h owned)
    (fun s => if MetaHost.orphaned h owned s then MetaHost.lose_host now s else s)).
  - unfold MetaHost.orphaned. intros x Hx. bool_prop. done.
  - intros x. destruct (MetaHost.orphaned h owned x) eqn:Eo; [right|by left].
    by repeat split.
  - split; [exact F1|exact F2|exact F4|exact F5].
  - exact F3.
  - exact F7.
  - eexists. split; [exact (f_equal (fun l => l ++ _) F6)|].
    intros e (x&->&_)%list_elem_of_fmap. done.
Qed.

Lemma tombstones_prim h st :
  (∀ sb sid now, rtc prim (db st) (db (MetaHost.record_sandbox_tombstone h sb sid now st).2)) ∧
  (∀ running grace now,
     rtc prim (db st) (db (MetaHost.entomb_stably_unbound h running grace now st).2)) ∧
  (∀ running, rtc prim (db st) (db (MetaHost.ack_sandbox_tombstones_by_absence h running st).2)).
Proof.
  repeat split; intros.
  - unfold MetaHost.record_sandbox_tombstone. gated st. db_red. apply rtc_once, entomb_prim.
  - unfold MetaHost.entomb_stably_unbound. gated st. db_red. apply rtc_once.
    match goal with |- prim _ (fold_left ?f ?l ?x) =>
      destruct (fold_entomb_frame f l x) as (F1&F2&F3&F4&F5&F6&F7) end; [eauto 10|].
    apply pr_frame; rewrite ?F1, ?F2, ?F3, ?F4, ?F5, ?F6; try done.
    intros s. unfold events_of. by rewrite F7.
  - unfold MetaHost.ack_sandbox_tombstones_by_absence. gated st. apply rtc_once. by apply pr_frame.
Qed.

(** ** Op methods *)

(** Op methods touch session rows only through the epoch. *)
Record ops_frame (d d' : SimDb) : Prop := {
  of_sess : ∀ s, match sessions d !! s, sessions d' !! s with
    | Some r, Some r' => (SessRow.current_epoch r ≤ SessRow.current_epoch r')%Z ∧
                         r' = r <| SessRow.current_epoch := SessRow.current_epoch r' |>
    | None, None => True
    | _, _ => False end;
  of_tel : teleports d' = teleports d;
  of_hosts : hosts d' = hosts d;
  of_events : session_events d' = session_events d;
  of_log : transition_log d' = transition_log d;
}.

Lemma ops_frame_same d d' :
  sessions d' = sessions d → teleports d' = teleports d → hosts d' = hosts d →
  session_events d' = session_events d → transition_log d' = transition_log d → ops_frame d d'.
Proof.
  intros Hs **. split; try done. intros s. rewrite Hs. destruct (sessions d !! s) as [r|]; [|done].
  split; [lia|]. by destruct r.
Qed.

Lemma ops_frame_refl d : ops_frame d d.
Proof. by apply ops_frame_same. Qed.

Lemma ops_frame_trans d1 d2 d3 : ops_frame d1 d2 → ops_frame d2 d3 → ops_frame d1 d3.
Proof.
  intros [S1 T1 H1 E1 L1] [S2 T2 H2 E2 L2]. split; try congruence.
  intros s. specialize (S1 s). specialize (S2 s).
  destruct (sessions d1 !! s) as [r1|], (sessions d2 !! s) as [r2|], (sessions d3 !! s) as [r3|];
    try done. destruct S1 as [L12 Eq1], S2 as [L23 Eq2]. split; [lia|].
  rewrite Eq2, Eq1. done.
Qed.

Lemma ops_frame_bump d s sess :
  sessions d !! s = Some sess →
  ops_frame d (put_session s (sess <| SessRow.current_epoch :=
                                 (SessRow.current_epoch sess + 1)%Z |>) d).
Proof.
  intros Hs. split; try done. intros s'. cbn. rewrite lookup_insert.
  case_decide; subst; [rewrite Hs; cbn; split; [lia|done]|].
  destruct (sessions d !! s') as [r|]; [|done]. split; [lia|]. by destruct r.
Qed.

Lemma ops_frame_put d i row : ops_frame d (put_op i row d).
Proof. by apply ops_frame_same. Qed.

Lemma fenced_write_frame i e f st :
  ops_frame (db st) (db (MetaOps.fenced_write i e f st).2).
Proof.
  unfold MetaOps.fenced_write. gated st; [by apply ops_frame_refl|].
  destruct (MetaOps.fenced_row i e (db st)); db_red; [apply ops_frame_put|apply ops_frame_refl].
Qed.

Lemma cancel_loop_frame P l any d : ops_frame d (MetaOps.cancel_loop P l any d).2.
Proof.
  revert any d. induction l as [|[i o] l IH]; intros any d; cbn; [apply ops_frame_refl|].
  destruct (P o); [|apply IH]. destruct (json_index_set _ _ _); [|apply ops_frame_refl].
  eapply ops_frame_trans; [apply ops_frame_put|apply IH].
Qed.

Lemma reclaim_frame by_ now ids out d :
  ops_frame d (fold_left (MetaOps.reclaim_one by_ now) ids (out, d)).2.
Proof.
  revert out d. induction ids as [|i ids IH]; intros out d; cbn [fold_left];
    [apply ops_frame_refl|].
  unfold MetaOps.reclaim_one at 2. destruct (session_ops d !! i) as [o|]; [|apply IH].
  destruct (sessions d !! OpRow.session_id o) as [sess|] eqn:Es; [|apply IH]. cbv zeta.
  eapply ops_frame_trans; [by eapply ops_frame_bump|].
  eapply ops_frame_trans; [apply ops_frame_put|apply IH].
Qed.

(** Is the call one of the op methods? *)
Definition is_op_call (c : call) : bool :=
  match c with
  | OpEnqueue _ _ _ _ _ _ | OpExclusive _ _ _ _ _ | OpClaimHead _ _ _ | OpRecordStep _ _ _ _
  | OpHeartbeat _ _ _ | OpFinish _ _ _ _ _ | OpRequeue _ _ _ _ _ | OpCancelQueued _ _ _
  | OpWake _ _ _ | OpRequestCancel _ _ | OpCancelById _ _ | OpReclaim _ _ _ => true
  | _ => false
  end.

Lemma op_call_frame c st : is_op_call c = true → ops_frame (db st) (db (exec c st)).
Proof.
  destruct c; try done; intros _; cbn [exec]; try apply fenced_write_frame.
  - unfold MetaOps.op_enqueue_and_claim. gated st; [by apply ops_frame_refl|].
    match goal with |- context [if ?b then _ else _] => destruct b; [by apply ops_frame_refl|] end.
    unfold next_serial. cbn beta iota zeta.
    match goal with |- context [if ?b then _ else _] => destruct b end.
    + change (sessions ((db st) <| serial ::= Z.succ |>)) with (sessions (db st)).
      destruct (sessions (db st) !! s) as [sess|] eqn:Es; cbn beta iota; db_red;
        [|by apply ops_frame_same].
      eapply ops_frame_trans; [by eapply ops_frame_bump|]. by apply ops_frame_same.
    + db_red. by apply ops_frame_same.
  - unfold MetaOps.op_enqueue_and_claim_exclusive. gated st; [by apply ops_frame_refl|].
    destruct (existsb _ _); [by apply ops_frame_refl|].
    destruct (sessions (db st) !! s) as [sess|] eqn:Es; cbn beta iota; [|by apply ops_frame_refl].
    unfold next_serial. cbn beta iota zeta. db_red.
    eapply ops_frame_trans; [by eapply ops_frame_bump|]. by apply ops_frame_same.
  - unfold MetaOps.op_claim_head. gated st; [by apply ops_frame_refl|].
    destruct (existsb _ _); [by apply ops_frame_refl|].
    destruct (min_id _) as [i|]; [|by apply ops_frame_refl].
    destruct (sessions (db st) !! s) as [sess|] eqn:Es; cbn beta iota; [|by apply ops_frame_refl].
    match goal with |- context [match ?x with Some _ => _ | None => _ end] => destruct x end;
      db_red; (eapply ops_frame_trans; [by eapply ops_frame_bump|]); by apply ops_frame_same.
  - unfold MetaOps.op_cancel_queued. gated st; [by apply ops_frame_refl|]. by apply ops_frame_same.
  - unfold MetaOps.op_wake_queued_kind. gated st; [by apply ops_frame_refl|].
    destruct (bool_decide _); by apply ops_frame_same.
  - unfold MetaOps.op_request_cancel_running. gated st; [by apply ops_frame_refl|].
    match goal with |- context [MetaOps.cancel_loop ?P ?l ?a ?d] =>
      pose proof (cancel_loop_frame P l a d) as H end.
    by destruct (MetaOps.cancel_loop _ _ _ _).
  - unfold MetaOps.op_cancel_by_id. gated st; [by apply ops_frame_refl|].
    destruct (session_ops (db st) !! i) as [o|]; [|by apply ops_frame_refl].
    destruct (bool_decide _); db_red; [apply ops_frame_put|apply ops_frame_refl].
  - unfold MetaOps.op_reclaim_stale. gated st; [by apply ops_frame_refl|].
    match goal with |- context [fold_left ?f ?ids ([], ?d)] =>
      pose proof (reclaim_frame by_ now ids [] d) as H end.
    by destruct (fold_left _ _ _).
Qed.

Lemma op_call_refines c st :
  is_op_call c = true → call_ok c st → MetaOps.wf (db st) →
  MetaOps.refines (db st) (db (exec c st)).
Proof.
  destruct c; try done; intros _ Hok Hwf; cbn [exec].
  - by apply MetaOps.refines_enqueue.
  - by apply MetaOps.refines_exclusive.
  - by apply MetaOps.refines_claim_head.
  - by apply MetaOps.refines_record_step.
  - by apply MetaOps.refines_heartbeat.
  - by apply MetaOps.refines_finish.
  - by apply MetaOps.refines_requeue.
  - by apply MetaOps.refines_cancel_queued.
  - by apply MetaOps.refines_wake.
  - by apply MetaOps.refines_request_cancel.
  - by apply MetaOps.refines_cancel_by_id.
  - by apply MetaOps.refines_reclaim.
Qed.

Lemma update_unacked_prim p f st : rtc prim (db st) (db (MetaOutbox.update_unacked p f st).2).
Proof.
  unfold MetaOutbox.update_unacked. gated st.
  destruct (outbox (db st) !! p) as [r|]; [|done]. destruct (bool_decide _); [|done].
  apply rtc_once. by apply pr_frame.
Qed.

Lemma claim_prompt_prim row st : rtc prim (db st) (db (MetaOutbox.claim_prompt_id row st).2).
Proof.
  unfold MetaOutbox.claim_prompt_id. run_m. destruct (outbox (db st) !! OutboxRow.prompt_id row) as [x|].
  - by destruct (MetaOutbox.same_command x row).
  - apply rtc_once. by apply pr_frame.
Qed.

Lemma append_all_prim s events now st : rtc prim (db st) (db (MetaOutbox.append_all s events now st).2).
Proof.
  revert st. induction events as [|ev events IH]; intros st; [done|]. cbn [MetaOutbox.append_all]. run_m.
  pose proof (append_event_prim s ev.1 ev.2 now st) as H.
  destruct (MetaSession.append_session_event _ _ _ _ st) as [[idx|] st1]; [|done].
  specialize (IH st1). destruct (MetaOutbox.append_all s events now st1) as [[idxs|] st2]; cbn in *; by etrans.
Qed.

Lemma ignore_result_db {A} (m : M A) st : db ((m;; mret tt) st).2 = db (m st).2.
Proof. run_m. by destruct (m st) as [[] st']. Qed.

Lemma outbox_prim c st : rtc prim (db st) (db (MetaOutbox.exec c st)).
Proof.
  destruct c; cbn [MetaOutbox.exec].
  - unfold MetaOutbox.outbox_enqueue. gated st. apply rtc_once. by apply pr_frame.
  - unfold MetaOutbox.append_session_event_and_outbox. gated st. destruct (negb _); [done|].
    pose proof (claim_prompt_prim row st) as H1. destruct (MetaOutbox.claim_prompt_id row st) as [[b|] st1]; [|done].
    pose proof (append_event_prim s event body now st1) as H2.
    destruct (MetaSession.append_session_event _ _ _ _ st1) as [[idx|] st2]; cbn in *; by etrans.
  - unfold MetaOutbox.append_events_with_outbox_idempotent. gated st. destruct (negb _); [done|].
    pose proof (claim_prompt_prim row st) as H1. destruct (MetaOutbox.claim_prompt_id row st) as [[[]|] st1]; [|done..].
    pose proof (append_all_prim s events now st1) as H2.
    destruct (MetaOutbox.append_all s events now st1) as [[idxs|] st2]; cbn in *; by etrans.
  - unfold MetaOutbox.outbox_update_prompt_text. gated st. destruct (outbox (db st) !! p) as [r|]; [|done].
    destruct (_ && _); [|done]. destruct (json_index_set _ _ _); [|done]. apply rtc_once. by apply pr_frame.
  - unfold MetaOutbox.outbox_delete_unacked. gated st. destruct (outbox (db st) !! p) as [r|]; [|done].
    destruct (bool_decide _); [|done]. apply rtc_once. by apply pr_frame.
  - unfold MetaOutbox.outbox_mark_delivered. rewrite ignore_result_db. apply update_unacked_prim.
  - unfold MetaOutbox.outbox_defer. rewrite ignore_result_db. apply update_unacked_prim.
  - unfold MetaOutbox.outbox_make_due. gated st. apply rtc_once. by apply pr_frame.
  - apply update_unacked_prim.
Qed.

Definition deleted_by (c : call) : option SessionId :=
  match c with DeletePending id => Some id | _ => None end.

(** Every call but a delete, within its precondition, is a sequence of primitive writes. *)
Lemma exec_prims c st :
  minv (db st) → call_ok c st → deleted_by c = None →
  rtc prim (db st) (db (exec c st)).
Proof.
  intros Hinv Hok Hnd. destruct (is_op_call c) eqn:Ec.
  { destruct (op_call_frame c st Ec). apply rtc_once. apply pr_ops; try done.
    apply op_call_refines; [done..|apply Hinv]. }
  destruct (simple_writes_prim (match c with
    | AssignHost id _ _ | ShellPin id _ | SetParkRung id _ _ | FencedParkRung id _ _ _ => id
    | _ => 0%N end) st) as (Hpin&Hpark&Hfpark&Hhost).
  destruct c; try done; cbn [exec].
  - by apply create_prim.
  - apply created_prim.
  - by apply reserve_create_prim.
  - apply transition_prim.
  - apply terminate_prim.
  - apply Hhost.
  - apply enqueue_resume_prim.
  - apply place_queued_prim.
  - apply strikes_prim.
  - apply Hpin.
  - apply Hpark.
  - apply Hfpark.
  - apply fenced_transition_prim.
  - apply fenced_events_prim.
  - apply fenced_assign_prim.
  - apply assign_guarded_prim.
  - apply host_guarded_prim.
  - apply rebind_prim.
  - apply touch_prim.
  - apply bump_prim.
  - apply settle_evicted_prim.
  - apply append_event_prim.
  - apply append_fenced_prim.
  - apply append_idempotent_prim.
  - apply settle_harness_prim.
  - apply admit_prim.
  - apply advance_prim.
  - apply commit_prim.
  - apply release_prim.
  - apply settle_prim.
  - apply abort_prim.
  - by apply upsert_prim.
  - by apply request_retirement_prim.
  - by apply cancel_retirement_prim.
  - by apply grant_prim.
  - by apply set_status_prim.
  - by apply heartbeat_prim.
  - apply (proj1 (leases_prim h until st Hinv)).
  - apply (proj2 (leases_prim h until st Hinv)).
  - by apply cordon_prim.
  - by apply mark_dead_prim.
  - by apply tombstones_prim.
  - by apply tombstones_prim.
  - by apply tombstones_prim.
  - apply (proj1 (dead_lease_prim h claimant st)).
  - apply (proj2 (dead_lease_prim h claimant st)).
  - apply outbox_prim.
Qed.

Lemma exec_inv c st : minv (db st) → call_ok c st → minv (db (exec c st)).
Proof.
  intros Hinv Hok. destruct (deleted_by c) as [id|] eqn:Ed.
  - destruct c; simplify_eq/=. destruct (delete_cases id st) as [->|Hd]; [done|].
    by eapply minv_delete.
  - eapply prims_inv; [done|]. by apply exec_prims.
Qed.

Lemma run_inv_from st cs st' : run st cs st' → minv (db st) → minv (db st').
Proof. induction 1; eauto using exec_inv. Qed.

Lemma run_inv env cs st : run (Store_new env) cs st → minv (db st).
Proof. intros H. eapply run_inv_from; [exact H|]. apply minv_init. Qed.

(** ** Facts that survive a run *)

(** A property of the database that primitives and deletes of other sessions
    preserve holds along every run that does not delete session [s]. *)
Lemma run_preserves (P : SimDb → Prop) s st cs st' :
  run st cs st' → minv (db st) → Forall (fun c => deleted_by c ≠ Some s) cs →
  (∀ d d', minv d → prim d d' → P d → P d') →
  (∀ id d d', id ≠ s → deletes id d d' → P d → P d') →
  P (db st) → P (db st').
Proof.
  intros Hrun Hinv Hsp Hprim Hdel. induction Hrun as [|st c cs st' Hok Hrun IH]; [done|].
  apply Forall_cons in Hsp as [Hc Hsp]. intros HP.
  apply IH; [by apply exec_inv|done|]. destruct (deleted_by c) as [id|] eqn:Ed.
  - destruct c; simplify_eq/=. destruct (delete_cases id st) as [->|Hd]; [done|].
    eapply Hdel; [|done..]. congruence.
  - pose proof (exec_prims c st Hinv Hok Ed) as Hp.
    assert (H : minv (db (exec c st)) ∧ P (db (exec c st))); [|apply H].
    clear -Hp Hprim HP Hinv. induction Hp as [|d d1 d2 H1 _ IH]; [done|].
    apply IH; [by eapply prim_inv|by eapply Hprim].
Qed.

(** A terminal session keeps its status and its row. *)
Lemma run_terminal st cs st' s r :
  run st cs st' → minv (db st) → sessions (db st) !! s = Some r →
  is_terminal (SessRow.status r) = true →
  ∃ r', sessions (db st') !! s = Some r' ∧ SessRow.status r' = SessRow.status r.
Proof.
  intros Hrun Hinv. revert r. induction Hrun as [|st c cs st' Hok Hrun IH]; intros r Hs Ht; [eauto|].
  assert (Hstep : ∃ r', sessions (db (exec c st)) !! s = Some r' ∧
                        SessRow.status r' = SessRow.status r).
  { destruct (deleted_by c) as [id|] eqn:Ed.
    - destruct c; simplify_eq/=. destruct (delete_cases id st) as [->|[(x&Hx&Hp) _ Hd _ _]]; [eauto|].
      rewrite Hd, lookup_delete_ne; [eauto|]. intros ->. simplify_eq. by rewrite Hp in Ht.
    - eapply prims_terminal; [by apply exec_prims|done..]. }
  destruct Hstep as (r1&Hs1&E1). destruct (IH (exec_inv c st Hinv Hok) r1 Hs1) as (r2&?&E2).
  - by rewrite E1.
  - exists r2. split; [done|congruence].
Qed.

(** A session that is not deleted keeps its row and its epochs only grow. *)
Lemma run_epoch_mono st cs st' s r :
  run st cs st' → minv (db st) → Forall (fun c => deleted_by c ≠ Some s) cs →
  sessions (db st) !! s = Some r →
  ∃ r', sessions (db st') !! s = Some r' ∧
    (SessRow.current_epoch r ≤ SessRow.current_epoch r' ∧
     SessRow.binding_epoch r ≤ SessRow.binding_epoch r')%Z.
Proof.
  intros Hrun Hinv Hsp Hs.
  apply (run_preserves (fun d => ∃ r', sessions d !! s = Some r' ∧
    (SessRow.current_epoch r ≤ SessRow.current_epoch r' ∧
     SessRow.binding_epoch r ≤ SessRow.binding_epoch r')%Z) s st cs st'); try done.
  - intros d d' _ Hp (r1&H1&?). destruct (prim_epoch_mono _ _ _ _ Hp H1) as (r2&?&?).
    exists r2. split; [done|lia].
  - intros id d d' Hne [_ _ Hd _ _] (r1&H1&?). exists r1. rewrite Hd, lookup_delete_ne; done.
  - exists r. split; [done|lia].
Qed.

(** A retired host stays retired. *)
Lemma run_retired st cs st' h r :
  run st cs st' → minv (db st) → hosts (db st) !! h = Some r →
  HostRecord.status r = HostStatus.Retired →
  ∃ r', hosts (db st') !! h = Some r' ∧ HostRecord.status r' = HostStatus.Retired ∧
        HostRecord.retired_at r' = HostRecord.retired_at r.
Proof.
  intros Hrun Hinv. revert r. induction Hrun as [|st c cs st' Hok Hrun IH]; intros r Hh Hr; [eauto|].
  assert (Hstep : ∃ r', hosts (db (exec c st)) !! h = Some r' ∧
    HostRecord.status r' = HostStatus.Retired ∧ HostRecord.retired_at r' = HostRecord.retired_at r).
  { destruct (deleted_by c) as [id|] eqn:Ed.
    - destruct c; simplify_eq/=. destruct (delete_cases id st) as [->|[_ [_ _ _ Hf] _ _ _]]; [eauto|].
      rewrite Hf. eauto.
    - eapply prims_retired; [by apply exec_prims|done..]. }
  destruct Hstep as (r1&H1&S1&E1).
  destruct (IH (exec_inv c st Hinv Hok) r1 H1 S1) as (r2&?&?&E2).
  exists r2. repeat split; try done. congruence.
Qed.
