(* ===== verification/Scenario.v ===== *)
(** * A concrete fleet

    Runs that evaluate: an executable test for the preconditions of a sequence
    of calls, and a small fleet (two hosts, one session that is created,
    booted and moved) on which the properties of the store are exercised. *)

From S2P Require Import Prelude Session Teleport OpLogSpec MetaTypes Placement MetaOps.
From S2P Require Import MetaSession MetaTeleport MetaHost MetaOutbox MetaStep MetaCalls.
From Stdlib Require Import QArith.

(** ** Evaluating a run *)

Definition fresh_sessionb (d : SimDb) (s : SessionId) : bool :=
  match sessions d !! s with None => true | Some _ => false end &&
  match events_of d s with [] => true | _ :: _ => false end &&
  forallb (fun o => negb (bool_decide (OpRow.session_id o = s))) (values (session_ops d)).

Definition call_okb (c : call) (st : Store) : bool :=
  match c with
  | OpFinish _ _ final _ _ => negb (OpState.active final)
  | CreateSession id _ _ => fresh_sessionb (db st) id
  | ReserveCreate ws _ _ _ => fresh_sessionb (db st) (SessionCreateWriteSet.session_id ws)
  | UpsertHost h => negb (bool_decide (HostRecord.status h = HostStatus.Retired))
  | Heartbeat _ hb _ => negb (bool_decide (HostHeartbeat.status hb = HostStatus.Retired))
  | _ => true
  end.

Fixpoint runb (cs : list call) (st : Store) : bool :=
  match cs with
  | [] => true
  | c :: cs' => call_okb c st && runb cs' (exec c st)
  end.

Definition execs (cs : list call) (st : Store) : Store := fold_left (fun st c => exec c st) cs st.

Lemma fresh_sessionb_sound d s : fresh_sessionb d s = true → fresh_session d s.
Proof.
  unfold fresh_sessionb, fresh_session. destruct (sessions d !! s); [done|].
  destruct (events_of d s); [|done]. cbn. intros H. repeat split. intros i o Ho Hs.
  rewrite forallb_forall in H. specialize (H o). rewrite <- list_elem_of_In in H.
  specialize (H (proj2 (elem_of_values _ _) (ex_intro _ i Ho))). by rewrite bool_decide_eq_true_2 in H.
Qed.

Lemma call_okb_sound c st : call_okb c st = true → call_ok c st.
Proof.
  destruct c; cbn; intros; try done; try (by apply fresh_sessionb_sound); by bool_prop.
Qed.

Lemma run_execs cs st : runb cs st = true → run st cs (execs cs st).
Proof.
  revert st. induction cs as [|c cs IH]; intros st; cbn; [constructor|]. intros H. bool_prop.
  constructor; [by apply call_okb_sound|by apply IH].
Qed.

(** ** The fleet *)

Definition demo_capacity : HostCapacity := Build_HostCapacity 16 0 16384 0 0.

Definition demo_util : HostUtilization :=
  Build_HostUtilization 0 0 0 0 0 0 0 0 8192 (JNum 0) 0 0 0 0.

(** A registration of host [h] with a lease to instant 1000. *)
Definition demo_host (h : HostId) : HostRecord.t :=
  HostRecord.Mk h "host" JNull demo_capacity demo_util HostStatus.Ready 1 None [] [] [] false None
    None None None 4 1 true JNull (Some 1000%Z) HostLeaseState.Active 1.

Definition demo_beat (until : DateTime) : HostHeartbeat.t :=
  HostHeartbeat.Mk HostStatus.Ready demo_capacity demo_util [] [] [] 4 1 true JNull (Some until).

Definition demo_create (s : SessionId) : SessionCreateWriteSet.t :=
  SessionCreateWriteSet.Mk s (Build_SessionSpec "img" Agent) 2048 1 None [] None JNull None.

(** Hosts 1 and 2 register and report. *)
Definition demo_fleet : list call :=
  [UpsertHost (demo_host 1); UpsertHost (demo_host 2);
   Heartbeat 1 (demo_beat 1000) 2; Heartbeat 2 (demo_beat 1000) 2].

(** Session 10 is created, boots as sandbox 100 and becomes active; op 1
    claims it at epoch 1. *)
Definition demo_boot : list call :=
  demo_fleet ++
  [ReserveCreate (demo_create 10) [1; 2]%N 0 3; TransitionCreated 10 100 4;
   TransitionSession 10 Active Retain 5; OpEnqueue 10 Teleport JNull None "a" 6].

Definition demo_admit : TeleportAdmitRequest.t :=
  TeleportAdmitRequest.Mk 7 10 AdminDrain 1 [1; 2]%N None 2048 1 4 Snapshot.

(** Session 10 moves from host 1 to host 2 up to the restored phase. *)
Definition demo_move : list call :=
  demo_boot ++
  [TeleportAdmit demo_admit 7;
   TeleportAdvance 7 TeleportPhase.Admitted_ TeleportPhase.Captured TeleportPatch.default 1 8;
   TeleportAdvance 7 TeleportPhase.Captured TeleportPhase.Restored
     (TeleportPatch.Mk (Some 200%N) None None None None None) 1 9].

Definition demo (cs : list call) : Store := execs cs (Store_new None).

Lemma demo_run cs : runb cs (Store_new None) = true → run (Store_new None) cs (demo cs).
Proof. apply run_execs. Qed.
