(* ===== verification/MetaProps.v ===== *)
(** * What the metadata store guarantees

    The properties of the store over every interleaving of its methods, from
    the empty database: lane exclusion and fencing, legality of status changes,
    one open teleport per session, dense event logs, and what is never
    undone. *)

From S2P Require Import Prelude Session Teleport OpLogSpec MetaTypes Placement MetaOps.
From S2P Require Import MetaSession MetaTeleport MetaHost MetaOutbox MetaStep MetaCalls.
From S2P Require Import Scenario.
From Stdlib Require Import QArith.

(** ** Fenced calls *)

(** Call [c] acts for session [s] under the fencing epoch [e]. *)
Definition presents (d : SimDb) (s : SessionId) (e : Z) (c : call) : Prop :=
  let of_op i := ∃ o, session_ops d !! i = Some o ∧ OpRow.session_id o = s in
  let of_tel t := ∃ r, teleports d !! t = Some r ∧ TeleportRow.session_id r = s in
  match c with
  | FencedParkRung id e' _ _ | FencedTransition id e' _ _ _
  | FencedTransitionEvents id e' _ _ _ _ | FencedAssign id e' _ _ _
  | EnqueueResume id e' _ | AppendFenced id e' _ _ _ => id = s ∧ e' = e
  | TeleportAdmit req _ => TeleportAdmitRequest.session_id req = s ∧
                           TeleportAdmitRequest.epoch req = e
  | TeleportAdvance t _ _ _ e' _ | TeleportCommit t e' _ | TeleportRelease t e' _ _
  | TeleportSettleC t e' _ _ | TeleportAbort t e' _ => of_tel t ∧ e' = e
  | OpRecordStep i e' _ _ | OpHeartbeat i e' _ | OpFinish i e' _ _ _
  | OpRequeue i e' _ _ _ => of_op i ∧ e' = e
  | _ => False
  end.

Lemma fenced_write_stale d i e f st s r :
  db st = d → minv d → sessions d !! s = Some r → e ≠ SessRow.current_epoch r →
  (∃ o, session_ops d !! i = Some o ∧ OpRow.session_id o = s) →
  (MetaOps.fenced_write i e f st).2 = st.
Proof.
  intros <- Hinv Hs He (o&Ho&Hsid). unfold MetaOps.fenced_write, MetaOps.fenced_row. gated st.
  rewrite Ho. cbn beta iota.
  destruct (_ && _) eqn:Eb; [|done]. bool_prop. exfalso.
  assert (Hl : a_ops (MetaOps.abs (db st)) !! i = Some (op_row_to_domain o)).
  { apply MetaOps.lookup_abs. exists o. rewrite Hsid, Hs. eauto. }
  pose proof (inv_running_epoch _ (mi_ops _ Hinv) _ _ Hl) as Hr. cbn in Hr.
  rewrite MetaOps.epoch_abs, Hsid, Hs in Hr. cbn in Hr. rewrite Hr in * by done. congruence.
Qed.

Lemma epoch_stale_true s e d r :
  sessions d !! s = Some r → e ≠ SessRow.current_epoch r → MetaTeleport.epoch_stale s e d = true.
Proof.
  intros Hs He. unfold MetaTeleport.epoch_stale. rewrite Hs.
  by rewrite bool_decide_eq_false_2 by congruence.
Qed.

Lemma advance_stale t from to patch e now st s r :
  sessions (db st) !! s = Some r → e ≠ SessRow.current_epoch r →
  (∃ x, teleports (db st) !! t = Some x ∧ TeleportRow.session_id x = s) →
  (MetaTeleport.teleport_advance t from to patch e now st).2 = st.
Proof.
  intros Hs He (x&Hx&Hxs). unfold MetaTeleport.teleport_advance. gated st.
  destruct (negb _); [done|]. rewrite Hx. cbn beta iota.
  rewrite (epoch_stale_true (TeleportRow.session_id x) e (db st) r) by (congruence || done).
  by rewrite orb_true_r.
Qed.

(** A call under any epoch but the session's current one changes nothing. *)
Lemma stale_call_noop c s e st r :
  minv (db st) → sessions (db st) !! s = Some r → e ≠ SessRow.current_epoch r →
  presents (db st) s e c → exec c st = st.
Proof.
  intros Hinv Hs He Hp.
  assert (Hb : bool_decide (SessRow.current_epoch r = e) = false)
    by (apply bool_decide_eq_false_2; congruence).
  destruct c; cbn [presents] in Hp; try done; destruct Hp as [Hx <-]; cbn [exec];
    try (by eapply (fenced_write_stale (db st))); try subst.
  - unfold MetaSession.enqueue_session_resume. gated st. rewrite Hs. cbn beta iota.
    rewrite Hb. by rewrite orb_true_r.
  - unfold MetaSession.fenced_set_session_park_rung. gated st. rewrite Hs. cbn beta iota. by rewrite Hb.
  - unfold MetaSession.fenced_transition_session. gated st. rewrite Hs. cbn beta iota. by rewrite Hb.
  - unfold MetaSession.fenced_transition_session_with_events. gated st. rewrite Hs. cbn beta iota.
    by rewrite Hb.
  - unfold MetaSession.fenced_assign_sandbox. gated st. rewrite Hs. cbn beta iota. by rewrite Hb.
  - unfold MetaSession.append_session_event_fenced. gated st. rewrite Hs. cbn beta iota. by rewrite Hb.
  - unfold MetaTeleport.teleport_admit. gated st. rewrite Hs. cbn beta iota. by rewrite Hb.
  - by eapply advance_stale.
  - destruct Hx as (x&Hx&<-). unfold MetaTeleport.teleport_commit. gated st. rewrite Hx. cbn beta iota.
    destruct (_ && _); [|done]. cbn beta iota. rewrite Hs. cbn beta iota. by rewrite Hb.
  - destruct Hx as (x&Hx&<-). unfold MetaTeleport.teleport_release_source. gated st. rewrite Hx.
    cbn beta iota. rewrite (epoch_stale_true _ _ (db st) r) by done. by rewrite orb_true_r.
  - destruct Hx as (x&Hx&<-). unfold MetaTeleport.teleport_settle. gated st. rewrite Hx.
    cbn beta iota. rewrite (epoch_stale_true _ _ (db st) r) by done. by rewrite orb_true_r.
  - unfold MetaTeleport.teleport_abort. run_m. destruct (outage st); [done|]. cbn beta iota.
    by eapply advance_stale.
Qed.

(** ** Transitions *)

(** What a legal transition leaves on the row. *)
Lemma transition_row_binding target disp now r :
  binding_disposition_legal target (bool_decide (is_Some (SessRow.sandbox_id r))) disp = true →
  let r' := MetaSession.transition_row target disp now r in
  ((SessRow.status r' = target ∧ SessRow.host_id r' = SessRow.host_id r) ∧
   SessRow.sandbox_id r' = disposed disp (SessRow.sandbox_id r)) ∧
  (may_own_sandbox target = false → SessRow.sandbox_id r' = None).
Proof.
  intros Hl. cbv zeta.
  assert (H : SessRow.status (MetaSession.transition_row target disp now r) = target ∧
              SessRow.host_id (MetaSession.transition_row target disp now r) = SessRow.host_id r ∧
              SessRow.sandbox_id (MetaSession.transition_row target disp now r)
                = disposed disp (SessRow.sandbox_id r)).
  { unfold MetaSession.transition_row. by destruct disp, target. }
  destruct H as (Hs&Hh&Hb). repeat (split; [done|]). rewrite Hb. intros Hm.
  destruct (SessRow.sandbox_id r) as [sb|] eqn:Esb; [|by destruct disp].
  rewrite bool_decide_eq_true_2 in Hl by by eexists.
  destruct disp; [done|..];
    by rewrite (binding_retain_owner _ _ Hl) in Hm.
Qed.

(** ** Properties *)

(** C1. The fence of the metadata store: once a claim has moved a session's
    epoch past [e], every call that still presents [e] for that session (a
    fenced transition, binding, park, queue or teleport call, or an op's step,
    heartbeat, finish or requeue) leaves the whole store unchanged, after any
    number of other calls. *)
Theorem store_stale_epoch_fenced env cs cs' st st' s r e c :
  run (Store_new env) cs st → run st cs' st' →
  sessions (db st) !! s = Some r → (e < SessRow.current_epoch r)%Z →
  Forall (fun c' => deleted_by c' ≠ Some s) cs' →
  presents (db st') s e c → exec c st' = st'.
Proof.
  intros Hrun Hrun' Hs He Hsp Hp. pose proof (run_inv _ _ _ Hrun) as Hinv.
  destruct (run_epoch_mono _ _ _ _ _ Hrun' Hinv Hsp Hs) as (r'&Hs'&?&_).
  apply (stale_call_noop c s e st' r'); [by eapply run_inv_from|exact Hs'|lia|exact Hp].
Qed.

Lemma store_stale_epoch_fenced_witness :
  let st' := execs [OpFinish 1 1 OpState.Done None 20; OpEnqueue 10 Evict JNull None "b" 21]
               (demo demo_boot) in
  exec (FencedTransition 10 0 Idle Detach 22) st' = st'.
Proof.
  eapply (store_stale_epoch_fenced None demo_boot
    [OpFinish 1 1 OpState.Done None 20; OpEnqueue 10 Evict JNull None "b" 21]
    (demo demo_boot) _ 10 _ 0).
  - apply demo_run. vm_compute. reflexivity.
  - apply run_execs. vm_compute. reflexivity.
  - vm_compute. reflexivity.
  - vm_compute. reflexivity.
  - repeat constructor; done.
  - done.
Defined.

(** C2. Lane exclusion in the database: at every moment an existing session has
    at most one running op, that op carries exactly the session's current
    epoch, and no two active ops share a (session, kind, idempotency key). *)
Theorem store_lane_exclusion env cs st :
  run (Store_new env) cs st →
  ∀ i j oi oj r, session_ops (db st) !! i = Some oi → session_ops (db st) !! j = Some oj →
    OpRow.session_id oi = OpRow.session_id oj →
    sessions (db st) !! OpRow.session_id oi = Some r →
    (OpRow.state oi = OpState.Running → OpRow.epoch oi = Some (SessRow.current_epoch r)) ∧
    (OpRow.state oi = OpState.Running → OpRow.state oj = OpState.Running → i = j) ∧
    (OpState.active (OpRow.state oi) = true → OpState.active (OpRow.state oj) = true →
     OpRow.kind oi = OpRow.kind oj → is_Some (OpRow.idempotency_key oi) →
     OpRow.idempotency_key oi = OpRow.idempotency_key oj → i = j).
Proof.
  intros Hrun i j oi oj r Hi Hj Hs Hr. pose proof (mi_ops _ (run_inv _ _ _ Hrun)) as Hinv.
  assert (Li : a_ops (MetaOps.abs (db st)) !! i = Some (op_row_to_domain oi))
    by (apply MetaOps.lookup_abs; exists oi; rewrite Hr; eauto).
  assert (Lj : a_ops (MetaOps.abs (db st)) !! j = Some (op_row_to_domain oj))
    by (apply MetaOps.lookup_abs; exists oj; rewrite <- Hs, Hr; eauto).
  split; [|split].
  - intros Hst. pose proof (inv_running_epoch _ Hinv _ _ Li Hst) as He. cbn in He.
    by rewrite MetaOps.epoch_abs, Hr in He.
  - intros. by eapply (inv_one_running _ Hinv).
  - intros. by eapply (inv_key_unique _ Hinv).
Qed.

Lemma store_lane_exclusion_witness :
  (SessRow.current_epoch <$> sessions (db (demo demo_boot)) !! 10%N) = Some 1%Z ∧
  ∀ j oj, session_ops (db (demo demo_boot)) !! j = Some oj → OpRow.session_id oj = 10%N →
    OpRow.state oj = OpState.Running → 1%Z = j.
Proof.
  split; [vm_compute; reflexivity|]. intros j oj Hj Hs Hr.
  eapply (proj1 (proj2 (store_lane_exclusion None demo_boot (demo demo_boot)
    (demo_run demo_boot ltac:(vm_compute; reflexivity)) 1 j _ oj _
    ltac:(vm_compute; reflexivity) Hj (eq_sym Hs) ltac:(vm_compute; reflexivity)))).
  - reflexivity.
  - exact Hr.
Defined.

(** C30. The op methods of the store refine the abstract op log: each call is a
    sequence of its steps on the ops of existing sessions. *)
Theorem store_ops_refinement env cs st c :
  run (Store_new env) cs st → is_op_call c = true → call_ok c st →
  rtc astep (MetaOps.abs (db st)) (MetaOps.abs (db (exec c st))).
Proof.
  intros Hrun Hop Hok. apply (op_call_refines c st Hop Hok).
  apply (mi_ops_wf _ (run_inv _ _ _ Hrun)).
Qed.

Lemma store_ops_refinement_witness :
  rtc astep (MetaOps.abs (db (demo demo_boot)))
    (MetaOps.abs (db (exec (OpFinish 1 1 OpState.Done None 20) (demo demo_boot)))).
Proof.
  apply (store_ops_refinement None demo_boot).
  - apply demo_run. vm_compute. reflexivity.
  - reflexivity.
  - reflexivity.
Defined.

(** Every status change the store logs is an edge of the session state
    machine, except the dead-host flip, which only ever enters [HostLost]. *)
Theorem store_transitions_legal env cs st x :
  run (Store_new env) cs st → x ∈ transition_log (db st) →
  can_transition_to (TransitionLogEntry.from x) (TransitionLogEntry.to x) = true ∨
  (TransitionLogEntry.exempt x = true ∧ TransitionLogEntry.to x = HostLost).
Proof.
  intros Hrun Hx. pose proof (mi_log _ (run_inv _ _ _ Hrun) x Hx) as H.
  destruct (TransitionLogEntry.exempt x); auto.
Qed.

Lemma store_transitions_legal_witness :
  let x := TransitionLogEntry.Mk 10 Created Active false in
  can_transition_to (TransitionLogEntry.from x) (TransitionLogEntry.to x) = true ∨
  (TransitionLogEntry.exempt x = true ∧ TransitionLogEntry.to x = HostLost).
Proof.
  apply (store_transitions_legal None demo_boot (demo demo_boot)).
  - apply demo_run. vm_compute. reflexivity.
  - vm_compute. apply list_elem_of_further, list_elem_of_here.
Defined.

(** Terminal means terminal: a session that is failed, completed or dead
    keeps its row and its status under every further sequence of calls. *)
Theorem store_terminal_absorbing env cs cs' st st' s r :
  run (Store_new env) cs st → run st cs' st' →
  sessions (db st) !! s = Some r → is_terminal (SessRow.status r) = true →
  ∃ r', sessions (db st') !! s = Some r' ∧ SessRow.status r' = SessRow.status r.
Proof. intros Hrun Hrun'. eapply run_terminal; [done|by eapply run_inv]. Qed.

Lemma store_terminal_absorbing_witness :
  ∃ r', sessions (db (execs [TransitionSession 10 Active Retain 31]
                        (demo (demo_boot ++ [TerminateSession 10 30])))) !! 10%N = Some r' ∧
        SessRow.status r' = Completed.
Proof.
  edestruct (store_terminal_absorbing None (demo_boot ++ [TerminateSession 10 30])
            [TransitionSession 10 Active Retain 31]
            (demo (demo_boot ++ [TerminateSession 10 30])) 
            (execs [TransitionSession 10 Active Retain 31]
               (demo (demo_boot ++ [TerminateSession 10 30]))) 10) as (r'&H1&H2).
  - apply demo_run. vm_compute. reflexivity.
  - apply run_execs. vm_compute. reflexivity.
  - vm_compute. reflexivity.
  - vm_compute. reflexivity.
  - exists r'. split; [exact H1|]. rewrite H2. reflexivity.
Defined.

(** A session is in at most one open teleport at a time, whatever the
    interleaving of admissions, advances, commits, releases and settles. *)
Theorem store_one_open_teleport env cs st t1 t2 r1 r2 :
  run (Store_new env) cs st →
  teleports (db st) !! t1 = Some r1 → teleports (db st) !! t2 = Some r2 →
  TeleportRow.session_id r1 = TeleportRow.session_id r2 →
  TeleportRow.is_open r1 = true → TeleportRow.is_open r2 = true → t1 = t2.
Proof. intros Hrun. apply (mi_one_open _ (run_inv _ _ _ Hrun)). Qed.

Lemma store_one_open_teleport_witness :
  (TeleportRow.is_open <$> teleports (db (demo demo_move)) !! 7%N) = Some true ∧
  map_Forall (fun t r => TeleportRow.session_id r = 10%N → TeleportRow.is_open r = true → t = 7%N)
    (teleports (db (demo demo_move))).
Proof.
  split; [vm_compute; reflexivity|]. intros t r Ht Hs Ho.
  eapply (store_one_open_teleport None demo_move (demo demo_move)).
  - apply demo_run. vm_compute. reflexivity.
  - exact Ht.
  - vm_compute. reflexivity.
  - rewrite Hs. reflexivity.
  - exact Ho.
  - reflexivity.
Defined.

(** Event logs are dense: the events of an existing session carry the
    indices 0, 1, 2, ... in order, and the next index is their number. *)
Theorem store_event_log_dense env cs st s r :
  run (Store_new env) cs st → sessions (db st) !! s = Some r →
  PersistedEvent.idx <$> events_of (db st) s = seqZ 0 (SessRow.next_event_idx r) ∧
  SessRow.next_event_idx r = Z.of_nat (length (events_of (db st) s)).
Proof.
  intros Hrun Hs. destruct (mi_events _ (run_inv _ _ _ Hrun) _ _ Hs) as [Hpos Hidx].
  split; [done|]. rewrite <- (length_fmap PersistedEvent.idx), Hidx, length_seqZ. lia.
Qed.

Lemma store_event_log_dense_witness :
  (PersistedEvent.idx <$> events_of (db (demo demo_move)) 10) = [0%Z].
Proof.
  edestruct (store_event_log_dense None demo_move (demo demo_move) 10) as [H _].
  - apply demo_run. vm_compute. reflexivity.
  - vm_compute. reflexivity.
  - rewrite H. vm_compute. reflexivity.
Defined.

(** A status transition does exactly what it says, on every branch: it fails
    without touching the store during an outage, on an unknown session, on an
    illegal edge and on a binding disposition the target forbids; otherwise it
    returns the old status, rewrites that one row to the target status with the
    binding the disposition leaves (never one on a state that cannot own a
    sandbox), and logs the edge. *)
Theorem session_transition_exact id target disp now st :
  let '(res, st') := MetaSession.transition_session id target disp now st in
  match res with
  | Ok prev => ∃ r r',
      sessions (db st) !! id = Some r ∧ prev = SessRow.status r ∧
      can_transition_to prev target = true ∧
      sessions (db st') = <[id := r']> (sessions (db st)) ∧
      SessRow.status r' = target ∧ SessRow.host_id r' = SessRow.host_id r ∧
      SessRow.sandbox_id r' = disposed disp (SessRow.sandbox_id r) ∧
      (may_own_sandbox target = false → SessRow.sandbox_id r' = None) ∧
      transition_log (db st') = transition_log (db st) ++
        [TransitionLogEntry.Mk id prev target false]
  | Err e => st' = st ∧
      (outage st = true ∨ sessions (db st) !! id = None ∨
       ∃ r, sessions (db st) !! id = Some r ∧
         (can_transition_to (SessRow.status r) target = false ∨
          binding_disposition_legal target (bool_decide (is_Some (SessRow.sandbox_id r))) disp
            = false))
  end.
Proof.
  unfold MetaSession.transition_session. run_m. destruct (outage st); [auto|]. cbn beta iota.
  destruct (sessions (db st) !! id) as [r|] eqn:Er; cbn beta iota; [|auto].
  destruct (check_transition_cases r target disp st) as [[e He]|(->&Ht&Hl)].
  - rewrite He. split; [done|]. right; right. exists r. split; [done|]. revert He.
    unfold MetaSession.check_transition, try_transition_to.
    destruct (can_transition_to _ _); [right|auto].
    by destruct (binding_disposition_legal _ _ _).
  - cbn beta iota. match goal with |- context [MetaSession.notify_freed ?a ?b ?s] =>
      destruct (notify_freed_db a b s) as (st'&->&Hd) end. cbn beta iota.
    exists r, (MetaSession.transition_row target disp now r). rewrite Hd. db_red.
    destruct (transition_row_binding target disp now r Hl) as [[[? ?] ?] ?].
    repeat (split; [done|]). done.
Qed.
