(* ===== verification/Reserve.v ===== *)
(** * Reservation accounting

    The sums [reserved_budgets] computes, as additive loads over the tables,
    and what creating a session, placing a queued one, admitting a teleport and
    committing it do to the load of every host. *)

From S2P Require Import Prelude Session Teleport OpLogSpec MetaTypes Placement MetaSession.
From S2P Require Import MetaTeleport MetaStep MetaCalls Scenario.
From Stdlib Require Import QArith.

Notation reservation := (HostId * Z * Z)%type (only parsing).

(** ** Loads *)

Definition padd (a b : Z * Z) : Z * Z := (a.1 + b.1, a.2 + b.2)%Z.

Definition load1 (h : HostId) (x : reservation) : Z * Z :=
  if decide (x.1.1 = h) then (x.1.2, x.2) else (0, 0)%Z.

Definition load (h : HostId) (l : list reservation) : Z * Z :=
  foldr (fun x acc => padd (load1 h x) acc) (0, 0)%Z l.

Lemma padd_comm a b : padd a b = padd b a.
Proof. unfold padd. f_equal; lia. Qed.

Lemma padd_assoc a b c : padd a (padd b c) = padd (padd a b) c.
Proof. unfold padd. cbn. f_equal; lia. Qed.

Lemma padd_0_l a : padd (0, 0)%Z a = a.
Proof. by destruct a. Qed.

Lemma padd_0_r a : padd a (0, 0)%Z = a.
Proof. rewrite padd_comm. apply padd_0_l. Qed.

Lemma load_app h l1 l2 : load h (l1 ++ l2) = padd (load h l1) (load h l2).
Proof.
  induction l1 as [|x l1 IH]; cbn; [by rewrite padd_0_l|].
  unfold load in IH. by rewrite IH, padd_assoc.
Qed.

#[export] Instance load_proper h : Proper ((≡ₚ) ==> (=)) (load h).
Proof.
  induction 1 as [|x l1 l2 _ IH|x y l|l1 l2 l3 _ IH1 _ IH2]; cbn; [done| | |congruence].
  - unfold load in IH. by rewrite IH.
  - by rewrite !padd_assoc, (padd_comm (load1 h y)).
Qed.

(** The fold of [reserved_budgets] computes the load. *)
Lemma fold_reservations l m h :
  default (0, 0)%Z (fold_left add_reservation l m !! h) =
  padd (default (0, 0)%Z (m !! h)) (load h l).
Proof.
  revert m. induction l as [|[[h' mem] cpu] l IH]; intros m; cbn [fold_left].
  { by rewrite padd_0_r. }
  rewrite IH. cbn [load foldr]. fold (load h l). rewrite padd_assoc. f_equal.
  unfold add_reservation, load1. cbn. rewrite lookup_insert.
  case_decide; subst; cbn; [done|]. by rewrite padd_0_r.
Qed.

Lemma reserved_of_load d h : reserved_of d h = load h (reservations d).
Proof.
  unfold reserved_of, reserved_budgets. rewrite fold_reservations, lookup_empty. apply padd_0_l.
Qed.

(** ** Loads of a table *)

Section table.
Context {K A : Type} `{Countable K} `{KeyOrd K} (f : A → option reservation).
Implicit Types (m : gmap K A).

(** The load one row puts on [h]. *)
Definition row_load (h : HostId) (x : A) : Z * Z :=
  match f x with Some r => load1 h r | None => (0, 0)%Z end.

Definition table_load (h : HostId) m : Z * Z := load h (omap f (values m)).

Lemma values_perm m : values m ≡ₚ (map_to_list m).*2.
Proof. unfold values. by rewrite btree_perm. Qed.

Lemma table_load_insert_new h m k x :
  m !! k = None → table_load h (<[k := x]> m) = padd (row_load h x) (table_load h m).
Proof.
  intros Hk. unfold table_load. rewrite !values_perm, map_to_list_insert by done. cbn.
  unfold row_load. destruct (f x); [done|]. by rewrite padd_0_l.
Qed.

Lemma table_load_delete h m k x :
  m !! k = Some x → table_load h m = padd (row_load h x) (table_load h (delete k m)).
Proof.
  intros Hk. rewrite <- (insert_id m k x) at 1 by done.
  rewrite <- insert_delete_eq. apply table_load_insert_new. apply lookup_delete_eq.
Qed.

(** Replacing a row moves the load from the old row to the new one. *)
Lemma table_load_update h m k x y :
  m !! k = Some x →
  padd (row_load h x) (table_load h (<[k := y]> m)) = padd (row_load h y) (table_load h m).
Proof.
  intros Hk. rewrite <- insert_delete_eq, table_load_insert_new by apply lookup_delete_eq.
  rewrite (table_load_delete h m k x Hk). rewrite !padd_assoc. f_equal. apply padd_comm.
Qed.

End table.

(** The reservation of a host, table by table. *)
Lemma reserved_of_tables d h :
  reserved_of d h =
  padd (table_load session_reservation h (sessions d))
    (padd (table_load capture_reservation h (capture_jobs d))
       (padd (table_load dest_reservation h (teleports d))
             (table_load source_reservation h (teleports d)))).
Proof. rewrite reserved_of_load. unfold reservations. by rewrite !load_app. Qed.

(** Inserting a fresh session row adds its load and nothing else. *)
Lemma reserved_of_new_session d d' s r h :
  sessions d !! s = None → sessions d' = <[s := r]> (sessions d) →
  capture_jobs d' = capture_jobs d → teleports d' = teleports d →
  reserved_of d' h = padd (row_load session_reservation h r) (reserved_of d h).
Proof.
  intros Hs Hs' Hc Ht. rewrite !reserved_of_tables, Hs', Hc, Ht.
  rewrite table_load_insert_new by done. by rewrite !padd_assoc.
Qed.

(** Rewriting a session row that reserved nothing adds the new row's load. *)
Lemma reserved_of_put_session d d' s r r' h :
  sessions d !! s = Some r → row_load session_reservation h r = (0, 0)%Z →
  sessions d' = <[s := r']> (sessions d) →
  capture_jobs d' = capture_jobs d → teleports d' = teleports d →
  reserved_of d' h = padd (row_load session_reservation h r') (reserved_of d h).
Proof.
  intros Hs H0 Hs' Hc Ht. rewrite !reserved_of_tables, Hs', Hc, Ht.
  pose proof (table_load_update session_reservation h (sessions d) s r r' Hs) as Hu.
  rewrite H0, padd_0_l in Hu. rewrite Hu. by rewrite !padd_assoc.
Qed.

(** ** What placing does *)

(** The host's budgets after the placement, when the host is measured. *)
Definition within_capacity (env : option Q) (d : SimDb) (h : HostId) : Prop :=
  ∃ r, hosts d !! h = Some r ∧
    (allocatable_mib (HostRecord.utilization r) = 0%Z ∨
     ((reserved_of d h).1 ≤ as_i64 (allocatable_mib (HostRecord.utilization r)) ∧
      (reserved_of d h).2 ≤ host_cpu_budget env (HostRecord.total_vcpus r))%Z).

Lemma pick_within env d d' mem cpu cand k h :
  hosts_keyed d → pick_host_2d env d mem cpu cand k = Some h →
  hosts d' = hosts d → reserved_of d' h = padd (mem, cpu) (reserved_of d h) →
  within_capacity env d' h.
Proof.
  intros Hk Hp Hh Hr. pose proof (pick_host_2d_spec env d mem cpu cand k Hk) as Hs.
  rewrite Hp in Hs. apply placement_spec_elem in Hs as [_ [[f Hf]|Hu]]; [..|apply take_sub].
  - destruct (sim_fit_capacity env d mem cpu h f Hk Hf) as (r&Hr'&_&_&_&Hm&Hc).
    exists r. rewrite Hh, Hr. split; [done|]. right.
    unfold padd. cbn [fst snd]. lia.
  - unfold sim_unmeasured in Hu. destruct (hosts d !! h) as [r|] eqn:Er; [|done].
    bool_prop. exists r. rewrite Hh. auto.
Qed.

Lemma row_load_pending h r mem cpu :
  SessRow.status r = Pending → SessRow.host_id r = Some h →
  SessRow.mem_budget_mib r = mem → SessRow.cpu_budget_vcpus r = cpu →
  row_load session_reservation h r = (mem, cpu).
Proof.
  intros Hs Hh <- <-. unfold row_load, session_reservation. rewrite Hs, Hh. cbn.
  unfold load1. by rewrite decide_True.
Qed.

Lemma demo_keyed cs : runb cs (Store_new None) = true → hosts_keyed (db (demo cs)).
Proof.
  intros H h r Hh. by apply (mi_hosts_keyed _ (run_inv _ _ _ (demo_run cs H))).
Qed.

(** Creating a session never oversubscribes a host: when the create
    transaction places the session, the new row is pending on the chosen host
    and everything reserved on that host, the new session included, is within
    its memory and vcpu budgets (or the host has not reported its memory). *)
Theorem create_within_capacity ws cand aff now st st' h :
  hosts_keyed (db st) → sessions (db st) !! SessionCreateWriteSet.session_id ws = None →
  MetaSession.reserve_and_persist_create ws cand aff now st
    = (Ok (CreateDisposition.Placed h), st') →
  (∃ r, sessions (db st') !! SessionCreateWriteSet.session_id ws = Some r ∧
        SessRow.status r = Pending ∧ SessRow.host_id r = Some h) ∧
  within_capacity (env_cpu_overcommit st) (db st') h.
Proof.
  intros Hk Hnew. unfold MetaSession.reserve_and_persist_create. gated st.
  destruct (match SessionCreateWriteSet.oauth_binding ws with Some _ => _ | None => _ end); [done|].
  destruct (pick_host_2d _ _ _ _ _ _) as [h'|] eqn:Ep;
    destruct (SessionCreateWriteSet.sealed_secrets ws),
      (SessionCreateWriteSet.capabilities ws),
      (SessionCreateWriteSet.integration_policy_json ws),
      (SessionCreateWriteSet.oauth_binding ws); cbn beta iota; try done;
    intros Heq; injection Heq as -> <-;
    (split; [eexists; split; [apply lookup_insert_eq|done]|];
     eapply pick_within; [exact Hk|exact Ep|done|];
     erewrite reserved_of_new_session; [|exact Hnew|reflexivity|done|done];
     by erewrite row_load_pending).
Qed.

Lemma create_within_capacity_witness :
  within_capacity None
    (db (MetaSession.reserve_and_persist_create (demo_create 10) [1; 2]%N 0 3 (demo demo_fleet)).2) 1.
Proof.
  eapply (create_within_capacity (demo_create 10) [1; 2]%N 0 3 (demo demo_fleet)).
  - apply demo_keyed. vm_compute. reflexivity.
  - vm_compute. reflexivity.
  - vm_compute. reflexivity.
Defined.

(** Admitting a teleport adds the destination's hold and nothing else. *)
Lemma admit_adds h (d d' : SimDb) t r s s' sid :
  sessions d !! sid = Some s → teleports d !! t = None →
  sessions d' = <[sid := s']> (sessions d) → teleports d' = <[t := r]> (teleports d) →
  capture_jobs d' = capture_jobs d →
  row_load session_reservation h s' = row_load session_reservation h s →
  row_load source_reservation h r = (0, 0)%Z →
  reserved_of d' h = padd (row_load dest_reservation h r) (reserved_of d h).
Proof.
  intros Hs Ht Es Et Ec H1 H2. rewrite !reserved_of_tables, Es, Et, Ec.
  pose proof (table_load_update session_reservation h _ _ s s' Hs) as U1.
  rewrite (table_load_insert_new dest_reservation h _ _ r Ht).
  rewrite (table_load_insert_new source_reservation h _ _ r Ht), H2, padd_0_l. rewrite H1 in U1.
  revert U1. generalize (row_load session_reservation h s) (row_load dest_reservation h r).
  intros [] [] U1. destruct (table_load session_reservation h (sessions d)),
    (table_load session_reservation h (<[sid:=s']> (sessions d))). unfold padd in *. cbn in *.
  injection U1 as ??. f_equal; lia.
Qed.

(** The destination is one of the candidates that survive the filter. *)
Lemma pick_other env d mem cpu cand k h (src : HostId) (P : HostId → bool) :
  hosts_keyed d →
  pick_host_2d env d mem cpu (List.filter (fun x => negb (bool_decide (x = src)) && P x) cand) k
    = Some h → h ≠ src.
Proof.
  intros Hk Hp. pose proof (pick_host_2d_spec env d mem cpu
    (List.filter (fun x => negb (bool_decide (x = src)) && P x) cand) k Hk) as Hs.
  rewrite Hp in Hs. apply placement_spec_elem in Hs as [Hin _]; [|apply take_sub].
  apply elem_of_filterb in Hin as [_ Hb]. by bool_prop.
Qed.

(** Admitting a move never oversubscribes its destination: the admitted row
    names a destination other than the session's current host, the session is
    evacuating from its recorded binding, and everything reserved on the
    destination, the new hold included, is within its budgets (or the host
    has not reported its memory). *)
Theorem admit_within_capacity req now st st' row :
  hosts_keyed (db st) →
  MetaTeleport.teleport_admit req now st = (Ok (Admitted_ row), st') →
  teleports (db st') !! TeleportAdmitRequest.id req = Some row ∧
  TeleportRow.phase row = TeleportPhase.Admitted_ ∧
  TeleportRow.dest_host_id row ≠ TeleportRow.source_host_id row ∧
  (∃ s, sessions (db st') !! TeleportAdmitRequest.session_id req = Some s ∧
        SessRow.status s = Evacuating ∧
        SessRow.host_id s = Some (TeleportRow.source_host_id row) ∧
        SessRow.sandbox_id s = Some (TeleportRow.source_sandbox_id row)) ∧
  within_capacity (env_cpu_overcommit st) (db st') (TeleportRow.dest_host_id row).
Proof.
  intros Hk. unfold MetaTeleport.teleport_admit. gated st.
  destruct (sessions (db st) !! _) as [s|] eqn:Es; cbn beta iota; [|done].
  destruct (bool_decide (SessRow.current_epoch s = _)); cbn beta iota; [|done].
  destruct (existsb _ _); [done|]. destruct (negb _) eqn:Ea; [done|].
  destruct (SessRow.host_id s) as [src|] eqn:Eh; [|done].
  destruct (SessRow.sandbox_id s) as [sb|] eqn:Esb; [|done].
  destruct (pick_host_2d _ _ _ _ _ _) as [dest|] eqn:Ep; [|done].
  destruct (bool_decide (is_Some _)) eqn:Et; [done|].
  destruct (i32_try_from _) as [cpu|] eqn:Ec; [|done]. cbn beta iota.
  intros Heq; injection Heq as <- <-. bool_prop. apply eq_None_not_Some in Et.
  assert (Hcpu : cpu = TeleportAdmitRequest.cpu_budget_vcpus req).
  { unfold i32_try_from in Ec. by case_decide; simplify_eq. }
  split; [by apply lookup_insert_eq|]. split; [done|]. split; [|split].
  - exact (pick_other _ _ _ _ _ _ _ src (fun h => bool_decide (MetaTeleport.open_to h (db st)
             < N.to_nat (TeleportAdmitRequest.max_open_per_dest req))%nat) Hk Ep).
  - eexists. split; [by apply lookup_insert_eq|]. done.
  - eapply pick_within; [exact Hk|exact Ep|done|].
    erewrite (admit_adds _ (db st)); [|exact Es|exact Et|done..| |].
    + unfold row_load at 1, dest_reservation. cbn.
      change (TeleportPhase.reserves_dest TeleportPhase.Admitted_) with true. cbn.
      unfold load1. cbn. by rewrite decide_True, Hcpu.
    + unfold row_load, session_reservation, SessRow.status, SessRow.host_id in *. cbn.
      by rewrite Ea.
    + done.
Qed.

Lemma admit_within_capacity_witness :
  within_capacity None (db (MetaTeleport.teleport_admit demo_admit 7 (demo demo_boot)).2) 2.
Proof.
  edestruct (admit_within_capacity demo_admit 7 (demo demo_boot)
               (MetaTeleport.teleport_admit demo_admit 7 (demo demo_boot)).2) as (_&_&_&_&H).
  - apply demo_keyed. vm_compute. reflexivity.
  - vm_compute. reflexivity.
  - exact H.
Defined.

(** A move whose two tables shift opposite loads leaves the sums alone. *)
Lemma padd_shift (S S' c D D' C C' a b : Z * Z) :
  padd a S' = padd b S → padd b D' = D → C' = padd a C →
  padd S' (padd c (padd D' C')) = padd S (padd c (padd D C)).
Proof.
  destruct S, S', c, D, D', C, C', a, b. unfold padd. cbn.
  intros [= ? ?] [= ? ?] [= ? ?]. f_equal; lia.
Qed.

(** Committing moves the session's load to the destination, drops the
    destination's hold and starts the source's. *)
Lemma commit_shifts h (d d' : SimDb) t r r' s s' :
  sessions d !! TeleportRow.session_id r = Some s → teleports d !! t = Some r →
  sessions d' = <[TeleportRow.session_id r := s']> (sessions d) →
  teleports d' = <[t := r']> (teleports d) → capture_jobs d' = capture_jobs d →
  row_load session_reservation h s = row_load source_reservation h r' →
  row_load session_reservation h s' = row_load dest_reservation h r →
  row_load dest_reservation h r' = (0, 0)%Z → row_load source_reservation h r = (0, 0)%Z →
  reserved_of d' h = reserved_of d h.
Proof.
  intros Hs Ht Es Et Ec H1 H2 H3 H4. rewrite !reserved_of_tables, Es, Et, Ec.
  pose proof (table_load_update session_reservation h _ _ s s' Hs) as U1.
  pose proof (table_load_update dest_reservation h _ _ r r' Ht) as U2.
  pose proof (table_load_update source_reservation h _ _ r r' Ht) as U3.
  rewrite H3, padd_0_l in U2. rewrite H4, padd_0_l in U3. rewrite H1, H2 in U1.
  by eapply padd_shift.
Qed.

(** C28. Committing a teleport is an atomic swap: it happens only from the
    restored phase, under the session's epoch, while the session is evacuating
    on the recorded source binding; it moves the binding to the destination,
    mints the next binding epoch, and, when the move carries the session's own
    budgets, leaves the load of every host exactly as it was. *)
Theorem teleport_commit_swaps t e now st st' minted :
  MetaTeleport.teleport_commit t e now st = (Ok (Some minted), st') →
  ∃ r s s' r',
    teleports (db st) !! t = Some r ∧ TeleportRow.phase r = TeleportPhase.Restored ∧
    sessions (db st) !! TeleportRow.session_id r = Some s ∧
    SessRow.current_epoch s = e ∧ SessRow.status s = Evacuating ∧
    SessRow.host_id s = Some (TeleportRow.source_host_id r) ∧
    SessRow.sandbox_id s = Some (TeleportRow.source_sandbox_id r) ∧
    sessions (db st') !! TeleportRow.session_id r = Some s' ∧
    SessRow.host_id s' = Some (TeleportRow.dest_host_id r) ∧
    SessRow.sandbox_id s' = TeleportRow.dest_sandbox_id r ∧ is_Some (SessRow.sandbox_id s') ∧
    minted = (SessRow.binding_epoch s + 1)%Z ∧ SessRow.binding_epoch s' = minted ∧
    teleports (db st') !! t = Some r' ∧ TeleportRow.phase r' = TeleportPhase.Committed ∧
    (SessRow.mem_budget_mib s = TeleportRow.mem_budget_mib r →
     SessRow.cpu_budget_vcpus s = TeleportRow.cpu_budget_vcpus r →
     ∀ h, reserved_of (db st') h = reserved_of (db st) h).
Proof.
  unfold MetaTeleport.teleport_commit. gated st.
  destruct (teleports (db st) !! t) as [r|] eqn:Et; cbn beta iota; [|done].
  destruct (_ && _) eqn:Ep; cbn beta iota; [|done].
  destruct (sessions (db st) !! TeleportRow.session_id r) as [s|] eqn:Es; cbn beta iota; [|done].
  destruct (_ && _ && _ && _) eqn:Eg; cbn beta iota; [|done].
  intros Heq; injection Heq as <- <-. db_red. bool_prop.
  eexists r, s, _, _. do 7 (split; [done|]).
  split; [by apply lookup_insert_eq|]. do 4 (split; [done|]).
  split; [done|]. split; [by apply lookup_insert_eq|]. split; [done|].
  intros Hm Hc h. eapply (commit_shifts h _ _ t r _ s); try done;
    unfold row_load, session_reservation, source_reservation, dest_reservation;
    unfold SessRow.status, SessRow.host_id in *; cbn; simplify_eq;
    repeat match goal with H : _ = _ |- _ => rewrite H end; done.
Qed.

Lemma teleport_commit_swaps_witness :
  ∃ s', sessions (db (MetaTeleport.teleport_commit 7 1 10 (demo demo_move)).2) !! 10%N = Some s' ∧
        SessRow.host_id s' = Some 2%N.
Proof.
  edestruct (teleport_commit_swaps 7 1 10 (demo demo_move)) as (r&s&s'&r'&Hr&_&_&_&_&_&_&Hs&Hh&_).
  - vm_compute. reflexivity.
  - assert (E : teleports (db (demo demo_move)) !! 7%N = Some r) by exact Hr.
    vm_compute in E. injection E as <-. exists s'. split; [exact Hs|exact Hh].
Defined.

(** Placing a queued session never oversubscribes a host: when the fit is
    made with the session's own budgets, the placed row is pending on a host on
    which everything reserved, the session included, is within its budgets. *)
Theorem place_queued_within_capacity id mem cpu cand aff now st st' h r :
  hosts_keyed (db st) → sessions (db st) !! id = Some r →
  SessRow.mem_budget_mib r = mem → SessRow.cpu_budget_vcpus r = cpu →
  MetaSession.place_queued_session id mem cpu cand aff now st = (Ok (Some h), st') →
  SessRow.status r = Queued ∧ h ∈ cand ∧
  (∃ r', sessions (db st') !! id = Some r' ∧ SessRow.status r' = Pending ∧
         SessRow.host_id r' = Some h) ∧
  within_capacity (env_cpu_overcommit st) (db st') h.
Proof.
  intros Hk Hs Hm Hc. unfold MetaSession.place_queued_session. gated st.
  destruct cand as [|c cand]; [done|]. rewrite Hs. cbn beta iota.
  destruct (pick_host_2d _ _ _ _ _ _) as [h'|] eqn:Ep; [|done].
  destruct (negb _) eqn:Eq; [done|]. intros Heq; injection Heq as -> <-. bool_prop. db_red.
  split; [done|]. split.
  { pose proof (pick_host_2d_spec (env_cpu_overcommit st) (db st) mem cpu (c :: cand) aff Hk) as Hp.
    rewrite Ep in Hp. apply placement_spec_elem in Hp; [apply Hp|apply take_sub]. }
  split; [eexists; split; [by apply lookup_insert_eq|done]|].
  eapply pick_within; [exact Hk|exact Ep|done|].
  erewrite (reserved_of_put_session (db st)); [|exact Hs| |reflexivity|done|done].
  - by erewrite row_load_pending.
  - unfold row_load, session_reservation. by rewrite Eq.
Qed.

Lemma place_queued_within_capacity_witness :
  within_capacity None
    (db (MetaSession.place_queued_session 10 2048 1 [1; 2]%N 0 20
           (demo ([ReserveCreate (demo_create 10) [] 0 3] ++ demo_fleet))).2) 1.
Proof.
  edestruct (place_queued_within_capacity 10 2048 1 [1; 2]%N 0 20
            (demo ([ReserveCreate (demo_create 10) [] 0 3] ++ demo_fleet))
            (MetaSession.place_queued_session 10 2048 1 [1; 2]%N 0 20
              (demo ([ReserveCreate (demo_create 10) [] 0 3] ++ demo_fleet))).2) as (_&_&_&H).
  - apply demo_keyed. vm_compute. reflexivity.
  - vm_compute. reflexivity.
  - vm_compute. reflexivity.
  - vm_compute. reflexivity.
  - vm_compute. reflexivity.
  - exact H.
Defined.
