(* ===== verification/HostProps.v ===== *)
(** * Hosts: death, strays, leases and retirement

    What the host transactions of the store guarantee: which sessions a dead
    host loses, which sandboxes are entombed, that a live lease keeps a host
    alive, and that retirement is granted only to an empty host and is
    permanent. *)

From S2P Require Import Prelude Session Teleport OpLogSpec MetaTypes Placement MetaOps.
From S2P Require Import MetaSession MetaTeleport MetaHost MetaOutbox MetaStep MetaCalls.
From S2P Require Import Scenario.
From Stdlib Require Import QArith.

(** ** Tombstone folds *)

(** A loop of [or_insert]s leaves the old tombstones and one per visited key. *)
Lemma fold_entomb_tombstones {A} (f : SimDb → A → SimDb) (g : A → option (HostId * SandboxId)) l d :
  (∀ d x, match g x with
          | Some k => ∃ v, f d x = d <| sandbox_tombstones ::= or_insert k v |>
          | None => f d x = d end) →
  ∀ k, is_Some (sandbox_tombstones (fold_left f l d) !! k) ↔
       is_Some (sandbox_tombstones d !! k) ∨ ∃ x, x ∈ l ∧ g x = Some k.
Proof.
  intros Hf. revert d. induction l as [|x l IH]; intros d k; cbn [fold_left].
  { split; [by left|]. intros [?|(x&Hx%not_elem_of_nil&_)]; done. }
  rewrite IH. setoid_rewrite elem_of_cons. specialize (Hf d x).
  destruct (g x) as [k'|] eqn:Eg; [destruct Hf as [v ->]|rewrite Hf].
  - change (sandbox_tombstones (d <| sandbox_tombstones ::= or_insert k' v |>)) with
      (or_insert k' v (sandbox_tombstones d)).
    assert (Hor : is_Some (or_insert k' v (sandbox_tombstones d) !! k) ↔
                  is_Some (sandbox_tombstones d !! k) ∨ k = k').
    { unfold or_insert. destruct (_ !! k') eqn:Ek.
      - split; [by left|]. intros [?| ->]; [done|by eexists].
      - rewrite lookup_insert_is_Some'. naive_solver. }
    rewrite Hor. naive_solver.
  - naive_solver.
Qed.

(** ** A dead host *)

(** Session [s] with row [x] goes down with host [h]: it is bound there, not
    terminal, and no open teleport is moving it away from [h]. *)
Definition stranded (d : SimDb) (h : HostId) (s : SessionId) (x : SessRow.t) : Prop :=
  SessRow.host_id x = Some h ∧ is_terminal (SessRow.status x) = false ∧
  ∀ t r, teleports d !! t = Some r → TeleportRow.session_id r = s →
         TeleportRow.source_host_id r = h → TeleportRow.is_open r = false.

Lemma owned_by_move_iff d h s :
  s ∈ MetaHost.owned_by_move h d ↔
  ∃ t r, teleports d !! t = Some r ∧ TeleportRow.session_id r = s ∧
         TeleportRow.source_host_id r = h ∧ TeleportRow.is_open r = true.
Proof.
  unfold MetaHost.owned_by_move. rewrite list_elem_of_fmap. split.
  - intros (r&->&[[t Ht]%elem_of_values Hb]%elem_of_filterb). bool_prop. eauto 10.
  - intros (t&r&Ht&<-&<-&Ho). exists r. split; [done|]. apply elem_of_filterb. rewrite Ho.
    split; [apply elem_of_values; eauto|]. by rewrite bool_decide_eq_true_2.
Qed.

Lemma orphaned_stranded d h s x :
  Session.id (SessRow.session x) = s →
  MetaHost.orphaned h (MetaHost.owned_by_move h d) x = true ↔ stranded d h s x.
Proof.
  intros <-. unfold MetaHost.orphaned, stranded. rewrite !andb_true_iff, !negb_true_iff.
  rewrite bool_decide_eq_true, bool_decide_eq_false, owned_by_move_iff. split.
  - intros [[Hh Hn] Ht]. split; [done|]. split; [done|]. intros t r Hr Hs Hsrc.
    apply not_true_iff_false. intros Ho. apply Hn. eauto 10.
  - intros (Hh&Ht&Hn). split; [split; [done|]|done]. intros (t&r&Hr&Hs&Hsrc&Ho).
    by rewrite (Hn t r) in Ho.
Qed.

(** The transaction, once the guards have passed. *)
Lemma mark_dead_effect h now st st' out r :
  hosts (db st) !! h = Some r → MetaHost.gone (HostRecord.status r) = false →
  MetaHost.mark_host_dead_if_lease_expired h now st = (Ok out, st') →
  let lost := MetaHost.orphaned h (MetaHost.owned_by_move h (db st)) in
  MetaHost.lease_expired now r = true ∧
  hosts (db st') = <[h := r <| HostRecord.status := HostStatus.Dead |>]> (hosts (db st)) ∧
  sessions (db st') = (fun x => if lost x then MetaHost.lose_host now x else x)
                        <$> sessions (db st) ∧
  out = (fun x => (Session.id (SessRow.session x), SessRow.status x))
          <$> List.filter lost (values (sessions (db st))) ∧
  ∀ k, is_Some (sandbox_tombstones (db st') !! k) ↔
    is_Some (sandbox_tombstones (db st) !! k) ∨
    ∃ x, x ∈ List.filter lost (values (sessions (db st))) ∧
         ((fun sb => (h, sb)) <$> SessRow.sandbox_id x) = Some k.
Proof.
  intros Hh Hg. unfold MetaHost.mark_host_dead_if_lease_expired. gated st. rewrite Hh. cbn beta iota.
  rewrite Hg. destruct (MetaHost.lease_expired now r); cbn [negb]; [|done]. cbn beta iota.
  intros Heq; injection Heq as <- <-. db_red. cbv zeta.
  change (MetaHost.owned_by_move h (put_host h ?x (db st))) with (MetaHost.owned_by_move h (db st)).
  match goal with |- context [fold_left ?f ?l ?x] =>
    destruct (fold_entomb_frame f l x) as (_&_&F3&_&F5&_&_);
    [intros d y; destruct (SessRow.sandbox_id y); eauto 10|];
    pose proof (fold_entomb_tombstones f (fun y => (fun sb => (h, sb)) <$> SessRow.sandbox_id y) l x)
      as Ht
  end.
  split; [done|]. split; [exact F5|]. split; [exact F3|]. split; [done|].
  apply Ht. intros d y. destruct (SessRow.sandbox_id y); [by eexists|done].
Qed.

(** C27. The dead-host transaction is exact: it fires only when the lease has
    expired, marks that host and no other dead, and for every session decides
    as specified: a stranded one is reported with its old status, becomes
    [HostLost] without host or sandbox and leaves a tombstone for its sandbox
    on the host; any other session (bound elsewhere, terminal, or owned by an
    open move) keeps its row and is not reported. *)
Theorem dead_host_orphans env cs st st' h now out r :
  run (Store_new env) cs st →
  hosts (db st) !! h = Some r → HostStatus.live (HostRecord.status r) = true →
  MetaHost.mark_host_dead_if_lease_expired h now st = (Ok out, st') →
  MetaHost.lease_expired now r = true ∧
  (∀ h', hosts (db st') !! h' =
     if decide (h' = h) then Some (r <| HostRecord.status := HostStatus.Dead |>)
     else hosts (db st) !! h') ∧
  (∀ s x, sessions (db st) !! s = Some x → stranded (db st) h s x →
     (s, SessRow.status x) ∈ out ∧
     (∃ x', sessions (db st') !! s = Some x' ∧ SessRow.status x' = HostLost ∧
            SessRow.host_id x' = None ∧ SessRow.sandbox_id x' = None) ∧
     (∀ sb, SessRow.sandbox_id x = Some sb → is_Some (sandbox_tombstones (db st') !! (h, sb)))) ∧
  (∀ s x, sessions (db st) !! s = Some x → ¬ stranded (db st) h s x →
     sessions (db st') !! s = Some x ∧ ∀ w, (s, w) ∉ out).
Proof.
  intros Hrun Hh Hl Hex. pose proof (run_inv _ _ _ Hrun) as Hinv.
  assert (Hg : MetaHost.gone (HostRecord.status r) = false) by (unfold MetaHost.gone; by rewrite Hl).
  destruct (mark_dead_effect _ _ _ _ _ _ Hh Hg Hex) as (He&Hhosts&Hsess&Hout&Htomb).
  assert (Hrow : ∀ s x, sessions (db st) !! s = Some x →
    x ∈ List.filter (MetaHost.orphaned h (MetaHost.owned_by_move h (db st)))
          (values (sessions (db st))) ↔ stranded (db st) h s x).
  { intros s x Hs. rewrite elem_of_filterb, elem_of_values.
    rewrite (orphaned_stranded _ _ s) by by apply Hinv. naive_solver. }
  split; [done|]. split; [intros h'; rewrite Hhosts, lookup_insert; repeat case_decide; naive_solver|].
  split; intros s x Hs Hst.
  - pose proof (proj2 (Hrow s x Hs) Hst) as Hin. split; [|split].
    + rewrite Hout. apply list_elem_of_fmap. exists x. split; [|done].
      by rewrite (mi_sess_keyed _ Hinv _ _ Hs).
    + rewrite Hsess, lookup_fmap, Hs. simpl.
      rewrite (proj2 (orphaned_stranded (db st) h s x (mi_sess_keyed _ Hinv _ _ Hs)) Hst). eauto.
    + intros sb Hsb. apply Htomb. right. exists x. by rewrite Hsb.
  - split.
    + rewrite Hsess, lookup_fmap, Hs. simpl. destruct (MetaHost.orphaned _ _ x) eqn:Eo; [|done].
      exfalso. apply Hst. by apply (orphaned_stranded (db st) h s x (mi_sess_keyed _ Hinv _ _ Hs)).
    + intros w. rewrite Hout. intros (y&Heq&Hy)%list_elem_of_fmap. injection Heq as Hid _.
      apply Hst. rewrite <- (Hrow s x Hs).
      destruct (proj1 (elem_of_filterb _ _ _) Hy) as [[s' Hs']%elem_of_values _].
      rewrite (mi_sess_keyed _ Hinv _ _ Hs') in Hid. by simplify_eq.
Qed.

Lemma dead_host_orphans_witness :
  ∃ x', sessions (db (MetaHost.mark_host_dead_if_lease_expired 1 2000 (demo demo_boot)).2)
          !! 10%N = Some x' ∧ SessRow.status x' = HostLost ∧ SessRow.host_id x' = None ∧
        SessRow.sandbox_id x' = None.
Proof.
  edestruct (dead_host_orphans None demo_boot (demo demo_boot)
    (MetaHost.mark_host_dead_if_lease_expired 1 2000 (demo demo_boot)).2 1 2000) as (_&_&H&_).
  - apply demo_run. vm_compute. reflexivity.
  - vm_compute. reflexivity.
  - vm_compute. reflexivity.
  - vm_compute. reflexivity.
  - edestruct (H 10%N) as (_&Hx&_); [vm_compute; reflexivity| |exact Hx].
    split; [vm_compute; reflexivity|]. split; [vm_compute; reflexivity|].
    intros t r Ht. assert (E : teleports (db (demo demo_boot)) = ∅) by (vm_compute; reflexivity).
    rewrite E, lookup_empty in Ht. discriminate Ht.
Defined.

(** ** Stray sandboxes *)

(** A running sandbox on [h] that nothing in the database accounts for: no
    session is bound to it, no open teleport has it as an endpoint (or may be
    restoring an unnamed sandbox on [h]), and no capture job is live on [h]. *)
Definition stray (d : SimDb) (h : HostId) (sb : SandboxId) : Prop :=
  (∀ s x, sessions d !! s = Some x → SessRow.sandbox_id x ≠ Some sb) ∧
  (∀ t r, teleports d !! t = Some r → TeleportRow.is_open r = true →
     TeleportRow.source_sandbox_id r ≠ sb ∧ TeleportRow.dest_sandbox_id r ≠ Some sb ∧
     (TeleportRow.dest_host_id r = h → is_Some (TeleportRow.dest_sandbox_id r))) ∧
  (∀ j c, capture_jobs d !! j = Some c → CaptureJobRow.host_id c = Some h →
     CaptureJobStage.is_terminal (CaptureJobRow.stage c) = true).

Lemma move_owned_false h d sb :
  MetaHost.move_owned h d sb = false ↔
  ∀ t r, teleports d !! t = Some r → TeleportRow.is_open r = true →
     TeleportRow.source_sandbox_id r ≠ sb ∧ TeleportRow.dest_sandbox_id r ≠ Some sb ∧
     (TeleportRow.dest_host_id r = h → is_Some (TeleportRow.dest_sandbox_id r)).
Proof.
  unfold MetaHost.move_owned. rewrite existsb_false. split.
  - intros H t r Ht Ho. specialize (H r (proj2 (elem_of_values _ _) (ex_intro _ t Ht))).
    rewrite Ho in H. cbn in H. apply orb_false_iff in H as [H H3]. bool_prop; try done.
    all: repeat split; try done. intros _. by apply not_eq_None_Some.
  - intros H r [t Ht]%elem_of_values. destruct (TeleportRow.is_open r) eqn:Eo; [|done].
    destruct (H t r Ht Eo) as (H1&H2&H3). cbn.
    rewrite !bool_decide_eq_false_2 by done. cbn.
    destruct (decide (TeleportRow.dest_host_id r = h)) as [Hd|];
      [|by rewrite bool_decide_eq_false_2].
    destruct (H3 Hd) as [z ->]. by rewrite andb_false_r.
Qed.

Lemma unbound_running_iff h running d sb :
  sb ∈ MetaHost.unbound_running h running d ↔ sb ∈ running ∧ stray d h sb.
Proof.
  unfold MetaHost.unbound_running, stray.
  rewrite elem_of_filterb, !andb_true_iff, !negb_true_iff, move_owned_false, existsb_false,
    bool_decide_eq_false.
  assert (Hb : sb ∉ MetaHost.bound_sandboxes d ↔
               ∀ s x, sessions d !! s = Some x → SessRow.sandbox_id x ≠ Some sb).
  { unfold MetaHost.bound_sandboxes. rewrite list_elem_of_omap. setoid_rewrite elem_of_values.
    naive_solver. }
  rewrite Hb. split.
  - intros (Hr&[Hc Hs]&Hm). repeat (split; [done|]). intros j c Hj Hh.
    specialize (Hc c (proj2 (elem_of_values _ _) (ex_intro _ j Hj))).
    rewrite bool_decide_eq_true_2 in Hc by done. by apply negb_false_iff in Hc.
  - intros (Hr&Hs&Hm&Hc). split; [done|]. split; [|done]. split; [|done].
    intros c [j Hj]%elem_of_values.
    destruct (decide (CaptureJobRow.host_id c = Some h)) as [Hh|];
      [|by rewrite bool_decide_eq_false_2].
    unfold MetaHost.live_capture. rewrite (Hc j c Hj Hh). apply andb_false_r.
Qed.

(** The sightings after the stamping loop. *)
Lemma fold_or_insert_lookup {K A B} `{Countable K} (g : B → K) (l : list B) (x : A)
    (m : gmap K A) k y :
  fold_left (fun m b => or_insert (g b) x m) l m !! k = Some y ↔
  m !! k = Some y ∨ (m !! k = None ∧ k ∈ g <$> l ∧ y = x).
Proof.
  revert m. induction l as [|b l IH]; intros m; cbn [fold_left].
  { split; [by left|]. intros [?|(_&?%not_elem_of_nil&_)]; done. }
  rewrite IH, lookup_or_insert, fmap_cons, elem_of_cons.
  assert (Hn : or_insert (g b) x m !! k = None ↔ m !! k = None ∧ k ≠ g b).
  { unfold or_insert. destruct (m !! g b) eqn:E0; [|rewrite lookup_insert_None]; naive_solver congruence. }
  rewrite Hn. destruct (decide (k = g b)) as [->|]; naive_solver.
Qed.

(** The graduates: a stamped sighting no younger than the cutoff. *)
Lemma graduates_iff (h : HostId) (unbound : list SandboxId) (now cutoff : DateTime)
    (seen : gmap (HostId * SandboxId) DateTime) sb :
  let kept := filter (fun kv => kv.1.1 ≠ h ∨ kv.1.2 ∈ unbound) seen in
  let stamped := fold_left (fun m s => or_insert (h, s) now m) unbound kept in
  sb ∈ ((fun kv => kv.1.2) <$>
          List.filter (fun kv => bool_decide (kv.1.1 = h) && bool_decide (kv.2 ≤ cutoff)%Z)
            (btree stamped)) ↔
  sb ∈ unbound ∧ (default now (seen !! (h, sb)) ≤ cutoff)%Z.
Proof.
  intros kept stamped. rewrite list_elem_of_fmap.
  assert (Hkept : ∀ v, kept !! (h, sb) = Some v ↔ seen !! (h, sb) = Some v ∧ sb ∈ unbound).
  { intros v. unfold kept. rewrite map_lookup_filter_Some. naive_solver. }
  assert (Hst : ∀ v, stamped !! (h, sb) = Some v ↔
                     sb ∈ unbound ∧ v = default now (seen !! (h, sb))).
  { intros v. unfold stamped. rewrite (fold_or_insert_lookup (pair h)), Hkept.
    rewrite (list_elem_of_fmap_inj (pair h)).
    destruct (kept !! (h, sb)) as [w|] eqn:Ek.
    - destruct (proj1 (Hkept w) eq_refl) as [-> ?]. naive_solver.
    - destruct (seen !! (h, sb)) as [w|] eqn:Es; [|naive_solver].
      assert (sb ∉ unbound) by (intros Hu; by discriminate (proj2 (Hkept w) (conj eq_refl Hu))). naive_solver. }
  split.
  - intros ([[h' sb'] v]&->&[Hin Hb]%elem_of_filterb). cbn in *. bool_prop. subst h'.
    apply elem_of_btree, Hst in Hin as [? ->]. done.
  - intros [Hu Hc]. exists ((h, sb), default now (seen !! (h, sb))). split; [done|].
    apply elem_of_filterb. rewrite elem_of_btree, Hst. cbn. by rewrite !bool_decide_eq_true_2.
Qed.

(** Entombing strays is safe and live: a sandbox is condemned by one round
    exactly when the host reports it running, nothing in the database accounts
    for it, and it was first sighted unbound at least the grace period ago (now,
    for a first sighting under a zero grace); the round tombstones exactly the
    condemned sandboxes and changes no session, teleport or host. *)
Theorem entomb_exact h running grace now st st' out :
  MetaHost.entomb_stably_unbound h running grace now st = (Ok out, st') →
  (∀ sb, sb ∈ out ↔ sb ∈ running ∧ stray (db st) h sb ∧
     (default now (sandbox_unbound_sightings (db st) !! (h, sb)) ≤ now - grace * 1000000000)%Z) ∧
  (∀ k, is_Some (sandbox_tombstones (db st') !! k) ↔
     is_Some (sandbox_tombstones (db st) !! k) ∨ k.1 = h ∧ k.2 ∈ out) ∧
  sessions (db st') = sessions (db st) ∧ teleports (db st') = teleports (db st) ∧
  hosts (db st') = hosts (db st).
Proof.
  unfold MetaHost.entomb_stably_unbound. gated st.
  set (unbound := MetaHost.unbound_running h running (db st)).
  set (kept := filter _ (sandbox_unbound_sightings (db st))).
  set (stamped := fold_left _ unbound kept). cbv zeta.
  set (out' := _ <$> _). intros Heq. injection Heq as <- <-. db_red.
  match goal with |- context [fold_left ?f out' ?x] =>
    destruct (fold_entomb_frame f out' x) as (_&_&F3&F4&F5&_&_); [eauto 10|];
    pose proof (fold_entomb_tombstones f (fun y => Some (h, y)) out' x) as Ht
  end.
  split; [|split; [|done]].
  - intros sb. subst out' stamped kept unbound.
    etrans; [apply (graduates_iff h (MetaHost.unbound_running h running (db st)))|].
    rewrite unbound_running_iff. tauto.
  - intros k. rewrite Ht by by eexists. destruct k as [h' sb]. naive_solver.
Qed.

Lemma entomb_exact_witness :
  (MetaHost.entomb_stably_unbound 1 [100; 300]%N 0 50 (demo demo_boot)).1 = Ok [300%N] ∧
  300%N ∈ [100; 300]%N ∧ stray (db (demo demo_boot)) 1 300.
Proof.
  split; [vm_compute; reflexivity|].
  edestruct (entomb_exact 1 [100; 300]%N 0 50 (demo demo_boot)) as (H&_).
  - vm_compute. reflexivity.
  - destruct (proj1 (H 300%N) ltac:(apply list_elem_of_here)) as (H1&H2&_). split; [exact H1|exact H2].
Defined.

(** ** Leases *)

(** Calls that leave the host table alone. *)
Definition host_call (c : call) : bool :=
  match c with
  | UpsertHost _ | RequestRetirement _ _ _ _ | CancelRetirement _ _ | GrantRetirement _ _
  | SetHostStatus _ _ | Heartbeat _ _ _ | BeginHandoff _ _ | RenewLease _ _ | SetCordon _ _ _
  | MarkDead _ _ => true
  | _ => false
  end.

(** A computation keeps the projection [p] of the database at [x]. *)
Definition keeps {X A} (p : SimDb → X) (x : X) (m : M A) : Prop :=
  ∀ st, p (db st) = x → p (db (m st).2) = x.

Section keeps.
Context {X : Type} (p : SimDb → X) (x : X).

Lemma keeps_ret {A} (a : A) : keeps p x (mret a).
Proof. intros st Hst. exact Hst. Qed.
Lemma keeps_throw {A} e : keeps p x (@throw A e).
Proof. intros st Hst. exact Hst. Qed.
Lemma keeps_ok_or {A} (o : option A) e : keeps p x (ok_or o e).
Proof. destruct o; intros st Hst; exact Hst. Qed.
Lemma keeps_gate : keeps p x gate.
Proof. intros st Hst. unfold gate. by destruct (outage st). Qed.
Lemma keeps_notify ch n : keeps p x (notify ch n).
Proof. intros st Hst. exact Hst. Qed.
Lemma keeps_notify_text ch n : keeps p x (notify_text ch n).
Proof. intros st Hst. exact Hst. Qed.
Lemma keeps_when b m : keeps p x m → keeps p x (when b m).
Proof. destruct b; [done|]. intros _. apply keeps_ret. Qed.
Lemma keeps_get_env : keeps p x get_env.
Proof. intros st Hst. exact Hst. Qed.
Lemma keeps_put d : p d = x → keeps p x (put_db d).
Proof. intros Hd st _. exact Hd. Qed.
Lemma keeps_modify f : (∀ d, p d = x → p (f d) = x) → keeps p x (modify_db f).
Proof. intros Hf st. apply Hf. Qed.
Lemma keeps_bind {A B} (m : M A) (k : A → M B) :
  keeps p x m → (∀ a, keeps p x (k a)) → keeps p x (m ≫= k).
Proof.
  intros Hm Hk st Hst. specialize (Hm st Hst). unfold mbind, M_bind.
  destruct (m st) as [[a|e] st']; [by apply Hk|done].
Qed.
Lemma keeps_get {B} (k : SimDb → M B) :
  (∀ d, p d = x → keeps p x (k d)) → keeps p x (get_db ≫= k).
Proof. intros Hk st Hst. by apply (Hk (db st) Hst st). Qed.
Lemma keeps_for_each {A} (l : list A) (f : A → M unit) :
  (∀ a, keeps p x (f a)) → keeps p x (for_each l f).
Proof.
  intros Hf. induction l as [|a l IH]; [apply keeps_ret|].
  apply (keeps_bind (f a)); [apply Hf|done].
Qed.
Lemma keeps_interrupt s runs now :
  (∀ key kind payload, keeps p x (append_event_idempotent_locked s key kind payload now)) →
  keeps p x (MetaSession.interrupt_runs s runs now).
Proof.
  intros Ha. induction runs as [|run runs IH]; [apply keeps_ret|]. apply keeps_bind; [apply Ha|].
  intros idx. apply keeps_bind; [exact IH|]. intros l. apply keeps_ret.
Qed.
Lemma keeps_append_all s events now :
  (∀ kind payload, keeps p x (MetaSession.append_session_event s kind payload now)) →
  keeps p x (MetaOutbox.append_all s events now).
Proof.
  intros Ha. induction events as [|ev events IH]; [apply keeps_ret|]. apply keeps_bind; [apply Ha|].
  intros idx. apply keeps_bind; [exact IH|]. intros l. apply keeps_ret.
Qed.

End keeps.

(** A loop that keeps the projection in each iteration. *)
Lemma fold_keeps {X A S} (p : S → X) (f : S → A → S) l s :
  (∀ s a, p (f s a) = p s) → p (fold_left f l s) = p s.
Proof. intros Hf. revert s. induction l as [|a l IH]; intros s; [done|]. cbn. by rewrite IH. Qed.

Ltac unfold_head m :=
  lazymatch m with ?f _ => unfold_head f | _ => unfold m end.
(** Walk through a method body; what is left are the writes it makes. *)
Ltac keep_step :=
  lazymatch goal with
  | |- keeps _ _ (mbind _ get_db) => apply keeps_get; intros ? ?
  | |- keeps _ _ (mbind _ _) => apply keeps_bind; [|intros ?]
  | |- keeps _ _ (mret _) => apply keeps_ret
  | |- keeps _ _ (throw _) => apply keeps_throw
  | |- keeps _ _ (ok_or _ _) => apply keeps_ok_or
  | |- keeps _ _ gate => apply keeps_gate
  | |- keeps _ _ get_env => apply keeps_get_env
  | |- keeps _ _ (notify _ _) => apply keeps_notify
  | |- keeps _ _ (notify_text _ _) => apply keeps_notify_text
  | |- keeps _ _ (when _ _) => apply keeps_when
  | |- keeps _ _ (put_db _) => apply keeps_put
  | |- keeps _ _ (modify_db _) => apply keeps_modify; intros ? ?
  | |- keeps _ _ (for_each _ _) => apply keeps_for_each; intros ?
  | |- keeps _ _ (MetaSession.interrupt_runs _ _ _) => apply keeps_interrupt; intros ? ? ?
  | |- keeps _ _ (MetaOutbox.append_all _ _ _) => apply keeps_append_all; intros ? ?
  | |- keeps _ _ (match ?y with _ => _ end) => destruct y eqn:?
  | |- keeps _ _ ?m => unfold_head m
  end.
Ltac keep := repeat (progress cbv zeta || keep_step); try done.

Lemma strikes_hosts grace l acc :
  hosts (fold_left (MetaSession.strike grace) l acc).2 = hosts acc.2.
Proof.
  apply (fold_keeps (fun acc => hosts acc.2)). intros [c d] id. cbn.
  destruct (sessions d !! id); [|done]. by destruct (bool_decide _).
Qed.

Lemma clear_strikes_hosts l d : hosts (fold_left MetaSession.clear_strikes l d) = hosts d.
Proof.
  apply (fold_keeps hosts). intros d' id. unfold MetaSession.clear_strikes.
  by destruct (sessions d' !! id).
Qed.

Lemma append_events_hosts id now l acc :
  hosts (fold_left (MetaSession.append_event id now) l acc).2 = hosts acc.2.
Proof.
  apply (fold_keeps (fun acc => hosts acc.2)). intros [c d] ev. cbn.
  by destruct (sessions d !! id).
Qed.

Lemma finished_hosts t now d : hosts (MetaTeleport.append_teleport_finished t now d).2 = hosts d.
Proof.
  unfold MetaTeleport.append_teleport_finished. destruct (teleports d !! t) as [r|]; [|done].
  destruct (negb _); [done|]. by destruct (sessions d !! _).
Qed.

(** The loops of the session and teleport methods. *)
Ltac frame_loops :=
  repeat match goal with H : _ = (_, ?d) |- context [?d] =>
    apply (f_equal snd) in H; cbn [snd] in H; subst d end;
  unfold log_transition; cbn [hosts setter];
  rewrite ?strikes_hosts, ?append_events_hosts, ?finished_hosts; cbn [snd];
  rewrite ?clear_strikes_hosts; try done.

Lemma nonhost_frame c st : host_call c = false → hosts (db (exec c st)) = hosts (db st).
Proof.
  intros Hc. destruct (is_op_call c) eqn:Ec; [apply (of_hosts _ _ (op_call_frame c st Ec))|].
  destruct c; try done; cbn [exec];
    try match goal with |- context [MetaOutbox.exec ?c st] => destruct c; cbn [MetaOutbox.exec] end;
    match goal with |- hosts (db (?m st).2) = _ =>
      assert (Hk : keeps hosts (hosts (db st)) m); [unfold_head m; keep|by apply Hk] end;
    frame_loops; try (repeat case_match; done).
  all: etrans; [apply fold_keeps|]; done.
Qed.

(** Calls under which the lease [x] of host [h] stands: anything but a
    re-registration of [h], its retirement, or a report or write that says it
    is gone; the reaper may look at [h] at any instant up to [x]. *)
Definition respects_lease (h : HostId) (x : DateTime) (c : call) : Prop :=
  match c with
  | UpsertHost r => HostRecord.id r ≠ h
  | GrantRetirement h' _ => h' ≠ h
  | SetHostStatus h' s => h' = h → HostStatus.live s = true
  | Heartbeat h' hb _ => h' = h → HostStatus.live (HostHeartbeat.status hb) = true
  | MarkDead h' now => h' = h → (now ≤ x)%Z
  | _ => True
  end.

(** Host [h] is live under a lease of at least [x]. *)
Definition leased (h : HostId) (x : DateTime) (d : SimDb) : Prop :=
  ∃ r y, hosts d !! h = Some r ∧ HostStatus.live (HostRecord.status r) = true ∧
         HostRecord.lease_expires_at r = Some y ∧ (x ≤ y)%Z.

Lemma leased_ext h x d d' : hosts d' !! h = hosts d !! h → leased h x d → leased h x d'.
Proof. unfold leased. by intros ->. Qed.

(** A write to a host row keeps the lease when it keeps a live row live and
    does not shorten its deadline. *)
Lemma leased_put h x d h' r r' :
  leased h x d → hosts d !! h' = Some r →
  (h' = h → HostStatus.live (HostRecord.status r) = true →
   HostStatus.live (HostRecord.status r') = true ∧
   ∀ y, HostRecord.lease_expires_at r = Some y →
        ∃ y', HostRecord.lease_expires_at r' = Some y' ∧ (y ≤ y')%Z) →
  leased h x (put_host h' r' d).
Proof.
  intros (r0&y&Hh&Hl&Hy&Hle) Hr Hw. destruct (decide (h' = h)) as [->|Hne].
  - simplify_eq. destruct (Hw eq_refl Hl) as [Hl' Hy']. destruct (Hy' y Hy) as (y'&?&?).
    exists r', y'. cbn. rewrite lookup_insert_eq. repeat split; try done. lia.
  - exists r0, y. cbn. by rewrite lookup_insert_ne.
Qed.

Lemma leased_put_other h x d h' r' : leased h x d → h' ≠ h → leased h x (put_host h' r' d).
Proof. intros H Hne. eapply leased_ext; [|done]. cbn. by rewrite lookup_insert_ne. Qed.

Lemma mark_dead_leased h x h' now st :
  leased h x (db st) → (h' = h → (now ≤ x)%Z) →
  leased h x (db (MetaHost.mark_host_dead_if_lease_expired h' now st).2).
Proof.
  intros (r&y&Hh&Hl&Hy&Hle) Hnow. destruct (decide (h' = h)) as [->|Hne].
  - unfold MetaHost.mark_host_dead_if_lease_expired. gated st; [by exists r, y|].
    rewrite Hh. cbn beta iota. unfold MetaHost.gone, MetaHost.lease_expired. rewrite Hl, Hy. cbn.
    rewrite bool_decide_eq_false_2 by (specialize (Hnow eq_refl); lia). by exists r, y.
  - destruct (MetaHost.mark_host_dead_if_lease_expired h' now st) as [res st'] eqn:Em.
    assert (He : hosts (db st') !! h = hosts (db st) !! h); [|by eapply leased_ext; [|by exists r, y]].
    pose proof Em as Em'. unfold MetaHost.mark_host_dead_if_lease_expired in Em'.
    revert Em'. run_m. destruct (outage st); [by intros [= <- <-]|].
    destruct (hosts (db st) !! h') as [r'|] eqn:Eh; [|by intros [= <- <-]].
    destruct (MetaHost.gone _) eqn:Eg; [by intros [= <- <-]|].
    destruct (negb _); [by intros [= <- <-]|]. intros [= <- _].
    destruct (mark_dead_effect _ _ _ _ _ _ Eh Eg Em) as (_&->&_).
    by rewrite lookup_insert_ne.
Qed.

(** Close the row obligation of [leased_put] for the writes of the methods. *)
Ltac lease_row :=
  intros Heq Hlive; subst; cbn in *; (split; [by auto|]);
  intros y Hy; rewrite ?Hy; cbn; eexists; (split; [done|lia]).

Lemma heartbeat_leased h x h' hb now st :
  leased h x (db st) → (h' = h → HostStatus.live (HostHeartbeat.status hb) = true) →
  leased h x (db (MetaHost.touch_host_heartbeat h' hb now st).2).
Proof.
  intros Hd Hc. unfold MetaHost.touch_host_heartbeat. gated st.
  destruct (hosts (db st) !! h') as [r|] eqn:Er; [|done]. cbn beta iota. db_red.
  eapply leased_put; [done..|]. unfold MetaHost.gone. intros Heq Hl. rewrite Hl. cbn [negb]. revert Heq Hl.
  destruct (HostHeartbeat.lease_renew_until hb); [|lease_row].
  destruct (bool_decide _); [lease_row|]. destruct (bool_decide _); lease_row.
Qed.

Lemma exec_leased h x c st :
  leased h x (db st) → respects_lease h x c → leased h x (db (exec c st)).
Proof.
  intros Hd Hc. destruct (host_call c) eqn:Eh;
    [|by eapply leased_ext; [rewrite nonhost_frame|]].
  destruct c; try done; cbn [exec respects_lease] in *; [..|by apply mark_dead_leased].
  - unfold MetaHost.upsert_host. gated st. db_red. by apply leased_put_other.
  - unfold MetaHost.request_host_retirement. gated st.
    destruct (hosts (db st) !! h0) as [r|] eqn:Er; [|done]. cbn beta iota.
    destruct (negb _); [done|]. destruct (match _ with Some _ => _ | None => _ end); [done|].
    db_red. eapply leased_put; [done..|]. lease_row.
  - unfold MetaHost.cancel_host_retirement. gated st.
    destruct (hosts (db st) !! h0) as [r|] eqn:Er; [|done]. cbn beta iota.
    destruct (_ || _); [done|]. db_red. eapply leased_put; [done..|]. lease_row.
  - unfold MetaHost.grant_host_retirement. gated st.
    destruct (MetaHost.retirement_status _ _ _) as [w|]; [|done]. cbn beta iota.
    destruct (bool_decide _); [done|]. destruct (bool_decide _); [done|].
    destruct (MetaHost.rs_blockers w); [|done].
    destruct (hosts (db st) !! h0); [|done]. db_red. by apply leased_put_other.
  - unfold MetaHost.set_host_status. gated st.
    destruct (hosts (db st) !! h0) as [r|] eqn:Er; [|done]. cbn beta iota.
    destruct (_ || _); [done|]. db_red. eapply leased_put; [done..|]. lease_row.
  - by apply heartbeat_leased.
  - unfold MetaHost.begin_host_handoff. gated st.
    destruct (hosts (db st) !! h0) as [r|] eqn:Er; [|done]. cbn beta iota.
    destruct (MetaHost.gone _); [done|]. db_red. eapply leased_put; [done..|]. lease_row.
  - unfold MetaHost.renew_host_lease. gated st.
    destruct (hosts (db st) !! h0) as [r|] eqn:Er; [|done]. cbn beta iota.
    destruct (MetaHost.gone _); [done|]. db_red. eapply leased_put; [done..|].
    destruct (bool_decide _); lease_row.
  - unfold MetaHost.set_host_cordon. gated st.
    destruct (hosts (db st) !! h0) as [r|] eqn:Er; [|done]. cbn beta iota.
    destruct (bool_decide _); [done|]. destruct (bool_decide _); db_red;
      (eapply leased_put; [done..|]; lease_row).
Qed.

Lemma run_leased h x st cs st' :
  run st cs st' → leased h x (db st) → Forall (respects_lease h x) cs → leased h x (db st').
Proof.
  induction 1 as [|st c cs st' _ _ IH]; [done|]. intros Hd [Hc Hcs]%Forall_cons.
  apply IH; [by apply exec_leased|done].
Qed.

(** A lease protects its host: while a live host holds a lease to instant
    [x], no interleaving of heartbeats, hand-offs, renewals, cordons, reaper
    runs up to [x] and any session, op or teleport call ends it or shortens
    it, and every reaper run up to [x] is refused with a conflict and changes
    nothing. *)
Theorem lease_protects_host h x st cs st' now :
  leased h x (db st) → run st cs st' → Forall (respects_lease h x) cs →
  (now ≤ x)%Z → outage st' = false →
  leased h x (db st') ∧
  ∃ msg, MetaHost.mark_host_dead_if_lease_expired h now st' = (Err (Conflict msg), st').
Proof.
  intros Hd Hrun Hcs Hnow Hout. pose proof (run_leased _ _ _ _ _ Hrun Hd Hcs) as Hd'.
  split; [done|]. destruct Hd' as (r&y&Hh&Hl&Hy&Hle). eexists.
  unfold MetaHost.mark_host_dead_if_lease_expired. run_m. rewrite Hout, Hh. cbn beta iota.
  unfold MetaHost.gone, MetaHost.lease_expired. rewrite Hl, Hy. cbn [negb].
  rewrite bool_decide_eq_false_2 by lia. done.
Qed.

Lemma lease_protects_host_witness :
  ∃ msg, MetaHost.mark_host_dead_if_lease_expired 1 900
           (execs [RenewLease 1 500; MarkDead 1 700; OpReclaim 10 "b" 800] (demo demo_boot))
    = (Err (Conflict msg),
       execs [RenewLease 1 500; MarkDead 1 700; OpReclaim 10 "b" 800] (demo demo_boot)).
Proof.
  eapply (lease_protects_host 1 1000 (demo demo_boot)
            [RenewLease 1 500; MarkDead 1 700; OpReclaim 10 "b" 800]).
  - eexists _, 1000%Z. vm_compute. repeat split; discriminate.
  - apply run_execs. vm_compute. reflexivity.
  - repeat constructor. cbn. lia.
  - lia.
  - vm_compute. reflexivity.
Defined.

(** ** Retirement *)

Lemma countb_zero {A} (P : A → bool) l :
  bool_decide (0 < MetaHost.countb P l)%Z = false → ∀ x, x ∈ l → P x = false.
Proof.
  intros H%bool_decide_eq_false_1 x Hx. apply not_true_iff_false. intros HP.
  assert (Hin : x ∈ List.filter P l) by by apply elem_of_filterb.
  unfold MetaHost.countb in H. destruct (List.filter P l); [by apply not_elem_of_nil in Hin|].
  simpl in H. lia.
Qed.

(** Nothing on host [h] depends on it any more. *)
Record vacant (d : SimDb) (h : HostId) : Prop := {
  va_sessions : ∀ s x, sessions d !! s = Some x → SessRow.host_id x = Some h →
    reserves_host_memory (SessRow.status x) = false;
  va_captures : ∀ j c, capture_jobs d !! j = Some c → CaptureJobRow.host_id c = Some h →
    CaptureJobStage.is_terminal (CaptureJobRow.stage c) = true;
  va_teleports : ∀ t r, teleports d !! t = Some r → TeleportRow.is_open r = true →
    TeleportRow.source_host_id r ≠ h ∧ TeleportRow.dest_host_id r ≠ h;
  va_tombstones : ∀ sb, sandbox_tombstones d !! (h, sb) = None;
}.

Lemma filter_nil {A} (P : A → bool) l : List.filter P l = [] → ∀ x, x ∈ l → P x = false.
Proof.
  intros H x Hx. apply not_true_iff_false. intros HP.
  assert (Hin : x ∈ List.filter P l) by by apply elem_of_filterb.
  rewrite H in Hin. by apply not_elem_of_nil in Hin.
Qed.

Lemma no_blockers_vacant d hid h now :
  MetaHost.retirement_blockers d hid h now = [] →
  vacant d hid ∧ (running_sandboxes (HostRecord.capacity h) ≤ 0)%Z ∧
  HostRecord.cordoned h = true ∧
  (∀ t, HostRecord.retire_requested_at h = Some t → (t < HostRecord.last_heartbeat_at h)%Z).
Proof.
  unfold MetaHost.retirement_blockers. intros [Hf [Hn Hc]%app_eq_nil]%app_eq_nil.
  pose proof (proj2 (Forall_forall _ _) (filter_nil _ _ Hf)) as Hz. clear Hf.
  rewrite !Forall_cons in Hz. destruct Hz as (Bs&Bc&Bts&Btd&Bt&Br&_).
  cbn [MetaHost.blocker_count] in Bs, Bc, Bts, Btd, Bt, Br.
  assert (Hrow : ∀ {K A} `{Countable K} `{KeyOrd K} (P : A → bool) (m : gmap K A),
    bool_decide (0 < MetaHost.countb P (values m))%Z = false →
    ∀ k x, m !! k = Some x → P x = false).
  { intros K A ??? P m Hb k x Hx. eapply countb_zero; [done|]. apply elem_of_values. eauto. }
  split; [split|split; [|split]].
  - intros s x Hs Hh. pose proof (Hrow _ _ _ _ _ _ _ Bs s x Hs) as Hb.
    cbn beta in Hb. by rewrite bool_decide_eq_true_2 in Hb.
  - intros j c Hj Hh. pose proof (Hrow _ _ _ _ _ _ _ Bc j c Hj) as Hb.
    cbn beta in Hb. rewrite bool_decide_eq_true_2 in Hb by done. by apply negb_false_iff in Hb.
  - intros t r Ht Ho. pose proof (Hrow _ _ _ _ _ _ _ Bts t r Ht) as Hs.
    pose proof (Hrow _ _ _ _ _ _ _ Btd t r Ht) as Hd. cbn beta in Hs, Hd.
    rewrite Ho, andb_true_r in Hs, Hd. by bool_prop.
  - intros sb. apply eq_None_not_Some. intros Hsb.
    pose proof (countb_zero _ _ Bt (hid, sb) (proj2 (elem_of_keys _ _) Hsb)) as Hb.
    cbn beta in Hb. by rewrite bool_decide_eq_true_2 in Hb.
  - bool_prop. lia.
  - by destruct (HostRecord.cordoned h).
  - intros t Ht. rewrite Ht in Hn. destruct (bool_decide _) eqn:Eb; [done|]. bool_prop. lia.
Qed.

(** Retirement is granted only to an empty host: a grant that retires the
    host finds a recorded request, the host cordoned, a heartbeat after the
    request reporting no resident sandbox, and no session holding memory, no
    live capture, no open move endpoint and no pending tombstone on it; it
    then marks exactly that host retired. *)
Theorem retirement_grant_sound hid now st st' r :
  hosts (db st) !! hid = Some r → HostRecord.retired_at r = None →
  MetaHost.grant_host_retirement hid now st = (Ok MetaHost.Granted, st') →
  vacant (db st) hid ∧ (running_sandboxes (HostRecord.capacity r) ≤ 0)%Z ∧
  HostRecord.cordoned r = true ∧
  (∃ t, HostRecord.retire_requested_at r = Some t ∧ (t < HostRecord.last_heartbeat_at r)%Z) ∧
  hosts (db st') = <[hid := r <| HostRecord.status := HostStatus.Retired |>
                             <| HostRecord.retired_at := Some now |>
                             <| HostRecord.lease_state := HostLeaseState.None |>]> (hosts (db st)).
Proof.
  intros Hh Hr. unfold MetaHost.grant_host_retirement, MetaHost.retirement_status. gated st.
  rewrite Hh. cbn [option_bind]. rewrite Hr. cbn beta iota.
  cbn [MetaHost.rs_retired_at MetaHost.rs_requested_at MetaHost.rs_blockers].
  rewrite (bool_decide_eq_false_2 (is_Some None)) by apply is_Some_None.
  destruct (bool_decide _) eqn:Eq; [done|]. bool_prop.
  destruct (MetaHost.retirement_blockers _ _ _ _) eqn:Eb; [|done].
  intros Heq; injection Heq as <-. db_red.
  destruct (no_blockers_vacant _ _ _ _ Eb) as (Hv&Hs&Hc&Ht).
  repeat (split; [done|]). split; [|done].
  destruct (HostRecord.retire_requested_at r) as [t|]; [|done]. eauto.
Qed.

Lemma retirement_grant_sound_witness :
  vacant (db (demo (demo_fleet ++ [RequestRetirement 1 Admin "drain" 20;
                                   Heartbeat 1 (demo_beat 1000) 21]))) 1.
Proof.
  edestruct (retirement_grant_sound 1 30 (demo (demo_fleet ++
    [RequestRetirement 1 Admin "drain" 20; Heartbeat 1 (demo_beat 1000) 21]))) as (H&_).
  - vm_compute. reflexivity.
  - vm_compute. reflexivity.
  - vm_compute. reflexivity.
  - exact H.
Defined.

(** Placement never returns a host that is gone or cordoned. *)
Lemma pick_lockable env d mem cpu cand k h :
  hosts_keyed d → pick_host_2d env d mem cpu cand k = Some h →
  ∃ r, hosts d !! h = Some r ∧ lockable r = true.
Proof.
  intros Hk Hp. pose proof (pick_host_2d_spec env d mem cpu cand k Hk) as Hs.
  rewrite Hp in Hs. apply placement_spec_elem in Hs as [_ [[f Hf]|Hu]]; [..|apply take_sub].
  - unfold sim_fit_of in Hf. destruct (hosts d !! h) as [r|]; [|done]. cbn in Hf.
    destruct (lockable r) eqn:El; [|done]. eauto.
  - unfold sim_unmeasured in Hu. destruct (hosts d !! h) as [r|]; [|done]. bool_prop. eauto.
Qed.

(** Retirement is permanent: a retired host stays retired, with the same
    retirement instant, under every further sequence of calls (heartbeats,
    re-registrations and status writes included), and no placement, whatever
    the candidates, ever returns it. *)
Theorem retirement_permanent env cs cs' st st' h r :
  run (Store_new env) cs st → run st cs' st' →
  hosts (db st) !! h = Some r → HostRecord.status r = HostStatus.Retired →
  (∃ r', hosts (db st') !! h = Some r' ∧ HostRecord.status r' = HostStatus.Retired ∧
         HostRecord.retired_at r' = HostRecord.retired_at r) ∧
  ∀ mem cpu cand k, pick_host_2d (env_cpu_overcommit st') (db st') mem cpu cand k ≠ Some h.
Proof.
  intros Hrun Hrun' Hh Hr. pose proof (run_inv _ _ _ Hrun) as Hinv.
  pose proof (run_inv_from _ _ _ Hrun' Hinv) as Hinv'.
  assert (Hret : ∃ r', hosts (db st') !! h = Some r' ∧ HostRecord.status r' = HostStatus.Retired ∧
                       HostRecord.retired_at r' = HostRecord.retired_at r).
  { by eapply run_retired. }
  split; [done|]. intros mem cpu cand k Hp. destruct Hret as (r'&Hh'&Hr'&_).
  destruct (pick_lockable _ _ _ _ _ _ _ (mi_hosts_keyed _ Hinv') Hp) as (r2&H2&Hl).
  simplify_eq. unfold lockable in Hl. by rewrite Hr' in Hl.
Qed.

Lemma retirement_permanent_witness :
  let cs := demo_fleet ++ [RequestRetirement 1 Admin "drain" 20;
                           Heartbeat 1 (demo_beat 1000) 21; GrantRetirement 1 30] in
  let st' := execs [Heartbeat 1 (demo_beat 5000) 40; UpsertHost (demo_host 1)] (demo cs) in
  pick_host_2d None (db st') 2048 1 [1]%N 0 ≠ Some 1%N.
Proof.
  intros cs st'. edestruct (retirement_permanent None cs
    [Heartbeat 1 (demo_beat 5000) 40; UpsertHost (demo_host 1)] (demo cs) st' 1) as (_&H).
  - apply demo_run. vm_compute. reflexivity.
  - apply run_execs. vm_compute. reflexivity.
  - vm_compute. reflexivity.
  - vm_compute. reflexivity.
  - apply (H 2048%Z 1%Z [1%N] 0%nat).
Defined.

(** ** Deletion *)

(** Deleting a host removes only the row of a host that is dead, retired or
    not there, clears the host of exactly the sessions that named it, changes
    nothing else and keeps the invariants of the store.  It is not among the
    calls of a run: a retired host stays retired only until its row is deleted. *)
Theorem delete_host_safe h st :
  minv (db st) →
  let '(res, st') := MetaHost.delete_host h st in
  minv (db st') ∧
  match res with
  | Ok MetaHost.Deleted =>
      (∀ r, hosts (db st) !! h = Some r → HostStatus.live (HostRecord.status r) = false) ∧
      hosts (db st') = delete h (hosts (db st)) ∧
      sessions (db st') = MetaHost.unhosted h <$> sessions (db st)
  | _ => db st' = db st
  end.
Proof.
  intros Hinv.
  assert (Hgo : minv ((db st) <| sessions ::= fmap (MetaHost.unhosted h) |> <| hosts ::= delete h |>)).
  { assert (H1 : minv ((db st) <| sessions ::= fmap (MetaHost.unhosted h) |>)).
    { eapply (minv_host_lost (db st) _ (MetaHost.unhosted h)); [exact Hinv| |done..|].
      - intros r. unfold MetaHost.unhosted. by destruct (bool_decide _).
      - exists []. split; [cbn; by rewrite app_nil_r|]. intros e He. by apply not_elem_of_nil in He. }
    eapply (minv_same _ _ H1); try done; [apply H1..|].
    intros h' r Hr. cbn in Hr. apply lookup_delete_Some in Hr as [_ Hr]. split; [by apply Hinv|by apply (mi_retired _ Hinv h')]. }
  unfold MetaHost.delete_host. run_m. destruct (outage st); [done|]. cbn beta iota zeta.
  destruct (hosts (db st) !! h) as [r|] eqn:Eh; cbn.
  - destruct (MetaHost.gone (HostRecord.status r)) eqn:Eg; cbn; [|done].
    split_and!; [done| |done|done]. intros r' [= <-]. by apply negb_true_iff.
  - split_and!; done.
Qed.

Lemma delete_host_safe_witness :
  ∃ st', MetaHost.delete_host 9 (demo demo_boot) = (Ok MetaHost.Deleted, st') ∧ minv (db st').
Proof.
  pose proof (delete_host_safe 9 (demo demo_boot)
    (run_inv None demo_boot _ (demo_run demo_boot ltac:(vm_compute; reflexivity)))) as H.
  destruct (MetaHost.delete_host 9 (demo demo_boot)) as [res st'] eqn:E.
  assert (Hr : res = Ok MetaHost.Deleted) by (apply (f_equal fst) in E; vm_compute in E; congruence).
  subst res. exists st'. split; [reflexivity|]. exact (proj1 H).
Defined.
