(* ===== verification/Gaps.v ===== *)
(** * Behaviours the documentation does not announce

    Three places where the store does something its own comments, the state
    tables or the Postgres schema rule out, each shown on a reachable
    database. *)

From S2P Require Import Prelude Session Teleport OpLogSpec MetaTypes Placement MetaOps.
From S2P Require Import MetaSession MetaTeleport MetaHost MetaOutbox MetaStep MetaCalls.
From S2P Require Import Scenario HostProps.
From Stdlib Require Import QArith.

Definition status_of (st : Store) (s : SessionId) : option SessionState :=
  SessRow.status <$> sessions (db st) !! s.

Definition host_status_of (st : Store) (h : HostId) : option HostStatus.t :=
  HostRecord.status <$> hosts (db st) !! h.

Lemma finished_log t now d :
  transition_log (MetaTeleport.append_teleport_finished t now d).2 = transition_log d.
Proof.
  unfold MetaTeleport.append_teleport_finished. destruct (teleports d !! t) as [r|]; [|done].
  destruct (negb _); [done|]. by destruct (sessions d !! _).
Qed.

(** Settling a teleport never writes the transition log, whatever it does to
    the session; and it does flip statuses: on a reachable store it takes an
    evacuating session to idle.  The log is documented to hold every status
    flip the store performed. *)
Theorem teleport_settle_unlogged :
  (∀ t e settle now st,
     transition_log (db (MetaTeleport.teleport_settle t e settle now st).2)
       = transition_log (db st)) ∧
  ∃ st settle, run (Store_new None) demo_move st ∧
    status_of st 10 = Some Evacuating ∧
    status_of (MetaTeleport.teleport_settle 7 1 settle 20 st).2 10 = Some Idle.
Proof.
  split.
  - intros t e settle now st.
    assert (Hk : keeps transition_log (transition_log (db st))
                   (MetaTeleport.teleport_settle t e settle now)); [|by apply Hk].
    unfold MetaTeleport.teleport_settle. keep.
    match goal with H : _ = (_, ?d) |- context [?d] =>
      apply (f_equal snd) in H; cbn [snd] in H; subst d end. by rewrite finished_log.
  - exists (demo demo_move), (TeleportSettle.Mk "lost" (Some Idle) false).
    split; [apply demo_run; vm_compute; reflexivity|]. split; vm_compute; reflexivity.
Qed.

(** A dead host can be retired: on a reachable store the grant moves a host
    from [Dead] to [Retired], an edge [HostStatus::can_transition_to] forbids. *)
Theorem retirement_revives_dead :
  let cs := demo_fleet ++ [RequestRetirement 1 Admin "drain" 20;
                           Heartbeat 1 (demo_beat 1000) 21; MarkDead 1 2000] in
  run (Store_new None) cs (demo cs) ∧
  host_status_of (demo cs) 1 = Some HostStatus.Dead ∧
  host_status_of (MetaHost.grant_host_retirement 1 2001 (demo cs)).2 1 = Some HostStatus.Retired ∧
  HostStatus.can_transition_to HostStatus.Dead HostStatus.Retired = false.
Proof.
  intros cs. split; [apply demo_run; vm_compute; reflexivity|].
  repeat split; vm_compute; reflexivity.
Qed.

(** Deleting a pending session leaves its op rows behind: on a reachable
    store the session is gone while its queued or running op is still in the
    table (the Postgres schema cascades the delete). *)
Theorem delete_pending_leaves_ops :
  let cs := demo_fleet ++ [ReserveCreate (demo_create 10) [1; 2]%N 0 3;
                           OpEnqueue 10 CreateBoot JNull None "a" 4; DeletePending 10] in
  run (Store_new None) cs (demo cs) ∧
  status_of (demo cs) 10 = None ∧
  ((fun o => (OpRow.session_id o, OpRow.state o)) <$> session_ops (db (demo cs)) !! 1%Z)
    = Some (10%N, OpState.Running).
Proof.
  intros cs. split; [apply demo_run; vm_compute; reflexivity|].
  split; vm_compute; reflexivity.
Qed.
