(* ===== verification/Text.v ===== *)
(** * Text

    The string operations of the Rust standard library the chunk store uses on
    object keys, hexadecimal and decimal numbers.  A [string] is the UTF-8
    bytes of a [str]. *)

From S2P Require Import Prelude.
From Stdlib Require Import Ascii DecimalString DecimalPos DecimalN.

Notation u8 := N (only parsing).
Notation bytes := (list N) (only parsing).

(** ** Slicing *)

(** [str::strip_prefix]. *)
Fixpoint strip_prefix (p s : string) : option string :=
  match p, s with
  | EmptyString, _ => Some s
  | String a p', String b s' => if Ascii.eqb a b then strip_prefix p' s' else None
  | String _ _, EmptyString => None
  end.

(** [str::strip_suffix]. *)
Fixpoint strip_suffix (p s : string) : option string :=
  if String.eqb p s then Some EmptyString
  else match s with
       | EmptyString => None
       | String b s' => String b <$> strip_suffix p s'
       end.

(** [str::split_once] on a character. *)
Fixpoint split_once (c : ascii) (s : string) : option (string * string) :=
  match s with
  | EmptyString => None
  | String b s' =>
      if Ascii.eqb b c then Some (EmptyString, s')
      else (fun '(h, t) => (String b h, t)) <$> split_once c s'
  end.

(** [str::is_char_boundary] at the start of [s]: the end, or a byte that does
    not continue a UTF-8 sequence. *)
Definition starts_char (s : string) : bool :=
  match s with
  | EmptyString => true
  | String b _ => negb ((128 <=? N_of_ascii b) && (N_of_ascii b <? 192))%N
  end.

Lemma strip_prefix_app p s : strip_prefix p (p +:+ s) = Some s.
Proof.
  induction p as [|a p IH]; [done|]. change (String a p +:+ s) with (String a (p +:+ s)).
  cbn [strip_prefix]. by rewrite Ascii.eqb_refl.
Qed.

Lemma strip_prefix_Some p s t : strip_prefix p s = Some t → s = p +:+ t.
Proof.
  revert s. induction p as [|a p IH]; intros s; cbn [strip_prefix]; [by intros [= ->]|].
  destruct s as [|b s]; [done|]. destruct (Ascii.eqb_spec a b) as [->|]; [|done].
  intros H%IH. by subst.
Qed.

Lemma string_app_assoc (s t u : string) : (s +:+ t) +:+ u = s +:+ (t +:+ u).
Proof.
  induction s as [|a s IH]; [done|]. exact (f_equal (String a) IH).
Qed.

Lemma string_length_app (s t : string) :
  String.length (s +:+ t) = (String.length s + String.length t)%nat.
Proof. induction s as [|a s IH]; [done|]. exact (f_equal S IH). Qed.

Lemma strip_suffix_app p s : strip_suffix p (s +:+ p) = Some s.
Proof.
  induction s as [|b s IH].
  - change (EmptyString +:+ p) with p. destruct p; cbn [strip_suffix]; by rewrite String.eqb_refl.
  - change (String b s +:+ p) with (String b (s +:+ p)). cbn [strip_suffix].
    destruct (String.eqb_spec p (String b (s +:+ p))) as [Hp|_]; [|by rewrite IH].
    apply (f_equal String.length) in Hp. cbn in Hp. rewrite string_length_app in Hp. lia.
Qed.

(** ** Numbers *)

(** [char::to_digit(16)] of a byte. *)
Definition hex_value (c : ascii) : option N :=
  let n := N_of_ascii c in
  if ((48 <=? n) && (n <=? 57))%N then Some (n - 48)%N
  else if ((97 <=? n) && (n <=? 102))%N then Some (n - 87)%N
  else if ((65 <=? n) && (n <=? 70))%N then Some (n - 55)%N
  else None.

(** [u8::from_str_radix(s, 16)] of a slice of two bytes: an optional [+] sign,
    then digits of either case. *)
Definition u8_from_hex2 (c1 c2 : ascii) : option u8 :=
  if Ascii.eqb c1 "+"%char then hex_value c2
  else v1 ← hex_value c1; v2 ← hex_value c2; Some (16 * v1 + v2)%N.

(** [{b:02x}]. *)
Definition hex2 (b : u8) : string := hex_digits 2 b.

Lemma hex2_parse b :
  (b < 256)%N →
  ∃ c1 c2, hex2 b = String c1 (String c2 EmptyString) ∧ u8_from_hex2 c1 c2 = Some b ∧
           starts_char (String c1 EmptyString) = true ∧ starts_char (String c2 EmptyString) = true.
Proof.
  intros Hb.
  assert (Hall : forallb (fun b => match hex2 b with
    | String c1 (String c2 EmptyString) =>
        bool_decide (u8_from_hex2 c1 c2 = Some b) &&
        starts_char (String c1 EmptyString) && starts_char (String c2 EmptyString)
    | _ => false end) (N.of_nat <$> seq 0 256) = true) by (vm_compute; reflexivity).
  rewrite forallb_forall in Hall. specialize (Hall b).
  rewrite <- list_elem_of_In, list_elem_of_fmap in Hall.
  specialize (Hall ltac:(exists (N.to_nat b); rewrite elem_of_seq; lia)).
  destruct (hex2 b) as [|c1 [|c2 [|]]]; try done. bool_prop. eauto 10.
Qed.

(** [to_string] of an unsigned number. *)
Definition dec (n : N) : string := NilEmpty.string_of_uint (N.to_uint n).

(** [str::parse::<u64>]: an optional [+] sign, at least one digit, in range. *)
Definition parse_u64 (s : string) : option N :=
  let digits := match s with
                | String c s' => if Ascii.eqb c "+"%char then s' else s
                | EmptyString => EmptyString end in
  match digits with
  | EmptyString => None
  | _ =>
      d ← NilEmpty.uint_of_string digits;
      if decide (N.of_uint d ≤ 18446744073709551615)%N then Some (N.of_uint d) else None
  end.

Lemma dec_digits n :
  ∃ c s, dec n = String c s ∧ Ascii.eqb c "+"%char = false.
Proof.
  assert (Hn : N.to_uint n ≠ Decimal.Nil).
  { destruct n as [|p]; [done|]. apply DecimalPos.Unsigned.to_uint_nonnil. }
  unfold dec. destruct (N.to_uint n); cbn; [done|..]; eauto.
Qed.

Lemma parse_dec n : (n ≤ 18446744073709551615)%N → parse_u64 (dec n) = Some n.
Proof.
  intros Hn. unfold parse_u64. destruct (dec_digits n) as (c&s&Hd&Hc). rewrite Hd, Hc.
  rewrite <- Hd. unfold dec. rewrite NilEmpty.usu. cbn. rewrite DecimalN.Unsigned.of_to.
  by rewrite decide_True.
Qed.
