(* ===== verification/Manifest.v ===== *)
(** * Chunk hashes and manifests

    [engram-chunk-store/src/manifest.rs] and [engram-core/src/types/manifest.rs]:
    content addresses and their object keys, versioned manifests, validation,
    the delta between two versions and the content-derived identity.  SHA-256
    (a library) is a parameter of what uses it. *)

From S2P Require Import Prelude Text.
From Stdlib Require Import Ascii.

Local Open Scope N_scope.

(** ** Errors *)

(** [BlobError]; the payloads of the library errors are dropped. *)
Module BlobError.
Inductive t : Type := NotFound | Sdk | Config (msg : string) | Protocol (msg : string) | Io.
End BlobError.

(** [ChunkStoreError]. *)
Module ChunkStoreError.
Inductive t : Type :=
| Blob (e : BlobError.t)
| Serialize
| HashMismatch (expected actual : string)
| VersionConflict (manifest_id : Uuid) (attempted latest : N)
| UnsupportedSchemaVersion (found max_supported : N)
| MalformedManifest (msg : string)
| Cache
| Origin (msg : string)
| Internal (msg : string)
| FetchTimeout (msg : string).
End ChunkStoreError.
Import ChunkStoreError.

(** A value, an error or a panic. *)
Inductive outcome (A : Type) : Type :=
| Val (a : A)
| Error (e : ChunkStoreError.t)
| Panicked.
Arguments Val {A} a.
Arguments Error {A} e.
Arguments Panicked {A}.

(** ** Chunk hashes *)

(** [ChunkHash([u8; 32])]. *)
Notation ChunkHash := (list N) (only parsing).

(** What the type [[u8; 32]] guarantees. *)
Definition wf_hash (h : ChunkHash) : Prop := length h = 32%nat ∧ Forall (fun b => b < 256) h.

Module ChunkHash.

Fixpoint to_hex (h : ChunkHash) : string :=
  match h with
  | [] => EmptyString
  | b :: h' => hex2 b +:+ to_hex h'
  end.

(** The loop of [from_hex] over consecutive two-byte slices; a slice that ends
    inside a UTF-8 sequence panics. *)
Fixpoint from_hex_loop (s : string) : outcome ChunkHash :=
  match s with
  | String c1 (String c2 s') =>
      if negb (starts_char s && starts_char s') then Panicked
      else match u8_from_hex2 c1 c2 with
           | None => Error (MalformedManifest "chunk hash hex byte {i}: {e}")
           | Some b =>
               match from_hex_loop s' with
               | Val h => Val (b :: h)
               | other => other
               end
           end
  | _ => Val []
  end.

Definition from_hex (s : string) : outcome ChunkHash :=
  if negb (String.length s =? 64)%nat
  then Error (MalformedManifest "chunk hash hex must be 64 chars, got {}")
  else from_hex_loop s.

Definition storage_key (h : ChunkHash) : string :=
  let hex := to_hex h in
  "chunks/sha256/" +:+ String.substring 0 2 hex +:+ "/" +:+ String.substring 2 62 hex.

Definition from_storage_key (key : string) : outcome (option ChunkHash) :=
  match strip_prefix "chunks/sha256/" key with
  | None => Val None
  | Some rest =>
      match split_once "/"%char rest with
      | None => Val None
      | Some (head, tail) =>
          if negb (String.length head =? 2)%nat || negb (String.length tail =? 62)%nat
          then Val None
          else match from_hex (head +:+ tail) with
               | Val h => Val (Some h)
               | Error _ => Val None
               | Panicked => Panicked
               end
      end
  end.

(** *** Hex round trips *)

Lemma to_hex_cons b h :
  b < 256 → ∃ c1 c2, to_hex (b :: h) = String c1 (String c2 (to_hex h)) ∧
    u8_from_hex2 c1 c2 = Some b ∧ starts_char (to_hex (b :: h)) = true.
Proof.
  intros Hb. destruct (hex2_parse b Hb) as (c1&c2&He&Hp&Hs&_). exists c1, c2. cbn [to_hex].
  rewrite He. done.
Qed.

Lemma starts_char_hex h : Forall (fun b => b < 256) h → starts_char (to_hex h) = true.
Proof.
  destruct 1 as [|b h Hb _]; [done|]. by destruct (to_hex_cons b h Hb) as (?&?&_&_&?).
Qed.

Lemma from_hex_loop_to_hex h : Forall (fun b => b < 256) h → from_hex_loop (to_hex h) = Val h.
Proof.
  induction 1 as [|b h Hb Hh IH]; [done|].
  destruct (to_hex_cons b h Hb) as (c1&c2&He&Hp&Hs). rewrite He in *. cbn [from_hex_loop].
  rewrite Hs, (starts_char_hex h Hh). cbn [andb negb]. by rewrite Hp, IH.
Qed.

Lemma length_to_hex h : Forall (fun b => b < 256) h → String.length (to_hex h) = (2 * length h)%nat.
Proof.
  induction 1 as [|b h Hb Hh IH]; [done|].
  destruct (to_hex_cons b h Hb) as (c1&c2&->&_). cbn. rewrite IH. lia.
Qed.

Lemma from_to_hex h : wf_hash h → from_hex (to_hex h) = Val h.
Proof.
  intros [Hl Hb]. unfold from_hex. rewrite length_to_hex, Hl by done. by apply from_hex_loop_to_hex.
Qed.

(** *** Object keys *)

Lemma substring_all s n : String.length s = n → String.substring 0 n s = s.
Proof.
  revert n. induction s as [|c s IH]; intros n <-; [done|]. cbn. by rewrite IH.
Qed.

Lemma hex2_no_slash c1 c2 b :
  u8_from_hex2 c1 c2 = Some b → Ascii.eqb c1 "/"%char = false ∧ Ascii.eqb c2 "/"%char = false.
Proof.
  unfold u8_from_hex2. intros H. destruct (Ascii.eqb_spec c1 "/"%char) as [->|]; [done|].
  destruct (Ascii.eqb_spec c2 "/"%char) as [->|]; [|done]. split; [done|].
  destruct (Ascii.eqb c1 "+"%char); [done|]. by destruct (hex_value c1).
Qed.

(** The key of a hash is its two leading digits, a slash and the rest. *)
Lemma storage_key_shape h :
  wf_hash h → ∃ c1 c2 t b,
    to_hex h = String c1 (String c2 t) ∧ String.length t = 62%nat ∧ u8_from_hex2 c1 c2 = Some b ∧
    storage_key h = "chunks/sha256/" +:+ String c1 (String c2 EmptyString) +:+ "/" +:+ t.
Proof.
  intros [Hl Hb]. destruct h as [|b h]; [done|]. apply Forall_cons in Hb as [Hb Hh].
  destruct (to_hex_cons b h Hb) as (c1&c2&He&Hp&_).
  assert (Ht : String.length (to_hex h) = 62%nat).
  { rewrite length_to_hex by done. cbn in Hl. lia. }
  exists c1, c2, (to_hex h), b. repeat (split; [done|]).
  unfold storage_key. rewrite He. cbn [String.substring]. rewrite (substring_all _ 62) by done.
  assert (H0 : ∀ s, String.substring 0 0 s = EmptyString) by by intros [].
  by rewrite H0.
Qed.

Lemma from_to_storage_key h : wf_hash h → from_storage_key (storage_key h) = Val (Some h).
Proof.
  intros Hwf. destruct (storage_key_shape h Hwf) as (c1&c2&t&b&He&Ht&Hp&->).
  unfold from_storage_key. rewrite strip_prefix_app.
  destruct (hex2_no_slash c1 c2 b Hp) as [H1 H2].
  change (String c1 (String c2 EmptyString) +:+ "/" +:+ t)
    with (String c1 (String c2 (String "/"%char t))).
  cbn [split_once]. rewrite H1, H2, Ascii.eqb_refl. cbn [fmap option_fmap option_map].
  rewrite Ht. cbn [String.length Nat.eqb negb orb].
  change (String c1 (String c2 EmptyString) +:+ t) with (String c1 (String c2 t)).
  by rewrite <- He, from_to_hex.
Qed.

Lemma storage_key_inj h1 h2 :
  wf_hash h1 → wf_hash h2 → storage_key h1 = storage_key h2 → h1 = h2.
Proof.
  intros H1 H2 Heq. pose proof (from_to_storage_key h1 H1) as E1.
  pose proof (from_to_storage_key h2 H2) as E2. rewrite Heq in E1. congruence.
Qed.

Lemma u8_from_hex2_lt c1 c2 b : u8_from_hex2 c1 c2 = Some b → b < 256.
Proof.
  assert (Hv : ∀ c v, hex_value c = Some v → v < 16).
  { intros c v. unfold hex_value. repeat case_match; intros; simplify_eq; bool_prop;
      repeat match goal with H : (_ <=? _) = true |- _ => apply N.leb_le in H end; lia. }
  unfold u8_from_hex2. case_match; [intros ?%Hv; lia|].
  destruct (hex_value c1) as [v1|] eqn:E1; [|done]. cbn.
  destruct (hex_value c2) as [v2|] eqn:E2; [|done]. cbn. intros [= <-].
  apply Hv in E1, E2. lia.
Qed.

Lemma from_hex_loop_wf s h :
  from_hex_loop s = Val h →
  Forall (fun b => b < 256) h ∧ (Nat.even (String.length s) = true →
                                 String.length s = (2 * length h)%nat).
Proof.
  revert h. induction s as [s IH] using (induction_ltof1 _ String.length); unfold ltof in IH.
  intros h. destruct s as [|c1 [|c2 s]]; cbn [from_hex_loop].
  - intros [= <-]. done.
  - intros [= <-]. split; [done|]. done.
  - destruct (negb _); [done|]. destruct (u8_from_hex2 c1 c2) as [b|] eqn:Eb; [|done].
    destruct (from_hex_loop s) as [h'| |] eqn:Es; [|done..]. intros [= <-].
    destruct (IH s ltac:(cbn; lia) h' Es) as [Hf Hl]. split.
    + constructor; [by eapply u8_from_hex2_lt|done].
    + cbn [String.length Nat.even length]. intros He. rewrite Hl by done. lia.
Qed.

Lemma from_hex_wf s h : from_hex s = Val h → wf_hash h.
Proof.
  unfold from_hex. destruct (String.length s =? 64)%nat eqn:El; [|done]. cbn [negb].
  apply Nat.eqb_eq in El. intros [Hf Hl]%from_hex_loop_wf. split; [|done].
  rewrite El in Hl. specialize (Hl eq_refl). lia.
Qed.

(** Chunk keys round trip: parsing the object key of a hash gives the hash
    back, distinct hashes have distinct keys, and whatever key the parser
    accepts, the hash it returns has 32 bytes. *)
Theorem chunk_key_roundtrip h h' k :
  wf_hash h →
  from_hex (to_hex h) = Val h ∧
  from_storage_key (storage_key h) = Val (Some h) ∧
  (wf_hash h' → storage_key h = storage_key h' → h = h') ∧
  (from_storage_key k = Val (Some h') → wf_hash h').
Proof.
  intros Hwf. split; [by apply from_to_hex|]. split; [by apply from_to_storage_key|].
  split; [intros; by apply storage_key_inj|].
  unfold from_storage_key. destruct (strip_prefix _ _) as [rest|]; [|done].
  destruct (split_once _ rest) as [[head tail]|]; [|done]. destruct (_ || _); [done|].
  destruct (from_hex (head +:+ tail)) as [x| |] eqn:E; [|done..]. intros [= <-].
  by eapply from_hex_wf.
Qed.

Lemma chunk_key_roundtrip_witness :
  from_storage_key (storage_key (replicate 32 171)) = Val (Some (replicate 32 171)).
Proof.
  apply (chunk_key_roundtrip (replicate 32 171) (replicate 32 171) EmptyString).
  split; [reflexivity|]. repeat constructor.
Defined.

Definition repeat_str (n : nat) (s : string) : string := Nat.iter n (String.append s) EmptyString.

(** The parser takes more than lower-case hexadecimal: an upper-case key and
    a key with plus signs parse as hashes whose own keys are different, and a
    key of the right length holding a three-byte character makes it panic
    instead of answering [None]. *)
Theorem chunk_key_lenient :
  (let k := "chunks/sha256/AB/" +:+ repeat_str 31 "AB" in
   from_storage_key k = Val (Some (replicate 32 171)) ∧ storage_key (replicate 32 171) ≠ k) ∧
  (let k := "chunks/sha256/+a/" +:+ repeat_str 31 "+a" in
   from_storage_key k = Val (Some (replicate 32 10)) ∧ storage_key (replicate 32 10) ≠ k) ∧
  from_storage_key ("chunks/sha256/ab/" +:+ String "226"%char (String "130"%char
    (String "172"%char (repeat_str 59 "a")))) = Panicked.
Proof. repeat split; try (vm_compute; reflexivity); vm_compute; discriminate. Qed.

End ChunkHash.

(** ** Manifests *)

(** [ManifestRef]. *)
Record ManifestRef := MkRef { manifest_id : Uuid; version : N }.

#[export] Instance ManifestRef_eq_dec : EqDecision ManifestRef.
Proof. solve_decision. Defined.
#[export] Instance ManifestRef_countable : Countable ManifestRef.
Proof.
  refine (inj_countable' (fun r => (manifest_id r, version r)) (fun p => MkRef p.1 p.2) _).
  by intros [].
Defined.

Module ManifestRef.
Definition next_version (r : ManifestRef) : ManifestRef :=
  MkRef (manifest_id r) (version r + 1).
Definition id_prefix (i : Uuid) : string := "manifests/" +:+ uuid_str i +:+ "/".
Definition storage_key (r : ManifestRef) : string :=
  "manifests/" +:+ uuid_str (manifest_id r) +:+ "/v" +:+ dec (version r) +:+ ".json".
End ManifestRef.

(** [TraceRef] and [WorkingSetTrace]. *)
Record TraceRef := MkTraceRef { trace_manifest : Uuid; trace_host : option Uuid }.

Module TraceRef.
Definition storage_key (r : TraceRef) : string :=
  match trace_host r with
  | None => "traces/" +:+ uuid_str (trace_manifest r) +:+ "/canonical.json"
  | Some h => "traces/" +:+ uuid_str (trace_manifest r) +:+ "/" +:+ uuid_str h +:+ ".json"
  end.
End TraceRef.

Record WorkingSetTrace := MkTrace {
  trace_schema : N; captured_at : DateTime; vcpu_count : N; capture_window_ms : N;
  trace_chunks : list ChunkHash;
}.

(** [ManifestKind], [ChunkRef], [ManifestDelta]. *)
Inductive ManifestKind : Type := Disk | Memory.

#[export] Instance ManifestKind_eq_dec : EqDecision ManifestKind.
Proof. solve_decision. Defined.

Record ChunkRef := MkChunk { offset : N; hash : ChunkHash }.

#[export] Instance ChunkRef_eq_dec : EqDecision ChunkRef.
Proof. solve_decision. Defined.

Record ManifestDelta := MkDelta { delta_write : list ChunkRef; delta_zero : list N }.

Definition MANIFEST_SCHEMA_VERSION : N := 1.
Definition DEFAULT_DISK_CHUNK_SIZE : N := 16 * 1024 * 1024.
Definition DEFAULT_MEMORY_CHUNK_SIZE : N := 512 * 1024.

Definition default_chunk_size (k : ManifestKind) : N :=
  match k with Disk => DEFAULT_DISK_CHUNK_SIZE | Memory => DEFAULT_MEMORY_CHUNK_SIZE end.

Module Manifest.

Record t := Mk {
  schema_version : N;
  kind : ManifestKind;
  chunk_size : N;
  total_bytes : N;
  chunks : list ChunkRef;
  parent : option ManifestRef;
  working_set_trace : option TraceRef;
  annotations : json;
}.

#[global] Instance t_eta : Eta t := fun m =>
  Mk (schema_version m) (kind m) (chunk_size m) (total_bytes m) (chunks m) (parent m)
     (working_set_trace m) (annotations m).

Definition empty (k : ManifestKind) (total : N) : t :=
  Mk MANIFEST_SCHEMA_VERSION k (default_chunk_size k) total [] None None JNull.

Definition expected_chunk_count (m : t) : N :=
  let sz := chunk_size m in
  if sz =? 0 then 0 else Z.to_N (div_ceil (Z.of_N (total_bytes m)) (Z.of_N sz)).

(** The loop of [validate] over the entries. *)
Fixpoint validate_chunks (sz total : N) (last_offset : option N) (l : list ChunkRef) :
    result unit ChunkStoreError.t :=
  match l with
  | [] => Ok tt
  | entry :: l' =>
      if negb (offset entry mod sz =? 0) then
        Err (MalformedManifest "chunk offset {} is not a multiple of chunk_size {sz}")
      else if total <=? offset entry then
        Err (MalformedManifest "chunk offset {} exceeds total_bytes {}")
      else if match last_offset with Some prev => offset entry <=? prev | None => false end then
        Err (MalformedManifest "chunk offsets must be strictly increasing: {} after {}")
      else validate_chunks sz total (Some (offset entry)) l'
  end.

Definition validate (m : t) : result unit ChunkStoreError.t :=
  if MANIFEST_SCHEMA_VERSION <? schema_version m then
    Err (UnsupportedSchemaVersion (schema_version m) MANIFEST_SCHEMA_VERSION)
  else if chunk_size m =? 0 then Err (MalformedManifest "chunk_size must be > 0")
  else validate_chunks (chunk_size m) (total_bytes m) None (chunks m).

(** [iter().map(|c| (c.offset, c.hash)).collect()]: the last entry of an offset
    stays. *)
Definition by_offset (l : list ChunkRef) : gmap N ChunkHash :=
  fold_left (fun m c => <[offset c := hash c]> m) l ∅.

Definition delta_from (self base : t) : result ManifestDelta ChunkStoreError.t :=
  if negb (chunk_size self =? chunk_size base) || negb (total_bytes self =? total_bytes base)
  then Err (MalformedManifest "delta_from: shapes differ")
  else
    let base_at := by_offset (chunks base) in
    let mine : gset N := list_to_set (offset <$> chunks self) in
    Ok (MkDelta
      (List.filter (fun c => negb (bool_decide (base_at !! offset c = Some (hash c)))) (chunks self))
      (List.filter (fun o => negb (bool_decide (o ∈ mine))) (offset <$> chunks base))).

Definition apply (self : t) (delta : ManifestDelta) : t :=
  let m := by_offset (chunks self) in
  let m := fold_left (fun m o => delete o m) (delta_zero delta) m in
  let m := fold_left (fun m c => <[offset c := hash c]> m) (delta_write delta) m in
  self <| chunks := (fun kv => MkChunk kv.1 kv.2) <$> btree m |>.

(** The [debug_assert!] of the source only fires in test builds. *)
Definition chunk_at (self : t) (o : N) : option ChunkRef :=
  List.find (fun c => offset c =? o) (chunks self).

(** *** Valid manifests *)

(** What validation establishes. *)
Record valid (m : t) : Prop := {
  va_size : chunk_size m ≠ 0;
  va_entries : Forall (fun c => offset c mod chunk_size m = 0 ∧ offset c < total_bytes m) (chunks m);
  va_sorted : StronglySorted N.lt (offset <$> chunks m);
}.

Lemma validate_chunks_iff sz total last l :
  validate_chunks sz total last l = Ok tt ↔
  Forall (fun c => offset c mod sz = 0 ∧ offset c < total) l ∧
  StronglySorted N.lt (offset <$> l) ∧
  (∀ p, last = Some p → Forall (fun c => p < offset c) l).
Proof.
  revert last. induction l as [|c l IH]; intros last; cbn [validate_chunks].
  { split; [intros _; repeat constructor; done|done]. }
  rewrite Forall_cons, fmap_cons, StronglySorted_cons.
  destruct (N.eqb_spec (offset c mod sz) 0) as [Ha|Ha]; cbn [negb]; [|naive_solver].
  destruct (N.leb_spec total (offset c)) as [Ht|Ht]; [split; [done|naive_solver lia]|].
  destruct (match last with Some prev => _ | None => _ end) eqn:El.
  - split; [done|]. intros (_&_&Hp). destruct last as [prev|]; [|done].
    apply N.leb_le in El. specialize (Hp _ eq_refl). apply Forall_cons in Hp as [? _]. lia.
  - rewrite IH, Forall_fmap. split.
    + intros (Hf&Hs&Hc). specialize (Hc _ eq_refl). repeat (split; [done|]).
      intros p ->. apply N.leb_gt in El. apply Forall_cons. split; [done|].
      eapply Forall_impl; [exact Hc|]. cbn. lia.
    + intros ([_ Hf]&[Hs Hc]&_). split; [done|]. split; [done|]. by intros p [= <-].
Qed.

Lemma validate_iff m :
  validate m = Ok tt ↔ schema_version m ≤ MANIFEST_SCHEMA_VERSION ∧ valid m.
Proof.
  unfold validate. destruct (N.ltb_spec MANIFEST_SCHEMA_VERSION (schema_version m)).
  { split; [done|]. intros [? _]. lia. }
  destruct (N.eqb_spec (chunk_size m) 0) as [Hz|Hz].
  { split; [done|]. by intros [_ [? _ _]]. }
  rewrite validate_chunks_iff. split.
  - intros (?&?&_). by split.
  - intros [_ [_ ? ?]]. by split_and!.
Qed.

(** *** Lists of chunks and their maps *)

Definition entry (c : ChunkRef) : N * ChunkHash := (offset c, hash c).

Lemma sorted_nodup (l : list N) : StronglySorted N.lt l → NoDup l.
Proof.
  induction 1 as [|x l Hs IH Hx]; constructor; [|done].
  rewrite Forall_forall in Hx. intros Hin%Hx. lia.
Qed.

(** Inserting a list of entries with distinct offsets. *)
Lemma lookup_fold_insert l (m : gmap N ChunkHash) o h :
  NoDup (offset <$> l) →
  fold_left (fun m c => <[offset c := hash c]> m) l m !! o = Some h ↔
  MkChunk o h ∈ l ∨ (o ∉ offset <$> l ∧ m !! o = Some h).
Proof.
  revert m. induction l as [|c l IH]; intros m; cbn [fold_left].
  { intros _. split; [intros; right; split; [apply not_elem_of_nil|done]|].
    intros [?%not_elem_of_nil|[_ ?]]; done. }
  rewrite fmap_cons. intros [Hni Hnd]%NoDup_cons. rewrite (IH _ Hnd), elem_of_cons, lookup_insert_Some.
  rewrite not_elem_of_cons. destruct c as [o' h']. cbn in *.
  assert (Hin : ∀ x, MkChunk o' x ∈ l → o' ∈ offset <$> l).
  { intros x Hx. apply list_elem_of_fmap. by exists (MkChunk o' x). }
  destruct (decide (o = o')) as [->|Hne]; naive_solver congruence.
Qed.

(** A map whose entries are a strictly sorted list iterates as that list. *)
Lemma btree_of_sorted (m : gmap N ChunkHash) (l : list (N * ChunkHash)) :
  StronglySorted N.lt l.*1 → (∀ k x, m !! k = Some x ↔ (k, x) ∈ l) → btree m = l.
Proof.
  intros Hs Hm. set (R := fun a b : N * ChunkHash => Is_true (key_leb a.1 b.1)).
  assert (Htr : Transitive R).
  { intros a b c. unfold R, key_leb, KeyOrd_N. rewrite !Is_true_true, !N.leb_le. lia. }
  assert (Hto : Total R).
  { intros a b. unfold R, key_leb, KeyOrd_N. rewrite !Is_true_true, !N.leb_le. lia. }
  assert (Hnd : NoDup l).
  { apply (NoDup_fmap_1 fst). by apply sorted_nodup. }
  assert (Hp : btree m ≡ₚ l).
  { rewrite btree_perm. apply NoDup_Permutation; [apply NoDup_map_to_list|done|].
    intros [k x]. by rewrite elem_of_map_to_list. }
  apply (StronglySorted_unique_strong R); [|by apply StronglySorted_merge_sort| |done].
  - intros [k1 x1] [k2 x2] H1 H2. unfold R, key_leb, KeyOrd_N. cbn.
    rewrite !Is_true_true, !N.leb_le. intros. assert (k1 = k2) as -> by lia.
    rewrite Hp in H1. apply Hm in H1, H2. congruence.
  - clear -Hs. induction l as [|a l IH]; [constructor|]. rewrite fmap_cons in Hs.
    apply StronglySorted_cons in Hs as [Ha Hs]. apply StronglySorted_cons. split; [|by apply IH].
    rewrite Forall_fmap in Ha. eapply Forall_impl; [exact Ha|]. intros b Hb. cbn in Hb.
    unfold R, key_leb, KeyOrd_N. rewrite Is_true_true, N.leb_le. lia.
Qed.

Lemma entries_unique l c1 c2 :
  NoDup (offset <$> l) → c1 ∈ l → c2 ∈ l → offset c1 = offset c2 → c1 = c2.
Proof.
  intros Hnd [i Hi]%list_elem_of_lookup [j Hj]%list_elem_of_lookup Heq.
  assert (i = j) as ->; [|congruence].
  eapply NoDup_lookup; [exact Hnd|..]; rewrite list_lookup_fmap; [by rewrite Hi|].
  rewrite Hj. cbn. by rewrite Heq.
Qed.

Lemma filterb_sublist {A} (P : A → bool) (l : list A) : List.filter P l `sublist_of` l.
Proof. induction l as [|x l IH]; cbn; [done|]. destruct (P x); by constructor. Qed.

Lemma chunk_at_Some m o c :
  StronglySorted N.lt (offset <$> chunks m) →
  chunk_at m o = Some c ↔ c ∈ chunks m ∧ offset c = o.
Proof.
  intros Hs%sorted_nodup. unfold chunk_at. split.
  - intros [Hin Heq]%find_Some_elem. by apply N.eqb_eq in Heq.
  - intros [Hin <-]. destruct (List.find _ _) as [c'|] eqn:Ef.
    + apply find_Some_elem in Ef as [Hin' Heq]. apply N.eqb_eq in Heq. f_equal.
      by apply (entries_unique (chunks m)).
    + rewrite find_None_elem in Ef. specialize (Ef c Hin). by rewrite N.eqb_refl in Ef.
Qed.

Lemma chunk_at_None m o : chunk_at m o = None ↔ o ∉ offset <$> chunks m.
Proof.
  unfold chunk_at. rewrite find_None_elem, list_elem_of_fmap. split.
  - intros H (c&->&Hc). specialize (H c Hc). by rewrite N.eqb_refl in H.
  - intros H c Hc. apply N.eqb_neq. intros <-. eauto.
Qed.

Lemma by_offset_lookup l o h :
  NoDup (offset <$> l) → by_offset l !! o = Some h ↔ MkChunk o h ∈ l.
Proof.
  intros Hnd. unfold by_offset. rewrite lookup_fold_insert by done. rewrite lookup_empty. naive_solver.
Qed.

(** The map [apply] builds from the delta is the map of the target. *)
Lemma apply_map_lookup base next δ o h :
  NoDup (offset <$> chunks base) → NoDup (offset <$> chunks next) →
  delta_from next base = Ok δ →
  fold_left (fun m c => <[offset c := hash c]> m) (delta_write δ)
    (fold_left (fun m o => delete o m) (delta_zero δ) (by_offset (chunks base))) !! o = Some h ↔
  MkChunk o h ∈ chunks next.
Proof.
  intros Hb Hn. unfold delta_from. destruct (_ || _); [done|]. intros [= <-]. cbn [delta_write delta_zero].
  assert (Hw : NoDup (offset <$> List.filter (fun c => negb (bool_decide
      (by_offset (chunks base) !! offset c = Some (hash c)))) (chunks next))).
  { eapply sublist_NoDup; [exact Hn|]. apply fmap_sublist, filterb_sublist. }
  rewrite lookup_fold_insert, fold_delete_lookup by done. split.
  - intros [[Hc _]%elem_of_filterb|[Hnw Hz]]; [done|]. case_decide as Hd; [done|].
    destruct (decide (o ∈ offset <$> chunks next)) as [Hin|Hout].
    + apply list_elem_of_fmap in Hin as ([o' h']&->&Hc). cbn in *.
      destruct (decide (h' = h)) as [->|Hne]; [done|]. exfalso. apply Hnw.
      apply list_elem_of_fmap. exists (MkChunk o' h'). split; [done|].
      apply elem_of_filterb. split; [done|]. cbn. rewrite Hz.
      by rewrite bool_decide_eq_false_2 by congruence.
    + exfalso. apply Hd, elem_of_filterb. apply by_offset_lookup in Hz; [|done]. split.
      * apply list_elem_of_fmap. by exists (MkChunk o h).
      * by rewrite bool_decide_eq_false_2 by (by rewrite elem_of_list_to_set).
  - intros Hin. destruct (decide (by_offset (chunks base) !! o = Some h)) as [HB|HB].
    + right. split.
      * intros ([o' h']&->&[Hc Hp]%elem_of_filterb)%list_elem_of_fmap. cbn in *.
        assert (Heq := entries_unique _ _ _ Hn Hin Hc eq_refl). simplify_eq.
        by rewrite bool_decide_eq_true_2 in Hp.
      * rewrite decide_False; [done|]. intros [_ Hq]%elem_of_filterb.
        rewrite bool_decide_eq_true_2 in Hq; [done|].
        apply elem_of_list_to_set, list_elem_of_fmap. by exists (MkChunk o h).
    + left. apply elem_of_filterb. split; [done|]. cbn. by rewrite bool_decide_eq_false_2.
Qed.

Lemma apply_chunks base next δ :
  valid base → valid next → delta_from next base = Ok δ → chunks (apply base δ) = chunks next.
Proof.
  intros [_ _ Hb] [_ _ Hn] Hd. unfold apply. cbn [chunks setter].
  rewrite (btree_of_sorted _ (entry <$> chunks next)).
  - rewrite <- list_fmap_compose. induction (chunks next) as [|[o h] l IH]; [done|].
    cbn. f_equal. apply IH. cbn in Hn. by apply StronglySorted_cons in Hn as [_ ?].
  - by rewrite <- list_fmap_compose.
  - intros k x. rewrite (apply_map_lookup base next δ k x) by (try apply sorted_nodup; done).
    rewrite list_elem_of_fmap. split; [intros; by exists (MkChunk k x)|].
    intros ([o h]&[= -> ->]&?). done.
Qed.

(** Deltas round trip and are minimal: between two valid manifests of the
    same shape the delta exists, applying it to the base gives exactly the
    target's chunk list and a valid manifest, it writes exactly the chunks
    whose content differs from the base at that offset, and it zeroes exactly
    the offsets only the base holds; between different shapes it is refused. *)
Theorem delta_apply_roundtrip next base :
  validate next = Ok tt → validate base = Ok tt →
  if (chunk_size next =? chunk_size base) && (total_bytes next =? total_bytes base) then
    ∃ δ, delta_from next base = Ok δ ∧
      chunks (apply base δ) = chunks next ∧ validate (apply base δ) = Ok tt ∧
      (∀ c, c ∈ delta_write δ ↔ c ∈ chunks next ∧ chunk_at base (offset c) ≠ Some c) ∧
      (∀ o, o ∈ delta_zero δ ↔ is_Some (chunk_at base o) ∧ chunk_at next o = None)
  else ∃ msg, delta_from next base = Err (MalformedManifest msg).
Proof.
  intros [Hsn Hn]%validate_iff [Hsb Hb]%validate_iff.
  destruct (_ && _) eqn:Es.
  - apply andb_true_iff in Es as [Ec%N.eqb_eq Et%N.eqb_eq].
    assert (Hd : ∃ δ, delta_from next base = Ok δ).
    { unfold delta_from. rewrite Ec, Et, !N.eqb_refl. by eexists. }
    destruct Hd as [δ Hd]. exists δ. split; [done|].
    pose proof (apply_chunks base next δ Hb Hn Hd) as Hch. split; [done|]. split; [|split].
    + apply validate_iff. split; [done|]. destruct Hn as [? He ?], Hb as [? _ _].
      split; rewrite ?Hch; [done| |done]. cbn. rewrite <- Ec, <- Et. done.
    + intros c. unfold delta_from in Hd. destruct (_ || _); [done|]. injection Hd as <-. cbn.
      rewrite elem_of_filterb, negb_true_iff, bool_decide_eq_false.
      rewrite by_offset_lookup by apply sorted_nodup, Hb.
      rewrite (chunk_at_Some base) by apply Hb. destruct c. cbn. naive_solver.
    + intros o. unfold delta_from in Hd. destruct (_ || _); [done|]. injection Hd as <-. cbn.
      rewrite elem_of_filterb, negb_true_iff, bool_decide_eq_false, elem_of_list_to_set.
      rewrite chunk_at_None, <- (not_eq_None_Some (chunk_at base o)), chunk_at_None.
      destruct (decide (o ∈ offset <$> chunks base)); naive_solver.
  - unfold delta_from. apply andb_false_iff in Es as [->| ->]; rewrite ?orb_true_r; by eexists.
Qed.

Lemma delta_apply_roundtrip_witness :
  let base := (empty Disk 67108864) <| chunks := [MkChunk 0 [1]; MkChunk 16777216 [2]] |> in
  let next := (empty Disk 67108864) <| chunks := [MkChunk 0 [9]; MkChunk 33554432 [3]] |> in
  ∃ δ, delta_from next base = Ok δ ∧ chunks (apply base δ) = chunks next.
Proof.
  intros base next. destruct (delta_apply_roundtrip next base) as (δ&H1&H2&_).
  - reflexivity.
  - reflexivity.
  - exists δ. split; [exact H1|exact H2].
Defined.

(** *** Sizes *)

Lemma sorted_bounded (l : list N) k n :
  StronglySorted N.lt l → Forall (fun x => k ≤ x < n) l → N.of_nat (length l) ≤ n - k.
Proof.
  revert k. induction l as [|x l IH]; intros k; [cbn; lia|].
  rewrite StronglySorted_cons, Forall_cons. intros [Hx Hs] [Hk Hf].
  assert (N.of_nat (length l) ≤ n - (x + 1)); [|cbn; lia]. apply IH; [done|].
  apply Forall_forall. intros y Hy. rewrite Forall_forall in Hx, Hf.
  specialize (Hx y Hy). specialize (Hf y Hy). lia.
Qed.

Lemma index_below m o :
  chunk_size m ≠ 0 → o < total_bytes m → o mod chunk_size m = 0 →
  o / chunk_size m < expected_chunk_count m.
Proof.
  intros Hz Ho Hm. unfold expected_chunk_count. rewrite (proj2 (N.eqb_neq _ _) Hz).
  unfold div_ceil. set (sz := chunk_size m) in *. set (tot := total_bytes m) in *.
  assert (Hq : Z.of_N o = (Z.of_N sz * Z.of_N (o / sz))%Z).
  { pose proof (N.div_mod o sz Hz) as Hd. rewrite Hm, N.add_0_r in Hd. lia. }
  pose proof (Z.div_mod (Z.of_N tot) (Z.of_N sz) ltac:(lia)) as Ht.
  pose proof (Z.mod_pos_bound (Z.of_N tot) (Z.of_N sz) ltac:(lia)) as Hb.
  set (q := (Z.of_N tot / Z.of_N sz)%Z) in *. set (r := (Z.of_N tot mod Z.of_N sz)%Z) in *.
  assert (Hlt : (Z.of_N sz * Z.of_N (o / sz) < Z.of_N sz * q + r)%Z) by lia.
  case_decide; nia.
Qed.

Lemma aligned_lt sz a b : sz ≠ 0 → a mod sz = 0 → b mod sz = 0 → a < b → a / sz < b / sz.
Proof.
  intros Hz Ha Hb Hlt. pose proof (N.div_mod a sz Hz) as Da. pose proof (N.div_mod b sz Hz) as Db.
  rewrite Ha in Da. rewrite Hb in Db. apply (N.mul_lt_mono_pos_l sz); lia.
Qed.

(** A valid manifest fits its image: it lists at most as many chunks as the
    image needs, every entry lies at [i * chunk_size] for an index [i] below
    that count, and an offset is listed at most once. *)
Theorem manifest_within_image m :
  validate m = Ok tt →
  N.of_nat (length (chunks m)) ≤ expected_chunk_count m ∧
  (∀ c, c ∈ chunks m →
     offset c = chunk_size m * (offset c / chunk_size m) ∧
     offset c / chunk_size m < expected_chunk_count m ∧ chunk_at m (offset c) = Some c) ∧
  NoDup (offset <$> chunks m).
Proof.
  intros [_ [Hz He Hs]]%validate_iff. rewrite Forall_forall in He. split; [|split].
  - assert (Hl : N.of_nat (length ((fun c => offset c / chunk_size m) <$> chunks m))
                   ≤ expected_chunk_count m - 0); [|rewrite length_fmap in Hl; lia].
    apply sorted_bounded.
    + clear -Hs He Hz. induction (chunks m) as [|c l IH]; [constructor|]. rewrite fmap_cons in Hs |- *.
      apply StronglySorted_cons in Hs as [Hc Hs]. apply StronglySorted_cons. split.
      * rewrite Forall_fmap, Forall_forall in Hc |- *. intros c' Hc'. specialize (Hc c' Hc'). cbn in Hc |- *.
        destruct (He c) as [H1 _]; [set_solver|]. destruct (He c') as [H2 _]; [set_solver|].
        apply (aligned_lt (chunk_size m)); done.
      * apply IH; [|done]. intros c' Hc'. apply He. set_solver.
    + apply Forall_fmap, Forall_forall. intros c Hc. cbn. destruct (He c Hc). split; [apply N.le_0_l|].
      by apply index_below.
  - intros c Hc. destruct (He c Hc) as [Hm Ht]. split; [|split].
    + pose proof (N.div_mod (offset c) _ Hz). lia.
    + by apply index_below.
    + by apply chunk_at_Some.
  - by apply sorted_nodup.
Qed.

Lemma manifest_within_image_witness :
  N.of_nat (length (chunks ((empty Disk 67108865) <| chunks := [MkChunk 0 []; MkChunk 67108864 []] |>)))
    ≤ expected_chunk_count ((empty Disk 67108865) <| chunks := [MkChunk 0 []; MkChunk 67108864 []] |>).
Proof.
  apply (manifest_within_image ((empty Disk 67108865) <| chunks := [MkChunk 0 []; MkChunk 67108864 []] |>)).
  reflexivity.
Defined.

(** *** Content-derived identity *)

(** [to_le_bytes], [k] bytes. *)
Fixpoint le_bytes (k : nat) (n : N) : bytes :=
  match k with O => [] | S k' => (n mod 256) :: le_bytes k' (n / 256) end.

(** [Uuid::from_bytes]: big endian. *)
Definition from_bytes (l : bytes) : Uuid := fold_left (fun acc b => acc * 256 + b) l 0.

Definition ascii_bytes (s : string) : bytes := N_of_ascii <$> String.list_ascii_of_string s.

(** The bytes fed to the hasher. *)
Definition chunk_bytes (c : ChunkRef) : bytes := le_bytes 8 (offset c) ++ hash c.
Definition content_preimage (m : t) : bytes :=
  ascii_bytes "engram-manifest-content-v1" ++
  [match kind m with Disk => 0 | Memory => 1 end] ++
  le_bytes 8 (chunk_size m) ++ le_bytes 8 (total_bytes m) ++
  concat (chunk_bytes <$> chunks m).

(** [bytes[6] = (bytes[6] & 0x0F) | 0x80; bytes[8] = (bytes[8] & 0x3F) | 0x80]. *)
Definition stamp_version (l : bytes) : bytes :=
  alter (fun b => N.lor (N.land b 63) 128) 8%nat (alter (fun b => N.lor (N.land b 15) 128) 6%nat l).

Definition content_ref (sha256 : bytes → bytes) (m : t) : ManifestRef :=
  MkRef (from_bytes (stamp_version (take 16 (sha256 (content_preimage m))))) 1.

(** What the types guarantee: [u64] fields and 32-byte hashes. *)
Definition typed (m : t) : Prop :=
  chunk_size m < 2 ^ 64 ∧ total_bytes m < 2 ^ 64 ∧
  Forall (fun c => offset c < 2 ^ 64 ∧ wf_hash (hash c)) (chunks m).

Definition same_content (m1 m2 : t) : Prop :=
  kind m1 = kind m2 ∧ chunk_size m1 = chunk_size m2 ∧ total_bytes m1 = total_bytes m2 ∧
  chunks m1 = chunks m2.

Lemma length_le_bytes k n : length (le_bytes k n) = k.
Proof. revert n. induction k; intros n; cbn; [done|]. by f_equal. Qed.

Lemma le_bytes_inj k a b :
  a < 256 ^ N.of_nat k → b < 256 ^ N.of_nat k → le_bytes k a = le_bytes k b → a = b.
Proof.
  revert a b. induction k as [|k IH]; intros a b; [cbn; lia|].
  rewrite Nat2N.inj_succ, N.pow_succ_r'. intros Ha Hb. cbn. intros [= Hm Hr].
  assert (a / 256 = b / 256) by (apply IH; [apply N.Div0.div_lt_upper_bound..|]; done).
  rewrite (N.div_mod a 256), (N.div_mod b 256) by done. congruence.
Qed.

Lemma chunk_bytes_inj l1 l2 :
  Forall (fun c => offset c < 2 ^ 64 ∧ wf_hash (hash c)) l1 →
  Forall (fun c => offset c < 2 ^ 64 ∧ wf_hash (hash c)) l2 →
  concat (chunk_bytes <$> l1) = concat (chunk_bytes <$> l2) → l1 = l2.
Proof.
  intros H1. revert l2. induction H1 as [|[o1 h1] l1 [Ho1 [Hl1 _]] H1 IH]; intros l2 H2.
  - destruct H2 as [|[o2 h2] l2 _ _]; [done|]. done.
  - destruct H2 as [|[o2 h2] l2 [Ho2 [Hl2 _]] H2]; [done|]. cbn [fmap list_fmap concat] in *.
    unfold chunk_bytes at 1 3. cbn [offset hash] in *. rewrite <- !app_assoc.
    intros [He Hr]%app_inj_1; [|by rewrite !length_le_bytes].
    apply app_inj_1 in Hr as [-> Hr]; [|by rewrite Hl1, Hl2].
    apply le_bytes_inj in He as ->; [|done..]. f_equal. by apply IH.
Qed.

Lemma content_preimage_inj m1 m2 :
  typed m1 → typed m2 → content_preimage m1 = content_preimage m2 → same_content m1 m2.
Proof.
  intros (Hc1&Ht1&Hf1) (Hc2&Ht2&Hf2). unfold content_preimage.
  intros [_ H]%app_inj_1; [|done]. apply app_inj_1 in H as [Hk H]; [|done].
  apply app_inj_1 in H as [Hc H]; [|by rewrite !length_le_bytes].
  apply app_inj_1 in H as [Ht H]; [|by rewrite !length_le_bytes].
  split; [by destruct (kind m1), (kind m2)|].
  split; [by apply le_bytes_inj in Hc|]. split; [by apply le_bytes_inj in Ht|].
  by apply chunk_bytes_inj.
Qed.

Lemma from_bytes_app l1 l2 :
  from_bytes (l1 ++ l2) = from_bytes l1 * 256 ^ N.of_nat (length l2) + from_bytes l2.
Proof.
  unfold from_bytes. rewrite fold_left_app. generalize (fold_left (fun acc b => acc * 256 + b) l1 0).
  intros x. revert x. induction l2 as [|b l2 IH]; intros x; cbn [fold_left length]; [lia|].
  rewrite IH, (IH (0 * 256 + b)), Nat2N.inj_succ, N.pow_succ_r'. lia.
Qed.

Lemma from_bytes_lt l : Forall (fun b => b < 256) l → from_bytes l < 256 ^ N.of_nat (length l).
Proof.
  induction l as [|b l IH] using rev_ind; intros Hl; [cbn; lia|].
  apply Forall_app in Hl as [Hl Hb]. apply Forall_cons in Hb as [Hb _]. specialize (IH Hl).
  assert (Hp : 256 ^ N.of_nat (length (l ++ [b])) = 256 * 256 ^ N.of_nat (length l)).
  { rewrite length_app, Nat.add_1_r, Nat2N.inj_succ. apply N.pow_succ_r'. }
  rewrite Hp, from_bytes_app. change (from_bytes [b]) with b.
  change (256 ^ N.of_nat (length [b])) with 256. lia.
Qed.

(** The byte [b] after prefix [l1]. *)
Lemma from_bytes_byte l1 b l2 :
  Forall (fun b => b < 256) (b :: l2) →
  from_bytes (l1 ++ b :: l2) / 256 ^ N.of_nat (length l2) mod 256 = b.
Proof.
  intros [Hb Hl]%Forall_cons. change (b :: l2) with ([b] ++ l2). rewrite app_assoc, from_bytes_app.
  rewrite N.div_add_l by (apply N.pow_nonzero; done).
  rewrite (N.div_small (from_bytes l2)) by by apply from_bytes_lt. rewrite N.add_0_r, from_bytes_app.
  change (256 ^ N.of_nat (length [b])) with 256. rewrite N.add_comm, N.Div0.mod_add.
  change (from_bytes [b]) with b. by apply N.mod_small.
Qed.

(** The stamped bytes: the two fixed bit patterns, within a byte. *)
Lemma stamp_bits x :
  N.lor (N.land x 15) 128 / 16 = 8 ∧ N.lor (N.land x 15) 128 < 256 ∧
  N.lor (N.land x 63) 128 / 64 = 2 ∧ N.lor (N.land x 63) 128 < 256.
Proof.
  assert (Hs : ∀ k m, N.lor (N.land x m) 128 / 2 ^ k =
                      N.lor (N.land (N.shiftr x k) (N.shiftr m k)) (N.shiftr 128 k)).
  { intros k m. by rewrite <- N.shiftr_div_pow2, N.shiftr_lor, N.shiftr_land. }
  assert (Hlt : ∀ m, N.shiftr m 8 = 0 → N.lor (N.land x m) 128 < 256).
  { intros m Hm. apply N.div_small_iff; [done|]. change 256 with (2 ^ 8).
    rewrite Hs, Hm, N.land_0_r. done. }
  split; [|split; [|split]].
  - change 16 with (2 ^ 4). rewrite Hs. change (N.shiftr 15 4) with 0. by rewrite N.land_0_r.
  - by apply Hlt.
  - change 64 with (2 ^ 6). rewrite Hs. change (N.shiftr 63 6) with 0. by rewrite N.land_0_r.
  - by apply Hlt.
Qed.

Lemma stamp_version_bits l :
  length l = 16%nat → Forall (fun b => b < 256) l →
  from_bytes (stamp_version l) / 256 ^ 9 mod 256 / 16 = 8 ∧
  from_bytes (stamp_version l) / 256 ^ 7 mod 256 / 64 = 2.
Proof.
  intros Hl Hb. do 16 (destruct l as [|? l]; [done|]). destruct l; [|done].
  repeat (apply Forall_cons in Hb as [? Hb]). cbn [stamp_version alter list_alter].
  match goal with |- context [from_bytes [?a0; ?a1; ?a2; ?a3; ?a4; ?a5; ?a6; ?a7; ?a8; ?a9; ?a10;
      ?a11; ?a12; ?a13; ?a14; ?a15]] =>
    pose proof (from_bytes_byte [a0; a1; a2; a3; a4; a5] a6
                  [a7; a8; a9; a10; a11; a12; a13; a14; a15]) as Hv;
    pose proof (from_bytes_byte [a0; a1; a2; a3; a4; a5; a6; a7] a8
                  [a9; a10; a11; a12; a13; a14; a15]) as Hr
  end.
  cbn [app length] in Hv, Hr.
  change (N.of_nat 9) with 9 in Hv. change (N.of_nat 7) with 7 in Hr.
  rewrite Hv, Hr; [split; apply stamp_bits|..]; repeat constructor; try done; apply stamp_bits.
Qed.

(** The content-derived identity: it is a function of kind, chunk size, total
    size and the ordered chunk list alone; manifests that differ in any of
    these feed the hash different messages, so they share an identity only if
    the truncated hash collides; and the identity is a well-formed version-8
    RFC 4122 UUID at version 1. *)
Theorem content_ref_identity (sha256 : bytes → bytes) m1 m2 :
  (∀ x, wf_hash (sha256 x)) → typed m1 → typed m2 →
  (same_content m1 m2 → content_ref sha256 m1 = content_ref sha256 m2) ∧
  (content_preimage m1 = content_preimage m2 → same_content m1 m2) ∧
  version (content_ref sha256 m1) = 1 ∧
  manifest_id (content_ref sha256 m1) / 2 ^ 72 mod 256 / 16 = 8 ∧
  manifest_id (content_ref sha256 m1) / 2 ^ 56 mod 256 / 64 = 2.
Proof.
  intros Hsha H1 H2. split; [|split; [by apply content_preimage_inj|split; [done|]]].
  - intros (Hk&Hc&Ht&Hl). unfold content_ref, content_preimage. by rewrite Hk, Hc, Ht, Hl.
  - destruct (Hsha (content_preimage m1)) as [Hl Hb]. apply stamp_version_bits.
    + rewrite length_take, Hl. done.
    + by apply Forall_take.
Qed.

(** A stand-in with the shape of SHA-256. *)
Definition toy_hash (l : bytes) : bytes := replicate 32 (N.of_nat (length l) mod 256).

Lemma toy_hash_wf l : wf_hash (toy_hash l).
Proof.
  split; [done|]. apply Forall_replicate. by apply N.mod_lt.
Qed.

(** A stand-in for the JSON codec, on manifests without chunks. *)
Definition toy_to_vec (m : t) : option bytes :=
  Some (total_bytes m :: match parent m with None => [] | Some r => [manifest_id r; version r] end).
Definition toy_from_slice (b : bytes) : option t :=
  match b with
  | [n] => Some (empty Disk n)
  | [n; i; v] => Some ((empty Disk n) <| parent := Some (MkRef i v) |>)
  | _ => None
  end.

Lemma content_ref_identity_witness :
  version (content_ref toy_hash (empty Disk 16)) = 1 ∧
  manifest_id (content_ref toy_hash (empty Disk 16)) / 2 ^ 72 mod 256 / 16 = 8.
Proof.
  destruct (content_ref_identity toy_hash (empty Disk 16) (empty Disk 16)) as (_&_&H1&H2&_).
  - exact toy_hash_wf.
  - repeat split; constructor.
  - repeat split; constructor.
  - split; [exact H1|exact H2].
Defined.

End Manifest.
