(* ===== verification/World.v ===== *)
(** * Asynchronous programs over object storage and local files

    The chunk store is asynchronous code over a [BlobStorage] (an object
    store, shared by every host) and the files of the local chunk cache.  A
    program is a tree of requests, one per [await] on either; between two
    requests any other program may run.  Requests can fail at any time, and a
    failed upload may or may not have landed.

    [wp] says what a program may request and what it ends with; [pool_sound]
    proves that this survives every interleaving, fault and eviction. *)

From S2P Require Import Prelude Text Manifest.

(** ** Requests and programs *)

Inductive req : Type → Type :=
(* the trait [BlobStorage] *)
| BlobGet (k : string) : req (result bytes BlobError.t)
| BlobPut (k : string) (v : bytes) : req (result N BlobError.t)
| BlobExists (k : string) : req (result bool BlobError.t)
| BlobDelete (k : string) : req (result unit BlobError.t)
| BlobList (prefix : string) : req (result (list string) BlobError.t)
(* the files of the local cache: [read_if_present], [write_atomic],
   [remove_file], [try_exists(..).unwrap_or(false)] *)
| FileRead (h : ChunkHash) : req (result (option bytes) unit)
| FileWrite (h : ChunkHash) (v : bytes) : req (result unit unit)
| FileRemove (h : ChunkHash) : req unit
| FileExists (h : ChunkHash) : req bool
(* the [.unverified] sidecars *)
| MarkWrite (h : ChunkHash) : req (result unit unit)
| MarkRemove (h : ChunkHash) : req unit
| MarkExists (h : ChunkHash) : req bool.

Inductive prog (A : Type) : Type :=
| Ret (a : A)
| Do {X : Type} (q : req X) (k : X → prog A).
Arguments Ret {A} a.
Arguments Do {A X} q k.

#[export] Instance prog_ret : MRet prog := fun A a => Ret a.
#[export] Instance prog_bind : MBind prog := fun A B f =>
  fix go (p : prog A) : prog B :=
    match p with
    | Ret a => f a
    | Do q k => Do q (fun x => go (k x))
    end.

(** One request. *)
Definition ask {X} (q : req X) : prog X := Do q Ret.

(** Asynchronous code that may fail: [async fn f() -> Result<A>]. *)
Notation async A := (prog (result A ChunkStoreError.t)) (only parsing).

Definition fail {A} (e : ChunkStoreError.t) : async A := Ret (Err e).
Definition okay {A} (a : A) : async A := Ret (Ok a).

(** [p?]: continue with the value, return the error. *)
Definition try_ {A B} (p : async A) (f : A → async B) : async B :=
  r ← p; match r with Ok a => f a | Err e => fail e end.

(** [blob.op().await?]: the error is wrapped by [From<BlobError>]. *)
Definition blob {A} (q : req (result A BlobError.t)) : async A :=
  r ← ask q; Ret (match r with Ok a => Ok a | Err e => Err (ChunkStoreError.Blob e) end).

(** A cache operation's [io::Error], wrapped by [From<io::Error>]. *)
Definition file {A} (q : req (result A unit)) : async A :=
  r ← ask q; Ret (match r with Ok a => Ok a | Err _ => Err ChunkStoreError.Cache end).

Notation "'let!' x ':=' p 'in' k" := (try_ p (fun x => k))
  (at level 10, x pattern, p at level 100, k at level 200) : rust_scope.

(** ** The world *)

Record World := MkWorld {
  objects : gmap string bytes;
  files : gmap (list N) bytes;
  marks : gset (list N);
}.

#[export] Instance World_eta : Eta World := fun w => MkWorld (objects w) (files w) (marks w).

(** The answers a request can get.  Reads and listings are exact or fail; a
    failed upload or file write has landed or not. *)
Inductive answers : ∀ {X}, World → req X → X → World → Prop :=
| an_get_ok w k v : objects w !! k = Some v → answers w (BlobGet k) (Ok v) w
| an_get_none w k : objects w !! k = None → answers w (BlobGet k) (Err BlobError.NotFound) w
| an_get_fail w k e : e ≠ BlobError.NotFound → answers w (BlobGet k) (Err e) w
| an_put_ok w k v : answers w (BlobPut k v) (Ok (N.of_nat (length v)))
                      (w <| objects := <[k := v]> (objects w) |>)
| an_put_lost w k v e : answers w (BlobPut k v) (Err e) (w <| objects := <[k := v]> (objects w) |>)
| an_put_fail w k v e : answers w (BlobPut k v) (Err e) w
| an_exists_ok w k : answers w (BlobExists k) (Ok (bool_decide (is_Some (objects w !! k)))) w
| an_exists_fail w k e : answers w (BlobExists k) (Err e) w
| an_delete_ok w k : answers w (BlobDelete k) (Ok tt) (w <| objects := delete k (objects w) |>)
| an_delete_fail w k e : answers w (BlobDelete k) (Err e) w
| an_list_ok w p l :
    (∀ k, k ∈ l ↔ is_Some (objects w !! k) ∧ is_Some (strip_prefix p k)) →
    answers w (BlobList p) (Ok l) w
| an_list_fail w p e : answers w (BlobList p) (Err e) w
| an_file_read w h : answers w (FileRead h) (Ok (files w !! h)) w
| an_file_read_fail w h : answers w (FileRead h) (Err tt) w
| an_file_write w h v : answers w (FileWrite h v) (Ok tt) (w <| files := <[h := v]> (files w) |>)
| an_file_write_lost w h v :
    answers w (FileWrite h v) (Err tt) (w <| files := <[h := v]> (files w) |>)
| an_file_write_fail w h v : answers w (FileWrite h v) (Err tt) w
| an_file_remove w h : answers w (FileRemove h) tt (w <| files := delete h (files w) |>)
| an_file_remove_fail w h : answers w (FileRemove h) tt w
| an_file_exists w h : answers w (FileExists h) (bool_decide (is_Some (files w !! h))) w
| an_file_exists_fail w h : answers w (FileExists h) false w
| an_mark_write w h : answers w (MarkWrite h) (Ok tt) (w <| marks := {[h]} ∪ marks w |>)
| an_mark_write_lost w h : answers w (MarkWrite h) (Err tt) (w <| marks := {[h]} ∪ marks w |>)
| an_mark_write_fail w h : answers w (MarkWrite h) (Err tt) w
| an_mark_remove w h : answers w (MarkRemove h) tt (w <| marks := marks w ∖ {[h]} |>)
| an_mark_remove_fail w h : answers w (MarkRemove h) tt w
| an_mark_exists w h : answers w (MarkExists h) (bool_decide (h ∈ marks w)) w
| an_mark_exists_fail w h : answers w (MarkExists h) false w.

(** The answer when nothing fails. *)
Definition serve {X} (w : World) (q : req X) : X * World :=
  match q with
  | BlobGet k => (match objects w !! k with Some v => Ok v | None => Err BlobError.NotFound end, w)
  | BlobPut k v => (Ok (N.of_nat (length v)), w <| objects := <[k := v]> (objects w) |>)
  | BlobExists k => (Ok (bool_decide (is_Some (objects w !! k))), w)
  | BlobDelete k => (Ok tt, w <| objects := delete k (objects w) |>)
  | BlobList p =>
      (Ok (List.filter (fun k => bool_decide (is_Some (strip_prefix p k))) (keys (objects w))), w)
  | FileRead h => (Ok (files w !! h), w)
  | FileWrite h v => (Ok tt, w <| files := <[h := v]> (files w) |>)
  | FileRemove h => (tt, w <| files := delete h (files w) |>)
  | FileExists h => (bool_decide (is_Some (files w !! h)), w)
  | MarkWrite h => (Ok tt, w <| marks := {[h]} ∪ marks w |>)
  | MarkRemove h => (tt, w <| marks := marks w ∖ {[h]} |>)
  | MarkExists h => (bool_decide (h ∈ marks w), w)
  end.

(** A program alone, without faults. *)
Fixpoint run_prog {A} (p : prog A) (w : World) : A * World :=
  match p with
  | Ret a => (a, w)
  | Do q k => let '(x, w') := serve w q in run_prog (k x) w'
  end.

Lemma run_prog_bind {A B} (p : prog A) (f : A → prog B) w :
  run_prog (p ≫= f) w = let '(a, w') := run_prog p w in run_prog (f a) w'.
Proof.
  revert w. induction p as [a|X q k IH]; intros w; [done|]. cbn.
  destruct (serve w q) as [x w']. apply IH.
Qed.

Lemma run_prog_try {A B} (p : async A) (f : A → async B) w :
  run_prog (try_ p f) w =
  match run_prog p w with (Ok a, w') => run_prog (f a) w' | (Err e, w') => (Err e, w') end.
Proof. unfold try_. rewrite run_prog_bind. by destruct (run_prog p w) as [[] ?]. Qed.

Lemma serve_answers {X} w (q : req X) : answers w q (serve w q).1 (serve w q).2.
Proof.
  destruct q; cbn; try constructor.
  - destruct (objects w !! k) eqn:E; by constructor.
  - intros k. rewrite elem_of_filterb, elem_of_keys, bool_decide_eq_true. done.
Qed.

(** ** Interleavings *)

(** A pool of programs with results of one type; a step answers one request of
    one program, or evicts a cached file. *)
Inductive pstep {A} : World * list (prog A) → World * list (prog A) → Prop :=
| ps_answer w w' ps i {X} (q : req X) k x :
    ps !! i = Some (Do q k) → answers w q x w' → pstep (w, ps) (w', <[i := k x]> ps)
| ps_evict w ps h : pstep (w, ps) (w <| files := delete h (files w) |>, ps).

(** One program runs to its end. *)
Lemma run_prog_steps {A} (p : prog A) w ps i :
  ps !! i = Some p → rtc pstep (w, ps) ((run_prog p w).2, <[i := Ret (run_prog p w).1]> ps).
Proof.
  revert w ps. induction p as [a|X q k IH]; intros w ps Hi; cbn.
  - by rewrite list_insert_id.
  - destruct (serve w q) as [x w'] eqn:E. pose proof (serve_answers w q) as Ha. rewrite E in Ha.
    eapply rtc_l; [by eapply ps_answer|]. cbn.
    assert (Hx : <[i := k x]> ps !! i = Some (k x)).
    { apply list_lookup_insert_eq. by eapply lookup_lt_Some. }
    pose proof (IH x w' _ Hx) as H. by rewrite list_insert_insert_eq in H.
Qed.

(** Programs one after the other. *)
Fixpoint run_seq {A} (ps : list (prog A)) (w : World) : list A * World :=
  match ps with
  | [] => ([], w)
  | p :: ps' =>
      let '(a, w') := run_prog p w in
      let '(l, w'') := run_seq ps' w' in (a :: l, w'')
  end.

Lemma run_seq_steps {A} (before ps : list (prog A)) w :
  rtc pstep (w, before ++ ps) ((run_seq ps w).2, before ++ (Ret <$> (run_seq ps w).1)).
Proof.
  revert before w. induction ps as [|p ps IH]; intros before w; [done|]. cbn [run_seq].
  destruct (run_prog p w) as [a w'] eqn:E. destruct (run_seq ps w') as [l w''] eqn:E'. cbn.
  etrans; [apply (run_prog_steps p _ _ (length before)), list_lookup_middle; done|].
  rewrite E, insert_app_r_alt, Nat.sub_diag by lia. cbn.
  specialize (IH (before ++ [Ret a]) w'). rewrite E', <- !app_assoc in IH. exact IH.
Qed.

(** A schedule: the programs named answer their next request without fault. *)
Definition step_at {A} (s : World * list (prog A)) (i : nat) : World * list (prog A) :=
  match s.2 !! i with
  | Some (Do q k) => let '(x, w') := serve s.1 q in (w', <[i := k x]> s.2)
  | _ => s
  end.

Definition schedule {A} (l : list nat) (s : World * list (prog A)) : World * list (prog A) :=
  fold_left step_at l s.

Lemma schedule_steps {A} l (s : World * list (prog A)) : rtc pstep s (schedule l s).
Proof.
  revert s. induction l as [|i l IH]; intros [w ps]; [done|]. cbn [schedule fold_left].
  etrans; [|apply IH]. unfold step_at. cbn.
  destruct (ps !! i) as [[a|X q k]|] eqn:Hi; [done| |done].
  pose proof (serve_answers w q) as Ha. destruct (serve w q) as [x w'].
  apply rtc_once. by eapply ps_answer.
Qed.

(** Any result, when only the effects matter. *)
Definition forget {A} (p : prog A) : prog unit := _ ← p; Ret tt.

(** ** What a program may rely on *)

(** Facts that stay true as long as nothing deletes an object or a sidecar. *)
Inductive fact : Type :=
| Stored (k : string)
| Marked (h : ChunkHash).

Definition holds (w : World) (f : fact) : Prop :=
  match f with
  | Stored k => is_Some (objects w !! k)
  | Marked h => h ∈ marks w
  end.

(** The facts an answer adds. *)
Definition learn {X} (q : req X) : X → list fact → list fact :=
  match q in req Y return Y → list fact → list fact with
  | BlobGet k => fun r D => match r with Ok _ => Stored k :: D | Err _ => D end
  | BlobPut k _ => fun r D => match r with Ok _ => Stored k :: D | Err _ => D end
  | BlobExists k => fun r D => match r with Ok true => Stored k :: D | _ => D end
  | MarkWrite h => fun r D => match r with Ok _ => Marked h :: D | Err _ => D end
  | MarkExists h => fun r D => if r : bool then Marked h :: D else D
  | _ => fun _ D => D
  end.

(** No request but a deletion takes a fact away, and what it teaches is true. *)
Definition deletes {X} (q : req X) : bool :=
  match q with BlobDelete _ | MarkRemove _ => true | _ => false end.

Lemma answers_facts {X} w (q : req X) x w' :
  answers w q x w' → deletes q = false →
  (∀ f, holds w f → holds w' f) ∧ ∀ D, Forall (holds w) D → Forall (holds w') (learn q x D).
Proof.
  intros Ha Hq. assert (Hmono : ∀ f, holds w f → holds w' f).
  { intros [k|h]; destruct Ha; try done; cbn; intros H; try set_solver.
    all: by apply lookup_insert_is_Some'; right. }
  split; [done|]. intros D HD.
  assert (HD' : Forall (holds w') D) by (eapply Forall_impl; eauto).
  destruct Ha; cbn; try done; try case_match; try done; constructor; try done; cbn.
  all: try match goal with E : bool_decide _ = true |- _ => by apply bool_decide_eq_true_1 in E end.
  all: rewrite ?lookup_insert_eq; try by eexists.
  set_solver.
Qed.

Section logic.
Context (rely : ∀ X, req X → X → Prop) (guar : ∀ X, list fact → req X → Prop).

(** Program [p], knowing the facts [D], only makes requests within [guar] and
    ends with a result and facts that satisfy [Φ]. *)
Fixpoint wp {A} (D : list fact) (p : prog A) (Φ : A → list fact → Prop) : Prop :=
  match p with
  | Ret a => Φ a D
  | Do q k => guar _ D q ∧ ∀ x, rely _ q x → wp (learn q x D) (k x) Φ
  end.

Lemma rg_mono {A} D (p : prog A) (Φ Ψ : A → list fact → Prop) :
  wp D p Φ → (∀ a D', Φ a D' → Ψ a D') → wp D p Ψ.
Proof.
  revert D. induction p as [a|X q k IH]; intros D; cbn; [auto|].
  intros [Hg Hk] HΦ. split; [done|]. intros x Hx. by eapply IH; [apply Hk|].
Qed.

Lemma rg_bind {A B} D (p : prog A) (f : A → prog B) Φ :
  wp D p (fun a D' => wp D' (f a) Φ) → wp D (p ≫= f) Φ.
Proof.
  revert D. induction p as [a|X q k IH]; intros D; [done|].
  cbn. intros [Hg Hk]. split; [done|]. intros x Hx. apply IH, Hk, Hx.
Qed.

Lemma rg_ask {X} D (q : req X) Φ :
  guar _ D q → (∀ x, rely _ q x → Φ x (learn q x D)) → wp D (ask q) Φ.
Proof. by split. Qed.

Lemma rg_try {A B} D (p : async A) (f : A → async B) Φ :
  wp D p (fun r D' => match r with Ok a => wp D' (f a) Φ | Err e => Φ (Err e) D' end) →
  wp D (try_ p f) Φ.
Proof.
  intros H. apply rg_bind. eapply rg_mono; [exact H|]. by intros [a|e] D'.
Qed.

Lemma wp_blob {A} D (q : req (result A BlobError.t)) (Φ : result A ChunkStoreError.t → list fact → Prop) :
  guar _ D q →
  (∀ a, rely _ q (Ok a) → Φ (Ok a) (learn q (Ok a) D)) →
  (∀ e, Φ (Err (ChunkStoreError.Blob e)) (learn q (Err e) D)) →
  wp D (blob q) Φ.
Proof. intros Hg Ha He. split; [done|]. intros [a|e] Hx; cbn; auto. Qed.

Lemma wp_file {A} D (q : req (result A unit)) (Φ : result A ChunkStoreError.t → list fact → Prop) :
  guar _ D q →
  (∀ a, rely _ q (Ok a) → Φ (Ok a) (learn q (Ok a) D)) →
  Φ (Err ChunkStoreError.Cache) (learn q (Err tt) D) →
  wp D (file q) Φ.
Proof. intros Hg Ha He. split; [done|]. intros [a|[]] Hx; cbn; auto. Qed.

(** *** Soundness under interleaving *)

Context (I : World → Prop).
Hypothesis Hanswer : ∀ X w D (q : req X) x w',
  I w → Forall (holds w) D → guar _ D q → answers w q x w' →
  rely _ q x ∧ I w' ∧ deletes q = false.
Hypothesis Hevict : ∀ w h, I w → I (w <| files := delete h (files w) |>).

(** Every thread of a pool has its own postcondition. *)
Definition pool_ok {A} (Φs : list (A → list fact → Prop)) (w : World) (ps : list (prog A)) : Prop :=
  I w ∧ Forall2 (fun Φ p => ∃ D, Forall (holds w) D ∧ wp D p Φ) Φs ps.

Lemma pstep_ok {A} (Φs : list (A → list fact → Prop)) s s' :
  pstep s s' → pool_ok Φs s.1 s.2 → pool_ok Φs s'.1 s'.2.
Proof.
  intros [w w' ps i X q k x Hi Ha|w ps h] [HI Hps]; cbn in *.
  - destruct (Forall2_lookup_r _ _ _ _ _ Hps Hi) as (Φ&HΦ&D&HD&Hg&Hk).
    destruct (Hanswer _ _ _ _ _ _ HI HD Hg Ha) as (Hr&HI'&Hdel).
    destruct (answers_facts _ _ _ _ Ha Hdel) as [Hmono Hl].
    split; [done|]. rewrite <- (list_insert_id Φs i Φ HΦ). apply Forall2_insert.
    + eapply Forall2_impl; [exact Hps|]. intros Φ' p' (D'&HD'&?). exists D'. split; [|done].
      by eapply Forall_impl.
    + exists (learn q x D). split; [by apply Hl|]. by apply Hk.
  - split; [by apply Hevict|]. eapply Forall2_impl; [exact Hps|]. intros Φ p (D&HD&?).
    exists D. split; [|done]. eapply Forall_impl; [exact HD|]. by intros [].
Qed.

Lemma pool_sound {A} (Φs : list (A → list fact → Prop)) s s' :
  rtc pstep s s' → pool_ok Φs s.1 s.2 → pool_ok Φs s'.1 s'.2.
Proof. induction 1; eauto using pstep_ok. Qed.

End logic.
