(* ===== verification/ChunkStore.v ===== *)
(** * The chunk store

    [engram-chunk-store/src/resolver.rs], [store.rs] and the cache operations
    of [cache.rs] they call: content-addressed chunks behind tiered resolvers
    and a local cache, and write-once versioned manifests.  SHA-256 and the
    JSON codec are parameters.

    The upload budget only delays uploads and the metrics only count, so
    neither appears.  A cache fill is the code of the request that leads its
    single flight; the followers get a copy of its result. *)

From S2P Require Import Prelude Text Manifest World.

(** ** Resolvers *)

(** The trait [ChunkResolver]. *)
Record ChunkResolver := MkResolver {
  fetch_chunk : ChunkHash → async bytes;
  resolver_chunk_exists : ChunkHash → async bool;
}.

Section store.
Context (sha256 : bytes → bytes).

Definition mismatch {A} (h actual : ChunkHash) : async A :=
  fail (ChunkStoreError.HashMismatch (ChunkHash.to_hex h) (ChunkHash.to_hex actual)).

(** [BlobStorageResolver]. *)
Definition BlobStorageResolver : ChunkResolver := MkResolver
  (fun h =>
     let! b := blob (BlobGet (ChunkHash.storage_key h)) in
     if bool_decide (sha256 b = h) then okay b else mismatch h (sha256 b))
  (fun h => blob (BlobExists (ChunkHash.storage_key h))).

(** [TieredChunkResolver::fill_cache]; [write_back] says whether a target is
    configured, which is the object store the other tiers read. *)
Definition fill_cache (write_back : bool) (h : ChunkHash) (b : bytes) : prog unit :=
  if negb write_back then Ret tt
  else
    r ← ask (BlobExists (ChunkHash.storage_key h));
    match r with
    | Ok true | Err _ => Ret tt
    | Ok false => _ ← ask (BlobPut (ChunkHash.storage_key h) b); Ret tt
    end.

(** The loop over the tiers; [idx] counts from the cache tier. *)
Fixpoint fetch_tiers (write_back : bool) (h : ChunkHash) (tiers : list ChunkResolver) (idx : nat)
    (last_err : option ChunkStoreError.t) : async bytes :=
  match tiers with
  | [] => fail (default (ChunkStoreError.Origin "TieredChunkResolver: all tiers missed for {}")
                  last_err)
  | tier :: tiers' =>
      r ← fetch_chunk tier h;
      match r with
      | Ok b =>
          _ ← (if bool_decide (0 < idx)%nat then fill_cache write_back h b else Ret tt);
          okay b
      | Err e => fetch_tiers write_back h tiers' (S idx) (Some e)
      end
  end.

Fixpoint exists_tiers (h : ChunkHash) (tiers : list ChunkResolver) : async bool :=
  match tiers with
  | [] => okay false
  | tier :: tiers' =>
      let! e := resolver_chunk_exists tier h in
      if (e : bool) then okay true else exists_tiers h tiers'
  end.

Definition TieredChunkResolver (tiers : list ChunkResolver) (write_back : bool) : ChunkResolver :=
  MkResolver
    (fun h => match tiers with
              | [] => fail (ChunkStoreError.Origin "TieredChunkResolver: no tiers configured")
              | _ => fetch_tiers write_back h tiers 0 None
              end)
    (fun h => exists_tiers h tiers).

(** ** The local cache *)

Definition read_resident (h : ChunkHash) : async (option bytes) := file (FileRead h).

(** [write_local]; the budget sweep it may run is an eviction of other files. *)
Definition write_local (h : ChunkHash) (b : bytes) : async unit := file (FileWrite h b).

(** [ChunkCache::get], the leader's path: a hit, a second look, then fetch,
    verify, persist. *)
Definition cache_get (h : ChunkHash) (fetch : async bytes) : async bytes :=
  let! hit := read_resident h in
  match hit with
  | Some b => okay b
  | None =>
      let! again := file (FileRead h) in
      match again with
      | Some b => okay b
      | None =>
          let! b := fetch in
          if bool_decide (sha256 b = h)
          then _ ← write_local h b; okay b
          else mismatch h (sha256 b)
      end
  end.

Definition cache_prefetch (h : ChunkHash) (fetch : async bytes) : async unit :=
  e ← ask (FileExists h);
  if (e : bool) then okay tt else let! _ := cache_get h fetch in okay tt.

(** [ChunkCache::put] and [put_no_evict]. *)
Definition cache_put (h : ChunkHash) (b : bytes) : async unit :=
  if bool_decide (sha256 b = h) then write_local h b else mismatch h (sha256 b).

(** [put_unverified_no_evict]: the landing of peer-pulled bytes, the sidecar
    first. *)
Definition put_unverified_no_evict (h : ChunkHash) (b : bytes) : async unit :=
  let! _ := file (MarkWrite h) in
  let! _ := file (FileWrite h b) in
  okay tt.

Definition read_verified_for_serve (h : ChunkHash) : async (option bytes) :=
  m ← ask (MarkExists h);
  if (m : bool) then okay None else file (FileRead h).

(** [scrub_one] returns the number of bytes it hashed. *)
Definition scrub_one (h : ChunkHash) : prog N :=
  m ← ask (MarkExists h);
  if negb m then Ret 0%N
  else
    r ← ask (FileRead h);
    match r with
    | Ok (Some b) =>
        if bool_decide (sha256 b = h)
        then _ ← ask (MarkRemove h); Ret (N.of_nat (length b))
        else _ ← ask (FileRemove h); _ ← ask (MarkRemove h); Ret (N.of_nat (length b))
    | _ => _ ← ask (MarkRemove h); Ret 0%N
    end.

(** ** The store *)

(** The fields of [ChunkStore] that decide what it does. *)
Record ChunkStore := MkStore { resolver : ChunkResolver; cache : bool }.

Definition warm_local (s : ChunkStore) (h : ChunkHash) (body : bytes) : prog unit :=
  if cache s then _ ← write_local h body; Ret tt else Ret tt.

Definition resolve_failed_put (key : string) (err : BlobError.t) : async unit :=
  r ← ask (BlobExists key);
  match r with
  | Ok true => okay tt
  | _ => fail (ChunkStoreError.Blob err)
  end.

Definition put_chunk_unchecked_prehashed (s : ChunkStore) (h : ChunkHash) (body : bytes) : async unit :=
  let key := ChunkHash.storage_key h in
  r ← ask (BlobPut key body);
  let! _ := (match r with Ok _ => okay tt | Err e => resolve_failed_put key e end) in
  _ ← warm_local s h body;
  okay tt.

Definition put_chunk_unchecked (s : ChunkStore) (body : bytes) : async ChunkHash :=
  let h := sha256 body in
  let! _ := put_chunk_unchecked_prehashed s h body in okay h.

Definition put_chunk (s : ChunkStore) (body : bytes) : async ChunkHash :=
  let h := sha256 body in
  let key := ChunkHash.storage_key h in
  let! present := blob (BlobExists key) in
  if (present : bool) then _ ← warm_local s h body; okay h
  else
    r ← ask (BlobPut key body);
    let! _ := (match r with Ok _ => okay tt | Err e => resolve_failed_put key e end) in
    _ ← warm_local s h body;
    okay h.

Definition get_chunk (s : ChunkStore) (h : ChunkHash) : async bytes :=
  if cache s then cache_get h (fetch_chunk (resolver s) h) else fetch_chunk (resolver s) h.

Definition read_chunk (s : ChunkStore) (h : ChunkHash) : async bytes :=
  let! hit := (if cache s then read_resident h else okay None) in
  match hit with
  | Some b => okay b
  | None => fetch_chunk (resolver s) h
  end.

Definition prefetch_chunk (s : ChunkStore) (h : ChunkHash) : async unit :=
  if cache s then cache_prefetch h (fetch_chunk (resolver s) h) else okay tt.

Definition chunk_exists (s : ChunkStore) (h : ChunkHash) : async bool :=
  resolver_chunk_exists (resolver s) h.

(** *** Manifests and traces *)

(** [serde_json::to_vec] and [serde_json::from_slice]. *)
Context (to_vec : Manifest.t → option bytes) (from_slice : bytes → option Manifest.t).
Context (trace_to_vec : WorkingSetTrace → option bytes)
        (trace_from_slice : bytes → option WorkingSetTrace).

Definition serde {A} (o : option A) : async A :=
  match o with Some a => okay a | None => fail ChunkStoreError.Serialize end.

Definition pure {A} (r : result A ChunkStoreError.t) : async A := Ret r.

(** The version a key under the prefix names. *)
Definition key_version (prefix key : string) : option N :=
  rest ← strip_prefix prefix key;
  num ← strip_prefix "v" rest ≫= strip_suffix ".json";
  parse_u64 num.

Definition max_version (prefix : string) (keys : list string) : option N :=
  fold_left (fun acc k => match key_version prefix k with
                          | Some v => Some (match acc with Some cur => N.max cur v | None => v end)
                          | None => acc end) keys None.

Definition latest_manifest_version (i : Uuid) : async (option N) :=
  let prefix := ManifestRef.id_prefix i in
  let! keys := blob (BlobList prefix) in
  okay (max_version prefix keys).

Definition put_manifest (r : ManifestRef) (m : Manifest.t) : async unit :=
  let! _ := pure (Manifest.validate m) in
  let key := ManifestRef.storage_key r in
  let! present := blob (BlobExists key) in
  if (present : bool) then
    let! latest := latest_manifest_version (manifest_id r) in
    fail (ChunkStoreError.VersionConflict (manifest_id r) (version r) (default 0%N latest))
  else
    let! b := serde (to_vec m) in
    let! _ := blob (BlobPut key b) in
    okay tt.

Definition get_manifest (r : ManifestRef) : async Manifest.t :=
  let! b := blob (BlobGet (ManifestRef.storage_key r)) in
  let! m := serde (from_slice b) in
  let! _ := pure (Manifest.validate m) in
  okay m.

Definition get_latest_manifest (i : Uuid) : async (option (ManifestRef * Manifest.t)) :=
  let! latest := latest_manifest_version i in
  match latest with
  | None => okay None
  | Some v => let r := MkRef i v in let! m := get_manifest r in okay (Some (r, m))
  end.

(** [ManifestRef::new] draws the fresh id, an argument here. *)
Definition fork_manifest (src : ManifestRef) (fresh : Uuid) : async ManifestRef :=
  let! m := get_manifest src in
  let m := m <| Manifest.parent := Some src |> <| Manifest.working_set_trace := None |> in
  let r := MkRef fresh 1 in
  let! _ := put_manifest r m in
  okay r.

Definition put_trace (r : TraceRef) (t : WorkingSetTrace) : async unit :=
  let! b := serde (trace_to_vec t) in
  let! _ := blob (BlobPut (TraceRef.storage_key r) b) in
  okay tt.

Definition get_trace (r : TraceRef) : async (option WorkingSetTrace) :=
  x ← ask (BlobGet (TraceRef.storage_key r));
  match x with
  | Ok b => let! t := serde (trace_from_slice b) in okay (Some t)
  | Err BlobError.NotFound => okay None
  | Err e => fail (ChunkStoreError.Blob e)
  end.

(** *** The operations as one type of calls *)

Inductive Call : Type :=
| CPut (body : bytes)
| CPutUnchecked (body : bytes)
| CPutPrehashed (h : ChunkHash) (body : bytes)
| CGet (h : ChunkHash)
| CRead (h : ChunkHash)
| CPrefetch (h : ChunkHash)
| CExists (h : ChunkHash)
| CPutManifest (r : ManifestRef) (m : Manifest.t)
| CGetManifest (r : ManifestRef)
| CGetLatest (i : Uuid)
| CFork (src : ManifestRef) (fresh : Uuid)
| CPutTrace (r : TraceRef) (t : WorkingSetTrace)
| CGetTrace (r : TraceRef).

Inductive Value : Type :=
| VUnit
| VHash (h : ChunkHash)
| VBytes (b : bytes)
| VBool (b : bool)
| VManifest (m : Manifest.t)
| VLatest (o : option (ManifestRef * Manifest.t))
| VRef (r : ManifestRef)
| VTrace (o : option WorkingSetTrace).

Definition returns {A} (f : A → Value) (p : async A) : async Value := let! a := p in okay (f a).

Definition call_prog (s : ChunkStore) (c : Call) : async Value :=
  match c with
  | CPut b => returns VHash (put_chunk s b)
  | CPutUnchecked b => returns VHash (put_chunk_unchecked s b)
  | CPutPrehashed h b => returns (fun _ => VUnit) (put_chunk_unchecked_prehashed s h b)
  | CGet h => returns VBytes (get_chunk s h)
  | CRead h => returns VBytes (read_chunk s h)
  | CPrefetch h => returns (fun _ => VUnit) (prefetch_chunk s h)
  | CExists h => returns VBool (chunk_exists s h)
  | CPutManifest r m => returns (fun _ => VUnit) (put_manifest r m)
  | CGetManifest r => returns VManifest (get_manifest r)
  | CGetLatest i => returns VLatest (get_latest_manifest i)
  | CFork src i => returns VRef (fork_manifest src i)
  | CPutTrace r t => returns (fun _ => VUnit) (put_trace r t)
  | CGetTrace r => returns VTrace (get_trace r)
  end.

End store.
