(* ===== verification/StoreProps.v ===== *)
(** * The chunk store under concurrency, faults and evictions

    The operations of [ChunkStore] never let bytes under a hash that is not
    theirs out, into the object store or into the cache, whatever runs beside
    them and whatever fails. *)

From S2P Require Import Prelude Text Manifest World ChunkStore.
From Stdlib Require Import Ascii.

Section content.
Context (sha256 : bytes → bytes).
Hypothesis sha256_wf : ∀ b, wf_hash (sha256 b).

(** Every cached file has the content its name says. *)
Definition cache_clean (w : World) : Prop := ∀ h b, files w !! h = Some b → sha256 b = h.

(** Every object under a chunk key has the content the key says. *)
Definition objects_clean (w : World) : Prop :=
  ∀ h b, wf_hash h → objects w !! ChunkHash.storage_key h = Some b → sha256 b = h.

(** The writes the operations make, and the one read they take on trust. *)
Definition content_guar X (_ : list fact) (q : req X) : Prop :=
  match q with
  | BlobPut k v => ∀ h, wf_hash h → k = ChunkHash.storage_key h → sha256 v = h
  | FileWrite h v => sha256 v = h
  | BlobDelete _ | MarkRemove _ => False
  | _ => True
  end.

Definition content_rely X (q : req X) : X → Prop :=
  match q in req Y return Y → Prop with
  | FileRead h => fun r => match r with Ok (Some b) => sha256 b = h | _ => True end
  | _ => fun _ => True
  end.

(** The invariant from an initial world [w0]. *)
Definition content_inv (w0 w : World) : Prop :=
  cache_clean w ∧ (objects_clean w0 → objects_clean w) ∧
  ∀ k, is_Some (objects w0 !! k) → is_Some (objects w !! k).

Lemma cache_clean_write w h b :
  cache_clean w → sha256 b = h → cache_clean (w <| files := <[h := b]> (files w) |>).
Proof. intros Hc Hb h' b'. cbn. intros [[<- <-]|[_ ?]]%lookup_insert_Some; eauto. Qed.

Lemma cache_clean_delete w h : cache_clean w → cache_clean (w <| files := delete h (files w) |>).
Proof. intros Hc h' b'. cbn. intros [_ ?]%lookup_delete_Some; eauto. Qed.

Lemma objects_clean_put w k v :
  objects_clean w → content_guar _ [] (BlobPut k v) →
  objects_clean (w <| objects := <[k := v]> (objects w) |>).
Proof.
  intros Hc Hg h' b' Hh. cbn. intros [[? <-]|[_ ?]]%lookup_insert_Some; eauto.
Qed.

Lemma content_answer w0 X w D (q : req X) x w' :
  content_inv w0 w → Forall (holds w) D → content_guar _ D q → answers w q x w' →
  content_rely _ q x ∧ content_inv w0 w' ∧ deletes q = false.
Proof.
  intros (Hc&Ho&Hk) _ Hg Ha. unfold content_inv.
  destruct Ha; cbn in *; try done;
    (split; [try case_match; eauto|split; [|done]]);
    (split; [eauto using cache_clean_write, cache_clean_delete|]);
    (split; [eauto using objects_clean_put|]);
    intros k' Hk'; auto; apply lookup_insert_is_Some'; auto.
Qed.

Lemma content_evict w0 w h :
  content_inv w0 w → content_inv w0 (w <| files := delete h (files w) |>).
Proof. intros (Hc&Ho&Hk). split; [by apply cache_clean_delete|done]. Qed.

Notation wp := (wp content_rely content_guar).

(** ** Resolvers *)

(** A result whose success satisfies [P]; the facts are ignored. *)
Definition ok_with {A} (P : A → Prop) (r : result A ChunkStoreError.t) (_ : list fact) : Prop :=
  match r with Ok a => P a | Err _ => True end.

(** What a resolver promises its store: bytes that have the hash asked for. *)
Class ByteCorrect (r : ChunkResolver) : Prop := {
  fetch_correct D h : wf_hash h → wp D (fetch_chunk r h) (ok_with (fun b => sha256 b = h));
  exists_correct D h : wp D (resolver_chunk_exists r h) (ok_with (fun _ => True));
}.

Lemma wp_ok_bind {A B} D (p : async A) (f : A → async B) (P : A → Prop) Φ :
  wp D p (ok_with P) → (∀ a D', P a → wp D' (f a) Φ) → (∀ e D', Φ (Err e) D') →
  wp D (try_ p f) Φ.
Proof.
  intros Hp Hf He. apply rg_try. eapply rg_mono; [exact Hp|]. intros [a|e] D'; cbn; auto.
Qed.

#[export] Instance BlobStorageResolver_correct : ByteCorrect (BlobStorageResolver sha256).
Proof.
  split; intros D h; cbn [fetch_chunk resolver_chunk_exists BlobStorageResolver].
  - intros _. apply rg_try, wp_blob; [done|intros b _|by cbn].
    case_bool_decide; cbn; done.
  - apply wp_blob; by cbn.
Qed.

Lemma storage_key_guar D h b :
  wf_hash h → sha256 b = h → content_guar _ D (BlobPut (ChunkHash.storage_key h) b).
Proof. intros Hh Hb h' Hh' Hk. rewrite Hb. by apply ChunkHash.storage_key_inj. Qed.

Lemma fill_cache_correct D write_back h b (Φ : unit → list fact → Prop) :
  wf_hash h → sha256 b = h → (∀ D', Φ tt D') → wp D (fill_cache write_back h b) Φ.
Proof.
  intros Hh Hb HΦ. unfold fill_cache. destruct write_back; cbn; [|auto].
  split; [done|]. intros [[]|e] _; cbn; auto. split; [|auto]. by apply (storage_key_guar []).
Qed.

Lemma fetch_tiers_correct tiers D write_back h idx last :
  wf_hash h → Forall ByteCorrect tiers →
  wp D (fetch_tiers write_back h tiers idx last) (ok_with (fun b => sha256 b = h)).
Proof.
  intros Hh Ht. revert D idx last. induction Ht as [|t ts Hc _ IH]; intros D idx last; [done|].
  cbn [fetch_tiers]. apply rg_bind. eapply rg_mono; [by apply fetch_correct|].
  intros [b|e] D' Hb; [|apply IH]. cbn in Hb. apply rg_bind. case_bool_decide; [|done].
  by apply fill_cache_correct.
Qed.

Lemma TieredChunkResolver_correct tiers write_back :
  Forall ByteCorrect tiers → ByteCorrect (TieredChunkResolver tiers write_back).
Proof.
  intros Ht. split; cbn [fetch_chunk resolver_chunk_exists TieredChunkResolver].
  - intros D h Hh. destruct tiers; [done|]. by apply fetch_tiers_correct.
  - intros D h. revert D. induction Ht as [|t ts Hc _ IH]; intros D; [done|].
    cbn [exists_tiers]. eapply wp_ok_bind; [by apply exists_correct| |done].
    intros [] D' _; [done|apply IH].
Qed.

(** ** The operations *)

Lemma write_local_correct D h b (Φ : _ → list fact → Prop) :
  sha256 b = h → (∀ r, Φ r D) → wp D (write_local h b) Φ.
Proof. intros Hb HΦ. by apply wp_file; [done|intros|]. Qed.

Lemma read_resident_correct D h (Φ : _ → list fact → Prop) :
  (∀ b, sha256 b = h → Φ (Ok (Some b)) D) → Φ (Ok None) D → (∀ e, Φ (Err e) D) →
  wp D (read_resident h) Φ.
Proof. intros. apply wp_file; [done| |done]. intros [b|]; cbn; auto. Qed.

Lemma cache_get_correct D h (fetch : async bytes) :
  (∀ D', wp D' fetch (ok_with (fun b => sha256 b = h))) →
  wp D (cache_get sha256 h fetch) (ok_with (fun b => sha256 b = h)).
Proof.
  intros Hf. unfold cache_get. apply rg_try, read_resident_correct; [done| |done].
  apply rg_try, read_resident_correct; [done| |done].
  eapply wp_ok_bind; [apply Hf| |done]. intros b D' Hb. rewrite bool_decide_eq_true_2 by done.
  apply rg_bind, write_local_correct; done.
Qed.

Lemma warm_local_correct D s h b (Φ : unit → list fact → Prop) :
  sha256 b = h → Φ tt D → wp D (warm_local s h b) Φ.
Proof.
  intros Hb HΦ. unfold warm_local. destruct (cache s); [|done].
  apply rg_bind, write_local_correct; done.
Qed.

(** A successful upload is there. *)
Lemma upload_correct {A} D h b (k : unit → async A) (Φ : _ → list fact → Prop) :
  wf_hash h → sha256 b = h →
  (∀ D', Stored (ChunkHash.storage_key h) ∈ D' → wp D' (k tt) Φ) → (∀ e D', Φ (Err e) D') →
  wp D (r ← ask (BlobPut (ChunkHash.storage_key h) b);
        try_ (match r with
              | Ok _ => okay tt
              | Err e => resolve_failed_put (ChunkHash.storage_key h) e
              end) k) Φ.
Proof.
  intros Hh Hb Hk He. apply rg_bind, rg_ask; [by apply storage_key_guar|].
  intros [n|e] _; cbn [learn].
  - apply rg_try. cbn. apply Hk. set_solver.
  - apply rg_try, rg_bind, rg_ask; [done|]. intros [[]|e'] _; cbn; auto.
    apply Hk. set_solver.
Qed.

Lemma put_prehashed_correct D s h b (Φ : _ → list fact → Prop) :
  sha256 b = h →
  (∀ D', Stored (ChunkHash.storage_key h) ∈ D' → Φ (Ok tt) D') → (∀ e D', Φ (Err e) D') →
  wp D (put_chunk_unchecked_prehashed s h b) Φ.
Proof.
  intros Hb Hok He. unfold put_chunk_unchecked_prehashed. apply upload_correct; try done.
  { rewrite <- Hb. apply sha256_wf. }
  intros D' HD'. apply rg_bind, warm_local_correct; [done|]. by apply Hok.
Qed.

Lemma put_chunk_correct D s b (Φ : _ → list fact → Prop) :
  (∀ D', Stored (ChunkHash.storage_key (sha256 b)) ∈ D' → Φ (Ok (sha256 b)) D') →
  (∀ e D', Φ (Err e) D') → wp D (put_chunk sha256 s b) Φ.
Proof.
  intros Hok He. unfold put_chunk. apply rg_try, wp_blob; [done| |auto]. intros [] _.
  - apply rg_bind, warm_local_correct; [done|]. apply Hok. set_solver.
  - apply upload_correct; [done|done| |done].
    intros D' HD'. apply rg_bind, warm_local_correct; [done|]. by apply Hok.
Qed.

Lemma get_chunk_correct D s h :
  ByteCorrect (resolver s) → wf_hash h →
  wp D (get_chunk sha256 s h) (ok_with (fun b => sha256 b = h)).
Proof.
  intros Hr Hh. unfold get_chunk. destruct (cache s); [|by apply fetch_correct].
  apply cache_get_correct. intros. by apply fetch_correct.
Qed.

Lemma read_chunk_correct D s h :
  ByteCorrect (resolver s) → wf_hash h →
  wp D (read_chunk s h) (ok_with (fun b => sha256 b = h)).
Proof.
  intros Hr Hh. unfold read_chunk. apply rg_try. destruct (cache s); [|by apply fetch_correct].
  apply read_resident_correct; [done|by apply fetch_correct|done].
Qed.

Lemma prefetch_chunk_correct D s h :
  ByteCorrect (resolver s) → wf_hash h →
  wp D (prefetch_chunk sha256 s h) (ok_with (fun _ => True)).
Proof.
  intros Hr Hh. unfold prefetch_chunk. destruct (cache s); [|done].
  apply rg_bind, rg_ask; [done|]. intros [] _; [done|].
  eapply wp_ok_bind; [|done|done]. apply cache_get_correct. intros. by apply fetch_correct.
Qed.

(** *** Manifests and traces *)

Context (to_vec : Manifest.t → option bytes) (from_slice : bytes → option Manifest.t).
Context (trace_to_vec : WorkingSetTrace → option bytes)
        (trace_from_slice : bytes → option WorkingSetTrace).

(** Nothing but a chunk lives under a chunk key. *)
Lemma other_key_guar D c k v :
  c ≠ "c"%char → content_guar _ D (BlobPut (String c k) v).
Proof. intros Hc h _ [= ? _]. done. Qed.

Lemma wp_serde {A B} D (o : option A) (f : A → async B) Φ :
  (∀ a, o = Some a → wp D (f a) Φ) → (∀ e, Φ (Err e) D) → wp D (try_ (serde o) f) Φ.
Proof. intros Hf He. apply rg_try. destruct o; cbn; auto. Qed.

Lemma wp_pure {A B} D (r : result A ChunkStoreError.t) (f : A → async B) Φ :
  (∀ a, r = Ok a → wp D (f a) Φ) → (∀ e, Φ (Err e) D) → wp D (try_ (pure r) f) Φ.
Proof. intros Hf He. apply rg_try. destruct r; cbn; auto. Qed.

Lemma latest_manifest_version_correct D i (Φ : _ → list fact → Prop) :
  (∀ r, Φ r D) → wp D (latest_manifest_version i) Φ.
Proof. intros HΦ. apply rg_try, wp_blob; [done|intros; apply HΦ|auto]. Qed.

Lemma put_manifest_correct D r m (Φ : _ → list fact → Prop) :
  (∀ D', Manifest.validate m = Ok tt → Stored (ManifestRef.storage_key r) ∈ D' → Φ (Ok tt) D') →
  (∀ e D', Φ (Err e) D') → wp D (put_manifest to_vec r m) Φ.
Proof.
  intros Hok He. unfold put_manifest. apply wp_pure; [|auto]. intros [] Hv.
  apply rg_try, wp_blob; [done| |auto]. intros [] _.
  - apply rg_try, latest_manifest_version_correct. intros [o|e]; apply He.
  - apply wp_serde; [|auto]. intros v _. apply rg_try, wp_blob; [|intros n _|auto].
    + by apply other_key_guar.
    + apply Hok; [done|]. set_solver.
Qed.

Lemma get_manifest_correct D r (Φ : _ → list fact → Prop) :
  (∀ m D', Manifest.validate m = Ok tt → Stored (ManifestRef.storage_key r) ∈ D' → Φ (Ok m) D') →
  (∀ e D', Φ (Err e) D') → wp D (get_manifest from_slice r) Φ.
Proof.
  intros Hok He. unfold get_manifest. apply rg_try, wp_blob; [done| |auto]. intros v _.
  apply wp_serde; [|auto]. intros m _. apply wp_pure; [|auto]. intros [] Hv.
  apply Hok; [done|]. set_solver.
Qed.

(** ** All of them at once *)

(** What the types and the documentation ask of a caller: hashes have 32 bytes,
    and the prehashed upload is given the hash of its body. *)
Definition call_ok (sc : ChunkStore * Call) : Prop :=
  ByteCorrect (resolver sc.1) ∧
  match sc.2 with
  | CPutPrehashed h b => sha256 b = h
  | CGet h | CRead h | CPrefetch h | CExists h => wf_hash h
  | _ => True
  end.

(** What a call's success means, when [has k] says that the object is there. *)
Definition promise (has : string → Prop) (c : Call) (v : Value) : Prop :=
  match c with
  | CPut b | CPutUnchecked b =>
      v = VHash (sha256 b) ∧ has (ChunkHash.storage_key (sha256 b))
  | CPutPrehashed h _ => has (ChunkHash.storage_key h)
  | CGet h | CRead h => ∃ b, v = VBytes b ∧ sha256 b = h
  | CPutManifest r m => Manifest.validate m = Ok tt ∧ has (ManifestRef.storage_key r)
  | CGetManifest r =>
      ∃ m, v = VManifest m ∧ Manifest.validate m = Ok tt ∧ has (ManifestRef.storage_key r)
  | CGetLatest i =>
      v = VLatest None ∨ ∃ r m, v = VLatest (Some (r, m)) ∧ manifest_id r = i ∧
        Manifest.validate m = Ok tt ∧ has (ManifestRef.storage_key r)
  | CFork src i =>
      v = VRef (MkRef i 1) ∧ has (ManifestRef.storage_key src) ∧
      has (ManifestRef.storage_key (MkRef i 1))
  | CPutTrace r _ => has (TraceRef.storage_key r)
  | CPrefetch _ | CExists _ | CGetTrace _ => True
  end.

Definition call_post (c : Call) (r : result Value ChunkStoreError.t) (D : list fact) : Prop :=
  match r with Ok v => promise (fun k => Stored k ∈ D) c v | Err _ => True end.

Lemma promise_mono (P Q : string → Prop) c v : (∀ k, P k → Q k) → promise P c v → promise Q c v.
Proof. intros H. destruct c; cbn; naive_solver. Qed.

Lemma wp_returns {A} D (f : A → Value) (p : async A) (Φ : _ → list fact → Prop) :
  wp D p (fun r D' => match r with Ok a => Φ (Ok (f a)) D' | Err e => Φ (Err e) D' end) →
  wp D (returns f p) Φ.
Proof. intros H. by apply rg_try. Qed.

Lemma wp_facts {A} D (p : prog A) Φ :
  wp D p Φ → wp D p (fun a D' => Φ a D' ∧ ∀ f, f ∈ D → f ∈ D').
Proof.
  revert D. induction p as [a|X q k IH]; intros D; cbn; [done|]. intros [Hg Hk].
  split; [done|]. intros x Hx. eapply rg_mono; [by apply IH, Hk|]. cbn.
  intros a D' [HΦ HD']. split; [done|]. intros f Hf. apply HD'.
  destruct q; cbn; repeat case_match; set_solver.
Qed.

Lemma fork_manifest_correct D src i :
  wp D (fork_manifest to_vec from_slice src i) (fun r D' =>
    match r with
    | Ok r => r = MkRef i 1 ∧ Stored (ManifestRef.storage_key src) ∈ D' ∧
              Stored (ManifestRef.storage_key (MkRef i 1)) ∈ D'
    | Err _ => True
    end).
Proof.
  unfold fork_manifest. apply rg_try, get_manifest_correct; [|done]. intros m D1 _ H1.
  apply rg_try. eapply rg_mono; [eapply wp_facts, (put_manifest_correct _ _ _ (fun r D' =>
    match r with Ok _ => Stored (ManifestRef.storage_key (MkRef i 1)) ∈ D' | Err _ => True end))|].
  - done.
  - done.
  - cbn. intros [[]|e] D'; [|done]. intros [H2 Hsub]. cbn. auto.
Qed.

Lemma call_correct D sc :
  call_ok sc →
  wp D (call_prog sha256 to_vec from_slice trace_to_vec trace_from_slice sc.1 sc.2)
    (call_post sc.2).
Proof.
  destruct sc as [s c]. intros [Hr Hc]. cbn in Hr, Hc |- *.
  destruct c; cbn [call_prog]; apply wp_returns.
  - apply put_chunk_correct; [done|done].
  - unfold put_chunk_unchecked. apply rg_try, put_prehashed_correct; done.
  - apply put_prehashed_correct; done.
  - eapply rg_mono; [by apply get_chunk_correct|]. intros [b|e] D' H; [|done]. by exists b.
  - eapply rg_mono; [by apply read_chunk_correct|]. intros [b|e] D' H; [|done]. by exists b.
  - eapply rg_mono; [by apply prefetch_chunk_correct|]. by intros [].
  - eapply rg_mono; [by apply exists_correct|]. by intros [].
  - apply put_manifest_correct; done.
  - apply get_manifest_correct; [|done]. intros m D' ??. by exists m.
  - unfold get_latest_manifest. apply rg_try, latest_manifest_version_correct.
    intros [[v|]|e]; [|by left|done].
    apply rg_try, get_manifest_correct; [|done]. intros m D' ??. right. by exists (MkRef i v), m.
  - eapply rg_mono; [apply fork_manifest_correct|]. intros [x|e] D'; [|done]. by intros (->&?&?).
  - unfold put_trace. apply wp_serde; [|done]. intros v _.
    apply rg_try, wp_blob; [|intros n _; cbn; set_solver|done].
    unfold TraceRef.storage_key. destruct (trace_host r); by apply other_key_guar.
  - apply rg_bind, rg_ask; [done|]. intros [v|[]] _; cbn; try done.
    apply wp_serde; done.
Qed.

(** C14. The store keeps content addressing under concurrency.  Take any number
    of store operations, on stores with any verifying resolvers and with or
    without the local cache, interleaved in any way at their awaits, with any
    request failing (uploads possibly after landing) and any cached file
    evicted at any time, from a world whose cache is clean.  At every moment
    the cache is clean, chunk objects that were right stay right, and no object
    disappears; and whatever an operation that succeeded promised is true:
    stored chunks and manifests are there, and bytes read have the hash asked
    for, even if the object store serves corrupt ones. *)
Theorem chunk_store_concurrent calls w ps w' :
  Forall call_ok calls → cache_clean w →
  rtc pstep
    (w, (fun sc => call_prog sha256 to_vec from_slice trace_to_vec trace_from_slice sc.1 sc.2)
          <$> calls)
    (w', ps) →
  cache_clean w' ∧ (objects_clean w → objects_clean w') ∧
  (∀ k, is_Some (objects w !! k) → is_Some (objects w' !! k)) ∧
  ∀ i sc v, calls !! i = Some sc → ps !! i = Some (Ret (Ok v)) →
            promise (fun k => is_Some (objects w' !! k)) sc.2 v.
Proof.
  intros Hcalls Hc Hsteps.
  pose proof (pool_sound _ _ (content_inv w) (content_answer w) (content_evict w)
    ((fun sc => call_post sc.2) <$> calls) _ _ Hsteps) as Hok.
  destruct Hok as [(Hc'&Ho&Hk) Hps].
  { split; [by split|]. apply Forall2_fmap_l, Forall2_fmap_r, Forall_Forall2_diag.
    eapply Forall_impl; [exact Hcalls|]. intros sc Hsc. exists []. split; [constructor|].
    by apply call_correct. }
  repeat (split; [done|]). intros i sc v Hi Hp.
  destruct (Forall2_lookup_r _ _ _ _ _ Hps Hp) as (Φ&HΦ&D&HD&Hwp). cbn in Hwp.
  rewrite list_lookup_fmap, Hi in HΦ. injection HΦ as <-. cbn in Hwp.
  eapply promise_mono; [|exact Hwp]. intros k Hk'. cbn in Hk'.
  rewrite Forall_forall in HD. exact (HD _ Hk').
Qed.

End content.

(** A store over the object storage, with the cache. *)
Definition toy_store : ChunkStore := MkStore (BlobStorageResolver Manifest.toy_hash) true.
Definition toy_call (sc : ChunkStore * Call) : async Value :=
  call_prog Manifest.toy_hash Manifest.toy_to_vec Manifest.toy_from_slice
    (fun _ => None) (fun _ => None) sc.1 sc.2.

(** An upload and a read of the same chunk, one after the other. *)
Lemma chunk_store_concurrent_witness :
  let b := [7; 8; 9]%N in
  let h := Manifest.toy_hash b in
  let calls := [(toy_store, CPut b); (toy_store, CGet h)] in
  let '(rs, w) := run_seq (toy_call <$> calls) (MkWorld ∅ ∅ ∅) in
  rs = [Ok (VHash h); Ok (VBytes b)] ∧
  cache_clean Manifest.toy_hash w ∧ is_Some (objects w !! ChunkHash.storage_key h).
Proof.
  intros b h calls. destruct (run_seq _ _) as [rs w] eqn:E.
  assert (Hrs : rs = [Ok (VHash h); Ok (VBytes b)]).
  { change rs with ((rs, w).1). rewrite <- E. vm_compute. reflexivity. }
  pose proof (run_seq_steps [] (toy_call <$> calls) (MkWorld ∅ ∅ ∅)) as Hsteps.
  rewrite E in Hsteps. cbn [fst snd app] in Hsteps.
  destruct (chunk_store_concurrent Manifest.toy_hash Manifest.toy_hash_wf Manifest.toy_to_vec
    Manifest.toy_from_slice (fun _ => None) (fun _ => None) calls (MkWorld ∅ ∅ ∅) (Ret <$> rs) w)
    as (Hc&_&_&Hp).
  - apply Forall_cons. split; [split; [apply BlobStorageResolver_correct|exact I]|].
    apply Forall_cons. split; [split; [apply BlobStorageResolver_correct|]|constructor].
    apply Manifest.toy_hash_wf.
  - intros h' b' Hb'. discriminate Hb'.
  - exact Hsteps.
  - split; [exact Hrs|]. split; [exact Hc|]. subst rs.
    destruct (Hp 0 (toy_store, CPut b) (VHash h)) as [_ Hk]; [reflexivity|reflexivity|].
    exact Hk.
Defined.
