(* ===== verification/StoreRun.v ===== *)
(** * The chunk store alone

    What the operations of [ChunkStore] return when nothing fails and nothing
    else runs: chunks and manifests round trip, a manifest version is written
    once, and the latest version is the greatest one. *)

From S2P Require Import Prelude Text Manifest World ChunkStore.

Section run.
Context (sha256 : bytes → bytes).
Context (to_vec : Manifest.t → option bytes) (from_slice : bytes → option Manifest.t).

(** ** Chunks *)

(** The cache, if there is one, holds these bytes under the hash or nothing. *)
Definition resident_or_absent (s : ChunkStore) (w : World) (h : ChunkHash) (b : bytes) : Prop :=
  cache s = true → files w !! h = None ∨ files w !! h = Some b.

(** With the object there, reads return it, from the cache or the object
    store. *)
Lemma run_reads s w h b :
  resolver s = BlobStorageResolver sha256 → sha256 b = h →
  objects w !! ChunkHash.storage_key h = Some b → resident_or_absent s w h b →
  (run_prog (get_chunk sha256 s h) w).1 = Ok b ∧
  (run_prog (read_chunk s h) w).1 = Ok b ∧
  run_prog (chunk_exists s h) w = (Ok true, w).
Proof.
  intros Hr Hb Hk Hf. unfold get_chunk, read_chunk, chunk_exists, cache_get. rewrite Hr.
  repeat split.
  - destruct (cache s) eqn:Ec; cbn.
    + destruct (Hf Ec) as [E|E]; rewrite E; cbn; [|done]. rewrite E. cbn. rewrite Hk. cbn.
      rewrite bool_decide_eq_true_2 by done. cbn. rewrite bool_decide_eq_true_2 by done. done.
    + rewrite Hk. cbn. by rewrite bool_decide_eq_true_2.
  - destruct (cache s) eqn:Ec; cbn.
    + destruct (Hf Ec) as [E|E]; rewrite E; cbn; [|done]. rewrite Hk. cbn.
      by rewrite bool_decide_eq_true_2.
    + rewrite Hk. cbn. by rewrite bool_decide_eq_true_2.
  - cbn. by rewrite Hk, bool_decide_eq_true_2 by done.
Qed.

Definition warmed (s : ChunkStore) (h : ChunkHash) (b : bytes) (w : World) : World :=
  if cache s then w <| files := <[h := b]> (files w) |> else w.

Definition stored (k : string) (b : bytes) (w : World) : World :=
  w <| objects := <[k := b]> (objects w) |>.

Lemma stored_id k b w : objects w !! k = Some b → stored k b w = w.
Proof. intros H. destruct w. unfold stored. cbn in *. by rewrite insert_id. Qed.

Lemma run_warm s h b w : run_prog (warm_local s h b) w = (tt, warmed s h b w).
Proof. unfold warm_local, warmed. by destruct (cache s). Qed.

Lemma run_put s b w :
  let k := ChunkHash.storage_key (sha256 b) in
  objects w !! k = None ∨ objects w !! k = Some b →
  run_prog (put_chunk sha256 s b) w =
    (Ok (sha256 b), warmed s (sha256 b) b (stored k b w)).
Proof.
  intros k Hk. unfold put_chunk. fold k. rewrite run_prog_try.
  change (run_prog (blob _) w) with
    (@Ok bool ChunkStoreError.t (bool_decide (is_Some (objects w !! k))), w). cbv beta iota.
  destruct Hk as [E|E].
  - rewrite bool_decide_eq_false_2 by (rewrite E; apply is_Some_None).
    rewrite run_prog_bind. cbn [run_prog ask serve]. rewrite run_prog_try. cbn [run_prog okay].
    rewrite run_prog_bind, run_warm. done.
  - rewrite bool_decide_eq_true_2 by by eexists.
    rewrite run_prog_bind, run_warm, stored_id by done. done.
Qed.

(** A chunk round trips, whichever store reads it.  Storing a body in a
    store over the object storage returns its hash, leaves exactly the body
    under the hash's key and every other object alone; from then on any other
    store over the same object storage, with the local cache, without it, or
    after the cached file was evicted, gets exactly the body back and sees the
    chunk; storing it again changes nothing. *)
Theorem chunk_put_get s s' b w :
  let h := sha256 b in
  let k := ChunkHash.storage_key h in
  resolver s' = BlobStorageResolver sha256 →
  objects w !! k = None ∨ objects w !! k = Some b →
  resident_or_absent s' w h b →
  ∃ w1, run_prog (put_chunk sha256 s b) w = (Ok h, w1) ∧
    objects w1 = <[k := b]> (objects w) ∧
    run_prog (put_chunk sha256 s b) w1 = (Ok h, w1) ∧
    ∀ w2, w2 = w1 ∨ w2 = w1 <| files := delete h (files w1) |> →
      (run_prog (get_chunk sha256 s' h) w2).1 = Ok b ∧
      (run_prog (read_chunk s' h) w2).1 = Ok b ∧
      run_prog (chunk_exists s' h) w2 = (Ok true, w2).
Proof.
  intros h k Hr Hk Hres. exists (warmed s h b (stored k b w)).
  split; [exact (run_put s b w Hk)|].
  assert (Ho : objects (warmed s h b (stored k b w)) = <[k := b]> (objects w)).
  { unfold warmed. by destruct (cache s). }
  split; [done|]. split.
  { assert (Hl : objects (warmed s h b (stored k b w)) !! k = Some b).
    { rewrite Ho. apply lookup_insert_eq. }
    etrans; [exact (run_put s b _ (or_intror Hl))|]. rewrite stored_id by exact Hl.
    unfold warmed. destruct (cache s); [|done]. cbn. by rewrite insert_insert_eq. }
  intros w2 Hw2. apply run_reads; try done.
  - destruct Hw2 as [->| ->]; cbn; fold k; rewrite ?Ho; apply lookup_insert_eq.
  - intros Hc. destruct Hw2 as [->| ->]; cbn; [|by rewrite lookup_delete_eq; left].
    unfold warmed. destruct (cache s); cbn; [|by apply Hres].
    rewrite lookup_insert_eq. by right.
Qed.

(** ** Manifests *)

Lemma manifest_key_prefix r :
  ManifestRef.storage_key r =
  ManifestRef.id_prefix (manifest_id r) +:+ "v" +:+ dec (version r) +:+ ".json".
Proof.
  unfold ManifestRef.storage_key, ManifestRef.id_prefix. by rewrite !string_app_assoc.
Qed.

(** A stored version is read back from its key. *)
Lemma key_version_storage_key r :
  (version r ≤ 18446744073709551615)%N →
  key_version (ManifestRef.id_prefix (manifest_id r)) (ManifestRef.storage_key r) =
    Some (version r).
Proof.
  intros Hv. unfold key_version. rewrite manifest_key_prefix, strip_prefix_app. cbn [mbind option_bind].
  rewrite strip_prefix_app. cbn [mbind option_bind]. rewrite strip_suffix_app. by apply parse_dec.
Qed.

(** [o] is the greatest version among the keys that satisfy [P]. *)
Definition greatest (prefix : string) (P : string → Prop) (o : option N) : Prop :=
  match o with
  | Some v => (∃ k, P k ∧ key_version prefix k = Some v) ∧
              ∀ k v', P k → key_version prefix k = Some v' → (v' ≤ v)%N
  | None => ∀ k, P k → key_version prefix k = None
  end.

Lemma max_version_greatest prefix l : greatest prefix (fun k => k ∈ l) (max_version prefix l).
Proof.
  unfold max_version.
  enough (H : ∀ seen acc, greatest prefix (fun k => k ∈ seen) acc →
    greatest prefix (fun k => k ∈ seen ++ l)
      (fold_left (fun acc k => match key_version prefix k with
         | Some v => Some (match acc with Some cur => N.max cur v | None => v end)
         | None => acc end) l acc)).
  { apply (H [] None). intros k Hk. by apply not_elem_of_nil in Hk. }
  induction l as [|x l IH]; intros seen acc Hacc; cbn [fold_left].
  - by rewrite app_nil_r.
  - rewrite (cons_middle x seen l), app_assoc. apply IH.
    destruct (key_version prefix x) as [v|] eqn:Ex, acc as [cur|]; cbn in *.
    + destruct Hacc as [(k&Hk&Ek) Hmax]. split.
      * destruct (N.max_spec cur v) as [[_ ->]|[_ ->]]; [exists x|exists k]; set_solver.
      * intros k' v' [Hk'| ->%list_elem_of_singleton]%elem_of_app Ev'; [|simplify_eq; lia].
        specialize (Hmax _ _ Hk' Ev'). lia.
    + split; [exists x; set_solver|].
      intros k' v' [Hk'| ->%list_elem_of_singleton]%elem_of_app Ev'; [|simplify_eq; lia].
      by rewrite Hacc in Ev'.
    + destruct Hacc as [(k&Hk&Ek) Hmax]. split; [exists k; set_solver|].
      intros k' v' [Hk'| ->%list_elem_of_singleton]%elem_of_app Ev'; [by eapply Hmax|congruence].
    + intros k' [Hk'| ->%list_elem_of_singleton]%elem_of_app; auto.
Qed.

(** [latest_manifest_version] reads the greatest version present. *)
Lemma run_latest i w :
  ∃ o, run_prog (latest_manifest_version i) w = (Ok o, w) ∧
       greatest (ManifestRef.id_prefix i) (fun k => is_Some (objects w !! k)) o.
Proof.
  eexists. split; [reflexivity|]. cbn [serve fst].
  match goal with |- greatest ?p _ (max_version _ ?l) =>
    pose proof (max_version_greatest p l) as H; set (o := max_version p l) in *;
    assert (Hl : ∀ k, key_version p k ≠ None → is_Some (objects w !! k) ↔ k ∈ l)
  end.
  { intros k Hk. rewrite elem_of_filterb, elem_of_keys, bool_decide_eq_true.
    unfold key_version in Hk. destruct (strip_prefix _ k); [|done].
    split; [|tauto]. intros; eauto. }
  destruct o as [v|]; cbn in *.
  - destruct H as [(k&Hk&Ek) Hmax]. split; [exists k; rewrite Hl by congruence; done|].
    intros k' v' Hk' E. eapply Hmax; [|done]. by apply Hl; [congruence|].
  - intros k Hk. destruct (key_version _ k) eqn:E; [|done]. rewrite (H k) in E; [done|].
    by apply Hl; [congruence|].
Qed.

Lemma run_put_manifest r m v w :
  Manifest.validate m = Ok tt → to_vec m = Some v →
  objects w !! ManifestRef.storage_key r = None →
  run_prog (put_manifest to_vec r m) w = (Ok tt, stored (ManifestRef.storage_key r) v w).
Proof.
  intros Hm Hv Hk. unfold put_manifest. rewrite Hm. cbn. rewrite Hk. cbn. by rewrite Hv.
Qed.

Lemma run_get_manifest r m v w :
  Manifest.validate m = Ok tt → from_slice v = Some m →
  objects w !! ManifestRef.storage_key r = Some v →
  run_prog (get_manifest from_slice r) w = (Ok m, w).
Proof. intros Hm Hv Hk. unfold get_manifest. cbn. rewrite Hk. cbn. rewrite Hv. cbn. by rewrite Hm. Qed.

Lemma run_put_manifest_conflict r m w :
  Manifest.validate m = Ok tt → is_Some (objects w !! ManifestRef.storage_key r) →
  ∃ o, run_prog (put_manifest to_vec r m) w =
         (Err (ChunkStoreError.VersionConflict (manifest_id r) (version r) (default 0%N o)), w) ∧
       greatest (ManifestRef.id_prefix (manifest_id r)) (fun k => is_Some (objects w !! k)) o.
Proof.
  intros Hm Hk. destruct (run_latest (manifest_id r) w) as (o&Ho&Hg). exists o. split; [|done].
  unfold put_manifest. rewrite Hm. rewrite run_prog_try. cbn [pure run_prog].
  rewrite run_prog_try. cbn [run_prog blob ask mbind prog_bind serve].
  rewrite bool_decide_eq_true_2 by done. by rewrite run_prog_try, Ho.
Qed.

(** A manifest version round trips and is written once.  Publishing a valid
    manifest at a version that is free succeeds, touches only its own key and
    reads back as it was; publishing anything valid at that version again
    changes nothing and fails with the conflict that names the greatest version
    there is; and if the version is above every version stored before, it is
    now the latest. *)
Theorem manifest_write_once r m m' v w :
  let key := ManifestRef.storage_key r in
  let prefix := ManifestRef.id_prefix (manifest_id r) in
  Manifest.validate m = Ok tt → Manifest.validate m' = Ok tt →
  to_vec m = Some v → from_slice v = Some m →
  (version r ≤ 18446744073709551615)%N → objects w !! key = None →
  ∃ w1, run_prog (put_manifest to_vec r m) w = (Ok tt, w1) ∧
    objects w1 = <[key := v]> (objects w) ∧ files w1 = files w ∧
    run_prog (get_manifest from_slice r) w1 = (Ok m, w1) ∧
    (∃ latest, run_prog (put_manifest to_vec r m') w1 =
       (Err (ChunkStoreError.VersionConflict (manifest_id r) (version r) latest), w1) ∧
       greatest prefix (fun k => is_Some (objects w1 !! k)) (Some latest)) ∧
    ((∀ k v', is_Some (objects w !! k) → key_version prefix k = Some v' → (v' < version r)%N) →
     run_prog (get_latest_manifest from_slice (manifest_id r)) w1 = (Ok (Some (r, m)), w1)).
Proof.
  intros key prefix Hm Hm' Hv Hv' Hr Hk. exists (stored key v w).
  split; [by apply run_put_manifest|]. do 2 (split; [done|]).
  assert (Hg : run_prog (get_manifest from_slice r) (stored key v w) = (Ok m, stored key v w)).
  { apply (run_get_manifest _ _ v); try done. apply lookup_insert_eq. }
  assert (Hs : is_Some (objects (stored key v w) !! key)).
  { cbn. rewrite lookup_insert_eq. by eexists. }
  pose proof (key_version_storage_key r Hr) as Hkv.
  split; [done|]. split.
  - destruct (run_put_manifest_conflict r m' _ Hm' Hs) as (o&Ho&Hgr).
    destruct o as [latest|]; [by exists latest|]. exfalso. cbn in Hgr.
    by pose proof (eq_trans (eq_sym (Hgr _ Hs)) Hkv).
  - intros Hlt. unfold get_latest_manifest. rewrite run_prog_try.
    destruct (run_latest (manifest_id r) (stored key v w)) as (o&->&Hgr).
    assert (o = Some (version r)) as ->.
    { destruct o as [x|]; cbn in Hgr; [|by pose proof (eq_trans (eq_sym (Hgr _ Hs)) Hkv)].
      destruct Hgr as [(k&Hk'&Ek) Hmax]. f_equal. specialize (Hmax _ _ Hs Hkv).
      cbn in Hk'. rewrite lookup_insert_is_Some in Hk'.
      destruct Hk' as [<-|[_ Hk']].
      { pose proof (eq_trans (eq_sym Ek) Hkv). by simplify_eq. }
      specialize (Hlt _ _ Hk' Ek). lia. }
    rewrite run_prog_try. destruct r as [i n]. cbn [manifest_id version]. by rewrite Hg.
Qed.

(** A fork shares the parent's content: forking a stored manifest into a
    fresh id succeeds, stores version 1 with the same shape and the very same
    chunks, the source as its parent and no working-set trace, and leaves the
    source readable as it was. *)
Theorem manifest_fork src fresh m v v' w :
  let m' := m <| Manifest.parent := Some src |> <| Manifest.working_set_trace := None |> in
  let r := MkRef fresh 1 in
  Manifest.validate m = Ok tt → from_slice v = Some m →
  to_vec m' = Some v' → from_slice v' = Some m' →
  objects w !! ManifestRef.storage_key src = Some v →
  objects w !! ManifestRef.storage_key r = None →
  ∃ w1, run_prog (fork_manifest to_vec from_slice src fresh) w = (Ok r, w1) ∧
    run_prog (get_manifest from_slice r) w1 = (Ok m', w1) ∧
    Manifest.chunks m' = Manifest.chunks m ∧
    run_prog (get_manifest from_slice src) w1 = (Ok m, w1).
Proof.
  intros m' r Hm Hv Hw Hw' Hs Hr. exists (stored (ManifestRef.storage_key r) v' w).
  assert (Hm' : Manifest.validate m' = Ok tt) by done. split; [|split; [|split; [done|]]].
  - unfold fork_manifest. rewrite run_prog_try, (run_get_manifest _ m v) by done.
    rewrite run_prog_try. fold m' r. by rewrite (run_put_manifest _ _ v').
  - apply (run_get_manifest _ _ v'); try done. apply lookup_insert_eq.
  - apply (run_get_manifest _ _ v); try done. cbn. rewrite lookup_insert_ne; [done|].
    fold r. congruence.
Qed.

End run.

Lemma chunk_put_get_witness :
  let s := MkStore (BlobStorageResolver Manifest.toy_hash) true in
  let b := [7; 8; 9]%N in
  let h := Manifest.toy_hash b in
  ∃ w1, run_prog (put_chunk Manifest.toy_hash s b) (MkWorld ∅ ∅ ∅) = (Ok h, w1) ∧
        (run_prog (get_chunk Manifest.toy_hash s h) w1).1 = Ok b.
Proof.
  intros s b h.
  destruct (chunk_put_get Manifest.toy_hash s s b (MkWorld ∅ ∅ ∅)) as (w1&H1&_&_&H2).
  - reflexivity.
  - left. reflexivity.
  - intros _. left. reflexivity.
  - exists w1. split; [exact H1|]. apply (H2 w1). left. reflexivity.
Defined.

Lemma manifest_write_once_witness :
  let r := MkRef 1 3 in
  let m := Manifest.empty Disk 16 in
  ∃ w1, run_prog (put_manifest Manifest.toy_to_vec r m) (MkWorld ∅ ∅ ∅) = (Ok tt, w1) ∧
        run_prog (get_manifest Manifest.toy_from_slice r) w1 = (Ok m, w1) ∧
        run_prog (get_latest_manifest Manifest.toy_from_slice 1%N) w1 = (Ok (Some (r, m)), w1).
Proof.
  intros r m.
  destruct (manifest_write_once Manifest.toy_to_vec Manifest.toy_from_slice r m m [16%N]
    (MkWorld ∅ ∅ ∅)) as (w1&H1&_&_&H2&_&H3); try reflexivity.
  - vm_compute. discriminate.
  - exists w1. split; [exact H1|]. split; [exact H2|]. apply H3.
    intros k v' [x Hx]. discriminate Hx.
Defined.

Lemma manifest_fork_witness :
  let src := MkRef 1 3 in
  let m := Manifest.empty Disk 16 in
  let w := MkWorld {[ManifestRef.storage_key src := [16%N]]} ∅ ∅ in
  ∃ w1, run_prog (fork_manifest Manifest.toy_to_vec Manifest.toy_from_slice src 2%N) w =
          (Ok (MkRef 2 1), w1).
Proof.
  intros src m w.
  destruct (manifest_fork Manifest.toy_to_vec Manifest.toy_from_slice src 2%N m [16%N] [16; 1; 3]%N w)
    as (w1&H1&_); try reflexivity.
  exists w1. exact H1.
Defined.

(** Two writers of one manifest version can both be told they succeeded:
    each looks before either uploads, the later upload overwrites the earlier
    one, and neither sees a conflict. *)
Theorem manifest_put_race :
  let r := MkRef 1 1 in
  let m1 := Manifest.empty Disk 16 in
  let m2 := Manifest.empty Disk 32 in
  ∃ w, rtc pstep
         (MkWorld ∅ ∅ ∅, [put_manifest Manifest.toy_to_vec r m1; put_manifest Manifest.toy_to_vec r m2])
         (w, [Ret (Ok tt); Ret (Ok tt)]) ∧
       run_prog (get_manifest Manifest.toy_from_slice r) w = (Ok m2, w) ∧ m1 ≠ m2.
Proof.
  intros r m1 m2.
  pose proof (schedule_steps [0; 1; 0; 1] (MkWorld ∅ ∅ ∅,
    [put_manifest Manifest.toy_to_vec r m1; put_manifest Manifest.toy_to_vec r m2])) as H.
  eexists. split; [exact H|]. split; [vm_compute; reflexivity|discriminate].
Qed.
