(* ===== verification/Scrub.v ===== *)
(** * Unverified landings and the scrubber

    [put_unverified_no_evict], [read_verified_for_serve] and [scrub_one] of
    [cache.rs]: peer-pulled bytes land unhashed beside a sidecar, are not served
    to peers while the sidecar is there, and the scrubber hashes them later. *)

From S2P Require Import Prelude Text Manifest World ChunkStore.

Section landing.
Context (sha256 : bytes → bytes).

(** A cached file without a sidecar has the content its name says. *)
Definition served_clean (w : World) : Prop :=
  ∀ h b, files w !! h = Some b → h ∉ marks w → sha256 b = h.

(** ** Landings beside verified writers *)

(** The callers of the cache, the scrubber apart. *)
Inductive CacheCall : Type :=
| LLand (h : ChunkHash) (b : bytes)
| LPut (h : ChunkHash) (b : bytes)
| LGet (h : ChunkHash)
| LServe (h : ChunkHash).

Definition cache_prog (c : CacheCall) : prog unit :=
  match c with
  | LLand h b => forget (put_unverified_no_evict h b)
  | LPut h b => forget (cache_put sha256 h b)
  | LGet h => forget (cache_get sha256 h (fetch_chunk (BlobStorageResolver sha256) h))
  | LServe h => forget (read_verified_for_serve h)
  end.

(** A file is written only with its own content or under a sidecar. *)
Definition land_guar X (D : list fact) (q : req X) : Prop :=
  match q with
  | FileWrite h v => sha256 v = h ∨ Marked h ∈ D
  | BlobDelete _ | MarkRemove _ => False
  | _ => True
  end.

Definition land_rely X (q : req X) (_ : X) : Prop := True.

Lemma served_clean_write w h b :
  served_clean w → sha256 b = h ∨ h ∈ marks w →
  served_clean (w <| files := <[h := b]> (files w) |>).
Proof.
  intros Hc Hb h' b'. cbn. intros [[<- <-]|[_ ?]]%lookup_insert_Some Hm; [|by eapply Hc].
  by destruct Hb.
Qed.

Lemma served_clean_delete w h : served_clean w → served_clean (w <| files := delete h (files w) |>).
Proof. intros Hc h' b'. cbn. intros [_ ?]%lookup_delete_Some Hm. by eapply Hc. Qed.

Lemma served_clean_mark w h : served_clean w → served_clean (w <| marks := {[h]} ∪ marks w |>).
Proof. intros Hc h' b' Hf Hm. eapply Hc; [exact Hf|]. cbn in Hm. set_solver. Qed.

Lemma land_answer X w D (q : req X) x w' :
  served_clean w → Forall (holds w) D → land_guar _ D q → answers w q x w' →
  land_rely _ q x ∧ served_clean w' ∧ deletes q = false.
Proof.
  intros Hc HD Hg Ha. rewrite Forall_forall in HD. split; [done|].
  destruct Ha; cbn in *; try done;
    (split; [|done]); auto using served_clean_delete, served_clean_mark;
    apply served_clean_write; try done; destruct Hg as [?|Hg]; auto;
    right; exact (HD _ Hg).
Qed.

Notation wp := (wp land_rely land_guar).
Notation any := (fun _ (_ : list fact) => True).

Lemma wp_forget {A} D (p : prog A) : wp D p any → wp D (forget p) any.
Proof. intros H. apply rg_bind. by eapply rg_mono. Qed.

Lemma cache_prog_safe D c : wp D (cache_prog c) any.
Proof.
  destruct c; cbn [cache_prog]; apply wp_forget.
  - unfold put_unverified_no_evict. apply rg_try, wp_file; [done| |done]. intros [] _.
    apply rg_try, wp_file; [|done|done]. right. set_solver.
  - unfold cache_put. case_bool_decide; [|done]. apply wp_file; [by left|done|done].
  - unfold cache_get. apply rg_try, wp_file; [done| |done]. intros [b|] _; [done|].
    apply rg_try, wp_file; [done| |done]. intros [b|] _; [done|].
    apply rg_try. cbn [fetch_chunk BlobStorageResolver].
    apply rg_try, wp_blob; [done| |done]. intros b _. case_bool_decide as Hb; [|done].
    cbn. rewrite bool_decide_eq_true_2 by done. cbn. split; [by left|]. by intros [].
  - apply rg_bind, rg_ask; [done|]. intros [] _; [done|]. by apply wp_file.
Qed.

(** Unhashed bytes are never without their sidecar.  Landings of arbitrary
    peer bytes, verified writers, fetches and serves of any chunks, interleaved
    in any way, with any file operation failing or landing unseen and any file
    evicted, keep at every moment, so also at a crash, every cached file that
    has no sidecar hashing to its name; a serve that then runs returns only
    bytes that hash to the name asked for. *)
Theorem landing_crash_safe calls w ps w' h :
  served_clean w → rtc pstep (w, cache_prog <$> calls) (w', ps) →
  served_clean w' ∧
  match (run_prog (read_verified_for_serve h) w').1 with
  | Ok (Some b) => sha256 b = h
  | _ => True
  end.
Proof.
  intros Hc Hsteps.
  pose proof (pool_sound land_rely land_guar served_clean land_answer
    (fun w h => served_clean_delete w h) ((fun _ => any) <$> calls) _ _ Hsteps) as Hok.
  destruct Hok as [Hc' _].
  { split; [done|]. apply Forall2_fmap_l, Forall2_fmap_r, Forall_Forall2_diag, Forall_true.
    intros c. exists []. split; [constructor|]. apply cache_prog_safe. }
  split; [done|]. cbn. case_bool_decide as Hm; cbn; [done|].
  destruct (files w' !! h) as [b|] eqn:Hb; [|done]. by eapply Hc'.
Qed.

(** ** The scrubber alone *)

(** The world after the first [n] requests of a program, without faults. *)
Fixpoint run_upto {A} (n : nat) (p : prog A) (w : World) : World :=
  match n, p with
  | S n', Do q k => let '(x, w') := serve w q in run_upto n' (k x) w'
  | _, _ => w
  end.

Lemma served_clean_unmark w h :
  served_clean w → (∀ b, files w !! h = Some b → sha256 b = h) →
  served_clean (w <| marks := marks w ∖ {[h]} |>).
Proof.
  intros Hc Hh h' b' Hf Hm. cbn in *. destruct (decide (h' = h)) as [->|]; [by apply Hh|].
  eapply Hc; [exact Hf|]. set_solver.
Qed.

Lemma run_upto_ret {A} (P : World → Prop) (a : A) w : P w → ∀ n, P (run_upto n (Ret a) w).
Proof. by intros ? []. Qed.

Lemma run_upto_do {A X} (P : World → Prop) (q : req X) (k : X → prog A) w :
  P w → (∀ n, P (run_upto n (k (serve w q).1) (serve w q).2)) → ∀ n, P (run_upto n (Do q k) w).
Proof. intros Hw Hk [|n]; cbn; [done|]. specialize (Hk n). by destruct (serve w q). Qed.

Lemma scrub_upto h w : served_clean w → ∀ n, served_clean (run_upto n (scrub_one sha256 h) w).
Proof.
  intros Hc. apply run_upto_do; [done|]. cbn [serve fst snd].
  destruct (bool_decide (h ∈ marks w)); cbn [negb]; [|by apply run_upto_ret].
  apply run_upto_do; [done|]. cbn [serve fst snd].
  destruct (files w !! h) as [b|] eqn:Hb; [case_bool_decide as Hh|].
  - apply run_upto_do; [done|]. apply run_upto_ret, served_clean_unmark; [done|]. naive_solver.
  - apply run_upto_do; [done|]. cbn [serve fst snd].
    pose proof (served_clean_delete w h Hc) as Hd.
    apply run_upto_do; [done|]. apply run_upto_ret. cbn [serve fst snd].
    apply served_clean_unmark; [done|]. cbn. by intros b'; rewrite lookup_delete_eq.
  - apply run_upto_do; [done|]. apply run_upto_ret, served_clean_unmark; [done|]. naive_solver.
Qed.

(** The scrubber settles a landing.  Running alone and without file errors,
    it stops safely at any point: unhashed bytes are never without their
    sidecar.  When it is done the chunk has no sidecar; the file is kept if it
    hashes to its name or was not marked, and is gone otherwise; no other file
    or sidecar has changed. *)
Theorem scrub_settles h w n :
  served_clean w →
  served_clean (run_upto n (scrub_one sha256 h) w) ∧
  let w' := (run_prog (scrub_one sha256 h) w).2 in
  h ∉ marks w' ∧
  files w' !! h = (b ← files w !! h; if bool_decide (sha256 b = h) then Some b else None) ∧
  (∀ h', h' ≠ h → files w' !! h' = files w !! h' ∧ (h' ∈ marks w' ↔ h' ∈ marks w)).
Proof.
  intros Hc. split; [by apply scrub_upto|]. cbn.
  destruct (bool_decide_reflect (h ∈ marks w)) as [Hm|Hm]; cbn.
  - destruct (files w !! h) as [b|] eqn:Hb; cbn; [case_bool_decide as Hh; cbn|];
      rewrite ?lookup_delete_eq, ?Hb; (split; [set_solver|split; [done|]]);
      intros h' Hne; rewrite ?lookup_delete_ne by done; set_solver.
  - split; [done|]. split; [|done]. destruct (files w !! h) as [b|] eqn:Hb; cbn; [|done].
    by rewrite bool_decide_eq_true_2 by by eapply Hc.
Qed.

End landing.

Lemma landing_crash_safe_witness :
  let h := Manifest.toy_hash [7; 8]%N in
  let '(_, w) := run_seq (cache_prog Manifest.toy_hash <$> [LLand h [1]%N; LPut h [7; 8]%N])
                   (MkWorld ∅ ∅ ∅) in
  served_clean Manifest.toy_hash w.
Proof.
  intros h. destruct (run_seq _ _) as [rs w] eqn:E.
  pose proof (run_seq_steps [] (cache_prog Manifest.toy_hash <$> [LLand h [1]%N; LPut h [7; 8]%N])
    (MkWorld ∅ ∅ ∅)) as Hsteps.
  rewrite E in Hsteps. cbn [fst snd app] in Hsteps.
  apply (landing_crash_safe Manifest.toy_hash [LLand h [1]%N; LPut h [7; 8]%N]
    (MkWorld ∅ ∅ ∅) (Ret <$> rs) w h); [|exact Hsteps].
  intros h' b' Hb'. discriminate Hb'.
Defined.

(** A corrupt landing is found and dropped. *)
Lemma scrub_settles_witness :
  let h := Manifest.toy_hash [7; 8]%N in
  let w := MkWorld ∅ {[h := [1]%N]} {[h]} in
  let w' := (run_prog (scrub_one Manifest.toy_hash h) w).2 in
  files w' !! h = None ∧ h ∉ marks w'.
Proof.
  intros h w.
  destruct (scrub_settles Manifest.toy_hash h w 0) as (_&H1&H2&_).
  - intros h' b' Hb' Hm. exfalso. apply Hm.
    apply (lookup_singleton_Some h h' [1]%N b') in Hb' as [<- _]. vm_compute. reflexivity.
  - intros w'. split; [|exact H1]. unfold w'. rewrite H2. vm_compute. reflexivity.
Defined.

(** The state the landing path calls unreachable is reachable through the
    scrubber.  One read error while it scrubs a corrupt landing makes it drop
    the sidecar and keep the file; and a landing that arrives after it hashed a
    good copy but before it removes the sidecar loses its own sidecar.  Both
    leave corrupt bytes that are then served to peers. *)
Theorem scrub_unmarks_corrupt :
  let h := Manifest.toy_hash [7; 8]%N in
  let served w := run_prog (read_verified_for_serve h) w = (Ok (Some [1]%N), w) in
  let start b := MkWorld ∅ {[h := b]} {[h]} in
  Manifest.toy_hash [1]%N ≠ h ∧
  (∃ w, rtc pstep (start [1]%N, [scrub_one Manifest.toy_hash h]) (w, [Ret 0%N]) ∧ served w) ∧
  (∃ w, rtc pstep
          (start [7; 8]%N, [forget (scrub_one Manifest.toy_hash h);
                            forget (put_unverified_no_evict h [1]%N)])
          (w, [Ret tt; Ret tt]) ∧ served w).
Proof.
  intros h served start. split; [vm_compute; discriminate|]. split.
  - exists ((start [1]%N) <| marks := marks (start [1]%N) ∖ {[h]} |>). split.
    + eapply rtc_l; [eapply (ps_answer _ _ _ 0); [reflexivity|apply an_mark_exists]|].
      rewrite bool_decide_eq_true_2 by set_solver. cbn [list_insert insert negb].
      eapply rtc_l; [eapply (ps_answer _ _ _ 0); [reflexivity|apply an_file_read_fail]|].
      cbn [list_insert insert].
      eapply rtc_l; [eapply (ps_answer _ _ _ 0); [reflexivity|apply an_mark_remove]|]. done.
    + vm_compute. reflexivity.
  - pose proof (schedule_steps [0; 0; 1; 1; 0] (start [7; 8]%N,
      [forget (scrub_one Manifest.toy_hash h); forget (put_unverified_no_evict h [1]%N)])) as H.
    eexists. split; [exact H|]. vm_compute. reflexivity.
Qed.
