(* ===== verification/Singleflight.v ===== *)
(** * The chunk cache's single flight

    [ChunkCache::get_with_source] of [cache.rs] with its in-flight map and
    [LeaderGuard]: concurrent misses of one chunk share one fetch, and neither a
    failed nor a cancelled leader wedges the others.  Every call is a state
    machine between its awaits; what the code does between two awaits (lock the
    map, join or lead; remove the slot, disarm the guard and notify) is one
    step.  The metrics and the thrash ring are left out. *)

From S2P Require Import Prelude Text Manifest.

Module Flight.

(** Where a call of [get_with_source] is. *)
Inductive phase : Type :=
| Fast (h : ChunkHash)                 (* [read_resident] *)
| Join (h : ChunkHash)                 (* the head of the loop *)
| Look (h : ChunkHash)                 (* leader: the second look at the disk *)
| Fetch (h : ChunkHash)                (* leader: [fetch().await] *)
| Persist (h : ChunkHash) (b : bytes)  (* leader: [write_local] *)
| Persisted (h : ChunkHash) (b : bytes) (* leader: written, the sweep may still run *)
| Wait (h : ChunkHash)                 (* follower: [rx.await] *)
| Sent (h : ChunkHash) (r : result bytes ChunkStoreError.t) (* a broadcast is in the channel *)
| Dropped (h : ChunkHash)              (* the sender was dropped: [RecvError] *)
| Done (h : ChunkHash) (r : result bytes ChunkStoreError.t) (* returned *)
| Gone (h : ChunkHash).                (* the future was dropped *)

(** [inflight] holds the callers whose senders are in the slot; [fetches] counts
    the calls of the [fetch] closures of each hash. *)
Record t := MkFlight {
  inflight : gmap (list N) (list nat);
  disk : gmap (list N) bytes;
  calls : gmap nat phase;
  fetches : gmap (list N) nat;
}.

#[export] Instance t_eta : Eta t := fun s => MkFlight (inflight s) (disk s) (calls s) (fetches s).

Definition init (d : gmap (list N) bytes) : t := MkFlight ∅ d ∅ ∅.

(** What can happen next. *)
Inductive event : Type :=
| ECall (c : nat) (h : ChunkHash)      (* a new call *)
| ERun (c : nat)                       (* the await the call is at completes *)
| EFetched (c : nat) (r : result bytes ChunkStoreError.t) (* the fetch closure returns *)
| EIoError (c : nat)                   (* the file operation the call is at fails *)
| ECancel (c : nat)                    (* the call's future is dropped *)
| EEvict (h : ChunkHash)               (* the sweeper removes a file *)
| EPut (h : ChunkHash) (b : bytes).    (* another verified writer *)

#[export] Instance ChunkStoreError_eq_dec : EqDecision ChunkStoreError.t.
Proof. intros x y. unfold Decision. repeat (decide equality). Defined.

#[export] Instance phase_eq_dec : EqDecision phase.
Proof. solve_decision. Defined.

(** The hash a call leads, while its [LeaderGuard] is armed. *)
Definition leads (p : phase) : option ChunkHash :=
  match p with
  | Look h | Fetch h | Persist h _ | Persisted h _ => Some h
  | _ => None
  end.

Definition clone_result (r : result bytes ChunkStoreError.t) : result bytes ChunkStoreError.t :=
  match r with
  | Ok b => Ok b
  | Err _ => Err (ChunkStoreError.Internal "singleflight: {e}")
  end.

(** The senders [l] of a slot send or are dropped: each waiting receiver moves
    to [p]; a send to a receiver that is gone does nothing. *)
Definition notify (h : ChunkHash) (p : phase) (l : list nat) (m : gmap nat phase) : gmap nat phase :=
  fold_left (fun m c => if bool_decide (m !! c = Some (Wait h)) then <[c := p]> m else m) l m.

Arguments notify : simpl never.

Definition slot (s : t) (h : ChunkHash) : list nat := default [] (inflight s !! h).

(** The leader [c] removes its slot; the waiting receivers move to [q] and the
    leader to [p]. *)
Definition release (c : nat) (h : ChunkHash) (q p : phase) (s : t) : t :=
  s <| inflight := delete h (inflight s) |>
    <| calls := <[c := p]> (notify h q (slot s h) (calls s)) |>.

(** Slot removed, guard disarmed, result sent and returned. *)
Definition broadcast (c : nat) (h : ChunkHash) (r : result bytes ChunkStoreError.t) (s : t) : t :=
  release c h (Sent h (clone_result r)) (Done h r) s.

(** [LeaderGuard::drop] while armed, the call ending in [p]. *)
Definition drop_leader (c : nat) (h : ChunkHash) (p : phase) (s : t) : t :=
  release c h (Dropped h) p s.

Definition goto (c : nat) (p : phase) (s : t) : t := s <| calls := <[c := p]> (calls s) |>.

(** [inflight.entry(hash).or_default()]: the first sender leads. *)
Definition join (c : nat) (h : ChunkHash) (s : t) : t :=
  let entry := slot s h in
  goto c (if bool_decide (entry = []) then Look h else Wait h)
    (s <| inflight := <[h := entry ++ [c]]> (inflight s) |>).

Section step.
Context (sha256 : bytes → bytes).

(** Verify-on-populate. *)
Definition verify (h : ChunkHash) (r : result bytes ChunkStoreError.t) : result bytes ChunkStoreError.t :=
  match r with
  | Ok b => if bool_decide (sha256 b = h) then Ok b
            else Err (ChunkStoreError.HashMismatch (ChunkHash.to_hex h) (ChunkHash.to_hex (sha256 b)))
  | Err e => Err e
  end.

Definition fetched (c : nat) (h : ChunkHash) (r : result bytes ChunkStoreError.t) (s : t) : t :=
  match verify h r with
  | Ok b => goto c (Persist h b) s
  | Err e => broadcast c h (Err e) s
  end.

Definition run_call (c : nat) (p : phase) (s : t) : option t :=
  match p with
  | Fast h => Some (goto c (match disk s !! h with Some b => Done h (Ok b) | None => Join h end) s)
  | Join h => Some (join c h s)
  | Look h =>
      Some (match disk s !! h with
            | Some b => broadcast c h (Ok b) s
            | None => goto c (Fetch h) s <| fetches ::= fun m => <[h := S (default 0 (m !! h))]> m |>
            end)
  | Persist h b => Some (goto c (Persisted h b) (s <| disk := <[h := b]> (disk s) |>))
  | Persisted h b => Some (broadcast c h (Ok b) s)
  | Sent h r => Some (goto c (Done h r) s)
  | Dropped h => Some (goto c (Join h) s)
  | Fetch _ | Wait _ | Done _ _ | Gone _ => None
  end.

Definition io_error (c : nat) (p : phase) (s : t) : option t :=
  match p with
  | Fast h => Some (goto c (Done h (Err ChunkStoreError.Cache)) s)
  | Look h => Some (drop_leader c h (Done h (Err ChunkStoreError.Cache)) s)
  | Persist h b => Some (goto c (Persisted h b) s)
  | _ => None
  end.

Definition cancel (c : nat) (p : phase) (s : t) : option t :=
  match p with
  | Look h | Fetch h | Persist h _ | Persisted h _ => Some (drop_leader c h (Gone h) s)
  | Fast h | Join h | Wait h | Sent h _ | Dropped h => Some (goto c (Gone h) s)
  | Done _ _ | Gone _ => None
  end.

(** One event; [None] when it cannot happen here. *)
Definition step (s : t) (e : event) : option t :=
  match e with
  | ECall c h => match calls s !! c with None => Some (goto c (Fast h) s) | Some _ => None end
  | ERun c => p ← calls s !! c; run_call c p s
  | EFetched c r => p ← calls s !! c; match p with Fetch h => Some (fetched c h r s) | _ => None end
  | EIoError c => p ← calls s !! c; io_error c p s
  | ECancel c => p ← calls s !! c; cancel c p s
  | EEvict h => Some (s <| disk := delete h (disk s) |>)
  | EPut h b => if bool_decide (sha256 b = h) then Some (s <| disk := <[h := b]> (disk s) |>) else None
  end.

Fixpoint run (es : list event) (s : t) : option t :=
  match es with
  | [] => Some s
  | e :: es' => s' ← step s e; run es' s'
  end.

(** ** The invariant *)

(** Call [c] is the leader of [h]. *)
Definition led (s : t) (h : ChunkHash) (c : nat) : Prop :=
  ∃ p, calls s !! c = Some p ∧ leads p = Some h.

(** The bytes a phase carries have the hash it is about. *)
Definition phase_ok (p : phase) : Prop :=
  match p with
  | Persist h b | Persisted h b | Sent h (Ok b) | Done h (Ok b) => sha256 b = h
  | _ => True
  end.

(** A slot has exactly one leader and its senders reach every waiter. *)
Record inv (s : t) : Prop := {
  inv_free h : inflight s !! h = None → ∀ c, ¬ led s h c ∧ calls s !! c ≠ Some (Wait h);
  inv_held h l : inflight s !! h = Some l →
    l ≠ [] ∧ (∃ c, led s h c) ∧ ∀ c, calls s !! c = Some (Wait h) → c ∈ l;
  inv_one h c c' : led s h c → led s h c' → c = c';
  inv_disk h b : disk s !! h = Some b → sha256 b = h;
  inv_phase c p : calls s !! c = Some p → phase_ok p;
}.

(** A phase that holds no guard and no receiver. *)
Definition loose (p : phase) : Prop := leads p = None ∧ ∀ h, p ≠ Wait h.

Lemma lookup_notify h p l m c :
  p ≠ Wait h →
  notify h p l m !! c =
    if bool_decide (m !! c = Some (Wait h) ∧ c ∈ l) then Some p else m !! c.
Proof.
  intros Hp. unfold notify. revert m. induction l as [|x l IH]; intros m; cbn [fold_left].
  { rewrite bool_decide_eq_false_2; [done|]. intros [_ H]. by apply not_elem_of_nil in H. }
  rewrite IH. destruct (decide (c = x)) as [->|Hne].
  - destruct (decide (m !! x = Some (Wait h))) as [Hx|Hx].
    + rewrite (bool_decide_eq_true_2 (m !! x = _)), lookup_insert_eq by done.
      rewrite bool_decide_eq_false_2 by (intros [? _]; congruence).
      by rewrite bool_decide_eq_true_2 by set_solver.
    + rewrite (bool_decide_eq_false_2 (m !! x = _)) by done.
      rewrite !bool_decide_eq_false_2 by tauto. done.
  - assert (Hl : (if bool_decide (m !! x = Some (Wait h)) then <[x := p]> m else m) !! c = m !! c).
    { case_bool_decide; [|done]. by rewrite lookup_insert_ne. }
    rewrite Hl. repeat case_bool_decide; set_solver.
Qed.

Lemma lookup_goto c p s c' :
  calls (goto c p s) !! c' = if decide (c' = c) then Some p else calls s !! c'.
Proof. cbn. case_decide; subst; [by rewrite lookup_insert_eq|by rewrite lookup_insert_ne]. Qed.

(** A move between phases with the same guard. *)
Lemma goto_inv s c p' :
  inv s → calls s !! c ≫= leads = leads p' → (∀ h, p' ≠ Wait h) → phase_ok p' →
  inv (goto c p' s).
Proof.
  intros [Hf Hh Ho Hd Hp] Hl Hw Hok.
  assert (Hled : ∀ h c', led (goto c p' s) h c' ↔ led s h c').
  { intros h c'. unfold led. rewrite lookup_goto. case_decide; [|done]. subst c'. split.
    - intros (?&[= <-]&E). rewrite <- Hl in E. apply bind_Some in E. naive_solver.
    - intros (p&E&E'). exists p'. split; [done|]. by rewrite <- Hl, E. }
  assert (Hwait : ∀ h c', calls (goto c p' s) !! c' = Some (Wait h) → calls s !! c' = Some (Wait h)).
  { intros h c'. cbn. rewrite lookup_insert_Some. naive_solver. }
  split.
  - intros h Hn c'. rewrite Hled. split; [by apply Hf|]. intros H%Hwait. by apply (Hf h Hn c').
  - intros h l Hi. destruct (Hh h l Hi) as (?&(c'&?)&Hall). split; [done|].
    split; [exists c'; by apply Hled|]. eauto.
  - intros h c1 c2. rewrite !Hled. apply Ho.
  - done.
  - intros c' q. cbn. rewrite lookup_insert_Some. naive_solver.
Qed.

(** The leader gives its slot up. *)
Lemma release_inv s c h q p :
  inv s → led s h c → loose q → loose p → phase_ok q → phase_ok p → inv (release c h q p s).
Proof.
  intros [Hf Hh Ho Hd Hp] Hc [Hlq Hq] [Hlp Hp'] Hokq Hokp.
  destruct (inflight s !! h) as [l|] eqn:Hi; [|by destruct (Hf h Hi c)].
  destruct (Hh h l Hi) as (Hl&_&Hall).
  assert (Hcalls : ∀ c', calls (release c h q p s) !! c' =
    if decide (c' = c) then Some p
    else if decide (calls s !! c' = Some (Wait h)) then Some q else calls s !! c').
  { intros c'. unfold release, slot. cbn. rewrite Hi. cbn. case_decide; subst.
    - by rewrite lookup_insert_eq.
    - rewrite lookup_insert_ne, lookup_notify by done. case_decide.
      + rewrite bool_decide_eq_true_2; auto.
      + rewrite bool_decide_eq_false_2; tauto. }
  assert (Hled : ∀ h' c', led (release c h q p s) h' c' → h' ≠ h ∧ c' ≠ c ∧ led s h' c').
  { intros h' c' (p'&Hp''&Hl'). rewrite Hcalls in Hp''. repeat case_decide; simplify_eq.
    assert (led s h' c') by (by exists p'). split; [|done]. intros ->. eauto. }
  assert (Hled' : ∀ h' c', h' ≠ h → led s h' c' → led (release c h q p s) h' c').
  { intros h' c' Hne (p'&Hp''&Hl'). exists p'. split; [|done]. rewrite Hcalls.
    rewrite decide_False; [rewrite decide_False; [done|]|].
    - intros E. rewrite E in Hp''. by simplify_eq.
    - intros ->. destruct Hc as (p''&?&?). congruence. }
  assert (Hwait : ∀ h' c', calls (release c h q p s) !! c' = Some (Wait h') →
    h' ≠ h ∧ calls s !! c' = Some (Wait h')).
  { intros h' c'. rewrite Hcalls. repeat case_decide; intros; simplify_eq;
      try (exfalso; by eapply Hq + eapply Hp'). split; [congruence|done]. }
  split.
  - intros h' Hn c'. split.
    + intros (Hne&_&H)%Hled. cbn in Hn. rewrite lookup_delete_ne in Hn by done.
      by destruct (Hf h' Hn c').
    + intros [Hne H]%Hwait. cbn in Hn. rewrite lookup_delete_ne in Hn by done.
      by destruct (Hf h' Hn c').
  - intros h' l'. cbn. intros [Hne Hi']%lookup_delete_Some.
    destruct (Hh h' l' Hi') as (?&(c'&?)&Hall'). split; [done|].
    split; [exists c'; by apply Hled'|]. intros c'' [_ Hw]%Hwait. by apply Hall'.
  - intros h' c1 c2 (_&_&H1)%Hled (_&_&H2)%Hled. eauto.
  - done.
  - intros c' p'. rewrite Hcalls. repeat case_decide; intros; simplify_eq; eauto.
Qed.

(** A call without a slot joins or leads. *)
Lemma join_inv s c h p : inv s → calls s !! c = Some p → loose p → inv (join c h s).
Proof.
  intros [Hf Hh Ho Hd Hp] Hc [Hlp Hwp]. unfold join, slot.
  destruct (inflight s !! h) as [l|] eqn:Hi; cbn [default].
  - destruct (Hh h l Hi) as (Hl&(c0&Hc0)&Hall). rewrite bool_decide_eq_false_2 by done.
    set (s' := goto _ _ _).
    assert (Hcalls : ∀ c', calls s' !! c' = if decide (c' = c) then Some (Wait h) else calls s !! c')
      by (intros c'; exact (lookup_goto c _ _ c')).
    assert (Hled : ∀ h' c', led s' h' c' ↔ led s h' c').
    { intros h' c'. unfold led. rewrite Hcalls. case_decide; [|done]. subst. naive_solver congruence. }
    split.
    + intros h' Hn c'. cbn in Hn. apply lookup_insert_None in Hn as [Hn Hne]. rewrite Hled, Hcalls.
      destruct (Hf h' Hn c') as [? ?]. split; [done|]. case_decide; congruence.
    + intros h' l'. cbn. intros [[<- <-]|[Hne Hi']]%lookup_insert_Some.
      * split; [by destruct l|]. split; [exists c0; by apply Hled|]. intros c'. rewrite Hcalls.
        case_decide; [set_solver|]. intros ?%Hall. set_solver.
      * destruct (Hh h' l' Hi') as (?&(c1&?)&Hall'). split; [done|].
        split; [exists c1; by apply Hled|]. intros c'. rewrite Hcalls. case_decide; [congruence|auto].
    + intros h' c1 c2. rewrite !Hled. apply Ho.
    + done.
    + intros c' p'. rewrite Hcalls. case_decide; intros; simplify_eq; [done|eauto].
  - cbn. set (s' := goto _ _ _).
    assert (Hcalls : ∀ c', calls s' !! c' = if decide (c' = c) then Some (Look h) else calls s !! c')
      by (intros c'; exact (lookup_goto c _ _ c')).
    assert (Hled : ∀ h' c', led s' h' c' ↔ led s h' c' ∨ h' = h ∧ c' = c).
    { intros h' c'. unfold led. rewrite Hcalls. case_decide; subst; naive_solver congruence. }
    split.
    + intros h' Hn c'. cbn in Hn. apply lookup_insert_None in Hn as [Hn Hne]. rewrite Hled, Hcalls.
      destruct (Hf h' Hn c') as [? ?]. split; [naive_solver|]. case_decide; congruence.
    + intros h' l'. cbn. intros [[<- <-]|[Hne Hi']]%lookup_insert_Some.
      * split; [done|]. split; [exists c; apply Hled; auto|]. intros c'. rewrite Hcalls.
        case_decide; [congruence|]. intros Hw'. by destruct (Hf h Hi c').
      * destruct (Hh h' l' Hi') as (?&(c1&?)&Hall'). split; [done|].
        split; [exists c1; apply Hled; auto|]. intros c'. rewrite Hcalls. case_decide; [congruence|auto].
    + intros h' c1 c2. rewrite !Hled. destruct (Hf h Hi c1), (Hf h Hi c2). naive_solver.
    + done.
    + intros c' p'. rewrite Hcalls. case_decide; intros; simplify_eq; [done|eauto].
Qed.

(** Files and counters come and go without the slots noticing. *)
Lemma disk_inv s d f :
  inv s → (∀ h b, d !! h = Some b → sha256 b = h) → inv (s <| disk := d |> <| fetches := f |>).
Proof. intros [Hf Hh Ho Hd Hp] Hd'. split; [exact Hf|exact Hh|exact Ho|exact Hd'|exact Hp]. Qed.

Lemma insert_disk_ok s h b :
  inv s → sha256 b = h → ∀ h' b', <[h := b]> (disk s) !! h' = Some b' → sha256 b' = h'.
Proof. intros Hi Hb h' b' [[<- <-]|[_ ?]]%lookup_insert_Some; [done|]. by eapply inv_disk. Qed.

Lemma broadcast_inv s c h r :
  inv s → led s h c → (∀ b, r = Ok b → sha256 b = h) → inv (broadcast c h r s).
Proof. intros Hi Hc Hr. apply release_inv; try done; destruct r; cbn; auto. Qed.

Lemma drop_leader_inv s c h p :
  inv s → led s h c → loose p → phase_ok p → inv (drop_leader c h p s).
Proof. intros Hi Hc Hp Hok. by apply release_inv. Qed.

Lemma run_call_inv s c p s' : inv s → calls s !! c = Some p → run_call c p s = Some s' → inv s'.
Proof.
  intros Hi Hc. pose proof (inv_phase s Hi c p Hc) as Hok.
  assert (Hl : ∀ h, leads p = Some h → led s h c) by (intros; by exists p).
  destruct p; cbn; intros; simplify_eq; cbn in Hok;
    try (apply goto_inv; [done|by rewrite Hc|done|done]).
  - apply goto_inv; [done|rewrite Hc| |]; destruct (disk s !! h) eqn:E; try done.
    by eapply inv_disk.
  - by eapply join_inv.
  - destruct (disk s !! h) as [b|] eqn:E.
    + apply broadcast_inv; auto. intros b' [= <-]. by eapply inv_disk.
    + apply (goto_inv _ c (Fetch h)); try done; [|by cbn; rewrite Hc].
      apply (disk_inv s (disk s) (<[h := S (default 0 (fetches s !! h))]> (fetches s)) Hi).
      by apply inv_disk.
  - apply (goto_inv _ c (Persisted h b)); try done; [|by cbn; rewrite Hc].
    apply (disk_inv s (<[h := b]> (disk s)) (fetches s) Hi). by apply insert_disk_ok.
  - apply broadcast_inv; auto. by intros b' [= <-].
Qed.

Lemma step_inv s e s' : inv s → step s e = Some s' → inv s'.
Proof.
  intros Hi. destruct e as [c h|c|c r|c|c|h|h b]; cbn.
  - destruct (calls s !! c) eqn:Hc; [done|]. intros [= <-]. apply goto_inv; by rewrite ?Hc.
  - destruct (calls s !! c) eqn:Hc; [|done]. by apply run_call_inv.
  - destruct (calls s !! c) as [[]|] eqn:Hc; try done. cbn. intros [= <-]. unfold fetched, verify.
    destruct r as [b|e]; [case_bool_decide|]; try (apply broadcast_inv; [done|by eexists|done]).
    apply goto_inv; by rewrite ?Hc.
  - destruct (calls s !! c) as [p|] eqn:Hc; [|done]. cbn.
    assert (Hl : ∀ h, leads p = Some h → led s h c) by (intros; by exists p).
    pose proof (inv_phase s Hi c p Hc). destruct p; cbn; intros; simplify_eq;
      try (apply goto_inv; by rewrite ?Hc). by apply drop_leader_inv; auto.
  - destruct (calls s !! c) as [p|] eqn:Hc; [|done]. cbn.
    assert (Hl : ∀ h, leads p = Some h → led s h c) by (intros; by exists p).
    destruct p; cbn; intros; simplify_eq;
      try (apply goto_inv; by rewrite ?Hc); by apply drop_leader_inv; auto.
  - intros [= <-]. apply (disk_inv s (delete h (disk s)) (fetches s) Hi).
    intros h' b' [_ ?]%lookup_delete_Some.
    by eapply inv_disk.
  - case_bool_decide; [|done]. intros [= <-].
    apply (disk_inv s (<[h := b]> (disk s)) (fetches s) Hi). by apply insert_disk_ok.
Qed.

Lemma flight_inv es s s' : inv s → run es s = Some s' → inv s'.
Proof.
  revert s. induction es as [|e es IH]; cbn; intros s Hi; [by intros [= <-]|].
  intros (s1&H1&H2)%bind_Some. eauto using step_inv.
Qed.

Lemma init_inv d : (∀ h b, d !! h = Some b → sha256 b = h) → inv (init d).
Proof. intros Hd. split; unfold init, led; cbn; intros; set_solver. Qed.

(** The single flight is safe, whatever joins, fails, is cancelled, evicted
    or written beside it: an in-flight entry exists exactly while some call is
    the leader of its hash, a hash never has two leaders, every waiter's sender
    is in the slot of a live leader, and every call that returned bytes returned
    bytes with the hash it asked for. *)
Theorem singleflight_safe d es s :
  (∀ h b, d !! h = Some b → sha256 b = h) → run es (init d) = Some s →
  (∀ h, is_Some (inflight s !! h) ↔ ∃ c, led s h c) ∧
  (∀ h c c', led s h c → led s h c' → c = c') ∧
  (∀ h c, calls s !! c = Some (Wait h) → c ∈ slot s h ∧ ∃ c', led s h c') ∧
  (∀ h c b, calls s !! c = Some (Done h (Ok b)) → sha256 b = h).
Proof.
  intros Hd Hrun. pose proof (flight_inv _ _ _ (init_inv d Hd) Hrun) as Hi.
  split; [|split; [by apply inv_one|split]].
  - intros h. split; [intros [l Hl]; by apply (inv_held s Hi h l)|]. intros [c Hc].
    destruct (inflight s !! h) eqn:E; [by eexists|]. by destruct (inv_free s Hi h E c).
  - intros h c Hc. unfold slot. destruct (inflight s !! h) as [l|] eqn:E.
    + destruct (inv_held s Hi h l E) as (_&?&Hall). auto.
    + by destruct (inv_free s Hi h E c).
  - intros h c b Hc. by apply (inv_phase s Hi c _ Hc).
Qed.

(** ** No call is stuck *)

Definition finished (p : phase) : bool := match p with Done _ _ | Gone _ => true | _ => false end.

(** The events of the calls themselves: their awaits complete or fail. *)
Definition own (e : event) : bool :=
  match e with ERun _ | EFetched _ _ | EIoError _ => true | _ => false end.

(** A leader never waits for anyone. *)
Lemma leader_moves s h c : led s h c → ∃ e, own e = true ∧ is_Some (step s e).
Proof.
  intros (p&Hc&Hl). destruct p; try done.
  - exists (ERun c). cbn. rewrite Hc. cbn. eauto.
  - exists (EFetched c (Err ChunkStoreError.Cache)). cbn. rewrite Hc. cbn. eauto.
  - exists (ERun c). cbn. rewrite Hc. cbn. eauto.
  - exists (ERun c). cbn. rewrite Hc. cbn. eauto.
Qed.

Lemma unfinished_moves s c p :
  inv s → calls s !! c = Some p → finished p = false → ∃ e, own e = true ∧ is_Some (step s e).
Proof.
  intros Hi Hc Hp. destruct (leads p) as [h|] eqn:El; [by eapply leader_moves; exists p|].
  destruct p; try done; try (exists (ERun c); cbn; rewrite Hc; cbn; by eauto).
  destruct (inflight s !! h) as [l|] eqn:E; [|by destruct (inv_free s Hi h E c)].
  destruct (inv_held s Hi h l E) as (_&[c' ?]&_). by eapply leader_moves.
Qed.

(** *** How long the calls can go on *)

Definition weight (f : phase → nat) (m : gmap nat phase) : nat :=
  map_fold (fun _ p acc => f p + acc) 0 m.

Lemma weight_insert f m c p : m !! c = None → weight f (<[c := p]> m) = f p + weight f m.
Proof. intros H. unfold weight. rewrite map_fold_insert_L; [done|lia|done]. Qed.

Lemma weight_delete f m c p : m !! c = Some p → weight f m = f p + weight f (delete c m).
Proof.
  intros H. rewrite <- (insert_delete_id m c p H) at 1. apply weight_insert, lookup_delete_eq.
Qed.

Lemma weight_update f m c p p' :
  m !! c = Some p → weight f (<[c := p']> m) + f p = weight f m + f p'.
Proof.
  intros H. rewrite (weight_delete f m c p H), (weight_delete f (<[c := p']> m) c p').
  - rewrite delete_insert_eq. lia.
  - apply lookup_insert_eq.
Qed.

(** Pointwise change by at most [k]. *)
Lemma weight_le f k m m' :
  (∀ c, match m !! c, m' !! c with
        | Some p, Some p' => f p' ≤ f p + k
        | None, None => True
        | _, _ => False
        end) → weight f m' ≤ weight f m + k * size m.
Proof.
  revert m'. induction m as [|c p m Hc IH] using map_ind; intros m' Hall.
  - assert (m' = ∅) as ->; [|lia]. apply map_eq. intros c. specialize (Hall c).
    rewrite lookup_empty in *. by destruct (m' !! c).
  - pose proof (Hall c) as H. rewrite lookup_insert_eq in H. destruct (m' !! c) as [p'|] eqn:E; [|done].
    rewrite (weight_delete f m' c p' E), weight_insert, map_size_insert_None by done.
    enough (weight f (delete c m') ≤ weight f m + k * size m) by lia. apply IH. intros c'. specialize (Hall c').
    destruct (decide (c' = c)) as [->|Hne]; [by rewrite Hc, lookup_delete_eq|].
    by rewrite lookup_insert_ne, lookup_delete_ne in * by done.
Qed.

(** The awaits a call has left at most, if it is not sent back. *)
Definition rank (p : phase) : nat :=
  match p with
  | Fast _ | Dropped _ => 8
  | Join _ => 7
  | Look _ => 6
  | Fetch _ => 5
  | Persist _ _ => 4
  | Persisted _ _ => 3
  | Wait _ => 2
  | Sent _ _ => 1
  | Done _ _ | Gone _ => 0
  end.

(** A leader that fails sends its waiters back but ends itself, which counts
    for [k], more than all of that. *)
Definition cost (k : nat) (p : phase) : nat := if finished p then 0 else k + rank p.

Lemma size_notify h q l m : size (notify h q l m) = size m.
Proof.
  unfold notify. revert m. induction l as [|x l IH]; intros m; cbn [fold_left]; [done|].
  rewrite IH. case_bool_decide; [|done]. by rewrite map_size_insert_Some by by eexists.
Qed.

Lemma goto_cost k s c p p' :
  calls s !! c = Some p → cost k p' < cost k p →
  weight (cost k) (calls (goto c p' s)) < weight (cost k) (calls s) ∧
  size (calls (goto c p' s)) = size (calls s).
Proof.
  intros Hc Hlt. cbn. pose proof (weight_update (cost k) (calls s) c p p' Hc).
  rewrite map_size_insert_Some by by eexists. lia.
Qed.

Lemma release_cost k s c h q p p' :
  calls s !! c = Some p → leads p = Some h → q ≠ Wait h → finished p' = true →
  6 * size (calls s) ≤ k →
  weight (cost k) (calls (release c h q p' s)) < weight (cost k) (calls s) ∧
  size (calls (release c h q p' s)) = size (calls s).
Proof.
  intros Hc Hl Hq Hp' Hk. cbn. set (m := notify h q (slot s h) (calls s)).
  assert (Hm : m !! c = Some p).
  { unfold m. rewrite lookup_notify by done. rewrite bool_decide_eq_false_2; [done|].
    intros [E _]. rewrite Hc in E. by simplify_eq. }
  pose proof (weight_update (cost k) m c p p' Hm) as Hu.
  assert (Hle : weight (cost k) m ≤ weight (cost k) (calls s) + 6 * size (calls s)).
  { apply weight_le. intros c'. unfold m. rewrite lookup_notify by done.
    case_bool_decide as Hb; [|destruct (calls s !! c'); lia]. destruct Hb as [-> _].
    unfold cost. cbn. destruct (finished q), q; cbn; lia. }
  rewrite map_size_insert_Some by by eexists. unfold m at 2. rewrite size_notify.
  unfold cost in Hu at 2 4. rewrite Hp' in Hu. destruct p; cbn in *; simplify_eq; lia.
Qed.

Lemma own_cost k s e s' :
  own e = true → step s e = Some s' → 6 * size (calls s) ≤ k →
  weight (cost k) (calls s') < weight (cost k) (calls s) ∧ size (calls s') = size (calls s).
Proof.
  intros He Hs Hk.
  destruct e as [|c|c r|c| | |]; try done; cbn in Hs; apply bind_Some in Hs as (p&Hc&Hs).
  - destruct p; cbn in Hs; simplify_eq; try (apply (goto_cost k _ c _ _ Hc); cbn; lia).
    + apply (goto_cost k _ c _ _ Hc). destruct (disk s !! h); cbn; lia.
    + apply (goto_cost k (s <| inflight := <[h := slot s h ++ [c]]> (inflight s) |>) c _ _ Hc).
      case_bool_decide; cbn; lia.
    + destruct (disk s !! h); [by apply (release_cost k _ c _ _ _ _ Hc)|].
      apply (goto_cost k (s <| fetches := <[h := S (default 0 (fetches s !! h))]> (fetches s) |>)
        c _ (Fetch h) Hc). cbn. lia.
    + by apply (release_cost k _ c _ _ _ _ Hc).
  - destruct p; simplify_eq. unfold fetched. destruct (verify h r).
    + apply (goto_cost k _ c _ _ Hc). cbn. lia.
    + by apply (release_cost k _ c _ _ _ _ Hc).
  - destruct p; cbn in Hs; simplify_eq; try (apply (goto_cost k _ c _ _ Hc); cbn; lia).
    by apply (release_cost k _ c _ _ _ _ Hc).
Qed.

Lemma own_bounded k es s s' :
  forallb own es = true → run es s = Some s' → 6 * size (calls s) ≤ k →
  length es ≤ weight (cost k) (calls s).
Proof.
  revert s. induction es as [|e es IH]; intros s Ho Hr Hk; cbn; [lia|].
  cbn in Ho, Hr. bool_prop. apply bind_Some in Hr as (s1&Hs&Hr).
  destruct (own_cost k s e s1) as [Hlt Hsz]; try done.
  specialize (IH s1 ltac:(done) Hr ltac:(lia)). lia.
Qed.

Lemma weight_bound k m : weight (cost k) m ≤ (k + 8) * size m.
Proof.
  induction m as [|c p m Hc IH] using map_ind.
  { unfold weight. rewrite map_fold_empty. lia. }
  rewrite weight_insert, map_size_insert_None by done.
  assert (cost k p ≤ k + 8) by (unfold cost; destruct p; cbn; lia). lia.
Qed.

(** C19. No call of the single flight is ever stuck, also after cancelled and
    failed leaders.  In every reachable state with n calls, as long as some
    call has neither returned nor been dropped, one of the calls can take a
    step; and the calls can take at most (6n + 8)n steps in all, whether their
    fetches and file operations succeed or fail.  So every call returns. *)
Theorem singleflight_no_wedge d es s es' s' :
  (∀ h b, d !! h = Some b → sha256 b = h) → run es (init d) = Some s →
  forallb own es' = true → run es' s = Some s' →
  let n := size (calls s) in
  length es' ≤ (6 * n + 8) * n ∧
  ((∀ e, own e = true → step s' e = None) →
   ∀ c p, calls s' !! c = Some p → finished p = true).
Proof.
  intros Hd Hrun Ho Hrun' n. split.
  - etrans; [by eapply (own_bounded (6 * n))|]. apply weight_bound.
  - intros Hstuck c p Hc. destruct (finished p) eqn:Hp; [done|].
    assert (Hi : inv s') by (eapply flight_inv; [eapply flight_inv; [by apply init_inv|]|]; done).
    destruct (unfinished_moves s' c p Hi Hc Hp) as (e&He&[x Hx]). by rewrite Hstuck in Hx.
Qed.

(** ** One fetch per chunk *)

(** Events without faults: no file error, cancellation or eviction, and fetches
    that return the chunk's bytes. *)
Definition good (s : t) (e : event) : Prop :=
  match e with
  | EIoError _ | ECancel _ | EEvict _ => False
  | EFetched c r =>
      match calls s !! c with Some (Fetch h) => is_ok (verify h r) = true | _ => True end
  | _ => True
  end.

Fixpoint good_run (es : list event) (s : t) : Prop :=
  match es with
  | [] => True
  | e :: es' => good s e ∧ match step s e with Some s' => good_run es' s' | None => True end
  end.

(** The hash whose file a call is about to bring. *)
Definition fills (p : phase) : option ChunkHash :=
  match p with Fetch h | Persist h _ => Some h | _ => None end.

Definition count (s : t) (h : ChunkHash) : nat := default 0 (fetches s !! h).

Record collapsed (d : gmap (list N) bytes) (s : t) : Prop := {
  col_old h : is_Some (d !! h) → count s h = 0 ∧ is_Some (disk s !! h);
  col_one h : count s h ≤ 1;
  col_new h : count s h ≠ 0 → is_Some (disk s !! h) ∨ ∃ c, calls s !! c ≫= fills = Some h;
}.

Lemma collapsed_keep d s s' :
  collapsed d s → fetches s' = fetches s →
  (∀ h, is_Some (disk s !! h) → is_Some (disk s' !! h)) →
  (∀ c h, calls s !! c ≫= fills = Some h →
          is_Some (disk s' !! h) ∨ calls s' !! c ≫= fills = Some h) →
  collapsed d s'.
Proof.
  intros [Ho H1 Hn] Hf Hd Hc.
  assert (Hcount : ∀ h, count s' h = count s h) by (intros; unfold count; by rewrite Hf).
  split; intros h; rewrite Hcount; [naive_solver|done|].
  intros [?|[c Hc']]%Hn; [auto|]. destruct (Hc _ _ Hc'); [auto|]. right. by exists c.
Qed.

Lemma collapsed_goto d s c p' :
  collapsed d s → (∀ h, calls s !! c ≫= fills = Some h → fills p' = Some h) →
  collapsed d (goto c p' s).
Proof.
  intros Hs Hp. eapply (collapsed_keep d s); try done. intros c' h Hc'. right.
  rewrite lookup_goto. case_decide; [subst; cbn; auto|done].
Qed.

Lemma collapsed_release d s c h q p' :
  collapsed d s → q ≠ Wait h → calls s !! c ≫= fills = None → collapsed d (release c h q p' s).
Proof.
  intros Hs Hq Hp. eapply (collapsed_keep d s); try done. intros c' h' Hc'. right. cbn.
  rewrite lookup_insert_ne by congruence. rewrite lookup_notify by done.
  case_bool_decide as Hw; [|done]. destruct Hw as [E _]. by rewrite E in Hc'.
Qed.

Lemma collapsed_disk d s h b :
  collapsed d s → collapsed d (s <| disk := <[h := b]> (disk s) |>).
Proof.
  intros Hs. eapply (collapsed_keep d s); try done; [|auto].
  intros h' Hh'. cbn. apply lookup_insert_is_Some'. auto.
Qed.

(** The leader that finds no file is the first to fetch. *)
Lemma collapsed_fetch d s c h :
  inv s → collapsed d s → calls s !! c = Some (Look h) → disk s !! h = None →
  collapsed d (goto c (Fetch h) s <| fetches ::= fun m => <[h := S (default 0 (m !! h))]> m |>).
Proof.
  intros Hi [Ho H1 Hn] Hc Hd. set (s' := goto _ _ _).
  assert (Hz : count s h = 0).
  { destruct (decide (count s h = 0)) as [?|Hne]; [done|]. exfalso.
    destruct (Hn h Hne) as [[? ?]|[c' Hc']]; [congruence|].
    apply bind_Some in Hc' as (p&Hp&Hfp). assert (c' = c) as ->; [|by simplify_eq].
    apply (inv_one s Hi h); [|by eexists]. exists p. split; [done|]. by destruct p; simplify_eq. }
  assert (Hcount : ∀ h', count s' h' = if decide (h' = h) then 1 else count s h').
  { intros h'. unfold count. cbn. case_decide; subst; [|by rewrite lookup_insert_ne].
    rewrite lookup_insert_eq. unfold count in Hz. cbn. by rewrite Hz. }
  split; intros h'; rewrite Hcount; case_decide as Hh; subst.
  - intros H%Ho. exfalso. rewrite Hd in H. by destruct H as [_ []].
  - apply Ho.
  - done.
  - apply H1.
  - intros _. right. exists c. unfold s'. cbn. by rewrite lookup_insert_eq.
  - intros [?|[c' Hc']]%Hn; [by left|]. right. exists c'. unfold s'. cbn.
    rewrite lookup_insert_ne; [done|]. intros ->. by rewrite Hc in Hc'.
Qed.

Lemma step_collapsed d s e s' :
  inv s → collapsed d s → good s e → step s e = Some s' → collapsed d s'.
Proof.
  intros Hi Hs Hg. destruct e as [c h|c|c r|c|c|h|h b]; cbn [step good] in *; try done.
  - destruct (calls s !! c) eqn:Hc; [done|]. intros [= <-]. apply collapsed_goto; [done|].
    by rewrite Hc.
  - intros (p&Hc&Hr)%bind_Some. destruct p; cbn [run_call] in Hr; simplify_eq;
      try (apply collapsed_goto; [done|by rewrite Hc]).
    + apply (collapsed_goto d (s <| inflight := <[h := slot s h ++ [c]]> (inflight s) |>)).
      * by eapply (collapsed_keep d s); auto.
      * cbn. by rewrite Hc.
    + destruct (disk s !! h) eqn:E; [|by apply collapsed_fetch].
      apply collapsed_release; [done|done|by rewrite Hc].
    + eapply (collapsed_keep d s); try done.
      * intros h' Hh'. cbn. apply lookup_insert_is_Some'. auto.
      * intros c' h' Hc'. rewrite lookup_goto. case_decide; [|by right]. left. subst.
        rewrite Hc in Hc'. cbn in Hc'. simplify_eq. cbn. rewrite lookup_insert_eq. by eexists.
    + apply collapsed_release; [done|done|by rewrite Hc].
  - intros (p&Hc&Hr)%bind_Some. rewrite Hc in Hg. destruct p; simplify_eq. unfold fetched.
    destruct (verify h r); [|done]. apply collapsed_goto; [done|]. by rewrite Hc.
  - case_bool_decide; [|done]. intros [= <-]. by apply collapsed_disk.
Qed.

(** Concurrent misses collapse into one fetch: without faults, however many
    calls run and however they interleave, the fetch closure of a chunk is
    called at most once, and never if the chunk was on disk at the start. *)
Theorem singleflight_collapses d es s h :
  (∀ h b, d !! h = Some b → sha256 b = h) → run es (init d) = Some s → good_run es (init d) →
  count s h ≤ 1 ∧ (is_Some (d !! h) → count s h = 0).
Proof.
  intros Hd. enough (Hgen : ∀ s0, inv s0 → collapsed d s0 → run es s0 = Some s → good_run es s0 →
    collapsed d s).
  { intros Hr Hg. destruct (Hgen (init d)) as [Ho H1 _]; try done; [by apply init_inv| |naive_solver].
    split; unfold count; cbn; intros; rewrite ?lookup_empty in *; naive_solver. }
  induction es as [|e es IH]; cbn; intros s0 Hi Hc; [by intros [= <-]|].
  intros (s1&H1&H2)%bind_Some. rewrite H1. intros [Hg Hgs].
  eauto using step_inv, step_collapsed.
Qed.

End step.

(** ** Witnesses *)

(** Three calls of one chunk; the first leads, is cancelled during its fetch,
    and one of the others leads next. *)
Definition demo_bytes : bytes := [7; 8; 9]%N.
Definition demo_hash : ChunkHash := Manifest.toy_hash demo_bytes.
Definition demo_events : list event :=
  [ECall 0 demo_hash; ECall 1 demo_hash; ECall 2 demo_hash;
   ERun 0; ERun 1; ERun 2; ERun 0; ERun 1; ERun 2;
   ERun 0; ECancel 0; ERun 1; ERun 2; ERun 1; ERun 2].
Definition demo_rest : list event :=
  [ERun 1; EFetched 1 (Ok demo_bytes); ERun 1; ERun 1; ERun 2].
Definition demo_state : t := default (init ∅) (run Manifest.toy_hash demo_events (init ∅)).
Definition demo_final : t := default (init ∅) (run Manifest.toy_hash demo_rest demo_state).

Lemma singleflight_safe_witness :
  led demo_state demo_hash 1 ∧ calls demo_state !! 2 = Some (Wait demo_hash) ∧
  2 ∈ slot demo_state demo_hash.
Proof.
  destruct (singleflight_safe Manifest.toy_hash ∅ demo_events demo_state) as (_&_&H&_).
  - intros h b Hb. discriminate Hb.
  - vm_compute. reflexivity.
  - split; [exists (Look demo_hash); split; vm_compute; reflexivity|].
    assert (Hw : calls demo_state !! 2 = Some (Wait demo_hash)) by (vm_compute; reflexivity).
    split; [exact Hw|]. apply (H _ _ Hw).
Defined.

Lemma singleflight_no_wedge_witness :
  length demo_rest ≤ 78 ∧ calls demo_final !! 2 = Some (Done demo_hash (Ok demo_bytes)).
Proof.
  split; [|vm_compute; reflexivity].
  destruct (singleflight_no_wedge Manifest.toy_hash ∅ demo_events demo_state demo_rest demo_final)
    as [H _].
  - intros h b Hb. discriminate Hb.
  - vm_compute. reflexivity.
  - vm_compute. reflexivity.
  - vm_compute. reflexivity.
  - exact H.
Defined.

Lemma singleflight_collapses_witness :
  let es := [ECall 0 demo_hash; ECall 1 demo_hash; ERun 0; ERun 1; ERun 0; ERun 1; ERun 0;
             EFetched 0 (Ok demo_bytes); ERun 0; ERun 0; ERun 1] in
  let s := default (init ∅) (run Manifest.toy_hash es (init ∅)) in
  count s demo_hash ≤ 1 ∧ calls s !! 1 = Some (Done demo_hash (Ok demo_bytes)).
Proof.
  intros es s.
  destruct (singleflight_collapses Manifest.toy_hash ∅ es s demo_hash) as [H _].
  - intros h b Hb. discriminate Hb.
  - vm_compute. reflexivity.
  - vm_compute. repeat split.
  - split; [exact H|vm_compute; reflexivity].
Defined.

End Flight.
