(* ===== verification/Gc.v ===== *)
(** * Chunk garbage collection

    [engram-chunk-store/src/gc.rs] (the pin set: every chunk a live metadata
    row refers to) and the promote pass of
    [engram-coordinator/src/chunk_gc.rs] (the deletion of expired candidates).
    Both are programs over the metadata store, the object store and the clock;
    nothing is assumed about what happens between two requests.  Fetches and
    deletes the code keeps in flight together are made one after the other. *)

From S2P Require Import Prelude Text Manifest MetaTypes.

Module Gc.

(** ** Requests *)

(** The pin sources read as a list of references. *)
Inductive source : Type :=
| EnabledDisk      (* [list_enabled_image_disk_manifest_ids] *)
| SnapshotMemory   (* [list_recoverable_snapshot_memory_manifests] *)
| BaseMemory       (* [list_enabled_image_base_snapshot_memory_manifests] *)
| BaseDisk         (* [list_enabled_image_base_snapshot_disk_manifests] *)
| ColdBase.        (* [cold_base_manifest_refs] *)

Inductive req : Type → Type :=
| Refs (s : source) : req (result (list ManifestRef) MetaError)
| SnapshotDisk : req (result (list (option ManifestRef * option ManifestRef)) MetaError)
| Generation : req (result N MetaError)
| ListExpired (cutoff : DateTime) (lo hi : bytes) (limit : Z) : req (result (list ChunkHash) MetaError)
| DeleteCandidates (hs : list ChunkHash) : req (result unit MetaError)
| GetManifest (r : ManifestRef) : req (result Manifest.t ChunkStoreError.t)
| BlobDelete (key : string) : req (result unit BlobError.t)
| NowUtc : req DateTime
| NowMono : req Duration.

Inductive prog (A : Type) : Type :=
| Ret (a : A)
| Do {X : Type} (q : req X) (k : X → prog A).
Arguments Ret {A} a.
Arguments Do {A X} q k.

#[export] Instance prog_ret : MRet prog := fun A a => Ret a.
#[export] Instance prog_bind : MBind prog := fun A B f =>
  fix go (p : prog A) : prog B :=
    match p with
    | Ret a => f a
    | Do q k => Do q (fun x => go (k x))
    end.

Definition ask {X} (q : req X) : prog X := Do q Ret.

(** [GcError], and code that returns it. *)
Inductive GcError : Type :=
| Meta (e : MetaError)
| Store (e : ChunkStoreError.t).

Notation async A := (prog (result A GcError)) (only parsing).

Definition try_ {A B} (p : async A) (f : A → async B) : async B :=
  r ← p; match r with Ok a => f a | Err e => Ret (Err e) end.
Definition okay {A} (a : A) : async A := Ret (Ok a).
Definition meta {A} (q : req (result A MetaError)) : async A :=
  r ← ask q; Ret (match r with Ok a => Ok a | Err e => Err (Meta e) end).
Definition store {A} (q : req (result A ChunkStoreError.t)) : async A :=
  r ← ask q; Ret (match r with Ok a => Ok a | Err e => Err (Store e) end).

Notation "'do!' x ':=' p 'in' k" := (try_ p (fun x => k))
  (at level 10, x pattern, p at level 100, k at level 200) : rust_scope.

(** ** The pin set *)

Definition SHARD_SPACE : nat := 256.

(** A set of enabled shards, [[bool; 256]]. *)
Notation shards := (list bool) (only parsing).

Definition ALL_SHARDS : shards := replicate SHARD_SPACE true.

(** [shards[hash.as_bytes()[0] as usize]]. *)
Definition in_shards (sh : shards) (h : ChunkHash) : bool :=
  match h with b :: _ => default false (sh !! N.to_nat b) | [] => false end.

Definition shard_hash_bounds (shard : N) : bytes * bytes :=
  (shard :: replicate 31 0%N,
   if (shard =? 255)%N then replicate 33 255%N else (shard + 1)%N :: replicate 31 0%N).

Definition collect_manifest_refs : async (gset ManifestRef) :=
  do! enabled := meta (Refs EnabledDisk) in
  do! snaps := meta SnapshotDisk in
  do! mem := meta (Refs SnapshotMemory) in
  do! base_mem := meta (Refs BaseMemory) in
  do! base_disk := meta (Refs BaseDisk) in
  do! cold := meta (Refs ColdBase) in
  okay (list_to_set enabled ∪ (list_to_set (omap fst snaps) ∪ list_to_set (omap snd snaps)) ∪
        list_to_set mem ∪ list_to_set base_mem ∪ list_to_set base_disk ∪ list_to_set cold).

Definition fold_chunks (sh : shards) (m : Manifest.t) (chunks : gset (list N)) : gset (list N) :=
  list_to_set (List.filter (in_shards sh) (hash <$> Manifest.chunks m)) ∪ chunks.

Fixpoint fetch_into (sh : shards) (refs : list ManifestRef) (chunks : gset (list N)) :
    async (gset (list N)) :=
  match refs with
  | [] => okay chunks
  | r :: refs' =>
      do! m := store (GetManifest r) in
      fetch_into sh refs' (fold_chunks sh m chunks)
  end.

Record PinSetCollection := MkCollection {
  pin_set : gset (list N);
  rounds : nat;
  converged : bool;
}.

(** The loop; [left] is [max_rounds - rounds], which is positive. *)
Fixpoint collect_loop (sh : shards) (left : nat) (fetched : gset ManifestRef)
    (chunks : gset (list N)) (rounds : nat) : async PinSetCollection :=
  match left with
  | O => okay (MkCollection chunks rounds false)
  | S left' =>
      do! refs := collect_manifest_refs in
      let new := elements (refs ∖ fetched) in
      if bool_decide (new = []) then okay (MkCollection chunks rounds true)
      else
        do! chunks := fetch_into sh new chunks in
        let fetched := fetched ∪ list_to_set new in
        if (left' =? 0)%nat then okay (MkCollection chunks (S rounds) false)
        else collect_loop sh left' fetched chunks (S rounds)
  end.

Definition collect_converging_for_shards (max_rounds : nat) (sh : shards) : async PinSetCollection :=
  collect_loop sh (Nat.max max_rounds 1) ∅ ∅ 0.

(** ** The promote pass *)

(** The fields of [ChunkGcConfig] it reads. *)
Record ChunkGcConfig := MkConfig {
  grace_period : Duration;
  max_restart_attempts : nat;
  promote_budget : Duration;
  promote_batch_size : Z;
}.

Definition collect_pin_set (cfg : ChunkGcConfig) (sh : shards) : async (gset (list N)) :=
  do! c := collect_converging_for_shards (max_restart_attempts cfg) sh in okay (pin_set c).

Definition tick_shards (start_shard : nat) (count : nat) : list nat * shards :=
  let count := Nat.min (Nat.max count 1) SHARD_SPACE in
  let list := (fun i => (start_shard + i) mod SHARD_SPACE) <$> seq 0 count in
  (list, (fun i => bool_decide (i ∈ list)) <$> seq 0 SHARD_SPACE).

(** The counters and the hashes whose candidate rows can go. *)
Record Batch := MkBatch {
  b_deleted : nat; b_repinned : nat; b_errors : nat; b_resolved : list ChunkHash;
}.
#[export] Instance Batch_eta : Eta Batch :=
  fun b => MkBatch (b_deleted b) (b_repinned b) (b_errors b) (b_resolved b).

Fixpoint delete_all (hs : list ChunkHash) (b : Batch) : prog Batch :=
  match hs with
  | [] => Ret b
  | h :: hs' =>
      r ← ask (BlobDelete (ChunkHash.storage_key h));
      match r with
      | Ok _ => delete_all hs' (b <| b_resolved ::= fun l => l ++ [h] |> <| b_deleted ::= S |>)
      | Err _ => delete_all hs' (b <| b_errors ::= S |>)
      end
  end.

Definition promote_batch (pins : gset (list N)) (expired : list ChunkHash) : prog Batch :=
  let rescued := List.filter (fun h => bool_decide (h ∈ pins)) expired in
  let to_delete := List.filter (fun h => negb (bool_decide (h ∈ pins))) expired in
  delete_all to_delete (MkBatch 0 (length rescued) 0 rescued).

(** What the drain carries: the pin set, its generation and the counters. *)
Record Drain := MkDrain {
  pins : gset (list N); pin_gen : N; deleted : nat; repinned : nat; errors : nat;
}.
#[export] Instance Drain_eta : Eta Drain :=
  fun d => MkDrain (pins d) (pin_gen d) (deleted d) (repinned d) (errors d).

(** How a shard's loop ends: on to the next shard, out of all of them, or cut
    by the number of batches. *)
Inductive exit : Type := NextShard | BreakShards | Cut.

Definition refresh (cfg : ChunkGcConfig) (mask : shards) (d : Drain) : async Drain :=
  do! gen_now := meta Generation in
  if (gen_now =? pin_gen d)%N then okay d
  else
    do! ps := collect_pin_set cfg mask in
    do! g := meta Generation in
    okay (d <| pins := ps |> <| pin_gen := g |>).

Fixpoint drain_shard (fuel : nat) (cfg : ChunkGcConfig) (mask : shards) (cutoff : DateTime)
    (deadline : Duration) (shard : nat) (d : Drain) : async (exit * Drain) :=
  match fuel with
  | O => okay (Cut, d)
  | S fuel' =>
      let '(lo, hi) := shard_hash_bounds (N.of_nat shard) in
      now ← ask NowMono;
      if bool_decide (deadline ≤ now)%Z then okay (BreakShards, d)
      else
        do! expired := meta (ListExpired cutoff lo hi (promote_batch_size cfg)) in
        if bool_decide (expired = []) then okay (NextShard, d)
        else
          do! d := refresh cfg mask d in
          b ← promote_batch (pins d) expired;
          do! _ := meta (DeleteCandidates (b_resolved b)) in
          let d := d <| deleted ::= Nat.add (b_deleted b) |>
                     <| repinned ::= Nat.add (b_repinned b) |>
                     <| errors ::= Nat.add (b_errors b) |> in
          if bool_decide (b_resolved b = []) then okay (BreakShards, d)
          else if bool_decide (Z.of_nat (length expired) < promote_batch_size cfg)%Z
          then okay (NextShard, d)
          else drain_shard fuel' cfg mask cutoff deadline shard d
  end.

Fixpoint drain_shards (fuel : nat) (cfg : ChunkGcConfig) (mask : shards) (cutoff : DateTime)
    (deadline : Duration) (shard_list : list nat) (d : Drain) : async Drain :=
  match shard_list with
  | [] => okay d
  | shard :: rest =>
      do! (e, d) := drain_shard fuel cfg mask cutoff deadline shard d in
      match e with
      | NextShard => drain_shards fuel cfg mask cutoff deadline rest d
      | BreakShards | Cut => okay d
      end
  end.

(** [chrono::Duration::from_std(grace).unwrap_or_else(|_| one day)]. *)
Definition grace (d : Duration) : Duration :=
  if decide (d ≤ i64_max * 1000000)%Z then d else (86400 * 1000000000)%Z.

Definition promote_expired (fuel : nat) (cfg : ChunkGcConfig) (shard_list : list nat) (mask : shards) :
    async Drain :=
  now ← ask NowUtc;
  mono ← ask NowMono;
  let deadline := (mono + promote_budget cfg)%Z in
  let cutoff := (now - grace (grace_period cfg))%Z in
  do! ps := collect_pin_set cfg mask in
  do! g := meta Generation in
  drain_shards fuel cfg mask cutoff deadline shard_list (MkDrain ps g 0 0 0).

(** ** Runs *)

(** A request and its answer; a history has the latest first. *)
Inductive event : Type :=
| Ev {X : Type} (q : req X) (x : X).

(** A program makes its next request and gets any answer. *)
Inductive pstep {A} : list event * prog A → list event * prog A → Prop :=
| ps_do l {X} (q : req X) k x : pstep (l, Do q k) (Ev q x :: l, k x).

(** The event is somewhere in the list, by unification. *)
Ltac find_event := first [apply list_elem_of_here | apply list_elem_of_further; find_event].

(** The requests of a collection. *)
Definition is_read {X} (q : req X) : bool :=
  match q with Refs _ | SnapshotDisk | GetManifest _ => true | _ => false end.

Section logic.
Context (allowed : event → Prop) (guar : ∀ X, list event → req X → Prop).

(** From history [l], program [p] only makes requests within [guar] and ends
    within [Φ], if the answers are [allowed]. *)
Fixpoint wp {A} (l : list event) (p : prog A) (Φ : list event → A → Prop) : Prop :=
  match p with
  | Ret a => Φ l a
  | Do q k => guar _ l q ∧ ∀ x, allowed (Ev q x) → wp (Ev q x :: l) (k x) Φ
  end.

(** Every request of a history was within [guar] when it was made. *)
Fixpoint respected (l : list event) : Prop :=
  match l with
  | [] => True
  | Ev q _ :: l' => guar _ l' q ∧ respected l'
  end.

Lemma gwp_mono {A} l (p : prog A) (Φ Ψ : list event → A → Prop) :
  wp l p Φ → (∀ l' a, Φ l' a → Ψ l' a) → wp l p Ψ.
Proof.
  revert l. induction p as [a|X q k IH]; intros l; cbn; [auto|].
  intros [Hg Hk] H. split; [done|]. intros x Hx. by eapply IH; [apply Hk|].
Qed.

Lemma gwp_bind {A B} l (p : prog A) (f : A → prog B) Φ :
  wp l p (fun l' a => wp l' (f a) Φ) → wp l (p ≫= f) Φ.
Proof.
  revert l. induction p as [a|X q k IH]; intros l; [done|].
  cbn. intros [Hg Hk]. split; [done|]. intros x Hx. apply IH, Hk, Hx.
Qed.

Lemma gwp_ask {X} l (q : req X) Φ :
  guar _ l q → (∀ x, allowed (Ev q x) → Φ (Ev q x :: l) x) → wp l (ask q) Φ.
Proof. by split. Qed.

Lemma gwp_try {A B} l (p : async A) (f : A → async B) Φ :
  wp l p (fun l' r => match r with Ok a => wp l' (f a) Φ | Err e => Φ l' (Err e) end) →
  wp l (try_ p f) Φ.
Proof. intros H. apply gwp_bind. eapply gwp_mono; [exact H|]. by intros l' []. Qed.

Lemma gwp_meta {A} l (q : req (result A MetaError)) (Φ : list event → result A GcError → Prop) :
  guar _ l q →
  (∀ a, allowed (Ev q (Ok a)) → Φ (Ev q (Ok a) :: l) (Ok a)) →
  (∀ l' e, Φ l' (Err e)) → wp l (meta q) Φ.
Proof. intros Hg Ha He. split; [done|]. intros [a|e] Hx; cbn; auto. Qed.

Lemma gwp_store {A} l (q : req (result A ChunkStoreError.t)) (Φ : list event → result A GcError → Prop) :
  guar _ l q →
  (∀ a, allowed (Ev q (Ok a)) → Φ (Ev q (Ok a) :: l) (Ok a)) →
  (∀ l' e, Φ l' (Err e)) → wp l (store q) Φ.
Proof. intros Hg Ha He. split; [done|]. intros [a|e] Hx; cbn; auto. Qed.

Lemma gwp_sound {A} (p p' : prog A) l Φ :
  rtc pstep ([], p) (l, p') → Forall allowed l → wp [] p Φ → respected l ∧ wp l p' Φ.
Proof.
  intros Hsteps Hl Hwp.
  enough (H : ∀ s s', rtc pstep s s' → Forall allowed s'.1 → respected s.1 → wp s.1 s.2 Φ →
    respected s'.1 ∧ wp s'.1 s'.2 Φ) by (by apply (H _ _ Hsteps)).
  clear. intros s s' Hsteps. induction Hsteps as [|s1 s2 s3 [l X q k x] Hs IH]; [done|].
  intros Hl Hr [Hg Hk]. apply IH; cbn; [done|by split|]. apply Hk.
  assert (Hsub : ∃ l', s3.1 = l' ++ Ev q x :: l).
  { clear -Hs. remember (Ev q x :: l, k x) as s eqn:E.
    assert (H0 : s.1 = [] ++ Ev q x :: l) by (by subst). clear E. revert H0.
    generalize (@nil event). induction Hs as [s|s s' s'' [l0 Y q' k' x'] _ IH]; intros l0' H0; [by exists l0'|].
    cbn in H0. subst l0. apply (IH (Ev q' x' :: l0')). done. }
  destruct Hsub as [l' E]. rewrite E, Forall_app, Forall_cons in Hl. tauto.
Qed.

(** ** What a collected pin set holds *)

(** The references an answer reports. *)
Definition reported (e : event) : list ManifestRef :=
  match e with
  | @Ev X q x =>
      match q in req Y return Y → list ManifestRef with
      | Refs _ => fun r => match r with Ok rs => rs | Err _ => [] end
      | SnapshotDisk => fun r => match r with Ok ps => omap fst ps ++ omap snd ps | Err _ => [] end
      | _ => fun _ => []
      end x
  end.

(** Manifest [m] has been folded into [c]. *)
Definition covered (sh : shards) (m : Manifest.t) (c : gset (list N)) : Prop :=
  ∀ x, x ∈ Manifest.chunks m → in_shards sh (hash x) = true → hash x ∈ c.

Definition fetched_in (ev : list event) (sh : shards) (c : gset (list N)) (r : ManifestRef) : Prop :=
  ∃ m, Ev (GetManifest r) (Ok m) ∈ ev ∧ covered sh m c.

(** Every hash comes from a manifest that was read. *)
Definition grounded (ev : list event) (sh : shards) (c : gset (list N)) : Prop :=
  ∀ h, h ∈ c → in_shards sh h = true ∧
    ∃ r m x, Ev (GetManifest r) (Ok m) ∈ ev ∧ x ∈ Manifest.chunks m ∧ hash x = h.

(** Every source has been asked. *)
Definition asked_all (ev : list event) : Prop :=
  (∀ s, ∃ rs, Ev (Refs s) (Ok rs) ∈ ev) ∧ ∃ ps, Ev SnapshotDisk (Ok ps) ∈ ev.

(** The pin set of the reads [ev]. *)
Definition collected (ev : list event) (sh : shards) (c : gset (list N)) : Prop :=
  asked_all ev ∧ (∀ e r, e ∈ ev → r ∈ reported e → fetched_in ev sh c r) ∧ grounded ev sh c.

Hypothesis reads_ok : ∀ X (q : req X) l, is_read q = true → guar _ l q.

Lemma elem_of_fold_chunks sh m c h :
  h ∈ fold_chunks sh m c ↔
  (in_shards sh h = true ∧ ∃ x, x ∈ Manifest.chunks m ∧ hash x = h) ∨ h ∈ c.
Proof.
  unfold fold_chunks. rewrite elem_of_union, elem_of_list_to_set, elem_of_filterb, list_elem_of_fmap.
  naive_solver.
Qed.

Lemma fetched_in_mono ev ev' sh c c' r :
  fetched_in ev sh c r → (∀ e, e ∈ ev → e ∈ ev') → c ⊆ c' → fetched_in ev' sh c' r.
Proof. intros (m&Hm&Hc) He Hs. exists m. split; [auto|]. intros x Hx Hin. apply Hs. by apply Hc. Qed.

Lemma grounded_mono ev ev' sh c :
  grounded ev sh c → (∀ e, e ∈ ev → e ∈ ev') → grounded ev' sh c.
Proof. intros H He h Hh. destruct (H h Hh) as (?&r&m&x&?&?&?). split; [done|]. exists r, m, x. auto. Qed.

Lemma collect_refs_spec l (Φ : list event → _ → Prop) :
  (∀ ev refs, asked_all ev → (∀ e r, e ∈ ev → r ∈ reported e → r ∈ refs) →
    (∀ r, r ∈ refs → ∃ e, e ∈ ev ∧ r ∈ reported e) → Φ (ev ++ l) (Ok refs)) →
  (∀ l' e, Φ l' (Err e)) → wp l collect_manifest_refs Φ.
Proof.
  intros Hok He. unfold collect_manifest_refs.
  do 6 (apply gwp_try, gwp_meta; [by apply reads_ok| |auto]; intros ? _).
  cbn. match goal with |- Φ (?e1 :: ?e2 :: ?e3 :: ?e4 :: ?e5 :: ?e6 :: l) _ =>
    apply (Hok [e1; e2; e3; e4; e5; e6]) end.
  - split; [intros []; eexists|eexists]; find_event.
  - intros e r. rewrite !elem_of_cons, elem_of_nil.
    intros [->|[->|[->|[->|[->|[->|[]]]]]]]; cbn; set_solver.
  - intros r Hr. rewrite !elem_of_union, !elem_of_list_to_set in Hr.
    destruct Hr as [[[[[H|H]|H]|H]|H]|H];
      [exists (Ev (Refs EnabledDisk) (Ok a))|exists (Ev SnapshotDisk (Ok a0))
      |exists (Ev (Refs SnapshotMemory) (Ok a1))|exists (Ev (Refs BaseMemory) (Ok a2))
      |exists (Ev (Refs BaseDisk) (Ok a3))|exists (Ev (Refs ColdBase) (Ok a4))];
      (split; [find_event|cbn; rewrite ?elem_of_app; tauto]).
Qed.

Lemma fetch_into_spec l sh refs c (Φ : list event → _ → Prop) :
  (∀ ev c', c ⊆ c' → (∀ r, r ∈ refs → fetched_in ev sh c' r) →
    (∀ e, e ∈ ev → reported e = []) →
    (∀ ev0, grounded ev0 sh c → grounded (ev ++ ev0) sh c') → Φ (ev ++ l) (Ok c')) →
  (∀ l' e, Φ l' (Err e)) → wp l (fetch_into sh refs c) Φ.
Proof.
  intros Hok He. revert l c Hok. induction refs as [|r refs IH]; intros l c Hok; cbn [fetch_into].
  { apply (Hok [] c); [done|set_solver..]. }
  apply gwp_try, gwp_store; [by apply reads_ok| |auto]. intros m _.
  apply IH. intros ev c' Hc Hf Hrep Hg.
  assert (Hsub : c ⊆ fold_chunks sh m c) by (intros h; rewrite elem_of_fold_chunks; auto).
  specialize (Hok (ev ++ [Ev (GetManifest r) (Ok m)]) c'). rewrite <- app_assoc in Hok. apply Hok.
  - set_solver.
  - intros r' [->|Hr']%elem_of_cons.
    + exists m. split; [set_solver|]. intros x Hx Hin. apply Hc, elem_of_fold_chunks. eauto.
    + eapply fetched_in_mono; [by apply Hf|set_solver|done].
  - intros e [?| ->%list_elem_of_singleton]%elem_of_app; auto.
  - intros ev0 Hg0. rewrite <- app_assoc. apply Hg. intros h Hh. apply elem_of_fold_chunks in Hh.
    destruct Hh as [[Hin (x&Hx&<-)]|Hh].
    + split; [done|]. exists r, m, x. set_solver.
    + destruct (Hg0 h Hh) as (?&r'&m'&x'&?&?&?). split; [done|]. exists r', m', x'. set_solver.
Qed.

Lemma collect_loop_spec sh left l ev0 F c n (Φ : list event → _ → Prop) :
  (0 < left)%nat →
  (∀ r, r ∈ F → fetched_in ev0 sh c r) →
  (∀ e r, e ∈ ev0 → r ∈ reported e → r ∈ F) →
  grounded ev0 sh c →
  (∀ ev k, collected ev sh (pin_set k) → rounds k ≤ n + left → Φ (ev ++ l) (Ok k)) →
  (∀ l' e, Φ l' (Err e)) →
  wp (ev0 ++ l) (collect_loop sh left F c n) Φ.
Proof.
  revert ev0 F c n. induction left as [|left IH]; intros ev0 F c n Hleft HF Hrep Hg Hok He; [lia|].
  cbn [collect_loop]. apply gwp_try, collect_refs_spec; [|auto]. intros ev1 refs Hall Hin Hout.
  assert (Hdiff : ∀ r, r ∈ refs → r ∈ F ∨ r ∈ elements (refs ∖ F)).
  { intros r Hr. rewrite elem_of_elements, elem_of_difference. destruct (decide (r ∈ F)); auto. }
  case_bool_decide as Hnew.
  - rewrite app_assoc. apply Hok; [|cbn; lia]. split; [|split].
    + destruct Hall as [H1 (ps&H2)]. split; [intros s; destruct (H1 s) as [rs Hrs]; exists rs|exists ps];
        apply elem_of_app; auto.
    + intros e r [He1|He0]%elem_of_app Hr.
      * destruct (Hdiff r (Hin _ _ He1 Hr)) as [?|H]; [|rewrite Hnew in H; by apply not_elem_of_nil in H].
        eapply fetched_in_mono; [by apply HF|intros; apply elem_of_app; auto|done].
      * eapply fetched_in_mono; [apply HF; eauto|intros; apply elem_of_app; auto|done].
    + eapply grounded_mono; [done|]. intros; apply elem_of_app; auto.
  - apply gwp_try, fetch_into_spec; [|auto]. intros ev2 c' Hsub Hf Hnr Hgr.
    set (ev := ev2 ++ ev1 ++ ev0).
    assert (Hev : ev2 ++ ev1 ++ ev0 ++ l = ev ++ l) by (unfold ev; by rewrite !app_assoc).
    rewrite Hev.
    assert (HF' : ∀ r, r ∈ F ∪ list_to_set (elements (refs ∖ F)) → fetched_in ev sh c' r).
    { intros r [Hr|Hr]%elem_of_union.
      - eapply fetched_in_mono; [by apply HF| |done]. intros e ?. unfold ev. rewrite !elem_of_app. auto.
      - apply elem_of_list_to_set in Hr. eapply fetched_in_mono; [by apply Hf| |done].
        intros e ?. unfold ev. rewrite !elem_of_app. auto. }
    assert (Hrep' : ∀ e r, e ∈ ev → r ∈ reported e → r ∈ F ∪ list_to_set (elements (refs ∖ F))).
    { intros e r. unfold ev. rewrite !elem_of_app, elem_of_union, elem_of_list_to_set.
      intros [H2|[H1|H0]] Hr; [rewrite (Hnr e H2) in Hr; by apply not_elem_of_nil in Hr| |eauto].
      apply Hdiff. eauto. }
    assert (Hg' : grounded ev sh c').
    { apply Hgr. eapply grounded_mono; [done|]. intros; apply elem_of_app; auto. }
    destruct left as [|left']; cbn [Nat.eqb].
    + apply Hok; [|cbn; lia]. split; [|split; [|done]].
      * destruct Hall as [H1 (ps&H2)]. unfold ev.
        split; [intros s; destruct (H1 s) as [rs Hrs]; exists rs|exists ps]; rewrite !elem_of_app; auto.
      * intros e r He' Hr. apply HF'. eauto.
    + apply IH; try done; [lia|]. intros ev' k Hk Hr. apply Hok; [done|lia].
Qed.

Lemma collect_spec l sh n (Φ : list event → _ → Prop) :
  (∀ ev k, collected ev sh (pin_set k) → rounds k ≤ Nat.max n 1 → Φ (ev ++ l) (Ok k)) →
  (∀ l' e, Φ l' (Err e)) → wp l (collect_converging_for_shards n sh) Φ.
Proof.
  intros Hok He. unfold collect_converging_for_shards.
  apply (collect_loop_spec sh _ l [] ∅ ∅ 0); try done; [lia|set_solver..].
Qed.

End logic.

(** A collected pin set is exactly what the collection read, in every round
    and whatever was published or dropped meanwhile: every source was asked,
    every reference any answer reported had its manifest read and all of its
    chunks in the tick's shards are pinned, and nothing else is; it takes at
    most the allowed rounds. *)
Theorem pinset_exact n sh l k :
  rtc pstep ([], collect_converging_for_shards n sh) (l, Ret (Ok k)) →
  collected l sh (pin_set k) ∧ rounds k ≤ Nat.max n 1.
Proof.
  intros Hsteps.
  destruct (gwp_sound (fun _ => True) (fun _ _ _ => True) _ _ _
    (fun l r => match r with Ok k => collected l sh (pin_set k) ∧ rounds k ≤ Nat.max n 1
                           | Err _ => True end) Hsteps) as [_ H].
  - by apply Forall_true.
  - apply collect_spec; [done| |done]. intros ev k' Hk Hr. by rewrite app_nil_r.
  - exact H.
Qed.

(** ** The shards of a tick *)

(** [Ord] of byte slices. *)
Fixpoint bytes_ltb (a b : bytes) : bool :=
  match a, b with
  | _, [] => false
  | [], _ :: _ => true
  | x :: a', y :: b' => (x <? y)%N || ((x =? y)%N && bytes_ltb a' b')
  end.

(** [h >= lo && h < hi]. *)
Definition in_range (lo hi h : bytes) : bool := negb (bytes_ltb h lo) && bytes_ltb h hi.

Lemma bytes_ltb_zeros t : bytes_ltb t (replicate (length t) 0%N) = false.
Proof.
  induction t as [|x t IH]; [done|]. cbn. rewrite IH, andb_false_r, orb_false_r.
  apply N.ltb_ge. lia.
Qed.

Lemma bytes_ltb_ones t :
  Forall (fun b => b < 256)%N t → bytes_ltb t (replicate (S (length t)) 255%N) = true.
Proof.
  induction 1 as [|x t Hx _ IH]; [done|]. cbn [length]. rewrite replicate_S. cbn [bytes_ltb].
  rewrite IH, andb_true_r. apply orb_true_iff. rewrite N.ltb_lt, N.eqb_eq. lia.
Qed.

(** The bounds of a shard select exactly the hashes of its first byte. *)
Lemma shard_bounds shard h :
  (shard < 256)%N → wf_hash h →
  in_range (shard_hash_bounds shard).1 (shard_hash_bounds shard).2 h = true ↔ head h = Some shard.
Proof.
  intros Hs [Hl Hb]. destruct h as [|b t]; [done|]. cbn in Hl. assert (Ht : length t = 31) by lia.
  apply Forall_cons in Hb as [Hb Hbt]. unfold in_range, shard_hash_bounds. cbn [fst snd head].
  change (bytes_ltb (b :: t) (shard :: replicate 31 0%N)) with
    ((b <? shard)%N || ((b =? shard)%N && bytes_ltb t (replicate 31 0%N))).
  pose proof (bytes_ltb_zeros t) as Hz. rewrite Ht in Hz. rewrite Hz, andb_false_r, orb_false_r.
  destruct (N.eqb_spec shard 255) as [->|Hne].
  - pose proof (bytes_ltb_ones (b :: t) ltac:(by constructor)) as Ho. cbn [length] in Ho.
    rewrite Ht in Ho. rewrite Ho, andb_true_r, negb_true_iff, N.ltb_ge.
    split; [intros; f_equal; lia|by intros [= ->]].
  - change (bytes_ltb (b :: t) ((shard + 1)%N :: replicate 31 0%N)) with
      ((b <? shard + 1)%N || ((b =? shard + 1)%N && bytes_ltb t (replicate 31 0%N))).
    rewrite Hz, andb_false_r, orb_false_r, andb_true_iff, negb_true_iff, N.ltb_ge, N.ltb_lt.
    split; [intros [? ?]; f_equal; lia|intros [= ->]; lia].
Qed.

Lemma tick_shards_mask start count shard :
  shard ∈ (tick_shards start count).1 →
  (shard < SHARD_SPACE)%nat ∧ (tick_shards start count).2 !! shard = Some true.
Proof.
  intros Hs. assert (Hlt : (shard < SHARD_SPACE)%nat).
  { unfold tick_shards in Hs. cbn [fst] in Hs. apply list_elem_of_fmap in Hs as (i&->&_).
    apply Nat.mod_upper_bound. done. }
  split; [done|]. unfold tick_shards. cbn [snd]. rewrite list_lookup_fmap, lookup_seq_lt by done.
  cbn [fmap option_fmap option_map]. f_equal. by apply bool_decide_eq_true_2.
Qed.

(** ** The promote pass *)

Section promote.
Context (cfg : ChunkGcConfig) (mask : shards).

(** [h] was listed as a candidate for at least the grace period. *)
Definition listed (l : list event) (h : ChunkHash) : Prop :=
  ∃ now lo hi n hs, Ev NowUtc now ∈ l ∧
    Ev (ListExpired (now - grace (grace_period cfg))%Z lo hi n) (Ok hs) ∈ l ∧ h ∈ hs.

(** [c] is the pin set of a stretch of the history. *)
Definition justified (l : list event) (c : gset (list N)) : Prop :=
  ∃ l1 ev l2, l = l1 ++ ev ++ l2 ∧ collected ev mask c.

(** A manifest the history read has [h]. *)
Definition referenced (l : list event) (h : ChunkHash) : Prop :=
  ∃ r m x, Ev (GetManifest r) (Ok m) ∈ l ∧ x ∈ Manifest.chunks m ∧ hash x = h.

(** What each write of the pass needs to have seen. *)
Definition promote_guar X (l : list event) (q : req X) : Prop :=
  match q with
  | BlobDelete k => ∃ h c, k = ChunkHash.storage_key h ∧ wf_hash h ∧ in_shards mask h = true ∧
                           listed l h ∧ justified l c ∧ h ∉ c
  | DeleteCandidates hs =>
      ∀ h, h ∈ hs → listed l h ∧
        (Ev (BlobDelete (ChunkHash.storage_key h)) (Ok tt) ∈ l ∨ referenced l h)
  | _ => True
  end.

(** A range read answers with 32-byte hashes of the range. *)
Definition range_read (e : event) : Prop :=
  match e with
  | @Ev X q x =>
      match q in req Y return Y → Prop with
      | ListExpired _ lo hi _ =>
          fun r => match r with
                   | Ok hs => ∀ h, h ∈ hs → wf_hash h ∧ in_range lo hi h = true
                   | Err _ => True end
      | _ => fun _ => True
      end x
  end.

Notation wp := (wp range_read promote_guar).

Lemma justified_app l l' c : justified l c → justified (l' ++ l) c.
Proof. intros (l1&ev&l2&->&?). exists (l' ++ l1), ev, l2. by rewrite <- app_assoc. Qed.

Lemma listed_app l l' h : listed l h → listed (l' ++ l) h.
Proof. intros (now&lo&hi&n&hs&?&?&?). exists now, lo, hi, n, hs. rewrite !elem_of_app. auto. Qed.

Lemma referenced_app l l' h : referenced l h → referenced (l' ++ l) h.
Proof. intros (r&m&x&?&?&?). exists r, m, x. rewrite elem_of_app. auto. Qed.

Lemma justified_referenced l c h : justified l c → h ∈ c → referenced l h.
Proof.
  intros (l1&ev&l2&->&_&_&Hg) Hh. destruct (Hg h Hh) as (_&r&m&x&?&?&?). exists r, m, x.
  rewrite !elem_of_app. auto.
Qed.

Lemma collect_pin_set_spec l (Φ : list event → _ → Prop) :
  (∀ ev c, justified (ev ++ l) c → Φ (ev ++ l) (Ok c)) → (∀ l' e, Φ l' (Err e)) →
  wp l (collect_pin_set cfg mask) Φ.
Proof.
  intros Hok He. unfold collect_pin_set. apply gwp_try, collect_spec; [by intros X []| |auto].
  intros ev k Hk _. apply Hok. by exists [], ev, l.
Qed.

Lemma delete_all_spec hs l b (Φ : list event → Batch → Prop) :
  (∀ h ev, h ∈ hs → promote_guar _ (ev ++ l) (BlobDelete (ChunkHash.storage_key h))) →
  (∀ ev b', (∀ h, h ∈ b_resolved b' → h ∈ b_resolved b ∨
               h ∈ hs ∧ Ev (BlobDelete (ChunkHash.storage_key h)) (Ok tt) ∈ ev) →
            Φ (ev ++ l) b') →
  wp l (delete_all hs b) Φ.
Proof.
  revert l b. induction hs as [|h hs IH]; intros l b Hg Hok; cbn [delete_all].
  { apply (Hok []). auto. }
  apply gwp_bind, gwp_ask; [apply (Hg h []); set_solver|]. intros r _.
  set (e := Ev _ _).
  assert (Hg' : ∀ h' ev, h' ∈ hs →
    promote_guar _ (ev ++ e :: l) (BlobDelete (ChunkHash.storage_key h'))).
  { intros h' ev Hh'. rewrite (cons_middle e ev l), app_assoc. apply Hg. set_solver. }
  destruct r as [[]|err]; apply IH; try done; intros ev b' Hb';
    rewrite (cons_middle e ev l), app_assoc; apply Hok; intros h' Hh'; apply Hb' in Hh';
    rewrite elem_of_cons, elem_of_app.
  - change (b_resolved _) with (b_resolved b ++ [h]) in Hh'.
    rewrite elem_of_app, list_elem_of_singleton in Hh'. destruct Hh' as [[?|Hh']|[? ?]]; [auto| |auto].
    subst h'. right. split; [auto|]. right. by apply list_elem_of_singleton.
  - change (b_resolved (b <| b_errors ::= S |>)) with (b_resolved b) in Hh'. tauto.
Qed.

Lemma refresh_spec l d (Φ : list event → _ → Prop) :
  justified l (pins d) → (∀ ev d', justified (ev ++ l) (pins d') → Φ (ev ++ l) (Ok d')) →
  (∀ l' e, Φ l' (Err e)) → wp l (refresh cfg mask d) Φ.
Proof.
  intros Hj Hok He. unfold refresh. apply gwp_try, gwp_meta; [done| |auto]. intros g _.
  destruct (g =? pin_gen d)%N.
  - apply (Hok [_]). by apply (justified_app l [_]).
  - apply gwp_try, collect_pin_set_spec; [|auto]. intros ev c Hc.
    apply gwp_try, gwp_meta; [done| |auto]. intros g' _.
    set (e := Ev _ (Ok g')) in *. set (e0 := Ev _ _) in *.
    replace (e :: ev ++ e0 :: l) with ((e :: ev ++ [e0]) ++ l) by (cbn; by rewrite <- app_assoc).
    apply Hok. cbn. rewrite <- app_assoc. by apply (justified_app (ev ++ e0 :: l) [e]).
Qed.

(** The candidates of a shard the tick covers, listed under the cutoff, are
    deleted only when the current pin set does not have them. *)
Lemma promote_batch_spec l c hs (Φ : list event → Batch → Prop) :
  justified l c →
  (∀ h, h ∈ hs → wf_hash h ∧ in_shards mask h = true ∧ listed l h) →
  (∀ ev b, promote_guar _ (ev ++ l) (DeleteCandidates (b_resolved b)) → Φ (ev ++ l) b) →
  wp l (promote_batch c hs) Φ.
Proof.
  intros Hj Hhs Hok. unfold promote_batch. apply delete_all_spec.
  - intros h ev [Hh Hc]%elem_of_filterb. bool_prop. destruct (Hhs h Hh) as (?&?&?).
    exists h, c. do 3 (split; [done|]). split; [by apply listed_app|].
    split; [by apply justified_app|done].
  - intros ev b Hb. apply Hok. intros h Hh. destruct (Hb h Hh) as [Hr|[Hd He]].
    + cbn in Hr. apply elem_of_filterb in Hr as [Hh' Hin]. bool_prop. destruct (Hhs h Hh') as (?&?&?).
      split; [by apply listed_app|]. right. apply referenced_app. by eapply justified_referenced.
    + apply elem_of_filterb in Hd as [Hh' _]. destruct (Hhs h Hh') as (?&?&?).
      split; [by apply listed_app|]. left. apply elem_of_app. auto.
Qed.

Lemma drain_shard_spec now deadline shard fuel l d (Φ : list event → _ → Prop) :
  (shard < SHARD_SPACE)%nat → mask !! shard = Some true →
  Ev NowUtc now ∈ l → justified l (pins d) →
  (∀ ev e d', justified (ev ++ l) (pins d') → Φ (ev ++ l) (Ok (e, d'))) →
  (∀ l' e, Φ l' (Err e)) →
  wp l (drain_shard fuel cfg mask (now - grace (grace_period cfg)) deadline shard d) Φ.
Proof.
  intros Hs Hm. revert l d.
  induction fuel as [|fuel IH]; intros l d Hnow Hj Hok He; cbn [drain_shard].
  { by apply (Hok []). }
  destruct (shard_hash_bounds (N.of_nat shard)) as [lo hi] eqn:Eb.
  apply gwp_bind, gwp_ask; [done|]. intros mono _. set (e1 := Ev NowMono mono).
  case_bool_decide; [by apply (Hok [e1]), (justified_app l [e1])|].
  apply gwp_try, gwp_meta; [done| |auto]. intros hs Hrange. set (e2 := Ev _ (Ok hs)).
  case_bool_decide as Hnil; [by apply (Hok [e2; e1]), (justified_app l [e2; e1])|].
  apply gwp_try, refresh_spec; [by apply (justified_app l [e2; e1])| |auto].
  intros ev d1 Hj1. apply gwp_bind, promote_batch_spec; [done| |].
  { intros h Hh. destruct (Hrange h Hh) as [Hwf Hin]. split; [done|]. split.
    - assert (Hhead : head h = Some (N.of_nat shard)).
      { apply shard_bounds; [unfold SHARD_SPACE in Hs; lia|done|]. by rewrite Eb. }
      destruct h as [|b t]; [done|]. cbn in Hhead. simplify_eq. cbn. by rewrite Nat2N.id, Hm.
    - apply listed_app. exists now, lo, hi, (promote_batch_size cfg), hs.
      split; [by do 2 apply list_elem_of_further|]. split; [find_event|done]. }
  intros ev' b Hdel. apply gwp_try, gwp_meta; [done| |auto]. intros [] _. set (e3 := Ev _ (Ok tt)).
  set (d2 := setter _ _ _).
  replace (e3 :: ev' ++ ev ++ e2 :: e1 :: l) with ((e3 :: ev' ++ ev ++ [e2; e1]) ++ l)
    by (cbn; by rewrite <- !app_assoc).
  assert (Hj2 : justified ((e3 :: ev' ++ ev ++ [e2; e1]) ++ l) (pins d2)).
  { cbn. rewrite <- !app_assoc. by apply (justified_app _ (e3 :: ev')). }
  case_bool_decide; [by apply Hok|]. case_bool_decide; [by apply Hok|].
  apply IH; [by apply elem_of_app; right|done| |done].
  intros ev'' e d' Hj'. rewrite app_assoc in *. by apply Hok.
Qed.

Lemma drain_shards_spec now deadline fuel shard_list l d (Φ : list event → _ → Prop) :
  (∀ s, s ∈ shard_list → (s < SHARD_SPACE)%nat ∧ mask !! s = Some true) →
  Ev NowUtc now ∈ l → justified l (pins d) → (∀ l' r, Φ l' r) →
  wp l (drain_shards fuel cfg mask (now - grace (grace_period cfg)) deadline shard_list d) Φ.
Proof.
  intros Hs Hnow Hj HΦ. revert l d Hnow Hj.
  induction shard_list as [|s ss IH]; intros l d Hnow Hj; [apply HΦ|].
  cbn [drain_shards]. destruct (Hs s) as [Hlt Hm]; [set_solver|].
  apply gwp_try, drain_shard_spec; [done|done|done|done| |auto]. intros ev [] d' Hj'; [|apply HΦ..].
  apply IH; [set_solver|by apply elem_of_app; right|done].
Qed.

Lemma promote_expired_spec fuel shard_list :
  (∀ s, s ∈ shard_list → (s < SHARD_SPACE)%nat ∧ mask !! s = Some true) →
  wp [] (promote_expired fuel cfg shard_list mask) (fun _ _ => True).
Proof.
  intros Hs. unfold promote_expired. apply gwp_bind, gwp_ask; [done|]. intros now _.
  apply gwp_bind, gwp_ask; [done|]. intros mono _.
  apply gwp_try, collect_pin_set_spec; [|done]. intros ev c Hc.
  apply gwp_try, gwp_meta; [done| |done]. intros g _. set (e := Ev Generation _).
  apply drain_shards_spec; [done| |by apply (justified_app _ [e])|done].
  apply list_elem_of_further, elem_of_app. right. find_event.
Qed.

Lemma respected_split l1 X (q : req X) x l2 :
  respected promote_guar (l1 ++ Ev q x :: l2) → promote_guar X l2 q.
Proof. induction l1 as [|[Y q' x'] l1 IH]; cbn; [tauto|]. intros [_ H]. auto. Qed.

(** Every run of the pass respects the guarantee. *)
Lemma promote_respects fuel shard_list l p :
  (∀ s, s ∈ shard_list → (s < SHARD_SPACE)%nat ∧ mask !! s = Some true) →
  rtc pstep ([], promote_expired fuel cfg shard_list mask) (l, p) → Forall range_read l →
  respected promote_guar l.
Proof.
  intros Hs Hsteps Hl. by destruct (gwp_sound _ _ _ _ _ _ Hsteps Hl (promote_expired_spec fuel _ Hs)).
Qed.

Lemma delete_justified l1 h x l2 :
  wf_hash h → respected promote_guar (l1 ++ Ev (BlobDelete (ChunkHash.storage_key h)) x :: l2) →
  in_shards mask h = true ∧ listed l2 h ∧ ∃ c, justified l2 c ∧ h ∉ c.
Proof.
  intros Hwf Hr. apply respected_split in Hr as (h'&c&Hk&Hwf'&Hin&Hl&Hj&Hc).
  assert (h' = h) as -> by (by apply ChunkHash.storage_key_inj). eauto.
Qed.

End promote.

(** The promote pass never writes without cause.  Whatever the metadata
    store, the object store and the clock answer and whatever changes between
    two requests, as long as a range read stays in its range: an object is
    deleted only if its chunk was listed as a candidate older than the grace
    period and a complete collection before the delete does not pin it; and a
    candidate row is cleared only if its object's deletion succeeded or a
    manifest that was read refers to it. *)
Theorem gc_promote_justified fuel cfg start count l p :
  let '(shard_list, mask) := tick_shards start count in
  rtc pstep ([], promote_expired fuel cfg shard_list mask) (l, p) → Forall range_read l →
  (∀ l1 h x l2, l = l1 ++ Ev (BlobDelete (ChunkHash.storage_key h)) x :: l2 → wf_hash h →
     in_shards mask h = true ∧ listed cfg l2 h ∧ ∃ c, justified mask l2 c ∧ h ∉ c) ∧
  (∀ l1 hs x l2 h, l = l1 ++ Ev (DeleteCandidates hs) x :: l2 → h ∈ hs →
     listed cfg l2 h ∧
     (Ev (BlobDelete (ChunkHash.storage_key h)) (Ok tt) ∈ l2 ∨ referenced l2 h)).
Proof.
  destruct (tick_shards start count) as [shard_list mask] eqn:E. intros Hsteps Hl.
  assert (Hr : respected (promote_guar cfg mask) l).
  { eapply promote_respects; [|done|done]. intros s Hs.
    pose proof (tick_shards_mask start count s) as H. rewrite E in H. by apply H. }
  split.
  - intros l1 h x l2 -> Hwf. by eapply delete_justified.
  - intros l1 hs x l2 h -> Hh. apply respected_split in Hr. by apply Hr.
Qed.

(** The answers of one pin source; [None] is the snapshots' disk and swap. *)
Definition answers_source (s : option source) (e : event) : Prop :=
  match s with
  | Some s => ∃ rs, e = Ev (Refs s) (Ok rs)
  | None => ∃ ps, e = Ev SnapshotDisk (Ok ps)
  end.

(** C20. Garbage collection keeps what stays pinned: if one and the same pin
    source reports a manifest in every answer during a promote pass, and every
    read of that manifest has the chunk, the pass does not even ask to delete
    the chunk, whatever else happens meanwhile. *)
Theorem gc_keeps_pinned fuel cfg start count l p s r h x :
  let '(shard_list, mask) := tick_shards start count in
  rtc pstep ([], promote_expired fuel cfg shard_list mask) (l, p) → Forall range_read l →
  wf_hash h →
  (∀ e, e ∈ l → answers_source s e → r ∈ reported e) →
  (∀ m, Ev (GetManifest r) (Ok m) ∈ l → ∃ c, c ∈ Manifest.chunks m ∧ hash c = h) →
  Ev (BlobDelete (ChunkHash.storage_key h)) x ∉ l.
Proof.
  destruct (tick_shards start count) as [shard_list mask] eqn:E. intros Hsteps Hl Hwf Hpin Hman Hin.
  assert (Hr : respected (promote_guar cfg mask) l).
  { eapply promote_respects; [|done|done]. intros s' Hs'.
    pose proof (tick_shards_mask start count s') as H. rewrite E in H. by apply H. }
  apply list_elem_of_split in Hin as (l1&l2&->).
  destruct (delete_justified _ _ _ _ _ _ Hwf Hr) as (Hsh&_&c&(k1&ev&k2&->&Hall&Hrep&_)&Hc).
  assert (Hsub : ∀ e, e ∈ ev → e ∈ l1 ++ Ev (BlobDelete (ChunkHash.storage_key h)) x :: k1 ++ ev ++ k2)
    by (intros; rewrite elem_of_app, elem_of_cons, !elem_of_app; tauto).
  assert (He : ∃ e, e ∈ ev ∧ answers_source s e).
  { destruct Hall as [H1 (ps&H2)]. destruct s as [s|]; [|eexists; split; [exact H2|by exists ps]].
    destruct (H1 s) as [rs Hrs]. eexists. split; [exact Hrs|by exists rs]. }
  destruct He as (e&He&Hs). destruct (Hrep e r He) as (m&Hm&Hcov); [by apply Hpin; auto|].
  destruct (Hman m) as (y&Hy&<-); [by apply Hsub|]. by apply Hc, Hcov.
Qed.

(** ** Concrete runs *)

(** [GcCandidate] and its table's methods in the simulated store. *)
Record GcCandidate := MkCandidate { first_seen_at : DateTime; last_seen_at : DateTime }.

#[export] Instance KeyOrd_bytes : KeyOrd (list N) := fun a b => negb (bytes_ltb b a).

Definition list_expired_gc_candidates_in_range (cutoff : DateTime) (lo hi : bytes) (limit : Z)
    (t : gmap (list N) GcCandidate) : list ChunkHash :=
  take (Z.to_nat limit)
    (List.filter (fun h => match t !! h with
                           | Some c => bool_decide (first_seen_at c < cutoff)%Z && in_range lo hi h
                           | None => false end) (keys t)).

Definition delete_gc_candidates (hs : list ChunkHash) (t : gmap (list N) GcCandidate) :
    gmap (list N) GcCandidate := fold_left (fun t h => delete h t) hs t.

Record GcWorld := MkGcWorld {
  w_refs : source → list ManifestRef;
  w_gen : N;
  w_candidates : gmap (list N) GcCandidate;
  w_manifests : gmap ManifestRef Manifest.t;
  w_objects : gset string;
  w_now : DateTime;
}.
#[export] Instance GcWorld_eta : Eta GcWorld := fun w =>
  MkGcWorld (w_refs w) (w_gen w) (w_candidates w) (w_manifests w) (w_objects w) (w_now w).

Definition serve {X} (w : GcWorld) (q : req X) : X * GcWorld :=
  match q with
  | Refs s => (Ok (w_refs w s), w)
  | SnapshotDisk => (Ok [], w)
  | Generation => (Ok (w_gen w), w)
  | ListExpired cutoff lo hi n =>
      (Ok (list_expired_gc_candidates_in_range cutoff lo hi n (w_candidates w)), w)
  | DeleteCandidates hs => (Ok tt, w <| w_candidates ::= delete_gc_candidates hs |>)
  | GetManifest r =>
      (match w_manifests w !! r with Some m => Ok m
                                   | None => Err (ChunkStoreError.Blob BlobError.NotFound) end, w)
  | BlobDelete k => (Ok tt, w <| w_objects := w_objects w ∖ {[k]} |>)
  | NowUtc => (w_now w, w)
  | NowMono => (0%Z, w)
  end.

(** A run without faults; the n-th change of [env] comes before the n-th
    request. *)
Fixpoint run {A} (env : list (GcWorld → GcWorld)) (p : prog A) (l : list event) (w : GcWorld) :
    list event * A * GcWorld :=
  match p with
  | Ret a => (l, a, w)
  | Do q k =>
      let w := match env with f :: _ => f w | [] => w end in
      let '(x, w') := serve w q in
      run (tl env) (k x) (Ev q x :: l) w'
  end.

Lemma run_steps {A} env (p : prog A) l w :
  let '(l', a, _) := run env p l w in rtc pstep (l, p) (l', Ret a).
Proof.
  revert env l w. induction p as [a|X q k IH]; intros env l w; [constructor|]. cbn [run].
  destruct (serve _ q) as [x w'].
  specialize (IH x (tl env) (Ev q x :: l) w'). destruct (run _ (k x) _ w') as [[l' a] w''].
  eapply rtc_l; [constructor|exact IH].
Qed.

Definition range_readb (e : event) : bool :=
  match e with
  | @Ev X q x =>
      match q in req Y return Y → bool with
      | ListExpired _ lo hi _ =>
          fun r => match r with
                   | Ok hs => forallb (fun h => bool_decide (wf_hash h) && in_range lo hi h) hs
                   | Err _ => true end
      | _ => fun _ => true
      end x
  end.

Lemma range_readb_sound l : forallb range_readb l = true → Forall range_read l.
Proof.
  induction l as [|e l IH]; cbn; [done|]. intros [He Hl]%andb_true_iff.
  constructor; [|by apply IH]. destruct e as [X q x]. destruct q; try done. cbn in *.
  destruct x; [|done]. rewrite forallb_forall in He. intros h Hh.
  apply list_elem_of_In, He, andb_true_iff in Hh as [Hw Hr]. split; [|done].
  by apply bool_decide_eq_true_1 in Hw.
Qed.

(** A fleet with one published manifest that refers to chunk [00..], and two
    expired candidates: that chunk and chunk [00..01]. *)
Definition demo_hash (n : N) : ChunkHash := replicate 31 0%N ++ [n].
Definition demo_ref : ManifestRef := MkRef 7 1.
Definition demo_manifest : Manifest.t :=
  (Manifest.empty Disk 16) <| Manifest.chunks := [MkChunk 0 (demo_hash 0)] |>.
Definition demo_world : GcWorld :=
  MkGcWorld (fun s => match s with BaseDisk => [demo_ref] | _ => [] end) 1
    {[demo_hash 0 := MkCandidate 0 0; demo_hash 1 := MkCandidate 0 0]}
    {[demo_ref := demo_manifest]}
    {[ChunkHash.storage_key (demo_hash 0); ChunkHash.storage_key (demo_hash 1)]}
    1000.
Definition demo_config : ChunkGcConfig := MkConfig 100 5 900 2.
Definition demo_pass (env : list (GcWorld → GcWorld)) (w : GcWorld) :=
  let '(shard_list, mask) := tick_shards 0 1 in
  run env (promote_expired 10 demo_config shard_list mask) [] w.

Definition has_object (w : GcWorld) (h : ChunkHash) : bool :=
  bool_decide (ChunkHash.storage_key h ∈ w_objects w).

(** The base-disk source reports the manifest, and the manifest has the chunk. *)
Definition demo_answer (e : event) : bool :=
  match e with
  | @Ev X q x =>
      match q in req Y return Y → bool with
      | Refs BaseDisk => fun r => match r with Ok rs => bool_decide (demo_ref ∈ rs) | Err _ => true end
      | GetManifest _ => fun r => match r with
          | Ok m => bool_decide (demo_hash 0 ∈ (hash <$> Manifest.chunks m)) | Err _ => true end
      | _ => fun _ => true
      end x
  end.

Lemma pinset_exact_witness :
  let '(l, r, _) := run [] (collect_converging_for_shards 5 ALL_SHARDS) [] demo_world in
  match r with
  | Ok k => collected l ALL_SHARDS (pin_set k) ∧ rounds k = 1 ∧ pin_set k = {[demo_hash 0]}
  | Err _ => False
  end.
Proof.
  pose proof (run_steps [] (collect_converging_for_shards 5 ALL_SHARDS) [] demo_world) as Hs.
  destruct (run [] _ [] demo_world) as [[l r] w] eqn:E.
  assert (Hr : r = Ok (MkCollection {[demo_hash 0]} 1 true)).
  { change r with ((l, r, w).1.2). rewrite <- E. vm_compute. reflexivity. }
  subst r. destruct (pinset_exact 5 ALL_SHARDS l _ Hs) as [Hc _]. split; [exact Hc|].
  split; reflexivity.
Defined.

Lemma gc_promote_justified_witness :
  let '(l, _, w) := demo_pass [] demo_world in
  has_object w (demo_hash 0) = true ∧ has_object w (demo_hash 1) = false ∧
  ∀ l1 h x l2, l = l1 ++ Ev (BlobDelete (ChunkHash.storage_key h)) x :: l2 → wf_hash h →
    listed demo_config l2 h.
Proof.
  unfold demo_pass. destruct (tick_shards 0 1) as [shard_list mask] eqn:Et.
  pose proof (run_steps [] (promote_expired 10 demo_config shard_list mask) [] demo_world) as Hs.
  destruct (run [] _ [] demo_world) as [[l r] w] eqn:E.
  assert (Hw : has_object w (demo_hash 0) = true ∧ has_object w (demo_hash 1) = false).
  { change w with ((l, r, w).2). rewrite <- E. injection Et as <- <-. split; vm_compute; reflexivity. }
  assert (Hl : forallb range_readb l = true).
  { change l with ((l, r, w).1.1). rewrite <- E. injection Et as <- <-. vm_compute. reflexivity. }
  pose proof (gc_promote_justified 10 demo_config 0 1 l (Ret r)) as H. rewrite Et in H.
  destruct (H Hs (range_readb_sound l Hl)) as [H1 _].
  split; [apply Hw|]. split; [apply Hw|]. intros l1 h x l2 Hl2 Hwf. apply (H1 l1 h x l2 Hl2 Hwf).
Defined.

(** The pinned chunk is never asked to be deleted. *)
Lemma gc_keeps_pinned_witness :
  let '(l, _, _) := demo_pass [] demo_world in
  ∀ x, Ev (BlobDelete (ChunkHash.storage_key (demo_hash 0))) x ∉ l.
Proof.
  unfold demo_pass. destruct (tick_shards 0 1) as [shard_list mask] eqn:Et.
  pose proof (run_steps [] (promote_expired 10 demo_config shard_list mask) [] demo_world) as Hs.
  destruct (run [] _ [] demo_world) as [[l r] w] eqn:E.
  assert (Hl : forallb range_readb l = true).
  { change l with ((l, r, w).1.1). rewrite <- E. injection Et as <- <-. vm_compute. reflexivity. }
  assert (Hd : forallb demo_answer l = true).
  { change l with ((l, r, w).1.1). rewrite <- E. injection Et as <- <-. vm_compute. reflexivity. }
  intros x. pose proof (gc_keeps_pinned 10 demo_config 0 1 l (Ret r) (Some BaseDisk) demo_ref
    (demo_hash 0) x) as H. rewrite Et in H. apply H.
  - exact Hs.
  - exact (range_readb_sound l Hl).
  - split; [reflexivity|]. repeat constructor.
  - intros e He [rs ->]. rewrite forallb_forall in Hd. apply list_elem_of_In, Hd in He. cbn in He.
    apply bool_decide_eq_true_1 in He. exact He.
  - intros m He. rewrite forallb_forall in Hd. apply list_elem_of_In, Hd in He. cbn in He.
    apply bool_decide_eq_true_1 in He. apply list_elem_of_fmap in He as (c&Hc&Hin).
    exists c. split; [exact Hin|]. symmetry. exact Hc.
Defined.

(** A pin published between the last read of the references and the read of
    the generation that labels the collection is not seen by the drain: the
    manifest is published, and the generation moved with it, before the pass
    reads the generation it later compares with; the manifest is still pinned
    when the pass ends; its chunk has been deleted. *)
Theorem gc_generation_race :
  let unpublished := demo_world <| w_refs := fun _ => [] |> <| w_gen := 0%N |> in
  let publish w := w <| w_refs := w_refs demo_world |> <| w_gen := 1%N |> in
  let '(l, _, w) := demo_pass (replicate 8 id ++ [publish]) unpublished in
  reverse l !! 6 = Some (Ev (Refs BaseDisk) (Ok [])) ∧
  reverse l !! 8 = Some (Ev Generation (Ok 1%N)) ∧
  w_refs w BaseDisk = [demo_ref] ∧
  (hash <$> default [] (Manifest.chunks <$> w_manifests w !! demo_ref)) = [demo_hash 0] ∧
  has_object unpublished (demo_hash 0) = true ∧ has_object w (demo_hash 0) = false.
Proof. vm_compute. do 5 (split; [reflexivity|]). reflexivity. Qed.

End Gc.
