(* ===== verification/Prog.v ===== *)
(** * Programs over external services

    Asynchronous code that talks to services it does not own: a tree of typed
    requests, each continued by its answer.  The environment decides the
    answers; a program can be cut at any request (a crash, or an await that
    never returns).  [wp] is the weakest precondition over histories: what holds
    of every request made, given what came before, and of the result. *)

From S2P Require Import Prelude.

Inductive prog (R : Type → Type) (A : Type) : Type :=
| Ret (a : A)
| Do {X : Type} (q : R X) (k : X → prog R A).
Arguments Ret {R A} a.
Arguments Do {R A X} q k.

#[export] Instance prog_ret {R} : MRet (prog R) := fun A a => Ret a.
#[export] Instance prog_bind {R} : MBind (prog R) := fun A B f =>
  fix go (p : prog R A) : prog R B :=
    match p with
    | Ret a => f a
    | Do q k => Do q (fun x => go (k x))
    end.

Definition ask {R : Type → Type} {X} (q : R X) : prog R X := Do q Ret.

(** Code that returns a [Result]: [?] is [try_]. *)
Definition try_ {R A B E} (p : prog R (result A E)) (f : A → prog R (result B E)) :
    prog R (result B E) :=
  r ← p; match r with Ok a => f a | Err e => Ret (Err e) end.

Notation "'do!' x ':=' p 'in' k" := (try_ p (fun x => k))
  (at level 10, x pattern, p at level 100, k at level 200) : rust_scope.

Definition okay {R A E} (a : A) : prog R (result A E) := Ret (Ok a).

(** A request with its error mapped. *)
Definition ask_err {R : Type → Type} {A E F} (f : E → F) (q : R (result A E)) :
    prog R (result A F) :=
  r ← ask q; Ret (match r with Ok a => Ok a | Err e => Err (f e) end).

(** ** Histories *)

Record event (R : Type → Type) := Ev { ev_ty : Type; ev_req : R ev_ty; ev_ans : ev_ty }.
Arguments Ev {R ev_ty} ev_req ev_ans.
Arguments ev_ty {R} e.
Arguments ev_req {R} e.
Arguments ev_ans {R} e.

Section wp.
Context {R : Type → Type}.

(** [ans h q x]: the environment may answer [x] to [q] after [h]. *)
Variable ans : list (event R) → ∀ X, R X → X → Prop.
(** [can h q]: what is to hold when [q] is made after [h]. *)
Variable can : list (event R) → ∀ X, R X → Prop.

Fixpoint wp {A} (h : list (event R)) (p : prog R A) (Q : list (event R) → A → Prop) : Prop :=
  match p with
  | Ret a => Q h a
  | Do q k => can h _ q ∧ ∀ x, ans h _ q x → wp (h ++ [Ev q x]) (k x) Q
  end.

Lemma wp_mono {A} h (p : prog R A) (Q Q' : _ → _ → Prop) :
  (∀ h a, Q h a → Q' h a) → wp h p Q → wp h p Q'.
Proof.
  intros HQ. revert h. induction p as [a|X q k IH]; simpl; [by auto|].
  intros h [Hc Hk]. split; auto.
Qed.

Lemma wp_bind {A B} h (p : prog R A) (f : A → prog R B) Q :
  wp h p (fun h a => wp h (f a) Q) → wp h (p ≫= f) Q.
Proof.
  revert h. induction p as [a|X q k IH]; [done|]. intros h [Hc Hk]. split; [done|].
  intros x Hx. by apply IH, Hk.
Qed.

Lemma wp_ret {A} h (a : A) (Q : _ → _ → Prop) : Q h a → wp h (Ret a) Q.
Proof. done. Qed.

Lemma wp_try {A B E} h (p : prog R (result A E)) (f : A → prog R (result B E)) Q :
  wp h p (fun h r => match r with Ok a => wp h (f a) Q | Err e => Q h (Err e) end) →
  wp h (try_ p f) Q.
Proof.
  intros H. apply wp_bind. eapply wp_mono, H. intros h' [a|e]; done.
Qed.

Lemma wp_ask {X} h (q : R X) (Q : _ → _ → Prop) :
  can h _ q → (∀ x, ans h _ q x → Q (h ++ [Ev q x]) x) → wp h (ask q) Q.
Proof. by split. Qed.

Lemma wp_ask_err {A E F} h (f : E → F) (q : R (result A E)) (Q : _ → _ → Prop) :
  can h _ q →
  (∀ x, ans h _ q x → Q (h ++ [Ev q x]) (match x with Ok a => Ok a | Err e => Err (f e) end)) →
  wp h (ask_err f q) Q.
Proof. by split. Qed.

(** A history every request of which was allowed when it was made. *)
Definition allowed (h : list (event R)) : Prop :=
  ∀ h1 e h2, h = h1 ++ e :: h2 → can h1 _ (ev_req e).

Lemma allowed_nil : allowed [].
Proof. intros h1 e h2 H. by destruct h1. Qed.

Lemma allowed_snoc h e : allowed h → can h _ (ev_req e) → allowed (h ++ [e]).
Proof.
  intros Hh He h1 e' h2 E. destruct h2 as [|e2 h2 _] using rev_ind.
  - apply app_inj_2 in E as [-> [= ->]]; done.
  - rewrite app_comm_cons, app_assoc in E. apply app_inj_2 in E as [-> _]; [|done]. by eapply Hh.
Qed.

Lemma wp_allowed {A} h (p : prog R A) Q :
  allowed h → wp h p Q → wp h p (fun h' a => allowed h' ∧ Q h' a).
Proof.
  revert h. induction p as [a|X q k IH]; intros h Hh; [done|]. intros [Hc Hk].
  split; [done|]. intros x Hx. apply IH; [by apply allowed_snoc|by apply Hk].
Qed.

(** *** Runs *)

(** [runs h p h' o]: from history [h] the program reaches [h'], finished with
    [Some a] or cut. *)
Inductive runs {A} : list (event R) → prog R A → list (event R) → option A → Prop :=
| runs_cut h p : runs h p h None
| runs_ret h a : runs h (Ret a) h (Some a)
| runs_do h X (q : R X) k x h' o :
    ans h X q x → runs (h ++ [Ev q x]) (k x) h' o → runs h (Do q k) h' o.

Lemma runs_extends {A} h (p : prog R A) h' o : runs h p h' o → ∃ t, h' = h ++ t.
Proof.
  induction 1 as [h p|h a|h X q k x h' o _ _ [t ->]].
  - exists []. by rewrite app_nil_r.
  - exists []. by rewrite app_nil_r.
  - eexists. by rewrite <- app_assoc.
Qed.

(** A run can be cut earlier. *)
Lemma runs_prefix {A} h (p : prog R A) h' o t1 t2 :
  runs h p h' o → h' = h ++ t1 ++ t2 → runs h p (h ++ t1) None.
Proof.
  intros Hr. revert t1. induction Hr as [h p|h a|h X q k x h' o Ha Hr IH]; intros t1 E.
  1,2: rewrite <- (app_nil_r h) in E at 1; apply app_inv_head in E; symmetry in E;
    apply app_eq_nil in E as [-> ->]; rewrite app_nil_r; constructor.
  destruct t1 as [|ev t1]; [rewrite app_nil_r; constructor|].
  destruct (runs_extends _ _ _ _ Hr) as [t Ht]. rewrite Ht, <- app_assoc in E.
  apply app_inv_head in E. injection E as <- E.
  replace (h ++ Ev q x :: t1) with ((h ++ [Ev q x]) ++ t1) by (by rewrite <- app_assoc).
  eapply runs_do; [done|]. apply IH. by rewrite Ht, E.
Qed.

(** Adequacy: a program whose [wp] holds makes only allowed requests, also
    when it is cut, and ends as stated. *)
Lemma wp_adequate {A} h (p : prog R A) Q h' o :
  runs h p h' o → wp h p Q → allowed h →
  allowed h' ∧ match o with Some a => Q h' a | None => True end.
Proof.
  induction 1 as [h p|h a|h X q k x h' o Ha _ IH]; simpl; [done|done|].
  intros [Hc Hk] Hh. apply IH; [by apply Hk|]. by apply allowed_snoc.
Qed.

End wp.
Arguments wp : simpl never.

(** ** Programs that make only some requests *)

Section all_req.
Context {R : Type → Type} (P : ∀ X, R X → Prop).

Fixpoint all_req {A} (p : prog R A) : Prop :=
  match p with
  | Ret _ => True
  | Do q k => P _ q ∧ ∀ x, all_req (k x)
  end.

Lemma all_req_ret {A} (a : A) : all_req (Ret a).
Proof. done. Qed.

Lemma all_req_bind {A B} (p : prog R A) (f : A → prog R B) :
  all_req p → (∀ a, all_req (f a)) → all_req (p ≫= f).
Proof.
  intros Hp Hf. induction p as [a|X q k IH]; [apply Hf|]. destruct Hp as [Hq Hk].
  split; [done|]. intros x. apply IH, Hk.
Qed.

Lemma all_req_try {A B E} (p : prog R (result A E)) (f : A → prog R (result B E)) :
  all_req p → (∀ a, all_req (f a)) → all_req (try_ p f).
Proof. intros Hp Hf. apply all_req_bind; [done|]. intros [a|e]; [apply Hf|done]. Qed.

Lemma all_req_ask {X} (q : R X) : P X q → all_req (ask q).
Proof. by split. Qed.

Lemma all_req_ask_err {A E F} (f : E → F) (q : R (result A E)) : P _ q → all_req (ask_err f q).
Proof. by split. Qed.

(** What is added to the history is requests of that sort. *)
Lemma wp_all_req {A} ans can h (p : prog R A) :
  all_req p → (∀ h X q, P X q → can h X q) →
  wp ans can h p (fun h' _ => ∃ t, h' = h ++ t ∧ Forall (fun e => P _ (ev_req e)) t).
Proof.
  intros Hp Hc. revert h. induction p as [a|X q k IH]; intros h.
  - exists []. by rewrite app_nil_r.
  - destruct Hp as [Hq Hk]. split; [by apply Hc|]. intros x _.
    eapply wp_mono, IH, Hk. intros h' a (t&->&Ht). exists (Ev q x :: t).
    rewrite <- app_assoc. split; [done|]. by constructor.
Qed.
End all_req.

Lemma all_req_mono {R : Type → Type} {A} (P P' : ∀ X, R X → Prop) (p : prog R A) :
  (∀ X q, P X q → P' X q) → all_req P p → all_req P' p.
Proof. intros HP. induction p as [a|X q k IH]; [done|]. intros [Hq Hk]. split; auto. Qed.

(** Nothing is said of the results. *)
Lemma wp_only {R : Type → Type} {A} ans (P : ∀ X, R X → Prop) h (p : prog R A)
    (Q : list (event R) → A → Prop) :
  all_req P p → (∀ h a, Q h a) → wp ans (fun _ => P) h p Q.
Proof.
  intros Hp HQ. revert h. induction p as [a|X q k IH]; intros h; [apply HQ|].
  destruct Hp as [Hq Hk]. split; auto.
Qed.

(** Two facts of one program: its requests are of a sort, and its result. *)
Lemma wp_keeps {R : Type → Type} {A} ans can (P : ∀ X, R X → Prop) h (p : prog R A) Q :
  all_req P p → wp ans can h p Q →
  wp ans can h p (fun h' a => (∃ t, h' = h ++ t ∧ Forall (fun e => P _ (ev_req e)) t) ∧ Q h' a).
Proof.
  intros Hp. revert h. induction p as [a|X q k IH]; intros h Hw.
  - split; [|done]. exists []. by rewrite app_nil_r.
  - destruct Hp as [Hq Hk], Hw as [Hc Hw]. split; [done|]. intros x Hx.
    eapply wp_mono, IH, Hw; [|apply Hk|done]. intros h' a [(t&->&Ht) HQ]. split; [|done].
    exists (Ev q x :: t). rewrite <- app_assoc. split; [done|]. by constructor.
Qed.

(** What is asked of the requests may be weakened. *)
Lemma wp_can {R : Type → Type} {A} ans (can can' : list (event R) → ∀ X, R X → Prop) h (p : prog R A) Q :
  (∀ h X q, can h X q → can' h X q) → wp ans can h p Q → wp ans can' h p Q.
Proof.
  intros Hcc. revert h. induction p as [a|X q k IH]; intros h; [done|]. intros [Hc Hk].
  split; [by apply Hcc|]. intros x Hx. by apply IH, Hk.
Qed.

(** Requests only add to the history. *)
Lemma wp_grows {R : Type → Type} {A} ans (can : list (event R) → ∀ X, R X → Prop) h (p : prog R A) Q :
  wp ans can h p Q → wp ans can h p (fun h' a => (∃ t, h' = h ++ t) ∧ Q h' a).
Proof.
  revert h. induction p as [a|X q k IH]; intros h.
  - intros HQ. split; [|done]. exists []. by rewrite app_nil_r.
  - intros [Hc Hk]. split; [done|]. intros x Hx. eapply wp_mono, IH, Hk; [|done].
    intros h' a [[t ->] HQ]. split; [|done]. eexists. by rewrite <- app_assoc.
Qed.

Create HintDb prog.
#[export] Hint Resolve all_req_ret all_req_ask all_req_ask_err : prog.

(** Split a program at its binds, matches and tests, down to its requests. *)
Ltac requests :=
  repeat first
    [ apply all_req_ret | apply all_req_try; [|intros] | apply all_req_bind; [|intros]
    | apply all_req_ask | apply all_req_ask_err
    | match goal with
      | |- all_req _ (match ?x with _ => _ end) => destruct x
      end ].

(** ** Deterministic environments *)

Section exec.
Context {R : Type → Type} {St : Type}.
(** [None]: the request is never answered. *)
Variable handle : ∀ X, R X → St → option X * St.

Fixpoint exec {A} (p : prog R A) (s : St) : option A * St :=
  match p with
  | Ret a => (Some a, s)
  | Do q k => match handle _ q s with
              | (Some x, s') => exec (k x) s'
              | (None, s') => (None, s')
              end
  end.

(** The history of the execution. *)
Fixpoint trace {A} (p : prog R A) (s : St) : list (event R) :=
  match p with
  | Ret _ => []
  | Do q k => match handle _ q s with
              | (Some x, s') => Ev q x :: trace (k x) s'
              | (None, _) => []
              end
  end.

Lemma exec_ret {A} (a : A) s : exec (Ret a) s = (Some a, s).
Proof. done. Qed.

Lemma exec_bind {A B} (p : prog R A) (f : A → prog R B) s :
  exec (p ≫= f) s =
    match exec p s with (Some a, s') => exec (f a) s' | (None, s') => (None, s') end.
Proof.
  revert s. induction p as [a|X q k IH]; intros s; [done|]. simpl.
  destruct (handle X q s) as [[x|] s']; [apply IH|done].
Qed.

Lemma exec_try {A B E} (p : prog R (result A E)) (f : A → prog R (result B E)) s :
  exec (try_ p f) s =
    match exec p s with
    | (Some (Ok a), s') => exec (f a) s'
    | (Some (Err e), s') => (Some (Err e), s')
    | (None, s') => (None, s')
    end.
Proof. unfold try_. rewrite exec_bind. by destruct (exec p s) as [[[]|] ?]. Qed.

Lemma exec_ask {X} (q : R X) s : exec (ask q) s = handle X q s.
Proof. simpl. by destruct (handle X q s) as [[x|] s']. Qed.

Lemma exec_ask_err {A E F} (f : E → F) (q : R (result A E)) s :
  exec (ask_err f q) s =
    (match (handle _ q s).1 with
     | Some (Ok a) => Some (Ok a) | Some (Err e) => Some (Err (f e)) | None => None
     end, (handle _ q s).2).
Proof. simpl. by destruct (handle _ q s) as [[[]|] s']. Qed.

(** An environment whose answers are allowed, given an invariant that ties its
    state to the history, makes an execution a run. *)
Lemma exec_runs {A} (ans : list (event R) → ∀ X, R X → X → Prop)
    (Inv : list (event R) → St → Prop) (p : prog R A) s h :
  (∀ h s X (q : R X) x s', Inv h s → handle X q s = (Some x, s') →
     ans h X q x ∧ Inv (h ++ [Ev q x]) s') →
  Inv h s →
  runs ans h p (h ++ trace p s) (exec p s).1 ∧
  ((exec p s).1 ≠ None → Inv (h ++ trace p s) (exec p s).2).
Proof.
  intros Hstep. revert s h. induction p as [a|X q k IH]; intros s h Hs; simpl.
  { rewrite app_nil_r. split; [constructor|done]. }
  destruct (handle X q s) as [[x|] s'] eqn:E; simpl; last first.
  { rewrite app_nil_r. split; [constructor|done]. }
  destruct (Hstep h s X q x s' Hs E) as [Ha Hs'].
  destruct (IH x s' (h ++ [Ev q x]) Hs') as [Hr Hi]. rewrite <- app_assoc in *. simpl in *.
  split; [|done]. by eapply runs_do.
Qed.

(** Every answer of a stretch is allowed. *)
Fixpoint all_answered (ans : list (event R) → ∀ X, R X → X → Prop) (h l : list (event R)) : Prop :=
  match l with
  | [] => True
  | e :: l => ans h _ (ev_req e) (ev_ans e) ∧ all_answered ans (h ++ [e]) l
  end.

(** An execution whose every answer is allowed is a run. *)
Lemma trace_runs {A} (ans : list (event R) → ∀ X, R X → X → Prop) (p : prog R A) s h :
  all_answered ans h (trace p s) → runs ans h p (h ++ trace p s) (exec p s).1.
Proof.
  revert s h. induction p as [a|X q k IH]; intros s h; simpl.
  { rewrite app_nil_r. constructor. }
  destruct (handle X q s) as [[x|] s'] eqn:E; [|rewrite app_nil_r; constructor].
  intros [Ha Hs]. eapply runs_do; [exact Ha|].
  specialize (IH x s' (h ++ [Ev q x]) Hs). by rewrite <- app_assoc in IH.
Qed.

(** What holds of every run holds of the execution. *)
Lemma wp_exec {A} (ans : list (event R) → ∀ X, R X → X → Prop) can (p : prog R A) s h Q a s' :
  (∀ h s X (q : R X) x s', handle X q s = (Some x, s') → ans h X q x) → wp ans can h p Q →
  exec p s = (Some a, s') → Q (h ++ trace p s) a.
Proof.
  intros Ha. revert s h. induction p as [b|X q k IH]; intros s h; simpl.
  { rewrite app_nil_r. intros HQ [= -> ->]. done. }
  intros [_ Hk] He. pose proof (Ha h s X q) as Hx. destruct (handle X q s) as [[x|] s2]; [|done].
  specialize (IH x s2 (h ++ [Ev q x]) (Hk x (Hx _ _ eq_refl)) He). by rewrite <- app_assoc in IH.
Qed.

(** A property of the state that the requests made keep. *)
Lemma exec_all_req {A} (P : ∀ X, R X → Prop) (K : St → St → Prop) (p : prog R A) s :
  (∀ s, K s s) → (∀ s1 s2 s3, K s1 s2 → K s2 s3 → K s1 s3) →
  (∀ s X (q : R X), P X q → K s (handle X q s).2) →
  all_req P p → K s (exec p s).2.
Proof.
  intros Hrefl Htrans Hstep. revert s. induction p as [a|X q k IH]; intros s; simpl; [done|].
  intros [Hq Hk]. specialize (Hstep s X q Hq). destruct (handle X q s) as [[x|] s']; [|done].
  eapply Htrans; [exact Hstep|]. by apply IH.
Qed.

(** The same for what is known of the requests from the answers before. *)
Lemma wp_exec_state {A} (ans : list (event R) → ∀ X, R X → X → Prop) (P : ∀ X, R X → Prop)
    (K : St → St → Prop) (p : prog R A) s h Q :
  (∀ s, K s s) → (∀ s1 s2 s3, K s1 s2 → K s2 s3 → K s1 s3) →
  (∀ s X (q : R X), P X q → K s (handle X q s).2 ∧ (handle X q s).1 ≠ None) →
  (∀ h s X (q : R X) x s', handle X q s = (Some x, s') → ans h X q x) →
  wp ans (fun _ => P) h p Q →
  ∃ a s' h', exec p s = (Some a, s') ∧ Q h' a ∧ K s s'.
Proof.
  intros Hrefl Htrans Hstep Ha. revert s h. induction p as [a|X q k IH]; intros s h Hw.
  { exists a, s, h. auto. }
  destruct Hw as [Hq Hk]. destruct (Hstep s X q Hq) as [HK Hn].
  pose proof (Ha h s X q) as Hx. simpl. destruct (handle X q s) as [[x|] s1]; [|done].
  destruct (IH x s1 _ (Hk x (Hx _ _ eq_refl))) as (a&s'&h'&E&HQ&HK'). exists a, s', h'. eauto.
Qed.

(** A program whose requests are answered ends. *)
Lemma exec_ends {A} (P : ∀ X, R X → Prop) (p : prog R A) s :
  (∀ s X (q : R X), P X q → (handle X q s).1 ≠ None) →
  all_req P p → (exec p s).1 ≠ None.
Proof.
  intros Hstep. revert s. induction p as [a|X q k IH]; intros s; simpl; [done|].
  intros [Hq Hk]. specialize (Hstep s X q Hq). destruct (handle X q s) as [[x|] s']; [|done].
  by apply IH.
Qed.

(** *** Two programs at once *)

(** One request of a program. *)
Definition turn {A} (p : prog R A) (s : St) : prog R A * St :=
  match p with
  | Ret a => (Ret a, s)
  | Do q k => match handle _ q s with
              | (Some x, s') => (k x, s')
              | (None, s') => (Do q k, s')
              end
  end.

(** The schedule says whose turn it is. *)
Fixpoint interleave {A B} (sched : list bool) (p : prog R A) (q : prog R B) (s : St) :
    prog R A * prog R B * St :=
  match sched with
  | [] => (p, q, s)
  | b :: sched' =>
      if b then let '(p', s') := turn p s in interleave sched' p' q s'
      else let '(q', s') := turn q s in interleave sched' p q' s'
  end.

End exec.
Arguments exec : simpl never.
