(* ===== verification/Scaler.v ===== *)
(** * The host operator's planners

    [engram-host-operator/src/scaler.rs] (how many hosts the fleet should have)
    and [wave.rs] (which hosts a scale-down may drain now).  Both are pure.
    Counts are [u32] and budgets [u64], with the wrap-around of the release
    build's [+], of [sum]s and of [as u32] written out. *)

From S2P Require Import Prelude.
Local Open Scope Z_scope.

(** ** Fleet size *)

Module Scaler.

Inductive ScaleDownMode : Type := Off | IdleOnly | Aggressive.

#[export] Instance ScaleDownMode_eq_dec : EqDecision ScaleDownMode.
Proof. solve_decision. Defined.

Definition enabled (m : ScaleDownMode) : bool := negb (bool_decide (m = Off)).

Record FleetDemand := MkDemand {
  schedulable_hosts : Z;
  free_mib : Z;
  total_mib : Z;
  free_vcpus : Z;
  total_vcpus : Z;
  queued_sessions : Z;
  queued_mib : Z;
  queued_vcpus : Z;
}.

Record AutoscalePolicy := MkPolicy {
  min_hosts : Z;
  max_hosts : Z;
  target_free_mib : Z;
  scale_down : ScaleDownMode;
}.

(** [Ord::clamp] for [lo <= hi]. *)
Definition clamp (x lo hi : Z) : Z := if decide (x < lo) then lo else if decide (x > hi) then hi else x.

Definition saturating_add_u32 (a b : Z) : Z := Z.min u32_max (a + b).

(** The hosts a deficit asks for in one dimension. *)
Definition hosts_for (deficit per_host : Z) : Z :=
  if decide (per_host > 0) then div_ceil deficit per_host else 0.

Definition desired_hosts (demand : FleetDemand) (policy : AutoscalePolicy) : Z :=
  let max := Z.max (max_hosts policy) (min_hosts policy) in
  let current := schedulable_hosts demand in
  if decide (current = 0) then Z.min (min_hosts policy) max else
  let per_host_mib := total_mib demand / current in
  let per_host_vcpus := total_vcpus demand / current in
  let ram_deficit :=
    wrap_u64 (queued_mib demand + saturating_sub (target_free_mib policy) (free_mib demand)) in
  let cpu_deficit := saturating_sub (queued_vcpus demand) (free_vcpus demand) in
  let add := Z.max (hosts_for ram_deficit per_host_mib) (hosts_for cpu_deficit per_host_vcpus) in
  if decide (add > 0) then
    clamp (saturating_add_u32 current (as_u32 add)) (min_hosts policy) max
  else
    let sheddable := (free_mib demand - target_free_mib policy) / per_host_mib in
    if enabled (scale_down policy) && bool_decide (queued_sessions demand = 0) &&
       bool_decide (per_host_mib > 0) && bool_decide (free_mib demand > target_free_mib policy) &&
       bool_decide (sheddable > 0)
    then clamp (saturating_sub current (as_u32 sheddable)) (min_hosts policy) max
    else clamp current (min_hosts policy) max.

(** The fields at their widths. *)
Definition demand_ok (d : FleetDemand) : Prop :=
  0 ≤ schedulable_hosts d ≤ u32_max ∧ is_u64 (free_mib d) ∧ is_u64 (total_mib d) ∧
  is_u64 (free_vcpus d) ∧ is_u64 (total_vcpus d) ∧ is_u64 (queued_sessions d) ∧
  is_u64 (queued_mib d) ∧ is_u64 (queued_vcpus d).

Definition policy_ok (p : AutoscalePolicy) : Prop :=
  0 ≤ min_hosts p ≤ u32_max ∧ 0 ≤ max_hosts p ≤ u32_max ∧ is_u64 (target_free_mib p).

(** *** Facts *)

Lemma clamp_bounds x lo hi : lo ≤ hi → lo ≤ clamp x lo hi ≤ hi.
Proof. unfold clamp. repeat case_decide; lia. Qed.

Lemma clamp_id x lo hi : lo ≤ x ≤ hi → clamp x lo hi = x.
Proof. unfold clamp. repeat case_decide; lia. Qed.

Lemma clamp_ge x lo hi : Z.min x hi ≤ clamp x lo hi.
Proof. unfold clamp. repeat case_decide; lia. Qed.

Lemma clamp_le x lo hi : lo ≤ hi → clamp x lo hi ≤ Z.max x lo.
Proof. unfold clamp. repeat case_decide; lia. Qed.

Lemma div_ceil_enough a b : b > 0 → a ≤ div_ceil a b * b.
Proof.
  intros Hb. unfold div_ceil. pose proof (Z.div_mod a b ltac:(lia)).
  pose proof (Z.mod_pos_bound a b ltac:(lia)). case_decide; nia.
Qed.

Lemma div_ceil_le a b : 0 ≤ a → b > 0 → 0 ≤ div_ceil a b ≤ a.
Proof.
  intros Ha Hb. unfold div_ceil. pose proof (Z.div_mod a b ltac:(lia)).
  pose proof (Z.mod_pos_bound a b ltac:(lia)). pose proof (Z.div_pos a b Ha ltac:(lia)).
  case_decide; nia.
Qed.

Lemma hosts_for_bound a b : 0 ≤ a → 0 ≤ hosts_for a b ≤ a.
Proof. intros. unfold hosts_for. case_decide; [by apply div_ceil_le|lia]. Qed.

Lemma hosts_for_enough a b : b > 0 → a ≤ hosts_for a b * b.
Proof. intros. unfold hosts_for. rewrite decide_True by done. by apply div_ceil_enough. Qed.

(** Demands small enough that no count leaves 32 bits. *)
Definition small (d : FleetDemand) (p : AutoscalePolicy) : Prop :=
  queued_mib d + target_free_mib p ≤ u32_max ∧ queued_vcpus d ≤ u32_max ∧ free_mib d ≤ u32_max.

(** What the fleet has if [k] average hosts are added ([k < 0]: removed). *)
Definition ram_after (d : FleetDemand) (k : Z) : Z :=
  free_mib d + k * (total_mib d / schedulable_hosts d).
Definition cpu_after (d : FleetDemand) (k : Z) : Z :=
  free_vcpus d + k * (total_vcpus d / schedulable_hosts d).

(** Both dimensions hold the queue, memory with the target to spare; a
    dimension with no capacity signal is not looked at. *)
Definition holds_queue (d : FleetDemand) (p : AutoscalePolicy) (k : Z) : Prop :=
  (total_mib d / schedulable_hosts d > 0 → queued_mib d + target_free_mib p ≤ ram_after d k) ∧
  (total_vcpus d / schedulable_hosts d > 0 → queued_vcpus d ≤ cpu_after d k).

Lemma grow_enough d p k :
  let ram := hosts_for (queued_mib d + saturating_sub (target_free_mib p) (free_mib d))
               (total_mib d / schedulable_hosts d) in
  let cpu := hosts_for (saturating_sub (queued_vcpus d) (free_vcpus d))
               (total_vcpus d / schedulable_hosts d) in
  Z.max ram cpu ≤ k → holds_queue d p k.
Proof.
  intros ram cpu Hk. unfold holds_queue, ram_after, cpu_after. split; intros Hp.
  - pose proof (hosts_for_enough (queued_mib d + saturating_sub (target_free_mib p) (free_mib d)) _ Hp).
    fold ram in H. unfold saturating_sub in H. nia.
  - pose proof (hosts_for_enough (saturating_sub (queued_vcpus d) (free_vcpus d)) _ Hp).
    fold cpu in H. unfold saturating_sub in H. nia.
Qed.

Lemma shed_keeps_target d p k :
  let per := total_mib d / schedulable_hosts d in
  per > 0 → 0 ≤ k ≤ (free_mib d - target_free_mib p) / per →
  target_free_mib p ≤ ram_after d (- k).
Proof.
  intros per Hp Hk. unfold ram_after. fold per.
  pose proof (Z.mul_div_le (free_mib d - target_free_mib p) per ltac:(lia)). nia.
Qed.

(** The fleet size the operator asks for.  It is within the policy's
    bounds.  When it grows the fleet, or leaves it as it is, below the upper
    bound, the hosts asked for hold the whole queue in both dimensions with the
    free-memory target to spare.  It is less than the current fleet (within the
    upper bound) only if scale-down is on and nothing is queued, and then the
    remaining hosts keep the free-memory target. *)
Theorem desired_hosts_sound d p :
  demand_ok d → policy_ok p → small d p →
  let n := desired_hosts d p in
  let cur := schedulable_hosts d in
  let top := Z.max (max_hosts p) (min_hosts p) in
  min_hosts p ≤ n ≤ top ∧
  (0 < cur → n < top → cur ≤ n → holds_queue d p (n - cur)) ∧
  (n < cur ≤ top → scale_down p ≠ Off ∧ queued_sessions d = 0 ∧
                   target_free_mib p ≤ ram_after d (n - cur)).
Proof.
  intros (Hc&Hfm&Htm&Hfv&Htv&Hqs&Hqm&Hqv) (Hmin&Hmax&Htg) (Hq&Hv&Hf) n cur top.
  unfold is_u64 in *. subst n. unfold desired_hosts. fold cur top.
  case_decide as Hcur; [lia|].
  set (pm := total_mib d / cur) in *. set (pv := total_vcpus d / cur) in *.
  set (rd := queued_mib d + saturating_sub (target_free_mib p) (free_mib d)) in *.
  set (cd := saturating_sub (queued_vcpus d) (free_vcpus d)) in *.
  assert (Hrd : 0 ≤ rd ≤ u32_max) by (unfold rd, saturating_sub; lia).
  assert (Hcd : 0 ≤ cd ≤ u32_max) by (unfold cd, saturating_sub; lia).
  rewrite (wrap_u64_id rd) by (unfold is_u64, u64_max, u32_max in *; lia).
  set (add := Z.max (hosts_for rd pm) (hosts_for cd pv)).
  assert (Hadd : 0 ≤ add ≤ u32_max).
  { pose proof (hosts_for_bound rd pm ltac:(lia)). pose proof (hosts_for_bound cd pv ltac:(lia)). lia. }
  assert (Hholds : ∀ k, add ≤ k → holds_queue d p k) by (intros; by apply grow_enough).
  assert (Hlh : min_hosts p ≤ top) by lia.
  case_decide as Ha.
  - rewrite as_u32_id by done. unfold saturating_add_u32.
    pose proof (clamp_bounds (Z.min u32_max (cur + add)) (min_hosts p) top Hlh).
    pose proof (clamp_ge (Z.min u32_max (cur + add)) (min_hosts p) top).
    split_and!; [lia|lia| |lia]. intros. apply Hholds. lia.
  - destruct (enabled _ && _ && _ && _ && _) eqn:E; [bool_prop|clear E].
    + set (sh := (free_mib d - target_free_mib p) / pm) in *.
      assert (0 ≤ sh ≤ u32_max).
      { split; [lia|]. apply Z.div_le_upper_bound; [lia|]. nia. }
      rewrite as_u32_id by done.
      pose proof (clamp_bounds (saturating_sub cur sh) (min_hosts p) top Hlh).
      pose proof (clamp_ge (saturating_sub cur sh) (min_hosts p) top).
      unfold saturating_sub in *.
      split_and!; [lia|lia|intros; apply Hholds; lia|]. intros [Hn ?].
      split_and!; [|done|].
      * unfold enabled in *. bool_prop. done.
      * replace (clamp (Z.max 0 (cur - sh)) (min_hosts p) top - cur)
          with (- (cur - clamp (Z.max 0 (cur - sh)) (min_hosts p) top)) by lia.
        apply shed_keeps_target; [done|]. fold cur pm sh. lia.
    + pose proof (clamp_bounds cur (min_hosts p) top Hlh).
      pose proof (clamp_ge cur (min_hosts p) top).
      split_and!; [lia|lia|intros; apply Hholds; lia|lia].
Qed.

Lemma desired_hosts_sound_witness :
  let d := MkDemand 4 4000 64000 8 64 3 20000 40 in
  let p := MkPolicy 1 20 8000 Aggressive in
  desired_hosts d p = 6 ∧ holds_queue d p 2.
Proof.
  intros d p. split; [by vm_compute|].
  apply (desired_hosts_sound d p); try (vm_compute; intuition congruence).
Defined.

(** The casts to 32 bits matter: a free-memory target far above what a host
    holds asks for so many hosts that the count wraps, and the fleet is not
    grown at all. *)
Theorem desired_hosts_truncates :
  let d := MkDemand 1 0 1 0 0 0 0 0 in
  let p := MkPolicy 1 1000 (2 ^ 32) Off in
  demand_ok d ∧ policy_ok p ∧ desired_hosts d p = 1.
Proof. vm_compute. intuition congruence. Qed.

End Scaler.
Import Scaler.

(** ** The scale-down wave *)

Module Wave.

Record WaveHost := MkHost {
  node : string;
  running_sandboxes : Z;
  reserved_mib : Z;
  reserved_vcpus : Z;
  free_mib : Z;
  free_vcpus : Z;
  pinned : bool;
}.

Record WavePolicy := MkWavePolicy {
  mode : ScaleDownMode;
  max_shed_per_wave : Z;
  floor : Z;
  headroom_mib : Z;
}.

(** The note is a log line; only whether it is the plan's own or one of the
    reasons for an empty plan is kept. *)
Inductive Note : Type :=
| ScaleDownOff | NothingToShed | NoVictimFits | NoEligibleVictims | Shedding (n : nat) (trimmed : bool).

Record WaveDecision := MkDecision { victims : list string; note : Note }.

Definition none (n : Note) : WaveDecision := MkDecision [] n.

(** [cmp(..).then(..)] over the four keys; [pinned] descending. *)
Definition victim_cmp : WaveHost → WaveHost → comparison :=
  cmp_then (cmp_rev (cmp_on pinned Bool.compare))
    (cmp_then (cmp_on running_sandboxes Z.compare)
       (cmp_then (cmp_on reserved_mib Z.compare) (cmp_on node String.compare))).

#[export] Instance victim_cmp_total : TotalCmp victim_cmp.
Proof. unfold victim_cmp. apply _. Qed.

Definition eligible (m : ScaleDownMode) (h : WaveHost) : bool :=
  match m with Off => false | IdleOnly => running_sandboxes h =? 0 | Aggressive => true end.

(** A [fold] of [u64] additions. *)
Definition sum_u64 (f : WaveHost → Z) (l : list WaveHost) : Z :=
  fold_left (fun s h => wrap_u64 (s + f h)) l 0.

(** The hosts whose node is not in [victim_nodes]. *)
Definition survivors (hosts candidates : list WaveHost) : list WaveHost :=
  List.filter (fun h => negb (bool_decide (node h ∈ node <$> candidates))) hosts.

(** The 2D guard's test. *)
Definition fits (hosts candidates : list WaveHost) (headroom : Z) : bool :=
  let s := survivors hosts candidates in
  bool_decide (wrap_u64 (sum_u64 reserved_mib candidates + headroom) ≤ sum_u64 free_mib s) &&
  bool_decide (sum_u64 reserved_vcpus candidates ≤ sum_u64 free_vcpus s).

(** The guard loop, on a list that loses its last element each round. *)
Fixpoint guard (fuel : nat) (hosts candidates : list WaveHost) (headroom : Z) (trimmed : bool) :
    list WaveHost * bool :=
  match fuel, candidates with
  | _, [] => ([], trimmed)
  | O, _ => (candidates, trimmed)
  | S fuel', _ =>
      if fits hosts candidates headroom then (candidates, trimmed)
      else guard fuel' hosts (removelast candidates) headroom true
  end.

(** [truncate(budget)]. *)
Definition shed_budget (current desired : Z) (policy : WavePolicy) : Z :=
  Z.min (Z.min (saturating_sub current desired) (max_shed_per_wave policy))
        (saturating_sub current (floor policy)).

Definition plan_wave (hosts : list WaveHost) (desired : Z) (policy : WavePolicy) : WaveDecision :=
  if bool_decide (mode policy = Off) then none ScaleDownOff else
  let current := as_u32 (Z.of_nat (length hosts)) in
  let budget := shed_budget current desired policy in
  if bool_decide (budget = 0) then none NothingToShed else
  let candidates := sort_by (cmp_leb victim_cmp) (List.filter (eligible (mode policy)) hosts) in
  let candidates := take (Z.to_nat budget) candidates in
  let '(candidates, trimmed) :=
    guard (length candidates) hosts candidates (headroom_mib policy) false in
  match candidates with
  | [] => none (if trimmed then NoVictimFits else NoEligibleVictims)
  | _ => MkDecision (node <$> candidates) (Shedding (length candidates) trimmed)
  end.

(** *** The guard loop *)

Lemma guard_spec hosts hd n c t :
  length c = n →
  ∃ k, (k ≤ length c)%nat ∧
       guard n hosts c hd t = (take k c, t || (k <? length c)%nat) ∧
       (k = 0%nat ∨ fits hosts (take k c) hd = true) ∧
       (∀ j, (k < j ≤ length c)%nat → fits hosts (take j c) hd = false).
Proof.
  revert c t. induction n as [|n IH]; intros c t Hn.
  { apply nil_length_inv in Hn as ->. exists 0%nat. simpl. rewrite orb_false_r.
    split_and!; [lia|done|auto|lia]. }
  assert (c ≠ []) as Hc by (by destruct c).
  assert (guard (S n) hosts c hd t =
          if fits hosts c hd then (c, t) else guard n hosts (removelast c) hd true) as ->
    by (by destruct c).
  destruct (fits hosts c hd) eqn:E.
  { exists (length c). rewrite firstn_all, Nat.ltb_irrefl, orb_false_r.
    split_and!; [lia|done|auto|lia]. }
  assert (Hr : removelast c = take n c).
  { rewrite removelast_firstn_len, Hn. done. }
  destruct (IH (removelast c) true) as (k&Hk&->&Hf&Hmax).
  { rewrite Hr, length_take. lia. }
  rewrite Hr, length_take in *. rewrite take_take in *.
  exists k. rewrite (Nat.min_l k n) in * by lia. split_and!.
  - lia.
  - f_equal. simpl. destruct (Nat.ltb_spec k (length c)); [|lia]. by rewrite orb_true_r.
  - done.
  - intros j Hj. destruct (decide (j = S n)) as [->|].
    + by rewrite firstn_all2 by lia.
    + specialize (Hmax j). rewrite take_take, (Nat.min_l j n) in Hmax by lia. apply Hmax. lia.
Qed.

(** The eligible hosts in the order they are shed. *)
Definition shed_order (hosts : list WaveHost) (policy : WavePolicy) : list WaveHost :=
  sort_by (cmp_leb victim_cmp) (List.filter (eligible (mode policy)) hosts).

(** The victims are the longest prefix of that order the budget allows and the
    survivors can absorb. *)
Lemma plan_wave_prefix hosts desired policy :
  let l := shed_order hosts policy in
  let b := Z.to_nat (shed_budget (as_u32 (Z.of_nat (length hosts))) desired policy) in
  ∃ k, victims (plan_wave hosts desired policy) = node <$> take k l ∧
       (k ≤ b)%nat ∧ (k ≤ length l)%nat ∧
       (k = 0%nat ∨ fits hosts (take k l) (headroom_mib policy) = true) ∧
       (mode policy ≠ Off → ∀ j, (k < j ≤ length l)%nat → (j ≤ b)%nat →
          fits hosts (take j l) (headroom_mib policy) = false).
Proof.
  intros l b. unfold plan_wave. fold (shed_order hosts policy). fold l.
  case_bool_decide as Hm.
  { exists 0%nat. split_and!; try done; auto; lia. }
  case_bool_decide as Hb.
  { exists 0%nat. split_and!; try done; auto; lia. }
  fold b. destruct (guard_spec hosts (headroom_mib policy) _ (take b l) false eq_refl)
    as (k&Hk&->&Hf&Hmax).
  rewrite length_take in Hk, Hmax. rewrite take_take in *.
  rewrite (Nat.min_l k b) in * by lia. exists k. split_and!; [|lia|lia|done|].
  - by destruct (take k l).
  - intros _ j ??. specialize (Hmax j). rewrite take_take, (Nat.min_l j b) in Hmax by lia.
    apply Hmax. lia.
Qed.

(** *** Sums *)

Definition sumZ (f : WaveHost → Z) (l : list WaveHost) : Z := foldr (fun h s => f h + s) 0 l.

Definition nonneg (f : WaveHost → Z) (l : list WaveHost) : Prop := ∀ h, h ∈ l → 0 ≤ f h.

Lemma sumZ_perm f l l' : l ≡ₚ l' → sumZ f l = sumZ f l'.
Proof. induction 1; simpl; lia. Qed.

Lemma sumZ_nonneg f l : nonneg f l → 0 ≤ sumZ f l.
Proof.
  induction l as [|h l IH]; intros Hf; simpl; [lia|].
  pose proof (Hf h ltac:(left)). assert (nonneg f l) by (intros ??; apply Hf; by right).
  specialize (IH H0). lia.
Qed.

Lemma sumZ_app f l l' : sumZ f (l ++ l') = sumZ f l + sumZ f l'.
Proof. induction l; simpl; lia. Qed.

Lemma sumZ_sub f l l' : l ⊆+ l' → nonneg f l' → sumZ f l ≤ sumZ f l'.
Proof.
  intros [k Hk]%submseteq_Permutation Hf. rewrite (sumZ_perm f _ _ Hk), sumZ_app.
  assert (nonneg f k) by (intros h Hh; apply Hf; rewrite Hk; set_solver).
  pose proof (sumZ_nonneg f k H). lia.
Qed.

Lemma sum_u64_exact f l : nonneg f l → sumZ f l ≤ u64_max → sum_u64 f l = sumZ f l.
Proof.
  unfold sum_u64.
  enough (∀ a, 0 ≤ a → nonneg f l → a + sumZ f l ≤ u64_max →
               fold_left (fun s h => wrap_u64 (s + f h)) l a = a + sumZ f l) as H.
  { intros. rewrite H by (try done; lia). done. }
  induction l as [|h l IH]; intros a Ha Hf Hs; simpl in *; [lia|].
  pose proof (Hf h ltac:(left)). assert (nonneg f l) as Hl by (intros ??; apply Hf; by right).
  pose proof (sumZ_nonneg f l Hl).
  rewrite wrap_u64_id by (unfold is_u64; lia). rewrite IH by (try done; lia). lia.
Qed.

(** A fleet whose totals fit their width. *)
Record fleet_ok (hosts : list WaveHost) (headroom : Z) : Prop := {
  fo_nodes : NoDup (node <$> hosts);
  fo_len : Z.of_nat (length hosts) ≤ u32_max;
  fo_nonneg f : f ∈ [reserved_mib; reserved_vcpus; free_mib; free_vcpus] → nonneg f hosts;
  fo_sums f : f ∈ [reserved_mib; reserved_vcpus; free_mib; free_vcpus] →
              sumZ f hosts + headroom ≤ u64_max;
  fo_headroom : 0 ≤ headroom;
}.

Lemma sum_u64_fleet hosts hd f l :
  fleet_ok hosts hd → f ∈ [reserved_mib; reserved_vcpus; free_mib; free_vcpus] →
  l ⊆+ hosts → sum_u64 f l = sumZ f l ∧ 0 ≤ sumZ f l ∧ sumZ f l + hd ≤ u64_max.
Proof.
  intros [] Hf Hl. assert (nonneg f l).
  { intros h Hh. apply (fo_nonneg0 f Hf). by eapply elem_of_submseteq. }
  pose proof (sumZ_sub f l hosts Hl (fo_nonneg0 f Hf)). pose proof (fo_sums0 f Hf).
  split_and!; [|by apply sumZ_nonneg|lia]. apply sum_u64_exact; [done|lia].
Qed.

Lemma fits_exact hosts hd c :
  fleet_ok hosts hd → c ⊆+ hosts → fits hosts c hd = true →
  sumZ reserved_mib c + hd ≤ sumZ free_mib (survivors hosts c) ∧
  sumZ reserved_vcpus c ≤ sumZ free_vcpus (survivors hosts c).
Proof.
  intros Hok Hc. pose proof (filter_submseteq
    (fun h => negb (bool_decide (node h ∈ node <$> c))) hosts) as Hs. unfold fits.
  fold (survivors hosts c) in Hs. intros Hf. bool_prop.
  destruct (sum_u64_fleet hosts hd reserved_mib c) as (E1&?&?); [done|set_solver|done|].
  destruct (sum_u64_fleet hosts hd reserved_vcpus c) as (E2&?&?); [done|set_solver|done|].
  destruct (sum_u64_fleet hosts hd free_mib (survivors hosts c)) as (E3&?&?); [done|set_solver|done|].
  destruct (sum_u64_fleet hosts hd free_vcpus (survivors hosts c)) as (E4&?&?); [done|set_solver|done|].
  rewrite E1, E2, E3, E4 in *. pose proof (fo_headroom _ _ Hok).
  rewrite wrap_u64_id in * by (unfold is_u64; lia). lia.
Qed.

(** The hosts of a list of node names. *)
Definition hosts_of (v : list string) (hosts : list WaveHost) : list WaveHost :=
  List.filter (fun h => bool_decide (node h ∈ v)) hosts.
Definition others (v : list string) (hosts : list WaveHost) : list WaveHost :=
  List.filter (fun h => negb (bool_decide (node h ∈ v))) hosts.

Lemma node_inj hosts h h' :
  NoDup (node <$> hosts) → h ∈ hosts → h' ∈ hosts → node h = node h' → h = h'.
Proof.
  intros Hn (i&Hi)%list_elem_of_lookup (j&Hj)%list_elem_of_lookup E.
  assert (i = j) as ->; [|congruence].
  eapply NoDup_lookup; [exact Hn| |]; rewrite list_lookup_fmap; [rewrite Hi|rewrite Hj]; simpl;
    [done|congruence].
Qed.

Lemma hosts_of_perm hosts c :
  NoDup (node <$> hosts) → c ⊆+ hosts → hosts_of (node <$> c) hosts ≡ₚ c.
Proof.
  intros Hn Hc. pose proof (NoDup_fmap_1 _ _ Hn). apply NoDup_Permutation.
  - by eapply submseteq_NoDup, filter_submseteq.
  - by eapply submseteq_NoDup.
  - intros h. unfold hosts_of. rewrite elem_of_filterb, bool_decide_eq_true, list_elem_of_fmap.
    split.
    + intros [Hh (h'&E&Hh')]. rewrite (node_inj hosts h h'); try done.
      by eapply elem_of_submseteq.
    + intros Hh. split; [by eapply elem_of_submseteq|eauto].
Qed.

Lemma shed_order_sub hosts policy k : take k (shed_order hosts policy) ⊆+ hosts.
Proof.
  etrans; [apply sublist_submseteq, sublist_take|]. unfold shed_order.
  rewrite sort_by_perm. apply filter_submseteq.
Qed.

Lemma wave_cases hosts desired policy :
  fleet_ok hosts (headroom_mib policy) →
  let v := victims (plan_wave hosts desired policy) in
  ∃ c, v = node <$> c ∧ c ⊆+ hosts ∧
       (∀ h, h ∈ c → eligible (mode policy) h = true) ∧
       Z.of_nat (length v) ≤ Z.max 0 (shed_budget (Z.of_nat (length hosts)) desired policy) ∧
       (v ≠ [] → sumZ reserved_mib (hosts_of v hosts) + headroom_mib policy ≤
                   sumZ free_mib (others v hosts) ∧
                 sumZ reserved_vcpus (hosts_of v hosts) ≤ sumZ free_vcpus (others v hosts)).
Proof.
  intros Hok v. destruct (plan_wave_prefix hosts desired policy) as (k&Hv&Hkb&Hkl&Hf&_).
  fold v in Hv. set (c := take k (shed_order hosts policy)) in *.
  assert (Hc : c ⊆+ hosts) by apply shed_order_sub.
  exists c. split_and!; [done|done| | |].
  - intros h Hh. assert (h ∈ shed_order hosts policy) as Hin
      by (eapply elem_of_submseteq; [exact Hh|]; apply sublist_submseteq, sublist_take).
    unfold shed_order in Hin. rewrite sort_by_perm, elem_of_filterb in Hin. by destruct Hin.
  - rewrite Hv, length_fmap. unfold c. rewrite length_take. rewrite as_u32_id in Hkb
      by (pose proof (fo_len _ _ Hok); lia). lia.
  - intros Hne. rewrite Hv in *.
    destruct Hf as [->|Hf]; [done|].
    destruct (fits_exact hosts _ c Hok Hc Hf) as [H1 H2].
    rewrite !(sumZ_perm _ _ _ (hosts_of_perm hosts c (fo_nodes _ _ Hok) Hc)). done.
Qed.

(** C38. A scale-down wave never strands a session.  The victims are distinct
    hosts of the fleet, no more than the per-wave cap, and leave at least the
    target and the floor of hosts.  Together the survivors have room for
    everything reserved on the victims, in memory with the headroom to spare
    and in vcpus.  With scale-down off there are none, and in the idle-only
    mode none of them runs a sandbox. *)
Theorem plan_wave_safe hosts desired policy :
  fleet_ok hosts (headroom_mib policy) →
  0 ≤ desired → 0 ≤ max_shed_per_wave policy → 0 ≤ floor policy →
  let v := victims (plan_wave hosts desired policy) in
  v ⊆+ (node <$> hosts) ∧
  Z.of_nat (length v) ≤ max_shed_per_wave policy ∧
  (v ≠ [] →
     mode policy ≠ Off ∧
     Z.max desired (floor policy) ≤ Z.of_nat (length (others v hosts)) ∧
     sumZ reserved_mib (hosts_of v hosts) + headroom_mib policy ≤ sumZ free_mib (others v hosts) ∧
     sumZ reserved_vcpus (hosts_of v hosts) ≤ sumZ free_vcpus (others v hosts)) ∧
  (∀ h, h ∈ hosts → node h ∈ v → mode policy = IdleOnly → running_sandboxes h = 0).
Proof.
  intros Hok Hd Hm Hf v.
  destruct (wave_cases hosts desired policy Hok) as (c&Hv&Hc&Hel&Hlen&Hfit). fold v in Hv, Hlen, Hfit.
  assert (Hperm : hosts_of v hosts ≡ₚ c) by (rewrite Hv; apply hosts_of_perm; [apply Hok|done]).
  assert (Hsplit : (length (hosts_of v hosts) + length (others v hosts) = length hosts)%nat).
  { unfold hosts_of, others. clearbody v. clear. induction hosts as [|h l IH]; simpl; [done|].
    case_bool_decide; simpl; lia. }
  rewrite Hperm in Hsplit. assert (length v = length c) as Hl by (by rewrite Hv, length_fmap).
  unfold shed_budget, saturating_sub in Hlen. split_and!.
  - rewrite Hv. by apply fmap_submseteq.
  - lia.
  - intros Hne. destruct (Hfit Hne). split_and!; [| |done|done].
    + intros Hoff. destruct c as [|h c]; [by subst|].
      specialize (Hel h ltac:(left)). by rewrite Hoff in Hel.
    + assert (0 < length v)%nat by (destruct v; simpl; [done|lia]). lia.
  - intros h Hh Hn Hidle. assert (h ∈ c) as Hhc.
    { rewrite <- Hperm. unfold hosts_of. by rewrite elem_of_filterb, bool_decide_eq_true_2. }
    specialize (Hel h Hhc). rewrite Hidle in Hel. simpl in Hel. lia.
Qed.

Definition demo_hosts : list WaveHost :=
  [MkHost "n-a" 2 4000 4 2000 8 false; MkHost "n-b" 0 0 0 6000 12 false;
   MkHost "n-c" 1 1000 1 9000 20 false; MkHost "n-d" 3 5000 6 8000 16 true].

Lemma demo_hosts_ok : fleet_ok demo_hosts 3000.
Proof.
  split.
  - apply NoDup_ListNoDup. repeat constructor; simpl; intuition congruence.
  - by vm_compute.
  - intros f Hf h Hh. repeat (apply elem_of_cons in Hf as [->|Hf];
      [repeat (apply elem_of_cons in Hh as [->|Hh]; [by vm_compute|]); by apply not_elem_of_nil in Hh|]).
    by apply not_elem_of_nil in Hf.
  - intros f Hf. repeat (apply elem_of_cons in Hf as [->|Hf]; [by vm_compute|]).
    by apply not_elem_of_nil in Hf.
  - done.
Qed.

Lemma plan_wave_safe_witness :
  let p := MkWavePolicy Aggressive 2 1 3000 in
  let v := victims (plan_wave demo_hosts 1 p) in
  v = ["n-d"; "n-b"] ∧
  sumZ reserved_mib (hosts_of v demo_hosts) + 3000 ≤ sumZ free_mib (others v demo_hosts).
Proof.
  intros p v. assert (v = ["n-d"; "n-b"]) as Hv by (by vm_compute). split; [exact Hv|].
  destruct (plan_wave_safe demo_hosts 1 p demo_hosts_ok ltac:(lia) ltac:(done) ltac:(done))
    as (_&_&H&_).
  fold v in H. destruct H as (_&_&H&_); [by rewrite Hv|exact H].
Defined.

(** Which hosts a wave sheds.  Pinned victims of the wave in flight come
    first, then the least loaded: every eligible host that is not shed comes
    after every victim in that order.  And the wave is maximal: shedding one
    more host of the order, within the budget, would not fit on the survivors. *)
Theorem plan_wave_best hosts desired policy :
  mode policy ≠ Off →
  let l := shed_order hosts policy in
  let v := victims (plan_wave hosts desired policy) in
  let budget := shed_budget (as_u32 (Z.of_nat (length hosts))) desired policy in
  v = node <$> take (length v) l ∧
  (∀ h h', h ∈ take (length v) l → h' ∈ drop (length v) l → cmp_leb victim_cmp h h' = true) ∧
  ((length v < length l)%nat → Z.of_nat (length v) < budget →
     ∀ j, (length v < j ≤ length l)%nat → Z.of_nat j ≤ budget →
     fits hosts (take j l) (headroom_mib policy) = false).
Proof.
  intros Hm l v budget. destruct (plan_wave_prefix hosts desired policy) as (k&Hv&Hkb&Hkl&_&Hmax).
  fold v l budget in Hv, Hkb, Hkl, Hmax.
  assert (length v = k) as -> by (rewrite Hv, length_fmap, length_take; lia).
  split_and!; [done| |].
  - pose proof (sort_by_cmp_sorted victim_cmp (List.filter (eligible (mode policy)) hosts)) as Hs.
    fold (shed_order hosts policy) in Hs. fold l in Hs. rewrite <- (take_drop k l) in Hs.
    intros h h' Hh Hh'. by eapply StronglySorted_app_1_elem_of in Hs.
  - intros _ Hlt j Hj Hjb. apply Hmax; [done|done|lia].
Qed.

Lemma plan_wave_best_witness :
  let p := MkWavePolicy Aggressive 3 0 3000 in
  let v := victims (plan_wave demo_hosts 1 p) in
  v = ["n-d"; "n-b"] ∧ fits demo_hosts (take 3 (shed_order demo_hosts p)) 3000 = false.
Proof.
  intros p v. assert (v = ["n-d"; "n-b"]) as Hv by (by vm_compute). split; [exact Hv|].
  destruct (plan_wave_best demo_hosts 1 p ltac:(done)) as (_&_&H). fold v in H.
  rewrite Hv in H.
  refine (H _ _ 3%nat _ _).
  - by vm_compute; lia.
  - by vm_compute.
  - vm_compute; lia.
  - by vm_compute.
Defined.

End Wave.
