(* ===== verification/Operator.v ===== *)
(** * The host operator

    [engram-host-operator/src/autoscale.rs], [reconcile.rs], [coord.rs] and
    [crd.rs]: one reconcile drives a host-agent DaemonSet toward its [HostFleet]
    resource, grows or shrinks the node pool and rolls one pod at a time.  A
    reconcile is a program over the Kubernetes API, the coordinator's fleet
    service and the cloud's node pool; the annotation on a Node object is the
    only memory of a removal, so that any reconcile may be cut anywhere.

    [HostId::from_node_name], the parsing of host ids and the JSON codec of the
    victim record are parameters.  Logs and metrics are left out. *)

From S2P Require Import Prelude Prog Scaler.
Export Scaler Wave.
Local Open Scope Z_scope.

Module Operator.

(** ** Errors *)

(** The gRPC codes the operator tells apart. *)
Inductive Code : Type := NotFound | FailedPrecondition | OtherCode (n : Z).

Inductive OperatorError : Type :=
| Kube (http : option Z)
| Rpc (op : string) (code : Code)
| RollTimeout (node : string)
| Invalid (msg : string)
| Cloud (msg : string)
| Upgrade (msg : string).

#[export] Instance Code_eq_dec : EqDecision Code.
Proof. solve_decision. Defined.

(** ** The custom resource *)

Record AutoscalingSpec := MkAutoscaling {
  node_pool : string;
  a_min_hosts : Z;
  a_max_hosts : Z;
  a_target_free_mib : Z;
  a_scale_down : ScaleDownMode;
  scale_down_hysteresis_ticks : Z;
  a_max_shed_per_wave : Z;
}.

Record HostFleetSpec := MkSpec {
  ds_name : string;
  image : string;
  node_assets_image : string;
  capacity_floor : Z;
  drain_timeout_seconds : Z;
  enable_work_timeout_seconds : Z;
  autoscaling : option AutoscalingSpec;
}.

(** ** Kubernetes objects, the fields that are read *)

Record Node := MkNode {
  n_name : string;
  n_annotations : gmap string string;
  n_finalizers : list string;
  n_unschedulable : option bool;
  n_deletion_timestamp : bool;
}.

Record Pod := MkPod {
  p_name : string;
  p_node_name : option string;
  p_containers : list (string * option string);
  p_init_containers : option (list (string * option string));
  p_conditions : option (list (string * string));
}.

(** The container images of the template, and the two selectors. *)
Record DaemonSet := MkDs {
  ds_host_image : option string;
  ds_init_image : option string;
  ds_match_labels : option (list (string * string));
  ds_node_selector : option (list (string * string));
}.

(** A merge patch of a Node: [None] under a key deletes it. *)
Record NodePatch := MkPatch {
  pa_annotations : list (string * option string);
  pa_finalizers : option (list string);
  pa_unschedulable : option bool;
}.

Definition VICTIM_ANNOTATION : string := "fleet.engram.io/victim".
Definition VICTIM_FINALIZER : string := "fleet.engram.io/victim".
Definition ROLL_CORDON_ANNOTATION : string := "fleet.engram.io/roll-cordon".
Definition ROLL_STUCK_ANNOTATION : string := "fleet.engram.io/roll-stuck".
Definition CORDON_OWNER : string := "operator".
Definition HOST_AGENT_CONTAINER : string := "host-agent".
Definition STAGE_ASSETS_CONTAINER : string := "stage-node-assets".

Record PodInfo := MkPodInfo {
  pi_name : string;
  pi_node : string;
  host_image : string;
  init_image : string;
  ready : bool;
}.

Definition pod_ready (p : Pod) : bool :=
  match p_conditions p with
  | Some cs => existsb (fun c => bool_decide (c = ("Ready", "True"))) cs
  | None => false
  end.

(** [iter().find(|c| c.name == name).and_then(|c| c.image)]. *)
Definition container_image (name : string) (cs : list (string * option string)) : option string :=
  List.find (fun c => bool_decide (fst c = name)) cs ≫= snd.

Definition pod_info (p : Pod) : PodInfo :=
  MkPodInfo (p_name p) (default "" (p_node_name p))
    (default "" (container_image HOST_AGENT_CONTAINER (p_containers p)))
    (default "" (p_init_containers p ≫= container_image STAGE_ASSETS_CONTAINER))
    (pod_ready p).

(** ** The coordinator's answers *)

Record HostView := MkView {
  hv_id : string;
  hv_cordoned : bool;
  hv_running_sandboxes : Z;
  hv_reserved_mib : Z;
  hv_free_mib : Z;
  hv_reserved_vcpus : Z;
  hv_free_vcpus : Z;
}.

Record HostLoad := MkLoad {
  hl_id : HostId;
  cordoned : bool;
  hl_running_sandboxes : Z;
  hl_reserved_mib : Z;
  hl_free_mib : Z;
  hl_reserved_vcpus : Z;
  hl_free_vcpus : Z;
}.

Record HostStatus := MkHostStatus { live_materializes : Z; live_capture_jobs : Z }.

Definition has_enable_work (s : HostStatus) : bool :=
  (live_materializes s >? 0) || (live_capture_jobs s >? 0).

(** [RetireHostResponse.retirement]: the text of [retired_at] and the kinds of
    the blockers. *)
Record HostRetirement := MkRetirement { hr_retired_at : string; hr_blockers : list string }.

Inductive Retirement : Type :=
| Pending (blockers : list string)
| Granted
| NoRow
| Foreign.

Definition retirement_from_response (r : option HostRetirement) : Retirement :=
  let r := default (MkRetirement "" []) r in
  if bool_decide (hr_retired_at r = "") then Pending (hr_blockers r) else Granted.

(** ** Requests *)

Inductive req : Type → Type :=
(* coordinator, [FleetService] *)
| GetFleetDemand : req (result FleetDemand Code)
| ListHostViews : req (result (list HostView) Code)
| GetHost (h : HostId) : req (result (option HostStatus) Code)
| CordonHost (h : HostId) (owner : string) : req (result unit Code)
| UncordonHost (h : HostId) (owner : string) : req (result unit Code)
| BeginHostHandoff (h : HostId) (ttl_secs : Z) : req (result bool Code)
| RetireHost (h : HostId) (owner reason : string) : req (result (option HostRetirement) Code)
| DeleteHost (h : HostId) : req (result unit Code)
(* Kubernetes *)
| GetDaemonSet : req (result DaemonSet (option Z))
| PatchDsImages (host init : string) : req (result unit (option Z))
| ListPods (labels : list (string * string)) : req (result (list Pod) (option Z))
| ListNodes (labels : list (string * string)) : req (result (list Node) (option Z))
| PatchNode (node : string) (p : NodePatch) : req (result unit (option Z))
| DeletePod (pod : string) : req (result unit (option Z))
(* the cloud's node pool *)
| CurrentTarget (pool : string) : req (result Z string)
| SetSize (pool : string) (n : Z) : req (result unit string)
| RemoveNode (pool node : string) : req (result unit string)
(* clocks *)
| WallNow : req DateTime
| MonoNow : req DateTime
| Sleep (d : Duration) : req unit
| Never : req Empty_set.

Notation op := (prog req) (only parsing).
Notation async A := (prog req (result A OperatorError)) (only parsing).

Definition secs (n : Z) : Duration := n * 1000000000.

(** ** Victims *)

Inductive VictimKind : Type := Shed | Repair.
Inductive VictimPhase : Type := Retiring | Removing.

#[export] Instance VictimKind_eq_dec : EqDecision VictimKind.
Proof. solve_decision. Defined.
#[export] Instance VictimPhase_eq_dec : EqDecision VictimPhase.
Proof. solve_decision. Defined.

Definition kind_label (k : VictimKind) : string :=
  match k with Shed => "shed" | Repair => "repair" end.

Record VictimRecord := MkRecord {
  fleet : string;
  kind : VictimKind;
  phase : VictimPhase;
  deadline : option DateTime;
  prior_unschedulable : bool;
}.

#[export] Instance eta_VictimRecord : Eta VictimRecord := fun r =>
  MkRecord (fleet r) (kind r) (phase r) (deadline r) (prior_unschedulable r).

Record Victim := MkVictim { v_node : string; v_record : VictimRecord; deleting : bool }.

Inductive ReleaseReason : Type :=
| NotInPlan | Deadline | Pressure | ReleaseNoRow | ReleaseForeign.

#[export] Instance ReleaseReason_eq_dec : EqDecision ReleaseReason.
Proof. solve_decision. Defined.

Inductive Next : Type := CallRetire | Remove | Release (r : ReleaseReason) | Hold.

Definition plan_victim (v : VictimRecord) : Next :=
  match phase v with Removing => Remove | Retiring => CallRetire end.

Definition after_retire (v : VictimRecord) (r : Retirement) (in_plan pressure_now : bool)
    (now : DateTime) : Next :=
  let shed := bool_decide (kind v = Shed) in
  match r with
  | Granted => Remove
  | NoRow => if shed then Release ReleaseNoRow else Hold
  | Foreign => if shed then Release ReleaseForeign else Hold
  | Pending _ =>
      if shed && negb in_plan then Release NotInPlan
      else if shed && pressure_now then Release Pressure
      else if shed && match deadline v with Some d => d <=? now | None => false end
           then Release Deadline
      else Hold
  end.

Definition fleet_key (spec : HostFleetSpec) : string :=
  match autoscaling spec with Some a => node_pool a | None => ds_name spec end.

(** ** What the operator remembers between reconciles *)

Record NodeReadyState := MkReady {
  registered : option (gset HostId);
  pod_nodes : option (gset string);
  pending_scale_requests : list DateTime;
  scale_request_by_node : gmap string DateTime;
}.

#[export] Instance eta_NodeReadyState : Eta NodeReadyState := fun r =>
  MkReady (registered r) (pod_nodes r) (pending_scale_requests r) (scale_request_by_node r).

Definition observe_hosts (now_registered : gset HostId) (t : NodeReadyState) :
    list HostId * NodeReadyState :=
  (match registered t with
   | None => []
   | Some seen => elements (now_registered ∖ seen)
   end, t <| registered := Some now_registered |>).

(** The loop over the nodes seen for the first time. *)
Fixpoint assign_requests (fresh : list string) (t : NodeReadyState) : NodeReadyState :=
  match fresh with
  | [] => t
  | n :: fresh' =>
      assign_requests fresh'
        match pending_scale_requests t with
        | [] => t
        | r :: rs => t <| pending_scale_requests := rs |> <| scale_request_by_node ::= <[n := r]> |>
        end
  end.

Definition observe_pods (pods : list PodInfo) (t : NodeReadyState) : NodeReadyState :=
  let current : gset string := list_to_set (pi_node <$> pods) in
  match pod_nodes t with
  | None => t <| pod_nodes := Some current |>
  | Some previous =>
      let fresh := sort_by (cmp_leb String.compare) (elements (current ∖ previous)) in
      let t := assign_requests fresh t in
      t <| scale_request_by_node ::= filter (fun kv => kv.1 ∈ current) |>
        <| pod_nodes := Some current |>
  end.

Definition record_grow (physical target : Z) (at_ : DateTime) (t : NodeReadyState) : NodeReadyState :=
  let planned := saturating_add_u32 physical (as_u32 (Z.of_nat (length (pending_scale_requests t)))) in
  t <| pending_scale_requests ::= fun l => l ++ replicate (Z.to_nat (target - planned)) at_ |>.

Definition take_scale_request (node : string) (t : NodeReadyState) :
    option DateTime * NodeReadyState :=
  (scale_request_by_node t !! node, t <| scale_request_by_node ::= delete node |>).

Record Hysteresis := MkHyst { ticks : Z; last_tick : option DateTime }.

Definition SCALE_DOWN_HYSTERESIS_TICK : Duration := secs 60.

Definition observe_at (target : bool) (now : DateTime) (s : Hysteresis) : Z * Hysteresis :=
  if negb target then (0, MkHyst 0 None) else
  let s' := match last_tick s with
            | None => MkHyst 1 (Some now)
            | Some last =>
                if decide (Z.max 0 (now - last) >= SCALE_DOWN_HYSTERESIS_TICK)
                then MkHyst (saturating_add_u32 (ticks s) 1) (Some now)
                else s
            end in
  (ticks s', s').

Record Mem := MkMem { hysteresis : Hysteresis; node_ready : NodeReadyState }.

#[export] Instance eta_Mem : Eta Mem := fun m => MkMem (hysteresis m) (node_ready m).

(** ** [coord.rs] *)

Section operator.

Context (from_node_name : string → HostId) (parse_host_id : string → option HostId).

Definition rpc {A} (name : string) (q : req (result A Code)) : async A := ask_err (Rpc name) q.

Definition coord_cordon (h : HostId) (owner : string) : async unit := rpc "cordon" (CordonHost h owner).
Definition coord_handoff (h : HostId) (ttl : Z) : async bool := rpc "handoff" (BeginHostHandoff h ttl).
Definition coord_uncordon (h : HostId) (owner : string) : async unit :=
  rpc "uncordon" (UncordonHost h owner).
Definition coord_delete_host (h : HostId) : async unit := rpc "delete_host" (DeleteHost h).
Definition coord_fleet_demand : async FleetDemand := rpc "fleet_demand" GetFleetDemand.

Definition retire_host (h : HostId) (owner reason : string) : async Retirement :=
  r ← ask (RetireHost h owner reason);
  Ret (match r with
       | Ok resp => Ok (retirement_from_response resp)
       | Err NotFound => Ok NoRow
       | Err FailedPrecondition => Ok Foreign
       | Err c => Err (Rpc "retire_host" c)
       end).

Definition host_view_to_load (v : HostView) : result HostLoad OperatorError :=
  match parse_host_id (hv_id v) with
  | Some id => Ok (MkLoad id (hv_cordoned v) (hv_running_sandboxes v) (hv_reserved_mib v)
                     (hv_free_mib v) (hv_reserved_vcpus v) (hv_free_vcpus v))
  | None => Err (Invalid "coordinator returned malformed host id {id:?}")
  end.

(** [into_iter().map(f).collect::<Result<Vec<_>, _>>()]. *)
Fixpoint collect_results {A B E} (f : A → result B E) (l : list A) : result (list B) E :=
  match l with
  | [] => Ok []
  | x :: l' => let? y := f x in let? ys := collect_results f l' in Ok (y :: ys)
  end.

Definition list_hosts : async (list HostLoad) :=
  do! vs := rpc "list_hosts" ListHostViews in Ret (collect_results host_view_to_load vs).

Definition host_status (h : HostId) : async (option HostStatus) :=
  r ← ask (GetHost h);
  Ret (match r with
       | Ok s => Ok s
       | Err NotFound => Ok None
       | Err c => Err (Rpc "host_status" c)
       end).

(** ** [NodeOps] over the reconcile's node snapshot *)

Context (victim_to_json : VictimRecord → option string)
        (victim_of_json : string → option VictimRecord).

Definition kube {A} (q : req (result A (option Z))) : async A := ask_err Kube q.
Definition cloud {A} (q : req (result A string)) : async A := ask_err Cloud q.

Section snapshot.
Context (managed_nodes : list Node).

Definition snapshot_node (node : string) : option Node :=
  List.find (fun n => bool_decide (n_name n = node)) managed_nodes.

Definition node_victim (fleet_ : string) (n : Node) : option Victim :=
  raw ← n_annotations n !! VICTIM_ANNOTATION;
  record ← victim_of_json raw;
  if bool_decide (fleet_ = "") || bool_decide (fleet record = fleet_)
  then Some (MkVictim (n_name n) record (n_deletion_timestamp n)) else None.

Definition node_victims (fleet_ : string) : list Victim := omap (node_victim fleet_) managed_nodes.

Definition mark_victim_patch (record : VictimRecord) (finalizers : list string) :
    result NodePatch OperatorError :=
  match victim_to_json record with
  | None => Err (Invalid "victim record")
  | Some value =>
      Ok (MkPatch [(VICTIM_ANNOTATION, Some value); (ROLL_STUCK_ANNOTATION, None)]
            (Some (if existsb (fun f => bool_decide (f = VICTIM_FINALIZER)) finalizers
                   then finalizers else finalizers ++ [VICTIM_FINALIZER]))
            (Some true))
  end.

(** The record to write: the fact about a prior cordon is the first mark's. *)
Definition remark (node : string) (record : VictimRecord) : result VictimRecord OperatorError :=
  let snapshot := snapshot_node node in
  match snapshot ≫= fun n => n_annotations n !! VICTIM_ANNOTATION with
  | Some raw =>
      match victim_of_json raw with
      | None => Err (Invalid "{e}")
      | Some old =>
          if bool_decide (fleet old = fleet record)
          then Ok (record <| prior_unschedulable := prior_unschedulable old |>)
          else Err (Invalid "foreign victim record")
      end
  | None => Ok (record <| prior_unschedulable := default false (snapshot ≫= n_unschedulable) |>)
  end.

Definition mark_victim (node : string) (record : VictimRecord) : async VictimRecord :=
  do! record := Ret (remark node record) in
  let finalizers := match snapshot_node node with Some n => n_finalizers n | None => [] end in
  do! patch := Ret (mark_victim_patch record finalizers) in
  do! _ := kube (PatchNode node patch) in
  okay record.

Definition clear_victim (node : string) (uncordon : bool) : async unit :=
  let finalizers := match snapshot_node node with Some n => n_finalizers n | None => [] end in
  let patch := MkPatch [(VICTIM_ANNOTATION, None)]
                 (Some (List.filter (fun f => negb (bool_decide (f = VICTIM_FINALIZER))) finalizers))
                 (if uncordon then Some false else None) in
  r ← ask (PatchNode node patch);
  Ret (match r with
       | Ok _ => Ok tt
       | Err (Some 404) => Ok tt
       | Err e => Err (Kube e)
       end).

Definition release (v : Victim) (reason : ReleaseReason) : async unit :=
  do! _ :=
    (if bool_decide (reason = ReleaseForeign) then okay tt
     else r ← coord_uncordon (from_node_name (v_node v)) CORDON_OWNER;
          Ret (match r with
               | Ok _ => Ok tt
               | Err (Rpc _ (NotFound | FailedPrecondition)) => Ok tt
               | Err e => Err e
               end)) in
  clear_victim (v_node v) (negb (prior_unschedulable (v_record v))).

(** ** One step of the autoscaler *)

(** For a host seen for the first time, its scale request is taken; the
    timestamps read beside it only feed histograms. *)
Fixpoint track_fresh (pods : list PodInfo) (fresh : list HostId) (t : NodeReadyState) :
    op NodeReadyState :=
  match fresh with
  | [] => Ret t
  | h :: fresh' =>
      match List.find (fun p => bool_decide (from_node_name (pi_node p) = h)) pods with
      | None => track_fresh pods fresh' t
      | Some pod =>
          _ ← ask WallNow;
          track_fresh pods fresh' (take_scale_request (pi_node pod) t).2
      end
  end.

Definition track_node_ready (pods : list PodInfo) (hosts : list HostLoad) (t : NodeReadyState) :
    op NodeReadyState :=
  let t := observe_pods pods t in
  let '(fresh, t) := observe_hosts (list_to_set (hl_id <$> hosts)) t in
  track_fresh pods fresh t.

Definition has_node (l : list Victim) (node : string) : bool :=
  existsb (fun v => bool_decide (v_node v = node)) l.

(** [by_id.get]: a map collected from a list keeps the last entry of a key. *)
Definition host_by_id (hosts : list HostLoad) (id : HostId) : option HostLoad :=
  List.find (fun h => bool_decide (hl_id h = id)) (rev hosts).

Definition wave_host (hosts : list HostLoad) (annotated : list string) (p : PodInfo) :
    option WaveHost :=
  if bool_decide (pi_node p = "") then None else
  host ← host_by_id hosts (from_node_name (pi_node p));
  let pinned := existsb (fun n => bool_decide (n = pi_node p)) annotated in
  if cordoned host && negb pinned then None
  else Some (MkHost (pi_node p) (hl_running_sandboxes host) (hl_reserved_mib host)
               (hl_reserved_vcpus host) (hl_free_mib host) (hl_free_vcpus host) pinned).

Definition assemble_wave_hosts (pods : list PodInfo) (hosts : list HostLoad)
    (annotated : list string) : list WaveHost := omap (wave_host hosts annotated) pods.

Definition new_record (key : string) (k : VictimKind) (d : option DateTime) : VictimRecord :=
  MkRecord key k Retiring d false.

(** Mark stuck nodes for repair while the budget allows; a failed mark is
    left to the next tick. *)
Fixpoint mark_repairs (key : string) (budget : nat) (stuck : list string) (victims : list Victim)
    (repaired : bool) : op (list Victim * bool) :=
  match stuck with
  | [] => Ret (victims, repaired)
  | node :: stuck' =>
      if (budget <=? length victims)%nat then Ret (victims, repaired)
      else if has_node victims node then mark_repairs key budget stuck' victims repaired
      else
        r ← mark_victim node (new_record key Repair None);
        match r with
        | Ok record =>
            mark_repairs key budget stuck' (victims ++ [MkVictim node record false]) true
        | Err _ => mark_repairs key budget stuck' victims repaired
        end
  end.

Fixpoint mark_sheds (key : string) (timeout : Duration) (planned : list string)
    (victims : list Victim) : op (list Victim) :=
  match planned with
  | [] => Ret victims
  | node :: planned' =>
      if has_node victims node then mark_sheds key timeout planned' victims
      else
        now ← ask WallNow;
        r ← mark_victim node (new_record key Shed (Some (now + timeout)));
        match r with
        | Ok record => mark_sheds key timeout planned' (victims ++ [MkVictim node record false])
        | Err _ => mark_sheds key timeout planned' victims
        end
  end.

Definition settled (v : Victim) : bool :=
  bool_decide (kind (v_record v) = Repair) || bool_decide (phase (v_record v) = Removing).

Definition policy_of (a : AutoscalingSpec) : AutoscalePolicy :=
  MkPolicy (a_min_hosts a) (a_max_hosts a) (a_target_free_mib a) (a_scale_down a).

Record FleetObservation := MkObs {
  pods : list PodInfo;
  roll_idle : bool;
  stuck_rolls : list string;
}.

Definition unavailable (stuck : list string) (victims : list Victim) : Z :=
  as_u32 (as_u32 (Z.of_nat (length stuck)) +
    as_u32 (Z.of_nat (length (List.filter (fun v =>
      bool_decide (kind (v_record v) = Repair) && negb (bool_decide (v_node v ∈ stuck))) victims)))).

(** Grow the pool when the target exceeds both the pods and what the cloud was
    last asked for. *)
Definition grow (a : AutoscalingSpec) (physical grow_target : Z) (m : Mem) :
    op (result unit OperatorError * Mem) :=
  if bool_decide (grow_target > physical) then
    r ← cloud (CurrentTarget (node_pool a));
    match r with
    | Err e => Ret (Err e, m)
    | Ok t =>
        if bool_decide (grow_target > t) then
          r ← cloud (SetSize (node_pool a) grow_target);
          match r with
          | Err e => Ret (Err e, m)
          | Ok _ =>
              now ← ask WallNow;
              Ret (Ok tt, m <| node_ready ::= record_grow physical grow_target now |>)
          end
        else Ret (Ok tt, m)
    end
  else Ret (Ok tt, m).

Definition wave_of (spec : HostFleetSpec) (a : AutoscalingSpec) (hosts : list HostLoad)
    (pods : list PodInfo) (victims : list Victim) (budget : nat) (desired : Z) : list string :=
  let pinned := v_node <$> List.filter (fun v =>
    bool_decide (kind (v_record v) = Shed) && bool_decide (phase (v_record v) = Retiring)) victims in
  let reserved := length (List.filter settled victims) in
  let wave_hosts := List.filter (fun h => negb (existsb (fun v =>
      bool_decide (v_node v = Wave.node h) && settled v) victims))
    (assemble_wave_hosts pods hosts pinned) in
  if enabled (a_scale_down a) then
    Wave.victims (plan_wave wave_hosts desired
      (MkWavePolicy (a_scale_down a) (as_u32 (Z.of_nat (budget - reserved)))
         (Z.max (a_min_hosts a) (capacity_floor spec)) (a_target_free_mib a)))
  else [].

(** The part of [step] that plans: grow, mark repairs, plan and mark the wave. *)
Definition plan_step (spec : HostFleetSpec) (a : AutoscalingSpec) (obs : FleetObservation)
    (demand : FleetDemand) (hosts : list HostLoad) (desired : Z) (victims : list Victim) (m : Mem) :
    op (result (list Victim * list string * bool) OperatorError * Mem) :=
  let key := fleet_key spec in
  let physical := as_u32 (Z.of_nat (length (pods obs))) in
  let unavail := unavailable (stuck_rolls obs) victims in
  let grow_target :=
    Z.min (saturating_add_u32 desired unavail) (Z.max (a_max_hosts a) (a_min_hosts a)) in
  '(r, m) ← grow a physical grow_target m;
  match r with
  | Err e => Ret (Err e, m)
  | Ok _ =>
      let budget := Z.to_nat (Z.max (a_max_shed_per_wave a) 1) in
      '(victims, repaired) ←
        (if bool_decide (queued_sessions demand = 0) && bool_decide (schedulable_hosts demand >= desired)
         then mark_repairs key budget (stuck_rolls obs) victims false
         else Ret (victims, false));
      let pinned := v_node <$> List.filter (fun v =>
        bool_decide (kind (v_record v) = Shed) && bool_decide (phase (v_record v) = Retiring)) victims in
      let planned := wave_of spec a hosts (pods obs) victims budget desired in
      let target := enabled (a_scale_down a) && bool_decide (desired < schedulable_hosts demand) &&
                    bool_decide (queued_sessions demand = 0) && bool_decide (unavail = 0) in
      now ← ask MonoNow;
      let '(ticks, hyst) :=
        observe_at (target && match victims with [] => true | _ => false end) now (hysteresis m) in
      let m := m <| hysteresis := hyst |> in
      let can_start := target && roll_idle obs &&
                       bool_decide (ticks >= Z.max (scale_down_hysteresis_ticks a) 1) in
      let planned := List.filter (fun n => bool_decide (n ∈ pinned) || can_start) planned in
      victims ← mark_sheds key (secs (drain_timeout_seconds spec)) planned victims;
      Ret (Ok (victims, planned, repaired), m)
  end.

(** Whether pending retirement meets back-pressure: the demand is read again. *)
Definition pressure (policy : option AutoscalePolicy) (r : Retirement) : async bool :=
  match r with
  | Pending _ =>
      do! fresh := coord_fleet_demand in
      okay (bool_decide (queued_sessions fresh > 0) ||
            match policy with
            | Some p => bool_decide (desired_hosts fresh p > schedulable_hosts fresh)
            | None => false
            end)
  | _ => okay false
  end.

(** [Ok true]: the victim is done with. *)
Definition victim_remove (v : Victim) : async bool :=
  do! record :=
    (if bool_decide (phase (v_record v) = Removing) then okay (v_record v)
     else mark_victim (v_node v) ((v_record v) <| phase := Removing |>)) in
  if negb (deleting v) then
    do! _ := cloud (RemoveNode (fleet record) (v_node v)) in
    okay false
  else
    do! _ := coord_delete_host (from_node_name (v_node v)) in
    do! _ := clear_victim (v_node v) false in
    okay true.

Definition victim_step (policy : option AutoscalePolicy) (planned : list string) (v : Victim) :
    async bool :=
  do! next :=
    match plan_victim (v_record v) with
    | CallRetire =>
        do! r := retire_host (from_node_name (v_node v)) CORDON_OWNER (kind_label (kind (v_record v))) in
        do! p := pressure policy r in
        now ← ask WallNow;
        okay (after_retire (v_record v) r (bool_decide (v_node v ∈ planned)) p now)
    | next => okay next
    end in
  match next with
  | Remove => victim_remove v
  | Release reason => do! _ := release v reason in okay true
  | Hold => okay false
  | CallRetire => okay false
  end.

(** A failed victim keeps its record and is retried; the others go on. *)
Fixpoint victims_loop (policy : option AutoscalePolicy) (planned : list string) (l : list Victim) :
    op (list Victim) :=
  match l with
  | [] => Ret []
  | v :: l' =>
      r ← victim_step policy planned v;
      remaining ← victims_loop policy planned l';
      Ret (match r with Ok true => remaining | _ => v :: remaining end)
  end.

(** [blocks_roll]. *)
Definition step (spec : HostFleetSpec) (scaler : bool) (obs : FleetObservation) (m : Mem) :
    op (result bool OperatorError * Mem) :=
  r ← (do! demand := coord_fleet_demand in
       do! hosts := list_hosts in
       okay (demand, hosts));
  match r with
  | Err e => Ret (Err e, m)
  | Ok (demand, hosts) =>
      let key := fleet_key spec in
      let victims := node_victims (if autoscaling spec then key else "") in
      let policy := policy_of <$> autoscaling spec in
      let desired := match policy with
                     | Some p => desired_hosts demand p
                     | None => schedulable_hosts demand
                     end in
      if negb scaler then Ret (Ok false, m)
      else
        t ← track_node_ready (pods obs) hosts (node_ready m);
        let m := m <| node_ready := t |> in
        '(r, m) ← (match autoscaling spec with
                    | Some a => plan_step spec a obs demand hosts desired victims m
                    | None => Ret (Ok (victims, [], false), m)
                    end);
        match r with
        | Err e => Ret (Err e, m)
        | Ok (victims, planned, repaired) =>
            let victims := sort_by (cmp_leb (cmp_on (fun v =>
              negb (bool_decide (kind (v_record v) = Repair))) Bool.compare)) victims in
            remaining ← victims_loop policy planned victims;
            let stuck_without_repair :=
              match autoscaling spec with None => true | Some _ => false end &&
              match stuck_rolls obs with [] => false | _ => true end in
            Ret (Ok (repaired || match remaining with [] => false | _ => true end ||
                     stuck_without_repair), m)
        end
  end.

End snapshot.

(** ** [reconcile.rs] *)

Definition on_target (image node_assets_image : string) (p : PodInfo) : bool :=
  bool_decide (host_image p = image) && bool_decide (init_image p = node_assets_image).

Inductive RollDecision : Type :=
| UpToDate (total : nat)
| WaitForReady
| BlockedByFloor (schedulable : nat) (floor : Z)
| RollNode (node pod : string).

Definition plan_roll (pods : list PodInfo) (image node_assets_image : string) (floor : Z) :
    RollDecision :=
  let stale := List.filter (fun p => negb (on_target image node_assets_image p)) pods in
  match stale with
  | [] => UpToDate (length pods)
  | _ =>
      if existsb (fun p => negb (ready p)) pods then WaitForReady else
      let schedulable := length (List.filter ready pods) in
      if bool_decide (saturating_sub (as_u32 (Z.of_nat schedulable)) 1 < floor)
      then BlockedByFloor schedulable floor
      else match sort_by (cmp_leb (cmp_on pi_node String.compare)) stale with
           | next :: _ => RollNode (pi_node next) (pi_name next)
           | [] => UpToDate (length pods)
           end
  end.

Definition successor_ready (pods : list PodInfo) (node image node_assets_image : string) : bool :=
  existsb (fun p => bool_decide (pi_node p = node) && ready p && on_target image node_assets_image p)
    pods.

Definition leaked_roll_cordons (marked : list string) (pods : list PodInfo)
    (image node_assets_image : string) : list string :=
  List.filter (fun n => successor_ready pods n image node_assets_image) marked.

Definition roll_stuck_nodes (nodes : list Node) (recovery_key : string) : list string :=
  n_name <$> List.filter (fun n =>
    bool_decide (n_annotations n !! ROLL_STUCK_ANNOTATION = Some recovery_key)) nodes.

Definition MAX_HANDOFF_TTL_SECS : Z := 86400.

Definition saturating_add_u64 (a b : Z) : Z := Z.min u64_max (a + b).

Definition roll_handoff_ttl_secs (spec : HostFleetSpec) : Z :=
  let sized := saturating_add_u64
    (saturating_add_u64 (enable_work_timeout_seconds spec) (drain_timeout_seconds spec)) 120 in
  if decide (sized > MAX_HANDOFF_TTL_SECS) then MAX_HANDOFF_TTL_SECS else sized.

Definition set_node_roll_cordon (node : string) (on : bool) : async unit :=
  kube (PatchNode node (MkPatch [(ROLL_CORDON_ANNOTATION, if on then Some "true" else None)]
                          None (Some on))).

Definition set_node_roll_stuck (node : string) (recovery_key : option string) : async unit :=
  kube (PatchNode node (MkPatch [(ROLL_STUCK_ANNOTATION, recovery_key)] None None)).

Definition clear_node_roll_markers (node : string) : async unit :=
  kube (PatchNode node (MkPatch [(ROLL_CORDON_ANNOTATION, None); (ROLL_STUCK_ANNOTATION, None)]
                          None (Some false))).

Fixpoint release_cordons (nodes : list string) : async unit :=
  match nodes with
  | [] => okay tt
  | node :: nodes' =>
      do! _ := coord_uncordon (from_node_name node) CORDON_OWNER in
      do! _ := clear_node_roll_markers node in
      release_cordons nodes'
  end.

Definition converge_roll_cordons (spec : HostFleetSpec) (pods : list PodInfo) (nodes : list Node) :
    async unit :=
  let marked := n_name <$> List.filter (fun n =>
    bool_decide (is_Some (n_annotations n !! ROLL_CORDON_ANNOTATION)) &&
    negb (bool_decide (is_Some (n_annotations n !! VICTIM_ANNOTATION)))) nodes in
  release_cordons (leaked_roll_cordons marked pods (image spec) (node_assets_image spec)).

Definition ensure_ds_images (ds : DaemonSet) (image node_assets_image : string) : async unit :=
  if bool_decide (ds_host_image ds = Some image) &&
     bool_decide (ds_init_image ds = Some node_assets_image) then okay tt
  else kube (PatchDsImages image node_assets_image).

Definition list_ds_pods (ds : DaemonSet) : async (list PodInfo) :=
  match ds_match_labels ds with
  | None => Ret (Err (Invalid "DaemonSet has no matchLabels selector"))
  | Some labels => do! l := kube (ListPods labels) in okay (pod_info <$> l)
  end.

Definition list_managed_nodes (ds : DaemonSet) : async (list Node) :=
  match ds_node_selector ds with
  | None | Some [] =>
      Ret (Err (Invalid "host-agent DaemonSet must have a nodeSelector for scoped Node reads"))
  | Some labels => kube (ListNodes labels)
  end.

Definition never {A} : op A := Do Never (fun x => match x : Empty_set with end).

(** The two gates poll until their deadline; [fuel] bounds the number of polls
    of a run that is looked at, and a run that needs more stops there. *)
Fixpoint enable_work_loop (fuel : nat) (host : HostId) (deadline : DateTime) (errors : Z) : op unit :=
  match fuel with
  | O => never
  | S fuel' =>
      let again errors := _ ← ask (Sleep (secs 5)); enable_work_loop fuel' host deadline errors in
      r ← host_status host;
      match r with
      | Ok None => Ret tt
      | Ok (Some st) =>
          if negb (has_enable_work st) then Ret tt else
          now ← ask MonoNow;
          if bool_decide (now >= deadline) then Ret tt else again 0
      | Err _ =>
          let errors := errors + 1 in
          if bool_decide (errors >= 6) then Ret tt else
          now ← ask MonoNow;
          if bool_decide (now >= deadline) then Ret tt else again errors
      end
  end.

Definition gate_enable_work (fuel : nat) (host : HostId) (budget : Duration) : op unit :=
  if bool_decide (budget = 0) then Ret tt else
  now ← ask MonoNow; enable_work_loop fuel host (now + budget) 0.

Fixpoint successor_loop (fuel : nat) (spec : HostFleetSpec) (node : string) (deadline : DateTime) :
    async unit :=
  match fuel with
  | O => never
  | S fuel' =>
      do! ds := kube GetDaemonSet in
      do! pods := list_ds_pods ds in
      if successor_ready pods node (image spec) (node_assets_image spec) then okay tt else
      now ← ask MonoNow;
      if bool_decide (now >= deadline) then Ret (Err (RollTimeout node)) else
      _ ← ask (Sleep (secs 5));
      successor_loop fuel' spec node deadline
  end.

Definition gate_successor_ready (fuel : nat) (spec : HostFleetSpec) (node : string)
    (budget : Duration) : async unit :=
  now ← ask MonoNow; successor_loop fuel spec node (now + budget).

Definition roll_node (fuel : nat) (spec : HostFleetSpec) (node pod recovery_key : string) :
    async unit :=
  let host := from_node_name node in
  do! _ := set_node_roll_cordon node true in
  do! _ := coord_cordon host CORDON_OWNER in
  do! _ := coord_handoff host (roll_handoff_ttl_secs spec) in
  _ ← gate_enable_work fuel host (secs (enable_work_timeout_seconds spec));
  do! _ := kube (DeletePod pod) in
  successor ← gate_successor_ready fuel spec node (secs (drain_timeout_seconds spec));
  match successor with
  | Err (RollTimeout n) =>
      do! _ := set_node_roll_stuck node (Some recovery_key) in
      Ret (Err (RollTimeout n))
  | Err e => Ret (Err e)
  | Ok _ =>
      do! _ := coord_uncordon host CORDON_OWNER in
      clear_node_roll_markers node
  end.

Definition has_victim_annotation (n : Node) : bool :=
  bool_decide (is_Some (n_annotations n !! VICTIM_ANNOTATION)).

Definition steady_reconcile_interval (autoscaling_enabled : bool) : Duration :=
  if autoscaling_enabled then secs 1 else secs 60.

(** The result is the delay after which to reconcile again. *)
Definition reconcile (fuel : nat) (spec : HostFleetSpec) (scaler : bool) (m : Mem) :
    op (result Duration OperatorError * Mem) :=
  r ← (do! ds := kube GetDaemonSet in
       do! _ := ensure_ds_images ds (image spec) (node_assets_image spec) in
       do! pods := list_ds_pods ds in
       do! nodes := list_managed_nodes ds in
       okay (pods, nodes));
  match r with
  | Err e => Ret (Err e, m)
  | Ok (pods, nodes) =>
      _ ← converge_roll_cordons spec pods nodes;
      let recovery_key := fleet_key spec in
      let stuck := roll_stuck_nodes nodes recovery_key in
      let decision := plan_roll pods (image spec) (node_assets_image spec) (capacity_floor spec) in
      let roll_idle := match decision with UpToDate _ => true | _ => false end in
      '(r, m) ← step nodes spec scaler (MkObs pods roll_idle stuck) m;
      let blocks_roll := match r with Ok b => b | Err _ => existsb has_victim_annotation nodes end in
      if blocks_roll then Ret (Ok (secs 10), m) else
      match decision with
      | UpToDate _ =>
          Ret (Ok (steady_reconcile_interval (if autoscaling spec then true else false)), m)
      | WaitForReady => Ret (Ok (secs 10), m)
      | BlockedByFloor _ _ => Ret (Ok (secs 30), m)
      | RollNode node pod =>
          if existsb (fun n => bool_decide (n_name n = node) && has_victim_annotation n) nodes
          then Ret (Ok (secs 10), m)
          else
            r ← roll_node fuel spec node pod recovery_key;
            Ret (match r with Ok _ => Ok (secs 5) | Err e => Err e end, m)
      end
  end.

End operator.

End Operator.
