(* ===== verification/OperatorProps.v ===== *)
(** * The host operator: theorems

    A node is removed from the cloud only after the coordinator granted its
    retirement, a pod is killed only behind a cordon and a handoff, whatever
    the answers and wherever a reconcile is cut; scale-down waits in minutes,
    not in reconciles; and a shed victim ends. *)

From S2P Require Import Prelude Prog Scaler Operator.
Local Open Scope Z_scope.

Module OperatorProps.
Import Operator.

Section props.

Context (from_node_name : string → HostId) (parse_host_id : string → option HostId).
Context (victim_to_json : VictimRecord → option string)
        (victim_of_json : string → option VictimRecord).

(** The codec of the record decodes what it encoded. *)
Definition codec_ok : Prop :=
  ∀ r s, victim_to_json r = Some s → victim_of_json s = Some r.

Notation history := (list (event req)) (only parsing).

(** ** Removal *)

(** The answer of a [RetireHost] of [host], as [retire_host] reads it. *)
Definition retire_answer (host : HostId) (e : event req) : option Retirement :=
  match ev_req e in req X return X → option Retirement with
  | RetireHost h _ _ => fun x =>
      if bool_decide (h = host) then
        match x with
        | Ok r => Some (retirement_from_response r)
        | Err NotFound => Some NoRow
        | Err FailedPrecondition => Some Foreign
        | Err _ => None
        end
      else None
  | _ => fun _ => None
  end (ev_ans e).

Definition granted (host : HostId) (h : history) : Prop :=
  ∃ e, e ∈ h ∧ retire_answer host e = Some Granted.

(** The last answer about a host. *)
Fixpoint last_retire (host : HostId) (h : history) : option Retirement :=
  match h with
  | [] => None
  | e :: h' => match last_retire host h' with
               | Some r => Some r
               | None => retire_answer host e
               end
  end.

(** A successful [DeleteHost]. *)
Definition deleted (host : HostId) (h : history) : Prop :=
  ∃ e, e ∈ h ∧
  match ev_req e in req X return X → Prop with
  | DeleteHost h' => fun x => h' = host ∧ x = Ok tt
  | _ => fun _ => False
  end (ev_ans e).

(** A listing showed the node of [host] being deleted. *)
Definition seen_deleting (host : HostId) (h : history) : Prop :=
  ∃ e, e ∈ h ∧
  match ev_req e in req X return X → Prop with
  | ListNodes _ => fun x => ∃ nodes n, x = Ok nodes ∧ n ∈ nodes ∧
      from_node_name (n_name n) = host ∧ n_deletion_timestamp n = true
  | _ => fun _ => False
  end (ev_ans e).

(** A patch of [node] wrote the victim record [raw]. *)
Definition wrote_victim (node raw : string) (h : history) : Prop :=
  ∃ e, e ∈ h ∧
  match ev_req e with
  | PatchNode n p => n = node ∧ (VICTIM_ANNOTATION, Some raw) ∈ pa_annotations p
  | _ => False
  end.

(** The environment: a victim annotation found on a Node was written by an
    earlier patch of that Node, whether or not that patch was acknowledged. *)
Definition ans (h : history) : ∀ X, req X → X → Prop :=
  fun X q => match q in req X return X → Prop with
  | ListNodes _ => fun x => ∀ nodes n raw, x = Ok nodes → n ∈ nodes →
      n_annotations n !! VICTIM_ANNOTATION = Some raw → wrote_victim (n_name n) raw h
  | _ => fun _ => True
  end.

(** What must hold when a request is made. *)
Definition can_remove (h : history) : ∀ X, req X → Prop :=
  fun X q => match q with
  | RemoveNode _ n => granted (from_node_name n) h
  | DeleteHost host => granted host h ∧ seen_deleting host h
  | PatchNode n p =>
      (∀ raw rec, (VICTIM_ANNOTATION, Some raw) ∈ pa_annotations p →
         victim_of_json raw = Some rec → phase rec = Removing → granted (from_node_name n) h) ∧
      ((VICTIM_ANNOTATION, None) ∈ pa_annotations p →
         deleted (from_node_name n) h ∨
         ∃ r, last_retire (from_node_name n) h = Some r ∧ r ≠ Granted)
  | _ => True
  end.

(** Requests that need nothing. *)
Definition harmless (X : Type) (q : req X) : Prop :=
  match q with
  | RemoveNode _ _ | DeleteHost _ => False
  | PatchNode _ p => ∀ v, (VICTIM_ANNOTATION, v) ∉ pa_annotations p
  | _ => True
  end.

Lemma harmless_can h X (q : req X) : harmless X q → can_remove h X q.
Proof.
  destruct q; simpl; try done. intros H. split.
  - intros raw rec Hin. by destruct (H (Some raw)).
  - intros Hin. by destruct (H None).
Qed.

Lemma granted_app host h t : granted host h → granted host (h ++ t).
Proof. intros (e&He&?). exists e. set_solver. Qed.

Lemma seen_deleting_app host h t : seen_deleting host h → seen_deleting host (h ++ t).
Proof. intros (e&He&?). exists e. set_solver. Qed.

Lemma last_retire_app host h t :
  last_retire host (h ++ t) =
    match last_retire host t with Some r => Some r | None => last_retire host h end.
Proof.
  induction h as [|e h IH]; simpl; [by destruct (last_retire host t)|].
  rewrite IH. by destruct (last_retire host t).
Qed.

(** *** What a snapshot says *)

Record snap_ok (nodes : list Node) (h : history) : Prop := {
  so_removing n raw rec :
    n ∈ nodes → n_annotations n !! VICTIM_ANNOTATION = Some raw →
    victim_of_json raw = Some rec → phase rec = Removing → granted (from_node_name (n_name n)) h;
  so_deleting n :
    n ∈ nodes → n_deletion_timestamp n = true → seen_deleting (from_node_name (n_name n)) h;
}.

Lemma snap_ok_app nodes h t : snap_ok nodes h → snap_ok nodes (h ++ t).
Proof. intros []. split; eauto using granted_app, seen_deleting_app. Qed.

Lemma wrote_granted h n raw rec :
  allowed can_remove h → wrote_victim n raw h → victim_of_json raw = Some rec →
  phase rec = Removing → granted (from_node_name n) h.
Proof.
  intros Hh (e&He&Hw) Hr Hp. apply list_elem_of_split in He as (h1&h2&->).
  pose proof (Hh h1 e h2 eq_refl) as Hc. destruct e as [X q x]. simpl in *.
  destruct q; try done. destruct Hw as [-> Hw]. destruct Hc as [Hc _].
  apply granted_app. by eapply Hc.
Qed.

Record victim_ok (h : history) (v : Victim) : Prop := {
  vo_removing : phase (v_record v) = Removing → granted (from_node_name (v_node v)) h;
  vo_deleting : deleting v = true → seen_deleting (from_node_name (v_node v)) h;
}.

Lemma victim_ok_app h t v : victim_ok h v → victim_ok (h ++ t) v.
Proof. intros []. split; eauto using granted_app, seen_deleting_app. Qed.

Lemma node_victims_ok nodes fl h v :
  snap_ok nodes h → v ∈ node_victims victim_of_json nodes fl → victim_ok h v.
Proof.
  intros [Hr Hd] (n&Hn&Hv)%list_elem_of_omap. unfold node_victim in Hv.
  destruct (n_annotations n !! VICTIM_ANNOTATION) as [raw|] eqn:Ea; [|done]. simpl in Hv.
  destruct (victim_of_json raw) as [rec|] eqn:Ej; [|done]. simpl in Hv.
  case_match; [|done]. simplify_eq. split; simpl; eauto.
Qed.

(** *** The programs *)

Notation wpr := (wp ans can_remove) (only parsing).

(** Harmless requests that do not ask for a retirement either. *)
Definition quiet (X : Type) (q : req X) : Prop :=
  harmless X q ∧ match q with RetireHost _ _ _ => False | _ => True end.

Lemma wp_harmless {A} h (p : prog req A) (Q : history → A → Prop) :
  all_req harmless p → (∀ t a, Q (h ++ t) a) → wpr h p Q.
Proof.
  intros Hp HQ. eapply wp_mono, (wp_all_req harmless); [|done|apply harmless_can].
  intros h' a (t&->&_). apply HQ.
Qed.

Lemma wp_harmless_allowed {A} h (p : prog req A) (Q : history → A → Prop) :
  allowed can_remove h → all_req harmless p → (∀ h' a, allowed can_remove h' → Q h' a) → wpr h p Q.
Proof.
  intros Hh Hp HQ. eapply wp_mono, wp_allowed, (wp_harmless h p (fun _ _ => True)); [|done..].
  intros h' a [Hh' _]. by apply HQ.
Qed.

Lemma quiet_retire host t :
  Forall (fun e => quiet _ (ev_req e)) t → last_retire host t = None.
Proof.
  induction 1 as [|[X q x] t [_ Hq] _ IH]; [done|]. simpl in *. rewrite IH.
  by destruct q.
Qed.

Lemma wp_quiet {A} h (p : prog req A) (Q : history → A → Prop) :
  all_req quiet p →
  (∀ t a, (∀ host, last_retire host (h ++ t) = last_retire host h) → Q (h ++ t) a) → wpr h p Q.
Proof.
  intros Hp HQ. eapply wp_mono, (wp_all_req quiet); [|done|].
  - intros h' a (t&->&Ht). apply HQ. intros host.
    by rewrite last_retire_app, (quiet_retire host t Ht).
  - intros h' X q [Hq _]. by apply harmless_can.
Qed.

Lemma wp_retire_host h host owner reason (Q : history → result Retirement OperatorError → Prop) :
  (∀ t r, last_retire host (h ++ t) = Some r → (r = Granted → granted host (h ++ t)) →
          Q (h ++ t) (Ok r)) →
  (∀ t e, Q (h ++ t) (Err e)) →
  wpr h (retire_host host owner reason) Q.
Proof.
  intros HQ He. unfold retire_host. apply wp_bind, wp_ask; [done|]. intros x _.
  assert (∀ r, retire_answer host (Ev (RetireHost host owner reason) x) = Some r →
               Q (h ++ [Ev (RetireHost host owner reason) x]) (Ok r)) as HQ'.
  { intros r Hr. apply HQ.
    - rewrite last_retire_app. cbn [last_retire]. by rewrite Hr.
    - intros ->. eexists. split; [|exact Hr]. set_solver. }
  cbn [retire_answer ev_req ev_ans] in HQ'. rewrite bool_decide_eq_true_2 in HQ' by done.
  destruct x as [r|[]]; apply wp_ret; [by apply HQ'|by apply HQ'|by apply HQ'|apply He].
Qed.

Lemma remark_keeps nodes n rec rec' :
  remark victim_of_json nodes n rec = Ok rec' → phase rec' = phase rec ∧ fleet rec' = fleet rec.
Proof. unfold remark. intros H. by destr_match H. Qed.

Lemma wp_mark_victim nodes h n rec (Q : history → result VictimRecord OperatorError → Prop) :
  codec_ok → (phase rec = Removing → granted (from_node_name n) h) →
  (∀ t rec', phase rec' = phase rec → Q (h ++ t) (Ok rec')) → (∀ t e, Q (h ++ t) (Err e)) →
  wpr h (mark_victim victim_to_json victim_of_json nodes n rec) Q.
Proof.
  intros Hcod Hg HQ He. unfold mark_victim. apply wp_try, wp_ret.
  assert (Hnil : ∀ e, Q h (Err e)) by (intros e; rewrite <- (app_nil_r h); apply He).
  destruct (remark victim_of_json nodes n rec) as [rec'|e] eqn:Er; [|apply Hnil].
  destruct (remark_keeps _ _ _ _ Er) as [Hp _]. apply wp_try, wp_ret.
  unfold mark_victim_patch. destruct (victim_to_json rec') as [raw|] eqn:Ej; [|apply Hnil].
  apply wp_try, wp_ask_err.
  - simpl. split.
    + intros raw' r Hin Hj Hph. apply Hg. rewrite <- Hp.
      assert (raw' = raw) as -> by (set_solver). rewrite (Hcod _ _ Ej) in Hj. by simplify_eq.
    + intros Hin. exfalso. set_solver.
  - intros [u|e] _; [|apply He]. by apply HQ.
Qed.

Lemma wp_clear_victim nodes h n u (Q : history → result unit OperatorError → Prop) :
  deleted (from_node_name n) h ∨ (∃ r, last_retire (from_node_name n) h = Some r ∧ r ≠ Granted) →
  (∀ t x, Q (h ++ t) x) → wpr h (clear_victim nodes n u) Q.
Proof.
  intros Hd HQ. unfold clear_victim. apply wp_bind, wp_ask.
  - simpl. split; [|done]. intros raw rec Hin. exfalso. set_solver.
  - intros x _. apply HQ.
Qed.

Lemma wp_release nodes h v reason (Q : history → result unit OperatorError → Prop) :
  (∃ r, last_retire (from_node_name (v_node v)) h = Some r ∧ r ≠ Granted) →
  (∀ t x, Q (h ++ t) x) → wpr h (release from_node_name nodes v reason) Q.
Proof.
  intros Hr HQ. unfold release. apply wp_try, wp_quiet.
  { requests; try done; by split. }
  intros t [u|e] Hl; [|apply HQ]. apply wp_clear_victim.
  - right. by rewrite Hl.
  - intros. rewrite <- app_assoc. apply HQ.
Qed.

Lemma wp_victim_remove nodes h v (Q : history → result bool OperatorError → Prop) :
  codec_ok → victim_ok h v → granted (from_node_name (v_node v)) h →
  (∀ t x, Q (h ++ t) x) →
  wpr h (victim_remove from_node_name victim_to_json victim_of_json nodes v) Q.
Proof.
  intros Hcod Hv Hg HQ. unfold victim_remove. apply wp_try.
  assert (∀ t rec, wpr (h ++ t)
    (if negb (deleting v) then
       do! _ := cloud (RemoveNode (fleet rec) (v_node v)) in okay false
     else do! _ := coord_delete_host (from_node_name (v_node v)) in
          do! _ := clear_victim nodes (v_node v) false in okay true) Q) as Hrest.
  { intros t rec. destruct (deleting v) eqn:Ed; simpl negb; cbv iota.
    - apply wp_try, wp_ask_err.
      + split; [by apply granted_app|]. apply seen_deleting_app. by apply Hv.
      + intros [[]|e] _; [|rewrite <- app_assoc; apply HQ].
        apply wp_try, wp_clear_victim.
        * left. eexists. split; [apply elem_of_app; right; by left|]. by split.
        * intros t' [u|e]; rewrite <- !app_assoc; apply HQ.
    - apply wp_try, wp_ask_err; [by apply granted_app|].
      intros [u|e] _; rewrite <- app_assoc; apply HQ. }
  case_bool_decide.
  - apply wp_ret. rewrite <- (app_nil_r h). apply Hrest.
  - apply wp_mark_victim; [done|done| |intros; apply HQ]. intros t rec' _. apply Hrest.
Qed.

Lemma wp_pressure policy h r (Q : history → result bool OperatorError → Prop) :
  (∀ t x, (∀ host, last_retire host (h ++ t) = last_retire host h) → Q (h ++ t) x) →
  wpr h (pressure policy r) Q.
Proof.
  intros HQ. apply wp_quiet; [|done]. unfold pressure, coord_fleet_demand, rpc. requests; done.
Qed.

Lemma wp_victim_step nodes policy planned h v (Q : history → result bool OperatorError → Prop) :
  codec_ok → victim_ok h v → (∀ t x, Q (h ++ t) x) →
  wpr h (victim_step from_node_name victim_to_json victim_of_json nodes policy planned v) Q.
Proof.
  intros Hcod Hv HQ. unfold victim_step. apply wp_try.
  unfold plan_victim. destruct (phase (v_record v)) eqn:Eph; last first.
  { apply wp_ret, wp_victim_remove; try done. by apply Hv. }
  apply wp_try, wp_retire_host; [|intros; apply HQ]. intros t r Hl Hg.
  apply wp_try, wp_pressure. intros t' [p|e] Hl'; [|rewrite <- app_assoc; apply HQ].
  apply wp_bind, wp_quiet; [by repeat split|]. intros t'' now Hl''. apply wp_ret.
  set (h' := ((h ++ t) ++ t') ++ t'').
  assert (Hlast : last_retire (from_node_name (v_node v)) h' = Some r) by (by rewrite Hl'', Hl').
  assert (Hh' : ∃ u, h' = h ++ u) by (eexists; unfold h'; by rewrite <- !app_assoc).
  destruct Hh' as [u Hh']. rewrite Hh' in *.
  assert (HQ' : ∀ t x, Q ((h ++ u) ++ t) x) by (intros; rewrite <- app_assoc; apply HQ).
  destruct (after_retire (v_record v) r _ p now) as [| |reason|] eqn:En; try by apply HQ.
  - apply wp_victim_remove; try done; [by apply victim_ok_app|].
    rewrite <- Hh'. unfold h'. apply granted_app, granted_app, Hg.
    unfold after_retire in En. by destr_match En.
  - apply wp_try, wp_release.
    + exists r. split; [done|]. intros ->. by unfold after_retire in En.
    + intros t3 [x|e]; apply HQ'.
Qed.

Lemma wp_victims_loop nodes policy planned l h (Q : history → list Victim → Prop) :
  codec_ok → Forall (victim_ok h) l → (∀ t x, Q (h ++ t) x) →
  wpr h (victims_loop from_node_name victim_to_json victim_of_json nodes policy planned l) Q.
Proof.
  intros Hcod. revert h Q. induction l as [|v l IH]; intros h Q Hl HQ; simpl.
  { rewrite <- (app_nil_r h). apply HQ. }
  apply Forall_cons in Hl as [Hv Hl]. apply wp_bind, wp_victim_step; [done|done|].
  intros t r. apply wp_bind, IH.
  { eapply Forall_impl; [exact Hl|]. intros. by apply victim_ok_app. }
  intros t' rem. apply wp_ret. rewrite <- app_assoc. apply HQ.
Qed.

Lemma victims_ok_app h t l : Forall (victim_ok h) l → Forall (victim_ok (h ++ t)) l.
Proof. intros Hl. eapply Forall_impl; [exact Hl|]. intros. by apply victim_ok_app. Qed.

Lemma victims_ok_snoc h l n rec :
  Forall (victim_ok h) l → phase rec = Retiring → Forall (victim_ok h) (l ++ [MkVictim n rec false]).
Proof. intros Hl Hp. apply Forall_app. split; [done|]. repeat constructor; simpl; congruence. Qed.

Lemma wp_mark_repairs nodes key budget stuck l b h (Q : history → list Victim * bool → Prop) :
  codec_ok → Forall (victim_ok h) l →
  (∀ t l' b', Forall (victim_ok (h ++ t)) l' → Q (h ++ t) (l', b')) →
  wpr h (mark_repairs victim_to_json victim_of_json nodes key budget stuck l b) Q.
Proof.
  intros Hcod. revert l b h Q. induction stuck as [|n stuck IH]; intros l b h Q Hl HQ.
  { apply wp_ret. rewrite <- (app_nil_r h). apply HQ. by rewrite app_nil_r. }
  cbn [mark_repairs]. case_match.
  { apply wp_ret. rewrite <- (app_nil_r h). apply HQ. by rewrite app_nil_r. }
  case_match; [by apply IH|].
  apply wp_bind, wp_mark_victim; [done|done| |].
  - intros t rec Hp. apply IH; [by apply victims_ok_snoc, Hp; apply victims_ok_app|].
    intros t' l' b' Hl'. rewrite <- app_assoc in *. by apply HQ.
  - intros t e. apply IH; [by apply victims_ok_app|].
    intros t' l' b' Hl'. rewrite <- app_assoc in *. by apply HQ.
Qed.

Lemma wp_mark_sheds nodes key timeout planned l h (Q : history → list Victim → Prop) :
  codec_ok → Forall (victim_ok h) l →
  (∀ t l', Forall (victim_ok (h ++ t)) l' → Q (h ++ t) l') →
  wpr h (mark_sheds victim_to_json victim_of_json nodes key timeout planned l) Q.
Proof.
  intros Hcod. revert l h Q. induction planned as [|n planned IH]; intros l h Q Hl HQ.
  { apply wp_ret. rewrite <- (app_nil_r h). apply HQ. by rewrite app_nil_r. }
  cbn [mark_sheds]. case_match; [by apply IH|].
  apply wp_bind, wp_harmless; [by repeat split|]. intros t now.
  apply wp_bind, wp_mark_victim; [done|done| |].
  - intros t' rec Hp. rewrite <- app_assoc.
    apply IH; [by apply victims_ok_snoc, Hp; apply victims_ok_app|].
    intros t'' l' Hl'. rewrite <- app_assoc in *. by apply HQ.
  - intros t' e. rewrite <- app_assoc. apply IH; [by apply victims_ok_app|].
    intros t'' l' Hl'. rewrite <- app_assoc in *. by apply HQ.
Qed.

Lemma wp_grow a physical target m h (Q : history → result unit OperatorError * Mem → Prop) :
  (∀ t x, Q (h ++ t) x) → wpr h (grow a physical target m) Q.
Proof. intros HQ. apply wp_harmless; [|done]. unfold grow, cloud. requests; done. Qed.

Lemma wp_plan_step nodes spec a obs demand hosts desired l m h
    (Q : history → result (list Victim * list string * bool) OperatorError * Mem → Prop) :
  codec_ok → Forall (victim_ok h) l →
  (∀ t l' planned b m', Forall (victim_ok (h ++ t)) l' → Q (h ++ t) (Ok (l', planned, b), m')) →
  (∀ t e m', Q (h ++ t) (Err e, m')) →
  wpr h (plan_step from_node_name victim_to_json victim_of_json nodes spec a obs demand hosts
           desired l m) Q.
Proof.
  intros Hcod Hl HQ He. unfold plan_step. apply wp_bind, wp_grow. intros t [[u|e] m1]; [|apply He].
  apply wp_bind.
  set (Q1 := fun h' (x : list Victim * bool) => ∃ t, h' = h ++ t ∧ Forall (victim_ok h') x.1).
  eapply (wp_mono _ _ _ _ Q1).
  - intros h' [l' b] (t'&->&Hl'). simpl in Hl'. apply wp_bind, wp_harmless; [by repeat split|].
    intros t2 now. destruct (observe_at _ now _) as [tk hyst].
    apply wp_bind, wp_mark_sheds; [done|by apply victims_ok_app|].
    intros t3 l2 Hl2. rewrite <- !app_assoc in *. by apply HQ.
  - case_match.
    + apply wp_mark_repairs; [done|by apply victims_ok_app|]. intros t' l' b' Hl'.
      exists (t ++ t'). rewrite <- app_assoc in *. done.
    + apply wp_ret. exists t. split; [done|]. by apply victims_ok_app.
Qed.

Lemma harmless_track pods hosts t :
  all_req harmless (track_node_ready from_node_name pods hosts t).
Proof.
  unfold track_node_ready. destruct (observe_hosts _ _) as [fresh t'].
  revert t'. induction fresh as [|x fresh IH]; intros t'; simpl; [done|].
  case_match; [|apply IH]. split; [done|]. intros now. apply IH.
Qed.

Lemma wp_step nodes spec scaler obs m h (Q : history → result bool OperatorError * Mem → Prop) :
  codec_ok → snap_ok nodes h → (∀ t x, Q (h ++ t) x) →
  wpr h (step from_node_name parse_host_id victim_to_json victim_of_json nodes spec scaler obs m) Q.
Proof.
  intros Hcod Hs HQ. unfold step. apply wp_bind, wp_harmless.
  { unfold list_hosts, coord_fleet_demand, rpc. requests; done. }
  intros t [[demand hosts]|e]; [|apply HQ]. case_match; [apply HQ|].
  apply wp_bind, wp_harmless; [apply harmless_track|]. intros t2 tr. apply wp_bind.
  set (Q1 := fun h' (x : result (list Victim * list string * bool) OperatorError * Mem) =>
    ∃ t, h' = h ++ t ∧ match x.1 with Ok (l, _, _) => Forall (victim_ok h') l | Err _ => True end).
  eapply (wp_mono _ _ _ _ Q1).
  - intros h' [[[[l planned] b]|e] m'] (t3&->&Hl); [|apply HQ].
    simpl in Hl. apply wp_bind, wp_victims_loop; [done| |].
    + by rewrite sort_by_perm.
    + intros t4 rem. rewrite <- app_assoc. apply HQ.
  - assert (Hv : Forall (victim_ok ((h ++ t) ++ t2))
      (node_victims victim_of_json nodes (if autoscaling spec then fleet_key spec else ""))).
    { apply Forall_forall. intros v Hv. eapply node_victims_ok; [|exact Hv].
      by apply snap_ok_app, snap_ok_app. }
    destruct (autoscaling spec) as [a|].
    + apply wp_plan_step; [done|done| |].
      * intros t3 l' planned b m' Hl'. exists (t ++ t2 ++ t3). by rewrite <- !app_assoc in *.
      * intros t3 e m'. exists (t ++ t2 ++ t3). by rewrite <- !app_assoc.
    + apply wp_ret. exists (t ++ t2). by rewrite <- app_assoc in *.
Qed.

Lemma wp_list_managed_nodes ds h (Q : history → result (list Node) OperatorError → Prop) :
  allowed can_remove h →
  (∀ t nodes, snap_ok nodes (h ++ t) → Q (h ++ t) (Ok nodes)) → (∀ t e, Q (h ++ t) (Err e)) →
  wpr h (list_managed_nodes ds) Q.
Proof.
  intros Hh HQ He. unfold list_managed_nodes.
  assert (Hnil : ∀ e, Q h (Err e)) by (intros e; rewrite <- (app_nil_r h); apply He).
  destruct (ds_node_selector ds) as [[|l ls]|]; [apply Hnil| |apply Hnil].
  apply wp_ask_err; [done|]. intros [nodes|e] Hans; [|apply He].
  apply HQ. split.
  - intros n raw rec Hn Ha Hj Hp. apply granted_app.
    eapply wrote_granted; [done| |done|done]. by apply (Hans nodes n raw).
  - intros n Hn Hd. eexists. split; [apply elem_of_app; right; by left|].
    exists nodes, n. done.
Qed.

Lemma harmless_list_ds_pods ds : all_req harmless (list_ds_pods ds).
Proof. unfold list_ds_pods, kube. requests; done. Qed.

Lemma harmless_converge spec pods nodes :
  all_req harmless (converge_roll_cordons from_node_name spec pods nodes).
Proof.
  unfold converge_roll_cordons. induction (leaked_roll_cordons _ _ _ _) as [|n l IH]; [done|].
  cbn [release_cordons]. unfold coord_uncordon, rpc, clear_node_roll_markers, kube.
  requests; [done| |done]. simpl. intros v Hv. set_solver.
Qed.

Lemma harmless_gate_enable_work fuel host d : all_req harmless (gate_enable_work fuel host d).
Proof.
  unfold gate_enable_work. case_match; [done|]. split; [done|]. intros now. simpl.
  generalize 0 as errs. generalize (now + d) as dl.
  induction fuel as [|fuel IH]; intros dl errs; [by split; [|intros []]|].
  cbn [enable_work_loop]. unfold host_status. requests; try done.
Qed.

Lemma harmless_gate_successor fuel spec node d :
  all_req harmless (gate_successor_ready fuel spec node d).
Proof.
  unfold gate_successor_ready. split; [done|]. intros now. simpl.
  induction fuel as [|fuel IH]; [by split; [|intros []]|].
  cbn [successor_loop]. unfold kube. requests; try done. apply harmless_list_ds_pods.
Qed.

Lemma harmless_roll_node fuel spec node pod key :
  all_req harmless (roll_node from_node_name fuel spec node pod key).
Proof.
  unfold roll_node. unfold set_node_roll_cordon, coord_cordon, coord_handoff, set_node_roll_stuck,
    coord_uncordon, clear_node_roll_markers, rpc, kube.
  requests; try done; try apply harmless_gate_enable_work; try apply harmless_gate_successor;
    simpl; intros v Hv; set_solver.
Qed.

Lemma wp_reconcile fuel spec scaler m h :
  codec_ok → allowed can_remove h →
  wpr h (reconcile from_node_name parse_host_id victim_to_json victim_of_json fuel spec scaler m)
    (fun _ _ => True).
Proof.
  intros Hcod Hh. unfold reconcile. apply wp_bind.
  set (Q1 := fun h' (x : result (list PodInfo * list Node) OperatorError) =>
    match x with Ok (_, nodes) => snap_ok nodes h' | Err _ => True end).
  eapply (wp_mono _ _ _ _ Q1).
  - intros h' [[pods nodes]|e] Hs; [|done]. simpl in Hs.
    apply wp_bind, wp_harmless; [apply harmless_converge|]. intros t _.
    apply wp_bind, wp_step; [done|by apply snap_ok_app|]. intros t' [r m'].
    destruct (match r with Ok b => b | Err _ => _ end); [done|].
    destruct (plan_roll _ _ _ _); try done. case_match; [done|].
    apply wp_bind, wp_harmless; [apply harmless_roll_node|]. done.
  - apply wp_try, wp_harmless_allowed; [done|by repeat split|]. intros h1 [ds|e] Hh1; [|done].
    apply wp_try, wp_harmless_allowed; [done| |].
    { unfold ensure_ds_images, kube. requests; done. }
    intros h2 [u|e] Hh2; [|done].
    apply wp_try, wp_harmless_allowed; [done|apply harmless_list_ds_pods|].
    intros h3 [pods|e] Hh3; [|done]. apply wp_try, wp_list_managed_nodes; [done| |done].
    intros t nodes Hs. apply wp_ret. exact Hs.
Qed.

(** Reconciles one after the other, each with its own resource and memory, each
    finished or cut anywhere. *)
Inductive reconciles : history → Prop :=
| reconciles_nil : reconciles []
| reconciles_next h fuel spec scaler m h' o :
    reconciles h →
    runs ans h (reconcile from_node_name parse_host_id victim_to_json victim_of_json fuel spec
                  scaler m) h' o →
    reconciles h'.

(** C32. A node leaves the fleet only by a granted retirement.  In every history
    of reconciles, whatever the coordinator, Kubernetes and the cloud answer and
    wherever a reconcile is cut: a node is removed from its pool, and marked as
    being removed, only after the coordinator answered that its host is retired;
    the host's row is deleted only after that and after its Node was seen being
    deleted; and a victim's record is cleared only when the row was deleted or
    when the coordinator's last answer for it was not a grant. *)
Theorem operator_removes_only_retired h : codec_ok → reconciles h → allowed can_remove h.
Proof.
  intros Hcod. induction 1 as [|h fuel spec scaler m h' o _ IH Hr]; [apply allowed_nil|].
  eapply wp_adequate; [exact Hr| |exact IH]. by apply wp_reconcile.
Qed.

(** ** Rolling a pod *)

(** The polls of the enable-work gate. *)
Definition gate_req (host : HostId) (X : Type) (q : req X) : Prop :=
  match q with GetHost h => h = host | MonoNow | Sleep _ | Never => True | _ => False end.

(** The pods and nodes this reconcile listed. *)
Definition listed (pods : list PodInfo) (nodes : list Node) (h : history) : Prop :=
  (∃ labels (l : list Pod), Ev (ListPods labels) (Ok l) ∈ h ∧ pods = pod_info <$> l) ∧
  (∃ labels, Ev (ListNodes labels) (Ok nodes) ∈ h).

(** Just before, the node was cordoned in Kubernetes and in the coordinator and
    a handoff was declared for the whole replacement; since then only the
    enable-work gate has polled. *)
Definition shielded (spec : HostFleetSpec) (node : string) (h : history) : Prop :=
  ∃ h0 accepted gate,
    h = h0 ++ [Ev (PatchNode node (MkPatch [(ROLL_CORDON_ANNOTATION, Some "true")] None (Some true)))
                 (Ok tt);
               Ev (CordonHost (from_node_name node) CORDON_OWNER) (Ok tt);
               Ev (BeginHostHandoff (from_node_name node) (roll_handoff_ttl_secs spec)) (Ok accepted)]
           ++ gate ∧
    Forall (fun e => gate_req (from_node_name node) _ (ev_req e)) gate.

Definition can_roll (spec : HostFleetSpec) (h : history) : ∀ X, req X → Prop :=
  fun X q => match q with
  | DeletePod pod =>
      ∃ p pods nodes, pi_name p = pod ∧ p ∈ pods ∧ listed pods nodes h ∧
        on_target (image spec) (node_assets_image spec) p = false ∧
        (∀ p', p' ∈ pods → ready p' = true) ∧
        capacity_floor spec ≤ saturating_sub (as_u32 (Z.of_nat (length pods))) 1 ∧
        (∀ n, n ∈ nodes → n_name n = pi_node p → n_annotations n !! VICTIM_ANNOTATION = None) ∧
        shielded spec (pi_node p) h
  | _ => True
  end.

Definition keeps_pods (X : Type) (q : req X) : Prop :=
  match q with DeletePod _ => False | _ => True end.

Lemma keeps_pods_can spec h X (q : req X) : keeps_pods X q → can_roll spec h X q.
Proof. by destruct q. Qed.

Lemma plan_roll_node pods image assets floor node pod :
  plan_roll pods image assets floor = RollNode node pod →
  ∃ p, p ∈ pods ∧ pi_name p = pod ∧ pi_node p = node ∧ on_target image assets p = false ∧
    (∀ p', p' ∈ pods → ready p' = true) ∧
    floor ≤ saturating_sub (as_u32 (Z.of_nat (length pods))) 1.
Proof.
  unfold plan_roll. intros H.
  destruct (List.filter _ pods) as [|s0 stale] eqn:Est in H; [done|].
  destruct (existsb _ pods) eqn:Er; [done|]. case_bool_decide as Hf; [done|].
  destruct (sort_by _ (s0 :: stale)) as [|p l] eqn:El; [done|]. simplify_eq.
  assert (Hready : ∀ p', p' ∈ pods → ready p' = true).
  { intros p' Hp'. pose proof (proj1 (existsb_false _ _) Er p' Hp'). by apply negb_false_iff. }
  assert (Hp : p ∈ s0 :: stale).
  { rewrite <- (sort_by_perm (cmp_leb (cmp_on pi_node String.compare))), El. left. }
  rewrite <- Est, elem_of_filterb, negb_true_iff in Hp. destruct Hp as [Hp Ht].
  exists p. split_and!; try done.
  replace (List.filter ready pods) with pods in Hf; [lia|].
  clear -Hready. induction pods as [|p pods IH]; [done|]. simpl.
  rewrite (Hready p ltac:(left)). f_equal. apply IH. intros. apply Hready. by right.
Qed.

Lemma keeps_mark nodes n rec :
  all_req keeps_pods (mark_victim victim_to_json victim_of_json nodes n rec).
Proof. unfold mark_victim, kube. requests; done. Qed.

Lemma keeps_clear nodes n u : all_req keeps_pods (clear_victim nodes n u).
Proof. unfold clear_victim. requests; done. Qed.

Lemma keeps_mark_repairs nodes key budget stuck l b :
  all_req keeps_pods (mark_repairs victim_to_json victim_of_json nodes key budget stuck l b).
Proof.
  revert l b. induction stuck as [|n stuck IH]; intros l b; [done|]. cbn [mark_repairs].
  requests; try done; try apply keeps_mark; apply IH.
Qed.

Lemma keeps_mark_sheds nodes key d planned l :
  all_req keeps_pods (mark_sheds victim_to_json victim_of_json nodes key d planned l).
Proof.
  revert l. induction planned as [|n planned IH]; intros l; [done|]. cbn [mark_sheds].
  requests; try done; try apply keeps_mark; apply IH.
Qed.

Lemma keeps_victims_loop nodes policy planned l :
  all_req keeps_pods
    (victims_loop from_node_name victim_to_json victim_of_json nodes policy planned l).
Proof.
  induction l as [|v l IH]; [done|]. cbn [victims_loop].
  apply all_req_bind; [|intros; apply all_req_bind; [apply IH|done]].
  unfold victim_step, retire_host, pressure, release, victim_remove, coord_fleet_demand,
    coord_uncordon, coord_delete_host, rpc, cloud.
  requests; try done; try apply keeps_mark; apply keeps_clear.
Qed.

Lemma keeps_step nodes spec scaler obs m :
  all_req keeps_pods
    (step from_node_name parse_host_id victim_to_json victim_of_json nodes spec scaler obs m).
Proof.
  unfold step, list_hosts, coord_fleet_demand, rpc, plan_step, grow, cloud.
  repeat first [apply keeps_victims_loop | apply keeps_mark_repairs | apply keeps_mark_sheds
    | unfold track_node_ready; destruct (observe_hosts _ _) as [fresh t']; revert t';
      induction fresh as [|x fresh IH]; intros t'; simpl;
      [done|case_match; [split; [done|]; intros; apply IH|apply IH]]
    | progress requests | done].
Qed.

(** Nothing is assumed of the answers here. *)
Definition any (h : history) (X : Type) (q : req X) (x : X) : Prop := True.

Notation wpk spec := (wp any (can_roll spec)) (only parsing).

Lemma op_wp_keeps {A} spec h (p : prog req A) (Q : history → A → Prop) :
  all_req keeps_pods p → (∀ t a, Q (h ++ t) a) → wpk spec h p Q.
Proof.
  intros Hp HQ. eapply wp_mono, (wp_all_req keeps_pods); [|done|apply keeps_pods_can].
  intros h' a (t&->&_). apply HQ.
Qed.

Lemma gate_enable_work_reqs fuel host d : all_req (gate_req host) (gate_enable_work fuel host d).
Proof.
  unfold gate_enable_work. case_match; [done|]. split; [done|]. intros now. simpl.
  generalize 0 as errs. generalize (now + d) as dl.
  induction fuel as [|fuel IH]; intros dl errs; [by split; [|intros []]|].
  cbn [enable_work_loop]. unfold host_status. requests; done.
Qed.

Lemma keeps_list_ds_pods ds : all_req keeps_pods (list_ds_pods ds).
Proof. unfold list_ds_pods, kube. requests; done. Qed.

Lemma keeps_gate_successor fuel spec node d :
  all_req keeps_pods (gate_successor_ready fuel spec node d).
Proof.
  unfold gate_successor_ready. split; [done|]. intros now. simpl.
  induction fuel as [|fuel IH]; [by split; [|intros []]|].
  cbn [successor_loop]. unfold kube. requests; try done. apply keeps_list_ds_pods.
Qed.

Lemma keeps_converge spec pods nodes :
  all_req keeps_pods (converge_roll_cordons from_node_name spec pods nodes).
Proof.
  unfold converge_roll_cordons. induction (leaked_roll_cordons _ _ _ _) as [|n l IH]; [done|].
  cbn [release_cordons]. unfold coord_uncordon, rpc, clear_node_roll_markers, kube.
  requests; done.
Qed.

Lemma op_listed_app pods nodes h t : listed pods nodes h → listed pods nodes (h ++ t).
Proof. intros [(l1&l2&?&?) (l3&?)]. split; [exists l1, l2|exists l3]; set_solver. Qed.

Lemma wp_roll_node fuel spec h node pod key pods nodes :
  plan_roll pods (image spec) (node_assets_image spec) (capacity_floor spec) = RollNode node pod →
  listed pods nodes h →
  (∀ n, n ∈ nodes → n_name n = node → n_annotations n !! VICTIM_ANNOTATION = None) →
  wpk spec h (roll_node from_node_name fuel spec node pod key) (fun _ _ => True).
Proof.
  intros (p&Hp&<-&<-&Ht&Hr&Hf)%plan_roll_node Hl Hn. unfold roll_node.
  apply wp_try, wp_ask_err; [done|]. intros [[]|e] _; [|done].
  apply wp_try, wp_ask_err; [done|]. intros [[]|e] _; [|done].
  apply wp_try, wp_ask_err; [done|]. intros [b|e] _; [|done].
  set (h' := ((h ++ _) ++ _) ++ _). assert (∃ t, h' = h ++ t) as [t Eh'].
  { eexists. unfold h'. by rewrite <- !app_assoc. }
  apply wp_bind. eapply wp_mono; last first.
  { apply (wp_all_req (gate_req (from_node_name (pi_node p)))); [apply gate_enable_work_reqs|].
    intros ? X q ?. by destruct q. }
  intros h2 u (gate&->&Hgate). apply wp_try, wp_ask_err.
  - exists p, pods, nodes. split_and!; try done.
    + rewrite Eh', <- app_assoc. by apply op_listed_app.
    + exists h, b, gate. split; [|done]. unfold h'. by rewrite <- !app_assoc.
  - intros [v|e] _; [|done]. apply op_wp_keeps; [|done].
    unfold set_node_roll_stuck, clear_node_roll_markers, coord_uncordon, rpc, kube.
    requests; try done. apply keeps_gate_successor.
Qed.

(** A host-agent pod is killed only behind its shield.  In one reconcile,
    whatever the answers and wherever it is cut: the pod deleted is off target,
    every pod listed is ready, losing one keeps the capacity floor, its node
    carries no victim record, and right before, in this order, the node was
    cordoned in Kubernetes, cordoned in the coordinator and handed off for the
    budget of both gates. *)
Theorem roll_kills_only_shielded fuel spec scaler m h o :
  runs any [] (reconcile from_node_name parse_host_id victim_to_json victim_of_json fuel spec
                 scaler m) h o →
  allowed (can_roll spec) h.
Proof.
  intros Hr. refine (proj1 (wp_adequate _ _ _ _ (fun _ _ => True) _ _ Hr _ (allowed_nil _))).
  unfold reconcile. apply wp_bind.
  set (Q1 := fun h' (x : result (list PodInfo * list Node) OperatorError) =>
    match x with Ok (pods, nodes) => listed pods nodes h' | Err _ => True end).
  eapply (wp_mono _ _ _ _ Q1).
  - intros h' [[pods nodes]|e] Hs; [|done]. simpl in Hs.
    apply wp_bind, op_wp_keeps; [apply keeps_converge|]. intros t _.
    apply wp_bind, op_wp_keeps; [apply keeps_step|]. intros t' [r m'].
    destruct (match r with Ok b => b | Err _ => _ end); [done|].
    destruct (plan_roll _ _ _ _) as [| | |node pod] eqn:Ep; try done.
    destruct (existsb _ nodes) eqn:Ev; [done|]. apply wp_bind.
    eapply wp_mono, wp_roll_node; [done|done|by apply op_listed_app, op_listed_app|].
    intros n Hn <-. rewrite existsb_false in Ev. specialize (Ev n Hn). unfold has_victim_annotation in Ev.
    rewrite bool_decide_eq_true_2 in Ev by done. simpl in Ev. bool_prop.
    by apply eq_None_not_Some.
  - apply wp_try, op_wp_keeps; [by repeat split|]. intros t [ds|e]; [|done].
    apply wp_try, op_wp_keeps. { unfold ensure_ds_images, kube. requests; done. }
    intros t1 [u|e]; [|done]. apply wp_try. unfold list_ds_pods.
    destruct (ds_match_labels ds) as [labels|]; [|done].
    apply wp_try, wp_ask_err; [done|]. intros [l|e] _; [|done]. apply wp_ret, wp_try.
    unfold list_managed_nodes. destruct (ds_node_selector ds) as [[|s0 sel]|]; [done| |done].
    apply wp_ask_err; [done|]. intros [nodes|e] _; [|done]. apply wp_ret.
    split; [exists labels, l|exists (s0 :: sel)]; set_solver.
Qed.

End props.

(** ** Hysteresis *)

(** The count after a sequence of observations, each with its instant. *)
Definition observe_all (obs : list (bool * DateTime)) : Hysteresis :=
  fold_left (fun s o => (observe_at o.1 o.2 s).2) obs (MkHyst 0 None).

(** A run of observations that all ask for fewer hosts, from [t0] to [t1]. *)
Definition steady (obs : list (bool * DateTime)) (t0 t1 : DateTime) : Prop :=
  (∃ obs', obs = (true, t0) :: obs') ∧ (∃ obs', obs = obs' ++ [(true, t1)]) ∧
  Forall (fun o => o.1 = true) obs.

Lemma observe_all_spec obs :
  Sorted (fun a b => a.2 <= b.2) obs →
  match last_tick (observe_all obs) with
  | None => ticks (observe_all obs) = 0
  | Some l =>
      ∃ pre suf t0 t1, obs = pre ++ suf ∧ steady suf t0 t1 ∧ l ≤ t1 ∧
        (ticks (observe_all obs) - 1) * SCALE_DOWN_HYSTERESIS_TICK ≤ l - t0
  end.
Proof.
  intros Hs%Sorted_StronglySorted; [|intros ???; lia].
  induction obs as [|[b t] obs IH] using rev_ind; [done|].
  apply StronglySorted_app in Hs as (Hle&Hs&_). specialize (IH Hs).
  unfold observe_all in *. rewrite fold_left_app. simpl.
  set (st := fold_left _ obs _) in *. unfold observe_at. destruct b; simpl; [|done].
  destruct (last_tick st) as [l|] eqn:El; simpl; last first.
  { exists obs, [(true, t)], t, t. split_and!; [done| |lia|lia].
    split_and!; [by exists []|by exists []|by repeat constructor]. }
  destruct IH as (pre&suf&t0&t1&->&([s1 Hf]&[s2 Hl]&Hall)&Hlt&Hk).
  assert (Ht1 : t1 ≤ t).
  { apply (Hle (true, t1) (true, t)); [|by left]. rewrite Hl. set_solver. }
  assert (Hst : steady (suf ++ [(true, t)]) t0 t).
  { split_and!; [rewrite Hf; by eexists|by eexists|]. apply Forall_app. split; [done|by repeat constructor]. }
  case_decide as Hd; simpl; [|rewrite El].
  - exists pre, (suf ++ [(true, t)]), t0, t. rewrite <- app_assoc. split_and!; [done|done|lia|].
    unfold saturating_add_u32, SCALE_DOWN_HYSTERESIS_TICK, secs in *.
    destruct (Z.max_spec 0 (t - l)); nia.
  - exists pre, (suf ++ [(true, t)]), t0, t. rewrite <- app_assoc. split_and!; [done|done|lia|done].
Qed.

(** Scale-down waits in minutes, however often the operator reconciles.  If
    after any sequence of observations in time order the count is [k] or more
    (at least 1), the last ones all asked for fewer hosts and span at least
    [k - 1] minutes; a single observation that does not resets the count. *)
Theorem hysteresis_slow obs k :
  Sorted (fun a b => a.2 <= b.2) obs →
  1 ≤ k ≤ ticks (observe_all obs) →
  ∃ pre suf t0 t1, obs = pre ++ suf ∧ steady suf t0 t1 ∧ (k - 1) * secs 60 ≤ t1 - t0.
Proof.
  intros Hs Hk. pose proof (observe_all_spec obs Hs) as H.
  destruct (last_tick (observe_all obs)) as [l|]; [|lia].
  destruct H as (pre&suf&t0&t1&->&Hst&Hl&Hb). exists pre, suf, t0, t1. split_and!; [done|done|].
  unfold SCALE_DOWN_HYSTERESIS_TICK, secs in *. nia.
Qed.

Lemma hysteresis_slow_witness :
  let obs := [(true, secs 5); (false, secs 6); (true, secs 7); (true, secs 30); (true, secs 68);
              (true, secs 90); (true, secs 128)] in
  ticks (observe_all obs) = 3 ∧
  ∃ pre suf t0 t1, obs = pre ++ suf ∧ steady suf t0 t1 ∧ 2 * secs 60 ≤ t1 - t0.
Proof.
  intros obs. split; [by vm_compute|].
  apply (hysteresis_slow obs 3); [|by vm_compute].
  repeat constructor; by vm_compute.
Defined.

End OperatorProps.
