(* ===== verification/OperatorRun.v ===== *)
(** * The host operator on a working cluster

    A Kubernetes API, a coordinator and a cloud that answer, as a deterministic
    environment of the operator's programs: the hypotheses of the safety theorem
    hold of it, and every victim of a scale-down comes to an end. *)

From Stdlib Require Import Ascii.
From S2P Require Import Prelude Prog Scaler Operator OperatorProps.
Local Open Scope Z_scope.

Module Cluster.
Import Operator OperatorProps.

(** A merge patch on the annotations. *)
Definition patch_annotations (l : list (string * option string)) (m : gmap string string) :
    gmap string string :=
  fold_left (fun m kv => match kv.2 with Some v => <[kv.1 := v]> m | None => delete kv.1 m end) l m.

Definition apply_patch (p : NodePatch) (n : Node) : Node :=
  MkNode (n_name n) (patch_annotations (pa_annotations p) (n_annotations n))
    (default (n_finalizers n) (pa_finalizers p))
    (match pa_unschedulable p with Some b => Some b | None => n_unschedulable n end)
    (n_deletion_timestamp n).

(** An object under deletion goes with its last finalizer. *)
Definition finalized (n : Node) : option Node :=
  if n_deletion_timestamp n && match n_finalizers n with [] => true | _ => false end
  then None else Some n.

Record t := MkCluster {
  k8s : gmap string Node;
  asked : gset string;
  wall : DateTime;
}.

#[export] Instance eta_t : Eta t := fun c => MkCluster (k8s c) (asked c) (wall c).

Definition patch_node (node : string) (p : NodePatch) (c : t) :
    option (result unit (option Z)) * t :=
  match k8s c !! node with
  | None => (Some (Err (Some 404)), c)
  | Some n => (Some (Ok tt), c <| k8s ::= partial_alter (fun _ => finalized (apply_patch p n)) node |>)
  end.

Definition snapshot (c : t) : list Node := (map_to_list (k8s c)).*2.

(** What the other services answer. *)
Record Services := MkServices {
  demand : FleetDemand;
  views : list HostView;
  retire : HostId → result (option HostRetirement) Code;
  daemon_set : DaemonSet;
  ds_pods : list Pod;
  pool_target : Z;
}.

Definition handle (sv : Services) (X : Type) (q : req X) (c : t) : option X * t :=
  match q in req X return option X * t with
  | GetFleetDemand => (Some (Ok (demand sv)), c)
  | ListHostViews => (Some (Ok (views sv)), c)
  | GetHost _ => (Some (Ok None), c)
  | CordonHost _ _ => (Some (Ok tt), c)
  | UncordonHost _ _ => (Some (Ok tt), c)
  | BeginHostHandoff _ _ => (Some (Ok true), c)
  | RetireHost h _ _ => (Some (retire sv h), c)
  | DeleteHost _ => (Some (Ok tt), c)
  | GetDaemonSet => (Some (Ok (daemon_set sv)), c)
  | PatchDsImages _ _ => (Some (Ok tt), c)
  | ListPods _ => (Some (Ok (ds_pods sv)), c)
  | ListNodes _ => (Some (Ok (snapshot c)), c)
  | PatchNode n p => patch_node n p c
  | DeletePod _ => (Some (Ok tt), c)
  | CurrentTarget _ => (Some (Ok (pool_target sv)), c)
  | SetSize _ _ => (Some (Ok tt), c)
  | RemoveNode _ n => (Some (Ok tt), c <| asked ::= union {[n]} |>)
  | WallNow => (Some (wall c), c)
  | MonoNow => (Some (wall c), c)
  | Sleep d => (Some tt, c <| wall ::= Z.add d |>)
  | Never => (None, c)
  end.

(** ** The cluster meets the hypotheses *)

Lemma patch_annotations_lookup l m k v :
  patch_annotations l m !! k = Some v → (k, Some v) ∈ l ∨ m !! k = Some v.
Proof.
  unfold patch_annotations. revert m. induction l as [|[k' o] l IH]; intros m; simpl; [auto|].
  intros [H|H]%IH; [left; by right|]. destruct o as [v'|].
  - destruct (decide (k = k')) as [->|].
    + rewrite lookup_insert_eq in H. simplify_eq. left. left.
    + rewrite lookup_insert_ne in H by done. auto.
  - destruct (decide (k = k')) as [->|].
    + by rewrite lookup_delete_eq in H.
    + rewrite lookup_delete_ne in H by done. auto.
Qed.

Definition names_ok (c : t) : Prop := ∀ k n, k8s c !! k = Some n → n_name n = k.

(** Every victim annotation was written in the history. *)
Definition honest (h : list (event req)) (c : t) : Prop :=
  names_ok c ∧
  ∀ k n raw, k8s c !! k = Some n → n_annotations n !! VICTIM_ANNOTATION = Some raw →
             wrote_victim k raw h.

Lemma wrote_victim_app k raw h t : wrote_victim k raw h → wrote_victim k raw (h ++ t).
Proof. intros (e&He&?). exists e. set_solver. Qed.

Lemma elem_of_snapshot c n : names_ok c → n ∈ snapshot c ↔ k8s c !! n_name n = Some n.
Proof.
  intros Hc. unfold snapshot. rewrite list_elem_of_fmap. split.
  - intros ([k n']&->&H%elem_of_map_to_list). simpl. by rewrite (Hc _ _ H).
  - intros H. exists (n_name n, n). split; [done|]. by apply elem_of_map_to_list.
Qed.

Lemma finalized_Some n n' : finalized n = Some n' → n' = n.
Proof. unfold finalized. case_match; naive_solver. Qed.

Lemma honest_step sv h c X (q : req X) x c' :
  honest h c → handle sv X q c = (Some x, c') → ans h X q x ∧ honest (h ++ [Ev q x]) c'.
Proof.
  intros [Hn Hw] E.
  assert (Hsame : ∀ e, honest (h ++ [e]) c) by (split; eauto using wrote_victim_app).
  destruct q; simpl in E; simplify_eq; (split; [try done|try apply Hsame]).
  - intros nodes n raw [= <-] Hin Ha. apply elem_of_snapshot in Hin; [|done]. eauto.
  - unfold patch_node in E. rename node0 into nd.
    destruct (k8s c !! nd) as [n|] eqn:En; simplify_eq; [|apply Hsame].
    split.
    + intros k n' Hk. simpl in Hk. destruct (decide (k = nd)) as [->|].
      * rewrite lookup_partial_alter_eq in Hk. apply finalized_Some in Hk as ->. simpl. by apply Hn.
      * rewrite lookup_partial_alter_ne in Hk by done. by apply Hn.
    + intros k n' raw Hk Ha. simpl in Hk. destruct (decide (k = nd)) as [->|].
      * rewrite lookup_partial_alter_eq in Hk. apply finalized_Some in Hk as ->. simpl in Ha.
        apply patch_annotations_lookup in Ha as [Hin|Ha]; [|by eapply wrote_victim_app, Hw].
        eexists. split; [apply elem_of_app; right; by left|]. done.
      * rewrite lookup_partial_alter_ne in Hk by done. eapply wrote_victim_app, Hw; done.
Qed.

(** Executing reconciles on the cluster gives histories the theorems speak of. *)
Lemma reconcile_run fnn phi tj oj sv fuel spec scaler m h c :
  honest h c → reconciles fnn phi tj oj h →
  let p := reconcile fnn phi tj oj fuel spec scaler m in
  let h' := h ++ trace (handle sv) p c in
  reconciles fnn phi tj oj h' ∧
  ((exec (handle sv) p c).1 ≠ None → honest h' (exec (handle sv) p c).2).
Proof.
  intros Hc Hh p h'. destruct (exec_runs (handle sv) ans honest p c h) as [Hr Hi].
  - intros. by eapply honest_step.
  - done.
  - split; [|done]. by eapply reconciles_next.
Qed.

(** Between two reconciles the cloud finishes the removals it was asked for:
    the Node objects are under deletion, held by their finalizers. *)
Definition under_deletion (n : Node) : Node :=
  MkNode (n_name n) (n_annotations n) (n_finalizers n) (n_unschedulable n) true.

Definition cloud_settle (c : t) : t :=
  c <| k8s := map_imap (fun k n => if bool_decide (k ∈ asked c) then finalized (under_deletion n)
                                   else Some n) (k8s c) |>.

Lemma cloud_settle_lookup c k :
  k8s (cloud_settle c) !! k =
    n ← k8s c !! k; if bool_decide (k ∈ asked c) then finalized (under_deletion n) else Some n.
Proof. simpl. by rewrite map_lookup_imap. Qed.

Lemma cloud_settle_Some c k n :
  k8s (cloud_settle c) !! k = Some n →
  ∃ n0, k8s c !! k = Some n0 ∧ n_name n = n_name n0 ∧ n_annotations n = n_annotations n0.
Proof.
  rewrite cloud_settle_lookup. intros (n0&H0&H)%bind_Some. exists n0.
  case_bool_decide; [apply finalized_Some in H|]; by simplify_eq.
Qed.

Lemma honest_settle h c : honest h c → honest h (cloud_settle c).
Proof.
  intros [Hn Hw]. split.
  - intros k n (n0&H&->&_)%cloud_settle_Some. by apply Hn.
  - intros k n raw (n0&H&_&->)%cloud_settle_Some. by apply Hw.
Qed.

(** ** A small fleet *)

Module Demo.

Local Open Scope string_scope.

Definition fnn (n : string) : HostId := if bool_decide (n = "n-a") then 1%N else 2%N.
Definition phi (s : string) : option HostId :=
  if bool_decide (s = "a") then Some 1%N else if bool_decide (s = "b") then Some 2%N else None.

(** A codec for records without a deadline or with the deadline 0. *)
Definition tj (r : VictimRecord) : option string :=
  let k := match kind r with Shed => "s" | Repair => "r" end in
  let p := match phase r with Retiring => "t" | Removing => "m" end in
  let u := if prior_unschedulable r then "y" else "n" in
  match deadline r with
  | None => Some (k ++ p ++ u ++ "-" ++ fleet r)%string
  | Some 0 => Some (k ++ p ++ u ++ "0" ++ fleet r)%string
  | _ => None
  end.

Definition oj (s : string) : option VictimRecord :=
  match s with
  | String k (String p (String u (String d f))) =>
      Some (MkRecord f (if Ascii.eqb k "s"%char then Shed else Repair)
              (if Ascii.eqb p "t"%char then Retiring else Removing)
              (if Ascii.eqb d "0"%char then Some 0%Z else None) (Ascii.eqb u "y"%char))
  | _ => None
  end.

Lemma demo_codec : codec_ok tj oj.
Proof.
  intros [f [] [] [[]|] []] s H; unfold tj in H; simpl in H; simplify_eq; done.
Qed.

Definition node (n : string) : Node := MkNode n ∅ [] None false.
Definition pod (n : string) : Pod :=
  MkPod n (Some n) [("host-agent", Some "img")] (Some [("stage-node-assets", Some "assets")])
    (Some [("Ready", "True")]).

Definition services (retired : bool) : Services :=
  MkServices (MkDemand 2 20000 20000 0 0 0 0 0)
    [MkView "a" false 0 0 10000 0 0; MkView "b" false 0 0 10000 0 0]
    (fun _ => Ok (Some (MkRetirement (if retired then "2026" else "") ["bound_sessions"])))
    (MkDs (Some "img") (Some "assets") (Some [("app", "agent")]) (Some [("pool", "kvm")]))
    [pod "n-a"; pod "n-b"] 2.

Definition cluster : t :=
  MkCluster (<["n-a" := node "n-a"]> (<["n-b" := node "n-b"]> ∅)) ∅ 0.

Definition spec : HostFleetSpec :=
  MkSpec "agents" "img" "assets" 1 0 0 (Some (MkAutoscaling "pool" 1 3 100 IdleOnly 1 1)).

Definition mem : Mem := MkMem (MkHyst 0 None) (MkReady None None [] ∅).

Definition reconcile1 : prog req (result Duration OperatorError * Mem) :=
  reconcile fnn phi tj oj 3 spec true mem.

(** One reconcile marks, retires and removes a node; after the cloud is done
    the next one deletes the host. *)
Definition history1 : list (event req) := trace (handle (services true)) reconcile1 cluster.
Definition cluster1 : t := cloud_settle (exec (handle (services true)) reconcile1 cluster).2.
Definition history2 : list (event req) :=
  history1 ++ trace (handle (services true)) reconcile1 cluster1.

Definition removals (h : list (event req)) : list string :=
  omap (fun e => match ev_req e with RemoveNode _ n => Some n | _ => None end) h.
Definition deletions (h : list (event req)) : list HostId :=
  omap (fun e => match ev_req e with DeleteHost n => Some n | _ => None end) h.

Lemma demo_history : reconciles fnn phi tj oj history2.
Proof.
  assert (Hc : honest [] cluster).
  { split.
    - intros k n H. unfold cluster in H. simpl in H.
      apply lookup_insert_Some in H as [[<- <-]|[_ H]]; [done|].
      apply lookup_insert_Some in H as [[<- <-]|[_ H]]; [done|]. by rewrite lookup_empty in H.
    - intros k n raw H. unfold cluster in H. simpl in H.
      apply lookup_insert_Some in H as [[<- <-]|[_ H]]; [by cbn [node n_annotations]; rewrite lookup_empty|].
      apply lookup_insert_Some in H as [[<- <-]|[_ H]]; [by cbn [node n_annotations]; rewrite lookup_empty|].
      by rewrite lookup_empty in H. }
  destruct (reconcile_run fnn phi tj oj (services true) 3 spec true mem [] cluster Hc
              (reconciles_nil _ _ _ _)) as [Hr Hh].
  apply (reconcile_run fnn phi tj oj (services true) 3 spec true mem history1 cluster1); [|exact Hr].
  apply honest_settle, Hh. by vm_compute.
Qed.

End Demo.

(** The theorem on it: the node removed and the host deleted were granted. *)
Lemma operator_removes_only_retired_witness :
  Demo.removals Demo.history2 = ["n-a"] ∧ Demo.deletions Demo.history2 = [1%N] ∧
  allowed (can_remove Demo.fnn Demo.oj) Demo.history2.
Proof.
  split; [by vm_compute|]. split; [by vm_compute|].
  exact (operator_removes_only_retired Demo.fnn Demo.phi Demo.tj Demo.oj Demo.history2
           Demo.demo_codec Demo.demo_history).
Defined.

(** The other theorem on a reconcile that rolls a pod off target. *)
Lemma roll_kills_only_shielded_witness :
  let spec := MkSpec "agents" "img2" "assets" 1 0 0 None in
  let p := reconcile Demo.fnn Demo.phi Demo.tj Demo.oj 3 spec true Demo.mem in
  let h := trace (handle (Demo.services true)) p Demo.cluster in
  omap (fun e => match ev_req e with DeletePod n => Some n | _ => None end) h = ["n-a"] ∧
  allowed (can_roll Demo.fnn spec) h.
Proof.
  intros spec p h. split; [by vm_compute|].
  destruct (exec_runs (handle (Demo.services true)) any (fun _ _ => True) p Demo.cluster []) as [Hr _];
    [done|done|].
  exact (roll_kills_only_shielded Demo.fnn Demo.phi Demo.tj Demo.oj 3 spec true Demo.mem _ _ Hr).
Defined.

(** ** Progress *)

Section frames.

Context (sv : Services).

Notation run := (exec (handle sv)) (only parsing).

(** Requests that change at most the nodes of [N]. *)
Definition touches (N : string → Prop) (X : Type) (q : req X) : Prop :=
  match q with
  | PatchNode n _ | RemoveNode _ n => N n
  | Sleep _ | Never => False
  | _ => True
  end.

Record frame (N : string → Prop) (c c' : t) : Prop := {
  fr_wall : wall c' = wall c;
  fr_k8s n : ¬ N n → k8s c' !! n = k8s c !! n;
  fr_asked : asked c ⊆ asked c';
  fr_absent n : k8s c !! n = None → k8s c' !! n = None;
  fr_names : names_ok c → names_ok c';
}.

Lemma frame_refl N c : frame N c c.
Proof. by split. Qed.

Lemma frame_trans N c1 c2 c3 : frame N c1 c2 → frame N c2 c3 → frame N c1 c3.
Proof.
  intros [] []. split; [congruence| |set_solver|auto|auto]. intros n Hn. by rewrite fr_k8s1, fr_k8s0.
Qed.

Lemma frame_mono (N N' : string → Prop) c c' : (∀ n, N n → N' n) → frame N c c' → frame N' c c'.
Proof. intros HN []. split; auto. Qed.

Lemma handle_frame N c X (q : req X) : touches N X q → frame N c (handle sv X q c).2.
Proof.
  destruct q; simpl; try (intros; apply frame_refl); try done.
  - intros Hn. unfold patch_node. rename node0 into k.
    destruct (k8s c !! k) as [n|] eqn:E; [|apply frame_refl].
    split; simpl; [done| |done| |].
    + intros k' Hk. rewrite lookup_partial_alter_ne; [done|]. by intros ->.
    + intros k' Hk. rewrite lookup_partial_alter_ne; [done|]. intros ->. congruence.
    + intros Hc k' n'. simpl. destruct (decide (k' = k)) as [->|].
      * rewrite lookup_partial_alter_eq. intros ->%finalized_Some. simpl. by apply Hc.
      * rewrite lookup_partial_alter_ne by done. apply Hc.
  - intros Hn. split; simpl; [done|done|set_solver|done|done].
Qed.

Lemma run_frame {A} N (p : prog req A) c : all_req (touches N) p → frame N c (run p c).2.
Proof.
  apply exec_all_req; [apply frame_refl|apply frame_trans|]. intros. by apply handle_frame.
Qed.

Lemma run_ends {A} N (p : prog req A) c : all_req (touches N) p → (run p c).1 ≠ None.
Proof.
  apply exec_ends. intros s X q Hq. destruct q; simpl in *; try done.
  unfold patch_node. by case_match.
Qed.

End frames.

Section progress.

Context (fnn : string → HostId) (phi : string → option HostId).
Context (tj : VictimRecord → option string) (oj : string → option VictimRecord).
Context (sv : Services).

Hypothesis codec : codec_ok tj oj.
(** A record that was read can be written again. *)
Hypothesis encodes : ∀ raw r u,
  oj raw = Some r → is_Some (tj (r <| phase := Removing |> <| prior_unschedulable := u |>)).
(** Retirement is asked and answered: granted, pending, or refused. *)
Hypothesis retires : ∀ host,
  match retire sv host with Ok _ | Err NotFound | Err FailedPrecondition => True | Err _ => False end.

Notation run := (exec (handle sv)) (only parsing).

(** *** One victim *)

Definition victim_of (c : t) (k : string) : option VictimRecord :=
  n ← k8s c !! k; raw ← n_annotations n !! VICTIM_ANNOTATION; oj raw.

(** The node carries no victim record any more. *)
Definition cleared (c : t) (k : string) : Prop :=
  ∀ n, k8s c !! k = Some n → n_annotations n !! VICTIM_ANNOTATION = None.

(** The cloud was asked to remove it, and its record says so. *)
Definition leaving (c : t) (k fl : string) : Prop :=
  k ∈ asked c ∧ ∃ r, victim_of c k = Some r ∧ phase r = Removing ∧ fleet r = fl.

Lemma run_clear nodes k u c :
  (run (clear_victim nodes k u) c).1 = Some (Ok tt) ∧ cleared (run (clear_victim nodes k u) c).2 k.
Proof.
  unfold clear_victim. rewrite exec_bind, exec_ask. cbn [handle]. unfold patch_node.
  destruct (k8s c !! k) as [n|] eqn:E; simpl.
  - split; [done|]. intros n' Hn'. cbn in Hn'. rewrite lookup_partial_alter_eq in Hn'.
    apply finalized_Some in Hn' as ->. cbn. apply lookup_delete_eq.
  - split; [done|]. intros n' Hn'. change (k8s c !! k = Some n') in Hn'. congruence.
Qed.

Lemma run_release nodes v reason c :
  (run (release fnn nodes v reason) c).1 = Some (Ok tt) ∧
  cleared (run (release fnn nodes v reason) c).2 (v_node v).
Proof.
  unfold release. rewrite exec_try.
  assert (run (if bool_decide (reason = ReleaseForeign) then okay tt
     else r ← coord_uncordon (fnn (v_node v)) CORDON_OWNER;
          Ret (match r with
               | Ok _ => Ok tt
               | Err (Rpc _ (NotFound | FailedPrecondition)) => Ok tt
               | Err e => Err e
               end)) c = (Some (Ok tt), c)) as ->.
  { case_match; [done|]. rewrite exec_bind. done. }
  apply run_clear.
Qed.

Lemma mark_finalized patch n :
  is_Some (pa_finalizers patch) → pa_finalizers patch ≠ Some [] →
  finalized (apply_patch patch n) = Some (apply_patch patch n).
Proof.
  intros [l Hl] Hne. unfold finalized. cbn. rewrite Hl in *. simpl.
  destruct l; [done|]. by rewrite andb_false_r.
Qed.

Lemma run_mark nodes k rec old raw n n0 c :
  snapshot_node nodes k = Some n → n_annotations n !! VICTIM_ANNOTATION = Some raw →
  oj raw = Some old → fleet old = fleet rec →
  is_Some (tj (rec <| prior_unschedulable := prior_unschedulable old |>)) →
  k8s c !! k = Some n0 →
  ∃ rec' c', run (mark_victim tj oj nodes k rec) c = (Some (Ok rec'), c') ∧
    phase rec' = phase rec ∧ fleet rec' = fleet rec ∧ victim_of c' k = Some rec' ∧
    asked c' = asked c.
Proof.
  intros Hn Ha Ho Hf [raw' Ht] H0. unfold mark_victim. rewrite exec_try.
  unfold remark. rewrite Hn. cbn [mbind option_bind]. rewrite Ha, Ho.
  rewrite bool_decide_eq_true_2 by done.
  set (rec' := rec <| prior_unschedulable := prior_unschedulable old |>) in *.
  change (run (Ret (Ok rec')) c) with (Some (Ok (E:=OperatorError) rec'), c). cbv beta iota.
  rewrite exec_try. unfold mark_victim_patch. rewrite Ht.
  set (patch := MkPatch _ _ _).
  change (run (Ret (Ok patch)) c) with (Some (Ok (E:=OperatorError) patch), c). cbv beta iota.
  rewrite exec_try. unfold kube. rewrite exec_ask_err. cbn [handle]. unfold patch_node. rewrite H0.
  cbn [fst snd]. eexists rec', _. split; [done|]. split_and!; [done|done| |done].
  unfold victim_of. cbn. rewrite lookup_partial_alter_eq, mark_finalized.
  - cbn. rewrite lookup_delete_ne by done. rewrite lookup_insert_eq. cbn. by apply codec.
  - done.
  - unfold patch. cbn. case_match eqn:Ef; [|by destruct (n_finalizers n)].
    by destruct (n_finalizers n).
Qed.

(** A victim as the snapshot has it, whose node is still as it was listed. *)
Record current (nodes : list Node) (c : t) (v : Victim) (n : Node) (raw : string) : Prop := {
  cu_snap : snapshot_node nodes (v_node v) = Some n;
  cu_raw : n_annotations n !! VICTIM_ANNOTATION = Some raw;
  cu_record : oj raw = Some (v_record v);
  cu_deleting : deleting v = n_deletion_timestamp n;
  cu_now : k8s c !! v_node v = Some n;
}.

(** What a round makes of a victim that may not wait any longer. *)
Definition ended (c' : t) (v : Victim) : Prop :=
  cleared c' (v_node v) ∨
  (deleting v = false ∧ leaving c' (v_node v) (fleet (v_record v))).

Lemma current_victim nodes c v n raw :
  current nodes c v n raw → victim_of c (v_node v) = Some (v_record v).
Proof. intros []. unfold victim_of. by rewrite cu_now0; simpl; rewrite cu_raw0. Qed.

Lemma run_victim_remove nodes v n raw c :
  current nodes c v n raw → ended (run (victim_remove fnn tj oj nodes v) c).2 v.
Proof.
  intros Hcur. pose proof (current_victim _ _ _ _ _ Hcur) as Hvic. destruct Hcur.
  unfold victim_remove. rewrite exec_try.
  assert (∃ rec c', run (if bool_decide (phase (v_record v) = Removing) then okay (v_record v)
            else mark_victim tj oj nodes (v_node v) ((v_record v) <| phase := Removing |>)) c =
            (Some (Ok rec), c') ∧ phase rec = Removing ∧ fleet rec = fleet (v_record v) ∧
            victim_of c' (v_node v) = Some rec) as (rec&c'&->&Hp&Hf&Hv).
  { case_bool_decide as Hph; [by exists (v_record v), c|].
    destruct (run_mark nodes (v_node v) ((v_record v) <| phase := Removing |>) (v_record v) raw n n c)
      as (rec&c'&E&Hp&Hf&Hv&_); try done; [by eapply encodes|]. by exists rec, c'. }
  destruct (deleting v) eqn:Ed; cbv beta iota; simpl negb; cbv iota.
  - left. rewrite exec_try. unfold coord_delete_host, rpc. rewrite exec_ask_err. cbn [handle fst snd].
    rewrite exec_try. destruct (run_clear nodes (v_node v) false c') as [E Hc].
    destruct (run (clear_victim nodes (v_node v) false) c') as [r c2]. simpl in *. by subst.
  - right. split; [done|]. rewrite exec_try. unfold cloud. rewrite exec_ask_err. cbn [handle fst snd].
    split; [set_solver|]. exists rec. done.
Qed.

(** [v] may not wait: it is being removed, or it is shed and past its deadline. *)
Definition due (now : DateTime) (r : VictimRecord) : Prop :=
  phase r = Removing ∨
  (kind r = Shed ∧ ∃ d, deadline r = Some d ∧ d ≤ now).

Lemma run_victim_step nodes policy planned v n raw c :
  current nodes c v n raw → due (wall c) (v_record v) →
  ended (run (victim_step fnn tj oj nodes policy planned v) c).2 v.
Proof.
  intros Hcur Hdue. unfold victim_step. rewrite exec_try. unfold plan_victim.
  destruct (phase (v_record v)) eqn:Ep; [|by eapply run_victim_remove].
  destruct Hdue as [?|[Hk (d&Hd&Hle)]]; [congruence|].
  rewrite exec_try. unfold retire_host. rewrite exec_bind, exec_ask. cbn [handle].
  pose proof (retires (fnn (v_node v))) as Hret.
  assert (∀ r, ∃ b, run (pressure policy r) c = (Some (Ok b), c)) as Hpr.
  { intros []; try (by exists false). unfold pressure, coord_fleet_demand, rpc.
    rewrite exec_try, exec_ask_err. cbn [handle fst snd]. by eexists. }
  assert (∃ r, run (Ret (match retire sv (fnn (v_node v)) with
       | Ok resp => Ok (retirement_from_response resp)
       | Err NotFound => Ok NoRow
       | Err FailedPrecondition => Ok Foreign
       | Err c => Err (Rpc "retire_host" c)
       end)) c = (Some (Ok r), c)) as [r ->].
  { destruct (retire sv (fnn (v_node v))) as [resp|[]]; try done; by eexists. }
  cbv beta iota. rewrite exec_try. destruct (Hpr r) as [b ->]. cbv beta iota.
  rewrite exec_bind, exec_ask. cbn [handle].
  set (next := after_retire _ _ _ _ _).
  change (run (okay next) c) with (Some (Ok (E:=OperatorError) next), c). cbv beta iota.
  assert (next = Remove ∨ ∃ reason, next = Release reason) as [->|[reason ->]].
  { unfold next, after_retire. rewrite Hk, Hd. rewrite bool_decide_eq_true_2 by done. simpl.
    rewrite (proj2 (Z.leb_le d (wall c)) Hle).
    destruct r; eauto. repeat case_match; eauto. }
  - by eapply run_victim_remove.
  - left. rewrite exec_try. destruct (run_release nodes v reason c) as [E Hc].
    destruct (run (release fnn nodes v reason) c) as [x c2]. simpl in *. by subst.
Qed.

(** *** All victims *)

Lemma touches_mark nodes k rec (N : string → Prop) : N k → all_req (touches N) (mark_victim tj oj nodes k rec).
Proof. intros. unfold mark_victim, kube. requests; done. Qed.

Lemma touches_clear nodes k u (N : string → Prop) : N k → all_req (touches N) (clear_victim nodes k u).
Proof. intros. unfold clear_victim. requests; done. Qed.

Lemma touches_victim_step nodes policy planned v :
  all_req (touches (eq (v_node v))) (victim_step fnn tj oj nodes policy planned v).
Proof.
  unfold victim_step, retire_host, pressure, release, victim_remove, coord_fleet_demand,
    coord_uncordon, coord_delete_host, rpc, cloud.
  requests; try done; try (by apply touches_mark); by apply touches_clear.
Qed.

Lemma touches_loop nodes policy planned l :
  all_req (touches (fun n => n ∈ v_node <$> l)) (victims_loop fnn tj oj nodes policy planned l).
Proof.
  assert (∀ N l, (∀ v, v ∈ l → N (v_node v)) →
    all_req (touches N) (victims_loop fnn tj oj nodes policy planned l)) as H.
  { intros N l'. induction l' as [|v l' IH]; intros HN; [done|]. cbn [victims_loop].
    apply all_req_bind.
    - eapply all_req_mono, touches_victim_step. intros X q Hq.
      assert (N (v_node v)) by (apply HN; left). destruct q; simpl in *; try done; by subst.
    - intros r. apply all_req_bind; [|done]. apply IH. intros. apply HN. by right. }
  apply H. intros v Hv. by apply list_elem_of_fmap_2.
Qed.

(** The record of [v] is not touched by the steps of other victims. *)
Lemma ended_frame N c c' v : frame N c c' → ¬ N (v_node v) → ended c v → ended c' v.
Proof.
  intros [] Hn [Hc|[Hd [Ha (r&Hv&Hr)]]].
  - left. intros n. rewrite fr_k8s0 by done. apply Hc.
  - right. split; [done|]. split; [set_solver|]. exists r. split; [|done].
    unfold victim_of. by rewrite fr_k8s0 by done.
Qed.

Lemma run_loop nodes policy planned l v n raw c :
  NoDup (v_node <$> l) → v ∈ l → current nodes c v n raw → due (wall c) (v_record v) →
  ended (run (victims_loop fnn tj oj nodes policy planned l) c).2 v.
Proof.
  revert c. induction l as [|v' l IH]; intros c Hnd Hv Hcur Hdue; [by apply not_elem_of_nil in Hv|].
  apply NoDup_cons in Hnd as [Hn Hnd]. cbn [victims_loop]. rewrite exec_bind.
  pose proof (run_frame sv _ _ c (touches_victim_step nodes policy planned v')) as Hfr.
  pose proof (run_ends sv _ _ c (touches_victim_step nodes policy planned v')) as Hend.
  apply elem_of_cons in Hv as [<-|Hv].
  - pose proof (run_victim_step nodes policy planned v n raw c Hcur Hdue) as He.
    destruct (run (victim_step _ _ _ _ _ _ _) c) as [[r|] c1]; [|done]. simpl in *.
    rewrite exec_bind. pose proof (run_frame sv _ _ c1 (touches_loop nodes policy planned l)) as Hfr2.
    destruct (run (victims_loop _ _ _ _ _ _ _) c1) as [[rem|] c2]; simpl in *;
      eapply ended_frame; done.
  - destruct (run (victim_step _ _ _ _ _ _ _) c) as [[r|] c1]; [|done]. simpl in *.
    assert (v_node v' ≠ v_node v) as Hne.
    { intros E. apply Hn. rewrite E. by apply list_elem_of_fmap_2. }
    assert (Hcur1 : current nodes c1 v n raw).
    { destruct Hcur. split; try done. by rewrite (fr_k8s _ _ _ Hfr). }
    rewrite exec_bind.
    specialize (IH c1 Hnd Hv Hcur1 ltac:(by rewrite (fr_wall _ _ _ Hfr))).
    destruct (run (victims_loop _ _ _ _ _ _ _) c1) as [[rem|] c2]; done.
Qed.

(** *** A whole step *)

Hypothesis parses : Forall (fun w => is_Some (phi (hv_id w))) (views sv).

Lemma collect_ok : ∃ hosts, collect_results (host_view_to_load phi) (views sv) = Ok hosts.
Proof.
  generalize parses. generalize (views sv). induction l as [|w l IH].
  { by eexists. }
  intros [[id Hw] [hosts Hl]%IH]%Forall_cons. simpl.
  unfold host_view_to_load at 1. rewrite Hw, Hl. by eexists.
Qed.

(** The cloud answers. *)
Definition cloud_ok (h : list (event req)) (X : Type) (q : req X) : X → Prop :=
  match q in req X return X → Prop with
  | CurrentTarget _ => fun x => ∃ n, x = Ok n
  | SetSize _ _ => fun x => x = Ok tt
  | _ => fun _ => True
  end.

Lemma handle_cloud_ok h s X (q : req X) x s' : handle sv X q s = (Some x, s') → cloud_ok h X q x.
Proof. destruct q; simpl; intros; simplify_eq; eauto. Qed.

(** The victims known at first stay in the list, and no node is in it twice. *)
Definition extends (l l' : list Victim) : Prop :=
  (∃ new, l' = l ++ new) ∧ NoDup (v_node <$> l').

(** Nodes that are not victims yet. *)
Definition elsewhere (l : list Victim) (n : string) : Prop := n ∉ v_node <$> l.

Notation wpx l := (wp cloud_ok (fun _ => touches (elsewhere l))) (only parsing).

Lemma has_node_false l k : has_node l k = false → elsewhere l k.
Proof.
  unfold has_node, elsewhere. rewrite existsb_false. intros H (v&->&Hv)%list_elem_of_fmap.
  specialize (H v Hv). by bool_prop.
Qed.

Lemma op_extends_refl l : NoDup (v_node <$> l) → extends l l.
Proof. split; [exists []; by rewrite app_nil_r|done]. Qed.

Lemma op_extends_snoc l l' k rec :
  extends l l' → has_node l' k = false → extends l (l' ++ [MkVictim k rec false]).
Proof.
  intros [[new ->] Hn] Hk%has_node_false. split; [eexists; by rewrite <- app_assoc|].
  rewrite fmap_app. apply NoDup_app. split; [done|]. split; [|apply NoDup_singleton].
  intros x Hx Hy. apply list_elem_of_singleton in Hy as ->. by apply Hk.
Qed.

Lemma extends_elsewhere l l' k : extends l l' → has_node l' k = false → elsewhere l k.
Proof.
  intros [[new ->] _] Hk%has_node_false. unfold elsewhere in *. rewrite fmap_app in Hk. set_solver.
Qed.

Lemma wp_repairs_extend nodes key budget stuck l l' b h :
  extends l l' →
  wpx l h (mark_repairs tj oj nodes key budget stuck l' b) (fun _ x => extends l x.1).
Proof.
  revert l' b h. induction stuck as [|k stuck IH]; intros l' b h Hl; [done|].
  cbn [mark_repairs]. case_match; [done|].
  destruct (has_node l' k) eqn:Ek; [by apply IH|].
  apply wp_bind, wp_only; [by eapply touches_mark, extends_elsewhere|].
  intros h' [rec|e]; apply IH; [by apply op_extends_snoc|done].
Qed.

Lemma wp_sheds_extend nodes key d planned l l' h :
  extends l l' → wpx l h (mark_sheds tj oj nodes key d planned l') (fun _ x => extends l x).
Proof.
  revert l' h. induction planned as [|k planned IH]; intros l' h Hl; [done|].
  cbn [mark_sheds]. destruct (has_node l' k) eqn:Ek; [by apply IH|].
  apply wp_bind, wp_only; [by split|]. intros h1 now.
  apply wp_bind, wp_only; [by eapply touches_mark, extends_elsewhere|].
  intros h' [rec|e]; apply IH; [by apply op_extends_snoc|done].
Qed.

Lemma wp_plan_extend nodes spec a obs dm hosts desired l m h :
  NoDup (v_node <$> l) →
  wpx l h (plan_step fnn tj oj nodes spec a obs dm hosts desired l m)
    (fun _ x => ∃ l' planned b, x.1 = Ok (l', planned, b) ∧ extends l l').
Proof.
  intros Hl. unfold plan_step. apply wp_bind.
  eapply (wp_mono _ _ _ _ (fun _ x => x.1 = Ok tt)).
  - intros h' [r m'] Hr. simpl in Hr. subst r. apply wp_bind.
    eapply (wp_mono _ _ _ _ (fun _ x => extends l x.1)).
    + intros h2 [l2 b2] Hx. simpl in Hx. apply wp_bind, wp_only; [by split|]. intros h3 now.
      destruct (observe_at _ now _) as [tk hy]. apply wp_bind.
      eapply wp_mono, wp_sheds_extend, Hx. intros h4 l4 H4. apply wp_ret. simpl. eauto.
    + case_match; [apply wp_repairs_extend|]; by apply op_extends_refl.
  - unfold grow, cloud. case_match; [|done]. apply wp_bind, wp_ask_err; [done|].
    intros x [n ->]. case_match; [|done]. apply wp_bind, wp_ask_err; [done|].
    intros x ->. apply wp_bind, wp_only; [by split|]. done.
Qed.

(** *** The snapshot *)

Lemma snapshot_names c : names_ok c → n_name <$> snapshot c = (map_to_list (k8s c)).*1.
Proof.
  intros Hc. unfold snapshot. rewrite <- list_fmap_compose. apply list_fmap_ext.
  intros i [k n] H%list_elem_of_lookup_2%elem_of_map_to_list. simpl. by apply Hc.
Qed.

Lemma snapshot_find c k n : names_ok c → k8s c !! k = Some n → snapshot_node (snapshot c) k = Some n.
Proof.
  intros Hc Hk. unfold snapshot_node. destruct (List.find _ _) as [n'|] eqn:E.
  - apply find_Some_elem in E as [Hin Hn]. bool_prop. apply elem_of_snapshot in Hin; [|done].
    congruence.
  - rewrite find_None_elem in E. specialize (E n). rewrite elem_of_snapshot in E by done.
    rewrite (Hc _ _ Hk) in E. specialize (E Hk). by bool_prop.
Qed.

Lemma node_victims_nodup c fl : names_ok c → NoDup (v_node <$> node_victims oj (snapshot c) fl).
Proof.
  intros Hc. assert (Hn : NoDup (n_name <$> snapshot c)).
  { rewrite snapshot_names by done. apply NoDup_fst_map_to_list. }
  revert Hn. unfold node_victims. generalize (snapshot c). clear.
  induction l as [|n l IH]; [done|]. rewrite fmap_cons, NoDup_cons. intros [Hn Hl]. simpl.
  destruct (node_victim oj fl n) as [v|] eqn:E; [|by apply IH].
  rewrite fmap_cons. apply NoDup_cons. split; [|by apply IH].
  assert (∀ n v, node_victim oj fl n = Some v → v_node v = n_name n) as Hnm.
  { intros n0 v0 H. unfold node_victim in H. destruct (n_annotations n0 !! _); [|done]. simpl in H.
    destruct (oj _); [|done]. simpl in H. case_match; [|done]. by simplify_eq. }
  rewrite (Hnm _ _ E). intros (v'&E'&(n'&Hn'&Hv')%list_elem_of_omap)%list_elem_of_fmap.
  apply Hn. rewrite E', (Hnm _ _ Hv'). by apply list_elem_of_fmap_2.
Qed.

Lemma node_victims_current c fl v :
  names_ok c → v ∈ node_victims oj (snapshot c) fl → ∃ n raw, current (snapshot c) c v n raw.
Proof.
  intros Hc (n&Hn&Hv)%list_elem_of_omap. apply elem_of_snapshot in Hn; [|done].
  unfold node_victim in Hv. destruct (n_annotations n !! _) as [raw|] eqn:Ea; [|done]. simpl in Hv.
  destruct (oj raw) as [r|] eqn:Eo; [|done]. simpl in Hv. case_match; [|done]. simplify_eq.
  exists n, raw. split; simpl; try done. by apply snapshot_find.
Qed.

Lemma node_victims_fleet nodes fl v :
  v ∈ node_victims oj nodes fl → fl ≠ "" → fleet (v_record v) = fl.
Proof.
  intros (n&Hn&Hv)%list_elem_of_omap Hne. unfold node_victim in Hv.
  destruct (n_annotations n !! _) as [raw|]; [|done]. simpl in Hv.
  destruct (oj raw) as [r|]; [|done]. simpl in Hv. case_match eqn:E; [|done]. simplify_eq.
  bool_prop; done.
Qed.

(** The records a step looks at. *)
Definition fleet_filter (spec : HostFleetSpec) : string :=
  if autoscaling spec then fleet_key spec else "".

Lemma touches_track pods hosts tr N : all_req (touches N) (track_node_ready fnn pods hosts tr).
Proof.
  unfold track_node_ready. destruct (observe_hosts _ _) as [fresh t'].
  revert t'. induction fresh as [|x fresh IH]; intros t'; simpl; [done|].
  case_match; [|apply IH]. split; [done|]. intros now. apply IH.
Qed.

Lemma run_wp {A} l (p : prog req A) c h Q :
  wpx l h p Q → ∃ a c' h', run p c = (Some a, c') ∧ Q h' a ∧ frame (elsewhere l) c c'.
Proof.
  apply wp_exec_state; [apply frame_refl|apply frame_trans| |apply handle_cloud_ok].
  intros s X q Hq. split; [by apply handle_frame|]. destruct q; simpl in *; try done.
  unfold patch_node. by case_match.
Qed.

(** The part before the victims are stepped. *)
Lemma run_prepare spec obs m c l hosts dm desired :
  NoDup (v_node <$> l) →
  ∃ l' planned b m' c',
    run (t ← track_node_ready fnn (pods obs) hosts (node_ready m);
         let m := m <| node_ready := t |> in
         match autoscaling spec with
         | Some a => plan_step fnn tj oj (snapshot c) spec a obs dm hosts desired l m
         | None => Ret (Ok (l, [], false), m)
         end) c = (Some (Ok (l', planned, b), m'), c') ∧
    extends l l' ∧ frame (elsewhere l) c c'.
Proof.
  intros Hl. destruct (run_wp l (t ← track_node_ready fnn (pods obs) hosts (node_ready m);
         let m := m <| node_ready := t |> in
         match autoscaling spec with
         | Some a => plan_step fnn tj oj (snapshot c) spec a obs dm hosts desired l m
         | None => Ret (Ok (l, [], false), m)
         end) c [] (fun _ x => ∃ l' planned b, x.1 = Ok (l', planned, b) ∧ extends l l'))
    as ([r m']&c'&h'&E&(l'&planned&b&Hr&Hx)&Hf).
  - apply wp_bind, wp_only; [apply touches_track|]. intros h t. destruct (autoscaling spec) as [a|].
    + by apply wp_plan_extend.
    + apply wp_ret. exists l, [], false. split; [done|]. by apply op_extends_refl.
  - simpl in Hr. subst r. by exists l', planned, b, m', c'.
Qed.

Lemma run_step spec obs m c v :
  names_ok c → v ∈ node_victims oj (snapshot c) (fleet_filter spec) → due (wall c) (v_record v) →
  let c' := (run (step fnn phi tj oj (snapshot c) spec true obs m) c).2 in
  ended c' v.
Proof.
  intros Hc Hv Hdue. unfold step. rewrite exec_bind, exec_try. unfold coord_fleet_demand at 1, rpc.
  rewrite exec_ask_err. cbn [handle fst snd].
  unfold list_hosts. rewrite exec_try. unfold rpc. rewrite exec_try, exec_ask_err. cbn [handle fst snd].
  destruct collect_ok as [hosts Eh]. rewrite Eh.
  change (run (Ret (Ok hosts)) c) with (Some (Ok (E:=OperatorError) hosts), c). cbv beta iota.
  change (run (okay (demand sv, hosts)) c) with
    (Some (Ok (E:=OperatorError) (demand sv, hosts)), c). cbv beta iota. simpl negb. cbv iota.
  fold (fleet_filter spec). set (l := node_victims oj (snapshot c) (fleet_filter spec)) in *.
  assert (Hl : NoDup (v_node <$> l)) by by apply node_victims_nodup.
  destruct (run_prepare spec obs m c l hosts (demand sv)
    (match policy_of <$> autoscaling spec with
     | Some p => desired_hosts (demand sv) p | None => schedulable_hosts (demand sv) end) Hl)
    as (l'&planned&b&m'&c'&E&[[new Hnew] Hnd]&Hfr).
  rewrite exec_bind in E. rewrite exec_bind.
  destruct (run (track_node_ready _ _ _ _) c) as [[tr|] c0]; [|done].
  cbv zeta in E |- *. rewrite exec_bind, E. cbv beta iota.
  set (sorted := sort_by _ l'). assert (Hp : sorted ≡ₚ l') by apply sort_by_perm.
  destruct (node_victims_current c _ v Hc Hv) as (n&raw&Hcur).
  assert (Hvl : v_node v ∈ v_node <$> l) by by apply list_elem_of_fmap_2.
  assert (Hcur' : current (snapshot c) c' v n raw).
  { destruct Hcur. split; try done. rewrite (fr_k8s _ _ _ Hfr); [done|].
    unfold elsewhere. intros Hne. by apply Hne. }
  set (policy := policy_of <$> autoscaling spec).
  assert (He : ended (run (victims_loop fnn tj oj (snapshot c) policy planned sorted) c').2 v).
  { eapply run_loop; [by rewrite Hp| |exact Hcur'|].
    - rewrite Hp, Hnew. set_solver.
    - by rewrite (fr_wall _ _ _ Hfr). }
  rewrite exec_bind. by destruct (run (victims_loop _ _ _ _ _ _ _) c') as [[rem|] c2].
Qed.

Definition anywhere (n : string) : Prop := True.

Lemma touches_step nodes spec scaler obs m :
  all_req (touches anywhere) (step fnn phi tj oj nodes spec scaler obs m).
Proof.
  assert (Hr : ∀ key budget stuck l b, all_req (touches anywhere)
    (mark_repairs tj oj nodes key budget stuck l b)).
  { intros key budget stuck. induction stuck as [|k stuck IH]; intros l b; [done|].
    cbn [mark_repairs]. requests; try done; try (by apply touches_mark); apply IH. }
  assert (Hs : ∀ key d planned l, all_req (touches anywhere) (mark_sheds tj oj nodes key d planned l)).
  { intros key d planned. induction planned as [|k planned IH]; intros l; [done|].
    cbn [mark_sheds]. requests; try done; try (by apply touches_mark); apply IH. }
  assert (Hl : ∀ policy planned l, all_req (touches anywhere)
    (victims_loop fnn tj oj nodes policy planned l)).
  { intros. eapply all_req_mono, touches_loop. intros X q. by destruct q. }
  unfold step, list_hosts, coord_fleet_demand, rpc, plan_step, grow, cloud.
  repeat first [apply Hl | apply Hr | apply Hs | apply touches_track | progress requests | done].
Qed.

End progress.

(** Services that work: retirement is answered and the host ids parse. *)
Record working (phi : string → option HostId) (sv : Services) : Prop := {
  wk_retires host : match retire sv host with
                    | Ok _ | Err NotFound | Err FailedPrecondition => True
                    | Err _ => False
                    end;
  wk_parses : Forall (fun w => is_Some (phi (hv_id w))) (views sv);
}.

(** C33. Every shed victim comes to an end.  On a cluster whose services answer,
    take a victim of the fleet that is being removed or whose deadline has
    passed.  After one step of the operator its record is gone (the node was
    released, or removed), or it is recorded as being removed and the cloud was
    asked for it; and then, once the cloud has put the Node under deletion, the
    next step, at any time and with any other state of the fleet, deletes the
    host and clears the record. *)
Theorem shed_victims_end fnn phi tj oj sv sv' spec spec' obs obs' m m' c v now' :
  codec_ok tj oj →
  (∀ raw r u, oj raw = Some r →
     is_Some (tj (r <| phase := Removing |> <| prior_unschedulable := u |>))) →
  working phi sv → working phi sv' → fleet_filter spec' = fleet_filter spec →
  names_ok c → v ∈ node_victims oj (snapshot c) (fleet_filter spec) → due (wall c) (v_record v) →
  let c1 := (exec (handle sv) (step fnn phi tj oj (snapshot c) spec true obs m) c).2 in
  let c2 := (cloud_settle c1) <| wall := now' |> in
  let c3 := (exec (handle sv') (step fnn phi tj oj (snapshot c2) spec' true obs' m') c2).2 in
  cleared c1 (v_node v) ∨ cleared c3 (v_node v).
Proof.
  intros Hcod Henc [Hr Hp] [Hr' Hp'] Hff Hc Hv Hdue c1 c2 c3.
  pose proof (fr_names _ _ _ (run_frame sv _ _ c (touches_step fnn phi tj oj (snapshot c) spec true obs m)) Hc)
    as Hc1. fold c1 in Hc1.
  destruct (run_step fnn phi tj oj sv Hcod Henc Hr Hp spec obs m c v Hc Hv Hdue)
    as [Hcl|[Hd [Hasked (r&Hvic&Hph&Hfl)]]]; [by left|right].
  fold c1 in Hasked, Hvic.
  assert (Hc2 : names_ok c2).
  { intros k n Hk. change (k8s (cloud_settle c1) !! k = Some n) in Hk.
    apply cloud_settle_Some in Hk as (n0&H0&->&_). by apply Hc1. }
  apply bind_Some in Hvic as (n0&Hn0&(raw&Hraw&Hoj)%bind_Some).
  pose proof (cloud_settle_lookup c1 (v_node v)) as Hs. rewrite Hn0 in Hs. simpl in Hs.
  rewrite bool_decide_eq_true_2 in Hs by done.
  destruct (finalized (under_deletion n0)) as [n|] eqn:Ef.
  - apply finalized_Some in Ef as ->.
    set (v' := MkVictim (v_node v) r true).
    assert (Hv' : v' ∈ node_victims oj (snapshot c2) (fleet_filter spec')).
    { apply list_elem_of_omap. exists (under_deletion n0).
      assert (n_name n0 = v_node v) as Hnm by by apply Hc1.
      split.
      - apply elem_of_snapshot; [done|]. simpl. by rewrite Hnm.
      - unfold node_victim. simpl. rewrite Hraw. simpl. rewrite Hoj. simpl.
        rewrite Hnm, Hff. case_match eqn:Eb; [done|]. exfalso. bool_prop.
        apply (node_victims_fleet oj (snapshot c) _ v Hv) in H. congruence. }
    destruct (run_step fnn phi tj oj sv' Hcod Henc Hr' Hp' spec' obs' m' c2 v' Hc2 Hv') as [Hcl|[? _]];
      [by left|exact Hcl|done].
  - intros n Hn. exfalso.
    pose proof (fr_absent _ _ _ (run_frame sv' _ _ c2
      (touches_step fnn phi tj oj (snapshot c2) spec' true obs' m')) (v_node v)) as Habs.
    fold c3 in Habs. rewrite Habs in Hn; [done|exact Hs].
Qed.

(** A victim past its deadline whose retirement is granted: the first step asks
    the cloud for the node, the second clears the record. *)
Lemma shed_victims_end_witness :
  let nd := MkNode "n-a" {[VICTIM_ANNOTATION := "stn0pool"]} [VICTIM_FINALIZER] (Some true) false in
  let v := MkVictim "n-a" (MkRecord "pool" Shed Retiring (Some 0) false) false in
  let c := MkCluster {["n-a" := nd]} ∅ 5 in
  let obs := MkObs [] true [] in
  let sv := Demo.services true in
  let stp c := exec (handle sv) (step Demo.fnn Demo.phi Demo.tj Demo.oj (snapshot c) Demo.spec true obs
                                   Demo.mem) c in
  let c1 := (stp c).2 in
  let c2 := (cloud_settle c1) <| wall := 9 |> in
  asked c1 = {["n-a"]} ∧
  (cleared c1 "n-a" ∨ cleared (stp c2).2 "n-a").
Proof.
  intros nd v c obs sv stp c1 c2. split; [by vm_compute|].
  refine (shed_victims_end Demo.fnn Demo.phi Demo.tj Demo.oj sv sv Demo.spec Demo.spec obs obs
            Demo.mem Demo.mem c v 9 Demo.demo_codec _ _ _ _ _ _ _).
  - intros raw r u Hr. unfold Demo.oj in Hr. repeat case_match; simplify_eq; by eexists.
  - split; [done|]. repeat constructor; by eexists.
  - split; [done|]. repeat constructor; by eexists.
  - done.
  - intros k n Hk. unfold c in Hk. cbn [k8s] in Hk.
    apply lookup_singleton_Some in Hk as [<- <-]. done.
  - vm_compute. by left.
  - right. split; [done|]. exists 0. split; [done|]. by vm_compute.
Defined.

End Cluster.
