(* ===== verification/Fence.v ===== *)
(** * The host's session fence

    [engram-host-agent/src/session_epochs.rs] and the gate of
    [grpc_server.rs]: a host keeps, per session, the highest fencing epoch it
    has accepted and refuses lifecycle calls below it.  The record is a file,
    replaced by a rename; every file operation may fail, and the agent may crash
    at each of them.  The JSON codec of the record is a parameter. *)

From S2P Require Import Prelude Prog.
Local Open Scope Z_scope.

Module Fence.

Definition EPOCH_SCHEMA_VERSION : Z := 1.

Record EpochRecord := MkRecord {
  schema_version : Z;
  session_id : SessionId;
  epoch : Z;
  updated_at : DateTime;
}.

(** An [io::Error], by what the code tells apart. *)
Inductive IoError : Type := IoNotFound | InvalidData (msg : string) | IoOther.

Inductive EpochError : Type :=
| Zero
| Stale (stored incoming : Z)
| Io (e : IoError).

(** The files of the directory: a session's record, or a writer's temporary. *)
Inductive path : Type :=
| Final (s : SessionId)
| Tmp (s : SessionId) (pid : N) (epoch : Z).

#[export] Instance path_eq_dec : EqDecision path.
Proof. solve_decision. Defined.

#[export] Program Instance path_countable : Countable path :=
  inj_countable (fun p => match p with Final s => inl s | Tmp s n e => inr (s, n, e) end)
                (fun x => Some match x with inl s => Final s | inr (s, n, e) => Tmp s n e end) _.
Next Obligation. by intros []. Qed.

Notation bytes := (list N) (only parsing).

Inductive req : Type → Type :=
| ReadFile (p : path) : req (result bytes IoError)
| WriteFile (p : path) (b : bytes) : req (result unit IoError)
| Rename (a b : path) : req (result unit IoError)
| RemoveFile (p : path) : req (result unit IoError)
| NowUtc : req DateTime
| Pid : req N.

Notation async A := (prog req (result A IoError)) (only parsing).

Section fence.

Context (encode : EpochRecord → bytes) (decode : bytes → option EpochRecord).

Definition read (s : SessionId) : async (option EpochRecord) :=
  r ← ask (ReadFile (Final s));
  Ret (match r with
       | Err IoNotFound => Ok None
       | Err e => Err e
       | Ok b =>
           match decode b with
           | None => Err (InvalidData "session epoch record {}: {e}")
           | Some rec =>
               if negb (schema_version rec =? EPOCH_SCHEMA_VERSION)
               then Err (InvalidData "session epoch record {}: schema {} (want {EPOCH_SCHEMA_VERSION})")
               else Ok (Some rec)
           end
       end).

Definition write_atomic (rec : EpochRecord) : async unit :=
  pid ← ask Pid;
  let tmp := Tmp (session_id rec) pid (epoch rec) in
  do! _ := ask (WriteFile tmp (encode rec)) in
  ask (Rename tmp (Final (session_id rec))).

Definition remove (s : SessionId) : async unit :=
  r ← ask (RemoveFile (Final s));
  Ret (match r with Err IoNotFound => Ok tt | r => r end).

Definition io {A} (p : async A) : prog req (result A EpochError) :=
  r ← p; Ret (match r with Ok a => Ok a | Err e => Err (Io e) end).

Definition check_and_advance (s : SessionId) (incoming : Z) : prog req (result unit EpochError) :=
  if incoming =? 0 then Ret (Err Zero) else
  do! rec := io (read s) in
  let stored := match rec with Some r => epoch r | None => 0 end in
  if incoming <? stored then Ret (Err (Stale stored incoming)) else
  if stored <? incoming then
    now ← ask NowUtc;
    io (write_atomic (MkRecord EPOCH_SCHEMA_VERSION s incoming now))
  else okay tt.

(** The gate of the gRPC server. *)
Inductive Status : Type :=
| InvalidArgument (len : nat)
| FailedPrecondition (e : EpochError)
| Internal (e : IoError).

(** [Uuid::from_bytes] on 16 bytes. *)
Definition decode_session_id (b : bytes) : result SessionId Status :=
  if negb (length b =? 16)%nat then Err (InvalidArgument (length b))
  else Ok (fold_left (fun acc x => acc * 256 + x)%N b 0%N).

(** The metric and the log line of a stale call are left out; [None] is
    [SessionFence::unfenced]. *)
Definition check_session_epoch (session : bytes) (fencing_epoch : Z) :
    prog req (result (option (SessionId * Z)) Status) :=
  if fencing_epoch =? 0 then okay None else
  match decode_session_id session with
  | Err e => Ret (Err e)
  | Ok s =>
      r ← check_and_advance s fencing_epoch;
      Ret (match r with
           | Ok _ => Ok (Some (s, fencing_epoch))
           | Err (Io e) => Err (Internal e)
           | Err e => Err (FailedPrecondition e)
           end)
  end.

End fence.

(** ** The file system *)

(** What happens to the next file operation. *)
Inductive fault : Type := NoFault | Fails | Crashes.

Record Disk := MkDisk {
  files : gmap path (list N);
  faults : list fault;
  now : DateTime;
}.

#[export] Instance eta_Disk : Eta Disk := fun d => MkDisk (files d) (faults d) (now d).

(** A file operation under the next fault; [g] is what a failure leaves. *)
Definition io_op {X} (d : Disk) (f : gmap path (list N) → result X IoError * gmap path (list N))
    (g : gmap path (list N) → gmap path (list N)) : option (result X IoError) * Disk :=
  let d' := d <| faults ::= tail |> in
  match hd NoFault (faults d) with
  | Crashes => (None, d' <| files ::= g |>)
  | Fails => (Some (Err IoOther), d' <| files ::= g |>)
  | NoFault => (Some (f (files d)).1, d' <| files := (f (files d)).2 |>)
  end.

(** A failed write leaves a truncated file; a rename happens or not. *)
Definition handle (X : Type) (q : req X) (d : Disk) : option X * Disk :=
  match q in req X return option X * Disk with
  | ReadFile p =>
      io_op d (fun m => (match m !! p with Some b => Ok b | None => Err IoNotFound end, m)) id
  | WriteFile p b => io_op d (fun m => (Ok tt, <[p := b]> m)) <[p := []]>
  | Rename a b =>
      io_op d (fun m => match m !! a with
                        | Some x => (Ok tt, <[b := x]> (delete a m))
                        | None => (Err IoNotFound, m)
                        end) id
  | RemoveFile p =>
      io_op d (fun m => match m !! p with
                        | Some _ => (Ok tt, delete p m)
                        | None => (Err IoNotFound, m)
                        end) id
  | NowUtc => (Some (now d), d)
  | Pid => (Some 7%N, d)
  end.

(** ** The fence holds *)

Section props.

Context (encode : EpochRecord → list N) (decode : list N → option EpochRecord).
Hypothesis codec : ∀ r, decode (encode r) = Some r.

Notation run := (exec handle) (only parsing).

(** The high-water mark of a session: 0 without a record, [None] when the record
    cannot be read. *)
Definition high_water (d : Disk) (s : SessionId) : option Z :=
  match files d !! Final s with
  | None => Some 0
  | Some b => r ← decode b;
              if schema_version r =? EPOCH_SCHEMA_VERSION then Some (epoch r) else None
  end.

Local Arguments high_water : simpl never.

(** Only records of [s] may differ. *)
Definition others_same (s : SessionId) (d d' : Disk) : Prop :=
  ∀ s', s' ≠ s → files d' !! Final s' = files d !! Final s'.

Lemma run_read s d :
  ∃ r d', run (read decode s) d = (r, d') ∧ files d' = files d ∧
    (∀ rec, r = Some (Ok rec) →
       high_water d s = Some (match rec with Some x => epoch x | None => 0 end)).
Proof.
  unfold read. rewrite exec_bind, exec_ask. cbn [handle]. unfold io_op.
  destruct (hd NoFault (faults d)); cbv beta iota; [|by do 2 eexists..].
  destruct (files d !! Final s) as [b|] eqn:Eb; cbn [fst snd].
  - do 2 eexists. split; [done|]. split; [done|]. intros rec [= Hr]. unfold high_water. rewrite Eb.
    destruct (decode b) as [x|]; [|done]. simpl.
    destruct (schema_version x =? EPOCH_SCHEMA_VERSION); simpl in Hr; [|done]. by simplify_eq.
  - do 2 eexists. split; [done|]. split; [done|]. intros rec [= <-]. unfold high_water. by rewrite Eb.
Qed.

Lemma run_write rec d :
  schema_version rec = EPOCH_SCHEMA_VERSION →
  ∃ r d', run (write_atomic encode rec) d = (r, d') ∧ others_same (session_id rec) d d' ∧
    (high_water d' (session_id rec) = high_water d (session_id rec) ∨
     high_water d' (session_id rec) = Some (epoch rec)) ∧
    (r = Some (Ok tt) → high_water d' (session_id rec) = Some (epoch rec)).
Proof.
  intros Hv. unfold write_atomic. rewrite exec_bind, exec_ask. cbn [handle].
  rewrite exec_try, exec_ask. cbn [handle]. set (tmp := Tmp _ _ _).
  assert (Hne : ∀ s', Final s' ≠ tmp) by done. unfold io_op at 1.
  assert (Hsame : ∀ d' x, files d' = <[tmp := x]> (files d) →
    others_same (session_id rec) d d' ∧
    high_water d' (session_id rec) = high_water d (session_id rec)).
  { intros d' x E. split; [intros s' _|unfold high_water]; by rewrite E, lookup_insert_ne. }
  destruct (hd NoFault (faults d)); cbv beta iota; cbn [fst snd].
  2,3: do 2 eexists; (split; [done|]);
    match goal with |- others_same _ _ ?x ∧ _ => destruct (Hsame x [] eq_refl) as [H1 H2] end;
    split_and!; [done|by left|done].
  rewrite exec_ask. cbn [handle]. unfold io_op. cbn [faults files].
  set (d1 := _ <| files := _ |>). destruct (hd NoFault (faults d1)); cbv beta iota.
  2,3: do 2 eexists; (split; [done|]);
    match goal with |- others_same _ _ ?x ∧ _ => destruct (Hsame x (encode rec) eq_refl) as [H1 H2] end;
    split_and!; [done|by left|done].
  assert (E1 : files d1 !! tmp = Some (encode rec)) by apply lookup_insert_eq. rewrite E1.
  do 2 eexists. split; [done|]. cbn [fst snd files].
  assert (Hw : high_water (d1 <| faults ::= tail |>
      <| files := <[Final (session_id rec) := encode rec]> (delete tmp (files d1)) |>)
      (session_id rec) = Some (epoch rec)).
  { unfold high_water. cbn. rewrite lookup_insert_eq, codec. simpl. by rewrite Hv. }
  split_and!; [|by right|done]. intros s' Hs'. cbn.
  rewrite lookup_insert_ne by congruence. rewrite lookup_delete_ne by done.
  by rewrite lookup_insert_ne.
Qed.

(** One call: the record of its session is kept or advanced to its epoch, and an
    accepted call leaves its epoch as the mark. *)
Lemma run_check s e d :
  ∃ r d', run (check_and_advance encode decode s e) d = (r, d') ∧ others_same s d d' ∧
    (high_water d' s = high_water d s ∨
     ∃ k, high_water d s = Some k ∧ k < e ∧ high_water d' s = Some e) ∧
    (r = Some (Ok tt) → ∃ k, high_water d s = Some k ∧ k ≤ e ∧ e ≠ 0 ∧ high_water d' s = Some e).
Proof.
  unfold check_and_advance. destruct (Z.eqb_spec e 0) as [->|Hz].
  { rewrite exec_ret. do 2 eexists. split_and!; [done|done|by left|done]. }
  rewrite exec_try. unfold io at 1. rewrite exec_bind.
  destruct (run_read s d) as (r&d1&->&Hf&Hr).
  assert (Hh : ∀ s', high_water d1 s' = high_water d s') by (intros; unfold high_water; by rewrite Hf).
  assert (Ho : others_same s d d1) by (intros s' _; by rewrite Hf).
  destruct r as [[rec|err]|]; cbv beta iota; rewrite ?exec_ret.
  2,3: do 2 eexists; split_and!; [done|done|left; by rewrite Hh|done].
  specialize (Hr rec eq_refl). set (stored := match rec with Some x => epoch x | None => 0 end) in *.
  destruct (Z.ltb_spec e stored).
  { rewrite exec_ret. do 2 eexists. split_and!; [done|done|left; by rewrite Hh|done]. }
  destruct (Z.ltb_spec stored e).
  - rewrite exec_bind, exec_ask. cbn [handle]. unfold io. rewrite exec_bind.
    set (new := MkRecord _ _ _ _).
    destruct (run_write new d1 eq_refl) as (r&d2&->&Hs&Hw&Hok). cbn in Hs, Hw, Hok.
    assert (Ho2 : others_same s d d2) by (intros s' Hs'; rewrite (Hs s' Hs'); by apply Ho).
    assert (Hw' : high_water d2 s = high_water d s ∨
      ∃ k, high_water d s = Some k ∧ k < e ∧ high_water d2 s = Some e).
    { destruct Hw as [->| ->]; [left; by rewrite Hh|right; by exists stored]. }
    destruct r as [[[]|err]|]; rewrite ?exec_ret; do 2 eexists; split_and!; try done.
    intros _. exists stored. split_and!; auto; lia.
  - unfold okay. rewrite exec_ret. assert (stored = e) as Heq by lia. do 2 eexists.
    split_and!; [done|done|left; by rewrite Hh|]. intros _. exists stored. rewrite Hh.
    split_and!; [done|lia|done|congruence].
Qed.

(** The gate on a call: epoch 0 passes without a fence and touches nothing; any
    other epoch is the check of its session, and an id that does not decode is
    refused. *)
Lemma run_gate b e d :
  let '(r, d') := run (check_session_epoch encode decode b e) d in
  if e =? 0 then r = Some (Ok None) ∧ d' = d
  else match decode_session_id b with
       | Err err => r = Some (Err err) ∧ d' = d
       | Ok s => d' = (run (check_and_advance encode decode s e) d).2 ∧
           ∀ x, r = Some (Ok x) → x = Some (s, e) ∧ (run (check_and_advance encode decode s e) d).1 = Some (Ok tt)
       end.
Proof.
  unfold check_session_epoch. destruct (Z.eqb_spec e 0) as [->|He]; [done|].
  destruct (decode_session_id b) as [s|err]; [|done]. rewrite exec_bind.
  destruct (run (check_and_advance encode decode s e) d) as [[[[]|[]]|] d']; rewrite ?exec_ret;
    (split; [done|]); intros x Hx; by simplify_eq.
Qed.

(** What any call does to a mark: it stays or goes up. *)
Lemma run_gate_mark b e d s k :
  high_water d s = Some k →
  ∃ k', high_water (run (check_session_epoch encode decode b e) d).2 s = Some k' ∧ k ≤ k'.
Proof.
  intros Hk. pose proof (run_gate b e d) as G.
  destruct (run (check_session_epoch encode decode b e) d) as [r d']. simpl.
  destruct (e =? 0); [destruct G as [_ ->]; by exists k|].
  destruct (decode_session_id b) as [s0|err]; [|destruct G as [_ ->]; by exists k].
  destruct G as [-> _]. destruct (run_check s0 e d) as (r0&d1&->&Ho&Hw&_). simpl.
  destruct (decide (s = s0)) as [->|Hne].
  - destruct Hw as [->|(k0&H0&Hlt&->)]; [by exists k|]. exists e. split; [done|]. rewrite Hk in H0. simplify_eq. lia.
  - exists k. split; [|lia]. rewrite <- Hk. unfold high_water. by rewrite (Ho s Hne).
Qed.

(** An accepted fenced call: the mark was readable, at or below its epoch, and
    is its epoch after. *)
Lemma run_gate_accepts b s e d x :
  decode_session_id b = Ok s → e ≠ 0 →
  (run (check_session_epoch encode decode b e) d).1 = Some (Ok x) →
  x = Some (s, e) ∧
  (∃ k, high_water d s = Some k ∧ k ≤ e) ∧
  high_water (run (check_session_epoch encode decode b e) d).2 s = Some e.
Proof.
  intros Hb He. pose proof (run_gate b e d) as G. rewrite (proj2 (Z.eqb_neq e 0) He), Hb in G.
  destruct (run (check_session_epoch encode decode b e) d) as [r d']. cbn [fst snd]. destruct G as [-> G].
  intros Hr. destruct (G x Hr) as [-> Hc]. split; [done|].
  destruct (run_check s e d) as (r0&d1&E&_&_&Hok). rewrite E in *. destruct (Hok Hc) as (k&Hk&Hle&_&Hk').
  split; [by exists k|done].
Qed.

(** *** Sequences of calls *)

(** A call of any session, with any epoch, under any faults. *)
Record call := MkCall { c_session : list N; c_epoch : Z; c_faults : list fault }.

(** Calls one after the other; an agent that crashed is restarted by the next. *)
Fixpoint run_calls (l : list call) (d : Disk) : Disk :=
  match l with
  | [] => d
  | c :: l' =>
      run_calls l' (run (check_session_epoch encode decode (c_session c) (c_epoch c))
                        (d <| faults := c_faults c |>)).2
  end.

Lemma run_calls_mono l d s k :
  high_water d s = Some k → ∃ k', high_water (run_calls l d) s = Some k' ∧ k ≤ k'.
Proof.
  revert d k. induction l as [|c l IH]; intros d k Hk; [by exists k|]. simpl.
  destruct (run_gate_mark (c_session c) (c_epoch c) (d <| faults := c_faults c |>) s k) as (k1&Hk1&Hle); [done|].
  destruct (IH _ k1 Hk1) as (k'&Hk'&Hle'). exists k'. split; [done|lia].
Qed.

(** C22. The host's fence, of calls one after the other: any sessions, any
    epochs, with any file operation failing or the agent crashing in the middle
    of any of them.  Once a call with an epoch other than 0 was accepted, the
    session's record stays readable and at or above that epoch, and the gate
    accepts no later call of the session with a smaller epoch other than 0.  A
    record that cannot be read refuses every call with an epoch other than 0.
    A call with epoch 0 is always accepted, as unfenced, whatever the record,
    and changes nothing: the fence does not cover the callers that send it.
    Calls that overlap are the matter of [fence_race]. *)
Theorem fence_high_water l1 b s e fs l2 d :
  decode_session_id b = Ok s →
  let d1 := run_calls l1 d in
  let '(r, d2) := run (check_session_epoch encode decode b e) (d1 <| faults := fs |>) in
  let d3 := run_calls l2 d2 in
  if e =? 0 then r = Some (Ok None) ∧ files d2 = files d1
  else
    (∀ x, r = Some (Ok x) →
       x = Some (s, e) ∧
       (∃ k, high_water d3 s = Some k ∧ e ≤ k) ∧
       ∀ b' e' fs' x', decode_session_id b' = Ok s → e' ≠ 0 → e' < e →
         (run (check_session_epoch encode decode b' e') (d3 <| faults := fs' |>)).1 ≠ Some (Ok x')) ∧
    (high_water d1 s = None → ∀ x, r ≠ Some (Ok x)).
Proof.
  intros Hb d1. destruct (Z.eqb_spec e 0) as [->|He].
  { pose proof (run_gate b 0 (d1 <| faults := fs |>)) as G.
    destruct (run _ _) as [r d2]. destruct G as [-> ->]. done. }
  pose proof (fun x => run_gate_accepts b s e (d1 <| faults := fs |>) x Hb He) as G.
  destruct (run (check_session_epoch encode decode b e) (d1 <| faults := fs |>)) as [r d2].
  cbn [fst snd] in G. split.
  - intros x Hx. destruct (G x Hx) as (->&_&Hk). split; [done|].
    destruct (run_calls_mono l2 d2 s e Hk) as (k3&Hk3&Hle). split; [by exists k3|].
    intros b' e' fs' x' Hb' He' Hlt Hacc.
    destruct (run_gate_accepts b' s e' _ x' Hb' He' Hacc) as (_&(k'&Hk'&Hle')&_).
    change (high_water (run_calls l2 d2) s = Some k') in Hk'. rewrite Hk3 in Hk'. simplify_eq. lia.
  - intros Hn x Hx. destruct (G x Hx) as (_&(k&Hk&_)&_). change (high_water d1 s = Some k) in Hk. congruence.
Qed.

End props.

(** ** The fence is not atomic *)

Module Demo.

(** A codec for the witnesses: the fields in a row, integers with their sign. *)
Definition int (z : Z) : list N := [if z <? 0 then 1%N else 0%N; Z.abs_N z].
Definition of_int (s a : N) : Z := if (s =? 1)%N then - Z.of_N a else Z.of_N a.

Definition encode (r : EpochRecord) : list N :=
  int (schema_version r) ++ [session_id r] ++ int (epoch r) ++ int (updated_at r).
Definition decode (b : list N) : option EpochRecord :=
  match b with
  | [v1; v2; s; e1; e2; t1; t2] => Some (MkRecord (of_int v1 v2) s (of_int e1 e2) (of_int t1 t2))
  | _ => None
  end.

Lemma fence_codec r : decode (encode r) = Some r.
Proof.
  assert (H : ∀ z, of_int (if z <? 0 then 1%N else 0%N) (Z.abs_N z) = z).
  { intros z. unfold of_int. destruct (Z.ltb_spec z 0); simpl; lia. }
  destruct r. unfold encode, int, decode. simpl. by rewrite !H.
Qed.

Definition stored (n : Z) : Disk :=
  MkDisk {[Final 1%N := encode (MkRecord 1 1 n 0)]} [] 0.

End Demo.

Lemma fence_high_water_witness :
  let id := replicate 15 0%N ++ [1%N] in
  let gate := check_session_epoch Demo.encode Demo.decode id in
  let between := [MkCall id 6 [NoFault; NoFault; Crashes]; MkCall id 0 []; MkCall id 2 []] in
  let d2 := (exec handle (gate 4) (Demo.stored 3)).2 in
  let d3 := run_calls Demo.encode Demo.decode between d2 in
  (exec handle (gate 4) (Demo.stored 3)).1 = Some (Ok (Some (1%N, 4))) ∧
  (exec handle (gate 3) (d3 <| faults := [] |>)).1 ≠ Some (Ok (Some (1%N, 3))).
Proof.
  intros id gate between d2 d3.
  assert ((exec handle (gate 4) (Demo.stored 3)).1 = Some (Ok (Some (1%N, 4)))) as H by (by vm_compute).
  split; [exact H|].
  pose proof (fence_high_water Demo.encode Demo.decode Demo.fence_codec [] id 1%N 4 [] between (Demo.stored 3)
    ltac:(done)) as T.
  exact (proj2 (proj2 (proj1 T _ H)) id 3 [] _ ltac:(done) ltac:(done) ltac:(done)).
Defined.

(** The check and the write of the fence are not one step, and calls of one
    session run on several threads: with the record at 3, a call with epoch 5
    that reads before and renames after a call with epoch 7 is accepted as that
    one was, and takes the high-water mark from 7 back to 5, so that a stale
    call with epoch 6 is accepted too. *)
Theorem fence_race :
  let ck := check_and_advance Demo.encode Demo.decode 1%N in
  let '(p, q, d) :=
    interleave handle [true; false; false; false; false; false; true; true; true; true] (ck 5) (ck 7)
      (Demo.stored 3) in
  p = okay tt ∧ q = okay tt ∧ high_water Demo.decode d 1%N = Some 5 ∧
  (exec handle (ck 6) d).1 = Some (Ok tt).
Proof. vm_compute. auto. Qed.

End Fence.
