(* ===== verification/Wire.v ===== *)
(** * The wire of the page channel

    [engram-migrate-proto/src/lib.rs]: the bitmap of sealed chunks, the messages
    of a post-copy migration, and their framing.  Integers are [N] within their
    Rust width, bytes are [N] below 256.  bincode, lz4 and blake3 are parameters. *)

From S2P Require Import Prelude.
Local Open Scope N_scope.

Notation bytes := (list N) (only parsing).
Notation is_byte := (fun b : N => b < 256).

(** [u64::div_ceil], which panics on a zero divisor as [/] does. *)
Definition ceil (a b : N) : N := a / b + (if a mod b =? 0 then 0 else 1).

Lemma ceil_lt a b i : b ≠ 0 → i < ceil a b ↔ i * b < a.
Proof.
  intros Hb. unfold ceil. pose proof (N.div_mod a b Hb). pose proof (N.mod_lt a b Hb).
  set (q := a / b) in *. set (r := a mod b) in *. clearbody q r. subst a.
  destruct (N.eqb_spec r 0) as [->|Hr].
  - rewrite !N.add_0_r, (N.mul_comm b q). by apply N.mul_lt_mono_pos_r; lia.
  - split; intros Hi.
    + assert (i * b ≤ q * b) by (apply N.mul_le_mono_r; lia). lia.
    + apply (N.mul_lt_mono_pos_r b); [lia|]. rewrite N.mul_add_distr_r. lia.
Qed.

Lemma ceil_ub a b : b ≠ 0 → a ≤ ceil a b * b.
Proof. intros Hb. destruct (decide (a ≤ ceil a b * b)) as [|H]; [done|]. exfalso.
  apply N.lt_nge in H. rewrite <- ceil_lt in H by done. lia. Qed.

(** [a..b]. *)
Definition range (a b : N) : list N := (fun k => a + N.of_nat k) <$> seq 0 (N.to_nat (b - a)).

Lemma elem_of_range a b i : i ∈ range a b ↔ a ≤ i < b.
Proof.
  unfold range. rewrite list_elem_of_fmap. setoid_rewrite elem_of_seq. split.
  - intros (k&->&Hk). lia.
  - intros Hi. exists (N.to_nat (i - a)). lia.
Qed.

Lemma range_app a b c : a ≤ b ≤ c → range a c = range a b ++ range b c.
Proof.
  intros H. unfold range. replace (N.to_nat (c - a)) with (N.to_nat (b - a) + N.to_nat (c - b))%nat by lia.
  rewrite seq_app, fmap_app. f_equal. rewrite Nat.add_0_l, <- (Nat.add_0_r (N.to_nat (b - a))).
  rewrite <- fmap_add_seq, <- list_fmap_compose. apply list_fmap_ext. intros i x _. simpl. lia.
Qed.

Lemma range_shift k a b : range (k + a) (k + b) = N.add k <$> range a b.
Proof.
  unfold range. rewrite <- list_fmap_compose.
  replace (k + b - (k + a)) with (b - a) by lia. apply list_fmap_ext. intros i x _. simpl. lia.
Qed.

Lemma NoDup_range a b : NoDup (range a b).
Proof. apply NoDup_fmap_2; [intros x y; lia|apply NoDup_seq]. Qed.

(** ** The bitmap *)

Module SealBitmap.

Record t := Mk { chunk_size : N; chunk_count : N; bits : bytes }.

#[export] Instance eta_t : Eta t := fun b => Mk (chunk_size b) (chunk_count b) (bits b).
#[export] Instance t_eq_dec : EqDecision t.
Proof. solve_decision. Defined.

Definition new (chunk_size chunk_count : N) : t :=
  Mk chunk_size chunk_count (replicate (N.to_nat (ceil chunk_count 8)) 0).

Definition get (self : t) (idx : N) : bool :=
  if chunk_count self <=? idx then false
  else match bits self !! N.to_nat (idx / 8) with
       | Some b => negb (N.land b (N.shiftl 1 (idx mod 8)) =? 0)
       | None => false
       end.

(** [None] is a panic: of the assertion, or of the index. *)
Definition set (self : t) (idx : N) : option t :=
  if negb (idx <? chunk_count self) then None
  else match bits self !! N.to_nat (idx / 8) with
       | Some b => Some (self <| bits := <[N.to_nat (idx / 8) := N.lor b (N.shiftl 1 (idx mod 8))]> (bits self) |>)
       | None => None
       end.

(** [u8::count_ones]. *)
Definition popcount (b : N) : N := N.of_nat (length (List.filter (N.testbit b) (range 0 8))).

Definition count_ones (self : t) : N := foldr N.add 0 (popcount <$> bits self).

Definition validate (self : t) : result unit string :=
  let want := N.to_nat (ceil (chunk_count self) 8) in
  if negb (length (bits self) =? want)%nat
  then Err "bitmap byte length {} != expected {} for {} chunks"
  else
    let tail_bits := chunk_count self mod 8 in
    if negb (tail_bits =? 0) then
      let mask := N.land (N.lxor 65535 (N.shiftl 1 tail_bits - 1)) 255 in
      if match last (bits self) with Some b => negb (N.land b mask =? 0) | None => false end
      then Err "trailing bits past chunk_count are set"
      else Ok tt
    else Ok tt.

(** *** Well-formed bitmaps *)

(** Bit [i] of the packed bytes, in or out of range. *)
Definition bit (l : bytes) (i : N) : bool :=
  match l !! N.to_nat (i / 8) with Some b => N.testbit b (i mod 8) | None => false end.

Record wf (self : t) : Prop := {
  wf_bytes : Forall is_byte (bits self);
  wf_len : length (bits self) = N.to_nat (ceil (chunk_count self) 8);
  wf_tail : ∀ i, chunk_count self ≤ i → bit (bits self) i = false;
}.

Lemma land_bit b k : negb (N.land b (N.shiftl 1 k) =? 0) = N.testbit b k.
Proof.
  rewrite N.shiftl_1_l. destruct (N.testbit b k) eqn:E.
  - apply negb_true_iff, N.eqb_neq. intros H. apply (f_equal (fun x => N.testbit x k)) in H.
    rewrite N.land_spec, E, N.pow2_bits_true in H. done.
  - apply negb_false_iff, N.eqb_eq, N.bits_inj. intros i. rewrite N.land_spec, N.bits_0.
    destruct (decide (k = i)) as [<-|Hne]; [by rewrite E|].
    by rewrite N.pow2_bits_false, andb_false_r.
Qed.

Lemma get_bit self idx : get self idx = (idx <? chunk_count self) && bit (bits self) idx.
Proof.
  unfold get, bit. rewrite N.leb_antisym. destruct (idx <? chunk_count self); [|done].
  simpl. destruct (_ !! _); [apply land_bit|done].
Qed.

Lemma byte_high b k : b < 256 → 8 ≤ k → N.testbit b k = false.
Proof.
  intros Hb Hk. destruct (decide (b = 0)) as [->|]; [by rewrite N.bits_0|].
  apply N.bits_above_log2. apply N.log2_lt_pow2; [lia|].
  eapply N.lt_le_trans; [exact Hb|]. change 256 with (2 ^ 8). by apply N.pow_le_mono_r.
Qed.

Lemma byte_of_bits b : (∀ k, 8 ≤ k → N.testbit b k = false) → b < 256.
Proof.
  intros H. destruct (decide (b < 256)) as [|Hge]; [done|]. exfalso.
  assert (8 ≤ N.log2 b) as Hl by (change 8 with (N.log2 256); apply N.log2_le_mono; lia).
  specialize (H _ Hl). rewrite N.bit_log2 in H; [done|lia].
Qed.

Lemma new_wf cs n : wf (new cs n).
Proof.
  split; simpl.
  - by apply Forall_replicate.
  - by rewrite length_replicate.
  - intros i _. unfold bit. destruct (_ !! _) eqn:E; [|done].
    apply lookup_replicate in E as [-> _]. apply N.bits_0.
Qed.

Lemma get_new cs n i : get (new cs n) i = false.
Proof.
  rewrite get_bit. unfold bit. simpl. destruct (_ !! _) eqn:E; [|by rewrite andb_false_r].
  apply lookup_replicate in E as [-> _]. by rewrite N.bits_0, andb_false_r.
Qed.

Lemma wf_index self idx : wf self → idx < chunk_count self →
  ∃ b, bits self !! N.to_nat (idx / 8) = Some b ∧ b < 256.
Proof.
  intros Hw Hi. destruct (lookup_lt_is_Some_2 (bits self) (N.to_nat (idx / 8))) as [b Hb].
  { rewrite (wf_len _ Hw). assert (idx / 8 < ceil (chunk_count self) 8); [|lia].
    apply ceil_lt; [done|]. pose proof (N.Div0.mul_div_le idx 8). lia. }
  exists b. split; [done|]. pose proof (wf_bytes _ Hw) as Hf. rewrite Forall_lookup in Hf. eauto.
Qed.

Lemma index_eq i j : i / 8 = j / 8 → i mod 8 = j mod 8 → i = j.
Proof. intros. pose proof (N.div_mod i 8). pose proof (N.div_mod j 8). lia. Qed.

Lemma bit_set l k i b :
  l !! N.to_nat (i / 8) = Some b →
  bit (<[N.to_nat (i / 8) := N.lor b (N.shiftl 1 (i mod 8))]> l) k = (k =? i) || bit l k.
Proof.
  intros Hb. unfold bit. destruct (decide (k / 8 = i / 8)) as [E|E].
  - rewrite E, list_lookup_insert_eq by (by eapply lookup_lt_Some). rewrite Hb, N.lor_spec, N.shiftl_1_l.
    rewrite N.pow2_bits_eqb, orb_comm. f_equal. destruct (N.eqb_spec k i) as [->|Hne].
    + apply N.eqb_refl.
    + apply N.eqb_neq. intros Hm. apply Hne, index_eq; [done|by symmetry].
  - rewrite list_lookup_insert_ne by lia.
    assert ((k =? i) = false) as ->; [|done]. apply N.eqb_neq. by intros ->.
Qed.

Lemma set_spec self idx :
  wf self → idx < chunk_count self →
  ∃ s', set self idx = Some s' ∧ wf s' ∧ chunk_size s' = chunk_size self ∧
    chunk_count s' = chunk_count self ∧ ∀ j, get s' j = (j =? idx) || get self j.
Proof.
  intros Hw Hi. destruct (wf_index self idx Hw Hi) as (b&Hb&Hlt). unfold set.
  rewrite (proj2 (N.ltb_lt _ _) Hi), Hb. simpl. eexists. split; [done|].
  split; [split|]; simpl.
  - apply Forall_insert; [apply Hw|]. apply byte_of_bits. intros k Hk.
    rewrite N.lor_spec, (byte_high b), N.shiftl_1_l by done.
    apply N.pow2_bits_false. pose proof (N.mod_lt idx 8). lia.
  - rewrite length_insert. apply Hw.
  - intros i Hge. rewrite bit_set by done. rewrite (wf_tail _ Hw) by done.
    rewrite orb_false_r. apply N.eqb_neq. lia.
  - split; [done|]. split; [done|]. intros j. rewrite !get_bit. simpl. rewrite bit_set by done.
    destruct (N.eqb_spec j idx) as [->|]; simpl; [|done]. by rewrite (proj2 (N.ltb_lt _ _) Hi).
Qed.

(** *** Counting *)

Lemma filter_ext_in {A} (P Q : A → bool) (l : list A) :
  (∀ x, x ∈ l → P x = Q x) → List.filter P l = List.filter Q l.
Proof.
  intros H. induction l as [|x l IH]; [done|]. simpl.
  rewrite (H x) by constructor. rewrite IH; [done|]. intros y Hy. apply H. by constructor.
Qed.

Lemma filter_fmap {A B} (P : B → bool) (f : A → B) l :
  List.filter P (f <$> l) = f <$> List.filter (fun x => P (f x)) l.
Proof. induction l as [|x l IH]; [done|]. csimpl. destruct (P (f x)); csimpl; by rewrite IH. Qed.

Lemma count_bits l :
  foldr N.add 0 (popcount <$> l) =
  N.of_nat (length (List.filter (bit l) (range 0 (8 * N.of_nat (length l))))).
Proof.
  induction l as [|b l IH]; [done|]. simpl length. rewrite Nat2N.inj_succ.
  replace (8 * N.succ (N.of_nat (length l))) with (8 + 8 * N.of_nat (length l)) by lia.
  rewrite (range_app 0 8) by lia. rewrite List.filter_app, length_app, Nat2N.inj_add.
  cbn [fmap list_fmap foldr]. rewrite IH. apply f_equal2.
  - done.
  - f_equal. rewrite (range_shift 8 0 _ : range 8 _ = _), filter_fmap, length_fmap. f_equal.
    apply filter_ext_in. intros x _. unfold bit.
    replace (8 + x) with (x + 1 * 8) by lia. rewrite N.Div0.mod_add, N.div_add by done.
    by replace (N.to_nat (x / 8 + 1)) with (S (N.to_nat (x / 8))) by lia.
Qed.

Lemma count_ones_spec self :
  wf self →
  count_ones self = N.of_nat (length (List.filter (get self) (range 0 (chunk_count self)))).
Proof.
  intros Hw. unfold count_ones. rewrite count_bits. f_equal. f_equal.
  pose proof (ceil_ub (chunk_count self) 8 ltac:(done)) as Hc. rewrite (wf_len _ Hw), N2Nat.id.
  rewrite (range_app 0 (chunk_count self)) by lia. rewrite List.filter_app.
  rewrite (filter_ext_in (bit (bits self)) (get self)).
  - rewrite (filter_ext_in (bit (bits self)) (fun _ => false) (range (chunk_count self) _)).
    + assert (∀ l : list N, List.filter (fun _ => false) l = []) as -> by (by induction l).
      by rewrite app_nil_r.
    + intros x [? _]%elem_of_range. by apply Hw.
  - intros x [_ Hx]%elem_of_range. rewrite get_bit. by rewrite (proj2 (N.ltb_lt _ _) Hx).
Qed.

(** *** Validation *)

(** Above bit [k], a byte and the mask of [validate] meet where the byte has a bit. *)
Lemma land_mask b k : b < 256 → k ≤ 8 →
  N.land b (N.land (N.lxor 65535 (N.shiftl 1 k - 1)) 255) = 0 ↔
  ∀ i, k ≤ i → N.testbit b i = false.
Proof.
  intros Hb Hk.
  assert (Hm : ∀ i, N.testbit (N.land (N.lxor 65535 (N.shiftl 1 k - 1)) 255) i = (k <=? i) && (i <? 8)).
  { intros i. rewrite N.land_spec, N.lxor_spec. change 65535 with (N.ones 16).
    change 255 with (N.ones 8). rewrite N.shiftl_1_l, N.sub_1_r, <- N.ones_equiv.
    destruct (N.ltb_spec i 8) as [H8|H8].
    - rewrite (N.ones_spec_low 16 i), (N.ones_spec_low 8 i), !andb_true_r by lia.
      destruct (N.leb_spec k i); [by rewrite N.ones_spec_high by lia|by rewrite N.ones_spec_low by lia].
    - by rewrite (N.ones_spec_high 8 i) by lia; rewrite !andb_false_r. }
  split.
  - intros H i Hi. destruct (decide (i < 8)) as [H8|H8]; [|apply byte_high; [done|lia]].
    apply (f_equal (fun x => N.testbit x i)) in H. rewrite N.land_spec, Hm, N.bits_0 in H.
    rewrite (proj2 (N.leb_le _ _) Hi), (proj2 (N.ltb_lt _ _) H8) in H. by rewrite andb_true_r in H.
  - intros H. apply N.bits_inj. intros i. rewrite N.land_spec, Hm, N.bits_0.
    destruct (N.leb_spec k i); [by rewrite H|by rewrite andb_false_r].
Qed.

Lemma validate_wf self :
  Forall is_byte (bits self) → validate self = Ok tt ↔ wf self.
Proof.
  intros Hby. unfold validate.
  destruct (Nat.eqb_spec (length (bits self)) (N.to_nat (ceil (chunk_count self) 8))) as [Hlen|Hlen];
    cbn [negb]; [|split; [done|intros Hw; by destruct (Hlen (wf_len _ Hw))]].
  set (n := chunk_count self) in *. pose proof (N.div_mod n 8 ltac:(done)) as Hdm.
  pose proof (N.mod_lt n 8 ltac:(done)) as Hr.
  destruct (N.eqb_spec (n mod 8) 0) as [H0|H0]; cbn [negb].
  { split; [intros _|done]. split; [done|done|]. intros i Hi. unfold bit.
    rewrite lookup_ge_None_2; [done|]. rewrite Hlen. unfold ceil. rewrite H0. simpl.
    assert (n / 8 ≤ i / 8) by (by apply N.Div0.div_le_mono). lia. }
  assert (Hl : last (bits self) = bits self !! N.to_nat (n / 8)).
  { rewrite last_lookup, Hlen. unfold ceil. rewrite (proj2 (N.eqb_neq _ _) H0). f_equal. lia. }
  destruct (lookup_lt_is_Some_2 (bits self) (N.to_nat (n / 8))) as [b Hb].
  { rewrite Hlen. unfold ceil. rewrite (proj2 (N.eqb_neq _ _) H0). lia. }
  rewrite Hl, Hb. assert (b < 256) as Hlt by (rewrite Forall_lookup in Hby; eauto).
  assert (Hw : wf self ↔ ∀ i, n mod 8 ≤ i → N.testbit b i = false).
  { split.
    - intros Hw i Hi. destruct (decide (i < 8)) as [H8|H8]; [|apply byte_high; [done|lia]].
      pose proof (wf_tail _ Hw (n / 8 * 8 + i) ltac:(fold n; lia)) as Ht. unfold bit in Ht.
      rewrite N.add_comm, N.div_add, N.div_small, N.Div0.mod_add, N.mod_small in Ht by done.
      by rewrite N.add_0_l, Hb in Ht.
    - intros Hbits. split; [done|done|]. fold n. intros i Hi. unfold bit.
      destruct (decide (i / 8 = n / 8)) as [E|E].
      + rewrite E, Hb. apply Hbits. pose proof (N.div_mod i 8 ltac:(done)). lia.
      + rewrite lookup_ge_None_2; [done|]. rewrite Hlen. unfold ceil.
        rewrite (proj2 (N.eqb_neq _ _) H0).
        assert (n / 8 ≤ i / 8) by (by apply N.Div0.div_le_mono). lia. }
  rewrite Hw, <- land_mask by (done || lia).
  destruct (N.eqb_spec (N.land b (N.land (N.lxor 65535 (N.shiftl 1 (n mod 8) - 1)) 255)) 0);
    naive_solver.
Qed.

(** C31. Sealed chunks.  A received bitmap passes validation exactly when it is
    well-formed: one bit per chunk and none beyond.  A fresh bitmap is
    well-formed and empty; sealing a chunk keeps it well-formed and adds that
    chunk alone, and panics exactly out of range; a read out of range answers
    false; and the count is the number of sealed chunks. *)
Theorem seal_bitmap_wellformed :
  (∀ b, Forall is_byte (bits b) → validate b = Ok tt ↔ wf b) ∧
  (∀ cs n, wf (new cs n) ∧ chunk_count (new cs n) = n ∧ ∀ i, get (new cs n) i = false) ∧
  (∀ b idx, wf b →
     match set b idx with
     | Some b' => idx < chunk_count b ∧ wf b' ∧ chunk_size b' = chunk_size b ∧
                  chunk_count b' = chunk_count b ∧ ∀ j, get b' j = (j =? idx) || get b j
     | None => chunk_count b ≤ idx
     end) ∧
  (∀ b idx, chunk_count b ≤ idx → get b idx = false) ∧
  (∀ b, wf b → count_ones b = N.of_nat (length (List.filter (get b) (range 0 (chunk_count b))))).
Proof.
  split_and!.
  - apply validate_wf.
  - intros cs n. split; [apply new_wf|]. split; [done|]. apply get_new.
  - intros b idx Hw. destruct (decide (idx < chunk_count b)) as [Hi|Hi].
    + by destruct (set_spec b idx Hw Hi) as (b'&->&?).
    + unfold set. rewrite (proj2 (N.ltb_ge _ _)); simpl; lia.
  - intros b idx Hi. rewrite get_bit, (proj2 (N.ltb_ge _ _)); [done|lia].
  - apply count_ones_spec.
Qed.

End SealBitmap.

(** ** Messages *)

Definition PROTO_VERSION : N := 6.
Definition MAX_FAULT_AROUND_CHUNKS : nat := 256.
Definition MAX_FRAME_BYTES : N := 16 * 1024 * 1024.

Inductive ConnPurpose : Type := Fault | Drain.

#[export] Instance ConnPurpose_eq_dec : EqDecision ConnPurpose.
Proof. solve_decision. Defined.

Inductive ToSource : Type :=
| Hello (version : N) (export_id token : string) (purpose : ConnPurpose)
| NeedAt (req_id chunk_offset : N)
| DrainDone (pulled alt_sourced zero_chunks : N)
| NeedWindow (req_id : N) (chunk_offsets : list N).

Inductive FromSource : Type :=
| HelloAck (version chunk_size total_bytes : N)
| Seal (bitmap : SealBitmap.t)
| Page (req_id chunk_offset : N) (bytes hash : bytes) (lz4 : bool)
| ZeroChunk (req_id chunk_offset : N)
| AltSource (req_id chunk_offset : N) (durable_sha256 : bytes)
| Error (req_id : option N) (message : string).

Section lz4.

Context (compress_prepend_size : bytes → bytes)
        (decompress_size_prepended : bytes → option bytes).

Definition compress_page (raw : bytes) : bytes * bool :=
  let compressed := compress_prepend_size raw in
  if (length compressed <? length raw)%nat then (compressed, true) else (raw, false).

Definition decompress_page (wire : bytes) (lz4 : bool) : result bytes string :=
  if negb lz4 then Ok wire
  else match decompress_size_prepended wire with
       | Some raw => Ok raw
       | None => Err "lz4 decompress: {e}"
       end.

Lemma compress_roundtrip raw :
  (∀ b, decompress_size_prepended (compress_prepend_size b) = Some b) →
  decompress_page (compress_page raw).1 (compress_page raw).2 = Ok raw ∧
  (length (compress_page raw).1 ≤ length raw)%nat.
Proof.
  intros Hc. unfold compress_page, decompress_page.
  destruct (Nat.ltb_spec (length (compress_prepend_size raw)) (length raw)); simpl; [rewrite Hc|]; auto with lia.
Qed.

End lz4.

(** ** Frames *)

(** The [io::Error]s of the codec; a blocking read of a closed stream ends in
    [UnexpectedEof], a timeout or a reset of the socket is [SocketIo]. *)
Inductive FrameError : Type := UnexpectedEof | InvalidData (msg : string) | SocketIo.

(** [Read::read_exact] on what the stream still holds. *)
Definition read_exact (n : nat) (s : bytes) : result (bytes * bytes) FrameError :=
  if (length s <? n)%nat then Err UnexpectedEof else Ok (take n s, drop n s).

Definition u32_to_be_bytes (n : N) : bytes :=
  [n / 2 ^ 24 mod 256; n / 2 ^ 16 mod 256; n / 2 ^ 8 mod 256; n mod 256].

Definition u32_from_be_bytes (l : bytes) : N := fold_left (fun acc b => acc * 256 + b) l 0.

Section frame.

Context {T : Type} (serialize : T → option bytes) (deserialize : bytes → option T).

Definition read_frame (r : bytes) : result (T * bytes) FrameError :=
  let? (len_buf, r) := read_exact 4 r in
  let len := u32_from_be_bytes len_buf in
  if MAX_FRAME_BYTES <? len
  then Err (InvalidData "frame length {len} exceeds MAX_FRAME_BYTES ({MAX_FRAME_BYTES})") else
  let? (body, r) := read_exact (N.to_nat len) r in
  match deserialize body with
  | Some m => Ok (m, r)
  | None => Err (InvalidData "bincode: {e}")
  end.

(** The bytes written. *)
Definition write_frame (msg : T) : result bytes FrameError :=
  match serialize msg with
  | None => Err (InvalidData "bincode: {e}")
  | Some body =>
      if MAX_FRAME_BYTES <? N.of_nat (length body)
      then Err (InvalidData "encoded frame {} exceeds MAX_FRAME_BYTES ({MAX_FRAME_BYTES})")
      else Ok (u32_to_be_bytes (N.of_nat (length body)) ++ body)
  end.

Lemma be_bytes_roundtrip n : n < 2 ^ 32 → u32_from_be_bytes (u32_to_be_bytes n) = n.
Proof.
  intros Hn. unfold u32_from_be_bytes, u32_to_be_bytes. cbn [fold_left].
  pose proof (N.div_mod n 256 ltac:(done)).
  pose proof (N.div_mod (n / 256) 256 ltac:(done)). pose proof (N.div_mod (n / 256 / 256) 256 ltac:(done)).
  pose proof (N.div_mod (n / 256 / 256 / 256) 256 ltac:(done)).
  change (2 ^ 24) with (256 * 256 * 256). change (2 ^ 16) with (256 * 256). change (2 ^ 8) with 256.
  rewrite <- !N.Div0.div_div.
  assert (n / 256 / 256 / 256 / 256 = 0) as Hz.
  { rewrite !N.Div0.div_div. apply N.div_small. exact Hn. }
  rewrite Hz in *. lia.
Qed.

Lemma read_exact_app l r : read_exact (length l) (l ++ r) = Ok (l, r).
Proof.
  unfold read_exact. rewrite length_app, (proj2 (Nat.ltb_ge _ _)) by lia.
  by rewrite take_app_length, drop_app_length.
Qed.

Lemma read_exact_Ok n s a b : read_exact n s = Ok (a, b) → s = a ++ b ∧ length a = n.
Proof.
  unfold read_exact. destruct (Nat.ltb_spec (length s) n); [done|]. intros [= <- <-].
  rewrite take_drop, length_take. split; [done|lia].
Qed.

Lemma read_written body m rest :
  deserialize body = Some m → N.of_nat (length body) ≤ MAX_FRAME_BYTES →
  read_frame (u32_to_be_bytes (N.of_nat (length body)) ++ body ++ rest) = Ok (m, rest).
Proof.
  intros Hd Hl. unfold read_frame.
  change 4%nat with (length (u32_to_be_bytes (N.of_nat (length body)))).
  rewrite read_exact_app. cbv beta iota. rewrite be_bytes_roundtrip by (unfold MAX_FRAME_BYTES in Hl; lia).
  rewrite Nat2N.id, (proj2 (N.ltb_ge _ _)) by lia. by rewrite read_exact_app, Hd.
Qed.

(** A stream cut inside a frame. *)
Lemma read_cut body k :
  N.of_nat (length body) ≤ MAX_FRAME_BYTES → (k < 4 + length body)%nat →
  read_frame (take k (u32_to_be_bytes (N.of_nat (length body)) ++ body)) = Err UnexpectedEof.
Proof.
  intros Hl Hk. unfold read_frame. set (hd := u32_to_be_bytes _).
  assert (Hh : length hd = 4%nat) by done. destruct (decide (k < 4)%nat) as [H4|H4].
  { unfold read_exact. rewrite (proj2 (Nat.ltb_lt _ _)); [done|]. rewrite length_take. lia. }
  rewrite take_app_ge by lia. rewrite <- Hh at 1. rewrite read_exact_app. cbv beta iota.
  unfold hd at 1 2. rewrite be_bytes_roundtrip by (unfold MAX_FRAME_BYTES in Hl; lia).
  rewrite Nat2N.id, (proj2 (N.ltb_ge _ _)) by lia. unfold read_exact.
  rewrite (proj2 (Nat.ltb_lt _ _)); [done|]. rewrite length_take. lia.
Qed.

(** The frames of the page channel.  A message that fits the cap is written
    as one frame, which reads back as that message with the rest of the stream
    untouched, and every cut of it reads as an unexpected end; a larger message
    is refused by the writer; and whatever the reader accepts is a frame within
    the cap, so a length above it is refused before its body is read. *)
Theorem frame_roundtrip :
  (∀ m body, serialize m = Some body → deserialize body = Some m) →
  (∀ m body, serialize m = Some body → N.of_nat (length body) ≤ MAX_FRAME_BYTES →
     ∃ w, write_frame m = Ok w ∧ (∀ rest, read_frame (w ++ rest) = Ok (m, rest)) ∧
       ∀ k, (k < length w)%nat → read_frame (take k w) = Err UnexpectedEof) ∧
  (∀ m body, serialize m = Some body → MAX_FRAME_BYTES < N.of_nat (length body) →
     ∃ msg, write_frame m = Err (InvalidData msg)) ∧
  (∀ s m rest, read_frame s = Ok (m, rest) →
     ∃ hd body, s = hd ++ body ++ rest ∧ length hd = 4%nat ∧ deserialize body = Some m ∧
       length body = N.to_nat (u32_from_be_bytes hd) ∧ N.of_nat (length body) ≤ MAX_FRAME_BYTES) ∧
  (∀ hd s, length hd = 4%nat → MAX_FRAME_BYTES < u32_from_be_bytes hd →
     ∃ msg, read_frame (hd ++ s) = Err (InvalidData msg)).
Proof.
  intros codec. split_and!.
  - intros m body Hs Hl. unfold write_frame. rewrite Hs, (proj2 (N.ltb_ge _ _)) by lia.
    eexists. split; [done|]. split.
    + intros rest. rewrite <- app_assoc. apply read_written; auto.
    + intros k Hk. apply read_cut; [done|]. by rewrite length_app in Hk.
  - intros m body Hs Hl. unfold write_frame. rewrite Hs, (proj2 (N.ltb_lt _ _)) by lia. by eexists.
  - intros s m rest. unfold read_frame. destruct (read_exact 4 s) as [[hd r]|] eqn:E4; [|done].
    destruct (N.ltb_spec MAX_FRAME_BYTES (u32_from_be_bytes hd)) as [|Hle]; [done|].
    destruct (read_exact _ r) as [[body r']|] eqn:Eb; [|done].
    destruct (deserialize body) as [m'|] eqn:Ed; [|done]. intros [= -> ->].
    apply read_exact_Ok in E4 as [-> H4]. apply read_exact_Ok in Eb as [-> Hb].
    exists hd, body. split_and!; auto. lia.
  - intros hd s H4 Hbig. unfold read_frame. rewrite <- H4, read_exact_app. cbv beta iota.
    rewrite (proj2 (N.ltb_lt _ _)) by done. by eexists.
Qed.

End frame.

Lemma frame_roundtrip_witness :
  ∃ w, write_frame Some [7; 8; 9] = Ok w ∧ ∀ rest, read_frame Some (w ++ rest) = Ok ([7; 8; 9], rest).
Proof.
  destruct (frame_roundtrip (@Some (list N)) Some ltac:(intros ? ? [= ->]; reflexivity)) as [H _].
  destruct (H [7; 8; 9] [7; 8; 9] eq_refl ltac:(unfold MAX_FRAME_BYTES; simpl length; lia)) as (w&Hw&Hr&_).
  exists w. split; [exact Hw|exact Hr].
Defined.
