(* ===== verification/DirtyMap.v ===== *)
(** * The dirty map of a paused guest

    [engram-host-agent/src/dirty_map.rs]: which chunks of a paused guest diverge
    from its manifest, read off the page table of the Firecracker process.
    Addresses and offsets are [N]: the kernel keeps them far below 2^64.  A batch
    of the page map is its 64-bit entries. *)

From S2P Require Import Prelude Text Wire.
Local Open Scope N_scope.

Definition PAGE_SIZE : N := 4096.

Record GuestVma := MkVma { start : N; end_ : N; file_offset : N }.

Definition vma_len (v : GuestVma) : N := end_ v - start v.

Definition pagemap_entry_is_dirty (entry : N) : bool :=
  let present := negb (N.land entry (N.shiftl 1 63) =? 0) in
  let swapped := negb (N.land entry (N.shiftl 1 62) =? 0) in
  let file_backed := negb (N.land entry (N.shiftl 1 61) =? 0) in
  swapped || (present && negb file_backed).

Definition PAGEMAP_BATCH_ENTRIES : N := 4096.

(** How a scan can end other than with its result.  [Hangs]: more rounds of a
    loop than its fuel. *)
Inductive ScanError : Type := ScanIo | ScanPanic | Hangs.

Section scan.

(** [read_exact_at] of the page map: [n] entries from the [i]-th, or an error. *)
Context (pread : N → N → result (list N) ScanError).

Fixpoint walk_vma {St} (fuel : nat) (visit : St → N → list N → result St ScanError)
    (vma : GuestVma) (va : N) (s : St) : result St ScanError :=
  match fuel with
  | O => Err Hangs
  | S fuel' =>
      if va <? end_ vma then
        let n := N.min ((end_ vma - va) / PAGE_SIZE) PAGEMAP_BATCH_ENTRIES in
        let? buf := pread (va / PAGE_SIZE) n in
        let? s := visit s (file_offset vma + va - start vma) buf in
        walk_vma fuel' visit vma (va + n * PAGE_SIZE) s
      else Ok s
  end.

Fixpoint walk_pagemap_batches {St} (visit : St → N → list N → result St ScanError)
    (vmas : list GuestVma) (s : St) : result St ScanError :=
  match vmas with
  | [] => Ok s
  | vma :: vmas' =>
      let? s := walk_vma (S (N.to_nat (vma_len vma / PAGE_SIZE))) visit vma (start vma) s in
      walk_pagemap_batches visit vmas' s
  end.

Context (chunk_size total_bytes : N).

(** The loop of the scan over one batch, from entry [i]. *)
Fixpoint visit_batch (fuel : nat) (base : N) (es : list N) (i : N) (seal : SealBitmap.t) :
    result SealBitmap.t ScanError :=
  match fuel with
  | O => Err Hangs
  | S fuel' =>
      match es !! N.to_nat i with
      | None => Ok seal
      | Some entry =>
          let offset := base + i * PAGE_SIZE in
          if (offset <? total_bytes) && pagemap_entry_is_dirty entry then
            let chunk := offset / chunk_size in
            match SealBitmap.set seal chunk with
            | None => Err ScanPanic
            | Some seal =>
                visit_batch fuel' base es
                  (i + N.max (ceil ((chunk + 1) * chunk_size - offset) PAGE_SIZE) 1) seal
            end
          else visit_batch fuel' base es (i + 1) seal
      end
  end.

Definition scan_dirty_chunks (vmas : list GuestVma) : result SealBitmap.t ScanError :=
  let seal := SealBitmap.new chunk_size (ceil total_bytes chunk_size) in
  walk_pagemap_batches (fun seal base es => visit_batch (S (length es)) base es 0 seal) vmas seal.

(** ** What the scan finds *)

(** The page map, and what the kernel guarantees of memory mappings. *)
Variable entry : N → N.
Hypothesis pread_entries : ∀ i n, pread i n = Err ScanIo ∨ pread i n = Ok (entry <$> range i (i + n)).
Hypothesis size_pos : chunk_size ≠ 0.

Definition page_aligned (v : GuestVma) : Prop :=
  start v mod PAGE_SIZE = 0 ∧ vma_len v mod PAGE_SIZE = 0 ∧ start v ≤ end_ v.

(** Page [p] of [v] diverges and belongs to chunk [j]. *)
Definition dirty_page (v : GuestVma) (p j : N) : Prop :=
  p < vma_len v / PAGE_SIZE ∧ file_offset v + p * PAGE_SIZE < total_bytes ∧
  pagemap_entry_is_dirty (entry (start v / PAGE_SIZE + p)) = true ∧
  (file_offset v + p * PAGE_SIZE) / chunk_size = j.

(** [seal] is a bitmap of this image that holds the chunks of [Q]. *)
Definition holds (seal : SealBitmap.t) (Q : N → Prop) : Prop :=
  SealBitmap.wf seal ∧ SealBitmap.chunk_size seal = chunk_size ∧
  SealBitmap.chunk_count seal = ceil total_bytes chunk_size ∧
  ∀ j, SealBitmap.get seal j = true ↔ Q j.

Lemma holds_iff seal (Q Q' : N → Prop) : (∀ j, Q j ↔ Q' j) → holds seal Q → holds seal Q'.
Proof. intros HQ (?&?&?&H). split_and!; try done. intros j. by rewrite H. Qed.

Lemma holds_set seal Q j :
  holds seal Q → j < ceil total_bytes chunk_size →
  ∃ seal', SealBitmap.set seal j = Some seal' ∧ holds seal' (fun k => k = j ∨ Q k).
Proof.
  intros (Hw&Hs&Hc&HQ) Hj.
  destruct (SealBitmap.set_spec seal j Hw ltac:(by rewrite Hc)) as (s'&->&Hw'&Hs'&Hc'&Hg).
  exists s'. split; [done|]. split_and!; [done|congruence|congruence|].
  intros k. by rewrite Hg, orb_true_iff, N.eqb_eq, HQ.
Qed.

(** Entry [k] of a batch seals chunk [j]. *)
Definition seals (base : N) (es : list N) (k j : N) : Prop :=
  ∃ e, es !! N.to_nat k = Some e ∧ base + k * PAGE_SIZE < total_bytes ∧
    pagemap_entry_is_dirty e = true ∧ (base + k * PAGE_SIZE) / chunk_size = j.

(** Pages skipped after a dirty one lie in its chunk. *)
Lemma skip_same base i k :
  let offset := base + i * PAGE_SIZE in let chunk := offset / chunk_size in
  i ≤ k < i + N.max (ceil ((chunk + 1) * chunk_size - offset) PAGE_SIZE) 1 →
  (base + k * PAGE_SIZE) / chunk_size = chunk.
Proof.
  intros offset chunk [Hik Hk].
  assert (Ho : offset < (chunk + 1) * chunk_size).
  { unfold chunk. pose proof (N.div_mod offset chunk_size size_pos).
    pose proof (N.mod_lt offset chunk_size size_pos). lia. }
  assert (Hk' : (k - i) * PAGE_SIZE < (chunk + 1) * chunk_size - offset).
  { apply ceil_lt; [done|].
    assert (0 < ceil ((chunk + 1) * chunk_size - offset) PAGE_SIZE) by (apply ceil_lt; [done|lia]). lia. }
  assert (Hlo : chunk * chunk_size ≤ offset) by (unfold chunk; rewrite N.mul_comm; apply N.Div0.mul_div_le).
  symmetry. apply (N.div_unique _ _ _ (base + k * PAGE_SIZE - chunk_size * chunk)).
  - unfold offset in *. unfold PAGE_SIZE in *. lia.
  - unfold offset in *. unfold PAGE_SIZE in *. lia.
Qed.

Lemma visit_batch_spec fuel base es i seal Q :
  holds seal Q → (length es - N.to_nat i < fuel)%nat →
  ∃ seal', visit_batch fuel base es i seal = Ok seal' ∧
    holds seal' (fun j => Q j ∨ ∃ k, i ≤ k ∧ seals base es k j).
Proof.
  revert i seal Q. induction fuel as [|fuel IH]; intros i seal Q Hs Hf; [lia|]. simpl.
  destruct (es !! N.to_nat i) as [e|] eqn:Ee; last first.
  { exists seal. split; [done|]. eapply holds_iff, Hs. intros j. split; [by left|].
    intros [|(k&Hk&e&He&_)]; [done|]. apply lookup_lt_Some in He. apply lookup_ge_None in Ee. lia. }
  pose proof (lookup_lt_Some _ _ _ Ee) as Hlt.
  set (offset := base + i * PAGE_SIZE). destruct (_ && _) eqn:Ed; [apply andb_true_iff in Ed as [Ho%N.ltb_lt Hd]|].
  - destruct (holds_set seal Q (offset / chunk_size) Hs) as (seal1&->&Hs1).
    { apply ceil_lt; [done|]. rewrite N.mul_comm. eapply N.le_lt_trans; [apply N.Div0.mul_div_le|done]. }
    set (i' := i + _). destruct (IH i' seal1 _ Hs1 ltac:(unfold i'; lia)) as (seal2&->&Hs2).
    exists seal2. split; [done|]. eapply holds_iff, Hs2. intros j. cbv beta. split.
    + intros [[->|HQ]|(k&Hk&Hse)]; [|by left|].
      * right. exists i. split; [lia|]. by exists e.
      * right. exists k. split; [unfold i' in Hk; lia|done].
    + intros [HQ|(k&Hk&Hse)]; [by left; right|].
      destruct (decide (i' ≤ k)) as [Hk'|Hk']; [right; by exists k|].
      left; left. destruct Hse as (_&_&_&_&<-). apply skip_same. split; [done|]. apply N.nle_gt, Hk'.
  - destruct (IH (i + 1) seal Q Hs ltac:(lia)) as (seal2&->&Hs2). exists seal2. split; [done|].
    eapply holds_iff, Hs2. intros j. cbv beta. split.
    + intros [HQ|(k&Hk&Hse)]; [by left|]. right. exists k. split; [lia|done].
    + intros [HQ|(k&Hk&Hse)]; [by left|]. right. exists k. split; [|done].
      destruct (decide (k = i)) as [->|]; [|lia]. exfalso.
      destruct Hse as (e'&He'&Ho%N.ltb_lt&Hd&_). simplify_eq. fold offset in Ho. by rewrite Ho, Hd in Ed.
Qed.

Lemma lookup_range_fmap (f : N → N) i n k x :
  (f <$> range i (i + n)) !! N.to_nat k = Some x ↔ k < n ∧ x = f (i + k).
Proof.
  unfold range. rewrite !list_lookup_fmap. destruct (decide (k < n)) as [Hk|Hk].
  - rewrite lookup_seq_lt by lia. simpl. rewrite N2Nat.id.
    split; [intros [= <-]; done|by intros [_ ->]].
  - rewrite lookup_seq_ge by lia. simpl. split; [done|]. intros [? _]. lia.
Qed.

(** One mapping, from page [p] on. *)
Lemma walk_vma_spec fuel v p seal Q :
  page_aligned v → holds seal Q → p ≤ vma_len v / PAGE_SIZE →
  (N.to_nat (vma_len v / PAGE_SIZE - p) < fuel)%nat →
  let r := walk_vma fuel (fun seal base es => visit_batch (S (length es)) base es 0 seal) v
                    (start v + p * PAGE_SIZE) seal in
  r = Err ScanIo ∨
  ∃ seal', r = Ok seal' ∧ holds seal' (fun j => Q j ∨ ∃ k, p ≤ k ∧ dirty_page v k j).
Proof.
  intros (Ha&Hl&Hse). revert p seal Q. induction fuel as [|fuel IH]; intros p seal Q Hs Hp Hf; [lia|].
  cbv zeta. cbn [walk_vma]. unfold vma_len in *. set (m := (end_ v - start v) / PAGE_SIZE) in *.
  assert (He : end_ v - start v = m * PAGE_SIZE).
  { pose proof (N.div_mod (end_ v - start v) PAGE_SIZE ltac:(done)). unfold m. lia. }
  assert (Hst : start v = start v / PAGE_SIZE * PAGE_SIZE).
  { pose proof (N.div_mod (start v) PAGE_SIZE ltac:(done)). lia. }
  destruct (N.ltb_spec (start v + p * PAGE_SIZE) (end_ v)) as [Hva|Hva]; last first.
  { right. exists seal. split; [done|]. eapply holds_iff, Hs. intros j. split; [by left|].
    intros [|(k&Hk&Hd&_)]; [done|]. unfold vma_len in Hd. fold m in Hd.
    assert (m ≤ p) by (unfold PAGE_SIZE in *; lia). lia. }
  assert (Hn : (end_ v - (start v + p * PAGE_SIZE)) / PAGE_SIZE = m - p).
  { replace (end_ v - (start v + p * PAGE_SIZE)) with ((m - p) * PAGE_SIZE)
      by (rewrite N.mul_sub_distr_r; lia). by apply N.div_mul. }
  assert (Hq : (start v + p * PAGE_SIZE) / PAGE_SIZE = start v / PAGE_SIZE + p).
  { rewrite N.div_add by done. done. }
  rewrite Hn, Hq. set (n := N.min _ _). assert (Hpm : p < m) by (unfold PAGE_SIZE in *; lia).
  assert (0 < n ≤ m - p) as [Hn0 Hnm] by (unfold n, PAGEMAP_BATCH_ENTRIES; lia).
  destruct (pread_entries (start v / PAGE_SIZE + p) n) as [->| ->]; [by left|].
  set (es := entry <$> _). set (base := file_offset v + _ - _).
  assert (Hb : base = file_offset v + p * PAGE_SIZE) by (unfold base; lia).
  destruct (visit_batch_spec (S (length es)) base es 0 seal Q Hs ltac:(lia)) as (seal1&->&Hs1).
  replace (start v + p * PAGE_SIZE + n * PAGE_SIZE) with (start v + (p + n) * PAGE_SIZE) by lia.
  destruct (IH (p + n) seal1 _ Hs1 ltac:(lia) ltac:(lia)) as [->|(seal2&->&Hs2)]; [by left|].
  right. exists seal2. split; [done|]. eapply holds_iff, Hs2. intros j. cbv beta.
  assert (Hseal : ∀ k, seals base es k j ↔ k < n ∧ dirty_page v (p + k) j).
  { intros k. unfold seals, dirty_page, vma_len, es. setoid_rewrite lookup_range_fmap.
    rewrite Hb. replace (file_offset v + p * PAGE_SIZE + k * PAGE_SIZE)
      with (file_offset v + (p + k) * PAGE_SIZE) by lia. fold m.
    replace (start v / PAGE_SIZE + (p + k)) with (start v / PAGE_SIZE + p + k) by lia.
    split; [intros (e&(?&->)&?&?&?)|intros (?&?&?&?&?)].
    - split_and!; [lia|lia|done..].
    - eexists. split_and!; [lia|done..]. }
  split.
  - intros [[HQ|(k&_&Hk)]|(k&Hk&Hd)]; [by left|right..].
    + apply Hseal in Hk as [? ?]. exists (p + k). split; [lia|done].
    + exists k. split; [lia|done].
  - intros [HQ|(k&Hk&Hd)]; [by left; left|]. destruct (decide (p + n ≤ k)) as [Hge|Hge].
    + right. by exists k.
    + left; right. exists (k - p). split; [lia|]. apply Hseal.
      replace (p + (k - p)) with k by lia. split; [lia|done].
Qed.

Lemma walk_spec vmas seal Q :
  Forall page_aligned vmas → holds seal Q →
  let r := walk_pagemap_batches (fun seal base es => visit_batch (S (length es)) base es 0 seal) vmas seal in
  r = Err ScanIo ∨
  ∃ seal', r = Ok seal' ∧ holds seal' (fun j => Q j ∨ ∃ v k, v ∈ vmas ∧ dirty_page v k j).
Proof.
  intros Hv. revert seal Q. induction Hv as [|v vmas Ha _ IH]; intros seal Q Hs; cbv zeta; cbn [walk_pagemap_batches].
  { right. exists seal. split; [done|]. eapply holds_iff, Hs. intros j. split; [by left|].
    intros [|(v&k&[]%not_elem_of_nil&_)]; done. }
  pose proof (walk_vma_spec (S (N.to_nat (vma_len v / PAGE_SIZE))) v 0 seal Q Ha Hs
    (N.le_0_l _)) as Hw. rewrite N.sub_0_r in Hw. specialize (Hw (Nat.lt_succ_diag_r _)). cbv zeta in Hw. rewrite N.mul_0_l, N.add_0_r in Hw.
  destruct Hw as [->|(seal1&->&Hs1)]; [by left|].
  destruct (IH seal1 _ Hs1) as [->|(seal2&->&Hs2)]; [by left|]. right. exists seal2. split; [done|].
  eapply holds_iff, Hs2. intros j. cbv beta. split.
  - intros [[HQ|(k&_&Hd)]|(v'&k&Hv'&Hd)]; [by left|right..].
    + exists v, k. split; [by constructor|done].
    + exists v', k. split; [by constructor|done].
  - intros [HQ|(v'&k&[->|Hv']%elem_of_cons&Hd)]; [by left; left|left; right|right].
    + exists k. split; [lia|done].
    + by exists v', k.
Qed.

(** C39. The dirty scan.  It ends, never panics, and fails only when a read of
    the page map fails; otherwise the bitmap is well-formed for the image and a
    chunk is sealed exactly when some page of it inside the image is swapped
    out, or present and not backed by the base file.  Skipping the rest of a
    sealed chunk and reading in batches lose nothing. *)
Theorem scan_dirty_exact vmas :
  Forall page_aligned vmas →
  scan_dirty_chunks vmas = Err ScanIo ∨
  ∃ seal, scan_dirty_chunks vmas = Ok seal ∧ SealBitmap.validate seal = Ok tt ∧
    SealBitmap.chunk_size seal = chunk_size ∧
    SealBitmap.chunk_count seal = ceil total_bytes chunk_size ∧
    ∀ j, SealBitmap.get seal j = true ↔
      ∃ v p, v ∈ vmas ∧ p < vma_len v / PAGE_SIZE ∧
        file_offset v + p * PAGE_SIZE < total_bytes ∧
        (file_offset v + p * PAGE_SIZE) / chunk_size = j ∧
        let e := entry (start v / PAGE_SIZE + p) in
        (N.testbit e 62 = true ∨ (N.testbit e 63 = true ∧ N.testbit e 61 = false)).
Proof.
  intros Hv. unfold scan_dirty_chunks.
  destruct (walk_spec vmas (SealBitmap.new chunk_size (ceil total_bytes chunk_size)) (fun _ => False) Hv)
    as [->|(seal&->&(Hw&Hs&Hc&HQ))]; [|by left|].
  { split_and!; [apply SealBitmap.new_wf|done|done|]. intros j. by rewrite SealBitmap.get_new. }
  right. exists seal. split; [done|]. split; [by apply SealBitmap.validate_wf; [apply Hw|]|].
  split; [done|]. split; [done|]. intros j. rewrite HQ.
  assert (Hd : ∀ e, pagemap_entry_is_dirty e = true ↔
    N.testbit e 62 = true ∨ (N.testbit e 63 = true ∧ N.testbit e 61 = false)).
  { intros e. unfold pagemap_entry_is_dirty. rewrite !SealBitmap.land_bit.
    destruct (N.testbit e 61), (N.testbit e 62), (N.testbit e 63); naive_solver. }
  unfold dirty_page. setoid_rewrite Hd. naive_solver.
Qed.

End scan.

(** Two mappings of 12 and 8 KiB pages; chunks of two pages.  Page 1 is swapped,
    page 4 anonymous, page 2 clean. *)
Lemma scan_dirty_exact_witness :
  let entry := fun i : N => if i =? 257 then 2 ^ 62 else if i =? 513 then 2 ^ 63
                        else if i =? 258 then 2 ^ 63 + 2 ^ 61 else 0 in
  let pread := fun i n => @Ok (list N) ScanError (entry <$> range i (i + n)) in
  let vmas := [MkVma 1048576 1060864 0; MkVma 2097152 2105344 12288] in
  Forall page_aligned vmas ∧
  ∃ seal, scan_dirty_chunks pread 8192 20480 vmas = Ok seal ∧
    SealBitmap.get seal 0 = true ∧ SealBitmap.get seal 1 = false ∧ SealBitmap.get seal 2 = true.
Proof.
  intros entry pread vmas.
  assert (H : Forall page_aligned vmas) 
    by (unfold vmas; repeat (apply Forall_cons_2; [by vm_compute|]); apply Forall_nil_2).
  split; [exact H|].
  destruct (scan_dirty_exact pread 8192 20480 entry ltac:(intros; right; reflexivity) ltac:(done) vmas H)
    as [E|(seal&E&_)]; [vm_compute in E; discriminate E|].
  exists seal. split; [exact E|]. vm_compute in E. injection E as <-. vm_compute. auto.
Defined.
