(* ===== verification/Backend.v ===== *)
(** * The memory backend of a restored guest

    [engram-uffd-handler/src/chunked.rs]: the manifests of a session and of its
    base image as arrays by chunk index, and what backs each guest offset. *)

From S2P Require Import Prelude Manifest Wire.
Local Open Scope N_scope.

Module Backend.

(** [ChunkedBackendError]; I/O errors without their payload. *)
Inductive BackendError : Type :=
| BackendIo
| BackendManifest (e : ChunkStoreError.t)
| WrongKind (msg : string)
| InvalidManifest (msg : string)
| Mismatch (msg : string).

Inductive ResolvedPage : Type :=
| Canonical (canonical_offset : N)
| Chunk (hash : ChunkHash)
| Zero (offset : N).

Record PositionalManifest := MkPositional {
  p_chunks : list (option ChunkHash);
  p_chunk_size : N;
  p_total_bytes : N;
}.

(** The loop of [from_manifest] over the entries. *)
Fixpoint place (size : N) (entries : list ChunkRef) (chunks : list (option ChunkHash)) :
    result (list (option ChunkHash)) BackendError :=
  match entries with
  | [] => Ok chunks
  | entry :: entries' =>
      if negb (offset entry mod size =? 0)
      then Err (InvalidManifest "chunk offset {} is not a multiple of chunk_size {}") else
      let idx := N.to_nat (offset entry / size) in
      if (length chunks <=? idx)%nat
      then Err (InvalidManifest "chunk at offset {} (idx {idx}) exceeds total_bytes {}")
      else place size entries' (<[idx := Some (hash entry)]> chunks)
  end.

Definition from_manifest (m : Manifest.t) : result PositionalManifest BackendError :=
  if negb (bool_decide (Manifest.kind m = Memory))
  then Err (WrongKind "expected ManifestKind::Memory, got {:?}") else
  let size := Manifest.chunk_size m in
  if size =? 0 then Err (InvalidManifest "chunk_size is zero") else
  let chunk_count := N.to_nat (ceil (Manifest.total_bytes m) size) in
  let? chunks := place size (Manifest.chunks m) (replicate chunk_count None) in
  Ok (MkPositional chunks size (Manifest.total_bytes m)).

(** The reader, the populate client and the store are not part of the value. *)
Record t := Mk {
  canonical : PositionalManifest;
  session : PositionalManifest;
  session_positions : gmap ChunkHash (list N);
}.

(** The loop of [new] that indexes the session's hashes. *)
Fixpoint index_positions (size idx : N) (l : list (option ChunkHash)) (m : gmap ChunkHash (list N)) :
    gmap ChunkHash (list N) :=
  match l with
  | [] => m
  | None :: l' => index_positions size (idx + 1) l' m
  | Some h :: l' => index_positions size (idx + 1) l' (<[h := default [] (m !! h) ++ [idx * size]]> m)
  end.

Definition new (canonical session : Manifest.t) : result t BackendError :=
  let? canonical := from_manifest canonical in
  let? session := from_manifest session in
  if negb (p_chunk_size canonical =? p_chunk_size session)
  then Err (Mismatch "chunk_size: canonical={} session={}") else
  if negb (p_total_bytes canonical =? p_total_bytes session)
  then Err (Mismatch "total_bytes: canonical={} session={}") else
  Ok (Mk canonical session (index_positions (p_chunk_size session) 0 (p_chunks session) ∅)).

Definition chunk_size (self : t) : N := p_chunk_size (canonical self).
Definition total_bytes (self : t) : N := p_total_bytes (canonical self).

(** [.get(i).copied().flatten()]. *)
Definition at_index (l : list (option ChunkHash)) (i : N) : option ChunkHash :=
  match l !! N.to_nat i with Some o => o | None => None end.

Definition resolve (self : t) (byte_offset : N) : option ResolvedPage :=
  if p_total_bytes (canonical self) <=? byte_offset then None else
  let chunk_idx := byte_offset / p_chunk_size (canonical self) in
  let chunk_offset := chunk_idx * p_chunk_size (canonical self) in
  let canon := at_index (p_chunks (canonical self)) chunk_idx in
  let session := at_index (p_chunks (session self)) chunk_idx in
  Some (match session with
        | Some s => if bool_decide (canon = Some s) then Canonical chunk_offset else Chunk s
        | None => Zero chunk_offset
        end).

Definition canonical_chunk_hash (self : t) (byte_offset : N) : option ChunkHash :=
  if p_total_bytes (canonical self) <=? byte_offset then None else
  at_index (p_chunks (canonical self)) (byte_offset / p_chunk_size (canonical self)).

Definition session_positions_of (self : t) (h : ChunkHash) : list N :=
  default [] (session_positions self !! h).

(** ** What it resolves *)

(** The hash a resolved page is installed from: [None] for zeros. *)
Definition resolved_hash (self : t) (r : ResolvedPage) : option ChunkHash :=
  match r with
  | Canonical o => canonical_chunk_hash self o
  | Chunk h => Some h
  | Zero _ => None
  end.

(** What the backend installs at a chunk offset, by the session's manifest. *)
Definition session_hash (self : t) (i : N) : option ChunkHash := at_index (p_chunks (session self)) i.

Lemma at_insert l i j o :
  (N.to_nat i < length l)%nat →
  at_index (<[N.to_nat i := o]> l) j = if decide (j = i) then o else at_index l j.
Proof.
  intros Hi. unfold at_index. destruct (decide (j = i)) as [->|Hne].
  - by rewrite list_lookup_insert_eq.
  - by rewrite list_lookup_insert_ne by lia.
Qed.

(** A valid list of entries is placed, and each index holds the entry at its
    offset. *)
Lemma place_spec size n l chunks :
  size ≠ 0 → length chunks = N.to_nat n →
  Forall (fun c => offset c mod size = 0 ∧ offset c / size < n) l → NoDup (offset <$> l) →
  ∃ chunks', place size l chunks = Ok chunks' ∧ length chunks' = N.to_nat n ∧
    ∀ j, at_index chunks' j =
      match List.find (fun c => offset c =? j * size) l with
      | Some c => Some (hash c)
      | None => at_index chunks j
      end.
Proof.
  intros Hz. revert chunks. induction l as [|c l IH]; intros chunks Hlen Hf Hnd; simpl.
  { by exists chunks. }
  apply Forall_cons in Hf as [[Hm Hi] Hf]. apply NoDup_cons in Hnd as [Hni Hnd].
  rewrite Hm. simpl. rewrite (proj2 (Nat.leb_gt _ _)) by lia.
  destruct (IH (<[N.to_nat (offset c / size) := Some (hash c)]> chunks)) as (ch&->&Hl&Hat); auto.
  { by rewrite length_insert. }
  exists ch. split; [done|]. split; [done|]. intros j. rewrite Hat, at_insert by lia.
  assert (Hoff : offset c = offset c / size * size) by (pose proof (N.div_mod (offset c) size Hz); lia).
  destruct (N.eqb_spec (offset c) (j * size)) as [E|E].
  - assert (j = offset c / size) as Hj by (rewrite E; by rewrite N.div_mul).
    rewrite decide_True by done. destruct (List.find _ l) as [c'|] eqn:Ef; [|done].
    apply find_Some_elem in Ef as [Hin Heq%N.eqb_eq]. exfalso. apply Hni.
    rewrite E, <- Heq. by apply list_elem_of_fmap_2.
  - rewrite decide_False; [done|]. intros ->. by rewrite <- Hoff in E.
Qed.

Lemma from_manifest_spec m :
  Manifest.valid m → Manifest.kind m = Memory →
  ∃ p, from_manifest m = Ok p ∧ p_chunk_size p = Manifest.chunk_size m ∧
    p_total_bytes p = Manifest.total_bytes m ∧
    length (p_chunks p) = N.to_nat (ceil (Manifest.total_bytes m) (Manifest.chunk_size m)) ∧
    ∀ j, at_index (p_chunks p) j = hash <$> Manifest.chunk_at m (j * Manifest.chunk_size m).
Proof.
  intros [Hz He Hs] Hk. unfold from_manifest. rewrite bool_decide_true by done. simpl.
  rewrite (proj2 (N.eqb_neq _ _) Hz). set (n := ceil _ _).
  destruct (place_spec (Manifest.chunk_size m) n (Manifest.chunks m) (replicate (N.to_nat n) None))
    as (ch&->&Hl&Hat).
  - done.
  - by rewrite length_replicate.
  - eapply Forall_impl; [exact He|]. intros c [Hc Ht]. split; [done|]. apply ceil_lt; [done|].
    rewrite N.mul_comm. eapply N.le_lt_trans; [apply N.Div0.mul_div_le|done].
  - by apply Manifest.sorted_nodup.
  - eexists. split; [done|]. simpl. split_and!; [done..|]. intros j. rewrite Hat.
    unfold Manifest.chunk_at. destruct (List.find _ _); simpl; [done|]. unfold at_index.
    destruct (_ !! _) eqn:E; [|done]. by apply lookup_replicate in E as [-> _].
Qed.

(** What backs a guest offset.  For a session and a base manifest that are
    valid memory manifests of one shape the backend is built, and inside the
    image it resolves an offset to exactly the chunk the session's manifest
    lists for it, whether it is served as shared or private, and to zeros where
    the manifest has no entry; beyond the image it resolves nothing.  The
    shared page is chosen exactly when base and session agree. *)
Theorem resolve_session_content base sess o :
  Manifest.valid base → Manifest.valid sess →
  Manifest.kind base = Memory → Manifest.kind sess = Memory →
  Manifest.chunk_size base = Manifest.chunk_size sess →
  Manifest.total_bytes base = Manifest.total_bytes sess →
  let size := Manifest.chunk_size sess in
  ∃ b, new base sess = Ok b ∧ chunk_size b = size ∧ total_bytes b = Manifest.total_bytes sess ∧
    match resolve b o with
    | None => Manifest.total_bytes sess ≤ o
    | Some r =>
        o < Manifest.total_bytes sess ∧
        resolved_hash b r = hash <$> Manifest.chunk_at sess (o / size * size) ∧
        ((∃ c, r = Canonical c) ↔
         is_Some (Manifest.chunk_at sess (o / size * size)) ∧
         hash <$> Manifest.chunk_at base (o / size * size) =
         hash <$> Manifest.chunk_at sess (o / size * size))
    end.
Proof.
  intros Hvb Hvs Hkb Hks Hsz Htot size. unfold new.
  destruct (from_manifest_spec base Hvb Hkb) as (pb&->&Hb1&Hb2&_&Hb3).
  destruct (from_manifest_spec sess Hvs Hks) as (ps&->&Hs1&Hs2&_&Hs3). cbv beta iota.
  rewrite Hb1, Hs1, Hb2, Hs2, Hsz, Htot, !N.eqb_refl. simpl. eexists. split; [done|].
  unfold chunk_size, total_bytes, resolve, resolved_hash, canonical_chunk_hash. simpl.
  rewrite Hb1, Hb2, Hsz, Htot. fold size. split; [done|]. split; [done|].
  destruct (N.leb_spec (Manifest.total_bytes sess) o) as [Ho|Ho]; [done|]. split; [done|].
  rewrite Hs3, Hb3, Hsz. fold size.
  destruct (Manifest.chunk_at sess (o / size * size)) as [c|] eqn:Ec; simpl; last first.
  { split; [done|]. split; [by intros [? ?]|]. by intros [[? ?] ?]. }
  assert (Hz : size ≠ 0) by (apply Hvs).
  case_bool_decide as Heq; simpl.
  - split; [|naive_solver].
    rewrite (proj2 (N.leb_gt _ _)).
    + rewrite N.div_mul by done. by rewrite Hb3, Hsz.
    + rewrite N.mul_comm. eapply N.le_lt_trans; [apply N.Div0.mul_div_le|done].
  - split; [done|]. split; [by intros [? ?]|]. intros [_ ?]. done.
Qed.

Lemma resolve_session_content_witness :
  let base := (Manifest.empty Memory 2097152) <| Manifest.chunks := [MkChunk 0 [1]; MkChunk 524288 [2]] |> in
  let sess := (Manifest.empty Memory 2097152) <| Manifest.chunks := [MkChunk 0 [9]; MkChunk 524288 [2]] |> in
  ∃ b, new base sess = Ok b ∧ resolve b 600000 = Some (Canonical 524288) ∧
    resolve b 5 = Some (Chunk [9]) ∧ resolve b 1048576 = Some (Zero 1048576) ∧ resolve b 2097152 = None.
Proof.
  intros base sess.
  assert (Hv : ∀ m, m = base ∨ m = sess → Manifest.valid m).
  { intros m [->| ->]; apply Manifest.validate_iff; reflexivity. }
  destruct (resolve_session_content base sess 600000 (Hv _ (or_introl eq_refl)) (Hv _ (or_intror eq_refl))
    eq_refl eq_refl eq_refl eq_refl) as (b&Hb&_).
  exists b. split; [exact Hb|]. vm_compute in Hb. injection Hb as <-. vm_compute. auto.
Defined.

(** Positions: every offset where the session holds the hash, in order. *)
Lemma index_positions_spec size idx l m h :
  default [] (index_positions size idx l m !! h) =
  default [] (m !! h) ++
  ((fun i => i * size) <$> List.filter (fun i => bool_decide (at_index l (i - idx) = Some h))
                                      (range idx (idx + N.of_nat (length l)))).
Proof.
  revert idx m. induction l as [|o l IH]; intros idx m; simpl length.
  { rewrite N.add_0_r. simpl. unfold range. rewrite N.sub_diag. simpl. by rewrite app_nil_r. }
  rewrite Nat2N.inj_succ. rewrite (range_app idx (idx + 1)) by lia.
  assert (Hr : range idx (idx + 1) = [idx]).
  { unfold range. replace (N.to_nat (idx + 1 - idx)) with 1%nat by lia. simpl. f_equal. lia. }
  rewrite Hr, List.filter_app, fmap_app.
  assert (Htl : List.filter (fun i => bool_decide (at_index (o :: l) (i - idx) = Some h))
                  (range (idx + 1) (idx + N.succ (N.of_nat (length l)))) =
                List.filter (fun i => bool_decide (at_index l (i - (idx + 1)) = Some h))
                  (range (idx + 1) (idx + 1 + N.of_nat (length l)))).
  { replace (idx + N.succ (N.of_nat (length l))) with (idx + 1 + N.of_nat (length l)) by lia.
    apply SealBitmap.filter_ext_in. intros x [Hx _]%elem_of_range. unfold at_index.
    by replace (N.to_nat (x - idx)) with (S (N.to_nat (x - (idx + 1)))) by lia. }
  rewrite Htl. cbn [List.filter]. replace (idx - idx) with 0 by lia.
  unfold at_index at 1. cbn [N.to_nat lookup list_lookup].
  destruct o as [h'|]; cbn [index_positions]; rewrite IH; [|by rewrite bool_decide_false].
  destruct (decide (h' = h)) as [->|Hne].
  - rewrite lookup_insert_eq, bool_decide_true by done. simpl. by rewrite <- app_assoc.
  - rewrite lookup_insert_ne by done. rewrite bool_decide_false; [done|]. by intros [= ?].
Qed.

Lemma place_length size l chunks chunks' :
  place size l chunks = Ok chunks' → length chunks' = length chunks.
Proof.
  revert chunks. induction l as [|c l IH]; intros chunks; simpl; [by intros [= ->]|].
  destruct (negb _); [done|]. destruct (_ <=? _)%nat; [done|]. intros H%IH. by rewrite H, length_insert.
Qed.

Lemma from_manifest_shape m p :
  from_manifest m = Ok p → p_chunk_size p ≠ 0 ∧
  length (p_chunks p) = N.to_nat (ceil (p_total_bytes p) (p_chunk_size p)).
Proof.
  unfold from_manifest. destruct (negb _); [done|]. destruct (N.eqb_spec (Manifest.chunk_size m) 0); [done|].
  destruct (place _ _ _) as [ch|] eqn:E; [|done]. intros [= <-]. simpl. split; [done|].
  apply place_length in E. by rewrite E, length_replicate.
Qed.

(** What a backend that was built satisfies. *)
Lemma new_shape base sess b :
  new base sess = Ok b →
  chunk_size b ≠ 0 ∧ p_chunk_size (session b) = chunk_size b ∧ p_total_bytes (session b) = total_bytes b ∧
  length (p_chunks (session b)) = N.to_nat (ceil (total_bytes b) (chunk_size b)) ∧
  session_positions b = index_positions (chunk_size b) 0 (p_chunks (session b)) ∅.
Proof.
  unfold new. destruct (from_manifest base) as [pb|] eqn:Eb; [|done].
  destruct (from_manifest sess) as [ps|] eqn:Es; [|done].
  destruct (N.eqb_spec (p_chunk_size pb) (p_chunk_size ps)) as [Hs|]; [|done].
  destruct (N.eqb_spec (p_total_bytes pb) (p_total_bytes ps)) as [Ht|]; [|done]. intros [= <-].
  apply from_manifest_shape in Eb as [Hz _], Es as [_ Hl]. unfold chunk_size, total_bytes. simpl.
  by rewrite Hs, Ht in *.
Qed.

Lemma session_hash_bound base sess b i h :
  new base sess = Ok b → session_hash b i = Some h → i < ceil (total_bytes b) (chunk_size b).
Proof.
  intros (_&_&_&Hl&_)%new_shape. unfold session_hash, at_index.
  destruct (_ !! N.to_nat i) as [o|] eqn:E; [|done]. apply lookup_lt_Some in E. lia.
Qed.

Lemma resolve_hash base sess b off r :
  new base sess = Ok b → resolve b off = Some r →
  off < total_bytes b ∧ resolved_hash b r = session_hash b (off / chunk_size b) ∧
  (∀ o, r = Canonical o ∨ r = Zero o → o = off / chunk_size b * chunk_size b) ∧
  (∀ o, r = Canonical o → is_Some (canonical_chunk_hash b o)).
Proof.
  intros (Hz&Hs&Ht&Hl&_)%new_shape. unfold resolve, resolved_hash, session_hash, canonical_chunk_hash.
  fold (total_bytes b) (chunk_size b).
  destruct (N.leb_spec (total_bytes b) off) as [|Ho]; [done|]. intros [= <-]. split; [done|].
  set (i := off / chunk_size b).
  assert (Hi : i * chunk_size b <? total_bytes b = true).
  { apply N.ltb_lt. unfold i. rewrite N.mul_comm. eapply N.le_lt_trans; [apply N.Div0.mul_div_le|done]. }
  assert (Hc : total_bytes b <=? i * chunk_size b = false) by (apply N.leb_gt, N.ltb_lt, Hi).
  destruct (at_index (p_chunks (session b)) i) as [s|]; [|naive_solver].
  case_bool_decide as E; [|naive_solver]. split; [|split].
  - by rewrite Hc, N.div_mul.
  - naive_solver.
  - intros o [= <-]. rewrite Hc, N.div_mul by done. by exists s.
Qed.

Lemma positions_of base sess b h o :
  new base sess = Ok b → o ∈ session_positions_of b h →
  ∃ i, o = i * chunk_size b ∧ session_hash b i = Some h.
Proof.
  intros (_&_&_&_&Hp)%new_shape. unfold session_positions_of. rewrite Hp, index_positions_spec.
  rewrite lookup_empty. simpl. rewrite list_elem_of_fmap. intros (i&->&Hi). exists i. split; [done|].
  apply elem_of_filterb in Hi as [_ Hi]. rewrite N.sub_0_r in Hi. by apply bool_decide_eq_true in Hi.
Qed.

End Backend.
