(* ===== verification/PeerServer.v ===== *)
(** * The page server of a migrating guest

    [engram-host-agent/src/migrate_peer.rs]: the source of a post-copy migration
    serves the chunks of a paused guest to the destination, one connection at a
    time and each request in order.  A connection is a program over its socket,
    the registry of exports and [process_vm_readv]; SHA-256, blake3 and lz4 are
    parameters. *)

From S2P Require Import Prelude Prog Manifest Wire DirtyMap.
Local Open Scope N_scope.

Record PeerExport := MkExport {
  export_id : string;
  token : string;
  vmas : list GuestVma;
  seal : SealBitmap.t;
  durable_at : list (option ChunkHash);
  chunk_size : N;
  total_bytes : N;
}.

Inductive sreq : Type → Type :=
(** The socket. *)
| SRead : sreq (result ToSource FrameError)
| SWrite (m : FromSource) : sreq (result unit FrameError)
(** The registry: look an export up, take a park slot, wait for a registration
    (true) or the end of the park budget (false). *)
| GetExport (id : string) : sreq (option PeerExport)
| TryPark : sreq bool
| AwaitRegistered : sreq bool
(** Stamp the export's activity clock. *)
| Touch : sreq unit
(** The bytes [process_vm_readv] got. *)
| Readv (va len : N) : sreq (result (list N) unit)
(** Never answered: a loop beyond its fuel. *)
| SNever : sreq Empty_set.

Notation server A := (prog sreq A) (only parsing).

Inductive ReadError : Type := Uncovered | ReadvFailed | ReadvZero | ReadHangs.

(** [read_guest_range], from [filled] on; [out] is what was read. *)
Fixpoint read_loop (fuel : nat) (vmas : list GuestVma) (file_off len : N) (out : list N) :
    server (result (list N) ReadError) :=
  match fuel with
  | O => Ret (Err ReadHangs)
  | S fuel' =>
      let filled := N.of_nat (length out) in
      if filled <? len then
        let off := file_off + filled in
        match List.find (fun v => (file_offset v <=? off) && (off <? file_offset v + vma_len v)) vmas with
        | None => Ret (Err Uncovered)
        | Some vma =>
            let va := start vma + (off - file_offset vma) in
            let n := N.min (len - filled) (end_ vma - va) in
            do! got := ask_err (fun _ => ReadvFailed) (Readv va n) in
            match got with
            | [] => Ret (Err ReadvZero)
            | _ => read_loop fuel' vmas file_off len (out ++ got)
            end
        end
      else Ret (Ok out)
  end.

Definition read_guest_range (vmas : list GuestVma) (file_off len : N) :
    server (result (list N) ReadError) :=
  read_loop (S (N.to_nat len)) vmas file_off len [].

Inductive ServedChunk : Type :=
| ServedZero
| ServedAlt (h : ChunkHash)
| ServedPage (b : list N) (h : ChunkHash).

Definition all_zero (b : list N) : bool := forallb (fun x => x =? 0) b.

Section server.

Context (sha256 : list N → ChunkHash) (digest : string → list N)
        (wire_hash : list N → list N) (compress_prepend_size : list N → list N).

Definition classify_served_chunk (b : list N) (durable : option ChunkHash) : ServedChunk :=
  if all_zero b then ServedZero else
  let h := sha256 b in
  if bool_decide (durable = Some h) then ServedAlt h else ServedPage b h.

Definition serve_need_at (export : PeerExport) (req_id chunk_offset : N) (purpose : ConnPurpose) :
    server FromSource :=
  if negb (chunk_offset mod chunk_size export =? 0) || (total_bytes export <=? chunk_offset)
  then Ret (Error (Some req_id) "NeedAt offset {chunk_offset:#x} unaligned or out of range") else
  let idx := chunk_offset / chunk_size export in
  if negb (SealBitmap.get (seal export) idx)
  then Ret (Error (Some req_id) "NeedAt for unsealed chunk {idx}") else
  let latency_critical := bool_decide (purpose = Fault) in
  let len := N.min (chunk_size export) (total_bytes export - chunk_offset) in
  r ← read_guest_range (vmas export) chunk_offset len;
  Ret (match r with
       | Err _ => Error (Some req_id) "readv failed: {e}"
       | Ok b =>
           let classified :=
             if latency_critical then
               if all_zero b then ServedZero else ServedPage b (replicate 32 0)
             else
               let durable := match durable_at export !! N.to_nat idx with Some d => d | None => None end in
               classify_served_chunk b durable in
           match classified with
           | ServedZero => ZeroChunk req_id chunk_offset
           | ServedAlt h => AltSource req_id chunk_offset h
           | ServedPage b _ =>
               let '(wire, lz4) :=
                 if latency_critical then (b, false) else compress_page compress_prepend_size b in
               Page req_id chunk_offset wire (wire_hash wire) lz4
           end
       end).

Definition is_error (m : FromSource) : bool := match m with Error _ _ => true | _ => false end.

(** The loop over the offsets of a window. *)
Fixpoint serve_window (export : PeerExport) (req_id : N) (offsets : list N) (purpose : ConnPurpose) :
    server (result unit FrameError) :=
  match offsets with
  | [] => okay tt
  | offset :: offsets' =>
      _ ← ask Touch;
      resp ← serve_need_at export req_id offset purpose;
      do! _ := ask (SWrite resp) in
      if is_error resp then okay tt else serve_window export req_id offsets' purpose
  end.

Definition window_invalid (offsets : list N) : bool :=
  (length offsets =? 0)%nat || (MAX_FAULT_AROUND_CHUNKS <? length offsets)%nat.

(** The request loop. *)
Fixpoint serve_loop (fuel : nat) (export : PeerExport) (purpose : ConnPurpose) :
    server (result unit FrameError) :=
  match fuel with
  | O => x ← ask SNever; match x : Empty_set with end
  | S fuel' =>
      r ← ask SRead;
      match r with
      | Err UnexpectedEof => okay tt
      | Err e => Ret (Err e)
      | Ok (NeedAt req_id chunk_offset) =>
          _ ← ask Touch;
          resp ← serve_need_at export req_id chunk_offset purpose;
          do! _ := ask (SWrite resp) in serve_loop fuel' export purpose
      | Ok (NeedWindow req_id offsets) =>
          if window_invalid offsets
          then do! _ := ask (SWrite (Error (Some req_id) "invalid fault window size")) in
               serve_loop fuel' export purpose
          else do! _ := serve_window export req_id offsets purpose in
               serve_loop fuel' export purpose
      | Ok (DrainDone _ _ _) => okay tt
      | Ok (Hello _ _ _ _) =>
          do! _ := ask (SWrite (Error None "duplicate Hello")) in okay tt
      end
  end.

Definition serve_resolved_conn (fuel : nat) (export : PeerExport) (purpose : ConnPurpose) :
    server (result unit FrameError) :=
  do! _ := ask (SWrite (HelloAck PROTO_VERSION (chunk_size export) (total_bytes export))) in
  do! _ := ask (SWrite (Seal (seal export))) in
  serve_loop fuel export purpose.

(** The loop of [park_for_export]. *)
Fixpoint park_loop (fuel : nat) (id : string) : server (option PeerExport) :=
  match fuel with
  | O => x ← ask SNever; match x : Empty_set with end
  | S fuel' =>
      e ← ask (GetExport id);
      match e with
      | Some e => Ret (Some e)
      | None =>
          woken ← ask AwaitRegistered;
          if negb woken then Ret None else
          e ← ask (GetExport id);
          match e with
          | Some e => Ret (Some e)
          | None => park_loop fuel' id
          end
      end
  end.

Definition park_for_export (fuel : nat) (id : string) : server (option PeerExport) :=
  e ← ask (GetExport id);
  match e with
  | Some e => Ret (Some e)
  | None =>
      permit ← ask TryPark;
      if negb permit then Ret None else park_loop fuel id
  end.

Definition refuse (message : string) : server (result (option (PeerExport * ConnPurpose)) FrameError) :=
  do! _ := ask (SWrite (Error None message)) in okay None.

Definition resolve_export (fuel : nat) (hello : ToSource) :
    server (result (option (PeerExport * ConnPurpose)) FrameError) :=
  match hello with
  | Hello version id tok purpose =>
      if negb (version =? PROTO_VERSION)
      then refuse "proto version mismatch: got {version}, want {PROTO_VERSION}" else
      e ← park_for_export fuel id;
      match e with
      | None => refuse "unknown export (park budget exhausted)"
      | Some export =>
          if negb (bool_decide (digest tok = digest (token export))) then refuse "bad token"
          else okay (Some (export, purpose))
      end
  | _ => refuse "expected Hello first, got {hello:?}"
  end.

Definition handle_conn (fuel : nat) : server (result unit FrameError) :=
  r ← ask SRead;
  match r with
  | Err UnexpectedEof => okay tt
  | Err e => Ret (Err e)
  | Ok hello =>
      do! resolved := resolve_export fuel hello in
      match resolved with
      | None => okay tt
      (* The task's own result is only logged. *)
      | Some (export, purpose) => _ ← serve_resolved_conn fuel export purpose; okay tt
      end
  end.

(** ** What a connection may carry *)

(** The memory of the paused process. *)
Variable mem : N → N.

Definition covers (v : GuestVma) (o : N) : bool :=
  (file_offset v <=? o) && (o <? file_offset v + vma_len v).

(** Each byte of the image is mapped at most once. *)
Definition mapped_once (l : list GuestVma) : Prop :=
  ∀ v v' o, v ∈ l → v' ∈ l → covers v o = true → covers v' o = true → v = v'.

(** The guest's byte at an offset of the image. *)
Definition guest_at (l : list GuestVma) (o : N) : option N :=
  (fun v => mem (start v + (o - file_offset v))) <$> List.find (fun v => covers v o) l.

(** The guest's bytes of the chunk at [off]. *)
Definition guest_chunk (e : PeerExport) (off : N) : option (list N) :=
  mapM (guest_at (vmas e)) (range off (off + N.min (chunk_size e) (total_bytes e - off))).

Definition needed (e : PeerExport) (off : N) : Prop :=
  off mod chunk_size e = 0 ∧ off < total_bytes e ∧ SealBitmap.get (seal e) (off / chunk_size e) = true.

(** A right answer to a request for the chunk at [off]. *)
Definition answer_ok (e : PeerExport) (p : ConnPurpose) (rq off : N) (m : FromSource) : Prop :=
  match m with
  | Page rq' off' wire hash lz4 =>
      rq' = rq ∧ off' = off ∧ needed e off ∧ hash = wire_hash wire ∧
      ∃ b, guest_chunk e off = Some b ∧ all_zero b = false ∧
        wire = (if lz4 then compress_prepend_size b else b)
  | ZeroChunk rq' off' =>
      rq' = rq ∧ off' = off ∧ needed e off ∧ ∃ b, guest_chunk e off = Some b ∧ all_zero b = true
  | AltSource rq' off' h =>
      rq' = rq ∧ off' = off ∧ needed e off ∧ p = Drain ∧
      durable_at e !! N.to_nat (off / chunk_size e) = Some (Some h) ∧
      ∃ b, guest_chunk e off = Some b ∧ all_zero b = false ∧ sha256 b = h
  | Error rq' _ => rq' = Some rq
  | _ => False
  end.

(** The work of a connection, and the answers to a prefix of it in order. *)
Inductive item : Type :=
| One (rq off : N)
| Win (rq : N) (offs : list N)
| Invalid (rq : N)
| Stop
| Duplicate.

Definition item_of (r : ToSource) : item :=
  match r with
  | NeedAt rq off => One rq off
  | NeedWindow rq offs => if window_invalid offs then Invalid rq else Win rq offs
  | DrainDone _ _ _ => Stop
  | Hello _ _ _ _ => Duplicate
  end.

Inductive Answers (e : PeerExport) (p : ConnPurpose) : list item → list FromSource → Prop :=
| An_nil its : Answers e p its []
| An_one rq off m its outs :
    answer_ok e p rq off m → Answers e p its outs → Answers e p (One rq off :: its) (m :: outs)
| An_more rq off offs m its outs :
    answer_ok e p rq off m → is_error m = false → Answers e p (Win rq offs :: its) outs →
    Answers e p (Win rq (off :: offs) :: its) (m :: outs)
| An_fail rq off offs m its outs :
    answer_ok e p rq off m → is_error m = true → Answers e p its outs →
    Answers e p (Win rq (off :: offs) :: its) (m :: outs)
| An_done rq its outs : Answers e p its outs → Answers e p (Win rq [] :: its) outs
| An_invalid rq msg its outs :
    Answers e p its outs → Answers e p (Invalid rq :: its) (Error (Some rq) msg :: outs)
| An_duplicate msg its : Answers e p (Duplicate :: its) [Error None msg].

(** All of the work done. *)
Inductive Served (e : PeerExport) (p : ConnPurpose) : list item → list FromSource → Prop :=
| Se_nil : Served e p [] []
| Se_one rq off m its outs :
    answer_ok e p rq off m → Served e p its outs → Served e p (One rq off :: its) (m :: outs)
| Se_more rq off offs m its outs :
    answer_ok e p rq off m → is_error m = false → Served e p (Win rq offs :: its) outs →
    Served e p (Win rq (off :: offs) :: its) (m :: outs)
| Se_fail rq off offs m its outs :
    answer_ok e p rq off m → is_error m = true → Served e p its outs →
    Served e p (Win rq (off :: offs) :: its) (m :: outs)
| Se_done rq its outs : Served e p its outs → Served e p (Win rq [] :: its) outs
| Se_invalid rq msg its outs :
    Served e p its outs → Served e p (Invalid rq :: its) (Error (Some rq) msg :: outs).

Lemma served_answers e p its outs its' outs' :
  Served e p its outs → Answers e p its' outs' → Answers e p (its ++ its') (outs ++ outs').
Proof. induction 1; simpl; eauto using Answers. Qed.

Lemma served_app e p its outs its' outs' :
  Served e p its outs → Served e p its' outs' → Served e p (its ++ its') (outs ++ outs').
Proof. induction 1; simpl; eauto using Served. Qed.

(** The kernel answers a read with the process's memory, possibly short; the
    mappings of a registered export are those of the paused process. *)
Definition s_ans (h : list (event sreq)) (X : Type) (q : sreq X) : X → Prop :=
  match q in sreq X return X → Prop with
  | Readv va len => fun x =>
      match x with
      | Ok l => N.of_nat (length l) ≤ len ∧ l = mem <$> range va (va + N.of_nat (length l))
      | Err _ => True
      end
  | GetExport _ => fun x => match x with Some e => mapped_once (vmas e) | None => True end
  | _ => fun _ => True
  end.

Definition no_write (X : Type) (q : sreq X) : Prop :=
  match q with SWrite _ => False | _ => True end.

Lemma find_covers l o v :
  mapped_once l → v ∈ l → covers v o = true → List.find (fun v => covers v o) l = Some v.
Proof.
  intros Hu Hv Hc. destruct (List.find _ l) as [v'|] eqn:E.
  - apply find_Some_elem in E as [Hv' Hc']. f_equal. by eapply Hu.
  - rewrite find_None_elem in E. by rewrite E in Hc.
Qed.

Lemma read_loop_spec fuel l file_off len out h :
  mapped_once l → (N.to_nat len - length out < fuel)%nat → N.of_nat (length out) ≤ len →
  mapM (guest_at l) (range file_off (file_off + N.of_nat (length out))) = Some out →
  wp s_ans (fun _ => no_write) h (read_loop fuel l file_off len out) (fun h' r =>
    match r with
    | Ok b => mapM (guest_at l) (range file_off (file_off + len)) = Some b
    | Err e => e ≠ ReadHangs
    end).
Proof.
  intros Hu. revert out h. induction fuel as [|fuel IH]; intros out h Hf Hle Hout; [lia|].
  cbn [read_loop]. destruct (N.ltb_spec (N.of_nat (length out)) len) as [Hlt|Hge]; last first.
  { apply wp_ret. replace len with (N.of_nat (length out)) by lia. done. }
  set (off := file_off + N.of_nat (length out)).
  destruct (List.find _ l) as [v|] eqn:Ef; [|by apply wp_ret].
  apply find_Some_elem in Ef as [Hv Hc]. set (va := start v + (off - file_offset v)).
  apply wp_try, wp_ask_err; [done|]. intros [got|] Hans; [|done].
  destruct got as [|x got]; [by apply wp_ret|]. set (g := x :: got) in *.
  destruct Hans as [Hn Hg]. assert (0 < length g)%nat by (simpl; lia).
  apply IH; rewrite ?length_app; [lia|lia|].
  rewrite Nat2N.inj_add, N.add_assoc. fold off.
  rewrite (range_app file_off off) by (unfold off; lia). apply mapM_Some, Forall2_app.
  - by apply mapM_Some.
  - apply Forall2_lookup. intros i. unfold range. rewrite list_lookup_fmap.
    replace (N.to_nat (off + N.of_nat (length g) - off)) with (length g) by lia.
    destruct (decide (i < length g)%nat) as [Hi|Hi].
    + rewrite lookup_seq_lt by done. rewrite Hg. rewrite list_lookup_fmap. unfold range.
      rewrite list_lookup_fmap.
      replace (N.to_nat (va + N.of_nat (length g) - va)) with (length g) by lia.
      rewrite lookup_seq_lt by done. simpl. constructor.
      unfold guest_at. rewrite (find_covers l _ v); [|done|done|].
      * simpl. do 2 f_equal. apply andb_true_iff in Hc as [Hc1%N.leb_le Hc2%N.ltb_lt].
        unfold va. lia.
      * apply andb_true_iff in Hc as [Hc1%N.leb_le Hc2%N.ltb_lt]. unfold va in Hn.
        apply andb_true_iff. rewrite N.leb_le, N.ltb_lt. unfold vma_len in *. lia.
    + rewrite lookup_seq_ge by lia. rewrite (lookup_ge_None_2 g) by lia. constructor.
Qed.

Lemma serve_need_at_spec e rq off p h :
  mapped_once (vmas e) →
  wp s_ans (fun _ => no_write) h (serve_need_at e rq off p) (fun h' m => answer_ok e p rq off m).
Proof.
  intros Hu. unfold serve_need_at.
  destruct (N.eqb_spec (off mod chunk_size e) 0) as [Ha|]; simpl; [|by apply wp_ret].
  destruct (N.leb_spec (total_bytes e) off) as [|Ht]; simpl; [by apply wp_ret|].
  destruct (SealBitmap.get (seal e) (off / chunk_size e)) eqn:Es; simpl; [|by apply wp_ret].
  apply wp_bind. set (len := N.min _ _). eapply wp_mono; [|apply (read_loop_spec _ _ _ len []); auto].
  2-4: simpl; try lia. 2: by rewrite N.add_0_r; unfold range; rewrite N.sub_diag.
  intros h' [b|err] Hb; apply wp_ret; [|done].
  assert (Hn : needed e off) by done. assert (Hg : guest_chunk e off = Some b) by exact Hb.
  destruct p; simpl.
  - destruct (all_zero b) eqn:Ez; simpl; [by split_and!; eauto|]. split_and!; eauto.
  - unfold classify_served_chunk. destruct (all_zero b) eqn:Ez; simpl; [by split_and!; eauto|].
    case_bool_decide as Hd; simpl.
    + split_and!; eauto. destruct (durable_at e !! _) as [d|]; [|done]. by subst d.
    + unfold compress_page. destruct (_ <? _)%nat; simpl; split_and!; eauto.
Qed.

(** ** A connection *)

Definition read_of (e : event sreq) : option ToSource :=
  match ev_req e in sreq X return X → option ToSource with
  | SRead => fun x => match x with Ok m => Some m | Err _ => None end
  | _ => fun _ => None
  end (ev_ans e).

Definition write_of (e : event sreq) : option FromSource :=
  match ev_req e with SWrite m => Some m | _ => None end.

Definition export_of (id : string) (e : event sreq) : option PeerExport :=
  match ev_req e in sreq X return X → option PeerExport with
  | GetExport id' => fun x => if bool_decide (id' = id) then x else None
  | _ => fun _ => None
  end (ev_ans e).

(** What the peer sent and what it was sent. *)
Definition reads (h : list (event sreq)) : list ToSource := omap read_of h.
Definition writes (h : list (event sreq)) : list FromSource := omap write_of h.

(** The peer opened with a Hello of this version for a registered export and
    presented its token. *)
Definition authentic (h : list (event sreq)) (e : PeerExport) (p : ConnPurpose) (reqs : list ToSource) : Prop :=
  ∃ id tok, reads h = Hello PROTO_VERSION id tok p :: reqs ∧ e ∈ omap (export_of id) h ∧
    digest tok = digest (token e).

Definition greeting (e : PeerExport) : list FromSource :=
  [HelloAck PROTO_VERSION (chunk_size e) (total_bytes e); Seal (seal e)].

(** What a connection may write: one refusal, or to an authenticated peer the
    greeting and right answers to its requests in order. *)
Definition conn_can (h : list (event sreq)) (X : Type) (q : sreq X) : Prop :=
  match q with
  | SWrite m =>
      (writes h = [] ∧ ∃ msg, m = Error None msg) ∨
      ∃ e p reqs outs, authentic h e p reqs ∧
        writes h ++ [m] `prefix_of` greeting e ++ outs ∧ Answers e p (item_of <$> reqs) outs
  | _ => True
  end.

Definition silent (X : Type) (q : sreq X) : Prop :=
  match q with SRead | SWrite _ => False | _ => True end.

Lemma silent_keeps h t :
  Forall (fun e => silent _ (ev_req e)) t → reads (h ++ t) = reads h ∧ writes (h ++ t) = writes h.
Proof.
  intros Ht. unfold reads, writes. rewrite !omap_app.
  assert (omap read_of t = [] ∧ omap write_of t = []) as [-> ->]; [|by rewrite !app_nil_r].
  induction Ht as [|[X q x] t Hq _ [IH1 IH2]]; [done|]. by destruct q.
Qed.

Lemma authentic_ext h t e p reqs reqs' :
  reads (h ++ t) = reads h ++ reqs' → authentic h e p reqs → authentic (h ++ t) e p (reqs ++ reqs').
Proof.
  intros Hr (id&tok&E&He&Hd). exists id, tok. rewrite Hr, E. split; [done|]. split; [|done].
  rewrite omap_app. by apply elem_of_app; left.
Qed.

(** Between requests: all of them served. *)
Definition conn_at (e : PeerExport) (p : ConnPurpose) (h : list (event sreq)) : Prop :=
  ∃ reqs outs, authentic h e p reqs ∧ writes h = greeting e ++ outs ∧
    Served e p (item_of <$> reqs) outs.

(** While a request is being served. *)
Definition conn_in (e : PeerExport) (p : ConnPurpose) (it : item) (done_ : list FromSource) (h : list (event sreq)) : Prop :=
  ∃ reqs r outs, authentic h e p (reqs ++ [r]) ∧ item_of r = it ∧
    writes h = greeting e ++ outs ++ done_ ∧ Served e p (item_of <$> reqs) outs.

Lemma conn_in_silent e p it d h t :
  Forall (fun e => silent _ (ev_req e)) t → conn_in e p it d h → conn_in e p it d (h ++ t).
Proof.
  intros Ht (reqs&r&outs&Ha&Hr&Hw&Hs). destruct (silent_keeps h t Ht) as [Hr' Hw'].
  exists reqs, r, outs. split_and!; [|done|by rewrite Hw'|done].
  rewrite <- (app_nil_r (reqs ++ [r])). apply authentic_ext; [|done]. by rewrite Hr', app_nil_r.
Qed.

(** The next answer of a request may be written. *)
Lemma conn_in_write e p it d h m (x : result unit FrameError) :
  conn_in e p it d h → Answers e p [it] (d ++ [m]) →
  conn_can h _ (SWrite m) ∧ conn_in e p it (d ++ [m]) (h ++ [Ev (SWrite m) x]).
Proof.
  intros (reqs&r&outs&Ha&Hr&Hw&Hs) Hans. split.
  - right. exists e, p, (reqs ++ [r]), (outs ++ d ++ [m]). split; [done|]. split.
    + rewrite Hw, <- !app_assoc. done.
    + rewrite fmap_app. apply served_answers; [done|]. simpl. by rewrite Hr.
  - exists reqs, r, outs. split_and!; [|done| |done].
    + rewrite <- (app_nil_r (reqs ++ [r])). apply authentic_ext; [|done].
      unfold reads. rewrite omap_app. done.
    + unfold writes. rewrite omap_app. fold (writes h). rewrite Hw. simpl. by rewrite <- !app_assoc.
Qed.

Lemma conn_in_at e p it d h : conn_in e p it d h → Served e p [it] d → conn_at e p h.
Proof.
  intros (reqs&r&outs&Ha&Hr&Hw&Hs) Hd. exists (reqs ++ [r]), (outs ++ d). split_and!; [done..|].
  rewrite fmap_app. apply served_app; [done|]. simpl. by rewrite Hr.
Qed.

Lemma conn_at_read e p h r :
  conn_at e p h → conn_in e p (item_of r) [] (h ++ [Ev SRead (Ok r)]).
Proof.
  intros (reqs&outs&Ha&Hw&Hs). exists reqs, r, outs. split_and!; [|done| |done].
  - apply authentic_ext; [|done]. unfold reads. by rewrite omap_app.
  - unfold writes. rewrite omap_app. fold (writes h). by rewrite Hw, !app_nil_r.
Qed.

Lemma serve_need_at_silent e rq off p : all_req silent (serve_need_at e rq off p).
Proof.
  unfold serve_need_at, read_guest_range.
  assert (∀ fuel len out, all_req silent (read_loop fuel (vmas e) off len out)) as Hl.
  { induction fuel as [|fuel IH]; intros len out; cbn [read_loop]; [done|].
    repeat case_match; try done. apply all_req_try; [by apply all_req_ask_err|].
    intros [|? ?]; [done|apply IH]. }
  destruct (_ || _); [done|]. destruct (negb _); [done|]. apply all_req_bind; [apply Hl|done].
Qed.

Section conn.

Context (e : PeerExport) (p : ConnPurpose) (Hu : mapped_once (vmas e)).

Notation cwp := (wp s_ans conn_can) (only parsing).

(** Serve one chunk: the answer is right and nothing is written meanwhile. *)
Lemma conn_serve it d rq off h Q :
  conn_in e p it d h →
  (∀ h' m, conn_in e p it d h' → answer_ok e p rq off m → Q h' m) →
  cwp h (_ ← ask Touch; serve_need_at e rq off p) Q.
Proof.
  intros Hc HQ. apply wp_bind, wp_ask; [done|]. intros [] _.
  assert (Hc' : conn_in e p it d (h ++ [Ev Touch tt])) by (apply conn_in_silent; [by repeat constructor|done]).
  eapply wp_mono, wp_keeps, wp_can, serve_need_at_spec; [|apply serve_need_at_silent| |done].
  - intros h' m [(t&->&Ht) Hm]. apply HQ; [|done]. by apply conn_in_silent.
  - by intros h' X [].
Qed.

Lemma touch_serve rq off (f : FromSource → server (result unit FrameError)) :
  (_ ← ask Touch; resp ← serve_need_at e rq off p; f resp) =
  ((_ ← ask Touch; serve_need_at e rq off p) ≫= f).
Proof. done. Qed.

Lemma serve_window_spec rq it d offs h :
  conn_in e p it d h →
  (∀ ms, Answers e p [Win rq offs] ms → Answers e p [it] (d ++ ms)) →
  (∀ ms, Served e p [Win rq offs] ms → Served e p [it] (d ++ ms)) →
  cwp h (serve_window e rq offs p) (fun h' r => r = Ok tt → conn_at e p h').
Proof.
  revert d h. induction offs as [|off offs IH]; intros d h Hc Ha Hs; cbn [serve_window].
  { apply wp_ret. intros _. eapply conn_in_at; [exact Hc|]. rewrite <- (app_nil_r d). apply Hs. repeat constructor. }
  rewrite touch_serve. apply wp_bind, (conn_serve it d rq off h); [done|]. intros h' m Hc' Hm.
  assert (Hans : Answers e p [it] (d ++ [m])).
  { apply Ha. destruct (is_error m) eqn:Em; [by apply An_fail; [| |constructor]|].
    apply An_more; [done|done|constructor]. }
  apply wp_try, wp_ask; [by apply (conn_in_write e p it d h' m (Ok tt))|]. intros x _.
  destruct (conn_in_write e p it d h' m x Hc' Hans) as [_ Hc2].
  destruct x as [[]|err]; [|done]. destruct (is_error m) eqn:Em.
  - apply wp_ret. intros _. eapply conn_in_at; [exact Hc2|]. apply Hs. by apply Se_fail; [| |constructor].
  - apply (IH (d ++ [m])); [done|..]; intros ms Hms; rewrite <- app_assoc; simpl.
    + apply Ha. by apply An_more.
    + apply Hs. by apply Se_more.
Qed.

Lemma serve_loop_spec fuel h : conn_at e p h → cwp h (serve_loop fuel e p) (fun _ _ => True).
Proof.
  revert h. induction fuel as [|fuel IH]; intros h Hc; cbn [serve_loop].
  { apply wp_bind, wp_ask; [done|]. by intros []. }
  apply wp_bind, wp_ask; [done|]. intros [r|err] _; last first.
  { by destruct err; apply wp_ret. }
  pose proof (conn_at_read e p h r Hc) as Hin. set (h1 := h ++ _) in *. clearbody h1. clear h Hc.
  destruct r as [v id tok p'|rq off|a b c|rq offs]; simpl in Hin.
  - apply wp_try, wp_ask; [apply (conn_in_write e p Duplicate [] h1 _ (Ok tt)); [done|constructor]|].
    by intros [[]|] _; [apply wp_ret|].
  - rewrite touch_serve. apply wp_bind, (conn_serve (One rq off) [] rq off h1); [done|]. intros h' m Hc' Hm.
    assert (Hans : Answers e p [One rq off] ([] ++ [m])) by (apply An_one; [done|constructor]).
    apply wp_try, wp_ask; [by apply (conn_in_write e p (One rq off) [] h' m (Ok tt))|]. intros x _.
    destruct (conn_in_write e p (One rq off) [] h' m x Hc' Hans) as [_ Hc2]. destruct x as [[]|]; [|done].
    apply IH. eapply conn_in_at; [exact Hc2|]. apply Se_one; [done|constructor].
  - by apply wp_ret.
  - destruct (window_invalid offs) eqn:Ew.
    + set (m := Error _ _). assert (Hans : Answers e p [Invalid rq] ([] ++ [m])) by (apply An_invalid; constructor).
      apply wp_try, wp_ask; [by apply (conn_in_write e p (Invalid rq) [] h1 m (Ok tt))|]. intros x _.
      destruct (conn_in_write e p (Invalid rq) [] h1 m x Hin Hans) as [_ Hc2]. destruct x as [[]|]; [|done].
      apply IH. eapply conn_in_at; [exact Hc2|]. apply Se_invalid; constructor.
    + apply wp_try. eapply wp_mono, (serve_window_spec rq _ [] offs h1 Hin); [|done..].
      intros h' [[]|err] Hok; [|done]. by apply IH, Hok.
Qed.

End conn.

(** *** The handshake *)

(** Before the export is resolved: one Hello read, nothing written. *)
Definition greeted (hello : ToSource) (h : list (event sreq)) : Prop := reads h = [hello] ∧ writes h = [].

Lemma greeted_silent hello h t :
  Forall (fun e => silent _ (ev_req e)) t → greeted hello h → greeted hello (h ++ t).
Proof. intros Ht [Hr Hw]. destruct (silent_keeps h t Ht) as [H1 H2]. split; congruence. Qed.

Definition found (id : string) (h : list (event sreq)) (e : PeerExport) : Prop :=
  e ∈ omap (export_of id) h ∧ mapped_once (vmas e).

Lemma get_export_spec hello id h Q :
  greeted hello h →
  (∀ h' e, greeted hello h' → (∀ x, e = Some x → found id h' x) → Q h' e) →
  wp s_ans conn_can h (ask (GetExport id)) Q.
Proof.
  intros Hg HQ. apply wp_ask; [done|]. intros e Ha. apply HQ.
  - apply greeted_silent; [by repeat constructor|done].
  - intros x ->. split; [|done]. rewrite omap_app. apply elem_of_app; right. unfold export_of. simpl.
    rewrite bool_decide_true by done. by constructor.
Qed.

Lemma park_spec fuel hello id h :
  greeted hello h →
  wp s_ans conn_can h (park_for_export fuel id) (fun h' e =>
    greeted hello h' ∧ ∀ x, e = Some x → found id h' x).
Proof.
  intros Hg. unfold park_for_export.
  apply wp_bind, (get_export_spec hello); [done|]. clear h Hg. intros h [e|] Hg He; [by apply wp_ret; auto|].
  apply wp_bind, wp_ask; [done|]. intros permit _.
  destruct permit; cbn [negb]; last first.
  { apply wp_ret. split; [apply greeted_silent; [by repeat constructor|done]|done]. }
  assert (Hg' : greeted hello (h ++ [Ev TryPark true])) by (apply greeted_silent; [by repeat constructor|done]).
  clear Hg He. revert Hg'. generalize (h ++ [Ev TryPark true]). clear h.
  induction fuel as [|fuel IH]; intros h Hg; cbn [park_loop].
  { apply wp_bind, wp_ask; [done|]. by intros []. }
  apply wp_bind, (get_export_spec hello); [done|]. clear h Hg. intros h [e|] Hg He; [by apply wp_ret; auto|].
  apply wp_bind, wp_ask; [done|]. intros woken _.
  assert (Hg' : greeted hello (h ++ [Ev AwaitRegistered woken]))
    by (apply greeted_silent; [by repeat constructor|done]).
  destruct woken; cbn [negb]; [|by apply wp_ret]. clear Hg He. revert Hg'.
  generalize (h ++ [Ev AwaitRegistered true]). clear h. intros h Hg.
  apply wp_bind, (get_export_spec hello); [done|]. clear h Hg. intros h [e|] Hg He; [by apply wp_ret; auto|].
  by apply IH.
Qed.

Lemma refuse_spec hello msg h Q :
  greeted hello h → (∀ h' r, (∀ x, r ≠ Ok (Some x)) → Q h' r) →
  wp s_ans conn_can h (refuse msg) Q.
Proof.
  intros [_ Hw] HQ. unfold refuse. apply wp_try, wp_ask; [left; eauto|].
  intros [[]|] _; [apply wp_ret|]; by apply HQ.
Qed.

Lemma resolve_export_spec fuel hello h :
  greeted hello h →
  wp s_ans conn_can h (resolve_export fuel hello) (fun h' r =>
    ∀ e p, r = Ok (Some (e, p)) → authentic h' e p [] ∧ writes h' = [] ∧ mapped_once (vmas e)).
Proof.
  intros Hg. unfold resolve_export.
  destruct hello as [v id tok p| | | ]; try (eapply refuse_spec; [done|]; intros h' r Hr e p' ->; by destruct (Hr (e, p'))).
  destruct (N.eqb_spec v PROTO_VERSION) as [->|]; cbn [negb];
    [|eapply refuse_spec; [done|]; intros h' r Hr e p' ->; by destruct (Hr (e, p'))].
  apply wp_bind. eapply wp_mono, park_spec, Hg. cbv beta. clear h Hg. intros h [e|] [Hg He];
    [|eapply refuse_spec; [done|]; intros h' r Hr e p' ->; by destruct (Hr (e, p'))].
  case_bool_decide as Hd; cbn [negb];
    [|eapply refuse_spec; [done|]; intros h' r Hr e' p' ->; by destruct (Hr (e', p'))].
  apply wp_ret. intros e' p' [= <- <-]. destruct Hg as [Hr Hw], (He e eq_refl) as [Hin Hm].
  split; [|done]. exists id, tok. split_and!; auto.
Qed.

Lemma handle_conn_allowed fuel h o :
  runs s_ans [] (handle_conn fuel) h o → allowed conn_can h.
Proof.
  intros Hr. eapply wp_adequate; [exact Hr| |apply allowed_nil]. unfold handle_conn.
  instantiate (1 := fun _ _ => True).
  apply wp_bind, wp_ask; [done|]. intros [hello|err] _; [|by destruct err; apply wp_ret].
  apply wp_try. eapply wp_mono, resolve_export_spec; [|done]. cbv beta.
  intros h1 [[[e p]|]|err] Hres; [|by apply wp_ret|done].
  destruct (Hres e p eq_refl) as (Ha&Hw&Hm). apply wp_bind.
  apply (wp_mono s_ans conn_can h1 _ (fun _ _ => True)); [intros ? ? _; by apply wp_ret|].
  unfold serve_resolved_conn.
  assert (Hstep : ∀ done_ m rest x h', authentic h' e p [] → writes h' = done_ →
    greeting e = done_ ++ m :: rest →
    conn_can h' _ (SWrite m) ∧ authentic (h' ++ [Ev (SWrite m) x]) e p [] ∧
    writes (h' ++ [Ev (SWrite m) x]) = done_ ++ [m]).
  { intros d m rest x h' Ha' Hw' Hg. split_and!.
    - right. exists e, p, [], []. split; [done|]. split; [|constructor].
      rewrite Hw', Hg, <- app_assoc. simpl. exists rest. by rewrite <- app_assoc, app_nil_r.
    - apply (authentic_ext h' [Ev (SWrite m) x] e p [] []); [|done]. unfold reads. by rewrite omap_app.
    - unfold writes. rewrite omap_app. fold (writes h'). by rewrite Hw'. }
  unfold greeting in Hstep.
  apply wp_try, wp_ask; [by eapply (Hstep [] _ _ (Ok tt))|]. intros x _.
  destruct (Hstep [] _ _ x h1 Ha Hw eq_refl) as (_&Ha2&Hw2). destruct x as [[]|]; [|done].
  apply wp_try, wp_ask; [by eapply (Hstep [_] _ _ (Ok tt))|]. intros x _.
  destruct (Hstep _ _ [] x _ Ha2 Hw2 eq_refl) as (_&Ha3&Hw3). destruct x as [[]|]; [|done].
  apply serve_loop_spec; [done|]. exists [], []. split_and!; [done|by rewrite Hw3|constructor].
Qed.

(** C21. The page server.  Whatever a peer sends, however the reads of the guest
    fail or come back short, and wherever the connection breaks: before a Hello
    of this version that names a registered export and carries its token, the
    server writes at most one refusal; after it, it writes the greeting with
    the export's geometry and bitmap and then, in the order of the requests,
    answers that are right.  A page carries the bytes of the paused guest with
    their wire hash, a zero answer stands for a chunk of zeros, a demotion is
    only sent on a drain connection for bytes whose hash is the durable entry,
    and a window stops at its first error. *)
Theorem page_server_sound fuel h o :
  runs s_ans [] (handle_conn fuel) h o → allowed conn_can h.
Proof. apply handle_conn_allowed. Qed.

End server.

(** ** A run *)

Module ServerDemo.

(** Guest memory: chunk 0 holds 0..3, chunk 1 zeros; chunks of four bytes. *)
Definition mem (va : N) : N := if va <? 104 then va - 100 else 0.

Definition export : PeerExport :=
  MkExport "x" "secret" [MkVma 100 108 0] (SealBitmap.Mk 4 2 [3]) [None; None] 4 8.

(** The inbox of the socket. *)
Definition handle (X : Type) (q : sreq X) (inbox : list ToSource) : option X * list ToSource :=
  match q in sreq X return option X * list ToSource with
  | SRead => match inbox with m :: l => (Some (Ok m), l) | [] => (Some (Err UnexpectedEof), []) end
  | SWrite _ => (Some (Ok tt), inbox)
  | GetExport id => (Some (if bool_decide (id = "x") then Some export else None), inbox)
  | TryPark => (Some true, inbox)
  | AwaitRegistered => (Some false, inbox)
  | Touch => (Some tt, inbox)
  | Readv va len => (Some (Ok (mem <$> range va (va + N.min len 3))), inbox)
  | SNever => (None, inbox)
  end.

Definition digest (s : string) : list N := [N.of_nat (String.length s)].
Definition prog := handle_conn (fun b => b) digest (fun b => b) (fun b => b ++ [0]) 5.
Definition inbox := [Hello 6 "x" "secret" Drain; NeedAt 7 0; NeedWindow 8 [4; 8; 0]].

End ServerDemo.

Lemma page_server_sound_witness :
  let h := trace ServerDemo.handle ServerDemo.prog ServerDemo.inbox in
  allowed (conn_can (fun b => b) ServerDemo.digest (fun b => b) (fun b => b ++ [0]) ServerDemo.mem) h ∧
  writes h = [HelloAck 6 4 8; Seal (SealBitmap.Mk 4 2 [3]); Page 7 0 [0; 1; 2; 3] [0; 1; 2; 3] false;
              ZeroChunk 8 4; Error (Some 8) "NeedAt offset {chunk_offset:#x} unaligned or out of range"].
Proof.
  intros h. split; [|vm_compute; reflexivity].
  apply (page_server_sound (fun b => b) ServerDemo.digest (fun b => b) (fun b => b ++ [0]) ServerDemo.mem
    5 h (exec ServerDemo.handle ServerDemo.prog ServerDemo.inbox).1).
  refine (proj1 (exec_runs ServerDemo.handle (s_ans ServerDemo.mem) (fun _ _ => True) ServerDemo.prog
    ServerDemo.inbox [] _ I)).
  intros h0 s X q x s' _ E. split; [|exact I]. destruct q; try exact I.
  - simpl in E. injection E as <- _. case_bool_decide; [|exact I]. intros v v' o Hv Hv' _ _.
    apply list_elem_of_singleton in Hv, Hv'. congruence.
  - simpl in E. injection E as <- _. unfold s_ans, range. rewrite !length_fmap, length_seq.
    split; [lia|]. do 3 f_equal. lia.
Defined.
