(* ===== verification/Uffd.v ===== *)
(** * The page-fault handler of a restored guest

    [engram-uffd-handler/src/peer.rs] and [runtime.rs]: the destination of a
    post-copy migration.  Three kinds of threads install chunks into the guest:
    the fault loop, at most one fault-window worker at a time, and the producer
    that drains the source and then prefaults and sweeps.  Each thread is a
    program over its socket, the shared table of chunk states, the userfaultfd
    and the chunk tiers.  Logging, metrics, timing statistics, and the
    working-set recorder are left out; lz4 and blake3 are parameters. *)

From S2P Require Import Prelude Prog Manifest Wire Backend.
Local Open Scope N_scope.

(** ** Data *)

Inductive PeerError : Type :=
| PeerIo (e : FrameError)
| PeerServer (msg : string)
| RequestFailed (msg : string)
| ShaMismatch (chunk_offset : N)
| GeometryMismatch (msg : string)
| Lost (msg : string).

Inductive PeerPage : Type :=
| PageBytes (b : list N)
| PageZero
| PageAlt (h : ChunkHash).

Inductive HandlerError : Type :=
| HandlerPeerLost (msg : string)
| HandlerUffd
| HandlerBackend (e : Backend.BackendError)
| BaseShmError
| AddressOutsideRegions (a : N)
| HandlerIo
(** The worker's errors are strings. *)
| WindowError (msg : string).

Inductive ChunkState : Type := Empty | Installing | Installed.
Inductive Claim : Type := Claimed | InFlight | Done.

#[export] Instance ChunkState_eq_dec : EqDecision ChunkState.
Proof. solve_decision. Defined.
#[export] Instance Claim_eq_dec : EqDecision Claim.
Proof. solve_decision. Defined.

Record GuestRegionUffdMapping := MkRegion {
  base_host_virt_addr : N;
  m_size : N;
  m_offset : N;
  m_page_size : N;
}.

Definition contains (r : GuestRegionUffdMapping) (addr : N) : bool :=
  (base_host_virt_addr r <=? addr) && (addr <? base_host_virt_addr r + m_size r).

Record DrainStats := MkStats {
  hot_hint_received : bool;
  hot_leading : N;
  pulled : N;
  alt_sourced : N;
  zero_chunks : N;
}.

#[export] Instance eta_DrainStats : Eta DrainStats := fun s =>
  MkStats (hot_hint_received s) (hot_leading s) (pulled s) (alt_sourced s) (zero_chunks s).

(** The reports of [HandlerControl] that the threads send. *)
Inductive HandlerControl : Type :=
| DrainProgress (pulled remaining : N)
| ReportDrainDone (pulled alt_sourced zero_chunks : N)
| ReportPeerLost (remaining : N).

(** The answers of the userfaultfd ioctls: [Unsupported] is EINVAL or
    EOPNOTSUPP, [Exists] is EEXIST. *)
Inductive ZeroError : Type := Unsupported | ZeroOther.
Inductive ContinueError : Type := Exists | ContinueOther.
Inductive PopulateError : Type := WriterUnreachable | PopulateOther.

Inductive dreq : Type → Type :=
(** The connection of the thread. *)
| ResolveAddr : dreq (result (list N) FrameError)
| DeadlinePassed : dreq bool
| ConnectTo (addr : N) : dreq (result unit FrameError)
| SocketCall : dreq (result unit FrameError)
| DWrite (m : ToSource) : dreq (result unit FrameError)
| DRead : dreq (result FromSource FrameError)
| NextReq : dreq N
| Backoff : dreq unit
(** The session's latch, the fault gate of the drain, and a capture-time hint. *)
| IsLost : dreq bool
| MarkLost : dreq unit
| AwaitQuiet : dreq unit
| TakeHint : dreq (option WorkingSetTrace)
(** The shared table of chunk states; each is one critical section. *)
| ClaimChunk (i : N) : dreq Claim
| WaitSettled (i : N) : dreq ChunkState
| MarkInstalled (i : N) : dreq unit
| ReleaseChunk (i : N) : dreq unit
| ChunkInstalled (i : N) : dreq bool
| UninstalledCount : dreq N
| IsDrainDone : dreq bool
| SetDrainDone : dreq unit
| EndFaults : dreq unit
(** The userfaultfd. *)
| Copy (va : N) (b : list N) (wake : bool) : dreq (result unit unit)
| ZeroPage (va len : N) (wake : bool) : dreq (result unit ZeroError)
| Continue_ (va len : N) (wake : bool) : dreq (result N ContinueError)
| WakePage (va len : N) : dreq (result unit unit)
| ZeropageOk : dreq bool
| ZeropageOff : dreq unit
(** The shared base file. *)
| BasePopulated (off len : N) : dreq bool
| BaseWrite (off : N) (b : list N) : dreq (result unit unit)
(** The chunk tiers; [Populate] answers [None] without a writer. *)
| CacheRead (h : ChunkHash) : dreq (result (option (list N)) unit)
| Populate (h : ChunkHash) : dreq (option (result (list N) PopulateError))
| StoreGet (h : ChunkHash) : dreq (result (list N) ChunkStoreError.t)
(** The window slot and its two channels. *)
| SlotBusy : dreq bool
| SpawnWorker (offsets : list N) (fault_offset : N) : dreq (result unit unit)
| StopWindow : dreq unit
| Stopped : dreq bool
| RuntimeAlive : dreq bool
| SendFirst (fault_offset : N) (page : PeerPage) : dreq (result unit unit)
| RecvFirst (fault_offset : N) : dreq (result PeerPage unit)
| SendInstalled : dreq unit
| RecvInstalled : dreq (result unit unit)
| Report (m : HandlerControl) : dreq unit
| SweepBudgetLeft : dreq bool
(** Never answered: an unbounded loop beyond its fuel, and a bounded one. *)
| Spin : dreq Empty_set
| Unreachable : dreq Empty_set.

Notation thread A := (prog dreq (result A HandlerError)) (only parsing).
Notation peer A := (prog dreq (result A PeerError)) (only parsing).

Definition never {A} (q : dreq Empty_set) : prog dreq A := x ← ask q; match x : Empty_set with end.

(** What an attempt of [stream_window] came to. *)
Inductive attempt (E : Type) : Type :=
| Finished (r : result unit E)
| Failed (e : PeerError).
Arguments Finished {E} r.
Arguments Failed {E} e.

Section handler.

Context (decompress_size_prepended : list N → option (list N)) (wire_hash : list N → list N).

(** ** The peer client *)

Definition decode_page (resp : FromSource) (want_req want_offset : N) : result PeerPage PeerError :=
  match resp with
  | Page req_id chunk_offset b hash lz4 =>
      if negb (req_id =? want_req) || negb (chunk_offset =? want_offset)
      then Err (PeerServer "response mismatch: req {req_id}/{want_req}, offset {chunk_offset:#x}/{want_offset:#x}")
      else if negb (bool_decide (wire_hash b = hash)) then Err (ShaMismatch want_offset)
      else match decompress_page decompress_size_prepended b lz4 with
           | Ok raw => Ok (PageBytes raw)
           | Err e => Err (PeerServer e)
           end
  | ZeroChunk req_id chunk_offset =>
      if (req_id =? want_req) && (chunk_offset =? want_offset) then Ok PageZero
      else Err (PeerServer "unexpected response: {other:?}")
  | AltSource req_id chunk_offset h =>
      if (req_id =? want_req) && (chunk_offset =? want_offset) then Ok (PageAlt h)
      else Err (PeerServer "unexpected response: {other:?}")
  | Error (Some req_id) message =>
      if req_id =? want_req then Err (RequestFailed message)
      else Err (PeerServer "unexpected response: {other:?}")
  | Error None message => Err (PeerServer message)
  | _ => Err (PeerServer "unexpected response: {other:?}")
  end.

(** [take_while] and [take]. *)
Fixpoint take_while {A} (P : A → bool) (l : list A) : list A :=
  match l with [] => [] | x :: l' => if P x then x :: take_while P l' else [] end.

Definition fault_window (seal : SealBitmap.t) (first region_end : N) (limit : nat)
    (installed : N → bool) : list N :=
  let size := SealBitmap.chunk_size seal in
  (fun i => i * size) <$>
  take limit
    (List.filter (fun i => SealBitmap.get seal i && negb (installed i))
       (take_while (fun i => (i * size =? first) || (i * size + size <=? region_end))
          (range (first / size) (SealBitmap.chunk_count seal)))).

Record PeerConf := MkPeer {
  export_id : string;
  token : string;
  peer_seal : SealBitmap.t;
  peer_chunk_size : N;
  expected_total : N;
}.

Definition RECONNECT_ATTEMPTS : nat := 3.

(** Cancellation: asked before and after each connect ([false]), and with the
    connected socket ([true]). *)
Fixpoint connect_addrs (connected : bool → peer bool) (addrs : list N) (last_error : FrameError) :
    peer unit :=
  match addrs with
  | [] => Ret (Err (PeerIo last_error))
  | addr :: addrs' =>
      do! go := connected false in
      if negb go then Ret (Err (Lost "connection canceled")) else
      late ← ask DeadlinePassed;
      if (late : bool) then Ret (Err (PeerIo SocketIo)) else
      r ← ask (ConnectTo addr);
      do! go := connected false in
      if negb go then Ret (Err (Lost "connection canceled")) else
      match r with
      | Ok _ => okay tt
      | Err e => connect_addrs connected addrs' e
      end
  end.

Definition connect_with_socket (connected : bool → peer bool) : peer unit :=
  do! go := connected false in
  if negb go then Ret (Err (Lost "connection canceled")) else
  do! addrs := ask_err PeerIo ResolveAddr in
  connect_addrs connected addrs (InvalidData "peer address resolved to no addresses").

Definition dial_with_socket (c : PeerConf) (purpose : ConnPurpose) (connected : bool → peer bool) :
    peer SealBitmap.t :=
  do! _ := connect_with_socket connected in
  do! _ := ask_err PeerIo SocketCall in
  do! go := connected true in
  if negb go then Ret (Err (Lost "connection canceled")) else
  do! _ := ask_err PeerIo (DWrite (Hello PROTO_VERSION (export_id c) (token c) purpose)) in
  do! ack := ask_err PeerIo DRead in
  do! _ :=
    match ack with
    | HelloAck version chunk_size total_bytes =>
        if negb (version =? PROTO_VERSION)
        then Ret (Err (GeometryMismatch "proto version {version} != {PROTO_VERSION}"))
        else if negb (chunk_size =? peer_chunk_size c) || negb (total_bytes =? expected_total c)
        then Ret (Err (GeometryMismatch "source serves chunk_size={chunk_size}/total={total_bytes}, manifest says ..."))
        else okay tt
    | Error _ message => Ret (Err (PeerServer message))
    | _ => Ret (Err (PeerServer "expected HelloAck, got {other:?}"))
    end in
  do! m := ask_err PeerIo DRead in
  do! seal :=
    match m with
    | Seal bitmap => okay bitmap
    | Error _ message => Ret (Err (PeerServer message))
    | _ => Ret (Err (PeerServer "expected Seal, got {other:?}"))
    end in
  match SealBitmap.validate seal with
  | Err msg => Ret (Err (GeometryMismatch msg))
  | Ok _ =>
      if negb (SealBitmap.chunk_size seal =? peer_chunk_size c) ||
         negb (SealBitmap.chunk_count seal =? ceil (expected_total c) (peer_chunk_size c))
      then Ret (Err (GeometryMismatch "seal bitmap geometry != manifest geometry"))
      else okay seal
  end.

Definition always (_ : bool) : peer bool := okay true.

Definition dial (c : PeerConf) (purpose : ConnPurpose) : peer SealBitmap.t :=
  dial_with_socket c purpose always.

(** The inner loop: the answers to the request, from the first offset not
    installed.  The installer carries a state; the offsets that are left are
    returned with it. *)
Fixpoint read_window {St E} (install : St → N → PeerPage → prog dreq (result St E))
    (cancelled : prog dreq bool) (req_id : N) (offsets : list N) (s : St) :
    prog dreq (attempt E * list N * St) :=
  match offsets with
  | [] => Ret (Finished (Ok tt), [], s)
  | offset :: offsets' =>
      r ← ask DRead;
      match r with
      | Err e => Ret (Failed (PeerIo e), offsets, s)
      | Ok response =>
          stop ← cancelled;
          if (stop : bool) then Ret (Finished (Ok tt), offsets, s) else
          match decode_page response req_id offset with
          | Err e => Ret (Failed e, offsets, s)
          | Ok page =>
              r ← install s offset page;
              match r with
              | Err e => Ret (Finished (Err e), offsets, s)
              | Ok s => read_window install cancelled req_id offsets' s
              end
          end
      end
  end.

Definition request_window {St E} (install : St → N → PeerPage → prog dreq (result St E))
    (cancelled : prog dreq bool) (offsets : list N) (s : St) :
    prog dreq (attempt E * list N * St) :=
  req_id ← ask NextReq;
  w ← ask (DWrite (NeedWindow req_id offsets));
  match w with
  | Err e => Ret (Failed (PeerIo e), offsets, s)
  | Ok _ => read_window install cancelled req_id offsets s
  end.

(** An attempt on an open connection; [again] is the next attempt, for what is
    left. *)
Definition one_attempt {St E} (again : list N → St → peer (result unit E * St))
    (install : St → N → PeerPage → prog dreq (result St E)) (cancelled : prog dreq bool)
    (connected : bool → peer bool) (offsets : list N) (s : St) : peer (result unit E * St) :=
  do! go := connected true in
  if negb go then okay (Ok tt, s) else
  a ← request_window install cancelled offsets s;
  stop ← cancelled;
  if (stop : bool) then okay (Ok tt, a.2) else
  match a with
  | (Finished r, _, s) => okay (r, s)
  | (Failed (RequestFailed _), rest, s) | (Failed (PeerIo _), rest, s) => again rest s
  | (Failed e, _, _) => Ret (Err e)
  end.

(** The attempts; the first uses the open connection, the others dial. *)
Fixpoint stream_attempts {St E} (n : nat) (c : PeerConf) (fresh : bool)
    (install : St → N → PeerPage → prog dreq (result St E)) (cancelled : prog dreq bool)
    (connected : bool → peer bool) (offsets : list N) (s : St) : peer (result unit E * St) :=
  match n with
  | O => Ret (Err (Lost "reconnects exhausted: {}"))
  | S n' =>
      let again := stream_attempts n' c true install cancelled connected in
      stop ← cancelled;
      if (stop : bool) then okay (Ok tt, s) else
      if fresh then
        _ ← ask Backoff;
        stop ← cancelled;
        if (stop : bool) then okay (Ok tt, s) else
        d ← dial_with_socket c Fault connected;
        match d with
        | Ok _ => one_attempt again install cancelled connected offsets s
        | Err _ => again offsets s
        end
      else one_attempt again install cancelled connected offsets s
  end.

Definition stream_window {St E} (c : PeerConf) (offsets : list N)
    (install : St → N → PeerPage → prog dreq (result St E)) (cancelled : prog dreq bool)
    (connected : bool → peer bool) (s : St) : peer (result unit E * St) :=
  stream_attempts (S RECONNECT_ATTEMPTS) c false install cancelled connected offsets s.

Definition need_window {St E} (c : PeerConf) (offsets : list N)
    (install : St → N → PeerPage → prog dreq (result St E)) (s : St) : peer (result unit E * St) :=
  lost ← ask IsLost;
  if (lost : bool) then Ret (Err (Lost "peer already marked lost")) else
  r ← stream_window c offsets install (Ret false) always s;
  match r with
  | Err e => _ ← ask MarkLost; Ret (Err e)
  | Ok x => okay x
  end.

(** A window of one chunk whose installer keeps the page.  [None] is the panic
    of the [expect]. *)
Definition need_at (c : PeerConf) (offset : N) : peer (option PeerPage) :=
  do! r := need_window (E := Empty_set) c [offset] (fun _ _ page => Ret (Ok (Some page))) None in
  okay (r.2).

(** ** The runtime *)

(** [peer] is set in post-copy mode; [base_shm] with a shared base file. *)
Record Runtime := MkRuntime {
  mappings : list GuestRegionUffdMapping;
  backend : Backend.t;
  page_size : N;
  base_shm : bool;
  peer_conf : option PeerConf;
  fault_around_chunks : nat;
  eager_sweep : bool;
}.

Context (rt : Runtime).

Notation size := (Backend.chunk_size (backend rt)).
Notation total := (Backend.total_bytes (backend rt)).

(** *** Claims *)

Fixpoint claim_for_install (fuel : nat) (i : N) : prog dreq Claim :=
  match fuel with
  | O => never Spin
  | S fuel' =>
      c ← ask (ClaimChunk i);
      match c with
      | Claimed => Ret Claimed
      | Done => Ret Done
      | InFlight =>
          st ← ask (WaitSettled i);
          match st with
          | Installed => Ret Done
          | Empty | Installing => claim_for_install fuel' i
          end
      end
  end.

Definition settle_install {A E} (i : N) (r : result A E) : prog dreq unit :=
  match r with
  | Ok _ => ask (MarkInstalled i)
  | Err _ => ask (ReleaseChunk i)
  end.

(** *** Installing *)

Definition locate_offset (ms : list GuestRegionUffdMapping) (byte_offset : N) :
    option (GuestRegionUffdMapping * N * N) :=
  (fun m => let intra := byte_offset - m_offset m in
            (m, base_host_virt_addr m + intra, m_size m - intra)) <$>
  List.find (fun m => (m_offset m <=? byte_offset) && (byte_offset <? m_offset m + m_size m)) ms.

Definition next_mapped_offset (from : N) : option N :=
  match omap (fun m => if from <? m_offset m + m_size m then Some (N.max (m_offset m) from) else None)
             (mappings rt) with
  | [] => None
  | x :: l => Some (fold_left N.min l x)
  end.

Fixpoint spanning_loop (fuel : nat) (byte_offset end_ cursor : N)
    (install_seg : N → N → N → thread unit) : thread unit :=
  match fuel with
  | O => never Unreachable
  | S fuel' =>
      if cursor <? end_ then
        match locate_offset (mappings rt) cursor with
        | None =>
            match next_mapped_offset cursor with
            | Some next =>
                if next <? end_ then spanning_loop fuel' byte_offset end_ next install_seg
                else okay tt
            | None => okay tt
            end
        | Some (_, host_va, room_to_eom) =>
            let seg_len := N.min (end_ - cursor) room_to_eom in
            do! _ := install_seg host_va seg_len (cursor - byte_offset) in
            spanning_loop fuel' byte_offset end_ (cursor + seg_len) install_seg
        end
      else okay tt
  end.

Definition install_spanning (byte_offset total_len : N) (install_seg : N → N → N → thread unit) :
    thread unit :=
  spanning_loop (S (N.to_nat total_len)) byte_offset (byte_offset + total_len) byte_offset install_seg.

Definition uffd {A E} (q : dreq (result A E)) : thread A := ask_err (fun _ => HandlerUffd) q.

(** Settle the claim with the outcome of the installation. *)
Definition settled (i : N) (p : thread unit) : thread bool :=
  r ← p;
  _ ← settle_install i r;
  Ret (match r with Ok _ => Ok true | Err e => Err e end).

Definition slice (b : list N) (pos len : N) : list N := take (N.to_nat len) (drop (N.to_nat pos) b).

Definition install_claimed_chunk_at (byte_offset : N) (b : list N) (wake : bool) : thread bool :=
  let total_len := N.min size (N.of_nat (length b)) in
  settled (byte_offset / size)
    (install_spanning byte_offset total_len
       (fun host_va seg_len pos => uffd (Copy host_va (slice b pos seg_len) wake))).

Definition install_claimed_zero_at (byte_offset : N) (wake : bool) : thread bool :=
  let total_len := N.min size (total - byte_offset) in
  settled (byte_offset / size)
    (install_spanning byte_offset total_len
       (fun host_va seg_len _ => uffd (ZeroPage host_va seg_len wake))).

Definition zero_segment (wake : bool) (host_va seg_len : N) : thread unit :=
  let copy := uffd (Copy host_va (replicate (N.to_nat seg_len) 0) wake) in
  ok ← ask ZeropageOk;
  if (ok : bool) then
    r ← ask (ZeroPage host_va seg_len wake);
    match r with
    | Ok _ => okay tt
    | Err Unsupported => _ ← ask ZeropageOff; copy
    | Err ZeroOther => Ret (Err HandlerUffd)
    end
  else copy.

Definition install_claimed_zero_substrate (byte_offset : N) (wake : bool) : thread bool :=
  let total_len := N.min size (total - byte_offset) in
  settled (byte_offset / size)
    (install_spanning byte_offset total_len (fun host_va seg_len _ => zero_segment wake host_va seg_len)).

(** Claim, or answer that it is installed. *)
Definition claiming (fuel : nat) (byte_offset : N) (p : thread bool) : thread bool :=
  c ← claim_for_install fuel (byte_offset / size);
  match c with
  | Claimed => p
  | _ => okay false
  end.

Context (fuel : nat).

Definition install_chunk_at (byte_offset : N) (b : list N) (wake : bool) : thread bool :=
  claiming fuel byte_offset (install_claimed_chunk_at byte_offset b wake).

Definition install_zero_at (byte_offset : N) (wake : bool) : thread bool :=
  claiming fuel byte_offset (install_claimed_zero_at byte_offset wake).

Definition install_zero_substrate (byte_offset : N) (wake : bool) : thread bool :=
  claiming fuel byte_offset (install_claimed_zero_substrate byte_offset wake).

(** [if self.base_shm.is_some()]. *)
Definition install_zero (byte_offset : N) (wake : bool) : thread bool :=
  if base_shm rt then install_zero_substrate byte_offset wake else install_zero_at byte_offset wake.

Definition fetch_chunk (h : ChunkHash) : thread (list N) :=
  r ← ask (CacheRead h);
  match r with
  | Err _ => Ret (Err (HandlerBackend Backend.BackendIo))
  | Ok (Some b) => okay b
  | Ok None =>
      let fallback := ask_err (fun e => HandlerBackend (Backend.BackendManifest e)) (StoreGet h) in
      r ← ask (Populate h);
      match r with
      | Some (Ok b) => okay b
      | Some (Err PopulateOther) => Ret (Err (HandlerBackend Backend.BackendIo))
      | Some (Err WriterUnreachable) | None => fallback
      end
  end.

(** The loop over one segment of [populate_and_continue]. *)
Fixpoint continue_loop (fuel : nat) (host_va seg_len done : N) (wake : bool) : thread unit :=
  match fuel with
  | O => never Unreachable
  | S fuel' =>
      if done <? seg_len then
        r ← ask (Continue_ (host_va + done) (seg_len - done) wake);
        match r with
        | Ok mapped =>
            if mapped =? 0 then okay tt
            else continue_loop fuel' host_va seg_len (done + mapped) wake
        | Err Exists => continue_loop fuel' host_va seg_len (done + page_size rt) wake
        | Err ContinueOther => Ret (Err HandlerUffd)
        end
      else okay tt
  end.

Definition populate_and_continue (byte_offset populate_len : N) (h : ChunkHash) (wake : bool) :
    thread unit :=
  there ← ask (BasePopulated byte_offset populate_len);
  do! _ :=
    (if (there : bool) then okay tt
     else do! b := fetch_chunk h in ask_err (fun _ => BaseShmError) (BaseWrite byte_offset b)) in
  install_spanning byte_offset populate_len
    (fun host_va seg_len _ => continue_loop (S (N.to_nat seg_len)) host_va seg_len 0 wake).

Definition install_canonical_shared (byte_offset : N) (h : ChunkHash) (wake : bool) : thread bool :=
  claiming fuel byte_offset
    (let populate_len := N.min size (total - byte_offset) in
     settled (byte_offset / size) (populate_and_continue byte_offset populate_len h wake)).

(** [prepare_peer_page]: the bytes, [None] for zeros. *)
Definition prepare_peer_page (offset : N) (page : PeerPage) : thread (option (list N)) :=
  match page with
  | PageBytes b => okay (Some b)
  | PageZero => okay None
  | PageAlt _ =>
      match Backend.resolve (backend rt) offset with
      | None => Ret (Err (HandlerPeerLost "AltSource for unresolvable offset {offset:#x}"))
      | Some r =>
          match Backend.resolved_hash (backend rt) r with
          | Some h => do! b := fetch_chunk h in okay (Some b)
          | None => okay None
          end
      end
  end.

Definition install_claimed_peer_page (offset : N) (b : option (list N)) : thread bool :=
  match b with
  | Some b => install_claimed_chunk_at offset b false
  | None => if base_shm rt then install_claimed_zero_substrate offset false
            else install_claimed_zero_at offset false
  end.

Definition install_prepared_peer_page (offset : N) (b : option (list N)) : thread bool :=
  claiming fuel offset (install_claimed_peer_page offset b).

Definition install_peer_page (offset : N) (page : PeerPage) : thread bool :=
  do! b := prepare_peer_page offset page in install_prepared_peer_page offset b.

Definition install_window_page (offset : N) (page : PeerPage) : thread unit :=
  do! _ := install_peer_page offset page in okay tt.

(** *** Fault windows *)

(** The worker's callback: before and after connects and with the socket, which
    it clones. *)
Definition worker_connected (socket : bool) : peer bool :=
  stop ← ask Stopped;
  if (stop : bool) then okay false
  else if socket then do! _ := ask_err PeerIo SocketCall in okay true
  else okay true.

Definition window_error {A E} (p : prog dreq (result A E)) : thread A :=
  r ← p; Ret (match r with Ok a => Ok a | Err _ => Err (WindowError "{e}") end).

Definition worker_install (fault_offset offset : N) (page : PeerPage) : thread unit :=
  stop ← ask Stopped;
  if (stop : bool) then okay tt else
  if offset =? fault_offset then
    do! _ := window_error (ask (SendFirst fault_offset page)) in
    window_error (ask RecvInstalled)
  else
    do! b := window_error (prepare_peer_page offset page) in
    stop ← ask Stopped;
    if (stop : bool) then okay tt else
    alive ← ask RuntimeAlive;
    if negb alive then okay tt else
    c ← claim_for_install fuel (offset / size);
    if negb (bool_decide (c = Claimed)) then okay tt else
    stop ← ask Stopped;
    if (stop : bool) then _ ← ask (ReleaseChunk (offset / size)); okay tt else
    do! _ := window_error (install_claimed_peer_page offset b) in okay tt.

Definition worker_body (c : PeerConf) (offsets : list N) (fault_offset : N) : thread unit :=
  do! _ := window_error (dial_with_socket c Fault worker_connected) in
  do! r := window_error (stream_window c offsets
             (fun _ offset page => worker_install fault_offset offset page)
             (ask Stopped) worker_connected tt) in
  Ret (r.1).

Definition window_worker (c : PeerConf) (offsets : list N) (fault_offset : N) : prog dreq unit :=
  r ← worker_body c offsets fault_offset;
  match r with
  | Ok _ => Ret tt
  | Err _ =>
      alive ← ask RuntimeAlive;
      if negb alive then Ret tt else
      remaining ← ask UninstalledCount;
      stop ← ask Stopped;
      if (stop : bool) then Ret tt else
      n ← ask UninstalledCount;
      if n =? 0 then Ret tt else
      _ ← ask MarkLost;
      ask (Report (ReportPeerLost remaining))
  end.

Definition peer_lost {A} (p : peer A) : thread A :=
  r ← p; Ret (match r with Ok a => Ok a | Err _ => Err (HandlerPeerLost "{e}") end).

Definition serve_fault_window (c : PeerConf) (offsets : list N) (fault_offset : N) : thread unit :=
  busy ← ask SlotBusy;
  drained ← ask IsDrainDone;
  installed ← (if (drained : bool) then Ret true else ask (ChunkInstalled (fault_offset / size)));
  if (installed : bool) then okay tt else
  if (busy : bool) then
    do! page := peer_lost (need_at c fault_offset) in
    match page with
    | None => never Unreachable
    | Some page => install_window_page fault_offset page
    end
  else
    lost ← ask IsLost;
    if (lost : bool) then Ret (Err (HandlerPeerLost "peer already marked lost")) else
    do! _ := ask_err (fun _ => HandlerIo) (SpawnWorker offsets fault_offset) in
    do! page := ask_err (fun _ => HandlerPeerLost "fault window first response: {e}") (RecvFirst fault_offset) in
    do! _ := install_window_page fault_offset page in
    _ ← ask SendInstalled;
    okay tt.

(** [chunk_installed] of every index, as [fault_window] asks. *)
Fixpoint ask_installed (l : list N) : prog dreq (gset N) :=
  match l with
  | [] => Ret ∅
  | i :: l' =>
      b ← ask (ChunkInstalled i);
      s ← ask_installed l';
      Ret (if (b : bool) then {[i]} ∪ s else s)
  end.

(** *** Page faults *)

Inductive Source : Type := SourceWake | SourcePeer | SourceShm | SourceZero.

Definition wake_page (page_aligned page_size : N) : thread unit := uffd (WakePage page_aligned page_size).

(** The part after the peer: what the manifest says. *)
Definition serve_resolved (fault_addr chunk_byte_offset page_aligned psize : N) : thread Source :=
  let done_or (src : Source) (p : thread bool) : thread Source :=
    do! installed := p in
    if (installed : bool) then okay src
    else do! _ := wake_page page_aligned psize in okay SourceWake in
  match Backend.resolve (backend rt) chunk_byte_offset with
  | None => Ret (Err (AddressOutsideRegions fault_addr))
  | Some (Backend.Canonical canonical_offset) =>
      match Backend.canonical_chunk_hash (backend rt) canonical_offset with
      | Some h =>
          done_or SourceShm
            (if base_shm rt then install_canonical_shared chunk_byte_offset h true
             else do! b := fetch_chunk h in install_chunk_at chunk_byte_offset b true)
      | None => done_or SourceZero (install_zero chunk_byte_offset true)
      end
  | Some (Backend.Chunk h) =>
      do! b := fetch_chunk h in
      done_or SourceWake (install_chunk_at chunk_byte_offset b true)
  | Some (Backend.Zero offset) => done_or SourceZero (install_zero offset true)
  end.

Definition serve_pagefault (fault_addr : N) : thread Source :=
  match List.find (fun r => contains r fault_addr) (mappings rt) with
  | None => Ret (Err (AddressOutsideRegions fault_addr))
  | Some region =>
      let psize := m_page_size region in
      let page_aligned := N.ldiff fault_addr (psize - 1) in
      let byte_offset := m_offset region + (page_aligned - base_host_virt_addr region) in
      let chunk_byte_offset := byte_offset - byte_offset mod size in
      let chunk_idx := chunk_byte_offset / size in
      let by_manifest := serve_resolved fault_addr chunk_byte_offset page_aligned psize in
      let wake (src : Source) : thread Source :=
        do! _ := wake_page page_aligned psize in okay src in
      match peer_conf rt with
      | None => by_manifest
      | Some c =>
          if SealBitmap.get (peer_seal c) chunk_idx then
            installed ← ask (ChunkInstalled chunk_idx);
            if (installed : bool) then wake SourceWake else
            drained ← ask IsDrainDone;
            if (drained : bool) then by_manifest else
            known ← ask_installed (range (chunk_byte_offset / SealBitmap.chunk_size (peer_seal c))
                                         (SealBitmap.chunk_count (peer_seal c)));
            match fault_window (peer_seal c) chunk_byte_offset (m_offset region + m_size region)
                    (fault_around_chunks rt) (fun i => bool_decide (i ∈ known)) with
            | [] => wake SourceWake
            | offsets =>
                r ← serve_fault_window c offsets chunk_byte_offset;
                match r with
                | Ok _ => wake SourcePeer
                | Err e =>
                    installed ← ask (ChunkInstalled chunk_idx);
                    if (installed : bool) then wake SourceWake else
                    _ ← ask MarkLost;
                    remaining ← ask UninstalledCount;
                    _ ← ask (Report (ReportPeerLost remaining));
                    Ret (Err e)
                end
            end
          else by_manifest
      end
  end.

(** The fault loop over the faults of the guest; the session was connected
    before. *)
Fixpoint serve_faults (faults : list N) : thread unit :=
  match faults with
  | [] => okay tt
  | a :: faults' => do! _ := serve_pagefault a in serve_faults faults'
  end.

Definition fault_loop (faults : list N) : thread unit :=
  match peer_conf rt with
  | None => serve_faults faults
  | Some c => do! _ := peer_lost (dial c Fault) in serve_faults faults
  end.

(** The main thread: however the loop ended, [stop_fault_window] stops the
    window and stores the drain flag ([EndFaults]), with the producer still
    running. *)
Definition fault_thread (faults : list N) : prog dreq unit :=
  _ ← fault_loop faults;
  _ ← ask StopWindow;
  ask EndFaults.

(** *** The drain *)

Definition PIPELINE_DEPTH : nat := 8.
Definition DRAIN_REQUEST_RETRIES : N := 3.

(** The offsets of a trace, in its order. *)
Definition trace_positions (trace : WorkingSetTrace) : list N :=
  trace_chunks trace ≫= Backend.session_positions_of (backend rt).

(** The sealed chunks of the trace, first occurrences, as offsets. *)
Fixpoint hot_first (seal : SealBitmap.t) (positions : list N) (queued : gset N) : list N * gset N :=
  match positions with
  | [] => ([], queued)
  | offset :: positions' =>
      let idx := offset / size in
      if SealBitmap.get seal idx && bool_decide (idx ∉ queued) then
        let '(l, q) := hot_first seal positions' ({[idx]} ∪ queued) in (idx * size :: l, q)
      else hot_first seal positions' queued
  end.

(** The initial queue, and how many of it lead. *)
Definition drain_todo (seal : SealBitmap.t) (hot : option WorkingSetTrace) : list N * N :=
  let '(lead, queued) :=
    match hot with Some t => hot_first seal (trace_positions t) ∅ | None => ([], ∅) end in
  (lead ++ ((fun i => i * size) <$>
     List.filter (fun i => negb (bool_decide (i ∈ queued)))
       (List.filter (SealBitmap.get seal) (range 0 (SealBitmap.chunk_count seal)))),
   N.of_nat (length lead)).

(** The rank of an offset in a trace: the distinct offsets before it. *)
Definition ranks (positions : list N) : gmap N N :=
  fold_left (fun m o => match m !! o with Some _ => m | None => <[o := N.of_nat (base.size m)]> m end)
    positions ∅.

(** [sort_by_key] with [usize::MAX] for offsets without a rank. *)
Definition by_rank (rank : gmap N N) (todo : list N) : list N :=
  let key o := default (2 ^ 64 - 1) (rank !! o) in
  sort_by (fun a b => key a <=? key b) todo.

Record drain := MkDrain {
  todo : list N;
  retry : list N;
  in_flight : list (N * N);
  attempts : gmap N N;
  processed : N;
  next_id : N;
  stats : DrainStats;
  hot : option WorkingSetTrace;
}.

#[export] Instance eta_drain : Eta drain := fun d =>
  MkDrain (todo d) (retry d) (in_flight d) (attempts d) (processed d) (next_id d) (stats d) (hot d).

Fixpoint count_uninstalled (l : list N) : prog dreq N :=
  match l with
  | [] => Ret 0
  | o :: l' =>
      b ← ask (ChunkInstalled (o / size));
      n ← count_uninstalled l';
      Ret (if (b : bool) then n else n + 1)
  end.

Definition take_hint (d : drain) : prog dreq drain :=
  h ← ask TakeHint;
  match h with
  | None => Ret d
  | Some trace =>
      let rank := ranks (trace_positions trace) in
      n ← count_uninstalled (List.filter (fun o => bool_decide (is_Some (rank !! o))) (todo d));
      Ret (d <| stats ::= fun s =>
                  s <| hot_hint_received := hot_hint_received s ||
                       (negb (bool_decide (trace_chunks trace = [])) && negb (bool_decide (todo d = []))) |>
                    <| hot_leading ::= fun x => x + n |> |>
             <| todo := by_rank rank (todo d) |>
             <| hot := Some trace |>)
  end.

(** Fill the pipeline.  Each round takes an offset off a queue. *)
Fixpoint fill (fuel : nat) (d : drain) : thread drain :=
  match fuel with
  | O => never Unreachable
  | S fuel' =>
      if (length (in_flight d) <? PIPELINE_DEPTH)%nat then
        match (match retry d with
               | o :: r => Some (o, d <| retry := r |>)
               | [] => match todo d with
                       | o :: t => Some (o, d <| todo := t |>)
                       | [] => None
                       end
               end) with
        | None => okay d
        | Some (offset, d) =>
            installed ← ask (ChunkInstalled (offset / size));
            if (installed : bool) then fill fuel' (d <| processed ::= N.succ |>) else
            let req_id := next_id d in
            do! _ := ask_err (fun _ => HandlerPeerLost "drain write: {e}") (DWrite (NeedAt req_id offset)) in
            fill fuel' (d <| next_id ::= N.succ |> <| in_flight ::= fun l => l ++ [(req_id, offset)] |>)
        end
      else okay d
  end.

(** The demotion of a chunk to its durable copy. *)
Definition install_durable (offset : N) : thread bool :=
  match Backend.resolve (backend rt) offset with
  | Some (Backend.Chunk h) => do! b := fetch_chunk h in install_chunk_at offset b false
  | Some (Backend.Canonical canonical_offset) =>
      match Backend.canonical_chunk_hash (backend rt) canonical_offset with
      | Some h => do! b := fetch_chunk h in install_chunk_at offset b false
      | None => install_zero offset false
      end
  | Some (Backend.Zero _) => install_zero offset false
  | None => Ret (Err (HandlerPeerLost "AltSource demote for unresolvable offset {offset:#x}"))
  end.

Definition install_drained (offset : N) (page : PeerPage) (d : drain) : thread drain :=
  match page with
  | PageBytes b =>
      do! _ := install_chunk_at offset b false in okay (d <| stats ::= (fun s => s <| pulled ::= N.succ |>) |>)
  | PageZero =>
      do! _ := install_zero offset false in okay (d <| stats ::= (fun s => s <| zero_chunks ::= N.succ |>) |>)
  | PageAlt _ =>
      do! _ := install_durable offset in okay (d <| stats ::= (fun s => s <| alt_sourced ::= N.succ |>) |>)
  end.

Fixpoint drain_loop (n : nat) (total_sealed : N) (d : drain) : thread drain :=
  match n with
  | O => never Unreachable
  | S n' =>
      d ← take_hint d;
      _ ← ask AwaitQuiet;
      do! d := fill (S (length (retry d) + length (todo d))) d in
      match in_flight d with
      | [] => okay d
      | (req_id, offset) :: flight =>
          let d := d <| in_flight := flight |> in
          do! resp := ask_err (fun _ => HandlerPeerLost "drain read: {e}") DRead in
          match decode_page resp req_id offset with
          | Err (RequestFailed _) =>
              let k := default 0 (attempts d !! offset) + 1 in
              let d := d <| attempts ::= <[offset := k]> |> in
              if DRAIN_REQUEST_RETRIES <? k
              then Ret (Err (HandlerPeerLost "drain per-request retries exhausted at offset {offset:#x}: {msg}"))
              else _ ← ask Backoff;
                   drain_loop n' total_sealed (d <| retry ::= fun l => l ++ [offset] |>)
          | Err _ => Ret (Err (HandlerPeerLost "drain decode: {e}"))
          | Ok page =>
              do! d := install_drained offset page d in
              let d := d <| processed ::= N.succ |> in
              _ ← (if processed d mod 256 =? 0
                   then ask (Report (DrainProgress (pulled (stats d)) (total_sealed - processed d)))
                   else Ret tt);
              drain_loop n' total_sealed d
          end
      end
  end.

Definition drain_with_hint (c : PeerConf) (trace : option WorkingSetTrace) :
    thread (DrainStats * option WorkingSetTrace) :=
  do! _ := peer_lost (dial c Drain) in
  let '(queue, lead) := drain_todo (peer_seal c) trace in
  let received := match trace with Some t => negb (bool_decide (trace_chunks t = [])) | None => false end in
  do! d := drain_loop (S (4 * length queue)) (N.of_nat (length queue))
             (MkDrain queue [] [] ∅ 0 1000000 (MkStats received lead 0 0 0) trace) in
  _ ← ask (DWrite (DrainDone (pulled (stats d)) (alt_sourced (stats d)) (zero_chunks (stats d))));
  okay (stats d, hot d).

(** *** Prefault and sweep *)

Fixpoint each (l : list N) (f : N → thread bool) : thread unit :=
  match l with
  | [] => okay tt
  | x :: l' => do! _ := f x in each l' f
  end.

Definition prefault_hash (h : ChunkHash) : thread unit :=
  match Backend.session_positions_of (backend rt) h with
  | [] => okay tt
  | positions =>
      if base_shm rt then
        each positions (fun byte_offset =>
          let shared :=
            match Backend.resolve (backend rt) byte_offset with
            | Some (Backend.Canonical canonical_offset) =>
                bool_decide (Backend.canonical_chunk_hash (backend rt) canonical_offset = Some h)
            | _ => false
            end in
          if shared then install_canonical_shared byte_offset h false
          else do! b := fetch_chunk h in install_chunk_at byte_offset b false)
      else
        do! b := fetch_chunk h in
        each positions (fun byte_offset => install_chunk_at byte_offset b false)
  end.

Fixpoint prefault_from_trace (hashes : list ChunkHash) : thread unit :=
  match hashes with
  | [] => okay tt
  | h :: hashes' => do! _ := prefault_hash h in prefault_from_trace hashes'
  end.

Inductive Pass : Type := Divergent | CanonicalPass.

Definition sweep_chunk (pass : Pass) (offset : N) : thread bool :=
  match pass, Backend.resolve (backend rt) offset with
  | Divergent, Some (Backend.Chunk h) =>
      do! b := fetch_chunk h in install_chunk_at offset b false
  | CanonicalPass, Some (Backend.Canonical canonical_offset) =>
      match Backend.canonical_chunk_hash (backend rt) canonical_offset with
      | Some h =>
          if base_shm rt then install_canonical_shared offset h false
          else do! b := fetch_chunk h in install_chunk_at offset b false
      | None => okay false
      end
  | _, _ => okay false
  end.

(** One pass over the chunk indexes; true when the budget ran out. *)
Fixpoint sweep_pass (pass : Pass) (l : list N) : thread bool :=
  match l with
  | [] => okay false
  | i :: l' =>
      left ← ask SweepBudgetLeft;
      if negb left then okay true else
      let offset := i * size in
      skip ← (match peer_conf rt with
              | Some c => if SealBitmap.get (peer_seal c) i
                          then b ← ask (ChunkInstalled i); Ret (negb b)
                          else Ret false
              | None => Ret false
              end);
      do! _ := (if (skip : bool) then okay false else sweep_chunk pass offset) in
      sweep_pass pass l'
  end.

Definition sweep_all : thread unit :=
  if negb (eager_sweep rt) then okay tt else
  let all := range 0 (ceil total size) in
  do! stop := sweep_pass Divergent all in
  if (stop : bool) then okay tt else
  do! _ := sweep_pass CanonicalPass all in okay tt.

(** *** The producer thread *)

Definition producer (trace : option WorkingSetTrace) : prog dreq unit :=
  let warm (trace : option WorkingSetTrace) : prog dreq unit :=
    _ ← (match trace with Some t => prefault_from_trace (trace_chunks t) | None => okay tt end);
    _ ← sweep_all;
    Ret tt in
  match peer_conf rt with
  | None => warm trace
  | Some c =>
      r ← drain_with_hint c trace;
      match r with
      | Ok (st, trace) =>
          _ ← ask StopWindow;
          _ ← ask SetDrainDone;
          _ ← ask (Report (ReportDrainDone (pulled st) (alt_sourced st) (zero_chunks st)));
          warm trace
      | Err _ =>
          _ ← ask MarkLost;
          remaining ← ask UninstalledCount;
          ask (Report (ReportPeerLost remaining))
      end
  end.

End handler.
