(* ===== verification/UffdProps.v ===== *)
(** * The destination of a post-copy migration is exact

    What the threads of [Uffd.v] put into the guest.  A thread sees the page
    server of [PeerServer.v] at the other end of its connection, chunk tiers
    that serve what they hold for a hash, and a table of chunk states shared
    with the other threads.  The first part is one thread; the second runs any
    number of them on the shared table. *)

From S2P Require Import Prelude Prog Manifest Wire DirtyMap PeerServer Backend Uffd.
Local Open Scope N_scope.

(** ** What a thread did *)

Notation history := (list (event dreq)) (only parsing).

(** The connection: what was written to it and read from it since the connect. *)
Definition conn_step (s : list ToSource * list FromSource) (e : event dreq) : list ToSource * list FromSource :=
  match ev_req e in dreq X return X → list ToSource * list FromSource with
  | ConnectTo _ => fun x => if is_ok x then ([], []) else s
  | DWrite m => fun x => if is_ok x then (s.1 ++ [m], s.2) else s
  | DRead => fun x => match x with Ok m => (s.1, s.2 ++ [m]) | Err _ => s end
  | _ => fun _ => s
  end (ev_ans e).

Definition conn (h : history) : list ToSource * list FromSource := fold_left conn_step h ([], []).

(** The chunks whose claim the thread holds. *)
Definition held_step (s : gset N) (e : event dreq) : gset N :=
  match ev_req e in dreq X return X → gset N with
  | ClaimChunk i => fun x => if bool_decide (x = Claimed) then {[i]} ∪ s else s
  | MarkInstalled i | ReleaseChunk i => fun _ => s ∖ {[i]}
  | _ => fun _ => s
  end (ev_ans e).

Definition held (h : history) : gset N := fold_left held_step h ∅.

(** An event that shows that chunk [i] is installed. *)
Definition shows (i : N) (e : event dreq) : bool :=
  match ev_req e in dreq X return X → bool with
  | ClaimChunk j => fun x => bool_decide (j = i) && bool_decide (x = Done)
  | WaitSettled j => fun x => bool_decide (j = i) && bool_decide (x = Installed)
  | MarkInstalled j => fun _ => bool_decide (j = i)
  | ChunkInstalled j => fun x => bool_decide (j = i) && x
  | _ => fun _ => false
  end (ev_ans e).

Definition evidence (h : history) (i : N) : Prop := ∃ e, e ∈ h ∧ shows i e = true.

(** The thread knows that the drain is done. *)
Definition shows_drained (e : event dreq) : bool :=
  match ev_req e in dreq X return X → bool with
  | IsDrainDone => fun x => x
  | SetDrainDone => fun _ => true
  | _ => fun _ => false
  end (ev_ans e).

Definition drained (h : history) : Prop := ∃ e, e ∈ h ∧ shows_drained e = true.

Definition is_mark_lost (e : event dreq) : bool := match ev_req e with MarkLost => true | _ => false end.
Definition lost (h : history) : Prop := ∃ e, e ∈ h ∧ is_mark_lost e = true.

(** Requests of the socket, and of the claims. *)
Definition on_net (X : Type) (q : dreq X) : bool :=
  match q with ConnectTo _ | DWrite _ | DRead => true | _ => false end.
Definition on_claims (X : Type) (q : dreq X) : bool :=
  match q with ClaimChunk _ | MarkInstalled _ | ReleaseChunk _ => true | _ => false end.

Definition no_net (X : Type) (q : dreq X) : Prop := on_net X q = false.
Definition no_claims (X : Type) (q : dreq X) : Prop := on_claims X q = false.

Lemma conn_app h t : Forall (fun e => no_net _ (ev_req e)) t → conn (h ++ t) = conn h.
Proof.
  intros Ht. unfold conn. rewrite fold_left_app. generalize (fold_left conn_step h ([], [])).
  induction Ht as [|[X q x] t Hq _ IH]; intros s; [done|]. simpl. rewrite IH. by destruct q.
Qed.

Lemma held_app h t : Forall (fun e => no_claims _ (ev_req e)) t → held (h ++ t) = held h.
Proof.
  intros Ht. unfold held. rewrite fold_left_app. generalize (fold_left held_step h ∅).
  induction Ht as [|[X q x] t Hq _ IH]; intros s; [done|]. simpl. rewrite IH. by destruct q.
Qed.

Lemma conn_snoc h e : conn (h ++ [e]) = conn_step (conn h) e.
Proof. unfold conn. by rewrite fold_left_app. Qed.

Lemma held_snoc h e : held (h ++ [e]) = held_step (held h) e.
Proof. unfold held. by rewrite fold_left_app. Qed.

Lemma evidence_app h t i : evidence h i → evidence (h ++ t) i.
Proof. intros (e&He&Hs). exists e. split; [by apply elem_of_app; left|done]. Qed.

Lemma drained_app h t : drained h → drained (h ++ t).
Proof. intros (e&He&Hs). exists e. split; [by apply elem_of_app; left|done]. Qed.

Lemma lost_app h t : lost h → lost (h ++ t).
Proof. intros (e&He&Hs). exists e. split; [by apply elem_of_app; left|done]. Qed.

(** A migration: the export of the source, and a destination built from the
    manifests of the base and the session. *)
Record migration (sha256 : list N → ChunkHash) (compress_prepend_size : list N → list N)
    (decompress_size_prepended : list N → option (list N)) (e : PeerExport) (rt : Runtime) (c : PeerConf)
    (base_m sess_m : Manifest.t) (stored : ChunkHash → list N → Prop) : Prop := {
  mig_lz4 b : decompress_size_prepended (compress_prepend_size b) = Some b;
  mig_built : Backend.new base_m sess_m = Ok (backend rt);
  mig_peer : peer_conf rt = Some c;
  (** What the handler's [connect] established of the session. *)
  mig_seal : peer_seal c = PeerServer.seal e ∧ SealBitmap.wf (peer_seal c) ∧
    SealBitmap.chunk_size (peer_seal c) = PeerServer.chunk_size e ∧
    PeerServer.chunk_size e = Backend.chunk_size (backend rt) ∧
    PeerServer.total_bytes e = Backend.total_bytes (backend rt) ∧
    SealBitmap.chunk_count (peer_seal c) =
      ceil (Backend.total_bytes (backend rt)) (Backend.chunk_size (backend rt));
  (** The export was made against the manifest the destination restores. *)
  mig_manifest i h :
    durable_at e !! N.to_nat i = Some (Some h) → Backend.session_hash (backend rt) i = Some h;
  mig_pages : page_size rt ≠ 0;
  (** Each offset of the image is mapped at most once. *)
  mig_regions m m' o : m ∈ mappings rt → m' ∈ mappings rt →
    m_offset m ≤ o < m_offset m + m_size m → m_offset m' ≤ o < m_offset m' + m_size m' → m = m';
  (** The chunk tiers check what they serve against its hash, and the chunks of
      the manifest have their length. *)
  mig_stored h b : stored h b →
    sha256 b = h ∧ ∀ i, Backend.session_hash (backend rt) i = Some h →
      N.of_nat (length b) =
        N.min (Backend.chunk_size (backend rt))
              (Backend.total_bytes (backend rt) - i * Backend.chunk_size (backend rt));
}.

Section thread.

Context (sha256 : list N → ChunkHash) (wire_hash compress_prepend_size : list N → list N)
        (decompress_size_prepended : list N → option (list N)).

(** The source: its export and the memory of the paused guest. *)
Context (e : PeerExport) (mem : N → N).

(** The destination. *)
Context (rt : Runtime) (c : PeerConf) (base_m sess_m : Manifest.t).

(** What the chunk tiers hold for a hash, and what the base file holds. *)
Context (stored : ChunkHash → list N → Prop) (base : N → list N).

Hypothesis mig : migration sha256 compress_prepend_size decompress_size_prepended e rt c base_m sess_m stored.

Notation size := (Backend.chunk_size (backend rt)).
Notation total := (Backend.total_bytes (backend rt)).
Notation sealed i := (SealBitmap.get (peer_seal c) i = true).

Definition chunk_len (i : N) : N := N.min size (total - i * size).
Definition chunks : N := ceil total size.

Lemma lz4_roundtrip b : decompress_size_prepended (compress_prepend_size b) = Some b.
Proof. apply mig. Qed.

Lemma built : Backend.new base_m sess_m = Ok (backend rt).
Proof. apply mig. Qed.

Lemma post_copy : peer_conf rt = Some c.
Proof. apply mig. Qed.

Lemma conf_seal : peer_seal c = PeerServer.seal e ∧ SealBitmap.wf (peer_seal c) ∧
  SealBitmap.chunk_size (peer_seal c) = PeerServer.chunk_size e ∧
  PeerServer.chunk_size e = size ∧ PeerServer.total_bytes e = total ∧
  SealBitmap.chunk_count (peer_seal c) = ceil total size.
Proof. apply mig. Qed.

Lemma same_manifest i h :
  durable_at e !! N.to_nat i = Some (Some h) → Backend.session_hash (backend rt) i = Some h.
Proof. apply mig. Qed.

Lemma pages : page_size rt ≠ 0.
Proof. apply mig. Qed.

Lemma regions_once m m' o : m ∈ mappings rt → m' ∈ mappings rt →
  m_offset m ≤ o < m_offset m + m_size m → m_offset m' ≤ o < m_offset m' + m_size m' → m = m'.
Proof. apply mig. Qed.

Lemma stored_ok h b : stored h b →
  sha256 b = h ∧ ∀ i, Backend.session_hash (backend rt) i = Some h → N.of_nat (length b) = chunk_len i.
Proof. apply mig. Qed.

(** The content of a chunk: of a sealed one the paused guest's, or bytes of the
    same hash; of the others the manifest's. *)
Definition good (i : N) (full : list N) : Prop :=
  N.of_nat (length full) = chunk_len i ∧
  if SealBitmap.get (peer_seal c) i then
    ∃ src, guest_chunk mem e (i * size) = Some src ∧ (full = src ∨ sha256 full = sha256 src)
  else
    match Backend.session_hash (backend rt) i with
    | Some h => stored h full
    | None => full = replicate (length full) 0
    end.

(** What a page from the peer stands for. *)
Definition page_ok (off : N) (page : PeerPage) : Prop :=
  needed e off ∧
  ∃ src, guest_chunk mem e off = Some src ∧
    match page with
    | PageBytes b => b = src
    | PageZero => all_zero src = true
    | PageAlt h => Backend.session_hash (backend rt) (off / size) = Some h ∧ sha256 src = h
    end.

(** ** What is laid into the guest *)

(** Offset [o] of the image is mapped at the address. *)
Definition addr_of (o : N) : option N := (fun x => x.1.2) <$> locate_offset (mappings rt) o.

(** The event puts byte [x] at offset [o]. *)
Definition lays (ev : event dreq) (o x : N) : Prop :=
  ∃ a, addr_of o = Some a ∧
    match ev_req ev in dreq X return X → Prop with
    | Copy va b _ => fun r => is_ok r = true ∧ va ≤ a ∧ b !! N.to_nat (a - va) = Some x
    | ZeroPage va len _ => fun r => is_ok r = true ∧ va ≤ a < va + len ∧ x = 0
    | Continue_ va len _ => fun r =>
        match r with
        | Ok mapped => va ≤ a < va + mapped
        | Err Exists => va ≤ a < va + page_size rt
        | Err ContinueOther => False
        end ∧ base (o / size) !! N.to_nat (o mod size) = Some x
    | _ => fun _ => False
    end (ev_ans ev).

Definition laid (h : history) (o x : N) : Prop := ∃ ev, ev ∈ h ∧ lays ev o x.

(** The whole of chunk [i], as far as it is mapped. *)
Definition covered (h : history) (i : N) (full : list N) : Prop :=
  ∀ k, k < chunk_len i → is_Some (addr_of (i * size + k)) →
    ∃ x, full !! N.to_nat k = Some x ∧ laid h (i * size + k) x.

(** [len] bytes of [full] from [pos] belong at the address: they are of the right
    content of a chunk the thread has claimed, inside one mapping. *)
Definition place_at (h : history) (i : N) (full : list N) (pos va len : N) : Prop :=
  i ∈ held h ∧ good i full ∧ pos + len ≤ N.of_nat (length full) ∧
  ∃ m room, locate_offset (mappings rt) (i * size + pos) = Some (m, va, room) ∧ len ≤ room.

Definition can_place (h : history) (va : N) (b : list N) : Prop :=
  ∃ i full pos, place_at h i full pos va (N.of_nat (length b)) ∧ b = slice full pos (N.of_nat (length b)).

Definition all_installed (h : history) : Prop := ∀ i, sealed i → evidence h i.

(** ** The environment of a thread *)

(** The page server speaks as [conn_can] lets it. *)
Definition speaks (h : history) (m : FromSource) : Prop :=
  ((conn h).2 = [] ∧ ∃ msg, m = Error None msg) ∨
  ∃ id tok p reqs outs, (conn h).1 = Hello PROTO_VERSION id tok p :: reqs ∧
    (conn h).2 ++ [m] `prefix_of` greeting e ++ outs ∧
    Answers sha256 wire_hash compress_prepend_size mem e p (item_of <$> reqs) outs.

Definition ans (h : history) (X : Type) (q : dreq X) : X → Prop :=
  match q in dreq X return X → Prop with
  | DRead => fun x => match x with Ok m => speaks h m | Err _ => True end
  | CacheRead k => fun x => match x with Ok (Some b) => stored k b | _ => True end
  | Populate k => fun x => match x with Some (Ok b) => stored k b | _ => True end
  | StoreGet k => fun x => match x with Ok b => stored k b | Err _ => True end
  | ClaimChunk i => fun x => x = Claimed → ¬ evidence h i ∧ (sealed i → ¬ drained h)
  | IsLost => fun x => x = false → ¬ lost h
  | BasePopulated off _ => fun x => x = true →
      ∀ k, Backend.canonical_chunk_hash (backend rt) off = Some k → stored k (base (off / size))
  | BaseWrite off _ => fun x => is_ok x = true →
      ∀ k, Backend.canonical_chunk_hash (backend rt) off = Some k → stored k (base (off / size))
  | Continue_ _ _ _ => fun x => match x with Ok mapped => 0 < mapped | Err _ => True end
  | RecvFirst off => fun x => match x with Ok page => page_ok off page | Err _ => True end
  | _ => fun _ => True
  end.

Definition can (h : history) (X : Type) (q : dreq X) : Prop :=
  match q with
  | Unreachable => False
  | ClaimChunk i => i < chunks ∧ i ∉ held h
  | Copy va b _ => can_place h va b
  | ZeroPage va len _ => can_place h va (replicate (N.to_nat len) 0)
  | Continue_ va len _ =>
      ∃ i pos, place_at h i (base i) pos va len
  | MarkInstalled i => i ∈ held h ∧ ∃ full, good i full ∧ covered h i full
  | ReleaseChunk i => i ∈ held h
  | BaseWrite off b => ∃ k, Backend.canonical_chunk_hash (backend rt) off = Some k ∧ stored k b
  | SendFirst off page => page_ok off page
  | SpawnWorker offsets fault_offset => offsets ≠ [] ∧ Forall (needed e) offsets ∧ needed e fault_offset
  | SetDrainDone => all_installed h
  | Report (ReportDrainDone _ _ _) => all_installed h
  | _ => True
  end.

Notation twp := (wp ans can) (only parsing).

(** *** Histories that grow *)

Definition extends (P : ∀ X, dreq X → Prop) (h h' : history) : Prop :=
  ∃ t, h' = h ++ t ∧ Forall (fun ev => P _ (ev_req ev)) t.

Definition quiet (X : Type) (q : dreq X) : Prop := no_net X q ∧ no_claims X q.

Lemma extends_refl P h : extends P h h.
Proof. exists []. by rewrite app_nil_r. Qed.

Lemma extends_trans P h1 h2 h3 : extends P h1 h2 → extends P h2 h3 → extends P h1 h3.
Proof.
  intros (t1&->&H1) (t2&->&H2). exists (t1 ++ t2). rewrite app_assoc. split; [done|]. by apply Forall_app.
Qed.

Lemma extends_snoc (P : ∀ X, dreq X → Prop) h X (q : dreq X) x : P X q → extends P h (h ++ [Ev q x]).
Proof. intros Hq. exists [Ev q x]. by repeat constructor. Qed.

Lemma extends_mono (P P' : ∀ X, dreq X → Prop) h h' :
  (∀ X q, P X q → P' X q) → extends P h h' → extends P' h h'.
Proof. intros HP (t&->&Ht). exists t. split; [done|]. eapply Forall_impl; [exact Ht|]. auto. Qed.

Lemma extends_held h h' : extends no_claims h h' → held h' = held h.
Proof. intros (t&->&Ht). by apply held_app. Qed.

Lemma extends_conn h h' : extends no_net h h' → conn h' = conn h.
Proof. intros (t&->&Ht). by apply conn_app. Qed.

Lemma extends_evidence P h h' i : extends P h h' → evidence h i → evidence h' i.
Proof. intros (t&->&_). apply evidence_app. Qed.

Lemma extends_drained P h h' : extends P h h' → drained h → drained h'.
Proof. intros (t&->&_). apply drained_app. Qed.

Lemma extends_lost P h h' : extends P h h' → lost h → lost h'.
Proof. intros (t&->&_). apply lost_app. Qed.

Lemma extends_laid P h h' o x : extends P h h' → laid h o x → laid h' o x.
Proof. intros (t&->&_) (ev&He&Hl). exists ev. split; [by apply elem_of_app; left|done]. Qed.

Lemma quiet_held h h' : extends quiet h h' → held h' = held h.
Proof. intros H. apply extends_held. eapply extends_mono, H. by intros X q []. Qed.

Lemma wp_extends {A} (P : ∀ X, dreq X → Prop) h (p : prog dreq A) Q :
  all_req P p → twp h p Q → twp h p (fun h' a => extends P h h' ∧ Q h' a).
Proof. intros Hp Hw. exact (wp_keeps ans can P h p Q Hp Hw). Qed.

(** *** The image and its mappings *)

Lemma size_pos : size ≠ 0.
Proof. apply (Backend.new_shape base_m sess_m _ built). Qed.

Lemma in_chunk i k : k < size → (i * size + k) / size = i ∧ (i * size + k) mod size = k.
Proof.
  intros Hk. pose proof size_pos. rewrite N.add_comm, N.div_add, N.div_small, N.Div0.mod_add, N.mod_small by done.
  split; lia.
Qed.

Lemma chunk_len_size i : chunk_len i ≤ size.
Proof. unfold chunk_len. lia. Qed.

Lemma locate_spec o m va room :
  locate_offset (mappings rt) o = Some (m, va, room) →
  m ∈ mappings rt ∧ m_offset m ≤ o < m_offset m + m_size m ∧
  va = base_host_virt_addr m + (o - m_offset m) ∧ room = m_size m - (o - m_offset m).
Proof.
  unfold locate_offset. destruct (List.find _ _) as [m'|] eqn:E; [|done]. intros [= -> <- <-].
  apply find_Some_elem in E as [Hm [Hl%N.leb_le Hu%N.ltb_lt]%andb_true_iff]. split_and!; done.
Qed.

Lemma locate_at m o :
  m ∈ mappings rt → m_offset m ≤ o < m_offset m + m_size m →
  addr_of o = Some (base_host_virt_addr m + (o - m_offset m)).
Proof.
  intros Hm Ho. unfold addr_of, locate_offset. destruct (List.find _ _) as [m'|] eqn:E; simpl.
  - apply find_Some_elem in E as [Hm' [Hl%N.leb_le Hu%N.ltb_lt]%andb_true_iff].
    by rewrite (regions_once m m' o).
  - rewrite find_None_elem in E. specialize (E m Hm). apply andb_false_iff in E.
    rewrite N.leb_gt, N.ltb_ge in E. lia.
Qed.

Lemma addr_shift o m va room k :
  locate_offset (mappings rt) o = Some (m, va, room) → k < room → addr_of (o + k) = Some (va + k).
Proof.
  intros (Hm&Ho&->&->)%locate_spec Hk. rewrite (locate_at m) by (done || lia). f_equal. lia.
Qed.

Lemma addr_None o : locate_offset (mappings rt) o = None → addr_of o = None.
Proof. unfold addr_of. by intros ->. Qed.

Lemma addr_Some o : is_Some (addr_of o) → ∃ m, m ∈ mappings rt ∧ m_offset m ≤ o < m_offset m + m_size m.
Proof.
  unfold addr_of. destruct (locate_offset _ o) as [[[m va] room]|] eqn:E; simpl; [|by intros [? ?]].
  intros _. apply locate_spec in E as (?&?&_). by exists m.
Qed.

Lemma fold_Nmin_le l x y : y ∈ x :: l → fold_left N.min l x ≤ y.
Proof.
  revert x y. induction l as [|z l IH]; intros x y Hy; simpl.
  - apply list_elem_of_singleton in Hy as ->. done.
  - apply elem_of_cons in Hy as [->|Hy].
    + etrans; [apply IH; constructor|]. lia.
    + apply elem_of_cons in Hy as [->|Hy]; [|apply IH; by constructor].
      etrans; [apply IH; constructor|]. lia.
Qed.

Lemma next_mapped_spec from :
  locate_offset (mappings rt) from = None →
  match next_mapped_offset rt from with
  | Some next => from < next ∧ ∀ o, from ≤ o < next → addr_of o = None
  | None => ∀ o, from ≤ o → addr_of o = None
  end.
Proof.
  intros Hn. unfold next_mapped_offset. set (f := fun m : GuestRegionUffdMapping => _).
  assert (Hgt : ∀ x, x ∈ omap f (mappings rt) → from < x).
  { intros x (m&Hm&Hf)%list_elem_of_omap. unfold f in Hf.
    destruct (N.ltb_spec from (m_offset m + m_size m)) as [Hlt|]; [|done]. injection Hf as <-.
    destruct (decide (m_offset m ≤ from)) as [Hle|]; [|lia]. exfalso.
    pose proof (locate_at m from Hm (conj Hle Hlt)) as Ha. unfold addr_of in Ha. by rewrite Hn in Ha. }
  assert (Hlow : ∀ o, from ≤ o → is_Some (addr_of o) → ∃ x, x ∈ omap f (mappings rt) ∧ x ≤ o).
  { intros o Ho (m&Hm&Hlo)%addr_Some. exists (N.max (m_offset m) from). split; [|lia].
    apply list_elem_of_omap. exists m. split; [done|]. unfold f. by rewrite (proj2 (N.ltb_lt _ _)) by lia. }
  destruct (omap f (mappings rt)) as [|x l] eqn:E.
  - intros o Ho. apply eq_None_not_Some. intros Hs. destruct (Hlow o Ho Hs) as (x&[]%not_elem_of_nil&_).
  - split.
    + assert (Hin : ∀ l x, fold_left N.min l x ∈ x :: l).
      { clear. induction l as [|z l IH]; intros x; simpl; [by constructor|].
        specialize (IH (N.min x z)). apply elem_of_cons in IH as [->|IH]; [|by do 2 constructor].
        destruct (N.min_spec x z) as [[_ ->]|[_ ->]]; [constructor|do 2 constructor]. }
      apply Hgt, Hin.
    + intros o Ho. apply eq_None_not_Some. intros Hs. destruct (Hlow o ltac:(lia) Hs) as (y&Hy&Hle).
      pose proof (fold_Nmin_le l x y Hy). lia.
Qed.

(** *** Laying a chunk *)

(** Positions [a..b) of the chunk are in place, as far as they are mapped. *)
Definition in_place (h : history) (i : N) (full : list N) (a b : N) : Prop :=
  ∀ k, a ≤ k < b → is_Some (addr_of (i * size + k)) →
    ∃ x, full !! N.to_nat k = Some x ∧ laid h (i * size + k) x.

Definition seg_ok (i : N) (full : list N) (seg : N → N → N → thread unit) : Prop :=
  ∀ h va len pos, 0 < len → place_at h i full pos va len →
    twp h (seg va len pos) (fun h' r => extends quiet h h' ∧
      (r = Ok tt → in_place h' i full pos (pos + len))).

Lemma in_place_ext P h h' i full a b : extends P h h' → in_place h i full a b → in_place h' i full a b.
Proof.
  intros He Hp k Hk Ha. destruct (Hp k Hk Ha) as (x&Hx&Hl). exists x. split; [done|]. by eapply extends_laid.
Qed.

Lemma spanning_spec i full seg h :
  i ∈ held h → good i full → seg_ok i full seg →
  twp h (install_spanning rt (i * size) (N.of_nat (length full)) seg) (fun h' r =>
    extends quiet h h' ∧ (r = Ok tt → in_place h' i full 0 (N.of_nat (length full)))).
Proof.
  intros Hh Hg Hseg. unfold install_spanning. set (T := N.of_nat (length full)).
  assert (H : ∀ fuel k h1, (N.to_nat (T - k) < fuel)%nat → k ≤ T → extends quiet h h1 →
    in_place h1 i full 0 k →
    twp h1 (spanning_loop rt fuel (i * size) (i * size + T) (i * size + k) seg) (fun h' r =>
      extends quiet h h' ∧ (r = Ok tt → in_place h' i full 0 T))).
  { induction fuel as [|fuel IH]; intros k h1 Hf Hk He Hp; [lia|]. cbn [spanning_loop].
    destruct (N.ltb_spec (i * size + k) (i * size + T)) as [Hlt|Hge]; last first.
    { apply wp_ret. split; [done|]. intros _. by replace T with k by lia. }
    destruct (locate_offset (mappings rt) (i * size + k)) as [[[m va] room]|] eqn:El.
    - replace (i * size + T - (i * size + k)) with (T - k) by lia.
      replace (i * size + k - i * size) with k by lia. set (len := N.min (T - k) room).
      assert (0 < len) as Hlen by (apply locate_spec in El as (_&?&_&->); unfold len; lia).
      apply wp_try. eapply wp_mono, (Hseg h1 va len k Hlen).
      + intros h2 [[]|err] [He2 Hok]; [|split; [by eapply extends_trans|done]].
        replace (i * size + k + len) with (i * size + (k + len)) by lia.
        apply IH; [unfold len in *; lia|unfold len; lia|by eapply extends_trans|].
        intros k' Hk' Ha. destruct (decide (k' < k)) as [Hl|Hl].
        * eapply in_place_ext; [exact He2|exact Hp|lia|done].
        * apply (Hok eq_refl); [lia|done].
      + split; [by rewrite (quiet_held h h1)|]. split; [done|]. split; [unfold len; lia|].
        exists m, room. split; [done|]. unfold len. lia.
    - pose proof (next_mapped_spec _ El) as Hn.
      assert (Hskip : ∀ b, (∀ o, i * size + k ≤ o < i * size + b → addr_of o = None) →
        in_place h1 i full 0 b).
      { intros b Hb k' Hk' Ha. destruct (decide (k' < k)); [apply Hp; [lia|done]|].
        rewrite Hb in Ha by lia. by destruct Ha. }
      destruct (next_mapped_offset rt (i * size + k)) as [next|].
      + destruct Hn as [Hgt Hnone]. destruct (N.ltb_spec next (i * size + T)) as [Hnt|Hnt].
        * replace next with (i * size + (next - i * size)) by lia.
          apply IH; [lia|lia|done|]. apply Hskip. intros o Ho. apply Hnone. lia.
        * apply wp_ret. split; [done|]. intros _. apply Hskip. intros o Ho. apply Hnone. lia.
      + apply wp_ret. split; [done|]. intros _. apply Hskip. intros o Ho. apply Hn. lia. }
  specialize (H (S (N.to_nat T)) 0 h). rewrite N.add_0_r in H.
  apply H; [lia|lia|apply extends_refl|]. intros k Hk. lia.
Qed.

(** *** The ways to lay a segment *)

Lemma slice_length (full : list N) pos len :
  pos + len ≤ N.of_nat (length full) → N.of_nat (length (slice full pos len)) = len.
Proof. intros H. unfold slice. rewrite length_take, length_drop. lia. Qed.

Lemma slice_lookup (full : list N) pos len k :
  pos ≤ k < pos + len → slice full pos len !! N.to_nat (k - pos) = full !! N.to_nat k.
Proof.
  intros H. unfold slice. rewrite lookup_take_lt by lia. rewrite lookup_drop. f_equal. lia.
Qed.

Lemma lookup_at (full : list N) k : k < N.of_nat (length full) → ∃ x, full !! N.to_nat k = Some x.
Proof. intros H. apply lookup_lt_is_Some_2. lia. Qed.

(** An event that lays each address of the segment lays the segment. *)
Lemma in_place_event h X (q : dreq X) x i full pos va len :
  place_at h i full pos va len →
  (∀ k y, pos ≤ k < pos + len → addr_of (i * size + k) = Some (va + (k - pos)) →
     full !! N.to_nat k = Some y → lays (Ev q x) (i * size + k) y) →
  in_place (h ++ [Ev q x]) i full pos (pos + len).
Proof.
  intros (_&_&Hle&m&room&Hl&Hr) Hlay k Hk _.
  destruct (lookup_at full k ltac:(lia)) as [y Hy]. exists y. split; [done|].
  exists (Ev q x). split; [by apply elem_of_app; right; constructor|].
  apply Hlay; [done| |done]. replace (i * size + k) with (i * size + pos + (k - pos)) by lia.
  apply (addr_shift _ m va room); [done|lia].
Qed.

Lemma place_can h i full pos va len :
  place_at h i full pos va len → can_place h va (slice full pos len).
Proof.
  intros H. pose proof H as (_&_&Hle&_). exists i, full, pos. by rewrite slice_length.
Qed.

Lemma copy_seg_ok i full wake :
  seg_ok i full (fun va len pos => uffd (Copy va (slice full pos len) wake)).
Proof.
  intros h va len pos Hlen Hp. apply wp_ask_err; [by apply place_can in Hp|].
  intros [[]|[]] _; (split; [by apply extends_snoc|]); [intros _|done].
  apply (in_place_event h _ _ _ i full pos va); [done|]. intros k y Hk Ha Hy.
  exists (va + (k - pos)). split; [done|]. simpl. split; [done|]. split; [lia|].
  replace (va + (k - pos) - va) with (k - pos) by lia. by rewrite slice_lookup.
Qed.

Lemma zeros_slice (n : nat) pos len :
  pos + len ≤ N.of_nat n → slice (replicate n 0) pos len = replicate (N.to_nat len) 0.
Proof. intros H. unfold slice. rewrite drop_replicate, take_replicate. f_equal. lia. Qed.

Section zeros.

Context (i : N) (n : nat).
Notation full := (replicate n 0).

Lemma zero_place h pos va len :
  place_at h i full pos va len → can_place h va (replicate (N.to_nat len) 0).
Proof.
  intros H. rewrite <- (zeros_slice n pos len); [by eapply place_can|].
  destruct H as (_&_&Hle&_). by rewrite length_replicate in Hle.
Qed.

Lemma zero_copy_spec h pos va len wake :
  place_at h i full pos va len →
  twp h (uffd (Copy va (replicate (N.to_nat len) 0) wake)) (fun h' r => extends quiet h h' ∧
    (r = Ok tt → in_place h' i full pos (pos + len))).
Proof.
  intros Hp. apply wp_ask_err; [by eapply zero_place|]. intros [[]|[]] _; (split; [by apply extends_snoc|]); [intros _|done].
  apply (in_place_event h _ _ _ i full pos va); [done|]. intros k y Hk Ha [-> Hk']%lookup_replicate.
  exists (va + (k - pos)). split; [done|]. simpl. split; [done|]. split; [lia|].
  apply lookup_replicate. lia.
Qed.

Lemma zeropage_lays h pos va len wake :
  place_at h i full pos va len →
  in_place (h ++ [Ev (ZeroPage va len wake) (Ok tt)]) i full pos (pos + len).
Proof.
  intros Hp. apply (in_place_event h _ _ _ i full pos va); [done|].
  intros k y Hk Ha [-> Hk']%lookup_replicate. exists (va + (k - pos)). split; [done|]. simpl. lia.
Qed.

Lemma zero_seg_ok wake : seg_ok i full (fun va len _ => uffd (ZeroPage va len wake)).
Proof.
  intros h va len pos Hlen Hp. apply wp_ask_err; [by eapply zero_place|].
  intros [[]|[]] _; (split; [by apply extends_snoc|]); [intros _|done..]. by apply zeropage_lays.
Qed.

Lemma place_ext h h' full' pos va len :
  extends quiet h h' → place_at h i full' pos va len → place_at h' i full' pos va len.
Proof. intros He (Hh&H). split; [by rewrite (quiet_held h h')|done]. Qed.

Lemma zero_segment_ok wake : seg_ok i full (fun va len _ => zero_segment wake va len).
Proof.
  intros h va len pos Hlen Hp. unfold zero_segment.
  assert (Hcopy : ∀ h1, extends quiet h h1 →
    twp h1 (uffd (Copy va (replicate (N.to_nat len) 0) wake)) (fun h' r => extends quiet h h' ∧
      (r = Ok tt → in_place h' i full pos (pos + len)))).
  { intros h1 He. eapply wp_mono, zero_copy_spec, place_ext, Hp; [|done].
    intros h' r [He' Hr]. split; [by eapply extends_trans|done]. }
  apply wp_bind, wp_ask; [done|]. intros ok _.
  assert (He1 : extends quiet h (h ++ [Ev ZeropageOk ok])) by (by apply extends_snoc).
  set (h1 := h ++ _) in *. clearbody h1. destruct ok; [|by apply Hcopy].
  pose proof (place_ext h h1 _ _ _ _ He1 Hp) as Hp1.
  apply wp_bind, wp_ask; [by eapply zero_place|]. intros [[]|[]] _.
  - apply wp_ret. split; [by eapply extends_trans, extends_snoc|]. intros _. by apply zeropage_lays.
  - apply wp_bind, wp_ask; [done|]. intros [] _. apply Hcopy.
    eapply extends_trans; [exact He1|]. eapply extends_trans; by apply extends_snoc.
  - apply wp_ret. split; [by eapply extends_trans, extends_snoc|done].
Qed.

End zeros.

Lemma continue_seg_ok i wake :
  i < chunks →
  seg_ok i (base i) (fun va len _ => continue_loop rt (S (N.to_nat len)) va len 0 wake).
Proof.
  intros Hi h va len pos Hlen Hp.
  assert (H : ∀ fuel d h1, (N.to_nat (len - d) < fuel)%nat → extends quiet h h1 →
    in_place h1 i (base i) pos (pos + N.min d len) →
    twp h1 (continue_loop rt fuel va len d wake) (fun h' r => extends quiet h h' ∧
      (r = Ok tt → in_place h' i (base i) pos (pos + len)))).
  { induction fuel as [|fuel IH]; intros d h1 Hf He Hin; [lia|]. cbn [continue_loop].
    destruct (N.ltb_spec d len) as [Hd|Hd]; last first.
    { apply wp_ret. split; [done|]. intros _. by replace len with (N.min d len) by lia. }
    pose proof (place_ext i h h1 _ _ _ _ He Hp) as (Hh&Hg&Hle&m&room&Hl&Hr).
    assert (Hp' : place_at h1 i (base i) (pos + d) (va + d) (len - d)).
    { split; [done|]. split; [done|]. split; [lia|].
      apply locate_spec in Hl as (Hm&Ho&Hva&Hroom). exists m, (room - d). split; [|lia].
      pose proof (locate_at m (i * size + (pos + d)) Hm ltac:(lia)) as Ha. unfold addr_of in Ha.
      destruct (locate_offset (mappings rt) (i * size + (pos + d))) as [[[m' va'] room']|] eqn:E; [|done].
      apply locate_spec in E as (Hm'&Ho'&->&->).
      assert (m' = m) as -> by (eapply regions_once; [done|done|exact Ho'|lia]).
      do 2 f_equal; [f_equal|]; lia. }
    assert (Hstep : ∀ x w, (∀ k y, pos + d ≤ k < pos + d + N.min w (len - d) →
        addr_of (i * size + k) = Some (va + (k - pos)) → base i !! N.to_nat k = Some y →
        lays (Ev (Continue_ (va + d) (len - d) wake) x) (i * size + k) y) →
      in_place (h1 ++ [Ev (Continue_ (va + d) (len - d) wake) x]) i (base i) pos (pos + N.min (d + w) len)).
    { intros x w Hlay k Hk Ha. destruct (decide (k < pos + d)) as [Hkd|Hkd].
      - eapply in_place_ext; [by apply (extends_snoc quiet)|exact Hin|lia|done].
      - destruct (lookup_at (base i) k ltac:(lia)) as [y Hy]. exists y. split; [done|].
        eexists. split; [by apply elem_of_app; right; constructor|]. apply Hlay; [lia| |done].
        replace (i * size + k) with (i * size + pos + (k - pos)) by lia.
        apply (addr_shift _ m va room); [done|lia]. }
    assert (Hbase : ∀ k, pos ≤ k < pos + len → (i * size + k) / size = i ∧ (i * size + k) mod size = k).
    { intros k Hk. apply in_chunk. destruct Hg as [Hlen' _]. pose proof (chunk_len_size i). lia. }
    apply wp_bind, wp_ask; [by exists i, (pos + d)|]. intros [mapped|[]] Hans.
    - simpl in Hans. rewrite (proj2 (N.eqb_neq mapped 0)) by lia. apply IH; [lia|by eapply extends_trans, extends_snoc|].
      apply Hstep. intros k y Hk Ha Hy. destruct (Hbase k ltac:(lia)) as [E1 E2].
      eexists. split; [exact Ha|]. cbn. rewrite E1, E2. split; [lia|done].
    - apply IH; [pose proof pages; lia|by eapply extends_trans, extends_snoc|].
      apply Hstep. intros k y Hk Ha Hy. destruct (Hbase k ltac:(lia)) as [E1 E2].
      eexists. split; [exact Ha|]. cbn. rewrite E1, E2. split; [lia|done].
    - apply wp_ret. split; [by eapply extends_trans, extends_snoc|done]. }
  apply H; [lia|apply extends_refl|]. intros k Hk. lia.
Qed.

(** *** Claims *)

Lemma no_net_snoc h X (q : dreq X) x : on_net X q = false → extends no_net h (h ++ [Ev q x]).
Proof. intros. by apply extends_snoc. Qed.

Lemma quiet_no_net h h' : extends quiet h h' → extends no_net h h'.
Proof. apply extends_mono. by intros X q []. Qed.

Lemma evidence_last h ev i : shows i ev = true → evidence (h ++ [ev]) i.
Proof. intros H. exists ev. split; [by apply elem_of_app; right; constructor|done]. Qed.

Ltac shown := apply evidence_last; cbn; rewrite ?bool_decide_eq_true_2 by done; done.

Lemma claim_spec fuel i h :
  i < chunks → i ∉ held h →
  twp h (claim_for_install fuel i) (fun h' cl => extends no_net h h' ∧
    match cl with
    | Claimed => held h' = {[i]} ∪ held h ∧ ¬ evidence h i ∧ (sealed i → ¬ drained h)
    | Done => held h' = held h ∧ evidence h' i
    | InFlight => False
    end).
Proof.
  intros Hi. revert h. induction fuel as [|fuel IH]; intros h Hn; cbn [claim_for_install].
  { apply wp_bind, wp_ask; [done|]. by intros []. }
  apply wp_bind, wp_ask; [done|]. intros cl Hans. destruct cl.
  - apply wp_ret. split; [by apply no_net_snoc|]. rewrite held_snoc. simpl. split; [done|]. by apply Hans.
  - apply wp_bind, wp_ask; [done|]. intros st _.
    set (h1 := (h ++ [Ev (ClaimChunk i) InFlight]) ++ [Ev (WaitSettled i) st]).
    assert (He : extends no_net h h1) by (eapply extends_trans; by apply no_net_snoc).
    assert (Hh : held h1 = held h) by (unfold h1; by rewrite !held_snoc).
    destruct st.
    2: { eapply wp_mono, IH; [|by rewrite Hh]. intros h' cl [He' Hc].
         split; [by eapply extends_trans|]. rewrite Hh in Hc. destruct cl; [|done|done].
         destruct Hc as (?&Hne&Hnd). split; [done|]. split.
         - intros Hev. apply Hne. by eapply extends_evidence.
         - intros Hs Hd. apply (Hnd Hs). by eapply extends_drained. }
    + eapply wp_mono, IH; [|by rewrite Hh]. intros h' cl [He' Hc].
      split; [by eapply extends_trans|]. rewrite Hh in Hc. destruct cl; [|done|done].
      destruct Hc as (?&Hne&Hnd). split; [done|]. split.
      * intros Hev. apply Hne. by eapply extends_evidence.
      * intros Hs Hd. apply (Hnd Hs). by eapply extends_drained.
    + apply wp_ret. split; [done|]. split; [done|]. unfold h1. shown.
  - apply wp_ret. split; [by apply no_net_snoc|]. rewrite held_snoc. split; [done|].
    shown.
Qed.

(** What a chunk's content may be, given what the thread knows: right, or the
    claim will not be granted. *)
Definition fresh_ok (h : history) (i : N) (full : list N) : Prop :=
  good i full ∨ evidence h i ∨ (sealed i ∧ drained h).

Lemma fresh_good h i full :
  fresh_ok h i full → ¬ evidence h i → (sealed i → ¬ drained h) → good i full.
Proof. intros [|[|[? ?]]] ? Hd; [done|done|]. by destruct (Hd H). Qed.

Lemma fresh_ext P h h' i full : extends P h h' → fresh_ok h i full → fresh_ok h' i full.
Proof.
  intros He [|[|[? ?]]]; [by left|right; left; by eapply extends_evidence|].
  right; right. split; [done|]. by eapply extends_drained.
Qed.

(** Laying chunk [i]: success means the right content is in place. *)
Definition lays_chunk (h : history) (i : N) (p : thread unit) : Prop :=
  twp h p (fun h' r => extends quiet h h' ∧
    (r = Ok tt → ∃ full, good i full ∧ in_place h' i full 0 (N.of_nat (length full)))).

Lemma spanning_lays i full seg h :
  i ∈ held h → good i full → seg_ok i full seg →
  lays_chunk h i (install_spanning rt (i * size) (N.of_nat (length full)) seg).
Proof.
  intros Hh Hg Hs. eapply wp_mono, spanning_spec; [|done..]. intros h' r [He Hr]. split; [done|].
  intros Hok. exists full. auto.
Qed.

Lemma settled_spec i p h :
  i ∈ held h → lays_chunk h i p →
  twp h (settled i p) (fun h' r => extends no_net h h' ∧ held h' = held h ∖ {[i]} ∧
    ∀ b, r = Ok b → evidence h' i).
Proof.
  intros Hh Hp. unfold settled. apply wp_bind. eapply wp_mono, Hp. cbv beta.
  intros h1 r [He Hr]. pose proof (quiet_held h h1 He) as Hh1. unfold settle_install.
  destruct r as [[]|err]; apply wp_bind, wp_ask.
  - split; [by rewrite Hh1|]. destruct (Hr eq_refl) as (full&Hg&Hin). exists full. split; [done|].
    intros k Hk Ha. apply Hin; [|done]. destruct Hg as [-> _]. lia.
  - intros [] _. apply wp_ret. split; [|split].
    + eapply extends_trans; [by apply quiet_no_net|by apply no_net_snoc].
    + rewrite held_snoc. simpl. by rewrite Hh1.
    + intros b _. shown.
  - simpl. by rewrite Hh1.
  - intros [] _. apply wp_ret. split; [|split; [|done]].
    + eapply extends_trans; [by apply quiet_no_net|by apply no_net_snoc].
    + rewrite held_snoc. simpl. by rewrite Hh1.
Qed.

(** An installation of chunk [i]: afterwards the thread holds what it held, and
    success shows the chunk installed. *)
Definition installs (h : history) (i : N) (p : thread bool) : Prop :=
  twp h p (fun h' r => extends no_net h h' ∧ held h' = held h ∧ ∀ b, r = Ok b → evidence h' i).

Lemma claiming_spec fuel i p h :
  i < chunks → i ∉ held h →
  (∀ h1, i ∈ held h1 → ¬ evidence h i → (sealed i → ¬ drained h) →
     twp h1 p (fun h' r => extends no_net h1 h' ∧ held h' = held h1 ∖ {[i]} ∧ ∀ b, r = Ok b → evidence h' i)) →
  installs h i (claiming rt fuel (i * size) p).
Proof.
  intros Hi Hn Hp. unfold installs, claiming. rewrite N.div_mul by apply size_pos.
  apply wp_bind. eapply wp_mono, claim_spec; [|done|done]. cbv beta.
  intros h1 cl [He Hc]. destruct cl; [|done|].
  - destruct Hc as (Hh&Hne&Hnd). eapply wp_mono, Hp; [|rewrite Hh; set_solver|done|done].
    intros h2 r (He2&Hh2&Hr). split; [by eapply extends_trans|]. split; [|done].
    rewrite Hh2, Hh. set_solver.
  - apply wp_ret. destruct Hc as [Hh Hev]. split; [done|]. split; [done|]. by intros b _.
Qed.

(** *** The installations *)

Lemma claimed_chunk_spec i b wake h :
  i ∈ held h → good i b →
  twp h (install_claimed_chunk_at rt (i * size) b wake) (fun h' r => extends no_net h h' ∧
    held h' = held h ∖ {[i]} ∧ ∀ x, r = Ok x → evidence h' i).
Proof.
  intros Hh Hg. unfold install_claimed_chunk_at. rewrite N.div_mul by apply size_pos.
  replace (N.min size (N.of_nat (length b))) with (N.of_nat (length b)).
  - apply settled_spec; [done|]. apply spanning_lays; [done|done|apply copy_seg_ok].
  - destruct Hg as [Hl _]. pose proof (chunk_len_size i). lia.
Qed.

Definition zeros (i : N) : list N := replicate (N.to_nat (chunk_len i)) 0.

Lemma zeros_len i : N.of_nat (length (zeros i)) = N.min size (total - i * size).
Proof. unfold zeros. rewrite length_replicate. unfold chunk_len. lia. Qed.

Lemma claimed_zero_spec i wake h :
  i ∈ held h → good i (zeros i) →
  twp h (install_claimed_zero_at rt (i * size) wake) (fun h' r => extends no_net h h' ∧
    held h' = held h ∖ {[i]} ∧ ∀ x, r = Ok x → evidence h' i).
Proof.
  intros Hh Hg. unfold install_claimed_zero_at. rewrite N.div_mul by apply size_pos.
  rewrite <- zeros_len. apply settled_spec; [done|].
  apply spanning_lays; [done|done|apply zero_seg_ok].
Qed.

Lemma claimed_zero_substrate_spec i wake h :
  i ∈ held h → good i (zeros i) →
  twp h (install_claimed_zero_substrate rt (i * size) wake) (fun h' r => extends no_net h h' ∧
    held h' = held h ∖ {[i]} ∧ ∀ x, r = Ok x → evidence h' i).
Proof.
  intros Hh Hg. unfold install_claimed_zero_substrate. rewrite N.div_mul by apply size_pos.
  rewrite <- zeros_len. apply settled_spec; [done|].
  apply spanning_lays; [done|done|apply zero_segment_ok].
Qed.

Lemma install_chunk_spec fuel i b wake h :
  i < chunks → i ∉ held h → fresh_ok h i b → installs h i (install_chunk_at rt fuel (i * size) b wake).
Proof.
  intros Hi Hn Hf. apply claiming_spec; [done..|]. intros. apply claimed_chunk_spec; [done|by eapply fresh_good].
Qed.

Lemma install_zero_spec fuel i wake h :
  i < chunks → i ∉ held h → fresh_ok h i (zeros i) → installs h i (install_zero rt fuel (i * size) wake).
Proof.
  intros Hi Hn Hf. unfold install_zero. destruct (base_shm rt); (apply claiming_spec; [done..|]); intros.
  - apply claimed_zero_substrate_spec; [done|by eapply fresh_good].
  - apply claimed_zero_spec; [done|by eapply fresh_good].
Qed.

(** *** The chunk tiers *)

Definition tier (X : Type) (q : dreq X) : Prop :=
  match q with CacheRead _ | Populate _ | StoreGet _ => True | _ => False end.

Lemma tier_quiet X (q : dreq X) : tier X q → quiet X q.
Proof. by destruct q. Qed.

Lemma fetch_spec k h :
  twp h (fetch_chunk k) (fun h' r => extends quiet h h' ∧ ∀ b, r = Ok b → stored k b).
Proof.
  apply (wp_extends quiet).
  - unfold fetch_chunk. requests; done.
  - unfold fetch_chunk. apply wp_bind, wp_ask; [done|]. intros [[b|]|err] Ha; simpl in Ha.
    + apply wp_ret. by intros ? [= <-].
    + apply wp_bind, wp_ask; [done|]. intros [[b|[]]|] Hp; simpl in Hp.
      * apply wp_ret. by intros ? [= <-].
      * apply wp_ask_err; [done|]. intros [b|err] Hs; [by intros ? [= <-]|done].
      * by apply wp_ret.
      * apply wp_ask_err; [done|]. intros [b|err] Hs; [by intros ? [= <-]|done].
    + by apply wp_ret.
Qed.

Lemma stored_good i h b :
  SealBitmap.get (peer_seal c) i = false → Backend.session_hash (backend rt) i = Some h → stored h b → good i b.
Proof.
  intros Hs Hh Hb. split; [by apply (stored_ok h b Hb)|]. by rewrite Hs, Hh.
Qed.

(** *** Installing what the manifest says *)

(** The thread may install chunk [i] from the manifest: it is not sealed, or the
    claim will not be granted. *)
Definition may_manifest (h : history) (i : N) : Prop := sealed i → evidence h i ∨ drained h.

Lemma may_manifest_ext P h h' i : extends P h h' → may_manifest h i → may_manifest h' i.
Proof.
  intros He Hm Hs. destruct (Hm Hs); [left; by eapply extends_evidence|right; by eapply extends_drained].
Qed.

Lemma unsealed h i :
  may_manifest h i → ¬ evidence h i → (sealed i → ¬ drained h) → SealBitmap.get (peer_seal c) i = false.
Proof.
  intros Hm He Hd. apply not_true_is_false. intros Hs. destruct (Hm Hs); [done|]. by apply (Hd Hs).
Qed.

Lemma manifest_fresh h i full :
  may_manifest h i → (SealBitmap.get (peer_seal c) i = false → good i full) → fresh_ok h i full.
Proof.
  intros Hm Hg. destruct (SealBitmap.get (peer_seal c) i) eqn:Hs; [|by left; apply Hg].
  right. destruct (Hm Hs); [by left|by right].
Qed.

Lemma installs_after {A} (p : thread A) (f : A → thread bool) (R : A → Prop) h i :
  twp h p (fun h' r => extends quiet h h' ∧ ∀ b, r = Ok b → R b) →
  (∀ h1 b, extends quiet h h1 → R b → installs h1 i (f b)) →
  installs h i (do! b := p in f b).
Proof.
  intros Hp Hf. apply wp_try. eapply wp_mono, Hp. cbv beta. intros h1 r [He Hr].
  pose proof (quiet_held h h1 He) as Hh. destruct r as [b|err].
  - eapply wp_mono, Hf; [|done|by apply Hr]. intros h2 r2 (He2&Hh2&Hr2).
    split; [eapply extends_trans; [by apply quiet_no_net|done]|]. split; [congruence|done].
  - split; [by apply quiet_no_net|]. split; [done|]. done.
Qed.

Lemma manifest_chunk fuel i k wake h :
  i ∉ held h → may_manifest h i → Backend.session_hash (backend rt) i = Some k →
  installs h i (do! b := fetch_chunk k in install_chunk_at rt fuel (i * size) b wake).
Proof.
  intros Hn Hm Hk. pose proof (Backend.session_hash_bound _ _ _ _ _ built Hk) as Hi.
  eapply installs_after; [apply fetch_spec|]. intros h1 b He Hb.
  apply install_chunk_spec; [done|by rewrite (quiet_held h h1)|].
  apply manifest_fresh; [by eapply may_manifest_ext|]. intros Hs. by eapply stored_good.
Qed.

Lemma manifest_zero fuel i wake h :
  i < chunks → i ∉ held h → may_manifest h i → Backend.session_hash (backend rt) i = None →
  installs h i (install_zero rt fuel (i * size) wake).
Proof.
  intros Hi Hn Hm Hk. apply install_zero_spec; [done|done|]. apply manifest_fresh; [done|]. intros Hs.
  split; [by rewrite zeros_len|]. rewrite Hs, Hk. unfold zeros. by rewrite length_replicate.
Qed.

(** The base file holds the chunk when the population succeeds. *)
Lemma populate_lays i k wake h :
  i ∈ held h → SealBitmap.get (peer_seal c) i = false →
  Backend.session_hash (backend rt) i = Some k →
  Backend.canonical_chunk_hash (backend rt) (i * size) = Some k →
  lays_chunk h i (populate_and_continue rt (i * size) (N.min size (total - i * size)) k wake).
Proof.
  intros Hh Hs Hk Hc. pose proof (Backend.session_hash_bound _ _ _ _ _ built Hk) as Hi.
  assert (Hinst : ∀ h2, extends quiet h h2 → stored k (base i) →
    twp h2 (install_spanning rt (i * size) (N.min size (total - i * size))
      (fun va len _ => continue_loop rt (S (N.to_nat len)) va len 0 wake)) (fun h' r => extends quiet h h' ∧
        (r = Ok tt → ∃ full, good i full ∧ in_place h' i full 0 (N.of_nat (length full))))).
  { intros h2 He Hb. assert (Hg : good i (base i)) by (by eapply stored_good).
    change (N.min size (total - i * size)) with (chunk_len i). pose proof Hg as [<- _].
    eapply wp_mono, spanning_lays; [|by rewrite (quiet_held h h2)|done|by apply continue_seg_ok].
    intros h3 r [He3 Hr]. split; [by eapply extends_trans|done]. }
  unfold lays_chunk, populate_and_continue. apply wp_bind, wp_ask; [done|]. intros there Ha.
  cbn in Ha. rewrite N.div_mul in Ha by apply size_pos. set (h1 := h ++ _).
  assert (He1 : extends quiet h h1) by (by apply extends_snoc). clearbody h1.
  apply wp_try. destruct there; [apply wp_ret; apply Hinst; auto|].
  apply wp_try. eapply wp_mono, fetch_spec. cbv beta. intros h3 [b|err] [He3 Hb].
  - assert (He : extends quiet h h3) by (by eapply extends_trans).
    apply wp_ask_err; [exists k; auto|]. intros w Hw. cbn in Hw. rewrite N.div_mul in Hw by apply size_pos.
    assert (He4 : extends quiet h (h3 ++ [Ev (BaseWrite (i * size) b) w])).
    { eapply extends_trans; [exact He|by apply extends_snoc]. }
    destruct w as [[]|[]]; [apply Hinst; auto|by split].
  - split; [by eapply extends_trans|done].
Qed.

Lemma manifest_shared fuel i k wake h :
  i ∉ held h → may_manifest h i → Backend.session_hash (backend rt) i = Some k →
  Backend.canonical_chunk_hash (backend rt) (i * size) = Some k →
  installs h i (install_canonical_shared rt fuel (i * size) k wake).
Proof.
  intros Hn Hm Hk Hc. pose proof (Backend.session_hash_bound _ _ _ _ _ built Hk) as Hi.
  apply claiming_spec; [done|done|]. intros h1 Hh1 Hne Hnd. rewrite N.div_mul by apply size_pos.
  apply settled_spec; [done|]. apply populate_lays; [done| |done|done]. by eapply unsealed.
Qed.

(** *** Pages of the peer *)

Lemma needed_chunk off :
  needed e off → ∃ i, off = i * size ∧ off / size = i ∧ i < chunks ∧ sealed i.
Proof.
  destruct conf_seal as (Hseal&_&_&Hcs&Htot&_). intros (Ha&Ht&Hg).
  rewrite Hcs, Htot in *. rewrite <- Hseal in Hg. pose proof size_pos as Hz.
  exists (off / size). pose proof (N.div_mod off size Hz). split; [lia|]. split; [done|].
  split; [|done]. apply ceil_lt; [done|]. lia.
Qed.

Lemma sealed_chunk i : sealed i → i < chunks ∧ needed e (i * size).
Proof.
  destruct conf_seal as (Hseal&_&_&Hcs&Htot&Hcount). intros Hs.
  assert (Hi : i < chunks).
  { unfold chunks. rewrite <- Hcount. apply N.nle_gt. intros Hle.
    rewrite SealBitmap.get_bit in Hs. apply andb_true_iff in Hs as [Hs%N.ltb_lt _]. lia. }
  split; [done|]. pose proof size_pos as Hz. unfold needed. rewrite Hcs, Htot, <- Hseal.
  rewrite N.Div0.mod_mul, N.div_mul by done. split; [done|]. split; [|done]. by apply ceil_lt in Hi.
Qed.

Lemma guest_chunk_len i src :
  guest_chunk mem e (i * size) = Some src → N.of_nat (length src) = chunk_len i.
Proof.
  destruct conf_seal as (_&_&_&Hcs&Htot&_). unfold guest_chunk, chunk_len. rewrite Hcs, Htot.
  intros Hm%length_mapM. rewrite <- Hm. unfold range. rewrite length_fmap, length_seq. lia.
Qed.

Lemma all_zero_eq b : all_zero b = true → b = replicate (length b) 0.
Proof.
  intros H. induction b as [|x b IH]; [done|]. simpl in *. apply andb_true_iff in H as [->%N.eqb_eq H].
  f_equal. by apply IH.
Qed.

Lemma answer_page p rq off m page :
  answer_ok sha256 wire_hash compress_prepend_size mem e p rq off m →
  decode_page decompress_size_prepended wire_hash m rq off = Ok page → page_ok off page.
Proof.
  unfold page_ok. destruct m as [| |rq' off' wire hash lz4|rq' off'|rq' off' h|[rq'|] msg]; simpl; try done.
  - intros (->&->&Hn&->&b&Hg&Hz&->). rewrite !N.eqb_refl. simpl. rewrite bool_decide_true by done.
    simpl. split; [done|]. exists b. split; [done|]. unfold decompress_page in *.
    destruct lz4; simpl in *; [rewrite lz4_roundtrip in *|]; by simplify_eq.
  - intros (->&->&Hn&b&Hg&Hz). rewrite !N.eqb_refl. intros [= <-]. eauto.
  - intros (->&->&Hn&_&Hd&b&Hg&_&Hb). rewrite !N.eqb_refl. intros [= <-]. split; [done|].
    exists b. split; [done|]. split; [|done]. apply same_manifest.
    destruct conf_seal as (_&_&_&<-&_). done.
  - intros [= ->]. by rewrite N.eqb_refl.
Qed.

Lemma page_good off page (full : list N) i :
  page_ok off page → off = i * size →
  match page with
  | PageBytes b => full = b
  | PageZero => full = zeros i
  | PageAlt h => stored h full
  end → good i full.
Proof.
  intros (Hn&src&Hg&Hp) -> Hf. destruct (needed_chunk _ Hn) as (j&Hj&Hj'&_&Hs).
  rewrite N.div_mul in Hj' by apply size_pos. subst j.
  pose proof (guest_chunk_len i src Hg) as Hl. destruct page as [b| |h].
  - subst. split; [done|]. rewrite Hs. eauto.
  - subst full. split; [by rewrite zeros_len|]. rewrite Hs. exists src. split; [done|]. left.
    rewrite (all_zero_eq src Hp). unfold zeros. f_equal. lia.
  - destruct Hp as [Hh Hsha]. rewrite N.div_mul in Hh by apply size_pos.
    destruct (stored_ok h full Hf) as [Hsha' Hlen]. split; [by apply Hlen|]. rewrite Hs.
    exists src. split; [done|]. right. congruence.
Qed.

(** The content of a prepared page. *)
Definition prepared (i : N) (b : option (list N)) : list N := match b with Some b => b | None => zeros i end.

Lemma prepare_spec off page i h :
  page_ok off page → off = i * size →
  twp h (prepare_peer_page rt off page) (fun h' r => extends quiet h h' ∧
    ∀ b, r = Ok b → good i (prepared i b)).
Proof.
  intros Hp Hoff. pose proof Hp as (Hn&_). unfold prepare_peer_page. destruct page as [b| |k].
  - apply wp_ret. split; [apply extends_refl|]. intros ? [= <-]. by eapply page_good.
  - apply wp_ret. split; [apply extends_refl|]. intros ? [= <-]. by eapply page_good.
  - pose proof Hp as (_&src&_&Hh&_).
    destruct (Backend.resolve (backend rt) off) as [r|] eqn:Er.
    + apply (Backend.resolve_hash base_m sess_m) in Er as (_&Hr&_); [|exact built].
      rewrite Hr, Hh. apply wp_try. eapply wp_mono, fetch_spec. cbv beta. intros h1 [b|err] [He Hb]; [|done].
      apply wp_ret. split; [done|]. intros ? [= <-]. simpl. eapply page_good; [done|done|]. by apply Hb.
    + apply wp_ret. split; [apply extends_refl|done].
Qed.

Lemma claimed_peer_page_spec i b h :
  i ∈ held h → good i (prepared i b) →
  twp h (install_claimed_peer_page rt (i * size) b) (fun h' r => extends no_net h h' ∧
    held h' = held h ∖ {[i]} ∧ ∀ x, r = Ok x → evidence h' i).
Proof.
  intros Hh Hg. unfold install_claimed_peer_page. destruct b as [b|]; [by apply claimed_chunk_spec|].
  destruct (base_shm rt); [by apply claimed_zero_substrate_spec|by apply claimed_zero_spec].
Qed.

Lemma peer_page_spec fuel i page h :
  i ∉ held h → page_ok (i * size) page → installs h i (install_peer_page rt fuel (i * size) page).
Proof.
  intros Hn Hp. pose proof Hp as (Hneed&_). destruct (needed_chunk _ Hneed) as (j&Hj&Hj'&Hi&Hs).
  rewrite N.div_mul in Hj' by apply size_pos. subst j.
  eapply installs_after; [by apply prepare_spec|]. intros h1 b He Hg. simpl in Hg.
  apply claiming_spec; [done|by rewrite (quiet_held h h1)|]. intros. by apply claimed_peer_page_spec.
Qed.

(** ** The connection *)

Notation Answers := (Answers sha256 wire_hash compress_prepend_size mem e).
Notation answer_ok := (answer_ok sha256 wire_hash compress_prepend_size mem e).

(** The connection is open for [p] and the answers still to come are those to
    [its]. *)
Definition expects (p : ConnPurpose) (its : list item) (h : history) : Prop :=
  ∃ id tok reqs outs, conn h = (Hello PROTO_VERSION id tok p :: reqs, greeting e ++ outs) ∧
    ∀ ext ms, Answers p ((item_of <$> reqs) ++ ext) (outs ++ ms) → Answers p (its ++ ext) ms.

Lemma expects_ext p its h h' : extends no_net h h' → expects p its h → expects p its h'.
Proof. intros He (id&tok&reqs&outs&Hc&H). exists id, tok, reqs, outs. by rewrite (extends_conn h h' He). Qed.

Lemma expects_write p its h m :
  expects p its h → expects p (its ++ [item_of m]) (h ++ [Ev (DWrite m) (Ok tt)]).
Proof.
  intros (id&tok&reqs&outs&Hc&H). exists id, tok, (reqs ++ [m]), outs. rewrite conn_snoc, Hc. split; [done|].
  intros ext ms. rewrite fmap_app, <- !app_assoc. apply H.
Qed.

(** What is read is the next answer. *)
Lemma expects_read p its h m :
  expects p its h → speaks h m →
  ∃ ms, Answers p its (m :: ms) ∧
    ∀ its', (∀ ext ms, Answers p (its ++ ext) (m :: ms) → Answers p (its' ++ ext) ms) →
      expects p its' (h ++ [Ev DRead (Ok m)]).
Proof.
  intros (id&tok&reqs&outs&Hc&H) [[Hr _]|(id'&tok'&p'&reqs'&outs'&Hw&Hp&Ha)]; rewrite Hc in *; cbn [fst snd] in *.
  { done. }
  injection Hw as <- <- <- <-. rewrite <- app_assoc in Hp. apply prefix_app_inv in Hp as [ms ->].
  exists ms. split.
  - specialize (H [] (m :: ms)). rewrite !app_nil_r in H. apply H. by rewrite <- app_assoc in Ha.
  - intros its' Hi. exists id, tok, reqs, (outs ++ [m]). rewrite conn_snoc, Hc. cbn [conn_step ev_req ev_ans fst snd]. split.
    + by rewrite <- app_assoc.
    + intros ext ms' Ha'. apply Hi, H. by rewrite <- app_assoc in Ha'.
Qed.

Lemma read_one p rq off its h m :
  expects p (One rq off :: its) h → speaks h m →
  answer_ok p rq off m ∧ expects p its (h ++ [Ev DRead (Ok m)]).
Proof.
  intros He Hm. destruct (expects_read _ _ _ _ He Hm) as (ms&Ha&Hn). split; [by inversion Ha|].
  apply Hn. intros ext ms' Ha'. by inversion Ha'.
Qed.

(** A window under way, or one the server refuses. *)
Definition window_item (rq : N) (offs : list N) (it : item) : Prop :=
  it = Win rq offs ∨ (it = Invalid rq ∧ offs ≠ []).

Lemma read_win rq off offs it h m :
  window_item rq (off :: offs) it → expects Fault [it] h → speaks h m →
  answer_ok Fault rq off m ∧
  (is_error m = false → it = Win rq (off :: offs) ∧ expects Fault [Win rq offs] (h ++ [Ev DRead (Ok m)])).
Proof.
  intros Hit He Hm. destruct (expects_read _ _ _ _ He Hm) as (ms&Ha&Hn).
  destruct Hit as [->|[-> _]]; [|inversion Ha; subst; by split].
  assert (answer_ok Fault rq off m) by (by inversion Ha). split; [done|]. intros Hok. split; [done|].
  apply Hn. intros ext ms' Ha'. inversion Ha'; subst; [done|congruence].
Qed.

Lemma win_finished rq h : expects Fault [Win rq []] h → expects Fault [] h.
Proof.
  intros (id&tok&reqs&outs&Hc&H). exists id, tok, reqs, outs. split; [done|]. intros ext ms Ha.
  specialize (H ext ms Ha). simpl in H. inversion H; subst; [constructor|done].
Qed.

(** *** Dialing *)

Section stream.

(** The callbacks of the caller, and when they do not cancel. *)
Context (cancelled : prog dreq bool) (connected : bool → peer bool) (NC : Prop).
Hypothesis cancelled_quiet : ∀ h, twp h cancelled (fun h' b => extends quiet h h' ∧ (NC → b = false)).
Hypothesis connected_quiet : ∀ b h,
  twp h (connected b) (fun h' r => extends quiet h h' ∧ (NC → ∀ x, r = Ok x → x = true)).

(** A fresh connection, and nothing but network requests. *)
Lemma connect_spec h :
  twp h (connect_with_socket connected) (fun h' r => extends no_claims h h' ∧
    (r = Ok tt → conn h' = ([], []))).
Proof.
  assert (Hq : ∀ h1 h2, extends quiet h1 h2 → extends no_claims h1 h2).
  { intros h1 h2. apply extends_mono. by intros X q []. }
  unfold connect_with_socket. apply wp_try. eapply wp_mono, connected_quiet. cbv beta.
  intros h1 [go|err] [He _]; [|by split; [apply Hq|]]. apply Hq in He.
  destruct go; cbn [negb]; [|by apply wp_ret]. apply wp_try, wp_ask_err; [done|]. intros [addrs|err] _; last first.
  { split; [|done]. eapply extends_trans; [exact He|by apply extends_snoc]. }
  assert (He1 : extends no_claims h (h1 ++ [Ev ResolveAddr (Ok addrs)])).
  { eapply extends_trans; [exact He|by apply extends_snoc]. }
  revert He1. generalize (h1 ++ [Ev ResolveAddr (Ok addrs)]), (InvalidData "peer address resolved to no addresses").
  clear h1 He. induction addrs as [|a addrs IH]; intros h1 err He; cbn [connect_addrs]; [by apply wp_ret|].
  apply wp_try. eapply wp_mono, connected_quiet. cbv beta. intros h2 [go|err'] [He2%Hq _].
  2: { split; [by eapply extends_trans|done]. }
  assert (He2' : extends no_claims h h2) by (by eapply extends_trans). clear He2.
  destruct go; cbn [negb]; [|by apply wp_ret]. apply wp_bind, wp_ask; [done|]. intros late _.
  assert (He3 : extends no_claims h (h2 ++ [Ev DeadlinePassed late])).
  { eapply extends_trans; [exact He2'|by apply extends_snoc]. }
  destruct late; [by apply wp_ret|]. apply wp_bind, wp_ask; [done|]. intros r _.
  set (h4 := _ ++ [Ev (ConnectTo a) r]). assert (He4 : extends no_claims h h4).
  { eapply extends_trans; [exact He3|by apply extends_snoc]. }
  assert (Hc4 : is_ok r = true → conn h4 = ([], [])).
  { intros Hr. unfold h4. rewrite conn_snoc. by destruct r. }
  clearbody h4. apply wp_try. eapply wp_mono, connected_quiet. cbv beta. intros h5 [go|err'] [He5 _].
  2: { split; [eapply extends_trans; [exact He4|by apply Hq]|done]. }
  assert (He5' : extends no_claims h h5) by (eapply extends_trans; [exact He4|by apply Hq]).
  destruct go; cbn [negb]; [|by apply wp_ret]. destruct r as [[]|err']; [|by apply IH].
  apply wp_ret. split; [done|]. intros _. rewrite (extends_conn h4 h5) by (by apply quiet_no_net). by apply Hc4.
Qed.

(** The first two answers of the server are the greeting. *)
Lemma speaks_greeting h m hello :
  (conn h).1 = [hello] → (conn h).2 = [] ∨ (∃ a, (conn h).2 = [a] ∧ greeting e !! 0%nat = Some a) →
  speaks h m →
  is_error m = true ∨ ((conn h).2 ++ [m] `prefix_of` greeting e ∧ ∃ id tok p, hello = Hello PROTO_VERSION id tok p).
Proof.
  intros Hw Hr [[_ [msg ->]]|(id&tok&p&reqs&outs&Hw'&Hp&_)]; [by left|right].
  rewrite Hw in Hw'. injection Hw' as -> <-. split; [|eauto].
  destruct Hr as [Hr|(a&Hr&Ha)]; rewrite Hr in *; simpl in *.
  - destruct Hp as [k Hp]. injection Hp as <- _. by eexists.
  - destruct Hp as [k Hp]. injection Hp as <- <- _. by eexists.
Qed.

Lemma dial_spec purpose h :
  twp h (dial_with_socket c purpose connected) (fun h' r => extends no_claims h h' ∧
    ∀ s, r = Ok s → expects purpose [] h' ∧ s = PeerServer.seal e).
Proof.
  unfold dial_with_socket. apply wp_try. eapply wp_mono, connect_spec. cbv beta.
  intros h1 [[]|err] [He Hc]; [|by split]. specialize (Hc eq_refl).
  apply wp_try, wp_ask_err; [done|]. intros o _.
  set (h2 := h1 ++ [Ev SocketCall o]).
  assert (He2 : extends no_claims h h2) by (eapply extends_trans; [exact He|by apply extends_snoc]).
  assert (Hc2 : conn h2 = ([], [])) by (unfold h2; by rewrite conn_snoc). clearbody h2.
  destruct o as [[]|err]; [|by split]. clear He Hc h1.
  apply wp_try. eapply wp_mono, connected_quiet. cbv beta. intros h3 [go|err] [Hq _].
  2: { split; [|done]. eapply extends_trans; [exact He2|]. eapply extends_mono, Hq. by intros X q []. }
  assert (He3 : extends no_claims h h3).
  { eapply extends_trans; [exact He2|]. eapply extends_mono, Hq. by intros X q []. }
  assert (Hc3 : conn h3 = ([], [])) by (rewrite (extends_conn h2 h3); [done|by apply quiet_no_net]).
  clear Hq He2 Hc2 h2. destruct go; cbn [negb]; [|by apply wp_ret].
  set (hello := Hello PROTO_VERSION (Uffd.export_id c) (Uffd.token c) purpose).
  apply wp_try, wp_ask_err; [done|]. intros w _. set (h4 := h3 ++ [Ev (DWrite hello) w]).
  assert (He4 : extends no_claims h h4) by (eapply extends_trans; [exact He3|by apply extends_snoc]).
  destruct w as [[]|err]; [|by split].
  assert (Hc4 : conn h4 = ([hello], [])) by (unfold h4; by rewrite conn_snoc, Hc3).
  clearbody h4. clear He3 Hc3 h3. apply wp_try, wp_ask_err; [done|]. intros a Ha.
  assert (He5 : extends no_claims h (h4 ++ [Ev DRead a])) by (eapply extends_trans; [exact He4|by apply extends_snoc]).
  destruct a as [a|err]; [|by split].
  assert (Hc5 : conn (h4 ++ [Ev DRead (Ok a)]) = ([hello], [a])) by (by rewrite conn_snoc, Hc4).
  assert (Ha' : is_error a = true ∨ a = HelloAck PROTO_VERSION (PeerServer.chunk_size e) (PeerServer.total_bytes e)).
  { destruct (speaks_greeting h4 a hello ltac:(by rewrite Hc4) ltac:(left; by rewrite Hc4) Ha) as [|[[k Hp] _]]; [by left|].
    rewrite Hc4 in Hp. simpl in Hp. right. by injection Hp. }
  set (h5 := h4 ++ _) in *. clearbody h5. clear Ha Hc4 He4 h4.
  apply wp_try. destruct Ha' as [Hae|Hae]; [destruct a; try done; by apply wp_ret|]. subst a.
  rewrite N.eqb_refl. cbn [negb]. destruct (negb _ || negb _); [by apply wp_ret|]. apply wp_ret.
  apply wp_try, wp_ask_err; [done|]. intros b Hb.
  assert (He6 : extends no_claims h (h5 ++ [Ev DRead b])) by (eapply extends_trans; [exact He5|by apply extends_snoc]).
  destruct b as [b|err]; [|by split].
  assert (Hb' : is_error b = true ∨ b = Seal (PeerServer.seal e)).
  { destruct (speaks_greeting h5 b hello ltac:(by rewrite Hc5)
      ltac:(right; eexists; split; [by rewrite Hc5|done]) Hb) as [|[[k Hp] _]]; [by left|].
    rewrite Hc5 in Hp. simpl in Hp. right. by injection Hp. }
  apply wp_try. destruct Hb' as [Hbe|Hbe]; [destruct b; try done; by apply wp_ret|]. subst b. apply wp_ret.
  destruct (SealBitmap.validate _); [|by apply wp_ret]. destruct (negb _ || negb _); [by apply wp_ret|].
  apply wp_ret. split; [done|]. intros s [= <-]. split; [|done].
  exists (Uffd.export_id c), (Uffd.token c), [], []. split.
  - by rewrite conn_snoc, Hc5.
  - intros ext ms Hms. exact Hms.
Qed.

(** *** Windows *)

(** The installer: its invariant over the offsets that are left, and what holds
    after it failed. *)
Context {St E : Type} (install : St → N → PeerPage → prog dreq (result St E))
        (I : list N → St → history → Prop) (J : history → Prop).
Hypothesis I_ext : ∀ offs s h h', extends no_claims h h' → I offs s h → I offs s h'.
Hypothesis J_ext : ∀ h h', extends no_claims h h' → J h → J h'.
Hypothesis install_ok : ∀ off offs s page h, I (off :: offs) s h → page_ok off page →
  twp h (install s off page) (fun h' r => extends no_net h h' ∧
    match r with Ok s' => I offs s' h' | Err _ => J h' end).

Lemma quiet_claims h h' : extends quiet h h' → extends no_claims h h'.
Proof. apply extends_mono. by intros X q []. Qed.

Lemma I_snoc offs s h X (q : dreq X) x : on_claims X q = false → I offs s h → I offs s (h ++ [Ev q x]).
Proof. intros Hq. apply I_ext. by apply extends_snoc. Qed.

(** What an attempt leaves behind. *)
Definition attempt_ok (h : history) (a : attempt E * list N * St) : Prop :=
  match a with
  | (Finished (Ok _), rest, s) => I rest s h ∧ (NC → rest = [] ∧ expects Fault [] h)
  | (Finished (Err _), _, _) => J h
  | (Failed _, rest, s) => I rest s h ∧ rest ≠ []
  end.

Lemma read_window_spec rq it offs s h :
  window_item rq offs it → expects Fault [it] h → I offs s h →
  twp h (read_window decompress_size_prepended wire_hash install cancelled rq offs s) attempt_ok.
Proof.
  revert it s h. induction offs as [|off offs IH]; intros it s h Hit He HI; cbn [read_window].
  { apply wp_ret. split; [done|]. intros _. split; [done|]. destruct Hit as [->|[_ ?]]; [|done].
    by eapply win_finished. }
  apply wp_bind, wp_ask; [done|]. intros [m|err] Hm; last first.
  { apply wp_ret. split; [by apply I_snoc|done]. }
  destruct (read_win rq off offs it h m Hit He Hm) as [Hans Hnext].
  pose proof (I_snoc _ _ h _ DRead (Ok m) eq_refl HI) as HI1. set (h1 := h ++ _) in *. clearbody h1.
  apply wp_bind. eapply wp_mono, cancelled_quiet. cbv beta. intros h2 stop [Hq Hnc].
  pose proof (I_ext _ _ h1 h2 (quiet_claims _ _ Hq) HI1) as HI2.
  destruct stop; [apply wp_ret; split; [done|]; intros HNC; by specialize (Hnc HNC)|].
  destruct (decode_page _ _ m rq off) as [page|err] eqn:Ed; [|by apply wp_ret].
  assert (Hp : page_ok off page) by (by eapply answer_page).
  assert (Hok : is_error m = false) by (destruct m as [| | | | |[] ?]; try done; simpl in Ed; by case_match).
  destruct (Hnext Hok) as [-> He2].
  apply wp_bind. eapply wp_mono, install_ok; [|done|done]. cbv beta. intros h3 [s'|err] [Hn HI3]; [|by apply wp_ret].
  apply (IH (Win rq offs)); [by left| |done]. eapply expects_ext; [exact Hn|].
  eapply expects_ext; [by apply quiet_no_net|done].
Qed.

Lemma request_window_spec offs s h :
  offs ≠ [] → expects Fault [] h → I offs s h →
  twp h (request_window decompress_size_prepended wire_hash install cancelled offs s) attempt_ok.
Proof.
  intros Hne He HI. unfold request_window. apply wp_bind, wp_ask; [done|]. intros rq _.
  pose proof (I_snoc _ _ h _ NextReq rq eq_refl HI) as HI1.
  assert (He1 : expects Fault [] (h ++ [Ev NextReq rq])) by (eapply expects_ext; [by apply no_net_snoc|done]).
  set (h1 := h ++ _) in *. clearbody h1. apply wp_bind, wp_ask; [done|]. intros w _.
  pose proof (I_snoc _ _ h1 _ (DWrite (NeedWindow rq offs)) w eq_refl HI1) as HI2.
  destruct w as [[]|err]; [|by apply wp_ret].
  eapply (read_window_spec rq (item_of (NeedWindow rq offs))); [|by apply (expects_write Fault [])|done].
  unfold window_item. simpl. destruct (window_invalid offs); auto.
Qed.

(** What the attempts leave behind. *)
Definition stream_ok (h : history) (r : result (result unit E * St) PeerError) : Prop :=
  match r with
  | Ok (Ok _, s) => ((∃ rest, I rest s h) ∨ J h) ∧ (NC → I [] s h ∧ expects Fault [] h)
  | Ok (Err _, _) => J h
  | Err _ => ∃ rest s, I rest s h
  end.

Lemma stream_cancelled (b : bool) s h :
  (NC → b = false) → b = true → ((∃ rest, I rest s h) ∨ J h) →
  twp h (okay (Ok tt, s) : peer (result unit E * St)) stream_ok.
Proof. intros Hb -> HI. apply wp_ret. split; [done|]. intros HNC. by specialize (Hb HNC). Qed.

Lemma one_attempt_spec again offs s h :
  (∀ offs s h, offs ≠ [] → I offs s h → twp h (again offs s) stream_ok) →
  offs ≠ [] → expects Fault [] h → I offs s h →
  twp h (one_attempt decompress_size_prepended wire_hash again install cancelled connected offs s) stream_ok.
Proof.
  intros IH Hne He HI. unfold one_attempt. apply wp_try. eapply wp_mono, connected_quiet.
  cbv beta. intros h1 [ok|err] [Hq Hnc].
  2: { exists offs, s. eapply I_ext, HI. by apply quiet_claims. }
  pose proof (I_ext _ _ h h1 (quiet_claims _ _ Hq) HI) as HI1.
  assert (He1 : expects Fault [] h1) by (eapply expects_ext; [by apply quiet_no_net|done]).
  destruct ok; cbn [negb]; [|eapply (stream_cancelled true); [intros HNC; by specialize (Hnc HNC _ eq_refl)|done|eauto]].
  apply wp_bind. eapply wp_mono, request_window_spec; [|done..]. cbv beta.
  intros h2 [[a rest] s2] Ha. apply wp_bind. eapply wp_mono, cancelled_quiet. cbv beta.
  intros h3 stop [Hq3 Hnc3].
  pose proof (fun offs s => I_ext offs s h2 h3 (quiet_claims _ _ Hq3)) as Hi.
  pose proof (J_ext h2 h3 (quiet_claims _ _ Hq3)) as Hj.
  destruct stop.
  - eapply stream_cancelled; [done|done|]. destruct a as [[[]|err]|err]; simpl in Ha |- *; [|eauto|].
    + destruct Ha as [HI2 _]. eauto.
    + destruct Ha as [HI2 _]. eauto.
  - destruct a as [[[]|err]|err]; simpl in Ha.
    + destruct Ha as [HI2 Hn]. apply wp_ret. split; [eauto|]. intros HNC. destruct (Hn HNC) as [-> He2].
      split; [auto|]. eapply expects_ext; [by apply quiet_no_net|done].
    + apply wp_ret. simpl. auto.
    + destruct Ha as [HI2 Hr].
      assert (Hret : ∀ err', twp h3 (Ret (Err err') : peer (result unit E * St)) stream_ok)
        by (intros err'; apply wp_ret; simpl; eauto).
      destruct err; auto.
Qed.

Lemma stream_spec n fresh offs s h :
  offs ≠ [] → (fresh = false → expects Fault [] h) → I offs s h →
  twp h (stream_attempts decompress_size_prepended wire_hash n c fresh install cancelled connected offs s) stream_ok.
Proof.
  revert fresh offs s h. induction n as [|n IH]; intros fresh offs s h Hne He HI; cbn [stream_attempts].
  { apply wp_ret. simpl. eauto. }
  apply wp_bind. eapply wp_mono, cancelled_quiet. cbv beta. intros h1 stop [Hq Hnc].
  pose proof (I_ext _ _ h h1 (quiet_claims _ _ Hq) HI) as HI1.
  destruct stop; [eapply stream_cancelled; eauto|].
  assert (Hagain : ∀ offs s h, offs ≠ [] → I offs s h →
    twp h (stream_attempts decompress_size_prepended wire_hash n c true install cancelled connected offs s) stream_ok).
  { intros. by apply IH. }
  destruct fresh.
  - apply wp_bind, wp_ask; [done|]. intros [] _. pose proof (I_snoc _ _ h1 _ Backoff tt eq_refl HI1) as HI2.
    set (h2 := h1 ++ _) in *. clearbody h2. apply wp_bind. eapply wp_mono, cancelled_quiet. cbv beta.
    intros h3 stop [Hq3 Hnc3]. pose proof (I_ext _ _ h2 h3 (quiet_claims _ _ Hq3) HI2) as HI3.
    destruct stop; [eapply stream_cancelled; eauto|].
    apply wp_bind. eapply wp_mono, dial_spec. cbv beta. intros h4 d [He4 Hd].
    pose proof (I_ext _ _ h3 h4 He4 HI3) as HI4. destruct d as [seal|err].
    + apply one_attempt_spec; [done|done| |done]. by apply (Hd seal).
    + by apply Hagain.
  - apply one_attempt_spec; [done|done| |done]. eapply expects_ext; [by apply quiet_no_net|auto].
Qed.

End stream.

(** ** The threads *)

(** A thread between operations holds no claim. *)
Definition calm (h h' : history) : Prop := extends no_net h h' ∧ held h' = held h.

Lemma calm_refl h : calm h h.
Proof. split; [apply extends_refl|done]. Qed.

Lemma calm_trans h1 h2 h3 : calm h1 h2 → calm h2 h3 → calm h1 h3.
Proof. intros [He Hh] [He' Hh']. split; [by eapply extends_trans|congruence]. Qed.

Lemma calm_quiet h h' : extends quiet h h' → calm h h'.
Proof. intros H. split; [by apply quiet_no_net|by apply quiet_held]. Qed.

Lemma calm_snoc h X (q : dreq X) x : quiet X q → calm h (h ++ [Ev q x]).
Proof. intros Hq. apply calm_quiet. by apply extends_snoc. Qed.

Lemma calm_evidence h h' i : calm h h' → evidence h i → evidence h' i.
Proof. intros [He _]. by eapply extends_evidence. Qed.

Lemma calm_manifest h h' i : calm h h' → may_manifest h i → may_manifest h' i.
Proof. intros [He _]. by eapply may_manifest_ext. Qed.

(** An operation that leaves the connection and the claims as they were. *)
Definition settles {A} (h : history) (p : thread A) : Prop := twp h p (fun h' _ => calm h h').

Lemma installs_settles h i p : installs h i p → settles h p.
Proof. intros H. eapply wp_mono, H. by intros h' r (?&?&_). Qed.

Lemma settles_try {A B} h (p : thread A) (f : A → thread B) :
  settles h p → (∀ h1 a, calm h h1 → settles h1 (f a)) → settles h (do! a := p in f a).
Proof.
  intros Hp Hf. apply wp_try. eapply wp_mono, Hp. cbv beta. intros h1 [a|err] Hc; [|done].
  eapply wp_mono, Hf; [|done]. intros h2 r Hc2. by eapply calm_trans.
Qed.

Lemma settles_ret {A} h (r : result A HandlerError) : settles h (Ret r).
Proof. apply wp_ret, calm_refl. Qed.

Lemma settles_uffd {A} h (q : dreq (result A unit)) :
  quiet _ q → (∀ h, can h _ q) → settles h (uffd q).
Proof. intros Hq Hc. apply wp_ask_err; [by apply Hc|]. intros x _. by apply calm_snoc. Qed.

(** *** What the manifest says *)


Lemma in_image o : o < total → o / size < chunks.
Proof.
  intros Ho. pose proof size_pos. apply ceil_lt; [done|]. rewrite N.mul_comm.
  eapply N.le_lt_trans; [apply N.Div0.mul_div_le|done].
Qed.

Lemma serve_resolved_spec fuel a i pa ps h :
  i ∉ held h → may_manifest h i → settles h (serve_resolved rt fuel a (i * size) pa ps).
Proof.
  intros Hn Hm. unfold serve_resolved.
  assert (Hdone : ∀ src p h1, calm h h1 → installs h1 i p →
    twp h1 (do! installed := p in if (installed : bool) then okay src
            else do! _ := wake_page pa ps in okay SourceWake) (fun h' _ => calm h h')).
  { intros src p h1 Hc Hp. apply wp_try. eapply wp_mono, installs_settles, Hp. cbv beta.
    intros h2 [b|err] Hc2; [|by eapply calm_trans].
    assert (calm h h2) by (by eapply calm_trans). destruct b; [by apply wp_ret|].
    apply wp_try. eapply wp_mono, settles_uffd; [|done|done]. intros h3 [x|err] Hc3; [apply wp_ret|]; by eapply calm_trans. }
  destruct (Backend.resolve (backend rt) (i * size)) as [r|] eqn:Er; [|apply settles_ret].
  apply (Backend.resolve_hash base_m sess_m) in Er as (Ho&Hr&Hoff&Hcan); [|exact built].
  rewrite N.div_mul in Hr, Hoff by apply size_pos.
  pose proof (in_image _ Ho) as Hi. rewrite N.div_mul in Hi by apply size_pos.
  destruct r as [o|k|o]; simpl in Hr.
  - assert (o = i * size) as -> by auto. destruct (Hcan _ eq_refl) as [k Hk]. rewrite Hk in *.
    apply Hdone; [apply calm_refl|]. destruct (base_shm rt); [by apply manifest_shared|by apply manifest_chunk].
  - apply wp_try. eapply wp_mono, fetch_spec. cbv beta. intros h1 [b|err] [He Hb]; [|by apply calm_quiet].
    assert (Hc : calm h h1) by (by apply calm_quiet). apply Hdone; [done|].
    apply install_chunk_spec; [done|destruct Hc as [_ ->]; done|].
    apply manifest_fresh; [by eapply calm_manifest|]. intros Hs. eapply stored_good; [done|by symmetry|by apply Hb].
  - assert (o = i * size) as -> by auto. apply Hdone; [apply calm_refl|]. by apply manifest_zero.
Qed.

(** *** The fault loop *)

(** The fault connection is idle, or the session is known to be lost. *)
Definition fault_ready (h : history) : Prop := held h = ∅ ∧ (expects Fault [] h ∨ lost h).

Lemma fault_ready_calm h h' : calm h h' → fault_ready h → fault_ready h'.
Proof.
  intros [He Hh] [H0 Hc]. split; [congruence|].
  destruct Hc as [Hc|Hl]; [left; by eapply expects_ext|right; by eapply extends_lost].
Qed.

Lemma always_quiet (b : bool) h :
  twp h (always b) (fun h' r => extends quiet h h' ∧ (True → ∀ x, r = Ok x → x = true)).
Proof. apply wp_ret. split; [apply extends_refl|]. by intros _ x [= <-]. Qed.

Lemma need_at_spec off h :
  fault_ready h → needed e off →
  twp h (need_at decompress_size_prepended wire_hash c off) (fun h' r => fault_ready h' ∧
    ∀ p, r = Ok p → ∃ page, p = Some page ∧ page_ok off page).
Proof.
  intros [H0 Hc] Hn. unfold need_at. apply wp_try. unfold need_window. apply wp_bind, wp_ask; [done|].
  intros l Hl. simpl in Hl.
  assert (Hready : fault_ready (h ++ [Ev IsLost l])) by (eapply fault_ready_calm; [by apply calm_snoc|done]).
  destruct l; [by apply wp_ret|].
  assert (Hc1 : expects Fault [] (h ++ [Ev IsLost false])).
  { destruct Hc as [Hc|Hc]; [eapply expects_ext; [by apply no_net_snoc|done]|by destruct (Hl eq_refl)]. }
  destruct Hready as [H1 _]. set (h1 := h ++ _) in *. clearbody h1. clear Hl Hc H0 h.
  set (I := fun (rest : list N) (s : option PeerPage) (h : list (event dreq)) => held h = ∅ ∧
    ((rest = [off] ∧ s = None) ∨ (rest = [] ∧ ∃ page, s = Some page ∧ page_ok off page))).
  apply wp_bind. unfold stream_window.
  eapply wp_mono; [|apply (stream_spec (Ret false) always True
    ltac:(intros; apply wp_ret; split; [apply extends_refl|done]) always_quiet
    (fun _ _ page => Ret (Ok (Some page))) I (fun _ => False))].
  - cbv beta. intros h2 [[[u|[]] s]|err] Hr; simpl in Hr.
    + destruct Hr as [_ Hr]. destruct (Hr Logic.I) as [[H2 [[? _]|[_ (page&->&Hp)]]] Hc2]; [done|].
      apply wp_ret. simpl. apply wp_ret. split; [split; [done|by left]|]. intros p [= <-]. eauto.
    + destruct Hr as (rest&s&[H2 _]). apply wp_bind, wp_ask; [done|]. intros [] _. apply wp_ret.
      split; [|done]. split; [by rewrite held_snoc|]. right. exists (Ev MarkLost tt).
      split; [by apply elem_of_app; right; constructor|done].
  - intros offs s h2 h3 He [H2 Hrest]. split; [by rewrite (extends_held h2 h3)|done].
  - done.
  - intros off' offs s page h2 [H2 [[[= -> ->] ->]|[? _]]] Hp; [|done]. apply wp_ret.
    split; [apply extends_refl|]. split; [done|]. right. eauto.
  - done.
  - done.
  - split; [done|]. by left.
Qed.

Lemma window_page_spec fuel off page h :
  held h = ∅ → page_ok off page → settles h (install_window_page rt fuel off page).
Proof.
  intros H0 Hp. pose proof Hp as (Hn&_). destruct (needed_chunk _ Hn) as (i&->&_&Hi&Hs).
  unfold install_window_page. apply settles_try; [|intros; apply settles_ret].
  eapply installs_settles, peer_page_spec; [rewrite H0; set_solver|done].
Qed.

Lemma fault_window_spec fuel offs off h :
  fault_ready h → offs ≠ [] → Forall (needed e) offs → needed e off →
  twp h (serve_fault_window decompress_size_prepended wire_hash rt fuel c offs off)
    (fun h' _ => fault_ready h').
Proof.
  intros Hr Hne Hoffs Hoff. unfold serve_fault_window.
  apply wp_bind, wp_ask; [done|]. intros busy _.
  assert (Hr1 : fault_ready (h ++ [Ev SlotBusy busy])) by (eapply fault_ready_calm; [by apply calm_snoc|done]).
  set (h1 := h ++ _) in *. clearbody h1. clear Hr h. apply wp_bind, wp_ask; [done|]. intros dr _.
  assert (Hr2 : fault_ready (h1 ++ [Ev IsDrainDone dr])) by (eapply fault_ready_calm; [by apply calm_snoc|done]).
  set (h2 := h1 ++ _) in *. clearbody h2. clear Hr1 h1.
  assert (Hinst : ∀ (Q : list (event dreq) → bool → Prop), (∀ h' b, fault_ready h' → Q h' b) →
    twp h2 (if dr then Ret true else ask (ChunkInstalled (off / size))) Q).
  { intros Q HQ. destruct dr; [by apply wp_ret, HQ|]. apply wp_ask; [done|]. intros b _. apply HQ.
    eapply fault_ready_calm; [by apply calm_snoc|done]. }
  apply wp_bind, Hinst. clear Hinst Hr2 h2. intros h installed Hr. destruct installed; [by apply wp_ret|].
  destruct busy.
  - apply wp_try, wp_bind. eapply wp_mono, need_at_spec; [|done|done]. cbv beta. intros h1 [p|err] [Hr1 Hp].
    + apply wp_ret. destruct (Hp p eq_refl) as (page&->&Hpage).
      eapply wp_mono, window_page_spec; [|by destruct Hr1|done]. intros h2 r Hc. eapply fault_ready_calm; [exact Hc|done].
    + by apply wp_ret.
  - apply wp_bind, wp_ask; [done|]. intros l _.
    assert (Hr1 : fault_ready (h ++ [Ev IsLost l])) by (eapply fault_ready_calm; [by apply calm_snoc|done]).
    destruct l; [by apply wp_ret|]. apply wp_try, wp_ask_err; [done|]. intros w _.
    assert (Hr2 : fault_ready ((h ++ [Ev IsLost false]) ++ [Ev (SpawnWorker offs off) w]))
      by (eapply fault_ready_calm; [by apply calm_snoc|done]).
    destruct w as [[]|[]]; [|done]. set (h2 := _ ++ [Ev (SpawnWorker _ _) _]) in *. clearbody h2.
    apply wp_try, wp_ask_err; [done|]. intros pg Hpg.
    assert (Hr3 : fault_ready (h2 ++ [Ev (RecvFirst off) pg])) by (eapply fault_ready_calm; [by apply calm_snoc|done]).
    destruct pg as [page|[]]; [|done]. apply wp_try.
    eapply wp_mono, window_page_spec; [|by destruct Hr3|exact Hpg]. cbv beta. intros h4 [[]|err] Hc;
      (assert (Hr4 : fault_ready h4) by (eapply fault_ready_calm; [exact Hc|done])); [|done].
    apply wp_bind, wp_ask; [done|]. intros [] _. apply wp_ret. eapply fault_ready_calm; [by apply calm_snoc|done].
Qed.

(** The offsets of a fault window are sealed chunks. *)
Lemma fault_window_needed first region_end limit installed :
  Forall (needed e) (fault_window (peer_seal c) first region_end limit installed).
Proof.
  unfold fault_window. apply Forall_fmap, Forall_forall. intros i Hi. simpl.
  destruct conf_seal as (_&_&Hss&Hcs&_). rewrite Hss, Hcs. apply sealed_chunk.
  apply (subseteq_take limit) in Hi. apply elem_of_filterb in Hi as [_ Hi].
  by apply andb_true_iff in Hi as [? _].
Qed.

Lemma wake_ready (src : Source) pa ps h :
  fault_ready h → twp h (do! _ := wake_page pa ps in okay src) (fun h' _ => fault_ready h').
Proof.
  intros Hr. apply wp_try. eapply wp_mono, settles_uffd; [|done|done]. cbv beta.
  intros h1 [x|err] Hc; [apply wp_ret|]; (eapply fault_ready_calm; [exact Hc|done]).
Qed.

Lemma ask_installed_calm l h : twp h (ask_installed l) (fun h' _ => calm h h').
Proof.
  revert h. induction l as [|i l IH]; intros h; cbn [ask_installed]; [by apply wp_ret, calm_refl|].
  apply wp_bind, wp_ask; [done|]. intros b _. apply wp_bind. eapply wp_mono, IH. cbv beta.
  intros h1 s Hc. apply wp_ret. eapply calm_trans; [by apply (calm_snoc h _ (ChunkInstalled i) b)|exact Hc].
Qed.

Lemma pagefault_spec fuel a h :
  fault_ready h →
  twp h (serve_pagefault decompress_size_prepended wire_hash rt fuel a) (fun h' _ => fault_ready h').
Proof.
  intros Hr. unfold serve_pagefault. destruct (List.find _ _) as [region|]; [|by apply wp_ret].
  set (bo := m_offset region + _). rewrite post_copy.
  set (i := bo / size). assert (Hoff : bo - bo mod size = i * size).
  { pose proof (N.div_mod bo size size_pos). unfold i. lia. }
  rewrite Hoff, N.div_mul by apply size_pos. set (pa := N.ldiff _ _). set (ps := m_page_size region).
  assert (Hman : ∀ h1, fault_ready h1 → may_manifest h1 i →
    twp h1 (serve_resolved rt fuel a (i * size) pa ps) (fun h' _ => fault_ready h')).
  { intros h1 Hr1 Hm. eapply wp_mono, serve_resolved_spec; [|destruct Hr1 as [-> _]; set_solver|done].
    cbv beta. intros h2 r Hc. eapply fault_ready_calm; [exact Hc|done]. }
  destruct (SealBitmap.get (peer_seal c) i) eqn:Hs; [|apply Hman; [done|]; intros Hs'; congruence].
  destruct (sealed_chunk i Hs) as [Hi Hn].
  apply wp_bind, wp_ask; [done|]. intros inst _.
  assert (Hr1 : fault_ready (h ++ [Ev (ChunkInstalled i) inst])) by (eapply fault_ready_calm; [by apply calm_snoc|done]).
  destruct inst; [by apply wake_ready|]. set (h1 := h ++ _) in *. clearbody h1. clear Hr h.
  apply wp_bind, wp_ask; [done|]. intros dr _.
  assert (Hr2 : fault_ready (h1 ++ [Ev IsDrainDone dr])) by (eapply fault_ready_calm; [by apply calm_snoc|done]).
  destruct dr.
  { apply Hman; [done|]. intros _. right. eexists. split; [by apply elem_of_app; right; constructor|done]. }
  apply wp_bind. eapply wp_mono, ask_installed_calm. cbv beta. intros h2 known Hc.
  assert (Hr3 : fault_ready h2) by (by eapply fault_ready_calm). clear Hr1 Hr2 Hc h1.
  pose proof (fault_window_needed (i * size) (m_offset region + m_size region) (fault_around_chunks rt)
    (fun j => bool_decide (j ∈ known))) as Hneed.
  destruct (fault_window _ _ _ _ _) as [|o offs]; [by apply wake_ready|].
  apply wp_bind. eapply wp_mono, fault_window_spec; [|done|done|done|done]. cbv beta.
  intros h3 r Hr4. destruct r as [[]|err]; [by apply wake_ready|].
  apply wp_bind, wp_ask; [done|]. intros inst _.
  assert (Hr5 : fault_ready (h3 ++ [Ev (ChunkInstalled i) inst])) by (eapply fault_ready_calm; [by apply calm_snoc|done]).
  destruct inst; [by apply wake_ready|]. set (h4 := h3 ++ _) in *. clearbody h4.
  apply wp_bind, wp_ask; [done|]. intros [] _. apply wp_bind, wp_ask; [done|]. intros n _.
  apply wp_bind, wp_ask; [done|]. intros [] _. apply wp_ret.
  do 3 (eapply fault_ready_calm; [by apply calm_snoc|]). done.
Qed.

Lemma fault_loop_spec fuel faults :
  twp [] (fault_loop decompress_size_prepended wire_hash rt fuel faults) (fun _ _ => True).
Proof.
  assert (Hfaults : ∀ h, fault_ready h →
    twp h (serve_faults decompress_size_prepended wire_hash rt fuel faults) (fun _ _ => True)).
  { induction faults as [|a faults IH]; intros h Hr; cbn [serve_faults]; [by apply wp_ret|].
    apply wp_try. eapply wp_mono, pagefault_spec; [|done]. cbv beta. intros h1 [src|err] Hr1; [|done]. by apply IH. }
  unfold fault_loop. rewrite post_copy. apply wp_try, wp_bind.
  eapply wp_mono, (dial_spec always True always_quiet). cbv beta. intros h [s|err] [He Hd]; apply wp_ret; [|done].
  apply Hfaults. destruct (Hd s eq_refl) as [Hx _]. split; [|by left]. by rewrite (extends_held [] h).
Qed.

(** *** The window worker *)

Lemma worker_connected_quiet b h :
  twp h (worker_connected b) (fun h' r => extends quiet h h' ∧ (False → ∀ x, r = Ok x → x = true)).
Proof.
  apply (wp_extends quiet); [unfold worker_connected; requests; done|]. unfold worker_connected.
  apply wp_bind, wp_ask; [done|]. intros stop _. destruct stop; [by apply wp_ret|]. destruct b; [|by apply wp_ret].
  apply wp_try, wp_ask_err; [done|]. intros [[]|] _; [by apply wp_ret|done].
Qed.

Lemma stopped_quiet h :
  twp h (ask Stopped) (fun h' (b : bool) => extends quiet h h' ∧ (False → b = false)).
Proof. apply wp_ask; [done|]. intros b _. split; [by apply extends_snoc|done]. Qed.

Lemma window_error_wp {A E} h (p : prog dreq (result A E)) (Q : _ → _ → Prop) :
  twp h p (fun h' r => Q h' (match r with Ok a => Ok a | Err _ => Err (WindowError "{e}") end)) →
  twp h (window_error p) Q.
Proof. intros H. unfold window_error. apply wp_bind. eapply wp_mono, H. intros h' r Hr. by apply wp_ret. Qed.

Lemma worker_install_spec fuel fo off page h :
  held h = ∅ → page_ok off page → settles h (worker_install rt fuel fo off page).
Proof.
  intros H0 Hp. pose proof Hp as (Hn&_). destruct (needed_chunk _ Hn) as (i&->&_&Hi&_).
  unfold settles, worker_install. apply wp_bind, wp_ask; [done|]. intros stop _.
  assert (Hc1 : calm h (h ++ [Ev Stopped stop])) by (by apply calm_snoc).
  set (h1 := h ++ _) in *. clearbody h1. destruct stop; [by apply wp_ret|].
  destruct (N.eqb_spec (i * size) fo) as [<-|Hne].
  { apply wp_try, window_error_wp, wp_ask; [done|]. intros r _.
    assert (Hc2 : calm h (h1 ++ [Ev (SendFirst (i * size) page) r])) by (eapply calm_trans; [done|by apply calm_snoc]).
    destruct r as [[]|[]]; [|done]. apply window_error_wp, wp_ask; [done|]. intros r _.
    eapply calm_trans; [exact Hc2|by apply calm_snoc]. }
  apply wp_try, window_error_wp. eapply wp_mono, prepare_spec; [|done|done]. cbv beta.
  intros h2 [b|err] [He2 Hg]; last first.
  { eapply calm_trans; [exact Hc1|by apply calm_quiet]. }
  specialize (Hg b eq_refl). assert (Hc2 : calm h h2) by (eapply calm_trans; [exact Hc1|by apply calm_quiet]).
  clear He2 Hc1 h1. apply wp_bind, wp_ask; [done|]. intros stop _.
  assert (Hc3 : calm h (h2 ++ [Ev Stopped stop])) by (eapply calm_trans; [done|by apply calm_snoc]).
  set (h3 := h2 ++ _) in *. clearbody h3. destruct stop; [by apply wp_ret|]. clear Hc2 h2.
  apply wp_bind, wp_ask; [done|]. intros alive _.
  assert (Hc4 : calm h (h3 ++ [Ev RuntimeAlive alive])) by (eapply calm_trans; [done|by apply calm_snoc]).
  set (h4 := h3 ++ _) in *. clearbody h4. destruct alive; cbn [negb]; [|by apply wp_ret]. clear Hc3 h3.
  rewrite N.div_mul by apply size_pos. apply wp_bind.
  eapply wp_mono, claim_spec; [|done|destruct Hc4 as [_ ->]; rewrite H0; set_solver].
  cbv beta. intros h5 cl [He5 Hcl]. destruct cl; [|done|].
  2: { rewrite bool_decide_false by done. apply wp_ret. eapply calm_trans; [exact Hc4|]. split; [done|apply Hcl]. }
  rewrite bool_decide_true by done. cbn [negb]. destruct Hcl as (Hh5&_&_). destruct Hc4 as [He4 Hh4].
  assert (Hrel : {[i]} ∪ held h4 ∖ {[i]} = {[i]} ∪ held h4 ∧ ({[i]} ∪ held h4) ∖ {[i]} = held h)
    by (rewrite Hh4, H0; split; set_solver). destruct Hrel as [_ Hrel].
  apply wp_bind, wp_ask; [done|]. intros stop _.
  assert (Hh6 : held (h5 ++ [Ev Stopped stop]) = {[i]} ∪ held h4) by (rewrite held_snoc; exact Hh5).
  assert (He6 : extends no_net h (h5 ++ [Ev Stopped stop])).
  { eapply extends_trans; [exact He4|]. eapply extends_trans; [exact He5|by apply no_net_snoc]. }
  set (h6 := h5 ++ _) in *. clearbody h6. destruct stop.
  - apply wp_bind, wp_ask; [simpl; rewrite Hh6; set_solver|]. intros [] _. apply wp_ret. split.
    + eapply extends_trans; [exact He6|by apply no_net_snoc].
    + rewrite held_snoc. simpl. by rewrite Hh6.
  - apply wp_try, window_error_wp. eapply wp_mono, claimed_peer_page_spec; [|rewrite Hh6; set_solver|done].
    cbv beta. intros h7 r (He7&Hh7&_).
    assert (Hc7 : calm h h7) by (split; [by eapply extends_trans|by rewrite Hh7, Hh6]).
    destruct r; [by apply wp_ret|done].
Qed.

Lemma worker_spec fuel offs fo :
  offs ≠ [] → Forall (needed e) offs →
  twp [] (window_worker decompress_size_prepended wire_hash rt fuel c offs fo) (fun _ _ => True).
Proof.
  intros Hne Hoffs. unfold window_worker. apply wp_bind.
  apply (wp_mono _ _ _ _ (fun _ _ => True)).
  { intros h [[]|err] _; [by apply wp_ret|]. apply wp_bind, wp_ask; [done|]. intros alive _.
    destruct alive; cbn [negb]; [|by apply wp_ret]. apply wp_bind, wp_ask; [done|]. intros n _.
    apply wp_bind, wp_ask; [done|]. intros stop _. destruct stop; [by apply wp_ret|].
    apply wp_bind, wp_ask; [done|]. intros k _. destruct (k =? 0); [by apply wp_ret|].
    apply wp_bind, wp_ask; [done|]. intros [] _. by apply wp_ask. }
  unfold worker_body. apply wp_try, window_error_wp.
  eapply wp_mono, (dial_spec worker_connected False worker_connected_quiet). cbv beta.
  intros h [s|err] [He Hd]; [|done]. destruct (Hd s eq_refl) as [Hx _].
  assert (H0 : held h = ∅) by (by rewrite (extends_held [] h)).
  apply wp_try, window_error_wp. unfold stream_window.
  eapply wp_mono; [|apply (stream_spec (ask Stopped) worker_connected False stopped_quiet worker_connected_quiet
    (fun _ offset page => worker_install rt fuel fo offset page)
    (fun rest _ h => held h = ∅ ∧ Forall (needed e) rest) (fun h => held h = ∅))].
  - intros h1 [[r s']|err] _; [by apply wp_ret|done].
  - intros rest s' h1 h2 He1 [H1 Hf]. split; [by rewrite (extends_held h1 h2)|done].
  - intros h1 h2 He1 H1. by rewrite (extends_held h1 h2).
  - intros off rest s' page h1 [H1 Hf] Hp. apply Forall_cons in Hf as [_ Hf].
    eapply wp_mono, worker_install_spec; [|done|done]. cbv beta. intros h2 r [He2 Hh2].
    split; [done|]. rewrite Hh2. destruct r; done.
  - done.
  - done.
  - done.
Qed.

(** *** The drain *)

(** What is still to be pulled. *)
Definition queued (d : drain) : list N := retry d ++ (in_flight d).*2 ++ todo d.

(** The answers that are still due. *)
Definition due (d : drain) : list item := (fun x => One x.1 x.2) <$> in_flight d.

Definition tries (d : drain) (o : N) : N := default 0 (attempts d !! o).

(** Rounds the drain can still make: an offset is asked for at most four times. *)
Definition rounds (d : drain) : nat := sum_list_with (fun o => N.to_nat (4 - tries d o)) (queued d).

Record draining (h : history) (d : drain) : Prop := {
  dr_held : held h = ∅;
  dr_conn : expects Drain (due d) h;
  dr_sealed : ∀ o, o ∈ queued d → ∃ i, o = i * size ∧ sealed i;
  dr_all : ∀ i, sealed i → evidence h i ∨ i * size ∈ queued d;
  dr_tries : ∀ o, tries d o ≤ 3;
}.

(** Steps that leave the queues as they are, up to the order. *)
Lemma draining_calm h h' d d' :
  calm h h' → queued d' ≡ₚ queued d → in_flight d' = in_flight d → attempts d' = attempts d →
  draining h d → draining h' d'.
Proof.
  intros Hc Hq Hf Ha [H0 He Hs Hall Ht]. destruct Hc as [Hx Hh]. split.
  - congruence.
  - unfold due. rewrite Hf. by eapply expects_ext.
  - intros o Ho. apply Hs. by rewrite <- Hq.
  - intros i Hi. rewrite Hq. destruct (Hall i Hi); [left; by eapply extends_evidence|by right].
  - intros o. unfold tries. rewrite Ha. apply Ht.
Qed.

Lemma rounds_perm d d' : queued d' ≡ₚ queued d → attempts d' = attempts d → rounds d' = rounds d.
Proof. intros Hq Ha. unfold rounds, tries. by rewrite Hq, Ha. Qed.

Lemma rounds_pop d d' o :
  queued d ≡ₚ o :: queued d' → attempts d' = attempts d → tries d o ≤ 3 → (rounds d' < rounds d)%nat.
Proof. intros Hq Ha Ht. unfold rounds. rewrite Hq. simpl. unfold tries in *. rewrite Ha. lia. Qed.

Lemma rounds_retry d d' o :
  queued d' ≡ₚ queued d → o ∈ queued d → attempts d' = <[o := tries d o + 1]> (attempts d) →
  tries d o ≤ 3 → (rounds d' < rounds d)%nat.
Proof.
  intros Hq Ho Ha Ht. unfold rounds. rewrite Hq. clear Hq.
  assert (Hle : ∀ x, (N.to_nat (4 - tries d' x) ≤ N.to_nat (4 - tries d x))%nat).
  { intros x. unfold tries at 1. rewrite Ha. destruct (decide (o = x)) as [<-|].
    - rewrite lookup_insert_eq. simpl. lia.
    - rewrite lookup_insert_ne by done. unfold tries. lia. }
  assert (Hlt : (N.to_nat (4 - tries d' o) < N.to_nat (4 - tries d o))%nat).
  { unfold tries at 1. rewrite Ha, lookup_insert_eq. simpl. lia. }
  induction (queued d) as [|x l IH]; [by apply elem_of_nil in Ho|]. simpl.
  assert (Hrest : (sum_list_with (fun y => N.to_nat (4 - tries d' y)) l ≤
                   sum_list_with (fun y => N.to_nat (4 - tries d y)) l)%nat).
  { clear - Hle. induction l as [|y l IH]; simpl; [done|]. specialize (Hle y). lia. }
  apply elem_of_cons in Ho as [<-|Ho]; [lia|]. specialize (Hle x). specialize (IH Ho). lia.
Qed.

Lemma take_hint_spec h d :
  draining h d → twp h (take_hint rt d) (fun h' d' => draining h' d' ∧ rounds d' = rounds d).
Proof.
  intros Hd. unfold take_hint. apply wp_bind, wp_ask; [done|]. intros [tr|] _.
  2: { apply wp_ret. split; [|done]. eapply draining_calm; [by apply calm_snoc|done..]. }
  apply wp_bind. set (l := List.filter _ _).
  assert (Hcount : ∀ h1, twp h1 (count_uninstalled rt l) (fun h' _ => calm h1 h')).
  { clearbody l. clear. induction l as [|o l IH]; intros h1; cbn [count_uninstalled]; [by apply wp_ret, calm_refl|].
    apply wp_bind, wp_ask; [done|]. intros b _. apply wp_bind. eapply wp_mono, IH. cbv beta. intros h2 n Hc.
    apply wp_ret. eapply calm_trans; [by apply (calm_snoc h1 _ (ChunkInstalled (o / size)) b)|done]. }
  eapply wp_mono, Hcount. cbv beta. intros h1 n Hc. apply wp_ret.
  assert (Hq : ∀ d', retry d' = retry d → in_flight d' = in_flight d → todo d' ≡ₚ todo d → queued d' ≡ₚ queued d).
  { intros d' H1 H2 H3. unfold queued. by rewrite H1, H2, H3. }
  split; [|apply rounds_perm; [|done]; by apply Hq; [..|apply sort_by_perm]].
  eapply (draining_calm h _ d); [eapply calm_trans; [by apply (calm_snoc h _ TakeHint (Some tr))|exact Hc]| |done|done|done].
  apply Hq; [done|done|apply sort_by_perm].
Qed.

(** An offset is taken off a queue: it is installed, or it is asked for. *)
Lemma draining_skip h d d' i :
  draining h d → queued d ≡ₚ i * size :: queued d' → in_flight d' = in_flight d →
  attempts d' = attempts d → draining (h ++ [Ev (ChunkInstalled i) true]) d'.
Proof.
  intros [H0 He Hs Hall Ht] Hq Hf Ha. split.
  - by rewrite held_snoc.
  - unfold due. rewrite Hf. eapply expects_ext; [by apply no_net_snoc|done].
  - intros o Ho. apply Hs. rewrite Hq. by constructor.
  - intros j Hj. destruct (Hall j Hj) as [|Hin]; [left; by apply evidence_app|]. rewrite Hq in Hin.
    apply elem_of_cons in Hin as [E|]; [|by right]. left. apply N.mul_cancel_r in E as ->; [|apply size_pos].
    shown.
  - intros o. unfold tries. rewrite Ha. apply Ht.
Qed.

Lemma draining_ask h d d' rq o :
  draining h d → queued d' ≡ₚ queued d → in_flight d' = in_flight d ++ [(rq, o)] →
  attempts d' = attempts d → draining (h ++ [Ev (DWrite (NeedAt rq o)) (Ok tt)]) d'.
Proof.
  intros [H0 He Hs Hall Ht] Hq Hf Ha. split.
  - by rewrite held_snoc.
  - unfold due. rewrite Hf, fmap_app. by apply expects_write.
  - intros o' Ho. apply Hs. by rewrite <- Hq.
  - intros j Hj. rewrite Hq. destruct (Hall j Hj); [left; by apply evidence_app|by right].
  - intros o'. unfold tries. rewrite Ha. apply Ht.
Qed.

(** The next offset to ask for, and the drain without it. *)
Definition popped (d d1 : drain) (o : N) : Prop :=
  queued d ≡ₚ o :: queued d1 ∧ in_flight d1 = in_flight d ∧ attempts d1 = attempts d ∧
  (length (retry d) + length (todo d) = S (length (retry d1) + length (todo d1)))%nat.

Lemma fill_spec fuel d h :
  draining h d → (length (retry d) + length (todo d) < fuel)%nat →
  twp h (fill rt fuel d) (fun h' r => ∀ d', r = Ok d' →
    draining h' d' ∧ (rounds d' ≤ rounds d)%nat ∧ (in_flight d' = [] → queued d' = [])).
Proof.
  revert d h. induction fuel as [|fuel IH]; intros d h Hd Hf; [lia|]. cbn [fill].
  destruct (Nat.ltb_spec (length (in_flight d)) PIPELINE_DEPTH) as [|Hfull]; last first.
  { apply wp_ret. intros d' [= <-]. split; [done|]. split; [done|]. intros Hn. rewrite Hn in Hfull.
    simpl in Hfull. unfold PIPELINE_DEPTH in Hfull. lia. }
  match goal with |- wp _ _ _ (match ?x with Some _ => _ | None => _ end) _ => set (nx := x) end.
  assert (Hnx : match nx with Some (o, d1) => popped d d1 o
                | None => retry d = [] ∧ todo d = [] end).
  { unfold nx, popped, queued. destruct (retry d) as [|o r] eqn:Er; [destruct (todo d) as [|o t] eqn:Et|]; simpl.
    - done.
    - rewrite Er. simpl. split_and!; [|done|done|lia]. by rewrite <- Permutation_middle.
    - split_and!; [done..|]. lia. }
  clearbody nx. destruct nx as [[o d1]|]; last first.
  { apply wp_ret. intros d' [= <-]. split; [done|]. split; [done|]. intros Hn. unfold queued.
    destruct Hnx as [-> ->]. by rewrite Hn. }
  destruct Hnx as (Hq&Hfl&Ha&Hlen).
  assert (Ho : ∃ i, o = i * size ∧ sealed i) by (apply Hd; rewrite Hq; constructor).
  destruct Ho as (i&->&Hi). rewrite N.div_mul by apply size_pos.
  pose proof (rounds_pop d d1 _ Hq Ha (dr_tries _ _ Hd _)) as Hr.
  apply wp_bind, wp_ask; [done|]. intros inst _. destruct inst.
  - eapply wp_mono, IH; [|by eapply (draining_skip h d)|simpl; lia]. cbv beta. intros h' r Hok d' ->.
    destruct (Hok d' eq_refl) as (?&Hr'&?). split; [done|]. split; [|done].
    etrans; [exact Hr'|]. etrans; [|apply Nat.lt_le_incl, Hr]. by apply Nat.eq_le_incl, rounds_perm.
  - apply wp_try, wp_ask_err; [done|]. intros w _. destruct w as [[]|err]; [|done].
    set (d2 := d1 <| next_id ::= N.succ |> <| in_flight ::= _ |>).
    assert (Hq2 : queued d2 ≡ₚ queued d).
    { rewrite Hq. unfold queued, d2. simpl. rewrite fmap_app. simpl. solve_Permutation. }
    eapply wp_mono, (IH d2); [|eapply (draining_ask _ d)|unfold d2; simpl; lia].
    + cbv beta. intros h' r Hok d' ->. destruct (Hok d' eq_refl) as (?&Hr'&?). split; [done|]. split; [|done].
      etrans; [exact Hr'|]. apply Nat.eq_le_incl, rounds_perm; [done|]. exact Ha.
    + eapply (draining_calm h _ d); [by apply calm_snoc|done..].
    + exact Hq2.
    + unfold d2. simpl. by rewrite Hfl.
    + exact Ha.
Qed.

Lemma durable_spec fuel i k src h :
  i ∉ held h → needed e (i * size) → guest_chunk mem e (i * size) = Some src →
  Backend.session_hash (backend rt) i = Some k → sha256 src = k →
  installs h i (install_durable rt fuel (i * size)).
Proof.
  intros Hn Hneed Hsrc Hk Hsha.
  assert (Hi : i < chunks) by (by apply (Backend.session_hash_bound _ _ _ _ _ built Hk)).
  assert (Hfetch : installs h i (do! b := fetch_chunk k in install_chunk_at rt fuel (i * size) b false)).
  { eapply installs_after; [apply fetch_spec|]. intros h1 b He Hb.
    apply install_chunk_spec; [done|by rewrite (quiet_held h h1)|]. left.
    apply (page_good (i * size) (PageAlt k)); [|done|exact Hb]. split; [done|]. exists src.
    rewrite N.div_mul by apply size_pos. done. }
  unfold install_durable. destruct (Backend.resolve (backend rt) (i * size)) as [r|] eqn:Er.
  - apply (Backend.resolve_hash base_m sess_m) in Er as (_&Hr&_); [|exact built].
    rewrite N.div_mul, Hk in Hr by apply size_pos. destruct r as [o|k'|o]; simpl in Hr; [|congruence|done].
    by rewrite Hr.
  - apply wp_ret. split; [apply extends_refl|done].
Qed.

Lemma drained_page_spec fuel i page d h :
  held h = ∅ → page_ok (i * size) page →
  twp h (install_drained rt fuel (i * size) page d) (fun h' r => calm h h' ∧
    ∀ d', r = Ok d' → evidence h' i ∧ queued d' = queued d ∧ in_flight d' = in_flight d ∧
      attempts d' = attempts d).
Proof.
  intros H0 Hp. pose proof Hp as (Hneed&src&Hsrc&Hc). destruct (needed_chunk _ Hneed) as (j&Hj&Hj'&Hi&Hs).
  rewrite N.div_mul in Hj' by apply size_pos. subst j.
  assert (Hnot : i ∉ held h) by (rewrite H0; set_solver).
  assert (Hin : ∀ p (f : DrainStats → DrainStats), installs h i p →
    twp h (do! _ := p in okay (d <| stats ::= f |>)) (fun h' r => calm h h' ∧
      ∀ d', r = Ok d' → evidence h' i ∧ queued d' = queued d ∧ in_flight d' = in_flight d ∧
        attempts d' = attempts d)).
  { intros p f Hinst. apply wp_try. eapply wp_mono, Hinst. cbv beta. intros h1 [b|err] (He&Hh&Hev); [|done].
    apply wp_ret. split; [done|]. intros d' [= <-]. split; [by eapply Hev|done]. }
  unfold install_drained. destruct page as [b| |k]; apply Hin.
  - apply install_chunk_spec; [done|done|]. left. by eapply page_good.
  - apply install_zero_spec; [done|done|]. left. by eapply page_good.
  - destruct Hc as [Hk Hsha]. rewrite N.div_mul in Hk by apply size_pos. by eapply durable_spec.
Qed.

Lemma drain_loop_spec fuel n ts d h :
  draining h d → (rounds d < n)%nat →
  twp h (drain_loop decompress_size_prepended wire_hash rt fuel n ts d) (fun h' r =>
    ∀ d', r = Ok d' → held h' = ∅ ∧ all_installed h').
Proof.
  revert d h. induction n as [|n IH]; intros d h Hd Hn; [lia|]. cbn [drain_loop].
  apply wp_bind. eapply wp_mono, take_hint_spec; [|done]. cbv beta. intros h1 d1 [Hd1 Hr1].
  apply wp_bind, wp_ask; [done|]. intros [] _.
  assert (Hd2 : draining (h1 ++ [Ev AwaitQuiet tt]) d1) by (eapply (draining_calm h1 _ d1); [by apply calm_snoc|done..]).
  set (h2 := h1 ++ _) in *. clearbody h2. clear Hd1 h1 Hd h. rewrite <- Hr1 in Hn. clear Hr1 d.
  apply wp_try. eapply wp_mono, fill_spec; [|exact Hd2|lia]. cbv beta. intros h [d|err] Hf; [|done].
  destruct (Hf d eq_refl) as (Hd&Hr&Hempty). clear Hf Hd2 h2.
  destruct (in_flight d) as [|[rq off] flight] eqn:Efl.
  { apply wp_ret. intros d' [= <-]. split; [by apply Hd|]. intros i Hi.
    destruct (dr_all _ _ Hd i Hi) as [|Hin]; [done|]. rewrite (Hempty eq_refl) in Hin. by apply elem_of_nil in Hin. }
  assert (Hq : ∀ d', retry d' = retry d → todo d' = todo d → in_flight d' = flight → queued d ≡ₚ off :: queued d').
  { intros d' E1 E2 E3. unfold queued. rewrite E1, E2, E3, Efl. simpl. by rewrite <- Permutation_middle. }
  assert (Hoff : ∃ i, off = i * size ∧ sealed i).
  { apply (dr_sealed _ _ Hd). rewrite (Hq (d <| in_flight := flight |>)) by done. constructor. }
  destruct Hoff as (i&->&Hi). pose proof (dr_tries _ _ Hd (i * size)) as Ht.
  apply wp_try, wp_ask_err; [done|]. intros [m|err] Hm; [|done].
  pose proof (dr_conn _ _ Hd) as Hx. unfold due in Hx. rewrite Efl in Hx.
  destruct (read_one Drain rq (i * size) _ h m Hx Hm) as [Hans Hx'].
  set (h1 := h ++ _) in *. assert (H1 : held h1 = ∅) by (unfold h1; rewrite held_snoc; apply Hd).
  assert (Hev : ∀ j, evidence h j → evidence h1 j) by (intros j; apply evidence_app). clearbody h1.
  destruct (decode_page _ _ m rq (i * size)) as [page|err] eqn:Ed.
  - apply wp_try. eapply wp_mono, drained_page_spec; [|done|by eapply answer_page].
    cbv beta. intros h2 [d2|err] [Hc Hok]; [|done]. destruct (Hok d2 eq_refl) as (Hev2&Hq2&Hf2&Ha2).
    set (d3 := d2 <| processed ::= N.succ |>).
    assert (Hq3 : queued d ≡ₚ i * size :: queued d3).
    { change (queued d3) with (queued d2). rewrite Hq2. by apply Hq. }
    assert (Hd3 : draining h2 d3).
    { destruct Hd as [_ _ Hs Hall Htr]. destruct Hc as [Hc2 Hh2]. split.
      - congruence.
      - unfold due. change (in_flight d3) with (in_flight d2). rewrite Hf2. by eapply expects_ext.
      - intros o Ho. apply Hs. rewrite Hq3. by constructor.
      - intros j Hj. destruct (Hall j Hj) as [Hj'|Hin]; [left; eapply extends_evidence; [exact Hc2|by apply Hev]|].
        rewrite Hq3 in Hin. apply elem_of_cons in Hin as [E|]; [|by right]. left.
        apply N.mul_cancel_r in E as ->; [done|apply size_pos].
      - intros o. unfold tries. change (attempts d3) with (attempts d2). rewrite Ha2. apply Htr. }
    assert (Hr3 : (rounds d3 < n)%nat).
    { pose proof (rounds_pop d d3 _ Hq3 Ha2 Ht). lia. }
    apply wp_bind. destruct (_ =? 0); [apply wp_ask; [done|]; intros [] _|apply wp_ret].
    + apply IH; [|done]. eapply (draining_calm h2 _ d3); [by apply calm_snoc|done..].
    + by apply IH.
  - destruct err; try by apply wp_ret.
    change (default 0 (attempts _ !! _)) with (tries d (i * size)). set (k := tries d (i * size) + 1).
    destruct (N.ltb_spec DRAIN_REQUEST_RETRIES k) as [|Hk]; [by apply wp_ret|].
    apply wp_bind, wp_ask; [done|]. intros [] _. unfold DRAIN_REQUEST_RETRIES in Hk.
    set (d4 := _ <| retry ::= _ |>).
    assert (Hq4 : queued d4 ≡ₚ queued d).
    { rewrite (Hq (d <| in_flight := flight |>)) by done. unfold queued, d4. simpl. solve_Permutation. }
    assert (Ha4 : attempts d4 = <[i * size := k]> (attempts d)) by done.
    apply IH.
    + destruct Hd as [_ _ Hs Hall Htr]. split.
      * by rewrite held_snoc.
      * eapply expects_ext; [by apply no_net_snoc|exact Hx'].
      * intros o Ho. apply Hs. by rewrite <- Hq4.
      * intros j Hj. rewrite Hq4. destruct (Hall j Hj) as [Hj'|]; [left; by apply evidence_app, Hev|by right].
      * intros o. unfold tries. rewrite Ha4. destruct (decide (i * size = o)) as [<-|].
        -- rewrite lookup_insert_eq. simpl. lia.
        -- rewrite lookup_insert_ne by done. apply Htr.
    + assert (rounds d4 < rounds d)%nat; [|lia]. eapply rounds_retry; [done| |done|done].
      rewrite (Hq (d <| in_flight := flight |>)) by done. constructor.
Qed.

(** The queue of the drain: every sealed chunk, the hot ones first. *)
Lemma hot_first_spec positions queued0 :
  (∀ o, o ∈ (hot_first rt (peer_seal c) positions queued0).1 → ∃ i, o = i * size ∧ sealed i) ∧
  (∀ i, i ∈ (hot_first rt (peer_seal c) positions queued0).2 → i ∈ queued0 ∨
     i * size ∈ (hot_first rt (peer_seal c) positions queued0).1).
Proof.
  revert queued0. induction positions as [|o positions IH]; intros q; simpl.
  { split; [by intros o Ho%elem_of_nil|by left]. }
  destruct (SealBitmap.get (peer_seal c) (o / size)) eqn:Es; simpl; [|apply IH].
  case_bool_decide as Hin; [|apply IH]. specialize (IH ({[o / size]} ∪ q)).
  destruct (hot_first _ _ positions _) as [l q'] eqn:El. simpl in *. destruct IH as [IH1 IH2]. split.
  - intros x [->|Hx]%elem_of_cons; [eauto|auto].
  - intros i Hi. destruct (IH2 i Hi) as [[->%elem_of_singleton|]%elem_of_union|]; [right; constructor|by left|].
    right. by constructor.
Qed.

Lemma drain_todo_spec tr :
  (∀ o, o ∈ (drain_todo rt (peer_seal c) tr).1 → ∃ i, o = i * size ∧ sealed i) ∧
  (∀ i, sealed i → i * size ∈ (drain_todo rt (peer_seal c) tr).1).
Proof.
  unfold drain_todo.
  assert (Hhot : match (match tr with Some t => hot_first rt (peer_seal c) (trace_positions rt t) ∅ | None => ([], ∅) end) with
    (lead, q) => (∀ o, o ∈ lead → ∃ i, o = i * size ∧ sealed i) ∧ (∀ i, i ∈ q → i * size ∈ lead) end).
  { destruct tr as [t|]; [|by split; [intros o Ho%elem_of_nil|intros i Hi%elem_of_empty]].
    pose proof (hot_first_spec (trace_positions rt t) ∅) as [H1 H2].
    destruct (hot_first _ _ _ _) as [l q]. simpl in *. split; [done|]. intros i Hi.
    destruct (H2 i Hi) as [?%elem_of_empty|]; done. }
  destruct (match tr with Some _ => _ | None => _ end) as [lead q]. destruct Hhot as [H1 H2]. simpl. split.
  - intros o [Ho|Ho]%elem_of_app; [by apply H1|]. apply list_elem_of_fmap in Ho as (i&->&Hi).
    apply elem_of_filterb in Hi as [Hi _]. apply elem_of_filterb in Hi as [_ Hi]. eauto.
  - intros i Hi. destruct (decide (i ∈ q)) as [Hq|Hq]; apply elem_of_app; [left; auto|right].
    apply list_elem_of_fmap. exists i. split; [done|]. apply elem_of_filterb. split; [|by rewrite bool_decide_false].
    apply elem_of_filterb. split; [|done]. apply elem_of_range. split; [lia|].
    rewrite SealBitmap.get_bit in Hi. by apply andb_true_iff in Hi as [Hi%N.ltb_lt _].
Qed.

Lemma drain_spec fuel tr h :
  held h = ∅ →
  twp h (drain_with_hint decompress_size_prepended wire_hash rt fuel c tr) (fun h' r =>
    ∀ x, r = Ok x → held h' = ∅ ∧ all_installed h').
Proof.
  intros H0. unfold drain_with_hint. apply wp_try, wp_bind.
  eapply wp_mono, (dial_spec always True always_quiet). cbv beta. intros h1 [s|err] [He Hd]; apply wp_ret; [|done].
  destruct (Hd s eq_refl) as [Hx _]. pose proof (drain_todo_spec tr) as [Hs Hall].
  destruct (drain_todo rt (peer_seal c) tr) as [queue lead]. simpl in Hs, Hall.
  apply wp_try. eapply wp_mono, drain_loop_spec.
  - cbv beta. intros h2 [d|err] Hok; [|done]. destruct (Hok d eq_refl) as [Hh Hin].
    apply wp_bind, wp_ask; [done|]. intros w _. apply wp_ret. intros x _. split; [by rewrite held_snoc|].
    intros i Hi. by apply evidence_app, Hin.
  - split; simpl.
    + by rewrite (extends_held h h1).
    + done.
    + exact Hs.
    + intros i Hi. right. by apply Hall.
    + intros o. unfold tries. simpl. rewrite lookup_empty. simpl. lia.
  - unfold rounds, queued, tries. simpl. clear. set (f := fun _ => _).
    assert (H : ∀ l, sum_list_with f l = (4 * length l)%nat).
    { intros l. induction l as [|o l IH]; simpl; [done|]. rewrite IH. unfold f. rewrite lookup_empty. simpl. lia. }
    rewrite H. lia.
Qed.

(** *** The producer *)

(** After the drain every chunk may be installed from the manifest: a sealed one
    is not claimed any more. *)
Definition warm_ready (h : history) : Prop := held h = ∅ ∧ drained h.

Lemma warm_calm h h' : calm h h' → warm_ready h → warm_ready h'.
Proof. intros [He Hh] [H0 Hd]. split; [congruence|by eapply extends_drained]. Qed.

Lemma warm_manifest h i : warm_ready h → i ∉ held h ∧ may_manifest h i.
Proof. intros [-> Hd]. split; [set_solver|]. intros _. by right. Qed.

Lemma each_spec l f h :
  warm_ready h → (∀ x h1, x ∈ l → warm_ready h1 → settles h1 (f x)) → settles h (each l f).
Proof.
  revert h. induction l as [|x l IH]; intros h Hw Hf; cbn [each]; [apply settles_ret|].
  apply settles_try; [apply Hf; [constructor|done]|]. intros h1 b Hc. apply IH; [by eapply warm_calm|].
  intros y h2 Hy. apply Hf. by constructor.
Qed.

Lemma prefault_spec fuel hashes h :
  warm_ready h → settles h (prefault_from_trace rt fuel hashes).
Proof.
  revert h. induction hashes as [|k hashes IH]; intros h Hw; cbn [prefault_from_trace]; [apply settles_ret|].
  apply settles_try; [|intros h1 [] Hc; apply IH; by eapply warm_calm]. unfold prefault_hash.
  pose proof (fun o => Backend.positions_of base_m sess_m (backend rt) k o built) as Hpos.
  destruct (Backend.session_positions_of (backend rt) k) as [|p ps]; [apply settles_ret|].
  revert Hpos. generalize (p :: ps). clear p ps. intros l Hpos.
  destruct (base_shm rt).
  - apply each_spec; [done|]. intros o h1 (i&->&Hk)%Hpos [Hn Hm]%(fun H => warm_manifest _ i H).
    eapply installs_settles.
    destruct (Backend.resolve (backend rt) (i * size)) as [r|] eqn:Er; [|by apply manifest_chunk].
    apply (Backend.resolve_hash base_m sess_m) in Er as (_&_&Hoff&_); [|exact built].
    destruct r as [o| |]; [|by apply manifest_chunk..].
    assert (o = i * size) as -> by (rewrite N.div_mul in Hoff by apply size_pos; auto).
    case_bool_decide; [by apply manifest_shared|by apply manifest_chunk].
  - apply wp_try. eapply wp_mono, fetch_spec. cbv beta. intros h1 [b|err] [He Hb]; [|by apply calm_quiet].
    assert (Hc : calm h h1) by (by apply calm_quiet).
    eapply wp_mono, each_spec; [|by eapply warm_calm|].
    + intros h2 r Hc2. by eapply calm_trans.
    + intros o h2 (i&->&Hk)%Hpos [Hn Hm]%(fun H => warm_manifest _ i H).
      pose proof (Backend.session_hash_bound _ _ _ _ _ built Hk) as Hi.
      eapply installs_settles, install_chunk_spec; [done|done|]. apply manifest_fresh; [done|].
      intros Hs. eapply stored_good; [done|done|by apply Hb].
Qed.

Lemma sweep_chunk_spec fuel pass i h :
  warm_ready h → settles h (sweep_chunk rt fuel pass (i * size)).
Proof.
  intros [Hn Hm]%(fun H => warm_manifest _ i H). unfold sweep_chunk.
  destruct (Backend.resolve (backend rt) (i * size)) as [r|] eqn:Er; [|destruct pass; apply settles_ret].
  apply (Backend.resolve_hash base_m sess_m) in Er as (_&Hr&Hoff&Hcan); [|exact built].
  rewrite N.div_mul in Hr, Hoff by apply size_pos.
  destruct pass, r as [o|k|o]; try apply settles_ret; simpl in Hr.
  - eapply installs_settles. by apply manifest_chunk.
  - assert (o = i * size) as -> by auto. destruct (Hcan _ eq_refl) as [k Hk]. rewrite Hk in *.
    eapply installs_settles. destruct (base_shm rt); [by apply manifest_shared|by apply manifest_chunk].
Qed.

Lemma sweep_pass_spec fuel pass l h :
  warm_ready h → settles h (sweep_pass rt fuel pass l).
Proof.
  revert h. induction l as [|i l IH]; intros h Hw; cbn [sweep_pass]; [apply settles_ret|].
  apply wp_bind, wp_ask; [done|]. intros left _.
  assert (Hc1 : calm h (h ++ [Ev SweepBudgetLeft left])) by (by apply calm_snoc).
  set (h1 := h ++ _) in *. clearbody h1. destruct left; cbn [negb]; [|by apply wp_ret].
  rewrite post_copy. apply wp_bind.
  assert (Hskip : ∀ Q : list (event dreq) → bool → Prop, (∀ h' b, calm h h' → Q h' b) →
    twp h1 (if SealBitmap.get (peer_seal c) i then b ← ask (ChunkInstalled i); Ret (negb b) else Ret false) Q).
  { intros Q HQ. destruct (SealBitmap.get (peer_seal c) i); [|by apply wp_ret, HQ].
    apply wp_bind, wp_ask; [done|]. intros b _. apply wp_ret, HQ. eapply calm_trans; [done|by apply calm_snoc]. }
  apply Hskip. clear Hskip. intros h2 skip Hc2. apply wp_try.
  apply (wp_mono _ _ _ _ (fun h' _ => calm h h')).
  - intros h3 [b|err] Hc3; [|done]. eapply wp_mono, IH; [|by eapply warm_calm].
    intros h4 r Hc4. by eapply calm_trans.
  - destruct skip; [by apply wp_ret|]. eapply wp_mono, sweep_chunk_spec; [|by eapply warm_calm].
    intros h3 r Hc3. by eapply calm_trans.
Qed.

Lemma sweep_spec fuel h : warm_ready h → settles h (sweep_all rt fuel).
Proof.
  intros Hw. unfold sweep_all. destruct (eager_sweep rt); cbn [negb]; [|apply settles_ret].
  apply settles_try; [by apply sweep_pass_spec|]. intros h1 stop Hc. destruct stop; [apply settles_ret|].
  apply settles_try; [apply sweep_pass_spec; by eapply warm_calm|]. intros; apply settles_ret.
Qed.

Lemma producer_spec fuel tr :
  twp [] (producer decompress_size_prepended wire_hash rt fuel tr) (fun _ _ => True).
Proof.
  unfold producer. rewrite post_copy. apply wp_bind. eapply wp_mono, drain_spec; [|done]. cbv beta.
  intros h [[st tr']|err] Hok.
  - destruct (Hok _ eq_refl) as [H0 Hall].
    apply wp_bind, wp_ask; [done|]. intros [] _.
    assert (Hall1 : all_installed (h ++ [Ev StopWindow tt])) by (intros i Hi; by apply evidence_app, Hall).
    apply wp_bind, wp_ask; [done|]. intros [] _.
    apply wp_bind, wp_ask; [intros i Hi; by apply evidence_app, Hall1|]. intros [] _.
    set (h3 := _ ++ [_]). assert (Hw : warm_ready h3).
    { split; [unfold h3; by rewrite !held_snoc|]. apply drained_app. exists (Ev SetDrainDone tt).
      split; [by apply elem_of_app; right; constructor|done]. }
    clearbody h3. apply wp_bind. apply (wp_mono _ _ _ _ (fun h' _ => warm_ready h')).
    + intros h4 _ Hw4. apply wp_bind. eapply wp_mono, sweep_spec; [|done]. intros h5 _ _. by apply wp_ret.
    + destruct tr' as [t|]; [|by apply wp_ret]. eapply wp_mono, prefault_spec; [|done].
      cbv beta. intros h4 _ Hc. by eapply warm_calm.
  - apply wp_bind, wp_ask; [done|]. intros [] _. apply wp_bind, wp_ask; [done|]. intros n _. by apply wp_ask.
Qed.

End thread.
