(* ===== verification/UffdRoles.v ===== *)
(** * Who uses the drain flag

    [drain_done] of [runtime.rs] is stored twice: by the producer when the drain
    is complete, and by the main thread when its fault loop has ended, complete
    or not.  Only the fault path loads it, and the fault path is the main
    thread, which is at its end when it stores it: so a load never sees the
    second store.  The programs of [Uffd.v] are gone through for that. *)

From S2P Require Import Prelude Prog Manifest Wire DirtyMap PeerServer Backend Uffd.
Local Open Scope N_scope.

(** The requests that load the flag, or store it at the end of the faults. *)
Definition on_flag (X : Type) (q : dreq X) : bool :=
  match q with IsDrainDone | EndFaults => true | _ => false end.

Definition off_flag (X : Type) (q : dreq X) : Prop := on_flag X q = false.
Definition not_last (X : Type) (q : dreq X) : Prop := match q with EndFaults => False | _ => True end.

(** After [EndFaults] nothing is asked. *)
Fixpoint ends_last {A} (p : prog dreq A) : Prop :=
  match p with
  | Ret _ => True
  | Do q k => match q with
              | EndFaults => ∀ x, ∃ a, k x = Ret a
              | _ => ∀ x, ends_last (k x)
              end
  end.

Lemma ends_last_bind {A B} (p : prog dreq A) (f : A → prog dreq B) :
  all_req not_last p → (∀ a, ends_last (f a)) → ends_last (p ≫= f).
Proof.
  intros Hp Hf. induction p as [a|X q k IH]; [apply Hf|]. destruct Hp as [Hq Hk].
  destruct q; try (by intros x; apply IH, Hk). destruct Hq.
Qed.

Section roles.

Context (decompress_size_prepended : list N → option (list N)) (wire_hash : list N → list N).
Context (rt : Runtime) (fuel : nat).
Context (P : ∀ X, dreq X → Prop) (HP : ∀ X q, off_flag X q → P X q).

Notation sorted p := (all_req P p).

Ltac each_req := requests; try (by apply HP).

Lemma never_sorted {A} q : P _ q → sorted (never (A := A) q).
Proof. intros Hq. split; [done|]. by intros []. Qed.

Lemma addrs_sorted connected addrs e : (∀ b, sorted (connected b)) → sorted (connect_addrs connected addrs e).
Proof.
  intros Hc. revert e. induction addrs as [|a addrs IH]; intros e; cbn [connect_addrs]; [done|].
  each_req; auto.
Qed.
#[local] Opaque connect_addrs.

Lemma dial_sorted c purpose connected :
  (∀ b, sorted (connected b)) → sorted (dial_with_socket c purpose connected).
Proof.
  intros Hc. unfold dial_with_socket, connect_with_socket. each_req; auto. by apply addrs_sorted.
Qed.
#[local] Opaque dial_with_socket.

Lemma always_sorted b : sorted (always b).
Proof. done. Qed.

Lemma read_sorted {St E} (install : St → N → PeerPage → prog dreq (result St E)) cancelled req offsets s :
  (∀ s o p, sorted (install s o p)) → sorted cancelled →
  sorted (read_window decompress_size_prepended wire_hash install cancelled req offsets s).
Proof.
  intros Hi Hc. revert s. induction offsets as [|o offsets IH]; intros s; cbn [read_window]; [done|].
  each_req; auto.
Qed.
#[local] Opaque read_window.

Lemma stream_sorted {St E} n c fresh (install : St → N → PeerPage → prog dreq (result St E)) cancelled
    connected offsets s :
  (∀ s o p, sorted (install s o p)) → sorted cancelled → (∀ b, sorted (connected b)) →
  sorted (stream_attempts decompress_size_prepended wire_hash n c fresh install cancelled connected offsets s).
Proof.
  intros Hi Hc Hk. revert fresh offsets s. induction n as [|n IH]; intros fresh offsets s; cbn [stream_attempts]; [done|].
  unfold one_attempt, request_window.
  each_req; auto using dial_sorted, read_sorted.
Qed.
#[local] Opaque stream_attempts.

Lemma need_at_sorted c offset : sorted (need_at decompress_size_prepended wire_hash c offset).
Proof. unfold need_at, need_window, stream_window. each_req. by apply stream_sorted. Qed.
#[local] Opaque need_at.

Lemma claim_sorted n i : sorted (claim_for_install n i).
Proof. induction n as [|n IH]; cbn [claim_for_install]; [apply never_sorted; by apply HP|]. each_req; auto. Qed.
#[local] Opaque claim_for_install.

Lemma spanning_sorted n off end_ cur seg :
  (∀ a b d, sorted (seg a b d)) → sorted (spanning_loop rt n off end_ cur seg).
Proof.
  intros Hs. revert cur. induction n as [|n IH]; intros cur; cbn [spanning_loop]; [apply never_sorted; by apply HP|].
  each_req; auto.
Qed.
#[local] Opaque spanning_loop.

Lemma settled_sorted i p : sorted p → sorted (settled i p).
Proof. intros Hp. unfold settled, settle_install. each_req; auto. Qed.
#[local] Opaque settled.

Lemma chunk_at_sorted off b w : sorted (install_claimed_chunk_at rt off b w).
Proof. apply settled_sorted, spanning_sorted. intros. unfold uffd. each_req. Qed.
#[local] Opaque install_claimed_chunk_at.

Lemma zero_at_sorted off w : sorted (install_claimed_zero_at rt off w).
Proof. apply settled_sorted, spanning_sorted. intros. unfold uffd. each_req. Qed.
#[local] Opaque install_claimed_zero_at.

Lemma substrate_sorted off w : sorted (install_claimed_zero_substrate rt off w).
Proof. apply settled_sorted, spanning_sorted. intros. unfold zero_segment, uffd. each_req. Qed.
#[local] Opaque install_claimed_zero_substrate.

Lemma claiming_sorted off p : sorted p → sorted (claiming rt fuel off p).
Proof. intros Hp. unfold claiming. each_req; auto. apply claim_sorted. Qed.
#[local] Opaque claiming.

Lemma install_zero_sorted off w : sorted (install_zero rt fuel off w).
Proof.
  unfold install_zero, install_zero_substrate, install_zero_at.
  destruct (base_shm rt); apply claiming_sorted; [apply substrate_sorted|apply zero_at_sorted].
Qed.
#[local] Opaque install_zero.

Lemma install_chunk_sorted off b w : sorted (install_chunk_at rt fuel off b w).
Proof. apply claiming_sorted, chunk_at_sorted. Qed.
#[local] Opaque install_chunk_at.

Lemma fetch_sorted k : sorted (fetch_chunk k).
Proof. unfold fetch_chunk. each_req. Qed.
#[local] Opaque fetch_chunk.

Lemma continue_sorted n va len d w : sorted (continue_loop rt n va len d w).
Proof.
  revert d. induction n as [|n IH]; intros d; cbn [continue_loop]; [apply never_sorted; by apply HP|]. each_req; auto.
Qed.
#[local] Opaque continue_loop.

Lemma shared_sorted off k w : sorted (install_canonical_shared rt fuel off k w).
Proof.
  apply claiming_sorted, settled_sorted. unfold populate_and_continue, install_spanning.
  each_req; auto using fetch_sorted. apply spanning_sorted. intros. apply continue_sorted.
Qed.
#[local] Opaque install_canonical_shared.

Lemma prepare_sorted off page : sorted (prepare_peer_page rt off page).
Proof. unfold prepare_peer_page. each_req; auto using fetch_sorted. Qed.
#[local] Opaque prepare_peer_page.

Lemma claimed_page_sorted off b : sorted (install_claimed_peer_page rt off b).
Proof.
  unfold install_claimed_peer_page.
  each_req; auto using chunk_at_sorted, substrate_sorted, zero_at_sorted.
Qed.
#[local] Opaque install_claimed_peer_page.

Lemma window_page_sorted off page : sorted (install_window_page rt fuel off page).
Proof.
  unfold install_window_page, install_peer_page, install_prepared_peer_page.
  each_req; auto using prepare_sorted, claiming_sorted, claimed_page_sorted.
Qed.
#[local] Opaque install_window_page.

Lemma connected_sorted b : sorted (worker_connected b).
Proof. unfold worker_connected. each_req. Qed.
#[local] Opaque worker_connected.

Lemma worker_install_sorted fo off page : sorted (worker_install rt fuel fo off page).
Proof.
  unfold worker_install, window_error.
  each_req; auto using prepare_sorted, claim_sorted, claimed_page_sorted.
Qed.
#[local] Opaque worker_install.

(** A window worker leaves the flag alone. *)
Lemma window_worker_sorted c offsets fo :
  sorted (window_worker decompress_size_prepended wire_hash rt fuel c offsets fo).
Proof.
  unfold window_worker, worker_body, window_error, stream_window.
  each_req; auto using dial_sorted, stream_sorted, connected_sorted, worker_install_sorted.
  apply stream_sorted; [|each_req|]; auto using connected_sorted, worker_install_sorted.
Qed.

(** *** The fault path *)

Lemma resolved_sorted fa off pa ps : sorted (serve_resolved rt fuel fa off pa ps).
Proof.
  unfold serve_resolved, wake_page, uffd.
  each_req; auto using fetch_sorted, shared_sorted, install_chunk_sorted, install_zero_sorted.
Qed.
#[local] Opaque serve_resolved.

Lemma ask_installed_sorted l : sorted (ask_installed l).
Proof. induction l as [|i l IH]; cbn [ask_installed]; [done|]. each_req; auto. Qed.
#[local] Opaque ask_installed.

Lemma fault_loop_sorted faults :
  P _ IsDrainDone → sorted (fault_loop decompress_size_prepended wire_hash rt fuel faults).
Proof.
  intros Hd. assert (Hf : sorted (serve_faults decompress_size_prepended wire_hash rt fuel faults)).
  { induction faults as [|a faults IH]; cbn [serve_faults]; [done|]. apply all_req_try; [|done].
    unfold serve_pagefault, serve_fault_window, peer_lost, wake_page, uffd.
    each_req; auto using resolved_sorted, ask_installed_sorted, need_at_sorted, window_page_sorted.
    all: apply never_sorted; by apply HP. }
  unfold fault_loop, peer_lost, dial. each_req; auto. by apply dial_sorted.
Qed.
#[local] Opaque fault_loop.

(** *** The producer *)

Lemma count_sorted l : sorted (count_uninstalled rt l).
Proof. induction l as [|i l IH]; cbn [count_uninstalled]; [done|]. each_req; auto. Qed.
#[local] Opaque count_uninstalled.

Lemma fill_sorted n d : sorted (fill rt n d).
Proof.
  revert d. induction n as [|n IH]; intros d; cbn [fill]; [apply never_sorted; by apply HP|]. each_req; auto.
Qed.
#[local] Opaque fill.

Lemma durable_sorted off : sorted (install_durable rt fuel off).
Proof. unfold install_durable. each_req; auto using fetch_sorted, install_chunk_sorted, install_zero_sorted. Qed.
#[local] Opaque install_durable.

Lemma drained_sorted off page d : sorted (install_drained rt fuel off page d).
Proof.
  unfold install_drained. each_req; auto using install_chunk_sorted, install_zero_sorted, durable_sorted.
Qed.
#[local] Opaque install_drained.

Lemma drain_loop_sorted n total d :
  sorted (drain_loop decompress_size_prepended wire_hash rt fuel n total d).
Proof.
  revert d. induction n as [|n IH]; intros d; cbn [drain_loop]; [apply never_sorted; by apply HP|].
  unfold take_hint. each_req; auto using count_sorted, fill_sorted, drained_sorted.
Qed.
#[local] Opaque drain_loop.

Lemma drain_sorted c trace : sorted (drain_with_hint decompress_size_prepended wire_hash rt fuel c trace).
Proof.
  unfold drain_with_hint, peer_lost, dial. each_req; auto using drain_loop_sorted. by apply dial_sorted.
Qed.
#[local] Opaque drain_with_hint.

Lemma each_sorted l f : (∀ x, sorted (f x)) → sorted (each l f).
Proof. intros Hf. induction l as [|x l IH]; cbn [each]; [done|]. each_req; auto. Qed.
#[local] Opaque each.

Lemma prefault_sorted hashes : sorted (prefault_from_trace rt fuel hashes).
Proof.
  induction hashes as [|k hashes IH]; cbn [prefault_from_trace]; [done|]. apply all_req_try; [|done].
  unfold prefault_hash. each_req; auto using fetch_sorted; apply each_sorted; intros x;
    each_req; auto using fetch_sorted, shared_sorted, install_chunk_sorted.
Qed.
#[local] Opaque prefault_from_trace.

Lemma sweep_chunk_sorted pass off : sorted (sweep_chunk rt fuel pass off).
Proof. unfold sweep_chunk. each_req; auto using fetch_sorted, shared_sorted, install_chunk_sorted. Qed.
#[local] Opaque sweep_chunk.

Lemma sweep_pass_sorted pass l : sorted (sweep_pass rt fuel pass l).
Proof.
  induction l as [|i l IH]; cbn [sweep_pass]; [done|]. each_req; auto using sweep_chunk_sorted.
Qed.
#[local] Opaque sweep_pass.

(** The producer does not load the flag, and stores it only as the end of the
    drain. *)
Lemma producer_sorted trace : sorted (producer decompress_size_prepended wire_hash rt fuel trace).
Proof.
  unfold producer, sweep_all. each_req; auto using drain_sorted, prefault_sorted, sweep_pass_sorted.
Qed.

End roles.

(** The main thread ends with the store. *)
Lemma fault_thread_last decompress hash rt fuel faults :
  ends_last (fault_thread decompress hash rt fuel faults).
Proof.
  unfold fault_thread. apply ends_last_bind.
  - apply fault_loop_sorted; [|done]. by intros X [].
  - intros r x y. by eexists.
Qed.
