(* ===== verification/UffdPool.v ===== *)
(** * Post-copy migration, end to end

    The threads of [Uffd.v] run together on the shared table of chunk states,
    the drain flag, the lost latch and the channel of first pages, in any
    interleaving; at the other end of each connection runs the page server of
    [PeerServer.v].  The theorem says what is in the guest. *)

From S2P Require Import Prelude Prog Manifest Wire DirtyMap PeerServer Backend Uffd UffdProps UffdRoles.
Local Open Scope N_scope.

(** ** The shared state *)

(** [drain_done] has two writers; [faults_ended] records the second, the main
    thread at the end of its fault loop. *)
Record shared := MkShared {
  installed : list ChunkState;
  drain_done : bool;
  faults_ended : bool;
  peer_is_lost : bool;
  first_pages : list (N * PeerPage);
}.

#[export] Instance eta_shared : Eta shared := fun s =>
  MkShared (installed s) (drain_done s) (faults_ended s) (peer_is_lost s) (first_pages s).

Definition state_of (t : list ChunkState) (i : N) : option ChunkState := t !! N.to_nat i.

Definition claim_chunk (t : list ChunkState) (i : N) : Claim * list ChunkState :=
  match state_of t i with
  | Some Empty => (Claimed, <[N.to_nat i := Installing]> t)
  | Some Installing => (InFlight, t)
  | Some Installed => (Done, t)
  | None => (Claimed, t)
  end.

(** [insert] does nothing out of range, as [get_mut] does. *)
Definition mark_installed (t : list ChunkState) (i : N) : list ChunkState := <[N.to_nat i := Installed]> t.
Definition release_chunk (t : list ChunkState) (i : N) : list ChunkState := <[N.to_nat i := Empty]> t.

(** [None]: it waits. *)
Definition wait_until_settled (t : list ChunkState) (i : N) : option ChunkState :=
  match state_of t i with
  | Some Installing => None
  | Some st => Some st
  | None => Some Installed
  end.

Definition chunk_installed (t : list ChunkState) (i : N) : bool :=
  bool_decide (state_of t i = Some Installed).

Definition sealed_uninstalled_count (seal : SealBitmap.t) (t : list ChunkState) : N :=
  N.of_nat (length (List.filter (fun i => SealBitmap.get seal i && negb (chunk_installed t i))
                                (range 0 (SealBitmap.chunk_count seal)))).

(** What a request does to the shared state, and its answer. *)
Definition serve (seal : SealBitmap.t) (s : shared) (X : Type) (q : dreq X) : X → shared → Prop :=
  match q in dreq X return X → shared → Prop with
  | ClaimChunk i => fun x s' => (x, installed s') = claim_chunk (installed s) i ∧ s' = s <| installed := installed s' |>
  | WaitSettled i => fun x s' => wait_until_settled (installed s) i = Some x ∧ s' = s
  | MarkInstalled i => fun _ s' => s' = s <| installed := mark_installed (installed s) i |>
  | ReleaseChunk i => fun _ s' => s' = s <| installed := release_chunk (installed s) i |>
  | ChunkInstalled i => fun x s' => x = chunk_installed (installed s) i ∧ s' = s
  | UninstalledCount => fun x s' => x = sealed_uninstalled_count seal (installed s) ∧ s' = s
  | IsDrainDone => fun x s' => x = drain_done s ∧ s' = s
  | SetDrainDone => fun _ s' => s' = s <| drain_done := true |>
  | EndFaults => fun _ s' => s' = s <| drain_done := true |> <| faults_ended := true |>
  | IsLost => fun x s' => x = peer_is_lost s ∧ s' = s
  | MarkLost => fun _ s' => s' = s <| peer_is_lost := true |>
  | SendFirst off page => fun x s' => s' = if is_ok x then s <| first_pages ::= cons (off, page) |> else s
  | RecvFirst off => fun x s' => s' = s ∧ match x with Ok page => (off, page) ∈ first_pages s | Err _ => True end
  | _ => fun _ s' => s' = s
  end.

(** ** The threads *)

Record tstate := MkThread { prog_left : prog dreq unit; past : list (event dreq) }.
Record pool := MkPool { state : shared; threads : list tstate }.

Section pool.

Context (sha256 : list N → ChunkHash) (digest : string → list N) (wire_hash compress_prepend_size : list N → list N)
        (decompress_size_prepended : list N → option (list N)).
Context (e : PeerExport) (mem : N → N).
Context (rt : Runtime) (c : PeerConf) (base_m sess_m : Manifest.t).
Context (stored : ChunkHash → list N → Prop) (base : N → list N).
Hypothesis mig : migration sha256 compress_prepend_size decompress_size_prepended e rt c base_m sess_m stored.

(** How often a claim is retried before the model stops following the thread. *)
Context (fuel : nat).

Notation size := (Backend.chunk_size (backend rt)).
Notation chunks := (UffdProps.chunks rt).
Notation sealed i := (SealBitmap.get (peer_seal c) i = true).
Notation good := (UffdProps.good sha256 e mem rt c stored).
Notation covered := (UffdProps.covered rt base).
Notation page_ok := (UffdProps.page_ok sha256 e mem rt).
Notation ans := (UffdProps.ans sha256 wire_hash compress_prepend_size e mem rt c stored base).
Notation can := (UffdProps.can sha256 e mem rt c stored base).

(** The page server at the other end: it serves the export, has read a prefix of
    what the thread wrote, and [m] is what it wrote after what the thread read. *)
Definition from_server (h : list (event dreq)) (m : FromSource) : Prop :=
  ∃ n hs o, runs (s_ans mem) [] (handle_conn sha256 digest wire_hash compress_prepend_size n) hs o ∧
    (∀ ev id e', ev ∈ hs → export_of id ev = Some e' → e' = e) ∧
    reads hs `prefix_of` (conn h).1 ∧ writes hs = (conn h).2 ++ [m].

(** What comes from outside the handler. *)
Definition outside (h : list (event dreq)) (X : Type) (q : dreq X) : X → Prop :=
  match q in dreq X return X → Prop with
  | DRead => fun x => match x with Ok m => from_server h m | Err _ => True end
  | CacheRead k => fun x => match x with Ok (Some b) => stored k b | _ => True end
  | Populate k => fun x => match x with Some (Ok b) => stored k b | _ => True end
  | StoreGet k => fun x => match x with Ok b => stored k b | Err _ => True end
  | BasePopulated off _ => fun x => x = true →
      ∀ k, Backend.canonical_chunk_hash (backend rt) off = Some k → stored k (base (off / size))
  | BaseWrite off _ => fun x => is_ok x = true →
      ∀ k, Backend.canonical_chunk_hash (backend rt) off = Some k → stored k (base (off / size))
  | Continue_ _ _ _ => fun x => match x with Ok mapped => 0 < mapped | Err _ => True end
  | _ => fun _ => True
  end.

(** The thread a request starts. *)
Definition spawned (X : Type) (q : dreq X) : X → list tstate :=
  match q in dreq X return X → list tstate with
  | SpawnWorker offs fo => fun x =>
      if is_ok x then [MkThread (window_worker decompress_size_prepended wire_hash rt fuel c offs fo) []] else []
  | _ => fun _ => []
  end.

Inductive step : pool → pool → Prop :=
| step_ask s ts n X (q : dreq X) k h x s' :
    ts !! n = Some (MkThread (Do q k) h) → outside h X q x → serve (peer_seal c) s X q x s' →
    step (MkPool s ts) (MkPool s' (<[n := MkThread (k x) (h ++ [Ev q x])]> ts ++ spawned X q x)).

(** The handler starts with the main thread, which serves the faults, and the
    producer. *)
Definition start (faults : list N) (trace : option WorkingSetTrace) : pool :=
  MkPool (MkShared (replicate (N.to_nat chunks) Empty) false false false [])
    [MkThread (fault_thread decompress_size_prepended wire_hash rt fuel faults) [];
     MkThread (producer decompress_size_prepended wire_hash rt fuel trace) []].

Definition reachable (faults : list N) (trace : option WorkingSetTrace) : pool → Prop :=
  rtc step (start faults trace).

(** ** The server's answers *)

Lemma answers_more p its its' outs :
  Answers sha256 wire_hash compress_prepend_size mem e p its outs →
  Answers sha256 wire_hash compress_prepend_size mem e p (its ++ its') outs.
Proof. induction 1; simpl; eauto using Answers. Qed.

(** The history up to its last write. *)
Lemma last_write hs ws m :
  writes hs = ws ++ [m] →
  ∃ h1 x h2, hs = h1 ++ Ev (SWrite m) x :: h2 ∧ writes h1 = ws ∧ reads h1 `prefix_of` reads hs.
Proof.
  induction hs as [|ev hs IH] using rev_ind; [by destruct ws|].
  unfold writes, reads. rewrite !omap_app. fold (writes hs) (reads hs). intros Hw.
  destruct ev as [X q x]. destruct q.
  all: try (simpl in Hw; rewrite app_nil_r in Hw; destruct (IH Hw) as (h1&y&h2&->&H1&H2);
    eexists h1, y, (h2 ++ [_]); split; [rewrite <- app_assoc; reflexivity|split; [done|by apply prefix_app_r]]).
  simpl in Hw. apply app_inj_2 in Hw as [Hw Hm]; [|done]. injection Hm as ->. exists hs, x, [].
  split; [done|]. split; [done|]. by apply prefix_app_r.
Qed.

Lemma server_speaks h m :
  from_server h m → speaks sha256 wire_hash compress_prepend_size e mem h m.
Proof.
  intros (n&hs&o&Hr&He&[more Hread]&(h1&x&h2&->&Hw&[more' Hpre])%last_write).
  apply handle_conn_allowed in Hr. specialize (Hr h1 _ h2 eq_refl). simpl in Hr.
  destruct Hr as [[Hn Hm]|(e'&p&reqs&outs&(id&tok&Hhello&Hin&_)&Hp&Ha)].
  - left. split; [by rewrite <- Hw|done].
  - apply list_elem_of_omap in Hin as (ev&Hev&Hex).
    assert (e' = e) as -> by (eapply He; [|exact Hex]; by apply elem_of_app; left).
    right. exists id, tok, p, (reqs ++ more' ++ more), outs. rewrite <- Hw. split_and!.
    + rewrite Hread, Hpre, Hhello. simpl. by rewrite <- app_assoc.
    + done.
    + rewrite fmap_app. by apply answers_more.
Qed.

(** ** What a request does *)

(** The table and the claims of the thread: a claim is taken, one is settled, or
    neither changes. *)
Inductive effect (t t' : list ChunkState) (hd hd' : gset N) : Prop :=
| eff_claim i :
    state_of t i = Some Empty → t' = <[N.to_nat i := Installing]> t → hd' = {[i]} ∪ hd → effect t t' hd hd'
| eff_settle i st :
    i ∈ hd → st ≠ Installing → t' = <[N.to_nat i := st]> t → hd' = hd ∖ {[i]} → effect t t' hd hd'
| eff_none : t' = t → hd' = hd → effect t t' hd hd'.

Lemma in_table (t : list ChunkState) i : length t = N.to_nat chunks → i < chunks → is_Some (state_of t i).
Proof. intros Hl Hi. apply lookup_lt_is_Some_2. lia. Qed.

Lemma state_insert t i j st :
  state_of (<[N.to_nat i := st]> t) j = if decide (i = j) then (fun _ => st) <$> state_of t j else state_of t j.
Proof.
  unfold state_of. destruct (decide (i = j)) as [<-|Hn].
  - destruct (t !! N.to_nat i) eqn:E; simpl.
    + apply list_lookup_insert_eq. by eapply lookup_lt_Some.
    + rewrite lookup_ge_None in E |- *. by rewrite length_insert.
  - apply list_lookup_insert_ne. lia.
Qed.

Lemma serve_effect s X (q : dreq X) x s' h :
  length (installed s) = N.to_nat chunks → can h X q → serve (peer_seal c) s X q x s' →
  effect (installed s) (installed s') (held h) (held (h ++ [Ev q x])).
Proof.
  intros Hl Hcan. destruct q; simpl; rewrite held_snoc;
    try (intros H; destruct_and? H; subst; apply eff_none; [by repeat case_match|done]).
  - intros [Hc _]. unfold claim_chunk in Hc. destruct Hcan as [Hi _].
    destruct (in_table _ i Hl Hi) as [st E]. rewrite E in Hc. destruct st; simplify_eq.
    + by eapply eff_claim.
    + by apply eff_none.
    + by apply eff_none.
  - intros ->. destruct Hcan as [Hi _]. by eapply (eff_settle _ _ _ _ i Installed).
  - intros ->. by eapply (eff_settle _ _ _ _ i Empty).
Qed.

(** The length, and an installed chunk stays installed. *)
Lemma effect_length t t' hd hd' : effect t t' hd hd' → length t' = length t.
Proof. destruct 1; subst; rewrite ?length_insert; done. Qed.

Lemma effect_installed t t' hd hd' i :
  effect t t' hd hd' → (∀ j, j ∈ hd → state_of t j = Some Installing) →
  state_of t i = Some Installed → state_of t' i = Some Installed.
Proof.
  intros [j Hj -> _|j st Hj Hst -> _| -> _] Hhd Hi; rewrite ?state_insert; [..|done].
  - destruct (decide (j = i)) as [->|]; [congruence|done].
  - destruct (decide (j = i)) as [->|]; [|done]. rewrite (Hhd _ Hj) in Hi. done.
Qed.

(** What the answer shows. *)
Lemma serve_shows s X (q : dreq X) x s' h i :
  length (installed s) = N.to_nat chunks → (∀ j, j ∈ held h → state_of (installed s) j = Some Installing) →
  can h X q → serve (peer_seal c) s X q x s' → i < chunks → shows i (Ev q x) = true →
  state_of (installed s') i = Some Installed.
Proof.
  intros Hl Hhd Hcan Hs Hi. destruct (in_table _ i Hl Hi) as [st E]. destruct q; simpl in *; try done.
  - intros [H1%bool_decide_eq_true H2%bool_decide_eq_true]%andb_true_iff. cbn in H2. subst. destruct Hs as [Hs _].
    unfold claim_chunk in Hs. rewrite E in Hs. destruct st; simplify_eq. by rewrite Hs.
  - intros [H1%bool_decide_eq_true H2%bool_decide_eq_true]%andb_true_iff. cbn in H2. destruct Hs as [Hs ->]. subst.
    unfold wait_until_settled in Hs. rewrite E in Hs. destruct st; simplify_eq. done.
  - intros ->%bool_decide_eq_true. subst s'. simpl. unfold mark_installed. rewrite state_insert, decide_True by done.
    by rewrite E.
  - intros [H1%bool_decide_eq_true H2]%andb_true_iff. cbn in H2. destruct Hs as [Hs ->]. subst.
    by apply bool_decide_eq_true in H2.
Qed.

(** A chunk that becomes installed was in place. *)
Lemma serve_new s X (q : dreq X) x s' h i :
  serve (peer_seal c) s X q x s' → can h X q → state_of (installed s) i ≠ Some Installed →
  state_of (installed s') i = Some Installed → ∃ full, good i full ∧ covered h i full.
Proof.
  intros Hs Hcan Hn Hi.
  assert (Hset : ∀ j st, state_of (<[N.to_nat j := st]> (installed s)) i = Some Installed → j = i ∧ st = Installed).
  { intros j st. rewrite state_insert. destruct (decide (j = i)) as [->|]; [|done].
    destruct (state_of (installed s) i); simpl; [|done]. by intros [= ->]. }
  destruct q; simpl in Hs; try (by subst); try (by destruct Hs; subst).
  - destruct Hs as [Hs _]. unfold claim_chunk in Hs.
    destruct (state_of (installed s) _) as [[]|]; injection Hs as _ Ht; rewrite Ht in Hi; try done.
    by destruct (Hset _ _ Hi).
  - subst s'. destruct (Hset _ _ Hi) as [-> _]. apply Hcan.
  - subst s'. by destruct (Hset _ _ Hi).
  - subst s'. by destruct (is_ok x).
Qed.

(** ** The invariant *)

Record pool_ok (P : pool) : Prop := {
  po_table : length (installed (state P)) = N.to_nat chunks;
  po_threads n t : threads P !! n = Some t → wp ans can (past t) (prog_left t) (fun _ _ => True);
  po_allowed n t : threads P !! n = Some t → allowed can (past t);
  po_held n t i : threads P !! n = Some t → i ∈ held (past t) → state_of (installed (state P)) i = Some Installing;
  po_once n m t u i : threads P !! n = Some t → threads P !! m = Some u →
    i ∈ held (past t) → i ∈ held (past u) → n = m;
  po_owner i : state_of (installed (state P)) i = Some Installing →
    ∃ n t, threads P !! n = Some t ∧ i ∈ held (past t);
  po_shown n t i : threads P !! n = Some t → evidence (past t) i → i < chunks →
    state_of (installed (state P)) i = Some Installed;
  po_content i : state_of (installed (state P)) i = Some Installed →
    ∃ n t full, threads P !! n = Some t ∧ good i full ∧ covered (past t) i full;
  po_drained i : drain_done (state P) = true → faults_ended (state P) = false → sealed i →
    state_of (installed (state P)) i = Some Installed;
  po_told n t i : threads P !! n = Some t → drained (past t) → sealed i →
    state_of (installed (state P)) i = Some Installed;
  po_flag n t : threads P !! n = Some t → n ≠ 0%nat → all_req off_flag (prog_left t);
  po_main : is_Some (threads P !! 0%nat);
  po_last t : threads P !! 0%nat = Some t →
    ends_last (prog_left t) ∧ (faults_ended (state P) = true → ∃ a, prog_left t = Ret a);
  po_lost n t : threads P !! n = Some t → lost (past t) → peer_is_lost (state P) = true;
  po_first off page : (off, page) ∈ first_pages (state P) → page_ok off page;
}.

(** The answers are those the threads were verified against. *)
Lemma pool_ans P n X (q : dreq X) k h x s' :
  pool_ok P → threads P !! n = Some (MkThread (Do q k) h) → can h X q →
  outside h X q x → serve (peer_seal c) (state P) X q x s' → ans h X q x.
Proof.
  intros HP Hn Hcan Ho Hs. destruct q; try exact I; try exact Ho; simpl in *.
  - destruct x; [by apply server_speaks|done].
  - intros Hx Hl. destruct Hs as [Hs _]. apply (po_lost P HP n _ Hn) in Hl. congruence.
  - intros ->. destruct Hs as [Hs _]. destruct Hcan as [Hi _].
    destruct (in_table _ i (po_table P HP) Hi) as [st E]. unfold claim_chunk in Hs. rewrite E in Hs.
    destruct st; simplify_eq. split.
    + intros Hev. pose proof (po_shown P HP n _ i Hn Hev Hi). congruence.
    + intros Hsl Hd. pose proof (po_told P HP n _ i Hn Hd Hsl). congruence.
  - destruct x as [page|]; [|done]. destruct Hs as [_ Hin]. by apply (po_first P HP).
Qed.

(** *** A step *)

Lemma spawned_off X (q : dreq X) x t : t ∈ spawned X q x → all_req off_flag (prog_left t).
Proof.
  destruct q; try (by intros Ht%elem_of_nil). simpl. destruct (is_ok x); [|by intros Ht%elem_of_nil].
  intros ->%list_elem_of_singleton. by apply window_worker_sorted.
Qed.

Lemma spawned_ok h X (q : dreq X) x t :
  can h X q → t ∈ spawned X q x → past t = [] ∧ wp ans can [] (prog_left t) (fun _ _ => True).
Proof.
  destruct q; try (by intros _ Ht%elem_of_nil). simpl. intros (Hne&Hoffs&_). destruct (is_ok x); [|by intros Ht%elem_of_nil].
  intros ->%list_elem_of_singleton. split; [done|]. by eapply worker_spec.
Qed.

Section one_step.

Context (P : pool) (HP : pool_ok P) (n : nat) (X : Type) (q : dreq X) (k : X → prog dreq unit)
        (h : list (event dreq)) (x : X) (s' : shared).
Context (Hn : threads P !! n = Some (MkThread (Do q k) h)) (Hcan : can h X q)
        (Hs : serve (peer_seal c) (state P) X q x s').

Notation s := (state P).
Notation t' := (MkThread (k x) (h ++ [Ev q x])).
Notation ts' := (<[n := t']> (threads P) ++ spawned X q x).

(** The threads after the step. *)
Lemma after m u :
  ts' !! m = Some u →
  (m = n ∧ u = t') ∨ (m ≠ n ∧ threads P !! m = Some u) ∨ (threads P !! m = None ∧ u ∈ spawned X q x).
Proof.
  intros [Hu|[Hge Hu]]%lookup_app_Some.
  - destruct (decide (m = n)) as [->|Hne]; [left|right; left].
    + rewrite list_lookup_insert_eq in Hu by (by eapply lookup_lt_Some). by simplify_eq.
    + by rewrite list_lookup_insert_ne in Hu.
  - right; right. rewrite length_insert in Hge. split; [by apply lookup_ge_None|]. by eapply list_elem_of_lookup_2.
Qed.

Lemma stays m u : threads P !! m = Some u → m ≠ n → ts' !! m = Some u.
Proof.
  intros Hu Hne. rewrite lookup_app_l by (rewrite length_insert; by eapply lookup_lt_Some).
  by rewrite list_lookup_insert_ne.
Qed.

Lemma moves : ts' !! n = Some t'.
Proof.
  pose proof (lookup_lt_Some _ _ _ Hn). rewrite lookup_app_l by (by rewrite length_insert).
  by rewrite list_lookup_insert_eq.
Qed.

(** A thread goes on with what it did before. *)
Lemma grows m u : threads P !! m = Some u → ∃ u' t, ts' !! m = Some u' ∧ past u' = past u ++ t.
Proof.
  intros Hu. destruct (decide (m = n)) as [->|Hne].
  - exists t', [Ev q x]. split; [apply moves|]. rewrite Hn in Hu. by simplify_eq.
  - exists u, []. rewrite app_nil_r. split; [by apply stays|done].
Qed.

Lemma held_here i : i ∈ held h → state_of (installed s) i = Some Installing.
Proof. exact (po_held P HP n _ i Hn). Qed.

Notation t_effect := (serve_effect s X q x s' h (po_table P HP) Hcan Hs).

Lemma step_installed i :
  state_of (installed s) i = Some Installed → state_of (installed s') i = Some Installed.
Proof. apply (effect_installed _ _ _ _ i t_effect). exact held_here. Qed.

Lemma elsewhere m u i : threads P !! m = Some u → m ≠ n → i ∈ held (past u) → i ∉ held h.
Proof. intros Hu Hne Hi Hh. apply Hne. by eapply (po_once P HP m n u _ i Hu Hn). Qed.

(** A claim the thread holds after the step. *)
Lemma held_after i : i ∈ held (h ++ [Ev q x]) →
  state_of (installed s') i = Some Installing ∧ (i ∈ held h ∨ state_of (installed s) i = Some Empty).
Proof.
  destruct t_effect as [j Hj -> ->|j st Hj Hst -> ->| -> ->].
  - rewrite state_insert. intros [->%elem_of_singleton|Hi]%elem_of_union.
    + rewrite decide_True, Hj by done. auto.
    + pose proof (held_here i Hi) as E. rewrite E. destruct (decide (j = i)); auto.
  - intros [Hi Hne%not_elem_of_singleton]%elem_of_difference. rewrite state_insert, decide_False by done.
    split; [by apply held_here|by left].
  - intros Hi. split; [by apply held_here|by left].
Qed.

(** A claim another thread holds. *)
Lemma held_other m u i : threads P !! m = Some u → m ≠ n → i ∈ held (past u) →
  state_of (installed s') i = Some Installing.
Proof.
  intros Hu Hne Hi. pose proof (po_held P HP m u i Hu Hi) as E. pose proof (elsewhere m u i Hu Hne Hi) as Hnot.
  destruct t_effect as [j Hj -> _|j st Hj Hst -> _| -> _]; rewrite ?state_insert; [..|done].
  - destruct (decide (j = i)) as [->|]; [congruence|done].
  - destruct (decide (j = i)) as [->|]; done.
Qed.

Lemma step_held m u i : ts' !! m = Some u → i ∈ held (past u) → state_of (installed s') i = Some Installing.
Proof.
  intros [[-> ->]|[[Hne Hu]|[_ Hu]]]%after Hi.
  - by apply held_after.
  - by eapply held_other.
  - destruct (spawned_ok _ _ _ _ _ Hcan Hu) as [E _]. rewrite E in Hi. by apply elem_of_empty in Hi.
Qed.

Lemma step_once m m' u u' i : ts' !! m = Some u → ts' !! m' = Some u' →
  i ∈ held (past u) → i ∈ held (past u') → m = m'.
Proof.
  assert (Hmix : ∀ m u, threads P !! m = Some u → m ≠ n → i ∈ held (past u) → i ∈ held (h ++ [Ev q x]) → False).
  { intros m1 u1 Hu Hne Hi [_ [Hh|E]]%held_after; [by eapply elsewhere|].
    pose proof (po_held P HP m1 u1 i Hu Hi). congruence. }
  assert (Hnew : ∀ u, u ∈ spawned X q x → i ∉ held (past u)).
  { intros u1 Hu. destruct (spawned_ok _ _ _ _ _ Hcan Hu) as [-> _]. apply not_elem_of_empty. }
  intros [[-> ->]|[[Hne Hu]|[_ Hu]]]%after [[-> ->]|[[Hne' Hu']|[_ Hu']]]%after Hi Hi';
    try done; try (by destruct (Hnew _ Hu)); try (by destruct (Hnew _ Hu')); try (exfalso; by eapply Hmix).
  by eapply (po_once P HP m m' u u' i).
Qed.

Lemma step_owner i : state_of (installed s') i = Some Installing →
  ∃ m u, ts' !! m = Some u ∧ i ∈ held (past u).
Proof.
  intros Hi. destruct (decide (i ∈ held (h ++ [Ev q x]))) as [Hin|Hin]; [exists n, t'; split; [apply moves|done]|].
  assert (E : state_of (installed s) i = Some Installing ∧ i ∉ held h).
  { destruct t_effect as [j Hj Ht Hd|j st Hj Hst Ht Hd|Ht Hd]; rewrite Ht in Hi; rewrite Hd in Hin.
    - rewrite state_insert, decide_False in Hi by (intros ->; set_solver). set_solver.
    - rewrite state_insert in Hi. destruct (decide (j = i)) as [->|].
      + rewrite (held_here _ Hj) in Hi. simpl in Hi. congruence.
      + set_solver.
    - done. }
  destruct E as [E Hh]. destruct (po_owner P HP i E) as (m&u&Hu&Hiu).
  exists m, u. split; [|done]. apply stays; [done|]. intros ->. rewrite Hn in Hu. by simplify_eq.
Qed.

Lemma step_shown m u i : ts' !! m = Some u → evidence (past u) i → i < chunks →
  state_of (installed s') i = Some Installed.
Proof.
  intros [[-> ->]|[[Hne Hu]|[_ Hu]]]%after Hev Hi.
  - destruct Hev as (ev&[Hin|Hin]%elem_of_app&Hsh).
    + apply step_installed. eapply (po_shown P HP n _ i Hn); [by exists ev|done].
    + apply list_elem_of_singleton in Hin as ->.
      by apply (serve_shows s X q x s' h i (po_table P HP) held_here Hcan Hs).
  - by eapply step_installed, (po_shown P HP m u).
  - destruct (spawned_ok _ _ _ _ _ Hcan Hu) as [E _]. rewrite E in Hev. destruct Hev as (?&[]%elem_of_nil&_).
Qed.

Lemma step_content i : state_of (installed s') i = Some Installed →
  ∃ m u full, ts' !! m = Some u ∧ good i full ∧ covered (past u) i full.
Proof.
  assert (Hcov : ∀ t full hh, covered hh i full → covered (hh ++ t) i full).
  { intros t full hh Hc k0 Hk Ha. destruct (Hc k0 Hk Ha) as (y&Hy&ev&Hev&Hl). exists y. split; [done|].
    exists ev. split; [by apply elem_of_app; left|done]. }
  intros Hi. destruct (decide (state_of (installed s) i = Some Installed)) as [E|E].
  - destruct (po_content P HP i E) as (m&u&full&Hu&Hg&Hc). destruct (grows m u Hu) as (u'&t&Hu'&Ep).
    exists m, u', full. split; [done|]. split; [done|]. rewrite Ep. by apply Hcov.
  - assert (∃ full, good i full ∧ covered h i full) as (full&Hg&Hc).
    { by eapply serve_new. }
    exists n, t', full. split; [apply moves|]. split; [done|]. by apply Hcov.
Qed.

End one_step.

(** *** Every step keeps the invariant *)

Lemma serve_drained s X (q : dreq X) x s' h i :
  serve (peer_seal c) s X q x s' → can h X q → drain_done s' = true → faults_ended s' = false → sealed i →
  (drain_done s = true ∧ faults_ended s = false) ∨ evidence h i.
Proof.
  intros Hs Hcan Hd He Hi.
  destruct q; simpl in Hs; try (by left; subst); try (by left; destruct Hs; subst); try (by left; subst s'; destruct (is_ok x)).
  - left. destruct Hs as [_ Hs]. by rewrite Hs in Hd, He.
  - right. by apply Hcan.
Qed.

(** Only [EndFaults] ends the faults. *)
Lemma serve_ended s X (q : dreq X) x s' :
  serve (peer_seal c) s X q x s' → not_last X q → faults_ended s' = faults_ended s.
Proof.
  intros Hs Hq. destruct q; simpl in Hs; try (by subst); try (by destruct Hs; subst);
    try (by subst s'; destruct (is_ok x)); try done.
  destruct Hs as [_ Hs]. by rewrite Hs.
Qed.

(** The thread is told that the drain is done. *)
Lemma serve_told s X (q : dreq X) x s' h i :
  serve (peer_seal c) s X q x s' → can h X q → shows_drained (Ev q x) = true → sealed i →
  evidence h i ∨ (drain_done s = true ∧ on_flag X q = true).
Proof.
  intros Hs Hcan Hd Hi. destruct q; try done; [right|left; by apply Hcan].
  destruct Hs as [Hs _]. cbn in Hd. split; [by rewrite <- Hs|done].
Qed.

Lemma serve_lost s X (q : dreq X) x s' :
  serve (peer_seal c) s X q x s' →
  peer_is_lost s = true ∨ is_mark_lost (Ev q x) = true → peer_is_lost s' = true.
Proof.
  intros Hs. destruct q; simpl in Hs; try (subst; intros [|]; (done || by destruct (is_ok x)));
    try (destruct Hs as [Hs ->]; intros [|]; (done || congruence)).
  destruct Hs as [-> _]. by intros [|].
Qed.

(** What the thread of the step was told of the drain. *)
Lemma step_told P n X (q : dreq X) k h x s' i :
  pool_ok P → threads P !! n = Some (MkThread (Do q k) h) → can h X q →
  serve (peer_seal c) (state P) X q x s' → shows_drained (Ev q x) = true → sealed i →
  state_of (installed (state P)) i = Some Installed.
Proof.
  intros HP Hn Hcan Hs Hd Hi.
  destruct (serve_told _ _ _ _ _ h i Hs Hcan Hd Hi) as [Hev|[Hdone Hq]].
  - apply (po_shown P HP n _ i Hn Hev). by eapply sealed_chunk.
  - destruct (decide (n = 0%nat)) as [->|Hne].
    + apply (po_drained P HP); [done| |done]. apply not_true_is_false. intros He.
      by destruct (proj2 (po_last P HP _ Hn) He) as [? ?].
    + destruct (po_flag P HP n _ Hn Hne) as [Hoff _]. unfold off_flag in Hoff. congruence.
Qed.

Lemma last_step {X} (q : dreq X) (k : X → prog dreq unit) x :
  ends_last (Do q k) → ends_last (k x) ∧ (not_last X q ∨ ∃ a, k x = Ret a).
Proof.
  destruct q; simpl; intros H; try (split; [apply H|by left]).
  destruct (H x) as [a Ha]. rewrite Ha. split; [done|]. right. by exists a.
Qed.

(** The main thread after a step of any thread. *)
Lemma step_last P n X (q : dreq X) k h x s' t :
  pool_ok P → threads P !! n = Some (MkThread (Do q k) h) → serve (peer_seal c) (state P) X q x s' →
  (<[n := MkThread (k x) (h ++ [Ev q x])]> (threads P) ++ spawned X q x) !! 0%nat = Some t →
  ends_last (prog_left t) ∧ (faults_ended s' = true → ∃ a, prog_left t = Ret a).
Proof.
  intros HP Hn Hs [[<- ->]|[[Hne Hu]|[H0 _]]]%(after P n X q k h x Hn).
  - destruct (po_last P HP _ Hn) as [Hl He]. destruct (last_step q k x Hl) as [Hk Hr]. split; [done|].
    destruct Hr as [Hq|Hr]; [|done]. rewrite (serve_ended _ _ _ _ _ Hs Hq). intros E. by destruct (He E).
  - destruct (po_last P HP _ Hu) as [Hl He]. split; [done|].
    destruct (po_flag P HP n _ Hn (not_eq_sym Hne)) as [Hoff _].
    rewrite (serve_ended _ _ _ _ _ Hs); [done|]. by destruct q.
  - destruct (po_main P HP) as [u Hu]. congruence.
Qed.

Lemma serve_first s X (q : dreq X) x s' h off page :
  serve (peer_seal c) s X q x s' → can h X q → (off, page) ∈ first_pages s' →
  (off, page) ∈ first_pages s ∨ page_ok off page.
Proof.
  intros Hs Hcan Hin. destruct q; simpl in Hs; try (by left; subst); try (by left; destruct Hs; subst).
  - left. destruct Hs as [_ Hs]. rewrite Hs in Hin. done.
  - subst s'. destruct (is_ok x); [|by left]. apply elem_of_cons in Hin as [[= -> ->]|]; [by right|by left].
Qed.

Lemma pool_ok_step P P' : pool_ok P → step P P' → pool_ok P'.
Proof.
  intros HP Hst. destruct Hst as [s ts n X q k h x s' Hn Ho Hs]. revert HP. set (P := MkPool s ts). intros HP.
  change (ts !! n) with (threads P !! n) in Hn. change s with (state P) in Hs.
  destruct (po_threads P HP n _ Hn) as [Hcan Hwp].
  pose proof (pool_ans P n X q k h x s' HP Hn Hcan Ho Hs) as Hans.
  pose proof (fun m u => after P n X q k h x Hn m u) as Haf.
  assert (Hnew : ∀ u, u ∈ spawned X q x → past u = [] ∧ wp ans can [] (prog_left u) (fun _ _ => True)).
  { intros u. by apply (spawned_ok h). }
  split; cbn [state threads].
  - rewrite (effect_length _ _ _ _ (serve_effect _ _ _ _ _ h (po_table P HP) Hcan Hs)). apply (po_table P HP).
  - intros m u [[-> ->]|[[_ Hu]|[_ Hu]]]%Haf; [by apply Hwp|by apply (po_threads P HP m)|].
    destruct (Hnew u Hu) as [-> ?]. done.
  - intros m u [[-> ->]|[[_ Hu]|[_ Hu]]]%Haf; [|by apply (po_allowed P HP m)|].
    + apply allowed_snoc; [|done]. apply (po_allowed P HP n _ Hn).
    + destruct (Hnew u Hu) as [-> _]. apply allowed_nil.
  - intros m u i. by apply (step_held P HP n X q k h x s' Hn Hcan Hs).
  - intros m m' u u' i. by apply (step_once P HP n X q k h x s' Hn Hcan Hs).
  - intros i. by apply (step_owner P HP n X q k h x s' Hn Hcan Hs).
  - intros m u i. by apply (step_shown P HP n X q k h x s' Hn Hcan Hs).
  - intros i. by apply (step_content P HP n X q k h x s' Hn Hcan Hs).
  - intros i Hd He Hi. apply (step_installed P HP n X q k h x s' Hn Hcan Hs).
    destruct (serve_drained _ _ _ _ _ h i Hs Hcan Hd He Hi) as [[Hd' He']|Hev]; [by apply (po_drained P HP)|].
    apply (po_shown P HP n _ i Hn Hev). by eapply sealed_chunk.
  - intros m u i [[-> ->]|[[_ Hu]|[_ Hu]]]%Haf Hd Hi;
      [apply (step_installed P HP n X q k h x s' Hn Hcan Hs)..|].
    + destruct Hd as (ev&[Hin|Hin]%elem_of_app&Hsh).
      * apply (po_told P HP n _ i Hn); [by exists ev|done].
      * apply list_elem_of_singleton in Hin as ->. by eapply step_told.
    + by apply (po_told P HP m u).
    + destruct (Hnew u Hu) as [E _]. rewrite E in Hd. by destruct Hd as (?&[]%elem_of_nil&_).
  - intros m u [[-> ->]|[[_ Hu]|[_ Hu]]]%Haf Hne.
    + apply (po_flag P HP n _ Hn Hne).
    + by apply (po_flag P HP m u).
    + by eapply spawned_off.
  - destruct (po_main P HP) as [u Hu]. destruct (grows P n X q k h x Hn 0%nat u Hu) as (u'&_&Hu'&_). by exists u'.
  - intros t. by apply (step_last P n X q k h x s').
  - intros m u [[-> ->]|[[_ Hu]|[_ Hu]]]%Haf Hd; apply (serve_lost _ _ _ _ _ Hs).
    + destruct Hd as (ev&[Hin|Hin]%elem_of_app&Hsh).
      * left. apply (po_lost P HP n _ Hn). by exists ev.
      * apply list_elem_of_singleton in Hin as ->. by right.
    + left. by apply (po_lost P HP m u).
    + destruct (Hnew u Hu) as [E _]. rewrite E in Hd. by destruct Hd as (?&[]%elem_of_nil&_).
  - intros off page Hin. destruct (serve_first _ _ _ _ _ h off page Hs Hcan Hin); [by apply (po_first P HP)|done].
Qed.

Lemma pool_ok_start faults trace : pool_ok (start faults trace).
Proof.
  assert (Hempty : ∀ i, state_of (replicate (N.to_nat chunks) Empty) i = Some Empty ∨
    state_of (replicate (N.to_nat chunks) Empty) i = None).
  { intros i. unfold state_of. destruct (_ !! N.to_nat i) eqn:E; [|by right].
    apply lookup_replicate in E as [-> _]. by left. }
  assert (Hpast : ∀ n t, threads (start faults trace) !! n = Some t → past t = []).
  { intros n t. destruct n as [|[|n]]; simpl; [by intros [= <-]|by intros [= <-]|done]. }
  split; cbn [state start installed drain_done faults_ended peer_is_lost first_pages].
  - apply length_replicate.
  - intros n t. destruct n as [|[|n]]; simpl; [intros [= <-]|intros [= <-]|done]; simpl.
    + apply wp_bind. eapply wp_mono, fault_loop_spec; [|exact mig]. intros h r _.
      apply wp_bind, wp_ask; [done|]. intros [] _. by apply wp_ask.
    + by eapply producer_spec.
  - intros n t Ht. rewrite (Hpast n t Ht). apply allowed_nil.
  - intros n t i Ht. rewrite (Hpast n t Ht). by intros ?%elem_of_empty.
  - intros n m t u i Ht _. rewrite (Hpast n t Ht). by intros ?%elem_of_empty.
  - intros i. destruct (Hempty i) as [-> | ->]; done.
  - intros n t i Ht. rewrite (Hpast n t Ht). by intros (?&[]%elem_of_nil&_).
  - intros i. destruct (Hempty i) as [-> | ->]; done.
  - done.
  - intros n t i Ht. rewrite (Hpast n t Ht). by intros (?&[]%elem_of_nil&_).
  - intros n t. destruct n as [|[|n]]; simpl; [done|intros [= <-] _|done]. by apply producer_sorted.
  - by eexists.
  - intros t [= <-]. split; [apply fault_thread_last|done].
  - intros n t Ht. rewrite (Hpast n t Ht). by intros (?&[]%elem_of_nil&_).
  - intros off page []%elem_of_nil.
Qed.

Lemma pool_reachable faults trace P : reachable faults trace P → pool_ok P.
Proof.
  unfold reachable. generalize (pool_ok_start faults trace). generalize (start faults trace).
  intros P0 HP0 Hr. induction Hr as [|P0 P1 P2 Hs _ IH]; [done|]. by apply IH, (pool_ok_step P0).
Qed.

Lemma installed_stays P P' i :
  pool_ok P → rtc step P P' → state_of (installed (state P)) i = Some Installed →
  state_of (installed (state P')) i = Some Installed.
Proof.
  intros HP Hr. induction Hr as [|P P1 P2 Hs _ IH]; [done|]. intros Hi. apply IH; [by eapply pool_ok_step|].
  destruct Hs as [s ts n X q k h x s' Hn Ho Hs].
  eapply (step_installed (MkPool s ts) HP n X q k h x s' Hn); [|done|done].
  apply (po_threads _ HP n _ Hn).
Qed.

(** The events that say the drain is done: a load or store of the flag, and the
    report that lets the source go. *)
Definition says_done (ev : event dreq) : bool :=
  shows_drained ev || match ev_req ev with Report (ReportDrainDone _ _ _) => true | _ => false end.

Lemma told_done P n t ev i :
  pool_ok P → threads P !! n = Some t → ev ∈ past t → says_done ev = true → sealed i →
  state_of (installed (state P)) i = Some Installed.
Proof.
  intros HP Hn Hev [Hs|Hs]%orb_true_iff Hi.
  - apply (po_told P HP n t i Hn); [by exists ev|done].
  - apply list_elem_of_split in Hev as (h1&h2&E). pose proof (po_allowed P HP n t Hn h1 ev h2 E) as Hcan.
    destruct ev as [X q x]. destruct q; try done. destruct m; try done.
    apply (po_shown P HP n t i Hn); [|by eapply sealed_chunk]. rewrite E. by apply evidence_app, Hcan.
Qed.

Lemma main_ended P :
  pool_ok P → faults_ended (state P) = true → ∃ t a, threads P !! 0%nat = Some t ∧ prog_left t = Ret a.
Proof.
  intros HP He. destruct (po_main P HP) as [t Ht]. destruct (proj2 (po_last P HP t Ht) He) as [a Ha]. eauto.
Qed.

(** C3. A post-copy migration leaves the right memory in the guest.  Whatever the
    guest faults on, whatever the interleaving of the fault loop, the window
    workers and the producer, and whichever reads, writes, dials, fetches and
    ioctls fail: every placement a thread made or is about to make puts right
    bytes at the right address, and of a chunk it has claimed; a chunk being
    installed has exactly one installer; an installed chunk is in place in full
    and stays installed, a sealed one with the memory of the paused guest (or
    bytes of the same hash), another with the manifest's content; the source is
    told that the drain is done, which lets it go, only with every sealed chunk
    installed, and a fault is served from the manifest of a sealed chunk only
    then, since the flag of the drain is set with a sealed chunk missing only
    by the main thread at its end, after the last fault. *)
Theorem migration_exact faults trace P :
  reachable faults trace P →
  (∀ n t, threads P !! n = Some t →
     allowed can (past t) ∧ ∀ X (q : dreq X) k, prog_left t = Do q k → can (past t) X q) ∧
  (∀ i, state_of (installed (state P)) i = Some Installing →
     exists! n, ∃ t, threads P !! n = Some t ∧ i ∈ held (past t)) ∧
  (∀ i, state_of (installed (state P)) i = Some Installed →
     (∃ n t full, threads P !! n = Some t ∧ good i full ∧ covered (past t) i full) ∧
     ∀ P', rtc step P P' → state_of (installed (state P')) i = Some Installed) ∧
  (drain_done (state P) = true →
     (∀ i, sealed i → state_of (installed (state P)) i = Some Installed) ∨
     (faults_ended (state P) = true ∧ ∃ t a, threads P !! 0%nat = Some t ∧ prog_left t = Ret a)) ∧
  (∀ n t ev, threads P !! n = Some t → ev ∈ past t → says_done ev = true →
     ∀ i, sealed i → state_of (installed (state P)) i = Some Installed).
Proof.
  intros HP%pool_reachable. split_and!.
  - intros n t Hn. split; [by eapply po_allowed|]. intros X q k E. pose proof (po_threads P HP n t Hn) as Hw.
    rewrite E in Hw. apply Hw.
  - intros i Hi. destruct (po_owner P HP i Hi) as (n&t&Hn&Hh). exists n. split; [by exists t|].
    intros m (u&Hu&Hh'). by eapply (po_once P HP n m t u i).
  - intros i Hi. split; [by apply (po_content P HP)|]. intros P' Hr. by eapply installed_stays.
  - intros Hd. destruct (faults_ended (state P)) eqn:He; [right|left; intros i; by apply (po_drained P HP)].
    split; [done|]. by apply main_ended.
  - intros n t ev Hn Hev Hs i Hi. by eapply told_done.
Qed.

End pool.

(** ** A run

    Four chunks of four bytes: the first three sealed, the second of zeros, the
    fourth in the manifest. *)

Module PoolDemo.

#[local] Instance SealBitmap_eq_dec : EqDecision SealBitmap.t.
Proof. solve_decision. Defined.
#[local] Instance FromSource_eq_dec : EqDecision FromSource.
Proof. solve_decision. Defined.

Definition digest (s : string) : list N := [N.of_nat (String.length s)].
Definition id_hash (b : list N) : list N := b.
Definition compress (b : list N) : list N := 0 :: b.
Definition decompress (b : list N) : option (list N) := match b with [] => None | _ :: l => Some l end.

Definition mem (va : N) : N := if (104 <=? va) && (va <? 108) then 0 else va - 99.

Definition export : PeerExport :=
  MkExport "x" "secret" [MkVma 100 116 0] (SealBitmap.Mk 4 4 [7]) [None; None; None; None] 4 16.

Definition base_m : Manifest.t := (Manifest.empty Memory 16) <| Manifest.chunk_size := 4 |>.
Definition sess_m : Manifest.t := base_m <| Manifest.chunks := [MkChunk 12 [5; 6; 7; 8]] |>.
Definition backend_ : Backend.t :=
  match Backend.new base_m sess_m with
  | Ok b => b
  | Err _ => Backend.Mk (Backend.MkPositional [] 0 0) (Backend.MkPositional [] 0 0) ∅
  end.

Definition conf : PeerConf := MkPeer "x" "secret" (SealBitmap.Mk 4 4 [7]) 4 16.
Definition rt : Runtime := MkRuntime [MkRegion 1000 16 0 4] backend_ 4 false (Some conf) 2 true.
Definition stored (h : ChunkHash) (b : list N) : Prop := b = h ∧ h = [5; 6; 7; 8].
Definition base (i : N) : list N := [].

(** The source's answers to the page server. *)
Definition source (X : Type) (q : sreq X) (inbox : list ToSource) : option X * list ToSource :=
  match q in sreq X return option X * list ToSource with
  | SRead => match inbox with m :: l => (Some (Ok m), l) | [] => (Some (Err UnexpectedEof), []) end
  | SWrite _ => (Some (Ok tt), inbox)
  | GetExport id => (Some (if bool_decide (id = "x") then Some export else None), inbox)
  | TryPark => (Some true, inbox)
  | AwaitRegistered => (Some false, inbox)
  | Touch => (Some tt, inbox)
  | Readv va len => (Some (Ok (mem <$> range va (va + len))), inbox)
  | SNever => (None, inbox)
  end.

Definition server := handle_conn id_hash digest id_hash compress 20.

(** What the server has written to a peer that wrote [inbox]. *)
Definition sent (inbox : list ToSource) : list FromSource := writes (trace source server inbox).

(** The answers to the handler; [None]: it waits. *)
Definition pick (h : list (event dreq)) (s : shared) (X : Type) (q : dreq X) : option (X * shared) :=
  match q in dreq X return option (X * shared) with
  | ResolveAddr => Some (Ok [1], s)
  | DeadlinePassed => Some (false, s)
  | ConnectTo _ | SocketCall | DWrite _ => Some (Ok tt, s)
  | DRead =>
      let n := length (conn h).2 in
      match sent (conn h).1 !! n with
      | Some m => if bool_decide (take n (sent (conn h).1) = (conn h).2) then Some (Ok m, s) else None
      | None => None
      end
  | NextReq => Some (1, s)
  | Backoff | AwaitQuiet | ZeropageOff | StopWindow | SendInstalled | Report _ => Some (tt, s)
  | IsLost => Some (peer_is_lost s, s)
  | MarkLost => Some (tt, s <| peer_is_lost := true |>)
  | TakeHint => Some (None, s)
  | ClaimChunk i => let '(x, t) := claim_chunk (installed s) i in Some (x, s <| installed := t |>)
  | WaitSettled i => (fun x => (x, s)) <$> wait_until_settled (installed s) i
  | MarkInstalled i => Some (tt, s <| installed := mark_installed (installed s) i |>)
  | ReleaseChunk i => Some (tt, s <| installed := release_chunk (installed s) i |>)
  | ChunkInstalled i => Some (chunk_installed (installed s) i, s)
  | UninstalledCount => Some (sealed_uninstalled_count (peer_seal conf) (installed s), s)
  | IsDrainDone => Some (drain_done s, s)
  | SetDrainDone => Some (tt, s <| drain_done := true |>)
  | EndFaults => Some (tt, s <| drain_done := true |> <| faults_ended := true |>)
  | Copy _ _ _ | ZeroPage _ _ _ | WakePage _ _ => Some (Ok tt, s)
  | BaseWrite _ _ => Some (Err tt, s)
  | Continue_ _ _ _ => None
  | ZeropageOk | RuntimeAlive | SweepBudgetLeft => Some (true, s)
  | BasePopulated _ _ | SlotBusy | Stopped => Some (false, s)
  | CacheRead _ => Some (Ok None, s)
  | Populate _ => Some (None, s)
  | StoreGet k => if bool_decide (k = [5; 6; 7; 8]) then Some (Ok k, s) else None
  | SpawnWorker _ _ => Some (Ok tt, s)
  | SendFirst off page => Some (Ok tt, s <| first_pages ::= cons (off, page) |>)
  | RecvFirst off =>
      match List.find (fun x => x.1 =? off) (first_pages s) with
      | Some (_, page) => Some (Ok page, s)
      | None => None
      end
  | RecvInstalled => Some (Ok tt, s)
  | Spin | Unreachable => None
  end.

Definition turn (n : nat) (P : pool) : pool :=
  match threads P !! n with
  | Some (MkThread (Do q k) h) =>
      match pick h (state P) _ q with
      | Some (x, s') => MkPool s' (<[n := MkThread (k x) (h ++ [Ev q x])]> (threads P) ++
                          spawned id_hash decompress rt conf 3 _ q x)
      | None => P
      end
  | _ => P
  end.

Definition start_ : pool := start id_hash decompress rt 3 [1000; 1012] None.

(** The fault loop up to the first page, the window worker, the fault loop to its
    end, and the producer, which pulls the third chunk. *)
Definition schedule : list nat :=
  replicate 30 0%nat ++ replicate 30 2%nat ++ replicate 60 0%nat ++ replicate 30 2%nat ++ replicate 120 1%nat.
Definition final : pool := fold_left (fun P n => turn n P) schedule start_.

(** The answers are those of the model. *)
Lemma writes_cut hs ws m ws' :
  writes hs = ws ++ m :: ws' → ∃ h1 h2, hs = h1 ++ h2 ∧ writes h1 = ws ++ [m].
Proof.
  revert ws. induction hs as [|ev hs IH]; intros ws E; [by destruct ws|].
  unfold writes in E. simpl in E. fold (writes hs) in E.
  destruct (write_of ev) as [m0|] eqn:Ev.
  - destruct ws as [|w ws]; injection E as -> E.
    + exists [ev], hs. split; [done|]. unfold writes. simpl. by rewrite Ev.
    + destruct (IH ws E) as (h1&h2&->&E1). exists (ev :: h1), h2. split; [done|].
      unfold writes. simpl. rewrite Ev. simpl. f_equal. exact E1.
  - destruct (IH ws E) as (h1&h2&->&E1). exists (ev :: h1), h2. split; [done|].
    unfold writes. simpl. rewrite Ev. exact E1.
Qed.

Lemma source_reads {A} (p : prog sreq A) inbox : reads (trace source p inbox) `prefix_of` inbox.
Proof.
  revert inbox. induction p as [a|X q k IH]; intros inbox; simpl; [apply prefix_nil|].
  destruct q; simpl; try apply IH; [|apply prefix_nil].
  destruct inbox as [|m inbox]; simpl; [apply IH|]. apply prefix_cons, IH.
Qed.

Lemma source_export {A} (p : prog sreq A) inbox ev id e' :
  ev ∈ trace source p inbox → export_of id ev = Some e' → e' = export.
Proof.
  revert inbox. induction p as [a|X q k IH]; intros inbox; simpl; [by intros ?%elem_of_nil|].
  destruct (source X q inbox) as [[x|] s] eqn:E; [|by intros ?%elem_of_nil].
  intros [->|Hin]%elem_of_cons; [|by eapply IH]. destruct q; try done.
  simpl in E. injection E as <- _. unfold export_of. simpl. repeat case_match; congruence.
Qed.

Lemma source_answers h s X (q : sreq X) x s' : source X q s = (Some x, s') → s_ans mem h X q x.
Proof.
  destruct q; try (intros; exact I).
  - intros [= <- _]. simpl. case_bool_decide; [|done]. intros v v' o Hv Hv' _ _.
    apply list_elem_of_singleton in Hv, Hv'. congruence.
  - intros [= <- _]. simpl. unfold range. rewrite !length_fmap, length_seq. split; [lia|]. do 3 f_equal. lia.
Qed.

Lemma pick_server h m :
  sent (conn h).1 !! length (conn h).2 = Some m → take (length (conn h).2) (sent (conn h).1) = (conn h).2 →
  from_server id_hash digest id_hash compress export mem h m.
Proof.
  intros Hm Ht. unfold sent in *. set (hs := trace source server (conn h).1) in *.
  destruct (writes_cut hs (conn h).2 m (drop (S (length (conn h).2)) (writes hs))) as (h1&h2&E&Hw).
  { rewrite <- Ht at 1. symmetry. by apply take_drop_middle. }
  exists 20%nat, h1, None. split_and!.
  - apply (runs_prefix _ [] server hs (exec source server (conn h).1).1 h1 h2); [|done].
    refine (proj1 (exec_runs source (s_ans mem) (fun _ _ => True) server (conn h).1 [] _ I)).
    intros h0 s X q x s' _ Hq. split; [by eapply source_answers|exact I].
  - intros ev id e' Hev. apply (source_export server (conn h).1). fold hs. rewrite E. by apply elem_of_app; left.
  - etrans; [|apply (source_reads server)]. fold hs. rewrite E. unfold reads. rewrite omap_app. by eexists.
  - done.
Qed.

Lemma pick_ok h s X (q : dreq X) x s' :
  pick h s X q = Some (x, s') →
  outside id_hash digest id_hash compress export mem rt stored base h X q x ∧ serve (peer_seal conf) s X q x s'.
Proof.
  destruct q; simpl; try (intros [= <- <-]; done); try done.
  - destruct (sent _ !! _) as [m|] eqn:Em; [|done]. case_bool_decide as Ht; [|done]. intros [= <- <-].
    split; [by apply pick_server|done].
  - destruct (claim_chunk (installed s) i) as [y t] eqn:Ec. intros [= <- <-]. done.
  - destruct (wait_until_settled _ _); [|done]. intros [= <- <-]. done.
  - case_bool_decide; [|done]. intros [= <- <-]. done.
  - destruct (List.find _ _) as [[o page]|] eqn:Ef; [|done]. intros [= <- <-]. split; [done|]. split; [done|].
    apply find_Some_elem in Ef as [Hin E%N.eqb_eq]. simpl in E. by subst.
Qed.

Notation demo_step := (step id_hash digest id_hash compress decompress export mem rt conf stored base 3).

Lemma turn_steps n P : rtc demo_step P (turn n P).
Proof.
  unfold turn. destruct (threads P !! n) as [[[a|X q k] h]|] eqn:En; [done| |done].
  destruct (pick h (state P) X q) as [[x s']|] eqn:Ep; [|done]. apply rtc_once.
  apply pick_ok in Ep as [Ho Hs]. destruct P as [s ts]. by eapply step_ask.
Qed.

Lemma final_reachable :
  reachable id_hash digest id_hash compress decompress export mem rt conf stored base 3 [1000; 1012] None final.
Proof.
  unfold final, reachable. fold start_. generalize start_. induction schedule as [|n l IH]; intros P; simpl; [done|].
  etrans; [apply turn_steps|apply IH].
Qed.

Lemma demo_migration : migration id_hash compress decompress export rt conf base_m sess_m stored.
Proof.
  split.
  - done.
  - reflexivity.
  - reflexivity.
  - split_and!; try reflexivity. apply SealBitmap.validate_wf; [by repeat constructor|reflexivity].
  - intros i h. simpl. destruct (N.to_nat i) as [|[|[|[|k]]]]; simpl; done.
  - done.
  - intros m m' o Hm Hm'. apply list_elem_of_singleton in Hm as ->, Hm' as ->. done.
  - intros h b [-> ->]. split; [done|]. intros i.
    unfold Backend.session_hash, Backend.at_index.
    change (Backend.p_chunks (Backend.session (backend rt))) with [None; None; None; Some [5; 6; 7; 8]].
    destruct (decide (i = 3)) as [->|Hi]; [intros _; reflexivity|].
    destruct (N.to_nat i) as [|[|[|[|k]]]] eqn:E; simpl; try done. lia.
Qed.

End PoolDemo.

(** The run ends with every chunk installed; the theorem gives the content. *)
Lemma migration_exact_witness :
  let P := PoolDemo.final in
  installed (state P) = [Installed; Installed; Installed; Installed] ∧ drain_done (state P) = true ∧
  (∃ n t full, threads P !! n = Some t ∧
     covered PoolDemo.rt PoolDemo.base (past t) 2 full ∧ full = [9; 10; 11; 12]).
Proof.
  intros P. split; [reflexivity|]. split; [reflexivity|].
  destruct (migration_exact PoolDemo.id_hash PoolDemo.digest PoolDemo.id_hash PoolDemo.compress
    PoolDemo.decompress PoolDemo.export PoolDemo.mem PoolDemo.rt PoolDemo.conf PoolDemo.base_m PoolDemo.sess_m
    PoolDemo.stored PoolDemo.base PoolDemo.demo_migration 3 [1000; 1012] None P PoolDemo.final_reachable)
    as (_&_&Hin&_).
  destruct (Hin 2 eq_refl) as [(n&t&full&Hn&[_ Hg]&Hc) _]. exists n, t, full. split; [exact Hn|]. split; [exact Hc|].
  change (SealBitmap.get _ 2) with true in Hg. cbn iota in Hg. destruct Hg as (src&Hs&Hf).
  assert (src = [9; 10; 11; 12]) as ->.
  { vm_compute in Hs. congruence. }
  destruct Hf as [Hf|Hf]; exact Hf.
Defined.
