(* ===== verification/Image.v ===== *)
(** * Images and their chunks

    What a manifest says of an image, and how the code that produces manifests
    from images uses the chunk store.  The producers ([file.rs], [region.rs])
    run the store's operations as parts of their own programs, many at a time;
    here are the specification they share and the embedding of a store program. *)

From S2P Require Import Prelude Text Manifest World ChunkStore StoreProps Wire Prog.
Local Open Scope N_scope.

(** ** Chunks of an image *)

Definition is_all_zero (b : bytes) : bool := forallb (N.eqb 0) b.

(** The bytes [off..off+len) of an image. *)
Definition cut (img : bytes) (off len : N) : bytes := take (N.to_nat len) (drop (N.to_nat off) img).

(** [buf[at..at+b.len()].copy_from_slice(b)], within the buffer. *)
Definition splice (buf : bytes) (at_ : N) (b : bytes) : bytes :=
  take (N.to_nat at_) buf ++ b ++ drop (N.to_nat at_ + length b) buf.

Lemma cut_lookup img o w i :
  cut img o w !! i = if decide (N.of_nat i < w) then img !! (N.to_nat o + i)%nat else None.
Proof.
  unfold cut. case_decide as H.
  - by rewrite lookup_take_lt, lookup_drop by lia.
  - apply lookup_take_ge. lia.
Qed.

Lemma cut_length img o w : length (cut img o w) = N.to_nat (N.min w (N.of_nat (length img) - o)).
Proof. unfold cut. rewrite length_take, length_drop. lia. Qed.

(** Two cuts are equal when their bytes are. *)
Lemma cut_ext img img' o w :
  (∀ i, N.of_nat i < w → img !! (N.to_nat o + i)%nat = img' !! (N.to_nat o + i)%nat) →
  cut img o w = cut img' o w.
Proof. intros H. apply list_eq. intros i. rewrite !cut_lookup. case_decide; auto. Qed.

(** The last chunk ends with the image. *)
Lemma cut_min img o w : cut img o (N.min w (N.of_nat (length img) - o)) = cut img o w.
Proof.
  apply list_eq. intros i. rewrite !cut_lookup. repeat case_decide; try done; [lia|].
  symmetry. apply lookup_ge_None. lia.
Qed.

Lemma splice_lookup buf at_ b i :
  (N.to_nat at_ + length b ≤ length buf)%nat →
  splice buf at_ b !! i =
    if decide (at_ ≤ N.of_nat i < at_ + N.of_nat (length b)) then b !! (i - N.to_nat at_)%nat
    else buf !! i.
Proof.
  intros Hl. unfold splice. case_decide as H.
  - rewrite lookup_app_r; rewrite length_take_le by lia; [|lia].
    rewrite lookup_app_l by lia. done.
  - destruct (decide (N.of_nat i < at_)).
    + rewrite lookup_app_l by (rewrite length_take_le; lia). by rewrite lookup_take_lt by lia.
    + rewrite lookup_app_r; rewrite length_take_le by lia; [|lia].
      rewrite lookup_app_r, lookup_drop by lia. f_equal. lia.
Qed.

Lemma splice_length buf at_ b :
  (N.to_nat at_ + length b ≤ length buf)%nat → length (splice buf at_ b) = length buf.
Proof. intros. unfold splice. rewrite !length_app, length_take, length_drop. lia. Qed.

Lemma is_all_zero_spec b : is_all_zero b = true ↔ b = replicate (length b) 0.
Proof.
  unfold is_all_zero. induction b as [|x b IH]; [done|]. cbn [forallb length replicate].
  rewrite andb_true_iff, IH, N.eqb_eq. split; [intros [<- Hb]; by f_equal|].
  intros H. injection H as Hx Hb. by split.
Qed.

Section spec.

Context (sha256 : bytes → bytes).

Definition chunk_ref (size : N) (img : bytes) (i : N) : option ChunkRef :=
  let b := cut img (i * size) size in
  if is_all_zero b then None else Some (MkChunk (i * size) (sha256 b)).

(** The entries of an image's manifest: its chunks that are not all zero. *)
Definition image_chunks (size : N) (img : bytes) : list ChunkRef :=
  omap (chunk_ref size img) (range 0 (ceil (N.of_nat (length img)) size)).

(** A manifest of an image. *)
Record describes (m : Manifest.t) (img : bytes) : Prop := {
  de_size : Manifest.chunk_size m ≠ 0;
  de_total : Manifest.total_bytes m = N.of_nat (length img);
  de_chunks : Manifest.chunks m = image_chunks (Manifest.chunk_size m) img;
}.

Lemma elem_of_image_chunks size img o h :
  size ≠ 0 →
  MkChunk o h ∈ image_chunks size img ↔
    o mod size = 0 ∧ o < N.of_nat (length img) ∧ is_all_zero (cut img o size) = false ∧
    sha256 (cut img o size) = h.
Proof.
  intros Hz. unfold image_chunks. rewrite list_elem_of_omap. split.
  - intros (i&Hi%elem_of_range&Hr). unfold chunk_ref in Hr.
    destruct (is_all_zero _) eqn:E; [done|]. injection Hr as <- <-.
    rewrite N.Div0.mod_mul. split; [done|]. split; [|done]. apply ceil_lt; [done|lia].
  - intros (Ha&Ht&Hn&Hh). exists (o / size).
    assert (Ho : o / size * size = o) by (pose proof (N.div_mod o size Hz); lia).
    split; [apply elem_of_range; split; [lia|]; apply ceil_lt; [done|lia]|].
    unfold chunk_ref. by rewrite Ho, Hn, Hh.
Qed.

Lemma StronglySorted_fmap {A B} (f : A → B) (R : relation B) (l : list A) :
  StronglySorted R (f <$> l) ↔ StronglySorted (fun a b => R (f a) (f b)) l.
Proof.
  induction l as [|a l IH]; [split; constructor|]. rewrite fmap_cons.
  split; intros [Hl Ha]%StronglySorted_inv; constructor; try (by apply IH).
  all: by rewrite ?Forall_fmap in *.
Qed.

Lemma StronglySorted_impl {A} (R S : relation A) (l : list A) :
  (∀ a b, R a b → S a b) → StronglySorted R l → StronglySorted S l.
Proof. intros H. induction 1 as [|a l Hl IH Ha]; constructor; [done|]. by eapply Forall_impl; [|apply H]. Qed.

Lemma StronglySorted_omap {A B} (f : A → option B) (R : relation A) (S : relation B) (l : list A) :
  (∀ a a' b b', R a a' → f a = Some b → f a' = Some b' → S b b') →
  StronglySorted R l → StronglySorted S (omap f l).
Proof.
  intros Hf. induction 1 as [|a l Hl IH Ha]; [constructor|]. simpl.
  destruct (f a) as [b|] eqn:E; [|exact IH]. constructor; [exact IH|]. apply Forall_forall.
  intros b' (a'&Ha'&E')%list_elem_of_omap. rewrite Forall_forall in Ha. eauto.
Qed.

Lemma range_sorted a b : StronglySorted N.lt (range a b).
Proof.
  unfold range. apply StronglySorted_fmap. generalize 0%nat as k.
  induction (N.to_nat (b - a)) as [|n IH]; intros k; simpl; constructor; [apply IH|].
  apply Forall_forall. intros j Hj%elem_of_seq. lia.
Qed.

Lemma image_chunks_sorted size img : size ≠ 0 → StronglySorted N.lt (offset <$> image_chunks size img).
Proof.
  intros Hz. apply StronglySorted_fmap. eapply StronglySorted_omap, range_sorted.
  intros i j c c' Hij Hc Hc'. unfold chunk_ref in *. repeat case_match; simplify_eq/=. nia.
Qed.

Lemma describes_valid m img : describes m img → Manifest.valid m.
Proof.
  intros [Hz Ht Hc]. split; [done| |].
  - rewrite Hc. apply Forall_forall. intros [o h] (?&?&_)%elem_of_image_chunks; [|done]. simpl. by rewrite Ht.
  - rewrite Hc. by apply image_chunks_sorted.
Qed.

(** Two sorted lists of entries with the same members are equal. *)
Lemma entries_ext (l l' : list ChunkRef) :
  StronglySorted N.lt (offset <$> l) → StronglySorted N.lt (offset <$> l') →
  (∀ c, c ∈ l ↔ c ∈ l') → l = l'.
Proof.
  intros Hs Hs' Hm. apply (StronglySorted_unique_strong (fun a b => offset a < offset b)).
  - intros a b _ _ H1 H2. lia.
  - by apply StronglySorted_fmap.
  - by apply StronglySorted_fmap.
  - apply NoDup_Permutation; [| |done]; by eapply NoDup_fmap_1, Manifest.sorted_nodup.
Qed.

End spec.
