(* ===== verification/Pipeline.v ===== *)
(** * Uploads in flight

    The producers of manifests ([file.rs], [region.rs]) hash and upload many
    chunks at a time: a producer fills a queue, and up to a fixed number of
    tasks taken from it run at once, in any order ([FuturesUnordered],
    [buffer_unordered]).  A task is a program over the chunk store, the source
    file and the set of hashes its batch has claimed; the first error of a task
    or of the producer ends the whole run.

    [pipe_sound] carries a task's [wp] to every run of the pipeline, beside any
    other user of the store and through any fault. *)

From S2P Require Import Prelude Text Manifest World ChunkStore StoreProps Prog Image.

(** ** Tasks *)

Inductive treq : Type → Type :=
(* a request of a store operation *)
| Store {X} (q : World.req X) : treq X
(* [File::open] of the source file *)
| OpenSource : treq (result unit unit)
(* [seek] and [read_exact] *)
| ReadSource (off len : N) : treq (result bytes unit)
(* [claimed.lock().insert(h)] *)
| Claim (h : ChunkHash) : treq bool.

(** An operation of the store as a part of a task. *)
Fixpoint lift {A} (p : World.prog A) : Prog.prog treq A :=
  match p with
  | World.Ret a => Prog.Ret a
  | World.Do q k => Prog.Do (Store q) (fun x => lift (k x))
  end.

Notation task A := (Prog.prog treq (result A ChunkStoreError.t)) (only parsing).

(** What the tasks of one batch share. *)
Record Shared := MkShared { sh_world : World; sh_claimed : gset (list N) }.

Section answers.
Context (src : bytes).

Inductive tanswers : ∀ {X}, Shared → treq X → X → Shared → Prop :=
| ta_store {X} w w' c (q : World.req X) x :
    answers w q x w' → tanswers (MkShared w c) (Store q) x (MkShared w' c)
| ta_open s r : tanswers s OpenSource r s
| ta_read s off len :
    (off + len ≤ N.of_nat (length src))%N → tanswers s (ReadSource off len) (Ok (cut src off len)) s
| ta_read_fail s off len : tanswers s (ReadSource off len) (Err tt) s
| ta_claim w c h :
    tanswers (MkShared w c) (Claim h) (bool_decide (h ∉ c)) (MkShared w ({[h]} ∪ c)).

(** The answer when nothing fails. *)
Definition tserve {X} (s : Shared) (q : treq X) : X * Shared :=
  match q in treq Y return Y * Shared with
  | Store q => let '(x, w') := serve (sh_world s) q in (x, MkShared w' (sh_claimed s))
  | OpenSource => (Ok tt, s)
  | ReadSource off len =>
      (if (off + len <=? N.of_nat (length src))%N then Ok (cut src off len) else Err tt, s)
  | Claim h => (bool_decide (h ∉ sh_claimed s), MkShared (sh_world s) ({[h]} ∪ sh_claimed s))
  end.

Lemma tserve_answers {X} s (q : treq X) : tanswers s q (tserve s q).1 (tserve s q).2.
Proof.
  destruct s as [w c], q; cbn; try constructor.
  - pose proof (serve_answers w q) as H. destruct (serve w q) as [x w']. by constructor.
  - destruct (N.leb_spec (off + len) (N.of_nat (length src))); by constructor.
Qed.

End answers.

(** ** What a task knows *)

Definition learned (e : event treq) (D : list fact) : list fact :=
  match ev_req e in treq X return X → list fact with
  | Store q => fun x => learn q x D
  | _ => fun _ => D
  end (ev_ans e).

Definition facts (h : list (event treq)) : list fact := fold_left (fun D e => learned e D) h [].

(** The hashes it claimed first, and all it asked for. *)
Definition wins (e : event treq) : list ChunkHash :=
  match ev_req e in treq X return X → list ChunkHash with
  | Claim k => fun x : bool => if x then [k] else []
  | _ => fun _ => []
  end (ev_ans e).
Definition asks (e : event treq) : list ChunkHash :=
  match ev_req e with Claim k => [k] | _ => [] end.

Definition won (h : list (event treq)) : list ChunkHash := h ≫= wins.
Definition seen (h : list (event treq)) : list ChunkHash := h ≫= asks.

Lemma facts_snoc h e : facts (h ++ [e]) = learned e (facts h).
Proof. unfold facts. by rewrite fold_left_app. Qed.
Lemma won_snoc h e : won (h ++ [e]) = won h ++ wins e.
Proof. unfold won. rewrite bind_app. cbn. by rewrite app_nil_r. Qed.
Lemma seen_snoc h e : seen (h ++ [e]) = seen h ++ asks e.
Proof. unfold seen. rewrite bind_app. cbn. by rewrite app_nil_r. Qed.

Section tasks.
Context (sha256 : bytes → bytes) (src : bytes).

(** The answers a task can rely on, and the requests it may make. *)
Definition task_ans (_ : list (event treq)) X (q : treq X) : X → Prop :=
  match q in treq Y return Y → Prop with
  | Store q => content_rely sha256 _ q
  | ReadSource off len => fun r =>
      match r with
      | Ok b => b = cut src off len ∧ (off + len ≤ N.of_nat (length src))%N
      | Err _ => True
      end
  | _ => fun _ => True
  end.

Definition task_can (h : list (event treq)) X (q : treq X) : Prop :=
  match q with
  | Store q => content_guar sha256 _ (facts h) q
  | _ => True
  end.

Notation twp := (Prog.wp task_ans task_can).

Lemma twp_lift {A} h (p : World.prog A) Φ :
  World.wp (content_rely sha256) (content_guar sha256) (facts h) p Φ →
  twp h (lift p) (fun h' a => Φ a (facts h') ∧ won h' = won h ∧ seen h' = seen h).
Proof.
  revert h. induction p as [a|X q k IH]; intros h; [done|]. intros [Hg Hk].
  split; [done|]. intros x Hx. eapply Prog.wp_mono; [|apply IH].
  - intros h' a (HΦ&Hw&Hs). split; [exact HΦ|]. rewrite Hw, Hs, won_snoc, seen_snoc. cbn.
    by rewrite !app_nil_r.
  - rewrite facts_snoc. by apply Hk.
Qed.

(** A store operation that may fail, and what follows. *)
Lemma twp_try {A B} h (p : World.prog (result A ChunkStoreError.t)) (f : A → task B) Φ Q :
  World.wp (content_rely sha256) (content_guar sha256) (facts h) p Φ →
  (∀ h' a, Φ (Ok a) (facts h') → won h' = won h → seen h' = seen h → twp h' (f a) Q) →
  (∀ h' e, Q h' (Err e)) →
  twp h (Prog.try_ (lift p) f) Q.
Proof.
  intros Hp Hf He. apply Prog.wp_try. eapply Prog.wp_mono; [|by apply twp_lift].
  intros h' [a|e] (HΦ&Hw&Hs); [by apply Hf|apply He].
Qed.

End tasks.

(** ** The pipeline *)

Record thread (T A : Type) := MkThread {
  th_item : T;
  th_hist : list (event treq);  (* what it has asked so far *)
  th_prog : task A;
}.
Arguments MkThread {T A}.
Arguments th_item {T A}.
Arguments th_hist {T A}.
Arguments th_prog {T A}.

Record pipe (P T A : Type) := MkPipe {
  pi_shared : Shared;
  pi_producer : P;
  pi_queue : list (result T ChunkStoreError.t);
  pi_inflight : list (thread T A);
  pi_finished : list (T * list (event treq) * A);  (* in the order of completion *)
  pi_failed : option ChunkStoreError.t;
}.
Arguments MkPipe {P T A}.
Arguments pi_shared {P T A}.
Arguments pi_producer {P T A}.
Arguments pi_queue {P T A}.
Arguments pi_inflight {P T A}.
Arguments pi_finished {P T A}.
Arguments pi_failed {P T A}.

#[export] Instance eta_pipe {P T A} : Eta (pipe P T A) := fun p =>
  MkPipe (pi_shared p) (pi_producer p) (pi_queue p) (pi_inflight p) (pi_finished p) (pi_failed p).

Section pipe.
Context {P T A : Type} (sha256 : bytes → bytes) (input : bytes).
Context (produce : P → option (result T ChunkStoreError.t) → P → Prop) (closed : P → Prop).
Context (body : T → task A) (width cap : nat).

(** Another user of the store: anything that keeps the store's contract. *)
Definition others (w w' : World) : Prop :=
  (cache_clean sha256 w → cache_clean sha256 w') ∧
  (objects_clean sha256 w → objects_clean sha256 w') ∧
  ∀ f, holds w f → holds w' f.

Inductive pipe_step : pipe P T A → pipe P T A → Prop :=
(* the producer sends into the bounded queue, or works on *)
| pp_send p it pr' :
    pi_failed p = None → produce (pi_producer p) (Some it) pr' → (length (pi_queue p) < cap)%nat →
    pipe_step p (p <| pi_producer := pr' |> <| pi_queue := pi_queue p ++ [it] |>)
| pp_work p pr' :
    pi_failed p = None → produce (pi_producer p) None pr' → pipe_step p (p <| pi_producer := pr' |>)
(* a free slot takes the next item; an error in the queue ends the run *)
| pp_start p x q :
    pi_failed p = None → pi_queue p = Ok x :: q → (length (pi_inflight p) < width)%nat →
    pipe_step p (p <| pi_queue := q |> <| pi_inflight := pi_inflight p ++ [MkThread x [] (body x)] |>)
| pp_error p e q :
    pi_failed p = None → pi_queue p = Err e :: q → (length (pi_inflight p) < width)%nat →
    pipe_step p (p <| pi_failed := Some e |>)
(* one request of one task is answered *)
| pp_answer p l1 l2 x h {X} (q : treq X) k a s' :
    pi_failed p = None → pi_inflight p = l1 ++ MkThread x h (Prog.Do q k) :: l2 →
    tanswers input (pi_shared p) q a s' →
    pipe_step p (p <| pi_shared := s' |>
      <| pi_inflight := l1 ++ MkThread x (h ++ [Ev q a]) (k a) :: l2 |>)
(* a task ends *)
| pp_done p l1 l2 x h a :
    pi_failed p = None → pi_inflight p = l1 ++ MkThread x h (Prog.Ret (Ok a)) :: l2 →
    pipe_step p (p <| pi_inflight := l1 ++ l2 |> <| pi_finished := pi_finished p ++ [(x, h, a)] |>)
| pp_fail p l1 l2 x h e :
    pi_failed p = None → pi_inflight p = l1 ++ MkThread x h (Prog.Ret (Err e)) :: l2 →
    pipe_step p (p <| pi_failed := Some e |>)
(* the rest of the world *)
| pp_others p w' :
    others (sh_world (pi_shared p)) w' →
    pipe_step p (p <| pi_shared := MkShared w' (sh_claimed (pi_shared p)) |>).

(** The run is over without an error. *)
Definition complete (p : pipe P T A) : Prop :=
  pi_failed p = None ∧ closed (pi_producer p) ∧ pi_queue p = [] ∧ pi_inflight p = [].

(** *** No deadlock *)

(** The first task in flight can run to its end. *)
Lemma drain_thread p x h (t : task A) l :
  pi_failed p = None → pi_inflight p = MkThread x h t :: l →
  ∃ p', rtc pipe_step p p' ∧ pi_queue p' = pi_queue p ∧ pi_producer p' = pi_producer p ∧
    (pi_failed p' ≠ None ∨ (pi_failed p' = None ∧ pi_inflight p' = l)).
Proof.
  revert p h. induction t as [[a|e]|X q k IH]; intros p h Hf Hi.
  - exists (p <| pi_inflight := [] ++ l |> <| pi_finished := pi_finished p ++ [(x, h, a)] |>).
    split; [by eapply rtc_once, (pp_done p [])|]. cbn. auto.
  - exists (p <| pi_failed := Some e |>). split; [by eapply rtc_once, (pp_fail p [])|]. cbn. auto.
  - pose proof (tserve_answers input (pi_shared p) q) as Ha.
    destruct (tserve input (pi_shared p) q) as [y s']. cbn in Ha.
    destruct (IH y (p <| pi_shared := s' |>
      <| pi_inflight := [] ++ MkThread x (h ++ [Ev q y]) (k y) :: l |>) (h ++ [Ev q y])) as (p'&Hr&H); [done..|].
    exists p'. split; [|exact H]. eapply rtc_l; [|exact Hr]. by eapply (pp_answer p []).
Qed.

Lemma drain_inflight l p :
  pi_failed p = None → pi_inflight p = l →
  ∃ p', rtc pipe_step p p' ∧ pi_queue p' = pi_queue p ∧ pi_producer p' = pi_producer p ∧
    (pi_failed p' ≠ None ∨ (pi_failed p' = None ∧ pi_inflight p' = [])).
Proof.
  revert p. induction l as [|[x h t] l IH]; intros p Hf Hi; [exists p; auto 6 using rtc_refl|].
  destruct (drain_thread p x h t l Hf Hi) as (p1&Hr1&Hq1&Hp1&[Hf1|[Hf1 Hi1]]); [exists p1; auto 6|].
  destruct (IH p1 Hf1 Hi1) as (p2&Hr2&Hq2&Hp2&H2). exists p2.
  split; [by etrans|]. split; [congruence|]. split; [congruence|done].
Qed.

(** Whatever is queued and in flight can be worked off. *)
Lemma pipe_drains p :
  (0 < width)%nat → pi_failed p = None →
  ∃ p', rtc pipe_step p p' ∧ pi_producer p' = pi_producer p ∧
    (pi_failed p' ≠ None ∨ (pi_failed p' = None ∧ pi_queue p' = [] ∧ pi_inflight p' = [])).
Proof.
  intros Hw. remember (pi_queue p) as q eqn:Hq. revert p Hq.
  induction q as [|it q IH]; intros p Hq Hf.
  - destruct (drain_inflight _ p Hf eq_refl) as (p'&Hr&Hq'&Hp'&[?|[? ?]]); exists p'; split_and!; try done; [by left|].
    right. split_and!; try done; congruence.
  - destruct (drain_inflight _ p Hf eq_refl) as (p1&Hr1&Hq1&Hp1&[Hf1|[Hf1 Hi1]]); [exists p1; auto 6|].
    rewrite <- Hq in Hq1. destruct it as [x|e].
    + destruct (IH (p1 <| pi_queue := q |> <| pi_inflight := pi_inflight p1 ++ [MkThread x [] (body x)] |>))
        as (p2&Hr2&Hp2&H2); cbn; [done|done|].
      exists p2. cbn in Hp2. rewrite <- Hp1. split_and!; [|done|done]. etrans; [exact Hr1|].
      eapply rtc_l; [|exact Hr2]. apply pp_start; [done|done|]. by rewrite Hi1.
    + exists (p1 <| pi_failed := Some e |>). split_and!; [|done|by left]. etrans; [exact Hr1|].
      eapply rtc_once, pp_error; [done|done|]. by rewrite Hi1.
Qed.

(** Once the producer is done, the run can end. *)
Lemma pipe_ends p :
  (0 < width)%nat → pi_failed p = None → closed (pi_producer p) →
  ∃ p', rtc pipe_step p p' ∧ (pi_failed p' ≠ None ∨ complete p').
Proof.
  intros Hw Hf Hc. destruct (pipe_drains p Hw Hf) as (p'&Hr&Hp&[?|(?&?&?)]); exists p'; split; try done; [by left|].
  right. split_and!; try done. by rewrite Hp.
Qed.

(** *** One schedule: each task alone, without faults *)

Fixpoint run_task (s : Shared) (h : list (event treq)) (t : task A) :
    Shared * list (event treq) * result A ChunkStoreError.t :=
  match t with
  | Prog.Ret r => (s, h, r)
  | Prog.Do q k => let '(x, s') := tserve input s q in run_task s' (h ++ [Ev q x]) (k x)
  end.

Fixpoint run_queue (s : Shared) (pr : P) (q : list (result T ChunkStoreError.t))
    (fin : list (T * list (event treq) * A)) : pipe P T A :=
  match q with
  | [] => MkPipe s pr [] [] fin None
  | Err e :: _ => MkPipe s pr q [] fin (Some e)
  | Ok x :: q' =>
      match run_task s [] (body x) with
      | (s', h, Ok a) => run_queue s' pr q' (fin ++ [(x, h, a)])
      | (s', h, Err e) => MkPipe s' pr q' [MkThread x h (Prog.Ret (Err e))] fin (Some e)
      end
  end.

Lemma run_task_steps x h (t : task A) s pr q fin :
  rtc pipe_step (MkPipe s pr q [MkThread x h t] fin None)
    (let '(s', h', r) := run_task s h t in MkPipe s' pr q [MkThread x h' (Prog.Ret r)] fin None).
Proof.
  revert s h. induction t as [r|X rq k IH]; intros s h; [done|]. cbn [run_task].
  pose proof (tserve_answers input s rq) as Ha. destruct (tserve input s rq) as [y s']. cbn in Ha.
  eapply rtc_l; [|apply IH]. by eapply (pp_answer (MkPipe s pr q [_] fin None) []).
Qed.

Lemma run_queue_steps q s pr fin :
  (0 < width)%nat → rtc pipe_step (MkPipe s pr q [] fin None) (run_queue s pr q fin).
Proof.
  intros Hw. revert s fin. induction q as [|[x|e] q IH]; intros s fin; cbn [run_queue].
  - done.
  - pose proof (run_task_steps x [] (body x) s pr q fin) as Hr.
    destruct (run_task s [] (body x)) as [[s' h] [a|e]].
    + eapply rtc_l; [by apply (pp_start (MkPipe s pr (Ok x :: q) [] fin None) x q)|].
      etrans; [exact Hr|]. eapply rtc_l; [|apply IH].
      by apply (pp_done (MkPipe s' pr q [MkThread x h (Prog.Ret (Ok a))] fin None) [] []).
    + eapply rtc_l; [by apply (pp_start (MkPipe s pr (Ok x :: q) [] fin None) x q)|].
      etrans; [exact Hr|]. eapply rtc_once.
      by apply (pp_fail (MkPipe s' pr q [MkThread x h (Prog.Ret (Err e))] fin None) [] [] x h).
  - eapply rtc_once. by apply (pp_error (MkPipe s pr (Err e :: q) [] fin None) e q).
Qed.

(** An error of the producer is not lost: it waits in the queue or has ended
    the run. *)
Lemma pipe_error_kept (errored : P → Prop) p p' :
  (∀ pr it pr', produce pr it pr' → errored pr' → errored pr ∨ ∃ e, it = Some (Err e)) →
  rtc pipe_step p p' →
  (errored (pi_producer p) → pi_failed p ≠ None ∨ ∃ e, Err e ∈ pi_queue p) →
  errored (pi_producer p') → pi_failed p' ≠ None ∨ ∃ e, Err e ∈ pi_queue p'.
Proof.
  intros Herr. induction 1 as [|p p1 p2 Hs _ IH]; [done|]. intros Hp. apply IH. clear IH.
  destruct Hs; cbn; auto.
  - intros He. destruct (Herr _ _ _ H0 He) as [Hb|[e [= ->]]]; [|right; exists e; apply elem_of_app; right; apply list_elem_of_singleton; done].
    destruct (Hp Hb) as [?|[e ?]]; [by left|]. right. exists e. by apply elem_of_app; left.
  - intros He. destruct (Herr _ _ _ H0 He) as [Hb|[e [=]]]. by apply Hp.
  - intros He. destruct (Hp He) as [?|[e Hin]]; [by left|]. right. exists e.
    rewrite H0 in Hin. by apply elem_of_cons in Hin as [?|?].
Qed.

(** *** Soundness *)

Definition oks (q : list (result T ChunkStoreError.t)) : list T :=
  q ≫= (fun r => match r with Ok x => [x] | Err _ => [] end).

Definition histories (p : pipe P T A) : list (list (event treq)) :=
  (th_hist <$> pi_inflight p) ++ ((fun f => f.1.2) <$> pi_finished p).

(** The items that have left the producer. *)
Definition items (p : pipe P T A) : list T :=
  oks (pi_queue p) ++ (th_item <$> pi_inflight p) ++ ((fun f => f.1.1) <$> pi_finished p).

Context (s0 : Shared).
(** [J pr l]: the producer [pr] has produced [l]. *)
Context (J : P → list T → Prop) (Good : T → Prop) (Post : T → list (event treq) → A → Prop).
(** What a task has learned is so. *)
Definition knows (s : Shared) (h : list (event treq)) : Prop :=
  Forall (holds (sh_world s)) (facts h) ∧ Forall (fun k => k ∈ sh_claimed s) (seen h).

Definition thread_ok (s : Shared) (th : thread T A) : Prop :=
  knows s (th_hist th) ∧
  Prog.wp (task_ans sha256 input) (task_can sha256) (th_hist th) (th_prog th)
    (fun h r => match r with Ok a => Post (th_item th) h a | Err _ => True end).

Record pipe_inv (p : pipe P T A) : Prop := {
  inv_world : content_inv sha256 (sh_world s0) (sh_world (pi_shared p));
  inv_threads : Forall (thread_ok (pi_shared p)) (pi_inflight p);
  inv_finished : Forall (fun f => knows (pi_shared p) f.1.2 ∧ Post f.1.1 f.1.2 f.2) (pi_finished p);
  inv_claimed : sh_claimed (pi_shared p) = sh_claimed s0 ∪ list_to_set (histories p ≫= won);
  inv_unique : NoDup (histories p ≫= won) ∧ ∀ k, k ∈ histories p ≫= won → k ∉ sh_claimed s0;
  inv_items : ∃ l, J (pi_producer p) l ∧ l ≡ₚ items p;
}.

Lemma knows_mono s s' h :
  (∀ f, holds (sh_world s) f → holds (sh_world s') f) → sh_claimed s ⊆ sh_claimed s' →
  knows s h → knows s' h.
Proof.
  intros Hf Hc [H1 H2]. split; eapply Forall_impl; [exact H1|done|exact H2|]. cbv beta. set_solver.
Qed.

Lemma thread_ok_mono s s' th :
  (∀ f, holds (sh_world s) f → holds (sh_world s') f) → sh_claimed s ⊆ sh_claimed s' →
  thread_ok s th → thread_ok s' th.
Proof. intros Hf Hc [H1 H2]. split; [by eapply knows_mono|done]. Qed.

Lemma pipe_init pr q :
  cache_clean sha256 (sh_world s0) → J pr (oks q) → pipe_inv (MkPipe s0 pr q [] [] None).
Proof.
  intros Hc HJ. split; try constructor; cbn; try done.
  - by rewrite union_empty_r_L.
  - constructor.
  - intros k Hk. by apply not_elem_of_nil in Hk.
  - exists (oks q). split; [done|]. unfold items. cbn. by rewrite app_nil_r.
Qed.

(** One answer: the task stays within its [wp], the shared state within its
    invariant. *)
Lemma answer_ok s h {X} (q : treq X) a s' :
  content_inv sha256 (sh_world s0) (sh_world s) → knows s h → task_can sha256 h X q →
  tanswers input s q a s' →
  task_ans sha256 input h X q a ∧ content_inv sha256 (sh_world s0) (sh_world s') ∧
  (∀ f, holds (sh_world s) f → holds (sh_world s') f) ∧
  sh_claimed s' = sh_claimed s ∪ list_to_set (wins (Ev q a)) ∧
  (∀ k, k ∈ wins (Ev q a) → k ∉ sh_claimed s) ∧ NoDup (wins (Ev q a)) ∧
  knows s' (h ++ [Ev q a]).
Proof.
  intros Hi [Hf Hs] Hc Ha. unfold knows. rewrite facts_snoc, seen_snoc.
  destruct Ha as [X w w' c q x Ha|s r|s off len Hl|s off len|w c k]; cbn in *.
  - destruct (content_answer sha256 _ _ _ _ _ _ _ Hi Hf Hc Ha) as (Hr&Hi'&Hd).
    destruct (answers_facts _ _ _ _ Ha Hd) as [Hm Hl].
    split_and!; try done; [by rewrite union_empty_r_L|by intros ? ?%not_elem_of_nil|constructor|by apply Hl|by rewrite app_nil_r].
  - split_and!; try done; [by rewrite union_empty_r_L|by intros ? ?%not_elem_of_nil|constructor|by rewrite app_nil_r].
  - split_and!; try done; [by rewrite union_empty_r_L|by intros ? ?%not_elem_of_nil|constructor|by rewrite app_nil_r].
  - split_and!; try done; [by rewrite union_empty_r_L|by intros ? ?%not_elem_of_nil|constructor|by rewrite app_nil_r].
  - assert (Hs' : Forall (λ k0, k0 ∈ {[k]} ∪ c) (seen h ++ [k])).
    { apply Forall_app. split; [|by repeat constructor; set_solver].
      eapply Forall_impl; [exact Hs|]. cbv beta. set_solver. }
    unfold wins. cbn. case_bool_decide as Hk; split_and!; try done; cbn.
    + rewrite union_empty_r_L. apply union_comm_L.
    + intros k'. by rewrite list_elem_of_singleton; intros ->.
    + apply NoDup_singleton.
    + clear Hs' Hs Hf Hi. set_solver.
    + by intros ? ?%not_elem_of_nil.
    + constructor.
Qed.

Lemma pipe_answer_inv p l1 l2 x h {X} (q : treq X) k a s' :
  pi_inflight p = l1 ++ MkThread x h (Prog.Do q k) :: l2 → pipe_inv p →
  tanswers input (pi_shared p) q a s' →
  pipe_inv (p <| pi_shared := s' |>
    <| pi_inflight := l1 ++ MkThread x (h ++ [Ev q a]) (k a) :: l2 |>).
Proof.
  intros Hi [Hw Ht Hf Hc [Hu Hn] (l&HJ&Hl)] Ha.
  rewrite Hi in Ht. apply Forall_app in Ht as [Ht1 [[Hk [Hcan Hx]] Ht2]%Forall_cons].
  destruct (answer_ok _ _ _ _ _ Hw Hk Hcan Ha) as (Hr&Hw'&Hm&Hcl&Hnew&Hnd&Hk').
  assert (Hsub : sh_claimed (pi_shared p) ⊆ sh_claimed s') by (rewrite Hcl; set_solver-).
  assert (Hh : histories (p <| pi_shared := s' |>
    <| pi_inflight := l1 ++ MkThread x (h ++ [Ev q a]) (k a) :: l2 |>) ≫= won ≡ₚ
    (histories p ≫= won) ++ wins (Ev q a)).
  { unfold histories. rewrite Hi. cbn. rewrite !fmap_app, !bind_app. cbn.
    rewrite won_snoc, <- !app_assoc. solve_Permutation. }
  split; cbn; try done.
  - apply Forall_app. split; [|constructor; [split; [done|by apply Hx]|]];
      (eapply Forall_impl; [eassumption|]); intros th; by apply thread_ok_mono.
  - eapply Forall_impl; [exact Hf|]. intros f [? ?]. split; [|done]. by eapply knows_mono.
  - rewrite Hcl, Hc, <- union_assoc_L. f_equal. rewrite <- list_to_set_app_L.
    apply list_to_set_perm_L. by rewrite Hh.
  - rewrite Hh. split.
    + apply NoDup_app. split; [done|]. split; [|done]. intros y Hy Hy'%Hnew. apply Hy'.
      rewrite Hc. apply elem_of_union_r, elem_of_list_to_set, Hy.
    + intros y. rewrite Hh, elem_of_app. intros [Hy|Hy%Hnew]; [by apply Hn|].
      rewrite Hc in Hy. set_solver.
  - exists l. split; [done|]. rewrite Hl. unfold items. cbn. by rewrite Hi, !fmap_app.
Qed.

(** The producer sends what [J] counts, and a task of such an item is safe. *)
Hypothesis J_send : ∀ pr x pr' l, produce pr (Some (Ok x)) pr' → J pr l → J pr' (l ++ [x]).
Hypothesis J_err : ∀ pr e pr' l, produce pr (Some (Err e)) pr' → J pr l → J pr' l.
Hypothesis J_work : ∀ pr pr' l, produce pr None pr' → J pr l → J pr' l.
Hypothesis J_good : ∀ pr l, J pr l → Forall Good l.
Hypothesis body_ok : ∀ x, Good x →
  Prog.wp (task_ans sha256 input) (task_can sha256) [] (body x)
    (fun h r => match r with Ok a => Post x h a | Err _ => True end).

Lemma pipe_step_inv p p' : pipe_step p p' → pipe_inv p → pipe_inv p'.
Proof.
  intros Hstep [Hw Ht Hf Hc [Hu Hn] (l&HJ&Hl)].
  destruct Hstep as [p it pr' Hfl Hp Hq|p pr' Hfl Hp|p x q Hfl Hq Hlen|p e q Hfl Hq Hlen
    |p l1 l2 x h X q k a s' Hfl Hi Ha|p l1 l2 x h a Hfl Hi|p l1 l2 x h e Hfl Hi|p w' Ho].
  - split; cbn; try done. destruct it as [x|e]; [exists (l ++ [x])|exists l]; (split; [eauto|]);
      unfold items, oks; cbn; rewrite bind_app; cbn; rewrite Hl; unfold items, oks.
    + rewrite <- app_assoc. cbn. solve_Permutation.
    + by rewrite app_nil_r.
  - split; cbn; try done. exists l. split; [eauto|done].
  - assert (Hg : Good x).
    { pose proof (J_good _ _ HJ) as Hgs. rewrite Forall_forall in Hgs. apply Hgs.
      rewrite Hl. unfold items. rewrite Hq. left. }
    assert (Hh : histories (p <| pi_queue := q |> <| pi_inflight := pi_inflight p ++ [MkThread x [] (body x)] |>)
      ≫= won ≡ₚ histories p ≫= won).
    { unfold histories. cbn. rewrite fmap_app, !bind_app. cbn. by rewrite app_nil_r. }
    split; cbn; try done.
    + apply Forall_app. split; [done|]. repeat constructor. by apply body_ok.
    + rewrite Hc. f_equal. apply list_to_set_perm_L. by rewrite Hh.
    + split; [by rewrite Hh|]. intros k. rewrite Hh. apply Hn.
    + exists l. split; [done|]. rewrite Hl. unfold items. cbn. rewrite Hq, fmap_app. cbn. solve_Permutation.
  - split; cbn; try done. by exists l.
  - by eapply pipe_answer_inv; [|split|..]; eauto.
  - rewrite Hi in Ht. apply Forall_app in Ht as [Ht1 [[Hk Hx] Ht2]%Forall_cons].
    assert (Hh : histories (p <| pi_inflight := l1 ++ l2 |> <| pi_finished := pi_finished p ++ [(x, h, a)] |>)
      ≫= won ≡ₚ histories p ≫= won).
    { unfold histories. rewrite Hi. cbn. rewrite !fmap_app, !bind_app. cbn. solve_Permutation. }
    split; cbn; try done.
    + by apply Forall_app.
    + apply Forall_app. split; [done|]. constructor; [exact (conj Hk Hx)|constructor].
    + rewrite Hc. f_equal. apply list_to_set_perm_L. by rewrite Hh.
    + split; [by rewrite Hh|]. intros k. rewrite Hh. apply Hn.
    + exists l. split; [done|]. rewrite Hl. unfold items. cbn. rewrite Hi, !fmap_app. cbn. solve_Permutation.
  - split; cbn; try done. by exists l.
  - destruct Ho as (Ho1&Ho2&Ho3). destruct Hw as (Hw1&Hw2&Hw3). split; cbn; try done.
    + split_and!; auto. intros k Hk. apply (Ho3 (Stored k)). by apply Hw3.
    + eapply Forall_impl; [exact Ht|]. intros th. by apply thread_ok_mono.
    + eapply Forall_impl; [exact Hf|]. intros f [? ?]. split; [|done]. by eapply knows_mono.
    + by exists l.
Qed.

Lemma pipe_sound p p' : rtc pipe_step p p' → pipe_inv p → pipe_inv p'.
Proof. induction 1; eauto using pipe_step_inv. Qed.

End pipe.
