(* ===== verification/Rechunk.v ===== *)
(** * Checkpoints from dirty ranges

    [file.rs]'s [update_for_dirty_ranges_sparse_with_sink]: the next manifest of
    an image from the previous one and a sparse diff.  Each chunk a dirty range
    touches is rebuilt in memory from its previous content and the diff, many at
    a time; the others carry over.  Integers are [u64]: the sum of a range's
    offset and length wraps. *)

From S2P Require Import Prelude Text Manifest World ChunkStore StoreProps Wire Prog Image Pipeline.
Local Open Scope N_scope.

Notation DirtyRange := (N * N)%type (only parsing).

(** ** The code *)

Definition SPARSE_RECHUNK_CONCURRENCY : nat := 96.

(** A chunk to rebuild: its offset, its length, its previous hash. *)
Record Work := MkWork { w_offset : N; w_want : N; w_prev : option ChunkHash }.

Definition u64_add (a b : N) : N := (a + b) mod 2 ^ 64.
Definition u64_sub (a b : N) : N := (a + 2 ^ 64 - b) mod 2 ^ 64.

Section rechunk.
Context (sha256 : bytes → bytes) (self : ChunkStore) (local_sink : bool).
Context (prev : Manifest.t) (dirty_ranges : list DirtyRange).

Notation chunk_size := (Manifest.chunk_size prev).
Notation total_bytes := (Manifest.total_bytes prev).

(** The chunk indices one range adds. *)
Definition touched (r : DirtyRange) : list N :=
  if r.2 =? 0 then []
  else
    let end_ := N.min (u64_sub (u64_add r.1 r.2) 1) (total_bytes - 1) in
    range (r.1 / chunk_size) (end_ / chunk_size + 1).

Definition dirty_chunks : gset N :=
  fold_left (fun s r => s ∪ list_to_set (touched r)) dirty_ranges ∅.

Definition work_at (idx : N) : option Work :=
  let offset := idx * chunk_size in
  if total_bytes <=? offset then None
  else Some (MkWork offset (N.min chunk_size (total_bytes - offset))
               (Manifest.by_offset (Manifest.chunks prev) !! offset)).

Definition work : list Work := omap work_at (keys (gset_to_gmap tt dirty_chunks)).

(** The diff's bytes that fall into the chunk. *)
Fixpoint overlay_loop (offset want : N) (ranges : list DirtyRange) (slice : bytes) : task bytes :=
  match ranges with
  | [] => Prog.okay slice
  | (off, len) :: rest =>
      if len =? 0 then overlay_loop offset want rest slice
      else
        let lo := N.max off offset in
        let hi := N.min (u64_add off len) (offset + want) in
        if hi <=? lo then overlay_loop offset want rest slice
        else
          do! b := ask_err (fun _ => ChunkStoreError.Cache) (ReadSource lo (hi - lo)) in
          overlay_loop offset want rest (splice slice (lo - offset) b)
  end.

(** Where the rebuilt chunk goes: the local cache, or the store once. *)
Definition land (prev_hash : option ChunkHash) (h : ChunkHash) (slice : bytes) : task unit :=
  if local_sink then lift (cache_put sha256 h slice)
  else if bool_decide (prev_hash = Some h) then Prog.okay tt
  else
    first ← Prog.ask (Claim h);
    if negb first then Prog.okay tt else lift (put_chunk_unchecked_prehashed self h slice).

(** The previous content, padded with zeros or cut to the chunk. *)
Definition seed (want : N) (prev_hash : option ChunkHash) : task bytes :=
  match prev_hash with
  | Some ph =>
      do! b := lift (get_chunk sha256 self ph) in
      Prog.okay (resize (N.to_nat want) 0 b)
  | None => Prog.okay (replicate (N.to_nat want) 0)
  end.

Definition rebuild (wk : Work) : task (N * option ChunkRef) :=
  do! slice := seed (w_want wk) (w_prev wk) in
  do! _ := ask_err (fun _ => ChunkStoreError.Internal "open diff {}: {e}") OpenSource in
  do! slice := overlay_loop (w_offset wk) (w_want wk) dirty_ranges slice in
  if is_all_zero slice then Prog.okay (w_offset wk, None)
  else
    let h := sha256 slice in
    do! _ := land (w_prev wk) h slice in
    Prog.okay (w_offset wk, Some (MkChunk (w_offset wk) h)).

(** The fold over the results, in the order the tasks ended. *)
Definition fold_result (acc : gmap N ChunkHash * gset N) (r : N * option ChunkRef) :
    gmap N ChunkHash * gset N :=
  match r.2 with
  | Some c => (<[r.1 := hash c]> acc.1, {[r.1]} ∪ acc.2)
  | None => (delete r.1 acc.1, acc.2)
  end.

Definition next_manifest (results : list (N * option ChunkRef)) : Manifest.t * list ChunkHash :=
  let '(by_off, rebuilt) :=
    fold_left fold_result results (Manifest.by_offset (Manifest.chunks prev), ∅) in
  let new_hashes := omap (fun off => by_off !! off) (keys (gset_to_gmap tt rebuilt)) in
  (prev <| Manifest.chunks := (fun kv => MkChunk kv.1 kv.2) <$> btree by_off |>, new_hashes).

(** The batch of one call: the hashes of [prev] are claimed from the start. *)
Definition claimed0 : gset (list N) := list_to_set (hash <$> Manifest.chunks prev).

Definition batch (w : World) : pipe unit Work (N * option ChunkRef) :=
  MkPipe (MkShared w claimed0) tt (Ok <$> work) [] [] None.

(** A fixed list produces nothing later. *)
Definition no_more (pr : unit) (it : option (result Work ChunkStoreError.t)) (pr' : unit) : Prop := False.

Definition batch_step (diff : bytes) := pipe_step sha256 diff no_more rebuild SPARSE_RECHUNK_CONCURRENCY 0.

(** [cache.sweep()]: files go, the objects stay. *)
Definition swept (w w' : World) : Prop := objects w' = objects w ∧ files w' ⊆ files w.

(** What the call may return, from world [w] to world [w']. *)
Inductive update_for_dirty_ranges_sparse_with_sink (diff : bytes) (w : World) :
    World → result (Manifest.t * list ChunkHash) ChunkStoreError.t → Prop :=
| up_invalid e :
    Manifest.validate prev = Err e → update_for_dirty_ranges_sparse_with_sink diff w w (Err e)
| up_failed p e :
    Manifest.validate prev = Ok tt → rtc (batch_step diff) (batch w) p → pi_failed p = Some e →
    update_for_dirty_ranges_sparse_with_sink diff w (sh_world (pi_shared p)) (Err e)
| up_done p :
    Manifest.validate prev = Ok tt → rtc (batch_step diff) (batch w) p → complete (fun _ => True) p →
    local_sink = false →
    update_for_dirty_ranges_sparse_with_sink diff w (sh_world (pi_shared p))
      (Ok (next_manifest (pi_finished p).*2))
| up_swept p w' (ok : bool) :
    Manifest.validate prev = Ok tt → rtc (batch_step diff) (batch w) p → complete (fun _ => True) p →
    local_sink = true → swept (sh_world (pi_shared p)) w' →
    update_for_dirty_ranges_sparse_with_sink diff w w'
      (if ok then Ok (next_manifest (pi_finished p).*2) else Err ChunkStoreError.Cache).

End rechunk.

(** ** The reference: the image the diff makes *)

Definition covered (ranges : list DirtyRange) (j : N) : bool :=
  existsb (fun r => (r.1 <=? j) && (j <? r.1 + r.2)) ranges.

(** The bytes of the dirty ranges are the diff's, the others stay. *)
Definition overlay (img diff : bytes) (ranges : list DirtyRange) : bytes :=
  imap (fun i b => if covered ranges (N.of_nat i) then default b (diff !! i) else b) img.

Lemma overlay_length img diff rs : length (overlay img diff rs) = length img.
Proof. unfold overlay. by rewrite length_imap. Qed.

Lemma overlay_lookup img diff rs i :
  overlay img diff rs !! i =
    (fun b => if covered rs (N.of_nat i) then default b (diff !! i) else b) <$> img !! i.
Proof. unfold overlay. by rewrite list_lookup_imap. Qed.

Lemma covered_app rs rs' j : covered (rs ++ rs') j = covered rs j || covered rs' j.
Proof. apply existsb_app. Qed.

Lemma covered_true rs j : covered rs j = true ↔ ∃ r, r ∈ rs ∧ r.1 ≤ j < r.1 + r.2.
Proof.
  unfold covered. rewrite existsb_exists_elem. setoid_rewrite andb_true_iff.
  setoid_rewrite N.leb_le. setoid_rewrite N.ltb_lt. naive_solver.
Qed.

(** Overlaying one more range. *)
Lemma overlay_splice img diff rs off len offset want :
  offset + want ≤ N.of_nat (length img) →
  let lo := N.max off offset in
  let hi := N.min (off + len) (offset + want) in
  lo < hi → hi ≤ N.of_nat (length diff) →
  splice (cut (overlay img diff rs) offset want) (lo - offset) (cut diff lo (hi - lo)) =
  cut (overlay img diff (rs ++ [(off, len)])) offset want.
Proof.
  intros Hi lo hi Hlt Hd.
  assert (Hlen : N.of_nat (length (cut diff lo (hi - lo))) = hi - lo) by (rewrite cut_length; lia).
  apply list_eq. intros i. rewrite splice_lookup, Hlen, !cut_lookup.
  2: { rewrite !cut_length, overlay_length. lia. }
  destruct (decide (N.of_nat i < want)) as [Hw|Hw].
  2: { rewrite decide_False by lia. done. }
  rewrite !overlay_lookup, covered_app.
  assert (Hc : covered [(off, len)] (N.of_nat (N.to_nat offset + i)) =
    bool_decide (lo - offset ≤ N.of_nat i < lo - offset + (hi - lo))).
  { unfold covered. cbn [existsb fst snd]. rewrite orb_false_r. case_bool_decide.
    - apply andb_true_iff. rewrite N.leb_le, N.ltb_lt. lia.
    - apply andb_false_iff. rewrite N.leb_gt, N.ltb_ge. lia. }
  rewrite Hc. destruct (lookup_lt_is_Some_2 img (N.to_nat offset + i)) as [b Hb]; [lia|]. rewrite Hb.
  destruct (decide (lo - offset ≤ N.of_nat i < lo - offset + (hi - lo))) as [Hr|Hr].
  - rewrite bool_decide_eq_true_2, orb_true_r by lia. rewrite decide_True by lia. cbn.
    replace (N.to_nat lo + (i - N.to_nat (lo - offset)))%nat with (N.to_nat offset + i)%nat by lia.
    destruct (lookup_lt_is_Some_2 diff (N.to_nat offset + i)) as [d Hd']; [lia|]. by rewrite Hd'.
  - by rewrite bool_decide_eq_false_2, orb_false_r by lia.
Qed.

(** A range that misses the chunk changes nothing in it. *)
Lemma overlay_miss img diff rs off len offset want :
  N.min (off + len) (offset + want) ≤ N.max off offset →
  cut (overlay img diff (rs ++ [(off, len)])) offset want = cut (overlay img diff rs) offset want.
Proof.
  intros Hm. apply cut_ext. intros i Hi. rewrite !overlay_lookup, covered_app.
  replace (covered [(off, len)] _) with false; [by rewrite orb_false_r|].
  unfold covered. cbn [existsb fst snd]. rewrite orb_false_r. symmetry. apply andb_false_iff.
  rewrite N.leb_gt, N.ltb_ge. lia.
Qed.

Lemma u64_add_id a b : a + b < 2 ^ 64 → u64_add a b = a + b.
Proof. intros. unfold u64_add. by rewrite N.mod_small. Qed.

Lemma u64_sub_id a b : b ≤ a → a < 2 ^ 64 → u64_sub a b = a - b.
Proof.
  intros Hb Ha. unfold u64_sub. replace (a + 2 ^ 64 - b) with (a - b + 1 * 2 ^ 64) by lia.
  rewrite N.Div0.mod_add, N.mod_small; [done|lia].
Qed.

(** ** Each chunk is rebuilt as the reference has it *)

Section correct.
Context (sha256 : bytes → bytes) (self : ChunkStore) (local_sink : bool).
Context (prev : Manifest.t) (dirty_ranges : list DirtyRange) (img diff : bytes).
Hypothesis sha256_wf : ∀ b, wf_hash (sha256 b).
Context `{!ByteCorrect sha256 (resolver self)}.

(** [prev] is the manifest of [img], and its chunks have no second preimage. *)
Hypothesis Hprev : describes sha256 prev img.
Hypothesis Huniq : ∀ c b, c ∈ Manifest.chunks prev → sha256 b = hash c →
  b = cut img (offset c) (Manifest.chunk_size prev).
(** The ranges are of a file. *)
Hypothesis Hfit : Forall (fun r => r.1 + r.2 < 2 ^ 64) dirty_ranges.

Notation size := (Manifest.chunk_size prev).
Notation total := (Manifest.total_bytes prev).
Notation twp := (Prog.wp (task_ans sha256 diff) (task_can sha256)).
Notation next := (overlay img diff dirty_ranges).

(** Only the source is read. *)
Definition same_knowledge (h h' : list (event treq)) : Prop :=
  facts h' = facts h ∧ won h' = won h ∧ seen h' = seen h.

Lemma overlay_loop_ok h offset want before ranges Q :
  offset + want ≤ N.of_nat (length img) → Forall (fun r => r.1 + r.2 < 2 ^ 64) ranges →
  (∀ h', same_knowledge h h' → Q h' (Ok (cut (overlay img diff (before ++ ranges)) offset want))) →
  (∀ h' e, Q h' (Err e)) →
  twp h (overlay_loop offset want ranges (cut (overlay img diff before) offset want)) Q.
Proof.
  intros Hin Hr. revert h before. induction Hr as [|[off len] ranges Hr _ IH]; intros h before HQ He.
  { apply Prog.wp_ret. rewrite app_nil_r in HQ. by apply HQ. }
  cbn [overlay_loop]. cbn in Hr. rewrite u64_add_id by done.
  assert (Hskip : N.min (off + len) (offset + want) ≤ N.max off offset →
    twp h (overlay_loop offset want ranges (cut (overlay img diff before) offset want)) Q).
  { intros Hm. rewrite <- (overlay_miss _ _ _ _ _ _ _ Hm). apply IH; [|done].
    intros h' Hh. rewrite <- app_assoc. by apply HQ. }
  destruct (N.eqb_spec len 0) as [->|Hl]; [apply Hskip; lia|].
  destruct (N.leb_spec (N.min (off + len) (offset + want)) (N.max off offset)); [by apply Hskip|].
  apply Prog.wp_try, Prog.wp_ask_err; [done|]. intros [b|[]]; [|intros _; apply He]. intros [-> Hd].
  rewrite overlay_splice; [|done|done|lia]. apply IH; [|done].
  intros h' (Hf&Hw&Hs). rewrite <- app_assoc. apply HQ.
  rewrite facts_snoc in Hf. rewrite won_snoc in Hw. rewrite seen_snoc in Hs.
  cbn in Hf, Hw, Hs. rewrite app_nil_r in Hw, Hs. done.
Qed.

(** The entries of [prev]. *)
Lemma prev_lookup o h :
  Manifest.by_offset (Manifest.chunks prev) !! o = Some h ↔
    o mod size = 0 ∧ o < total ∧ is_all_zero (cut img o size) = false ∧ sha256 (cut img o size) = h.
Proof.
  destruct Hprev as [Hz Ht Hc]. rewrite Manifest.by_offset_lookup.
  - rewrite Hc, Ht. by apply elem_of_image_chunks.
  - rewrite Hc. by apply Manifest.sorted_nodup, image_chunks_sorted.
Qed.

(** A chunk to rebuild lies in the image and names its previous hash. *)
Definition good_work (wk : Work) : Prop :=
  w_offset wk mod size = 0 ∧ w_offset wk < total ∧
  w_want wk = N.min size (total - w_offset wk) ∧
  w_prev wk = Manifest.by_offset (Manifest.chunks prev) !! w_offset wk.

Lemma overlay_nil i d : overlay i d [] = i.
Proof. unfold overlay. induction i as [|x i IH] in d |- *; [done|]. cbn. f_equal. apply (IH d). Qed.

Lemma seed_ok h wk Q :
  good_work wk →
  (∀ h', won h' = won h → seen h' = seen h → Q h' (Ok (cut img (w_offset wk) (w_want wk)))) →
  (∀ h' e, Q h' (Err e)) →
  twp h (seed sha256 self (w_want wk) (w_prev wk)) Q.
Proof.
  intros (Ha&Ho&Hw&Hp) HQ He. destruct Hprev as [Hz Ht Hc]. rewrite Ht in *.
  assert (Hcut : cut img (w_offset wk) (w_want wk) = cut img (w_offset wk) size) by (rewrite Hw; apply cut_min).
  assert (Hlen : length (cut img (w_offset wk) size) = N.to_nat (w_want wk)) by (rewrite cut_length, Hw; done).
  unfold seed. destruct (w_prev wk) as [ph|].
  - symmetry in Hp. pose proof Hp as Hp'. apply prev_lookup in Hp' as (_&_&_&Hph).
    eapply twp_try; [apply get_chunk_correct; [done|rewrite <- Hph; apply sha256_wf]| |done].
    intros h' b Hb Hw' Hs'. apply Prog.wp_ret. cbn in Hb.
    assert (b = cut img (w_offset wk) size) as ->.
    { apply (Huniq (MkChunk (w_offset wk) ph) b); [|done].
      apply Manifest.by_offset_lookup; [|done]. rewrite Hc. by apply Manifest.sorted_nodup, image_chunks_sorted. }
    rewrite <- Hlen, resize_all, <- Hcut. by apply HQ.
  - apply Prog.wp_ret. replace (replicate _ _) with (cut img (w_offset wk) (w_want wk)); [by apply HQ|].
    rewrite Hcut, <- Hlen. apply is_all_zero_spec. apply not_false_iff_true. intros Hn.
    symmetry in Hp. assert (Hs : Manifest.by_offset (Manifest.chunks prev) !! w_offset wk = Some (sha256 (cut img (w_offset wk) size))).
    { apply prev_lookup. by rewrite Ht. }
    congruence.
Qed.

(** What a finished task leaves: its chunk is the reference's; under the durable
    sink its hash was durable, or was claimed; what it claimed is stored. *)
Definition stored_facts (h : list (event treq)) : Prop :=
  ∀ k, k ∈ won h → Stored (ChunkHash.storage_key k) ∈ facts h.

Record rebuilt_ok (wk : Work) (h : list (event treq)) (r : N * option ChunkRef) : Prop := {
  rb_offset : r.1 = w_offset wk;
  rb_entry : r.2 = (let b := cut next (w_offset wk) size in
                    if is_all_zero b then None else Some (MkChunk (w_offset wk) (sha256 b)));
  rb_durable : local_sink = false → stored_facts h ∧
    ∀ c, r.2 = Some c → w_prev wk = Some (hash c) ∨ hash c ∈ seen h;
}.

Lemma land_ok h prev_hash hh slice Q :
  sha256 slice = hh → won h = [] →
  (∀ h', (local_sink = false → stored_facts h' ∧ (prev_hash = Some hh ∨ hh ∈ seen h')) → Q h' (Ok tt)) →
  (∀ h' e, Q h' (Err e)) →
  twp h (land sha256 self local_sink prev_hash hh slice) Q.
Proof.
  intros Hh Hw HQ He. unfold land. destruct local_sink.
  - eapply Prog.wp_mono; [|apply (twp_lift _ _ _ _ (fun _ _ => True))].
    + intros h' [[]|e] _; [by apply HQ|apply He].
    + unfold cache_put. case_bool_decide; [|done]. by apply write_local_correct.
  - case_bool_decide as Hp.
    + apply Prog.wp_ret, HQ. intros _. split; [|by left]. intros k. rewrite Hw. by intros ?%not_elem_of_nil.
    + apply Prog.wp_bind, Prog.wp_ask; [done|]. intros [] _; cbn [negb].
      * eapply Prog.wp_mono; [|apply (twp_lift _ _ _ _ (fun r D => match r with Ok _ => Stored (ChunkHash.storage_key hh) ∈ D | Err _ => True end))].
        -- intros h' [[]|e] (HD&Hw'&Hs'); [|apply He]. apply HQ. intros _. split.
           ++ intros k. rewrite Hw', won_snoc, Hw. cbn. rewrite list_elem_of_singleton. by intros ->.
           ++ right. rewrite Hs', seen_snoc. cbn. set_solver.
        -- by eapply put_prehashed_correct.
      * apply Prog.wp_ret, HQ. intros _. split.
        -- intros k. rewrite won_snoc, Hw. cbn. by intros ?%not_elem_of_nil.
        -- right. rewrite seen_snoc. cbn. set_solver.
Qed.

Lemma rebuild_ok wk :
  good_work wk →
  twp [] (rebuild sha256 self local_sink dirty_ranges wk)
    (fun h r => match r with Ok a => rebuilt_ok wk h a | Err _ => True end).
Proof.
  intros Hg. pose proof Hg as (Ha&Ho&Hwant&Hp). destruct Hprev as [Hz Ht Hc].
  unfold rebuild. apply Prog.wp_try, (seed_ok _ _ _ Hg); [|done]. intros h1 Hw1 Hs1.
  apply Prog.wp_try, Prog.wp_ask_err; [done|]. intros [[]|[]] _; [|done].
  set (h2 := h1 ++ _). assert (Hw2 : won h2 = []) by (unfold h2; rewrite won_snoc, Hw1; done).
  apply Prog.wp_try. replace (cut img _ _) with (cut (overlay img diff []) (w_offset wk) (w_want wk))
    by (by rewrite overlay_nil).
  apply overlay_loop_ok; [lia|done| |done]. intros h3 (Hf3&Hw3&Hs3). cbn [app].
  assert (Hcut : cut next (w_offset wk) (w_want wk) = cut next (w_offset wk) size).
  { rewrite Hwant, Ht, <- (overlay_length img diff dirty_ranges). apply cut_min. }
  rewrite Hcut. destruct (is_all_zero _) eqn:Hzero.
  - apply Prog.wp_ret. split; cbn; [done|by rewrite Hzero|]. intros _. split; [|done].
    intros k. rewrite Hw3, Hw2. by intros ?%not_elem_of_nil.
  - apply Prog.wp_try, land_ok; [done|by rewrite Hw3, Hw2| |done]. intros h4 Hd4.
    apply Prog.wp_ret. split; cbn; [done|by rewrite Hzero|]. intros Hl.
    destruct (Hd4 Hl) as [Hst Hor]. split; [done|]. by intros c [= <-].
Qed.

(** *** The chunks that are rebuilt *)

Lemma elem_of_dirty_chunks i : i ∈ dirty_chunks prev dirty_ranges ↔ ∃ r, r ∈ dirty_ranges ∧ i ∈ touched prev r.
Proof.
  unfold dirty_chunks. assert (H : ∀ s : gset N, i ∈ fold_left (fun s r => s ∪ list_to_set (touched prev r)) dirty_ranges s ↔
    i ∈ s ∨ ∃ r, r ∈ dirty_ranges ∧ i ∈ touched prev r).
  { clear Hfit. induction dirty_ranges as [|r rs IH]; intros s; cbn [fold_left].
    - split; [by left|]. intros [?|(?&?%not_elem_of_nil&_)]; done.
    - rewrite IH, elem_of_union, elem_of_list_to_set. setoid_rewrite elem_of_cons. naive_solver. }
  rewrite H, elem_of_empty. naive_solver.
Qed.

Lemma work_good : Forall good_work (work prev dirty_ranges).
Proof.
  apply Forall_forall. intros wk (i&_&Hi)%list_elem_of_omap. unfold work_at in Hi.
  destruct (N.leb_spec total (i * size)); [done|]. injection Hi as <-.
  unfold good_work. cbn. by rewrite N.Div0.mod_mul.
Qed.

Lemma NoDup_keys {A} (m : gmap N A) : NoDup (keys m).
Proof. unfold keys. rewrite btree_perm. apply NoDup_fst_map_to_list. Qed.

Lemma elem_of_set_keys (X : gset N) o : o ∈ keys (gset_to_gmap tt X) ↔ o ∈ X.
Proof.
  rewrite elem_of_keys. split.
  - by intros [u [? _]%lookup_gset_to_gmap_Some].
  - intros Ho. exists tt. by apply lookup_gset_to_gmap_Some.
Qed.

Lemma work_nodup : NoDup (w_offset <$> work prev dirty_ranges).
Proof.
  destruct Hprev as [Hz _ _]. unfold work. pose proof (NoDup_keys (gset_to_gmap tt (dirty_chunks prev dirty_ranges))) as Hnd.
  induction Hnd as [|i l Hi Hnd IH]; [constructor|]. cbn [omap list_omap].
  unfold work_at at 1. destruct (N.leb_spec total (i * size)) as [Hle|Hlt]; [exact IH|].
  rewrite fmap_cons. constructor; [|exact IH]. cbn. intros (wk&Ho&(j&Hj&Hwk)%list_elem_of_omap)%list_elem_of_fmap.
  unfold work_at in Hwk. destruct (N.leb_spec total (j * size)); [done|]. injection Hwk as <-. cbn in Ho.
  apply N.mul_cancel_r in Ho; [|done]. by subst j.
Qed.

(** A byte under a dirty range is in a chunk to rebuild. *)
Lemma covered_in_work o i :
  o mod size = 0 → N.of_nat i < size → o + N.of_nat i < total →
  covered dirty_ranges (o + N.of_nat i) = true → o ∈ w_offset <$> work prev dirty_ranges.
Proof.
  intros Ha Hi Hlt ([off len]&Hr&Hc)%covered_true. cbn in Hc. destruct Hprev as [Hz _ _].
  rewrite Forall_forall in Hfit. pose proof (Hfit _ Hr) as Hf. cbn in Hf.
  assert (Hq : o / size * size = o) by (pose proof (N.div_mod o size Hz); lia).
  apply list_elem_of_fmap. exists (MkWork o (N.min size (total - o)) (Manifest.by_offset (Manifest.chunks prev) !! o)).
  split; [done|]. apply list_elem_of_omap. exists (o / size). split.
  - apply elem_of_set_keys, elem_of_dirty_chunks. exists (off, len). split; [done|].
    unfold touched. cbn. destruct (N.eqb_spec len 0) as [->|_]; [lia|].
    rewrite u64_add_id, u64_sub_id by lia. apply elem_of_range. split.
    + assert (off / size ≤ (o + N.of_nat i) / size) by (apply N.Div0.div_le_mono; lia).
      replace ((o + N.of_nat i) / size) with (o / size) in H; [done|].
      rewrite <- Hq at 2. rewrite N.add_comm, N.div_add, (N.div_small (N.of_nat i)) by lia. lia.
    + assert (o / size ≤ N.min (off + len - 1) (total - 1) / size) by (apply N.Div0.div_le_mono; lia). lia.
  - unfold work_at. rewrite Hq. destruct (N.leb_spec total o); [lia|done].
Qed.

Lemma clean_chunk o :
  o mod size = 0 → o < total → o ∉ w_offset <$> work prev dirty_ranges →
  cut next o size = cut img o size.
Proof.
  intros Ha Hlt Hn. destruct Hprev as [_ Ht _]. apply cut_ext. intros i Hi. rewrite overlay_lookup.
  destruct (img !! (N.to_nat o + i)%nat) as [b|] eqn:Hb; [|done]. cbn.
  destruct (covered _ _) eqn:Hc; [|done]. exfalso. apply Hn.
  apply lookup_lt_Some in Hb. apply (covered_in_work o i); [done|done|lia|].
  rewrite <- Hc. f_equal. lia.
Qed.

(** *** The fold *)

Lemma fold_result_spec results m s :
  NoDup results.*1 →
  (∀ o h, (fold_left fold_result results (m, s)).1 !! o = Some h ↔
    (∃ c, (o, Some c) ∈ results ∧ hash c = h) ∨ (o ∉ results.*1 ∧ m !! o = Some h)) ∧
  (∀ o, o ∈ (fold_left fold_result results (m, s)).2 ↔ o ∈ s ∨ ∃ c, (o, Some c) ∈ results).
Proof.
  revert m s. induction results as [|[o' r] results IH]; intros m s Hnd.
  { split; [intros o h|intros o]; cbn; setoid_rewrite elem_of_nil; naive_solver. }
  rewrite fmap_cons in *. apply NoDup_cons in Hnd as [Hni Hnd]. cbn in Hni.
  assert (Hin : ∀ c, (o', c) ∈ results → o' ∈ results.*1).
  { intros c Hc. apply list_elem_of_fmap. by exists (o', c). }
  setoid_rewrite not_elem_of_cons. setoid_rewrite elem_of_cons. destruct r as [c'|].
  - destruct (IH (<[o' := hash c']> m) ({[o']} ∪ s) Hnd) as [IH1 IH2]. split.
    + intros o h. specialize (IH1 o h). cbn in *. rewrite IH1, lookup_insert_Some.
      destruct (decide (o = o')) as [->|]; naive_solver.
    + intros o. specialize (IH2 o). cbn in *. rewrite IH2. set_solver.
  - destruct (IH (delete o' m) s Hnd) as [IH1 IH2]. split.
    + intros o h. specialize (IH1 o h). cbn in *. rewrite IH1, lookup_delete_Some.
      destruct (decide (o = o')) as [->|]; naive_solver.
    + intros o. specialize (IH2 o). cbn in *. rewrite IH2. naive_solver.
Qed.

Lemma oks_Ok {T} (l : list T) : oks (Ok <$> l) = l.
Proof. induction l as [|x l IH]; [done|]. cbn. f_equal. exact IH. Qed.

Notation run_inv w := (pipe_inv sha256 diff (MkShared w (claimed0 prev))
  (fun _ : unit => eq (work prev dirty_ranges)) rebuilt_ok).

(** Every state of a run satisfies the pipeline's invariant. *)
Lemma batch_inv w p :
  cache_clean sha256 w →
  rtc (batch_step sha256 self local_sink dirty_ranges diff) (batch prev dirty_ranges w) p → run_inv w p.
Proof.
  intros Hcl Hr. eapply (pipe_sound _ _ _ _ _ _ _ _ good_work); [..|exact Hr|]; try done.
  - intros _ l <-. apply work_good.
  - apply rebuild_ok.
  - apply pipe_init; [done|]. by rewrite oks_Ok.
Qed.

(** The results of a completed run, one for each chunk of the work list. *)
Lemma batch_results w p :
  run_inv w p → complete (fun _ => True) p →
  (pi_finished p).*2.*1 ≡ₚ w_offset <$> work prev dirty_ranges ∧
  ∀ o r, (o, r) ∈ (pi_finished p).*2 →
    ∃ wk h, good_work wk ∧ o = w_offset wk ∧ knows (pi_shared p) h ∧ rebuilt_ok wk h (o, r) ∧
      (wk, h, (o, r)) ∈ pi_finished p.
Proof.
  intros [_ _ Hf _ _ (l&<-&Hl)] (_&_&Hq&Hi). unfold items in Hl. rewrite Hq, Hi in Hl. cbn in Hl. split.
  - rewrite Hl, <- !list_fmap_compose. apply Permutation_refl'. apply list_fmap_ext.
    intros i [[wk h] [o r]] Hx%list_elem_of_lookup_2. rewrite Forall_forall in Hf.
    destruct (Hf _ Hx) as [_ [H1 _ _]]. exact H1.
  - intros o r ([[wk h] r']&E&Hx)%list_elem_of_fmap. cbn in E. subst r'. exists wk, h.
    rewrite Forall_forall in Hf. destruct (Hf _ Hx) as [Hk Hp]. split_and!; try done; [|apply Hp].
    pose proof work_good as Hg. rewrite Forall_forall in Hg. apply Hg. rewrite Hl.
    apply list_elem_of_fmap. by exists (wk, h, (o, r)).
Qed.

(** The map after the fold is the map of the reference's chunks. *)
Lemma next_entries results :
  results.*1 ≡ₚ w_offset <$> work prev dirty_ranges →
  (∀ o r, (o, r) ∈ results → ∃ wk h, good_work wk ∧ o = w_offset wk ∧ rebuilt_ok wk h (o, r)) →
  Manifest.chunks (next_manifest prev results).1 = image_chunks sha256 size next ∧
  ∀ hh, hh ∈ (next_manifest prev results).2 ↔
    ∃ c, c ∈ image_chunks sha256 size next ∧ hash c = hh ∧ offset c ∈ w_offset <$> work prev dirty_ranges.
Proof.
  intros Hp Hres. destruct Hprev as [Hz Ht Hc].
  assert (Hnd : NoDup results.*1) by (rewrite Hp; apply work_nodup).
  destruct (fold_result_spec results (Manifest.by_offset (Manifest.chunks prev)) ∅ Hnd) as [Hm Hs].
  unfold next_manifest. destruct (fold_left _ _ _) as [by_off rebuilt]. cbn in *.
  assert (Hlook : ∀ o h, by_off !! o = Some h ↔ MkChunk o h ∈ image_chunks sha256 size next).
  { intros o h. rewrite Hm, elem_of_image_chunks, overlay_length, <- Ht by done. split.
    - intros [(c&Hin&<-)|[Hn (Ha&Hlt&Hz'&Hh)%prev_lookup]].
      + destruct (Hres _ _ Hin) as (wk&h&(Ha&Hlt&_&_)&->&[_ He _]). cbn in He.
        destruct (is_all_zero _) eqn:Ez; [done|]. by injection He as ->.
      + rewrite Hp in Hn. by rewrite (clean_chunk o Ha Hlt Hn).
    - intros (Ha&Hlt&Hz'&Hh). destruct (decide (o ∈ results.*1)) as [Hin|Hn].
      + left. apply list_elem_of_fmap in Hin as ([o' r]&->&Hin).
        destruct (Hres _ _ Hin) as (wk&h'&_&->&[_ He _]). cbn in *. rewrite Hz' in He. subst r.
        eexists. split; [done|]. done.
      + right. split; [done|]. rewrite Hp in Hn. apply prev_lookup.
        by rewrite <- (clean_chunk o Ha Hlt Hn). }
  split.
  - rewrite (Manifest.btree_of_sorted by_off (Manifest.entry <$> image_chunks sha256 size next)).
    + rewrite <- list_fmap_compose. rewrite <- (list_fmap_id (image_chunks _ _ _)) at 2.
      apply list_fmap_ext. by intros i [o h] _.
    + rewrite <- list_fmap_compose. by apply image_chunks_sorted.
    + intros o h. rewrite Hlook, list_elem_of_fmap. split.
      * intros Hin. by exists (MkChunk o h).
      * by intros ([o' h']&[= -> ->]&?).
  - intros hh. rewrite list_elem_of_omap. setoid_rewrite elem_of_set_keys. split.
    + intros (o&Ho&Hl). apply Hs in Ho as [?%elem_of_empty|[c Hin]]; [done|].
      exists (MkChunk o hh). split; [by apply Hlook|]. split; [done|]. cbn.
      rewrite <- Hp. apply list_elem_of_fmap. by exists (o, Some c).
    + intros ([o h]&Hin&<-&Ho). cbn in *. exists o. split; [|by apply Hlook].
      apply Hlook, Hm in Hin. rewrite <- Hp in Ho. destruct Hin as [(c&Hin&_)|[? _]]; [|done].
      apply Hs. right. by exists c.
Qed.

(** Under the durable sink, what a finished task returns is stored. *)
Lemma batch_durable w p :
  run_inv w p → complete (fun _ => True) p → local_sink = false →
  (∀ c, c ∈ Manifest.chunks prev → is_Some (objects w !! ChunkHash.storage_key (hash c))) →
  (∀ c, c ∈ Manifest.chunks prev →
     is_Some (objects (sh_world (pi_shared p)) !! ChunkHash.storage_key (hash c))) ∧
  ∀ o c, (o, Some c) ∈ (pi_finished p).*2 →
    is_Some (objects (sh_world (pi_shared p)) !! ChunkHash.storage_key (hash c)).
Proof.
  intros Hinv Hdone Hl Hst. pose proof (batch_results _ _ Hinv Hdone) as [_ Hres].
  destruct Hinv as [(_&_&Hkeep) _ Hf Hcl _ _]. destruct Hdone as (_&_&_&Hi).
  split; [by intros; apply Hkeep, Hst|]. intros o c Hin.
  assert (Hc0 : ∀ k, k ∈ claimed0 prev →
    is_Some (objects (sh_world (pi_shared p)) !! ChunkHash.storage_key k)).
  { intros k Hk. apply elem_of_list_to_set, list_elem_of_fmap in Hk as (c'&->&Hc'). by apply Hkeep, Hst. }
  destruct (Hres _ _ Hin) as (wk&h&(_&_&_&Hp)&->&[_ Hs]&[_ _ Hd]&_).
  destruct (Hd Hl) as [_ Hor]. destruct (Hor c eq_refl) as [Hprev_h|Hseen].
  - apply Hc0. rewrite Hp in Hprev_h. destruct Hprev as [Hz Ht Hc].
    apply Manifest.by_offset_lookup in Hprev_h; [|rewrite Hc; by apply Manifest.sorted_nodup, image_chunks_sorted].
    apply elem_of_list_to_set, list_elem_of_fmap. by exists (MkChunk (w_offset wk) (hash c)).
  - rewrite Forall_forall in Hs. apply Hs in Hseen. rewrite Hcl in Hseen.
    apply elem_of_union in Hseen as [Hk|Hk]; [by apply Hc0|].
    apply elem_of_list_to_set in Hk. unfold histories in Hk. rewrite Hi in Hk. cbn in Hk.
    apply list_elem_of_bind in Hk as (h'&Hwon&([[wk' h''] r]&->&Hfin)%list_elem_of_fmap). cbn in Hwon.
    rewrite Forall_forall in Hf. destruct (Hf _ Hfin) as [[Hfacts _] [_ _ Hd']]. cbn in *.
    destruct (Hd' Hl) as [Hsf _]. rewrite Forall_forall in Hfacts.
    apply (Hfacts (Stored _)), Hsf, Hwon.
Qed.

(** C8. The incremental checkpoint is the full one.  From a manifest of an image,
    the update over a sparse diff returns the manifest of the image with the
    dirty ranges overlaid, exactly the chunks a full re-chunking would list, in
    whatever order its tasks end, beside any other user of the store and through
    any fault it survives; its other fields are [prev]'s.  It names the hashes of
    the rebuilt chunks that are not zero, and under the durable sink every chunk
    the new manifest names is in the object store. *)
Theorem sparse_update_correct w w' m new :
  cache_clean sha256 w →
  (local_sink = false → ∀ c, c ∈ Manifest.chunks prev →
     is_Some (objects w !! ChunkHash.storage_key (hash c))) →
  update_for_dirty_ranges_sparse_with_sink sha256 self local_sink prev dirty_ranges diff w w' (Ok (m, new)) →
  m = prev <| Manifest.chunks := image_chunks sha256 size next |> ∧
  describes sha256 m next ∧
  (∀ h, h ∈ new ↔ ∃ c, c ∈ Manifest.chunks m ∧ hash c = h ∧
     offset c ∈ w_offset <$> work prev dirty_ranges) ∧
  (local_sink = false → ∀ c, c ∈ Manifest.chunks m →
     is_Some (objects w' !! ChunkHash.storage_key (hash c))).
Proof.
  intros Hcl Hst Hup.
  assert (H : ∃ p, rtc (batch_step sha256 self local_sink dirty_ranges diff) (batch prev dirty_ranges w) p ∧
    complete (fun _ => True) p ∧ next_manifest prev (pi_finished p).*2 = (m, new) ∧
    objects w' = objects (sh_world (pi_shared p))).
  { inversion Hup as [|?|p _ Hr Hc _ E1 E2|p ? ok _ Hr Hc _ Hsw E1 E2]; subst.
    - by exists p.
    - exists p. destruct ok; [|done]. destruct Hsw as [-> _]. by simplify_eq. }
  destruct H as (p&Hr&Hdone&Hm&Hw). pose proof (batch_inv _ _ Hcl Hr) as Hinv.
  destruct (batch_results _ _ Hinv Hdone) as [Hp Hres].
  destruct (next_entries (pi_finished p).*2 Hp) as [Hch Hnew].
  { intros o r Hin. destruct (Hres _ _ Hin) as (wk&h&?&?&_&?&_). by exists wk, h. }
  rewrite Hm in Hch, Hnew. cbn in Hch, Hnew.
  assert (Hfields : m = prev <| Manifest.chunks := image_chunks sha256 size next |>).
  { rewrite <- Hch. unfold next_manifest in Hm. destruct (fold_left _ _ _). by injection Hm as <- _. }
  destruct Hprev as [Hz Ht Hc0]. split; [done|]. split.
  { rewrite Hfields. split; cbn; [done|by rewrite overlay_length|done]. }
  rewrite Hch. split; [done|]. intros Hl c Hin.
  rewrite Hw. destruct (batch_durable _ _ Hinv Hdone Hl (Hst Hl)) as [Hold Hfresh].
  destruct c as [o h]. apply elem_of_image_chunks in Hin as (Ha&Hlt&Hz'&Hh); [|done].
  rewrite overlay_length, <- Ht in Hlt. cbn. destruct (decide (o ∈ (pi_finished p).*2.*1)) as [Hd|Hn].
  - apply list_elem_of_fmap in Hd as ([o' r]&->&Hd). destruct (Hres _ _ Hd) as (wk&h'&_&->&_&[_ He _]&_).
    cbn in *. rewrite Hz', Hh in He. subst r. by apply (Hfresh _ _ Hd).
  - rewrite Hp in Hn. apply (Hold (MkChunk o h)). rewrite Hc0.
    apply elem_of_image_chunks; [done|]. rewrite <- Ht, <- (clean_chunk o Ha Hlt Hn). done.
Qed.

(** However far a checkpoint has got, it can finish: from every reachable
    state of the batch some continuation ends it, with a result or an error.  On
    every exit, errors included, the store has kept its contract: cached files
    and chunk objects have the content their names say, no object is gone, and no
    two tasks uploaded the same hash, nor one of [prev]. *)
Theorem sparse_update_ends w p :
  cache_clean sha256 w →
  rtc (batch_step sha256 self local_sink dirty_ranges diff) (batch prev dirty_ranges w) p →
  content_inv sha256 w (sh_world (pi_shared p)) ∧
  NoDup (histories p ≫= won) ∧ (∀ h, h ∈ histories p ≫= won → h ∉ claimed0 prev) ∧
  ∃ p', rtc (batch_step sha256 self local_sink dirty_ranges diff) p p' ∧
    (pi_failed p' ≠ None ∨ complete (fun _ => True) p').
Proof.
  intros Hcl Hr. destruct (batch_inv _ _ Hcl Hr) as [Hw _ _ _ [Hnd Hn] _]. split_and!; try done.
  destruct (pi_failed p) as [e|] eqn:Hf.
  - exists p. split; [done|]. left. by rewrite Hf.
  - apply (pipe_ends sha256 diff no_more (fun _ => True)); [|done|done].
    unfold SPARSE_RECHUNK_CONCURRENCY. lia.
Qed.

End correct.

(** ** A checkpoint that runs *)

(** A hash under which [[7; 7]] and [[5]] have no second preimage. *)
Definition demo_hash (b : bytes) : bytes :=
  replicate 32 (if decide (b = [7; 7]) then 1 else if decide (b = [5]) then 2 else 0).

Lemma demo_hash_wf b : wf_hash (demo_hash b).
Proof. split; [apply length_replicate|]. apply Forall_replicate. repeat case_decide; lia. Qed.

Definition demo_img : bytes := [7; 7; 0; 0; 5].
Definition demo_prev : Manifest.t :=
  Manifest.Mk 1 Memory 2 5 [MkChunk 0 (replicate 32 1); MkChunk 4 (replicate 32 2)] None None JNull.
Definition demo_store : ChunkStore := MkStore (BlobStorageResolver demo_hash) true.
Definition demo_world : World :=
  MkWorld {[ChunkHash.storage_key (replicate 32 1) := [7; 7];
            ChunkHash.storage_key (replicate 32 2) := [5]]} ∅ ∅.

Lemma demo_describes : describes demo_hash demo_prev demo_img.
Proof. by split. Qed.

Lemma demo_unique c b :
  c ∈ Manifest.chunks demo_prev → demo_hash b = hash c → b = cut demo_img (offset c) 2.
Proof.
  unfold demo_hash. cbn [demo_prev Manifest.chunks].
  rewrite !elem_of_cons, elem_of_nil. intros [->|[->|[]]]; cbn [hash offset];
    repeat case_decide; subst; intros E; try done; by apply (f_equal head) in E.
Qed.

(** The diff zeroes the last byte and sets the third. *)
Definition demo_ranges : list DirtyRange := [(2, 1); (0, 0); (4, 1)].
Definition demo_diff : bytes := [0; 0; 9; 0; 0].
Definition demo_run : pipe unit Work (N * option ChunkRef) :=
  run_queue demo_diff (rebuild demo_hash demo_store false demo_ranges)
    (MkShared demo_world (claimed0 demo_prev)) tt (Ok <$> work demo_prev demo_ranges) [].

Lemma demo_run_steps :
  rtc (batch_step demo_hash demo_store false demo_ranges demo_diff)
    (batch demo_prev demo_ranges demo_world) demo_run.
Proof. apply run_queue_steps. unfold SPARSE_RECHUNK_CONCURRENCY. lia. Qed.

Lemma demo_clean : cache_clean demo_hash demo_world.
Proof. intros h b. cbn. by rewrite lookup_empty. Qed.

Lemma sparse_update_correct_witness :
  ∃ w' m new,
    update_for_dirty_ranges_sparse_with_sink demo_hash demo_store false demo_prev demo_ranges demo_diff
      demo_world w' (Ok (m, new)) ∧
    Manifest.chunks m = [MkChunk 0 (replicate 32 1); MkChunk 2 (replicate 32 0)] ∧
    describes demo_hash m [7; 7; 9; 0; 0] ∧
    ∀ c, c ∈ Manifest.chunks m → is_Some (objects w' !! ChunkHash.storage_key (hash c)).
Proof.
  assert (Hup : update_for_dirty_ranges_sparse_with_sink demo_hash demo_store false demo_prev demo_ranges
    demo_diff demo_world (sh_world (pi_shared demo_run)) (Ok (next_manifest demo_prev (pi_finished demo_run).*2))).
  { apply up_done; [done|apply demo_run_steps| |done]. split_and!; by vm_compute. }
  destruct (next_manifest demo_prev (pi_finished demo_run).*2) as [m new] eqn:E.
  pose proof (sparse_update_correct demo_hash demo_store false demo_prev demo_ranges demo_img demo_diff
    demo_hash_wf demo_describes demo_unique ltac:(repeat constructor) demo_world (sh_world (pi_shared demo_run)) m new demo_clean) as H.
  destruct (fun Hs => H Hs Hup) as (Hm&Hd&_&Hs).
  { intros _ c Hc. cbn in Hc. rewrite !elem_of_cons, elem_of_nil in Hc.
    destruct Hc as [->|[->|[]]]; vm_compute; by eexists. }
  eexists _, m, new. split; [exact Hup|]. split; [by rewrite Hm; vm_compute|]. split; [exact Hd|]. by apply Hs.
Defined.

Lemma sparse_update_ends_witness :
  ∃ p', rtc (batch_step demo_hash demo_store false demo_ranges demo_diff) demo_run p' ∧
    (pi_failed p' ≠ None ∨ complete (fun _ => True) p').
Proof.
  apply (sparse_update_ends demo_hash demo_store false demo_prev demo_ranges demo_img demo_diff
    demo_hash_wf demo_describes demo_unique ltac:(repeat constructor) demo_world).
  - apply demo_clean.
  - apply demo_run_steps.
Defined.
