(* ===== verification/ChunkFile.v ===== *)
(** * Files into chunks

    [file.rs]'s [chunk_file] and [chunk_file_into]: a blocking reader scans the
    file in large blocks and sends its chunks that are not zero through a bounded
    channel; up to sixty-four uploads run at once; the entries are sorted when all
    are done. *)

From S2P Require Import Prelude Text Wire Manifest World ChunkStore StoreProps Prog Image Pipeline Rechunk.
Local Open Scope N_scope.

(** ** The code *)

Definition CHUNK_UPLOAD_CONCURRENCY : nat := 64.
Definition RECHUNK_READ_BLOCK_BYTES : N := 8 * 1024 * 1024.
Definition RECHUNK_CHANNEL_BYTE_BUDGET : N := 64 * 1024 * 1024.

Definition rechunk_channel_capacity (chunk_size : N) : N :=
  let n := RECHUNK_CHANNEL_BYTE_BUDGET / N.max chunk_size 1 in
  N.max 1 (N.min n (2 * N.of_nat SPARSE_RECHUNK_CONCURRENCY)).

(** *** The reader *)

(** Where [read_nonzero_chunks] stands: filling a block, cutting it, gone. *)
Inductive Reader : Type :=
| Filling (offset : N) (buf : bytes)
| Cutting (offset pos : N) (buf : bytes)
| Gone (truncated : bool).

Section reader.
Context (total_bytes chunk_size : N).

Definition block_bytes : N := N.max (RECHUNK_READ_BLOCK_BYTES / chunk_size) 1 * chunk_size.

(** [while offset < total_bytes]. *)
Definition next_block (offset : N) : Reader :=
  if offset <? total_bytes then Filling offset [] else Gone false.

Definition want (offset : N) : N := N.min block_bytes (total_bytes - offset).

(** A block is full, or its next read follows. *)
Definition filled (offset : N) (buf : bytes) : Reader :=
  if N.of_nat (length buf) <? want offset then Filling offset buf else Cutting offset 0 buf.

(** After a chunk of the block. *)
Definition advance (offset pos : N) (buf : bytes) : Reader :=
  let pos' := pos + N.min chunk_size (want offset - pos) in
  if pos' <? want offset then Cutting offset pos' buf else next_block (offset + want offset).

Notation sent := (option (result (N * bytes) ChunkStoreError.t)).

(** One step of the reader on the file [f], with what it sends. *)
Inductive read_nonzero_chunks (f : bytes) : Reader → sent → Reader → Prop :=
| rd_read offset buf n :
    0 < n → n ≤ want offset - N.of_nat (length buf) →
    offset + N.of_nat (length buf) + n ≤ N.of_nat (length f) →
    read_nonzero_chunks f (Filling offset buf) None
      (filled offset (buf ++ cut f (offset + N.of_nat (length buf)) n))
| rd_eof offset buf :
    N.of_nat (length f) ≤ offset + N.of_nat (length buf) →
    read_nonzero_chunks f (Filling offset buf) (Some (Err ChunkStoreError.Cache)) (Gone true)
| rd_interrupted offset buf : read_nonzero_chunks f (Filling offset buf) None (Filling offset buf)
| rd_error offset buf :
    read_nonzero_chunks f (Filling offset buf) (Some (Err ChunkStoreError.Cache)) (Gone true)
| rd_zero offset pos buf :
    is_all_zero (cut buf pos (N.min chunk_size (want offset - pos))) = true →
    read_nonzero_chunks f (Cutting offset pos buf) None (advance offset pos buf)
| rd_send offset pos buf :
    is_all_zero (cut buf pos (N.min chunk_size (want offset - pos))) = false →
    read_nonzero_chunks f (Cutting offset pos buf)
      (Some (Ok (offset + pos, cut buf pos (N.min chunk_size (want offset - pos)))))
      (advance offset pos buf).

Definition reader_gone (r : Reader) : Prop := ∃ b, r = Gone b.

End reader.

(** *** The uploads *)

Section chunk_file.
Context (sha256 : bytes → bytes) (self : ChunkStore) (cache : bool).

(** [put_one]: a failed write-through is logged. *)
Definition put_one (item : N * bytes) : task ChunkRef :=
  do! h := lift (put_chunk sha256 self item.2) in
  _ ← (if cache then lift (cache_put sha256 h item.2) else Prog.okay tt);
  Prog.okay (MkChunk item.1 h).

Record ChunkFileStats := MkStats { bytes_scanned : N; chunks_uploaded : N; bytes_uploaded : N }.

(** [refs.sort_by_key(|c| c.offset)]. *)
Definition sort_refs (l : list ChunkRef) : list ChunkRef :=
  merge_sort (fun a b => Is_true (offset a <=? offset b)) l.

Context (kind : ManifestKind) (chunk_size : N).

Definition file_result (total : N) (fin : list ((N * bytes) * list (event treq) * ChunkRef)) :
    Manifest.t * ChunkFileStats :=
  (Manifest.Mk MANIFEST_SCHEMA_VERSION kind chunk_size total (sort_refs fin.*2) None None JNull,
   MkStats total (N.of_nat (length fin))
     (foldr N.add 0 ((fun x => N.of_nat (length x.1.1.2)) <$> fin))).

(** The run from the opened file of [total] bytes, by its metadata. *)
Definition upload_start (total : N) (w : World) : pipe Reader (N * bytes) ChunkRef :=
  MkPipe (MkShared w ∅) (next_block total 0) [] [] [] None.

Definition upload_step (f : bytes) (total : N) :=
  pipe_step sha256 f (read_nonzero_chunks total chunk_size f) put_one CHUNK_UPLOAD_CONCURRENCY
    (N.to_nat (rechunk_channel_capacity chunk_size)).

(** What the call may return on the file [f], [total] bytes by its metadata; a
    zero chunk size panics at the first division. *)
Inductive chunk_file_into (f : bytes) (total : N) (w : World) :
    World → outcome (Manifest.t * ChunkFileStats) → Prop :=
| cf_open : chunk_file_into f total w w (Error ChunkStoreError.Cache)
| cf_panic : chunk_size = 0 → chunk_file_into f total w w Panicked
| cf_failed p e :
    chunk_size ≠ 0 → rtc (upload_step f total) (upload_start total w) p → pi_failed p = Some e →
    chunk_file_into f total w (sh_world (pi_shared p)) (Error e)
| cf_done p :
    chunk_size ≠ 0 → rtc (upload_step f total) (upload_start total w) p →
    complete reader_gone p →
    chunk_file_into f total w (sh_world (pi_shared p)) (Val (file_result total (pi_finished p))).

End chunk_file.

(** [chunk_file]: no cache, the kind's chunk size unless one is given. *)
Definition chunk_file sha256 (self : ChunkStore) (kind : ManifestKind) (chunk_size : option N)
    (f : bytes) (total : N) (w w' : World) (r : outcome Manifest.t) : Prop :=
  ∃ r', chunk_file_into sha256 self false kind (default (default_chunk_size kind) chunk_size) f total w w' r' ∧
    r = match r' with Val a => Val a.1 | Error e => Error e | Panicked => Panicked end.

(** ** The reader sends every chunk that is not zero, in order *)

Section reading.
Context (f : bytes) (total chunk_size : N).
Hypothesis Hcs : chunk_size ≠ 0.

(** What the call reads as the image. *)
Notation img := (cut f 0 total).

Definition piece (i : N) : option (N * bytes) :=
  let b := cut img (i * chunk_size) chunk_size in
  if is_all_zero b then None else Some (i * chunk_size, b).

Definition pieces (n : N) : list (N * bytes) := omap piece (range 0 n).

Lemma pieces_succ n : pieces (n + 1) = pieces n ++ option_list (piece n).
Proof.
  unfold pieces. rewrite (range_app 0 n (n + 1)), omap_app by lia. f_equal.
  unfold range. replace (N.to_nat (n + 1 - n)) with 1%nat by lia. cbn.
  rewrite N.add_0_r. by destruct (piece n).
Qed.

(** Where the reader stands, and what it has sent. *)
Definition reader_sent (r : Reader) (l : list (N * bytes)) : Prop :=
  match r with
  | Filling o buf => ∃ i, o = i * chunk_size ∧ o < total ∧
      buf = cut f o (N.of_nat (length buf)) ∧ N.of_nat (length buf) < want total chunk_size o ∧ l = pieces i
  | Cutting o pos buf => ∃ i j, o = i * chunk_size ∧ pos = j * chunk_size ∧ o < total ∧
      pos < want total chunk_size o ∧ buf = cut f o (want total chunk_size o) ∧
      o + want total chunk_size o ≤ N.of_nat (length f) ∧ l = pieces (i + j)
  | Gone false => total ≤ N.of_nat (length f) ∧ l = pieces (ceil total chunk_size)
  | Gone true => True
  end.

Lemma cut_app g o a b : cut g o a ++ cut g (o + a) b = cut g o (a + b).
Proof.
  unfold cut. rewrite !N2Nat.inj_add, <- drop_drop. apply take_take_drop.
Qed.

Lemma block_multiple : ∃ k, 0 < k ∧ block_bytes chunk_size = k * chunk_size.
Proof. exists (N.max (RECHUNK_READ_BLOCK_BYTES / chunk_size) 1). split; [lia|done]. Qed.

Lemma mul_succ_le j k : j * chunk_size < k * chunk_size → j * chunk_size + chunk_size ≤ k * chunk_size.
Proof.
  intros H. apply N.mul_lt_mono_pos_r in H; [|lia].
  assert ((j + 1) * chunk_size ≤ k * chunk_size) by (apply N.mul_le_mono_r; lia). lia.
Qed.

(** A chunk of the block is the chunk of the file. *)
Lemma cut_block i j :
  i * chunk_size < total → j * chunk_size < want total chunk_size (i * chunk_size) →
  cut (cut f (i * chunk_size) (want total chunk_size (i * chunk_size))) (j * chunk_size)
    (N.min chunk_size (want total chunk_size (i * chunk_size) - j * chunk_size)) =
  cut img ((i + j) * chunk_size) chunk_size.
Proof.
  intros Hi Hj. destruct block_multiple as (k&Hk&Hb). unfold want in *. rewrite Hb in *.
  apply list_eq. intros n. rewrite !cut_lookup.
  pose proof (mul_succ_le j k ltac:(lia)) as Hjk. rewrite N.mul_add_distr_r.
  set (a := i * chunk_size) in *. set (b := j * chunk_size) in *. set (c := k * chunk_size) in *.
  repeat case_decide; try done; try (f_equal; lia); exfalso; lia.
Qed.

Lemma next_block_sent o l i :
  (o < total → o = i * chunk_size ∧ l = pieces i) →
  (total ≤ o → total ≤ N.of_nat (length f) ∧ l = pieces (ceil total chunk_size)) →
  reader_sent (next_block total o) l.
Proof.
  intros Hl Hd. unfold next_block. destruct (N.ltb_spec o total) as [Hlt|Hge]; [|by apply Hd].
  destruct (Hl Hlt) as [-> ->]. exists i. split_and!; try done.
  destruct block_multiple as (k&Hk&Hb). cbn. unfold want. rewrite Hb. nia.
Qed.

Lemma ceil_eq n : n * chunk_size < total ≤ (n + 1) * chunk_size → ceil total chunk_size = n + 1.
Proof.
  intros [H1 H2]. pose proof (ceil_lt total chunk_size n Hcs) as E1.
  pose proof (ceil_lt total chunk_size (n + 1) Hcs) as E2. lia.
Qed.

Lemma advance_sent o pos buf l i j :
  o = i * chunk_size → pos = j * chunk_size → o < total → pos < want total chunk_size o →
  buf = cut f o (want total chunk_size o) → o + want total chunk_size o ≤ N.of_nat (length f) →
  l = pieces (i + j + 1) →
  reader_sent (advance total chunk_size o pos buf) l.
Proof.
  intros -> -> Hlt Hp -> Hf ->. unfold advance.
  destruct (N.ltb_spec (j * chunk_size + N.min chunk_size (want total chunk_size (i * chunk_size) - j * chunk_size))
    (want total chunk_size (i * chunk_size))) as [Hin|Hout].
  - exists i, (j + 1). split_and!; try done; try lia. by rewrite N.add_assoc.
  - destruct block_multiple as (k&Hk&Hb). unfold want in *. rewrite Hb in *.
    pose proof (mul_succ_le j k ltac:(lia)) as Hjk. apply (next_block_sent _ _ (i + j + 1)).
    + intros Hn. split; [|done]. lia.
    + intros Hn. split; [lia|]. rewrite (ceil_eq (i + j)); [done|]. lia.
Qed.

Lemma reader_step r it r' l :
  read_nonzero_chunks total chunk_size f r it r' → reader_sent r l →
  match it with
  | Some (Ok x) => reader_sent r' (l ++ [x])
  | _ => reader_sent r' l
  end.
Proof.
  intros [o buf n H0 Hn Hf|o buf Hf|o buf|o buf|o pos buf Hz|o pos buf Hz]; try done.
  - intros (i&->&Ho&Hb&Hl&->).
    replace (buf ++ cut f _ n) with (cut f (i * chunk_size) (N.of_nat (length buf) + n))
      by (rewrite Hb at 2; symmetry; apply cut_app).
    set (b' := cut f _ (_ + n)). assert (Hlen : N.of_nat (length b') = N.of_nat (length buf) + n).
    { unfold b'. rewrite cut_length. lia. }
    unfold filled. rewrite Hlen.
    destruct (N.ltb_spec (N.of_nat (length buf) + n) (want total chunk_size (i * chunk_size))).
    + exists i. rewrite Hlen. done.
    + assert (Hw : N.of_nat (length buf) + n = want total chunk_size (i * chunk_size)) by lia.
      exists i, 0. rewrite N.add_0_r. split_and!; try done; [lia|by unfold b'; rewrite Hw|lia].
  - intros (i&j&->&->&Ho&Hp&->&Hf&->). rewrite cut_block in Hz by done.
    eapply advance_sent; try done. rewrite pieces_succ. unfold piece. by rewrite Hz, app_nil_r.
  - intros (i&j&->&->&Ho&Hp&->&Hf&->). rewrite cut_block in * by done.
    eapply advance_sent; try done. rewrite pieces_succ. unfold piece.
    by rewrite Hz, N.mul_add_distr_r.
Qed.

(** The chunks sent are the chunks of the manifest. *)
Lemma pieces_image sha256 :
  total ≤ N.of_nat (length f) →
  (fun x => MkChunk x.1 (sha256 x.2)) <$> pieces (ceil total chunk_size) = image_chunks sha256 chunk_size img.
Proof.
  intros Ht. unfold pieces, image_chunks. rewrite cut_length.
  replace (N.of_nat _) with total by lia.
  induction (range 0 (ceil total chunk_size)) as [|i l IH]; [done|]. cbn [omap list_omap].
  unfold piece at 1, chunk_ref at 1. destruct (is_all_zero _); [exact IH|].
  rewrite fmap_cons. f_equal. exact IH.
Qed.

(** What is sent is within the file. *)
Lemma pieces_sum n : foldr N.add 0 ((fun x => N.of_nat (length x.2)) <$> pieces n) ≤ total.
Proof.
  enough (H : ∀ k, N.to_nat n = k → foldr N.add 0 ((fun x => N.of_nat (length x.2)) <$> pieces n) ≤
    N.min (n * chunk_size) total) by (pose proof (H _ eq_refl); lia).
  intros k. revert n. induction k as [|k IH]; intros n Hn; [replace n with 0 by lia; apply N.le_0_l|].
  replace n with (n - 1 + 1) by lia. rewrite pieces_succ, fmap_app, foldr_app.
  assert (Hs : ∀ l a, foldr N.add a l = foldr N.add 0 l + a).
  { intros l a. induction l as [|x l IHl]; cbn; lia. }
  rewrite Hs. specialize (IH (n - 1) ltac:(lia)). unfold piece. destruct (is_all_zero _); cbn; [lia|].
  rewrite !cut_length. lia.
Qed.

(** The work left. *)
Definition left_to_read (r : Reader) : N :=
  match r with
  | Filling o _ => 2 * (total - o) + 1
  | Cutting o pos _ => 2 * (total - o - pos)
  | Gone _ => 0
  end.

(** The reader can always go on, to less work. *)
Lemma reader_progress r l :
  reader_sent r l → reader_gone r ∨
  ∃ it r', read_nonzero_chunks total chunk_size f r it r' ∧ left_to_read r' < left_to_read r.
Proof.
  destruct r as [o buf|o pos buf|b]; [| |by left; exists b]; intros Hs; right.
  - destruct Hs as (i&->&Ho&Hb&Hl&_). set (o := i * chunk_size) in *.
    destruct (decide (o + want total chunk_size o ≤ N.of_nat (length f))) as [Hf|Hf].
    + exists None, (filled total chunk_size o (buf ++ cut f (o + N.of_nat (length buf)) (want total chunk_size o - N.of_nat (length buf)))).
      split; [constructor; lia|]. unfold filled. rewrite length_app, cut_length.
      destruct (N.ltb_spec (N.of_nat (length buf + N.to_nat (N.min (want total chunk_size o - N.of_nat (length buf)) (N.of_nat (length f) - (o + N.of_nat (length buf)))))) (want total chunk_size o)); cbn; [lia|].
      lia.
    + exists (Some (Err ChunkStoreError.Cache)), (Gone true). split; [apply rd_error|cbn; lia].
  - destruct Hs as (i&j&->&->&Ho&Hp&_).
    assert (Hm : left_to_read (advance total chunk_size (i * chunk_size) (j * chunk_size) buf) <
      left_to_read (Cutting (i * chunk_size) (j * chunk_size) buf)).
    { unfold advance, next_block. unfold want in *.
      repeat match goal with |- context [?a <? ?b] => destruct (N.ltb_spec a b) end; cbn; lia. }
    destruct (is_all_zero (cut buf (j * chunk_size) (N.min chunk_size (want total chunk_size (i * chunk_size) - j * chunk_size)))) eqn:E;
      eexists _, _; (split; [|exact Hm]); by constructor.
Qed.

End reading.

(** ** The manifest of a file *)

Lemma sort_refs_perm l l' :
  l ≡ₚ l' → StronglySorted N.lt (offset <$> l') → sort_refs l = l'.
Proof.
  intros Hp Hs. set (R := fun a b : ChunkRef => Is_true (offset a <=? offset b)).
  assert (Htr : Transitive R) by (intros a b c; unfold R; rewrite !Is_true_true, !N.leb_le; lia).
  assert (Hto : Total R) by (intros a b; unfold R; rewrite !Is_true_true, !N.leb_le; lia).
  apply (StronglySorted_unique_strong R).
  - intros a b Ha Hb. unfold R. rewrite !Is_true_true, !N.leb_le. intros H1 H2.
    unfold sort_refs in Ha. rewrite merge_sort_Permutation, Hp in Ha.
    eapply Manifest.entries_unique; [by apply Manifest.sorted_nodup|done|done|lia].
  - by apply StronglySorted_merge_sort.
  - apply (proj1 (StronglySorted_fmap offset _ _)) in Hs. eapply StronglySorted_impl; [|exact Hs].
    intros c d Hd. cbn in Hd. unfold R. rewrite Is_true_true, N.leb_le. lia.
  - unfold sort_refs. by rewrite merge_sort_Permutation.
Qed.

Lemma sum_perm (l l' : list N) : l ≡ₚ l' → foldr N.add 0 l = foldr N.add 0 l'.
Proof. induction 1; cbn; lia. Qed.

Section upload.
Context (sha256 : bytes → bytes) (self : ChunkStore) (cache : bool).
Context (kind : ManifestKind) (chunk_size : N) (f : bytes) (total : N).
Hypothesis sha256_wf : ∀ b, wf_hash (sha256 b).

(** A finished upload: the entry of its chunk, which is stored. *)
Definition uploaded (item : N * bytes) (h : list (event treq)) (c : ChunkRef) : Prop :=
  c = MkChunk item.1 (sha256 item.2) ∧ Stored (ChunkHash.storage_key (sha256 item.2)) ∈ facts h.

Lemma put_one_ok item :
  Prog.wp (task_ans sha256 f) (task_can sha256) [] (put_one sha256 self cache item)
    (fun h r => match r with Ok c => uploaded item h c | Err _ => True end).
Proof.
  unfold put_one. set (key := ChunkHash.storage_key (sha256 item.2)).
  eapply (twp_try _ _ _ _ _ (fun r D => match r with Ok h => h = sha256 item.2 ∧ Stored key ∈ D | Err _ => True end)); [| |done].
  { apply put_chunk_correct; [done|by split|done]. }
  intros h ? [-> HD] _ _. apply Prog.wp_bind.
  destruct cache; [|by apply Prog.wp_ret].
  eapply Prog.wp_mono; [|apply (twp_lift _ _ _ _ (fun _ D => Stored key ∈ D))].
  - intros h' r (HD'&_). by apply Prog.wp_ret.
  - unfold cache_put. rewrite bool_decide_eq_true_2 by done. by apply write_local_correct.
Qed.

Notation start w := (upload_start total w).
Notation step := (upload_step sha256 self cache chunk_size f total).

Lemma upload_inv w p :
  chunk_size ≠ 0 → cache_clean sha256 w → rtc step (start w) p →
  pipe_inv sha256 f (MkShared w ∅) (reader_sent f total chunk_size) uploaded p.
Proof.
  intros Hz Hcl Hr. eapply (pipe_sound _ _ _ _ _ _ _ _ (fun _ => True)); [..|exact Hr|].
  - intros pr x pr' l Hs Hl. apply (reader_step _ _ _ Hz _ _ _ _ Hs Hl).
  - intros pr e pr' l Hs Hl. apply (reader_step _ _ _ Hz _ _ _ _ Hs Hl).
  - intros pr pr' l Hs Hl. apply (reader_step _ _ _ Hz _ _ _ _ Hs Hl).
  - intros pr l _. by apply Forall_true.
  - intros x _. apply put_one_ok.
  - apply pipe_init; [done|]. apply (next_block_sent _ _ _ Hz _ _ 0).
    + intros _. split; [lia|done].
    + intros Ht. assert (total = 0) as -> by lia. split; [lia|]. unfold ceil.
      rewrite N.Div0.div_0_l, N.Div0.mod_0_l. done.
Qed.

(** The uploads of a completed run are the image's chunks. *)
Lemma upload_complete w p :
  chunk_size ≠ 0 → cache_clean sha256 w → rtc step (start w) p → complete reader_gone p →
  total ≤ N.of_nat (length f) ∧
  (fun x => x.1.1) <$> pi_finished p ≡ₚ pieces f total chunk_size (ceil total chunk_size) ∧
  (pi_finished p).*2 ≡ₚ image_chunks sha256 chunk_size (cut f 0 total) ∧
  ∀ c, c ∈ image_chunks sha256 chunk_size (cut f 0 total) →
    is_Some (objects (sh_world (pi_shared p)) !! ChunkHash.storage_key (hash c)).
Proof.
  intros Hz Hcl Hr (Hfl&[b Hb]&Hq&Hi). destruct (upload_inv w p Hz Hcl Hr) as [_ _ Hf _ _ (l&HJ&Hl)].
  destruct b.
  { exfalso. destruct (pipe_error_kept sha256 f (read_nonzero_chunks total chunk_size f) (put_one sha256 self cache)
      CHUNK_UPLOAD_CONCURRENCY (N.to_nat (rechunk_channel_capacity chunk_size))
      (fun r => r = Gone true) (start w) p) as [?|[e He]]; try done.
    - intros pr it pr' Hs ->. inversion Hs; subst; eauto.
      all: unfold filled, advance, next_block in *; repeat case_match; done.
    - unfold upload_start, next_block. cbn. case_match; done.
    - rewrite Hq in He. by apply not_elem_of_nil in He. }
  rewrite Hb in HJ. destruct HJ as [Ht ->]. unfold items in Hl. rewrite Hq, Hi in Hl. cbn in Hl.
  split; [done|]. split; [done|].
  assert (Hp : (pi_finished p).*2 ≡ₚ image_chunks sha256 chunk_size (cut f 0 total)).
  { rewrite <- (pieces_image f total chunk_size Hz sha256 Ht), Hl, <- list_fmap_compose.
    apply Permutation_refl', list_fmap_ext. intros i x Hx%list_elem_of_lookup_2.
    rewrite Forall_forall in Hf. by destruct (Hf _ Hx) as [_ [-> _]]. }
  split; [done|]. intros c Hc. rewrite <- Hp in Hc. apply list_elem_of_fmap in Hc as (x&->&Hx).
  rewrite Forall_forall in Hf. destruct (Hf _ Hx) as [[Hk _] [-> HD]]. rewrite Forall_forall in Hk.
  apply (Hk _ HD).
Qed.

(** What a returned manifest says, for what follows it. *)
Lemma chunk_file_shape w w' m st :
  cache_clean sha256 w →
  chunk_file_into sha256 self cache kind chunk_size f total w w' (Val (m, st)) →
  m = Manifest.Mk MANIFEST_SCHEMA_VERSION kind chunk_size total
    (image_chunks sha256 chunk_size (cut f 0 total)) None None JNull ∧
  N.of_nat (length (cut f 0 total)) = total ∧ chunk_size ≠ 0 ∧
  (∀ c, c ∈ Manifest.chunks m → is_Some (objects w' !! ChunkHash.storage_key (hash c))) ∧
  content_inv sha256 w w'.
Proof.
  intros Hcl Hc. inversion Hc as [| | |p Hz Hr Hdone E1 E2]; subst.
  destruct (upload_complete w p Hz Hcl Hr Hdone) as (Ht&_&Hp&Hst).
  assert (Hch : sort_refs (pi_finished p).*2 = image_chunks sha256 chunk_size (cut f 0 total)).
  { apply sort_refs_perm; [done|]. by apply image_chunks_sorted. }
  cbn. rewrite Hch. split_and!; try done; [|apply (upload_inv w p Hz Hcl Hr)]. rewrite cut_length. lia.
Qed.

Lemma chunk_file_facts w w' m st :
  cache_clean sha256 w →
  chunk_file_into sha256 self cache kind chunk_size f total w w' (Val (m, st)) →
  describes sha256 m (cut f 0 total) ∧ Manifest.schema_version m = MANIFEST_SCHEMA_VERSION ∧
  Manifest.chunk_size m = chunk_size ∧
  (∀ c, c ∈ Manifest.chunks m → is_Some (objects w' !! ChunkHash.storage_key (hash c))) ∧
  content_inv sha256 w w'.
Proof.
  intros Hcl Hc. destruct (chunk_file_shape w w' m st Hcl Hc) as (Hm&Hl&Hz&Hst&Hi).
  split_and!; try done; by rewrite Hm.
Qed.

(** A file's manifest describes the file.  Whatever the order of its uploads,
    the short reads, interruptions and faults it survives and the other users of
    the store, a call that returns has read [total] bytes that are there, returns
    the manifest of exactly those bytes, sorted and with the zero chunks left out,
    counts what it uploaded, and leaves every chunk it names in the object store. *)
Theorem chunk_file_correct w w' m st :
  cache_clean sha256 w →
  chunk_file_into sha256 self cache kind chunk_size f total w w' (Val (m, st)) →
  let img := cut f 0 total in
  N.of_nat (length img) = total ∧
  m = Manifest.Mk MANIFEST_SCHEMA_VERSION kind chunk_size total (image_chunks sha256 chunk_size img) None None JNull ∧
  describes sha256 m img ∧
  bytes_scanned st = total ∧ chunks_uploaded st = N.of_nat (length (Manifest.chunks m)) ∧
  bytes_uploaded st ≤ total ∧
  ∀ c, c ∈ Manifest.chunks m → is_Some (objects w' !! ChunkHash.storage_key (hash c)).
Proof.
  intros Hcl Hc img. inversion Hc as [| | |p Hz Hr Hdone E1 E2]; subst.
  destruct (upload_complete w p Hz Hcl Hr Hdone) as (Ht&Hpc&Hp&Hst).
  assert (Hlen : N.of_nat (length img) = total) by (unfold img; rewrite cut_length; lia).
  assert (Hch : sort_refs (pi_finished p).*2 = image_chunks sha256 chunk_size img).
  { apply sort_refs_perm; [done|]. by apply image_chunks_sorted. }
  cbn. rewrite Hch. split_and!; try done.
  - f_equal. by rewrite <- (length_fmap snd), Hp.
  - etrans; [|apply (pieces_sum f total chunk_size Hz (ceil total chunk_size))].
    rewrite <- (sum_perm _ _ (fmap_Permutation _ _ _ Hpc)), <- list_fmap_compose. done.
Qed.

(** The reader and the uploads can be driven to an end from any state. *)
Lemma upload_drives w p n :
  chunk_size ≠ 0 → cache_clean sha256 w → rtc step (start w) p →
  left_to_read total (pi_producer p) ≤ N.of_nat n →
  ∃ p', rtc step p p' ∧ (pi_failed p' ≠ None ∨ complete reader_gone p').
Proof.
  intros Hz Hcl. revert p. induction n as [|n IH]; intros p Hr Hn;
    (destruct (pi_failed p) eqn:Hfl; [exists p; split; [done|left; by rewrite Hfl]|]);
    (destruct (pipe_drains sha256 f (read_nonzero_chunks total chunk_size f) (put_one sha256 self cache)
      CHUNK_UPLOAD_CONCURRENCY (N.to_nat (rechunk_channel_capacity chunk_size)) p)
      as (p1&Hr1&Hp1&[Hf1|(Hf1&Hq1&Hi1)]); [unfold CHUNK_UPLOAD_CONCURRENCY; lia|done|by exists p1; auto|]);
    (assert (Hr' : rtc step (start w) p1) by (by etrans));
    destruct (upload_inv w p1 Hz Hcl Hr') as [_ _ _ _ _ (l&HJ&_)];
    (destruct (reader_progress _ _ _ Hz _ _ HJ) as [Hg|(it&r'&Hs&Hlt)];
      [exists p1; split; [done|]; right; by split_and!|]); rewrite Hp1 in Hlt; [lia|].
  destruct it as [it|].
  - destruct (IH (p1 <| pi_producer := r' |> <| pi_queue := pi_queue p1 ++ [it] |>)) as (p2&Hr2&H2).
    + eapply rtc_r; [exact Hr'|]. apply pp_send; [done|done|]. rewrite Hq1. cbn.
      unfold rechunk_channel_capacity. lia.
    + cbn. lia.
    + exists p2. split; [|done]. etrans; [exact Hr1|]. eapply rtc_l; [|exact Hr2].
      apply pp_send; [done|done|]. rewrite Hq1. cbn. unfold rechunk_channel_capacity. lia.
  - destruct (IH (p1 <| pi_producer := r' |>)) as (p2&Hr2&H2).
    + eapply rtc_r; [exact Hr'|]. by apply pp_work.
    + cbn. lia.
    + exists p2. split; [|done]. etrans; [exact Hr1|]. eapply rtc_l; [|exact Hr2]. by apply pp_work.
Qed.

(** The pipeline of a file neither deadlocks nor breaks the store: from every
    state it reaches, with its queue full or its uploads stuck in retries, some
    continuation ends it; and all along cached files and chunk objects have the
    content their names say and no object is gone. *)
Theorem chunk_file_ends w p :
  chunk_size ≠ 0 → cache_clean sha256 w → rtc step (start w) p →
  content_inv sha256 w (sh_world (pi_shared p)) ∧
  ∃ p', rtc step p p' ∧ (pi_failed p' ≠ None ∨ complete reader_gone p').
Proof.
  intros Hz Hcl Hr. split; [by destruct (upload_inv w p Hz Hcl Hr)|].
  apply (upload_drives w p (N.to_nat (left_to_read total (pi_producer p)))); [done..|lia].
Qed.

End upload.

(** ** A file that is chunked *)

Definition demo_upload : pipe Reader (N * bytes) ChunkRef :=
  run_queue demo_img (put_one demo_hash demo_store true) (MkShared (MkWorld ∅ ∅ ∅) ∅) (Gone false)
    [Ok (0, [7; 7]); Ok (4, [5])] [].

Lemma empty_clean sha256 : cache_clean sha256 (MkWorld ∅ ∅ ∅).
Proof. intros h b. cbn. by rewrite lookup_empty. Qed.

Lemma demo_upload_steps :
  rtc (upload_step demo_hash demo_store true 2 demo_img 5) (upload_start 5 (MkWorld ∅ ∅ ∅)) demo_upload.
Proof.
  eapply rtc_l; [by eapply pp_work, (rd_read 5 2 demo_img 0 [] 5); vm_compute|].
  eapply rtc_l; [by eapply pp_send; [done|apply rd_send; vm_compute|vm_compute; lia]|].
  eapply rtc_l; [by eapply pp_work; [done|apply rd_zero; vm_compute]|].
  eapply rtc_l; [by eapply pp_send; [done|apply rd_send; vm_compute|vm_compute; lia]|].
  apply run_queue_steps. unfold CHUNK_UPLOAD_CONCURRENCY. lia.
Qed.

Lemma chunk_file_correct_witness :
  ∃ w' m st,
    chunk_file_into demo_hash demo_store true Memory 2 demo_img 5 (MkWorld ∅ ∅ ∅) w' (Val (m, st)) ∧
    m = demo_prev ∧ describes demo_hash m demo_img ∧ bytes_uploaded st ≤ 5 ∧
    ∀ c, c ∈ Manifest.chunks m → is_Some (objects w' !! ChunkHash.storage_key (hash c)).
Proof.
  assert (Hc : chunk_file_into demo_hash demo_store true Memory 2 demo_img 5 (MkWorld ∅ ∅ ∅)
    (sh_world (pi_shared demo_upload)) (Val (file_result Memory 2 5 (pi_finished demo_upload)))).
  { apply cf_done; [done|apply demo_upload_steps|]. split_and!; try by vm_compute. by eexists. }
  destruct (file_result Memory 2 5 (pi_finished demo_upload)) as [m st] eqn:E.
  destruct (chunk_file_correct demo_hash demo_store true Memory 2 demo_img 5 demo_hash_wf
    (MkWorld ∅ ∅ ∅) (sh_world (pi_shared demo_upload)) m st) as (_&Hm&Hd&_&_&Hb&Hs).
  - apply empty_clean.
  - exact Hc.
  - eexists _, m, st. split; [exact Hc|]. split; [rewrite Hm; by vm_compute|]. by split_and!.
Defined.

Lemma chunk_file_ends_witness :
  ∃ p', rtc (upload_step demo_hash demo_store true 2 demo_img 5) (upload_start 5 (MkWorld ∅ ∅ ∅)) p' ∧
    (pi_failed p' ≠ None ∨ complete reader_gone p').
Proof.
  apply (chunk_file_ends demo_hash demo_store true 2 demo_img 5 demo_hash_wf (MkWorld ∅ ∅ ∅)).
  - done.
  - apply empty_clean.
  - done.
Defined.
