(* ===== verification/Materialize.v ===== *)
(** * Chunks into files

    [file.rs]'s [materialize_to_file]: the bytes of a manifest written to a
    temporary sibling, chunk by chunk at their offsets into a file of zeros, and
    renamed to their place once all are there. *)

From S2P Require Import Prelude Text Wire Manifest World ChunkStore StoreProps Prog Image Pipeline Rechunk ChunkFile.
Local Open Scope N_scope.

(** ** The code *)

Inductive mreq : Type → Type :=
| MStore {X} (q : World.req X) : mreq X
| CreateDirAll : mreq (result unit unit)
(* open with create, write, truncate *)
| OpenTemp : mreq (result unit unit)
| SetLen (n : N) : mreq (result unit unit)
(* [seek] and [write_all] *)
| WriteAt (off : N) (b : bytes) : mreq (result unit unit)
| Flush : mreq (result unit unit)
| Rename : mreq (result unit unit).

Notation mprog A := (Prog.prog mreq (result A ChunkStoreError.t)) (only parsing).

Fixpoint mlift {A} (p : World.prog A) : Prog.prog mreq A :=
  match p with
  | World.Ret a => Prog.Ret a
  | World.Do q k => Prog.Do (MStore q) (fun x => mlift (k x))
  end.

Definition io (q : mreq (result unit unit)) : mprog unit := ask_err (fun _ => ChunkStoreError.Cache) q.

Section materialize.
Context (sha256 : bytes → bytes) (self : ChunkStore) (has_parent : bool).

Fixpoint write_chunks (entries : list ChunkRef) : mprog unit :=
  match entries with
  | [] => Prog.okay tt
  | entry :: rest =>
      do! b := mlift (get_chunk sha256 self (hash entry)) in
      do! _ := io (WriteAt (offset entry) b) in
      write_chunks rest
  end.

Definition materialize_to_file (manifest : Manifest.t) : mprog unit :=
  do! _ := Prog.Ret (Manifest.validate manifest) in
  do! _ := (if has_parent then io CreateDirAll else Prog.okay tt) in
  do! _ := io OpenTemp in
  do! _ := io (SetLen (Manifest.total_bytes manifest)) in
  do! _ := write_chunks (Manifest.chunks manifest) in
  do! _ := io Flush in
  do! _ := io Rename in
  Prog.okay tt.

End materialize.

(** ** The two files *)

Record Fs := MkFs { fs_temp : option bytes; fs_dest : option bytes }.

#[export] Instance eta_Fs : Eta Fs := fun s => MkFs (fs_temp s) (fs_dest s).

(** A write past the end fills the gap with zeros. *)
Definition write_at (c : bytes) (off : N) (b : bytes) : bytes :=
  splice (resize (Nat.max (length c) (N.to_nat off + length b)) 0 c) off b.

(** A failed change of the temporary file leaves anything there; a failed rename
    has happened or not. *)
Inductive fs_answers : Fs → mreq (result unit unit) → result unit unit → Fs → Prop :=
| fa_dirs s r : fs_answers s CreateDirAll r s
| fa_open s : fs_answers s OpenTemp (Ok tt) (s <| fs_temp := Some [] |>)
| fa_set_len s n c :
    fs_temp s = Some c → fs_answers s (SetLen n) (Ok tt) (s <| fs_temp := Some (resize (N.to_nat n) 0 c) |>)
| fa_write s off b c :
    fs_temp s = Some c → fs_answers s (WriteAt off b) (Ok tt) (s <| fs_temp := Some (write_at c off b) |>)
| fa_flush s r : fs_answers s Flush r s
| fa_rename s c : fs_temp s = Some c → fs_answers s Rename (Ok tt) (MkFs None (Some c))
| fa_rename_lost s c : fs_temp s = Some c → fs_answers s Rename (Err tt) (MkFs None (Some c))
| fa_rename_fail s : fs_answers s Rename (Err tt) s
| fa_open_fail s t : fs_answers s OpenTemp (Err tt) (s <| fs_temp := t |>)
| fa_set_len_fail s n t : fs_answers s (SetLen n) (Err tt) (s <| fs_temp := t |>)
| fa_write_fail s off b t : fs_answers s (WriteAt off b) (Err tt) (s <| fs_temp := t |>).

(** A materialization under way. *)
Record Mat := MkMat {
  ma_world : World;
  ma_fs : Fs;
  ma_hist : list (event mreq);  (* what it has asked so far *)
  ma_prog : mprog unit;
}.

Inductive mat_step (sha256 : bytes → bytes) : Mat → Mat → Prop :=
| mt_store w w' s h {X} (q : World.req X) k x :
    answers w q x w' →
    mat_step sha256 (MkMat w s h (Prog.Do (MStore q) k)) (MkMat w' s (h ++ [Ev (MStore q) x]) (k x))
| mt_fs w s s' h (q : mreq (result unit unit)) k x :
    fs_answers s q x s' → mat_step sha256 (MkMat w s h (Prog.Do q k)) (MkMat w s' (h ++ [Ev q x]) (k x))
| mt_others w w' s h p :
    others sha256 w w' → mat_step sha256 (MkMat w s h p) (MkMat w' s h p).

(** ** What is in the temporary file *)

Definition temp_after (t : option bytes) (e : event mreq) : option bytes :=
  match ev_req e in mreq X return X → option bytes with
  | OpenTemp => fun r => match r with Ok _ => Some [] | Err _ => None end
  | SetLen n => fun r => match r with Ok _ => resize (N.to_nat n) 0 <$> t | Err _ => None end
  | WriteAt off b => fun r => match r with Ok _ => (fun c => write_at c off b) <$> t | Err _ => None end
  | Rename => fun _ => None
  | _ => fun _ => t
  end (ev_ans e).

Definition temp_of (h : list (event mreq)) : option bytes := fold_left temp_after h None.

Lemma temp_of_snoc h e : temp_of (h ++ [e]) = temp_after (temp_of h) e.
Proof. unfold temp_of. by rewrite fold_left_app. Qed.

(** The file is in its place. *)
Definition rename_ok (e : event mreq) : bool :=
  match ev_req e in mreq X return X → bool with
  | Rename => fun r => match r with Ok _ => true | Err _ => false end
  | _ => fun _ => false
  end (ev_ans e).
Definition renamed (h : list (event mreq)) : bool := existsb rename_ok h.

Lemma renamed_snoc h e : renamed (h ++ [e]) = renamed h || rename_ok e.
Proof. unfold renamed. rewrite existsb_app. cbn. by rewrite orb_false_r. Qed.

Arguments temp_of : simpl never.
Arguments renamed : simpl never.

Section correct.
Context (sha256 : bytes → bytes) (self : ChunkStore) (has_parent : bool) (m : Manifest.t) (img : bytes).
Hypothesis sha256_wf : ∀ b, wf_hash (sha256 b).
Context `{!ByteCorrect sha256 (resolver self)}.
Hypothesis Hm : describes sha256 m img.
Hypothesis Huniq : ∀ c b, c ∈ Manifest.chunks m → sha256 b = hash c →
  b = cut img (offset c) (Manifest.chunk_size m).

Notation size := (Manifest.chunk_size m).

Definition mat_ans (_ : list (event mreq)) X (q : mreq X) : X → Prop :=
  match q in mreq Y return Y → Prop with
  | MStore q => content_rely sha256 _ q
  | _ => fun _ => True
  end.

(** The rename is made only when the temporary file is the image. *)
Definition mat_can (h : list (event mreq)) X (q : mreq X) : Prop :=
  match q with
  | MStore q => content_guar sha256 _ [] q
  | Rename => temp_of h = Some img
  | _ => True
  end.

Notation mwp := (Prog.wp mat_ans mat_can).

Lemma mwp_lift {A} D h (p : World.prog A) (Φ : A → Prop) :
  World.wp (content_rely sha256) (content_guar sha256) D p (fun a _ => Φ a) →
  mwp h (mlift p) (fun h' a => Φ a ∧ temp_of h' = temp_of h).
Proof.
  revert D h. induction p as [a|X q k IH]; intros D h; [by intros H; split|]. intros [Hg Hk].
  split; [exact Hg|]. intros x Hx. eapply Prog.wp_mono; [|by eapply IH, Hk].
  intros h' a [HΦ Ht]. split; [exact HΦ|]. by rewrite Ht, temp_of_snoc.
Qed.

(** An operation on the files, and what follows. *)
Lemma mwp_io {B} h q (f : unit → mprog B) Q :
  mat_can h _ q → mwp (h ++ [Ev q (Ok tt)]) (f tt) Q → (∀ h' e, Q h' (Err e)) →
  mwp h (Prog.try_ (io q) f) Q.
Proof.
  intros Hc Hf He. apply Prog.wp_try, Prog.wp_ask_err; [done|]. by intros [[]|[]] _.
Qed.

(** The temporary file after the chunks [l]: these are in place, the rest is
    zero. *)
Definition partial (l : list ChunkRef) (c : bytes) : Prop :=
  length c = length img ∧
  ∀ j, (j < length img)%nat →
    c !! j = if decide (N.of_nat j / size * size ∈ offset <$> l) then img !! j else Some 0.

Lemma partial_start : partial [] (resize (N.to_nat (Manifest.total_bytes m)) 0 []).
Proof.
  destruct Hm as [Hz Ht Hc]. rewrite Ht, resize_nil, Nat2N.id. split; [apply length_replicate|].
  intros j Hj. rewrite decide_False by apply not_elem_of_nil. by apply lookup_replicate_2.
Qed.

Lemma partial_write l c x :
  partial l c → offset x mod size = 0 → offset x < N.of_nat (length img) →
  partial (l ++ [x]) (write_at c (offset x) (cut img (offset x) size)).
Proof.
  intros [Hl Hc] Ha Hlt. destruct Hm as [Hz Ht _].
  pose proof (cut_length img (offset x) size) as Hcl.
  unfold write_at. replace (Nat.max _ _) with (length c) by lia. rewrite resize_all.
  split; [rewrite splice_length; lia|]. intros j Hj. rewrite splice_lookup by lia.
  assert (Hq : offset x / size * size = offset x) by (pose proof (N.div_mod (offset x) size Hz); lia).
  pose proof (N.div_mod (N.of_nat j) size Hz) as Hd. pose proof (N.mod_lt (N.of_nat j) size Hz) as Hr.
  rewrite fmap_app. destruct (decide (N.of_nat j / size * size = offset x)) as [E|E].
  - assert (Hin : offset x ≤ N.of_nat j < offset x + N.of_nat (length (cut img (offset x) size))).
    { rewrite Hcl, N2Nat.id. rewrite (N.mul_comm size), E in Hd.
      set (r := N.of_nat j mod size) in *. clearbody r. clear -Hd Hr Hj Hlt. lia. }
    rewrite (decide_True _ _ Hin), cut_lookup, decide_True by lia.
    rewrite decide_True by (rewrite E; set_solver). f_equal. lia.
  - rewrite decide_False.
    + rewrite Hc by done. apply decide_ext.
      change (offset <$> [x]) with [offset x]. rewrite elem_of_app, list_elem_of_singleton. naive_solver.
    + intros [H1 H2]. apply E. rewrite Hcl in H2. rewrite <- Hq. f_equal.
      symmetry. apply (N.div_unique _ _ _ (N.of_nat j - offset x)); [lia|]. lia.
Qed.

Lemma partial_done c : partial (Manifest.chunks m) c → c = img.
Proof.
  intros [Hl Hc]. destruct Hm as [Hz Ht Hch]. apply list_eq_same_length with (length img); [done|done|].
  intros j x y Hj Hx Hy. rewrite Hc in Hx by done. case_decide as Hin; [congruence|].
  injection Hx as <-. pose proof (N.div_mod (N.of_nat j) size Hz) as Hd.
  pose proof (N.mod_lt (N.of_nat j) size Hz) as Hr. rewrite (N.mul_comm size) in Hd.
  assert (Ho : N.of_nat j / size * size mod size = 0) by apply N.Div0.mod_mul.
  set (o := N.of_nat j / size * size) in *. set (r := N.of_nat j mod size) in *. clearbody o r.
  destruct (is_all_zero (cut img o size)) eqn:E.
  - apply is_all_zero_spec in E. assert (Hcut : cut img o size !! (j - N.to_nat o)%nat = Some y).
    { rewrite cut_lookup, decide_True by lia. rewrite <- Hy. f_equal. lia. }
    rewrite E in Hcut. by apply lookup_replicate in Hcut as [-> _].
  - exfalso. apply Hin. apply list_elem_of_fmap. exists (MkChunk o (sha256 (cut img o size))).
    split; [done|]. rewrite Hch. apply elem_of_image_chunks; [done|]. split_and!; try done. lia.
Qed.

Lemma write_chunks_ok l1 l2 h Q c :
  Manifest.chunks m = l1 ++ l2 → temp_of h = Some c → partial l1 c →
  (∀ h', temp_of h' = Some img → Q h' (Ok tt)) → (∀ h' e, Q h' (Err e)) →
  mwp h (write_chunks sha256 self l2) Q.
Proof.
  revert l1 h c. induction l2 as [|x l2 IH]; intros l1 h c E Ht Hp HQ He.
  { rewrite app_nil_r in E. rewrite <- E in Hp. apply Prog.wp_ret, HQ. by rewrite Ht, (partial_done c). }
  assert (Hin : x ∈ Manifest.chunks m) by (rewrite E; set_solver).
  destruct (Hm) as [Hz Htot Hch]. pose proof Hin as Hin'. rewrite Hch in Hin'. destruct x as [o hh].
  apply elem_of_image_chunks in Hin' as (Ha&Hlt&_&Hh); [|done]. cbn [write_chunks].
  apply Prog.wp_try. eapply Prog.wp_mono;
    [|apply (mwp_lift [] _ _ (fun r => ok_with (fun b => sha256 b = hh) r []))].
  2: { apply get_chunk_correct; [done|]. cbn. rewrite <- Hh. apply sha256_wf. }
  intros h1 [b|e] [Hb Ht1]; [|apply He]. cbn in Hb.
  apply (Huniq (MkChunk o hh)) in Hb as ->; [|done]. cbn.
  apply mwp_io; [done| |done]. eapply (IH (l1 ++ [MkChunk o hh])); [by rewrite <- app_assoc| | |done|done].
  - rewrite temp_of_snoc. cbn. by rewrite Ht1, Ht.
  - by apply (partial_write _ _ (MkChunk o hh)).
Qed.

Lemma materialize_ok :
  mwp [] (materialize_to_file sha256 self has_parent m)
    (fun h r => r = Ok tt → renamed h = true).
Proof.
  unfold materialize_to_file. apply Prog.wp_try, Prog.wp_ret.
  destruct (Manifest.validate m) as [[]|e]; [|done].
  assert (Hrest : ∀ h0, mwp h0 (do! _ := io OpenTemp in
    do! _ := io (SetLen (Manifest.total_bytes m)) in
    do! _ := write_chunks sha256 self (Manifest.chunks m) in
    do! _ := io Flush in do! _ := io Rename in Prog.okay tt)
    (fun h r => r = Ok tt → renamed h = true)).
  { intros h0. apply mwp_io; [done| |done]. apply mwp_io; [done| |done]. apply Prog.wp_try.
    eapply (write_chunks_ok []); [done|by rewrite !temp_of_snoc|apply partial_start| |done].
    intros h Ht. apply mwp_io; [done| |done]. apply mwp_io; [cbn; by rewrite temp_of_snoc| |done].
    apply Prog.wp_ret. intros _. rewrite renamed_snoc. by rewrite orb_true_r. }
  destruct has_parent; [by apply mwp_io|]. apply Prog.wp_try, Prog.wp_ret, Hrest.
Qed.

(** *** Soundness *)

Record mat_inv (w0 : World) (d0 : option bytes) (s : Mat) : Prop := {
  mi_world : content_inv sha256 w0 (ma_world s);
  mi_wp : mwp (ma_hist s) (ma_prog s) (fun h r => r = Ok tt → renamed h = true);
  mi_temp : ∀ c, temp_of (ma_hist s) = Some c → fs_temp (ma_fs s) = Some c;
  mi_dest : fs_dest (ma_fs s) = d0 ∨ fs_dest (ma_fs s) = Some img;
  mi_done : renamed (ma_hist s) = true → fs_dest (ma_fs s) = Some img;
}.

(** An answer of the file system. *)
Lemma fs_answer_inv d0 fs h q x fs' :
  (∀ c, temp_of h = Some c → fs_temp fs = Some c) →
  fs_dest fs = d0 ∨ fs_dest fs = Some img → (renamed h = true → fs_dest fs = Some img) →
  mat_can h _ q → fs_answers fs q x fs' →
  (∀ c, temp_of (h ++ [Ev q x]) = Some c → fs_temp fs' = Some c) ∧
  (fs_dest fs' = d0 ∨ fs_dest fs' = Some img) ∧
  (renamed (h ++ [Ev q x]) = true → fs_dest fs' = Some img).
Proof.
  intros Ht Hd Hr Hc Ha. rewrite temp_of_snoc, renamed_snoc.
  destruct Ha as [s r|s|s n c Hs|s off b c Hs|s r|s c Hs|s c Hs|s|s t|s n t|s off b t]; cbn in *;
    rewrite ?orb_false_r; try done.
  - split_and!; [|done|done]. intros c' E. destruct (temp_of h) as [c0|]; [|done].
    pose proof (Ht _ eq_refl). by simplify_eq/=.
  - split_and!; [|done|done]. intros c' E. destruct (temp_of h) as [c0|]; [|done].
    pose proof (Ht _ eq_refl). by simplify_eq/=.
  - rewrite (Ht _ Hc) in Hs. simplify_eq. auto.
  - rewrite (Ht _ Hc) in Hs. simplify_eq. auto.
Qed.

Lemma mat_step_inv w0 d0 s s' : mat_step sha256 s s' → mat_inv w0 d0 s → mat_inv w0 d0 s'.
Proof.
  intros [w w' fs h X q k x Ha|w fs fs' h q k x Ha|w w' fs h p Ho] [Hw Hp Ht Hd Hr]; cbn in *.
  - destruct Hp as [Hc Hk]. destruct (content_answer sha256 _ _ _ _ _ _ _ Hw (Forall_nil_2 _) Hc Ha) as (Hx&Hw'&_).
    split; cbn; rewrite ?temp_of_snoc, ?renamed_snoc, ?orb_false_r; try done. by apply Hk.
  - destruct Hp as [Hc Hk]. destruct (fs_answer_inv d0 fs h q x fs' Ht Hd Hr Hc Ha) as (?&?&?).
    split; cbn; try done. apply Hk. by destruct Ha.
  - split; cbn; try done. destruct Ho as (Ho1&Ho2&Ho3). destruct Hw as (Hw1&Hw2&Hw3).
    split_and!; auto. intros k Hk. apply (Ho3 (Stored k)). by apply Hw3.
Qed.

Lemma mat_sound w0 d0 s s' : rtc (mat_step sha256) s s' → mat_inv w0 d0 s → mat_inv w0 d0 s'.
Proof. induction 1; eauto using mat_step_inv. Qed.

Lemma mat_final w fs s :
  cache_clean sha256 w →
  rtc (mat_step sha256) (MkMat w fs [] (materialize_to_file sha256 self has_parent m)) s →
  (fs_dest (ma_fs s) = fs_dest fs ∨ fs_dest (ma_fs s) = Some img) ∧
  (ma_prog s = Prog.Ret (Ok tt) → fs_dest (ma_fs s) = Some img) ∧
  content_inv sha256 w (ma_world s).
Proof.
  intros Hcl Hr. assert (H : mat_inv w (fs_dest fs) s).
  { eapply mat_sound; [exact Hr|]. split; cbn; try done; [apply materialize_ok|by left]. }
  destruct H as [Hw Hp Ht Hd Hdone]. split_and!; try done. intros E. rewrite E in Hp. by apply Hdone, Hp.
Qed.

(** A materialized file is whole or not there.  Whatever fails, whoever else
    uses the store and wherever it is cut, the destination of a materialization
    is what it was before or exactly the image of the manifest; when the call
    returns, it is the image. *)
Theorem materialize_atomic w fs s :
  cache_clean sha256 w →
  rtc (mat_step sha256) (MkMat w fs [] (materialize_to_file sha256 self has_parent m)) s →
  (fs_dest (ma_fs s) = fs_dest fs ∨ fs_dest (ma_fs s) = Some img) ∧
  (ma_prog s = Prog.Ret (Ok tt) → fs_dest (ma_fs s) = Some img) ∧
  content_inv sha256 w (ma_world s).
Proof. apply mat_final. Qed.

End correct.

(** ** A run without faults, alone *)

Definition fs_serve {X} (w : World) (s : Fs) (q : mreq X) : X * World * Fs :=
  match q in mreq Y return Y * World * Fs with
  | MStore q => let '(x, w') := serve w q in (x, w', s)
  | CreateDirAll | Flush => (Ok tt, w, s)
  | OpenTemp => (Ok tt, w, s <| fs_temp := Some [] |>)
  | SetLen n =>
      match fs_temp s with
      | Some c => (Ok tt, w, s <| fs_temp := Some (resize (N.to_nat n) 0 c) |>)
      | None => (Err tt, w, s)
      end
  | WriteAt off b =>
      match fs_temp s with
      | Some c => (Ok tt, w, s <| fs_temp := Some (write_at c off b) |>)
      | None => (Err tt, w, s)
      end
  | Rename =>
      match fs_temp s with
      | Some c => (Ok tt, w, MkFs None (Some c))
      | None => (Err tt, w, s)
      end
  end.

Fixpoint run_mat {A} (p : Prog.prog mreq A) (w : World) (s : Fs) : A * World * Fs :=
  match p with
  | Prog.Ret a => (a, w, s)
  | Prog.Do q k => let '(x, w', s') := fs_serve w s q in run_mat (k x) w' s'
  end.

Lemma fs_serve_step sha256 {X} w s h (q : mreq X) (k : X → mprog unit) :
  let '(x, w', s') := fs_serve w s q in
  mat_step sha256 (MkMat w s h (Prog.Do q k)) (MkMat w' s' (h ++ [Ev q x]) (k x)).
Proof.
  destruct q; cbn.
  - pose proof (serve_answers w q) as Ha. destruct (serve w q) as [x w']. by apply mt_store.
  - apply mt_fs. constructor.
  - apply mt_fs. constructor.
  - destruct (fs_temp s) eqn:E; apply mt_fs; [by constructor|]. replace s with (s <| fs_temp := None |>) at 2; [constructor|].
    destruct s. cbn in *. by subst.
  - destruct (fs_temp s) eqn:E; apply mt_fs; [by constructor|]. replace s with (s <| fs_temp := None |>) at 2; [constructor|].
    destruct s. cbn in *. by subst.
  - apply mt_fs. constructor.
  - destruct (fs_temp s) eqn:E; apply mt_fs; by constructor.
Qed.

Lemma run_mat_steps sha256 (p : mprog unit) w s h :
  ∃ h', rtc (mat_step sha256) (MkMat w s h p)
    (let '(r, w', s') := run_mat p w s in MkMat w' s' h' (Prog.Ret r)).
Proof.
  revert w s h. induction p as [a|X q k IH]; intros w s h; [by exists h|]. cbn [run_mat].
  pose proof (fs_serve_step sha256 w s h q k) as Hs. destruct (fs_serve w s q) as [[x w'] s'].
  destruct (IH x w' s' (h ++ [Ev q x])) as [h' Hr]. exists h'. by eapply rtc_l.
Qed.

Lemma run_mat_try {A B} (p : mprog A) (f : A → mprog B) w s :
  run_mat (Prog.try_ p f) w s =
  match run_mat p w s with (Ok a, w', s') => run_mat (f a) w' s' | (Err e, w', s') => (Err e, w', s') end.
Proof.
  unfold Prog.try_. revert w s. induction p as [[a|e]|X q k IH]; intros w s; [done|done|]. cbn.
  destruct (fs_serve w s q) as [[x w'] s']. apply IH.
Qed.

Lemma run_mat_lift {A} (p : World.prog A) w s :
  run_mat (mlift p) w s = let '(a, w') := run_prog p w in (a, w', s).
Proof.
  revert w. induction p as [a|X q k IH]; intros w; [done|]. cbn.
  destruct (serve w q) as [x w']. apply IH.
Qed.

Section round_trip.
Context (sha256 : bytes → bytes) (self : ChunkStore) (has_parent : bool).
Hypothesis sha256_wf : ∀ b, wf_hash (sha256 b).
Hypothesis Hres : resolver self = BlobStorageResolver sha256.

(** A stored chunk of a clean world is read, from the cache or the object store. *)
Lemma run_get_clean w h :
  cache_clean sha256 w → objects_clean sha256 w → wf_hash h →
  is_Some (objects w !! ChunkHash.storage_key h) →
  ∃ b w', run_prog (get_chunk sha256 self h) w = (Ok b, w') ∧ sha256 b = h ∧
    objects w' = objects w ∧ cache_clean sha256 w'.
Proof.
  intros Hc Ho Hh [v Hv]. pose proof (Ho _ _ Hh Hv) as Hsv. unfold get_chunk, cache_get. rewrite Hres.
  destruct (cache self).
  - rewrite run_prog_try. cbn. destruct (files w !! h) as [b|] eqn:E; cbn.
    + exists b, w. split_and!; try done. by apply Hc.
    + rewrite E. cbn. rewrite Hv. cbn. rewrite bool_decide_eq_true_2 by done. cbn.
      rewrite bool_decide_eq_true_2 by done. eexists v, _. split_and!; try done. by apply cache_clean_write.
  - cbn. rewrite Hv. cbn. rewrite bool_decide_eq_true_2 by done. by exists v, w.
Qed.

Lemma run_write_chunks l w s c :
  cache_clean sha256 w → objects_clean sha256 w → fs_temp s = Some c →
  Forall (fun x => wf_hash (hash x) ∧ is_Some (objects w !! ChunkHash.storage_key (hash x))) l →
  ∃ w' s' c', run_mat (write_chunks sha256 self l) w s = (Ok tt, w', s') ∧ fs_temp s' = Some c' ∧
    objects w' = objects w.
Proof.
  intros Hc Ho Hs Hl. revert w s c Hc Ho Hs Hl. induction l as [|x l IH]; intros w s c Hc Ho Hs Hl.
  { by exists w, s, c. }
  apply Forall_cons in Hl as [[Hh Hx] Hl]. cbn [write_chunks]. rewrite run_mat_try, run_mat_lift.
  destruct (run_get_clean w (hash x) Hc Ho Hh Hx) as (b&w1&E&_&Ho1&Hc1). rewrite E. rewrite run_mat_try.
  cbn [run_mat io ask_err]. cbn. rewrite Hs.
  destruct (IH w1 (s <| fs_temp := Some (write_at c (offset x) b) |>) (write_at c (offset x) b))
    as (w'&s'&c'&E'&Hs'&Ho'); [done| |done| |].
  - unfold objects_clean. by rewrite Ho1.
  - by rewrite Ho1.
  - exists w', s', c'. split; [exact E'|]. split; [done|]. by rewrite Ho'.
Qed.

(** A manifest whose chunks are stored materializes. *)
Lemma run_materialize m img w s :
  describes sha256 m img → Manifest.schema_version m ≤ MANIFEST_SCHEMA_VERSION →
  cache_clean sha256 w → objects_clean sha256 w →
  (∀ c, c ∈ Manifest.chunks m → is_Some (objects w !! ChunkHash.storage_key (hash c))) →
  (run_mat (materialize_to_file sha256 self has_parent m) w s).1.1 = Ok tt.
Proof.
  intros Hd Hv Hc Ho Hst. unfold materialize_to_file.
  assert (Hvalid : Manifest.validate m = Ok tt) by (apply Manifest.validate_iff; eauto using describes_valid).
  rewrite Hvalid, run_mat_try. cbn [run_mat].
  assert (Hl : Forall (fun x => wf_hash (hash x) ∧ is_Some (objects w !! ChunkHash.storage_key (hash x))) (Manifest.chunks m)).
  { apply Forall_forall. intros [o h] Hin. split; [|by apply Hst]. destruct Hd as [Hz _ Hch]. rewrite Hch in Hin.
    apply elem_of_image_chunks in Hin as (_&_&_&<-); [|done]. apply sha256_wf. }
  destruct (run_write_chunks (Manifest.chunks m) w
    (MkFs (Some (resize (N.to_nat (Manifest.total_bytes m)) 0 [])) (fs_dest s))
    (resize (N.to_nat (Manifest.total_bytes m)) 0 []) Hc Ho eq_refl Hl) as (w'&s'&c'&E&Hs'&_).
  assert (Hrest : (run_mat (do! _ := io OpenTemp in
    do! _ := io (SetLen (Manifest.total_bytes m)) in
    do! _ := write_chunks sha256 self (Manifest.chunks m) in
    do! _ := io Flush in do! _ := io Rename in Prog.okay tt) w s).1.1 = Ok tt).
  { rewrite run_mat_try. change (run_mat (io OpenTemp) w s) with
      (@Ok unit ChunkStoreError.t tt, w, MkFs (Some []) (fs_dest s)). cbv beta iota.
    rewrite run_mat_try. change (run_mat (io (SetLen ?n)) w (MkFs (Some []) ?d)) with
      (@Ok unit ChunkStoreError.t tt, w, MkFs (Some (resize (N.to_nat n) 0 [])) d). cbv beta iota.
    rewrite run_mat_try, E. cbn. by rewrite Hs'. }
  destruct has_parent; exact Hrest.
Qed.

(** C9. A file survives its chunks.  Chunk a file into the store, in any
    interleaving and through any fault the call survives; from the world it
    leaves, materializing the manifest it returned writes exactly the file's bytes
    to the destination. *)
Theorem file_round_trip cache kind chunk_size f w w' m st fs :
  cache_clean sha256 w → objects_clean sha256 w →
  chunk_file_into sha256 self cache kind chunk_size f (N.of_nat (length f)) w w' (Val (m, st)) →
  (∀ c b, c ∈ Manifest.chunks m → sha256 b = hash c → b = cut f (offset c) chunk_size) →
  ∃ w'' fs', run_mat (materialize_to_file sha256 self has_parent m) w' fs = (Ok tt, w'', fs') ∧
    fs_dest fs' = Some f.
Proof.
  intros Hc Ho Hcf Hu.
  destruct (chunk_file_facts sha256 self cache kind chunk_size f (N.of_nat (length f)) sha256_wf w w' m st Hc Hcf)
    as (Hd&Hv&Hsz&Hst&(Hc'&Ho'&_)).
  assert (Hf : cut f 0 (N.of_nat (length f)) = f).
  { unfold cut. rewrite drop_0. apply take_ge. lia. }
  rewrite Hf in Hd. assert (Hb : ByteCorrect sha256 (resolver self)) by (rewrite Hres; apply BlobStorageResolver_correct).
  pose proof (run_materialize m f w' fs Hd ltac:(by rewrite Hv) Hc' (Ho' Ho) Hst) as Hrun.
  destruct (run_mat_steps sha256 (materialize_to_file sha256 self has_parent m) w' fs []) as [h' Hr].
  destruct (run_mat _ w' fs) as [[r w''] fs'] eqn:E. cbn in Hrun. subst r. exists w'', fs'. split; [done|].
  destruct (mat_final sha256 self has_parent m f sha256_wf Hd) with (w := w') (fs := fs) (s := MkMat w'' fs' h' (Prog.Ret (Ok tt))) as (_&H&_); try done.
  - rewrite Hsz. apply Hu.
  - by apply H.
Qed.

End round_trip.

(** ** A file that comes back *)

Lemma materialize_atomic_witness :
  ∃ w' s' h', rtc (mat_step demo_hash)
      (MkMat demo_world (MkFs None (Some [1; 2])) [] (materialize_to_file demo_hash demo_store true demo_prev))
      (MkMat w' s' h' (Prog.Ret (Ok tt))) ∧ fs_dest s' = Some demo_img.
Proof.
  destruct (run_mat_steps demo_hash (materialize_to_file demo_hash demo_store true demo_prev) demo_world
    (MkFs None (Some [1; 2])) []) as [h' Hr].
  destruct (run_mat (materialize_to_file demo_hash demo_store true demo_prev) demo_world (MkFs None (Some [1; 2])))
    as [[r w'] s'] eqn:E.
  assert (r = Ok tt) as -> by (apply (f_equal (fun x => x.1.1)) in E; vm_compute in E; congruence).
  exists w', s', h'. split; [exact Hr|].
  apply (materialize_atomic demo_hash demo_store true demo_prev demo_img demo_hash_wf demo_describes demo_unique
    demo_world (MkFs None (Some [1; 2])) (MkMat w' s' h' (Prog.Ret (Ok tt))) demo_clean Hr).
  done.
Defined.

Lemma file_round_trip_witness :
  ∃ w'' fs', run_mat (materialize_to_file demo_hash demo_store false demo_prev)
      (sh_world (pi_shared demo_upload)) (MkFs None None) = (Ok tt, w'', fs') ∧ fs_dest fs' = Some demo_img.
Proof.
  apply (file_round_trip demo_hash demo_store false demo_hash_wf eq_refl true Memory 2 demo_img (MkWorld ∅ ∅ ∅)
    (sh_world (pi_shared demo_upload)) demo_prev (MkStats 5 2 3) (MkFs None None)).
  - apply empty_clean.
  - intros h b _. cbn. by rewrite lookup_empty.
  - assert (E : file_result Memory 2 5 (pi_finished demo_upload) = (demo_prev, MkStats 5 2 3)) by (by vm_compute).
    rewrite <- E. apply cf_done; [done|apply demo_upload_steps|]. split_and!; try by vm_compute. by eexists.
  - apply demo_unique.
Defined.
