(* ===== verification/Region.v ===== *)
(** * Regions into chunks

    [region.rs]: the chunks of an image that no file ever holds.  A producer
    emits regions of the image in any order, bytes or runs of zeros; a chunk is
    handed to the uploader when as many bytes of it have come as it has.  The
    uploader runs up to sixty-four uploads at once and returns the manifest when
    the producer is gone.  The [u32] that holds a fragment's place in its chunk
    wraps. *)

From S2P Require Import Prelude Text Wire Manifest World ChunkStore StoreProps Prog Image Pipeline Rechunk ChunkFile.
Local Open Scope N_scope.

(** ** The chunker *)

Definition REGION_UPLOAD_CONCURRENCY : nat := 64.
Definition COMPLETED_CHANNEL_DEPTH : nat := 8.
Definition PARTIAL_BUFFER_CAP : N := 2 * 1024 * 1024 * 1024.

Inductive Completed : Type :=
| Chunk (offset : N) (body : bytes)
| Zero.

Record Partial := MkPartial { p_covered : N; p_frags : list (N * bytes) }.

Record RegionChunker := MkRegion {
  rc_partials : gmap N Partial;
  rc_emitted : gset N;
  rc_buffered : N;
  rc_high_water : N;
  rc_covered_total : N;
}.

#[export] Instance eta_RegionChunker : Eta RegionChunker := fun s =>
  MkRegion (rc_partials s) (rc_emitted s) (rc_buffered s) (rc_high_water s) (rc_covered_total s).

(** The messages of its [io::Error]s. *)
Inductive RegionError : Type := Exceeds | OverCovered | CapExceeded | UnderCovered.

Section chunker.
Context (chunk_size total_bytes : N).

Definition region_start : RegionChunker := MkRegion ∅ ∅ 0 0 0.

Definition chunk_len (idx : N) : N := N.min chunk_size (total_bytes - idx * chunk_size).

Definition frag_bytes (frags : list (N * bytes)) : N :=
  foldr (fun f n => N.of_nat (length f.2) + n) 0 frags.

(** [emit]: what is sent, and the bytes that leave the buffer. *)
Definition emit (idx : N) (len : N) (p : Partial) : Completed * N :=
  match p_frags p with
  | [] => (Zero, 0)
  | frags =>
      (Chunk (idx * chunk_size)
         (fold_left (fun body f => splice body f.1 f.2) frags (replicate (N.to_nat len) 0)),
       frag_bytes frags)
  end.

(** One round of the loop of [cover]: the part of the run in one chunk, with its
    bytes if it has any. *)
Definition cover_chunk (s : RegionChunker) (pos take : N) (frag : option bytes) :
    result (RegionChunker * list Completed) RegionError :=
  let idx := pos / chunk_size in
  let chunk_start := idx * chunk_size in
  let len := chunk_len idx in
  if bool_decide (idx ∈ rc_emitted s) then Err OverCovered
  else
    let entry := default (MkPartial 0 []) (rc_partials s !! idx) in
    let covered := p_covered entry + take in
    if len <? covered then Err OverCovered
    else
      let data := match frag with
                  | Some b => if is_all_zero b then None else Some b
                  | None => None
                  end in
      let frags := match data with
                   | Some b => p_frags entry ++ [((pos - chunk_start) mod 2 ^ 32, b)]
                   | None => p_frags entry
                   end in
      let buffered := match data with Some _ => rc_buffered s + take | None => rc_buffered s end in
      let high := match data with Some _ => N.max (rc_high_water s) buffered | None => rc_high_water s end in
      if match data with Some _ => PARTIAL_BUFFER_CAP <? buffered | None => false end then Err CapExceeded
      else if covered =? len then
        let '(msg, freed) := emit idx len (MkPartial covered frags) in
        Ok (s <| rc_partials := delete idx (rc_partials s) |> <| rc_emitted := {[idx]} ∪ rc_emitted s |>
              <| rc_buffered := buffered - freed |> <| rc_high_water := high |>, [msg])
      else
        Ok (s <| rc_partials := <[idx := MkPartial covered frags]> (rc_partials s) |>
              <| rc_buffered := buffered |> <| rc_high_water := high |>, []).

(** The loop, with what it has sent when it ends or fails. *)
Fixpoint cover_loop (fuel : nat) (s : RegionChunker) (offset end_ pos : N) (b : option bytes) :
    list Completed * result RegionChunker RegionError :=
  match fuel with
  | O => ([], Ok s)
  | S fuel' =>
      if end_ <=? pos then ([], Ok s)
      else
        let idx := pos / chunk_size in
        let take := N.min (idx * chunk_size + chunk_len idx) end_ - pos in
        match cover_chunk s pos take ((fun b => cut b (pos - offset) take) <$> b) with
        | Err e => ([], Err e)
        | Ok (s', sent) =>
            let '(more, r) := cover_loop fuel' s' offset end_ (pos + take) b in (sent ++ more, r)
        end
  end.

(** Each round ends at a chunk's end or at the run's. *)
Definition cover_fuel (len : N) : nat := N.to_nat (len / chunk_size + 2).

Definition cover (s : RegionChunker) (offset len : N) (b : option bytes) :
    list Completed * result RegionChunker RegionError :=
  if len =? 0 then ([], Ok s)
  else if (2 ^ 64 <=? offset + len) || (total_bytes <? offset + len) then ([], Err Exceeds)
  else
    cover_loop (cover_fuel len) (s <| rc_covered_total := rc_covered_total s + len |>)
      offset (offset + len) offset b.

Inductive Call : Type :=
| Data (offset : N) (b : bytes)
| Zeros (offset len : N).

Definition run_call (s : RegionChunker) (c : Call) : list Completed * result RegionChunker RegionError :=
  match c with
  | Data offset b => cover s offset (N.of_nat (length b)) (Some b)
  | Zeros offset len => cover s offset len None
  end.

Definition region_finish (s : RegionChunker) : result N RegionError :=
  if negb (rc_covered_total s =? total_bytes) || negb (bool_decide (rc_partials s = ∅))
  then Err UnderCovered else Ok (rc_high_water s).

(** The calls of a producer, one after the other. *)
Fixpoint run_calls (s : RegionChunker) (cs : list Call) : list Completed * result RegionChunker RegionError :=
  match cs with
  | [] => ([], Ok s)
  | c :: cs' =>
      match run_call s c with
      | (sent, Err e) => (sent, Err e)
      | (sent, Ok s') => let '(more, r) := run_calls s' cs' in (sent ++ more, r)
      end
  end.

End chunker.

(** ** Regions that cover every byte once *)

Section exact.
Context (chunk_size : N) (img : bytes).
Hypothesis Hcs : chunk_size ≠ 0.
Hypothesis Hu32 : chunk_size ≤ 2 ^ 32.

Notation total := (N.of_nat (length img)).
Notation len idx := (chunk_len chunk_size total idx).

(** The positions of a call, and that it says what the image has there. *)
Definition positions (c : Call) : list N :=
  match c with
  | Data o b => range o (o + N.of_nat (length b))
  | Zeros o n => range o (o + n)
  end.

Definition agrees (c : Call) : Prop :=
  match c with
  | Data o b => b = cut img o (N.of_nat (length b))
  | Zeros o n => is_all_zero (cut img o n) = true
  end.

(** What is sent for a chunk. *)
Definition message (idx : N) : Completed :=
  let b := cut img (idx * chunk_size) chunk_size in
  if is_all_zero b then Zero else Chunk (idx * chunk_size) b.

(** The positions of [P] in a chunk. *)
Definition in_chunk (idx : N) (P : list N) : list N := List.filter (fun j => j / chunk_size =? idx) P.

Lemma elem_of_in_chunk idx P j : j ∈ in_chunk idx P ↔ j ∈ P ∧ j / chunk_size = idx.
Proof. unfold in_chunk. by rewrite elem_of_filterb, N.eqb_eq. Qed.

Lemma NoDup_in_chunk idx P : NoDup P → NoDup (in_chunk idx P).
Proof. intros HP. eapply sublist_NoDup; [exact HP|apply Manifest.filterb_sublist]. Qed.

Lemma chunk_index idx j :
  j / chunk_size = idx ∧ j < total ↔ idx * chunk_size ≤ j < idx * chunk_size + len idx.
Proof.
  unfold chunk_len. pose proof (N.div_mod j chunk_size Hcs) as Hd.
  pose proof (N.mod_lt j chunk_size Hcs) as Hr. split.
  - intros [<- Ht]. rewrite (N.mul_comm chunk_size) in Hd.
    set (q := j / chunk_size * chunk_size) in *. set (r := j mod chunk_size) in *. clearbody q r. lia.
  - intros [H1 H2]. split; [|lia]. symmetry.
    apply (N.div_unique _ _ _ (j - idx * chunk_size)); [lia|]. rewrite (N.mul_comm chunk_size). lia.
Qed.

(** A chunk has no more positions than bytes, and all of them when as many. *)
Lemma in_chunk_bound idx P :
  NoDup P → Forall (fun j => j < total) P → N.of_nat (length (in_chunk idx P)) ≤ len idx.
Proof.
  intros Hnd Hr. assert (Hin : in_chunk idx P ⊆+ range (idx * chunk_size) (idx * chunk_size + len idx)).
  { apply NoDup_submseteq; [by apply NoDup_in_chunk|]. intros j [Hj Hi]%elem_of_in_chunk.
    apply elem_of_range, chunk_index. rewrite Forall_forall in Hr. auto. }
  apply submseteq_length in Hin. unfold range in Hin. rewrite length_fmap, length_seq in Hin. lia.
Qed.

Lemma in_chunk_full idx P j :
  NoDup P → Forall (fun j => j < total) P → N.of_nat (length (in_chunk idx P)) = len idx →
  j / chunk_size = idx → j < total → j ∈ P.
Proof.
  intros Hnd Hr Hlen Hj Ht. assert (Hin : in_chunk idx P ⊆+ range (idx * chunk_size) (idx * chunk_size + len idx)).
  { apply NoDup_submseteq; [by apply NoDup_in_chunk|]. intros k [Hk Hi]%elem_of_in_chunk.
    apply elem_of_range, chunk_index. rewrite Forall_forall in Hr. auto. }
  apply submseteq_length_Permutation in Hin.
  - assert (Hm : j ∈ in_chunk idx P); [|by apply elem_of_in_chunk in Hm as [? _]].
    rewrite Hin. by apply elem_of_range, chunk_index.
  - unfold range. rewrite length_fmap, length_seq. lia.
Qed.

(** *** The fragments of a chunk *)

Definition covers (idx j : N) (f : N * bytes) : Prop :=
  idx * chunk_size + f.1 ≤ j < idx * chunk_size + f.1 + N.of_nat (length f.2).

Record frags_ok (idx : N) (P : list N) (frags : list (N * bytes)) : Prop := {
  fo_frag : Forall (fun f => f.2 = cut img (idx * chunk_size + f.1) (N.of_nat (length f.2)) ∧
                     f.1 + N.of_nat (length f.2) ≤ len idx ∧ is_all_zero f.2 = false) frags;
  fo_all : ∀ j, j ∈ P → j / chunk_size = idx → img !! N.to_nat j ≠ Some 0 → Exists (covers idx j) frags;
}.

(** The body assembled from fragments: the image where one covers it, else what
    was there. *)
Lemma assemble_lookup idx frags body i :
  Forall (fun f => f.2 = cut img (idx * chunk_size + f.1) (N.of_nat (length f.2)) ∧
            f.1 + N.of_nat (length f.2) ≤ len idx ∧ is_all_zero f.2 = false) frags →
  N.of_nat (length body) = len idx →
  let b := fold_left (fun body f => splice body f.1 f.2) frags body in
  length b = length body ∧
  ((Exists (covers idx (idx * chunk_size + N.of_nat i)) frags ∧
      b !! i = img !! (N.to_nat (idx * chunk_size) + i)%nat) ∨
   (¬ Exists (covers idx (idx * chunk_size + N.of_nat i)) frags ∧ b !! i = body !! i)).
Proof.
  intros Hf. revert body. induction Hf as [|f frags (Hb&Hl&_) _ IH]; intros body Hlen; cbn [fold_left].
  { split; [done|]. right. split; [|done]. by intros ?%Exists_nil. }
  assert (Hfit : (N.to_nat f.1 + length f.2 ≤ length body)%nat) by lia.
  destruct (IH (splice body f.1 f.2)) as [Hlb Hor]; [by rewrite splice_length|].
  rewrite splice_length in Hlb by done. split; [done|]. rewrite Exists_cons.
  destruct Hor as [[He ->]|[Hn ->]]; [left; auto|]. rewrite splice_lookup by done.
  unfold covers at 1 3. case_decide as Hin.
  - left. split; [left; lia|]. rewrite Hb, cut_lookup, decide_True by lia. f_equal. lia.
  - right. split; [|done]. intros [?|?]; [lia|done].
Qed.

Lemma chunk_cut idx i :
  (i < N.to_nat (len idx))%nat → cut img (idx * chunk_size) chunk_size !! i = img !! (N.to_nat (idx * chunk_size) + i)%nat.
Proof. unfold chunk_len. intros Hi. by rewrite cut_lookup, decide_True by lia. Qed.

Lemma chunk_cut_length idx : length (cut img (idx * chunk_size) chunk_size) = N.to_nat (len idx).
Proof. rewrite cut_length. done. Qed.

(** A full chunk is sent as the image has it. *)
Lemma emit_ok idx P covered frags :
  (∀ j, j / chunk_size = idx → j < total → j ∈ P) → frags_ok idx P frags →
  (emit chunk_size idx (len idx) (MkPartial covered frags)).1 = message idx.
Proof.
  intros Hall [Hf Hz].
  assert (Hnz : ∀ i b, cut img (idx * chunk_size) chunk_size !! i = Some b → b ≠ 0 →
    Exists (covers idx (idx * chunk_size + N.of_nat i)) frags).
  { intros i b Hi Hb. pose proof (lookup_lt_Some _ _ _ Hi) as Hlt. rewrite chunk_cut_length in Hlt.
    rewrite chunk_cut in Hi by done.
    destruct (proj2 (chunk_index idx (idx * chunk_size + N.of_nat i)) ltac:(lia)) as [H1 H2].
    apply Hz; [by apply Hall|done|]. replace (N.to_nat _) with (N.to_nat (idx * chunk_size) + i)%nat by lia. congruence. }
  unfold message, emit. cbn [p_frags]. destruct frags as [|f frags]; cbn [fst].
  - rewrite (proj2 (is_all_zero_spec _)); [done|]. apply list_eq_same_length with (N.to_nat (len idx)).
    + by rewrite length_replicate, chunk_cut_length.
    + by rewrite chunk_cut_length.
    + intros i x y _ Hx [-> _]%lookup_replicate. destruct (decide (x = 0)) as [|Hne]; [done|].
      by pose proof (Hnz i x Hx Hne) as ?%Exists_nil.
  - assert (Hbody : fold_left (fun body f => splice body f.1 f.2) (f :: frags) (replicate (N.to_nat (len idx)) 0) =
      cut img (idx * chunk_size) chunk_size).
    { apply list_eq_same_length with (N.to_nat (len idx)); [by rewrite chunk_cut_length| |].
      - destruct (assemble_lookup idx _ (replicate (N.to_nat (len idx)) 0) 0 Hf) as [Hl _];
          rewrite length_replicate in *; [lia|done].
      - intros i x y Hi Hx Hy.
        destruct (assemble_lookup idx _ (replicate (N.to_nat (len idx)) 0) i Hf) as [_ Hor]; [rewrite length_replicate; lia|].
        destruct Hor as [[_ E]|[Hn E]]; rewrite E in Hx.
        + rewrite chunk_cut in Hy by done. congruence.
        + apply lookup_replicate in Hx as [-> _]. destruct (decide (y = 0)) as [|Hne]; [done|].
          exfalso. apply Hn. by eapply Hnz. }
    rewrite Hbody. destruct (is_all_zero (cut img (idx * chunk_size) chunk_size)) eqn:E; [|done]. exfalso.
    apply Forall_cons in Hf as [(Hb&Hl&Hnzf) _]. apply not_true_iff_false in Hnzf. apply Hnzf.
    apply is_all_zero_spec. apply is_all_zero_spec in E.
    apply list_eq_same_length with (length f.2); [by rewrite length_replicate|done|].
    intros i x y Hi Hx [-> _]%lookup_replicate. rewrite Hb, cut_lookup, decide_True in Hx by lia.
    assert (Hc : cut img (idx * chunk_size) chunk_size !! (N.to_nat f.1 + i)%nat = Some x).
    { rewrite chunk_cut by lia. rewrite <- Hx. f_equal. lia. }
    rewrite E in Hc. by apply lookup_replicate in Hc as [-> _].
Qed.

(** *** The state after the positions [P] *)

Definition buffered_in (m : gmap N Partial) : N :=
  map_fold (fun _ p n => frag_bytes (p_frags p) + n) 0 m.

Lemma buffered_insert m idx p :
  buffered_in (<[idx := p]> m) + frag_bytes (p_frags (default (MkPartial 0 []) (m !! idx))) =
  buffered_in m + frag_bytes (p_frags p).
Proof.
  unfold buffered_in. rewrite <- insert_delete_eq, map_fold_insert_L by (lia || apply lookup_delete_eq).
  destruct (m !! idx) as [q|] eqn:E; cbn.
  - rewrite <- (insert_id m idx q E) at 2. rewrite <- insert_delete_eq, map_fold_insert_L by (lia || apply lookup_delete_eq). lia.
  - rewrite delete_id by done. lia.
Qed.

Lemma buffered_delete m idx :
  buffered_in m = buffered_in (delete idx m) + frag_bytes (p_frags (default (MkPartial 0 []) (m !! idx))).
Proof.
  unfold buffered_in. destruct (m !! idx) as [q|] eqn:E; cbn.
  - rewrite <- (insert_id m idx q E) at 1. rewrite <- insert_delete_eq, map_fold_insert_L by (lia || apply lookup_delete_eq). lia.
  - rewrite delete_id by done. lia.
Qed.

Definition partial_ok (P : list N) (idx : N) (o : option Partial) : Prop :=
  match o with
  | Some p => p_covered p = N.of_nat (length (in_chunk idx P)) ∧ p_covered p < len idx ∧ frags_ok idx P (p_frags p)
  | None => in_chunk idx P = []
  end.

(** [order]: the chunks sent, in order. *)
Record region_inv (s : RegionChunker) (P order : list N) : Prop := {
  ri_nodup : NoDup P;
  ri_range : Forall (fun j => j < total) P;
  ri_order : NoDup order;
  ri_emitted : ∀ idx, idx ∈ rc_emitted s ↔ idx ∈ order;
  ri_full : Forall (fun idx => idx * chunk_size < total ∧ ∀ j, j / chunk_size = idx → j < total → j ∈ P) order;
  ri_gone : Forall (fun idx => rc_partials s !! idx = None) order;
  ri_partial : ∀ idx, idx ∉ order → partial_ok P idx (rc_partials s !! idx);
  ri_buffered : rc_buffered s = buffered_in (rc_partials s);
}.

Lemma in_chunk_app idx P Q : in_chunk idx (P ++ Q) = in_chunk idx P ++ in_chunk idx Q.
Proof. apply List.filter_app. Qed.

(** A run within one chunk. *)
Lemma in_chunk_run idx pos take :
  idx * chunk_size ≤ pos → pos + take ≤ idx * chunk_size + len idx →
  in_chunk idx (range pos (pos + take)) = range pos (pos + take) ∧
  ∀ idx', idx' ≠ idx → in_chunk idx' (range pos (pos + take)) = [].
Proof.
  intros H1 H2. assert (Hj : Forall (fun j => j / chunk_size = idx) (range pos (pos + take))).
  { apply Forall_forall. intros j Hj%elem_of_range. apply chunk_index. lia. }
  unfold in_chunk. split.
  - induction Hj as [|j l Hj _ IH]; [done|]. cbn. rewrite Hj, N.eqb_refl. by f_equal.
  - intros idx' Hne. induction Hj as [|j l Hj _ IH]; [done|]. cbn. rewrite Hj.
    destruct (N.eqb_spec idx idx'); [congruence|done].
Qed.

Lemma partial_ok_other P Q idx o :
  in_chunk idx Q = [] → partial_ok P idx o → partial_ok (P ++ Q) idx o.
Proof.
  intros HQ. unfold partial_ok. rewrite in_chunk_app, HQ, app_nil_r. destruct o as [p|]; [|done].
  intros (Hc&Hl&[Hf Ha]). split_and!; try done. split; [done|]. intros j [Hj|Hj]%elem_of_app Hi Hz; [by apply Ha|].
  assert (Hin : j ∈ in_chunk idx Q) by (by apply elem_of_in_chunk). rewrite HQ in Hin. by apply not_elem_of_nil in Hin.
Qed.

(** The fragments after one more part of the chunk. *)
Lemma frags_ok_add P idx frags pos take b :
  frags_ok idx P frags → idx * chunk_size ≤ pos → pos + take ≤ idx * chunk_size + len idx → 0 < take →
  b = cut img pos take → is_all_zero b = false →
  frags_ok idx (P ++ range pos (pos + take)) (frags ++ [((pos - idx * chunk_size) mod 2 ^ 32, b)]).
Proof.
  intros [Hf Ha] H1 H2 Ht Hb Hz. unfold chunk_len in H2.
  rewrite N.mod_small by (pose proof Hu32; lia).
  assert (Hbl : N.of_nat (length b) = take) by (rewrite Hb, cut_length; lia).
  split.
  - apply Forall_app. split; [done|]. constructor; [|constructor]. cbn. rewrite Hbl.
    replace (idx * chunk_size + (pos - idx * chunk_size)) with pos by lia.
    split_and!; try done. unfold chunk_len. lia.
  - intros j [Hj|Hj%elem_of_range]%elem_of_app Hi Hnz; apply Exists_app; [left; by apply Ha|].
    right. constructor. unfold covers. cbn. rewrite Hbl. lia.
Qed.

Lemma frags_ok_zero P idx frags pos take :
  frags_ok idx P frags → pos + take ≤ total → is_all_zero (cut img pos take) = true →
  frags_ok idx (P ++ range pos (pos + take)) frags.
Proof.
  intros [Hf Ha] H2 Hz. split; [done|]. intros j [Hj|Hj%elem_of_range]%elem_of_app Hi Hnz; [by apply Ha|].
  exfalso. apply is_all_zero_spec in Hz.
  assert (Hl : (N.to_nat j < length img)%nat) by lia. apply lookup_lt_is_Some_2 in Hl as [x Hx].
  assert (Hc : cut img pos take !! (N.to_nat j - N.to_nat pos)%nat = Some x).
  { rewrite cut_lookup, decide_True by lia. rewrite <- Hx. f_equal. lia. }
  rewrite Hz in Hc. apply lookup_replicate in Hc as [-> _]. done.
Qed.

(** What is new in a chunk's partial. *)
Definition new_data (frag : option bytes) : option bytes :=
  match frag with Some b => if is_all_zero b then None else Some b | None => None end.

Definition new_frags (frags : list (N * bytes)) (off : N) (frag : option bytes) : list (N * bytes) :=
  match new_data frag with Some b => frags ++ [(off mod 2 ^ 32, b)] | None => frags end.

Lemma new_frags_ok P idx frags pos take frag :
  frags_ok idx P frags → idx * chunk_size ≤ pos → pos + take ≤ idx * chunk_size + len idx → 0 < take →
  match frag with Some b => b = cut img pos take | None => is_all_zero (cut img pos take) = true end →
  frags_ok idx (P ++ range pos (pos + take)) (new_frags frags (pos - idx * chunk_size) frag).
Proof.
  intros Hf H1 H2 Ht Hb. unfold new_frags, new_data. unfold chunk_len in H2. destruct frag as [b|].
  - destruct (is_all_zero b) eqn:E.
    + apply frags_ok_zero; [done|lia|by rewrite <- Hb].
    + apply frags_ok_add; try done.
  - apply frags_ok_zero; [done|lia|done].
Qed.

Lemma frag_bytes_app l l' : frag_bytes (l ++ l') = frag_bytes l + frag_bytes l'.
Proof. unfold frag_bytes. induction l as [|f l IH]; [done|]. cbn. rewrite IH. apply N.add_assoc. Qed.

Lemma new_frags_bytes frags off frag pos take :
  pos + take ≤ total →
  match frag with Some b => b = cut img pos take | None => True end →
  frag_bytes (new_frags frags off frag) =
    frag_bytes frags + match new_data frag with Some _ => take | None => 0 end.
Proof.
  intros Ht Hb. unfold new_frags. destruct frag as [b|]; cbn [new_data]; [|lia].
  destruct (is_all_zero b); [lia|]. rewrite frag_bytes_app. f_equal. unfold frag_bytes. cbn [foldr snd].
  rewrite Hb, cut_length. lia.
Qed.

Lemma emit_freed idx n p : (emit chunk_size idx n p).2 = frag_bytes (p_frags p).
Proof. unfold emit. by destruct (p_frags p). Qed.

(** The state with a chunk still partial, and with it sent. *)
Section moves.
Context (s : RegionChunker) (P Q order : list N) (idx : N) (p : Partial) (high : N).
Hypothesis Hinv : region_inv s P order.
Hypothesis Hni : idx ∉ order.
Hypothesis Hnd : NoDup (P ++ Q).
Hypothesis Hrange : Forall (fun j => j < total) (P ++ Q).
Hypothesis Hother : ∀ idx', idx' ≠ idx → in_chunk idx' Q = [].

Lemma full_mono order' :
  Forall (fun idx => idx * chunk_size < total ∧ ∀ j, j / chunk_size = idx → j < total → j ∈ P) order' →
  Forall (fun idx => idx * chunk_size < total ∧ ∀ j, j / chunk_size = idx → j < total → j ∈ P ++ Q) order'.
Proof.
  intros H. eapply Forall_impl; [exact H|]. intros i [Hi Hall]. split; [done|].
  intros j Hj Ht. apply elem_of_app. left. by apply Hall.
Qed.

Lemma region_keep b :
  partial_ok (P ++ Q) idx (Some p) →
  b + frag_bytes (p_frags (default (MkPartial 0 []) (rc_partials s !! idx))) = rc_buffered s + frag_bytes (p_frags p) →
  region_inv (s <| rc_partials := <[idx := p]> (rc_partials s) |> <| rc_buffered := b |> <| rc_high_water := high |>)
    (P ++ Q) order.
Proof.
  intros Hp Hb. destruct Hinv as [_ _ Hod He Hfull Hgone Hpart Hbuf]. split; cbn; try done.
  - by apply full_mono.
  - apply Forall_forall. intros i Hi. rewrite lookup_insert_ne by congruence.
    rewrite Forall_forall in Hgone. by apply Hgone.
  - intros i Hi. destruct (decide (i = idx)) as [->|Hne]; [by rewrite lookup_insert_eq|].
    rewrite lookup_insert_ne by congruence. apply partial_ok_other; auto.
  - pose proof (buffered_insert (rc_partials s) idx p). lia.
Qed.

Lemma region_send b :
  idx * chunk_size < total → (∀ j, j / chunk_size = idx → j < total → j ∈ P ++ Q) →
  b + frag_bytes (p_frags (default (MkPartial 0 []) (rc_partials s !! idx))) = rc_buffered s →
  region_inv (s <| rc_partials := delete idx (rc_partials s) |> <| rc_emitted := {[idx]} ∪ rc_emitted s |>
      <| rc_buffered := b |> <| rc_high_water := high |>)
    (P ++ Q) (order ++ [idx]).
Proof.
  intros Hlt Hall Hb. destruct Hinv as [_ _ Hod He Hfull Hgone Hpart Hbuf]. split; cbn; try done.
  - apply NoDup_app. split_and!; [done| |apply NoDup_singleton]. intros i Hi. rewrite list_elem_of_singleton. congruence.
  - intros i. rewrite elem_of_union, elem_of_singleton, He, elem_of_app, list_elem_of_singleton. tauto.
  - apply Forall_app. split; [by apply full_mono|]. by repeat constructor.
  - apply Forall_app. split.
    + eapply Forall_impl; [exact Hgone|]. intros i Hi. apply lookup_delete_None. by right.
    + constructor; [apply lookup_delete_eq|constructor].
  - intros i [Hi Hne]%not_elem_of_app. rewrite list_elem_of_singleton in Hne. rewrite lookup_delete_ne by congruence.
    apply partial_ok_other; auto.
  - pose proof (buffered_delete (rc_partials s) idx). lia.
Qed.

End moves.

Lemma cover_chunk_ok s P order pos take frag :
  region_inv s P order → 0 < take →
  pos + take ≤ pos / chunk_size * chunk_size + len (pos / chunk_size) →
  (∀ j, j ∈ range pos (pos + take) → j ∉ P) →
  match frag with Some b => b = cut img pos take | None => is_all_zero (cut img pos take) = true end →
  match cover_chunk chunk_size total s pos take frag with
  | Err e => e = CapExceeded
  | Ok (s', sent) => rc_covered_total s' = rc_covered_total s ∧
      ∃ order', region_inv s' (P ++ range pos (pos + take)) (order ++ order') ∧ sent = message <$> order'
  end.
Proof.
  intros [Hnd Hr Hod He Hfull Hgone Hpart Hbuf] Ht Hend Hdis Hfrag.
  set (idx := pos / chunk_size) in *.
  assert (Hlo : idx * chunk_size ≤ pos).
  { unfold idx. rewrite N.mul_comm. apply N.Div0.mul_div_le. }
  assert (Hpt : pos + take ≤ total) by (unfold chunk_len in Hend; lia).
  destruct (in_chunk_run idx pos take Hlo Hend) as [Hrun Hother].
  assert (Hnew : NoDup (P ++ range pos (pos + take))).
  { apply NoDup_app. split_and!; [done| |apply NoDup_range]. intros j Hj Hj'. by eapply Hdis. }
  assert (Hrng : Forall (fun j => j < total) (P ++ range pos (pos + take))).
  { apply Forall_app. split; [done|]. apply Forall_forall. intros j Hj%elem_of_range. lia. }
  assert (Hni : idx ∉ order).
  { intros Hin. rewrite Forall_forall in Hfull. destruct (Hfull _ Hin) as [_ Hall].
    apply (Hdis pos); [apply elem_of_range; lia|]. apply Hall; [done|lia]. }
  assert (Hcount : N.of_nat (length (in_chunk idx (P ++ range pos (pos + take)))) =
    N.of_nat (length (in_chunk idx P)) + take).
  { rewrite in_chunk_app, Hrun, length_app. unfold range. rewrite length_fmap, length_seq. lia. }
  pose proof (in_chunk_bound idx _ Hnew Hrng) as Hbound.
  pose proof (Hpart _ Hni) as Hp. unfold cover_chunk. fold idx.
  rewrite bool_decide_eq_false_2 by (by rewrite He).
  set (entry := default (MkPartial 0 []) (rc_partials s !! idx)).
  assert (Hentry : p_covered entry = N.of_nat (length (in_chunk idx P)) ∧ frags_ok idx P (p_frags entry)).
  { unfold entry. destruct (rc_partials s !! idx) as [p|]; cbn in *; [by destruct Hp as (?&_&?)|].
    rewrite Hp. split; [done|]. split; [constructor|]. intros j Hj Hi.
    assert (Hin : j ∈ in_chunk idx P) by (by apply elem_of_in_chunk). rewrite Hp in Hin. by apply not_elem_of_nil in Hin. }
  destruct Hentry as [Hcov Hfo]. rewrite Hcov, <- Hcount.
  destruct (N.ltb_spec (len idx) (N.of_nat (length (in_chunk idx (P ++ range pos (pos + take)))))); [lia|].
  change (match match frag with Some b => if is_all_zero b then None else Some b | None => None end with
    | Some b => p_frags entry ++ [((pos - idx * chunk_size) mod 2 ^ 32, b)] | None => p_frags entry end)
    with (new_frags (p_frags entry) (pos - idx * chunk_size) frag).
  change (match frag with Some b => if is_all_zero b then None else Some b | None => None end) with (new_data frag).
  pose proof (new_frags_ok P idx (p_frags entry) pos take frag Hfo Hlo Hend Ht Hfrag) as Hfo'.
  pose proof (new_frags_bytes (p_frags entry) (pos - idx * chunk_size) frag pos take Hpt
    ltac:(by destruct frag)) as Hfb.
  set (frags := new_frags _ _ _) in *.
  set (buffered := match new_data frag with Some _ => rc_buffered s + take | None => rc_buffered s end).
  destruct (match new_data frag with Some _ => PARTIAL_BUFFER_CAP <? _ | None => false end); [done|].
  assert (Hbuf' : buffered + frag_bytes (p_frags entry) = rc_buffered s + frag_bytes frags).
  { rewrite Hfb. unfold buffered. destruct (new_data frag); lia. }
  pose proof (Build_region_inv s P order Hnd Hr Hod He Hfull Hgone Hpart Hbuf) as Hinv.
  destruct (N.eqb_spec (N.of_nat (length (in_chunk idx (P ++ range pos (pos + take))))) (len idx)) as [Heq|Hneq].
  - pose proof (emit_freed idx (len idx) (MkPartial (N.of_nat (length (in_chunk idx (P ++ range pos (pos + take))))) frags)) as Hfree.
    assert (Hall : ∀ j, j / chunk_size = idx → j < total → j ∈ P ++ range pos (pos + take)).
    { intros j. by apply in_chunk_full. }
    pose proof (emit_ok idx _ (N.of_nat (length (in_chunk idx (P ++ range pos (pos + take))))) frags Hall Hfo') as Hmsg.
    destruct (emit _ _ _ _) as [msg freed]. cbn [fst snd p_frags] in Hfree, Hmsg. subst msg freed.
    split; [done|]. exists [idx]. split; [|done]. apply region_send; try done; [lia|].
    pose proof (buffered_delete (rc_partials s) idx) as Hd. fold entry in Hd |- *.
    clearbody buffered entry frags. lia.
  - split; [done|]. exists []. rewrite app_nil_r. split; [|done]. apply region_keep; try done.
    split_and!; [done|cbn; lia|done].
Qed.

(** *** Runs and calls *)

Lemma cut_cut b o n o' n' : o' + n' ≤ n → cut (cut b o n) o' n' = cut b (o + o') n'.
Proof.
  intros H. apply list_eq. intros i. rewrite !cut_lookup. case_decide; [|done].
  rewrite decide_True by lia. f_equal. lia.
Qed.

Lemma zero_cut b o n : is_all_zero b = true → is_all_zero (cut b o n) = true.
Proof.
  unfold is_all_zero, cut. rewrite !List.forallb_forall. intros H x Hx. apply H.
  apply list_elem_of_In. apply list_elem_of_In in Hx.
  apply elem_of_take in Hx as (i&Hi&_). rewrite lookup_drop in Hi. by eapply list_elem_of_lookup_2.
Qed.

Lemma range_nil a b : b ≤ a → range a b = [].
Proof. intros H. unfold range. by replace (N.to_nat (b - a)) with 0%nat by lia. Qed.

(** What holds of a run, or of many. *)
Definition run_ok (s : RegionChunker) (P Q order : list N) (o : list Completed * result RegionChunker RegionError)
    (n : N) : Prop :=
  match o.2 with
  | Err e => e = CapExceeded
  | Ok s' => rc_covered_total s' = rc_covered_total s + n ∧
      ∃ order', region_inv s' (P ++ Q) (order ++ order') ∧ o.1 = message <$> order'
  end.

Lemma cover_loop_ok fuel s P order offset end_ pos b :
  region_inv s P order → offset ≤ pos → pos ≤ end_ → end_ ≤ total →
  (pos < end_ → end_ ≤ (pos / chunk_size + N.of_nat fuel) * chunk_size) →
  (∀ j, j ∈ range pos end_ → j ∉ P) →
  match b with Some b => b = cut img offset (end_ - offset) | None => is_all_zero (cut img offset (end_ - offset)) = true end →
  run_ok s P (range pos end_) order (cover_loop chunk_size total fuel s offset end_ pos b) 0.
Proof.
  revert s P order pos. induction fuel as [|fuel IH]; intros s P order pos Hinv Ho Hpe Het Hfuel Hdis Hb.
  { assert (end_ ≤ pos).
    { destruct (N.lt_ge_cases pos end_) as [Hlt|]; [|done]. specialize (Hfuel Hlt).
      rewrite N.add_0_r in Hfuel. pose proof (N.Div0.mul_div_le pos chunk_size). lia. }
    cbn. split; [lia|]. exists []. by rewrite range_nil, !app_nil_r. }
  cbn [cover_loop]. destruct (N.leb_spec end_ pos) as [Hle|Hlt].
  { cbn. split; [lia|]. exists []. by rewrite range_nil, !app_nil_r. }
  set (idx := pos / chunk_size). set (take := N.min (idx * chunk_size + len idx) end_ - pos).
  destruct (proj1 (chunk_index idx pos)) as [Hlo Hhi]; [split; [done|lia]|].
  assert (Ht : 0 < take) by (unfold take; lia).
  assert (Hsplit : range pos end_ = range pos (pos + take) ++ range (pos + take) end_) by (apply range_app; lia).
  assert (Hc : match cover_chunk chunk_size total s pos take ((fun b => cut b (pos - offset) take) <$> b) with
    | Err e => e = CapExceeded
    | Ok (s', sent) => rc_covered_total s' = rc_covered_total s ∧
        ∃ order', region_inv s' (P ++ range pos (pos + take)) (order ++ order') ∧ sent = message <$> order'
    end).
  { apply cover_chunk_ok; [done|done|fold idx; lia| |].
    - intros j Hj. apply Hdis. rewrite Hsplit. apply elem_of_app. by left.
    - assert (Hsub : cut (cut img offset (end_ - offset)) (pos - offset) take = cut img pos take).
      { rewrite cut_cut by lia. f_equal. lia. }
      destruct b as [bb|]; cbn; [by rewrite Hb|]. rewrite <- Hsub. by apply zero_cut. }
  destruct (cover_chunk _ _ _ _ _ _) as [[s1 sent1]|e]; [|exact Hc]. destruct Hc as [Htot (o1&Hinv1&->)].
  assert (H2 : run_ok s1 (P ++ range pos (pos + take)) (range (pos + take) end_) (order ++ o1)
    (cover_loop chunk_size total fuel s1 offset end_ (pos + take) b) 0).
  { apply IH; [done|lia|lia|done| | |done].
    - intros Hlt2. assert (Hnext : pos + take = (idx + 1) * chunk_size) by (unfold take, chunk_len in *; lia).
      rewrite Hnext, N.div_mul by done. specialize (Hfuel Hlt). fold idx in Hfuel. lia.
    - intros j Hj [Hp|Hp]%elem_of_app; [|apply elem_of_range in Hp; apply elem_of_range in Hj; lia].
      apply (Hdis j); [|done]. rewrite Hsplit. apply elem_of_app. by right. }
  destruct (cover_loop _ _ _ _ _ _ _ _) as [more [s2|e]]; [|exact H2]. destruct H2 as [Htot2 (o2&Hinv2&E)].
  split; [cbn in *; lia|]. exists (o1 ++ o2). rewrite Hsplit. cbn in *.
  split; [by rewrite <- !app_assoc in Hinv2|]. by rewrite E, fmap_app.
Qed.

(** The total counts bytes, and only counts them. *)
Lemma region_inv_total s P order n :
  region_inv s P order → region_inv (s <| rc_covered_total := n |>) P order.
Proof. intros []. by split. Qed.

Lemma cover_ok s P order o n b :
  total < 2 ^ 64 → region_inv s P order → o + n ≤ total → (∀ j, j ∈ range o (o + n) → j ∉ P) →
  match b with Some b => b = cut img o n | None => is_all_zero (cut img o n) = true end →
  run_ok s P (range o (o + n)) order (cover chunk_size total s o n b) n.
Proof.
  intros Hu Hinv Hin Hdis Hb. unfold cover. destruct (N.eqb_spec n 0) as [->|Hn].
  { split; cbn; [lia|]. exists []. by rewrite range_nil, !app_nil_r by lia. }
  rewrite (proj2 (N.leb_gt _ _)), (proj2 (N.ltb_ge _ _)) by lia. cbn [orb].
  apply (region_inv_total _ _ _ (rc_covered_total s + n)) in Hinv.
  pose proof (cover_loop_ok (cover_fuel chunk_size n) _ P order o (o + n) o b Hinv) as H.
  replace (o + n - o) with n in H by lia.
  assert (Hr : run_ok (s <| rc_covered_total := rc_covered_total s + n |>) P (range o (o + n)) order
    (cover_loop chunk_size total (cover_fuel chunk_size n) (s <| rc_covered_total := rc_covered_total s + n |>) o (o + n) o b) 0).
  { apply H; try done; try lia. intros _. unfold cover_fuel. rewrite N2Nat.id.
    pose proof (N.div_mod o chunk_size Hcs) as H1. pose proof (N.mod_lt o chunk_size Hcs).
    pose proof (N.div_mod n chunk_size Hcs) as H3. pose proof (N.mod_lt n chunk_size Hcs). nia. }
  clear H. unfold run_ok in *. destruct (cover_loop _ _ _ _ _ _ _ _) as [sent [s'|e]]; cbn in *; [|done].
  destruct Hr as [-> Hr]. split; [lia|done].
Qed.

Lemma run_call_ok s P order c :
  total < 2 ^ 64 → region_inv s P order → agrees c → Forall (fun j => j < total) (positions c) →
  (∀ j, j ∈ positions c → j ∉ P) →
  run_ok s P (positions c) order (run_call chunk_size total s c) (N.of_nat (length (positions c))).
Proof.
  intros Hu Hinv Ha Hr Hdis.
  assert (Hempty : ∀ o, cover chunk_size total s o 0 None = ([], Ok s)) by done.
  destruct c as [o b|o n]; cbn in *.
  - unfold range at 2. rewrite length_fmap, length_seq, N2Nat.id.
    replace (o + N.of_nat (length b) - o) with (N.of_nat (length b)) by lia.
    destruct (decide (b = [])) as [->|Hne].
    { cbn. split; cbn; [lia|]. exists []. by rewrite range_nil, !app_nil_r by lia. }
    apply cover_ok; try done. rewrite Forall_forall in Hr.
    specialize (Hr (o + N.of_nat (length b) - 1)). rewrite elem_of_range in Hr.
    assert (length b ≠ 0%nat) by (by intros ?%nil_length_inv). lia.
  - unfold range at 2. rewrite length_fmap, length_seq, N2Nat.id.
    replace (o + n - o) with n by lia. destruct (decide (n = 0)) as [->|Hne].
    { cbn. split; cbn; [lia|]. exists []. by rewrite range_nil, !app_nil_r by lia. }
    apply cover_ok; try done. rewrite Forall_forall in Hr.
    specialize (Hr (o + n - 1)). rewrite elem_of_range in Hr. lia.
Qed.

Lemma region_start_inv : region_inv region_start [] [].
Proof.
  split; cbn; [constructor|constructor|constructor| |constructor|constructor| |done].
  - intros idx. by rewrite elem_of_empty, elem_of_nil.
  - intros idx _. by rewrite lookup_empty.
Qed.

(** When every position has come, [finish] succeeds and every chunk is sent. *)
Lemma region_finish_ok s P order :
  region_inv s P order → P ≡ₚ range 0 total → rc_covered_total s = total →
  region_finish total s = Ok (rc_high_water s) ∧ order ≡ₚ range 0 (ceil total chunk_size).
Proof.
  intros [Hnd Hr Hod He Hfull Hgone Hpart _] HP Ht.
  assert (Hall : ∀ idx, idx * chunk_size < total → idx ∈ order).
  { intros idx Hlt. destruct (decide (idx ∈ order)) as [|Hni]; [done|]. exfalso.
    assert (Hlen : N.of_nat (length (in_chunk idx P)) = len idx).
    { apply N.le_antisymm; [by apply in_chunk_bound|].
      assert (Hsub : range (idx * chunk_size) (idx * chunk_size + len idx) ⊆+ in_chunk idx P).
      { apply NoDup_submseteq; [apply NoDup_range|]. intros j Hj%elem_of_range.
        apply chunk_index in Hj as [Hj1 Hj2]. apply elem_of_in_chunk. split; [|done]. rewrite HP. apply elem_of_range. lia. }
      apply submseteq_length in Hsub. unfold range in Hsub. rewrite length_fmap, length_seq in Hsub. lia. }
    pose proof (Hpart idx Hni) as Hp. unfold partial_ok in Hp. destruct (rc_partials s !! idx) as [p|].
    - destruct Hp as (Hc&Hl&_). lia.
    - rewrite Hp in Hlen. unfold chunk_len in Hlen. cbn in Hlen. lia. }
  assert (Hempty : rc_partials s = ∅).
  { apply map_empty. intros idx. destruct (decide (idx * chunk_size < total)) as [Hlt|Hge].
    - rewrite Forall_forall in Hgone. by apply Hgone, Hall.
    - assert (Hni : idx ∉ order).
      { intros Hin. rewrite Forall_forall in Hfull. destruct (Hfull _ Hin). lia. }
      pose proof (Hpart idx Hni) as Hp. destruct (rc_partials s !! idx) as [p|]; [|done].
      destruct Hp as (_&Hl&_). unfold chunk_len in Hl. lia. }
  split.
  - unfold region_finish. by rewrite Ht, N.eqb_refl, bool_decide_eq_true_2 by done.
  - apply NoDup_Permutation; [done|apply NoDup_range|]. intros idx. rewrite elem_of_range, ceil_lt by done. split.
    + intros Hin. rewrite Forall_forall in Hfull. destruct (Hfull _ Hin). lia.
    + intros [_ Hlt]. by apply Hall.
Qed.

End exact.

(** ** The uploader *)

(** The producer's thread: the calls it has left, its chunker, what it is blocked
    on sending, and how it ended. *)
Record Producer := MkProducer {
  pd_calls : list Call;
  pd_chunker : RegionChunker;
  pd_pending : list Completed;
  pd_done : option (result N RegionError);
}.

#[export] Instance eta_Producer : Eta Producer := fun p =>
  MkProducer (pd_calls p) (pd_chunker p) (pd_pending p) (pd_done p).

Record RegionChunkStats := MkRegionStats {
  rs_chunks_uploaded : N; rs_chunks_elided : N; rs_bytes_uploaded : N;
}.

Section uploader.
Context (sha256 : bytes → bytes) (self : ChunkStore).
Context (kind : ManifestKind) (chunk_size total : N).

Inductive produce : Producer → option (result Completed ChunkStoreError.t) → Producer → Prop :=
| pr_send p m rest :
    pd_pending p = m :: rest → produce p (Some (Ok m)) (p <| pd_pending := rest |>)
| pr_call p c cs sent s' :
    pd_pending p = [] → pd_done p = None → pd_calls p = c :: cs →
    run_call chunk_size total (pd_chunker p) c = (sent, Ok s') →
    produce p None (p <| pd_calls := cs |> <| pd_chunker := s' |> <| pd_pending := sent |>)
| pr_call_fail p c cs sent e :
    pd_pending p = [] → pd_done p = None → pd_calls p = c :: cs →
    run_call chunk_size total (pd_chunker p) c = (sent, Err e) →
    produce p None (p <| pd_calls := [] |> <| pd_pending := sent |> <| pd_done := Some (Err e) |>)
| pr_finish p :
    pd_pending p = [] → pd_done p = None → pd_calls p = [] →
    produce p None (p <| pd_done := Some (region_finish total (pd_chunker p)) |>).

(** The channel is closed when the chunker is gone. *)
Definition producer_gone (p : Producer) : Prop := pd_pending p = [] ∧ pd_done p ≠ None.

Definition upload (m : Completed) : task (option ChunkRef) :=
  match m with
  | Chunk offset body =>
      do! h := lift (put_chunk sha256 self body) in Prog.okay (Some (MkChunk offset h))
  | Zero => Prog.okay None
  end.

Definition region_begin (calls : list Call) (w : World) : pipe Producer Completed (option ChunkRef) :=
  MkPipe (MkShared w ∅) (MkProducer calls region_start [] None) [] [] [] None.

Definition region_step := pipe_step sha256 [] produce upload REGION_UPLOAD_CONCURRENCY COMPLETED_CHANNEL_DEPTH.

Definition body_bytes (m : Completed) : N :=
  match m with Chunk _ b => N.of_nat (length b) | Zero => 0 end.
Definition is_zero (m : Completed) : bool := match m with Zero => true | Chunk _ _ => false end.

Definition region_result (fin : list (Completed * list (event treq) * option ChunkRef)) :
    Manifest.t * RegionChunkStats :=
  let msgs := (fun x => x.1.1) <$> fin in
  ((Manifest.empty kind total) <| Manifest.chunk_size := chunk_size |>
     <| Manifest.chunks := sort_refs (omap id fin.*2) |>,
   MkRegionStats (N.of_nat (length (List.filter (fun m => negb (is_zero m)) msgs)))
     (N.of_nat (length (List.filter is_zero msgs))) (foldr N.add 0 (body_bytes <$> msgs))).

(** What the uploader's task may return: [Ok] as soon as the channel is closed
    and drained, however the producer ended. *)
Inductive region_chunker (calls : list Call) (w : World) :
    World → option (result N RegionError) → result (Manifest.t * RegionChunkStats) ChunkStoreError.t → Prop :=
| rg_failed p e :
    rtc region_step (region_begin calls w) p → pi_failed p = Some e →
    region_chunker calls w (sh_world (pi_shared p)) (pd_done (pi_producer p)) (Err e)
| rg_done p :
    rtc region_step (region_begin calls w) p → complete producer_gone p →
    region_chunker calls w (sh_world (pi_shared p)) (pd_done (pi_producer p))
      (Ok (region_result (pi_finished p))).

End uploader.

Section upload_correct.
Context (sha256 : bytes → bytes) (self : ChunkStore) (kind : ManifestKind).
Context (chunk_size : N) (img : bytes) (calls : list Call).
Hypothesis sha256_wf : ∀ b, wf_hash (sha256 b).
Hypothesis Hcs : chunk_size ≠ 0.
Hypothesis Hu32 : chunk_size ≤ 2 ^ 32.
Notation total := (N.of_nat (length img)).
Hypothesis Hu64 : total < 2 ^ 64.
(** Every byte of the image is emitted once, as it is. *)
Hypothesis Honce : calls ≫= positions ≡ₚ range 0 total.
Hypothesis Hagree : Forall (agrees img) calls.

(** What the producer has sent. *)
Definition sent_so_far (p : Producer) (l : list Completed) : Prop :=
  match pd_done p with
  | Some (Err e) => e = CapExceeded
  | Some (Ok _) =>
      ∃ order, order ≡ₚ range 0 (ceil total chunk_size) ∧ l ++ pd_pending p = message chunk_size img <$> order
  | None =>
      ∃ P order, region_inv chunk_size img (pd_chunker p) P order ∧
        rc_covered_total (pd_chunker p) = N.of_nat (length P) ∧
        P ++ (pd_calls p ≫= positions) ≡ₚ range 0 total ∧ Forall (agrees img) (pd_calls p) ∧
        l ++ pd_pending p = message chunk_size img <$> order
  end.

Lemma next_call_ok s P order c cs :
  region_inv chunk_size img s P order → P ++ ((c :: cs) ≫= positions) ≡ₚ range 0 total →
  Forall (agrees img) (c :: cs) →
  run_ok chunk_size img s P (positions c) order (run_call chunk_size total s c) (N.of_nat (length (positions c))) ∧
  Forall (agrees img) cs.
Proof.
  intros Hinv HP [Ha Has]%Forall_cons. split; [|done]. cbn in HP.
  assert (Hnd : NoDup (P ++ positions c ++ (cs ≫= positions))) by (rewrite HP; apply NoDup_range).
  apply NoDup_app in Hnd as (_&Hdis&_). apply run_call_ok; try done.
  - apply Forall_forall. intros j Hj. assert (Hjr : j ∈ range 0 total) by (rewrite <- HP; set_solver).
    apply elem_of_range in Hjr. lia.
  - intros j Hj Hj'. apply (Hdis j Hj'). apply elem_of_app. by left.
Qed.

Lemma produce_sent p it p' l :
  produce chunk_size total p it p' → sent_so_far p l →
  match it with Some (Ok x) => sent_so_far p' (l ++ [x]) | _ => sent_so_far p' l end.
Proof.
  intros [p0 m rest Hp|p0 c cs sent s' Hp Hd Hc Hr|p0 c cs sent e Hp Hd Hc Hr|p0 Hp Hd Hc] Hs; unfold sent_so_far in *; cbn.
  - rewrite Hp in Hs. destruct (pd_done p0) as [[h|e]|]; [|done|].
    + destruct Hs as (order&Ho&E). exists order. by rewrite <- app_assoc.
    + destruct Hs as (P&order&?&?&?&?&E). exists P, order. by rewrite <- app_assoc.
  - rewrite Hd in *. destruct Hs as (P&order&Hinv&Hl&HP&Ha&E). rewrite Hp, app_nil_r in E. rewrite Hc in HP, Ha.
    destruct (next_call_ok _ _ _ _ _ Hinv HP Ha) as (Hok&Has). rewrite Hr in Hok.
    destruct Hok as [Ht (order'&Hinv'&E')]. cbn in Ht, E', HP. exists (P ++ positions c), (order ++ order').
    split_and!; try done.
    + rewrite Ht, Hl, length_app. lia.
    + by rewrite <- app_assoc.
    + by rewrite E, E', fmap_app.
  - rewrite Hd in *. destruct Hs as (P&order&Hinv&Hl&HP&Ha&E). rewrite Hc in HP, Ha.
    destruct (next_call_ok _ _ _ _ _ Hinv HP Ha) as (Hok&_). by rewrite Hr in Hok.
  - rewrite Hd in *. destruct Hs as (P&order&Hinv&Hl&HP&Ha&E). rewrite Hc in HP. cbn in HP. rewrite app_nil_r in HP.
    destruct (region_finish_ok chunk_size img Hcs Hu32 (pd_chunker p0) P order Hinv HP) as [-> Ho].
    + rewrite Hl, HP. unfold range. rewrite length_fmap, length_seq. lia.
    + by exists order.
Qed.

(** An upload of a message. *)
Definition entry_of (m : Completed) : option ChunkRef :=
  match m with Chunk o b => Some (MkChunk o (sha256 b)) | Zero => None end.

Definition region_uploaded (m : Completed) (h : list (event treq)) (r : option ChunkRef) : Prop :=
  r = entry_of m ∧ ∀ c, r = Some c → Stored (ChunkHash.storage_key (hash c)) ∈ facts h.

Lemma upload_ok m :
  Prog.wp (task_ans sha256 []) (task_can sha256) [] (upload sha256 self m)
    (fun h r => match r with Ok a => region_uploaded m h a | Err _ => True end).
Proof.
  destruct m as [o b|]; [|by apply Prog.wp_ret]. unfold upload.
  eapply (twp_try _ _ _ _ _ (fun r D => match r with
    | Ok h => h = sha256 b ∧ Stored (ChunkHash.storage_key (sha256 b)) ∈ D | Err _ => True end)); [| |done].
  - apply put_chunk_correct; [done|by split|done].
  - intros h ? [-> HD] _ _. apply Prog.wp_ret. split; [done|]. by intros c [= <-].
Qed.

Notation start w := (region_begin calls w).
Notation step := (region_step sha256 self chunk_size total).

Lemma region_pipe_inv w p :
  cache_clean sha256 w → rtc step (start w) p →
  pipe_inv sha256 [] (MkShared w ∅) sent_so_far region_uploaded p.
Proof.
  intros Hcl Hr. eapply (pipe_sound _ _ _ _ _ _ _ _ (fun _ => True)); [..|exact Hr|].
  - intros pr x pr' l Hp Hl. apply (produce_sent _ _ _ _ Hp Hl).
  - intros pr e pr' l Hp Hl. apply (produce_sent _ _ _ _ Hp Hl).
  - intros pr pr' l Hp Hl. apply (produce_sent _ _ _ _ Hp Hl).
  - intros pr l _. by apply Forall_true.
  - intros x _. apply upload_ok.
  - apply pipe_init; [done|]. exists [], []. split_and!; try done. apply region_start_inv.
Qed.

Lemma entry_message idx : entry_of (message chunk_size img idx) = chunk_ref sha256 chunk_size img idx.
Proof. unfold message, chunk_ref. by destruct (is_all_zero _). Qed.

(** The entries of a run whose producer finished. *)
Lemma region_complete w p high :
  cache_clean sha256 w → rtc step (start w) p → complete producer_gone p →
  pd_done (pi_producer p) = Some (Ok high) →
  (fun x => x.1.1) <$> pi_finished p ≡ₚ message chunk_size img <$> range 0 (ceil total chunk_size) ∧
  omap id (pi_finished p).*2 ≡ₚ image_chunks sha256 chunk_size img ∧
  ∀ c, c ∈ image_chunks sha256 chunk_size img →
    is_Some (objects (sh_world (pi_shared p)) !! ChunkHash.storage_key (hash c)).
Proof.
  intros Hcl Hr (_&[Hpend _]&Hq&Hi) Hd. destruct (region_pipe_inv w p Hcl Hr) as [_ _ Hf _ _ (l&HJ&Hl)].
  unfold sent_so_far in HJ. rewrite Hd, Hpend, app_nil_r in HJ. destruct HJ as (order&Ho&->).
  unfold items in Hl. rewrite Hq, Hi in Hl. cbn in Hl.
  assert (Hmsgs : (fun x => x.1.1) <$> pi_finished p ≡ₚ message chunk_size img <$> range 0 (ceil total chunk_size)).
  { by rewrite <- Hl, Ho. }
  assert (Hent : omap id (pi_finished p).*2 ≡ₚ image_chunks sha256 chunk_size img).
  { assert (E : omap id (pi_finished p).*2 = omap entry_of ((fun x => x.1.1) <$> pi_finished p)).
    { clear -Hf. induction Hf as [|x l [_ [E _]] _ IH]; [done|]. cbn. unfold id at 1. rewrite E.
      destruct (entry_of _); [f_equal|]; exact IH. }
    rewrite E, Hmsgs. unfold image_chunks. clear.
    induction (range 0 (ceil total chunk_size)) as [|i l IH]; [done|]. cbn. rewrite entry_message.
    destruct (chunk_ref _ _ _ _); [by f_equiv|done]. }
  split_and!; [done|done|]. intros c Hc. rewrite <- Hent in Hc. apply list_elem_of_omap in Hc as (r&Hin&Er).
  unfold id in Er. subst r. apply list_elem_of_fmap in Hin as (x&Ex&Hx).
  rewrite Forall_forall in Hf. destruct (Hf _ Hx) as [[Hk _] [_ Hs]]. rewrite Forall_forall in Hk.
  apply (Hk (Stored _)), Hs. by rewrite <- Ex.
Qed.

(** The manifest of a run whose producer finished. *)
Lemma region_manifest w w' high m st :
  cache_clean sha256 w →
  region_chunker sha256 self kind chunk_size total calls w w' (Some (Ok high)) (Ok (m, st)) →
  m = Manifest.Mk MANIFEST_SCHEMA_VERSION kind chunk_size total (image_chunks sha256 chunk_size img) None None JNull ∧
  rs_chunks_uploaded st + rs_chunks_elided st = ceil total chunk_size ∧
  (∀ c, c ∈ Manifest.chunks m → is_Some (objects w' !! ChunkHash.storage_key (hash c))).
Proof.
  intros Hcl Hrg. inversion Hrg as [|p Hr Hdone E1 E2 E3]; subst. symmetry in E2 || idtac.
  destruct (region_complete w p high Hcl Hr Hdone) as (Hmsgs&Hent&Hst); [congruence|].
  assert (Hch : sort_refs (omap id (pi_finished p).*2) = image_chunks sha256 chunk_size img).
  { apply sort_refs_perm; [done|]. by apply image_chunks_sorted. }
  cbn. rewrite Hch. split_and!; try done.
  assert (Hlen : ∀ l, N.of_nat (length (List.filter (fun m => negb (is_zero m)) l)) +
    N.of_nat (length (List.filter is_zero l)) = N.of_nat (length l)).
  { induction l as [|x l IH]; cbn; [done|]. destruct (is_zero x); cbn; lia. }
  rewrite Hlen, Hmsgs, length_fmap. unfold range. rewrite length_fmap, length_seq. lia.
Qed.

(** C13. Regions build the manifest the file would.  For calls that emit every byte
    of an image once, in any order and split anywhere, a chunk run whose producer
    finished and whose uploader returned leaves the manifest of the image, every
    chunk of it stored and counted; and chunking a file of the same bytes returns
    that very manifest, with the same [content_ref]. *)
Theorem region_equals_file w w' high m st f w1 w1' cache m1 st1 :
  cache_clean sha256 w → cache_clean sha256 w1 →
  region_chunker sha256 self kind chunk_size total calls w w' (Some (Ok high)) (Ok (m, st)) →
  chunk_file_into sha256 self cache kind chunk_size f total w1 w1' (Val (m1, st1)) → cut f 0 total = img →
  describes sha256 m img ∧
  (∀ c, c ∈ Manifest.chunks m → is_Some (objects w' !! ChunkHash.storage_key (hash c))) ∧
  rs_chunks_uploaded st + rs_chunks_elided st = ceil total chunk_size ∧
  m1 = m ∧ Manifest.content_ref sha256 m1 = Manifest.content_ref sha256 m.
Proof.
  intros Hcl Hcl1 Hrg Hcf Hf. destruct (region_manifest w w' high m st Hcl Hrg) as (Hm&Hcount&Hst).
  assert (Hm1 : m1 = m).
  { destruct (chunk_file_shape sha256 self cache kind chunk_size f total sha256_wf w1 w1' m1 st1 Hcl1 Hcf) as [-> _].
    by rewrite Hm, Hf. }
  split_and!; try done; [|by rewrite Hm1]. rewrite Hm. by split.
Qed.

(** The producer fails only when its buffer is over the cap: a run of calls that
    cover every byte once ends with [finish] succeeding or with that error. *)
Lemma region_only_cap w p :
  cache_clean sha256 w → rtc step (start w) p →
  match pd_done (pi_producer p) with Some (Err e) => e = CapExceeded | _ => True end.
Proof.
  intros Hcl Hr. destruct (region_pipe_inv w p Hcl Hr) as [_ _ _ _ _ (l&HJ&_)].
  unfold sent_so_far in HJ. by destruct (pd_done (pi_producer p)) as [[]|].
Qed.

End upload_correct.

(** Coverage is counted, not checked: two regions that overlap in a chunk pass
    for a full cover.  Over an image of four bytes in one chunk, the calls
    [data(0, [1, 2])] and [data(0, [3, 4])] are accepted, [finish] succeeds, and
    the chunk sent has zeros where no call ever wrote. *)
Theorem region_overlap_accepted :
  ∃ s, run_calls 4 4 region_start [Data 0 [1; 2]; Data 0 [3; 4]] = ([Chunk 0 [3; 4; 0; 0]], Ok s) ∧
    region_finish 4 s = Ok 4.
Proof. eexists. split; vm_compute; reflexivity. Qed.

(** ** A region run *)

Definition demo_calls : list Call := [Zeros 2 2; Data 4 [5]; Data 0 [7]; Data 1 [7]].
Definition demo_end : RegionChunker :=
  match run_calls 2 5 region_start demo_calls with (_, Ok s) => s | _ => region_start end.
Definition demo_region : pipe Producer Completed (option ChunkRef) :=
  run_queue [] (upload demo_hash demo_store) (MkShared (MkWorld ∅ ∅ ∅) ∅)
    (MkProducer [] demo_end [] (Some (Ok 2))) [Ok Zero; Ok (Chunk 4 [5]); Ok (Chunk 0 [7; 7])] [].

Lemma demo_region_steps :
  rtc (region_step demo_hash demo_store 2 5) (region_begin demo_calls (MkWorld ∅ ∅ ∅)) demo_region.
Proof.
  unfold region_begin, demo_calls.
  eapply rtc_l; [eapply pp_work; [done|eapply pr_call; [done|done|done|vm_compute; reflexivity]]|].
  eapply rtc_l; [eapply pp_send; [done|eapply pr_send; vm_compute; reflexivity|vm_compute; lia]|].
  eapply rtc_l; [eapply pp_work; [done|eapply pr_call; [done|done|done|vm_compute; reflexivity]]|].
  eapply rtc_l; [eapply pp_send; [done|eapply pr_send; vm_compute; reflexivity|vm_compute; lia]|].
  eapply rtc_l; [eapply pp_work; [done|eapply pr_call; [done|done|done|vm_compute; reflexivity]]|].
  eapply rtc_l; [eapply pp_work; [done|eapply pr_call; [done|done|done|vm_compute; reflexivity]]|].
  eapply rtc_l; [eapply pp_send; [done|eapply pr_send; vm_compute; reflexivity|vm_compute; lia]|].
  eapply rtc_l; [eapply pp_work; [done|eapply pr_finish; done]|].
  apply run_queue_steps. unfold REGION_UPLOAD_CONCURRENCY. lia.
Qed.

Lemma region_equals_file_witness :
  ∃ w' st w1', region_chunker demo_hash demo_store Memory 2 5 demo_calls (MkWorld ∅ ∅ ∅) w' (Some (Ok 2))
      (Ok (demo_prev, st)) ∧
    chunk_file_into demo_hash demo_store true Memory 2 demo_img 5 (MkWorld ∅ ∅ ∅) w1' (Val (demo_prev, MkStats 5 2 3)) ∧
    describes demo_hash demo_prev demo_img ∧
    rs_chunks_uploaded st = 2 ∧ rs_chunks_elided st = 1.
Proof.
  assert (Hrg : region_chunker demo_hash demo_store Memory 2 5 demo_calls (MkWorld ∅ ∅ ∅)
    (sh_world (pi_shared demo_region)) (Some (Ok 2)) (Ok (demo_prev, MkRegionStats 2 1 3))).
  { assert (E : region_result Memory 2 5 (pi_finished demo_region) = (demo_prev, MkRegionStats 2 1 3)) by (by vm_compute).
    rewrite <- E. apply (rg_done _ _ _ _ _ _ _ demo_region); [apply demo_region_steps|]. split_and!; by vm_compute. }
  assert (Hcf : chunk_file_into demo_hash demo_store true Memory 2 demo_img 5 (MkWorld ∅ ∅ ∅)
    (sh_world (pi_shared demo_upload)) (Val (demo_prev, MkStats 5 2 3))).
  { assert (E : file_result Memory 2 5 (pi_finished demo_upload) = (demo_prev, MkStats 5 2 3)) by (by vm_compute).
    rewrite <- E. apply cf_done; [done|apply demo_upload_steps|]. split_and!; try by vm_compute. by eexists. }
  destruct (region_equals_file demo_hash demo_store Memory 2 demo_img demo_calls demo_hash_wf ltac:(done) ltac:(vm_compute; done)
    ltac:(vm_compute; done) ltac:(vm_compute; solve_Permutation) ltac:(repeat constructor) _ _ _ _ _ demo_img _ _ _ _ _
    (empty_clean demo_hash) (empty_clean demo_hash) Hrg Hcf eq_refl) as (Hd&_).
  eexists _, _, _. split; [exact Hrg|]. split; [exact Hcf|]. by split_and!.
Defined.
