(* ===== verification/Bytes.v ===== *)
(** * Bytes

    What the egress proxy uses of the Rust standard library on byte slices and
    strings.  A [bytes] is a [&[u8]], or the UTF-8 bytes of a [&str]; an index is
    a [nat]. *)

From S2P Require Import Prelude.
From Stdlib Require Import Ascii DecimalString DecimalN.

Notation bytes := (list N) (only parsing).

(** A string literal, [b"..."] or ["..."]. *)
Definition lit (s : string) : bytes := N_of_ascii <$> String.list_ascii_of_string s.
Arguments lit s%_string_scope : simpl never.

Definition CR : N := 13.
Definition LF : N := 10.
Definition CRLF : bytes := [13; 10]%N.

(** ** Prefixes, suffixes and substrings *)

(** [slice::starts_with], [str::starts_with]. *)
Fixpoint starts_with (p s : bytes) : bool :=
  match p, s with
  | [], _ => true
  | a :: p', b :: s' => (a =? b)%N && starts_with p' s'
  | _ :: _, [] => false
  end.

Definition strip_prefix (p s : bytes) : option bytes :=
  if starts_with p s then Some (drop (length p) s) else None.

(** [slice::ends_with], [str::ends_with]. *)
Definition ends_with (p s : bytes) : bool := starts_with (reverse p) (reverse s).

Definition strip_suffix (p s : bytes) : option bytes :=
  if ends_with p s then Some (take (length s - length p) s) else None.

(** [str::find], and [windows(n.len()).position(|w| w == n)] for [n] not empty. *)
Fixpoint find_sub (n s : bytes) : option nat :=
  if starts_with n s then Some O
  else match s with
       | [] => None
       | _ :: s' => S <$> find_sub n s'
       end.

Definition contains (n s : bytes) : bool := bool_decide (is_Some (find_sub n s)).

(** [iter().position(|b| b == c)]. *)
Fixpoint find_byte (c : N) (s : bytes) : option nat :=
  match s with
  | [] => None
  | b :: s' => if (b =? c)%N then Some O else S <$> find_byte c s'
  end.

(** [str::split_once]. *)
Definition split_once (n s : bytes) : option (bytes * bytes) :=
  (fun i => (take i s, drop (i + length n) s)) <$> find_sub n s.

(** [split(c)] on one byte: at least one part. *)
Fixpoint split_byte (c : N) (s : bytes) : list bytes :=
  match s with
  | [] => [[]]
  | b :: s' =>
      match split_byte c s' with
      | [] => []
      | part :: parts => if (b =? c)%N then [] :: part :: parts else (b :: part) :: parts
      end
  end.

(** [split("\r\n")], from the front. *)
Fixpoint split_crlf_from (skip : bool) (s : bytes) : list bytes :=
  match s with
  | [] => [[]]
  | b :: s' =>
      if skip then split_crlf_from false s'
      else if starts_with CRLF s then [] :: split_crlf_from true s'
      else match split_crlf_from false s' with
           | [] => []
           | part :: parts => (b :: part) :: parts
           end
  end.

Definition split_crlf : bytes → list bytes := split_crlf_from false.

(** ** Letters and white space *)

Definition is_upper (b : N) : bool := ((65 <=? b) && (b <=? 90))%N.
Definition lower_byte (b : N) : N := if is_upper b then (b + 32)%N else b.
Definition to_ascii_lowercase (s : bytes) : bytes := lower_byte <$> s.
Definition eq_ignore_ascii_case (a b : bytes) : bool :=
  bool_decide (to_ascii_lowercase a = to_ascii_lowercase b).

(** [u8::is_ascii_whitespace]. *)
Definition is_ascii_whitespace (b : N) : bool :=
  ((b =? 32) || (b =? 9) || (b =? 10) || (b =? 12) || (b =? 13))%N.

Fixpoint drop_while (f : N → bool) (s : bytes) : bytes :=
  match s with
  | [] => []
  | b :: s' => if f b then drop_while f s' else s
  end.

Definition drop_end_while (f : N → bool) (s : bytes) : bytes :=
  reverse (drop_while f (reverse s)).

Definition trim_ascii (s : bytes) : bytes :=
  drop_end_while is_ascii_whitespace (drop_while is_ascii_whitespace s).

(** [trim_end_matches('.')]. *)
Definition trim_end_dots (s : bytes) : bytes := drop_end_while (N.eqb 46) s.

(** The UTF-8 encodings of the characters [char::is_whitespace] accepts. *)
Definition white_space : list bytes :=
  ([[9]; [10]; [11]; [12]; [13]; [32]; [194; 133]; [194; 160]; [225; 154; 128];
    [226; 128; 128]; [226; 128; 129]; [226; 128; 130]; [226; 128; 131]; [226; 128; 132];
    [226; 128; 133]; [226; 128; 134]; [226; 128; 135]; [226; 128; 136]; [226; 128; 137];
    [226; 128; 138]; [226; 128; 168]; [226; 128; 169]; [226; 128; 175]; [226; 129; 159];
    [227; 128; 128]])%N.

Fixpoint strip_any (fuel : nat) (ws : list bytes) (s : bytes) : bytes :=
  match fuel with
  | O => s
  | S fuel' =>
      match List.find (fun w => starts_with w s) ws with
      | Some w => strip_any fuel' ws (drop (length w) s)
      | None => s
      end
  end.

(** [str::trim]. *)
Definition trim (s : bytes) : bytes :=
  let t := strip_any (length s) white_space s in
  reverse (strip_any (length t) (reverse <$> white_space) (reverse t)).

(** [str::split_ascii_whitespace]. *)
Fixpoint words (s : bytes) (cur : bytes) : list bytes :=
  match s with
  | [] => match cur with [] => [] | _ => [reverse cur] end
  | b :: s' =>
      if is_ascii_whitespace b
      then match cur with [] => words s' [] | _ => reverse cur :: words s' [] end
      else words s' (b :: cur)
  end.

Definition split_ascii_whitespace (s : bytes) : list bytes := words s [].

(** ** UTF-8 *)

Definition in_range (lo hi b : N) : bool := ((lo <=? b) && (b <=? hi))%N.

Definition continues (s : bytes) (i : nat) : bool := in_range 128 191 (nth i s 0%N).

(** The first character of a non-empty slice: whether it is well formed, and how
    many bytes it takes, or how many bytes the ill-formed start takes. *)
Definition utf8_char (s : bytes) : bool * nat :=
  let b := nth 0 s 0%N in
  let b1 := nth 1 s 0%N in
  if (b <? 128)%N then (true, 1%nat)
  else if in_range 194 223 b then
    if continues s 1 then (true, 2%nat) else (false, 1%nat)
  else if in_range 224 239 b then
    let ok := if (b =? 224)%N then in_range 160 191 b1
              else if (b =? 237)%N then in_range 128 159 b1
              else in_range 128 191 b1 in
    if negb ok then (false, 1%nat)
    else if continues s 2 then (true, 3%nat) else (false, 2%nat)
  else if in_range 240 244 b then
    let ok := if (b =? 240)%N then in_range 144 191 b1
              else if (b =? 244)%N then in_range 128 143 b1
              else in_range 128 191 b1 in
    if negb ok then (false, 1%nat)
    else if negb (continues s 2) then (false, 2%nat)
    else if continues s 3 then (true, 4%nat) else (false, 3%nat)
  else (false, 1%nat).

Fixpoint utf8_lossy (fuel : nat) (s : bytes) : bytes :=
  match fuel, s with
  | S fuel', _ :: _ =>
      let '(ok, k) := utf8_char s in
      (if ok then take k s else [239; 191; 189]%N) ++ utf8_lossy fuel' (drop k s)
  | _, _ => []
  end.

(** [String::from_utf8_lossy]. *)
Definition from_utf8_lossy (s : bytes) : bytes := utf8_lossy (length s) s.

Fixpoint utf8_valid (fuel : nat) (s : bytes) : bool :=
  match fuel, s with
  | S fuel', _ :: _ =>
      let '(ok, k) := utf8_char s in ok && utf8_valid fuel' (drop k s)
  | _, _ => true
  end.

(** [str::from_utf8]. *)
Definition from_utf8 (s : bytes) : option bytes :=
  if utf8_valid (length s) s then Some s else None.

(** ** Numbers *)

Definition usize_max : N := 18446744073709551615.
Definition u16_max : N := 65535.

(** [char::to_digit]. *)
Definition to_digit (radix b : N) : option N :=
  let d := if in_range 48 57 b then Some (b - 48)%N
           else if in_range 97 122 b then Some (b - 87)%N
           else if in_range 65 90 b then Some (b - 55)%N
           else None in
  match d with
  | Some n => if (n <? radix)%N then Some n else None
  | None => None
  end.

Fixpoint digits_value (radix max acc : N) (s : bytes) : option N :=
  match s with
  | [] => Some acc
  | b :: s' =>
      match to_digit radix b with
      | Some d =>
          let acc' := (acc * radix + d)%N in
          if (max <? acc')%N then None else digits_value radix max acc' s'
      | None => None
      end
  end.

(** [from_str_radix] of an unsigned type whose greatest value is [max]: a plus
    sign may come first, and there is at least one digit. *)
Definition from_str_radix (radix max : N) (s : bytes) : option N :=
  let digits := match s with
                | 43%N :: s' => s'
                | _ => s
                end in
  match digits with
  | [] => None
  | _ => digits_value radix max 0 digits
  end.

Definition parse_usize : bytes → option N := from_str_radix 10 usize_max.
Definition parse_u16 : bytes → option N := from_str_radix 10 u16_max.

(** [to_string] of a number. *)
Definition dec_bytes (n : N) : bytes := lit (NilEmpty.string_of_uint (N.to_uint n)).

(** ** Lemmas *)

(** [n] is somewhere in [s]. *)
Definition occurs (n s : bytes) : Prop := ∃ a b, s = a ++ n ++ b.

Lemma starts_with_app p t : starts_with p (p ++ t) = true.
Proof. induction p as [|a p IH]; cbn; [done|]. by rewrite N.eqb_refl. Qed.

Lemma starts_with_inv p s : starts_with p s = true → s = p ++ drop (length p) s.
Proof.
  revert s. induction p as [|a p IH]; intros [|b s]; cbn; try done.
  intros [->%N.eqb_eq H]%andb_prop. by f_equal; apply IH.
Qed.

Lemma starts_with_spec p s : starts_with p s = true ↔ ∃ t, s = p ++ t.
Proof. split; [eauto using starts_with_inv|]. intros [t ->]. apply starts_with_app. Qed.

Lemma starts_with_short p s : (length s < length p)%nat → starts_with p s = false.
Proof.
  intros H. apply not_true_iff_false. intros [t ->]%starts_with_spec. rewrite length_app in H. lia.
Qed.

Lemma starts_with_take p s : starts_with p s = true ↔ take (length p) s = p.
Proof.
  rewrite starts_with_spec. split.
  - intros [t ->]. apply take_app_length.
  - intros H. exists (drop (length p) s). rewrite <- H at 1. by rewrite take_drop.
Qed.

(** A prefix that fits in the front part is a prefix of it. *)
Lemma starts_with_front p a b :
  (length p ≤ length a)%nat → starts_with p (a ++ b) = starts_with p a.
Proof.
  intros H. apply eq_bool_prop_intro. rewrite !Is_true_true, !starts_with_take.
  by rewrite take_app_le by done.
Qed.

Lemma find_sub_Some n s i :
  find_sub n s = Some i →
  starts_with n (drop i s) = true ∧ (i ≤ length s)%nat ∧
  ∀ j, (j < i)%nat → starts_with n (drop j s) = false.
Proof.
  revert i. induction s as [|b s IH]; intros i; cbn [find_sub]; destruct (starts_with n _) eqn:E.
  - intros [= <-]. split_and!; [done|lia|lia].
  - done.
  - intros [= <-]. split_and!; [done|lia|lia].
  - intros (i'&H&->)%fmap_Some. destruct (IH _ H) as (H1&H2&H3). split_and!; [done|cbn; lia|].
    intros [|j] Hj; [done|]. apply H3. lia.
Qed.

Lemma find_sub_None n s j :
  find_sub n s = None → (j ≤ length s)%nat → starts_with n (drop j s) = false.
Proof.
  revert j. induction s as [|b s IH]; intros j; cbn [find_sub]; destruct (starts_with n _) eqn:E; try done.
  - intros _ Hj. cbn in Hj. by replace j with O by lia.
  - intros H%fmap_None Hj. destruct j as [|j]; [done|]. apply IH; [done|]. cbn in Hj. lia.
Qed.

Lemma find_sub_cut n s i :
  find_sub n s = Some i → s = take i s ++ n ++ drop (i + length n) s.
Proof.
  intros (H&_&_)%find_sub_Some. rewrite <- (take_drop i s) at 1. f_equal.
  by rewrite (starts_with_inv _ _ H) at 1; rewrite drop_drop.
Qed.

Lemma find_sub_is_Some n s : is_Some (find_sub n s) ↔ occurs n s.
Proof.
  split.
  - intros [i H%find_sub_cut]. eexists _, _. exact H.
  - intros (a&b&->). destruct (find_sub n _) eqn:E; [done|].
    pose proof (find_sub_None _ _ (length a) E) as H. rewrite drop_app_length, starts_with_app in H.
    rewrite length_app in H. discriminate H. lia.
Qed.

Lemma contains_spec n s : contains n s = true ↔ occurs n s.
Proof. unfold contains. by rewrite bool_decide_eq_true, find_sub_is_Some. Qed.

Lemma ends_with_spec p s : ends_with p s = true ↔ ∃ t, s = t ++ p.
Proof.
  unfold ends_with. rewrite starts_with_spec. split.
  - intros [t H]. exists (reverse t). by rewrite <- (reverse_involutive s), H, reverse_app, reverse_involutive.
  - intros [t ->]. exists (reverse t). by rewrite reverse_app.
Qed.

Lemma strip_suffix_spec p s t : strip_suffix p s = Some t ↔ s = t ++ p.
Proof.
  unfold strip_suffix. destruct (ends_with p s) eqn:E.
  - apply ends_with_spec in E as [u ->]. rewrite length_app, Nat.add_sub, take_app_length. split.
    + by intros [= ->].
    + by intros ->%app_inv_tail.
  - split; [done|]. intros ->. rewrite <- not_true_iff_false, ends_with_spec in E. destruct E. by exists t.
Qed.

Lemma strip_prefix_spec p s t : strip_prefix p s = Some t ↔ s = p ++ t.
Proof.
  unfold strip_prefix. destruct (starts_with p s) eqn:E.
  - rewrite (starts_with_inv _ _ E) at 2. split; [by intros [= <-]|]. by intros ->%app_inv_head.
  - split; [done|]. intros ->. by rewrite starts_with_app in E.
Qed.

Lemma lower_byte_idemp b : lower_byte (lower_byte b) = lower_byte b.
Proof. unfold lower_byte, is_upper. repeat case_match; bool_prop; rewrite ?N.leb_le, ?N.leb_gt in *; lia. Qed.

Lemma to_ascii_lowercase_idemp s :
  to_ascii_lowercase (to_ascii_lowercase s) = to_ascii_lowercase s.
Proof.
  unfold to_ascii_lowercase. rewrite <- list_fmap_compose. apply list_fmap_ext. intros i b _. apply lower_byte_idemp.
Qed.

Lemma find_byte_Some c s i :
  find_byte c s = Some i → s = take i s ++ c :: drop (S i) s ∧ c ∉ take i s.
Proof.
  revert i. induction s as [|b s IH]; intros i; cbn [find_byte]; [done|].
  destruct (N.eqb_spec b c) as [->|Hne].
  - intros [= <-]. cbn. split; [done|]. set_solver.
  - intros (j&Hj&->)%fmap_Some. destruct (IH _ Hj) as [H1 H2]. cbn. split; [by f_equal|].
    rewrite elem_of_cons. intros [->|H]; done.
Qed.

Lemma find_byte_None c s : find_byte c s = None ↔ c ∉ s.
Proof.
  induction s as [|b s IH]; cbn [find_byte]; [split; [set_solver|done]|].
  destruct (N.eqb_spec b c) as [->|Hne]; [set_solver|]. rewrite fmap_None, IH. set_solver.
Qed.
