(* ===== verification/EgressPolicy.v ===== *)
(** * Egress policy

    The pure decisions of the egress proxy: which hosts a list admits
    ([policy.rs]), which Google surfaces mint credentials ([google_denylist.rs]),
    and which requests a policy covers ([registry.rs], [RequestPolicy]). *)

From S2P Require Import Prelude Bytes.

(** ** Host lists *)

Inductive ParseError :=
| Empty
| UnsupportedWildcard (s : bytes).

Module HostSpec.

Inductive t :=
| Exact (want : bytes)
| Wildcard (suffix : bytes).

#[export] Instance t_eq_dec : EqDecision t.
Proof. solve_decision. Defined.

Definition parse (raw : bytes) : result t ParseError :=
  let s := trim raw in
  if bool_decide (s = []) then Err Empty
  else match strip_prefix (lit "*.") s with
       | Some rest =>
           if bool_decide (rest = []) || contains (lit "*") rest then Err (UnsupportedWildcard raw)
           else Ok (Wildcard (lit "." ++ to_ascii_lowercase rest))
       | None =>
           if contains (lit "*") s then Err (UnsupportedWildcard raw)
           else Ok (Exact (to_ascii_lowercase s))
       end.

Definition matches (self : t) (hostname : bytes) : bool :=
  let h := to_ascii_lowercase hostname in
  match self with
  | Exact want => bool_decide (want = h)
  | Wildcard suffix =>
      match strip_suffix suffix h with
      | None => false
      | Some label => negb (bool_decide (label = [])) && negb (contains (lit ".") label)
      end
  end.

End HostSpec.

Module HostList.

Record t := Mk { specs : list HostSpec.t }.

Definition empty : t := Mk [].

Fixpoint parse_all (l : list bytes) : result (list HostSpec.t) ParseError :=
  match l with
  | [] => Ok []
  | h :: l' =>
      let? spec := HostSpec.parse h in
      let? specs := parse_all l' in
      Ok (spec :: specs)
  end.

(** An exact host among the patterns is a mistake in the manifest. *)
Fixpoint parse_patterns (l : list bytes) : result (list HostSpec.t) ParseError :=
  match l with
  | [] => Ok []
  | p :: l' =>
      let? spec := HostSpec.parse p in
      match spec with
      | HostSpec.Exact _ =>
          Err (UnsupportedWildcard
            (p ++ lit " (in allow_host_patterns; use allow_hosts for exact matches)"))
      | HostSpec.Wildcard _ =>
          let? specs := parse_patterns l' in
          Ok (spec :: specs)
      end
  end.

Definition from_manifest (allow_hosts allow_host_patterns : list bytes) : result t ParseError :=
  let? exact := parse_all allow_hosts in
  let? patterns := parse_patterns allow_host_patterns in
  Ok (Mk (exact ++ patterns)).

Definition matches (self : t) (hostname : bytes) : bool :=
  existsb (fun s => HostSpec.matches s hostname) (specs self).

Definition is_empty (self : t) : bool := bool_decide (specs self = []).

End HostList.

(** ** The Google deny list *)

Module GoogleDenylist.

Record OperationRule := MkRule {
  host : bytes;
  methods : list bytes;
  path_prefixes : list bytes;
  path_contains : list bytes;
  path_suffixes : list bytes;
}.

Definition family (patterns : list bytes) (hit : bytes → bool) : bool :=
  bool_decide (patterns = []) || existsb hit patterns.

Definition rule_matches (self : OperationRule) (method path : bytes) : bool :=
  if negb (bool_decide (methods self = []))
     && negb (existsb (fun allowed => eq_ignore_ascii_case allowed method) (methods self))
  then false
  else family (path_prefixes self) (fun p => starts_with p path)
       && family (path_contains self) (fun p => contains p path)
       && family (path_suffixes self) (fun p => ends_with p path).

Definition denied_hosts : list bytes :=
  lit <$> ["sts.googleapis.com"; "oauth2.googleapis.com"; "accounts.google.com";
           "securetoken.googleapis.com"; "iamcredentials.googleapis.com"]%string.

Definition denied_operations : list OperationRule :=
  [ MkRule (lit "*.googleapis.com") [] [] []
      (lit <$> [":generateaccesstoken"; ":generateidtoken"; ":signblob"; ":signjwt"]%string);
    MkRule (lit "*.googleapis.com") [] []
      (lit <$> ["/google.iam.credentials.v1.iamcredentials/"; "/google.identity.sts.v1.";
                "/google.iam.admin.v1.iam/createserviceaccountkey";
                "/google.iam.admin.v1.iam/uploadserviceaccountkey";
                "/google.iam.admin.v1.iam/signblob"; "/google.iam.admin.v1.iam/signjwt"]%string) [];
    MkRule (lit "www.googleapis.com") [] [lit "/oauth2/"] [] [lit "/token"];
    MkRule (lit "iam.googleapis.com") [lit "POST"] [] [lit "/serviceaccountkeys"] [];
    MkRule (lit "iam.googleapis.com") [lit "POST"] [] [lit "/serviceaccounts/"] [lit "/keys"];
    MkRule (lit "identitytoolkit.googleapis.com") [lit "POST"] [] (lit <$> [":signin"; ":signup"]%string) [] ].

Definition normalize_host (h : bytes) : bytes :=
  let h := to_ascii_lowercase (trim_end_dots h) in
  match split_once (lit ".mtls.") h with
  | Some (head, tail) => head ++ lit "." ++ tail
  | None => h
  end.

Definition host_matches (pattern h : bytes) : bool :=
  match strip_prefix (lit "*.") pattern with
  | Some suffix => ends_with suffix h && (length suffix <? length h)%nat
  | None => bool_decide (h = pattern)
  end.

Definition denies_host (sni : bytes) : bool :=
  existsb (fun pattern => host_matches pattern (normalize_host sni)) denied_hosts.

Definition requires_inspection (sni : bytes) : bool :=
  existsb (fun rule => negb (starts_with (lit "*.") (host rule)) && host_matches (host rule) (normalize_host sni))
    denied_operations.

(** One round of percent decoding. *)
Fixpoint decode_once (s : bytes) : bytes :=
  match s with
  | [] => []
  | b :: s' =>
      match s' with
      | h :: l :: rest =>
          match (if (b =? 37)%N then to_digit 16 h else None), to_digit 16 l with
          | Some high, Some low => (high * 16 + low)%N :: decode_once rest
          | _, _ => b :: decode_once s'
          end
      | _ => b :: decode_once s'
      end
  end.

Fixpoint decode_rounds (n : nat) (s : bytes) : bytes :=
  match n with
  | O => s
  | S n' =>
      let d := decode_once s in
      if bool_decide (d = s) then s else decode_rounds n' d
  end.

Definition path_without_query (path : bytes) : bytes := default path (head (split_byte 63 path)).

Definition normalized_operation_path (path : bytes) : bytes :=
  to_ascii_lowercase (from_utf8_lossy (decode_rounds 3 (path_without_query path))).

Definition denies_operation (sni method path : bytes) : bool :=
  let h := normalize_host sni in
  let path := normalized_operation_path path in
  existsb (fun rule => host_matches (host rule) h && rule_matches rule method path) denied_operations.

Definition METHOD_OVERRIDE_HEADERS : list bytes :=
  lit <$> ["x-http-method-override"; "x-method-override"; "x-http-method"]%string.

Definition is_method_override_header (name : bytes) : bool :=
  existsb (fun header => eq_ignore_ascii_case name header) METHOD_OVERRIDE_HEADERS.

End GoogleDenylist.

(** ** Request policies *)

(** [glob_match_with]: the loop, with a backtrack point at the last star. *)
Section glob.
Context (p t : bytes) (star_matches_slash : bool).

Fixpoint glob_loop (fuel : nat) (pi ti : nat) (star : option nat) (star_ti : nat) : option bool :=
  match fuel with
  | O => None
  | S fuel' =>
      match t !! ti with
      | Some c =>
          if bool_decide (p !! pi = Some 42%N) then glob_loop fuel' (S pi) ti (Some pi) ti
          else if bool_decide (p !! pi = Some c) then glob_loop fuel' (S pi) (S ti) star star_ti
          else match star with
               | Some s =>
                   if negb star_matches_slash && bool_decide (t !! star_ti = Some 47%N) then Some false
                   else glob_loop fuel' (S s) (S star_ti) (Some s) (S star_ti)
               | None => Some false
               end
      | None => Some (bool_decide (drop_while (N.eqb 42) (drop pi p) = []))
      end
  end.

End glob.

(** Every round advances in the pattern or the text, or moves the star one
    byte to the right. *)
Definition glob_fuel (p t : bytes) : nat :=
  S (length t * (length p + length t + 1) + (length p + length t)).

Definition glob_match_with (pattern text : bytes) (star_matches_slash : bool) : bool :=
  default false (glob_loop pattern text star_matches_slash (glob_fuel pattern text) 0 0 None 0).

Definition glob_match (pattern text : bytes) : bool := glob_match_with pattern text true.
Definition segment_glob_match (pattern text : bytes) : bool := glob_match_with pattern text false.

Inductive GraphqlOperation := Query | Mutation | Subscription.

#[export] Instance GraphqlOperation_eq_dec : EqDecision GraphqlOperation.
Proof. solve_decision. Defined.

Definition parse_operation (s : bytes) : option GraphqlOperation :=
  let l := to_ascii_lowercase s in
  if bool_decide (l = lit "query") then Some Query
  else if bool_decide (l = lit "mutation") then Some Mutation
  else if bool_decide (l = lit "subscription") then Some Subscription
  else None.

Record GraphqlMatch := MkGraphql { operation : GraphqlOperation; field : bytes }.

Definition graphql_matches (self : GraphqlMatch) (o : GraphqlOperation) (f : bytes) : bool :=
  bool_decide (operation self = o) && bool_decide (field self = f).

Module RequestPolicy.

Record t := Mk {
  methods : list bytes;
  path_globs : list bytes;
  graphql : option GraphqlMatch;
}.

Definition method_matches (self : t) (method : bytes) : bool :=
  bool_decide (methods self = []) || existsb (fun m => eq_ignore_ascii_case m method) (methods self).

Definition pattern_matches (path pattern : bytes) : bool :=
  match strip_prefix (lit "segment-path:") pattern with
  | Some pattern =>
      segment_glob_match pattern
        match split_once (lit "?") path with Some (path, _) => path | None => path end
  | None =>
      match strip_prefix (lit "segment:") pattern with
      | Some pattern => segment_glob_match pattern path
      | None => glob_match pattern path
      end
  end.

Definition path_matches (self : t) (path : bytes) : bool :=
  bool_decide (path_globs self = []) || existsb (pattern_matches path) (path_globs self).

Definition allows (self : t) (method path : bytes) : bool :=
  method_matches self method && path_matches self path.

End RequestPolicy.

(** ** What a glob means *)

Definition star_takes (slash : bool) (c : N) : Prop := slash = true ∨ c ≠ 47%N.

(** A star stands for any run of bytes, without a slash unless stars match
    slashes; every other byte of the pattern stands for itself. *)
Inductive glob_matches (slash : bool) : bytes → bytes → Prop :=
| gm_end : glob_matches slash [] []
| gm_lit c p t : c ≠ 42%N → glob_matches slash p t → glob_matches slash (c :: p) (c :: t)
| gm_star p s t : Forall (star_takes slash) s → glob_matches slash p t →
    glob_matches slash (42%N :: p) (s ++ t).

Section glob_correct.
Context (slash : bool).
Notation "p ≃ t" := (glob_matches slash p t) (at level 70).

Lemma glob_star_iff p t :
  42%N :: p ≃ t ↔ p ≃ t ∨ ∃ c t', t = c :: t' ∧ star_takes slash c ∧ 42%N :: p ≃ t'.
Proof.
  split.
  - inversion 1 as [| |? s t' Hs Hm]; subst; [done|]. destruct s as [|c s]; [by left|].
    apply Forall_cons in Hs as [??]. right. exists c, (s ++ t'). split_and!; [done..|]. by constructor.
  - intros [H|(c&t'&->&Hc&H)]; [by apply (gm_star _ _ [])|].
    inversion H as [| |? s t'' Hs Hm]; subst; [done|].
    apply (gm_star slash p (c :: s)); [by constructor|done].
Qed.

Lemma glob_lit_iff c p t : c ≠ 42%N → c :: p ≃ t ↔ ∃ t', t = c :: t' ∧ p ≃ t'.
Proof.
  intros Hc. split.
  - inversion 1; subst; [|done]. eauto.
  - intros (t'&->&H). by constructor.
Qed.

Lemma glob_nil_iff t : [] ≃ t ↔ t = [].
Proof. split; [by inversion 1|]. intros ->. constructor. Qed.

(** A match of a literal and more. *)
Lemma glob_literal L p t : 42%N ∉ L → L ++ p ≃ t ↔ ∃ t', t = L ++ t' ∧ p ≃ t'.
Proof.
  intros HL. revert t. induction L as [|c L IH]; intros t; cbn [app].
  - split; [by exists t|]. by intros (t'&->&H).
  - rewrite not_elem_of_cons in HL. destruct HL as [Hc HL].
    rewrite glob_lit_iff by done. split.
    + intros (t'&->&H). apply IH in H as (t''&->&?); [by exists t''|done].
    + intros (t'&->&H). eexists. split; [done|]. apply IH; eauto.
Qed.

(** If the literal that follows a star is at the front of the text, a match in
    which the star takes more can be had with the star empty and the next star
    taking what is between: what the first star may take, so may the second. *)
Lemma glob_star_shift L p t t1 :
  42%N ∉ L → t = L ++ t1 → 42%N :: L ++ 42%N :: p ≃ t → 42%N :: p ≃ t1.
Proof.
  intros HL Ht Hm. inversion Hm as [| |? s t' Hs Hm' E1 E2]; subst; [done|].
  apply glob_literal in Hm' as (t2&->&Hm'); [|done].
  assert (Et2 : t2 = drop (length s) t1).
  { rewrite <- (drop_app_length L t1), drop_drop, <- E2, app_assoc, Nat.add_comm, <- length_app.
    by rewrite drop_app_length. }
  destruct s as [|x s]; [cbn in *; by subst|].
  assert (Hall : ∀ q c, (q < length L + length (x :: s))%nat → (L ++ t1) !! q = Some c → star_takes slash c).
  { intros q. induction (lt_wf q) as [q _ IH]. intros c Hq Hc.
    destruct (decide (q < length (x :: s))%nat) as [Hlt|Hge].
    - rewrite <- E2, lookup_app_l in Hc by done. by eapply Forall_lookup_1 in Hs.
    - assert (Hc' : L !! (q - length (x :: s))%nat = Some c).
      { rewrite <- E2, lookup_app_r, lookup_app_l in Hc by lia. done. }
      apply (IH (q - length (x :: s))%nat).
      + cbn in *. lia.
      + cbn in *. lia.
      + by apply lookup_app_l_Some. }
  rewrite <- (take_drop (length (x :: s)) t1), <- Et2.
  inversion Hm' as [| |? s' t' Hs' Hm'']; subst; [done|]. rewrite app_assoc. constructor; [|done].
  apply Forall_app. split; [|done]. apply Forall_lookup. intros q c Hq.
  apply lookup_take_Some in Hq as [Hq Hlt]. apply (Hall (length L + q)%nat); [lia|].
  rewrite lookup_app_r by lia. by replace (_ - _)%nat with q by lia.
Qed.

(** A pattern needs a byte of text for each of its literals. *)
Lemma glob_length L p t : 42%N ∉ L → L ++ p ≃ t → (length L ≤ length t)%nat.
Proof. intros HL (t'&->&_)%glob_literal; [|done]. rewrite length_app. lia. Qed.

Lemma glob_stars p : p ≃ [] ↔ drop_while (N.eqb 42) p = [].
Proof.
  induction p as [|c p IH]; cbn [drop_while]; [split; [done|constructor]|].
  destruct (N.eqb_spec 42 c) as [<-|Hc].
  - rewrite glob_star_iff, <- IH. split; [|by left]. intros [H|(?&?&?&_)]; [done|discriminate].
  - rewrite glob_lit_iff by done. split; [by intros (?&?&_)|done].
Qed.

(** ** The loop *)

Context (p t : bytes).

(** The star at [s] takes the byte at [sti] and matches on. *)
Definition glob_retry (star : option nat) (sti : nat) : Prop :=
  match star with
  | None => False
  | Some s => ∃ c t', drop sti t = c :: t' ∧ star_takes slash c ∧ drop s p ≃ t'
  end.

(** Between the star and the position, the pattern is literal and matched. *)
Definition glob_point (pi ti : nat) (star : option nat) (sti : nat) : Prop :=
  match star with
  | None => True
  | Some s => ∃ L, drop s p = 42%N :: L ++ drop pi p ∧ 42%N ∉ L ∧ drop sti t = L ++ drop ti t
  end.

Record glob_inv (pi ti : nat) (star : option nat) (sti : nat) : Prop := {
  gi_bounds : (pi ≤ length p ∧ ti ≤ length t ∧ sti ≤ ti)%nat;
  gi_point : glob_point pi ti star sti;
  gi_match : p ≃ t ↔ drop pi p ≃ drop ti t ∨ glob_retry star sti;
}.

Definition glob_measure (pi ti sti : nat) : nat :=
  ((length t - sti) * (length p + length t + 1) + (length p - pi) + (length t - ti))%nat.

Lemma glob_inv_start : glob_inv 0 0 None 0.
Proof. split; [lia|done|]. cbn. tauto. Qed.

(** A star in the pattern: the last star is enough to come back to. *)
Lemma glob_inv_star pi ti star sti :
  p !! pi = Some 42%N → glob_inv pi ti star sti → glob_inv (S pi) ti (Some pi) ti.
Proof.
  intros Hp [Hb Hpt Hm]. apply lookup_lt_Some in Hp as Hlt.
  pose proof (drop_S _ _ _ Hp) as Ep. split; [lia|exists []; split_and!; [done|set_solver|done]|].
  rewrite Hm, Ep, glob_star_iff. cbn [glob_retry]. rewrite Ep. split; [|tauto]. intros [H|Hr]; [done|].
  destruct star as [s|]; [|done]. destruct Hpt as (L&Es&HL&Et).
  assert (H : 42%N :: drop (S pi) p ≃ drop ti t).
  { apply (glob_star_shift L _ (drop sti t)); [done|done|]. rewrite <- Ep, <- Es.
    destruct Hr as (c&t'&->&Hc&Hr). rewrite Es in Hr |- *. apply glob_star_iff. right. by exists c, t'. }
  by apply glob_star_iff in H.
Qed.

Lemma glob_inv_lit pi ti star sti c :
  p !! pi = Some c → t !! ti = Some c → c ≠ 42%N → glob_inv pi ti star sti → glob_inv (S pi) (S ti) star sti.
Proof.
  intros Hp Ht Hc [Hb Hpt Hm]. apply lookup_lt_Some in Hp as Hlt. apply lookup_lt_Some in Ht as Hlt'.
  pose proof (drop_S _ _ _ Hp) as Ep. pose proof (drop_S _ _ _ Ht) as Et. split; [lia| |].
  - destruct star as [s|]; [|done]. destruct Hpt as (L&Es&HL&Et'). exists (L ++ [c]).
    rewrite <- !app_assoc. cbn [app]. rewrite <- Ep, <- Et. split_and!; [done| |done]. set_solver.
  - rewrite Hm, Ep, Et, glob_lit_iff by done. split; (intros [H|H]; [|by right]); left.
    + by destruct H as (t'&[= <-]&H).
    + by eexists.
Qed.

(** A mismatch: only the star can still help. *)
Lemma glob_mismatch pi ti c :
  p !! pi ≠ Some 42%N → p !! pi ≠ Some c → t !! ti = Some c → ¬ drop pi p ≃ drop ti t.
Proof.
  intros Hs Hc Ht. rewrite (drop_S _ _ _ Ht). destruct (p !! pi) as [d|] eqn:Hp.
  - rewrite (drop_S _ _ _ Hp), glob_lit_iff by congruence. intros (t'&[= ->]&_). done.
  - rewrite drop_ge by (by apply lookup_ge_None_1). by rewrite glob_nil_iff.
Qed.

Lemma glob_inv_retry pi ti s sti c :
  p !! pi ≠ Some 42%N → p !! pi ≠ Some c → t !! ti = Some c →
  star_takes slash (default 0%N (t !! sti)) → glob_inv pi ti (Some s) sti → glob_inv (S s) (S sti) (Some s) (S sti).
Proof.
  intros Hs Hc Ht Htake [Hb Hpt Hm]. apply lookup_lt_Some in Ht as Hlt.
  destruct (lookup_lt_is_Some_2 t sti ltac:(lia)) as [d Hd]. rewrite Hd in Htake. cbn in Htake.
  pose proof (drop_S _ _ _ Hd) as Ed. destruct Hpt as (L&Es&HL&Et).
  assert (Hps : p !! s = Some 42%N) by (by rewrite <- (Nat.add_0_r s), <- lookup_drop, Es).
  apply lookup_lt_Some in Hps as Hls. split; [lia| |].
  - exists []. split_and!; [|set_solver|done]. by rewrite (drop_S _ _ _ Hps).
  - rewrite Hm. cbn [glob_retry]. rewrite Ed, Es.
    assert (E' : drop (S s) p = L ++ drop pi p) by (rewrite (drop_S _ _ _ Hps) in Es; by injection Es).
    rewrite E', <- glob_star_iff. split.
    + intros [[]%(glob_mismatch _ _ _ Hs Hc Ht)|(c'&t'&[= <- <-]&_&H)]. done.
    + intros H. right. by exists d, (drop (S sti) t).
Qed.

(** At the end of the text the literals after the star need more bytes than
    there are behind it. *)
Lemma glob_inv_end pi ti star sti :
  t !! ti = None → glob_inv pi ti star sti → p ≃ t ↔ drop_while (N.eqb 42) (drop pi p) = [].
Proof.
  intros Ht [Hb Hpt Hm]. apply lookup_ge_None_1 in Ht. rewrite (drop_ge t) in * by done.
  rewrite Hm, <- glob_stars. split; [|by left]. intros [H|Hr]; [done|].
  destruct star as [s|]; [|done]. destruct Hpt as (L&Es&HL&Et). rewrite (drop_ge t ti), app_nil_r in Et by done.
  destruct Hr as (c&t'&Ec&_&Hr). rewrite Es in Hr. exfalso.
  assert (Hl : length L = S (length t')) by (by rewrite <- Et, Ec). clear Et Ec.
  inversion Hr as [| |? s' t'' _ Hr' E1 E2]; subst; [done|]. apply glob_length in Hr'; [|done].
  rewrite length_app in Hl. lia.
Qed.

Lemma glob_loop_correct fuel pi ti star sti :
  glob_inv pi ti star sti → (glob_measure pi ti sti < fuel)%nat →
  ∃ b, glob_loop p t slash fuel pi ti star sti = Some b ∧ (b = true ↔ p ≃ t).
Proof.
  revert pi ti star sti. induction fuel as [|fuel IH]; intros pi ti star sti Hi Hf; [lia|].
  cbn [glob_loop]. destruct (gi_bounds _ _ _ _ Hi) as (Hb1&Hb2&Hb3). unfold glob_measure in *.
  destruct (t !! ti) as [c|] eqn:Ht.
  2:{ eexists. split; [done|]. rewrite bool_decide_eq_true. symmetry. by eapply glob_inv_end. }
  apply lookup_lt_Some in Ht as Hlt.
  case_bool_decide as Hs; [|case_bool_decide as Hc].
  - apply lookup_lt_Some in Hs as Hls. apply IH; [by eapply glob_inv_star|]. nia.
  - apply lookup_lt_Some in Hc as Hls. apply IH; [|nia]. apply glob_inv_lit with c; [done..| |done]. congruence.
  - destruct star as [s|].
    2:{ eexists. split; [done|]. destruct Hi as [_ _ ->]. cbn.
        pose proof (glob_mismatch _ _ _ Hs Hc Ht). split; [done|tauto]. }
    destruct (negb slash && _) eqn:E.
    + eexists. split; [done|]. split; [done|]. destruct Hi as [_ _ ->]. bool_prop.
      intros [[]%(glob_mismatch _ _ _ Hs Hc Ht)|(d&t'&Ed&[?|Hd]&_)]; [congruence|].
      rewrite <- (Nat.add_0_r sti), <- lookup_drop, Ed in H0. by injection H0.
    + apply IH.
      * eapply glob_inv_retry; [done..| |done]. apply andb_false_iff in E as [E|E].
        -- left. by destruct slash.
        -- right. bool_prop. destruct (lookup_lt_is_Some_2 t sti ltac:(lia)) as [d Hd]. rewrite Hd in *. cbn. congruence.
      * nia.
Qed.

End glob_correct.

(** C18. The iterative matcher, which only comes back to the last star it saw,
    decides the meaning of globs, with stars that stop at slashes as with stars
    that do not, and ends within its fuel on every input. *)
Theorem glob_match_correct pattern text slash :
  is_Some (glob_loop pattern text slash (glob_fuel pattern text) 0 0 None 0) ∧
  (glob_match_with pattern text slash = true ↔ glob_matches slash pattern text).
Proof.
  unfold glob_match_with. destruct (glob_loop_correct slash pattern text (glob_fuel pattern text) 0 0 None 0) as (b&->&Hb).
  - apply glob_inv_start.
  - unfold glob_measure, glob_fuel. lia.
  - by split.
Qed.

(** ** What a host list admits *)

(** An entry names a host, in any case, or one label before a suffix. *)
Definition admits (raw h : bytes) : Prop :=
  (42%N ∉ trim raw ∧ to_ascii_lowercase (trim raw) = to_ascii_lowercase h) ∨
  ∃ rest label, trim raw = lit "*." ++ rest ∧ label ≠ [] ∧ 46%N ∉ label ∧
    to_ascii_lowercase h = label ++ lit "." ++ to_ascii_lowercase rest.

Lemma contains_byte c s : contains [c] s = true ↔ c ∈ s.
Proof.
  rewrite contains_spec. split.
  - intros (a&b&->). set_solver.
  - intros (a&b&->)%list_elem_of_split. by exists a, b.
Qed.

Lemma parse_matches raw spec h :
  HostSpec.parse raw = Ok spec → HostSpec.matches spec h = true ↔ admits raw h.
Proof.
  unfold HostSpec.parse, admits. case_bool_decide as He; [done|].
  destruct (strip_prefix (lit "*.") (trim raw)) as [rest|] eqn:Hp.
  - apply strip_prefix_spec in Hp. destruct (bool_decide _ || _) eqn:Hr; [done|]. intros Hok.
    assert (spec = HostSpec.Wildcard (lit "." ++ to_ascii_lowercase rest)) as -> by congruence.
    cbn [HostSpec.matches]. rewrite Hp. destruct (strip_suffix _ _) as [label|] eqn:Hs.
    + apply strip_suffix_spec in Hs.
      rewrite andb_true_iff, !negb_true_iff, bool_decide_eq_false, <- not_true_iff_false, (contains_byte 46).
      split.
      * intros [Hl Hd]. right. exists rest, label. by split_and!.
      * intros [[[] _]|(rest'&l&E&Hl&Hd&Hh)]; [set_solver|]. apply app_inv_head in E. subst rest'.
        rewrite Hh in Hs. apply app_inv_tail in Hs. by subst.
    + split; [done|]. intros [[[] _]|(rest'&l&E&Hl&Hd&Hh)]; [set_solver|]. apply app_inv_head in E. subst rest'.
      apply strip_suffix_spec in Hh. by rewrite Hs in Hh.
  - destruct (contains (lit "*") (trim raw)) eqn:Hc; [done|]. intros [= <-]. cbn [HostSpec.matches].
    rewrite <- not_true_iff_false, (contains_byte 42) in Hc. rewrite bool_decide_eq_true. split.
    + intros H. by left.
    + intros [[_ H]|(rest&l&E&_)]; [done|]. rewrite E in Hc. set_solver.
Qed.

Lemma parse_all_matches hosts l h :
  HostList.parse_all hosts = Ok l →
  existsb (fun s => HostSpec.matches s h) l = true ↔ ∃ raw, raw ∈ hosts ∧ admits raw h.
Proof.
  revert l. induction hosts as [|x hosts IH]; intros l; cbn [HostList.parse_all].
  - intros [= <-]. cbn. split; [done|]. intros (?&?%not_elem_of_nil&_). done.
  - destruct (HostSpec.parse x) as [spec|] eqn:Hx; [|done].
    destruct (HostList.parse_all hosts) as [specs|]; [|done]. intros [= <-]. cbn [existsb].
    rewrite orb_true_iff, (parse_matches _ _ _ Hx), (IH _ eq_refl). set_solver.
Qed.

Lemma parse_patterns_all patterns l :
  HostList.parse_patterns patterns = Ok l → HostList.parse_all patterns = Ok l.
Proof.
  revert l. induction patterns as [|x patterns IH]; intros l; cbn; [done|].
  destruct (HostSpec.parse x) as [[]|]; try done.
  destruct (HostList.parse_patterns patterns); [|done]. by rewrite (IH _ eq_refl).
Qed.

(** A list built from a manifest admits a host exactly if an entry names it, or
    names its suffix with one more label before it; a list that is built has no
    star but the leading label of an entry. *)
Theorem host_list_correct allow_hosts allow_host_patterns l h :
  HostList.from_manifest allow_hosts allow_host_patterns = Ok l →
  HostList.matches l h = true ↔ ∃ raw, raw ∈ allow_hosts ++ allow_host_patterns ∧ admits raw h.
Proof.
  unfold HostList.from_manifest, HostList.matches.
  destruct (HostList.parse_all allow_hosts) as [e|] eqn:He; [|done].
  destruct (HostList.parse_patterns allow_host_patterns) as [p|] eqn:Hp; [|done]. intros [= <-]. cbn.
  rewrite existsb_app, orb_true_iff, (parse_all_matches _ _ _ He),
    (parse_all_matches _ _ _ (parse_patterns_all _ _ Hp)). set_solver.
Qed.

Lemma host_list_correct_witness :
  ∃ l, HostList.matches l (lit "RAW.githubusercontent.com") = true.
Proof.
  eexists. apply (host_list_correct [lit "api.github.com"] [lit "*.GithubUserContent.com"]
    (HostList.Mk [HostSpec.Exact (lit "api.github.com"); HostSpec.Wildcard (lit ".githubusercontent.com")])).
  - vm_compute. reflexivity.
  - exists (lit "*.GithubUserContent.com"). split.
    + apply list_elem_of_In. right. left. reflexivity.
    + right. exists (lit "GithubUserContent.com"), (lit "raw"). split; [vm_compute; reflexivity|].
      split; [discriminate|]. split; [|vm_compute; reflexivity].
      rewrite list_elem_of_In. vm_compute. intuition discriminate.
Defined.

(** ** Spellings of a denied surface *)

(** [e] is [p] with some of its bytes written as percent escapes. *)
Inductive encoded : bytes → bytes → Prop :=
| enc_nil : encoded [] []
| enc_plain b p e : b ≠ 37%N → encoded p e → encoded (b :: p) (b :: e)
| enc_escape h l high low p e :
    to_digit 16 h = Some high → to_digit 16 l = Some low → encoded p e →
    encoded ((high * 16 + low)%N :: p) (37%N :: h :: l :: e).

Lemma decode_encoded p e : encoded p e → GoogleDenylist.decode_once e = p.
Proof.
  induction 1 as [|b p e Hb He IH|h l high low p e Hh Hl He IH]; [done| |].
  - assert (Eb : (b =? 37)%N = false) by (by apply N.eqb_neq).
    destruct e as [|x [|y e]]; cbn [GoogleDenylist.decode_once] in *; rewrite ?Eb; by f_equal.
  - cbn [GoogleDenylist.decode_once]. by rewrite N.eqb_refl, Hh, Hl, IH.
Qed.

Lemma encoded_refl p : 37%N ∉ p → encoded p p.
Proof. induction p as [|b p IH]; [constructor|]. rewrite not_elem_of_cons. intros [? ?]. constructor; auto. Qed.

Lemma decode_rounds_fixed n p : 37%N ∉ p → GoogleDenylist.decode_rounds n p = p.
Proof.
  intros H. destruct n; cbn; [done|]. rewrite (decode_encoded _ _ (encoded_refl _ H)). by rewrite bool_decide_true.
Qed.

Lemma decode_three p e1 e2 e3 :
  encoded p e1 → encoded e1 e2 → encoded e2 e3 → GoogleDenylist.decode_rounds 3 e3 = p.
Proof.
  intros H1%decode_encoded H2%decode_encoded H3%decode_encoded. cbn [GoogleDenylist.decode_rounds].
  rewrite H3, H2, H1. repeat case_bool_decide; congruence.
Qed.

Lemma split_byte_cons c s : ∃ part parts, split_byte c s = part :: parts.
Proof.
  induction s as [|b s (part&parts&IH)]; cbn [split_byte]; [by eexists _, _|]. rewrite IH.
  destruct (b =? c)%N; by eexists _, _.
Qed.

Lemma split_byte_head c p q :
  c ∉ p → (q = [] ∨ ∃ q', q = c :: q') → head (split_byte c (p ++ q)) = Some p.
Proof.
  intros Hp Hq. induction p as [|b p IH]; cbn [app].
  - destruct Hq as [->|[q' ->]]; cbn [split_byte]; [done|].
    destruct (split_byte_cons c q') as (part&parts&->). by rewrite N.eqb_refl.
  - rewrite not_elem_of_cons in Hp. destruct Hp as [Hb Hp]. cbn [split_byte].
    destruct (split_byte_cons c (p ++ q)) as (part&parts&E). rewrite E in IH |- *. specialize (IH Hp).
    injection IH as ->. by rewrite (proj2 (N.eqb_neq b c)).
Qed.

Lemma trim_end_dots_app h dots : dots = replicate (length dots) 46%N → last h ≠ Some 46%N →
  trim_end_dots (h ++ dots) = h.
Proof.
  intros -> Hl. unfold trim_end_dots, drop_end_while. rewrite reverse_app.
  generalize (length dots) as n. intros n. rewrite reverse_replicate.
  assert (H : drop_while (N.eqb 46) (replicate n 46%N ++ reverse h) = reverse h).
  { induction n as [|n IH]; cbn [replicate app drop_while]; [|by rewrite N.eqb_refl].
    destruct h as [|x h _] using rev_ind; [done|]. rewrite reverse_snoc. cbn [drop_while].
    rewrite last_snoc in Hl. by rewrite (proj2 (N.eqb_neq 46 x)) by congruence. }
  by rewrite H, reverse_involutive.
Qed.

(** The mutual-TLS twin of a host: [.mtls] after the first label. *)
Definition mtls_twin (d : bytes) : bytes :=
  match split_once (lit ".") d with
  | Some (a, b) => a ++ lit ".mtls." ++ b
  | None => d
  end.

(** [h] reads as the host [d] or as its twin: in any case, with dots at the end. *)
Definition spells (h d : bytes) : Prop :=
  to_ascii_lowercase (trim_end_dots h) = d ∨ to_ascii_lowercase (trim_end_dots h) = mtls_twin d.

Definition normalized_host (x : bytes) : bytes :=
  match split_once (lit ".mtls.") x with
  | Some (a, b) => a ++ lit "." ++ b
  | None => x
  end.

Lemma denied_twins :
  forallb (fun d => bool_decide (normalized_host d = d) && bool_decide (normalized_host (mtls_twin d) = d))
    GoogleDenylist.denied_hosts = true.
Proof. vm_compute. reflexivity. Qed.

Lemma denied_host_spelled h d :
  d ∈ GoogleDenylist.denied_hosts → spells h d → GoogleDenylist.denies_host h = true.
Proof.
  intros Hd Hs. pose proof denied_twins as Ht. rewrite forallb_forall in Ht.
  rewrite list_elem_of_In in Hd. specialize (Ht _ Hd). bool_prop.
  assert (E : GoogleDenylist.normalize_host h = d).
  { change (GoogleDenylist.normalize_host h) with (normalized_host (to_ascii_lowercase (trim_end_dots h))).
    by destruct Hs as [->| ->]. }
  unfold GoogleDenylist.denies_host. apply existsb_exists. exists d. split; [done|]. rewrite E.
  unfold GoogleDenylist.host_matches. assert (Hw : forallb (fun d => negb (starts_with (lit "*.") d)) GoogleDenylist.denied_hosts = true)
    by (vm_compute; reflexivity).
  rewrite forallb_forall in Hw. specialize (Hw _ Hd). unfold strip_prefix.
  apply negb_true_iff in Hw. rewrite Hw. by rewrite bool_decide_true.
Qed.

(** No spelling gets around the deny list.  A credential host is denied in any
    letter case, with dots at its end and as its mutual-TLS twin; and a request
    path is judged as the path it decodes to, whatever query follows it and with
    its bytes escaped up to three times over. *)
Theorem denylist_spellings :
  (∀ h d, d ∈ GoogleDenylist.denied_hosts → spells h d → GoogleDenylist.denies_host h = true) ∧
  ∀ sni method p e1 e2 e3 q,
    encoded p e1 → encoded e1 e2 → encoded e2 e3 → 37%N ∉ p → 63%N ∉ p → 63%N ∉ e3 →
    (q = [] ∨ ∃ q', q = 63%N :: q') →
    GoogleDenylist.denies_operation sni method (e3 ++ q) = GoogleDenylist.denies_operation sni method p.
Proof.
  split; [exact denied_host_spelled|]. intros sni method p e1 e2 e3 q H1 H2 H3 Hp Hq1 Hq3 Hq.
  assert (E : GoogleDenylist.normalized_operation_path (e3 ++ q) = GoogleDenylist.normalized_operation_path p).
  { unfold GoogleDenylist.normalized_operation_path, GoogleDenylist.path_without_query. do 2 f_equal.
    rewrite (split_byte_head _ e3 q) by done. replace (split_byte 63 p) with (split_byte 63 (p ++ [])) by (by rewrite app_nil_r).
    rewrite split_byte_head by auto. cbn [from_option id]. by rewrite (decode_rounds_fixed 3 p Hp), (decode_three p e1 e2 e3). }
  unfold GoogleDenylist.denies_operation. by rewrite E.
Qed.

Lemma enc_byte b h l p e :
  (match to_digit 16 h, to_digit 16 l with Some x, Some y => Some (x * 16 + y)%N | _, _ => None end) = Some b →
  encoded p e → encoded (b :: p) (37%N :: h :: l :: e).
Proof.
  destruct (to_digit 16 h) eqn:Hh; [|done]. destruct (to_digit 16 l) eqn:Hl; [|done]. intros [= <-]. by constructor.
Qed.

Ltac solve_encoded :=
  vm_compute; repeat first [apply enc_nil | apply enc_byte; [reflexivity|] | apply enc_plain; [discriminate|]].

Lemma denylist_spellings_witness :
  GoogleDenylist.denies_host (lit "STS.mtls.GoogleAPIs.com.") = true ∧
  GoogleDenylist.denies_operation (lit "iam.googleapis.com") (lit "post")
    (lit "/v1/serviceAccounts/a%25252Fkeys?alt=json") = true.
Proof.
  split.
  - apply (proj1 denylist_spellings _ (lit "sts.googleapis.com")).
    + apply list_elem_of_In. left. reflexivity.
    + right. vm_compute. reflexivity.
  - change (lit "/v1/serviceAccounts/a%25252Fkeys?alt=json") with
      (lit "/v1/serviceAccounts/a%25252Fkeys" ++ lit "?alt=json").
    rewrite (proj2 denylist_spellings (lit "iam.googleapis.com") (lit "post") (lit "/v1/serviceAccounts/a/keys")
      (lit "/v1/serviceAccounts/a%2Fkeys") (lit "/v1/serviceAccounts/a%252Fkeys") (lit "/v1/serviceAccounts/a%25252Fkeys")).
    + vm_compute. reflexivity.
    + solve_encoded.
    + solve_encoded.
    + solve_encoded.
    + rewrite list_elem_of_In. vm_compute. intuition discriminate.
    + rewrite list_elem_of_In. vm_compute. intuition discriminate.
    + rewrite list_elem_of_In. vm_compute. intuition discriminate.
    + right. by exists (lit "alt=json").
Defined.
