(* ===== verification/EgressRegistry.v ===== *)
(** * Egress registry

    The per-session state of the egress proxy and the decision it makes for a
    destination ([registry.rs], [app_relay.rs]), the registry of sessions by
    guest address, the control plane that fills it ([engram-egress-proxyd],
    [control.rs]), and the DNS filter in front of it ([dns.rs]). *)

From S2P Require Import Prelude Bytes EgressPolicy.

Notation Ipv4Addr := N (only parsing).

(** ** Session state *)

Inductive CredentialMintSource :=
| Connection (connection_id provider : bytes)
| OauthConnector (connection_id provider : bytes)
| OauthUser (user_id connection_id provider : bytes).

#[export] Instance CredentialMintSource_eq_dec : EqDecision CredentialMintSource.
Proof. solve_decision. Defined.

Record SessionTunnel := MkTunnel {
  tn_id : bytes; tn_connector : bytes; tn_config_json : bytes; tn_mint_source : option CredentialMintSource;
}.

Record AppEndpoint := MkApp { hostname : bytes; port : N }.

Module SecretEntry.
Record t := Mk { placeholder : bytes; real_value : bytes; allow : HostList.t }.
End SecretEntry.

(** The credential cell of an injection: its value and when it expires. *)
Record CredState := MkCred { secret : bytes; expires_at : option DateTime }.

Module InjectEntry.
Record t := Mk {
  header_name : bytes;
  header_template : bytes;
  allow : HostList.t;
  policy : RequestPolicy.t;
  mint_source : option CredentialMintSource;
  cred : CredState;
}.

Definition secret (self : t) : bytes := EgressRegistry.secret (cred self).
End InjectEntry.

Inductive SuccessRule := StatusClass2xx | Always | NoGraphqlErrors.

Record UrlFallback := MkUrlFallback { uf_pattern : bytes; uf_fields : list (bytes * bytes) }.

Module ObserveEntry.
Record t := Mk {
  allow : HostList.t;
  policy : RequestPolicy.t;
  provider : bytes;
  asset_kind : bytes;
  surface : bytes;
  success : SuccessRule;
  data : list (bytes * bytes);
  fetchable : option bytes;
  url_fallback : option UrlFallback;
}.
End ObserveEntry.

Record SessionState := MkSession {
  session_id : SessionId;
  sandbox_id : SandboxId;
  guest_ip : Ipv4Addr;
  network_allow : HostList.t;
  allow_all : bool;
  secrets : list SecretEntry.t;
  injects : list InjectEntry.t;
  observes : list ObserveEntry.t;
  guest_services : list bytes;
  tunnels : list SessionTunnel;
  apps : list AppEndpoint;
}.

(** ** The decision *)

Inductive Decision :=
| Reject
| OwnApp (port : N)
| Bypass
| Intercept (secrets : list SecretEntry.t) (injects : list InjectEntry.t)
    (observes : list ObserveEntry.t) (foreign_placeholders : list bytes).

Definition own_app_port (l : list AppEndpoint) (sni : bytes) : option N :=
  let sni := to_ascii_lowercase (trim_end_dots sni) in
  port <$> List.find (fun a => eq_ignore_ascii_case (hostname a) sni) l.

Definition all_placeholders (self : SessionState) : list bytes :=
  SecretEntry.placeholder <$> secrets self.

Definition foreign_placeholders (self : SessionState) (host : bytes) : list bytes :=
  List.filter (fun placeholder => negb (bool_decide (placeholder = [])))
    (SecretEntry.placeholder <$>
      List.filter (fun entry => negb (HostList.matches (SecretEntry.allow entry) host)) (secrets self)).

Module SessionState.

Definition decide (self : SessionState) (host : bytes) : Decision :=
  match own_app_port (apps self) host with
  | Some port => OwnApp port
  | None =>
      if GoogleDenylist.denies_host host then Reject
      else
        let sec := List.filter (fun s => HostList.matches (SecretEntry.allow s) host) (secrets self) in
        let inj := List.filter (fun i => HostList.matches (InjectEntry.allow i) host) (injects self) in
        let obs := List.filter (fun o => HostList.matches (ObserveEntry.allow o) host) (observes self) in
        match sec, inj, obs with
        | [], [], [] =>
            if allow_all self || HostList.matches (network_allow self) host then
              if GoogleDenylist.requires_inspection host
              then Intercept [] [] [] (foreign_placeholders self host)
              else Bypass
            else Reject
        | _, _, _ => Intercept sec inj obs (foreign_placeholders self host)
        end
  end.

End SessionState.

(** ** The registry *)

Module Registry.

Record t := Mk {
  by_guest_ip : gmap Ipv4Addr SessionState;
  by_session : gmap SessionId Ipv4Addr;
}.

Definition new : t := Mk ∅ ∅.

Definition register (self : t) (state : SessionState) : t :=
  let ip := guest_ip state in
  let old := by_session self !! session_id state in
  let kept := match old with
              | Some old_ip => if bool_decide (old_ip = ip) then by_guest_ip self
                               else delete old_ip (by_guest_ip self)
              | None => by_guest_ip self
              end in
  Mk (<[ip := state]> kept) (<[session_id state := ip]> (by_session self)).

Definition unregister (self : t) (sid : SessionId) : t :=
  match by_session self !! sid with
  | Some ip => Mk (delete ip (by_guest_ip self)) (delete sid (by_session self))
  | None => self
  end.

Definition lookup (self : t) (ip : Ipv4Addr) : option SessionState := by_guest_ip self !! ip.

Definition live_count (self : t) : nat := size (by_session self).

Definition session_ids (self : t) : list SessionId := (map_to_list (by_session self)).*1.

End Registry.

(** ** The control plane *)

Record EgressSecretEntry := MkEgressSecret {
  es_placeholder : bytes; es_real_value : bytes;
  es_allow_hosts : list bytes; es_allow_host_patterns : list bytes;
}.

Record EgressInjectEntry := MkEgressInject {
  ei_secret : bytes; ei_header_name : bytes; ei_header_template : bytes;
  ei_allow_hosts : list bytes; ei_allow_host_patterns : list bytes;
  ei_methods : list bytes; ei_path_globs : list bytes;
  ei_graphql_operation : bytes; ei_graphql_field : bytes;
  ei_mint_source : option CredentialMintSource; ei_expires_at : option DateTime;
}.

Record EgressObserveEntry := MkEgressObserve {
  eo_allow_hosts : list bytes; eo_allow_host_patterns : list bytes;
  eo_methods : list bytes; eo_path_globs : list bytes;
  eo_provider : bytes; eo_asset_kind : bytes; eo_surface : bytes;
  eo_success_status_class : option bytes; eo_success_no_graphql_errors : bool;
  eo_graphql_operation : bytes; eo_graphql_field : bytes;
  eo_data : list (bytes * bytes); eo_fetchable : option bytes; eo_url_fallback : option UrlFallback;
}.

Record SessionEgressPolicy := MkPolicy {
  ep_session_id : SessionId; ep_sandbox_id : SandboxId; ep_guest_ip : Ipv4Addr;
  ep_network_allow_hosts : list bytes; ep_network_allow_host_patterns : list bytes; ep_allow_all : bool;
  ep_secrets : list EgressSecretEntry; ep_injects : list EgressInjectEntry;
  ep_observes : list EgressObserveEntry;
  ep_guest_services : list bytes; ep_tunnels : list SessionTunnel; ep_apps : list AppEndpoint;
}.

(** A GraphQL matcher: none for a REST entry; an error for an operation that
    does not parse. *)
Definition graphql_match (op fld : bytes) : result (option GraphqlMatch) unit :=
  if bool_decide (op = []) then Ok None
  else match parse_operation op with
       | Some o => Ok (Some (MkGraphql o fld))
       | None => Err tt
       end.

Fixpoint translate_secrets (l : list EgressSecretEntry) : result (list SecretEntry.t) ParseError :=
  match l with
  | [] => Ok []
  | s :: l' =>
      let? allow := HostList.from_manifest (es_allow_hosts s) (es_allow_host_patterns s) in
      let? rest := translate_secrets l' in
      Ok (SecretEntry.Mk (es_placeholder s) (es_real_value s) allow :: rest)
  end.

(** An injection with a corrupt operation is skipped. *)
Fixpoint translate_injects (l : list EgressInjectEntry) : result (list InjectEntry.t) ParseError :=
  match l with
  | [] => Ok []
  | i :: l' =>
      let? allow := HostList.from_manifest (ei_allow_hosts i) (ei_allow_host_patterns i) in
      match graphql_match (ei_graphql_operation i) (ei_graphql_field i) with
      | Err _ => translate_injects l'
      | Ok graphql =>
          let? rest := translate_injects l' in
          Ok (InjectEntry.Mk (ei_header_name i) (ei_header_template i) allow
                (RequestPolicy.Mk (ei_methods i) (ei_path_globs i) graphql) (ei_mint_source i)
                (MkCred (ei_secret i) (ei_expires_at i)) :: rest)
      end
  end.

Definition success_rule (o : EgressObserveEntry) : SuccessRule :=
  if eo_success_no_graphql_errors o then NoGraphqlErrors
  else if bool_decide (eo_success_status_class o = Some (lit "2xx")) then StatusClass2xx
  else Always.

Fixpoint translate_observes (l : list EgressObserveEntry) : result (list ObserveEntry.t) ParseError :=
  match l with
  | [] => Ok []
  | o :: l' =>
      let? allow := HostList.from_manifest (eo_allow_hosts o) (eo_allow_host_patterns o) in
      match graphql_match (eo_graphql_operation o) (eo_graphql_field o) with
      | Err _ => translate_observes l'
      | Ok graphql =>
          let? rest := translate_observes l' in
          Ok (ObserveEntry.Mk allow (RequestPolicy.Mk (eo_methods o) (eo_path_globs o) graphql)
                (eo_provider o) (eo_asset_kind o) (eo_surface o) (success_rule o) (eo_data o)
                (eo_fetchable o) (eo_url_fallback o) :: rest)
      end
  end.

Definition translate (p : SessionEgressPolicy) : result SessionState ParseError :=
  let? network := HostList.from_manifest (ep_network_allow_hosts p) (ep_network_allow_host_patterns p) in
  let? sec := translate_secrets (ep_secrets p) in
  let? inj := translate_injects (ep_injects p) in
  let? obs := translate_observes (ep_observes p) in
  Ok (MkSession (ep_session_id p) (ep_sandbox_id p) (ep_guest_ip p) network (ep_allow_all p) sec inj obs
        (ep_guest_services p) (ep_tunnels p) (ep_apps p)).

Definition register_policy (self : Registry.t) (p : SessionEgressPolicy) : result Registry.t ParseError :=
  let? state := translate p in Ok (Registry.register self state).

(** The registry, and the sessions whose tunnels were told to close. *)
Record ControlState := MkControl { registry : Registry.t; closed : list SessionId }.

#[export] Instance eta_ControlState : Eta ControlState := fun s => MkControl (registry s) (closed s).

Definition unregister_session (s : ControlState) (sid : SessionId) : ControlState :=
  s <| registry ::= fun r => Registry.unregister r sid |> <| closed ::= fun l => l ++ [sid] |>.

(** One policy of a sync: a policy that does not translate changes nothing. *)
Definition sync_one (r : Registry.t) (p : SessionEgressPolicy) : Registry.t :=
  match register_policy r p with Ok r' => r' | Err _ => r end.

Definition sync_policies (s : ControlState) (policies : list SessionEgressPolicy) : ControlState :=
  let keep : gset SessionId := list_to_set (ep_session_id <$> policies) in
  let r := fold_left sync_one policies (registry s) in
  fold_left unregister_session
    (List.filter (fun sid => negb (bool_decide (sid ∈ keep))) (Registry.session_ids r))
    (s <| registry := r |>).

Inductive ToProxyd :=
| SyncPolicies (policies : list SessionEgressPolicy)
| ApplyPolicy (policy : SessionEgressPolicy)
| RemoveSession (sid : SessionId)
| Health
| LookupGuest (ip : Ipv4Addr)
| Decide (ip : Ipv4Addr) (host : bytes).

Inductive FromProxyd :=
| ProxydOk
| ProxydErr
| HealthReport (sessions : nat)
| Guest (g : option (SessionId * SandboxId))
| Decided (d : option bytes).

Definition decision_name (d : Decision) : bytes :=
  match d with
  | Reject => lit "reject"
  | Bypass => lit "bypass"
  | Intercept _ _ _ _ => lit "intercept"
  | OwnApp _ => lit "own-app"
  end.

(** One request of the control connection, [Hello] and [Shutdown] apart. *)
Definition serve (s : ControlState) (msg : ToProxyd) : ControlState * FromProxyd :=
  match msg with
  | SyncPolicies policies => (sync_policies s policies, ProxydOk)
  | ApplyPolicy p =>
      match register_policy (registry s) p with
      | Ok r => (s <| registry := r |>, ProxydOk)
      | Err _ => (s, ProxydErr)
      end
  | RemoveSession sid => (unregister_session s sid, ProxydOk)
  | Health => (s, HealthReport (Registry.live_count (registry s)))
  | LookupGuest ip => (s, Guest ((fun st => (session_id st, sandbox_id st)) <$> Registry.lookup (registry s) ip))
  | Decide ip host => (s, Decided ((fun st => decision_name (SessionState.decide st host)) <$> Registry.lookup (registry s) ip))
  end.

(** ** The DNS filter *)

Record DnsQuery := MkDnsQuery { dq_name : bytes; dq_type : N; dq_class : N }.

(** A message as the DNS library decodes it; the names are in text form. *)
Record DnsMessage := MkDns {
  dm_id : N;
  dm_response : bool;
  dm_op_code : N;
  dm_recursion_desired : bool;
  dm_recursion_available : bool;
  dm_response_code : N;
  dm_queries : list DnsQuery;
  dm_edns : option bytes;
}.

Inductive DenyReason := UnknownGuest | NoQuery | NotInAllowList.

Inductive DnsDecision := DnsAllow | DnsDeny (r : DenyReason).

Definition name_allowed (state : SessionState) (qname : bytes) : bool :=
  if bool_decide (is_Some (own_app_port (apps state) qname)) then true
  else if GoogleDenylist.denies_host qname then false
  else if allow_all state || HostList.matches (network_allow state) qname then true
  else existsb (fun s => HostList.matches (SecretEntry.allow s) qname) (secrets state)
       || existsb (fun i => HostList.matches (InjectEntry.allow i) qname) (injects state)
       || existsb (fun o => HostList.matches (ObserveEntry.allow o) qname) (observes state).

Definition query_name (q : DnsQuery) : bytes := to_ascii_lowercase (trim_end_dots (dq_name q)).

Definition dns_decide (r : Registry.t) (ip : Ipv4Addr) (query : DnsMessage) : DnsDecision :=
  match Registry.lookup r ip with
  | None => DnsDeny UnknownGuest
  | Some state =>
      match dm_queries query with
      | [] => DnsDeny NoQuery
      | q :: _ => if name_allowed state (query_name q) then DnsAllow else DnsDeny NotInAllowList
      end
  end.

Definition NXDomain : N := 3.

Definition build_nxdomain (query : DnsMessage) : DnsMessage :=
  MkDns (dm_id query) true (dm_op_code query) (dm_recursion_desired query) true NXDomain
    (dm_queries query) (dm_edns query).

Inductive SocketAddr :=
| V4 (ip : Ipv4Addr) (port : N)
| V6 (ip : N) (port : N).

(** The UDP listener: the registry it reads, the reply targets by message id,
    the queries between their insertion and their send, the reapers that sleep,
    and what was sent to the resolver and to the guests. *)
Record Udp := MkUdp {
  u_registry : Registry.t;
  u_pending : gmap N SocketAddr;
  u_sending : list (N * SocketAddr * bytes);
  u_reapers : list N;
  u_upstream : list (SocketAddr * bytes);
  u_replies : list (SocketAddr * bytes);
}.

#[export] Instance eta_Udp : Eta Udp := fun s =>
  MkUdp (u_registry s) (u_pending s) (u_sending s) (u_reapers s) (u_upstream s) (u_replies s).

Section dns.
Context (from_bytes : bytes → option DnsMessage) (to_vec : DnsMessage → option bytes).

(** The id of a datagram from upstream: its first two bytes, if it has a header. *)
Definition answer_id (b : bytes) : option N :=
  match b with
  | hi :: lo :: _ => if (length b <? 12)%nat then None else Some (hi * 256 + lo)%N
  | _ => None
  end.

Inductive udp_step (s : Udp) : Udp → Prop :=
| us_policy r : udp_step s (s <| u_registry := r |>)
| us_allow pkt ip port query :
    from_bytes pkt = Some query → dns_decide (u_registry s) ip query = DnsAllow →
    udp_step s (s <| u_pending := <[dm_id query := V4 ip port]> (u_pending s) |>
                  <| u_sending ::= cons (dm_id query, V4 ip port, pkt) |>)
| us_deny pkt ip port query why b :
    from_bytes pkt = Some query → dns_decide (u_registry s) ip query = DnsDeny why →
    to_vec (build_nxdomain query) = Some b →
    udp_step s (s <| u_replies ::= cons (V4 ip port, b) |>)
| us_sent l1 l2 id peer pkt :
    u_sending s = l1 ++ (id, peer, pkt) :: l2 →
    udp_step s (s <| u_sending := l1 ++ l2 |> <| u_upstream ::= cons (peer, pkt) |> <| u_reapers ::= cons id |>)
| us_send_failed l1 l2 id peer pkt :
    u_sending s = l1 ++ (id, peer, pkt) :: l2 →
    udp_step s (s <| u_sending := l1 ++ l2 |> <| u_pending ::= delete id |>)
| us_reap l1 l2 id :
    u_reapers s = l1 ++ id :: l2 →
    udp_step s (s <| u_reapers := l1 ++ l2 |> <| u_pending ::= delete id |>)
| us_answer b id peer :
    answer_id b = Some id → u_pending s !! id = Some peer →
    udp_step s (s <| u_pending ::= delete id |> <| u_replies ::= cons (peer, b) |>).

End dns.

Definition udp_start (r : Registry.t) : Udp := MkUdp r ∅ [] [] [] [].

(** ** Reachability *)

(** What a session may reach. *)
Definition may_reach (st : SessionState) (host : bytes) : Prop :=
  is_Some (own_app_port (apps st) host) ∨
  GoogleDenylist.denies_host host = false ∧
  (allow_all st = true ∨ HostList.matches (network_allow st) host = true ∨
   (∃ s, s ∈ secrets st ∧ HostList.matches (SecretEntry.allow s) host = true) ∨
   (∃ i, i ∈ injects st ∧ HostList.matches (InjectEntry.allow i) host = true) ∨
   (∃ o, o ∈ observes st ∧ HostList.matches (ObserveEntry.allow o) host = true)).

Lemma filter_nonempty {A} (f : A → bool) l :
  List.filter f l ≠ [] ↔ ∃ x, x ∈ l ∧ f x = true.
Proof.
  split.
  - intros H. destruct (List.filter f l) as [|x l'] eqn:E; [done|]. exists x.
    rewrite list_elem_of_In. apply filter_In. rewrite E. by left.
  - intros (x&Hx&Hf) E. rewrite list_elem_of_In in Hx.
    assert (H : In x (List.filter f l)) by (by apply filter_In). by rewrite E in H.
Qed.

Lemma existsb_elem {A} (f : A → bool) l : existsb f l = true ↔ ∃ x, x ∈ l ∧ f x = true.
Proof. rewrite existsb_exists. by setoid_rewrite list_elem_of_In. Qed.

Lemma name_allowed_spec st q : name_allowed st q = true ↔ may_reach st q.
Proof.
  unfold name_allowed, may_reach. case_bool_decide as Ho; [tauto|].
  destruct (GoogleDenylist.denies_host q); [split; [done|]; intros [?|[? _]]; done|].
  destruct (allow_all st); cbn [orb]; [tauto|].
  destruct (HostList.matches (network_allow st) q); [tauto|].
  rewrite !orb_true_iff, !existsb_elem. split; [tauto|]. intros [?|(_&[?|[?|?]])]; [done..|tauto].
Qed.

Lemma decide_spec st h : SessionState.decide st h ≠ Reject ↔ may_reach st h.
Proof.
  unfold SessionState.decide, may_reach. destruct (own_app_port (apps st) h) as [p|] eqn:Ho.
  { split; [left; done|done]. }
  assert (Hn : ¬ is_Some (@None N)) by (by intros []).
  destruct (GoogleDenylist.denies_host h); [split; [done|]; intros [?|[? _]]; done|].
  set (sec := List.filter _ (secrets st)). set (inj := List.filter _ (injects st)).
  set (obs := List.filter _ (observes st)).
  pose proof (filter_nonempty (fun s => HostList.matches (SecretEntry.allow s) h) (secrets st)) as Hs.
  pose proof (filter_nonempty (fun i => HostList.matches (InjectEntry.allow i) h) (injects st)) as Hi.
  pose proof (filter_nonempty (fun o => HostList.matches (ObserveEntry.allow o) h) (observes st)) as Hob.
  fold sec in Hs. fold inj in Hi. fold obs in Hob.
  destruct sec as [|x sec']; [|split; [right; split; [done|]; right; right; left; by apply Hs|done]].
  destruct inj as [|y inj']; [|split; [right; split; [done|]; right; right; right; left; by apply Hi|done]].
  destruct obs as [|z obs']; [|split; [right; split; [done|]; right; right; right; right; by apply Hob|done]].
  destruct (allow_all st) eqn:Ha, (HostList.matches (network_allow st) h) eqn:Hm;
    cbn [orb]; destruct (GoogleDenylist.requires_inspection h);
    (split; [intros _; right; tauto|]) || idtac; try done.
  all: split; [done|]; intros [?|(_&[?|[?|[?|[?|?]]]])]; [done..|tauto|tauto|tauto].
Qed.

Lemma decide_intercept st h sec inj obs f :
  SessionState.decide st h = Intercept sec inj obs f →
  sec = List.filter (fun s => HostList.matches (SecretEntry.allow s) h) (secrets st) ∧
  f = foreign_placeholders st h.
Proof.
  unfold SessionState.decide. destruct (own_app_port _ _); [done|]. destruct (GoogleDenylist.denies_host h); [done|].
  destruct (List.filter _ (secrets st)) as [|s sec'] eqn:E1, (List.filter _ (injects st)) eqn:E2,
    (List.filter _ (observes st)) eqn:E3; try (by intros [= <- _ _ <-]).
  destruct (_ || _); [|done]. destruct (GoogleDenylist.requires_inspection h); [|done]. by intros [= <- _ _ <-].
Qed.

Lemma filter_empty {A} (f : A → bool) l x : List.filter f l = [] → x ∈ l → f x = false.
Proof.
  intros E Hx. destruct (f x) eqn:Hf; [|done]. exfalso. revert E. apply filter_nonempty. by exists x.
Qed.

Lemma decide_bypass st h :
  SessionState.decide st h = Bypass →
  GoogleDenylist.requires_inspection h = false ∧
  (∀ s, s ∈ secrets st → HostList.matches (SecretEntry.allow s) h = false) ∧
  (∀ i, i ∈ injects st → HostList.matches (InjectEntry.allow i) h = false) ∧
  (∀ o, o ∈ observes st → HostList.matches (ObserveEntry.allow o) h = false).
Proof.
  unfold SessionState.decide. destruct (own_app_port _ _); [done|]. destruct (GoogleDenylist.denies_host h); [done|].
  destruct (List.filter _ (secrets st)) as [|s sec'] eqn:E1, (List.filter _ (injects st)) eqn:E2,
    (List.filter _ (observes st)) eqn:E3; try done.
  destruct (_ || _); [|done]. destruct (GoogleDenylist.requires_inspection h); [done|]. intros _.
  split_and!; [done|..]; intros x Hx.
  - exact (filter_empty _ _ _ E1 Hx).
  - exact (filter_empty _ _ _ E2 Hx).
  - exact (filter_empty _ _ _ E3 Hx).
Qed.

(** The two gates agree, and neither can be talked around.  A name resolves
    exactly if a connection to it is not rejected, which is if the session's own
    apps, lists or entries name it; a credential host of the deny list, however
    it is spelled, neither resolves nor connects unless it is an own app; on an
    intercepted host every secret is either substituted or has its placeholder
    on the leak scan, never both; and a host is spliced through without
    inspection only if no entry and no operation rule names it. *)
Theorem egress_gates_agree st h :
  (SessionState.decide st h ≠ Reject ↔ may_reach st h) ∧
  (name_allowed st h = true ↔ SessionState.decide st h ≠ Reject) ∧
  (∀ d, d ∈ GoogleDenylist.denied_hosts → spells h d → own_app_port (apps st) h = None →
     SessionState.decide st h = Reject ∧ name_allowed st h = false) ∧
  (∀ sec inj obs f s, SessionState.decide st h = Intercept sec inj obs f → s ∈ secrets st →
     (s ∈ sec ↔ HostList.matches (SecretEntry.allow s) h = true) ∧
     (HostList.matches (SecretEntry.allow s) h = false → SecretEntry.placeholder s ≠ [] →
      SecretEntry.placeholder s ∈ f)) ∧
  (SessionState.decide st h = Bypass →
     GoogleDenylist.requires_inspection h = false ∧
     (∀ s, s ∈ secrets st → HostList.matches (SecretEntry.allow s) h = false) ∧
     (∀ i, i ∈ injects st → HostList.matches (InjectEntry.allow i) h = false) ∧
     (∀ o, o ∈ observes st → HostList.matches (ObserveEntry.allow o) h = false)).
Proof.
  split_and!.
  - apply decide_spec.
  - by rewrite name_allowed_spec, decide_spec.
  - intros d Hd Hs Ho. pose proof (denied_host_spelled h d Hd Hs) as Hden.
    unfold SessionState.decide, name_allowed. rewrite Ho, Hden. done.
  - intros sec inj obs f s Hd Hs. apply decide_intercept in Hd as [-> ->]. split.
    + rewrite list_elem_of_In, filter_In, <- list_elem_of_In. naive_solver.
    + intros Hm Hp. unfold foreign_placeholders. rewrite list_elem_of_In, filter_In, <- list_elem_of_In.
      split; [|by rewrite bool_decide_false]. apply list_elem_of_fmap. exists s. split; [done|].
      rewrite list_elem_of_In, filter_In, <- list_elem_of_In. by rewrite Hm.
  - apply decide_bypass.
Qed.

(** ** The DNS filter lets out what the gate admits *)

Section dns_sound.
Context (from_bytes : bytes → option DnsMessage) (to_vec : DnsMessage → option bytes).
Context (r0 : Registry.t).
Notation step := (udp_step from_bytes to_vec).
Notation reached s := (rtc step (udp_start r0) s).

(** At some earlier moment the guest's query passed the filter. *)
Definition admitted (s : Udp) (peer : SocketAddr) (pkt : bytes) (query : DnsMessage) : Prop :=
  ∃ s0 ip port, reached s0 ∧ rtc step s0 s ∧ peer = V4 ip port ∧ from_bytes pkt = Some query ∧
    dns_decide (u_registry s0) ip query = DnsAllow.

(** At some earlier moment the guest's query was denied. *)
Definition denied (s : Udp) (peer : SocketAddr) (b : bytes) : Prop :=
  ∃ s0 ip port pkt query why, reached s0 ∧ rtc step s0 s ∧ peer = V4 ip port ∧ from_bytes pkt = Some query ∧
    dns_decide (u_registry s0) ip query = DnsDeny why ∧ to_vec (build_nxdomain query) = Some b.

Record udp_inv (s : Udp) : Prop := {
  ui_reached : reached s;
  ui_sending : ∀ id peer pkt, (id, peer, pkt) ∈ u_sending s → ∃ q, admitted s peer pkt q ∧ dm_id q = id;
  ui_pending : ∀ id peer, u_pending s !! id = Some peer → ∃ pkt q, admitted s peer pkt q ∧ dm_id q = id;
  ui_upstream : ∀ peer pkt, (peer, pkt) ∈ u_upstream s → ∃ q, admitted s peer pkt q;
  ui_replies : ∀ peer b, (peer, b) ∈ u_replies s →
    denied s peer b ∨ ∃ pkt q, admitted s peer pkt q ∧ answer_id b = Some (dm_id q);
}.

Lemma admitted_step s s' peer pkt q : step s s' → admitted s peer pkt q → admitted s' peer pkt q.
Proof. intros H (s0&ip&port&?&?&?&?&?). exists s0, ip, port. split_and!; try done. by eapply rtc_r. Qed.

Lemma denied_step s s' peer b : step s s' → denied s peer b → denied s' peer b.
Proof. intros H (s0&ip&port&pkt&q&why&?&?&?&?&?&?). exists s0, ip, port, pkt, q, why. split_and!; try done. by eapply rtc_r. Qed.

Lemma udp_inv_mono s s' :
  step s s' → udp_inv s →
  (∀ id peer pkt, (id, peer, pkt) ∈ u_sending s → ∃ q, admitted s' peer pkt q ∧ dm_id q = id) ∧
  (∀ id peer, u_pending s !! id = Some peer → ∃ pkt q, admitted s' peer pkt q ∧ dm_id q = id) ∧
  (∀ peer pkt, (peer, pkt) ∈ u_upstream s → ∃ q, admitted s' peer pkt q) ∧
  (∀ peer b, (peer, b) ∈ u_replies s →
    denied s' peer b ∨ ∃ pkt q, admitted s' peer pkt q ∧ answer_id b = Some (dm_id q)).
Proof.
  intros H [_ H1 H2 H3 H4]. split_and!.
  - intros id peer pkt (q&?&?)%H1. eauto using admitted_step.
  - intros id peer (pkt&q&?&?)%H2. eauto 6 using admitted_step.
  - intros peer pkt (q&?)%H3. eauto using admitted_step.
  - intros peer b [?|(pkt&q&?&?)]%H4; eauto 7 using admitted_step, denied_step.
Qed.

Lemma udp_inv_step s s' : udp_inv s → step s s' → udp_inv s'.
Proof.
  intros Hi Hs. destruct (udp_inv_mono _ _ Hs Hi) as (M1&M2&M3&M4).
  assert (Hr : reached s') by (eapply rtc_r; [apply Hi|done]).
  destruct Hs as [r|pkt ip port q Hp Hd|pkt ip port q why b Hp Hd Hb|l1 l2 id peer pkt El|l1 l2 id peer pkt El|l1 l2 id El|b id peer Hb Hp];
    split; cbn; try done.
  - assert (Ha : admitted (s <| u_pending := <[dm_id q := V4 ip port]> (u_pending s) |>
                  <| u_sending ::= cons (dm_id q, V4 ip port, pkt) |>) (V4 ip port) pkt q).
    { exists s, ip, port. split_and!; [apply Hi| |done..]. eapply rtc_r; [done|]. by apply us_allow. }
    intros id peer pkt' [[= -> -> ->]|H]%elem_of_cons; [by exists q|by apply M1].
  - intros id peer. rewrite lookup_insert_Some. intros [[<- <-]|[_ H]]; [|by apply M2].
    exists pkt, q. split; [|done]. exists s, ip, port. split_and!; [apply Hi| |done..]. eapply rtc_r; [done|]. by apply us_allow.
  - intros peer b' [[= -> ->]|H]%elem_of_cons; [|by apply M4]. left.
    exists s, ip, port, pkt, q, why. split_and!; [apply Hi| |done..]. eapply rtc_r; [done|]. by eapply us_deny.
  - intros id' peer' pkt' H. apply M1. rewrite El. set_solver.
  - intros peer' pkt' [[= -> ->]|H]%elem_of_cons; [|by apply M3].
    destruct (M1 id peer pkt) as (q&?&_); [rewrite El; set_solver|by exists q].
  - intros id' peer' pkt' H. apply M1. rewrite El. set_solver.
  - intros id' peer'. rewrite lookup_delete_Some. intros [_ H]. by apply M2.
  - intros id' peer'. rewrite lookup_delete_Some. intros [_ H]. by apply M2.
  - intros id' peer'. rewrite lookup_delete_Some. intros [_ H]. by apply M2.
  - intros peer' b' [[= -> ->]|H]%elem_of_cons; [|by apply M4]. right.
    destruct (M2 _ _ Hp) as (pkt&q&?&<-). by exists pkt, q.
Qed.

Lemma udp_inv_reached s : reached s → udp_inv s.
Proof.
  assert (H0 : udp_inv (udp_start r0)) by (split; cbn; try done; by intros; set_solver).
  intros H. revert H0. induction H as [|s1 s2 s3 Hs _ IH]; [done|].
  intros Hi. by apply IH, (udp_inv_step s1).
Qed.

(** A datagram that leaves for the resolver came from a guest with a
    session, and the name of its first question, without its final dots and in
    lower case, was one that session may reach when the query was read; and a
    guest is answered only for a query it sent, with a refusal or with a datagram
    that carries the id of a query of its own that passed. *)
Theorem dns_filter_sound s :
  reached s →
  (∀ peer pkt, (peer, pkt) ∈ u_upstream s →
     ∃ s0 ip port query q rest st, reached s0 ∧ rtc step s0 s ∧ peer = V4 ip port ∧
       from_bytes pkt = Some query ∧ dm_queries query = q :: rest ∧
       Registry.lookup (u_registry s0) ip = Some st ∧ SessionState.decide st (query_name q) ≠ Reject) ∧
  (∀ peer b, (peer, b) ∈ u_replies s →
     denied s peer b ∨ ∃ pkt query, admitted s peer pkt query ∧ answer_id b = Some (dm_id query)).
Proof.
  intros Hr%udp_inv_reached. split; [|apply Hr].
  intros peer pkt (query&s0&ip&port&?&?&->&Hp&Hd)%(ui_upstream _ Hr).
  unfold dns_decide in Hd. destruct (Registry.lookup (u_registry s0) ip) as [st|] eqn:Hl; [|done].
  destruct (dm_queries query) as [|q rest] eqn:Hq; [done|].
  destruct (name_allowed st (query_name q)) eqn:Hn; [|done].
  exists s0, ip, port, query, q, rest, st. split_and!; try done. by apply decide_spec, name_allowed_spec.
Qed.

End dns_sound.

(** ** Two guests and the DNS filter *)

(** A packet of the example: two bytes of id, then the names, separated by zeros. *)
Definition demo_from_bytes (pkt : bytes) : option DnsMessage :=
  match pkt with
  | hi :: lo :: rest =>
      Some (MkDns (hi * 256 + lo)%N false 0 true false 0
              ((fun n => MkDnsQuery n 1 1) <$> split_byte 0 rest) None)
  | _ => None
  end.

Definition demo_to_vec (m : DnsMessage) : option bytes := Some [dm_id m; dm_response_code m].

Definition demo_session (sid ip : N) (host : string) : SessionState :=
  MkSession sid sid ip (HostList.Mk [HostSpec.Exact (lit host)]) false [] [] [] [] [] [].

Definition demo_registry : Registry.t :=
  Registry.register (Registry.register Registry.new (demo_session 1 10 "a.example")) (demo_session 2 11 "b.example").

Definition demo_a : bytes := [0; 7]%N ++ lit "a.example".
Definition demo_b : bytes := [0; 7]%N ++ lit "b.example".
Definition demo_leak : bytes := [0; 8]%N ++ lit "a.example" ++ [0]%N ++ lit "secret.evil.example".
Definition demo_answer : bytes := [0; 7]%N ++ lit "answer for a".

Ltac udp_allow pkt ip port :=
  eapply rtc_l; [eapply (us_allow _ _ _ pkt ip port); vm_compute; reflexivity|].
Ltac udp_sent l1 :=
  eapply rtc_l; [eapply (us_sent _ _ _ l1); vm_compute; reflexivity|].

(** What the filter does not see.  Reply targets are kept by message id for
    all guests together: of two guests whose queries carry one id the answer for
    the first goes to the second, and the first gets none.  And only the first
    question is judged: a query whose second question names a host the session
    may not reach leaves as it is. *)
Theorem dns_gaps :
  (∃ s, rtc (udp_step demo_from_bytes demo_to_vec) (udp_start demo_registry) s ∧
     u_upstream s = [(V4 11 53, demo_b); (V4 10 53, demo_a)] ∧
     u_replies s = [(V4 11 53, demo_answer)] ∧ u_pending s = ∅) ∧
  (∃ s st, rtc (udp_step demo_from_bytes demo_to_vec) (udp_start demo_registry) s ∧
     u_upstream s = [(V4 10 53, demo_leak)] ∧ Registry.lookup demo_registry 10 = Some st ∧
     SessionState.decide st (lit "secret.evil.example") = Reject).
Proof.
  split.
  - eexists. split.
    + udp_allow demo_a 10%N 53%N. udp_allow demo_b 11%N 53%N. udp_sent [(7%N, V4 11 53, demo_b)].
      udp_sent (@nil (N * SocketAddr * bytes)).
      eapply rtc_l; [eapply (us_answer _ _ _ demo_answer 7%N (V4 11 53)); vm_compute; reflexivity|]. apply rtc_refl.
    + split_and!; vm_compute; reflexivity.
  - eexists _, _. split.
    + udp_allow demo_leak 10%N 53%N. udp_sent (@nil (N * SocketAddr * bytes)). apply rtc_refl.
    + split_and!; vm_compute; reflexivity.
Qed.

Lemma dns_filter_sound_witness :
  ∃ s, rtc (udp_step demo_from_bytes demo_to_vec) (udp_start demo_registry) s ∧
    (V4 10 53, demo_a) ∈ u_upstream s ∧
    ∃ s0 ip port query q rest st, rtc (udp_step demo_from_bytes demo_to_vec) (udp_start demo_registry) s0 ∧
      rtc (udp_step demo_from_bytes demo_to_vec) s0 s ∧ V4 10 53 = V4 ip port ∧
      demo_from_bytes demo_a = Some query ∧ dm_queries query = q :: rest ∧
      Registry.lookup (u_registry s0) ip = Some st ∧ SessionState.decide st (query_name q) ≠ Reject.
Proof.
  pose (s1 := (udp_start demo_registry) <| u_pending := <[7%N := V4 10 53]> ∅ |>
                <| u_sending := [(7%N, V4 10 53, demo_a)] |>).
  pose (s2 := s1 <| u_sending := [] |> <| u_upstream := [(V4 10 53, demo_a)] |> <| u_reapers := [7%N] |>).
  assert (Hr : rtc (udp_step demo_from_bytes demo_to_vec) (udp_start demo_registry) s2).
  { eapply rtc_l; [exact (us_allow demo_from_bytes demo_to_vec (udp_start demo_registry) demo_a 10 53 (MkDns 7 false 0 true false 0 [MkDnsQuery (lit "a.example") 1 1] None) eq_refl eq_refl)|].
    eapply rtc_l; [exact (us_sent demo_from_bytes demo_to_vec s1 [] [] 7%N (V4 10 53) demo_a eq_refl)|]. apply rtc_refl. }
  exists s2. split; [exact Hr|]. split; [left|].
  apply (proj1 (dns_filter_sound demo_from_bytes demo_to_vec demo_registry s2 Hr)). left.
Defined.

(** ** The registry as a map from sessions *)

Inductive reg_op :=
| RegOp (st : SessionState)
| UnregOp (sid : SessionId).

Definition apply_op (r : Registry.t) (op : reg_op) : Registry.t :=
  match op with
  | RegOp st => Registry.register r st
  | UnregOp sid => Registry.unregister r sid
  end.

Definition registry_inv (r : Registry.t) : Prop :=
  ∀ ip st, Registry.by_guest_ip r !! ip = Some st →
    guest_ip st = ip ∧ Registry.by_session r !! session_id st = Some ip.

Lemma register_lookup r st ip st' :
  registry_inv r → Registry.by_guest_ip (Registry.register r st) !! ip = Some st' →
  (ip = guest_ip st ∧ st' = st) ∨
  (Registry.by_guest_ip r !! ip = Some st' ∧ ip ≠ guest_ip st ∧ session_id st' ≠ session_id st).
Proof.
  intros Hi. cbn. rewrite lookup_insert_Some. intros [[<- <-]|[Hne H]]; [by left|]. right.
  assert (H' : Registry.by_guest_ip r !! ip = Some st' ∧ Registry.by_session r !! session_id st ≠ Some ip).
  { destruct (Registry.by_session r !! session_id st) as [old|] eqn:Eo; [|done].
    case_bool_decide as Ho; [by subst; split; [|congruence]|].
    apply lookup_delete_Some in H as [? ?]. split; [done|congruence]. }
  destruct H' as [H' Hn]. split_and!; [done..|]. intros E. destruct (Hi _ _ H') as [_ Hs]. by rewrite E in Hs.
Qed.

Lemma register_inv r st : registry_inv r → registry_inv (Registry.register r st).
Proof.
  intros Hi ip st' [[-> ->]|(H&Hne&Hs)]%register_lookup; [| |done].
  - split; [done|]. cbn. by rewrite lookup_insert_eq.
  - destruct (Hi _ _ H) as [? ?]. split; [done|]. cbn. by rewrite lookup_insert_ne.
Qed.

Lemma unregister_lookup r sid ip st :
  registry_inv r → Registry.by_guest_ip (Registry.unregister r sid) !! ip = Some st →
  Registry.by_guest_ip r !! ip = Some st ∧ session_id st ≠ sid.
Proof.
  intros Hi. unfold Registry.unregister. destruct (Registry.by_session r !! sid) as [old|] eqn:E; cbn.
  - rewrite lookup_delete_Some. intros [Hne H]. split; [done|]. intros <-. destruct (Hi _ _ H). congruence.
  - intros H. split; [done|]. intros <-. destruct (Hi _ _ H). congruence.
Qed.

Lemma unregister_inv r sid : registry_inv r → registry_inv (Registry.unregister r sid).
Proof.
  intros Hi ip st [H Hs]%unregister_lookup; [|done]. destruct (Hi _ _ H) as [? ?]. split; [done|].
  unfold Registry.unregister. destruct (Registry.by_session r !! sid); [|done]. cbn. by rewrite lookup_delete_ne.
Qed.

(** Nothing after its registration touched a session or its address. *)
Definition untouched (st : SessionState) (op : reg_op) : Prop :=
  match op with
  | RegOp st' => guest_ip st' ≠ guest_ip st ∧ session_id st' ≠ session_id st
  | UnregOp sid => sid ≠ session_id st
  end.

(** A guest address is served with the latest policy registered for it or not
    at all: whatever the sequence of registrations and removals, a state that a
    lookup returns was registered for that address, and since then neither was
    another state registered for the address or the session nor was the session
    removed. *)
Theorem registry_latest ops ip st :
  Registry.lookup (fold_left apply_op ops Registry.new) ip = Some st →
  ∃ pre post, ops = pre ++ RegOp st :: post ∧ guest_ip st = ip ∧ Forall (untouched st) post.
Proof.
  assert (H : ∀ ops, registry_inv (fold_left apply_op ops Registry.new) ∧
    ∀ ip st, Registry.by_guest_ip (fold_left apply_op ops Registry.new) !! ip = Some st →
      ∃ pre post, ops = pre ++ RegOp st :: post ∧ guest_ip st = ip ∧ Forall (untouched st) post).
  { clear. intros ops. induction ops as [|op ops [Hi IH]] using rev_ind.
    { split; [by intros ip st H|]. intros ip st H. done. }
    rewrite fold_left_app. cbn [fold_left]. set (r := fold_left _ ops _) in *. destruct op as [st0|sid]; cbn [apply_op].
    - split; [by apply register_inv|]. intros ip st [[-> ->]|(H&Hne&Hs)]%register_lookup; [| |done].
      + by exists ops, [].
      + destruct (IH _ _ H) as (pre&post&->&<-&Hp). exists pre, (post ++ [RegOp st0]).
        split_and!; [by rewrite <- app_assoc|done|]. apply Forall_app. split; [done|]. by repeat constructor.
    - split; [by apply unregister_inv|]. intros ip st [H Hs]%unregister_lookup; [|done].
      destruct (IH _ _ H) as (pre&post&->&<-&Hp). exists pre, (post ++ [UnregOp sid]).
      split_and!; [by rewrite <- app_assoc|done|]. apply Forall_app. split; [done|]. by repeat constructor. }
  intros Hl. by apply (proj2 (H ops)).
Qed.

(** ** A sync *)

(** The registry holds the sessions of [M], each under an address of its own. *)
Record represents (r : Registry.t) (M : gmap SessionId SessionState) : Prop := {
  rp_guests : ∀ ip st, Registry.by_guest_ip r !! ip = Some st ↔ M !! session_id st = Some st ∧ guest_ip st = ip;
  rp_sessions : ∀ sid, Registry.by_session r !! sid = guest_ip <$> M !! sid;
  rp_ids : ∀ sid st, M !! sid = Some st → session_id st = sid;
}.

Lemma represents_distinct r M sid1 sid2 st1 st2 :
  represents r M → M !! sid1 = Some st1 → M !! sid2 = Some st2 → guest_ip st1 = guest_ip st2 → sid1 = sid2.
Proof.
  intros [Hg _ Hid] H1 H2 E. pose proof (Hid _ _ H1) as <-. pose proof (Hid _ _ H2) as <-.
  assert (A : Registry.by_guest_ip r !! guest_ip st1 = Some st1) by (by apply Hg).
  assert (B : Registry.by_guest_ip r !! guest_ip st1 = Some st2) by (by apply Hg).
  congruence.
Qed.

Lemma register_represents r M st :
  represents r M →
  (∀ sid st', M !! sid = Some st' → guest_ip st' = guest_ip st → sid = session_id st) →
  represents (Registry.register r st) (<[session_id st := st]> M).
Proof.
  intros Hr Hfree. destruct Hr as [Hg Hs Hid] eqn:EHr. split.
  - intros ip st'. cbn. rewrite lookup_insert_Some. split.
    + intros [[<- <-]|[Hne H]]; [by rewrite lookup_insert_eq|].
      assert (H' : Registry.by_guest_ip r !! ip = Some st' ∧ Registry.by_session r !! session_id st ≠ Some ip).
      { destruct (Registry.by_session r !! session_id st) as [old|]; [|done].
        case_bool_decide; [by subst; split; [|congruence]|]. apply lookup_delete_Some in H as [? ?]. split; [done|congruence]. }
      destruct H' as [[HM <-]%Hg Hn]. split; [|done]. rewrite lookup_insert_ne; [done|].
      intros E. apply Hn. by rewrite Hs, E, HM.
    + rewrite lookup_insert_Some. intros [[[E ->]|[Hne HM]] <-]; [by left|]. right.
      assert (Hip : guest_ip st ≠ guest_ip st').
      { intros E. apply Hne. symmetry. by apply (Hfree _ st'). }
      split; [done|]. destruct (Registry.by_session r !! session_id st) as [old|] eqn:Eo; [|by apply Hg].
      case_bool_decide; [by apply Hg|]. apply lookup_delete_Some. split; [|by apply Hg].
      rewrite Hs in Eo. apply fmap_Some in Eo as (st0&H0&->). intros E.
      apply Hne. eapply represents_distinct; [exact Hr|exact H0|exact HM|done].
  - intros sid. cbn. destruct (decide (sid = session_id st)) as [->|Hn];
      [by rewrite !lookup_insert_eq|by rewrite !lookup_insert_ne, Hs].
  - intros sid st'. rewrite lookup_insert_Some. intros [[<- <-]|[_ H]]; [done|by apply Hid].
Qed.

Lemma unregister_represents r M sid :
  represents r M → represents (Registry.unregister r sid) (delete sid M).
Proof.
  intros Hr. destruct Hr as [Hg Hs Hid] eqn:EHr. unfold Registry.unregister. rewrite Hs.
  destruct (M !! sid) as [st0|] eqn:E0; cbn [fmap option_fmap option_map].
  - split; cbn.
    + intros ip st. rewrite lookup_delete_Some, Hg, lookup_delete_Some. split.
      * intros (Hne&HM&<-). split_and!; [|done..]. intros E. subst sid. congruence.
      * intros [[Hne HM] <-]. split_and!; [|done..]. intros E.
        apply Hne. symmetry. eapply represents_distinct; [exact Hr|exact HM|exact E0|done].
    + intros sid'. destruct (decide (sid' = sid)) as [->|?];
        [by rewrite !lookup_delete_eq|by rewrite !lookup_delete_ne, Hs].
    + intros sid' st. rewrite lookup_delete_Some. intros [_ H]. by apply Hid.
  - by rewrite delete_id.
Qed.

(** The sessions after the policies of a sync are applied. *)
Definition apply_policy (M : gmap SessionId SessionState) (p : SessionEgressPolicy) : gmap SessionId SessionState :=
  match translate p with Ok st => <[session_id st := st]> M | Err _ => M end.

Lemma translate_ids p st :
  translate p = Ok st → session_id st = ep_session_id p ∧ guest_ip st = ep_guest_ip p.
Proof.
  unfold translate. destruct (HostList.from_manifest _ _); [|done]. destruct (translate_secrets _); [|done].
  destruct (translate_injects _); [|done]. destruct (translate_observes _); [|done]. by intros [= <-].
Qed.

Lemma sync_one_represents r M p :
  represents r M →
  (∀ sid st, M !! sid = Some st → guest_ip st = ep_guest_ip p → sid = ep_session_id p) →
  represents (sync_one r p) (apply_policy M p).
Proof.
  intros Hr Hfree. unfold sync_one, apply_policy, register_policy.
  destruct (translate p) as [st|] eqn:E; [|done]. destruct (translate_ids _ _ E) as [Es Ei].
  apply register_represents; [done|]. by rewrite Es, Ei.
Qed.

Lemma sync_fold_represents policies : ∀ r M,
  represents r M →
  NoDup (ep_guest_ip <$> policies) →
  (∀ p sid st, p ∈ policies → M !! sid = Some st → guest_ip st = ep_guest_ip p → sid = ep_session_id p) →
  represents (fold_left sync_one policies r) (fold_left apply_policy policies M).
Proof.
  induction policies as [|p policies IH]; intros r M Hr Hnd Hfree; [done|]. cbn [fold_left].
  apply NoDup_cons in Hnd as [Hp Hnd]. apply IH; [|done|].
  - apply sync_one_represents; [done|]. intros sid st. apply Hfree. left.
  - intros p' sid st Hp'. unfold apply_policy. destruct (translate p) as [st0|] eqn:E.
    2:{ apply Hfree. by right. }
    destruct (translate_ids _ _ E) as [Es Ei]. rewrite lookup_insert_Some. intros [[<- <-]|[_ H]] E'.
    + destruct Hp. apply list_elem_of_fmap. exists p'. by rewrite <- Ei.
    + apply Hfree with st; [by right|done..].
Qed.

Definition prune (l : list SessionId) (M : gmap SessionId SessionState) : gmap SessionId SessionState :=
  fold_left (fun M sid => delete sid M) l M.

Lemma prune_lookup l M sid : prune l M !! sid = if decide (sid ∈ l) then None else M !! sid.
Proof.
  unfold prune. revert M. induction l as [|x l IH]; intros M; cbn [fold_left].
  { by rewrite decide_False by set_solver. }
  rewrite IH. destruct (decide (sid = x)) as [->|Hne].
  - rewrite lookup_delete_eq. repeat case_decide; set_solver.
  - rewrite lookup_delete_ne by done. repeat case_decide; set_solver.
Qed.

Lemma prune_represents l : ∀ s M,
  represents (registry s) M →
  represents (registry (fold_left unregister_session l s)) (prune l M) ∧
  closed (fold_left unregister_session l s) = closed s ++ l.
Proof.
  induction l as [|sid l IH]; intros s M Hr; [by rewrite app_nil_r|]. cbn [fold_left].
  destruct (IH (unregister_session s sid) (delete sid M)) as [H1 H2].
  - cbn. by apply unregister_represents.
  - split; [done|]. rewrite H2. cbn. by rewrite <- app_assoc.
Qed.

(** The sessions a sync leaves: those it names, with their new policy, or with
    the one they had if the new one does not translate. *)
Definition synced (M : gmap SessionId SessionState) (policies : list SessionEgressPolicy) : gmap SessionId SessionState :=
  filter (fun x => x.1 ∈ ep_session_id <$> policies) (fold_left apply_policy policies M).

(** C16. A sync replaces the registry.  From a registry in which every session has
    an address of its own, and if no policy of the set takes an address that
    another session still holds, a sync leaves exactly the sessions of the set,
    each with its new policy or, if that does not translate, the one it had;
    every other session is removed and its tunnels are closed, once. *)
Theorem sync_refines s M policies :
  represents (registry s) M → NoDup (ep_guest_ip <$> policies) →
  (∀ p sid st, p ∈ policies → M !! sid = Some st → guest_ip st = ep_guest_ip p → sid = ep_session_id p) →
  represents (registry (sync_policies s policies)) (synced M policies) ∧
  ∃ gone, closed (sync_policies s policies) = closed s ++ gone ∧ NoDup gone ∧
    ∀ sid, sid ∈ gone ↔ is_Some (M !! sid) ∧ sid ∉ ep_session_id <$> policies.
Proof.
  intros Hr Hnd Hfree. unfold sync_policies.
  set (r := fold_left sync_one policies (registry s)). set (M' := fold_left apply_policy policies M).
  assert (Hr' : represents r M') by (by apply sync_fold_represents).
  set (gone := List.filter _ (Registry.session_ids r)).
  assert (Hgone : ∀ sid, sid ∈ gone ↔ is_Some (M' !! sid) ∧ sid ∉ ep_session_id <$> policies).
  { intros sid. unfold gone. rewrite list_elem_of_In, filter_In, <- list_elem_of_In, negb_true_iff, bool_decide_eq_false,
      elem_of_list_to_set. unfold Registry.session_ids. rewrite list_elem_of_fmap. split.
    - intros [([sid' ip]&->&H%elem_of_map_to_list) Hn]. split; [|done]. cbn. rewrite (rp_sessions _ _ Hr') in H.
      by apply fmap_Some in H as (st&->&_).
    - intros [[st H] Hn]. split; [|done]. exists (sid, guest_ip st). split; [done|]. apply elem_of_map_to_list.
      by rewrite (rp_sessions _ _ Hr'), H. }
  destruct (prune_represents gone (s <| registry := r |>) M') as [H1 H2]; [exact Hr'|]. split.
  - assert (E : synced M policies = prune gone M'); [|by rewrite E].
    apply map_eq. intros sid. rewrite prune_lookup. unfold synced. fold M'.
    destruct (M' !! sid) as [st|] eqn:EM.
    + case_decide as Hd.
      * apply map_lookup_filter_None. right. intros st' _ Hin. by apply Hgone in Hd as [_ ?].
      * apply map_lookup_filter_Some. split; [done|]. cbn. apply dec_stable. intros Hn. apply Hd, Hgone. by rewrite EM.
    + transitivity (@None SessionState); [apply map_lookup_filter_None; by left|by case_decide].
  - exists gone. split_and!; [done| |].
    + unfold gone. apply NoDup_ListNoDup, List.NoDup_filter, NoDup_ListNoDup. apply NoDup_fst_map_to_list.
    + intros sid. rewrite Hgone. split; intros [H Hn]; (split; [|done]).
      * unfold M' in H. clear -H Hn. revert M H. induction policies as [|p policies IH]; intros M H; [done|].
        cbn in H, Hn. apply not_elem_of_cons in Hn as [Hn1 Hn2]. specialize (IH Hn2 _ H).
        unfold apply_policy in IH. destruct (translate p) eqn:E; [|done]. apply translate_ids in E as [E _].
        rewrite lookup_insert_ne in IH; [done|]. congruence.
      * unfold M'. clear -H. revert M H. induction policies as [|p policies IH]; intros M H; [done|].
        cbn. apply IH. unfold apply_policy. destruct (translate p); [|done].
        apply lookup_insert_is_Some'. by right.
Qed.

(** ** An address that changes hands *)

Definition demo_policy (sid ip : N) : SessionEgressPolicy :=
  MkPolicy sid sid ip [lit "example.com"] [] false [] [] [] [] [] [].

Definition demo_control : ControlState := (serve (MkControl Registry.new []) (ApplyPolicy (demo_policy 1 10))).1.

Definition demo_state (sid ip : N) : SessionState := demo_session sid ip "example.com".

(** A session that takes over an address loses it with the one that held it.
    Session 1 is registered for an address; a sync that names only session 2, for
    the same address, registers it and then prunes session 1, which removes the
    address; so does a removal of session 1 that comes after session 2 was
    applied.  Session 2 counts as live but its guest is not served. *)
Theorem sync_strands_reused_address :
  let synced := (serve demo_control (SyncPolicies [demo_policy 2 10])).1 in
  let applied := (serve (serve demo_control (ApplyPolicy (demo_policy 2 10))).1 (RemoveSession 1)).1 in
  Registry.lookup (registry demo_control) 10 = Some (demo_state 1 10) ∧
  Registry.session_ids (registry synced) = [2%N] ∧ Registry.lookup (registry synced) 10 = None ∧
  Registry.session_ids (registry applied) = [2%N] ∧ Registry.lookup (registry applied) 10 = None.
Proof. vm_compute. split_and!; reflexivity. Qed.

Lemma registry_latest_witness :
  Registry.lookup (fold_left apply_op [RegOp (demo_state 1 10); RegOp (demo_state 2 11); UnregOp 1] Registry.new) 11 =
    Some (demo_state 2 11) ∧
  ∃ pre post, [RegOp (demo_state 1 10); RegOp (demo_state 2 11); UnregOp 1] = pre ++ RegOp (demo_state 2 11) :: post ∧
    guest_ip (demo_state 2 11) = 11%N ∧ Forall (untouched (demo_state 2 11)) post.
Proof. split; [vm_compute; reflexivity|]. apply registry_latest. vm_compute. reflexivity. Defined.

Lemma demo_represents : represents (registry demo_control) {[1%N := demo_state 1 10]}.
Proof.
  change (registry demo_control) with (Registry.register Registry.new (demo_state 1 10)).
  change ({[1%N := demo_state 1 10]} : gmap SessionId SessionState) with
    (<[session_id (demo_state 1 10) := demo_state 1 10]> (∅ : gmap SessionId SessionState)).
  apply register_represents; [|done]. split; try done. cbn. intros ip st. split; [done|]. by intros [H _].
Qed.

Lemma sync_refines_witness :
  represents (registry (sync_policies demo_control [demo_policy 2 11]))
    (synced {[1%N := demo_state 1 10]} [demo_policy 2 11]) ∧
  ∃ gone, closed (sync_policies demo_control [demo_policy 2 11]) = closed demo_control ++ gone ∧ NoDup gone ∧
    ∀ sid, sid ∈ gone ↔ is_Some (({[1%N := demo_state 1 10]} : gmap SessionId SessionState) !! sid) ∧
      sid ∉ ep_session_id <$> [demo_policy 2 11].
Proof.
  apply sync_refines.
  - exact demo_represents.
  - apply NoDup_singleton.
  - intros p sid st Hp HM E. apply list_elem_of_singleton in Hp. subst p.
    apply lookup_singleton_Some in HM as [<- <-]. discriminate E.
Defined.
