(* ===== verification/EgressHttp.v ===== *)
(** * The HTTP/1 request gate

    What happens to an intercepted HTTP/1 request before a byte of it reaches
    the upstream ([intercept.rs], with [substitute.rs], [violation.rs],
    [inject.rs], [graphql.rs] and the request half of [observe.rs]): the head is
    read and validated, bound to the authority of the SNI, judged by the policy,
    given the host-side credentials, scanned for placeholders that do not belong
    there, and has its own placeholders substituted.

    The client is the list of what its reads return; an empty read, or none
    left, is the end of the stream. *)

From S2P Require Import Prelude Bytes EgressPolicy EgressRegistry.

(** ** Placeholders *)

(** [replace_all]: past the [skip] bytes of a match. *)
Fixpoint replace_from (needle replacement : bytes) (skip : nat) (buf : bytes) : bytes :=
  match buf with
  | [] => []
  | b :: buf' =>
      match skip with
      | S k => replace_from needle replacement k buf'
      | O =>
          if starts_with needle buf
          then replacement ++ replace_from needle replacement (pred (length needle)) buf'
          else b :: replace_from needle replacement 0 buf'
      end
  end.

Definition replace_all (buf needle replacement : bytes) : bytes :=
  if bool_decide (needle = []) || (length buf <? length needle)%nat then buf
  else replace_from needle replacement 0 buf.

Definition substitute (buf dest_host : bytes) (l : list SecretEntry.t) : bytes :=
  fold_left (fun out s =>
    if negb (HostList.matches (SecretEntry.allow s) dest_host) then out
    else replace_all out (SecretEntry.placeholder s) (SecretEntry.real_value s)) l buf.

Definition memmem (haystack needle : bytes) : bool :=
  if bool_decide (needle = []) || (length haystack <? length needle)%nat then false
  else contains needle haystack.

Definition first_match (buf : bytes) (placeholders : list bytes) : option bytes :=
  List.find (fun ph => memmem buf ph) placeholders.

(** ** Errors *)

Inductive InterceptError :=
| IoError
| Violation (placeholder : bytes)
| RequestRejected (method path : bytes)
| MalformedRequest
| RequestHeadTooLarge
| MalformedHeaderBlock (reason : string)
| InvalidRequestTarget
| GraphqlRejected (reason : string)
| InjectHeader (header_name : bytes)
| InvalidServerName (name : bytes)
| InvalidInjectedHeader (name : bytes)
| CredentialRequestRejected (method path : bytes).

(** ** Header lines *)

(** The name of a header line: what is before its colon, or all of it. *)
Definition header_name (line : bytes) : bytes :=
  match find_byte 58 line with Some c => take c line | None => line end.

(** Copy the header lines that [keep] keeps, and from the empty line on
    everything; without a line end left, the rest as it is. *)
Fixpoint copy_headers (fuel : nat) (keep : bytes → bool) (rest : bytes) : bytes :=
  match fuel with
  | O => rest
  | S fuel' =>
      match find_sub CRLF rest with
      | None => rest
      | Some rel =>
          let line := take rel rest in
          if bool_decide (line = []) then rest
          else (if keep (header_name line) then take (rel + 2) rest else [])
               ++ copy_headers fuel' keep (drop (rel + 2) rest)
      end
  end.

(** ** The head *)

Definition REQUEST_HEAD_BUDGET : N := 64 * 1024.
Definition REQUEST_BODY_BUDGET : N := 1024 * 1024.
Definition GRAPHQL_REQUEST_BODY_BUDGET : N := 256 * 1024.

Definition CRLFCRLF : bytes := CRLF ++ CRLF.

Definition head_end_of (request : bytes) : option nat := (fun i => i + 4)%nat <$> find_sub CRLFCRLF request.

(** What the reads of the client return. *)
Notation stream := (list (result bytes unit)) (only parsing).

(** [read_request_head]: the whole prefix read, and the end of its head. *)
Fixpoint read_request_head (client : stream) (searched : nat) (prefix : bytes) :
    result (bytes * nat * stream) InterceptError :=
  match find_sub CRLFCRLF (drop searched prefix) with
  | Some start => Ok (prefix, (searched + start + 4)%nat, client)
  | None =>
      let searched' := (length prefix - 3)%nat in
      if (REQUEST_HEAD_BUDGET <=? N.of_nat (length prefix))%N then Err RequestHeadTooLarge
      else match client with
           | [] => Err RequestHeadTooLarge
           | Err _ :: _ => Err IoError
           | Ok chunk :: client' =>
               if bool_decide (chunk = []) then Err RequestHeadTooLarge
               else read_request_head client' searched' (prefix ++ chunk)
           end
  end.

(** [read_to_content_length]. *)
Fixpoint read_to_content_length (client : stream) (prefix : bytes) (body_end : nat)
    (on_truncation : InterceptError) : result (bytes * stream) InterceptError :=
  if (body_end <=? length prefix)%nat then Ok (prefix, client)
  else match client with
       | [] => Err on_truncation
       | Err _ :: _ => Err IoError
       | Ok chunk :: client' =>
           if bool_decide (chunk = []) then Err on_truncation
           else read_to_content_length client' (prefix ++ chunk) body_end on_truncation
       end.

(** A line feed that no carriage return precedes. *)
Fixpoint bare_line_feed (previous : N) (head : bytes) : bool :=
  match head with
  | [] => false
  | b :: head' => ((b =? LF) && negb (previous =? CR))%N || bare_line_feed b head'
  end.

(** The lines after the request line. *)
Fixpoint validate_lines (fuel : nat) (rest : bytes) (content_length : option N) (chunked : bool) :
    result unit InterceptError :=
  let finish := if chunked && bool_decide (is_Some content_length)
                then Err (MalformedHeaderBlock "content-length with transfer-encoding") else Ok tt in
  match fuel with
  | O => finish
  | S fuel' =>
      match find_sub CRLF rest with
      | None => finish
      | Some rel =>
          let line := take rel rest in
          let rest' := drop (rel + 2) rest in
          match line with
          | [] => finish
          | b :: _ =>
              if ((b =? 32) || (b =? 9))%N then Err (MalformedHeaderBlock "obsolete line fold")
              else match find_byte 58 line with
                   | None => Err (MalformedHeaderBlock "header line without a colon")
                   | Some colon =>
                       let name := take colon line in
                       if match last name with Some c => is_ascii_whitespace c | None => false end
                       then Err (MalformedHeaderBlock "whitespace before the header colon")
                       else
                         let value := trim_ascii (drop (colon + 1) line) in
                         if eq_ignore_ascii_case name (lit "transfer-encoding")
                         then validate_lines fuel' rest' content_length true
                         else if eq_ignore_ascii_case name (lit "content-length") then
                           match from_utf8 value ≫= parse_usize with
                           | None => Err (MalformedHeaderBlock "unparseable content-length")
                           | Some parsed =>
                               if match content_length with Some first => negb (first =? parsed)%N | None => false end
                               then Err (MalformedHeaderBlock "conflicting content-length")
                               else validate_lines fuel' rest' (Some parsed) chunked
                           end
                         else validate_lines fuel' rest' content_length chunked
                   end
          end
      end
  end.

Definition validate_header_block (head : bytes) : result unit InterceptError :=
  if bare_line_feed 0 head then Err (MalformedHeaderBlock "bare line feed")
  else match find_sub CRLF head with
       | None => Err (MalformedHeaderBlock "no request line")
       | Some e => validate_lines (length head) (drop (e + 2) head) None false
       end.

Definition upstream_authority (sni : bytes) (port : N) : bytes :=
  if (port =? 443)%N then sni else sni ++ lit ":" ++ dec_bytes port.

(** [bind_http1_authority]. *)
Definition authority_keep (name : bytes) : bool :=
  negb (eq_ignore_ascii_case name (lit "host")) && negb (GoogleDenylist.is_method_override_header name).

Definition bind_http1_authority (prefix authority : bytes) : bytes :=
  match find_sub CRLF prefix with
  | None => prefix
  | Some e =>
      take (e + 2) prefix ++ lit "Host: " ++ authority ++ CRLF
      ++ copy_headers (length prefix) authority_keep (drop (e + 2) prefix)
  end.

(** [request_line]. *)
Definition request_line (prefix : bytes) : option (bytes * bytes) :=
  match find_sub CRLF prefix with
  | None => None
  | Some e =>
      match from_utf8 (take e prefix) with
      | None => None
      | Some line =>
          match split_byte 32 line with
          | method :: path :: _ =>
              if bool_decide (method = []) || bool_decide (path = []) then None else Some (method, path)
          | _ => None
          end
      end
  end.

Definition request_target_is_origin_form (target : bytes) : bool :=
  bool_decide (target = lit "*") || starts_with (lit "/") target.

Definition deny_credential_operation (sni method path : bytes) : result unit InterceptError :=
  if GoogleDenylist.denies_operation sni method path
  then Err (CredentialRequestRejected method (GoogleDenylist.path_without_query path))
  else Ok tt.

(** ** Injection *)

Fixpoint render_from (entries : list InjectEntry.t) (rendered : list (InjectEntry.t * bytes)) :
    result (list (InjectEntry.t * bytes)) InterceptError :=
  match entries with
  | [] => Ok rendered
  | entry :: rest =>
      let value := replace_all (InjectEntry.header_template entry) (lit "{}") (InjectEntry.secret entry) in
      match List.find (fun x => eq_ignore_ascii_case (InjectEntry.header_name x.1) (InjectEntry.header_name entry)) rendered with
      | Some (existing, existing_value) =>
          let equivalent_mint :=
            bool_decide (is_Some (InjectEntry.mint_source entry))
            && bool_decide (InjectEntry.mint_source entry = InjectEntry.mint_source existing)
            && bool_decide (InjectEntry.header_template entry = InjectEntry.header_template existing) in
          if negb (bool_decide (existing_value = value)) && negb equivalent_mint
          then Err (InjectHeader (InjectEntry.header_name entry))
          else render_from rest rendered
      | None => render_from rest (rendered ++ [(entry, value)])
      end
  end.

Definition rendered_headers (entries : list InjectEntry.t) : result (list (bytes * bytes)) InterceptError :=
  let? rendered := render_from entries [] in
  Ok ((fun x => (InjectEntry.header_name x.1, x.2)) <$> rendered).

Definition header_line (h : bytes * bytes) : bytes := h.1 ++ lit ": " ++ h.2.

(** [strip_named_headers], after the request line. *)
Definition inject_keep (entries : list InjectEntry.t) (name : bytes) : bool :=
  negb (existsb (fun e => eq_ignore_ascii_case (InjectEntry.header_name e) name) entries).

Definition inject_headers (prefix : bytes) (entries : list InjectEntry.t) : result bytes InterceptError :=
  match entries with
  | [] => Ok prefix
  | _ =>
      match find_sub CRLF prefix with
      | None => Ok prefix
      | Some e =>
          let? rendered := rendered_headers entries in
          Ok (take (e + 2) prefix ++ concat ((fun h => header_line h ++ CRLF) <$> rendered)
              ++ copy_headers (length prefix) (inject_keep entries) (drop (e + 2) prefix))
      end
  end.

(** ** The body *)

Inductive RequestBodyFraming :=
| NoBody
| ContentLength (length : N)
| Chunked.

Fixpoint framing_lines (fuel : nat) (rest : bytes) : RequestBodyFraming :=
  match fuel with
  | O => NoBody
  | S fuel' =>
      match find_sub CRLF rest with
      | None => NoBody
      | Some rel =>
          let line := take rel rest in
          let rest' := drop (rel + 2) rest in
          if bool_decide (line = []) then NoBody
          else match find_byte 58 line with
               | None => framing_lines fuel' rest'
               | Some colon =>
                   let name := take colon line in
                   let value := trim_ascii (drop (colon + 1) line) in
                   if eq_ignore_ascii_case name (lit "transfer-encoding") then Chunked
                   else if eq_ignore_ascii_case name (lit "content-length") then
                     match from_utf8 value ≫= parse_usize with
                     | Some n => ContentLength n
                     | None => framing_lines fuel' rest'
                     end
                   else framing_lines fuel' rest'
               end
      end
  end.

Definition request_body_framing (head : bytes) : RequestBodyFraming :=
  match find_sub CRLF head with
  | None => NoBody
  | Some e => framing_lines (length head) (drop (e + 2) head)
  end.

Definition content_length_line (n : nat) : bytes :=
  lit "Content-Length: " ++ dec_bytes (N.of_nat n).

(** The lines with their [Content-Length] rewritten, and whether one was. *)
Fixpoint rewrite_lines (fuel : nat) (len : nat) (rest : bytes) : bytes * bool :=
  match fuel, rest with
  | S fuel', _ :: _ =>
      match find_sub CRLF rest with
      | None => (rest, false)
      | Some rel =>
          let line := take rel rest in
          let '(out, done_) := rewrite_lines fuel' len (drop (rel + 2) rest) in
          if eq_ignore_ascii_case (header_name line) (lit "content-length")
          then (content_length_line len ++ CRLF ++ out, true)
          else (take (rel + 2) rest ++ out, done_)
      end
  | _, _ => ([], false)
  end.

Definition rewrite_content_length (head : bytes) (len : nat) : result bytes InterceptError :=
  match find_sub CRLF head with
  | None => Err MalformedRequest
  | Some e =>
      let '(out, rewritten) := rewrite_lines (length head) len (drop (e + 2) head) in
      if rewritten then Ok (take (e + 2) head ++ out) else Err MalformedRequest
  end.

Definition substitute_request (client : stream) (prefix sni : bytes) (l : list SecretEntry.t) :
    result (bytes * stream) InterceptError :=
  if bool_decide (length l = O) then Ok (prefix, client)
  else match head_end_of prefix with
       | None => Err MalformedRequest
       | Some head_end =>
           let? x :=
             match request_body_framing (take head_end prefix) with
             | ContentLength n =>
                 if (n <=? REQUEST_BODY_BUDGET)%N then
                   let? y := read_to_content_length client prefix (head_end + N.to_nat n) MalformedRequest in
                   Ok (y, true)
                 else Ok ((prefix, client), false)
             | _ => Ok ((prefix, client), false)
             end in
           let '((prefix, client), buffered_body) := x in
           let body := drop head_end prefix in
           let head := substitute (take head_end prefix) sni l in
           if negb buffered_body then Ok (head ++ body, client)
           else
             let body := substitute body sni l in
             let? out := rewrite_content_length head (length body) in
             Ok (out ++ body, client)
       end.

(** [rewrite_request_headers]: the region is what precedes the empty line. *)
Fixpoint keep_lines (drop_name : bytes → bool) (lines : list bytes) : bytes :=
  match lines with
  | [] => []
  | line :: rest =>
      (if bool_decide (line = []) then []
       else if drop_name (to_ascii_lowercase (trim (from_utf8_lossy (header_name line)))) then []
       else line ++ CRLF) ++ keep_lines drop_name rest
  end.

Definition connection_header (strip_accept_encoding : bool) (name : bytes) : bool :=
  bool_decide (name = lit "connection") || bool_decide (name = lit "keep-alive")
  || bool_decide (name = lit "proxy-connection") || bool_decide (name = lit "upgrade")
  || (strip_accept_encoding && bool_decide (name = lit "accept-encoding")).

Definition rewrite_request_headers (prefix : bytes) (strip_accept_encoding : bool) : bytes :=
  match find_sub CRLF prefix with
  | None => prefix
  | Some p =>
      let req_line_end := (p + 2)%nat in
      let headers_end := match find_sub CRLFCRLF prefix with
                         | Some q => (q + 2)%nat
                         | None => length prefix
                         end in
      take req_line_end prefix
      ++ keep_lines (connection_header strip_accept_encoding)
           (split_crlf (drop req_line_end (take headers_end prefix)))
      ++ lit "Connection: close" ++ CRLF ++ drop headers_end prefix
  end.

Definition prepare_observed_request (prefix : bytes) : bytes := rewrite_request_headers prefix true.
Definition force_connection_close (prefix : bytes) : bytes := rewrite_request_headers prefix false.

(** ** GraphQL *)

(** The envelope of a request as the JSON library decodes it. *)
Record GraphqlRequest := MkGqlRequest {
  gr_query : option bytes; gr_operation_name : option bytes; gr_variables : option json;
}.

(** A document as the GraphQL parser returns it. *)
Inductive Selection := Field (name : bytes) | FragmentSpread | InlineFragment.

Record OperationDefinition := MkOperation { od_ty : GraphqlOperation; od_items : list Selection }.

Inductive DocumentOperations :=
| Single (op : OperationDefinition)
| Multiple (ops : list (bytes * OperationDefinition)).

Record ParsedGraphql := MkParsed { top_level : list (GraphqlOperation * bytes); variables : option json }.

Fixpoint field_names (o : GraphqlOperation) (l : list Selection) : option (list (GraphqlOperation * bytes)) :=
  match l with
  | [] => Some []
  | Field name :: l' => cons (o, name) <$> field_names o l'
  | _ :: _ => None
  end.

Section gate.
Context (from_slice : bytes → option GraphqlRequest) (parse_query : bytes → option DocumentOperations).

Definition select_operation (d : DocumentOperations) (name : option bytes) : option OperationDefinition :=
  match d with
  | Single op => Some op
  | Multiple ops =>
      match name with
      | Some n => snd <$> List.find (fun x => bool_decide (x.1 = n)) ops
      | None => match ops with [(_, op)] => Some op | _ => None end
      end
  end.

Definition parse_request_body (body : bytes) : option ParsedGraphql :=
  match from_slice body with
  | None => None
  | Some req =>
      match gr_query req with
      | None => None
      | Some query =>
          if bool_decide (trim query = []) then None
          else match parse_query query ≫= (fun d => select_operation d (gr_operation_name req)) with
               | None => None
               | Some op =>
                   match field_names (od_ty op) (od_items op) with
                   | None | Some [] => None
                   | Some l => Some (MkParsed l (gr_variables req))
                   end
               end
      end
  end.

Definition is_graphql_endpoint (inj : list InjectEntry.t) (obs : list ObserveEntry.t) (path : bytes) : bool :=
  existsb (fun e => bool_decide (is_Some (RequestPolicy.graphql (InjectEntry.policy e)))
                    && RequestPolicy.path_matches (InjectEntry.policy e) path) inj
  || existsb (fun e => bool_decide (is_Some (RequestPolicy.graphql (ObserveEntry.policy e)))
                    && RequestPolicy.path_matches (ObserveEntry.policy e) path) obs.

(** The header lines, the request line left out. *)
Fixpoint graphql_lines (lines : list bytes) (content_length : option N) : result (option N) InterceptError :=
  match lines with
  | [] => Ok content_length
  | line :: rest =>
      match split_once (lit ":") line with
      | None => graphql_lines rest content_length
      | Some (name, value) =>
          let name := to_ascii_lowercase (trim name) in
          let value := trim value in
          if bool_decide (name = lit "content-length") then graphql_lines rest (parse_usize value)
          else if bool_decide (name = lit "transfer-encoding") && contains (lit "chunked") (to_ascii_lowercase value)
          then Err (GraphqlRejected "chunked graphql body unsupported")
          else if bool_decide (name = lit "content-encoding") && negb (eq_ignore_ascii_case value (lit "identity"))
          then Err (GraphqlRejected "compressed graphql body")
          else graphql_lines rest content_length
      end
  end.

Definition graphql_content_length (head : bytes) : result nat InterceptError :=
  let? content_length := graphql_lines (tail (split_crlf head)) None in
  match content_length with
  | Some n => if (n <=? GRAPHQL_REQUEST_BODY_BUDGET)%N then Ok (N.to_nat n)
              else Err (GraphqlRejected "graphql body exceeds cap")
  | None => Err (GraphqlRejected "graphql request without content-length")
  end.

(** The entries applied, by their position in the list. *)
Fixpoint cover_fields (candidates : list (nat * InjectEntry.t)) (fields : list (GraphqlOperation * bytes))
    (applied : list (nat * InjectEntry.t)) : option (list (nat * InjectEntry.t)) :=
  match fields with
  | [] => Some applied
  | (op, f) :: rest =>
      match List.find (fun c => match RequestPolicy.graphql (InjectEntry.policy c.2) with
                                | Some g => graphql_matches g op f
                                | None => false
                                end) candidates with
      | None => None
      | Some m =>
          cover_fields candidates rest
            (if existsb (fun a => Nat.eqb a.1 m.1) applied then applied else applied ++ [m])
      end
  end.

Definition gate_graphql_injects (inj : list InjectEntry.t) (method path : bytes) (doc : ParsedGraphql) :
    option (list InjectEntry.t) :=
  match top_level doc with
  | [] => None
  | _ =>
      let candidates := List.filter (fun c =>
        bool_decide (is_Some (RequestPolicy.graphql (InjectEntry.policy c.2)))
        && RequestPolicy.method_matches (InjectEntry.policy c.2) method
        && RequestPolicy.path_matches (InjectEntry.policy c.2) path) (imap pair inj) in
      (fun l => l.*2) <$> cover_fields candidates (top_level doc) []
  end.

(** ** The policy of a request *)

Record StreamContext := MkContext {
  sc_sni : bytes;
  sc_port : N;
  sc_secrets : list SecretEntry.t;
  sc_injects : list InjectEntry.t;
  sc_observes : list ObserveEntry.t;
  sc_foreign_placeholders : list bytes;
  sc_sink : bool;
}.

Record StreamPlan := MkPlan {
  matched : list InjectEntry.t;
  firing : list ObserveEntry.t;
  redactions : list bytes;
}.

(** The order of byte slices. *)
Fixpoint bytes_leb (a b : bytes) : bool :=
  match a, b with
  | [], _ => true
  | _ :: _, [] => false
  | x :: a', y :: b' => (x <? y)%N || ((x =? y)%N && bytes_leb a' b')
  end.

Definition response_redactions (sni : bytes) (l : list SecretEntry.t) (inj : list InjectEntry.t) : list bytes :=
  dedup (sort_by bytes_leb (List.filter (fun v => negb (bool_decide (v = [])))
    ((SecretEntry.real_value <$> List.filter (fun e => HostList.matches (SecretEntry.allow e) sni) l)
     ++ (InjectEntry.secret <$> inj)))).

(** The credential of an entry after [refresh_if_stale]. *)
Context (refreshed : InjectEntry.t → CredState).

Definition with_cred (e : InjectEntry.t) : InjectEntry.t :=
  InjectEntry.Mk (InjectEntry.header_name e) (InjectEntry.header_template e) (InjectEntry.allow e)
    (InjectEntry.policy e) (InjectEntry.mint_source e) (refreshed e).

Definition observe_fires (method path : bytes) (gql : option ParsedGraphql) (e : ObserveEntry.t) : bool :=
  let policy := ObserveEntry.policy e in
  match RequestPolicy.graphql policy, gql with
  | Some matcher, Some document =>
      RequestPolicy.method_matches policy method && RequestPolicy.path_matches policy path
      && existsb (fun x => graphql_matches matcher x.1 x.2) (top_level document)
  | None, _ => RequestPolicy.allows policy method path
  | Some _, None => false
  end.

(** The injections that cover the request: a host with injections takes no
    request that none covers. *)
Definition match_injects (inj : list InjectEntry.t) (method path : bytes) (gql : option ParsedGraphql) :
    result (list InjectEntry.t) InterceptError :=
  match inj with
  | [] => Ok []
  | _ =>
      match gql with
      | Some document =>
          match gate_graphql_injects inj method path document with
          | Some l => Ok l
          | None => Err (GraphqlRejected "operation not permitted by integration policy")
          end
      | None =>
          match List.filter (fun e => bool_decide (RequestPolicy.graphql (InjectEntry.policy e) = None)
                                      && RequestPolicy.allows (InjectEntry.policy e) method path) inj with
          | [] => Err (RequestRejected method path)
          | l => Ok l
          end
      end
  end.

Definition evaluate_stream (c : StreamContext) (method path : bytes) (gql : option ParsedGraphql) :
    result StreamPlan InterceptError :=
  let? matched := match_injects (sc_injects c) method path gql in
  let matched := with_cred <$> matched in
  let firing := if sc_sink c then List.filter (observe_fires method path gql) (sc_observes c) else [] in
  Ok (MkPlan matched firing (response_redactions (sc_sni c) (sc_secrets c) matched)).

(** ** The request half of [run] *)

Record Forward := MkForward {
  fw_sent : bytes;
  fw_client : stream;
  fw_plan : StreamPlan;
  fw_method : bytes;
  fw_path : bytes;
}.

(** The rest of the connection: [tokio::io::copy] of what the guest sends after
    what was read, up to an error or an empty read, unchanged. *)
Fixpoint copied (client : stream) : bytes :=
  match client with
  | Ok (b :: chunk) :: client' => (b :: chunk) ++ copied client'
  | _ => []
  end.

(** All that is written to the upstream while it takes it. *)
Definition upstream_bytes (fw : Forward) : bytes := fw_sent fw ++ copied (fw_client fw).

(** The request up to the leak scan: what is handed to the substitution. *)
Definition gate_request (c : StreamContext) (client : stream) :
    result (bytes * stream * StreamPlan * (bytes * bytes)) InterceptError :=
  let? (prefix, head_end, client) := read_request_head client 0 [] in
  let? _ := validate_header_block (take head_end prefix) in
  let bound := bind_http1_authority prefix (upstream_authority (sc_sni c) (sc_port c)) in
  match head_end_of bound with
  | None => Err MalformedRequest
  | Some head_end =>
      match request_line bound with
      | None => Err MalformedRequest
      | Some (method, path) =>
          if negb (request_target_is_origin_form path) then Err InvalidRequestTarget
          else
            let? _ := deny_credential_operation (sc_sni c) method path in
            let? (prefix, client, gql) :=
              (if is_graphql_endpoint (sc_injects c) (sc_observes c) path then
                 match from_utf8 (take head_end bound) with
                 | None => Err (GraphqlRejected "non-utf8 headers")
                 | Some head =>
                     let? content_length := graphql_content_length head in
                     let body_end := (head_end + content_length)%nat in
                     let? (prefix, client) := read_to_content_length client bound body_end
                                                (GraphqlRejected "truncated graphql body") in
                     match parse_request_body (drop head_end (take body_end prefix)) with
                     | None => Err (GraphqlRejected "unparseable or unsupported graphql operation")
                     | Some gql => Ok (prefix, client, Some gql)
                     end
                 end
               else Ok (bound, client, None)) in
            let? plan := evaluate_stream c method path gql in
            let? prefix := inject_headers prefix (matched plan) in
            match first_match prefix (sc_foreign_placeholders c) with
            | Some placeholder => Err (Violation placeholder)
            | None => Ok (prefix, client, plan, (method, path))
            end
      end
  end.

Definition finish_request (plan : StreamPlan) (prefix : bytes) : bytes :=
  if bool_decide (length (firing plan) = O) && bool_decide (redactions plan = [])
  then force_connection_close prefix
  else prepare_observed_request prefix.

Definition run_request (c : StreamContext) (client : stream) : result Forward InterceptError :=
  let? (prefix, client, plan, (method, path)) := gate_request c client in
  let? (prefix, client) := substitute_request client prefix (sc_sni c) (sc_secrets c) in
  Ok (MkForward (finish_request plan prefix) client plan method path).

End gate.
