(* ===== verification/EgressGate.v ===== *)
(** * The HTTP/1 request gate is sound

    What [EgressHttp] lets through: requests seen as their lines, what each step
    does to the lines, and the theorems about the request that is forwarded. *)

From S2P Require Import Prelude Bytes EgressPolicy EgressRegistry EgressHttp.

(** ** Requests as lines *)

Definition crlf_free (s : bytes) : Prop := ¬ occurs CRLF s.

Definition header_block (hs : list bytes) : bytes := concat ((fun l => l ++ CRLF) <$> hs).

(** A request: its request line, its header lines, what follows the empty line. *)
Definition render (rl : bytes) (hs : list bytes) (body : bytes) : bytes :=
  rl ++ CRLF ++ header_block hs ++ CRLF ++ body.

Definition wf_lines (hs : list bytes) : Prop := Forall (fun l => l ≠ [] ∧ crlf_free l) hs.

Lemma starts_with_app_iff p q s :
  starts_with (p ++ q) s = starts_with p s && starts_with q (drop (length p) s).
Proof.
  revert s. induction p as [|a p IH]; intros [|b s]; cbn [app starts_with length drop]; try done.
  by rewrite IH, andb_assoc.
Qed.

Lemma find_sub_skip n a s :
  (∀ j, (j < length a)%nat → starts_with n (drop j (a ++ s)) = false) →
  find_sub n (a ++ s) = (fun i => length a + i)%nat <$> find_sub n s.
Proof.
  induction a as [|x a IH]; intros H; cbn [app length].
  - by destruct (find_sub n s).
  - cbn [find_sub]. pose proof (H O ltac:(cbn; lia)) as H0. cbn [drop app] in H0. rewrite H0, IH.
    + by destruct (find_sub n s).
    + intros j Hj. apply (H (S j)). cbn. lia.
Qed.

Lemma crlf_front l t j :
  crlf_free l → (j < length l)%nat → starts_with CRLF (drop j (l ++ CRLF ++ t)) = false.
Proof.
  intros Hl Hj. apply not_true_iff_false. intros H. apply Hl. exists (take j l).
  destruct (drop j l) as [|x [|y r]] eqn:E.
  - apply (f_equal length) in E. rewrite length_drop in E. cbn in E. lia.
  - rewrite drop_app_le, E in H by lia. apply starts_with_spec in H as [u [= _ H]].
  - rewrite drop_app_le, E in H by lia. apply starts_with_spec in H as [u [= -> -> _]].
    exists r. rewrite <- (take_drop j l) at 1. by rewrite E.
Qed.

Lemma find_crlf_line l t : crlf_free l → find_sub CRLF (l ++ CRLF ++ t) = Some (length l).
Proof.
  intros Hl. rewrite find_sub_skip by (intros; by apply crlf_front).
  change (find_sub CRLF (CRLF ++ t)) with (Some O). cbn. by rewrite Nat.add_0_r.
Qed.

Lemma find_crlf_Some s i :
  find_sub CRLF s = Some i → s = take i s ++ CRLF ++ drop (i + 2) s ∧ crlf_free (take i s) ∧ (i + 2 ≤ length s)%nat.
Proof.
  intros H. pose proof (find_sub_cut _ _ _ H) as Hc. destruct (find_sub_Some _ _ _ H) as (_&Hi&Hmin).
  assert (Hl : (i + 2 ≤ length s)%nat).
  { apply (f_equal length) in Hc. rewrite !length_app, length_take, length_drop in Hc. cbn in Hc. lia. }
  split_and!; [exact Hc| |done]. intros (a&b&E).
  assert (Ha : (length a < i)%nat).
  { apply (f_equal length) in E. rewrite !length_app, length_take in E. cbn in E. lia. }
  specialize (Hmin _ Ha). rewrite <- not_true_iff_false in Hmin. apply Hmin.
  rewrite <- (take_drop i s), E, <- !app_assoc, drop_app_length. apply starts_with_app.
Qed.

Lemma header_block_cons l hs t : header_block (l :: hs) ++ t = l ++ CRLF ++ header_block hs ++ t.
Proof. unfold header_block. cbn [fmap list_fmap concat]. by rewrite <- !app_assoc. Qed.

(** The end of the head in a request given by its lines. *)
Lemma find_head_end rl hs body :
  crlf_free rl → wf_lines hs →
  find_sub CRLFCRLF (render rl hs body) = Some (length rl + length (header_block hs))%nat.
Proof.
  intros Hrl Hhs. unfold render. revert rl Hrl. induction Hhs as [|l hs [Hne Hl] Hhs IH]; intros rl Hrl.
  - rewrite find_sub_skip.
    + change (find_sub CRLFCRLF (CRLF ++ header_block [] ++ CRLF ++ body)) with (Some O). done.
    + intros j Hj. unfold CRLFCRLF. rewrite starts_with_app_iff, crlf_front by done. done.
  - rewrite header_block_cons, find_sub_skip.
    2:{ intros j Hj. unfold CRLFCRLF. rewrite starts_with_app_iff, crlf_front by done. done. }
    assert (E : find_sub CRLFCRLF (CRLF ++ l ++ CRLF ++ header_block hs ++ CRLF ++ body) =
      (fun i => 2 + i)%nat <$> find_sub CRLFCRLF (l ++ CRLF ++ header_block hs ++ CRLF ++ body)).
    { rewrite find_sub_skip; [done|]. intros [|[|j]] Hj; [|done|cbn in Hj; lia].
      unfold CRLFCRLF. rewrite starts_with_app_iff. change (drop (length CRLF) (drop 0 (CRLF ++ ?x))) with x.
      destruct l as [|x l]; [done|]. pose proof (crlf_front (x :: l) (header_block hs ++ CRLF ++ body) 0 Hl ltac:(cbn; lia)) as H.
      change (drop 0 ?x) with x in *. rewrite H. apply andb_false_r. }
    rewrite E, IH by done. cbn. f_equal. unfold header_block. cbn [fmap list_fmap concat].
    rewrite !length_app. cbn. lia.
Qed.

Lemma head_end_render rl hs body :
  crlf_free rl → wf_lines hs → head_end_of (render rl hs body) = Some (length (render rl hs [])).
Proof.
  intros. unfold head_end_of. rewrite find_head_end by done. cbn. f_equal. unfold render.
  rewrite !length_app. cbn. lia.
Qed.

Lemma split_head n rest j :
  (length rest < n)%nat → find_sub CRLFCRLF (CRLF ++ rest) = Some j →
  ∃ hs body, wf_lines hs ∧ rest = header_block hs ++ CRLF ++ body.
Proof.
  revert rest j. induction n as [|n IH]; intros rest j Hn H; [lia|].
  destruct (starts_with CRLF rest) eqn:E.
  { apply starts_with_spec in E as [body ->]. exists [], body. split; [constructor|done]. }
  assert (Hf : find_sub CRLFCRLF (CRLF ++ rest) = (fun i => 2 + i)%nat <$> find_sub CRLFCRLF rest).
  { rewrite find_sub_skip; [done|]. intros [|[|i]] Hi; [|by destruct rest|cbn in Hi; lia].
    unfold CRLFCRLF. rewrite starts_with_app_iff. change (drop (length CRLF) (drop 0 (CRLF ++ ?x))) with x.
    by rewrite E, andb_false_r. }
  rewrite Hf in H. apply fmap_Some in H as (i&Hi&->).
  assert (Ho : is_Some (find_sub CRLF rest)).
  { apply find_sub_is_Some. apply find_sub_cut in Hi. exists (take i rest), (CRLF ++ drop (i + length CRLFCRLF) rest).
    unfold CRLFCRLF in Hi at 1. by rewrite <- app_assoc in Hi. }
  destruct Ho as [k Hk]. destruct (find_crlf_Some _ _ Hk) as (Hc&Hl&Hlen).
  set (line := take k rest) in *. set (rest' := drop (k + 2) rest) in *.
  assert (Hne : line ≠ []).
  { intros El. rewrite Hc, El in E. by rewrite app_nil_l, starts_with_app in E. }
  destruct (find_sub CRLFCRLF (CRLF ++ rest')) as [j'|] eqn:E'.
  - destruct (IH rest' j') as (hs&body&Hw&Hr); [unfold rest'; rewrite length_drop; lia|done|].
    exists (line :: hs), body. split; [by constructor|]. rewrite header_block_cons, <- Hr. exact Hc.
  - exfalso. rewrite Hc, find_sub_skip in Hi.
    + by rewrite E' in Hi.
    + intros q Hq. unfold CRLFCRLF. rewrite starts_with_app_iff, crlf_front by done. done.
Qed.

(** A request with an end of head is made of lines. *)
Lemma split_request prefix n :
  head_end_of prefix = Some n →
  ∃ rl hs body, crlf_free rl ∧ wf_lines hs ∧ prefix = render rl hs body ∧ n = length (render rl hs []).
Proof.
  intros H. pose proof H as H0. unfold head_end_of in H. apply fmap_Some in H as (i&Hi&->).
  assert (Ho : is_Some (find_sub CRLF prefix)).
  { apply find_sub_is_Some. apply find_sub_cut in Hi. exists (take i prefix), (CRLF ++ drop (i + length CRLFCRLF) prefix).
    unfold CRLFCRLF in Hi at 1. by rewrite <- app_assoc in Hi. }
  destruct Ho as [e He]. destruct (find_crlf_Some _ _ He) as (Hc&Hl&_).
  assert (Hf : find_sub CRLFCRLF prefix = (fun i => length (take e prefix) + i)%nat <$> find_sub CRLFCRLF (CRLF ++ drop (e + 2) prefix)).
  { rewrite Hc at 1. rewrite find_sub_skip; [done|]. intros q Hq. unfold CRLFCRLF.
    rewrite starts_with_app_iff, crlf_front by done. done. }
  rewrite Hf in Hi. apply fmap_Some in Hi as (j&Hj&_).
  destruct (split_head (S (length (drop (e + 2) prefix))) (drop (e + 2) prefix) j) as (hs&body&Hw&Hr); [lia|done|].
  exists (take e prefix), hs, body. assert (E : prefix = render (take e prefix) hs body).
  { unfold render. rewrite <- Hr. exact Hc. }
  split_and!; [done..|]. rewrite E, head_end_render in H0 by done. by injection H0.
Qed.

(** ** Operations on lines *)

Lemma ok_inj {A E} (a b : A) : @Ok A E a = Ok b → a = b.
Proof. congruence. Qed.

Lemma lf_crlf_free s : 10%N ∉ s → crlf_free s.
Proof. intros H (a&b&->). apply H. unfold CRLF. set_solver. Qed.

Lemma take_line l t : take (length l + 2) (l ++ CRLF ++ t) = l ++ CRLF.
Proof. rewrite app_assoc, take_app_length' by (rewrite length_app; done). done. Qed.

Lemma drop_line l t : drop (length l + 2) (l ++ CRLF ++ t) = t.
Proof. rewrite app_assoc, drop_app_length' by (rewrite length_app; done). done. Qed.

Lemma header_block_length hs : (length hs ≤ length (header_block hs))%nat.
Proof.
  induction hs as [|l hs IH]; [done|]. unfold header_block in *. cbn [fmap list_fmap concat].
  rewrite !length_app. cbn. lia.
Qed.

Lemma header_block_app hs hs' : header_block (hs ++ hs') = header_block hs ++ header_block hs'.
Proof. unfold header_block. by rewrite fmap_app, concat_app. Qed.

Lemma copy_headers_lines fuel keep hs body :
  wf_lines hs → (length hs < fuel)%nat →
  copy_headers fuel keep (header_block hs ++ CRLF ++ body) =
  header_block (List.filter (fun l => keep (header_name l)) hs) ++ CRLF ++ body.
Proof.
  intros Hw. revert fuel. induction Hw as [|l hs [Hne Hl] Hw IH]; intros [|fuel] Hf; cbn in Hf; try lia.
  - done.
  - rewrite header_block_cons. cbn [copy_headers]. rewrite find_crlf_line by done.
    rewrite take_app_length, take_line, drop_line. rewrite bool_decide_false by done. rewrite IH by lia.
    cbn [List.filter]. destruct (keep (header_name l)); [|done]. by rewrite header_block_cons, <- app_assoc.
Qed.

Lemma bind_render rl hs body authority :
  crlf_free rl → wf_lines hs →
  bind_http1_authority (render rl hs body) authority =
  render rl ((lit "Host: " ++ authority) :: List.filter (fun l => authority_keep (header_name l)) hs) body.
Proof.
  intros Hrl Hw. unfold bind_http1_authority, render. rewrite find_crlf_line by done.
  rewrite take_line, drop_line, copy_headers_lines.
  - by rewrite header_block_cons, <- !app_assoc.
  - done.
  - rewrite !length_app. pose proof (header_block_length hs). cbn. lia.
Qed.

Lemma inject_render rl hs body entries out :
  crlf_free rl → wf_lines hs → inject_headers (render rl hs body) entries = Ok out →
  ∃ rendered, rendered_headers entries = Ok rendered ∧
    out = render rl ((header_line <$> rendered) ++ List.filter (fun l => inject_keep entries (header_name l)) hs) body.
Proof.
  intros Hrl Hw. destruct entries as [|e entries].
  - intros [= <-]. exists []. split; [done|]. cbn [app fmap list_fmap]. f_equal.
    induction hs as [|l hs IH]; [done|]. cbn. f_equal. apply IH. by inversion Hw.
  - unfold inject_headers, render. rewrite find_crlf_line by done.
    destruct (rendered_headers (e :: entries)) as [rendered|]; [|done]. intros <-%ok_inj. exists rendered. split; [done|].
    rewrite take_line, drop_line, copy_headers_lines.
    + unfold header_block at 2. rewrite fmap_app, concat_app, <- list_fmap_compose, <- !app_assoc. done.
    + done.
    + rewrite !length_app. pose proof (header_block_length hs). cbn. lia.
Qed.

Lemma request_line_render rl hs hs' body body' :
  crlf_free rl → request_line (render rl hs body) = request_line (render rl hs' body').
Proof. intros H. unfold request_line, render. rewrite !find_crlf_line, !take_app_length by done. done. Qed.

Lemma split_crlf_line l t : crlf_free l → split_crlf (l ++ CRLF ++ t) = l :: split_crlf t.
Proof.
  intros Hl. unfold split_crlf. induction l as [|x l IH].
  - reflexivity.
  - cbn [app split_crlf_from]. pose proof (crlf_front (x :: l) t 0 Hl ltac:(cbn; lia)) as H. cbn [drop app] in H. rewrite H.
    rewrite IH; [done|]. intros (a&b&->). apply Hl. by exists (x :: a), b.
Qed.

Lemma split_header_block hs : wf_lines hs → split_crlf (header_block hs) = hs ++ [[]].
Proof.
  induction 1 as [|l hs [_ Hl] Hw IH]; [done|]. rewrite <- (app_nil_r (header_block (l :: hs))), header_block_cons, app_nil_r.
  by rewrite split_crlf_line, IH.
Qed.

(** The name the connection headers are compared by. *)
Definition lower_name (line : bytes) : bytes := to_ascii_lowercase (trim (from_utf8_lossy (header_name line))).

Lemma keep_lines_filter f hs :
  Forall (fun l => l ≠ []) hs →
  keep_lines f (hs ++ [[]]) = header_block (List.filter (fun l => negb (f (lower_name l))) hs).
Proof.
  induction 1 as [|l hs Hl Hw IH]; [done|]. cbn [app keep_lines]. rewrite IH, bool_decide_false by done.
  cbn [List.filter]. unfold lower_name. destruct (f _); cbn [negb]; [done|].
  by rewrite <- (app_nil_r (header_block (l :: _))), header_block_cons, app_nil_r, <- app_assoc.
Qed.

Lemma rewrite_render rl hs body b :
  crlf_free rl → wf_lines hs →
  rewrite_request_headers (render rl hs body) b =
  render rl (List.filter (fun l => negb (connection_header b (lower_name l))) hs ++ [lit "Connection: close"]) body.
Proof.
  intros Hrl Hw. unfold rewrite_request_headers. rewrite find_head_end by done. unfold render at 1 2.
  rewrite find_crlf_line by done. rewrite take_line.
  assert (E : (length rl + length (header_block hs) + 2)%nat = length ((rl ++ CRLF) ++ header_block hs)).
  { rewrite !length_app. cbn. lia. }
  assert (E' : render rl hs body = ((rl ++ CRLF) ++ header_block hs) ++ CRLF ++ body).
  { unfold render. by rewrite <- !app_assoc. }
  rewrite E, E', take_app_length, drop_app_length. rewrite drop_app_length' by (rewrite length_app; done).
  rewrite split_header_block, keep_lines_filter; [|eapply Forall_impl; [exact Hw|naive_solver]|done].
  unfold render. rewrite header_block_app, <- !app_assoc. done.
Qed.

(** ** Reading and validating *)

Lemma read_request_head_end client : ∀ searched prefix p n c,
  (∀ j, (j < searched)%nat → starts_with CRLFCRLF (drop j prefix) = false) → (searched ≤ length prefix)%nat →
  read_request_head client searched prefix = Ok (p, n, c) → head_end_of p = Some n.
Proof.
  induction client as [|x client IH]; intros searched prefix p n c Hs Hle; cbn [read_request_head];
    destruct (find_sub CRLFCRLF (drop searched prefix)) as [start|] eqn:E.
  1,3: intros [= <- <- <-]; unfold head_end_of; rewrite <- (take_drop searched prefix), find_sub_skip, E, length_take;
    [cbn; f_equal; lia|]; intros j Hj; rewrite take_drop; apply Hs; rewrite length_take in Hj; lia.
  - destruct (_ <=? _)%N; done.
  - destruct (_ <=? _)%N; [done|]. destruct x as [chunk|]; [|done]. case_bool_decide; [done|].
    apply IH; [|rewrite length_app; lia]. intros j Hj. rewrite drop_app_le by lia.
    rewrite starts_with_front by (rewrite length_drop; cbn; lia).
    destruct (decide (j < searched)%nat); [by apply Hs|].
    pose proof (find_sub_None _ _ (j - searched) E) as H'. rewrite length_drop, drop_drop in H'.
    replace (searched + (j - searched))%nat with j in H' by lia. apply H'. lia.
Qed.

(** What the reads up to [client'] returned. *)
Definition taken (client client' : list (result bytes unit)) (b : bytes) : Prop :=
  ∃ chunks, client = (Ok <$> chunks) ++ client' ∧ b = concat chunks ∧ [] ∉ chunks.

Lemma taken_nil client : taken client client [].
Proof. exists []. split_and!; [done|done|apply not_elem_of_nil]. Qed.

Lemma taken_cons chunk client client' b :
  chunk ≠ [] → taken client client' b → taken (Ok chunk :: client) client' (chunk ++ b).
Proof.
  intros Hne (chunks&->&->&Hn). exists (chunk :: chunks). split_and!; [done|done|].
  intros [?|?]%elem_of_cons; congruence.
Qed.

Lemma taken_trans c1 c2 c3 b b' : taken c1 c2 b → taken c2 c3 b' → taken c1 c3 (b ++ b').
Proof.
  intros (l&->&->&Hl) (l'&->&->&Hl'). exists (l ++ l'). rewrite fmap_app, app_assoc, concat_app.
  split_and!; [done|done|]. rewrite elem_of_app. tauto.
Qed.

Lemma taken_copied client client' b : taken client client' b → copied client = b ++ copied client'.
Proof.
  intros (chunks&->&->&Hn). induction chunks as [|[|x chunk] chunks IH]; [done|destruct Hn; left|].
  cbn. rewrite IH, app_assoc by (intros H; apply Hn; by right). done.
Qed.

Lemma read_request_head_taken client : ∀ searched prefix p n client',
  read_request_head client searched prefix = Ok (p, n, client') → ∃ b, p = prefix ++ b ∧ taken client client' b.
Proof.
  induction client as [|x client IH]; intros searched prefix p n client'; cbn [read_request_head];
    destruct (find_sub CRLFCRLF (drop searched prefix)) as [start|].
  1,3: intros [= <- <- <-]; exists []; rewrite app_nil_r; split; [done|apply taken_nil].
  - destruct (_ <=? _)%N; done.
  - destruct (_ <=? _)%N; [done|]. destruct x as [chunk|]; [|done]. case_bool_decide; [done|].
    intros (b&->&Hb)%IH. exists (chunk ++ b). rewrite app_assoc. split; [done|]. by apply taken_cons.
Qed.

Lemma read_to_content_length_taken client : ∀ prefix n e p client',
  read_to_content_length client prefix n e = Ok (p, client') → ∃ b, p = prefix ++ b ∧ taken client client' b.
Proof.
  induction client as [|x client IH]; intros prefix n e p client'; cbn [read_to_content_length];
    destruct (Nat.leb_spec n (length prefix)) as [Hle|Hlt]; try done.
  1,2: intros [= <- <-]; exists []; rewrite app_nil_r; split; [done|apply taken_nil].
  destruct x as [chunk|]; [|done]. case_bool_decide; [done|]. intros (b&->&Hb)%IH.
  exists (chunk ++ b). rewrite app_assoc. split; [done|]. by apply taken_cons.
Qed.

Lemma read_to_content_length_app client : ∀ prefix n e p c,
  read_to_content_length client prefix n e = Ok (p, c) → (∃ more, p = prefix ++ more) ∧ (n ≤ length p)%nat.
Proof.
  induction client as [|x client IH]; intros prefix n e p c; cbn [read_to_content_length];
    destruct (Nat.leb_spec n (length prefix)) as [Hle|Hlt]; try done.
  1,2: intros [= <- <-]; split; [exists []; by rewrite app_nil_r|done].
  destruct x as [chunk|]; [|done]. case_bool_decide; [done|]. intros [[more ->] Hn]%IH.
  split; [|done]. exists (chunk ++ more). by rewrite app_assoc.
Qed.

Lemma render_app rl hs body more : render rl hs body ++ more = render rl hs (body ++ more).
Proof. unfold render. by rewrite <- !app_assoc. Qed.

Lemma render_head rl hs body : render rl hs body = render rl hs [] ++ body.
Proof. by rewrite render_app. Qed.

Lemma render_length rl hs body : length (render rl hs body) = (length (render rl hs []) + length body)%nat.
Proof. by rewrite render_head, length_app. Qed.

Lemma take_head rl hs body : take (length (render rl hs [])) (render rl hs body) = render rl hs [].
Proof. rewrite (render_head rl hs body). apply take_app_length. Qed.

Lemma drop_take_body rl hs body n :
  drop (length (render rl hs [])) (take (length (render rl hs []) + n) (render rl hs body)) = take n body.
Proof.
  rewrite (render_head rl hs body), take_app_add, drop_app_length. done.
Qed.

(** A line without a line end inside, and with no bare line feed, has none. *)
Lemma bare_lf_line s t prev :
  bare_line_feed prev (s ++ t) = false → ¬ occurs CRLF (prev :: s) → 10%N ∉ s.
Proof.
  revert prev. induction s as [|b s IH]; intros prev; cbn [app bare_line_feed]; [set_solver|].
  intros [H1 H2]%orb_false_iff Ho. apply not_elem_of_cons. split.
  - intros <-. apply Ho. apply andb_false_iff in H1 as [H1|H1]; [done|]. apply negb_false_iff, N.eqb_eq in H1. subst prev.
    by exists [], s.
  - apply (IH b); [done|]. intros (a&c&E). apply Ho. exists (prev :: a), c. cbn. by f_equal.
Qed.

Lemma bare_lf_drop s t prev : bare_line_feed prev (s ++ t) = false → bare_line_feed (default prev (last s)) t = false.
Proof.
  revert prev. induction s as [|b s IH]; intros prev; [done|]. cbn [app bare_line_feed]. intros [_ H]%orb_false_iff.
  apply IH in H. rewrite last_cons. by destruct (last s).
Qed.

Lemma crlf_free_cons b s : b ≠ 13%N → crlf_free s → ¬ occurs CRLF (b :: s).
Proof. intros Hb Hs ([|x a]&c&E); [by injection E|]. injection E as -> E. apply Hs. by exists a, c. Qed.

Lemma bare_lf_lines hs t prev :
  prev ≠ 13%N → wf_lines hs → bare_line_feed prev (header_block hs ++ t) = false → Forall (fun l => 10%N ∉ l) hs.
Proof.
  intros Hp Hw. revert prev Hp. induction Hw as [|l hs [_ Hl] Hw IH]; intros prev Hp; [constructor|].
  rewrite header_block_cons. intros H. constructor.
  - eapply bare_lf_line; [exact H|by apply crlf_free_cons].
  - rewrite app_assoc in H. apply bare_lf_drop in H. unfold CRLF in H. rewrite last_app in H. cbn in H.
    by apply (IH 10%N).
Qed.

Lemma validate_lines_colons fuel hs t cl ch :
  wf_lines hs → (length hs < fuel)%nat →
  validate_lines fuel (header_block hs ++ CRLF ++ t) cl ch = Ok tt → Forall (fun l => 58%N ∈ l) hs.
Proof.
  intros Hw. revert fuel cl ch. induction Hw as [|l hs [Hne Hl] Hw IH]; intros [|fuel] cl ch Hf; cbn in Hf; try lia;
    [constructor|]. rewrite header_block_cons. cbn [validate_lines].
  rewrite find_crlf_line by done. rewrite take_app_length, drop_line.
  destruct l as [|b l']; [done|]. destruct (_ || _); [done|].
  destruct (find_byte 58 (b :: l')) as [colon|] eqn:Ec; [|done].
  assert (Hc : 58%N ∈ b :: l').
  { apply find_byte_Some in Ec as [-> _]. set_solver. }
  destruct (match last _ with Some _ => _ | None => _ end); [done|].
  intros H. constructor; [exact Hc|]. revert H.
  destruct (eq_ignore_ascii_case _ _); [apply IH; lia|].
  destruct (eq_ignore_ascii_case _ _); [|apply IH; lia].
  destruct (_ ≫= _); [|done]. destruct (match cl with Some _ => _ | None => _ end); [done|apply IH; lia].
Qed.

(** What validation says of a head given by its lines. *)
Lemma validate_render rl hs body :
  crlf_free rl → wf_lines hs → validate_header_block (take (length (render rl hs [])) (render rl hs body)) = Ok tt →
  10%N ∉ rl ∧ Forall (fun l => 10%N ∉ l ∧ 58%N ∈ l) hs.
Proof.
  intros Hrl Hw. assert (E : render rl hs body = render rl hs [] ++ body) by (by rewrite render_app).
  rewrite E, take_app_length. unfold validate_header_block.
  destruct (bare_line_feed 0 (render rl hs [])) eqn:Hb; [done|].
  unfold render at 1 2 3. rewrite find_crlf_line by done. rewrite drop_line. intros Hv.
  apply validate_lines_colons in Hv; [|done|].
  2:{ unfold render. rewrite !length_app. pose proof (header_block_length hs). cbn. lia. }
  unfold render in Hb. split.
  - eapply bare_lf_line; [exact Hb|by apply crlf_free_cons].
  - rewrite app_assoc in Hb. apply bare_lf_drop in Hb. rewrite last_app in Hb. cbn in Hb.
    apply bare_lf_lines in Hb; [|done|done]. apply Forall_and. done.
Qed.

(** ** Injected headers *)

Definition inject_value (e : InjectEntry.t) : bytes :=
  replace_all (InjectEntry.header_template e) (lit "{}") (InjectEntry.secret e).

Definition entry_name (e : InjectEntry.t) : bytes := to_ascii_lowercase (InjectEntry.header_name e).

Lemma render_from_spec entries : ∀ acc out,
  render_from entries acc = Ok out → NoDup ((fun x => entry_name x.1) <$> acc) →
  ∃ new, out = acc ++ new ∧ NoDup ((fun x => entry_name x.1) <$> out) ∧
    (∀ x, x ∈ new → x.1 ∈ entries ∧ x.2 = inject_value x.1) ∧
    (∀ e, e ∈ entries → ∃ x, x ∈ out ∧ entry_name x.1 = entry_name e).
Proof.
  induction entries as [|e entries IH]; intros acc out; cbn [render_from].
  - intros [= <-] Hnd. exists []. rewrite app_nil_r. split_and!; [done|done|set_solver|set_solver].
  - destruct (List.find _ acc) as [[ex v]|] eqn:Hf.
    + apply find_some in Hf as [Hin Heq]. rewrite <- list_elem_of_In in Hin. cbn in Heq. unfold eq_ignore_ascii_case in Heq. bool_prop.
      destruct (_ && _); [done|]. intros H Hnd. destruct (IH _ _ H Hnd) as (new&->&Hnd'&Hnew&Hall).
      exists new. split_and!; [done..| |].
      * intros x Hx%Hnew. set_solver.
      * intros e' [->|He']%elem_of_cons; [|by apply Hall]. exists (ex, v). split; [|done]. set_solver.
    + intros H Hnd. destruct (IH _ _ H) as (new&->&Hnd'&Hnew&Hall).
      { rewrite fmap_app. apply NoDup_app. split_and!; [done| |apply NoDup_singleton].
        intros n (x&->&Hx)%list_elem_of_fmap Hn. cbn in Hn. apply list_elem_of_singleton in Hn.
        rewrite list_elem_of_In in Hx. apply (find_none _ _ Hf) in Hx. unfold eq_ignore_ascii_case in Hx. by bool_prop. }
      exists ((e, inject_value e) :: new). rewrite <- app_assoc in *. split_and!; [done..| |].
      * intros x [->|Hx%Hnew]%elem_of_cons; set_solver.
      * intros e' [->|He']%elem_of_cons; [|by apply Hall]. exists (e, inject_value e). set_solver.
Qed.

Lemma rendered_headers_spec entries l :
  rendered_headers entries = Ok l →
  NoDup ((fun h => to_ascii_lowercase h.1) <$> l) ∧
  (∀ h, h ∈ l → ∃ e, e ∈ entries ∧ h = (InjectEntry.header_name e, inject_value e)) ∧
  (∀ e, e ∈ entries → ∃ h, h ∈ l ∧ to_ascii_lowercase h.1 = entry_name e).
Proof.
  unfold rendered_headers. destruct (render_from entries []) as [r|] eqn:E; [|done]. intros <-%ok_inj.
  destruct (render_from_spec _ _ _ E) as (new&->&Hnd&Hnew&Hall); [constructor|]. cbn [app] in *. split_and!.
  - rewrite <- list_fmap_compose. exact Hnd.
  - intros h ([e v]&->&Hx)%list_elem_of_fmap. destruct (Hnew _ Hx) as [? Hv]. cbn in *. subst v. by exists e.
  - intros e (x&Hx&Hn)%Hall. exists (InjectEntry.header_name x.1, x.2). split; [|done]. apply list_elem_of_fmap. by exists x.
Qed.

(** ** Lines by name *)

Definition named (n : bytes) (line : bytes) : bool := eq_ignore_ascii_case (header_name line) n.

Lemma header_name_line n v : 58%N ∉ n → header_name (header_line (n, v)) = n.
Proof.
  intros Hn. unfold header_name, header_line. cbn [fst snd].
  assert (E : find_byte 58 (n ++ lit ": " ++ v) = Some (length n)).
  { induction n as [|b n IH]; [reflexivity|]. apply not_elem_of_cons in Hn as [Hb Hn]. cbn [app find_byte length].
    rewrite IH by done. by rewrite (proj2 (N.eqb_neq b 58)) by done. }
  by rewrite E, take_app_length.
Qed.

Lemma filter_none_kept {A} (f : A → bool) l : (∀ x, x ∈ l → f x = false) → List.filter f l = [].
Proof.
  induction l as [|x l IH]; intros H; [done|]. cbn. rewrite H by left. apply IH. intros y Hy. apply H. by right.
Qed.

Lemma filter_app_bool {A} (f : A → bool) l k : List.filter f (l ++ k) = List.filter f l ++ List.filter f k.
Proof. induction l as [|x l IH]; cbn; [done|]. destruct (f x); cbn; by rewrite IH. Qed.

(** Of headers with distinct names, one has the name. *)
Lemma filter_rendered l h :
  Forall (fun x => 58%N ∉ x.1) l → NoDup ((fun x : bytes * bytes => to_ascii_lowercase x.1) <$> l) → h ∈ l →
  List.filter (named h.1) (header_line <$> l) = [header_line h].
Proof.
  intros Hc Hnd Hh. induction l as [|x l IH]; [set_solver|]. cbn [fmap list_fmap] in Hnd. apply NoDup_cons in Hnd as [Hx Hnd].
  apply Forall_cons in Hc as [Hcx Hc]. cbn [fmap list_fmap List.filter]. unfold named at 1.
  destruct x as [n v]. rewrite header_name_line by done. unfold eq_ignore_ascii_case.
  apply elem_of_cons in Hh as [->|Hh].
  - rewrite bool_decide_true by done. f_equal. apply filter_none_kept. intros y (z&->&Hz)%list_elem_of_fmap.
    destruct z as [n' v']. unfold named, eq_ignore_ascii_case. rewrite header_name_line.
    + apply bool_decide_false. cbn. intros E. apply Hx. apply list_elem_of_fmap. by exists (n', v').
    + rewrite Forall_forall in Hc. by apply (Hc (n', v')).
  - rewrite bool_decide_false; [by apply IH|]. intros E. apply Hx. apply list_elem_of_fmap. by exists h.
Qed.

(** ** Substitution and lines *)

Lemma replace_from_drop n r k s : replace_from n r k s = replace_from n r 0 (drop k s).
Proof.
  revert k. induction s as [|b s IH]; intros [|k]; try done. cbn [replace_from drop]. apply IH.
Qed.

Lemma starts_with_sep n a c b : c ∉ n → starts_with n (a ++ c :: b) = starts_with n a.
Proof.
  intros Hc. revert a. induction n as [|x n IH]; intros [|y a]; cbn [app starts_with]; try done.
  - apply not_elem_of_cons in Hc as [Hx _]. by rewrite (proj2 (N.eqb_neq x c)) by done.
  - apply not_elem_of_cons in Hc as [_ Hc]. by rewrite IH.
Qed.

Lemma replace_from_sep n r c a b :
  n ≠ [] → c ∉ n → replace_from n r 0 (a ++ c :: b) = replace_from n r 0 a ++ c :: replace_from n r 0 b.
Proof.
  intros Hn Hc. remember (length a) as k eqn:Hk. revert a Hk.
  induction (lt_wf k) as [k _ IH]. intros [|x a] Hk.
  - cbn [app replace_from]. change (c :: b) with ([] ++ c :: b). rewrite starts_with_sep by done.
    by destruct n.
  - cbn [app replace_from]. change (x :: a ++ c :: b) with ((x :: a) ++ c :: b). rewrite starts_with_sep by done.
    destruct (starts_with n (x :: a)) eqn:E.
    + rewrite !(replace_from_drop _ _ (pred _)). assert (Hl : (length n ≤ length (x :: a))%nat).
      { apply starts_with_inv in E. apply (f_equal length) in E. rewrite length_app in E. lia. }
      destruct n as [|y n]; [done|]. cbn [length pred] in *. rewrite drop_app_le by lia.
      rewrite (IH (length (drop (length n) a))); [by rewrite <- app_assoc|rewrite length_drop; lia|done].
    + rewrite (IH (length a)); [done|cbn in Hk; lia|done].
Qed.

Lemma replace_all_eq buf n r : n ≠ [] → replace_all buf n r = replace_from n r 0 buf.
Proof.
  intros Hn. unfold replace_all. rewrite bool_decide_false by done. cbn [orb].
  destruct (Nat.ltb_spec (length buf) (length n)) as [Hlt|]; [|done].
  induction buf as [|b buf IH]; [done|]. cbn [replace_from]. rewrite starts_with_short by done.
  f_equal. apply IH. cbn in Hlt. lia.
Qed.

Lemma replace_from_elem n r c k s : c ∈ replace_from n r k s → c ∈ r ∨ c ∈ s.
Proof.
  revert k. induction s as [|b s IH]; intros [|k]; cbn [replace_from]; try set_solver.
  destruct (starts_with n (b :: s)); set_solver.
Qed.

(** A secret that leaves the lines of a request as they are. *)
Definition clean_secret (s : SecretEntry.t) : Prop :=
  10%N ∉ SecretEntry.placeholder s ∧ 13%N ∉ SecretEntry.placeholder s ∧ 58%N ∉ SecretEntry.placeholder s ∧
  10%N ∉ SecretEntry.real_value s.

Section substitution.
Context (sni : bytes) (l : list SecretEntry.t) (Hclean : Forall clean_secret l).

Lemma substitute_sep c a b :
  c = 10%N ∨ c = 13%N ∨ c = 58%N → substitute (a ++ c :: b) sni l = substitute a sni l ++ c :: substitute b sni l.
Proof using Hclean.
  intros Hc. unfold substitute. revert a b. pose proof Hclean as Hcl. clear Hclean. revert Hcl.
  induction 1 as [|s l' (H1&H2&H3&_) _ IH]; intros a b; [done|].
  cbn [fold_left]. destruct (negb _); [apply IH|]. etrans; [|apply IH]. f_equal.
  destruct (decide (SecretEntry.placeholder s = [])) as [E|E].
  - unfold replace_all. by rewrite !bool_decide_true by done.
  - rewrite !replace_all_eq by done. apply replace_from_sep; [done|]. naive_solver.
Qed.

Lemma substitute_lf a : 10%N ∉ a → 10%N ∉ substitute a sni l.
Proof using Hclean.
  unfold substitute. revert a. pose proof Hclean as Hcl. clear Hclean. revert Hcl.
  induction 1 as [|s l' (_&_&_&H4) _ IH]; intros a Ha; [done|].
  cbn [fold_left]. apply IH. destruct (negb _); [done|]. unfold replace_all.
  destruct (_ || _); [done|]. intros [?|?]%replace_from_elem; done.
Qed.

Lemma substitute_crlf a b : substitute (a ++ CRLF ++ b) sni l = substitute a sni l ++ CRLF ++ substitute b sni l.
Proof using Hclean.
  change (a ++ CRLF ++ b) with (a ++ 13%N :: ([] ++ 10%N :: b)). rewrite !substitute_sep by auto.
  assert (E : substitute [] sni l = []).
  { unfold substitute. clear. induction l as [|s l' IH]; [done|]. cbn [fold_left]. destruct (negb _); [done|].
    unfold replace_all. by destruct (_ || _). }
  by rewrite E.
Qed.

Lemma substitute_nil : substitute [] sni l = [].
Proof using.
  unfold substitute. clear. induction l as [|s l' IH]; [done|]. cbn [fold_left]. destruct (negb _); [done|].
  unfold replace_all. by destruct (_ || _).
Qed.

Lemma substitute_block hs t :
  substitute (header_block hs ++ t) sni l = header_block ((fun h => substitute h sni l) <$> hs) ++ substitute t sni l.
Proof using Hclean.
  induction hs as [|h hs IH]; [done|]. cbn [fmap list_fmap]. rewrite !header_block_cons, substitute_crlf, IH. done.
Qed.

Lemma substitute_head rl hs :
  substitute (render rl hs []) sni l = render (substitute rl sni l) ((fun h => substitute h sni l) <$> hs) [].
Proof using Hclean.
  unfold render. rewrite substitute_crlf, substitute_block.
  change (CRLF ++ []) with ([] ++ CRLF ++ []). by rewrite substitute_crlf, substitute_nil.
Qed.

Lemma substitute_line h : 10%N ∉ h → 58%N ∈ h → substitute h sni l ≠ [] ∧ 10%N ∉ substitute h sni l ∧ 58%N ∈ substitute h sni l.
Proof using Hclean.
  intros H1 H2. assert (H : 58%N ∈ substitute h sni l).
  { apply list_elem_of_split in H2 as (a&b&->). rewrite substitute_sep by auto. set_solver. }
  split_and!; [|by apply substitute_lf|done]. intros E. rewrite E in H. set_solver.
Qed.

End substitution.

(** ** The plan *)

Lemma cover_fields_spec candidates fields : ∀ applied out,
  cover_fields candidates fields applied = Some out →
  (∀ x, x ∈ applied → x ∈ out) ∧ (∀ x, x ∈ out → x ∈ applied ∨ x ∈ candidates) ∧
  (∀ op f, (op, f) ∈ fields → ∃ i e g, (i, e) ∈ candidates ∧ RequestPolicy.graphql (InjectEntry.policy e) = Some g ∧
     graphql_matches g op f = true ∧ i ∈ out.*1).
Proof.
  induction fields as [|[op f] fields IH]; intros applied out; cbn [cover_fields].
  - intros [= <-]. split_and!; [done|by left|set_solver].
  - destruct (List.find _ candidates) as [[i e]|] eqn:Hf; [|done].
    apply find_some in Hf as [Hin Hm]. rewrite <- list_elem_of_In in Hin. cbn in Hm.
    destruct (RequestPolicy.graphql (InjectEntry.policy e)) as [g|] eqn:Hg; [|done].
    intros (H1&H2&H3)%IH. split_and!.
    + intros x Hx. apply H1. destruct (existsb _ _); [done|]. set_solver.
    + intros x [Hx|Hx]%H2; [|by right]. destruct (existsb _ _); [by left|]. set_solver.
    + intros op' f' [[= -> ->]|Hx]%elem_of_cons; [|by apply H3]. exists i, e, g. split_and!; [done..|].
      apply list_elem_of_fmap. destruct (existsb (fun a => Nat.eqb a.1 (i, e).1) applied) eqn:E.
      * apply existsb_exists in E as ([i' e']&Hin'&Ei). rewrite <- list_elem_of_In in Hin'. cbn in Ei.
        apply Nat.eqb_eq in Ei. subst i'. exists (i, e'). split; [done|]. by apply H1.
      * exists (i, e). split; [done|]. apply H1. set_solver.
Qed.

Lemma imap_pair_inj {A} (l : list A) i x y : (i, x) ∈ imap pair l → (i, y) ∈ imap pair l → x = y.
Proof.
  rewrite !list_elem_of_lookup. intros [j Hj] [k Hk]. rewrite list_lookup_imap in Hj, Hk.
  destruct (l !! j) eqn:Ej; [|done]. destruct (l !! k) eqn:Ek; [|done]. cbn in *. injection Hj as -> ->. injection Hk as -> ->.
  congruence.
Qed.

Lemma imap_pair_elem {A} (l : list A) i x : (i, x) ∈ imap pair l → x ∈ l.
Proof.
  rewrite list_elem_of_lookup. intros [j Hj]. rewrite list_lookup_imap in Hj.
  destruct (l !! j) eqn:Ej; [|done]. cbn in Hj. injection Hj as -> ->. by eapply list_elem_of_lookup_2.
Qed.

(** The set-coverage gate: every field is covered by an entry that is applied. *)
Lemma gate_graphql_spec inj method path doc l :
  gate_graphql_injects inj method path doc = Some l →
  top_level doc ≠ [] ∧ l ≠ [] ∧
  (∀ e, e ∈ l → e ∈ inj ∧ RequestPolicy.allows (InjectEntry.policy e) method path = true ∧
     is_Some (RequestPolicy.graphql (InjectEntry.policy e))) ∧
  (∀ op f, (op, f) ∈ top_level doc → ∃ e g, e ∈ l ∧ RequestPolicy.graphql (InjectEntry.policy e) = Some g ∧
     graphql_matches g op f = true).
Proof.
  unfold gate_graphql_injects. destruct (top_level doc) as [|[op0 f0] fields] eqn:Et; [done|].
  set (cands := List.filter _ _). intros (out&Hout&->)%fmap_Some.
  destruct (cover_fields_spec _ _ _ _ Hout) as (_&H2&H3).
  assert (Hc : ∀ i e, (i, e) ∈ cands → (i, e) ∈ imap pair inj ∧ RequestPolicy.allows (InjectEntry.policy e) method path = true ∧
     is_Some (RequestPolicy.graphql (InjectEntry.policy e))).
  { intros i e H. unfold cands in H. rewrite list_elem_of_In, filter_In, <- list_elem_of_In in H. destruct H as [H Hb].
    cbn in Hb. bool_prop. split_and!; [done| |done]. unfold RequestPolicy.allows. by rewrite H1, H4. }
  assert (Hcov : ∀ op f, (op, f) ∈ (op0, f0) :: fields → ∃ e g, e ∈ out.*2 ∧
     RequestPolicy.graphql (InjectEntry.policy e) = Some g ∧ graphql_matches g op f = true).
  { intros op f (i&e&g&Hin&Hg&Hm&Hi)%H3. apply list_elem_of_fmap in Hi as ([i' e']&->&Hi).
    destruct (H2 _ Hi) as [?|Hi']; [set_solver|]. cbn in Hin. exists e', g. split_and!; [|..].
    - apply list_elem_of_fmap. by exists (i', e').
    - destruct (Hc _ _ Hin) as [Hin1 _]. destruct (Hc _ _ Hi') as [Hin2 _].
      by rewrite <- (imap_pair_inj _ _ _ _ Hin1 Hin2).
    - done. }
  split_and!; [done| | |done].
  - destruct (Hcov op0 f0) as (e&g&He&_); [left|]. intros E. rewrite E in He. set_solver.
  - intros e ([i e']&->&Hi)%list_elem_of_fmap. destruct (H2 _ Hi) as [?|Hi']; [set_solver|].
    destruct (Hc _ _ Hi') as (?&?&?). split_and!; [by eapply imap_pair_elem|done..].
Qed.

(** What a plan may inject into a request. *)
Definition permitted (c : StreamContext) (method path : bytes) (gql : option ParsedGraphql)
    (refreshed : InjectEntry.t → CredState) (e : InjectEntry.t) : Prop :=
  ∃ e0, e0 ∈ sc_injects c ∧ e = with_cred refreshed e0 ∧
    RequestPolicy.allows (InjectEntry.policy e0) method path = true ∧
    (is_Some (RequestPolicy.graphql (InjectEntry.policy e0)) ↔ is_Some gql).

Lemma dedup_elem {A} `{EqDecision A} (l : list A) x : x ∈ dedup l ↔ x ∈ l.
Proof.
  induction l as [|y l IH]; [done|]. cbn [dedup]. destruct l as [|z l]; [done|].
  case_decide as E; [subst; rewrite IH; set_solver|]. rewrite !elem_of_cons in *. rewrite IH. done.
Qed.

Lemma redactions_elem sni l inj v :
  v ∈ response_redactions sni l inj ↔ v ≠ [] ∧
    ((∃ s, s ∈ l ∧ HostList.matches (SecretEntry.allow s) sni = true ∧ v = SecretEntry.real_value s) ∨
     ∃ e, e ∈ inj ∧ v = InjectEntry.secret e).
Proof.
  unfold response_redactions. rewrite dedup_elem, sort_by_perm, list_elem_of_In, filter_In, <- list_elem_of_In.
  rewrite negb_true_iff, bool_decide_eq_false, elem_of_app, !list_elem_of_fmap.
  setoid_rewrite list_elem_of_In at 1. setoid_rewrite filter_In. setoid_rewrite <- list_elem_of_In. naive_solver.
Qed.

Lemma match_injects_spec inj method path gql l :
  match_injects inj method path gql = Ok l →
  (inj ≠ [] → l ≠ []) ∧
  (∀ e, e ∈ l → e ∈ inj ∧ RequestPolicy.allows (InjectEntry.policy e) method path = true ∧
     (is_Some (RequestPolicy.graphql (InjectEntry.policy e)) ↔ is_Some gql)) ∧
  (∀ doc op f, gql = Some doc → inj ≠ [] → (op, f) ∈ top_level doc →
     ∃ e g, e ∈ l ∧ RequestPolicy.graphql (InjectEntry.policy e) = Some g ∧ graphql_matches g op f = true).
Proof.
  destruct inj as [|i0 inj]; cbn [match_injects]; [intros [= <-]; split_and!; [done|set_solver|done]|].
  destruct gql as [doc|].
  - destruct (gate_graphql_injects (i0 :: inj) method path doc) as [l'|] eqn:Hg; [|done]. intros <-%ok_inj.
    destruct (gate_graphql_spec _ _ _ _ _ Hg) as (_&Hne&Hl&Hcov). split_and!; [done| |].
    + intros e He. destruct (Hl _ He) as (?&?&?). by split_and!.
    + intros doc' op f [= <-] _. apply Hcov.
  - destruct (List.filter _ _) as [|x l'] eqn:El; [done|]. intros <-%ok_inj. rewrite <- El. split_and!; [by rewrite El| |done].
    intros e. rewrite list_elem_of_In, filter_In, <- list_elem_of_In. intros [? Hb]. bool_prop. split_and!; [done..|].
    by rewrite H0, !is_Some_alt.
Qed.

Lemma evaluate_stream_spec refreshed c method path gql plan :
  evaluate_stream refreshed c method path gql = Ok plan →
  (sc_injects c ≠ [] → matched plan ≠ []) ∧
  (∀ e, e ∈ matched plan → permitted c method path gql refreshed e) ∧
  (∀ doc op f, gql = Some doc → sc_injects c ≠ [] → (op, f) ∈ top_level doc →
     ∃ e g, e ∈ matched plan ∧ RequestPolicy.graphql (InjectEntry.policy e) = Some g ∧ graphql_matches g op f = true) ∧
  redactions plan = response_redactions (sc_sni c) (sc_secrets c) (matched plan).
Proof.
  unfold evaluate_stream. destruct (match_injects _ _ _ _) as [l|] eqn:Hm; [|done]. intros <-%ok_inj. cbn [matched redactions].
  destruct (match_injects_spec _ _ _ _ _ Hm) as (H1&H2&H3). split_and!; [..|done].
  - intros Hi%H1. by destruct l.
  - intros e (e0&->&He)%list_elem_of_fmap. destruct (H2 _ He) as (?&?&?). by exists e0.
  - intros doc op f Hd Hi Hin. destruct (H3 _ _ _ Hd Hi Hin) as (e&g&He&?&?).
    exists (with_cred refreshed e), g. split_and!; [|done..]. apply list_elem_of_fmap. by exists e.
Qed.

(** ** The request that is forwarded *)

(** An injection whose header leaves the lines of a request as they are. *)
Definition clean_inject (e : InjectEntry.t) : Prop :=
  10%N ∉ InjectEntry.header_name e ∧ 58%N ∉ InjectEntry.header_name e ∧
  10%N ∉ InjectEntry.header_template e ∧ 10%N ∉ InjectEntry.secret e.

Lemma inject_value_lf e : clean_inject e → 10%N ∉ inject_value e.
Proof.
  intros (_&_&Ht&Hs) H. unfold inject_value, replace_all in H. destruct (_ || _); [done|].
  by apply replace_from_elem in H as [?|?].
Qed.

Definition good_lines (hs : list bytes) : Prop := Forall (fun l => 10%N ∉ l ∧ 58%N ∈ l) hs.

Lemma good_wf hs : good_lines hs → wf_lines hs.
Proof.
  intros H. eapply Forall_impl; [exact H|]. intros l [H1 H2]. split; [|by apply lf_crlf_free].
  intros ->. set_solver.
Qed.

Lemma good_filter f hs : good_lines hs → good_lines (List.filter f hs).
Proof.
  unfold good_lines. rewrite !Forall_forall. intros H l. rewrite list_elem_of_In, filter_In, <- list_elem_of_In. naive_solver.
Qed.

Section gate_sound.
Context (from_slice : bytes → option GraphqlRequest) (parse_query : bytes → option DocumentOperations).
Context (refreshed : InjectEntry.t → CredState) (c : StreamContext).
Context (Hauthority : 10%N ∉ upstream_authority (sc_sni c) (sc_port c)).
Context (Hinjects : ∀ e, e ∈ sc_injects c → clean_inject (with_cred refreshed e)).
Context (Hsecrets : Forall clean_secret (sc_secrets c)).
Notation gate := (gate_request from_slice parse_query refreshed c).
Notation run := (run_request from_slice parse_query refreshed c).

Definition host_line : bytes := lit "Host: " ++ upstream_authority (sc_sni c) (sc_port c).

(** The lines of a gated request, with the injections of its plan. *)
Record gated (hs : list bytes) (plan : StreamPlan) : Prop := {
  gd_host : (∀ e, e ∈ matched plan → entry_name e ≠ lit "host") → List.filter (named (lit "host")) hs = [host_line];
  gd_override : (∀ e, e ∈ matched plan → GoogleDenylist.is_method_override_header (InjectEntry.header_name e) = false) →
    ∀ l, l ∈ hs → GoogleDenylist.is_method_override_header (header_name l) = false;
  gd_injected : ∀ e, e ∈ matched plan → ∃ e', e' ∈ matched plan ∧ entry_name e' = entry_name e ∧
    List.filter (named (InjectEntry.header_name e)) hs =
      [header_line (InjectEntry.header_name e', inject_value e')];
}.

Lemma host_line_name : header_name host_line = lit "Host".
Proof. unfold host_line. change (lit "Host: " ++ ?x) with (header_line (lit "Host", x)). apply header_name_line.
  rewrite list_elem_of_In. vm_compute. intuition discriminate. Qed.

Lemma host_line_good : 10%N ∉ host_line ∧ 58%N ∈ host_line.
Proof using Hauthority.
  split.
  - unfold host_line. rewrite elem_of_app. intros [H|H]; [|done]. rewrite list_elem_of_In in H. vm_compute in H. intuition discriminate.
  - unfold host_line. rewrite elem_of_app. left. rewrite list_elem_of_In. vm_compute. tauto.
Qed.

Lemma authority_lines hs :
  List.filter (named (lit "host")) (host_line :: List.filter (fun l => authority_keep (header_name l)) hs) = [host_line] ∧
  ∀ l, l ∈ host_line :: List.filter (fun l => authority_keep (header_name l)) hs →
    GoogleDenylist.is_method_override_header (header_name l) = false.
Proof.
  assert (H : ∀ l, l ∈ List.filter (fun l => authority_keep (header_name l)) hs → authority_keep (header_name l) = true).
  { intros l. rewrite list_elem_of_In, filter_In. naive_solver. }
  unfold authority_keep in H. split.
  - cbn [List.filter]. unfold named at 1. rewrite host_line_name. change (eq_ignore_ascii_case _ _) with true. cbn beta iota.
    f_equal. apply filter_none_kept. intros l Hl%H. unfold named. by bool_prop.
  - intros l [->|Hl%H]%elem_of_cons; [rewrite host_line_name; vm_compute; reflexivity|]. by bool_prop.
Qed.

Lemma eq_ignore_sym a b : eq_ignore_ascii_case a b = eq_ignore_ascii_case b a.
Proof. unfold eq_ignore_ascii_case. apply bool_decide_ext. split; congruence. Qed.

Lemma named_lower n n' l : to_ascii_lowercase n = to_ascii_lowercase n' → named n l = named n' l.
Proof. intros E. unfold named, eq_ignore_ascii_case. by rewrite E. Qed.

Lemma override_lower n n' :
  to_ascii_lowercase n = to_ascii_lowercase n' →
  GoogleDenylist.is_method_override_header n = GoogleDenylist.is_method_override_header n'.
Proof. intros E. unfold GoogleDenylist.is_method_override_header, eq_ignore_ascii_case. by rewrite E. Qed.

(** Injection keeps the lines in order, and its own headers are the only ones
    of their names. *)
Lemma inject_lines plan hs rendered :
  Forall clean_inject (matched plan) → rendered_headers (matched plan) = Ok rendered →
  List.filter (named (lit "host")) hs = [host_line] →
  (∀ l, l ∈ hs → GoogleDenylist.is_method_override_header (header_name l) = false) →
  gated ((header_line <$> rendered) ++ List.filter (fun l => inject_keep (matched plan) (header_name l)) hs) plan.
Proof.
  intros Hcl Hr Hh Ho. destruct (rendered_headers_spec _ _ Hr) as (Hnd&Hfrom&Hto).
  assert (Hcol : Forall (fun x : bytes * bytes => 58%N ∉ x.1) rendered).
  { apply Forall_forall. intros h (e&He&->)%Hfrom. rewrite Forall_forall in Hcl. by destruct (Hcl _ He) as (_&?&_). }
  assert (Hkept : ∀ l e, l ∈ List.filter (fun l => inject_keep (matched plan) (header_name l)) hs → e ∈ matched plan →
    named (InjectEntry.header_name e) l = false).
  { intros l e Hl He. rewrite list_elem_of_In, filter_In in Hl. destruct Hl as [_ Hk]. unfold inject_keep in Hk.
    apply negb_true_iff in Hk. destruct (named (InjectEntry.header_name e) l) eqn:E; [|done]. exfalso.
    rewrite <- not_true_iff_false in Hk. apply Hk. apply existsb_exists. exists e. split; [by apply list_elem_of_In|].
    by rewrite eq_ignore_sym. }
  split.
  - intros Hn. rewrite filter_app_bool, filter_none_kept.
    + cbn [app]. rewrite <- Hh. clear Hh Hkept Ho. induction hs as [|l hs IH]; [done|]. cbn [List.filter].
      destruct (named (lit "host") l) eqn:E.
      * assert (K : inject_keep (matched plan) (header_name l) = true).
        { unfold inject_keep. apply negb_true_iff. apply not_true_iff_false. rewrite existsb_exists.
          intros (e&He%list_elem_of_In&Ee). unfold named, eq_ignore_ascii_case in E, Ee. bool_prop.
          apply (Hn _ He). unfold entry_name. by rewrite Ee, E. }
        rewrite K. cbn [List.filter]. by rewrite E, IH.
      * destruct (inject_keep _ _); cbn [List.filter]; [by rewrite E|done].
    + intros x (h&->&Hx)%list_elem_of_fmap. destruct (Hfrom _ Hx) as (e&He&->). unfold named.
      rewrite Forall_forall in Hcl. rewrite header_name_line by (by destruct (Hcl _ He) as (_&?&_)).
      apply bool_decide_false. intros E. by apply (Hn _ He).
  - intros Hn l [(h&->&Hx)%list_elem_of_fmap|Hl]%elem_of_app.
    + destruct (Hfrom _ Hx) as (e&He&->). rewrite Forall_forall in Hcl.
      rewrite header_name_line by (by destruct (Hcl _ He) as (_&?&_)). by apply Hn.
    + rewrite list_elem_of_In, filter_In, <- list_elem_of_In in Hl. destruct Hl as [Hl _]. by apply Ho.
  - intros e He. destruct (Hto _ He) as (h&Hin&Hn). destruct (Hfrom _ Hin) as (e'&He'&->). cbn in Hn.
    exists e'. split_and!; [done..|]. rewrite filter_app_bool, (filter_none_kept _ (List.filter _ hs)) by (by intros; apply Hkept).
    rewrite app_nil_r, <- (filter_rendered _ _ Hcol Hnd Hin). cbn [fst].
    clear -Hn. induction rendered as [|x r IH]; [done|]. cbn. rewrite (named_lower _ (InjectEntry.header_name e')) by done.
    by rewrite IH.
Qed.

(** The guest's lines with its own [Host] and method overrides gone and the
    authority of the SNI in front. *)
Definition bound_lines (hs0 : list bytes) : list bytes :=
  host_line :: List.filter (fun l => authority_keep (header_name l)) hs0.

(** What the GraphQL part of the policy is asked about: on a GraphQL endpoint
    the document in the declared length of the body, elsewhere nothing. *)
Definition graphql_read (rl : bytes) (hs0 : list bytes) (path body : bytes) (gql : option ParsedGraphql) : Prop :=
  if is_graphql_endpoint (sc_injects c) (sc_observes c) path then
    ∃ head n, from_utf8 (render rl (bound_lines hs0) []) = Some head ∧
      graphql_content_length head = Ok n ∧ (n ≤ length body)%nat ∧
      parse_request_body from_slice parse_query (take n body) = gql ∧ is_Some gql
  else gql = None.

(** What the gate hands to the substitution, of a request with lines [hs0] and
    body [body]. *)
Record gate_result (mid : bytes) (plan : StreamPlan) (method path : bytes) (rl : bytes) (hs0 hs : list bytes)
    (body : bytes) (gql : option ParsedGraphql) : Prop := {
  gr_graphql : graphql_read rl hs0 path body gql;
  gr_injected : ∃ rendered, rendered_headers (matched plan) = Ok rendered ∧
    hs = (header_line <$> rendered) ++ List.filter (fun l => inject_keep (matched plan) (header_name l)) (bound_lines hs0);
  gr_shape : mid = render rl hs body ∧ 10%N ∉ rl ∧ good_lines hs;
  gr_lines : gated hs plan;
  gr_request : request_line mid = Some (method, path) ∧ request_target_is_origin_form path = true ∧
    GoogleDenylist.denies_operation (sc_sni c) method path = false;
  gr_plan : (sc_injects c ≠ [] → matched plan ≠ []) ∧
    (∀ e, e ∈ matched plan → permitted c method path gql refreshed e) ∧
    (∀ doc op f, gql = Some doc → sc_injects c ≠ [] → (op, f) ∈ top_level doc →
       ∃ e g, e ∈ matched plan ∧ RequestPolicy.graphql (InjectEntry.policy e) = Some g ∧ graphql_matches g op f = true) ∧
    redactions plan = response_redactions (sc_sni c) (sc_secrets c) (matched plan);
  gr_foreign : ∀ ph, ph ∈ sc_foreign_placeholders c → ph ≠ [] → ¬ occurs ph mid;
}.

Lemma first_match_None buf l ph : first_match buf l = None → ph ∈ l → ph ≠ [] → ¬ occurs ph buf.
Proof.
  intros Hf Hin Hne Ho. rewrite list_elem_of_In in Hin. pose proof (find_none _ _ Hf _ Hin) as H. cbn in H. unfold memmem in H.
  rewrite bool_decide_false in H by done. cbn [orb] in H.
  destruct (Nat.ltb_spec (length buf) (length ph)) as [Hlt|].
  - destruct Ho as (a&b&->). rewrite !length_app in Hlt. lia.
  - rewrite <- not_true_iff_false, contains_spec in H. done.
Qed.

Lemma rendered_good entries rendered :
  Forall clean_inject entries → rendered_headers entries = Ok rendered → good_lines (header_line <$> rendered).
Proof.
  intros Hcl Hr. destruct (rendered_headers_spec _ _ Hr) as (_&Hfrom&_). apply Forall_forall.
  intros l (h&->&(e&He&->)%Hfrom)%list_elem_of_fmap. rewrite Forall_forall in Hcl. specialize (Hcl _ He).
  pose proof (inject_value_lf _ Hcl) as Hv. destruct Hcl as (Hn&_). unfold header_line. cbn [fst snd]. split.
  - rewrite !elem_of_app. intros [?|[H|?]]; [done| |done]. rewrite list_elem_of_In in H. vm_compute in H. intuition discriminate.
  - rewrite !elem_of_app. right. left. rewrite list_elem_of_In. vm_compute. tauto.
Qed.

(** The request as the gate reads it: bound to the authority, with more body if
    the body had to be read. *)
Lemma gate_finish rl hs body method path gql plan mid :
  10%N ∉ rl → good_lines hs →
  evaluate_stream refreshed c method path gql = Ok plan →
  request_line (render rl hs body) = Some (method, path) → request_target_is_origin_form path = true →
  GoogleDenylist.denies_operation (sc_sni c) method path = false →
  inject_headers (render rl (host_line :: List.filter (fun l => authority_keep (header_name l)) hs) body) (matched plan) = Ok mid →
  first_match mid (sc_foreign_placeholders c) = None → graphql_read rl hs path body gql →
  ∃ hs', gate_result mid plan method path rl hs hs' body gql.
Proof using Hauthority Hinjects.
  intros Hrl Hhs Hev Hline Horigin Hden Hinj Hfm Hgql.
  assert (Hgood : good_lines (host_line :: List.filter (fun l => authority_keep (header_name l)) hs)).
  { constructor; [apply host_line_good|by apply good_filter]. }
  destruct (evaluate_stream_spec _ _ _ _ _ _ Hev) as (P1&P2&P3&P4).
  assert (Hcl : Forall clean_inject (matched plan)).
  { apply Forall_forall. intros e (e0&He0&->&_)%P2. by apply Hinjects. }
  destruct (inject_render _ _ _ _ _ (lf_crlf_free _ Hrl) (good_wf _ Hgood) Hinj) as (rendered&Hr&->).
  destruct (authority_lines hs) as [Hh Ho]. eexists. split.
  - done.
  - by exists rendered.
  - split_and!; [done|done|]. apply Forall_app. split; [by eapply rendered_good|by apply good_filter].
  - by apply inject_lines.
  - split_and!; [|done..]. rewrite <- Hline. by apply request_line_render, lf_crlf_free.
  - done.
  - intros ph. by apply first_match_None.
Qed.

Lemma gate_request_spec client mid client' plan method path :
  gate client = Ok (mid, client', plan, (method, path)) →
  ∃ rl hs0 hs body gql, taken client client' (render rl hs0 body) ∧
    gate_result mid plan method path rl hs0 hs body gql.
Proof using Hauthority Hinjects.
  unfold gate_request. destruct (read_request_head client 0 []) as [[[prefix n] cl]|] eqn:Hread; [|done].
  destruct (read_request_head_taken _ _ _ _ _ _ Hread) as (b0&E0&Htk). cbn [app] in E0. subst b0.
  apply read_request_head_end in Hread; [|intros; lia|cbn; lia].
  destruct (split_request _ _ Hread) as (rl&hs&body&Hrl&Hw&->&->).
  destruct (validate_header_block _) as [[]|] eqn:Hval; [|done]. apply validate_render in Hval as [Hlf Hgood]; [|done|done].
  rewrite bind_render by done. fold host_line.
  assert (Hg2 : good_lines (host_line :: List.filter (fun l => authority_keep (header_name l)) hs)).
  { constructor; [apply host_line_good|by apply good_filter]. }
  rewrite head_end_render by (by try apply good_wf).
  destruct (request_line _) as [[m p]|] eqn:Hl; [|done].
  destruct (request_target_is_origin_form p) eqn:Horg; cbn [negb]; [|done].
  unfold deny_credential_operation. destruct (GoogleDenylist.denies_operation (sc_sni c) m p) eqn:Hden; [done|].
  fold (bound_lines hs). fold (bound_lines hs) in Hl, Hg2. set (h2 := bound_lines hs) in *.
  destruct (if is_graphql_endpoint _ _ _ then _ else _) as [[[prefix cl'] gql]|] eqn:Hg; [|done].
  assert (Hp : ∃ more, prefix = render rl h2 (body ++ more) ∧ taken cl cl' more ∧
    graphql_read rl hs p (body ++ more) gql).
  { unfold graphql_read. destruct (is_graphql_endpoint _ _ _).
    - rewrite take_head in Hg. destruct (from_utf8 (render rl h2 [])) as [hd|] eqn:Hu; [|done].
      destruct (graphql_content_length hd) as [n|] eqn:Hn; [|done].
      destruct (read_to_content_length _ _ _ _) as [[pr cl2]|] eqn:Hr; [|done].
      destruct (parse_request_body _ _ _) as [doc|] eqn:Hd; [|done]. apply ok_inj in Hg. injection Hg as <- <- <-.
      pose proof (proj2 (read_to_content_length_app _ _ _ _ _ _ Hr)) as Hlen.
      apply read_to_content_length_taken in Hr as (more&->&Hmore). exists more. rewrite render_app in *.
      rewrite (render_length _ _ (body ++ more)) in Hlen. split_and!; [done|done|]. exists hd, n.
      rewrite drop_take_body in Hd. split_and!; [done|done|lia|done|by eexists].
    - apply ok_inj in Hg. injection Hg as <- <- <-. exists []. rewrite app_nil_r.
      split_and!; [done|apply taken_nil|done]. }
  destruct Hp as (more&->&Hmore&Hgql). destruct (evaluate_stream _ _ _ _ _) as [pl|] eqn:Hev; [|done].
  destruct (inject_headers _ _) as [out|] eqn:Hinj; [|done].
  destruct (first_match out _) eqn:Hfm; [done|]. intros H%ok_inj. injection H as -> -> -> -> ->.
  rewrite (request_line_render rl _ hs _ (body ++ more)) in Hl by done.
  destruct (gate_finish _ _ _ _ _ _ _ _ Hlf Hgood Hev Hl Horg Hden Hinj Hfm Hgql) as (hs'&Hres).
  exists rl, hs, hs', (body ++ more), gql. split; [|done]. rewrite <- render_app. by eapply taken_trans.
Qed.

(** ** Substitution keeps the lines and the length *)

Notation sub x := (substitute x (sc_sni c) (sc_secrets c)).

(** The [Content-Length] lines rewritten, if the body was substituted. *)
Definition set_length (len : option nat) (l : bytes) : bytes :=
  match len with
  | Some n => if named (lit "content-length") l then content_length_line n else l
  | None => l
  end.

Lemma rewrite_lines_block len hs : ∀ fuel,
  wf_lines hs → (length hs < fuel)%nat →
  rewrite_lines fuel len (header_block hs ++ CRLF) =
  (header_block (set_length (Some len) <$> hs) ++ CRLF, existsb (named (lit "content-length")) hs).
Proof.
  induction hs as [|l hs IH]; intros [|fuel] Hw Hf; cbn in Hf; try lia.
  - by destruct fuel.
  - apply Forall_cons in Hw as [[Hne Hl] Hw]. rewrite header_block_cons.
    destruct l as [|b l]; [done|]. cbn [rewrite_lines app]. change (b :: l ++ ?t) with ((b :: l) ++ t).
    rewrite find_crlf_line by done. rewrite take_app_length, take_line, drop_line, IH by (done || lia).
    cbn [fmap list_fmap existsb set_length].
    change (eq_ignore_ascii_case (header_name (b :: l)) (lit "content-length")) with (named (lit "content-length") (b :: l)).
    destruct (named (lit "content-length") (b :: l)); cbn [orb]; rewrite header_block_cons; [done|].
    by rewrite <- !app_assoc.
Qed.

Lemma dec_bytes_lf n : 10%N ∉ dec_bytes n.
Proof.
  unfold dec_bytes. generalize (N.to_uint n) as d. intros d H.
  induction d as [|d IH|d IH|d IH|d IH|d IH|d IH|d IH|d IH|d IH|d IH]; [by apply not_elem_of_nil in H|..];
    (apply elem_of_cons in H as [H|H]; [discriminate H|by apply IH]).
Qed.

Lemma content_length_good n : 10%N ∉ content_length_line n ∧ 58%N ∈ content_length_line n.
Proof.
  unfold content_length_line. split.
  - rewrite elem_of_app. intros [H|H].
    + rewrite list_elem_of_In in H. vm_compute in H. intuition discriminate.
    + by apply dec_bytes_lf in H.
  - rewrite elem_of_app. left. rewrite list_elem_of_In. vm_compute. tauto.
Qed.
Lemma sub_good hs : good_lines hs → good_lines ((fun h => sub h) <$> hs).
Proof using Hsecrets.
  intros H. apply Forall_fmap. eapply Forall_impl; [exact H|]. intros l [H1 H2].
  destruct (substitute_line (sc_sni c) _ Hsecrets l H1 H2) as (_&?&?). done.
Qed.

Lemma set_length_good len hs : good_lines hs → good_lines (set_length len <$> hs).
Proof.
  intros H. apply Forall_fmap. eapply Forall_impl; [exact H|]. intros l Hl. destruct len as [n|]; [|done].
  cbn. destruct (named _ l); [apply content_length_good|done].
Qed.

(** The substitution of a request: of its head alone, or of its head and body,
    with the length of the new body in its [Content-Length] lines. *)
Lemma substitute_request_spec client rl hs body out client' :
  10%N ∉ rl → good_lines hs →
  substitute_request client (render rl hs body) (sc_sni c) (sc_secrets c) = Ok (out, client') →
  (out = render (sub rl) ((fun h => sub h) <$> hs) body ∧ client' = client ∨
   ∃ more n, taken client client' more ∧ request_body_framing (render rl hs []) = ContentLength n ∧
     (n ≤ REQUEST_BODY_BUDGET)%N ∧ (N.to_nat n ≤ length (body ++ more))%nat ∧
     existsb (named (lit "content-length")) ((fun h => sub h) <$> hs) = true ∧
     out = render (sub rl) (set_length (Some (length (sub (body ++ more)))) <$> ((fun h => sub h) <$> hs)) (sub (body ++ more))).
Proof using Hsecrets.
  intros Hrl Hhs. unfold substitute_request. case_bool_decide as Hn.
  { assert (E : sc_secrets c = []) by (by destruct (sc_secrets c)). rewrite E. intros H%ok_inj. injection H as <- <-. left.
    unfold substitute. cbn [fold_left]. by rewrite list_fmap_id. }
  pose proof (lf_crlf_free _ Hrl) as Hcr. pose proof (good_wf _ Hhs) as Hw.
  rewrite head_end_render by done.
  assert (Et : ∀ b, take (length (render rl hs [])) (render rl hs b) = render rl hs []).
  { intros b. replace (render rl hs b) with (render rl hs [] ++ b) by (by rewrite render_app). apply take_app_length. }
  assert (Ed : ∀ b, drop (length (render rl hs [])) (render rl hs b) = b).
  { intros b. replace (render rl hs b) with (render rl hs [] ++ b) by (by rewrite render_app). apply drop_app_length. }
  rewrite Et.
  assert (Hdone : substitute (take (length (render rl hs [])) (render rl hs body)) (sc_sni c) (sc_secrets c) ++
      drop (length (render rl hs [])) (render rl hs body) = render (sub rl) ((fun h => sub h) <$> hs) body).
  { rewrite Et, Ed, (substitute_head _ _ Hsecrets), render_app. done. }
  destruct (request_body_framing (render rl hs [])) as [|n|] eqn:Hf; cbn [negb].
  1,3: rewrite Et, Ed in Hdone; rewrite Et, Ed; intros H%ok_inj; injection H as <- <-; by left.
  destruct (N.leb_spec n REQUEST_BODY_BUDGET) as [Hle|Hgt]; cbn [negb].
  2: rewrite Et, Ed in Hdone; rewrite Et, Ed; intros H%ok_inj; injection H as <- <-; by left.
  destruct (read_to_content_length _ _ _ _) as [[p cl]|] eqn:Hr; [|done]. cbn [negb].
  pose proof (proj2 (read_to_content_length_app _ _ _ _ _ _ Hr)) as Hlen.
  apply read_to_content_length_taken in Hr as (more&->&Hmore). rewrite render_app in *.
  rewrite Et, Ed, (substitute_head _ _ Hsecrets).
  unfold rewrite_content_length. unfold render at 1 2 3 4. pose proof (lf_crlf_free _ (substitute_lf (sc_sni c) _ Hsecrets _ Hrl)) as Hsr.
  pose proof (good_wf _ (sub_good _ Hhs)) as Hsw.
  rewrite find_crlf_line by done. rewrite drop_line, take_line, app_nil_r, rewrite_lines_block.
  2: done.
  2:{ rewrite !length_app. pose proof (header_block_length ((fun h => sub h) <$> hs)). cbn. lia. }
  destruct (existsb _ _) eqn:Hex; [|done]. intros H%ok_inj. injection H as <- <-. right. exists more, n.
  split_and!; [done|done|done| |done|].
  - rewrite <- (Ed (body ++ more)), length_drop. lia.
  - unfold render. by rewrite <- !app_assoc.
Qed.

(** The lines of the request that is sent. *)
Definition sent_lines (strip : bool) (len : option nat) (hs : list bytes) : list bytes :=
  List.filter (fun l => negb (connection_header strip (lower_name l))) (set_length len <$> ((fun h => sub h) <$> hs))
  ++ [lit "Connection: close"].

Lemma run_request_spec client fw :
  run client = Ok fw →
  ∃ mid rl hs0 hs body more gql strip len sent_body,
    taken client (fw_client fw) (render rl hs0 (body ++ more)) ∧
    gate_result mid (fw_plan fw) (fw_method fw) (fw_path fw) rl hs0 hs body gql ∧
    fw_sent fw = render (sub rl) (sent_lines strip len hs) sent_body ∧
    (strip = false → redactions (fw_plan fw) = []) ∧
    (len = None ∧ more = [] ∧ sent_body = body ∨
     len = Some (length sent_body) ∧ sent_body = sub (body ++ more) ∧
       existsb (named (lit "content-length")) ((fun h => sub h) <$> hs) = true ∧
       ∃ n, request_body_framing (render rl hs []) = ContentLength n ∧
         (N.to_nat n ≤ length (body ++ more))%nat).
Proof using Hauthority Hinjects Hsecrets.
  unfold run_request. destruct (gate client) as [[[[mid cl] plan] [m p]]|] eqn:Hg; [|done].
  destruct (gate_request_spec _ _ _ _ _ _ Hg) as (rl&hs0&hs&body&gql&Htk&Hres).
  pose proof Hres as [_ _ (->&Hrl&Hhs) _ _ _ _].
  destruct (substitute_request _ _ _ _) as [[out cl']|] eqn:Hs; [|done]. intros <-%ok_inj. cbn [fw_plan fw_method fw_path fw_sent fw_client].
  pose proof (lf_crlf_free _ (substitute_lf (sc_sni c) _ Hsecrets _ Hrl)) as Hsr.
  assert (Hfin : ∀ len b, ∃ strip, finish_request plan (render (sub rl) (set_length len <$> ((fun h => sub h) <$> hs)) b) =
    render (sub rl) (sent_lines strip len hs) b ∧ (strip = false → redactions plan = [])).
  { intros len b. unfold finish_request, force_connection_close, prepare_observed_request.
    destruct (bool_decide _ && bool_decide _) eqn:E.
    - exists false. rewrite rewrite_render by (done || by apply good_wf, set_length_good, sub_good). split; [done|]. intros _. by bool_prop.
    - exists true. rewrite rewrite_render by (done || by apply good_wf, set_length_good, sub_good). done. }
  destruct (substitute_request_spec _ _ _ _ _ _ Hrl Hhs Hs) as [[-> ->]|(more&n&Hmore&Hf&_&Hn&Hex&->)].
  - destruct (Hfin None body) as (strip&E&Hst).
    exists (render rl hs body), rl, hs0, hs, body, [], gql, strip, None, body.
    split_and!; [by rewrite app_nil_r|done| |done|by left]. rewrite <- E. f_equal. f_equal. by rewrite list_fmap_id.
  - destruct (Hfin (Some (length (sub (body ++ more)))) (sub (body ++ more))) as (strip&E&Hst).
    exists (render rl hs body), rl, hs0, hs, body, more, gql, strip, (Some (length (sub (body ++ more)))), (sub (body ++ more)).
    split_and!; [rewrite <- render_app; by eapply taken_trans|done|done|done|].
    right. split_and!; [done|done|done|]. by exists n.
Qed.

Definition is_connection (l : bytes) : bool := connection_header false (lower_name l).

Lemma sent_lines_connection strip len hs :
  List.filter is_connection (sent_lines strip len hs) = [lit "Connection: close"].
Proof.
  unfold sent_lines. rewrite filter_app_bool, filter_none_kept; [vm_compute; reflexivity|].
  intros l. rewrite list_elem_of_In, filter_In. intros [_ H]. unfold is_connection, connection_header in *.
  apply negb_true_iff in H. rewrite !orb_false_iff in *. naive_solver.
Qed.

Lemma set_length_name n l : named (lit "content-length") (set_length (Some n) l) = named (lit "content-length") l.
Proof.
  cbn [set_length]. destruct (named (lit "content-length") l) eqn:E; [|done].
  unfold named, content_length_line. change (lit "Content-Length: " ++ ?x) with (header_line (lit "Content-Length", x)).
  rewrite header_name_line; [vm_compute; reflexivity|]. rewrite list_elem_of_In. vm_compute. intuition discriminate.
Qed.

Lemma content_length_kept strip n : connection_header strip (lower_name (content_length_line n)) = false.
Proof.
  unfold lower_name, content_length_line. change (lit "Content-Length: " ++ ?x) with (header_line (lit "Content-Length", x)).
  rewrite header_name_line; [by destruct strip; vm_compute|]. rewrite list_elem_of_In. vm_compute. intuition discriminate.
Qed.


(** The declared length of a substituted request is the length of its body:
    if the body is touched at all, every [Content-Length] line that is sent, and
    there is one, states the number of body bytes that are sent; otherwise body
    and [Content-Length] lines are those the guest sent, up to placeholders in
    the lines themselves. *)
Theorem request_length_honest client fw :
  run client = Ok fw →
  ∃ rl hs body strip len sent_body,
    fw_sent fw = render (sub rl) (sent_lines strip len hs) sent_body ∧
    (len = None ∧ sent_body = body ∨
     (∀ l, l ∈ sent_lines strip len hs → named (lit "content-length") l = true →
        l = content_length_line (length sent_body)) ∧
     ∃ l, l ∈ sent_lines strip len hs ∧ named (lit "content-length") l = true).
Proof using Hauthority Hinjects Hsecrets.
  intros (mid&rl&hs0&hs&body&more&gql&strip&len&sb&_&_&Hsent&_&Hlen)%run_request_spec.
  exists rl, hs, body, strip, len, sb. split; [done|].
  destruct Hlen as [(->&_&->)|(->&_&Hex&_)]; [by left|right]. split.
  - intros l [Hl|Hl]%elem_of_app Hn.
    + rewrite list_elem_of_In, filter_In, <- list_elem_of_In in Hl. destruct Hl as [Hl _].
      apply list_elem_of_fmap in Hl as (l0&->&_). rewrite set_length_name in Hn. cbn [set_length]. by rewrite Hn.
    + apply list_elem_of_singleton in Hl. subst l. vm_compute in Hn. discriminate Hn.
  - apply existsb_elem in Hex as (l0&Hin&Hn). exists (set_length (Some (length sb)) l0). split; [|by rewrite set_length_name].
    apply elem_of_app. left. rewrite list_elem_of_In, filter_In, <- list_elem_of_In. split.
    + apply list_elem_of_fmap. by exists l0.
    + cbn [set_length]. rewrite Hn, content_length_kept. done.
Qed.

End gate_sound.

(** ** A guest's request *)

Definition demo_hosts : HostList.t := HostList.Mk [HostSpec.Exact (lit "api.example.com")].

Definition demo_inject : InjectEntry.t :=
  InjectEntry.Mk (lit "Authorization") (lit "Bearer {}") demo_hosts
    (RequestPolicy.Mk [lit "POST"] [lit "/v1/*/items"] None) None (MkCred (lit "real-token") None).

Definition demo_secret : SecretEntry.t := SecretEntry.Mk (lit "engram_ph_1") (lit "key") demo_hosts.

Definition demo_context : StreamContext :=
  MkContext (lit "api.example.com") 443 [demo_secret] [demo_inject] [] [lit "engram_ph_2"] false.

(** The guest claims another host, overrides the method, sends a credential of
    its own, and splits its request. *)
Definition demo_client : list (result bytes unit) :=
  [Ok (lit "POST /v1/a/items HTTP/1.1" ++ CRLF ++ lit "HOST: evil.example" ++ CRLF ++ [88]%N);
   Ok (lit "-HTTP-Method-Override: DELETE" ++ CRLF ++ lit "authorization: mine" ++ CRLF ++ lit "Content-Length: 15" ++ CRLF ++ [13]%N);
   Ok ([10]%N ++ lit "key=engram_ph_1")].

Definition demo_run (client : list (result bytes unit)) : result Forward InterceptError :=
  run_request (fun _ => None) (fun _ => None) InjectEntry.cred demo_context client.

Definition demo_forward : Forward :=
  match demo_run demo_client with Ok fw => fw | Err _ => MkForward [] [] (MkPlan [] [] []) [] [] end.

Lemma demo_forwarded : demo_run demo_client = Ok demo_forward.
Proof. vm_compute. reflexivity. Qed.

Lemma demo_sent :
  fw_sent demo_forward =
  render (lit "POST /v1/a/items HTTP/1.1")
    [lit "Authorization: Bearer real-token"; lit "Host: api.example.com"; lit "Content-Length: 7"; lit "Connection: close"]
    (lit "key=key").
Proof. vm_compute. reflexivity. Qed.

Lemma demo_authority : 10%N ∉ upstream_authority (sc_sni demo_context) (sc_port demo_context).
Proof. rewrite list_elem_of_In. vm_compute. intuition discriminate. Qed.

Lemma demo_injects e : e ∈ sc_injects demo_context → clean_inject (with_cred InjectEntry.cred e).
Proof.
  intros H. apply list_elem_of_singleton in H. subst e.
  unfold clean_inject. rewrite !list_elem_of_In. vm_compute. intuition discriminate.
Qed.

Lemma demo_secrets : Forall clean_secret (sc_secrets demo_context).
Proof.
  constructor; [|constructor]. unfold clean_secret. rewrite !list_elem_of_In. vm_compute. intuition discriminate.
Qed.


Lemma request_length_honest_witness :
  demo_run demo_client = Ok demo_forward ∧
  ∃ rl hs body strip len sent_body,
    fw_sent demo_forward = render (substitute rl (sc_sni demo_context) (sc_secrets demo_context)) (sent_lines demo_context strip len hs) sent_body ∧
    (len = None ∧ sent_body = body ∨
     (∀ l, l ∈ sent_lines demo_context strip len hs → named (lit "content-length") l = true →
        l = content_length_line (length sent_body)) ∧
     ∃ l, l ∈ sent_lines demo_context strip len hs ∧ named (lit "content-length") l = true).
Proof.
  split; [exact demo_forwarded|].
  exact (request_length_honest (fun _ => None) (fun _ => None) InjectEntry.cred demo_context demo_authority demo_injects demo_secrets
    demo_client demo_forward demo_forwarded).
Defined.

(** ** Bytes after the body *)

Definition demo_pipelined : list (result bytes unit) :=
  [Ok (lit "POST /v1/a/items HTTP/1.1" ++ CRLF ++ lit "Content-Length: 2" ++ CRLF ++ CRLF ++ lit "hiGET /next HTTP/1.1" ++ CRLF ++ CRLF)].

(** The length that is declared covers whatever was read with the body.  A
    guest whose next request is in the same read as a body of two bytes has that
    body sent with the next request inside it, and the length says so, although
    nothing was substituted. *)
Theorem request_swallows_pipelined :
  ∃ fw, demo_run demo_pipelined = Ok fw ∧
    fw_sent fw = render (lit "POST /v1/a/items HTTP/1.1")
      [lit "Authorization: Bearer real-token"; lit "Host: api.example.com"; lit "Content-Length: 24"; lit "Connection: close"]
      (lit "hiGET /next HTTP/1.1" ++ CRLF ++ CRLF).
Proof. eexists. split; vm_compute; reflexivity. Qed.
