(* ===== verification/EgressRedact.v ===== *)
(** * Redaction of responses and streaming substitution

    The response half of an intercepted HTTP/1 exchange and the streaming
    transformer of HTTP/2 bodies ([intercept.rs]): the framing tracker that says
    which bytes of a response are text, the redactor that masks the host-side
    credentials in them, and the transformer that substitutes placeholders in a
    body that arrives in frames. *)

From S2P Require Import Prelude Bytes EgressPolicy EgressRegistry EgressHttp.

(** ** Masking *)

Definition STAR : N := 42.

(** One needle, from the front. *)
Fixpoint redact_needle (fuel : nat) (needle value : bytes) : bytes :=
  match fuel with
  | O => value
  | S fuel' =>
      match find_sub needle value with
      | None => value
      | Some found =>
          take found value ++ replicate (length needle) STAR
          ++ redact_needle fuel' needle (drop (found + length needle) value)
      end
  end.

Definition redact_bytes (value : bytes) (needles : list bytes) : bytes :=
  fold_left (fun v needle => if bool_decide (needle = []) then v else redact_needle (length v) needle v) needles value.

Definition max_len (needles : list bytes) : option nat :=
  match needles with
  | [] => None
  | _ => Some (foldr (fun n m => Nat.max (length n) m) O needles)
  end.

(** The bytes to hold back: one less than the longest needle. *)
Definition keep_of (needles : list bytes) : nat := pred (default 1%nat (max_len needles)).

(** [ByteRedactor]. *)
Record ByteRedactor := MkByteRedactor { br_needles : list bytes; br_tail : bytes; br_keep : nat }.

Definition byte_redactor_new (needles : list bytes) : ByteRedactor :=
  MkByteRedactor needles [] (keep_of needles).

Definition byte_redactor_push (self : ByteRedactor) (input : bytes) (final_chunk : bool) : ByteRedactor * bytes :=
  let tail := redact_bytes (br_tail self ++ input) (br_needles self) in
  let emit := if final_chunk then length tail else (length tail - br_keep self)%nat in
  (MkByteRedactor (br_needles self) (drop emit tail) (br_keep self), take emit tail).

(** ** Framing *)

Definition RESPONSE_HEADER_BUDGET : nat := 64 * 1024.

Inductive ChunkedFraming :=
| Size (line : bytes)
| Data (remaining : N)
| DataCrlf (seen : nat)
| TrailerLine (line : bytes)
| ChunkedComplete
| ChunkedInvalid.

Inductive Http1ResponseState :=
| Headers (buffer : bytes)
| Length (remaining : N)
| ChunkedBody (chunked : ChunkedFraming)
| CloseDelimited
| Complete
| Invalid.

(** [push_range]: a range that touches the last one extends it. *)
Definition push_range (ranges : list (nat * nat)) (start len : nat) : list (nat * nat) :=
  match len with
  | O => ranges
  | _ =>
      match reverse ranges with
      | (s, l) :: rest =>
          if (s + l =? start)%nat then reverse rest ++ [(s, l + len)%nat] else ranges ++ [(start, len)]
      | [] => [(start, len)]
      end
  end.

(** The lesser of a length in the buffer and a [usize] of the wire. *)
Definition min_len (len : nat) (n : N) : nat := if (N.of_nat len <? n)%N then len else N.to_nat n.

(** [ChunkedFraming::classify], from [consumed] on. *)
Fixpoint chunked_classify (fuel : nat) (st : ChunkedFraming) (base consumed : nat) (rest : bytes)
    (scannable : list (nat * nat)) : ChunkedFraming * nat * list (nat * nat) :=
  match fuel with
  | O => (st, consumed, scannable)
  | S fuel' =>
      match rest with
      | [] => (st, consumed, scannable)
      | byte :: rest' =>
          match st with
          | Size line =>
              let line := line ++ [byte] in
              let st' :=
                if (8192 <? length line)%nat then ChunkedInvalid
                else if ends_with CRLF line then
                  let line := take (length line - 2) line in
                  match from_utf8 (default [] (head (split_byte 59 line))) with
                  | None => ChunkedInvalid
                  | Some text =>
                      match from_str_radix 16 usize_max (trim text) with
                      | None => ChunkedInvalid
                      | Some size => if (size =? 0)%N then TrailerLine [] else Data size
                      end
                  end
                else Size line in
              chunked_classify fuel' st' base (S consumed) rest' scannable
          | Data remaining =>
              let take_ := min_len (length rest) remaining in
              let remaining := (remaining - N.of_nat take_)%N in
              chunked_classify fuel' (if (remaining =? 0)%N then DataCrlf 0 else Data remaining) base
                (consumed + take_) (drop take_ rest) (push_range scannable (base + consumed) take_)
          | DataCrlf seen =>
              let expected := if (seen =? 0)%nat then CR else LF in
              if negb (byte =? expected)%N
              then chunked_classify fuel' ChunkedInvalid base consumed rest scannable
              else chunked_classify fuel' (if (S seen =? 2)%nat then Size [] else DataCrlf (S seen)) base
                     (S consumed) rest' scannable
          | TrailerLine line =>
              let scannable := push_range scannable (base + consumed) 1 in
              let line := line ++ [byte] in
              let st' :=
                if (RESPONSE_HEADER_BUDGET <? length line)%nat then ChunkedInvalid
                else if ends_with CRLF line then
                  if (length line =? 2)%nat then ChunkedComplete else TrailerLine []
                else TrailerLine line in
              chunked_classify fuel' st' base (S consumed) rest' scannable
          | ChunkedComplete | ChunkedInvalid => (st, consumed, scannable)
          end
      end
  end.

(** The header lines of a response: its length and its transfer encoding. *)
Fixpoint response_lines (lines : list bytes) (content_length : option N) (transfer_encoding : option bytes) :
    option (option N * option bytes) :=
  match lines with
  | [] => Some (content_length, transfer_encoding)
  | line :: rest =>
      match split_once (lit ":") line with
      | None => None
      | Some (name, value) =>
          if eq_ignore_ascii_case (trim name) (lit "content-length") then
            match parse_usize (trim value) with
            | None => None
            | Some parsed =>
                if match content_length with Some prior => negb (prior =? parsed)%N | None => false end then None
                else response_lines rest (Some parsed) transfer_encoding
            end
          else if eq_ignore_ascii_case (trim name) (lit "transfer-encoding")
          then response_lines rest content_length (Some (to_ascii_lowercase (trim value)))
          else response_lines rest content_length transfer_encoding
      end
  end.

Definition response_body_framing (head_bytes : bytes) (head_request : bool) : option Http1ResponseState :=
  match from_utf8 head_bytes with
  | None => None
  | Some text =>
      match split_crlf text with
      | [] => None
      | status_line :: lines =>
          match (split_ascii_whitespace status_line !! 1%nat) ≫= parse_u16 with
          | None => None
          | Some status =>
              match response_lines lines None None with
              | None => None
              | Some (content_length, transfer_encoding) =>
                  if in_range 100 199 status && negb (status =? 101)%N then Some (Headers [])
                  else if head_request || (status =? 204)%N || (status =? 304)%N then Some Complete
                  else if match transfer_encoding with
                          | Some value => bool_decide (trim <$> last (split_byte 44 value) = Some (lit "chunked"))
                          | None => false
                          end
                  then Some (ChunkedBody (Size []))
                  else Some match content_length with
                            | Some 0%N => Complete
                            | Some n => Length n
                            | None => CloseDelimited
                            end
              end
          end
      end
  end.

(** [Http1ResponseFraming::classify], from [pos] on. *)
Fixpoint classify (head_request : bool) (fuel : nat) (st : Http1ResponseState) (pos : nat) (rest : bytes)
    (scannable : list (nat * nat)) : Http1ResponseState * list (nat * nat) :=
  match fuel with
  | O => (st, scannable)
  | S fuel' =>
      match rest with
      | [] => (st, scannable)
      | _ :: _ =>
          match st with
          | Headers buffer =>
              let room := (RESPONSE_HEADER_BUDGET - length buffer)%nat in
              if (room =? 0)%nat then (Invalid, scannable)
              else
                let take_ := Nat.min (length rest) room in
                let before := length buffer in
                let buffer := buffer ++ take take_ rest in
                let search_from := (before - 3)%nat in
                match (fun i => search_from + i)%nat <$> find_sub CRLFCRLF (drop search_from buffer) with
                | None =>
                    let scannable := push_range scannable pos take_ in
                    if (RESPONSE_HEADER_BUDGET <=? length buffer)%nat then (Invalid, scannable)
                    else classify head_request fuel' (Headers buffer) (pos + take_) (drop take_ rest) scannable
                | Some e =>
                    let consumed := (e + 4 - before)%nat in
                    if (consumed =? 0)%nat then (Invalid, scannable)
                    else classify head_request fuel'
                           (default Invalid (response_body_framing (take e buffer) head_request))
                           (pos + consumed) (drop consumed rest) (push_range scannable pos consumed)
                end
          | Length remaining =>
              let take_ := min_len (length rest) remaining in
              if (take_ =? 0)%nat then (Invalid, scannable)
              else
                let scannable := push_range scannable pos take_ in
                let remaining := (remaining - N.of_nat take_)%N in
                let rest' := drop take_ rest in
                classify head_request fuel'
                  (if (remaining =? 0)%N then if bool_decide (rest' = []) then Complete else Invalid
                   else Length remaining) (pos + take_) rest' scannable
          | ChunkedBody chunked =>
              let '(chunked, consumed, scannable) :=
                chunked_classify (2 * length rest + 1) chunked pos 0 rest scannable in
              let rest' := drop consumed rest in
              if match chunked with ChunkedInvalid => true | _ => false end || (consumed =? 0)%nat
              then (Invalid, scannable)
              else classify head_request fuel'
                     (match chunked with
                      | ChunkedComplete => if bool_decide (rest' = []) then Complete else Invalid
                      | _ => ChunkedBody chunked
                      end) (pos + consumed) rest' scannable
          | CloseDelimited => (CloseDelimited, push_range scannable pos (length rest))
          | Complete | Invalid => (Invalid, push_range scannable pos (length rest))
          end
      end
  end.

(** One call of [classify]. *)
Definition classify_input (head_request : bool) (st : Http1ResponseState) (input : bytes) :
    Http1ResponseState * list (nat * nat) :=
  classify head_request (S (length input)) st 0 input [].

Definition is_complete (st : Http1ResponseState) : bool := match st with Complete => true | _ => false end.

(** ** The redactor *)

Record Http1ResponseRedactor := MkRedactor {
  rr_framing : Http1ResponseState;
  rr_head_request : bool;
  rr_needles : list bytes;
  rr_keep : nat;
  rr_pending : bytes;
  rr_scannable : list nat;
}.

Definition redactor_new (needles : list bytes) (head_request : bool) : Http1ResponseRedactor :=
  MkRedactor (Headers []) head_request needles (keep_of needles) [] [].

(** The offsets of ranges. *)
Definition offsets (base : nat) (ranges : list (nat * nat)) : list nat :=
  ranges ≫= (fun r => seq (base + r.1) r.2).

(** The bytes at some offsets. *)
Definition select (s : bytes) (at_ : list nat) : bytes := (fun i => nth i s 0%N) <$> at_.

(** Each of [values] written at its offset. *)
Fixpoint write_back (s : bytes) (at_ : list nat) (values : bytes) : bytes :=
  match at_, values with
  | i :: at_', v :: values' => write_back (<[i := v]> s) at_' values'
  | _, _ => s
  end.

Definition redactor_push (self : Http1ResponseRedactor) (input : bytes) (final_chunk : bool) :
    Http1ResponseRedactor * bytes :=
  let '(framing, ranges) := classify_input (rr_head_request self) (rr_framing self) input in
  let base := length (rr_pending self) in
  let pending := rr_pending self ++ input in
  let scannable := rr_scannable self ++ offsets base ranges in
  let joined := redact_bytes (select pending scannable) (rr_needles self) in
  let pending := write_back pending scannable joined in
  let release_at :=
    if final_chunk || (rr_keep self =? 0)%nat then length pending
    else if (rr_keep self <? length scannable)%nat then nth (length scannable - rr_keep self) scannable O
    else default (length pending) (head scannable) in
  (MkRedactor framing (rr_head_request self) (rr_needles self) (rr_keep self) (drop release_at pending)
     ((fun i => i - release_at)%nat <$> List.filter (fun i => release_at <=? i)%nat scannable),
   take release_at pending).

(** ** The copy of a response *)

Inductive read_result :=
| ReadData (b : bytes)
| ReadEof
| ReadUnexpectedEof
| ReadError.

Inductive CopyError := CopyIo | HeadersTooLong | Uninspectable.

(** [str::lines]. *)
Definition text_lines (s : bytes) : list bytes :=
  (fun l => default l (strip_suffix [CR] l)) <$> split_byte LF s.

Definition response_headers_are_inspectable (headers : bytes) : bool :=
  forallb (fun line =>
    match split_once (lit ":") line with
    | None => true
    | Some (name, value) =>
        negb (eq_ignore_ascii_case (trim name) (lit "content-encoding"))
        || eq_ignore_ascii_case (trim value) (lit "identity")
    end) (text_lines (from_utf8_lossy headers)).

Fixpoint read_response_prefix (reader : list read_result) (prefix : bytes) :
    result (bytes * list read_result) CopyError :=
  if (RESPONSE_HEADER_BUDGET <=? length prefix)%nat then Err HeadersTooLong
  else match reader with
       | ReadData b :: reader' =>
           if bool_decide (b = []) then Err HeadersTooLong
           else if contains CRLFCRLF (prefix ++ b) then Ok (prefix ++ b, reader')
           else read_response_prefix reader' (prefix ++ b)
       | ReadEof :: _ | [] => Err HeadersTooLong
       | (ReadUnexpectedEof | ReadError) :: _ => Err CopyIo
       end.

(** The bytes written to the guest, and how the copy ended. *)
Fixpoint copy_loop (r : Http1ResponseRedactor) (reader : list read_result) (written : bytes) :
    bytes * result unit CopyError :=
  let finish := (written ++ (redactor_push r [] true).2, Ok tt) in
  match reader with
  | [] | ReadEof :: _ => finish
  | ReadUnexpectedEof :: _ => if is_complete (rr_framing r) then finish else (written, Err CopyIo)
  | ReadError :: _ => (written, Err CopyIo)
  | ReadData b :: reader' =>
      if bool_decide (b = []) then finish
      else let '(r', out) := redactor_push r b false in copy_loop r' reader' (written ++ out)
  end.

(** [tokio::io::copy]. *)
Fixpoint plain_copy (reader : list read_result) (written : bytes) : bytes * result unit CopyError :=
  match reader with
  | [] | ReadEof :: _ => (written, Ok tt)
  | (ReadUnexpectedEof | ReadError) :: _ => (written, Err CopyIo)
  | ReadData b :: reader' =>
      if bool_decide (b = []) then (written, Ok tt) else plain_copy reader' (written ++ b)
  end.

Definition copy_redacting_response (reader : list read_result) (needles : list bytes) (head_request : bool) :
    bytes * result unit CopyError :=
  if bool_decide (needles = []) then plain_copy reader []
  else
    match read_response_prefix reader [] with
    | Err e => ([], Err e)
    | Ok (prefix, reader') =>
        match find_sub CRLFCRLF prefix with
        | None => ([], Err HeadersTooLong)
        | Some headers_end =>
            if negb (response_headers_are_inspectable (take headers_end prefix)) then ([], Err Uninspectable)
            else
              let '(r, first) := redactor_push (redactor_new needles head_request) prefix false in
              copy_loop r reader' first
        end
    end.

(** ** The transformer of HTTP/2 bodies *)

Record PlaceholderTransformer := MkTransformer {
  pt_secrets : list SecretEntry.t;
  pt_foreign : list bytes;
  pt_pending : bytes;
  pt_keep : nat;
}.

Definition transformer_new (l : list SecretEntry.t) (foreign : list bytes) : PlaceholderTransformer :=
  MkTransformer l foreign []
    (keep_of (List.filter (fun n => negb (bool_decide (n = []))) ((SecretEntry.placeholder <$> l) ++ foreign))).

(** The first of the earliest matches that start before the limit. *)
Definition next_match (l : list SecretEntry.t) (rest : bytes) (limit : nat) : option (nat * SecretEntry.t) :=
  fold_left (fun best entry =>
    let needle := SecretEntry.placeholder entry in
    if bool_decide (needle = []) then best
    else match find_sub needle rest with
         | None => best
         | Some start =>
             if negb (start <? limit)%nat then best
             else match best with
                  | None => Some (start, entry)
                  | Some (b, _) => if (start <? b)%nat then Some (start, entry) else best
                  end
         end) l None.

(** The loop from [cursor] on, over the bytes from there; the limit counts from
    there too. *)
Fixpoint transform_loop (fuel : nat) (l : list SecretEntry.t) (rest : bytes) (limit cursor : nat) : bytes * nat :=
  match fuel with
  | O => ([], cursor)
  | S fuel' =>
      if (limit =? 0)%nat then ([], cursor)
      else match next_match l rest limit with
           | None => (take limit rest, (cursor + limit)%nat)
           | Some (start, entry) =>
               let step := (start + length (SecretEntry.placeholder entry))%nat in
               let '(out, c) := transform_loop fuel' l (drop step rest) (limit - step) (cursor + step) in
               (take start rest ++ SecretEntry.real_value entry ++ out, c)
           end
  end.

Definition transformer_push (self : PlaceholderTransformer) (input : bytes) (final_chunk : bool) :
    result (PlaceholderTransformer * bytes) InterceptError :=
  let pending := pt_pending self ++ input in
  let process_limit := if final_chunk then length pending else (length pending - pt_keep self)%nat in
  match first_match (take process_limit pending) (pt_foreign self) with
  | Some placeholder => Err (Violation placeholder)
  | None =>
      let '(output, cursor) := transform_loop (length pending) (pt_secrets self) pending process_limit 0 in
      Ok (MkTransformer (pt_secrets self) (pt_foreign self) (drop cursor pending) (pt_keep self), output)
  end.
