(* ===== verification/EgressRedactProps.v ===== *)
(** * Redaction is sound

    No credential survives in the text of a response, however it is split; a
    body substituted in frames is the body substituted at once; and where both
    fall short. *)

From S2P Require Import Prelude Bytes EgressPolicy EgressRegistry EgressHttp EgressRedact.

(** ** Masks *)

(** [w] is [v] with some bytes replaced by stars. *)
Definition masks : bytes → bytes → Prop := Forall2 (fun a b => b = a ∨ b = STAR).

Lemma masks_refl v : masks v v.
Proof. induction v; constructor; auto. Qed.

Lemma masks_trans u v w : masks u v → masks v w → masks u w.
Proof.
  intros H. revert w. induction H as [|a b u v Hab H IH]; intros w Hw; inversion Hw; subst; [constructor|].
  constructor; [naive_solver|by apply IH].
Qed.

Lemma masks_length v w : masks v w → length w = length v.
Proof. intros H. symmetry. by eapply Forall2_length. Qed.

Lemma masks_app u v u' v' : masks u u' → masks v v' → masks (u ++ v) (u' ++ v').
Proof. apply Forall2_app. Qed.

Lemma masks_stars v n : length v = n → masks v (replicate n STAR).
Proof. intros <-. induction v; constructor; auto. Qed.

(** What a mask leaves was there. *)
Lemma masks_occurs v w n : masks v w → STAR ∉ n → occurs n w → occurs n v.
Proof.
  intros Hm Hn (a&b&->). apply Forall2_app_inv_r in Hm as (a'&t&Ha&Ht&->). apply Forall2_app_inv_r in Ht as (n'&b'&Hn'&Hb&->).
  exists a', b'. do 2 f_equal. clear -Hn Hn'. induction Hn' as [|x y n' n Hxy _ IH]; [done|].
  apply not_elem_of_cons in Hn as [Hy Hn]. f_equal; [|by apply IH]. by destruct Hxy.
Qed.

(** [n] is in [s] at [i]. *)
Definition occurs_at (n s : bytes) (i : nat) : Prop := ∀ k b, n !! k = Some b → s !! (i + k)%nat = Some b.

Lemma occurs_iff n s : n ≠ [] → occurs n s ↔ ∃ i, occurs_at n s i.
Proof.
  intros Hn. split.
  - intros (a&b&->). exists (length a). intros k x Hk. rewrite lookup_app_r by lia.
    replace (length a + k - length a)%nat with k by lia. by apply lookup_app_l_Some.
  - intros [i Hi]. exists (take i s), (drop (i + length n) s).
    assert (E : take (length n) (drop i s) = n).
    { apply list_eq. intros k. destruct (decide (k < length n)%nat) as [Hk|Hk].
      - destruct (lookup_lt_is_Some_2 _ _ Hk) as [b Hb]. rewrite lookup_take_lt, lookup_drop, Hb by done. by apply Hi.
      - rewrite lookup_take_ge by lia. symmetry. apply lookup_ge_None. lia. }
    rewrite <- (take_drop i s) at 1. f_equal. rewrite <- (take_drop (length n) (drop i s)) at 1. by rewrite E, drop_drop.
Qed.

Lemma occurs_at_starts n s i : occurs_at n s i → starts_with n (drop i s) = true.
Proof.
  intros H. assert (E : drop i s = n ++ drop (length n) (drop i s)).
  { apply list_eq. intros k. destruct (decide (k < length n)%nat) as [Hk|Hk].
    - destruct (lookup_lt_is_Some_2 _ _ Hk) as [b Hb]. rewrite lookup_app_l, Hb, lookup_drop by done. by apply H.
    - rewrite lookup_app_r, lookup_drop by lia. rewrite !lookup_drop. f_equal. lia. }
  rewrite E. apply starts_with_app.
Qed.

(** An occurrence without stars does not reach into stars. *)
Lemma occurs_around_stars n a k b :
  n ≠ [] → STAR ∉ n → (0 < k)%nat → occurs n (a ++ replicate k STAR ++ b) → occurs n a ∨ occurs n b.
Proof.
  intros Hne Hn Hk. rewrite !occurs_iff by done. intros [i Hi].
  assert (Hlen : (0 < length n)%nat) by (destruct n; [done|cbn; lia]).
  destruct (decide (i + length n ≤ length a)%nat) as [Ha|Ha].
  { left. exists i. intros j x Hj. pose proof (lookup_lt_Some _ _ _ Hj). specialize (Hi _ _ Hj). by rewrite lookup_app_l in Hi by lia. }
  destruct (decide (length a + k ≤ i)%nat) as [Hb|Hb].
  { right. exists (i - (length a + k))%nat. intros j x Hj. specialize (Hi _ _ Hj).
    rewrite app_assoc, lookup_app_r in Hi by (rewrite length_app, length_replicate; lia).
    rewrite length_app, length_replicate in Hi. rewrite <- Hi. f_equal. lia. }
  exfalso. set (j := (Nat.max i (length a) - i)%nat).
  destruct (lookup_lt_is_Some_2 n j ltac:(lia)) as [x Hx]. pose proof (Hi _ _ Hx) as H.
  rewrite lookup_app_r, lookup_app_l in H by (rewrite ?length_replicate; lia).
  apply lookup_replicate in H as [-> _]. apply Hn. by eapply list_elem_of_lookup_2.
Qed.

Lemma redact_needle_spec fuel n v :
  n ≠ [] → (length v ≤ fuel)%nat →
  masks v (redact_needle fuel n v) ∧ (STAR ∉ n → ¬ occurs n (redact_needle fuel n v)).
Proof.
  intros Hn. assert (Hl : (0 < length n)%nat) by (destruct n; [done|cbn; lia]).
  revert v. induction fuel as [|fuel IH]; intros v Hf.
  { destruct v; [|cbn in Hf; lia]. split; [apply masks_refl|]. intros _ (a&b&E). cbn in E. destruct a, n; done. }
  cbn [redact_needle]. destruct (find_sub n v) as [i|] eqn:E.
  - pose proof (find_sub_cut _ _ _ E) as Hc. destruct (find_sub_Some _ _ _ E) as (_&Hi&Hmin).
    assert (Hle : (i + length n ≤ length v)%nat).
    { apply (f_equal length) in Hc. rewrite !length_app, length_take, length_drop in Hc. lia. }
    destruct (IH (drop (i + length n) v)) as [H1 H2]; [rewrite length_drop; lia|]. split.
    + rewrite Hc at 1. apply masks_app; [apply masks_refl|]. apply masks_app; [by apply masks_stars|done].
    + intros Hs [(a&b&Ea)|Ho]%occurs_around_stars; [|by apply H2|done..].
      assert (Hla : (length a + length n ≤ i)%nat).
      { apply (f_equal length) in Ea. rewrite !length_app, length_take in Ea. lia. }
      specialize (Hmin (length a) ltac:(lia)). rewrite <- not_true_iff_false in Hmin. apply Hmin.
      rewrite <- (take_drop i v), Ea, <- !app_assoc, drop_app_length. apply starts_with_app.
  - split; [apply masks_refl|]. intros _ Ho%find_sub_is_Some. rewrite E in Ho. by destruct Ho.
Qed.

(** Redaction masks, and leaves no needle that has no star in it. *)
Lemma redact_bytes_spec needles : ∀ v,
  masks v (redact_bytes v needles) ∧
  ∀ n, n ∈ needles → n ≠ [] → STAR ∉ n → ¬ occurs n (redact_bytes v needles).
Proof.
  unfold redact_bytes. induction needles as [|m needles IH]; intros v; cbn [fold_left].
  { split; [apply masks_refl|set_solver]. }
  case_bool_decide as Hm.
  - destruct (IH v) as [H1 H2]. split; [done|]. intros n [->|Hn]%elem_of_cons; [done|by apply H2].
  - destruct (redact_needle_spec (length v) m v Hm ltac:(lia)) as [N1 N2]. destruct (IH (redact_needle (length v) m v)) as [H1 H2].
    split; [by eapply masks_trans|]. intros n [->|Hn]%elem_of_cons Hne Hs Ho; [|by eapply H2].
    by apply (N2 Hs), (masks_occurs _ _ _ H1).
Qed.

(** ** The window *)

(** The needles a redactor looks for, and what it holds back of them. *)
Definition needle_free (needles : list bytes) (s : bytes) : Prop :=
  ∀ n, n ∈ needles → n ≠ [] → STAR ∉ n → ¬ occurs n s.

Lemma keep_of_spec needles n : n ∈ needles → (length n ≤ S (keep_of needles))%nat.
Proof.
  unfold keep_of, max_len. intros Hn. destruct needles as [|m needles]; [set_solver|]. cbn [from_option id].
  assert (H : ∀ l : list bytes, n ∈ l → (length n ≤ foldr (fun n m => Nat.max (length n) m) O l)%nat).
  { induction l as [|x l IH]; [set_solver|]. intros [->|H%IH]%elem_of_cons; cbn; lia. }
  specialize (H _ Hn). lia.
Qed.

(** Redacting what is held with what comes next leaves no needle, also none that
    begins in what was let go. *)
Lemma window needles R T X :
  (R = [] ∨ (keep_of needles ≤ length T)%nat) → needle_free needles (R ++ T) →
  needle_free needles (R ++ redact_bytes (T ++ X) needles).
Proof.
  intros HR Hfree n Hn Hne Hs Ho. destruct (redact_bytes_spec needles (T ++ X)) as [Hm Hw].
  apply occurs_iff in Ho as [i Hi]; [|done]. destruct (decide (length R ≤ i)%nat) as [Hge|Hlt].
  - apply (Hw n); [done..|]. apply occurs_iff; [done|]. exists (i - length R)%nat. intros k b Hk. specialize (Hi _ _ Hk).
    rewrite lookup_app_r in Hi by lia. rewrite <- Hi. f_equal. lia.
  - destruct HR as [->|HK]; [cbn in Hlt; lia|]. apply (Hfree n); [done..|]. apply occurs_iff; [done|]. exists i.
    intros k b Hk. pose proof (Hi _ _ Hk) as H. pose proof (lookup_lt_Some _ _ _ Hk) as Hkl.
    pose proof (keep_of_spec _ _ Hn) as Hkeep.
    destruct (decide (i + k < length R)%nat) as [Hin|Hout]; [rewrite lookup_app_l in H |- * by done; done|].
    rewrite lookup_app_r in H |- * by lia. destruct (Forall2_lookup_r _ _ _ _ _ Hm H) as (a&Ha&Hab).
    rewrite lookup_app_l in Ha by lia. destruct Hab as [->| ->]; [done|]. destruct Hs. by eapply list_elem_of_lookup_2.
Qed.

(** ** The redactor of HTTP/2 bodies *)

(** The output of a redactor over some frames and the end. *)
Fixpoint byte_redactor_run (r : ByteRedactor) (frames : list bytes) : bytes :=
  match frames with
  | [] => (byte_redactor_push r [] true).2
  | x :: frames' => let '(r', out) := byte_redactor_push r x false in out ++ byte_redactor_run r' frames'
  end.

Lemma byte_redactor_run_spec needles frames : ∀ R T total,
  masks total (R ++ T) → needle_free needles (R ++ T) → (R = [] ∨ (keep_of needles ≤ length T)%nat) →
  masks (total ++ concat frames) (R ++ byte_redactor_run (MkByteRedactor needles T (keep_of needles)) frames) ∧
  needle_free needles (R ++ byte_redactor_run (MkByteRedactor needles T (keep_of needles)) frames).
Proof.
  induction frames as [|x frames IH]; intros R T total Hm Hf HR; cbn [byte_redactor_run concat].
  - rewrite app_nil_r. cbn. rewrite app_nil_r, take_ge by lia. pose proof (window needles R T [] HR Hf) as Hw.
    rewrite app_nil_r in Hw. split; [|done]. eapply masks_trans; [exact Hm|]. apply masks_app; [apply masks_refl|].
    apply (proj1 (redact_bytes_spec _ _)).
  - cbn. set (w := redact_bytes (T ++ x) needles). set (e := (length w - keep_of needles)%nat).
    assert (E : (R ++ take e w) ++ drop e w = R ++ w) by (by rewrite <- app_assoc, take_drop).
    rewrite !app_assoc. apply (IH (R ++ take e w) (drop e w) (total ++ x)); rewrite ?E.
    + eapply masks_trans; [apply masks_app; [exact Hm|apply masks_refl]|].
      rewrite <- app_assoc. apply masks_app; [apply masks_refl|]. apply (proj1 (redact_bytes_spec _ _)).
    + by apply window.
    + destruct (decide (e = 0)%nat) as [->|He].
      * destruct HR as [->|HK]; [by left|]. right. rewrite drop_0. unfold w.
        rewrite (masks_length _ _ (proj1 (redact_bytes_spec _ _))), length_app. lia.
      * right. rewrite length_drop. lia.
Qed.

(** ** Sorted offsets *)

Lemma offsets_push base ranges s l :
  offsets base (push_range ranges s l) = offsets base ranges ++ seq (base + s) l.
Proof.
  unfold push_range. destruct l as [|l]; [cbn; by rewrite app_nil_r|].
  destruct ranges as [|[s0 l0] ranges _] using rev_ind; [cbn; by rewrite app_nil_r|].
  rewrite reverse_snoc. unfold offsets. destruct (Nat.eqb_spec (s0 + l0) s) as [<-|Hne].
  - rewrite reverse_involutive, !bind_app. cbn. rewrite !app_nil_r, <- app_assoc. f_equal.
    rewrite seq_app. cbn. by rewrite Nat.add_assoc.
  - rewrite bind_app. cbn. by rewrite app_nil_r.
Qed.

(** The offsets of some ranges ascend and lie between two bounds. *)
Definition ascending (lo hi : nat) (l : list nat) : Prop :=
  StronglySorted lt l ∧ Forall (fun i => lo ≤ i ∧ i < hi)%nat l.

Lemma ascending_weaken lo hi hi' l : (hi ≤ hi')%nat → ascending lo hi l → ascending lo hi' l.
Proof. intros H [H1 H2]. split; [done|]. eapply Forall_impl; [exact H2|]. naive_solver lia. Qed.

Lemma sorted_app (l k : list nat) m :
  StronglySorted lt l → StronglySorted lt k → Forall (fun i => i < m)%nat l → Forall (fun i => m ≤ i)%nat k →
  StronglySorted lt (l ++ k).
Proof.
  intros Hl Hk Ha Hb. induction Hl as [|x l Hl IH Hx]; [done|]. apply Forall_cons in Ha as [Ha1 Ha2].
  cbn. constructor; [by apply IH|]. apply Forall_app. split; [done|]. eapply Forall_impl; [exact Hb|]. cbn. lia.
Qed.

Lemma seq_ascending s l : ascending s (s + l) (seq s l).
Proof.
  split.
  - revert s. induction l as [|l IH]; intros s; cbn; constructor; [apply IH|]. apply Forall_forall.
    intros i. rewrite elem_of_seq. lia.
  - apply Forall_forall. intros i. rewrite elem_of_seq. lia.
Qed.

Lemma ascending_app lo mid hi l k : (lo ≤ mid ≤ hi)%nat → ascending lo mid l → ascending mid hi k → ascending lo hi (l ++ k).
Proof.
  intros Hb [L1 L2] [K1 K2]. split.
  - apply (sorted_app _ _ mid); [done..| |]; (eapply Forall_impl; [eassumption|naive_solver]).
  - apply Forall_app. split; (eapply Forall_impl; [eassumption|]; naive_solver lia).
Qed.

Lemma push_ascending base pos ranges l :
  ascending base (base + pos) (offsets base ranges) →
  ascending base (base + (pos + l)) (offsets base (push_range ranges pos l)).
Proof.
  intros H. rewrite offsets_push, Nat.add_assoc. eapply ascending_app; [|exact H|apply seq_ascending]. lia.
Qed.

(** ** What is classified lies in the input *)

Lemma min_len_le len n : (min_len len n ≤ len)%nat.
Proof. unfold min_len. destruct (N.ltb_spec (N.of_nat len) n); lia. Qed.

Lemma chunked_classify_bounds g base fuel : ∀ st consumed rest ranges st' c' ranges',
  chunked_classify fuel st base consumed rest ranges = (st', c', ranges') →
  ascending g (g + (base + consumed)) (offsets g ranges) →
  (consumed ≤ c' ≤ consumed + length rest)%nat ∧ ascending g (g + (base + c')) (offsets g ranges').
Proof.
  induction fuel as [|fuel IH]; intros st consumed rest ranges st' c' ranges'; cbn [chunked_classify].
  { intros [= <- <- <-]. split; [lia|done]. }
  destruct rest as [|b rest]; [intros [= <- <- <-]; split; [cbn; lia|done]|].
  destruct st as [line|remaining|seen|line| |].
  - intros H Ha. apply IH in H as [Hb Hr]; [cbn; split; [lia|done]|].
    eapply ascending_weaken; [|exact Ha]. lia.
  - intros H Ha. pose proof (min_len_le (length (b :: rest)) remaining) as Hm. apply IH in H as [Hb Hr].
    + rewrite length_drop in Hb. split; [lia|done].
    + rewrite (Nat.add_assoc base). by apply push_ascending.
  - destruct (negb _); intros H Ha; apply IH in H as [Hb Hr]; try done; [cbn; split; [lia|done]|].
    eapply ascending_weaken; [|exact Ha]. lia.
  - intros H Ha. apply IH in H as [Hb Hr]; [cbn; split; [lia|done]|].
    replace (base + S consumed)%nat with ((base + consumed) + 1)%nat by lia. by apply push_ascending.
  - intros [= <- <- <-]. cbn. split; [lia|done].
  - intros [= <- <- <-]. cbn. split; [lia|done].
Qed.

Lemma classify_bounds g hr fuel : ∀ st pos rest ranges st' ranges',
  classify hr fuel st pos rest ranges = (st', ranges') →
  ascending g (g + pos) (offsets g ranges) → ascending g (g + (pos + length rest)) (offsets g ranges').
Proof.
  induction fuel as [|fuel IH]; intros st pos rest ranges st' ranges' H Ha; cbn [classify] in H.
  { apply pair_equal_spec in H as [<- <-]. eapply ascending_weaken; [|exact Ha]. lia. }
  destruct rest as [|b rest]; [apply pair_equal_spec in H as [<- <-]; eapply ascending_weaken; [|exact Ha]; lia|].
  set (r := b :: rest) in *.
  destruct st as [buffer|remaining|chunked| | |].
  - destruct (_ =? 0)%nat; [apply pair_equal_spec in H as [<- <-]; eapply ascending_weaken; [|exact Ha]; lia|].
    set (take_ := Nat.min (length r) _) in *. destruct (_ <$> _) as [e|] eqn:E.
    + destruct (Nat.eqb_spec (e + 4 - length buffer) 0) as [?|Hc]; [apply pair_equal_spec in H as [<- <-]; eapply ascending_weaken; [|exact Ha]; lia|].
      set (consumed := (e + 4 - length buffer)%nat) in *.
      assert (Hle : (consumed ≤ length r)%nat).
      { apply fmap_Some in E as (i&Hi&->). apply find_sub_cut in Hi. apply (f_equal length) in Hi.
        rewrite !length_app, length_take, !length_drop, length_app, length_take in Hi. unfold CRLFCRLF, CRLF in Hi. cbn [length app] in Hi. lia. }
      apply IH in H; [|by apply push_ascending]. rewrite length_drop in H. eapply ascending_weaken; [|exact H]. lia.
    + destruct (_ <=? _)%nat.
      * apply pair_equal_spec in H as [<- <-]. eapply ascending_weaken; [|by apply push_ascending]. lia.
      * apply IH in H; [|by apply push_ascending]. rewrite length_drop in H. eapply ascending_weaken; [|exact H]. lia.
  - pose proof (min_len_le (length r) remaining) as Hm. set (take_ := min_len (length r) remaining) in *.
    destruct (take_ =? 0)%nat; [apply pair_equal_spec in H as [<- <-]; eapply ascending_weaken; [|exact Ha]; lia|].
    apply IH in H; [|by apply push_ascending]. rewrite length_drop in H. eapply ascending_weaken; [|exact H]. lia.
  - destruct (chunked_classify _ _ _ _ _ _) as [[ch consumed] ranges1] eqn:E.
    apply (chunked_classify_bounds g) in E as [Hb Hr]; [|by rewrite Nat.add_0_r].
    destruct (_ || _); [apply pair_equal_spec in H as [<- <-]; eapply ascending_weaken; [|exact Hr]; lia|].
    apply IH in H; [|done]. rewrite length_drop in H. eapply ascending_weaken; [|exact H]. lia.
  - apply pair_equal_spec in H as [<- <-]. by apply push_ascending.
  - apply pair_equal_spec in H as [<- <-]. by apply push_ascending.
  - apply pair_equal_spec in H as [<- <-]. by apply push_ascending.
Qed.

Lemma classify_input_bounds g hr st x st' ranges :
  classify_input hr st x = (st', ranges) → ascending g (g + length x) (offsets g ranges).
Proof. intros H. apply (classify_bounds g) in H; [done|]. split; constructor. Qed.

(** ** Writing the redaction back *)

Lemma ascending_cons lo hi i l : ascending lo hi (i :: l) ↔ (lo ≤ i < hi)%nat ∧ ascending (S i) hi l.
Proof.
  unfold ascending. rewrite Forall_cons. split.
  - intros [Hs [Hi Hf]]. inversion Hs as [|? ? Hs' Hlt]; subst. split; [done|]. split; [done|].
    rewrite Forall_forall in Hlt, Hf |- *. intros j Hj. specialize (Hlt j Hj). specialize (Hf j Hj). lia.
  - intros [Hi [Hs Hf]]. split; [|split; [done|]].
    + constructor; [done|]. eapply Forall_impl; [exact Hf|]. cbn. lia.
    + eapply Forall_impl; [exact Hf|]. cbn. lia.
Qed.

Lemma ascending_nil lo hi : ascending lo hi [].
Proof. split; constructor. Qed.
#[local] Hint Resolve ascending_nil : core.

Lemma ascending_bound lo hi l i : ascending lo hi l → i ∈ l → (lo ≤ i < hi)%nat.
Proof. intros [_ H]. rewrite Forall_forall in H. apply H. Qed.

Lemma select_app s l k : select s (l ++ k) = select s l ++ select s k.
Proof. apply fmap_app. Qed.

Lemma select_length s l : length (select s l) = length l.
Proof. apply length_fmap. Qed.

Lemma select_app_l s t lo l : ascending lo (length s) l → select (s ++ t) l = select s l.
Proof.
  intros H. apply list_fmap_ext. intros k i Hi. apply app_nth1. eapply ascending_bound; [exact H|]. by eapply list_elem_of_lookup_2.
Qed.

Lemma select_shift s t l : select (s ++ t) (Nat.add (length s) <$> l) = select t l.
Proof.
  unfold select. rewrite <- list_fmap_compose. apply list_fmap_ext. intros k i _. cbn. rewrite app_nth2 by lia. f_equal. lia.
Qed.

(** What is written back: as long, the values at their offsets, the rest as it was. *)
Lemma write_back_spec l : ∀ lo s vs,
  ascending lo (length s) l → masks (select s l) vs →
  masks s (write_back s l vs) ∧ select (write_back s l vs) l = vs ∧
  (∀ i, i ∉ l → write_back s l vs !! i = s !! i).
Proof.
  induction l as [|i l IH]; intros lo s vs Ha Hm; inversion Hm as [|? v ? vs' Hv Hvs]; subst; cbn [write_back].
  { split; [apply masks_refl|done]. }
  apply ascending_cons in Ha as [Hi Ha]. assert (Hsel : select (<[i:=v]> s) l = select s l).
  { apply list_fmap_ext. intros k j Hj. apply list_elem_of_lookup_2 in Hj. pose proof (ascending_bound _ _ _ _ Ha Hj).
    rewrite !nth_lookup. f_equal. apply list_lookup_insert_ne. lia. }
  destruct (IH (S i) (<[i:=v]> s) vs') as (M&Sl&O); [by rewrite length_insert|by rewrite Hsel|].
  assert (Hni : i ∉ l) by (intros H%(ascending_bound _ _ _ _ Ha); lia). split; [|split].
  - eapply masks_trans; [|exact M]. apply Forall2_same_length_lookup. split; [by rewrite length_insert|].
    intros k a b Ha' Hb. destruct (decide (k = i)) as [->|Hk].
    + rewrite list_lookup_insert_eq in Hb by lia. injection Hb as <-. by rewrite nth_lookup, Ha' in Hv.
    + rewrite list_lookup_insert_ne in Hb by done. left. congruence.
  - cbn. fold (select (write_back (<[i:=v]> s) l vs') l). rewrite Sl. f_equal.
    rewrite nth_lookup, O by done. by rewrite list_lookup_insert_eq by lia.
  - intros j [Hj Hjl]%not_elem_of_cons. rewrite O by done. by apply list_lookup_insert_ne.
Qed.

Lemma filter_cut (l : list nat) k ra :
  Forall (fun i => i < ra)%nat (take k l) → Forall (fun i => ra ≤ i)%nat (drop k l) →
  List.filter (fun i => ra <=? i)%nat l = drop k l.
Proof.
  intros H1 H2. rewrite <- (take_drop k l) at 1. rewrite List.filter_app.
  assert (E1 : List.filter (fun i => ra <=? i)%nat (take k l) = []).
  { induction H1 as [|i m Hi _ IH]; [done|]. cbn. destruct (Nat.leb_spec ra i); [lia|done]. }
  assert (E2 : List.filter (fun i => ra <=? i)%nat (drop k l) = drop k l).
  { induction H2 as [|i m Hi _ IH]; [done|]. cbn. destruct (Nat.leb_spec ra i); [by rewrite IH|lia]. }
  by rewrite E1, E2.
Qed.

Lemma ascending_cut lo hi l k m :
  ascending lo hi l → l !! k = Some m → Forall (fun i => i < m)%nat (take k l) ∧ Forall (fun i => m ≤ i)%nat (drop k l).
Proof.
  revert lo k. induction l as [|i l IH]; intros lo k Ha Hk; [done|]. apply ascending_cons in Ha as [Hi Ha].
  destruct k as [|k]; cbn in Hk |- *.
  - injection Hk as <-. split; constructor; [lia|]. eapply Forall_impl; [apply Ha|]. cbn. lia.
  - destruct (IH _ _ Ha Hk) as [H1 H2]. split; [|done]. constructor; [|done].
    apply list_elem_of_lookup_2, (ascending_bound _ _ _ _ Ha) in Hk. lia.
Qed.

(** Where a push releases up to. *)
Definition release_point (keep len : nat) (scannable : list nat) (final_chunk : bool) : nat :=
  if final_chunk || (keep =? 0)%nat then len
  else if (keep <? length scannable)%nat then nth (length scannable - keep) scannable O
  else default len (head scannable).

Lemma release_point_spec keep lo len l final_chunk :
  ascending lo len l → let ra := release_point keep len l final_chunk in
  (ra ≤ len)%nat ∧ ∃ k, Forall (fun i => i < ra)%nat (take k l) ∧ Forall (fun i => ra ≤ i)%nat (drop k l) ∧
    (final_chunk = false → k = O ∨ (keep ≤ length (drop k l))%nat).
Proof.
  intros Ha. unfold release_point. destruct (_ || _) eqn:Ef; cbn zeta.
  { split; [done|]. exists (length l). rewrite take_ge, drop_ge by lia. split; [|split; [constructor|]].
    - eapply Forall_impl; [apply Ha|]. cbn. lia.
    - intros ->. cbn in Ef. apply Nat.eqb_eq in Ef as ->. right. lia. }
  apply orb_false_iff in Ef as [_ Hk%Nat.eqb_neq]. destruct (Nat.ltb_spec keep (length l)) as [Hlt|Hge].
  - destruct (lookup_lt_is_Some_2 l (length l - keep)) as [m Hm]; [lia|]. rewrite (nth_lookup_Some _ _ _ _ Hm).
    destruct (ascending_cut _ _ _ _ _ Ha Hm) as [H1 H2]. apply list_elem_of_lookup_2, (ascending_bound _ _ _ _ Ha) in Hm.
    split; [lia|]. exists (length l - keep)%nat. split; [done|]. split; [done|]. intros _. right. rewrite length_drop. lia.
  - destruct l as [|i l]; cbn.
    + split; [done|]. exists O. split; [constructor|]. split; [constructor|by left].
    + destruct (ascending_cut _ _ _ O i Ha eq_refl) as [_ H2]. apply ascending_cons in Ha as [Hi _]. split; [lia|].
      exists O. split; [constructor|]. split; [done|by left].
Qed.

Lemma ascending_map (f : nat → nat) lo hi lo' hi' l :
  (∀ i, lo ≤ i < hi → lo' ≤ f i < hi')%nat → (∀ i j, lo ≤ i → i < j → j < hi → f i < f j)%nat →
  ascending lo hi l → ascending lo' hi' (f <$> l).
Proof.
  intros Hb Hm [Hs Hf]. split.
  - induction Hs as [|i l Hs IH Hi]; [constructor|]. apply Forall_cons in Hf as [Hfi Hf]. cbn. constructor; [by apply IH|].
    apply Forall_fmap. rewrite Forall_forall in Hi, Hf |- *. intros j Hj. cbn. apply Hm; [lia|by apply Hi|]. by apply Hf.
  - apply Forall_fmap. eapply Forall_impl; [exact Hf|]. cbn. intros i Hi. by apply Hb.
Qed.

Lemma ascending_split lo hi l k ra :
  ascending lo hi l → Forall (fun i => i < ra)%nat (take k l) → Forall (fun i => ra ≤ i)%nat (drop k l) →
  ascending lo ra (take k l) ∧ ascending ra hi (drop k l).
Proof.
  intros [Hs Hf] H1 H2. rewrite <- (take_drop k l) in Hs, Hf. apply StronglySorted_app in Hs as (_&Hs1&Hs2).
  apply Forall_app in Hf as [Hf1 Hf2]. split; (split; [done|]).
  - eapply Forall_impl; [apply Forall_and; exact (conj Hf1 H1)|]. cbn. lia.
  - eapply Forall_impl; [apply Forall_and; exact (conj Hf2 H2)|]. cbn. lia.
Qed.

(** ** The redactor's invariant *)

(** The redactor has read [total] and let [R] go; [G] are the offsets its framing
    named, and those of [Gr] are let go. *)
Record redacting (needles : list bytes) (total R : bytes) (G : list nat) (r : Http1ResponseRedactor) : Prop := {
  rd_needles : rr_needles r = needles;
  rd_keep : rr_keep r = keep_of needles;
  rd_masks : masks total (R ++ rr_pending r);
  rd_rest : ∀ i, i ∉ G → (R ++ rr_pending r) !! i = total !! i;
  rd_free : needle_free needles (select (R ++ rr_pending r) G);
  rd_cut : ∃ Gr, G = Gr ++ (Nat.add (length R) <$> rr_scannable r) ∧ ascending 0 (length R) Gr ∧
             ascending 0 (length (rr_pending r)) (rr_scannable r) ∧
             (Gr = [] ∨ (keep_of needles ≤ length (rr_scannable r))%nat);
}.

Lemma redactor_new_redacting needles hr : redacting needles [] [] [] (redactor_new needles hr).
Proof.
  split; try done; [constructor| |exists []; cbn; auto]. intros n _ Hn _ (a&b&E). cbn in E. by destruct a, n.
Qed.

Lemma offsets_shift a base ranges : offsets (a + base) ranges = Nat.add a <$> offsets base ranges.
Proof.
  unfold offsets. induction ranges as [|[s l] ranges IH]; [done|]. cbn [mbind list_bind fst snd]. rewrite fmap_app. f_equal; [|exact IH].
  rewrite fmap_add_seq. f_equal. lia.
Qed.

(** The pieces of a push. *)
Definition push_scannable (r : Http1ResponseRedactor) (input : bytes) : list nat :=
  rr_scannable r ++ offsets (length (rr_pending r)) (classify_input (rr_head_request r) (rr_framing r) input).2.

Definition push_pending (r : Http1ResponseRedactor) (input : bytes) : bytes :=
  let pending := rr_pending r ++ input in
  write_back pending (push_scannable r input) (redact_bytes (select pending (push_scannable r input)) (rr_needles r)).

Definition push_release (r : Http1ResponseRedactor) (input : bytes) (final_chunk : bool) : nat :=
  release_point (rr_keep r) (length (push_pending r input)) (push_scannable r input) final_chunk.

Lemma redactor_push_eq r input final_chunk :
  redactor_push r input final_chunk =
  (MkRedactor (classify_input (rr_head_request r) (rr_framing r) input).1 (rr_head_request r) (rr_needles r) (rr_keep r)
     (drop (push_release r input final_chunk) (push_pending r input))
     ((fun i => i - push_release r input final_chunk)%nat <$>
        List.filter (fun i => push_release r input final_chunk <=? i)%nat (push_scannable r input)),
   take (push_release r input final_chunk) (push_pending r input)).
Proof. unfold redactor_push, push_release, push_pending, push_scannable, release_point. by destruct (classify_input _ _ _). Qed.

Section push.
  Context (needles : list bytes) (total R : bytes) (G : list nat) (r : Http1ResponseRedactor) (x : bytes).
  Context (Hr : redacting needles total R G r).
  #[local] Notation G' := (G ++ offsets (length total) (classify_input (rr_head_request r) (rr_framing r) x).2).

Lemma push_scannable_ascending : ascending 0 (length (rr_pending r ++ x)) (push_scannable r x).
Proof.
  destruct (rd_cut _ _ _ _ _ Hr) as (Gr&_&_&HS&_). rewrite length_app. unfold push_scannable.
  eapply ascending_app; [|exact HS|]; [lia|]. eapply classify_input_bounds, surjective_pairing.
Qed.

Lemma push_total_length : length total = (length R + length (rr_pending r))%nat.
Proof. rewrite <- (masks_length _ _ (rd_masks _ _ _ _ _ Hr)). apply length_app. Qed.

Lemma push_offsets Gr :
  G = Gr ++ (Nat.add (length R) <$> rr_scannable r) → G' = Gr ++ (Nat.add (length R) <$> push_scannable r x).
Proof.
  intros E. unfold push_scannable. by rewrite E, fmap_app, <- app_assoc, push_total_length, offsets_shift.
Qed.

Lemma push_written :
  masks (rr_pending r ++ x) (push_pending r x) ∧
  select (push_pending r x) (push_scannable r x) = redact_bytes (select (rr_pending r ++ x) (push_scannable r x)) needles ∧
  ∀ i, i ∉ push_scannable r x → push_pending r x !! i = (rr_pending r ++ x) !! i.
Proof.
  unfold push_pending. rewrite (rd_needles _ _ _ _ _ Hr). eapply write_back_spec; [apply push_scannable_ascending|].
  apply (proj1 (redact_bytes_spec _ _)).
Qed.

Lemma push_length : length (push_pending r x) = length (rr_pending r ++ x).
Proof. eapply masks_length, push_written. Qed.

(** What is written and still held: a mask of what was read, changed at named
    offsets only and free of needles there. *)
Lemma push_text :
  masks (total ++ x) (R ++ push_pending r x) ∧
  (∀ i, i ∉ G' → (R ++ push_pending r x) !! i = (total ++ x) !! i) ∧
  needle_free needles (select (R ++ push_pending r x) G').
Proof.
  destruct push_written as (M&Sl&O). destruct (rd_cut _ _ _ _ _ Hr) as (Gr&EGr&HG&HS&Hk).
  pose proof (push_offsets _ EGr) as EG. pose proof push_total_length as Hlen. split; [|split].
  - eapply masks_trans; [apply masks_app; [apply Hr|apply masks_refl]|]. rewrite <- app_assoc. apply masks_app; [apply masks_refl|done].
  - intros i Hi. assert (Hold : (R ++ rr_pending r ++ x) !! i = (total ++ x) !! i).
    { rewrite not_elem_of_app in Hi. rewrite app_assoc. destruct (decide (i < length total)%nat).
      - rewrite (lookup_app_l _ x), (lookup_app_l total) by (rewrite ?length_app; lia). by apply (rd_rest _ _ _ _ _ Hr), Hi.
      - rewrite (lookup_app_r _ x), (lookup_app_r total) by (rewrite ?length_app; lia). by rewrite length_app, Hlen. }
    rewrite <- Hold. destruct (decide (i < length R)%nat); [by rewrite !(lookup_app_l R) by done|].
    rewrite !(lookup_app_r R) by lia. apply O. intros Hin. apply Hi. rewrite EG, elem_of_app. right.
    apply list_elem_of_fmap. exists (i - length R)%nat. split; [lia|done].
  - rewrite EG, select_app, select_shift, Sl. erewrite select_app_l by exact HG.
    unfold push_scannable at 1. rewrite select_app. apply window.
    + rewrite select_length. destruct Hk as [->|Hk]; [by left|by right].
    + pose proof (rd_free _ _ _ _ _ Hr) as Hfree. rewrite EGr, select_app, select_shift in Hfree.
      erewrite select_app_l in Hfree by exact HG. by erewrite select_app_l by exact HS.
Qed.

Lemma push_redacting : redacting needles (total ++ x) (R ++ (redactor_push r x false).2) G' (redactor_push r x false).1.
Proof.
  rewrite redactor_push_eq. cbn [fst snd]. destruct push_text as (M&O&F).
  destruct (rd_cut _ _ _ _ _ Hr) as (Gr&EGr&HG&HS&Hk). pose proof push_scannable_ascending as Ha. rewrite <- push_length in Ha.
  destruct (release_point_spec (rr_keep r) 0 (length (push_pending r x)) (push_scannable r x) false Ha) as [Hra (k&K1&K2&K3)].
  destruct (ascending_split _ _ _ _ _ Ha K1 K2) as [A1 A2]. fold (push_release r x false) in Hra, K1, K2, A1, A2. set (ra := push_release r x false) in *.
  rewrite (filter_cut _ _ _ K1 K2). split; cbn [rr_needles rr_keep rr_pending rr_scannable]; try (by apply Hr).
  1-3: rewrite <- app_assoc, take_drop; done.
  exists (Gr ++ (Nat.add (length R) <$> take k (push_scannable r x))). rewrite length_app, length_take_le by done.
  assert (Ht : ascending (length R) (length R + ra) (Nat.add (length R) <$> take k (push_scannable r x))).
  { eapply ascending_map; [| |exact A1]; lia. }
  split; [|split; [|split]].
  - rewrite (push_offsets _ EGr), <- app_assoc. f_equal. rewrite <- (take_drop k (push_scannable r x)) at 1. rewrite fmap_app. f_equal.
    rewrite <- list_fmap_compose. apply list_fmap_ext. intros j i Hi. cbn. apply list_elem_of_lookup_2 in Hi.
    rewrite Forall_forall in K2. specialize (K2 _ Hi). cbn in K2. lia.
  - eapply ascending_app; [|exact HG|exact Ht]. lia.
  - rewrite length_drop. eapply ascending_map; [| |exact A2]; lia.
  - rewrite length_fmap. rewrite (rd_keep _ _ _ _ _ Hr) in K3. destruct (K3 eq_refl) as [->|?]; [|by right].
    destruct Hk as [->|Hk]; [by left|]. right. unfold push_scannable. rewrite drop_0, length_app. lia.
Qed.

End push.

(** The last push lets everything go. *)
Lemma push_final r x : (redactor_push r x true).2 = push_pending r x.
Proof. rewrite redactor_push_eq. cbn [snd]. unfold push_release, release_point. cbn [orb]. by rewrite take_ge. Qed.

(** ** Copies *)

(** The reads a copy takes, and whether the stream ends in order. *)
Fixpoint received (reader : list read_result) : list bytes :=
  match reader with
  | ReadData b :: reader' => if bool_decide (b = []) then [] else b :: received reader'
  | _ => []
  end.

Fixpoint closes (reader : list read_result) : bool :=
  match reader with
  | [] | ReadEof :: _ => true
  | ReadData b :: reader' => if bool_decide (b = []) then true else closes reader'
  | _ => false
  end.

(** The offsets the framing names, read by read. *)
Fixpoint scanned (hr : bool) (st : Http1ResponseState) (base : nat) (frames : list bytes) : list nat :=
  match frames with
  | [] => []
  | x :: frames' =>
      let '(st', ranges) := classify_input hr st x in
      offsets base ranges ++ scanned hr st' (base + length x) frames'
  end.

Lemma redactor_push_state r x final_chunk :
  rr_framing (redactor_push r x final_chunk).1 = (classify_input (rr_head_request r) (rr_framing r) x).1 ∧
  rr_head_request (redactor_push r x final_chunk).1 = rr_head_request r.
Proof. by rewrite redactor_push_eq. Qed.

(** What a copy that ends in order wrote. *)
Lemma copy_loop_spec needles reader : ∀ total R G r,
  redacting needles total R G r → closes reader = true →
  ∃ out, copy_loop r reader R = (out, Ok tt) ∧
    let all := total ++ concat (received reader) in
    let named := G ++ scanned (rr_head_request r) (rr_framing r) (length total) (received reader) in
    masks all out ∧ (∀ i, i ∉ named → out !! i = all !! i) ∧ needle_free needles (select out named).
Proof.
  assert (Hend : ∀ total R G r, redacting needles total R G r →
    let out := R ++ (redactor_push r [] true).2 in
    masks (total ++ []) out ∧ (∀ i, i ∉ G ++ [] → out !! i = (total ++ []) !! i) ∧ needle_free needles (select out (G ++ []))).
  { intros total R G r Hr. rewrite push_final. exact (push_text _ _ _ _ _ [] Hr). }
  induction reader as [|[b| | |] reader IH]; intros total R G r Hr Hc; cbn [copy_loop closes received] in Hc |- *; try done.
  - eexists. split; [done|]. by apply Hend.
  - case_bool_decide as Hb; [eexists; split; [done|]; by apply Hend|].
    pose proof (push_redacting _ _ _ _ _ b Hr) as Hr'. destruct (redactor_push_state r b false) as [Ef Eh].
    destruct (redactor_push r b false) as [r' out]. cbn [fst snd] in *. destruct (IH _ _ _ _ Hr' Hc) as (w&Ew&Hw).
    exists w. split; [done|]. cbn [concat scanned]. rewrite Ef, Eh, length_app in Hw.
    destruct (classify_input _ _ b). cbn [fst snd] in Hw. by rewrite <- !app_assoc in Hw.
  - eexists. split; [done|]. by apply Hend.
Qed.
