(* ===== verification/EgressScan.v ===== *)
(** * The framing of responses, byte by byte

    A reference for the framing tracker of [intercept.rs]: a machine that takes
    one byte and says whether it is text. The tracker, which takes reads of any
    size, agrees with it for as long as the response is not malformed; so what
    it names does not depend on how the response is split. With it, no host-side
    credential survives in the text of a well-formed response. *)

From S2P Require Import Prelude Bytes EgressPolicy EgressRegistry EgressHttp EgressRedact EgressRedactProps.

(** ** The machine *)

Definition size_state (line : bytes) : ChunkedFraming :=
  if (8192 <? length line)%nat then ChunkedInvalid
  else if ends_with CRLF line then
    match from_utf8 (default [] (head (split_byte 59 (take (length line - 2) line)))) with
    | None => ChunkedInvalid
    | Some text =>
        match from_str_radix 16 usize_max (trim text) with
        | None => ChunkedInvalid
        | Some size => if (size =? 0)%N then TrailerLine [] else Data size
        end
    end
  else Size line.

Definition trailer_state (line : bytes) : ChunkedFraming :=
  if (RESPONSE_HEADER_BUDGET <? length line)%nat then ChunkedInvalid
  else if ends_with CRLF line then
    if (length line =? 2)%nat then ChunkedComplete else TrailerLine []
  else TrailerLine line.

Definition chunked_step (st : ChunkedFraming) (b : N) : ChunkedFraming * bool :=
  match st with
  | Size line => (size_state (line ++ [b]), false)
  | Data remaining => (if (remaining - 1 =? 0)%N then DataCrlf 0 else Data (remaining - 1), true)
  | DataCrlf seen =>
      (if negb (b =? if (seen =? 0)%nat then CR else LF)%N then ChunkedInvalid
       else if (S seen =? 2)%nat then Size [] else DataCrlf (S seen), false)
  | TrailerLine line => (trailer_state (line ++ [b]), true)
  | ChunkedComplete | ChunkedInvalid => (ChunkedInvalid, true)
  end.

Definition lift_chunked (ch : ChunkedFraming) : Http1ResponseState :=
  match ch with ChunkedComplete => Complete | ChunkedInvalid => Invalid | _ => ChunkedBody ch end.

Definition step (hr : bool) (st : Http1ResponseState) (b : N) : Http1ResponseState * bool :=
  match st with
  | Headers buffer =>
      let buffer := buffer ++ [b] in
      (if ends_with CRLFCRLF buffer then default Invalid (response_body_framing (take (length buffer - 4) buffer) hr)
       else if (RESPONSE_HEADER_BUDGET <=? length buffer)%nat then Invalid else Headers buffer, true)
  | Length remaining => (if (remaining - 1 =? 0)%N then Complete else Length (remaining - 1), true)
  | ChunkedBody ch => let '(ch', f) := chunked_step ch b in (lift_chunked ch', f)
  | CloseDelimited => (CloseDelimited, true)
  | Complete | Invalid => (Invalid, true)
  end.

(** Where the machine is after some bytes, and which of them were text. *)
Fixpoint scan_st (hr : bool) (st : Http1ResponseState) (x : bytes) : Http1ResponseState :=
  match x with [] => st | b :: x' => scan_st hr (step hr st b).1 x' end.

Fixpoint scan (hr : bool) (st : Http1ResponseState) (x : bytes) : list bool :=
  match x with [] => [] | b :: x' => (step hr st b).2 :: scan hr (step hr st b).1 x' end.

(** The offsets of marks. *)
Fixpoint marked (base : nat) (marks : list bool) : list nat :=
  match marks with
  | [] => []
  | m :: marks' => (if m then cons base else id) (marked (S base) marks')
  end.

(** ** Splitting *)

Lemma scan_st_app hr st x y : scan_st hr st (x ++ y) = scan_st hr (scan_st hr st x) y.
Proof. revert st. induction x as [|b x IH]; intros st; [done|]. apply IH. Qed.

Lemma scan_app hr st x y : scan hr st (x ++ y) = scan hr st x ++ scan hr (scan_st hr st x) y.
Proof. revert st. induction x as [|b x IH]; intros st; [done|]. cbn. f_equal. apply IH. Qed.

Lemma scan_length hr st x : length (scan hr st x) = length x.
Proof. revert st. induction x as [|b x IH]; intros st; [done|]. cbn. f_equal. apply IH. Qed.

Lemma marked_app base m n : marked base (m ++ n) = marked base m ++ marked (base + length m) n.
Proof.
  revert base. induction m as [|f m IH]; intros base; cbn; [by rewrite Nat.add_0_r|]. rewrite IH.
  replace (base + S (length m))%nat with (S base + length m)%nat by lia. by destruct f.
Qed.

Lemma marked_true base n : marked base (replicate n true) = seq base n.
Proof. revert base. induction n as [|n IH]; intros base; [done|]. cbn. f_equal. apply IH. Qed.

Lemma scan_invalid hr x : scan_st hr Invalid x = Invalid.
Proof. by induction x. Qed.

Lemma scan_app_valid hr st x y : scan_st hr st (x ++ y) ≠ Invalid → scan_st hr st x ≠ Invalid.
Proof. rewrite scan_st_app. intros H E. apply H. rewrite E. apply scan_invalid. Qed.

(** ** Runs of text *)

Lemma scan_length_run hr x : ∀ n, (0 < N.of_nat (length x) ≤ n)%N →
  scan_st hr (Length n) x = (if (n - N.of_nat (length x) =? 0)%N then Complete else Length (n - N.of_nat (length x))) ∧
  scan hr (Length n) x = replicate (length x) true.
Proof.
  induction x as [|b x IH]; intros n Hn; [cbn in Hn; lia|]. destruct x as [|c x]; [done|].
  set (y := c :: x) in *. cbn [scan_st scan step fst snd length replicate] in *.
  assert (Hy : (0 < length y)%nat) by (cbn; lia). destruct (N.eqb_spec (n - 1) 0) as [E|E]; [lia|].
  destruct (IH (n - 1)%N) as [-> ->]; [lia|]. split; [|done].
  by replace (n - N.of_nat (S (length y)))%N with (n - 1 - N.of_nat (length y))%N by lia.
Qed.

Lemma scan_data_run hr x : ∀ n, (0 < N.of_nat (length x) ≤ n)%N →
  scan_st hr (ChunkedBody (Data n)) x =
    ChunkedBody (if (n - N.of_nat (length x) =? 0)%N then DataCrlf 0 else Data (n - N.of_nat (length x))) ∧
  scan hr (ChunkedBody (Data n)) x = replicate (length x) true.
Proof.
  induction x as [|b x IH]; intros n Hn; [cbn in Hn; lia|]. destruct x as [|c x].
  { cbn. change (N.of_nat 1) with 1%N. by destruct (n - 1 =? 0)%N. }
  set (y := c :: x) in *. cbn [scan_st scan step chunked_step lift_chunked fst snd length replicate] in *.
  assert (Hy : (0 < length y)%nat) by (cbn; lia). destruct (N.eqb_spec (n - 1) 0) as [E|E]; [lia|].
  destruct (IH (n - 1)%N) as [IH1 IH2]; [lia|]. cbn [lift_chunked]. rewrite IH1, IH2. split; [|done].
  by replace (n - N.of_nat (S (length y)))%N with (n - 1 - N.of_nat (length y))%N by lia.
Qed.

Lemma scan_close_run hr x : scan_st hr CloseDelimited x = CloseDelimited ∧ scan hr CloseDelimited x = replicate (length x) true.
Proof. induction x as [|b x [IH1 IH2]]; [done|]. cbn. by rewrite IH1, IH2. Qed.

Lemma not_occurs_prefix n a b : ¬ occurs n (a ++ b) → ¬ occurs n a.
Proof. intros H (x&y&->). apply H. exists x, (y ++ b). by rewrite <- !app_assoc. Qed.

Lemma budget_pos : (0 < RESPONSE_HEADER_BUDGET)%nat.
Proof. unfold RESPONSE_HEADER_BUDGET. lia. Qed.

#[local] Opaque RESPONSE_HEADER_BUDGET.

Lemma scan_headers_run hr x : ∀ buffer,
  ¬ occurs CRLFCRLF (buffer ++ x) → (length (buffer ++ x) < RESPONSE_HEADER_BUDGET)%nat →
  scan_st hr (Headers buffer) x = Headers (buffer ++ x) ∧ scan hr (Headers buffer) x = replicate (length x) true.
Proof.
  induction x as [|b x IH]; intros buffer Ho Hl; [by rewrite app_nil_r|].
  cbn [scan_st scan step fst snd length replicate]. rewrite (cons_middle b buffer x), (app_assoc buffer) in Ho, Hl.
  rewrite (cons_middle b buffer x), (app_assoc buffer).
  destruct (ends_with CRLFCRLF (buffer ++ [b])) eqn:E.
  { apply ends_with_spec in E as [t E]. destruct Ho. exists t, x. by rewrite app_assoc, <- E. }
  destruct (Nat.leb_spec RESPONSE_HEADER_BUDGET (length (buffer ++ [b]))) as [Hb|_]; [rewrite length_app in Hl; lia|].
  destruct (IH (buffer ++ [b]) Ho Hl) as [-> ->]. done.
Qed.

Lemma scan_headers_over hr x buffer :
  ¬ occurs CRLFCRLF (buffer ++ x) → (length buffer < RESPONSE_HEADER_BUDGET ≤ length (buffer ++ x))%nat →
  scan_st hr (Headers buffer) x = Invalid.
Proof.
  intros Ho Hl. rewrite length_app in Hl. set (k := (RESPONSE_HEADER_BUDGET - length buffer)%nat).
  assert (E : x = take (pred k) x ++ take 1 (drop (pred k) x) ++ drop k x).
  { rewrite <- (take_drop (pred k) x) at 1. f_equal. rewrite <- (take_drop 1 (drop (pred k) x)) at 1. f_equal. rewrite drop_drop. f_equal. lia. }
  assert (Hk : length (take (pred k) x) = pred k) by (rewrite length_take; lia).
  destruct (lookup_lt_is_Some_2 x (pred k)) as [b Hb]; [lia|]. rewrite (drop_S _ _ _ Hb) in E. cbn [take] in E.
  rewrite take_0 in E. rewrite E in Ho |- *. rewrite !scan_st_app. rewrite app_assoc in Ho.
  destruct (scan_headers_run hr (take (pred k) x) buffer) as [-> _];
    [by eapply not_occurs_prefix|rewrite length_app, Hk; lia|].
  cbn [app scan_st step fst]. rewrite app_assoc in Ho. apply not_occurs_prefix in Ho.
  destruct (ends_with CRLFCRLF _) eqn:Ee.
  { apply ends_with_spec in Ee as [t Ee]. destruct Ho. exists t, []. by rewrite app_nil_r. }
  destruct (Nat.leb_spec RESPONSE_HEADER_BUDGET (length ((buffer ++ take (pred k) x) ++ [b]))) as [_|Hb'].
  - apply scan_invalid.
  - rewrite !length_app, Hk in Hb'. cbn [length] in Hb'. lia.
Qed.

(** ** The end of a head *)

(** A search that starts three bytes before the new ones finds the first end of
    the head. *)
Lemma header_search old x : ¬ occurs CRLFCRLF old →
  match (fun i => (length old - 3) + i)%nat <$> find_sub CRLFCRLF (drop (length old - 3) (old ++ x)) with
  | Some e => occurs_at CRLFCRLF (old ++ x) e ∧ (length old < e + 4 ≤ length (old ++ x))%nat ∧
              ¬ occurs CRLFCRLF (take (e + 3) (old ++ x))
  | None => ¬ occurs CRLFCRLF (old ++ x)
  end.
Proof.
  intros Ho. set (sf := (length old - 3)%nat). set (buf := old ++ x).
  assert (Hold : ∀ i, occurs_at CRLFCRLF buf i → (length old < i + 4)%nat).
  { intros i Hi. destruct (decide (length old < i + 4)%nat) as [|Hn]; [done|]. destruct Ho. apply occurs_iff; [done|]. exists i.
    intros k b Hk. pose proof (lookup_lt_Some _ _ _ Hk) as Hl. change (length CRLFCRLF) with 4%nat in Hl.
    specialize (Hi _ _ Hk). unfold buf in Hi. by rewrite lookup_app_l in Hi by lia. }
  assert (Hat : ∀ i, occurs_at CRLFCRLF buf i ↔ (sf ≤ i)%nat ∧ occurs_at CRLFCRLF (drop sf buf) (i - sf)).
  { intros i. split.
    - intros Hi. specialize (Hold _ Hi). split; [lia|]. intros k b Hk. rewrite lookup_drop.
      replace (sf + (i - sf + k))%nat with (i + k)%nat by lia. by apply Hi.
    - intros [Hle Hi] k b Hk. specialize (Hi _ _ Hk). rewrite lookup_drop in Hi. by replace (sf + (i - sf + k))%nat with (i + k)%nat in Hi by lia. }
  destruct (find_sub CRLFCRLF (drop sf buf)) as [i|] eqn:E; cbn [fmap option_fmap option_map].
  - pose proof (find_sub_cut _ _ _ E) as Hc. assert (Hi : occurs_at CRLFCRLF buf (sf + i)).
    { apply Hat. split; [lia|]. replace (sf + i - sf)%nat with i by lia. intros k b Hk. rewrite Hc.
      assert (Hti : length (take i (drop sf buf)) = i) by (apply length_take_le; by destruct (find_sub_Some _ _ _ E) as (_&?&_)).
      rewrite lookup_app_r by lia. rewrite Hti. replace (i + k - i)%nat with k by lia. by apply lookup_app_l_Some. }
    split; [done|]. specialize (Hold _ Hi) as Hlt. pose proof (Hi 3%nat LF eq_refl) as H3%lookup_lt_Some. split; [lia|].
    intros Hocc. apply occurs_iff in Hocc as [j Hj]; [|done]. pose proof (Hj 3%nat LF eq_refl) as Hj3%lookup_lt_Some.
    rewrite length_take in Hj3.
    assert (Hjb : occurs_at CRLFCRLF buf j).
    { intros k b Hk. specialize (Hj _ _ Hk). by apply lookup_take_Some in Hj as [? _]. }
    apply Hat in Hjb as [Hsf Hjb]. destruct (find_sub_Some _ _ _ E) as (_&_&Hmin). specialize (Hmin (j - sf)%nat ltac:(lia)).
    apply occurs_at_starts in Hjb. congruence.
  - intros Hocc. apply occurs_iff in Hocc as [j Hj]; [|done]. apply Hat in Hj as [_ Hj].
    assert (Hs : occurs CRLFCRLF (drop sf buf)) by (apply occurs_iff; eauto; done). apply find_sub_is_Some in Hs. rewrite E in Hs. by destruct Hs.
Qed.

Lemma scan_headers_end hr buffer x e :
  occurs_at CRLFCRLF (buffer ++ x) e → (length buffer < e + 4)%nat → (e + 4 = length (buffer ++ x))%nat →
  ¬ occurs CRLFCRLF (take (e + 3) (buffer ++ x)) → (e + 4 ≤ RESPONSE_HEADER_BUDGET)%nat →
  scan_st hr (Headers buffer) x = default Invalid (response_body_framing (take e (buffer ++ x)) hr) ∧
  scan hr (Headers buffer) x = replicate (length x) true.
Proof.
  intros Hat Hlt Hlen Ho Hbud. rewrite length_app in Hlen. destruct x as [|b y _] using rev_ind; [cbn in Hlen; lia|].
  rewrite length_app in Hlen. cbn [length] in Hlen.
  assert (Hb : length (buffer ++ y) = (e + 3)%nat) by (rewrite length_app; lia).
  rewrite (app_assoc buffer), <- Hb, take_app_length in Ho.
  destruct (scan_headers_run hr y buffer Ho) as [E1 E2]; [lia|].
  rewrite scan_st_app, scan_app, E1, E2, length_app, replicate_add. cbn [scan_st scan step fst snd length replicate]. split; [|done].
  assert (He : ends_with CRLFCRLF ((buffer ++ y) ++ [b]) = true).
  { apply ends_with_spec. exists (take e ((buffer ++ y) ++ [b])).
    apply occurs_at_starts, starts_with_inv in Hat. rewrite drop_drop, (drop_ge _ (_ + _)), app_nil_r in Hat.
    - rewrite <- (take_drop e ((buffer ++ y) ++ [b])) at 1. f_equal. by rewrite <- app_assoc, Hat.
    - rewrite app_assoc, length_app. cbn. lia. }
  rewrite He, <- app_assoc. do 3 f_equal. rewrite app_assoc, length_app, Hb. cbn. lia.
Qed.

(** ** The tracker is the machine *)

(** States a tracker can be in between reads, apart from the malformed one. *)
Definition settled_chunked (ch : ChunkedFraming) : Prop :=
  match ch with
  | Data n => n ≠ 0%N
  | ChunkedComplete | ChunkedInvalid => False
  | _ => True
  end.

Definition settled (st : Http1ResponseState) : Prop :=
  match st with
  | Headers buffer => ¬ occurs CRLFCRLF buffer ∧ (length buffer < RESPONSE_HEADER_BUDGET)%nat
  | Length n => n ≠ 0%N
  | ChunkedBody ch => settled_chunked ch
  | Invalid => False
  | _ => True
  end.

Lemma response_body_framing_settled hd hr st : response_body_framing hd hr = Some st → settled st.
Proof.
  unfold response_body_framing. destruct (from_utf8 hd); [|done]. destruct (split_crlf _); [done|]. destruct (_ ≫= _) as [status|]; [|done].
  destruct (response_lines _ _ _) as [[cl te]|]; [|done]. destruct (_ && _).
  { intros [= <-]. split; [|apply budget_pos]. intros (a&c&E). by destruct a. }
  destruct (_ || _); [by intros [= <-]|]. destruct (match te with Some _ => _ | None => _ end); [by intros [= <-]|].
  intros [= <-]. destruct cl as [[|p]|]; done.
Qed.

Lemma size_state_settled line : lift_chunked (size_state line) ≠ Invalid → settled_chunked (size_state line).
Proof.
  unfold size_state. destruct (_ <? _)%nat; [done|]. destruct (ends_with _ _); [|done]. destruct (from_utf8 _); [|done].
  destruct (from_str_radix _ _ _) as [n|]; [|done]. destruct (N.eqb_spec n 0); [done|]. by cbn.
Qed.

(** Marks and offsets of a longer range. *)
Lemma offsets_marked g ranges pos n :
  offsets g (push_range ranges pos n) = offsets g ranges ++ marked (g + pos) (replicate n true).
Proof. by rewrite offsets_push, marked_true. Qed.

Lemma chunked_classify_nil fuel ch base consumed ranges :
  chunked_classify fuel ch base consumed [] ranges = (ch, consumed, ranges).
Proof. by destruct fuel. Qed.

Lemma chunked_step_settled ch b : settled_chunked ch → (chunked_step ch b).1 ≠ Data 0.
Proof.
  destruct ch as [line|n|seen|line| |]; cbn; try done; intros _.
  - unfold size_state. destruct (_ <? _)%nat; [done|]. destruct (ends_with _ _); [|done]. destruct (from_utf8 _); [|done].
    destruct (from_str_radix _ _ _) as [n|]; [|done]. destruct (N.eqb_spec n 0); [done|congruence].
  - destruct (N.eqb_spec (n - 1) 0); [done|congruence].
  - by repeat case_match.
  - unfold trailer_state. by repeat case_match.
Qed.

(** A state that more valid bytes follow is settled. *)
Lemma settled_lift hr ch b x : ch ≠ Data 0 → scan_st hr (lift_chunked ch) (b :: x) ≠ Invalid → settled_chunked ch.
Proof.
  intros Hd Hv. destruct ch as [line|n|seen|line| |]; try done; [cbn; congruence|..]; destruct Hv; apply (scan_invalid hr x).
Qed.

(** The tracker's claim about some bytes of a chunked body. *)
Definition chunked_agrees (hr : bool) (g base fuel : nat) (ch : ChunkedFraming) (consumed : nat) (rest : bytes)
    (ranges : list (nat * nat)) (named : list nat) : Prop :=
  ∃ ch' ranges', chunked_classify fuel ch base consumed rest ranges = (ch', (consumed + length rest)%nat, ranges') ∧
    lift_chunked ch' = scan_st hr (lift_chunked ch) rest ∧
    offsets g ranges' = named ++ marked (g + base + consumed) (scan hr (lift_chunked ch) rest).

Lemma lift_settled ch : settled_chunked ch → lift_chunked ch = ChunkedBody ch.
Proof. by destruct ch. Qed.

Lemma min_len_bounds len n : n ≠ 0%N → (0 < len)%nat → (0 < min_len len n)%nat ∧ (min_len len n ≤ len)%nat ∧ (N.of_nat (min_len len n) ≤ n)%N.
Proof. unfold min_len. destruct (N.ltb_spec (N.of_nat len) n); lia. Qed.

Lemma chunked_classify_scan hr g base fuel : ∀ ch consumed rest ranges,
  (rest = [] ∨ settled_chunked ch) → (length rest ≤ fuel)%nat → scan_st hr (lift_chunked ch) rest ≠ Invalid →
  chunked_agrees hr g base fuel ch consumed rest ranges (offsets g ranges).
Proof.
  assert (Hnil : ∀ fuel ch consumed ranges, chunked_agrees hr g base fuel ch consumed [] ranges (offsets g ranges)).
  { intros. exists ch, ranges. rewrite chunked_classify_nil. cbn. by rewrite app_nil_r, Nat.add_0_r. }
  induction fuel as [|fuel IH]; intros ch consumed rest ranges Hs Hf Hv.
  { destruct rest; [apply Hnil|cbn in Hf; lia]. }
  destruct rest as [|b rest]; [apply Hnil|]. destruct Hs as [|Hs]; [done|].
  assert (Hone : ∀ ranges1, offsets g ranges1 = offsets g ranges ++ marked (g + base + consumed) [(chunked_step ch b).2] →
    chunked_classify (S fuel) ch base consumed (b :: rest) ranges =
      chunked_classify fuel (chunked_step ch b).1 base (S consumed) rest ranges1 →
    chunked_agrees hr g base (S fuel) ch consumed (b :: rest) ranges (offsets g ranges)).
  { intros ranges1 E1 Ec. rewrite (lift_settled _ Hs) in Hv. cbn [scan_st step] in Hv.
    pose proof (chunked_step_settled ch b Hs) as Hd. destruct (chunked_step ch b) as [ch1 f] eqn:Es. cbn [fst snd] in *.
    destruct (IH ch1 (S consumed) rest ranges1) as (ch'&ranges'&C1&C2&C3); [|cbn in Hf; lia|done|].
    { destruct rest as [|c rest]; [by left|right]. by eapply settled_lift. }
    exists ch', ranges'. rewrite (lift_settled _ Hs). cbn [scan_st scan step]. rewrite Es. cbn [fst snd]. split; [|split; [done|]].
    - rewrite Ec, C1. do 2 f_equal. cbn. lia.
    - rewrite C3, E1, <- app_assoc. f_equal. replace (g + base + S consumed)%nat with (S (g + base + consumed)) by lia. by destruct f. }
  destruct ch as [line|n|seen|line| |]; try done.
  - apply (Hone ranges); [cbn; by rewrite app_nil_r|done].
  - clear Hone. cbn [settled_chunked] in Hs. set (r := b :: rest) in *. cbn [lift_chunked] in Hv.
    pose proof (min_len_bounds (length r) n Hs ltac:(cbn; lia)) as (T1&T2&T3). set (t := min_len (length r) n) in *.
    assert (Ht : length (take t r) = t) by (apply length_take_le; lia).
    destruct (scan_data_run hr (take t r) n) as [R1 R2]; [lia|]. rewrite Ht in R1, R2.
    set (ch1 := if (n - N.of_nat t =? 0)%N then DataCrlf 0 else Data (n - N.of_nat t)) in *.
    assert (Hs1 : settled_chunked ch1) by (unfold ch1; destruct (N.eqb_spec (n - N.of_nat t) 0); done).
    rewrite <- (lift_settled _ Hs1) in R1.
    destruct (IH ch1 (consumed + t)%nat (drop t r) (push_range ranges (base + consumed) t)) as (ch'&ranges'&C1&C2&C3);
      [by right|rewrite length_drop; cbn in Hf |- *; lia|by rewrite <- (take_drop t r), scan_st_app, R1 in Hv|].
    assert (S1 : scan_st hr (ChunkedBody (Data n)) r = scan_st hr (lift_chunked ch1) (drop t r))
      by (by rewrite <- (take_drop t r) at 1; rewrite scan_st_app, R1).
    assert (S2 : scan hr (ChunkedBody (Data n)) r = replicate t true ++ scan hr (lift_chunked ch1) (drop t r))
      by (by rewrite <- (take_drop t r) at 1; rewrite scan_app, R1, R2).
    exists ch', ranges'. cbn [lift_chunked]. rewrite S1, S2, marked_app, length_replicate.
    split; [|split; [done|]].
    + rewrite length_drop in C1. cbn [chunked_classify r]. fold r. fold t. fold ch1. rewrite C1. do 2 f_equal. lia.
    + rewrite C3, offsets_marked, <- app_assoc, !Nat.add_assoc. done.
  - destruct (N.eqb_spec b (if (seen =? 0)%nat then CR else LF)) as [Eb|Eb].
    + apply (Hone ranges); [cbn; by rewrite app_nil_r|]. cbn [chunked_classify chunked_step fst]. rewrite <- Eb, N.eqb_refl. done.
    + destruct Hv. cbn [lift_chunked scan_st step chunked_step fst]. apply N.eqb_neq in Eb. rewrite Eb. apply scan_invalid.
  - apply (Hone (push_range ranges (base + consumed) 1)); [|done]. rewrite offsets_push. cbn. by rewrite Nat.add_assoc.
Qed.

Lemma head_cut buffer r t c e :
  occurs_at CRLFCRLF (buffer ++ take t r) e → (length buffer + c = e + 4)%nat → (c ≤ t)%nat →
  occurs_at CRLFCRLF (buffer ++ take c r) e ∧
  take (e + 3) (buffer ++ take c r) = take (e + 3) (buffer ++ take t r) ∧
  take e (buffer ++ take c r) = take e (buffer ++ take t r).
Proof.
  intros Hat Hc Hle. assert (E : buffer ++ take c r = take (e + 4) (buffer ++ take t r)).
  { rewrite <- Hc, take_app_add, take_take. by replace (c `min` t)%nat with c by lia. }
  rewrite E, !take_take. split; [|split; f_equal; lia]. intros k b Hk. apply lookup_take_Some. split; [by apply Hat|].
  apply lookup_lt_Some in Hk. change (length CRLFCRLF) with 4%nat in Hk. lia.
Qed.

(** One read: as long as the response is not malformed, the tracker ends where the
    machine does and names what the machine marks. *)
Lemma classify_scan hr g fuel : ∀ st pos rest ranges,
  (rest = [] ∨ settled st) → (length rest < fuel)%nat → scan_st hr st rest ≠ Invalid →
  ∃ ranges', classify hr fuel st pos rest ranges = (scan_st hr st rest, ranges') ∧
    offsets g ranges' = offsets g ranges ++ marked (g + pos) (scan hr st rest).
Proof.
  induction fuel as [|fuel IH]; intros st pos rest ranges Hs Hf Hv; [lia|].
  destruct rest as [|b rest]; [exists ranges; cbn; by rewrite app_nil_r|]. destruct Hs as [|Hs]; [done|].
  set (r := b :: rest) in *. assert (Hr : (0 < length r)%nat) by (cbn; lia).
  (* a run of text, and what follows *)
  assert (Hrun : ∀ st1 t, (0 < t ≤ length r)%nat → scan_st hr st (take t r) = st1 → scan hr st (take t r) = replicate t true →
    (drop t r = [] ∨ settled st1) → 
    ∃ ranges', classify hr fuel st1 (pos + t) (drop t r) (push_range ranges pos t) = (scan_st hr st r, ranges') ∧
      offsets g ranges' = offsets g ranges ++ marked (g + pos) (scan hr st r)).
  { intros st1 t Ht S1 S2 Hn.
    assert (E1 : scan_st hr st r = scan_st hr st1 (drop t r)) by (by rewrite <- (take_drop t r) at 1; rewrite scan_st_app, S1).
    assert (E2 : scan hr st r = replicate t true ++ scan hr st1 (drop t r)) by (by rewrite <- (take_drop t r) at 1; rewrite scan_app, S1, S2).
    destruct (IH st1 (pos + t)%nat (drop t r) (push_range ranges pos t)) as (ranges'&C1&C2); [done|rewrite length_drop; lia|congruence|].
    exists ranges'. rewrite E1, E2, marked_app, length_replicate. split; [done|].
    by rewrite C2, offsets_marked, <- app_assoc, Nat.add_assoc. }
  destruct st as [buffer|n|ch| | |]; try done; cbn [classify r]; fold r.
  - destruct Hs as [Ho Hl]. destruct (Nat.eqb_spec (RESPONSE_HEADER_BUDGET - length buffer) 0) as [?|_]; [lia|].
    set (t := Nat.min (length r) (RESPONSE_HEADER_BUDGET - length buffer)).
    assert (Ht : length (take t r) = t) by (apply length_take_le; lia).
    pose proof (header_search buffer (take t r) Ho) as Hh. destruct (_ <$> _) as [e|].
    + destruct Hh as (H1&H2&H3). rewrite length_app, Ht in H2. set (c := (e + 4 - length buffer)%nat).
      destruct (Nat.eqb_spec c 0) as [?|_]; [lia|]. destruct (head_cut buffer r t c e H1) as (W1&W2&W3); [lia|lia|].
      destruct (scan_headers_end hr buffer (take c r) e) as [S1 S2]; [done|lia|rewrite length_app, length_take; lia|by rewrite W2|lia|].
      rewrite W3 in S1. rewrite length_take_le in S2 by lia. apply Hrun; [lia|done|done|]. right.
      destruct (response_body_framing _ _) as [st1|] eqn:Ef; [by eapply response_body_framing_settled|].
      destruct Hv. rewrite <- (take_drop c r), scan_st_app, S1. apply scan_invalid.
    + destruct (Nat.leb_spec RESPONSE_HEADER_BUDGET (length (buffer ++ take t r))) as [Hb|Hb].
      * destruct Hv. rewrite <- (take_drop t r), scan_st_app. erewrite (scan_headers_over hr (take t r)); [apply scan_invalid|done|lia].
      * destruct (scan_headers_run hr (take t r) buffer Hh Hb) as [S1 S2]. rewrite Ht in S2. apply Hrun; [lia|done|done|by right].
  - cbn in Hs. destruct (min_len_bounds (length r) n Hs Hr) as (T1&T2&T3). set (t := min_len (length r) n) in *.
    assert (Ht : length (take t r) = t) by (apply length_take_le; lia).
    destruct (Nat.eqb_spec t 0) as [?|_]; [lia|]. destruct (scan_length_run hr (take t r) n) as [S1 S2]; [lia|]. rewrite Ht in S1, S2.
    apply Hrun; [lia| |done|].
    + rewrite S1. destruct (_ =? 0)%N; [|done]. case_bool_decide as Hd; [done|]. destruct Hv.
      rewrite <- (take_drop t r), scan_st_app, S1. destruct (drop t r); [done|apply scan_invalid].
    + destruct (N.eqb_spec (n - N.of_nat t) 0); [|by right]. case_bool_decide; [by left|]. right. destruct Hv.
      rewrite <- (take_drop t r), scan_st_app, S1. destruct (drop t r); [done|apply scan_invalid].
  - clear Hrun. destruct (chunked_classify_scan hr g pos (2 * length r + 1) ch 0 r ranges) as (ch'&ranges'&C1&C2&C3);
      [by right|lia|by rewrite (lift_settled _ Hs)|]. rewrite C1. rewrite (lift_settled _ Hs) in C2, C3. cbn [Nat.add].
    rewrite drop_all. destruct (Nat.eqb_spec (length r) 0); [lia|]. exists ranges'. rewrite Nat.add_0_r in C3. split; [|done].
    rewrite <- C2 in Hv |- *. destruct ch'; try done; by destruct fuel.
  - destruct (scan_close_run hr r) as [S1 S2]. exists (push_range ranges pos (length r)). by rewrite S1, S2, offsets_marked.
  - destruct Hv. apply (scan_invalid hr rest).
Qed.

Lemma step_settled hr st b : settled st → (step hr st b).1 ≠ Invalid → settled (step hr st b).1.
Proof.
  destruct st as [buffer|n|ch| | |]; cbn [settled step fst]; try done.
  - intros [Ho Hl]. destruct (ends_with CRLFCRLF _) eqn:E.
    { destruct (response_body_framing _ _) as [st|] eqn:Ef; [|done]. intros _. by eapply response_body_framing_settled. }
    destruct (Nat.leb_spec RESPONSE_HEADER_BUDGET (length (buffer ++ [b]))); [done|]. intros _. split; [|done].
    intros (x&y&Exy). destruct y as [|c y _] using rev_ind.
    + rewrite app_nil_r in Exy. assert (H' : ends_with CRLFCRLF (buffer ++ [b]) = true) by (apply ends_with_spec; eauto). congruence.
    + rewrite !app_assoc in Exy. apply app_inj_tail in Exy as [Exy _]. apply Ho. exists x, y. by rewrite app_assoc.
  - intros _. destruct (N.eqb_spec (n - 1) 0); done.
  - intros Hs. pose proof (chunked_step_settled ch b Hs) as Hd. destruct (chunked_step ch b) as [ch' f]. cbn [fst] in *.
    destruct ch' as [|m| | | |]; cbn; try done. intros _. congruence.
Qed.

Lemma scan_settled hr x : ∀ st, settled st → scan_st hr st x ≠ Invalid → settled (scan_st hr st x).
Proof.
  induction x as [|b x IH]; intros st Hs Hv; [done|]. cbn in Hv |- *. apply IH; [|done]. apply step_settled; [done|].
  intros E. apply Hv. rewrite E. apply scan_invalid.
Qed.

(** Any split. *)
Lemma scanned_scan hr frames : ∀ st base,
  settled st → scan_st hr st (concat frames) ≠ Invalid →
  scanned hr st base frames = marked base (scan hr st (concat frames)).
Proof.
  induction frames as [|x frames IH]; intros st base Hs Hv; [done|]. cbn [scanned concat] in *.
  pose proof (scan_app_valid _ _ _ _ Hv) as Hx.
  destruct (classify_scan hr base (S (length x)) st 0 x []) as (ranges'&C1&C2); [by right|lia|done|].
  unfold classify_input. rewrite C1, C2, scan_app, marked_app, scan_length, Nat.add_0_r. cbn [offsets mbind list_bind app]. f_equal.
  apply IH; [by apply scan_settled|]. by rewrite <- scan_st_app.
Qed.
