(* ===== verification/EgressResponse.v ===== *)
(** * Responses carry no credential

    A grammar of HTTP/1 responses, what the proxy does with a response of the
    grammar however it arrives, and the malformed responses that get past it
    ([intercept.rs], [copy_redacting_response]). *)

From S2P Require Import Prelude Bytes EgressPolicy EgressRegistry EgressHttp EgressRedact EgressRedactProps EgressScan.

(** ** A grammar of responses *)

Record chunk := MkChunk { ck_size : bytes; ck_data : bytes }.

Inductive body :=
| NoBody
| Sized (data : bytes)
| UntilClose (data : bytes)
| InChunks (chunks : list chunk) (last_size : bytes) (trailers : list bytes).

(** Interim heads (1xx), the head and the body. *)
Record response := MkResponse { interim : list bytes; head_of : bytes; body_of : body }.

(** A response in pieces: text and framing. *)
Definition chunk_pieces (c : chunk) : list (bool * bytes) :=
  [(false, ck_size c ++ CRLF); (true, ck_data c); (false, CRLF)].

Definition body_pieces (b : body) : list (bool * bytes) :=
  match b with
  | NoBody => []
  | Sized data | UntilClose data => [(true, data)]
  | InChunks chunks last_size trailers =>
      (chunks ≫= chunk_pieces) ++ [(false, last_size ++ CRLF)] ++ ((fun t => (true, t ++ CRLF)) <$> trailers) ++ [(true, CRLF)]
  end.

Definition pieces (r : response) : list (bool * bytes) :=
  ((fun h => (true, h ++ CRLFCRLF)) <$> (interim r ++ [head_of r])) ++ body_pieces (body_of r).

Definition wire (ps : list (bool * bytes)) : bytes := concat (snd <$> ps).

Definition marks (ps : list (bool * bytes)) : list bool := ps ≫= fun p => replicate (length p.2) p.1.

(** The text of pieces, across the framing. *)
Definition text (ps : list (bool * bytes)) : bytes := ps ≫= fun p => if p.1 : bool then p.2 else [].

(** The grammar's side conditions. *)
Definition head_ok (h : bytes) : Prop :=
  ¬ occurs CRLFCRLF (h ++ [CR; LF; CR]) ∧ (length h + 4 ≤ RESPONSE_HEADER_BUDGET)%nat.

Definition line_ok (budget : nat) (l : bytes) : Prop := ¬ occurs CRLF (l ++ [CR]) ∧ (length l + 2 ≤ budget)%nat.

Definition size_of (l : bytes) : option N :=
  from_utf8 (default [] (head (split_byte 59 l))) ≫= fun t => from_str_radix 16 usize_max (trim t).

Definition chunk_ok (c : chunk) : Prop :=
  line_ok 8192 (ck_size c) ∧ size_of (ck_size c) = Some (N.of_nat (length (ck_data c))) ∧ ck_data c ≠ [].

Definition body_ok (st : Http1ResponseState) (b : body) : Prop :=
  match b with
  | NoBody => st = Complete
  | Sized data => st = Length (N.of_nat (length data)) ∧ data ≠ []
  | UntilClose data => st = CloseDelimited
  | InChunks chunks last_size trailers =>
      st = ChunkedBody (Size []) ∧ Forall chunk_ok chunks ∧
      line_ok 8192 last_size ∧ size_of last_size = Some 0%N ∧
      Forall (fun t => line_ok RESPONSE_HEADER_BUDGET t ∧ t ≠ []) trailers
  end.

Definition well_formed (hr : bool) (r : response) : Prop :=
  Forall (fun h => head_ok h ∧ response_body_framing h hr = Some (Headers [])) (interim r) ∧
  head_ok (head_of r) ∧
  ∃ st, response_body_framing (head_of r) hr = Some st ∧ body_ok st (body_of r).

(** ** The machine on the grammar *)

Lemma budget_large : (2 ≤ RESPONSE_HEADER_BUDGET)%nat.
Proof. unfold RESPONSE_HEADER_BUDGET. lia. Qed.

#[local] Opaque RESPONSE_HEADER_BUDGET.

(** The machine goes from a state to another over some pieces and marks them. *)
Definition passes (hr : bool) (st : Http1ResponseState) (ps : list (bool * bytes)) (st' : Http1ResponseState) : Prop :=
  scan_st hr st (wire ps) = st' ∧ scan hr st (wire ps) = marks ps.

Lemma wire_app ps qs : wire (ps ++ qs) = wire ps ++ wire qs.
Proof. unfold wire. by rewrite fmap_app, concat_app. Qed.

Lemma passes_nil hr st : passes hr st [] st.
Proof. done. Qed.

Lemma passes_app hr st1 st2 st3 ps qs : passes hr st1 ps st2 → passes hr st2 qs st3 → passes hr st1 (ps ++ qs) st3.
Proof.
  intros [E1 M1] [E2 M2]. split; rewrite wire_app; [by rewrite scan_st_app, E1|].
  unfold marks. by rewrite scan_app, E1, M1, M2, bind_app.
Qed.

Lemma passes_cons hr st1 st2 st3 p qs : passes hr st1 [p] st2 → passes hr st2 qs st3 → passes hr st1 (p :: qs) st3.
Proof. apply (passes_app hr st1 st2 st3 [p]). Qed.

Lemma passes_one hr st f x st' : scan_st hr st x = st' → scan hr st x = replicate (length x) f → passes hr st [(f, x)] st'.
Proof. intros E1 E2. unfold passes, wire, marks. cbn. by rewrite !app_nil_r. Qed.

Lemma passes_head hr h st : head_ok h → response_body_framing h hr = Some st → passes hr (Headers []) [(true, h ++ CRLFCRLF)] st.
Proof.
  intros [Ho Hl] Hf. destruct (scan_headers_end hr [] (h ++ CRLFCRLF) (length h)) as [E1 E2]; cbn [app].
  - intros k b Hk. rewrite lookup_app_r by lia. by replace (length h + k - length h)%nat with k by lia.
  - cbn; lia.
  - rewrite length_app. done.
  - rewrite take_app_add. done.
  - done.
  - cbn [app] in E1. rewrite take_app_length, Hf in E1. by apply passes_one.
Qed.

(** Lines of the chunked coding. *)
Lemma scan_line_run (mk : bytes → ChunkedFraming) (f : bool) (hr : bool) (budget : nat) x :
  (∀ l b, (length (l ++ [b]) ≤ budget)%nat → ends_with CRLF (l ++ [b]) = false → chunked_step (mk l) b = (mk (l ++ [b]), f)) →
  (∀ l, lift_chunked (mk l) = ChunkedBody (mk l)) →
  ∀ l, ¬ occurs CRLF (l ++ x) → (length (l ++ x) ≤ budget)%nat →
  scan_st hr (ChunkedBody (mk l)) x = ChunkedBody (mk (l ++ x)) ∧ scan hr (ChunkedBody (mk l)) x = replicate (length x) f.
Proof.
  intros Hstep Hlift. induction x as [|b x IH]; intros l Ho Hl; [by rewrite app_nil_r|].
  rewrite (cons_middle b l x), (app_assoc l) in Ho, Hl |- *. cbn [scan_st scan step fst snd length replicate].
  rewrite Hstep, Hlift.
  - cbn [fst snd]. destruct (IH (l ++ [b]) Ho Hl) as [-> ->]. done.
  - rewrite length_app in Hl. lia.
  - destruct (ends_with CRLF (l ++ [b])) eqn:E; [|done]. apply ends_with_spec in E as [t E]. destruct Ho. exists t, x. by rewrite app_assoc, <- E.
Qed.

Lemma ends_with_crlf l : ends_with CRLF (l ++ CRLF) = true.
Proof. apply ends_with_spec. by exists l. Qed.

Lemma size_step l b :
  (length (l ++ [b]) ≤ 8192)%nat → ends_with CRLF (l ++ [b]) = false → chunked_step (Size l) b = (Size (l ++ [b]), false).
Proof. intros Hb He. cbn [chunked_step]. unfold size_state. rewrite He. destruct (Nat.ltb_spec 8192 (length (l ++ [b]))); [lia|done]. Qed.

Lemma trailer_step l b :
  (length (l ++ [b]) ≤ RESPONSE_HEADER_BUDGET)%nat → ends_with CRLF (l ++ [b]) = false →
  chunked_step (TrailerLine l) b = (TrailerLine (l ++ [b]), true).
Proof.
  intros Hb He. cbn [chunked_step]. unfold trailer_state. rewrite He.
  destruct (Nat.ltb_spec RESPONSE_HEADER_BUDGET (length (l ++ [b]))); [lia|done].
Qed.

(** A line and its end. *)
Lemma passes_line hr mk f budget l ch :
  (∀ l b, (length (l ++ [b]) ≤ budget)%nat → ends_with CRLF (l ++ [b]) = false → chunked_step (mk l) b = (mk (l ++ [b]), f)) →
  (∀ l, lift_chunked (mk l) = ChunkedBody (mk l)) → line_ok budget l → chunked_step (mk (l ++ [CR])) LF = (ch, f) →
  passes hr (ChunkedBody (mk [])) [(f, l ++ CRLF)] (lift_chunked ch).
Proof.
  intros Hstep Hlift [Ho Hl] Hlast.
  destruct (scan_line_run mk f hr budget (l ++ [CR]) Hstep Hlift [] Ho) as [E1 E2]; [cbn [app]; rewrite length_app; cbn [length]; lia|].
  cbn [app] in E1. change CRLF with ([CR] ++ [LF]). apply passes_one; rewrite (app_assoc l).
  - rewrite scan_st_app, E1. cbn [scan_st step]. by rewrite Hlast.
  - rewrite scan_app, E1, E2, (length_app (l ++ [CR])), replicate_add. cbn [scan step]. by rewrite Hlast.
Qed.

Lemma passes_size hr l n :
  line_ok 8192 l → size_of l = Some n →
  passes hr (ChunkedBody (Size [])) [(false, l ++ CRLF)] (ChunkedBody (if (n =? 0)%N then TrailerLine [] else Data n)).
Proof.
  intros Hl Hs. rewrite <- (lift_settled (if (n =? 0)%N then _ else _)) by (by destruct (N.eqb_spec n 0)). apply (passes_line _ Size _ 8192); try done; [apply size_step|].
  cbn [chunked_step]. rewrite <- app_assoc. change ([CR] ++ [LF]) with CRLF. unfold size_state. rewrite ends_with_crlf, length_app.
  destruct Hl as [_ Hl]. change (length CRLF) with 2%nat. destruct (Nat.ltb_spec 8192 (length l + 2)); [lia|].
  rewrite Nat.add_sub, take_app_length. unfold size_of in Hs. destruct (from_utf8 _); [|done]. cbn in Hs. by rewrite Hs.
Qed.

Lemma passes_trailer hr l :
  line_ok RESPONSE_HEADER_BUDGET l →
  passes hr (ChunkedBody (TrailerLine [])) [(true, l ++ CRLF)]
    (if bool_decide (l = []) then Complete else ChunkedBody (TrailerLine [])).
Proof.
  intros Hl. set (ch := if bool_decide (l = []) then ChunkedComplete else TrailerLine []).
  replace (if bool_decide (l = []) then _ else _) with (lift_chunked ch) by (unfold ch; by case_bool_decide).
  apply (passes_line _ TrailerLine _ RESPONSE_HEADER_BUDGET); try done; [apply trailer_step|].
  cbn [chunked_step]. rewrite <- app_assoc. change ([CR] ++ [LF]) with CRLF. unfold trailer_state. rewrite ends_with_crlf, length_app.
  destruct Hl as [_ Hl]. change (length CRLF) with 2%nat. destruct (Nat.ltb_spec RESPONSE_HEADER_BUDGET (length l + 2)); [lia|].
  unfold ch. destruct l as [|b l]; [done|]. rewrite bool_decide_eq_false_2 by done. cbn [length]. by destruct (Nat.eqb_spec (S (length l) + 2) 2) as [?|_]; [lia|].
Qed.

Lemma passes_chunk hr c : chunk_ok c → passes hr (ChunkedBody (Size [])) (chunk_pieces c) (ChunkedBody (Size [])).
Proof.
  intros (Hl&Hs&Hd). assert (Hp : (0 < length (ck_data c))%nat) by (destruct (ck_data c); [done|cbn; lia]).
  eapply passes_cons; [by apply (passes_size hr)|]. destruct (N.eqb_spec (N.of_nat (length (ck_data c))) 0); [lia|].
  destruct (scan_data_run hr (ck_data c) (N.of_nat (length (ck_data c)))) as [E1 E2]; [lia|].
  eapply passes_cons; [by apply passes_one|]. rewrite N.sub_diag. by apply passes_one.
Qed.

Lemma passes_bind {A} hr st (f : A → list (bool * bytes)) l : Forall (fun a => passes hr st (f a) st) l → passes hr st (l ≫= f) st.
Proof. induction 1; [apply passes_nil|]. by eapply passes_app. Qed.

Lemma list_fmap_bind {A B} (f : A → B) l : f <$> l = l ≫= fun a => [f a].
Proof. induction l as [|a l IH]; [done|]. cbn. by f_equal. Qed.

Lemma crlf_not_in_cr : ¬ occurs CRLF [CR].
Proof. intros (a&b&E). apply (f_equal length) in E. rewrite !length_app in E. cbn in E. lia. Qed.

Lemma passes_body hr st b : body_ok st b → ∃ st', passes hr st (body_pieces b) st' ∧ st' ≠ Invalid.
Proof.
  destruct b as [|data|data|chunks last_size trailers]; cbn [body_ok body_pieces].
  - intros ->. by exists Complete.
  - intros [-> Hd]. exists Complete. split; [|done]. assert (Hp : (0 < length data)%nat) by (destruct data; [done|cbn; lia]).
    destruct (scan_length_run hr data (N.of_nat (length data))) as [E1 E2]; [lia|]. rewrite N.sub_diag in E1. by apply passes_one.
  - intros ->. exists CloseDelimited. split; [|done]. destruct (scan_close_run hr data). by apply passes_one.
  - intros (->&Hc&Hl&Hz&Ht). exists Complete. split; [|done].
    eapply passes_app; [|eapply passes_app; [by apply (passes_size hr _ 0)|eapply passes_app]].
    + apply passes_bind. eapply Forall_impl; [exact Hc|]. apply passes_chunk.
    + rewrite list_fmap_bind. apply passes_bind. eapply Forall_impl; [exact Ht|]. intros t [Ht1 Ht2]. cbn.
      pose proof (passes_trailer hr t Ht1) as Hp. by rewrite bool_decide_eq_false_2 in Hp.
    + apply (passes_trailer hr []). split; [apply crlf_not_in_cr|]. pose proof budget_large. cbn. lia.
Qed.

Lemma passes_response hr r : well_formed hr r → ∃ st', passes hr (Headers []) (pieces r) st' ∧ st' ≠ Invalid.
Proof.
  intros (Hi&Hh&st&Hf&Hb). destruct (passes_body hr st _ Hb) as (st'&Hp&Hv). exists st'. split; [|done].
  eapply passes_app; [|exact Hp]. rewrite fmap_app. eapply passes_app; [|by apply passes_head].
  rewrite list_fmap_bind. apply passes_bind. eapply Forall_impl; [exact Hi|]. intros h [? ?]. by apply passes_head.
Qed.

(** ** Back to pieces *)

(** [q] is [p] with its framing kept and its text masked. *)
Definition masked_piece (p q : bool * bytes) : Prop := q.1 = p.1 ∧ if p.1 then masks p.2 q.2 else q.2 = p.2.

Lemma marked_shift a base m : marked (a + base) m = Nat.add a <$> marked base m.
Proof.
  revert base. induction m as [|f m IH]; intros base; [done|]. cbn. rewrite <- Nat.add_succ_r, IH. by destruct f.
Qed.

Lemma select_seq s : select s (seq 0 (length s)) = s.
Proof.
  unfold select. induction s as [|b s IH]; [done|]. cbn [length seq fmap list_fmap nth]. f_equal.
  rewrite <- IH at 2. rewrite <- (fmap_S_seq 0), <- list_fmap_compose. done.
Qed.

Lemma marked_false base n : marked base (replicate n false) = [].
Proof. revert base. induction n as [|n IH]; intros base; [done|]. apply IH. Qed.

Lemma masked_pieces ps : ∀ out,
  masks (wire ps) out → (∀ i, i ∉ marked 0 (marks ps) → out !! i = wire ps !! i) →
  ∃ qs, Forall2 masked_piece ps qs ∧ out = wire qs ∧ select out (marked 0 (marks ps)) = text qs.
Proof.
  induction ps as [|[f x] ps IH]; intros out Hm Hu.
  { inversion Hm; subst. exists []. by split; [constructor|]. }
  change (wire ((f, x) :: ps)) with (x ++ wire ps) in Hm, Hu. apply Forall2_app_inv_l in Hm as (o1&o2&H1&H2&->).
  assert (Hl : length o1 = length x) by (by apply masks_length).
  change (marks ((f, x) :: ps)) with (replicate (length x) f ++ marks ps) in Hu |- *.
  rewrite marked_app, length_replicate in Hu |- *. replace (0 + length x)%nat with (length o1 + 0)%nat in Hu |- * by lia.
  rewrite marked_shift in Hu |- *.
  destruct (IH o2 H2) as (qs&Q1&Q2&Q3).
  { intros i Hi. specialize (Hu (length o1 + i)%nat). rewrite lookup_app_r, lookup_app_r in Hu by lia.
    rewrite Hl, Nat.add_sub_swap, Nat.sub_diag in Hu by done. apply Hu. rewrite not_elem_of_app. split.
    - destruct f; [rewrite marked_true, elem_of_seq; lia|rewrite marked_false; set_solver].
    - intros (j&Ej&Hj)%list_elem_of_fmap. by replace i with j in Hi by lia. }
  exists ((f, o1) :: qs). split; [|split].
  - constructor; [|done]. split; [done|]. cbn [fst snd]. destruct f; [done|]. apply list_eq. intros i.
    destruct (decide (i < length x)%nat) as [Hi|Hi]; [|rewrite !lookup_ge_None_2 by lia; done].
    specialize (Hu i). rewrite !lookup_app_l in Hu by lia. apply Hu. rewrite marked_false, app_nil_l.
    intros (j&Ej&_)%list_elem_of_fmap. lia.
  - by rewrite Q2.
  - rewrite select_app, select_shift, Q3. cbn [text mbind list_bind fst snd]. f_equal. destruct f; [|by rewrite marked_false].
    rewrite marked_true, <- Hl. erewrite select_app_l by apply (seq_ascending 0). apply select_seq.
Qed.

(** ** The head arrives *)

Lemma read_response_prefix_spec h rest : (length h + 4 ≤ RESPONSE_HEADER_BUDGET)%nat → ∀ reader acc,
  ¬ occurs CRLFCRLF acc → acc ++ concat (received reader) = h ++ CRLFCRLF ++ rest → closes reader = true →
  ∃ prefix reader', read_response_prefix reader acc = Ok (prefix, reader') ∧ occurs CRLFCRLF prefix ∧
    prefix ++ concat (received reader') = h ++ CRLFCRLF ++ rest ∧ closes reader' = true.
Proof.
  intros Hh. assert (Hshort : ∀ acc t, ¬ occurs CRLFCRLF acc → acc ++ t = h ++ CRLFCRLF ++ rest → (length acc < length h + 4)%nat).
  { intros acc t Ho E. destruct (decide (length acc < length h + 4)%nat) as [|Hn]; [done|]. destruct Ho.
    apply (f_equal (take (length acc))) in E. rewrite take_app_length in E. rewrite app_assoc, take_app_ge in E by (rewrite length_app; cbn; lia).
    rewrite E. exists h, (take (length acc - length (h ++ CRLFCRLF)) rest). by rewrite <- app_assoc. }
  assert (Hfull : ∀ acc, ¬ occurs CRLFCRLF acc → acc ++ [] = h ++ CRLFCRLF ++ rest → False).
  { intros acc Ho E. rewrite app_nil_r in E. apply Ho. rewrite E. by exists h, rest. }
  induction reader as [|[b| | |] reader IH]; intros acc Ho E Hc; cbn [received closes read_response_prefix] in *; try done;
    try (exfalso; by eapply Hfull).
  case_bool_decide as Hb; [exfalso; by eapply Hfull|]. pose proof (Hshort _ _ Ho E) as Hlt.
  destruct (Nat.leb_spec RESPONSE_HEADER_BUDGET (length acc)); [lia|]. cbn [concat] in E. rewrite app_assoc in E.
  destruct (contains CRLFCRLF (acc ++ b)) eqn:Ec.
  - apply contains_spec in Ec. by exists (acc ++ b), reader.
  - apply IH; [|done|done]. intros H'. apply contains_spec in H'. congruence.
Qed.

Lemma head_found h prefix t rest :
  head_ok h → occurs CRLFCRLF prefix → prefix ++ t = h ++ CRLFCRLF ++ rest → find_sub CRLFCRLF prefix = Some (length h).
Proof.
  intros [Ho _] [i Hi]%find_sub_is_Some E. rewrite Hi. f_equal. destruct (find_sub_Some _ _ _ Hi) as (Hs&Hle&Hmin).
  assert (Hlen : (i + 4 ≤ length prefix)%nat).
  { apply find_sub_cut, (f_equal length) in Hi. rewrite !length_app, length_take, length_drop in Hi. change (length CRLFCRLF) with 4%nat in Hi. lia. }
  destruct (lt_eq_lt_dec i (length h)) as [[Hlt|?]|Hgt]; [|done|].
  - destruct Ho. apply starts_with_inv in Hs. exists (take i prefix), (take (length h - i - 1) (drop (i + 4) prefix ++ t)).
    assert (Ep : prefix ++ t = take i prefix ++ CRLFCRLF ++ drop (i + 4) prefix ++ t).
    { rewrite <- (take_drop i prefix) at 1. rewrite Hs at 1. rewrite drop_drop, <- !app_assoc. done. }
    rewrite E in Ep. apply (f_equal (take (length h + 3))) in Ep. rewrite take_app_add in Ep. change (take 3 (CRLFCRLF ++ rest)) with [CR; LF; CR] in Ep. rewrite Ep.
    rewrite take_app_ge, length_take_le by (rewrite ?length_take; lia). f_equal.
    replace (length h + 3 - i)%nat with (4 + (length h - i - 1))%nat by lia. done.
  - specialize (Hmin _ Hgt). assert (Hd : drop (length h) prefix ++ t = CRLFCRLF ++ rest).
    { rewrite <- (drop_app_le prefix t), E by lia. apply drop_app_length. }
    apply (f_equal (take 4)) in Hd. rewrite take_app_le in Hd by (rewrite length_drop; lia). cbn in Hd.
    rewrite <- (take_drop 4 (drop (length h) prefix)), Hd in Hmin. rewrite (starts_with_app CRLFCRLF) in Hmin. done.
Qed.

(** ** The theorem *)

Definition first_head (r : response) : bytes := default (head_of r) (head (interim r)).

Lemma first_piece r : ∃ rest, wire (pieces r) = first_head r ++ CRLFCRLF ++ rest.
Proof.
  unfold pieces, first_head. destruct (interim r) as [|h l]; cbn; rewrite wire_app || idtac; eexists; cbn; by rewrite <- !app_assoc.
Qed.

Lemma settled_start : settled (Headers []).
Proof. split; [intros (a&b&E); by destruct a|]. pose proof budget_large. cbn [length]. lia. Qed.

(** C7. However a well-formed response to a request with credentials arrives, the
    guest gets all of it, in its framing byte for byte, with some of its text
    starred out; and no credential the proxy holds, unless it has a star in it, is
    in the text, also not across chunks or reads. *)
Theorem response_redacted (needles : list bytes) (hr : bool) (r : response) (reader : list read_result) :
  needles ≠ [] → well_formed hr r → concat (received reader) = wire (pieces r) → closes reader = true →
  response_headers_are_inspectable (first_head r) = true →
  ∃ qs, copy_redacting_response reader needles hr = (wire qs, Ok tt) ∧
    Forall2 masked_piece (pieces r) qs ∧
    ∀ n, n ∈ needles → n ≠ [] → STAR ∉ n → ¬ occurs n (text qs).
Proof.
  intros Hn Hw Hrd Hc Hins. destruct (first_piece r) as [rest Er].
  assert (Hh : head_ok (first_head r)).
  { destruct Hw as (Hi&Hh&_). unfold first_head. destruct Hi as [|h l [Hh' _] _]; done. }
  destruct (passes_response hr r Hw) as (st'&[P1 P2]&Hv).
  destruct (read_response_prefix_spec _ rest (proj2 Hh) reader []) as (prefix&reader'&R1&R2&R3&R4);
    [intros (a&b&E); by destruct a|by rewrite <- Er|done|].
  unfold copy_redacting_response. rewrite bool_decide_eq_false_2, R1, (head_found _ _ _ _ Hh R2 R3) by done.
  assert (Et : take (length (first_head r)) prefix = first_head r).
  { pose proof (find_sub_Some _ _ _ (head_found _ _ _ _ Hh R2 R3)) as (_&Hle&_).
    rewrite <- (take_app_le prefix (concat (received reader'))), R3 by done. apply take_app_length. }
  rewrite Et, Hins. cbn [negb].
  pose proof (push_redacting needles [] [] [] _ prefix (redactor_new_redacting needles hr)) as Hr.
  destruct (redactor_push_state (redactor_new needles hr) prefix false) as [Sf Sh].
  destruct (redactor_push _ prefix false) as [r1 first]. cbn [fst snd app] in *.
  destruct (copy_loop_spec needles reader' _ _ _ _ Hr R4) as (out&->&M&U&F).
  rewrite R3, <- Er in M, U.
  assert (En : offsets (length (@nil N)) (classify_input hr (Headers []) prefix).2 ++
      scanned (rr_head_request r1) (rr_framing r1) (length prefix) (received reader') = marked 0 (marks (pieces r))).
  { cbn [redactor_new rr_head_request rr_framing] in Sf, Sh. rewrite <- P2, Er, <- R3, Sf, Sh.
    change (prefix ++ concat (received reader')) with (concat (prefix :: received reader')).
    rewrite <- (scanned_scan hr (prefix :: received reader') (Headers []) 0); [|apply settled_start|].
    - cbn [scanned]. by destruct (classify_input hr (Headers []) prefix).
    - cbn [concat]. by rewrite R3, <- Er, P1. }
  cbn [redactor_new rr_head_request rr_framing] in *. rewrite En in U, F. destruct (masked_pieces _ _ M U) as (qs&Q1&->&Q3).
  exists qs. split; [done|]. split; [done|]. by rewrite Q3 in F.
Qed.

(** A response in two chunks with a credential across them, a trailer and reads
    that cut a chunk size and the credential. *)
Definition sample_head : bytes := lit "HTTP/1.1 200 OK" ++ CRLF ++ lit "Transfer-Encoding: chunked".

Definition sample_response : response :=
  MkResponse [lit "HTTP/1.1 103 Early Hints" ++ CRLF ++ lit "Link: a"] sample_head
    (InChunks [MkChunk (lit "5") (lit "a tok"); MkChunk (lit "0a;x=y") (lit "en-1 is it")] (lit "0") [lit "X-Echo: token-1"]).

Definition sample_reader : list read_result :=
  ReadData (take 60 (wire (pieces sample_response))) ::
  ((fun b => ReadData [b]) <$> drop 60 (wire (pieces sample_response))) ++ [ReadEof].

Ltac solve_absent := intros ?%contains_spec; vm_compute in *; discriminate.
Ltac solve_closed_leb := apply Nat.leb_le; vm_compute; reflexivity.

Lemma response_redacted_witness :
  ∃ qs, copy_redacting_response sample_reader [lit "token-1"] false = (wire qs, Ok tt) ∧
    Forall2 masked_piece (pieces sample_response) qs ∧
    ∀ n, n ∈ [lit "token-1"] → n ≠ [] → STAR ∉ n → ¬ occurs n (text qs).
Proof.
  apply (response_redacted [lit "token-1"] false sample_response sample_reader).
  - done.
  - repeat split.
    + constructor; [|constructor]. split; [split|vm_compute; reflexivity]; [solve_absent|solve_closed_leb].
    + solve_absent.
    + solve_closed_leb.
    + exists (ChunkedBody (Size [])). split; [vm_compute; reflexivity|].
      split; [done|]. split; [|split; [|split; [vm_compute; reflexivity|]]].
      * apply Forall_cons_2; [|apply Forall_cons_2; [|apply Forall_nil_2]];
          (split; [split; [solve_absent|solve_closed_leb]|split; [vm_compute; reflexivity|done]]).
      * split; [solve_absent|solve_closed_leb].
      * apply Forall_cons_2; [|apply Forall_nil_2]. split; [split; [solve_absent|solve_closed_leb]|done].
  - vm_compute. reflexivity.
  - vm_compute. reflexivity.
  - vm_compute. reflexivity.
Defined.

Example sample_redacted :
  copy_redacting_response sample_reader [lit "token-1"] false =
  (wire ((fun p => if bool_decide (p.2 = lit "a tok") then (true, lit "a ***")
                   else if bool_decide (p.2 = lit "en-1 is it") then (true, lit "**** is it")
                   else if bool_decide (p.2 = lit "X-Echo: token-1" ++ CRLF) then (true, lit "X-Echo: *******" ++ CRLF)
                   else p) <$> pieces sample_response), Ok tt).
Proof. vm_compute. reflexivity. Qed.

(** ** Responses that get past *)

Definition chunked_head : bytes := sample_head ++ CRLFCRLF.

(** Three responses that are not well-formed by which a credential reaches the
    guest, the copy ending in order: the tracker gives a chunked body up at a size or a
    line end it cannot read without naming the rest of that read; and the content
    coding of a response is looked up in an interim head where it has one. *)
Theorem response_leaks :
  let token := lit "token-1" in
  (∀ bad, bad ∈ [lit "zz" ++ CRLF; lit "1" ++ CRLF ++ lit "ab"] →
     copy_redacting_response [ReadData (chunked_head ++ bad ++ token); ReadEof] [token] false
     = (chunked_head ++ bad ++ token, Ok tt)) ∧
  (let gzip := lit "HTTP/1.1 200 OK" ++ CRLF ++ lit "Content-Encoding: gzip" in
   copy_redacting_response [ReadData (gzip ++ CRLFCRLF ++ lit "x"); ReadEof] [token] false = ([], Err Uninspectable) ∧
   let interim_first := lit "HTTP/1.1 103 Early Hints" ++ CRLFCRLF ++ gzip ++ CRLFCRLF ++ lit "x" in
   copy_redacting_response [ReadData interim_first; ReadEof] [token] false = (interim_first, Ok tt)).
Proof.
  intros token. split; [|split; vm_compute; reflexivity].
  intros bad. rewrite !elem_of_cons. intros [->|[->|[]%not_elem_of_nil]]; vm_compute; reflexivity.
Qed.
