(* ===== verification/EgressTransform.v ===== *)
(** * Bodies substituted frame by frame

    The DATA loops of an HTTP/2 exchange ([intercept.rs]): a request body in
    frames is substituted as it would be at once, a response body in frames
    carries no credential, and a placeholder of another host that the
    transformer lets through. *)

From S2P Require Import Prelude Bytes EgressPolicy EgressRegistry EgressHttp EgressRedact EgressRedactProps.

(** ** The loop over a request body *)

(** The frames of the body, then the end: what is sent, or why the stream closes. *)
Fixpoint transformer_run (t : PlaceholderTransformer) (frames : list bytes) : result bytes InterceptError :=
  match frames with
  | [] => let? (_, tail) := transformer_push t [] true in Ok tail
  | x :: frames' =>
      let? (t', out) := transformer_push t x false in
      let? more := transformer_run t' frames' in
      Ok (out ++ more)
  end.

(** ** The reference *)

(** The first secret whose placeholder is at the front. *)
Definition entry_at (l : list SecretEntry.t) (s : bytes) : option SecretEntry.t :=
  List.find (fun e => negb (bool_decide (SecretEntry.placeholder e = [])) && starts_with (SecretEntry.placeholder e) s) l.

(** From left to right, a placeholder is replaced where it is met. *)
Fixpoint leftmost (fuel : nat) (l : list SecretEntry.t) (s : bytes) : bytes :=
  match fuel, s with
  | S fuel', b :: s' =>
      match entry_at l s with
      | Some e => SecretEntry.real_value e ++ leftmost fuel' l (drop (length (SecretEntry.placeholder e)) s)
      | None => b :: leftmost fuel' l s'
      end
  | _, _ => []
  end.

Definition substituted (l : list SecretEntry.t) (s : bytes) : bytes := leftmost (length s) l s.

(** ** Laws of the reference *)

Lemma entry_at_Some l s e : entry_at l s = Some e →
  e ∈ l ∧ SecretEntry.placeholder e ≠ [] ∧ starts_with (SecretEntry.placeholder e) s = true.
Proof.
  unfold entry_at. intros [Hin H]%find_some. apply andb_prop in H as [H1 H2]. apply negb_true_iff, bool_decide_eq_false in H1.
  split; [by apply list_elem_of_In|done].
Qed.

Lemma starts_with_length p s : starts_with p s = true → (length p ≤ length s)%nat.
Proof. intros H%starts_with_inv. apply (f_equal length) in H. rewrite length_app in H. lia. Qed.

Lemma entry_at_length l s e : entry_at l s = Some e → (0 < length (SecretEntry.placeholder e) ≤ length s)%nat.
Proof.
  intros (_&Hne&Hs)%entry_at_Some. apply starts_with_length in Hs. destruct (SecretEntry.placeholder e); [done|cbn in *; lia].
Qed.

Lemma entry_at_nil l : entry_at l [] = None.
Proof. destruct (entry_at l []) eqn:E; [|done]. apply entry_at_length in E. cbn in E. lia. Qed.

Lemma leftmost_fuel fuel l : ∀ s, (length s ≤ fuel)%nat → leftmost fuel l s = substituted l s.
Proof.
  unfold substituted. induction fuel as [fuel IH] using lt_wf_ind. intros s Hf.
  destruct s as [|b s]; [by destruct fuel|]. destruct fuel as [|fuel]; [cbn in Hf; lia|]. cbn [leftmost length] in *.
  destruct (entry_at l (b :: s)) as [e|] eqn:E.
  - f_equal. apply entry_at_length in E. cbn [length] in E. set (d := drop _ _).
    assert (Hd : (length d ≤ length s)%nat) by (unfold d; rewrite length_drop; cbn; lia).
    destruct (decide (length s = fuel)) as [->|Hne]; [done|]. rewrite (IH fuel) by lia. symmetry. by apply IH; lia.
  - f_equal. apply IH; lia.
Qed.

Lemma substituted_match l s e :
  entry_at l s = Some e → substituted l s = SecretEntry.real_value e ++ substituted l (drop (length (SecretEntry.placeholder e)) s).
Proof.
  intros E. destruct s as [|b s]; [by rewrite entry_at_nil in E|]. unfold substituted at 1. cbn [leftmost length].
  rewrite E. f_equal. apply leftmost_fuel. apply entry_at_length in E. rewrite length_drop. cbn in *. lia.
Qed.

Lemma substituted_skip l i : ∀ s,
  (∀ j, (j < i)%nat → entry_at l (drop j s) = None) → (i ≤ length s)%nat → substituted l s = take i s ++ substituted l (drop i s).
Proof.
  induction i as [|i IH]; intros s Hn Hi; [done|]. destruct s as [|b s]; [cbn in Hi; lia|].
  unfold substituted at 1. cbn [leftmost length take drop app]. pose proof (Hn O ltac:(lia)) as H0. rewrite drop_0 in H0. rewrite H0.
  f_equal. rewrite leftmost_fuel by done. apply IH; [|cbn in Hi; lia]. intros j Hj. by apply (Hn (S j) ltac:(lia)).
Qed.

(** More bytes do not change what is at the front, once the placeholders fit. *)
Lemma entry_at_app l a y :
  (∀ e, e ∈ l → (length (SecretEntry.placeholder e) ≤ length a)%nat) → entry_at l (a ++ y) = entry_at l a.
Proof.
  intros Hl. unfold entry_at. induction l as [|e l IH]; [done|]. cbn.
  assert (Es : starts_with (SecretEntry.placeholder e) (a ++ y) = starts_with (SecretEntry.placeholder e) a).
  { pose proof (Hl e ltac:(set_solver)) as He. clear -He. revert a He. induction (SecretEntry.placeholder e) as [|b p IH]; intros a He; [done|].
    destruct a as [|c a]; [cbn in He; lia|]. cbn. f_equal. apply IH. cbn in He. lia. }
  rewrite Es. destruct (_ && _); [done|]. apply IH. set_solver.
Qed.

(** ** The search *)

Lemma entry_at_snoc l e s :
  entry_at (l ++ [e]) s =
  match entry_at l s with
  | Some e' => Some e'
  | None => if negb (bool_decide (SecretEntry.placeholder e = [])) && starts_with (SecretEntry.placeholder e) s then Some e else None
  end.
Proof.
  unfold entry_at. induction l as [|a l IH]; cbn [app List.find]; [by destruct (_ && _)|]. destruct (_ && starts_with (SecretEntry.placeholder a) s); [done|apply IH].
Qed.

Definition first_before (l : list SecretEntry.t) (rest : bytes) (limit : nat) (best : option (nat * SecretEntry.t)) : Prop :=
  match best with
  | None => ∀ j, (j < limit)%nat → entry_at l (drop j rest) = None
  | Some (i, e) => (i < limit)%nat ∧ entry_at l (drop i rest) = Some e ∧ ∀ j, (j < i)%nat → entry_at l (drop j rest) = None
  end.

Lemma next_match_spec l rest limit : (limit ≤ length rest)%nat → first_before l rest limit (next_match l rest limit).
Proof.
  intros Hlim. induction l as [|e l IH] using rev_ind; [done|]. unfold next_match in *. rewrite fold_left_app. cbn [fold_left].
  set (best := fold_left _ l None) in *. clearbody best. set (p := SecretEntry.placeholder e).
  assert (Hkeep : (∀ j, (j < match best with Some (i, _) => i | None => limit end)%nat → p = [] ∨ starts_with p (drop j rest) = false) →
    first_before (l ++ [e]) rest limit best).
  { intros Hn. assert (Hnone : ∀ j, (j < match best with Some (i, _) => i | None => limit end)%nat → entry_at l (drop j rest) = None →
      entry_at (l ++ [e]) (drop j rest) = None).
    { intros j Hj El. rewrite entry_at_snoc, El. fold p. destruct (Hn j Hj) as [->| ->]; [done|]. by rewrite andb_false_r. }
    destruct best as [[i e']|]; cbn in IH |- *; [|by auto]. destruct IH as (H1&H2&H3). split; [done|]. split; [by rewrite entry_at_snoc, H2|]. auto. }
  case_bool_decide as Hp; [apply Hkeep; by left|]. destruct (find_sub p rest) as [start|] eqn:Ef.
  - destruct (find_sub_Some _ _ _ Ef) as (Hs&Hle&Hmin). destruct (Nat.ltb_spec start limit) as [Hlt|Hge]; cbn [negb].
    + assert (Hnew : (∀ j, (j ≤ start)%nat → entry_at l (drop j rest) = None) → first_before (l ++ [e]) rest limit (Some (start, e))).
      { intros Hn. split; [done|]. split.
        - rewrite entry_at_snoc, (Hn start) by lia. fold p. by rewrite Hs, bool_decide_eq_false_2 by done.
        - intros j Hj. rewrite entry_at_snoc, Hn by lia. fold p. by rewrite Hmin, andb_false_r by done. }
      destruct best as [[b e']|]; cbn in IH.
      * destruct (Nat.ltb_spec start b); [apply Hnew; intros j Hj; apply IH; lia|]. apply Hkeep. intros j Hj. right. apply Hmin. lia.
      * apply Hnew. intros j Hj. apply IH. lia.
    + apply Hkeep. intros j Hj. right. apply Hmin. destruct best as [[b e']|]; cbn in IH; lia.
  - apply Hkeep. intros j Hj. right. apply (find_sub_None _ _ _ Ef). destruct best as [[b e']|]; cbn in IH; lia.
Qed.

(** ** One push *)

(** Placeholders that start before the limit fit before the end, or nothing
    follows. *)
Definition fits (l : list SecretEntry.t) (y : bytes) (len limit : nat) : Prop :=
  limit = O ∨ y = [] ∨ ∀ e, e ∈ l → (limit + length (SecretEntry.placeholder e) ≤ S len)%nat.

Lemma transform_loop_spec l y fuel : ∀ rest limit cursor,
  (limit ≤ fuel)%nat → (limit ≤ length rest)%nat → fits l y (length rest) limit →
  let '(out, c) := transform_loop fuel l rest limit cursor in
  (cursor ≤ c ≤ cursor + length rest)%nat ∧ (cursor + limit ≤ c)%nat ∧
  substituted l (rest ++ y) = out ++ substituted l (drop (c - cursor) rest ++ y).
Proof.
  induction fuel as [|fuel IH]; intros rest limit cursor Hf Hl Hfit; cbn [transform_loop].
  { split; [lia|]. split; [lia|]. by rewrite Nat.sub_diag. }
  destruct (Nat.eqb_spec limit 0) as [->|Hpos]; [split; [lia|split; [lia|]]; by rewrite Nat.sub_diag|].
  destruct Hfit as [|Hfit]; [done|].
  assert (Hat : ∀ j, (j < limit)%nat → entry_at l (drop j (rest ++ y)) = entry_at l (drop j rest)).
  { intros j Hj. destruct Hfit as [->|Hfit]; [by rewrite app_nil_r|]. rewrite drop_app_le by lia. apply entry_at_app. intros e He. specialize (Hfit e He). rewrite length_drop. lia. }
  pose proof (next_match_spec l rest limit Hl) as Hnext. destruct (next_match l rest limit) as [[start e]|]; cbn in Hnext.
  - destruct Hnext as (H1&H2&H3). pose proof (entry_at_length _ _ _ H2) as Hlen. rewrite length_drop in Hlen.
    pose proof (entry_at_Some _ _ _ H2) as (He&_&_).
    set (k := length (SecretEntry.placeholder e)) in *. assert (Hstep : (start + k ≤ length rest)%nat) by lia.
    specialize (IH (drop (start + k) rest) (limit - (start + k))%nat (cursor + (start + k))%nat).
    rewrite length_drop in IH. destruct (transform_loop fuel l _ _ _) as [out c]. destruct IH as (I1&I2&I3); [lia|lia| |].
    { destruct (decide (limit ≤ start + k)%nat); [left; lia|]. right. destruct Hfit as [Hy|Hfit]; [by left|right].
      intros e' He'. specialize (Hfit e' He'). lia. }
    split; [lia|]. split; [lia|]. rewrite (substituted_skip l start) by (rewrite ?length_app; try lia; intros j Hj; rewrite Hat by lia; by apply H3).
    rewrite take_app_le, <- !app_assoc by lia. f_equal. rewrite (substituted_match _ _ e) by (by rewrite Hat). f_equal.
    fold k. rewrite drop_drop, drop_app_le by lia. rewrite I3, drop_drop. do 3 f_equal. f_equal. lia.
  - split; [lia|]. split; [lia|]. rewrite (substituted_skip l limit) by (rewrite ?length_app; try lia; intros j Hj; rewrite Hat by lia; by apply Hnext).
    rewrite take_app_le, drop_app_le by lia. do 3 f_equal. f_equal. lia.
Qed.

Lemma first_match_absent s foreign : (∀ n, n ∈ foreign → ¬ occurs n s) → first_match s foreign = None.
Proof.
  intros H. unfold first_match. destruct (List.find _ foreign) as [n|] eqn:E; [|done]. apply find_some in E as [Hin Hm].
  apply list_elem_of_In in Hin. exfalso. apply (H _ Hin). unfold memmem in Hm. destruct (_ || _); [done|]. by apply contains_spec.
Qed.

Lemma occurs_app_r n a b : occurs n b → occurs n (a ++ b).
Proof. intros (x&z&->). exists (a ++ x), z. by rewrite <- app_assoc. Qed.

Lemma occurs_app_l n a b : occurs n a → occurs n (a ++ b).
Proof. intros (x&z&->). exists x, (z ++ b). by rewrite <- !app_assoc. Qed.

Lemma transformer_push_spec l foreign keep P x final_chunk y :
  (∀ e, e ∈ l → (length (SecretEntry.placeholder e) ≤ S keep)%nat) → (final_chunk = true → y = []) →
  (∀ n, n ∈ foreign → ¬ occurs n ((P ++ x) ++ y)) →
  ∃ P' out, transformer_push (MkTransformer l foreign P keep) x final_chunk = Ok (MkTransformer l foreign P' keep, out) ∧
    substituted l ((P ++ x) ++ y) = out ++ substituted l (P' ++ y) ∧
    (final_chunk = true → P' = []) ∧ ∀ n, n ∈ foreign → ¬ occurs n (P' ++ y).
Proof.
  intros Hkeep Hy Hfor. unfold transformer_push. cbn [pt_pending pt_keep pt_foreign pt_secrets].
  set (s := P ++ x) in *. set (limit := if final_chunk then length s else (length s - keep)%nat).
  rewrite first_match_absent.
  2:{ intros n Hn Ho. apply (Hfor n Hn). rewrite <- (take_drop limit s), <- app_assoc. by apply occurs_app_l. }
  pose proof (transform_loop_spec l y (length s) s limit 0) as H. destruct (transform_loop _ _ _ _ _) as [out c].
  destruct H as (H1&H2&H3); [unfold limit; destruct final_chunk; lia..| |].
  { destruct final_chunk; [right; left; by apply Hy|]. unfold limit. destruct (decide (length s ≤ keep)%nat); [left; lia|].
    right. right. intros e He. specialize (Hkeep e He). lia. }
  rewrite Nat.sub_0_r in H3. exists (drop c s), out. split; [done|]. split; [done|]. split.
  - intros ->. apply drop_ge. unfold limit in H2. lia.
  - intros n Hn Ho. apply (Hfor n Hn). rewrite <- (take_drop c s), <- app_assoc. by apply occurs_app_r.
Qed.

Lemma transformer_run_spec l foreign keep frames : ∀ P,
  (∀ e, e ∈ l → (length (SecretEntry.placeholder e) ≤ S keep)%nat) →
  (∀ n, n ∈ foreign → ¬ occurs n (P ++ concat frames)) →
  transformer_run (MkTransformer l foreign P keep) frames = Ok (substituted l (P ++ concat frames)).
Proof.
  induction frames as [|x frames IH]; intros P Hkeep Hfor; cbn [transformer_run concat] in *.
  - destruct (transformer_push_spec l foreign keep P [] true []) as (P'&out&->&E&HP&_); try done; [by rewrite <- app_assoc|].
    rewrite HP, !app_nil_r in E by done. cbn. by rewrite app_nil_r, E.
  - rewrite app_assoc in Hfor.
    destruct (transformer_push_spec l foreign keep P x false (concat frames)) as (P'&out&->&E&_&HF); try done.
    cbn. rewrite IH by done. cbn. by rewrite app_assoc, E.
Qed.

(** C17. The body of an HTTP/2 request, in frames of any sizes, is sent on as it
    would be in one piece: from left to right, every placeholder of a secret the
    host may have is replaced by its value and nothing else changes, provided the
    body has no placeholder of another host in it. *)
Theorem body_substituted_whole (l : list SecretEntry.t) (foreign : list bytes) (frames : list bytes) :
  (∀ n, n ∈ foreign → ¬ occurs n (concat frames)) →
  transformer_run (transformer_new l foreign) frames = Ok (substituted l (concat frames)).
Proof.
  intros Hfor. apply (transformer_run_spec l foreign _ frames []); [|done]. intros e He.
  destruct (decide (SecretEntry.placeholder e = [])) as [->|Hne]; [cbn; lia|]. apply keep_of_spec.
  rewrite list_elem_of_In, filter_In, <- list_elem_of_In. split.
  - apply elem_of_app. left. by apply list_elem_of_fmap_2.
  - by rewrite bool_decide_eq_false_2.
Qed.

Definition sample_secrets : list SecretEntry.t :=
  [SecretEntry.Mk (lit "engram_ph_1") (lit "real-1") (HostList.empty); SecretEntry.Mk (lit "engram") (lit "E") (HostList.empty)].

Lemma body_substituted_whole_witness :
  transformer_run (transformer_new sample_secrets [lit "engram_ph_2"])
    [lit "k=engr"; lit "am_p"; lit "h_1&q=engram!"; lit "engram_ph_"] = Ok (lit "k=real-1&q=E!E_ph_").
Proof.
  rewrite (body_substituted_whole sample_secrets [lit "engram_ph_2"] [lit "k=engr"; lit "am_p"; lit "h_1&q=engram!"; lit "engram_ph_"]).
  - vm_compute. reflexivity.
  - intros n ->%list_elem_of_singleton Ho%contains_spec. vm_compute in Ho. discriminate.
Defined.

(** The body of an HTTP/2 response, in frames of any sizes, reaches the guest
    as long as it was, with some bytes starred out, and no credential without a
    star is in it. *)
Theorem response_frames_redacted (needles : list bytes) (frames : list bytes) :
  let out := byte_redactor_run (byte_redactor_new needles) frames in
  Forall2 (fun a b => b = a ∨ b = STAR) (concat frames) out ∧
  ∀ n, n ∈ needles → n ≠ [] → STAR ∉ n → ¬ occurs n out.
Proof.
  apply (byte_redactor_run_spec needles frames [] [] []); [constructor| |by left]. intros n _ Hn _ (a&b&E). by destruct a, n.
Qed.

(** A placeholder of another host does get through, whole, when the first push
    lets its front go before its end is there: the scan looks at what is about to
    leave, and the hold-back keeps less than a placeholder. Sent as one last
    frame it is caught. *)
Theorem foreign_placeholder_missed :
  let foreign := [lit "engram_ph_2"] in
  let body := lit "k=engram_ph_2" in
  transformer_run (transformer_new [] foreign) [body] = Ok body ∧
  transformer_push (transformer_new [] foreign) body true = Err (Violation (lit "engram_ph_2")) ∧
  first_match body foreign = Some (lit "engram_ph_2").
Proof. split; [vm_compute; reflexivity|]. split; vm_compute; reflexivity. Qed.
