(* ===== verification/EgressObserve.v ===== *)
(** * Observed responses

    The asset engine of [observe.rs] and the tapped copy of a response
    ([pump_and_observe] of [intercept.rs]): a response is parsed, its chunks are
    joined, extractor paths and a URL pattern fill the fields of an asset, and an
    asset is emitted unless the response says that nothing happened. *)

From S2P Require Import Prelude Bytes EgressPolicy EgressRegistry EgressHttp EgressRedact EgressRedactProps EgressScan EgressResponse.
From Stdlib Require Import Ascii.

(** ** The response *)

(** A [String] of some bytes. *)
Definition to_string (b : bytes) : string := String.string_of_list_ascii (ascii_of_N <$> b).

(** A panic of the task. *)
Inductive panic := Panic.

Record ParsedResponse := MkParsedResponse { pr_status : N; pr_body : bytes }.

(** [take_while(|b| b != b';')]. *)
Definition until_semicolon (line : bytes) : bytes := default [] (head (split_byte 59 line)).

(** [dechunk]. Where [data_start + size] leaves [usize] the addition panics, or
    wraps below [data_start], where the slice panics. *)
Fixpoint dechunk (fuel : nat) (input : bytes) : result bytes panic :=
  match fuel with
  | O => Ok []
  | S fuel' =>
      match find_sub CRLF input with
      | None => Ok []
      | Some crlf =>
          match from_str_radix 16 usize_max (trim (from_utf8_lossy (until_semicolon (take crlf input)))) with
          | None => Ok []
          | Some size =>
              if (size =? 0)%N then Ok []
              else
                let data_start := (crlf + 2)%nat in
                let data_end := (N.of_nat data_start + size)%N in
                if (usize_max <? data_end)%N then Err Panic
                else if (N.of_nat (length input) <? data_end)%N then Ok (drop data_start input)
                else
                  let? more := dechunk fuel' (drop (N.to_nat data_end + 2) input) in
                  Ok (drop data_start (take (N.to_nat data_end) input) ++ more)
          end
      end
  end.

Fixpoint observed_lines (lines : list bytes) (content_length : option N) (chunked : bool) : option N * bool :=
  match lines with
  | [] => (content_length, chunked)
  | line :: rest =>
      match split_once (lit ":") line with
      | None => observed_lines rest content_length chunked
      | Some (n, v) =>
          let name := to_ascii_lowercase (trim n) in
          let value := trim v in
          if bool_decide (name = lit "content-length") then observed_lines rest (parse_usize value) chunked
          else if bool_decide (name = lit "transfer-encoding") && contains (lit "chunked") (to_ascii_lowercase value)
          then observed_lines rest content_length true
          else observed_lines rest content_length chunked
      end
  end.

Definition parse_response (buf : bytes) : result (option ParsedResponse) panic :=
  match find_sub CRLFCRLF buf with
  | None => Ok None
  | Some headers_end =>
      match from_utf8 (take headers_end buf) with
      | None => Ok None
      | Some head =>
          match split_crlf head with
          | [] => Ok None
          | status_line :: lines =>
              match (split_byte 32 status_line !! 1%nat) ≫= parse_u16 with
              | None => Ok None
              | Some status =>
                  let '(content_length, chunked) := observed_lines lines None false in
                  let raw_body := drop (headers_end + 4) buf in
                  let? body :=
                    (if chunked : bool then dechunk (S (length raw_body)) raw_body
                     else Ok match content_length with
                             | Some len => take (min_len (length raw_body) len) raw_body
                             | None => raw_body
                             end) in
                  Ok (Some (MkParsedResponse status body))
              end
          end
      end
  end.

(** ** URL patterns *)

Inductive UrlTok := Lit (l : bytes) | Cap (name : bytes) (int : bool).

Definition is_name_byte (b : N) : bool :=
  in_range 48 57 b || in_range 65 90 b || in_range 97 122 b || (b =? 95)%N.

Definition is_cap (t : option UrlTok) : bool := match t with Some (Cap _ _) => true | _ => false end.

(** [parse_url_template], from [rest] on. *)
Fixpoint parse_template (fuel : nat) (rest : bytes) (toks : list UrlTok) : option (list UrlTok) :=
  match fuel, rest with
  | S fuel', _ :: _ =>
      match find_byte 123 rest with
      | None => Some (toks ++ [Lit rest])
      | Some O =>
          match find_byte 125 rest with
          | None => None
          | Some end_ =>
              let inner := drop 1 (take end_ rest) in
              let '(name, int) := match strip_suffix (lit ":int") inner with Some n => (n, true) | None => (inner, false) end in
              if bool_decide (name = []) || negb (forallb is_name_byte name) || is_cap (last toks) then None
              else parse_template fuel' (drop (S end_) rest) (toks ++ [Cap name int])
          end
      | Some i => parse_template fuel' (drop i rest) (toks ++ [Lit (take i rest)])
      end
  | _, _ => Some toks
  end.

Definition parse_url_template (template : bytes) : option (list UrlTok) :=
  parse_template (length template) template [].

Definition u64_max : N := 18446744073709551615.

(** What a capture may be. *)
Definition cap_ok (val : bytes) (int : bool) : bool :=
  negb (bool_decide (val = [])) && negb (existsb (fun b => (b =? 47) || (b =? 63) || (b =? 35))%N val)
  && (negb int || bool_decide (is_Some (from_str_radix 10 u64_max val))).

(** The match of [derive]: the captures of [url], which is what is left of the
    URL at [pos]. *)
Fixpoint match_toks (toks : list UrlTok) (url : bytes) : option (list (bytes * bytes * bool)) :=
  match toks with
  | [] => if bool_decide (url = []) then Some [] else None
  | Lit l :: toks' => if starts_with l url then match_toks toks' (drop (length l) url) else None
  | Cap name int :: toks' =>
      match (match toks' with
             | Lit next :: _ => find_sub next url
             | Cap _ _ :: _ => None
             | [] => Some (length url)
             end) with
      | None => None
      | Some end_ =>
          if cap_ok (take end_ url) int
          then cons (name, take end_ url, int) <$> match_toks toks' (drop end_ url)
          else None
      end
  end.

Definition find_cap (caps : list (bytes * bytes * bool)) (name : bytes) : option (bytes * bool) :=
  (fun c => (c.1.2, c.2)) <$> List.find (fun c => bool_decide (c.1.1 = name)) caps.

Fixpoint render_toks (caps : list (bytes * bytes * bool)) (toks : list UrlTok) : option bytes :=
  match toks with
  | [] => Some []
  | Lit l :: toks' => app l <$> render_toks caps toks'
  | Cap name _ :: toks' =>
      match find_cap caps name with
      | Some (val, _) => app val <$> render_toks caps toks'
      | None => None
      end
  end.

(** The value of one field, if its template renders. *)
Definition derive_field (caps : list (bytes * bytes * bool)) (template : bytes) : option json :=
  match parse_url_template template with
  | None => None
  | Some [Cap name _] =>
      match find_cap caps name with
      | Some (val, true) => (fun n => JNum (Z.of_N n)) <$> from_str_radix 10 u64_max val
      | Some (val, false) => Some (JStr (to_string val))
      | None => None
      end
  | Some ttoks => (fun s => JStr (to_string s)) <$> render_toks caps ttoks
  end.

Definition derive (self : UrlFallback) (url : bytes) : list (bytes * json) :=
  match parse_url_template (uf_pattern self) ≫= (fun toks => match_toks toks url) with
  | None => []
  | Some caps => omap (fun f => pair f.1 <$> derive_field caps f.2) (uf_fields self)
  end.

(** ** Extractors *)

Fixpoint get_path (v : json) (keys : list bytes) : option json :=
  match keys with
  | [] => Some v
  | k :: keys' => json_get (to_string k) v ≫= fun v' => get_path v' keys'
  end.

Definition extract (path : bytes) (status : N) (method req_path : bytes) (body gql_vars : option json) : option json :=
  match strip_prefix (lit "$.") path with
  | None => None
  | Some rest =>
      if bool_decide (rest = lit "status") then Some (JNum (Z.of_N status))
      else if bool_decide (rest = lit "req.method") then Some (JStr (to_string method))
      else if bool_decide (rest = lit "req.path") then Some (JStr (to_string req_path))
      else
        match (match strip_prefix (lit "vars") rest with
               | Some p => (fun v => (v, p)) <$> gql_vars
               | None => body ≫= fun b => (fun p => (b, p)) <$> strip_prefix (lit "resp") rest
               end) with
        | None => None
        | Some (root, dotted) =>
            if bool_decide (dotted = []) then Some root
            else strip_prefix (lit ".") dotted ≫= fun p => get_path root (split_byte 46 p)
        end
  end.

(** ** Assets *)

Record ObservedAsset := MkAsset {
  oa_provider : bytes;
  oa_asset_kind : bytes;
  oa_surface : bytes;
  oa_data : gmap bytes json;
  oa_fetchable_url : option bytes;
}.

Definition satisfied_by (self : SuccessRule) (status : N) : bool :=
  match self with
  | StatusClass2xx | NoGraphqlErrors => in_range 200 299 status
  | Always => true
  end.

Definition has_graphql_errors (body : option json) : bool :=
  match body ≫= json_get "errors" with
  | Some (JArr (_ :: _)) => true
  | _ => false
  end.

(** A field is filled by the first extractor that resolves. *)
Definition fill (get : bytes → option json) (data : gmap bytes json) (f : bytes * bytes) : gmap bytes json :=
  if bool_decide (is_Some (data !! f.1)) then data
  else match get f.2 with Some v => <[f.1 := v]> data | None => data end.

Section evaluate.
Context (from_slice : bytes → option json).

Definition evaluate (entry : ObserveEntry.t) (parsed : option ParsedResponse) (method req_path : bytes) (gql_vars : option json) :
    option ObservedAsset :=
  let asset data url :=
    Some (MkAsset (ObserveEntry.provider entry) (ObserveEntry.asset_kind entry) (ObserveEntry.surface entry) data url) in
  match parsed with
  | None => asset {[lit "_method" := JStr (to_string method); lit "_path" := JStr (to_string req_path)]} None
  | Some resp =>
      if negb (satisfied_by (ObserveEntry.success entry) (pr_status resp)) then None
      else
        let body_json := from_slice (pr_body resp) in
        if match ObserveEntry.success entry with NoGraphqlErrors => true | _ => false end && has_graphql_errors body_json
        then None
        else
          let get path := extract path (pr_status resp) method req_path body_json gql_vars in
          let data := fold_left (fill get) (ObserveEntry.data entry) (∅ : gmap bytes json) in
          let fetchable_url := lit <$> ((ObserveEntry.fetchable entry ≫= get) ≫= json_as_str) in
          let data :=
            match ObserveEntry.url_fallback entry, fetchable_url with
            | Some fb, Some url =>
                fold_left (fun (d : gmap bytes json) fv => if bool_decide (is_Some (d !! fv.1)) then d else <[fv.1 := fv.2]> d) (derive fb url) data
            | _, _ => data
            end in
          if (base.size data =? 0)%nat && bool_decide (fetchable_url = @None bytes)
          then asset (<[lit "_status" := JNum (Z.of_N (pr_status resp))]>
                        (<[lit "_method" := JStr (to_string method)]> (<[lit "_path" := JStr (to_string req_path)]> data))) fetchable_url
          else asset data fetchable_url
  end.

End evaluate.

(** ** The tapped copy *)

Definition OBSERVE_RESPONSE_BUDGET : nat := 256 * 1024.

(** [resp_buf] with some more output, up to the budget. *)
Definition tap (budget : nat) (resp_buf output : bytes) : bytes :=
  if (length resp_buf <? budget)%nat then resp_buf ++ take (budget - length resp_buf) output else resp_buf.

Fixpoint pump_loop (budget : nat) (r : Http1ResponseRedactor) (reader : list read_result) (written resp_buf : bytes) :
    bytes * result bytes CopyError :=
  let finish := let tail := (redactor_push r [] true).2 in (written ++ tail, Ok (tap budget resp_buf tail)) in
  match reader with
  | [] | ReadEof :: _ => finish
  | ReadUnexpectedEof :: _ => if is_complete (rr_framing r) then finish else (written, Err CopyIo)
  | ReadError :: _ => (written, Err CopyIo)
  | ReadData b :: reader' =>
      if bool_decide (b = []) then finish
      else let '(r', out) := redactor_push r b false in pump_loop budget r' reader' (written ++ out) (tap budget resp_buf out)
  end.

(** The bytes written to the guest, and the tapped ones. *)
Definition pump_and_observe (reader : list read_result) (budget : nat) (needles : list bytes) (head_request : bool) :
    bytes * result bytes CopyError :=
  let r := redactor_new needles head_request in
  if bool_decide (needles = []) then pump_loop budget r reader [] []
  else
    match read_response_prefix reader [] with
    | Err e => ([], Err e)
    | Ok (prefix, reader') =>
        match find_sub CRLFCRLF prefix with
        | None => ([], Err HeadersTooLong)
        | Some headers_end =>
            if negb (response_headers_are_inspectable (take headers_end prefix)) then ([], Err Uninspectable)
            else
              let '(r, redacted) := redactor_push r prefix false in
              pump_loop budget r reader' redacted (take (Nat.min (length redacted) budget) redacted)
        end
    end.
