(* ===== verification/EgressObserveProps.v ===== *)
(** * What is observed is what happened

    The tapped copy is what the guest was sent, chunked bodies are joined
    exactly, URL captures give the URL back, an asset is left out only for a
    failed side effect; and the two ways in which an asset is lost. *)

From S2P Require Import Prelude Bytes EgressPolicy EgressRegistry EgressHttp EgressRedact EgressRedactProps EgressScan EgressResponse EgressObserve.

(** ** The tapped copy *)

Lemma tap_take budget w out : tap budget (take budget w) out = take budget (w ++ out).
Proof.
  unfold tap. rewrite take_app, length_take. destruct (Nat.ltb_spec (Nat.min budget (length w)) budget).
  - do 2 f_equal. lia.
  - replace (budget - length w)%nat with O by lia. by rewrite take_0, app_nil_r.
Qed.

Definition forget {A} (res : result A CopyError) : result unit CopyError :=
  match res with Ok _ => Ok tt | Err e => Err e end.

Lemma pump_loop_copy budget reader : ∀ r written,
  let '(w, res) := pump_loop budget r reader written (take budget written) in
  copy_loop r reader written = (w, forget res) ∧ ∀ buf, res = Ok buf → buf = take budget w.
Proof.
  assert (Hend : ∀ r written, let tail := (redactor_push r [] true).2 in
    (written ++ tail, Ok tt) = (written ++ tail, forget (Ok (tap budget (take budget written) tail))) ∧
    ∀ buf, @Ok bytes CopyError (tap budget (take budget written) tail) = Ok buf → buf = take budget (written ++ tail)).
  { intros r written tail. split; [done|]. intros buf [= <-]. apply tap_take. }
  induction reader as [|[b| | |] reader IH]; intros r written; cbn [pump_loop copy_loop].
  - apply Hend.
  - case_bool_decide; [apply Hend|]. destruct (redactor_push r b false) as [r' out]. rewrite tap_take. apply IH.
  - apply Hend.
  - destruct (is_complete _); [apply Hend|done].
  - done.
Qed.

(** A redactor without needles passes everything on at once. *)
Lemma write_back_same s l : write_back s l (select s l) = s.
Proof.
  induction l as [|i l IH]; [done|]. cbn. rewrite nth_lookup. destruct (s !! i) as [b|] eqn:E; cbn.
  - by rewrite (list_insert_id s i b E).
  - by rewrite list_insert_ge by (by apply lookup_ge_None).
Qed.

Lemma push_without_needles r x final_chunk :
  rr_needles r = [] → rr_keep r = O → rr_pending r = [] →
  (redactor_push r x final_chunk).2 = x ∧ rr_needles (redactor_push r x final_chunk).1 = [] ∧
  rr_keep (redactor_push r x final_chunk).1 = O ∧ rr_pending (redactor_push r x final_chunk).1 = [].
Proof.
  intros Hn Hk Hp. rewrite redactor_push_eq. unfold push_release, release_point, push_pending. cbn [fst snd rr_needles rr_keep rr_pending].
  rewrite Hn, Hk, Hp. cbn [redact_bytes fold_left app Nat.eqb]. rewrite write_back_same, orb_true_r. by rewrite take_ge, drop_ge.
Qed.

Lemma pump_without_needles budget reader : ∀ r written buf,
  rr_needles r = [] → rr_keep r = O → rr_pending r = [] →
  (pump_loop budget r reader written buf).1 = written ++ concat (received reader).
Proof.
  induction reader as [|[b| | |] reader IH]; intros r written buf Hn Hk Hp; cbn [pump_loop received];
    try (destruct (push_without_needles r [] true Hn Hk Hp) as (->&_)); try done.
  - case_bool_decide; [cbn; by rewrite !app_nil_r|]. destruct (push_without_needles r b false Hn Hk Hp) as (E1&E2&E3&E4).
    destruct (redactor_push r b false) as [r' out]. cbn [fst snd] in *. subst out. rewrite IH by done. by rewrite <- app_assoc.
  - destruct (is_complete _); cbn; by rewrite !app_nil_r.
  - by rewrite app_nil_r.
Qed.

(** A response that is observed reaches the guest as it would unobserved:
    the same bytes, redacted where the request carried credentials, and the same
    end; and what the observer gets is the first bytes of that, up to the
    budget, so no credential reaches an asset that does not reach the guest. *)
Theorem observed_is_sent (reader : list read_result) (budget : nat) (needles : list bytes) (hr : bool) :
  let '(written, res) := pump_and_observe reader budget needles hr in
  (∀ buf, res = Ok buf → buf = take budget written) ∧
  match needles with
  | [] => written = concat (received reader)
  | _ => copy_redacting_response reader needles hr = (written, forget res)
  end.
Proof.
  unfold pump_and_observe, copy_redacting_response. destruct needles as [|n needles].
  - rewrite bool_decide_eq_true_2 by done. pose proof (pump_loop_copy budget reader (redactor_new [] hr) []) as H.
    pose proof (pump_without_needles budget reader (redactor_new [] hr) [] []) as Hw. rewrite take_nil in H.
    destruct (pump_loop _ _ _ _ _) as [w res]. split; [apply H|by apply Hw].
  - rewrite bool_decide_eq_false_2 by done. destruct (read_response_prefix reader []) as [[prefix reader']|e]; [|done].
    destruct (find_sub _ _); [|done]. destruct (negb _); [done|].
    destruct (redactor_push _ prefix false) as [r redacted].
    pose proof (pump_loop_copy budget reader' r redacted) as H.
    replace (take (Nat.min (length redacted) budget) redacted) with (take budget redacted)
      by (destruct (decide (budget ≤ length redacted)%nat); [f_equal; lia|rewrite !take_ge by lia; done]).
    destruct (pump_loop _ _ _ _ _) as [w res]. destruct H as [H1 H2]. by split.
Qed.

(** ** Chunked bodies *)

Lemma utf8_char_pos s : (0 < (utf8_char s).2)%nat.
Proof. unfold utf8_char. repeat case_match; cbn; lia. Qed.

Lemma utf8_lossy_valid fuel : ∀ s, (length s ≤ fuel)%nat → utf8_valid fuel s = true → utf8_lossy fuel s = s.
Proof.
  induction fuel as [|fuel IH]; intros [|b s] Hf Hv; try done; [cbn in Hf; lia|]. cbn [utf8_lossy utf8_valid] in *.
  pose proof (utf8_char_pos (b :: s)) as Hk. destruct (utf8_char (b :: s)) as [ok k]. cbn [snd] in Hk.
  apply andb_prop in Hv as [-> Hv]. rewrite IH; [apply take_drop| |done].
  rewrite length_drop. cbn [length] in *. lia.
Qed.

Lemma from_utf8_lossy_valid s t : from_utf8 s = Some t → from_utf8_lossy s = t.
Proof. unfold from_utf8, from_utf8_lossy. destruct (utf8_valid _ _) eqn:E; [|done]. intros [= <-]. by apply utf8_lossy_valid. Qed.

Lemma find_sub_at n s i : find_sub n s = Some i → occurs_at n s i.
Proof.
  intros (Hs&_&_)%find_sub_Some. apply starts_with_inv in Hs. intros k b Hk. rewrite <- lookup_drop, Hs. by apply lookup_app_l_Some.
Qed.

Lemma find_sub_first n s i :
  n ≠ [] → occurs_at n s i → (∀ j, (j < i)%nat → ¬ occurs_at n s j) → find_sub n s = Some i.
Proof.
  intros Hn Hi Hmin. destruct (find_sub n s) as [j|] eqn:E.
  - f_equal. destruct (find_sub_Some _ _ _ E) as (Hs&_&Hm). destruct (lt_eq_lt_dec i j) as [[Hlt|?]|Hgt]; [|done|].
    + apply occurs_at_starts in Hi. rewrite Hm in Hi by done. done.
    + exfalso. by apply (Hmin j Hgt), find_sub_at.
  - exfalso. assert (Ho : occurs n s) by (apply occurs_iff; eauto). apply find_sub_is_Some in Ho. rewrite E in Ho. by destruct Ho.
Qed.

Lemma occurs_at_take n s k j : n ≠ [] → occurs_at n (take k s) j → (j + length n ≤ k)%nat ∧ occurs_at n s j.
Proof.
  intros Hn H. split.
  - destruct (last n) as [b|] eqn:E; [|by apply last_None in E]. rewrite last_lookup in E. apply H, lookup_take_Some in E as [_ E].
    destruct n; [done|]. cbn in *. lia.
  - intros i b Hi. apply H, lookup_take_Some in Hi. apply Hi.
Qed.

(** The end of a line, in a body that may be cut short. *)
Lemma find_line budget l r k :
  line_ok budget l → find_sub CRLF (take k (l ++ CRLF ++ r)) = if (k <? length l + 2)%nat then None else Some (length l).
Proof.
  intros [Ho _]. assert (Hmin : ∀ j, (j < length l)%nat → ¬ occurs_at CRLF (l ++ CRLF ++ r) j).
  { intros j Hj H. apply Ho, occurs_iff; [done|]. exists j. intros i b Hi. pose proof (lookup_lt_Some _ _ _ Hi) as Hl. cbn in Hl.
    apply H in Hi. replace (l ++ CRLF ++ r) with ((l ++ [CR]) ++ LF :: r) in Hi by (by rewrite <- app_assoc).
    rewrite lookup_app_l in Hi; [done|]. rewrite length_app. cbn. lia. }
  destruct (Nat.ltb_spec k (length l + 2)) as [Hk|Hk].
  - destruct (find_sub _ _) as [j|] eqn:E; [|done]. exfalso. apply find_sub_at in E as Hj.
    apply occurs_at_take in Hj as [Hj1 Hj2]; [|done]. cbn in Hj1. apply (Hmin j); [lia|done].
  - apply find_sub_first; [done| |].
    + intros i b Hi. apply lookup_take_Some. apply lookup_lt_Some in Hi as Hl. cbn in Hl. split; [|lia].
      rewrite lookup_app_r by lia. replace (length l + i - length l)%nat with i by lia. by apply lookup_app_l_Some.
    + intros j Hj H. apply occurs_at_take in H as [_ H]; [|done]. by apply (Hmin j).
Qed.

(** A size line is read as the tracker reads it. *)
Lemma size_lossy l n : size_of l = Some n → from_str_radix 16 usize_max (trim (from_utf8_lossy (until_semicolon l))) = Some n.
Proof.
  unfold size_of, until_semicolon. destruct (from_utf8 _) as [t|] eqn:E; [|done]. cbn. by rewrite (from_utf8_lossy_valid _ _ E).
Qed.

Lemma dechunk_tail fuel l r k : line_ok 8192 l → size_of l = Some 0%N → dechunk fuel (take k (l ++ CRLF ++ r)) = Ok [].
Proof.
  intros Hl Hs. destruct fuel as [|fuel]; [done|]. cbn [dechunk]. rewrite (find_line _ _ _ _ Hl).
  destruct (Nat.ltb_spec k (length l + 2)); [done|]. rewrite take_take, Nat.min_l, take_app_length, (size_lossy _ _ Hs) by lia. done.
Qed.

Lemma dechunk_chunks chunks t fuel : ∀ k,
  Forall chunk_ok chunks → (∀ fuel k, dechunk fuel (take k t) = Ok []) →
  let w := wire (chunks ≫= chunk_pieces) ++ t in
  (N.of_nat (length w) ≤ usize_max)%N → (length (take k w) < fuel)%nat →
  ∃ d, dechunk fuel (take k w) = Ok d ∧ d `prefix_of` concat (ck_data <$> chunks) ∧
    ((length w ≤ k)%nat → d = concat (ck_data <$> chunks)).
Proof.
  revert fuel. induction chunks as [|c chunks IH]; intros fuel k Hc Ht; cbn zeta.
  { intros _ _. exists []. by rewrite Ht. }
  apply Forall_cons in Hc as [(Hl&Hs&Hd) Hc]. cbn [mbind list_bind]. rewrite wire_app.
  set (more := wire (chunks ≫= chunk_pieces) ++ t).
  assert (Ew : (wire (chunk_pieces c) ++ wire (chunks ≫= chunk_pieces)) ++ t = ck_size c ++ CRLF ++ ck_data c ++ CRLF ++ more).
  { unfold wire, chunk_pieces. cbn. by rewrite <- !app_assoc. }
  rewrite Ew. set (l := ck_size c) in *. set (x := ck_data c) in *. intros Hbig Hf.
  assert (Hx : (0 < length x)%nat) by (destruct x; [done|cbn; lia]).
  destruct fuel as [|fuel]; [lia|]. cbn [dechunk]. rewrite (find_line _ _ _ _ Hl).
  destruct (Nat.ltb_spec k (length l + 2)) as [Hk|Hk].
  { exists []. split; [done|]. split; [apply prefix_nil|]. rewrite !length_app. cbn. lia. }
  rewrite take_take, Nat.min_l, take_app_length, (size_lossy _ _ Hs) by lia.
  destruct (N.eqb_spec (N.of_nat (length x)) 0); [lia|]. rewrite <- Nat2N.inj_add.
  rewrite !length_app in Hbig. change (length CRLF) with 2%nat in Hbig. destruct (N.ltb_spec usize_max (N.of_nat (length l + 2 + length x))); [lia|].
  assert (Edrop : ∀ y, drop (length l + 2) (l ++ CRLF ++ y) = y).
  { intros y. rewrite (app_assoc l). apply drop_app_length'. rewrite length_app. cbn. lia. }
  rewrite length_take in Hf |- *. rewrite !length_app in Hf |- *. change (length CRLF) with 2%nat in Hf |- *.
  destruct (N.ltb_spec (N.of_nat (Nat.min k (length l + (2 + (length x + (2 + length more)))))) (N.of_nat (length l + 2 + length x))) as [Hcut|Hcut].
  - eexists. split; [done|]. rewrite skipn_firstn_comm. rewrite Edrop. cbn [fmap list_fmap concat]. split.
    + rewrite take_app_le by lia. fold x. apply prefix_app_r, prefix_take.
    + lia.
  - rewrite Nat2N.id. rewrite !take_take. rewrite Nat.min_l by lia.
    assert (E1 : drop (length l + 2) (take (length l + 2 + length x) (l ++ CRLF ++ x ++ CRLF ++ more)) = x).
    { rewrite skipn_firstn_comm, Edrop. replace (length l + 2 + length x - (length l + 2))%nat with (length x) by lia. apply take_app_length. }
    assert (E2 : drop (length l + 2 + length x + 2) (take k (l ++ CRLF ++ x ++ CRLF ++ more)) = take (k - (length l + 2 + length x + 2)) more).
    { rewrite skipn_firstn_comm. f_equal. rewrite <- (drop_drop _ 2 (length l + 2 + length x)), <- (drop_drop _ (length x) (length l + 2)), Edrop, drop_app_length. done. }
    rewrite E1, E2. specialize (IH fuel (k - (length l + 2 + length x + 2))%nat Hc Ht). cbn zeta in IH. fold more in IH.
    destruct IH as (d&->&Hp&Hall); [lia|rewrite length_take; lia|].
    exists (x ++ d). cbn [fmap list_fmap concat]. fold x. split; [done|]. split; [by apply prefix_app|].
    intros Hle. rewrite Hall; [done|]. lia.
Qed.

(** The chunks of a body are joined to its data: all of it when the whole body
    was tapped, and a front part of it when the tap ended anywhere in it. *)
Theorem dechunk_inverts (chunks : list chunk) (last_size : bytes) (trailers : list bytes) (k : nat) :
  let w := wire (body_pieces (InChunks chunks last_size trailers)) in
  Forall chunk_ok chunks → line_ok 8192 last_size → size_of last_size = Some 0%N → (N.of_nat (length w) ≤ usize_max)%N →
  ∃ d, dechunk (S (length (take k w))) (take k w) = Ok d ∧
    d `prefix_of` concat (ck_data <$> chunks) ∧ ((length w ≤ k)%nat → d = concat (ck_data <$> chunks)).
Proof.
  intros w Hc Hl Hs Hbig. set (t := last_size ++ CRLF ++ wire (((fun t => (true, t ++ CRLF)) <$> trailers) ++ [(true, CRLF)])).
  assert (Ew : w = wire (chunks ≫= chunk_pieces) ++ t).
  { unfold w, t. cbn [body_pieces]. rewrite wire_app. f_equal. unfold wire at 1. cbn. by rewrite <- app_assoc. }
  rewrite Ew in Hbig |- *. apply dechunk_chunks; [done| |done|lia]. intros fuel j. by apply dechunk_tail.
Qed.

Lemma dechunk_inverts_witness :
  dechunk 100 (lit "5" ++ CRLF ++ lit "a tok" ++ CRLF ++ lit "2" ++ CRLF ++ lit "en" ++ CRLF ++ lit "0" ++ CRLF ++ CRLF) = Ok (lit "a token").
Proof.
  destruct (dechunk_inverts [MkChunk (lit "5") (lit "a tok"); MkChunk (lit "2") (lit "en")] (lit "0") [] 100) as (d&Hd&_&Hall).
  - apply Forall_cons_2; [|apply Forall_cons_2; [|apply Forall_nil_2]];
      (split; [split; [solve_absent|solve_closed_leb]|split; [vm_compute; reflexivity|done]]).
  - split; [solve_absent|solve_closed_leb].
  - vm_compute. reflexivity.
  - vm_compute. discriminate.
  - rewrite Hall in Hd by solve_closed_leb. vm_compute in Hd |- *. exact Hd.
Defined.

(** ** URL patterns *)

(** The text of tokens with the captures in their places. *)
Fixpoint place (toks : list UrlTok) (caps : list (bytes * bytes * bool)) : option bytes :=
  match toks, caps with
  | [], [] => Some []
  | Lit l :: toks', _ => app l <$> place toks' caps
  | Cap name int :: toks', (n, val, i) :: caps' =>
      if bool_decide (n = name) && Bool.eqb i int && cap_ok val int then app val <$> place toks' caps' else None
  | _, _ => None
  end.

(** A literal that ends every capture before it: it begins with a byte no capture
    has. *)
Fixpoint delimited (toks : list UrlTok) : Prop :=
  match toks with
  | Cap _ _ :: ((Lit (b :: _) :: _) as toks') => (b = 47 ∨ b = 63 ∨ b = 35)%N ∧ delimited toks'
  | Cap _ _ :: [] => True
  | Cap _ _ :: _ => False
  | Lit _ :: toks' => delimited toks'
  | [] => True
  end.

Lemma match_toks_sound toks : ∀ url caps, match_toks toks url = Some caps → place toks caps = Some url.
Proof.
  induction toks as [|[l|name int] toks IH]; intros url caps; cbn [match_toks place].
  - case_bool_decide; [|done]. by intros [= <-]; subst.
  - destruct (starts_with l url) eqn:E; [|done]. intros H%IH. rewrite H. cbn. by rewrite <- (starts_with_inv _ _ E).
  - destruct (match toks with [] => _ | _ => _ end) as [e|]; [|done]. destruct (cap_ok _ _) eqn:Ec; [|done].
    intros (caps'&H%IH&->)%fmap_Some. rewrite bool_decide_eq_true_2, Bool.eqb_reflx, Ec, H by done. cbn. by rewrite take_drop.
Qed.

Lemma cap_ok_spec val int b : cap_ok val int = true → b ∈ val → ¬ (b = 47 ∨ b = 63 ∨ b = 35)%N.
Proof.
  unfold cap_ok. intros [[_ H]%andb_prop _]%andb_prop Hb Hd. apply negb_true_iff in H. rewrite <- not_true_iff_false, existsb_exists in H.
  apply H. exists b. split; [by apply list_elem_of_In|]. destruct Hd as [->|[->| ->]]; done.
Qed.

Lemma find_delimiter val int b l r :
  cap_ok val int = true → (b = 47 ∨ b = 63 ∨ b = 35)%N → find_sub (b :: l) (val ++ (b :: l) ++ r) = Some (length val).
Proof.
  intros Hc Hb. apply find_sub_first; [done| |].
  - intros i x Hi. rewrite lookup_app_r by lia. replace (length val + i - length val)%nat with i by lia. by apply lookup_app_l_Some.
  - intros j Hj H. specialize (H O b eq_refl). rewrite Nat.add_0_r, lookup_app_l in H by done.
    apply list_elem_of_lookup_2 in H. by apply (cap_ok_spec _ _ _ Hc H).
Qed.

Lemma match_toks_complete toks : ∀ url caps, delimited toks → place toks caps = Some url → match_toks toks url = Some caps.
Proof.
  induction toks as [|[l|name int] toks IH]; intros url caps Hd; cbn [match_toks place].
  - destruct caps; [|done]. by intros [= <-].
  - intros (u&H%IH&->)%fmap_Some; [|done]. by rewrite starts_with_app, drop_app_length.
  - destruct caps as [|[[n val] i] caps]; [done|]. destruct (_ && cap_ok val int) eqn:E; [|done].
    apply andb_prop in E as [[Hn Hi]%andb_prop Hc]. apply bool_decide_eq_true in Hn as ->. apply Bool.eqb_prop in Hi as ->.
    intros (u&H&->)%fmap_Some.
    assert (He : match toks with Lit next :: _ => find_sub next (val ++ u) | Cap _ _ :: _ => None | [] => Some (length (val ++ u)) end
                 = Some (length val)).
    { destruct toks as [|[[|b l]|] toks]; try done.
      - destruct caps; [|done]. injection H as <-. by rewrite app_nil_r.
      - destruct Hd as [Hb Hd]. apply fmap_Some in H as (u'&_&->). by apply (find_delimiter _ int). }
    rewrite He, take_app_length, drop_app_length, Hc. rewrite (IH u caps); [done| |done].
    destruct toks as [|[[|b l]|] toks]; try done. apply Hd.
Qed.

(** A URL pattern matches a URL exactly when some captures, put in the places
    of its holes, give the URL back: none of them empty or across a segment, the
    numeric ones in range. What is found is such captures always; all of them
    are found, and only they, where every hole ends at a segment. *)
Theorem url_match_exact (toks : list UrlTok) (url : bytes) (caps : list (bytes * bytes * bool)) :
  (match_toks toks url = Some caps → place toks caps = Some url) ∧
  (delimited toks → place toks caps = Some url → match_toks toks url = Some caps).
Proof. split; [apply match_toks_sound|apply match_toks_complete]. Qed.

Lemma url_match_exact_witness :
  ∃ toks caps, parse_url_template (lit "https://github.com/{owner}/{name}/pull/{number:int}") = Some toks ∧
    match_toks toks (lit "https://github.com/o/r/pull/42") = Some caps ∧
    place toks caps = Some (lit "https://github.com/o/r/pull/42").
Proof.
  exists [Lit (lit "https://github.com/"); Cap (lit "owner") false; Lit (lit "/"); Cap (lit "name") false; Lit (lit "/pull/"); Cap (lit "number") true],
    [(lit "owner", lit "o", false); (lit "name", lit "r", false); (lit "number", lit "42", true)].
  split; [vm_compute; reflexivity|].
  assert (H : match_toks [Lit (lit "https://github.com/"); Cap (lit "owner") false; Lit (lit "/"); Cap (lit "name") false;
      Lit (lit "/pull/"); Cap (lit "number") true] (lit "https://github.com/o/r/pull/42")
    = Some [(lit "owner", lit "o", false); (lit "name", lit "r", false); (lit "number", lit "42", true)]).
  { apply url_match_exact; vm_compute; [tauto|reflexivity]. }
  split; [exact H|]. exact (proj1 (url_match_exact _ _ _) H).
Defined.

(** ** Assets *)

(** The value of the first extractor of a field that resolves. *)
Definition first_value (get : bytes → option json) (l : list (bytes * bytes)) (f : bytes) : option json :=
  head (omap (fun p => if bool_decide (p.1 = f) then get p.2 else None) l).

Lemma fill_lookup get l f : ∀ d,
  fold_left (fill get) l d !! f = match d !! f with Some v => Some v | None => first_value get l f end.
Proof.
  unfold first_value. induction l as [|[n p] l IH]; intros d; cbn [fold_left omap list_omap fst snd]; [by destruct (d !! f)|].
  rewrite IH. unfold fill. cbn [fst snd]. destruct (decide (n = f)) as [->|Hne].
  - rewrite (bool_decide_eq_true_2 (f = f)) by done. destruct (d !! f) as [v|] eqn:E.
    + rewrite bool_decide_eq_true_2 by eauto. by rewrite E.
    + rewrite bool_decide_eq_false_2 by (by intros [? ?]). destruct (get p); [by rewrite lookup_insert_eq|by rewrite E].
  - rewrite (bool_decide_eq_false_2 (n = f)) by done. case_bool_decide; [done|]. destruct (get p); [|done].
    by rewrite lookup_insert_ne.
Qed.

(** Later values do not replace earlier ones. *)
Lemma keep_lookup (l : list (bytes * json)) f v : ∀ d : gmap bytes json,
  d !! f = Some v → fold_left (fun (d : gmap bytes json) fv => if bool_decide (is_Some (d !! fv.1)) then d else <[fv.1 := fv.2]> d) l d !! f = Some v.
Proof.
  induction l as [|[n x] l IH]; intros d Hd; [done|]. cbn [fold_left fst snd]. apply IH. case_bool_decide as Hn; [done|].
  rewrite lookup_insert_ne; [done|]. intros ->. apply Hn. eauto.
Qed.

(** When a response says that nothing happened. *)
Definition failed (from_slice : bytes → option json) (rule : SuccessRule) (resp : ParsedResponse) : Prop :=
  satisfied_by rule (pr_status resp) = false ∨ (rule = NoGraphqlErrors ∧ has_graphql_errors (from_slice (pr_body resp)) = true).

(** A matched request gives an asset unless its response was parsed and says
    that it failed; the asset is never bare, each field has the value of the first
    extractor that resolves, and the URL fallback replaces none. *)
Theorem asset_unless_failed (from_slice : bytes → option json) (entry : ObserveEntry.t) (parsed : option ParsedResponse)
    (method path : bytes) (vars : option json) :
  let r := evaluate from_slice entry parsed method path vars in
  (r = None ↔ ∃ resp, parsed = Some resp ∧ failed from_slice (ObserveEntry.success entry) resp) ∧
  ∀ a, r = Some a → (oa_data a ≠ ∅ ∨ is_Some (oa_fetchable_url a)) ∧
    ∀ resp f v, parsed = Some resp →
      first_value (fun p => extract p (pr_status resp) method path (from_slice (pr_body resp)) vars) (ObserveEntry.data entry) f = Some v →
      oa_data a !! f = Some v.
Proof.
  unfold evaluate, failed. destruct parsed as [resp|]; cbn zeta.
  2:{ split; [split; [done|by intros (?&?&_)]|]. intros a [= <-]. split; [left; cbn; apply insert_non_empty|done]. }
  destruct (satisfied_by _ _) eqn:Es; cbn [negb].
  2:{ split; [|done]. split; [|done]. intros _. eauto. }
  set (body := from_slice (pr_body resp)). set (get := fun p => extract p (pr_status resp) method path body vars).
  destruct (match ObserveEntry.success entry with NoGraphqlErrors => true | _ => false end && has_graphql_errors body) eqn:Eg.
  { apply andb_prop in Eg as [E1 E2]. split; [|done]. split; [|done]. intros _. exists resp. split; [done|]. right. by destruct (ObserveEntry.success entry). }
  set (data0 := fold_left (fill get) _ _). set (url := lit <$> _). set (data := match ObserveEntry.url_fallback entry with Some _ => _ | None => _ end).
  assert (Hfirst : ∀ f v, first_value get (ObserveEntry.data entry) f = Some v → data !! f = Some v).
  { intros f v Hf. assert (H0 : data0 !! f = Some v) by (unfold data0; by rewrite fill_lookup, lookup_empty).
    unfold data. destruct (ObserveEntry.url_fallback entry) as [fb|]; [|done]. destruct url as [u|]; [|done]. by apply keep_lookup. }
  split.
  - split; [destruct ((base.size data =? 0)%nat && bool_decide (url = None)); discriminate|]. intros (resp'&[= <-]&[?|[Hn Hg]]); [congruence|].
    fold body in Hg. by rewrite Hn, Hg in Eg.
  - intros a Ha. destruct (Nat.eqb_spec (base.size data) 0) as [Hz%map_size_empty_inv|Hz]; cbn [andb] in Ha.
    + destruct (bool_decide (url = None)) eqn:Eu; injection Ha as <-; cbn [oa_data oa_fetchable_url].
      * split; [left; apply insert_non_empty|]. intros resp' f v [= <-] Hf%Hfirst. by rewrite Hz, lookup_empty in Hf.
      * split; [right; apply bool_decide_eq_false in Eu; by destruct url; [eauto|]|]. intros resp' f v [= <-]. apply Hfirst.
    + injection Ha as <-. cbn [oa_data oa_fetchable_url]. split; [left; intros E; apply Hz; by rewrite E, map_size_empty|].
      intros resp' f v [= <-]. apply Hfirst.
Qed.

(** ** Assets that are lost *)

Definition sample_entry : ObserveEntry.t :=
  ObserveEntry.Mk HostList.empty (RequestPolicy.Mk [] [] None) (lit "github") (lit "issue") (lit "asset") StatusClass2xx
    [(lit "number", lit "$.status")] None None.

(** The side effect of a request whose response comes after an interim one has
    no asset: the interim status is taken for the response's. And a chunk size
    near the end of the integers ends the task in a panic, so that there is no
    asset either. *)
Theorem observation_lost (from_slice : bytes → option json) :
  let created := lit "HTTP/1.1 201 Created" ++ CRLF ++ lit "Content-Length: 2" ++ CRLFCRLF ++ lit "{}" in
  let early := lit "HTTP/1.1 103 Early Hints" ++ CRLFCRLF in
  let seen buf := match parse_response buf with
                  | Ok parsed => Ok (bool_decide (is_Some (evaluate from_slice sample_entry parsed (lit "POST") (lit "/x") None)))
                  | Err p => Err p
                  end in
  seen created = Ok true ∧ seen (early ++ created) = Ok false ∧
  seen (sample_head ++ CRLFCRLF ++ lit "ffffffffffffffff" ++ CRLF ++ lit "x") = Err Panic.
Proof. split; [vm_compute; reflexivity|]. split; vm_compute; reflexivity. Qed.
