(* ===== verification/EgressH2.v ===== *)
(** * HTTP/2 streams

    One stream of an intercepted HTTP/2 connection ([process_h2_stream] of
    [intercept.rs]): the same policy gate as HTTP/1, on headers the HTTP/2
    library has split already. The header map is that library's and comes in
    through an interface; so do its checks of names, values and authorities. *)

From S2P Require Import Prelude Bytes EgressPolicy EgressRegistry EgressHttp EgressGate EgressRedact EgressRedactProps EgressTransform.

(** ** The header map *)

(** [http::HeaderMap]: its entries in the order of its iteration, values written
    through [iter_mut], [remove] and [insert]. *)
Class HeaderMap (M : Type) := {
  hm_iter : M → list (bytes * bytes);
  hm_write : M → list bytes → M;
  hm_remove : bytes → M → M;
  hm_insert : bytes → bytes → M → M;
}.

(** What its documentation says: [remove] takes out every value of a name,
    [insert] replaces them by one, and neither keeps the order. *)
Class HeaderMapLaws (M : Type) `{HeaderMap M} := {
  hm_write_iter m vs : length vs = length (hm_iter m) → hm_iter (hm_write m vs) = zip (hm_iter m).*1 vs;
  hm_remove_iter n m : hm_iter (hm_remove n m) ≡ₚ List.filter (fun h => negb (bool_decide (h.1 = n))) (hm_iter m);
  hm_insert_iter n v m :
    hm_iter (hm_insert n v m) ≡ₚ (n, v) :: List.filter (fun h => negb (bool_decide (h.1 = n))) (hm_iter m);
}.

Definition FORBIDDEN : N := 403.
Definition BAD_REQUEST : N := 400.
Definition PAYLOAD_TOO_LARGE : N := 413.
Definition BAD_GATEWAY : N := 502.

Definition denial_status (e : InterceptError) : N :=
  match e with GraphqlRejected _ => BAD_REQUEST | _ => FORBIDDEN end.

Definition transform_complete (value sni : bytes) (l : list SecretEntry.t) (foreign : list bytes) : result bytes InterceptError :=
  match first_match value foreign with
  | Some placeholder => Err (Violation placeholder)
  | None => Ok (substitute value sni l)
  end.

(** [read_h2_body]: the frames of a body within a budget. *)
Fixpoint read_h2_body (budget : N) (frames : list bytes) (output : bytes) : result bytes InterceptError :=
  match frames with
  | [] => Ok output
  | data :: frames' =>
      if (budget <? N.min usize_max (N.of_nat (length output) + N.of_nat (length data)))%N
      then Err (GraphqlRejected "body exceeds limit")
      else read_h2_body budget frames' (output ++ data)
  end.

Section h2.
Context {M : Type} `{HeaderMap M}.
(** [HeaderName::from_bytes], [HeaderValue::from_bytes], [HeaderValue::from_str],
    and the parse of an authority. *)
Context (name_from_bytes : bytes → option bytes) (value_from_bytes value_from_str authority_ok : bytes → bool).
Context (from_slice : bytes → option GraphqlRequest) (parse_query : bytes → option DocumentOperations).
Context (refreshed : InjectEntry.t → CredState).

Record H2Request := MkH2Request {
  hq_method : bytes;
  hq_path : bytes;
  hq_headers : M;
  hq_frames : list bytes;
  hq_trailers : option M;
  hq_end_stream : bool;
}.

(** The values that [transform_h2_headers] leaves. *)
Fixpoint transform_values (sni : bytes) (l : list SecretEntry.t) (foreign : list bytes) (hs : list (bytes * bytes)) :
    result (list bytes) InterceptError :=
  match hs with
  | [] => Ok []
  | (name, value) :: hs' =>
      let? transformed := transform_complete value sni l foreign in
      if negb (bool_decide (transformed = value)) && negb (value_from_bytes transformed)
      then Err (InvalidInjectedHeader name)
      else let? rest := transform_values sni l foreign hs' in Ok (transformed :: rest)
  end.

Definition transform_h2_headers (headers : M) (sni : bytes) (l : list SecretEntry.t) (foreign : list bytes) :
    result M InterceptError :=
  let? values := transform_values sni l foreign (hm_iter headers) in
  Ok (hm_write headers values).

Fixpoint insert_rendered (headers : M) (rendered : list (bytes * bytes)) : result M InterceptError :=
  match rendered with
  | [] => Ok headers
  | (name, value) :: rest =>
      match name_from_bytes name with
      | None => Err (InvalidInjectedHeader name)
      | Some name =>
          if negb (value_from_str value) then Err (InvalidInjectedHeader name)
          else insert_rendered (hm_insert name value (hm_remove name headers)) rest
      end
  end.

Definition inject_h2_headers (headers : M) (entries : list InjectEntry.t) : result M InterceptError :=
  let? rendered := rendered_headers entries in
  insert_rendered headers rendered.

(** What goes upstream: the head, and then what the body becomes. *)
Record H2Sent := MkH2Sent {
  hs_method : bytes;
  hs_authority : bytes;
  hs_path : bytes;
  hs_headers : M;
  hs_body : result (option bytes * option M) InterceptError;
  hs_plan : StreamPlan;
}.

(** The guest's answer: a status of the proxy, an error of the stream, or the
    exchange with the upstream. *)
Inductive h2_outcome :=
| Denied (status : N) (e : option InterceptError)
| Failed (e : InterceptError)
| Sent (s : H2Sent).

Definition send_trailers (c : StreamContext) (trailers : option M) : result (option M) InterceptError :=
  match trailers with
  | None => Ok None
  | Some t => let? t := transform_h2_headers t (sc_sni c) (sc_secrets c) (sc_foreign_placeholders c) in Ok (Some t)
  end.

(** [forward_request]. *)
Definition forward_body (c : StreamContext) (buffered : option bytes) (req : H2Request) : result (option bytes * option M) InterceptError :=
  match buffered with
  | Some body =>
      let? body := transform_complete body (sc_sni c) (sc_secrets c) (sc_foreign_placeholders c) in
      let? trailers := send_trailers c (hq_trailers req) in
      Ok (Some body, trailers)
  | None =>
      if hq_end_stream req then Ok (None, None)
      else
        let? body := transformer_run (transformer_new (sc_secrets c) (sc_foreign_placeholders c)) (hq_frames req) in
        let? trailers := send_trailers c (hq_trailers req) in
        Ok (Some body, trailers)
  end.

(** The head after the gate. *)
Definition rewrite_head (c : StreamContext) (plan : StreamPlan) (headers : M) : result M InterceptError :=
  let? headers := transform_h2_headers headers (sc_sni c) (sc_secrets c) (sc_foreign_placeholders c) in
  let headers := fold_left (fun hs n => hm_remove n hs) GoogleDenylist.METHOD_OVERRIDE_HEADERS headers in
  let? headers := inject_h2_headers headers (matched plan) in
  let headers :=
    if negb (bool_decide (redactions plan = [])) || negb (bool_decide (length (firing plan) = O))
    then hm_remove (lit "grpc-accept-encoding") (hm_remove (lit "accept-encoding") headers)
    else headers in
  let headers :=
    if existsb (fun e => HostList.matches (SecretEntry.allow e) (sc_sni c)) (sc_secrets c)
    then hm_remove (lit "content-length") headers else headers in
  let authority := upstream_authority (sc_sni c) (sc_port c) in
  if negb (authority_ok authority) then Err (InvalidServerName authority)
  else Ok (hm_remove (lit "host") headers).

Definition process_h2_stream (c : StreamContext) (req : H2Request) : h2_outcome :=
  let method := hq_method req in
  let path := hq_path req in
  match deny_credential_operation (sc_sni c) method path with
  | Err e => Denied FORBIDDEN (Some e)
  | Ok _ =>
      match (if is_graphql_endpoint (sc_injects c) (sc_observes c) path then
               match read_h2_body GRAPHQL_REQUEST_BODY_BUDGET (hq_frames req) [] with
               | Err _ => Err PAYLOAD_TOO_LARGE
               | Ok body =>
                   match parse_request_body from_slice parse_query body with
                   | None => Err BAD_REQUEST
                   | Some parsed => Ok (Some body, Some parsed)
                   end
               end
             else Ok (None, None)) with
      | Err status => Denied status None
      | Ok (buffered, gql) =>
          match evaluate_stream refreshed c method path gql with
          | Err e => Denied (denial_status e) (Some e)
          | Ok plan =>
              match rewrite_head c plan (hq_headers req) with
              | Err e => Failed e
              | Ok headers =>
                  Sent (MkH2Sent method (upstream_authority (sc_sni c) (sc_port c)) path headers (forward_body c buffered req) plan)
              end
          end
      end
  end.

(** ** The response *)

Definition redact_values (needles : list bytes) (hs : list (bytes * bytes)) : list bytes :=
  (fun h => let redacted := redact_bytes h.2 needles in
            if negb (bool_decide (redacted = h.2)) && value_from_bytes redacted then redacted else h.2) <$> hs.

Definition redact_h2_headers (headers : M) (needles : list bytes) : M :=
  hm_write headers (redact_values needles (hm_iter headers)).

(** [HeaderValue::to_str] succeeds on visible ASCII only, which [identity] is. *)
Definition h2_response_is_inspectable (headers : M) : bool :=
  forallb (fun h => negb (bool_decide (h.1 = lit "content-encoding") || bool_decide (h.1 = lit "grpc-encoding"))
                    || eq_ignore_ascii_case h.2 (lit "identity")) (hm_iter headers).

(** The head, the body and the trailers the guest gets, or the status in their
    place. *)
Definition forward_response (plan : StreamPlan) (headers : M) (response_end : bool) (frames : list bytes) (trailers : option M) :
    result (M * bytes * option M) N :=
  if (negb (bool_decide (redactions plan = [])) || negb (bool_decide (length (firing plan) = O)))
     && negb (h2_response_is_inspectable headers)
  then Err BAD_GATEWAY
  else
    let headers := redact_h2_headers headers (redactions plan) in
    if response_end then Ok (headers, [], None)
    else Ok (headers, byte_redactor_run (byte_redactor_new (redactions plan)) frames,
             (fun t => redact_h2_headers t (redactions plan)) <$> trailers).

End h2.
Arguments H2Request : clear implicits.
Arguments MkH2Request {_}.
Arguments H2Sent : clear implicits.
Arguments h2_outcome : clear implicits.

(** ** Header maps as multisets *)

Section laws.
Context {M : Type} `{HeaderMapLaws M}.

(** The entries whose name is not among some. *)
Definition without (names : list bytes) (hs : list (bytes * bytes)) : list (bytes * bytes) :=
  List.filter (fun h => negb (bool_decide (h.1 ∈ names))) hs.

Lemma without_elem names hs h : h ∈ without names hs ↔ h ∈ hs ∧ h.1 ∉ names.
Proof. unfold without. rewrite list_elem_of_In, filter_In, <- list_elem_of_In, negb_true_iff, bool_decide_eq_false. done. Qed.

Lemma without_without a b hs : without a (without b hs) = without (a ++ b) hs.
Proof.
  unfold without. induction hs as [|h hs IH]; [done|]. cbn. destruct (decide (h.1 ∈ b)) as [Hb|Hb].
  - rewrite bool_decide_eq_true_2 by done. rewrite (bool_decide_eq_true_2 (h.1 ∈ a ++ b)) by set_solver. exact IH.
  - rewrite bool_decide_eq_false_2 by done. cbn. rewrite IH. destruct (decide (h.1 ∈ a)) as [Ha|Ha].
    + rewrite !bool_decide_eq_true_2 by set_solver. done.
    + rewrite !bool_decide_eq_false_2 by set_solver. done.
Qed.

Lemma without_app names l k : without names (l ++ k) = without names l ++ without names k.
Proof. apply List.filter_app. Qed.

Lemma without_free names hs : (∀ h, h ∈ hs → h.1 ∉ names) → without names hs = hs.
Proof.
  unfold without. induction hs as [|h hs IH]; intros Hf; [done|]. cbn. rewrite bool_decide_eq_false_2 by (apply Hf; set_solver).
  cbn. f_equal. apply IH. intros x Hx. apply Hf. set_solver.
Qed.

#[global] Instance without_proper names : Proper ((≡ₚ) ==> (≡ₚ)) (without names).
Proof. intros l k Hp. unfold without. induction Hp; cbn; repeat case_match; try done; [by constructor|apply perm_swap|by etrans]. Qed.

(** The entries of one name. *)
Definition entries_of (n : bytes) (hs : list (bytes * bytes)) : list (bytes * bytes) :=
  List.filter (fun h => bool_decide (h.1 = n)) hs.

#[global] Instance entries_of_proper n : Proper ((≡ₚ) ==> (≡ₚ)) (entries_of n).
Proof. intros l k Hp. unfold entries_of. induction Hp; cbn; repeat case_match; try done; [by constructor|apply perm_swap|by etrans]. Qed.

Lemma entries_of_none n hs : (∀ h, h ∈ hs → h.1 ≠ n) → entries_of n hs = [].
Proof.
  unfold entries_of. induction hs as [|h hs IH]; intros Hf; [done|]. cbn. rewrite bool_decide_eq_false_2 by (apply Hf; set_solver).
  apply IH. intros x Hx. apply Hf. set_solver.
Qed.

Lemma entries_of_app n l k : entries_of n (l ++ k) = entries_of n l ++ entries_of n k.
Proof. apply List.filter_app. Qed.

Lemma entries_of_one n v hs : NoDup hs.*1 → (n, v) ∈ hs → entries_of n hs = [(n, v)].
Proof.
  unfold entries_of. induction hs as [|[n' v'] hs IH]; intros Hnd Hin; [set_solver|]. cbn in Hnd. apply NoDup_cons in Hnd as [Hn Hnd].
  cbn. apply elem_of_cons in Hin as [[= <- <-]|Hin].
  - rewrite bool_decide_eq_true_2 by done. f_equal. apply (entries_of_none n). intros h Hh <-. apply Hn. by apply list_elem_of_fmap_2.
  - rewrite bool_decide_eq_false_2; [by apply IH|]. intros ->. apply Hn. apply list_elem_of_fmap. by exists (n, v).
Qed.

Lemma entries_of_without n names hs : n ∉ names → entries_of n (without names hs) = entries_of n hs.
Proof.
  intros Hn. unfold entries_of, without. induction hs as [|h hs IH]; [done|]. cbn. destruct (decide (h.1 = n)) as [<-|Hne].
  - rewrite (bool_decide_eq_false_2 (h.1 ∈ names)) by done. cbn. by rewrite bool_decide_eq_true_2, IH by done.
  - rewrite (bool_decide_eq_false_2 (h.1 = n)) by done. destruct (negb _); [|done]. cbn. by rewrite bool_decide_eq_false_2.
Qed.

Lemma remove_without n m : hm_iter (hm_remove n m) ≡ₚ without [n] (hm_iter m).
Proof.
  rewrite hm_remove_iter. unfold without. erewrite filter_ext; [reflexivity|]. intros h. cbn. f_equal.
  apply bool_decide_ext. set_solver.
Qed.

Lemma remove_all names : ∀ m, hm_iter (fold_left (fun hs n => hm_remove n hs) names m) ≡ₚ without names (hm_iter m).
Proof.
  induction names as [|n names IH]; intros m; cbn [fold_left].
  - rewrite without_free; [done|]. set_solver.
  - rewrite IH, remove_without, without_without. unfold without. erewrite filter_ext; [reflexivity|]. intros h. cbn. f_equal.
    apply bool_decide_ext. set_solver.
Qed.

Lemma insert_without n v m : hm_iter (hm_insert n v m) ≡ₚ (n, v) :: without [n] (hm_iter m).
Proof.
  rewrite hm_insert_iter. constructor. unfold without. erewrite filter_ext; [reflexivity|]. intros h. cbn. f_equal.
  apply bool_decide_ext. set_solver.
Qed.
End laws.

Section h2_sound.
Context {M : Type} `{HeaderMapLaws M}.
Context (name_from_bytes : bytes → option bytes) (value_from_bytes value_from_str authority_ok : bytes → bool).
Context (from_slice : bytes → option GraphqlRequest) (parse_query : bytes → option DocumentOperations).
Context (refreshed : InjectEntry.t → CredState).
(** A header name is its bytes in lower case. *)
Context (Hname : ∀ raw n, name_from_bytes raw = Some n → n = to_ascii_lowercase raw).

(** The injected headers as they are inserted. *)
Definition inserted (rendered out : list (bytes * bytes)) : Prop :=
  Forall2 (fun r o => name_from_bytes r.1 = Some o.1 ∧ o.2 = r.2) rendered out.

Lemma inserted_names rendered out : inserted rendered out → out.*1 = (fun h => to_ascii_lowercase h.1) <$> rendered.
Proof. induction 1 as [|r o rs os [Ho _] _ IH]; [done|]. cbn. rewrite IH. f_equal. by apply Hname. Qed.

Lemma insert_rendered_spec rendered : ∀ m m',
  insert_rendered name_from_bytes value_from_str m rendered = Ok m' →
  NoDup ((fun h => to_ascii_lowercase h.1) <$> rendered) →
  ∃ out, inserted rendered out ∧ hm_iter m' ≡ₚ out ++ without out.*1 (hm_iter m).
Proof.
  induction rendered as [|[raw v] rendered IH]; intros m m'; cbn [insert_rendered].
  { intros <-%ok_inj _. exists []. split; [constructor|]. cbn. rewrite without_free; [done|]. set_solver. }
  destruct (name_from_bytes raw) as [n|] eqn:En; [|done]. destruct (negb _); [done|]. intros Hm Hnd.
  cbn in Hnd. apply NoDup_cons in Hnd as [Hnew Hnd]. destruct (IH _ _ Hm Hnd) as (out&Hout&Hp).
  exists ((n, v) :: out). split; [by constructor|]. rewrite Hp, insert_without, remove_without. cbn [app fmap list_fmap fst].
  assert (Hn : n ∉ out.*1) by (rewrite (inserted_names _ _ Hout); by rewrite (Hname _ _ En)).
  unfold without at 1. cbn [List.filter fst]. rewrite bool_decide_eq_false_2 by done. cbn [negb].
  fold (without out.*1 (without [n] (without [n] (hm_iter m)))). rewrite !without_without.
  rewrite <- Permutation_middle. constructor. f_equiv. unfold without. erewrite filter_ext; [reflexivity|]. intros h. cbn. f_equal.
  apply bool_decide_ext. set_solver.
Qed.

(** What the transformation leaves of a header. *)
Lemma transform_values_spec sni l foreign hs : ∀ vs,
  transform_values value_from_bytes sni l foreign hs = Ok vs →
  Forall2 (fun h v => v = substitute h.2 sni l ∧ first_match h.2 foreign = None) hs vs.
Proof.
  induction hs as [|[n v] hs IH]; intros vs; cbn [transform_values]; [intros <-%ok_inj; constructor|].
  unfold transform_complete. destruct (first_match v foreign) eqn:Ef; [done|]. cbn [bool_decide].
  destruct (_ && _); [done|]. destruct (transform_values _ _ _ _ hs) as [rest|] eqn:E; [|done]. intros <-%ok_inj.
  constructor; [done|by apply IH].
Qed.

Lemma transform_h2_headers_spec m sni l foreign m' :
  transform_h2_headers value_from_bytes m sni l foreign = Ok m' →
  hm_iter m' = (fun h => (h.1, substitute h.2 sni l)) <$> hm_iter m ∧ ∀ h, h ∈ hm_iter m → first_match h.2 foreign = None.
Proof.
  unfold transform_h2_headers. destruct (transform_values _ _ _ _ _) as [vs|] eqn:E; [|done]. intros <-%ok_inj.
  apply transform_values_spec in E. rewrite hm_write_iter by (symmetry; by eapply Forall2_length).
  induction E as [|h v hs vs [-> Hf] E [IH1 IH2]]; [split; [done|set_solver]|]. cbn. rewrite IH1. split; [done|].
  intros x [->|Hx]%elem_of_cons; [done|by apply IH2].
Qed.

(** The names a head may lose after the injection. *)
Definition stripped : list bytes := [lit "host"; lit "content-length"; lit "accept-encoding"; lit "grpc-accept-encoding"].

Lemma rewrite_head_spec c plan m m' :
  rewrite_head name_from_bytes value_from_bytes value_from_str authority_ok c plan m = Ok m' →
  ∃ rendered out gone,
    rendered_headers (matched plan) = Ok rendered ∧ inserted rendered out ∧ gone ⊆ stripped ∧ lit "host" ∈ gone ∧
    (redactions plan ≠ [] → lit "accept-encoding" ∈ gone ∧ lit "grpc-accept-encoding" ∈ gone) ∧
    (∀ h, h ∈ hm_iter m → first_match h.2 (sc_foreign_placeholders c) = None) ∧
    hm_iter m' ≡ₚ without gone (out ++ without (out.*1 ++ GoogleDenylist.METHOD_OVERRIDE_HEADERS)
      ((fun h => (h.1, substitute h.2 (sc_sni c) (sc_secrets c))) <$> hm_iter m)).
Proof.
  unfold rewrite_head. destruct (transform_h2_headers _ _ _ _ _) as [m1|] eqn:E1; [|done]. apply transform_h2_headers_spec in E1 as [E1 Hf].
  unfold inject_h2_headers. destruct (rendered_headers (matched plan)) as [rendered|] eqn:Er; [|done].
  set (m2 := fold_left _ _ m1). destruct (insert_rendered _ _ m2 rendered) as [m3|] eqn:E3; [|done].
  destruct (rendered_headers_spec _ _ Er) as (Hnd&_&_). destruct (insert_rendered_spec _ _ _ E3 Hnd) as (out&Hout&P3).
  unfold m2 in P3. rewrite remove_all, without_without, E1 in P3.
  set (ae := negb (bool_decide (redactions plan = [])) || negb (bool_decide (length (firing plan) = 0%nat))).
  set (cl := existsb _ (sc_secrets c)). destruct (negb (authority_ok _)); [done|]. intros <-%ok_inj.
  exists rendered, out, (lit "host" :: (if cl then [lit "content-length"] else []) ++
    (if ae then [lit "grpc-accept-encoding"; lit "accept-encoding"] else [])).
  split; [done|]. split; [done|]. split; [unfold stripped; destruct cl, ae; set_solver|]. split; [set_solver|]. split; [|split; [done|]].
  - intros Hr. unfold ae. rewrite bool_decide_eq_false_2 by done. set_solver.
  - rewrite remove_without. etrans; [|by rewrite <- P3].
    destruct cl, ae; rewrite ?remove_without, ?without_without; done.
Qed.

(** What the policy is asked about and what is sent of the body: at a GraphQL
    endpoint the document in the whole body, which was buffered within its
    budget and is sent from the buffer; elsewhere there is no document and the
    body is streamed. *)
Definition h2_graphql_read (c : StreamContext) (req : H2Request M) (gql : option ParsedGraphql)
    (sent : result (option bytes * option M) InterceptError) : Prop :=
  if is_graphql_endpoint (sc_injects c) (sc_observes c) (hq_path req) then
    ∃ body, body = concat (hq_frames req) ∧ (N.of_nat (length body) ≤ GRAPHQL_REQUEST_BODY_BUDGET)%N ∧
      parse_request_body from_slice parse_query body = gql ∧ is_Some gql ∧
      sent = forward_body value_from_bytes c (Some body) req
  else gql = None ∧ sent = forward_body value_from_bytes c None req.

Lemma read_h2_body_spec limit frames : ∀ body out,
  (limit < usize_max)%N → (N.of_nat (length body) ≤ limit)%N →
  read_h2_body limit frames body = Ok out →
  out = body ++ concat frames ∧ (N.of_nat (length out) ≤ limit)%N.
Proof.
  induction frames as [|f frames IH]; intros body out Hu Hb; cbn [read_h2_body concat].
  - intros <-%ok_inj. by rewrite app_nil_r.
  - destruct (N.ltb_spec limit (N.min usize_max (N.of_nat (length body) + N.of_nat (length f)))) as [|Hle]; [done|].
    intros (->&Hl)%IH; [|done|rewrite length_app; lia]. by rewrite app_assoc.
Qed.

(** C15. Nothing reaches an HTTP/2 upstream but a request the policy was asked
    about: not a credential-minting operation, and covered by the injections of
    its host if it has any, at a GraphQL endpoint field by field of the document
    in its body, which is the body that is sent. The authority is the SNI's and there is no [host]
    header. Every header is either an injected one, with its host-side value, or
    one the guest sent, not under an injected name and not overriding the method,
    without a foreign placeholder and with the host's own placeholders replaced;
    and an injected header is there exactly once, unless it is one the proxy
    strips. *)
Theorem h2_gate_sound (c : StreamContext) (req : H2Request M) (s : H2Sent M) :
  process_h2_stream name_from_bytes value_from_bytes value_from_str authority_ok from_slice parse_query refreshed c req = Sent s →
  (hs_method s = hq_method req ∧ hs_path s = hq_path req ∧ hs_authority s = upstream_authority (sc_sni c) (sc_port c) ∧
   GoogleDenylist.denies_operation (sc_sni c) (hs_method s) (hs_path s) = false) ∧
  (∃ gql, h2_graphql_read c req gql (hs_body s) ∧ (sc_injects c ≠ [] → matched (hs_plan s) ≠ []) ∧
     (∀ e, e ∈ matched (hs_plan s) → permitted c (hs_method s) (hs_path s) gql refreshed e) ∧
     (∀ doc op f, gql = Some doc → sc_injects c ≠ [] → (op, f) ∈ top_level doc →
        ∃ e g, e ∈ matched (hs_plan s) ∧ RequestPolicy.graphql (InjectEntry.policy e) = Some g ∧
          graphql_matches g op f = true) ∧
     redactions (hs_plan s) = response_redactions (sc_sni c) (sc_secrets c) (matched (hs_plan s))) ∧
  ∃ rendered, rendered_headers (matched (hs_plan s)) = Ok rendered ∧
    (∀ n v, (n, v) ∈ hm_iter (hs_headers s) →
       n ≠ lit "host" ∧
       ((∃ raw, (raw, v) ∈ rendered ∧ n = to_ascii_lowercase raw) ∨
        (∀ raw w, (raw, w) ∈ rendered → n ≠ to_ascii_lowercase raw) ∧ n ∉ GoogleDenylist.METHOD_OVERRIDE_HEADERS ∧
        ∃ v0, (n, v0) ∈ hm_iter (hq_headers req) ∧ v = substitute v0 (sc_sni c) (sc_secrets c) ∧
          ∀ ph, ph ∈ sc_foreign_placeholders c → ph ≠ [] → ¬ occurs ph v0)) ∧
    (∀ raw v, (raw, v) ∈ rendered → to_ascii_lowercase raw ∉ stripped →
       entries_of (to_ascii_lowercase raw) (hm_iter (hs_headers s)) = [(to_ascii_lowercase raw, v)]).
Proof.
  unfold process_h2_stream, deny_credential_operation.
  destruct (GoogleDenylist.denies_operation _ _ _) eqn:Hden; [done|].
  destruct (if is_graphql_endpoint _ _ _ then _ else _) as [[buffered gql]|] eqn:Hg; [|done].
  assert (Hread : h2_graphql_read c req gql (forward_body value_from_bytes c buffered req)).
  { unfold h2_graphql_read. destruct (is_graphql_endpoint _ _ _); [|apply ok_inj in Hg; by injection Hg as <- <-].
    destruct (read_h2_body _ _ _) as [body|] eqn:Hb; [|done].
    destruct (parse_request_body _ _ body) as [doc|] eqn:Hd; [|done]. apply ok_inj in Hg. injection Hg as <- <-.
    apply read_h2_body_spec in Hb as [-> Hl]; [|vm_compute; done..]. cbn [app] in *.
    exists (concat (hq_frames req)). split_and!; [done|done|done|by eexists|done]. }
  destruct (evaluate_stream _ _ _ _ _) as [plan|] eqn:Hev; [|done]. destruct (rewrite_head _ _ _ _ _ _ _) as [m|] eqn:Hh; [|done].
  intros [= <-]. cbn [hs_method hs_path hs_authority hs_plan hs_headers hs_body].
  destruct (evaluate_stream_spec _ _ _ _ _ _ Hev) as (P1&P2&P3&P4). split; [done|]. split; [by exists gql|].
  destruct (rewrite_head_spec _ _ _ _ Hh) as (rendered&out&gone&Hr&Hout&Hgone&Hhost&_&Hf&Hp).
  exists rendered. split; [done|]. pose proof (inserted_names _ _ Hout) as Hnames.
  destruct (rendered_headers_spec _ _ Hr) as (Hnd&_&_). split.
  - intros n v Hin. rewrite Hp, without_elem, elem_of_app, without_elem in Hin. destruct Hin as [Hin Hng]. split.
    { intros ->. apply Hng. apply Hhost. }
    destruct Hin as [Ho|[Ho Hno]].
    + left. apply list_elem_of_lookup in Ho as [i Hi]. destruct (Forall2_lookup_r _ _ _ _ _ Hout Hi) as ([raw w]&Hi'&Hn&Hw).
      cbn in Hn, Hw. subst w. exists raw. split; [by eapply list_elem_of_lookup_2|by apply Hname].
    + right. cbn [fst] in Hno. rewrite not_elem_of_app, Hnames in Hno. destruct Hno as [Hni Hov]. split; [|split; [done|]].
      * intros raw w Hrw ->. apply Hni. apply list_elem_of_fmap. by exists (raw, w).
      * apply list_elem_of_fmap in Ho as ([n0 v0]&[= -> ->]&Hin). exists v0. split; [done|]. split; [done|].
        intros ph. apply first_match_None. apply (Hf _ Hin).
  - intros raw v Hin Hns. set (n := to_ascii_lowercase raw) in *. apply Permutation_singleton_r.
    assert (Hno : (n, v) ∈ out).
    { apply list_elem_of_lookup in Hin as [i Hi]. destruct (Forall2_lookup_l _ _ _ _ _ Hout Hi) as ([n' v']&Hi'&Hn&Hv).
      cbn in Hn, Hv. subst v'. rewrite (Hname _ _ Hn) in Hi'. by eapply list_elem_of_lookup_2. }
    rewrite Hp, entries_of_without by (intros Hgr; apply Hns, Hgone, Hgr).
    rewrite entries_of_app, (entries_of_one n v) by (rewrite ?Hnames; done).
    rewrite entries_of_none; [done|]. intros h [_ Hx]%without_elem E. rewrite E in Hx. apply Hx, elem_of_app. left.
    apply list_elem_of_fmap. by exists (n, v).
Qed.

End h2_sound.

Section h2_response.
Context {M : Type} `{HeaderMapLaws M} (value_from_bytes : bytes → bool).
(** Which bytes a header value may have does not depend on the others, and a star
    may be one. *)
Context (Hvalue : ∀ v w, Forall2 (fun a b => b = a ∨ b = STAR) v w → value_from_bytes v = true → value_from_bytes w = true).

(** What the redaction leaves of a header. *)
Lemma redact_values_spec needles hs :
  Forall (fun h => value_from_bytes h.2 = true) hs →
  Forall2 (fun h v => masks h.2 v ∧ needle_free needles v) hs (redact_values value_from_bytes needles hs).
Proof.
  intros Hv. unfold redact_values. apply Forall2_fmap_r, Forall_Forall2_diag. eapply Forall_impl; [exact Hv|]. intros h Hh. cbn.
  destruct (redact_bytes_spec needles h.2) as [R1 R2]. destruct (decide (redact_bytes h.2 needles = h.2)) as [E|E].
  - rewrite bool_decide_eq_true_2 by done. cbn. rewrite E in R2. split; [apply masks_refl|exact R2].
  - rewrite bool_decide_eq_false_2, (Hvalue _ _ R1 Hh) by done. cbn. split; [exact R1|exact R2].
Qed.

Lemma redact_h2_headers_spec m needles :
  Forall (fun h => value_from_bytes h.2 = true) (hm_iter m) →
  Forall2 (fun h h' => h'.1 = h.1 ∧ masks h.2 h'.2 ∧ needle_free needles h'.2) (hm_iter m)
    (hm_iter (redact_h2_headers value_from_bytes m needles)).
Proof.
  intros Hv. pose proof (redact_values_spec needles _ Hv) as Hr. unfold redact_h2_headers.
  rewrite hm_write_iter by (symmetry; by eapply Forall2_length). clear Hv.
  induction Hr as [|h v hs vs [? ?] _ IH]; cbn; constructor; done.
Qed.

(** No credential the proxy holds for a stream, unless it has a star in it,
    reaches the guest in a response to it: not in a header, not in a trailer and
    not in the body, in frames of any sizes. A response in a content coding the
    proxy cannot look into is not passed on. *)
Theorem h2_response_redacted (plan : StreamPlan) (headers : M) (response_end : bool) (frames : list bytes) (trailers : option M)
    (headers' : M) (body : bytes) (trailers' : option M) (n : bytes) :
  Forall (fun h => value_from_bytes h.2 = true) (hm_iter headers) →
  (∀ t, trailers = Some t → Forall (fun h => value_from_bytes h.2 = true) (hm_iter t)) →
  forward_response value_from_bytes plan headers response_end frames trailers = Ok (headers', body, trailers') →
  n ∈ redactions plan → n ≠ [] → STAR ∉ n →
  ¬ occurs n body ∧ (∀ h, h ∈ hm_iter headers' → ¬ occurs n h.2) ∧
  (∀ t h, trailers' = Some t → h ∈ hm_iter t → ¬ occurs n h.2) ∧
  (∀ h, h ∈ hm_iter headers → h.1 = lit "content-encoding" ∨ h.1 = lit "grpc-encoding" → eq_ignore_ascii_case h.2 (lit "identity") = true).
Proof.
  intros Hv Ht Hok Hn Hne Hs. unfold forward_response in Hok.
  assert (Hfree : ∀ m h, Forall (fun h => value_from_bytes h.2 = true) (hm_iter m) →
    h ∈ hm_iter (redact_h2_headers value_from_bytes m (redactions plan)) → ¬ occurs n h.2).
  { intros m h Hm [i Hi]%list_elem_of_lookup. destruct (Forall2_lookup_r _ _ _ _ _ (redact_h2_headers_spec m _ Hm) Hi) as (x&_&_&_&Hf).
    by apply Hf. }
  rewrite bool_decide_eq_false_2 in Hok by (intros E; rewrite E in Hn; set_solver). cbn [negb orb andb] in Hok.
  destruct (h2_response_is_inspectable headers) eqn:Hi; cbn [negb] in Hok; [|done].
  assert (Hcoding : ∀ h, h ∈ hm_iter headers → h.1 = lit "content-encoding" ∨ h.1 = lit "grpc-encoding" → eq_ignore_ascii_case h.2 (lit "identity") = true).
  { intros h Hh Hc. unfold h2_response_is_inspectable in Hi. rewrite forallb_forall in Hi. specialize (Hi h ltac:(by apply list_elem_of_In)).
    cbn in Hi. destruct Hc as [E|E]; rewrite (bool_decide_eq_true_2 _ E), ?orb_true_r in Hi; exact Hi. }
  destruct response_end; injection Hok as <- <- <-.
  - split; [intros (a&b&E); by destruct a, n|]. split; [by eauto|]. split; [done|done].
  - split; [|split; [by eauto|split; [|done]]].
    + destruct (byte_redactor_run_spec (redactions plan) frames [] [] []) as [_ Hf];
        [constructor|intros m _ Hm _ (a&b&E); by destruct a, m|by left|]. by apply Hf.
    + intros t h Et Hh. destruct trailers as [t0|]; [|done]. injection Et as <-. eapply Hfree; [|exact Hh]. by apply Ht.
Qed.
End h2_response.

(** ** A header map *)

(** Association lists are one. *)
#[global] Instance list_header_map : HeaderMap (list (bytes * bytes)) := {|
  hm_iter := id;
  hm_write m vs := zip m.*1 vs;
  hm_remove n m := List.filter (fun h => negb (bool_decide (h.1 = n))) m;
  hm_insert n v m := (n, v) :: List.filter (fun h => negb (bool_decide (h.1 = n))) m;
|}.

#[global] Instance list_header_map_laws : HeaderMapLaws (list (bytes * bytes)).
Proof. by split. Qed.

(** ** A guest's stream *)

(** Names are put in lower case; values have no control bytes. *)
Definition demo_name (raw : bytes) : option bytes := Some (to_ascii_lowercase raw).
Definition demo_value (v : bytes) : bool := forallb (fun b => (b =? 9) || ((32 <=? b) && negb (b =? 127)))%N v.

Lemma demo_value_masks v w : Forall2 (fun a b => b = a ∨ b = STAR) v w → demo_value v = true → demo_value w = true.
Proof.
  unfold demo_value. induction 1 as [|a b v w Hab _ IH]; [done|]. cbn. intros [Ha Hv]%andb_prop. apply andb_true_intro.
  split; [by destruct Hab as [->| ->]|by apply IH].
Qed.

Definition demo_stream (c : StreamContext) (req : H2Request (list (bytes * bytes))) : h2_outcome (list (bytes * bytes)) :=
  process_h2_stream demo_name demo_value demo_value (fun _ => true) (fun _ => None) (fun _ => None) InjectEntry.cred c req.

(** The guest overrides the method, sends a credential of its own and claims
    another host. *)
Definition demo_h2_request : H2Request (list (bytes * bytes)) :=
  MkH2Request (lit "POST") (lit "/v1/a/items")
    [(lit "x-http-method-override", lit "DELETE"); (lit "authorization", lit "mine"); (lit "host", lit "evil.example");
     (lit "x-key", lit "engram_ph_1")] [lit "key=engram"; lit "_ph_1"] None false.

Definition demo_h2_sent : H2Sent (list (bytes * bytes)) :=
  match demo_stream demo_context demo_h2_request with Sent s => s | _ => MkH2Sent [] [] [] [] (Ok (None, None)) (MkPlan [] [] []) end.

Example demo_h2_sent_head :
  hs_headers demo_h2_sent = [(lit "authorization", lit "Bearer real-token"); (lit "x-key", lit "key")] ∧
  hs_body demo_h2_sent = Ok (Some (lit "key=key"), None).
Proof. split; vm_compute; reflexivity. Qed.

Lemma h2_gate_sound_witness :
  hs_path demo_h2_sent = lit "/v1/a/items" ∧
  ∃ rendered, rendered_headers (matched (hs_plan demo_h2_sent)) = Ok rendered.
Proof.
  destruct (h2_gate_sound demo_name demo_value demo_value (fun _ => true) (fun _ => None) (fun _ => None) InjectEntry.cred
    ltac:(intros raw n [= <-]; reflexivity) demo_context demo_h2_request demo_h2_sent) as [(_&Hp&_&_) [_ (rendered&Hr&_)]].
  - vm_compute. reflexivity.
  - split; [exact Hp|]. by exists rendered.
Defined.

Definition demo_plan : StreamPlan := MkPlan [demo_inject] [] [lit "real-token"].

Lemma h2_response_redacted_witness :
  forward_response demo_value demo_plan [(lit "x-echo", lit "real-token")] false [lit "a real-"; lit "token b"] None
    = Ok ([(lit "x-echo", lit "**********")], lit "a ********** b", None) ∧
  ¬ occurs (lit "real-token") (lit "a ********** b").
Proof.
  assert (H : forward_response demo_value demo_plan [(lit "x-echo", lit "real-token")] false [lit "a real-"; lit "token b"] None
    = Ok ([(lit "x-echo", lit "**********")], lit "a ********** b", None)) by (vm_compute; reflexivity).
  split; [exact H|].
  apply (h2_response_redacted demo_value demo_value_masks demo_plan [(lit "x-echo", lit "real-token")] false [lit "a real-"; lit "token b"] None
    [(lit "x-echo", lit "**********")] (lit "a ********** b") None (lit "real-token")).
  - apply Forall_cons_2; [vm_compute; reflexivity|apply Forall_nil_2].
  - discriminate.
  - exact H.
  - cbn. set_solver.
  - discriminate.
  - rewrite list_elem_of_In. vm_compute. intuition discriminate.
Defined.

(** The path of an HTTP/2 request is neither scanned nor substituted: a
    placeholder of another host in it reaches the upstream, and the host's own
    placeholder is sent as it is. The HTTP/1 gate closes the connection on the
    first and replaces the second. *)
Theorem h2_path_unscanned :
  let path s := lit "/v1/" ++ s ++ lit "/items" in
  let h1 s := match demo_run [Ok (lit "POST " ++ path s ++ lit " HTTP/1.1" ++ CRLFCRLF)] with
              | Ok fw => Ok (request_line (fw_sent fw))
              | Err e => Err e
              end in
  let h2 s := match demo_stream demo_context (MkH2Request (lit "POST") (path s) [] [] None true) with
              | Sent sent => Some (hs_path sent)
              | _ => None
              end in
  h1 (lit "engram_ph_2") = Err (Violation (lit "engram_ph_2")) ∧ h2 (lit "engram_ph_2") = Some (path (lit "engram_ph_2")) ∧
  h1 (lit "engram_ph_1") = Ok (Some (lit "POST", path (lit "key"))) ∧ h2 (lit "engram_ph_1") = Some (path (lit "engram_ph_1")).
Proof. split; [vm_compute; reflexivity|]. split; [vm_compute; reflexivity|]. split; vm_compute; reflexivity. Qed.
