(* ===== verification/EgressCred.v ===== *)
(** * Refreshable credentials

    The credential cell behind an injection ([RefreshableCred] and
    [refresh_if_stale] of [registry.rs]), shared by all streams of a session:
    each stream that finds the credential near its end re-mints it, one at a
    time, and then reads it twice, for the redactions of the response and for
    the header ([evaluate_stream], [inject_headers]). The streams take their
    steps in any order; the clock does not go back. *)

From S2P Require Import Prelude Bytes EgressRegistry.

#[local] Open Scope Z_scope.

Definition second : Z := 1000000000.
Definition REFRESH_FAILURE_BACKOFF : Z := 45 * second.
Definition REFRESH_WINDOW : Z := 300 * second.

(** [RefreshableCred]; the guard is held by a stream. *)
Record RefreshableCred := MkCell {
  current : CredState;
  refreshing : option nat;
  failure_backoff_until : option DateTime;
}.

Definition in_failure_backoff (self : RefreshableCred) (now : DateTime) : bool :=
  match failure_backoff_until self with Some until => bool_decide (now < until)%Z | None => false end.

Definition fresh_enough (self : RefreshableCred) (now : DateTime) : bool :=
  match expires_at (current self) with
  | None => true
  | Some exp => bool_decide (now + REFRESH_WINDOW < exp)%Z
  end.

(** Where a stream is: in [refresh_if_stale], before its first check or its
    second half, at the guard, at the checks under the guard, at the refresher,
    before the last write; and after it, with what it read. *)
Inductive stream_pc :=
| Checking
| CheckingBackoff
| Waiting
| Rechecking
| RecheckingBackoff
| Minting
| Settling
| Refreshed
| Planned (version : nat) (redacted : bytes)
| Injected (version : nat) (redacted : bytes) (version' : nat) (sent : bytes).

(** The cell, the clock and the streams; and, for the statements, how often the
    credential was written, what the refresher returned, and when it was asked. *)
Record World := MkWorld {
  cell : RefreshableCred;
  now : DateTime;
  streams : gmap nat stream_pc;
  version : nat;
  returned : list bytes;
  asked : list DateTime;
}.

Definition with_guard (c : RefreshableCred) (g : option nat) : RefreshableCred := MkCell (current c) g (failure_backoff_until c).

Definition move (w : World) (c : RefreshableCred) (i : nat) (p : stream_pc) : World :=
  MkWorld c (now w) (<[i := p]> (streams w)) (version w) (returned w) (asked w).

Section refresh.
(** Whether the entry has a [mint_source]. *)
Context (refreshable : bool).

(** What the world does, and which replies come. *)
Inductive event := Quiet | Asks | Replied (fresh : bool) | Dropped.

Inductive cred_step (w : World) : event → World → Prop :=
| step_tick d : (0 ≤ d)%Z → cred_step w Quiet (MkWorld (cell w) (now w + d)%Z (streams w) (version w) (returned w) (asked w))
| step_arrive i : streams w !! i = None → cred_step w Quiet (move w (cell w) i Checking)
| step_check i : streams w !! i = Some Checking →
    cred_step w Quiet (move w (cell w) i (if negb refreshable || fresh_enough (cell w) (now w) then Refreshed else CheckingBackoff))
| step_check_backoff i : streams w !! i = Some CheckingBackoff →
    cred_step w Quiet (move w (cell w) i (if in_failure_backoff (cell w) (now w) then Refreshed else Waiting))
| step_lock i : streams w !! i = Some Waiting → refreshing (cell w) = None →
    cred_step w Quiet (move w (with_guard (cell w) (Some i)) i Rechecking)
| step_recheck_fresh i : streams w !! i = Some Rechecking → fresh_enough (cell w) (now w) = true →
    cred_step w Quiet (move w (with_guard (cell w) None) i Refreshed)
| step_recheck i : streams w !! i = Some Rechecking → fresh_enough (cell w) (now w) = false →
    cred_step w Quiet (move w (cell w) i RecheckingBackoff)
| step_rebackoff i : streams w !! i = Some RecheckingBackoff → in_failure_backoff (cell w) (now w) = true →
    cred_step w Quiet (move w (with_guard (cell w) None) i Refreshed)
| step_ask i : streams w !! i = Some RecheckingBackoff → in_failure_backoff (cell w) (now w) = false →
    cred_step w Asks (MkWorld (cell w) (now w) (<[i := Minting]> (streams w)) (version w) (returned w) (now w :: asked w))
| step_reply i s exp : streams w !! i = Some Minting →
    cred_step w Quiet (MkWorld (MkCell (MkCred s (Some exp)) (refreshing (cell w)) (failure_backoff_until (cell w))) (now w)
      (<[i := Settling]> (streams w)) (S (version w)) (s :: returned w) (asked w))
| step_settle i : streams w !! i = Some Settling →
    cred_step w (Replied (fresh_enough (cell w) (now w)))
      (move w (MkCell (current (cell w)) None
                 (if fresh_enough (cell w) (now w) then None else Some (now w + REFRESH_FAILURE_BACKOFF)%Z)) i Refreshed)
| step_fail i : streams w !! i = Some Minting →
    cred_step w (Replied false) (move w (MkCell (current (cell w)) None (Some (now w + REFRESH_FAILURE_BACKOFF)%Z)) i Refreshed)
| step_drop_waiting i : streams w !! i = Some Waiting →
    cred_step w Quiet (MkWorld (cell w) (now w) (delete i (streams w)) (version w) (returned w) (asked w))
| step_drop_minting i : streams w !! i = Some Minting →
    cred_step w Dropped (MkWorld (with_guard (cell w) None) (now w) (delete i (streams w)) (version w) (returned w) (asked w))
| step_plan i : streams w !! i = Some Refreshed →
    cred_step w Quiet (move w (cell w) i (Planned (version w) (secret (current (cell w)))))
| step_inject i v k : streams w !! i = Some (Planned v k) →
    cred_step w Quiet (move w (cell w) i (Injected v k (version w) (secret (current (cell w))))).

(** The cell as it is built. *)
Definition cred_start (c : CredState) (t : DateTime) : World := MkWorld (MkCell c None None) t ∅ O [] [].

Inductive runs (ok : event → Prop) : World → World → Prop :=
| runs_nil w : runs ok w w
| runs_step w w1 e w2 : runs ok w w1 → ok e → cred_step w1 e w2 → runs ok w w2.

(** ** One at a time *)

Definition holds (p : stream_pc) : bool :=
  match p with Rechecking | RecheckingBackoff | Minting | Settling => true | _ => false end.

Definition stale_here (p : stream_pc) : bool := match p with RecheckingBackoff | Minting => true | _ => false end.

Definition read_ok (w : World) (p : stream_pc) : Prop :=
  match p with
  | Planned v k => (v ≤ version w)%nat ∧ (v = version w → k = secret (current (cell w)))
  | Injected v k v' s => (v ≤ v')%nat ∧ (v = v' → k = s)
  | _ => True
  end.

Record cred_inv (s0 : bytes) (w : World) : Prop := {
  ci_guard : ∀ i p, streams w !! i = Some p → holds p = true → refreshing (cell w) = Some i;
  ci_stale : ∀ i p, streams w !! i = Some p → stale_here p = true → fresh_enough (cell w) (now w) = false;
  ci_secret : secret (current (cell w)) = default s0 (head (returned w)) ∧ length (returned w) = version w;
  ci_reads : ∀ i p, streams w !! i = Some p → read_ok w p;
  ci_static : refreshable = false → returned w = [] ∧ asked w = [] ∧ ∀ i p, streams w !! i = Some p →
    match p with Checking | Refreshed | Planned _ _ | Injected _ _ _ _ => True | _ => False end;
}.

Lemma stale_later c t d : (0 ≤ d)%Z → fresh_enough c t = false → fresh_enough c (t + d) = false.
Proof. unfold fresh_enough. destruct (expires_at _); [|done]. rewrite !bool_decide_eq_false. lia. Qed.

(** The new entry of a stream, or one that was there. *)
Lemma moved (m : gmap nat stream_pc) i p j q : <[i := p]> m !! j = Some q → (j = i ∧ q = p) ∨ (j ≠ i ∧ m !! j = Some q).
Proof. rewrite lookup_insert_Some. naive_solver. Qed.

Lemma dropped_entry (m : gmap nat stream_pc) i j q : delete i m !! j = Some q → j ≠ i ∧ m !! j = Some q.
Proof. rewrite lookup_delete_Some. naive_solver. Qed.

Ltac entries :=
  repeat match goal with
  | H : <[_ := _]> _ !! _ = Some _ |- _ => apply moved in H as [[-> ->]|[? H]]
  | H : delete _ _ !! _ = Some _ |- _ => apply dropped_entry in H as [? H]
  end.

Lemma guard_step s0 w e w' : cred_inv s0 w → cred_step w e w' →
  ∀ i p, streams w' !! i = Some p → holds p = true → refreshing (cell w') = Some i.
Proof.
  intros [Hg _ _ _ _] Hstep i p Hi Hp.
  assert (Halone : ∀ i p j q, streams w !! i = Some p → holds p = true → streams w !! j = Some q → holds q = true → i = j).
  { intros i' p' j q Hi' Hp' Hj Hq. pose proof (Hg _ _ Hi' Hp'). pose proof (Hg _ _ Hj Hq). congruence. }
  inversion Hstep; subst; cbn in *; entries; cbn in *; repeat case_match; cbn in *; try done; try (by eauto).
  all: try (exfalso; match goal with Ha : streams ?x !! ?a = Some _, Hb : streams ?x !! ?b = Some _, Hn : ?b ≠ ?a |- _ => apply Hn end; by eauto).
  exfalso. pose proof (Hg _ _ Hi Hp). congruence.
Qed.

Lemma stale_step s0 w e w' : cred_inv s0 w → cred_step w e w' →
  ∀ i p, streams w' !! i = Some p → stale_here p = true → fresh_enough (cell w') (now w') = false.
Proof.
  intros [Hg Hst _ _ _] Hstep i p Hi Hp. assert (Hh : ∀ q, stale_here q = true → holds q = true) by (by intros []).
  inversion Hstep; subst; cbn in *; entries; cbn in *; repeat case_match; cbn in *; try done; try (by eauto using stale_later).
  all: try (pose proof (Hst _ _ Hi Hp) as Hx; exact Hx).
  exfalso. pose proof (Hg _ _ Hi (Hh _ Hp)). match goal with Hm : streams w !! _ = Some Minting |- _ => pose proof (Hg _ _ Hm eq_refl) end. congruence.
Qed.

Lemma reads_step s0 w e w' : cred_inv s0 w → cred_step w e w' → ∀ i p, streams w' !! i = Some p → read_ok w' p.
Proof.
  intros [_ _ _ Hr _] Hstep i p Hi.
  inversion Hstep; subst; cbn in *; entries; try (apply (Hr _ _ Hi)); repeat case_match; cbn; try done.
  - pose proof (Hr _ _ Hi) as Hx. destruct p; cbn in *; try done. destruct Hx as [? _]. split; [lia|lia].
  - match goal with Hm : streams w !! _ = Some (Planned _ _) |- _ => exact (Hr _ _ Hm) end.
Qed.

Lemma secret_step s0 w e w' : cred_inv s0 w → cred_step w e w' →
  secret (current (cell w')) = default s0 (head (returned w')) ∧ length (returned w') = version w'.
Proof. intros [_ _ [Hs Hl] _ _] Hstep. inversion Hstep; subst; cbn; rewrite <- ?Hl; done. Qed.

Lemma static_step s0 w e w' : cred_inv s0 w → cred_step w e w' → refreshable = false →
  returned w' = [] ∧ asked w' = [] ∧ ∀ i p, streams w' !! i = Some p →
    match p with Checking | Refreshed | Planned _ _ | Injected _ _ _ _ => True | _ => False end.
Proof.
  intros [_ _ _ _ Hsta] Hstep Hre. destruct (Hsta Hre) as (H1&H2&H3).
  inversion Hstep; subst; cbn; try (match goal with Hm : streams w !! _ = Some _ |- _ => pose proof (H3 _ _ Hm) as Hx; cbn in Hx end); try done;
    (split; [done|]; split; [done|]; intros j q Hj; entries; rewrite ?Hre; cbn in *; try done; by eapply H3).
Qed.

Lemma cred_inv_step s0 w e w' : cred_inv s0 w → cred_step w e w' → cred_inv s0 w'.
Proof.
  intros Hi Hs. split; [by eapply guard_step|by eapply stale_step|by eapply secret_step|by eapply reads_step|by eapply static_step].
Qed.

Lemma cred_inv_runs ok c t w : runs ok (cred_start c t) w → cred_inv (secret c) w.
Proof.
  intros Hr. remember (cred_start c t) as w0. induction Hr as [|w0 w1 e w2 _ IH _ Hs]; subst.
  - split; try (intros i p; cbn; by rewrite lookup_empty); [done|]. intros _. split; [done|]. split; [done|]. intros i p. cbn. by rewrite lookup_empty.
  - eapply cred_inv_step; [|exact Hs]. by apply IH.
Qed.

(** C23. However the streams of a session interleave, at most one of them asks the
    refresher, and only for a credential that is near its end; the credential is
    what the refresher returned last, or the first one; a static one is never
    asked for; and a stream sends the credential it redacts, unless a refresh was
    written between its two reads. *)
Theorem credential_refresh (c : CredState) (t : DateTime) (w : World) :
  runs (fun _ => True) (cred_start c t) w →
  (∀ i j, streams w !! i = Some Minting → streams w !! j = Some Minting → i = j) ∧
  (∀ i, streams w !! i = Some Minting → fresh_enough (cell w) (now w) = false) ∧
  secret (current (cell w)) = default (secret c) (head (returned w)) ∧
  (refreshable = false → returned w = [] ∧ asked w = []) ∧
  (∀ i v k v' s, streams w !! i = Some (Injected v k v' s) → (v ≤ v')%nat ∧ (v = v' → k = s)).
Proof.
  intros Hr. destruct (cred_inv_runs _ _ _ _ Hr) as [Hg Hst [Hs _] Hrd Hsta]. split; [|split; [|split; [|split]]].
  - intros i j Hi Hj. pose proof (Hg _ _ Hi eq_refl). pose proof (Hg _ _ Hj eq_refl). congruence.
  - intros i Hi. by apply (Hst _ _ Hi).
  - done.
  - intros Hre. destruct (Hsta Hre) as (?&?&_). done.
  - intros i v k v' s Hi. exact (Hrd _ _ Hi).
Qed.

(** ** Backoff *)

(** A run in which no reply is fresh and no refresh is cut off. *)
Definition outage (e : event) : Prop := match e with Replied true | Dropped => False | _ => True end.

Fixpoint spaced (gap : Z) (l : list Z) : Prop :=
  match l with
  | a :: ((b :: _) as l') => (b + gap ≤ a)%Z ∧ spaced gap l'
  | _ => True
  end.

(** When the next question may be asked. *)
Record backoff_inv (w : World) : Prop := {
  bi_spaced : spaced REFRESH_FAILURE_BACKOFF (asked w);
  bi_past : ∀ a l, asked w = a :: l → (a ≤ now w)%Z;
  bi_until : ∀ a l, asked w = a :: l →
    (∃ i p, streams w !! i = Some p ∧ (p = Minting ∨ p = Settling)) ∨
    (∃ u, failure_backoff_until (cell w) = Some u ∧ (a + REFRESH_FAILURE_BACKOFF ≤ u)%Z);
}.

(** A refresh that is under way stays so when another stream moves. *)
Lemma still_minting w j q :
  (∃ i p, streams w !! i = Some p ∧ (p = Minting ∨ p = Settling)) →
  (∀ p, streams w !! j = Some p → p ≠ Minting ∧ p ≠ Settling) →
  ∃ i p, <[j := q]> (streams w) !! i = Some p ∧ (p = Minting ∨ p = Settling).
Proof.
  intros (i&p&Hi&Hp) Hj. exists i, p. split; [|done]. rewrite lookup_insert_ne; [done|]. intros ->. destruct (Hj _ Hi) as [? ?]. by destruct Hp.
Qed.

Lemma backoff_step s0 w e w' : cred_inv s0 w → backoff_inv w → outage e → cred_step w e w' → backoff_inv w'.
Proof.
  intros Hc [Hsp Hpa Hun] Ho Hstep.
  assert (Hmove : ∀ c j q p, streams w !! j = Some p → p ≠ Minting → p ≠ Settling →
    failure_backoff_until c = failure_backoff_until (cell w) → backoff_inv (move w c j q)).
  { intros c j q p Hj H1 H2 Hb. split; cbn; [done|done|]. intros a l Ha. rewrite Hb.
    destruct (Hun _ _ Ha) as [Hm|Hm]; [left|by right]. apply still_minting; [done|]. intros p' Hp'. by simplify_eq. }
  assert (Harm : ∀ c j q, (∃ u, failure_backoff_until c = Some u ∧ (now w + REFRESH_FAILURE_BACKOFF ≤ u)%Z) → backoff_inv (move w c j q)).
  { intros c j q (u&Hu&Hle). split; cbn; [done|done|]. intros a l Ha. right. exists u. split; [done|]. specialize (Hpa _ _ Ha). lia. }
  inversion Hstep; subst; try (by eapply Hmove).
  - split; cbn; [done| |done]. intros a l Ha. specialize (Hpa _ _ Ha). lia.
  - split; cbn; [done|done|]. intros a l Ha. destruct (Hun _ _ Ha) as [Hm|Hm]; [left|by right].
    apply still_minting; [done|]. intros p Hp. congruence.
  - split; cbn.
    + destruct (asked w) as [|a l] eqn:Ea; [done|]. split; [|exact Hsp]. destruct (Hun _ _ eq_refl) as [(j&p&Hj&Hp)|(u&Hu&Hle)].
      * exfalso. assert (Hh : holds p = true) by (by destruct Hp as [->| ->]). pose proof (ci_guard _ _ Hc _ _ Hj Hh) as G1.
        match goal with Hm : streams w !! _ = Some RecheckingBackoff |- _ => pose proof (ci_guard _ _ Hc _ _ Hm eq_refl) as G2 end.
        rewrite G1 in G2. injection G2 as <-. by destruct Hp; simplify_eq.
      * match goal with Hm : in_failure_backoff _ _ = false |- _ => unfold in_failure_backoff in Hm; rewrite Hu, bool_decide_eq_false in Hm end. lia.
    + intros a l [= <- <-]. done.
    + intros a l _. left. exists i, Minting. split; [apply lookup_insert_eq|by left].
  - split; cbn; [done|done|]. intros a l Ha. left. exists i, Settling. split; [apply lookup_insert_eq|by right].
  - apply Harm. cbn. destruct (fresh_enough _ _); [done|]. eauto with lia.
  - apply Harm. cbn. eauto with lia.
  - split; cbn; [done|done|]. intros a l Ha. destruct (Hun _ _ Ha) as [(j&p&Hj&Hp)|Hm]; [left|by right].
    exists j, p. split; [|done]. rewrite lookup_delete_ne; [done|]. intros ->. destruct Hp; simplify_eq.
  - destruct Ho.
Qed.

(** While the refresher fails, or returns credentials that are at their end
    too, it is asked at most once in forty-five seconds, however many requests
    the guest sends. *)
Theorem outage_backoff (c : CredState) (t : DateTime) (w : World) :
  runs outage (cred_start c t) w → spaced REFRESH_FAILURE_BACKOFF (asked w).
Proof.
  intros Hr. assert (H : cred_inv (secret c) w ∧ backoff_inv w); [|apply H]. split; [by eapply cred_inv_runs|].
  remember (cred_start c t) as w0. induction Hr as [|w0 w1 e w2 Hr IH Ho Hs]; subst; [by split|].
  eapply backoff_step; [eapply cred_inv_runs, Hr|by apply IH|done|done].
Qed.

End refresh.

(** ** A run *)

(** A credential at its end, and a stream that asks for a new one. *)
Definition old_cred : CredState := MkCred (lit "old") (Some 0%Z).

Lemma asking_run ok : (∀ e, ok e) ∨ ok = outage → ∃ w, runs true ok (cred_start old_cred 1) w ∧ streams w !! 1%nat = Some Minting ∧ asked w = [1%Z].
Proof.
  intros Hok. assert (HQ : ok Quiet ∧ ok Asks) by (destruct Hok as [?| ->]; [auto|done]). destruct HQ as [HQ HA].
  set (w0 := cred_start old_cred 1). set (w1 := move w0 (cell w0) 1 Checking). set (w2 := move w1 (cell w1) 1 CheckingBackoff).
  set (w3 := move w2 (cell w2) 1 Waiting). set (w4 := move w3 (with_guard (cell w3) (Some 1%nat)) 1 Rechecking).
  set (w5 := move w4 (cell w4) 1 RecheckingBackoff).
  assert (R1 : runs true ok w0 w1) by (eapply runs_step; [apply runs_nil|exact HQ|apply step_arrive; reflexivity]).
  assert (R2 : runs true ok w0 w2) by (eapply runs_step; [exact R1|exact HQ|apply (step_check true w1 1); reflexivity]).
  assert (R3 : runs true ok w0 w3) by (eapply runs_step; [exact R2|exact HQ|apply (step_check_backoff true w2 1); reflexivity]).
  assert (R4 : runs true ok w0 w4) by (eapply runs_step; [exact R3|exact HQ|apply step_lock; reflexivity]).
  assert (R5 : runs true ok w0 w5) by (eapply runs_step; [exact R4|exact HQ|apply step_recheck; reflexivity]).
  eexists. split; [eapply runs_step; [exact R5|exact HA|apply (step_ask true w5 1); reflexivity]|]. split; reflexivity.
Qed.

Lemma credential_refresh_witness :
  ∃ w, runs true (fun _ => True) (cred_start old_cred 1) w ∧ streams w !! 1%nat = Some Minting ∧ fresh_enough (cell w) (now w) = false.
Proof.
  destruct (asking_run (fun _ => True)) as (w&Hr&Hm&_); [by left|]. exists w. split; [exact Hr|]. split; [exact Hm|].
  destruct (credential_refresh true old_cred 1 w Hr) as (_&H&_). exact (H _ Hm).
Defined.

Lemma outage_backoff_witness :
  ∃ w, runs true outage (cred_start old_cred 1) w ∧ asked w = [1%Z] ∧ spaced REFRESH_FAILURE_BACKOFF (asked w).
Proof.
  destruct (asking_run outage) as (w&Hr&_&Ha); [by right|]. exists w. split; [exact Hr|]. split; [exact Ha|].
  exact (outage_backoff true old_cred 1 w Hr).
Defined.
