(* ===== verification/Rank.v ===== *)
(** * Which hosts a coordinator may place on

    [engram-coordinator/src/placement.rs]: the vetoes that take a host out of a
    pick, the ranking of the rest, the four-tier pick of the resume path, the
    candidates of a capture and the capacity counts the autoscaler reads.  All
    of it is pure code over the [hosts] rows; the transaction that commits the
    capacity is in [Placement]. *)

From S2P Require Import Prelude Session OpLogSpec MetaTypes Placement Scenario.
From Stdlib Require Import QArith.

(** ** Data *)

(** [CapStatus]. *)
Module CapStatus.
Inductive t : Type :=
| Unknown
| Ok_ (detail : option string)
| Failed (detail : string)
| NotApplicable.

Definition is_ok (c : t) : bool := match c with Ok_ _ => true | _ => false end.
End CapStatus.

(** [HostCapabilities]. *)
Module HostCapabilities.
Record t := Mk {
  schema : Z;
  backend : string;
  grpc_self_connect : CapStatus.t;
  base_shm_tmpfs : CapStatus.t;
  uffd_minor_shmem : CapStatus.t;
  session_disk : CapStatus.t;
  page_idle : CapStatus.t;
  bundle_stamp : CapStatus.t;
  fc_snapshot_version : option string;
  wire_version : Z;
  reattach_generation : Z;
}.
End HostCapabilities.

(** [CapabilityRequirements]. *)
Record CapabilityRequirements := MkReq {
  needs_uffd_substrate : bool;
  needs_live_substrate : bool;
  req_fc_snapshot_version : option string;
}.

Definition CapabilityRequirements_default : CapabilityRequirements := MkReq false false None.

(** [ScheduleContext]. *)
Record ScheduleContext := MkCtx {
  repo : string;
  image_version : string;
  snapshot_host : option HostId;
  memory_mib : option Z;
  cpu_budget_vcpus : option Z;
  required_image_digest : option string;
  exclude_host : option HostId;
  prefer_host : option HostId;
  caps : CapabilityRequirements;
  prefer_bundles : list json;
}.

(** [CaptureFootprint]. *)
Module CaptureFootprint.
Record t := Mk { disk_mib : Z; pool_mib : Z }.
Definition for_capture (mem_mib image_populated_mib : Z) : t :=
  Mk (mem_mib + 4096) image_populated_mib.
Definition floor_only : t := Mk 0 0.
End CaptureFootprint.

(** [PickError]. *)
Module PickError.
Inductive t : Type :=
| ImageNotReady (digest : string)
| NoCapacity
| HostUnreachable (h : HostId) (msg : string)
| Internal (msg : string).
End PickError.

(** [RankedCandidates]. *)
Module RankedCandidates.
Record t := Mk { hosts : list HostId; affinity_len : nat }.
End RankedCandidates.

(** [FleetSnapshot]. *)
Module FleetSnapshot.
Record t := Mk {
  ready_hosts : Z;
  schedulable_hosts : Z;
  total_mib : Z;
  total_vcpus : Z;
  free_vcpus : Z;
  free_mib : Z;
  cordoned_hosts : Z;
}.
#[global] Instance t_eta : Eta t := fun m =>
  Mk (ready_hosts m) (schedulable_hosts m) (total_mib m) (total_vcpus m) (free_vcpus m)
     (free_mib m) (cordoned_hosts m).
Definition default : t := Mk 0 0 0 0 0 0 0.
End FleetSnapshot.

(** [ReservedBudget]. *)
Record ReservedBudget := MkReserved { mem_mib : Z; vcpus : Z }.

(** [Exclusion]. *)
Module Exclusion.
Inductive t : Type :=
| Excluded | NotReady | Cordoned | WireSkew | Stale | PoolFull
| Cap (name : string)
| DigestNotReady.

Definition label (e : t) : string :=
  match e with
  | Excluded => "excluded"
  | NotReady => "not_ready"
  | Cordoned => "cordoned"
  | WireSkew => "wire_skew"
  | Stale => "stale"
  | PoolFull => "pool_full"
  | Cap name => "cap:" +:+ name
  | DigestNotReady => "digest_not_ready"
  end.
End Exclusion.

Definition WIRE_VERSION : Z := 38.
Definition MIB : Z := 1024 * 1024.
Definition HOST_DISK_CACHE_FLOOR_BYTES : Z := 20 * 1024 * 1024 * 1024.
Definition HOST_POOL_DATA_FLOOR_BYTES : Z := 16 * 1024 * 1024 * 1024.
Definition HOST_POOL_METADATA_FLOOR_MIB : Z := 64 * 1024 * 1024 / MIB.

(** The age of an instant: [now.signed_duration_since(t).to_std()], an error
    when it is negative. *)
Definition age_of (now t : DateTime) : option Duration :=
  if decide (0 ≤ now - t)%Z then Some (now - t)%Z else None.

Section rank.
(** The JSON of the capabilities and of a bundle reference is decoded by
    derived code; the two floors and the overcommit factor come from the
    environment of the process ([None]: unset). *)
Context (caps_of : json → HostCapabilities.t) (sha256_of : json → string).
Context (disk_floor_env pool_floor_env : option Z) (env : option Q).

Definition host_disk_cache_floor_mib : Z :=
  (default HOST_DISK_CACHE_FLOOR_BYTES disk_floor_env / MIB)%Z.
Definition host_pool_data_floor_mib : Z :=
  (default HOST_POOL_DATA_FLOOR_BYTES pool_floor_env / MIB)%Z.

(** ** Vetoes *)

Definition substrate_ok (c : CapStatus.t) : bool :=
  match c with CapStatus.Ok_ _ | CapStatus.NotApplicable => true | _ => false end.

Definition host_meets_capabilities (h : HostRecord.t) (req : CapabilityRequirements) :
    result unit string :=
  let caps := caps_of (HostRecord.capabilities h) in
  if bool_decide (HostCapabilities.schema caps = 0%Z) then Ok tt
  else if negb (CapStatus.is_ok (HostCapabilities.grpc_self_connect caps)) then
    Err "grpc_self_connect"%string
  else if negb (CapStatus.is_ok (HostCapabilities.bundle_stamp caps)) then Err "bundle_stamp"%string
  else if needs_uffd_substrate req && negb (substrate_ok (HostCapabilities.base_shm_tmpfs caps)) then
    Err "base_shm_tmpfs"%string
  else if needs_uffd_substrate req && negb (substrate_ok (HostCapabilities.uffd_minor_shmem caps)) then
    Err "uffd_minor_shmem"%string
  else if needs_uffd_substrate req && negb (substrate_ok (HostCapabilities.session_disk caps)) then
    Err "session_disk"%string
  else if needs_live_substrate req && negb (bool_decide (HostCapabilities.backend caps = "firecracker")%string)
  then Err "backend"%string
  else if needs_live_substrate req && negb (CapStatus.is_ok (HostCapabilities.base_shm_tmpfs caps)) then
    Err "live:base_shm_tmpfs"%string
  else if needs_live_substrate req && negb (CapStatus.is_ok (HostCapabilities.uffd_minor_shmem caps)) then
    Err "live:uffd_minor_shmem"%string
  else if needs_live_substrate req && negb (CapStatus.is_ok (HostCapabilities.session_disk caps)) then
    Err "live:session_disk"%string
  else match req_fc_snapshot_version req, HostCapabilities.fc_snapshot_version caps with
       | Some want, Some have =>
           if bool_decide (want = have) then Ok tt else Err "fc_snapshot_version"%string
       | _, _ => Ok tt
       end.

Definition host_wire_version_ok (h : HostRecord.t) : bool :=
  bool_decide (HostRecord.wire_version h = 0%Z)
  || bool_decide (HostRecord.wire_version h = WIRE_VERSION).

Definition fleet_veto (h : HostRecord.t) (now : DateTime) (ttl : Duration) : option Exclusion.t :=
  if negb (bool_decide (HostRecord.status h = HostStatus.Ready)) then Some Exclusion.NotReady
  else if HostRecord.cordoned h then Some Exclusion.Cordoned
  else if negb (host_wire_version_ok h) then Some Exclusion.WireSkew
  else match age_of now (HostRecord.last_heartbeat_at h) with
       | Some age => if decide (ttl < age)%Z then Some Exclusion.Stale else None
       | None => None
       end.

Definition host_is_schedulable (h : HostRecord.t) (now : DateTime) (ttl : Duration) : bool :=
  bool_decide (fleet_veto h now ttl = None).

Definition host_pool_floor_ok (h : HostRecord.t) : bool :=
  let u := HostRecord.utilization h in
  bool_decide (pool_data_total_mib u = 0%Z)
  || bool_decide (host_pool_data_floor_mib ≤ pool_data_free_mib u)%Z
     && bool_decide (HOST_POOL_METADATA_FLOOR_MIB ≤ pool_metadata_free_mib u)%Z.

Definition pool_fits (h : HostRecord.t) (pool_mib : Z) : bool :=
  let u := HostRecord.utilization h in
  bool_decide (pool_data_total_mib u = 0%Z)
  || bool_decide (host_pool_data_floor_mib + pool_mib ≤ pool_data_free_mib u)%Z.

Definition host_disk_floor_ok (h : HostRecord.t) : bool :=
  let u := HostRecord.utilization h in
  bool_decide (disk_total_mib u = 0%Z)
  || bool_decide (host_disk_cache_floor_mib ≤ saturating_sub (disk_total_mib u) (disk_used_mib u))%Z.

Definition new_session_veto (h : HostRecord.t) (now : DateTime) (ttl : Duration) :
    option Exclusion.t :=
  match fleet_veto h now ttl with
  | Some v => Some v
  | None => if negb (host_pool_floor_ok h) then Some Exclusion.PoolFull else None
  end.

Definition host_can_serve_chunks (h : HostRecord.t) (now : DateTime) (ttl : Duration) :
    option string :=
  let fresh := match age_of now (HostRecord.last_heartbeat_at h) with
               | Some age => bool_decide (age ≤ ttl)%Z | None => true end in
  if bool_decide (HostRecord.status h = HostStatus.Ready) && fresh && host_wire_version_ok h
  then HostRecord.host_addr h else None.

Definition exclusion_reason (h : HostRecord.t) (ctx : ScheduleContext) (now : DateTime)
    (ttl : Duration) : option Exclusion.t :=
  if bool_decide (Some (HostRecord.id h) = exclude_host ctx) then Some Exclusion.Excluded
  else match new_session_veto h now ttl with
       | Some veto => Some veto
       | None =>
           match host_meets_capabilities h (caps ctx) with
           | Err cap => Some (Exclusion.Cap cap)
           | Ok _ =>
               let staged := match required_image_digest ctx with
                             | None => true
                             | Some d => bool_decide (d ∈ HostRecord.ready_images h) end in
               if negb staged then Some Exclusion.DigestNotReady else None
           end
       end.

Definition exclusion_summary (hosts : list HostRecord.t) (ctx : ScheduleContext) (now : DateTime)
    (ttl : Duration) : list (HostId * string) :=
  (fun h => (HostRecord.id h,
             match exclusion_reason h ctx now ttl with
             | None => "no_fit"%string | Some r => Exclusion.label r end)) <$> hosts.

(** ** Ranking and picking *)

Definition host_covers_bundles (h : HostRecord.t) (prefer : list json) : bool :=
  forallb (fun p => existsb (fun b => bool_decide (sha256_of b = sha256_of p))
                      (HostRecord.current_bundles h)) prefer.

(** One turn of the loop of [rank_hosts]: the two vectors. *)
Definition rank_step (ctx : ScheduleContext) (now : DateTime) (ttl : Duration)
    (acc : list HostId * list HostId) (h : HostRecord.t) : list HostId * list HostId :=
  let '(ranked, uncovered) := acc in
  match exclusion_reason h ctx now ttl with
  | Some _ => acc
  | None => if host_covers_bundles h (prefer_bundles ctx)
            then (ranked ++ [HostRecord.id h], uncovered)
            else (ranked, uncovered ++ [HostRecord.id h])
  end.

Definition rank_hosts (hosts : list HostRecord.t) (ctx : ScheduleContext) (now : DateTime)
    (ttl : Duration) : RankedCandidates.t :=
  let '(ranked, uncovered) := fold_left (rank_step ctx now ttl) hosts ([], []) in
  RankedCandidates.Mk (ranked ++ uncovered) 0.

Definition find_host (hosts : list HostRecord.t) (id : HostId) : option HostRecord.t :=
  List.find (fun h => bool_decide (HostRecord.id h = id)) hosts.

Definition free_mib_of (hosts : list HostRecord.t) (reserved : gmap HostId ReservedBudget)
    (id : HostId) : option Z :=
  h ← find_host hosts id;
  let alloc := as_i64 (allocatable_mib (HostRecord.utilization h)) in
  if decide (alloc ≤ 0)%Z then None
  else Some (alloc - from_option mem_mib 0%Z (reserved !! id))%Z.

Definition cpu_fits (hosts : list HostRecord.t) (reserved : gmap HostId ReservedBudget)
    (need_vcpus : Z) (id : HostId) : bool :=
  match find_host hosts id with
  | None => false
  | Some h =>
      let budget := host_cpu_budget env (HostRecord.total_vcpus h) in
      if decide (budget ≤ 0)%Z then true
      else bool_decide (need_vcpus ≤ budget - from_option vcpus 0%Z (reserved !! id))%Z
  end.

Definition need_mib (ctx : ScheduleContext) : Z := default 0%Z (memory_mib ctx).
Definition need_vcpus (ctx : ScheduleContext) : Z := default 0%Z (cpu_budget_vcpus ctx).

Definition named_host_fit_veto (h : HostRecord.t) (ctx : ScheduleContext)
    (free_mib : HostId → option Z) (cpu : HostId → bool) : option string :=
  if negb (host_disk_floor_ok h) then Some "disk_full"%string
  else if match free_mib (HostRecord.id h) with
          | Some free => bool_decide (free < need_mib ctx)%Z | None => false end
  then Some "ram_full"%string
  else if negb (cpu (HostRecord.id h)) then Some "cpu_full"%string
  else None.

Definition snapshot_host_veto (sh : HostId) (hosts : list HostRecord.t) (ctx : ScheduleContext)
    (now : DateTime) (ttl : Duration) (free_mib : HostId → option Z) (cpu : HostId → bool) :
    option string :=
  match find_host hosts sh with
  | None => Some "dead"%string
  | Some h =>
      match exclusion_reason h ctx now ttl with
      | Some Exclusion.NotReady | Some Exclusion.Stale => Some "dead"%string
      | Some r => Some (Exclusion.label r)
      | None => named_host_fit_veto h ctx free_mib cpu
      end
  end.

(** The best-fit loop: the smallest free memory seen so far. *)
Definition best_fit_step (free_mib : HostId → option Z) (cpu : HostId → bool) (need : Z)
    (best : option (Z * HostId)) (id : HostId) : option (Z * HostId) :=
  match free_mib id with
  | None => best
  | Some free =>
      if bool_decide (free < need)%Z || negb (cpu id) then best
      else match best with
           | Some (bf, b) => if decide (bf ≤ free)%Z then best else Some (free, id)
           | None => Some (free, id)
           end
  end.

(** Tiers 3 and 4. *)
Definition soft_pick (free_mib : HostId → option Z) (cpu : HostId → bool) (need : Z)
    (ranked : list HostId) (first : HostId) : HostId :=
  match fold_left (best_fit_step free_mib cpu need) ranked None with
  | Some (_, id) => id
  | None => first
  end.

Definition pick_from (hosts : list HostRecord.t) (reserved : gmap HostId ReservedBudget)
    (ctx : ScheduleContext) (now : DateTime) (ttl : Duration) : result HostId PickError.t :=
  let ranked := RankedCandidates.hosts (rank_hosts hosts ctx now ttl) in
  match ranked with
  | [] => match required_image_digest ctx with
          | Some d => Err (PickError.ImageNotReady d)
          | None => Err PickError.NoCapacity
          end
  | first :: _ =>
      let free_mib := free_mib_of hosts reserved in
      let cpu := cpu_fits hosts reserved (need_vcpus ctx) in
      match (sh ← snapshot_host ctx;
             match snapshot_host_veto sh hosts ctx now ttl free_mib cpu with
             | None => Some sh | Some _ => None end) with
      | Some sh => Ok sh
      | None =>
          match (want ← prefer_host ctx;
                 if bool_decide (want ∈ ranked) then
                   h ← find_host hosts want;
                   match named_host_fit_veto h ctx free_mib cpu with
                   | None => Some want | Some _ => None end
                 else None) with
          | Some want => Ok want
          | None => Ok (soft_pick free_mib cpu (need_mib ctx) ranked first)
          end
      end
  end.

Definition placement_preview (hosts : list HostRecord.t) (reserved : gmap HostId ReservedBudget)
    (ctx : ScheduleContext) (mem cpu : Z) (now : DateTime) (ttl : Duration) : bool :=
  existsb (fun id =>
    match find_host hosts id with
    | None => false
    | Some h =>
        let alloc := as_i64 (allocatable_mib (HostRecord.utilization h)) in
        if decide (alloc ≤ 0)%Z then true
        else
          let free := (alloc - from_option mem_mib 0%Z (reserved !! id))%Z in
          if decide (free < mem)%Z then false
          else
            let budget := host_cpu_budget env (HostRecord.total_vcpus h) in
            if decide (0 < budget)%Z then
              bool_decide (cpu ≤ budget - from_option vcpus 0%Z (reserved !! id))%Z
            else true
    end) (RankedCandidates.hosts (rank_hosts hosts ctx now ttl)).

(** ** Captures and the capacity counts *)

Definition free_disk_mib (h : HostRecord.t) : option Z :=
  let u := HostRecord.utilization h in
  if bool_decide (disk_total_mib u = 0%Z) then None
  else Some (saturating_sub (disk_total_mib u) (disk_used_mib u)).

(** One turn of the filter: [None] is [continue]. *)
Definition capture_survivor (live : gset HostId) (need : CaptureFootprint.t)
    (req : CapabilityRequirements) (now : DateTime) (ttl : Duration) (h : HostRecord.t) :
    option (Z * HostId) :=
  if bool_decide (is_Some (new_session_veto h now ttl)) then None
  else if negb (is_ok (host_meets_capabilities h req)) then None
  else if negb (host_disk_floor_ok h) then None
  else if bool_decide (HostRecord.id h ∈ live) then None
  else
    let free := free_disk_mib h in
    if match free with
       | Some f => bool_decide (f < CaptureFootprint.disk_mib need)%Z | None => false end then None
    else if negb (pool_fits h (CaptureFootprint.pool_mib need)) then None
    else Some (default 0%Z free, HostRecord.id h).

Definition capture_candidate_hosts_from (hosts : list HostRecord.t) (live : gset HostId)
    (need : CaptureFootprint.t) (required_fc_version : option string) (now : DateTime)
    (ttl : Duration) : list HostId :=
  let req := MkReq false false required_fc_version in
  snd <$> sort_by (fun a b : Z * HostId => bool_decide (b.1 ≤ a.1)%Z)
            (omap (capture_survivor live need req now ttl) hosts).

Definition capture_host_eligible (h : HostRecord.t) (now : DateTime) (ttl : Duration) : bool :=
  bool_decide (new_session_veto h now ttl = None)
  && is_ok (host_meets_capabilities h CapabilityRequirements_default)
  && host_disk_floor_ok h.

Definition fleet_capability_req : CapabilityRequirements := MkReq true false None.

Definition host_counts_as_capacity (h : HostRecord.t) (now : DateTime) (ttl : Duration) : bool :=
  bool_decide (new_session_veto h now ttl = None)
  && is_ok (host_meets_capabilities h fleet_capability_req).

(** One turn of the loop of [fleet_snapshot]. *)
Definition fleet_step (reserved : gmap HostId ReservedBudget) (now : DateTime) (ttl : Duration)
    (m : FleetSnapshot.t) (h : HostRecord.t) : FleetSnapshot.t :=
  let fresh := match age_of now (HostRecord.last_heartbeat_at h) with
               | Some age => bool_decide (age ≤ ttl)%Z | None => true end in
  if negb fresh then m
  else
    let m := m <| FleetSnapshot.ready_hosts ::= Z.succ |> in
    let m := if HostRecord.cordoned h then m <| FleetSnapshot.cordoned_hosts ::= Z.succ |> else m in
    if host_counts_as_capacity h now ttl then
      let budget := host_cpu_budget env (HostRecord.total_vcpus h) in
      let r := default (MkReserved 0 0) (reserved !! HostRecord.id h) in
      let alloc := allocatable_mib (HostRecord.utilization h) in
      m <| FleetSnapshot.schedulable_hosts ::= Z.succ |>
        <| FleetSnapshot.total_mib ::= fun x => (x + alloc)%Z |>
        <| FleetSnapshot.total_vcpus ::= fun x => (x + budget)%Z |>
        <| FleetSnapshot.free_vcpus ::= fun x => (x + Z.max 0 (budget - vcpus r))%Z |>
        <| FleetSnapshot.free_mib ::= fun x => (x + Z.max 0 (as_i64 alloc - mem_mib r))%Z |>
    else m.

Definition fleet_snapshot (hosts : list HostRecord.t) (reserved : gmap HostId ReservedBudget)
    (now : DateTime) (ttl : Duration) : FleetSnapshot.t :=
  fold_left (fleet_step reserved now ttl) hosts FleetSnapshot.default.

(** ** Lemmas *)

Notation admissible ctx now ttl h := (exclusion_reason h ctx now ttl = None) (only parsing).

(** The hosts of a tier, in row order. *)
Definition tier (ctx : ScheduleContext) (now : DateTime) (ttl : Duration) (covered : bool)
    (hosts : list HostRecord.t) : list HostId :=
  HostRecord.id <$> List.filter (fun h => bool_decide (exclusion_reason h ctx now ttl = None)
    && Bool.eqb (host_covers_bundles h (prefer_bundles ctx)) covered) hosts.

Lemma rank_fold ctx now ttl hosts a b :
  fold_left (rank_step ctx now ttl) hosts (a, b) =
  (a ++ tier ctx now ttl true hosts, b ++ tier ctx now ttl false hosts).
Proof.
  revert a b. induction hosts as [|h hosts IH]; intros a b; cbn; [by rewrite !app_nil_r|].
  unfold tier in *. cbn. destruct (exclusion_reason h ctx now ttl); cbn; [apply IH|].
  destruct (host_covers_bundles h _); cbn; rewrite IH, <- app_assoc; done.
Qed.

Lemma ranked_tiers hosts ctx now ttl :
  RankedCandidates.hosts (rank_hosts hosts ctx now ttl) =
  tier ctx now ttl true hosts ++ tier ctx now ttl false hosts.
Proof. unfold rank_hosts. by rewrite rank_fold. Qed.

Lemma elem_of_tier id ctx now ttl c hosts :
  id ∈ tier ctx now ttl c hosts ↔
  ∃ h, h ∈ hosts ∧ HostRecord.id h = id ∧ admissible ctx now ttl h ∧
       host_covers_bundles h (prefer_bundles ctx) = c.
Proof.
  unfold tier. rewrite list_elem_of_fmap. setoid_rewrite elem_of_filterb.
  setoid_rewrite andb_true_iff. setoid_rewrite bool_decide_eq_true. setoid_rewrite Bool.eqb_true_iff.
  naive_solver.
Qed.

Lemma elem_of_ranked id hosts ctx now ttl :
  id ∈ RankedCandidates.hosts (rank_hosts hosts ctx now ttl) ↔
  ∃ h, h ∈ hosts ∧ HostRecord.id h = id ∧ admissible ctx now ttl h.
Proof.
  rewrite ranked_tiers, elem_of_app, !elem_of_tier. split; [naive_solver|].
  intros (h&?&?&?). destruct (host_covers_bundles h (prefer_bundles ctx)) eqn:E; eauto 10.
Qed.

Lemma ranked_length hosts ctx now ttl :
  length (RankedCandidates.hosts (rank_hosts hosts ctx now ttl)) =
  length (List.filter (fun h => bool_decide (exclusion_reason h ctx now ttl = None)) hosts).
Proof.
  rewrite ranked_tiers, length_app. unfold tier. rewrite !length_fmap.
  induction hosts as [|h hosts IH]; cbn; [done|].
  destruct (bool_decide _), (host_covers_bundles h _); cbn; lia.
Qed.

Lemma find_host_id hosts id h : find_host hosts id = Some h → h ∈ hosts ∧ HostRecord.id h = id.
Proof.
  unfold find_host. intros Hf. apply find_some in Hf as [Hin Hid]. bool_prop.
  by rewrite list_elem_of_In.
Qed.

(** With distinct ids a host is found by its id. *)
Lemma find_host_in hosts h :
  NoDup (HostRecord.id <$> hosts) → h ∈ hosts → find_host hosts (HostRecord.id h) = Some h.
Proof.
  unfold find_host. induction hosts as [|x hosts IH]; [set_solver|]. cbn.
  rewrite NoDup_cons, elem_of_cons. intros [Hx Hnd] [->|Hin].
  - by rewrite bool_decide_eq_true_2.
  - rewrite bool_decide_eq_false_2; [by apply IH|]. intros E. apply Hx. rewrite E.
    by apply list_elem_of_fmap_2.
Qed.

(** Measured room for the session. *)
Definition measured_fit (free_mib : HostId → option Z) (cpu : HostId → bool) (need : Z)
    (id : HostId) (free : Z) : Prop :=
  free_mib id = Some free ∧ (need ≤ free)%Z ∧ cpu id = true.

Lemma best_fit_spec free_mib cpu need ranked :
  match fold_left (best_fit_step free_mib cpu need) ranked None with
  | Some (f, id) => id ∈ ranked ∧ measured_fit free_mib cpu need id f ∧
      ∀ id' f', id' ∈ ranked → measured_fit free_mib cpu need id' f' → (f ≤ f')%Z
  | None => ∀ id' f', id' ∈ ranked → ¬ measured_fit free_mib cpu need id' f'
  end.
Proof.
  induction ranked as [|id ranked IH] using rev_ind; [set_solver|].
  rewrite fold_left_app. cbn [fold_left]. set (best := fold_left _ ranked None) in *. clearbody best.
  assert (Hsn : ∀ x, x ∈ ranked ++ [id] ↔ x ∈ ranked ∨ x = id)
    by (intros x; by rewrite elem_of_app, list_elem_of_singleton).
  assert (Hskip : (∀ f, ¬ measured_fit free_mib cpu need id f) →
    best_fit_step free_mib cpu need best id = best).
  { unfold measured_fit, best_fit_step. intros Hno. destruct (free_mib id) as [free|]; [|done].
    case_bool_decide; [done|]. destruct (cpu id); [|done]. destruct (Hno free). split_and!; [done|lia|done]. }
  destruct (free_mib id) as [free|] eqn:E; last first.
  { rewrite Hskip by (intros f (?&_); congruence). unfold measured_fit in *.
    destruct best as [[f i]|]; setoid_rewrite Hsn; naive_solver. }
  destruct (decide (need ≤ free ∧ cpu id = true)%Z) as [[Hn Hc]|Hno]; last first.
  { rewrite Hskip by (intros f (?&?&?); simplify_eq; naive_solver). unfold measured_fit in *.
    destruct best as [[f i]|]; setoid_rewrite Hsn; naive_solver. }
  unfold best_fit_step. rewrite E, bool_decide_eq_false_2, Hc by lia. cbn. unfold measured_fit in *.
  destruct best as [[f i]|]; [case_decide|]; setoid_rewrite Hsn.
  - destruct IH as (?&?&Hmin). split; [auto|]. split; [done|].
    intros id' f' [?| ->] (?&?&?); [by eapply Hmin|by simplify_eq].
  - destruct IH as (?&?&Hmin). split; [auto|]. split; [done|].
    intros id' f' [Hr| ->] Hf'; [|destruct Hf' as (?&_); by simplify_eq].
    pose proof (Hmin id' f' Hr Hf'). lia.
  - split; [auto|]. split; [done|]. intros id' f' [?| ->] (?&?&?); [naive_solver|by simplify_eq].
Qed.

(** What a host named by the caller must pass beyond the ranking. *)
Definition named_ok (hosts : list HostRecord.t) (reserved : gmap HostId ReservedBudget)
    (ctx : ScheduleContext) (h : HostRecord.t) : Prop :=
  host_disk_floor_ok h = true ∧
  (∀ free, free_mib_of hosts reserved (HostRecord.id h) = Some free → (need_mib ctx ≤ free)%Z) ∧
  cpu_fits hosts reserved (need_vcpus ctx) (HostRecord.id h) = true.

Lemma named_veto_none hosts reserved ctx h :
  named_host_fit_veto h ctx (free_mib_of hosts reserved) (cpu_fits hosts reserved (need_vcpus ctx))
    = None ↔ named_ok hosts reserved ctx h.
Proof.
  unfold named_host_fit_veto, named_ok.
  destruct (host_disk_floor_ok h); cbn; [|naive_solver].
  destruct (free_mib_of _ _ _) as [free|] eqn:E; cbn.
  - case_bool_decide; cbn; [split; [done|]; intros (_&Hf&_); specialize (Hf free eq_refl); lia|].
    destruct (cpu_fits _ _ _ _); cbn; [|naive_solver].
    split; [|done]. intros _. split_and!; [done| |done]. intros ? [= <-]. lia.
  - destruct (cpu_fits _ _ _ _); cbn; naive_solver.
Qed.

(** The host the caller names is usable. *)
Definition usable (hosts : list HostRecord.t) (reserved : gmap HostId ReservedBudget)
    (ctx : ScheduleContext) (now : DateTime) (ttl : Duration) (named : option HostId)
    (id : HostId) : Prop :=
  named = Some id ∧ ∃ h, h ∈ hosts ∧ HostRecord.id h = id ∧ admissible ctx now ttl h ∧
    named_ok hosts reserved ctx h.

(** The tier-0 test passes exactly for a usable snapshot host. *)
Lemma snapshot_tier hosts reserved ctx now ttl sh :
  NoDup (HostRecord.id <$> hosts) →
  (sh0 ← snapshot_host ctx;
   match snapshot_host_veto sh0 hosts ctx now ttl (free_mib_of hosts reserved)
           (cpu_fits hosts reserved (need_vcpus ctx)) with
   | None => Some sh0 | Some _ => None end) = Some sh ↔
  usable hosts reserved ctx now ttl (snapshot_host ctx) sh.
Proof.
  intros Hnd. unfold usable. destruct (snapshot_host ctx) as [sh0|]; cbn; [|naive_solver].
  unfold snapshot_host_veto. split.
  - destruct (find_host hosts sh0) as [h|] eqn:E; [|done]. apply find_host_id in E as [Hin Hid].
    destruct (exclusion_reason h ctx now ttl) as [[]|] eqn:Ex; try done.
    destruct (named_host_fit_veto _ _ _ _) eqn:Ev; [done|]. intros [= <-].
    apply named_veto_none in Ev. eauto 10.
  - intros ([= ->]&h&Hin& <- &Ha&Hn). rewrite (find_host_in _ _ Hnd Hin), Ha.
    apply named_veto_none in Hn. by rewrite Hn.
Qed.

Lemma prefer_tier hosts reserved ctx now ttl want :
  NoDup (HostRecord.id <$> hosts) →
  (w ← prefer_host ctx;
   if bool_decide (w ∈ RankedCandidates.hosts (rank_hosts hosts ctx now ttl)) then
     h ← find_host hosts w;
     match named_host_fit_veto h ctx (free_mib_of hosts reserved)
             (cpu_fits hosts reserved (need_vcpus ctx)) with
     | None => Some w | Some _ => None end
   else None) = Some want ↔
  usable hosts reserved ctx now ttl (prefer_host ctx) want.
Proof.
  intros Hnd. unfold usable. destruct (prefer_host ctx) as [w|]; cbn; [|naive_solver].
  case_bool_decide as Hr; rewrite elem_of_ranked in Hr.
  - destruct Hr as (h&Hin& <- &Ha). rewrite (find_host_in _ _ Hnd Hin). cbn.
    destruct (named_host_fit_veto _ _ _ _) eqn:Ev.
    + split; [done|]. intros ([= <-]&h'&Hin'&Hid&_&Hn). apply named_veto_none in Hn.
      pose proof (find_host_in _ _ Hnd Hin') as Hf. rewrite Hid, (find_host_in _ _ Hnd Hin) in Hf. naive_solver.
    + apply named_veto_none in Ev. split; [intros [= <-]; eauto 10|naive_solver].
  - split; [done|]. intros ([= <-]&h&?&?&?&_). destruct Hr. eauto.
Qed.

(** C11. The pick of the resume path.  It fails exactly when no host is admissible,
    naming the missing image if one was required.  Otherwise the host is
    admissible: ready, uncordoned, fresh, of a compatible wire version, with
    pool space, with every capability asked for and the image staged, and not
    the excluded one.  It is the snapshot's host if that one is usable (disk,
    memory and vcpus fit), else the preferred host if that one is, else the
    tightest measured fit, and only if no measured host fits the first of the
    ranking. *)
Theorem pick_places_right hosts reserved ctx now ttl :
  NoDup (HostRecord.id <$> hosts) →
  match pick_from hosts reserved ctx now ttl with
  | Err e =>
      (∀ h, h ∈ hosts → exclusion_reason h ctx now ttl ≠ None) ∧
      e = match required_image_digest ctx with
          | Some d => PickError.ImageNotReady d | None => PickError.NoCapacity end
  | Ok id =>
      (∃ h, h ∈ hosts ∧ HostRecord.id h = id ∧ admissible ctx now ttl h) ∧
      (∀ sh, usable hosts reserved ctx now ttl (snapshot_host ctx) sh → id = sh) ∧
      ((∀ sh, ¬ usable hosts reserved ctx now ttl (snapshot_host ctx) sh) →
       (∀ w, usable hosts reserved ctx now ttl (prefer_host ctx) w → id = w) ∧
       ((∀ w, ¬ usable hosts reserved ctx now ttl (prefer_host ctx) w) →
        let fit := measured_fit (free_mib_of hosts reserved)
                     (cpu_fits hosts reserved (need_vcpus ctx)) (need_mib ctx) in
        let ranked := RankedCandidates.hosts (rank_hosts hosts ctx now ttl) in
        (∃ f, fit id f ∧ ∀ id' f', id' ∈ ranked → fit id' f' → (f ≤ f')%Z) ∨
        (∀ id' f', id' ∈ ranked → ¬ fit id' f') ∧ head ranked = Some id))
  end.
Proof.
  intros Hnd. unfold pick_from.
  pose proof (elem_of_ranked) as Hin. specialize (Hin).
  destruct (RankedCandidates.hosts (rank_hosts hosts ctx now ttl)) as [|first rest] eqn:Er.
  { assert (H : ∀ h, h ∈ hosts → exclusion_reason h ctx now ttl ≠ None).
    { intros h Hh Ha. assert (Hx : HostRecord.id h ∈ RankedCandidates.hosts (rank_hosts hosts ctx now ttl))
        by (apply elem_of_ranked; eauto). by rewrite Er in Hx; apply elem_of_nil in Hx. }
    by destruct (required_image_digest ctx). }
  pose proof (snapshot_tier hosts reserved ctx now ttl) as Hs.
  destruct (sh0 ← snapshot_host ctx; _) as [sh|].
  { specialize (Hs sh Hnd). destruct Hs as [Hs _]. specialize (Hs eq_refl).
    pose proof Hs as (E&h&?&?&?&_). split; [eauto|]. split; [|naive_solver].
    intros sh' (E'&_). congruence. }
  assert (Hns : ∀ sh, ¬ usable hosts reserved ctx now ttl (snapshot_host ctx) sh).
  { intros sh Hu. by apply Hs in Hu. }
  pose proof (prefer_tier hosts reserved ctx now ttl) as Hp. rewrite Er in Hp.
  destruct (w ← prefer_host ctx; _) as [w|].
  { specialize (Hp w Hnd). destruct Hp as [Hp _]. specialize (Hp eq_refl).
    pose proof Hp as (E&h&?&?&?&_). split; [eauto|]. split; [intros ? ?; by destruct (Hns sh)|].
    intros _. split; [intros w' (E'&_); congruence|naive_solver]. }
  assert (Hnp : ∀ w, ¬ usable hosts reserved ctx now ttl (prefer_host ctx) w).
  { intros w Hu. by apply Hp in Hu. }
  pose proof (best_fit_spec (free_mib_of hosts reserved) (cpu_fits hosts reserved (need_vcpus ctx))
                (need_mib ctx) (first :: rest)) as Hb. unfold soft_pick.
  destruct (fold_left _ (first :: rest) None) as [[f id]|].
  - destruct Hb as (Hi&Hf&Hmin). split; [rewrite <- elem_of_ranked, Er; done|].
    split; [intros sh ?; by destruct (Hns sh)|]. intros _. split; [intros w ?; by destruct (Hnp w)|].
    intros _. left. eauto.
  - split; [rewrite <- elem_of_ranked, Er; set_solver|].
    split; [intros sh ?; by destruct (Hns sh)|]. intros _. split; [intros w ?; by destruct (Hnp w)|].
    intros _. by right.
Qed.

(** *** The capacity counts *)

(** A context with the posture the counts assume. *)
Definition fleet_context (ctx : ScheduleContext) : Prop :=
  exclude_host ctx = None ∧ required_image_digest ctx = None ∧ caps ctx = fleet_capability_req.

Lemma counts_admissible ctx now ttl h :
  fleet_context ctx →
  host_counts_as_capacity h now ttl = bool_decide (exclusion_reason h ctx now ttl = None).
Proof.
  intros (Hx&Hd&Hc). unfold host_counts_as_capacity, exclusion_reason.
  rewrite Hx, Hd, Hc, (bool_decide_eq_false_2 (Some _ = None)) by done.
  destruct (new_session_veto h now ttl); [done|].
  by destruct (host_meets_capabilities h fleet_capability_req).
Qed.

Lemma counts_fresh now ttl h :
  host_counts_as_capacity h now ttl = true →
  match age_of now (HostRecord.last_heartbeat_at h) with
  | Some age => bool_decide (age ≤ ttl)%Z | None => true end = true.
Proof.
  unfold host_counts_as_capacity, new_session_veto, fleet_veto. intros H. bool_prop.
  repeat case_match; try done; simplify_eq. apply bool_decide_eq_true. lia.
Qed.

Definition sum_over {A} (f : A → Z) (l : list A) : Z := foldr (fun x acc => f x + acc)%Z 0%Z l.
#[local] Arguments sum_over : simpl never.
#[local] Arguments host_cpu_budget : simpl never.

Lemma sum_over_cons {A} (f : A → Z) x l : sum_over f (x :: l) = (f x + sum_over f l)%Z.
Proof. done. Qed.

Lemma sum_over_nil {A} (f : A → Z) : sum_over f [] = 0%Z.
Proof. done. Qed.

(** Everything the loop adds up, from any start. *)
Lemma fleet_fold reserved now ttl hosts m :
  let counted := List.filter (fun h => host_counts_as_capacity h now ttl) hosts in
  let m' := fold_left (fleet_step reserved now ttl) hosts m in
  let r h := default (MkReserved 0 0) (reserved !! HostRecord.id h) in
  let cpu h := host_cpu_budget env (HostRecord.total_vcpus h) in
  let mem h := allocatable_mib (HostRecord.utilization h) in
  (FleetSnapshot.schedulable_hosts m' = FleetSnapshot.schedulable_hosts m + Z.of_nat (length counted))%Z ∧
  (FleetSnapshot.free_mib m' = FleetSnapshot.free_mib m +
     sum_over (fun h => Z.max 0 (as_i64 (mem h) - mem_mib (r h))) counted)%Z ∧
  (FleetSnapshot.free_vcpus m' = FleetSnapshot.free_vcpus m +
     sum_over (fun h => Z.max 0 (cpu h - vcpus (r h))) counted)%Z ∧
  (FleetSnapshot.total_mib m' = FleetSnapshot.total_mib m + sum_over mem counted)%Z ∧
  (FleetSnapshot.total_vcpus m' = FleetSnapshot.total_vcpus m + sum_over cpu counted)%Z ∧
  (FleetSnapshot.ready_hosts m + Z.of_nat (length counted) ≤ FleetSnapshot.ready_hosts m')%Z.
Proof.
  revert m. induction hosts as [|h hosts IH]; intros m; cbn; [rewrite !sum_over_nil; lia|].
  specialize (IH (fleet_step reserved now ttl m h)). cbn in IH.
  destruct IH as (IH1&IH2&IH3&IH4&IH5&IH6).
  rewrite IH1, IH2, IH3, IH4, IH5. clear IH1 IH2 IH3 IH4 IH5. revert IH6.
  generalize (fold_left (fleet_step reserved now ttl) hosts (fleet_step reserved now ttl m h)).
  intros m'. unfold fleet_step.
  destruct (host_counts_as_capacity h now ttl) eqn:Ec.
  - rewrite (counts_fresh _ _ _ Ec), !sum_over_cons. cbn. destruct (HostRecord.cordoned h); cbn; lia.
  - destruct (match age_of _ _ with Some _ => _ | None => _ end); cbn; [|lia].
    destruct (HostRecord.cordoned h); cbn; lia.
Qed.

(** The capacity the autoscaler reads is never healthier than what placement
    can use: the hosts counted as schedulable are exactly those the ranking
    returns for a session of the fleet's posture, and the free and total
    memory and vcpus are the sums over those hosts, each at least zero. *)
Theorem fleet_counts_rankable hosts reserved ctx now ttl :
  fleet_context ctx →
  let m := fleet_snapshot hosts reserved now ttl in
  let ranked := List.filter (fun h => bool_decide (exclusion_reason h ctx now ttl = None)) hosts in
  let r h := default (MkReserved 0 0) (reserved !! HostRecord.id h) in
  FleetSnapshot.schedulable_hosts m =
    Z.of_nat (length (RankedCandidates.hosts (rank_hosts hosts ctx now ttl))) ∧
  FleetSnapshot.free_mib m =
    sum_over (fun h => Z.max 0 (as_i64 (allocatable_mib (HostRecord.utilization h)) - mem_mib (r h)))
      ranked ∧
  FleetSnapshot.free_vcpus m =
    sum_over (fun h => Z.max 0 (host_cpu_budget env (HostRecord.total_vcpus h) - vcpus (r h))) ranked ∧
  FleetSnapshot.total_mib m = sum_over (fun h => allocatable_mib (HostRecord.utilization h)) ranked ∧
  (FleetSnapshot.schedulable_hosts m ≤ FleetSnapshot.ready_hosts m)%Z.
Proof.
  intros Hctx m ranked r.
  assert (E : ranked = List.filter (fun h => host_counts_as_capacity h now ttl) hosts).
  { unfold ranked. apply filter_ext. intros h. by rewrite (counts_admissible ctx). }
  destruct (fleet_fold reserved now ttl hosts FleetSnapshot.default) as (H1&H2&H3&H4&H5&H6).
  rewrite <- E in *. subst m. unfold fleet_snapshot. rewrite ranked_length. fold ranked.
  cbn in *. rewrite H1, H2, H3, H4. split_and!; try lia; done.
Qed.

(** *** Captures *)

(** What qualifies a host for a capture. *)
Record capturable (live : gset HostId) (need : CaptureFootprint.t)
    (required_fc_version : option string) (now : DateTime) (ttl : Duration)
    (h : HostRecord.t) : Prop := {
  cap_takes_sessions : new_session_veto h now ttl = None;
  cap_gate : is_ok (host_meets_capabilities h (MkReq false false required_fc_version)) = true;
  cap_floor : host_disk_floor_ok h = true;
  cap_alone : HostRecord.id h ∉ live;
  cap_disk : ∀ free, free_disk_mib h = Some free → (CaptureFootprint.disk_mib need ≤ free)%Z;
  cap_pool : pool_fits h (CaptureFootprint.pool_mib need) = true;
}.

Lemma capture_survivor_spec live need ver now ttl h x :
  capture_survivor live need (MkReq false false ver) now ttl h = Some x ↔
  capturable live need ver now ttl h ∧ x = (default 0%Z (free_disk_mib h), HostRecord.id h).
Proof.
  unfold capture_survivor. split.
  - case_bool_decide as Hv; [done|]. destruct (is_ok _) eqn:Hg; [|done].
    destruct (host_disk_floor_ok h) eqn:Hf; [|done]. case_bool_decide as Hl; [done|]. cbn.
    destruct (match free_disk_mib h with Some _ => _ | None => _ end) eqn:Em; [done|].
    destruct (pool_fits _ _) eqn:Hp; [|done]. intros [= <-]. split; [|done].
    split; try done; [by apply eq_None_not_Some|].
    intros free Hfree. rewrite Hfree in Em. bool_prop. lia.
  - intros [[H1 H2 H3 H4 H5 H6] ->].
    rewrite H1, (bool_decide_eq_false_2 (is_Some None)), H2, H3, (bool_decide_eq_false_2 _ H4) by naive_solver.
    cbn. destruct (free_disk_mib h) as [f|] eqn:E; [|by rewrite H6].
    rewrite bool_decide_eq_false_2, H6; [done|]. specialize (H5 f eq_refl). lia.
Qed.

End rank.

(** ** A small fleet *)

(** Three hosts of eight gigabytes: the second is cordoned, the third has a
    heartbeat of a wire version the coordinator does not speak; the first and
    the fourth are ready, the fourth with less memory left. *)
Definition demo_caps (j : json) : HostCapabilities.t :=
  let ok := CapStatus.Ok_ None in
  HostCapabilities.Mk 1 "firecracker" ok ok ok ok CapStatus.Unknown ok None WIRE_VERSION 1.

Definition demo_sha (j : json) : string := default ""%string (json_as_str j).

Definition rank_host (h : HostId) : HostRecord.t := (demo_host h) <| HostRecord.wire_version := WIRE_VERSION |>.

Definition rank_fleet : list HostRecord.t :=
  [rank_host 1; (rank_host 2) <| HostRecord.cordoned := true |>;
   (rank_host 3) <| HostRecord.wire_version := 37%Z |>; rank_host 4].

Definition rank_reserved : gmap HostId ReservedBudget := {[ 4%N := MkReserved 4096 2 ]}.

Definition rank_ctx : ScheduleContext :=
  MkCtx "img" "" None (Some 2048%Z) (Some 1%Z) None None (Some 2%N) fleet_capability_req [].

(** Host 2 is preferred but cordoned; hosts 1 and 4 fit and 4 is tighter. *)
Lemma pick_places_right_witness :
  pick_from demo_caps demo_sha None None None rank_fleet rank_reserved rank_ctx 2 60 = Ok 4%N ∧
  (∃ h, h ∈ rank_fleet ∧ HostRecord.id h = 4%N ∧
        exclusion_reason demo_caps None h rank_ctx 2 60 = None).
Proof.
  pose proof (pick_places_right demo_caps demo_sha None None None rank_fleet rank_reserved rank_ctx
                2 60 ltac:(apply (bool_decide_unpack _); vm_compute; exact I)) as H.
  assert (E : pick_from demo_caps demo_sha None None None rank_fleet rank_reserved rank_ctx 2 60 = Ok 4%N)
    by (vm_compute; reflexivity).
  split; [exact E|]. rewrite E in H. exact (proj1 H).
Defined.

Lemma fleet_counts_rankable_witness :
  FleetSnapshot.schedulable_hosts (fleet_snapshot demo_caps None None rank_fleet rank_reserved 2 60)
    = 2%Z ∧
  FleetSnapshot.free_mib (fleet_snapshot demo_caps None None rank_fleet rank_reserved 2 60) = 12288%Z.
Proof.
  destruct (fleet_counts_rankable demo_caps demo_sha None None rank_fleet rank_reserved rank_ctx 2 60
              ltac:(split_and!; reflexivity)) as (H1&H2&_).
  split; [rewrite H1|rewrite H2]; vm_compute; reflexivity.
Defined.
