(* ===== verification/Coord.v ===== *)
(** * The coordinator's drivers: errors, data and requests

    The background drivers of [engram-coordinator] run the lifecycle verbs over
    the metadata store and the hosts.  A driver is a program ([Prog]) whose
    requests are the methods of the store, the calls to a host
    ([HostClient]), the clock and the parts of the coordinator that are not
    modelled; the answers are whatever these services give.  This file holds
    what the drivers share: the errors and their texts, the records of the
    snapshot and migration calls, the requests, and the fenced helpers of
    [session_ops.rs]. *)

From S2P Require Import Prelude Session Teleport OpLogSpec MetaTypes MetaOps MetaSession.
From S2P Require Import MetaTeleport MetaHost Text Manifest Prog.

(** [str::contains]. *)
Fixpoint str_contains (n s : string) : bool :=
  String.prefix n s || match s with EmptyString => false | String _ s' => str_contains n s' end.

(** ** Errors *)

(** [MetaError]'s [Display]. *)
Definition meta_to_string (e : MetaError) : string :=
  match e with
  | MetaTypes.NotFound => "row not found"
  | Conflict msg => "metadata conflict: " +:+ msg
  | DbError e => "database error: " +:+ e
  | Migration msg => "migration error: " +:+ msg
  | Serialization msg => "metadata serialization error: " +:+ msg
  end.

(** [SandboxError]; a boxed or structured cause is its text. *)
Module SandboxError.
Inductive t : Type :=
| NotFound
| AlreadyExists
| LimitExceeded (msg : string)
| Vm (e : string)
| InvalidSpec (msg : string)
| Snapshot (msg : string)
| Io (e : string)
| Timeout
| ImageNotReady (digest : string)
| HostLost
| Unavailable (msg : string)
| WireSkew (host coord : N)
| Unsupported (msg : string)
| CaptureFailed (failure : string)
| MaterializeFailed (failure : string)
| HarnessSpawn (kind message : string)
| MemoryImageUnusable (msg : string).

Definition to_string (e : t) : string :=
  match e with
  | NotFound => "sandbox not found"
  | AlreadyExists => "sandbox already exists"
  | LimitExceeded msg => "sandbox limit exceeded: " +:+ msg
  | Vm e => "sandbox vm error: " +:+ e
  | InvalidSpec msg => "invalid sandbox spec: " +:+ msg
  | Snapshot msg => "snapshot error: " +:+ msg
  | Io e => "sandbox io error: " +:+ e
  | Timeout => "sandbox operation timed out"
  | ImageNotReady digest =>
      "image with manifest digest " +:+ digest +:+ " has not been prefetched by any host yet"
  | HostLost => "sandbox host is no longer reachable"
  | Unavailable msg => "sandbox host temporarily unavailable: " +:+ msg
  | WireSkew host coord =>
      "wire_version skew: host=" +:+ dec host +:+ " coord=" +:+ dec coord +:+
      " (mixed-version fleet during a rolling deploy); retry — the scheduler drains stale hosts"
  | Unsupported msg => "host does not implement this RPC: " +:+ msg
  | CaptureFailed failure => failure
  | MaterializeFailed failure => failure
  | HarnessSpawn kind message => "harness_spawn: kind=" +:+ kind +:+ " " +:+ message
  | MemoryImageUnusable msg => "memory_image_unusable: " +:+ msg
  end.

#[global] Instance t_eq_dec : EqDecision t.
Proof. solve_decision. Defined.
End SandboxError.

Definition harness_spawn_kind_is_deterministic (kind : string) : bool :=
  bool_decide (kind = "NotFound" ∨ kind = "PermissionDenied" ∨ kind = "InvalidInput")%string.

(** [ApiError]. *)
Module ApiError.
Inductive t : Type :=
| BadRequest (m : string)
| NotFound (m : string)
| Conflict (m : string)
| Gone (m : string)
| HostLost (m : string)
| Unsupported (m : string)
| Unavailable (m : string)
| Unauthorized (m : string)
| Forbidden (m : string)
| PayloadTooLarge (m : string)
| TooManyRequests (m : string)
| BadGateway (m : string)
| Internal (m : string)
| CaptureFailed (kind message : string)
| MaterializeFailed (kind message : string).

Definition slug (e : t) : string :=
  match e with
  | BadRequest _ => "bad_request"
  | NotFound _ => "not_found"
  | Conflict _ => "conflict"
  | Gone _ => "snapshot_invalidated"
  | HostLost _ => "host_lost"
  | Unsupported _ => "unsupported"
  | Unavailable _ => "unavailable"
  | Unauthorized _ => "unauthorized"
  | Forbidden _ => "forbidden"
  | PayloadTooLarge _ => "payload_too_large"
  | TooManyRequests _ => "too_many_requests"
  | BadGateway _ => "bad_gateway"
  | Internal _ => "internal"
  | CaptureFailed _ _ => "capture_failed"
  | MaterializeFailed _ _ => "materialize_failed"
  end.

Definition message (e : t) : string :=
  match e with
  | BadRequest m | NotFound m | Conflict m | Gone m | HostLost m | Unsupported m | Unavailable m
  | Unauthorized m | Forbidden m | PayloadTooLarge m | TooManyRequests m | BadGateway m
  | Internal m | CaptureFailed _ m | MaterializeFailed _ m => m
  end.

Definition to_string (e : t) : string := slug e +:+ ": " +:+ message e.

(** [From<MetaError>]. *)
Definition of_meta (e : MetaError) : t :=
  match e with
  | MetaTypes.NotFound => NotFound "metadata row not found"
  | MetaTypes.Conflict msg => Conflict msg
  | other => Internal (meta_to_string other)
  end.

(** [From<SandboxError>]. *)
Definition of_sandbox (e : SandboxError.t) : t :=
  match e with
  | SandboxError.NotFound => NotFound "sandbox not found"
  | SandboxError.AlreadyExists => Conflict "sandbox already exists"
  | SandboxError.InvalidSpec msg => BadRequest msg
  | SandboxError.HostLost => HostLost
      "session host is no longer reachable; the sandbox is gone. Resume from a snapshot or fork the session."
  | SandboxError.Unavailable msg =>
      Unavailable ("host temporarily unavailable: " +:+ msg +:+ ". Retry shortly.")
  | SandboxError.WireSkew host coord =>
      Unavailable ("host wire_version " +:+ dec host +:+ " != coordinator " +:+ dec coord +:+
                   " (rolling deploy in progress); retry shortly.")
  | other => Internal (SandboxError.to_string other)
  end.
End ApiError.

(** ** Records of the host calls *)

(** [SessionFence]; [epoch as u64]. *)
Record SessionFence := MkFence { fence_session : SessionId; fence_epoch : Z }.

Definition unfenced : SessionFence := MkFence 0 0.

(** [MigrationSourceInfo]. *)
Module MigrationSourceInfo.
Record t := Mk {
  export_id : string;
  source_addr : string;
  memory_manifest_json : bytes;
  memory_manifest_ref : ManifestRef;
  hot_chunks : list bytes;
  post_copy : bool;
  peer_addr : option string;
  peer_token : option string;
  sidecar_json : bytes;
}.
End MigrationSourceInfo.

(** [SnapshotMetadata]; a bundle reference is its JSON. *)
Module SnapshotMetadata.
Record t := Mk {
  id : SnapshotId;
  size_bytes : Z;
  created_at : DateTime;
  image_version : string;
  disk_manifest : option ManifestRef;
  memory_manifest : option ManifestRef;
  base_memory_manifest : option ManifestRef;
  migration_source : option MigrationSourceInfo.t;
  source_sandbox_id : option SandboxId;
  state_blob_key : option string;
  sidecar_blob_key : option string;
  rootfs_blob_key : option string;
  working_set_blob_key : option string;
  aux_bundles : list json;
  paused_at : option DateTime;
  peer_hints : list string;
  swap_manifest : option ManifestRef;
  base_disk_manifest : option ManifestRef;
}.
End SnapshotMetadata.

(** [SnapshotRecord]. *)
Module SnapshotRecord.
Record t := Mk {
  id : SnapshotId;
  session_id : option SessionId;
  host_id : option HostId;
  image_version : string;
  size_bytes : Z;
  created_at : DateTime;
  last_accessed_at : DateTime;
  disk_manifest : option ManifestRef;
  swap_manifest : option ManifestRef;
  memory_manifest : option ManifestRef;
  recoverable : bool;
  aux_bundles : list json;
  events_cursor : option Z;
  fc_snapshot_version : option string;
}.
End SnapshotRecord.

(** [MigrationPresetupOut]. *)
Module MigrationPresetupOut.
Record t := Mk {
  export_id : string;
  peer_token : string;
  peer_port : N;
  sidecar_json : bytes;
  memory_manifest_json : bytes;
  memory_manifest_ref : ManifestRef;
  disk_manifest_ref : option ManifestRef;
  swap_manifest_ref : option ManifestRef;
  hot_chunks : list bytes;
}.
End MigrationPresetupOut.

(** [PostCopyCaptureOut]. *)
Module PostCopyCaptureOut.
Record t := Mk {
  sealed_chunks : Z;
  total_chunks : Z;
  pause_ms : Z;
  disk_drain_ms : Z;
  vmstate_ms : Z;
  scan_ms : Z;
  sealed_disk_blocks : Z;
  precopy_disk_blocks : Z;
  paused_at_unix_ms : Z;
}.
End PostCopyCaptureOut.

(** [DrainOutcome]. *)
Module DrainOutcome.
Inductive t : Type :=
| Done (pulled alt_sourced zero_chunks ms : Z)
| PeerLost (remaining : Z) (detail : string).
End DrainOutcome.

(** [SandboxProbe]. *)
Record SandboxProbe := MkProbe {
  known_to_backend : bool;
  process_alive : bool;
  control_alive : option bool;
}.

(** [HarnessPlan]; the agent and its policy are only passed on. *)
Module HarnessPlan.
Inductive t : Type := Spawn (agent policy : json) | None_.
End HarnessPlan.

(** [SessionEvent], the kinds the drivers emit, as kind and payload
    ([event.kind()], [serde_json::to_value]). *)
Definition status_changed (from to : SessionState) (at_ : DateTime) : string * json :=
  ("status_changed",
   JObj [("type", JStr "status_changed"); ("from", JStr (as_str from)); ("to", JStr (as_str to));
         ("at", JTime at_)])%string.

Definition resumed_event (snapshot : SnapshotId) (at_ : DateTime) : string * json :=
  ("resumed",
   JObj [("type", JStr "resumed"); ("snapshot_id", JStr (uuid_str snapshot)); ("at", JTime at_)])%string.

(** ** Requests *)

(** [OpOutcome]. *)
Module OpOutcome.
Inductive t : Type :=
| Done
| Retry (reason : string)
| RetryAfter (delay : Duration) (reason : string)
| Failed (reason : string)
| Cancelled.
End OpOutcome.

(** The methods of [MetadataStore] the drivers call. *)
Inductive mreq : Type → Type :=
(* sessions *)
| MGetSession (s : SessionId) : mreq Session.t
| MBindingGenerations (s : SessionId) : mreq (Z * Z)
| MTransition (s : SessionId) (to : SessionState) (disp : BindingDisposition) : mreq SessionState
| MFencedTransition (s : SessionId) (e : Z) (to : SessionState) (disp : BindingDisposition) :
    mreq (option SessionState)
| MFencedTransitionEvents (s : SessionId) (e : Z) (to : SessionState) (disp : BindingDisposition)
    (events : list (string * json)) : mreq (option (SessionState * list Z))
| MAppendEvent (s : SessionId) (kind : string) (payload : json) : mreq Z
| MAssignGuarded (s : SessionId) (sb : option SandboxId) (expected : option (option SandboxId))
    (allowed : list SessionState) : mreq (option Z)
| MAssignHost (s : SessionId) (h : option HostId) : mreq unit
| MListResident (h : HostId) : mreq (list (SessionId * SandboxId * SessionState))
| MListHostLost : mreq (list Session.t)
| MStrikes (present missing : list SessionId) (grace : Z) : mreq (list SessionId)
(* teleports *)
| MOpenTeleport (s : SessionId) : mreq (option TeleportRow.t)
| MTeleportAdmit (req : TeleportAdmitRequest.t) : mreq TeleportAdmitOutcome
| MTeleportAdvance (t : TeleportId) (from to : TeleportPhase.t) (patch : TeleportPatch.t) (e : Z) :
    mreq bool
| MTeleportCommit (t : TeleportId) (e : Z) : mreq (option Z)
| MTeleportRelease (t : TeleportId) (e : Z) (how : SourceRelease) : mreq bool
| MTeleportSettle (t : TeleportId) (e : Z) (settle : TeleportSettle.t) : mreq bool
| MTeleportAbort (t : TeleportId) (e : Z) : mreq bool
(* hosts *)
| MGetHost (h : HostId) : mreq (option HostRecord.t)
| MHostStatus (h : HostId) : mreq (option HostStatus.t)
| MListActiveHosts : mreq (list HostRecord.t)
| MListLeaseExpired : mreq (list HostRecord.t)
| MRenewLease (h : HostId) (until : DateTime) : mreq bool
| MMarkDead (h : HostId) : mreq (list (SessionId * SessionState))
| MNotifyHostDead (h : HostId) : mreq unit
| MAcquireDeadLease (h : HostId) (claimant : string) (stale_after : Duration) : mreq bool
| MReleaseDeadLease (h : HostId) (claimant : string) : mreq unit
| MTombstone (h : HostId) (sb : SandboxId) (sid : option SessionId) : mreq unit
| MEntombUnbound (h : HostId) (running : list SandboxId) (grace : Z) : mreq (list SandboxId)
| MAckTombstones (h : HostId) (running : list SandboxId) : mreq (list SandboxId)
| MTombstones (h : HostId) : mreq (list SandboxId)
| MFcVersion (h : HostId) : mreq (option string)
(* snapshots *)
| MLatestSnapshot (s : SessionId) : mreq (option SnapshotRecord.t)
| MGetSnapshot (id : SnapshotId) : mreq (option SnapshotRecord.t)
| MRecordSnapshot (record : SnapshotRecord.t) (e : Z) : mreq bool
(* ops *)
| MRecordStep (i e : Z) (step : string) : mreq bool
| MClaimHead (s : SessionId) (by_ : string) : mreq (option SessionOp.t)
| MOpFinish (i e : Z) (final : OpState.t) (err : option string) : mreq bool
| MOpRequeue (i e : Z) (backoff : Duration) (err : string) : mreq bool
| MOpWake (s : SessionId) (k : OpKind) : mreq nat
| MEnqueue (s : SessionId) (k : OpKind) (payload : json) (key : option string) (by_ : string) :
    mreq EnqueueOutcome
| MEnqueueExclusive (s : SessionId) (k : OpKind) (payload : json) (by_ : string) :
    mreq (option SessionOp.t)
| MOpPending (s : SessionId) (k : OpKind) : mreq bool
| MReclaimStale (stale : Duration) (by_ : string) : mreq (list SessionOp.t)
| MOrphanedPending (older_than : Duration) : mreq (list SessionId)
(* the planner *)
| MListRetiring : mreq (list HostRecord.t)
| MGrantRetirement (h : HostId) (now : DateTime) : mreq MetaHost.RetirementGrant
| MListOpenTeleports : mreq (list TeleportRow.t).

(** The tasks the coordinator detaches ([tokio::spawn]). *)
Inductive task : Type :=
| DriveSession (s : SessionId)
| DriveClaimed (op : SessionOp.t)
| DropClaim (op : SessionOp.t) (e : Z).

(** The calls of [HostClient] the drivers make. *)
Inductive hreq : Type → Type :=
| HPing : hreq unit
| HProbe (sb : SandboxId) : hreq SandboxProbe
| HDestroy (sb : SandboxId) (fence : SessionFence) : hreq unit
| HResume (sb : SandboxId) (fence : SessionFence) : hreq unit
| HSnapshotHold (sb : SandboxId) (fence : SessionFence) : hreq SnapshotMetadata.t
| HRestore (metadata : SnapshotMetadata.t) (fence : SessionFence) : hreq SandboxId
| HStartAgent (sb : SandboxId) (agent policy : json) (fence : SessionFence) : hreq unit
| HPresetup (sb : SandboxId) (fence : SessionFence) : hreq MigrationPresetupOut.t
| HCapturePostcopy (sb : SandboxId) (export : string) (fence : SessionFence) :
    hreq PostCopyCaptureOut.t
| HDrainWait (sb : SandboxId) : hreq DrainOutcome.t
| HMigrationCommit (sb : SandboxId) (export : string) (fence : SessionFence) : hreq unit
| HMigrationAbort (sb : SandboxId) (export : string) (fence : SessionFence) : hreq unit
| HAbortUnserved (sb : SandboxId) (export : string) (fence : SessionFence) : hreq bool.

Inductive creq : Type → Type :=
| Meta {A} (m : mreq A) : creq (result A MetaError)
| Host {A} (h : HostId) (r : hreq A) : creq (result A SandboxError.t)
(* [Clock], [Entropy] *)
| Now : creq DateTime
| NowMono : creq Duration
| Sleep (d : Duration) : creq unit
| FreshUuid : creq Uuid
(* the in-memory registry of hosts, and its pool of channels *)
| BackendFor (h : HostId) : creq (result unit SandboxError.t)
| BackendOf (h : HostId) : creq bool
| PoolGet (h : HostId) : creq bool
| PoolWarm (h : HostId) (addr : string) : creq (result unit string)
| RecordOwner (sb : SandboxId) (h : HostId) : creq unit
| InvalidateSandbox (sb : SandboxId) : creq (option HostId)
| UnregisterHost (h : HostId) : creq unit
| PublishEvent (s : SessionId) (idx : Z) (event : string * json) : creq unit
(* the [JoinSet] of a live capture *)
| SpawnRestore (h : HostId) (metadata : SnapshotMetadata.t) (fence : SessionFence) : creq unit
| AbortRestore : creq unit
| JoinRestore : creq (result (result SandboxId SandboxError.t) string)
(* parts of the coordinator that are not modelled *)
| BaseManifests (image : string) : creq (option ManifestRef * option ManifestRef)
| VerifyRecoverable (disk memory swap : option ManifestRef) : creq bool
| BindHarness (s : SessionId) (sb : SandboxId) (epoch : Z) : creq (result unit ApiError.t)
| MaterializeResume (s : Session.t) (sb : SandboxId) (epoch : Z) : creq (result HarnessPlan.t ApiError.t)
| ResumeBudget (s : Session.t) : creq (option (Z * Z))
(* the verb of an op under its deadline; [None]: the deadline passed *)
| RunVerb (op : SessionOp.t) (deadline : option Duration) : creq (option OpOutcome.t)
(* the replica's waiters and timers *)
| PublishOpFinished (i : Z) : creq unit
| ArmWake (d : Duration) : creq unit
| StampGrace (s : SessionId) (at_ : DateTime) : creq unit
| SpawnTask (t : task) : creq unit
(* [expect] on a [None], and a loop cut after the turns the model gives it *)
| Panic (msg : string) : creq Empty_set
| Spin : creq Empty_set.

Notation cprog A := (prog creq A) (only parsing).
Notation capi A := (prog creq (result A ApiError.t)) (only parsing).

(** [meta.method(..).await?] where the error becomes an [ApiError]. *)
Definition meta {A} (m : mreq A) : capi A := ask_err ApiError.of_meta (Meta m).
(** [host.method(..).await?]. *)
Definition host {A} (h : HostId) (r : hreq A) : capi A := ask_err ApiError.of_sandbox (Host h r).
Definition api_fail {A} (e : ApiError.t) : capi A := Ret (Err e).
(** [expect]. *)
Definition expect {A} (o : option A) (msg : string) : cprog A :=
  match o with Some a => Ret a | None => x ← ask (Panic msg); match x : Empty_set with end end.

(** ** The op context *)

(** [OpCtx]; [state] is what the requests reach. *)
Record OpCtx := MkOpCtx { ctx_op : SessionOp.t; ctx_epoch : Z }.

Definition fence (ctx : OpCtx) : SessionFence :=
  MkFence (SessionOp.session_id (ctx_op ctx)) (wrap_u64 (ctx_epoch ctx)).

(** [OpCtx::step]: [false] means fenced or unreachable, and the body stops. *)
Definition step (ctx : OpCtx) (stp : string) : cprog bool :=
  r ← ask (Meta (MRecordStep (SessionOp.id (ctx_op ctx)) (ctx_epoch ctx) stp));
  Ret (match r with Ok b => b | Err _ => false end).

Definition fenced_conflict : MetaError :=
  Conflict "fenced: session {session_id} was re-claimed by a successor op (epoch moved past {})".

(** [fence.epoch as i64]. *)
Definition transition_with_fence (s : SessionId) (f : SessionFence) (to : SessionState)
    (disp : BindingDisposition) : cprog (result SessionState MetaError) :=
  if decide (fence_epoch f = 0%Z) then ask (Meta (MTransition s to disp))
  else
    r ← ask (Meta (MFencedTransition s (as_i64 (fence_epoch f)) to disp));
    Ret (match r with
         | Ok (Some prev) => Ok prev
         | Ok None => Err fenced_conflict
         | Err e => Err e
         end).

(** Appending an event and publishing it ([state.emit]), the result dropped. *)
Definition emit (s : SessionId) (event : string * json) : cprog unit :=
  r ← ask (Meta (MAppendEvent s event.1 event.2));
  match r with
  | Ok idx => ask (PublishEvent s idx event)
  | Err _ => Ret tt
  end.

Fixpoint emit_all (s : SessionId) (events : list (string * json)) : cprog unit :=
  match events with
  | [] => Ret tt
  | e :: es => _ ← emit s e; emit_all s es
  end.

Fixpoint publish_all (s : SessionId) (l : list (Z * (string * json))) : cprog unit :=
  match l with
  | [] => Ret tt
  | (idx, e) :: l' => _ ← ask (PublishEvent s idx e); publish_all s l'
  end.

Definition transition_with_fence_emitting (s : SessionId) (f : SessionFence) (to : SessionState)
    (disp : BindingDisposition) (events : list (string * json)) :
    cprog (result SessionState MetaError) :=
  if decide (fence_epoch f = 0%Z) then
    r ← ask (Meta (MTransition s to disp));
    match r with
    | Ok prev => _ ← emit_all s events; Ret (Ok prev)
    | Err e => Ret (Err e)
    end
  else
    r ← ask (Meta (MFencedTransitionEvents s (as_i64 (fence_epoch f)) to disp events));
    match r with
    | Ok (Some (prev, indices)) => _ ← publish_all s (zip indices events); Ret (Ok prev)
    | Ok None => Ret (Err fenced_conflict)
    | Err e => Ret (Err e)
    end.

(** With the error converted by [?]. *)
Definition api {A} (p : cprog (result A MetaError)) : capi A :=
  r ← p; Ret (match r with Ok a => Ok a | Err e => Err (ApiError.of_meta e) end).

(** [recovery_target] of [dead_host.rs]. *)
Definition recovery_target (has_recoverable_snapshot : bool) : SessionState :=
  if has_recoverable_snapshot then Idle else Dead.
