(* ===== verification/TeleportDriver.v ===== *)
(** * The teleport driver

    [engram-coordinator/src/teleport.rs]: the verb that moves a running session
    to another host.  The row's phase is the recovery cursor: a driver reads the
    open row, records the phase as the op's step and runs the step of that
    phase, until the row is closed or the step asks to be retried.  Every step
    may be cut anywhere and run again by another replica under a later epoch. *)

From S2P Require Import Prelude Session Teleport OpLogSpec MetaTypes MetaOps MetaSession.
From S2P Require Import MetaTeleport MetaHost Text Manifest Prog Rank Coord.
From Stdlib Require Import QArith.

(** [str::trim_start_matches]: the prefix as often as it occurs. *)
Fixpoint trim_start_matches (fuel : nat) (p s : string) : string :=
  match fuel with
  | O => s
  | S fuel => match strip_prefix p s with
              | Some s' => trim_start_matches fuel p s' | None => s end
  end.

(** [str::rsplit_once(c)]. *)
Fixpoint rsplit_once (c : Ascii.ascii) (s : string) : option (string * string) :=
  match s with
  | EmptyString => None
  | String b s' =>
      match rsplit_once c s' with
      | Some (x, y) => Some (String b x, y)
      | None => if bool_decide (b = c) then Some (EmptyString, s') else None
      end
  end.

(** The host part of the source's address. *)
Definition hostname_of (addr : string) : string :=
  let n := String.length addr in
  let hostpart := trim_start_matches n "https://" (trim_start_matches n "http://" addr) in
  match rsplit_once (Ascii.ascii_of_N 58) hostpart with Some (h, _) => h | None => hostpart end.

Definition json_as_u64 (v : json) : option Z :=
  match v with JNum z => if decide (0 ≤ z ≤ u64_max)%Z then Some z else None | _ => None end.

Definition u32_try_from (z : Z) : option Z := if decide (z ≤ u32_max)%Z then Some z else None.

Definition nanos_of_secs (s : Z) : Duration := (s * 1000000000)%Z.
Definition nanos_of_millis (ms : Z) : Duration := (ms * 1000000)%Z.

Definition default_max_open_per_dest : Z := 1.

Section driver.
(** The JSON codecs of [SnapshotMetadata], [HostId] and [TeleportReason] are
    derived code; the rest are the parameters of [Rank]. *)
Context (to_value : SnapshotMetadata.t → result json string)
  (from_value : json → result SnapshotMetadata.t string)
  (host_of_json : json → option HostId) (reason_of_json : json → option TeleportReason).
Context (caps_of : json → HostCapabilities.t) (sha256_of : json → string)
  (pool_floor_env : option Z) (placement_ttl : Duration).

Notation row := TeleportRow.t.
Notation outcome := (option OpOutcome.t).

(** ** Writes of the row *)

Definition advance (ctx : OpCtx) (r : row) (to : TeleportPhase.t) (patch : TeleportPatch.t) :
    capi outcome :=
  do! moved := meta (MTeleportAdvance (TeleportRow.id r) (TeleportRow.phase r) to patch (ctx_epoch ctx)) in
  okay (if negb moved then Some OpOutcome.Done else None).

Definition error_patch (error : string) : TeleportPatch.t :=
  TeleportPatch.Mk None None None None None (Some error).

Definition rollback_begin (ctx : OpCtx) (r : row) (error : string) : capi outcome :=
  advance ctx r TeleportPhase.RollingBack (error_patch error).

(** A dead or retired host, or one without a row. *)
Definition host_gone (h : option HostRecord.t) : bool :=
  match h with
  | None => true
  | Some h => bool_decide (HostRecord.status h = HostStatus.Dead)
              || bool_decide (HostRecord.status h = HostStatus.Retired)
  end.

Definition source_gone (r : row) : capi bool :=
  do! h := meta (MGetHost (TeleportRow.source_host_id r)) in okay (host_gone h).

Definition destination_gone (r : row) : capi bool :=
  do! h := meta (MGetHost (TeleportRow.dest_host_id r)) in okay (host_gone h).

(** [registry.backend_for(h).await?]. *)
Definition backend (h : HostId) : capi unit := ask_err ApiError.of_sandbox (BackendFor h).

(** ** Ends of a move *)

Definition destroy_destination (ctx : OpCtx) (r : row) : capi unit :=
  match TeleportRow.dest_sandbox_id r with
  | None => okay tt
  | Some sandbox =>
      do! gone := destination_gone r in
      do! _ :=
        (if negb gone then
           do! _ := backend (TeleportRow.dest_host_id r) in
           x ← ask (Host (TeleportRow.dest_host_id r) (HDestroy sandbox (fence ctx)));
           match x with
           | Ok _ | Err SandboxError.NotFound => okay tt
           | Err e => api_fail (ApiError.of_sandbox e)
           end
         else okay tt) in
      meta (MTombstone (TeleportRow.dest_host_id r) sandbox (Some (TeleportRow.session_id r)))
  end.

Definition settle_target (r : row) (session : Session.t) (allow_snapshot : bool) :
    capi SessionState :=
  do! has :=
    (if allow_snapshot then
       do! snap := meta (MLatestSnapshot (TeleportRow.session_id r)) in
       okay (match snap with Some s => SnapshotRecord.recoverable s | None => false end)
     else okay false) in
  let target := recovery_target has in
  okay (match Session.status session, target with
        | Created, Dead => Failed
        | _, t => t
        end).

Definition fail_move (ctx : OpCtx) (r : row) (error : string) (allow_snapshot : bool) :
    capi outcome :=
  do! _ := destroy_destination ctx r in
  do! session := meta (MGetSession (TeleportRow.session_id r)) in
  do! _ :=
    (if bool_decide (Session.status session = Active) then
       do! _ := api (transition_with_fence (TeleportRow.session_id r) (fence ctx) Evacuating Retain) in
       okay tt
     else okay tt) in
  do! target := settle_target r session allow_snapshot in
  do! _ := meta (MTeleportSettle (TeleportRow.id r) (ctx_epoch ctx)
                   (TeleportSettle.Mk error (Some target) true)) in
  okay (Some OpOutcome.Done).

Definition settle_lost_source (ctx : OpCtx) (r : row) : capi outcome :=
  do! session := meta (MGetSession (TeleportRow.session_id r)) in
  do! target := settle_target r session true in
  do! _ := meta (MTeleportSettle (TeleportRow.id r) (ctx_epoch ctx)
                   (TeleportSettle.Mk "source_lost_during_rollback" (Some target) true)) in
  okay (Some OpOutcome.Done).

(** ** Admission *)

Definition candidates_for (ctx : ScheduleContext) (now : DateTime) : cprog (result (list HostId) MetaError) :=
  hosts ← ask (Meta MListActiveHosts);
  Ret (match hosts with
       | Ok hosts => Ok (RankedCandidates.hosts
                           (rank_hosts caps_of sha256_of pool_floor_env hosts ctx now placement_ttl))
       | Err e => Err e
       end).

(** The closure [candidates_for] of [admit_step]. *)
Definition admit_candidates (session : Session.t) (mem cpu : Z) (caps : CapabilityRequirements) :
    capi (list HostId) :=
  now ← ask Now;
  r ← candidates_for (MkCtx (Session.image session) "" None (Some mem) (Some cpu) None
                        (Session.host_id session) None caps []) now;
  Ret (match r with
       | Ok l => Ok l
       | Err _ => Err (ApiError.Unavailable "placement: {e:?}")
       end).

Definition max_open_of (payload : json) : Z :=
  default default_max_open_per_dest
    (v ← json_get "max_open_per_dest" payload; n ← json_as_u64 v; u32_try_from n).

(** The kind follows the destination; a pinned target decides alone. *)
Definition admit_kind (session : Session.t) (mem cpu : Z) (fc : option string)
    (target : option HostId) : capi (option (TeleportKind * list HostId)) :=
  let caps_for live := MkReq true live fc in
  match target with
  | Some target =>
      do! h := meta (MGetHost target) in
      match h with
      | None => api_fail (ApiError.Conflict "no_fit")
      | Some h =>
          if HostRecord.cordoned h then api_fail (ApiError.Conflict "target_cordoned")
          else
            do! kind :=
              (match host_meets_capabilities caps_of h (caps_for true) with
               | Ok _ => okay Live
               | Err _ =>
                   match host_meets_capabilities caps_of h (caps_for false) with
                   | Ok _ => okay Snapshot
                   | Err missing =>
                       api_fail (ApiError.Conflict ("target_lacks_capability: " +:+ missing))
                   end
               end) in
            do! candidates := admit_candidates session mem cpu
                                (caps_for match kind with Live => true | Snapshot => false end) in
            if negb (bool_decide (target ∈ candidates)) then okay None
            else okay (Some (kind, candidates))
      end
  | None =>
      do! live := admit_candidates session mem cpu (caps_for true) in
      match live with
      | [] =>
          do! candidates := admit_candidates session mem cpu (caps_for false) in
          okay (Some (Snapshot, candidates))
      | _ :: _ => okay (Some (Live, live))
      end
  end.

Definition admit_step (ctx : OpCtx) (target : option HostId) (reason : TeleportReason) :
    capi TeleportAdmitOutcome :=
  do! session := meta (MGetSession (SessionOp.session_id (ctx_op ctx))) in
  if negb (bool_decide (Session.status session = Active)) then
    okay (SessionNotActive (Session.status session))
  else
    budget ← ask (ResumeBudget session);
    match budget with
    | None => api_fail (ApiError.Unavailable "teleport budget unavailable")
    | Some (mem, cpu) =>
        do! fc := (match Session.host_id session with
                   | Some h => meta (MFcVersion h)
                   | None => okay None
                   end) in
        do! picked := admit_kind session mem cpu fc target in
        match picked with
        | None => okay NoFit
        | Some (kind, candidates) =>
            id ← ask FreshUuid;
            meta (MTeleportAdmit (TeleportAdmitRequest.Mk id (Session.id session) reason
                    (ctx_epoch ctx) candidates target mem cpu
                    (Z.to_N (max_open_of (SessionOp.payload (ctx_op ctx)))) kind))
        end
    end.

(** ** Capture and restore *)

Definition live_metadata (r : row) : result SnapshotMetadata.t ApiError.t :=
  match TeleportRow.live_payload r with
  | None => Err (ApiError.Internal "live teleport has no restore payload")
  | Some v => match from_value v with
              | Ok m => Ok m
              | Err e => Err (ApiError.Internal ("live restore payload: " +:+ e))
              end
  end.

(** Abort the export if no destination fetched its state. *)
Definition abort_unserved (ctx : OpCtx) (r : row) : cprog (result bool SandboxError.t) :=
  do! _ := ask (BackendFor (TeleportRow.source_host_id r)) in
  export ← expect (TeleportRow.export_id r) "live export";
  ask (Host (TeleportRow.source_host_id r)
         (HAbortUnserved (TeleportRow.source_sandbox_id r) export (fence ctx))).

Definition restored_patch (sb : SandboxId) : TeleportPatch.t :=
  TeleportPatch.Mk (Some sb) None None None None None.

(** The destination refused the image for good. *)
Definition image_refused (e : SandboxError.t) : bool :=
  match e with SandboxError.MemoryImageUnusable _ => true | _ => false end
  || str_contains "postcopy-never-loaded" (SandboxError.to_string e).

Definition finish_live_restore (ctx : OpCtx) (r : row)
    (result : result SandboxId SandboxError.t) : capi outcome :=
  match result with
  | Ok sb =>
      _ ← ask (RecordOwner sb (TeleportRow.dest_host_id r));
      advance ctx r TeleportPhase.Restored (restored_patch sb)
  | Err SandboxError.NotFound | Err SandboxError.AlreadyExists =>
      rollback_begin ctx r "live_export_lost"
  | Err e =>
      if image_refused e then
        do! _ := backend (TeleportRow.source_host_id r) in
        export ← expect (TeleportRow.export_id r) "live export";
        do! _ := host (TeleportRow.source_host_id r)
                   (HMigrationAbort (TeleportRow.source_sandbox_id r) export (fence ctx)) in
        rollback_begin ctx r (SandboxError.to_string e)
      else
        unserved ← abort_unserved ctx r;
        match unserved with
        | Ok true => rollback_begin ctx r (SandboxError.to_string e)
        | Ok false | Err _ =>
            if decide (SessionOp.attempts (ctx_op ctx) ≤ 3)%Z then
              okay (Some (OpOutcome.Retry (SandboxError.to_string e)))
            else fail_move ctx r ("dest_lost_after_blackout: " +:+ SandboxError.to_string e) false
        end
  end.

(** The restore package of a presetup. *)
Definition presetup_metadata (presetup : MigrationPresetupOut.t) (session : Session.t)
    (durable : option SnapshotRecord.t) (source_addr : string)
    (base : option ManifestRef * option ManifestRef) (id : SnapshotId) (now : DateTime) :
    SnapshotMetadata.t :=
  let peer_addr := hostname_of source_addr +:+ ":" +:+ dec (MigrationPresetupOut.peer_port presetup) in
  SnapshotMetadata.Mk id
    (from_option SnapshotRecord.size_bytes 0%Z durable) now
    (from_option SnapshotRecord.image_version (Session.image session) durable)
    (MigrationPresetupOut.disk_manifest_ref presetup)
    (Some (MigrationPresetupOut.memory_manifest_ref presetup))
    base.1
    (Some (MigrationSourceInfo.Mk (MigrationPresetupOut.export_id presetup) source_addr
             (MigrationPresetupOut.memory_manifest_json presetup)
             (MigrationPresetupOut.memory_manifest_ref presetup)
             (MigrationPresetupOut.hot_chunks presetup) true (Some peer_addr)
             (Some (MigrationPresetupOut.peer_token presetup))
             (MigrationPresetupOut.sidecar_json presetup)))
    None None None None None
    (from_option SnapshotRecord.aux_bundles [] durable) None []
    (MigrationPresetupOut.swap_manifest_ref presetup) base.2.

(** The first half of a live capture: prepare the export and store the restore
    package in the row. *)
Definition capture_presetup (ctx : OpCtx) (r : row) : capi outcome :=
  presetup ← ask (Host (TeleportRow.source_host_id r)
                    (HPresetup (TeleportRow.source_sandbox_id r) (fence ctx)));
  match presetup with
  | Err (SandboxError.InvalidSpec _) =>
      advance ctx r TeleportPhase.Admitted_ (TeleportPatch.Mk None None None None (Some Snapshot) None)
  | Err e => rollback_begin ctx r (SandboxError.to_string e)
  | Ok presetup =>
      do! session := meta (MGetSession (TeleportRow.session_id r)) in
      do! durable := meta (MLatestSnapshot (TeleportRow.session_id r)) in
      do! h := meta (MGetHost (TeleportRow.source_host_id r)) in
      match h ≫= HostRecord.host_addr with
      | None => api_fail (ApiError.Unavailable "source host has no address")
      | Some source_addr =>
          base ← ask (BaseManifests (Session.image session));
          id ← ask FreshUuid;
          now ← ask Now;
          match to_value (presetup_metadata presetup session durable source_addr base id now) with
          | Err e => api_fail (ApiError.Internal e)
          | Ok payload =>
              advance ctx r TeleportPhase.Admitted_
                (TeleportPatch.Mk None None (Some (MigrationPresetupOut.export_id presetup))
                   (Some payload) None None)
          end
      end
  end.

(** The export was lost, as the error of the capture tells. *)
Definition capture_error (e : SandboxError.t) : string :=
  if match e with SandboxError.NotFound | SandboxError.AlreadyExists => true | _ => false end
     || str_contains "presetup" (SandboxError.to_string e)
  then "live_export_lost" else SandboxError.to_string e.

(** The second half: the destination restores while the source pauses and
    seals.  Dropping the [JoinSet] aborts the restore. *)
Definition capture_postcopy (ctx : OpCtx) (r : row) : capi outcome :=
  do! metadata := Ret (live_metadata r) in
  do! _ := backend (TeleportRow.dest_host_id r) in
  _ ← ask (SpawnRestore (TeleportRow.dest_host_id r) metadata (fence ctx));
  export ← expect (TeleportRow.export_id r) "export set";
  captured ← ask (Host (TeleportRow.source_host_id r)
                    (HCapturePostcopy (TeleportRow.source_sandbox_id r) export (fence ctx)));
  match captured with
  | Err e => _ ← ask AbortRestore; rollback_begin ctx r (capture_error e)
  | Ok captured =>
      moved ← advance ctx r TeleportPhase.Captured TeleportPatch.default;
      match moved with
      | Err e => _ ← ask AbortRestore; api_fail e
      | Ok (Some out) => _ ← ask AbortRestore; okay (Some out)
      | Ok None =>
          let captured_row := r <| TeleportRow.phase := TeleportPhase.Captured |> in
          joined ← ask JoinRestore;
          match joined with
          | Err e => api_fail (ApiError.Unavailable e)
          | Ok restored =>
              _ ← (if is_ok restored then ask Now else Ret 0%Z);
              finish_live_restore ctx captured_row restored
          end
      end
  end.

Definition capture_live (ctx : OpCtx) (r : row) : capi outcome :=
  b ← ask (BackendFor (TeleportRow.source_host_id r));
  match b with
  | Err e => rollback_begin ctx r (SandboxError.to_string e)
  | Ok _ => match TeleportRow.export_id r with
            | None => capture_presetup ctx r
            | Some _ => capture_postcopy ctx r
            end
  end.

Definition capture_snapshot (ctx : OpCtx) (r : row) : capi outcome :=
  b ← ask (BackendFor (TeleportRow.source_host_id r));
  match b with
  | Err e => rollback_begin ctx r (SandboxError.to_string e)
  | Ok _ =>
      captured ← ask (Host (TeleportRow.source_host_id r)
                        (HSnapshotHold (TeleportRow.source_sandbox_id r) (fence ctx)));
      match captured with
      | Err e => rollback_begin ctx r (SandboxError.to_string e)
      | Ok m =>
          now ← ask Now;
          recoverable ← ask (VerifyRecoverable (SnapshotMetadata.disk_manifest m)
                               (SnapshotMetadata.memory_manifest m) (SnapshotMetadata.swap_manifest m));
          do! fc := meta (MFcVersion (TeleportRow.source_host_id r)) in
          do! recorded := meta (MRecordSnapshot
            (SnapshotRecord.Mk (SnapshotMetadata.id m) (Some (TeleportRow.session_id r))
               (Some (TeleportRow.source_host_id r)) (SnapshotMetadata.image_version m)
               (SnapshotMetadata.size_bytes m) (SnapshotMetadata.created_at m) now
               (SnapshotMetadata.disk_manifest m) (SnapshotMetadata.swap_manifest m)
               (SnapshotMetadata.memory_manifest m) recoverable (SnapshotMetadata.aux_bundles m)
               None fc) (ctx_epoch ctx)) in
          if negb recorded then okay (Some OpOutcome.Done)
          else advance ctx r TeleportPhase.Captured
                 (TeleportPatch.Mk None (Some (SnapshotMetadata.id m)) None None None None)
      end
  end.

Definition capture (ctx : OpCtx) (r : row) : capi outcome :=
  match TeleportRow.kind r with
  | Live => capture_live ctx r
  | Snapshot => capture_snapshot ctx r
  end.

Definition state_blob_key (id : SnapshotId) : string :=
  "snapshots/" +:+ uuid_str id +:+ "/state.bin".
Definition sidecar_blob_key (id : SnapshotId) : string :=
  "snapshots/" +:+ uuid_str id +:+ "/sidecar.json".

Definition snapshot_metadata (s : SnapshotRecord.t) (base : option ManifestRef * option ManifestRef)
    (peer_hints : list string) : SnapshotMetadata.t :=
  SnapshotMetadata.Mk (SnapshotRecord.id s) (SnapshotRecord.size_bytes s) (SnapshotRecord.created_at s)
    (SnapshotRecord.image_version s) (SnapshotRecord.disk_manifest s) (SnapshotRecord.memory_manifest s)
    base.1 None None (Some (state_blob_key (SnapshotRecord.id s)))
    (Some (sidecar_blob_key (SnapshotRecord.id s))) None None (SnapshotRecord.aux_bundles s) None
    peer_hints (SnapshotRecord.swap_manifest s) base.2.

Definition restore_snapshot (ctx : OpCtx) (r : row) : capi outcome :=
  match TeleportRow.snapshot_id r with
  | None => api_fail (ApiError.Internal "captured teleport has no snapshot")
  | Some id =>
      do! snapshot := meta (MGetSnapshot id) in
      match snapshot with
      | None => api_fail (ApiError.Internal "teleport snapshot missing")
      | Some snapshot =>
          do! session := meta (MGetSession (TeleportRow.session_id r)) in
          do! h := meta (MGetHost (TeleportRow.source_host_id r)) in
          hints ← match h with
                  | Some h => now ← ask Now;
                              Ret (option_list (host_can_serve_chunks h now placement_ttl))
                  | None => Ret []
                  end;
          base ← ask (BaseManifests (Session.image session));
          b ← ask (BackendFor (TeleportRow.dest_host_id r));
          match b with
          | Err e => rollback_begin ctx r (SandboxError.to_string e)
          | Ok _ =>
              restored ← ask (Host (TeleportRow.dest_host_id r)
                                (HRestore (snapshot_metadata snapshot base hints) (fence ctx)));
              match restored with
              | Ok sb =>
                  _ ← ask (RecordOwner sb (TeleportRow.dest_host_id r));
                  advance ctx r TeleportPhase.Restored (restored_patch sb)
              | Err e => rollback_begin ctx r (SandboxError.to_string e)
              end
          end
      end
  end.

Definition restore (ctx : OpCtx) (r : row) : capi outcome :=
  match TeleportRow.kind r with
  | Live =>
      do! metadata := Ret (live_metadata r) in
      do! _ := backend (TeleportRow.dest_host_id r) in
      result ← ask (Host (TeleportRow.dest_host_id r) (HRestore metadata (fence ctx)));
      finish_live_restore ctx r result
  | Snapshot => restore_snapshot ctx r
  end.

(** ** Commit, attach and release *)

Definition commit (ctx : OpCtx) (r : row) : capi outcome :=
  do! minted := meta (MTeleportCommit (TeleportRow.id r) (ctx_epoch ctx)) in
  match minted with
  | Some _ => _ ← ask (InvalidateSandbox (TeleportRow.source_sandbox_id r)); okay None
  | None => rollback_begin ctx r "commit_conflict"
  end.

Definition finish_attach (ctx : OpCtx) (r : row) : capi outcome :=
  at_ ← ask Now;
  let changed := status_changed Evacuating Active at_ in
  events ← match TeleportRow.snapshot_id r with
           | Some id => at' ← ask Now; Ret [resumed_event id at'; changed]
           | None => Ret [changed]
           end;
  do! _ := api (transition_with_fence_emitting (TeleportRow.session_id r) (fence ctx) Active Retain events) in
  advance ctx r TeleportPhase.Attached TeleportPatch.default.

(** The wait for the harness, at most [turns] more reads: [true] when a read
    showed the generation attached. *)
Fixpoint wait_attached (turns : nat) (r : row) (epoch : Z) (started : Duration) : capi bool :=
  match turns with
  | O => okay false
  | S turns =>
      do! gens := meta (MBindingGenerations (TeleportRow.session_id r)) in
      if bool_decide (epoch ≤ gens.2)%Z then okay true
      else
        now ← ask NowMono;
        let remaining := saturating_sub (nanos_of_secs 5) (saturating_sub now started) in
        if decide (remaining = 0%Z) then okay false
        else _ ← ask (Sleep (Z.min (nanos_of_millis 100) remaining));
             wait_attached turns r epoch started
  end.

(** A spawn failure that would recur. *)
Definition spawn_is_deterministic (e : SandboxError.t) : bool :=
  match e with
  | SandboxError.InvalidSpec _ => true
  | SandboxError.HarnessSpawn kind _ => harness_spawn_kind_is_deterministic kind
  | _ => false
  end.

Definition attach_spawn (ctx : OpCtx) (r : row) (agent policy : json) (epoch : Z) : capi outcome :=
  sandbox ← expect (TeleportRow.dest_sandbox_id r) "committed destination";
  do! _ := backend (TeleportRow.dest_host_id r) in
  started_ok ← ask (Host (TeleportRow.dest_host_id r) (HStartAgent sandbox agent policy (fence ctx)));
  match started_ok with
  | Err e =>
      if spawn_is_deterministic e then
        at_ ← ask Now;
        do! _ := api (transition_with_fence_emitting (TeleportRow.session_id r) (fence ctx) Created Retain
                        [status_changed Evacuating Created at_]) in
        advance ctx r TeleportPhase.Attached (error_patch (SandboxError.to_string e))
      else api_fail (ApiError.of_sandbox e)
  | Ok _ =>
      started ← ask NowMono;
      do! attached := wait_attached 50 r epoch started in
      if (attached : bool) then finish_attach ctx r
      else
        do! gens := meta (MBindingGenerations (TeleportRow.session_id r)) in
        if bool_decide (gens.2 < epoch)%Z then
          okay (Some (OpOutcome.RetryAfter (nanos_of_millis 500) "waiting for harness generation"))
        else finish_attach ctx r
  end.

Definition attach_plan (ctx : OpCtx) (r : row) (plan : HarnessPlan.t) (epoch : Z) : capi outcome :=
  match plan with
  | HarnessPlan.Spawn agent policy => attach_spawn ctx r agent policy epoch
  | HarnessPlan.None_ => finish_attach ctx r
  end.

Definition attach (ctx : OpCtx) (r : row) : capi outcome :=
  do! gone := destination_gone r in
  if (gone : bool) then fail_move ctx r "dest_lost_after_blackout" true
  else
    do! session := meta (MGetSession (TeleportRow.session_id r)) in
    match TeleportRow.dest_sandbox_id r with
    | None => api_fail (ApiError.Internal "committed teleport has no destination sandbox")
    | Some sandbox =>
        if bool_decide (Session.status session = Active ∨ Session.status session = Created)
           && bool_decide (Session.sandbox_id session = Some sandbox)
        then advance ctx r TeleportPhase.Attached TeleportPatch.default
        else
          do! gens := meta (MBindingGenerations (TeleportRow.session_id r)) in
          let '(epoch, attached) := gens in
          if bool_decide (epoch ≤ attached)%Z then finish_attach ctx r
          else
            do! _ := ask (BindHarness (TeleportRow.session_id r) sandbox epoch) in
            do! plan := ask (MaterializeResume session sandbox epoch) in
            attach_plan ctx r plan epoch
    end.

(** The destroy of the source and what its answer says. *)
Definition release_source (ctx : OpCtx) (r : row) : capi outcome :=
  b ← ask (BackendFor (TeleportRow.source_host_id r));
  result ← match b with
           | Ok _ => ask (Host (TeleportRow.source_host_id r)
                            (HDestroy (TeleportRow.source_sandbox_id r) (fence ctx)))
           | Err e => Ret (Err e)
           end;
  do! how :=
    (match result with
     | Ok _ | Err SandboxError.NotFound => okay (Ok DestroyAcked)
     | Err e =>
         do! gone := source_gone r in
         okay (if (gone : bool) then Ok SourceHostGone
               else Err (OpOutcome.RetryAfter (nanos_of_secs 10) (SandboxError.to_string e)))
     end) in
  match how with
  | Err out => okay (Some out)
  | Ok how =>
      do! _ := meta (MTeleportRelease (TeleportRow.id r) (ctx_epoch ctx) how) in
      okay (Some OpOutcome.Done)
  end.

(** The live half of the release: the drain, then the commit of the export.
    [false]: the peer was lost. *)
Definition release_live (ctx : OpCtx) (r : row) : capi bool :=
  do! _ := backend (TeleportRow.dest_host_id r) in
  sandbox ← expect (TeleportRow.dest_sandbox_id r) "attached destination";
  do! drained := host (TeleportRow.dest_host_id r) (HDrainWait sandbox) in
  match drained with
  | DrainOutcome.PeerLost _ _ => okay false
  | DrainOutcome.Done _ _ _ _ =>
      do! gone := source_gone r in
      if (gone : bool) then okay true
      else
        do! _ := backend (TeleportRow.source_host_id r) in
        export ← expect (TeleportRow.export_id r) "live export";
        x ← ask (Host (TeleportRow.source_host_id r)
                   (HMigrationCommit (TeleportRow.source_sandbox_id r) export (fence ctx)));
        match x with
        | Ok _ | Err SandboxError.NotFound => okay true
        | Err e => api_fail (ApiError.of_sandbox e)
        end
  end.

Definition release (ctx : OpCtx) (r : row) : capi outcome :=
  do! gone := destination_gone r in
  if (gone : bool) then fail_move ctx r "dest_lost_after_blackout" true
  else
    do! ok := (match TeleportRow.kind r with Live => release_live ctx r | Snapshot => okay true end) in
    if (ok : bool) then release_source ctx r else fail_move ctx r "peer_lost" true.

(** ** Rollback *)

Definition resume_source (ctx : OpCtx) (r : row) : cprog (result unit SandboxError.t) :=
  let src := TeleportRow.source_host_id r in
  let sb := TeleportRow.source_sandbox_id r in
  match TeleportRow.export_id r, TeleportRow.kind r with
  | Some export, Live =>
      aborted ← ask (Host src (HMigrationAbort sb export (fence ctx)));
      match aborted with
      | Err SandboxError.NotFound => ask (Host src (HResume sb (fence ctx)))
      | r => Ret r
      end
  | _, _ => ask (Host src (HResume sb (fence ctx)))
  end.

Definition rollback (ctx : OpCtx) (r : row) : capi outcome :=
  do! _ := destroy_destination ctx r in
  do! gone := source_gone r in
  if (gone : bool) then settle_lost_source ctx r
  else
    do! _ := backend (TeleportRow.source_host_id r) in
    resumed ← resume_source ctx r;
    match resumed with
    | Err SandboxError.NotFound => settle_lost_source ctx r
    | Err e => okay (Some (OpOutcome.RetryAfter (nanos_of_secs 5) (SandboxError.to_string e)))
    | Ok _ =>
        do! session := meta (MGetSession (TeleportRow.session_id r)) in
        do! _ :=
          (if bool_decide (Session.status session = Evacuating) then
             at_ ← ask Now;
             do! _ := api (transition_with_fence_emitting (TeleportRow.session_id r) (fence ctx) Active
                             Retain [status_changed Evacuating Active at_]) in
             okay tt
           else okay tt) in
        do! _ := meta (MTeleportAbort (TeleportRow.id r) (ctx_epoch ctx)) in
        okay (Some OpOutcome.Done)
    end.

(** ** The loop *)

Definition phase_step (ctx : OpCtx) (r : row) : capi outcome :=
  match TeleportRow.phase r with
  | TeleportPhase.Admitted_ => capture ctx r
  | TeleportPhase.Captured => restore ctx r
  | TeleportPhase.Restored => commit ctx r
  | TeleportPhase.Committed => attach ctx r
  | TeleportPhase.Attached => release ctx r
  | TeleportPhase.RollingBack => rollback ctx r
  | TeleportPhase.Done | TeleportPhase.Aborted | TeleportPhase.Failed => okay (Some OpOutcome.Done)
  end.

(** A crash between the fenced settle and the terminal row. *)
Definition settle_error (p : TeleportPhase.t) : string :=
  match p with
  | TeleportPhase.RollingBack => "source_lost_during_rollback"
  | TeleportPhase.Attached => "peer_lost"
  | _ => "dest_lost_after_blackout"
  end.

(** One turn with an open row; [None] goes on. *)
Definition drive_row (ctx : OpCtx) (r : row) : capi outcome :=
  alive ← step ctx (TeleportPhase.as_str (TeleportRow.phase r));
  if negb alive then okay (Some OpOutcome.Done)
  else
    do! session := meta (MGetSession (TeleportRow.session_id r)) in
    if bool_decide (Session.sandbox_id session = None)
       && bool_decide (Session.status session = Idle ∨ Session.status session = Dead)
    then
      do! _ := meta (MTeleportSettle (TeleportRow.id r) (ctx_epoch ctx)
                       (TeleportSettle.Mk (settle_error (TeleportRow.phase r)) None false)) in
      okay (Some OpOutcome.Done)
    else phase_step ctx r.

(** One turn without an open row. *)
Definition drive_admit (ctx : OpCtx) : capi outcome :=
  let payload := SessionOp.payload (ctx_op ctx) in
  if bool_decide (is_Some (json_get "teleport_id" payload)) then okay (Some OpOutcome.Done)
  else
    do! s := meta (MGetSession (SessionOp.session_id (ctx_op ctx))) in
    let source := json_get "source_host" payload ≫= host_of_json in
    if bool_decide (source = None) || negb (bool_decide (source = Session.host_id s))
    then okay (Some OpOutcome.Done)
    else
      let reason := default RetireHost (json_get "reason" payload ≫= reason_of_json) in
      do! admitted := admit_step ctx None reason in
      match admitted with
      | Admitted_ _ => okay None
      | _ => okay (Some OpOutcome.Done)
      end.

Fixpoint drive_inner (turns : nat) (ctx : OpCtx) : capi OpOutcome.t :=
  match turns with
  | O => x ← ask Spin; match x : Empty_set with end
  | S turns =>
      do! open := meta (MOpenTeleport (SessionOp.session_id (ctx_op ctx))) in
      do! out := (match open with None => drive_admit ctx | Some r => drive_row ctx r end) in
      match out with
      | Some o => okay o
      | None => drive_inner turns ctx
      end
  end.

Definition drive (turns : nat) (ctx : OpCtx) : cprog OpOutcome.t :=
  r ← drive_inner turns ctx;
  Ret (match r with Ok o => o | Err e => OpOutcome.Retry (ApiError.to_string e) end).

End driver.
