(* ===== verification/TeleportSafe.v ===== *)
(** * What the teleport driver may ask, and when

    The requests of a driver, judged by the row it last read and by what it was
    answered since: which host calls and which writes of the row each phase
    makes, and after which acknowledgements.  The discipline holds whatever the
    store and the hosts answer, also when the driver is cut anywhere. *)

From S2P Require Import Prelude Session Teleport OpLogSpec MetaTypes MetaOps MetaSession.
From S2P Require Import MetaTeleport MetaHost Text Manifest Prog Rank Coord TeleportDriver.

Notation cevent := (event creq).
Notation Row := TeleportRow.t (only parsing).

(** ** The row a history works on *)

(** A read of the open row: the row, or that there is none. *)
Definition read_of (e : cevent) : option (option Row) :=
  match e with
  | Ev q x =>
      match q in creq X return X → option (option Row) with
      | Meta m =>
          match m in mreq A return result A MetaError → option (option Row) with
          | MOpenTeleport _ => fun x => match x with Ok o => Some o | Err _ => Some None end
          | _ => fun _ => None
          end
      | _ => fun _ => None
      end x
  end.

(** The row and the events since it was read. *)
Definition cur_step (acc : option (Row * list cevent)) (e : cevent) : option (Row * list cevent) :=
  match read_of e with
  | Some (Some r) => Some (r, [])
  | Some None => None
  | None => (fun p => (p.1, p.2 ++ [e])) <$> acc
  end.

Definition cur (h : list cevent) : option (Row * list cevent) := fold_left cur_step h None.

Lemma cur_snoc h e : cur (h ++ [e]) = cur_step (cur h) e.
Proof. unfold cur. by rewrite fold_left_app. Qed.

(** ** Answers that matter *)

Section discipline.
Context (to_value : SnapshotMetadata.t → result json string)
  (from_value : json → result SnapshotMetadata.t string)
  (host_of_json : json → option HostId) (reason_of_json : json → option TeleportReason).
Context (caps_of : json → HostCapabilities.t) (sha256_of : json → string)
  (pool_floor_env : option Z) (placement_ttl : Duration).
Context (ctx : OpCtx).

Inductive source_acked (r : Row) : cevent → Prop :=
| acked_resume f :
    source_acked r (Ev (Host (TeleportRow.source_host_id r)
                          (HResume (TeleportRow.source_sandbox_id r) f)) (Ok tt))
| acked_abort x f :
    source_acked r (Ev (Host (TeleportRow.source_host_id r)
                          (HMigrationAbort (TeleportRow.source_sandbox_id r) x f)) (Ok tt)).

(** The source host or the source sandbox is gone. *)
Inductive source_lost (r : Row) : cevent → Prop :=
| lost_host h : host_gone h = true →
    source_lost r (Ev (Meta (MGetHost (TeleportRow.source_host_id r))) (Ok h))
| lost_sandbox f :
    source_lost r (Ev (Host (TeleportRow.source_host_id r)
                         (HResume (TeleportRow.source_sandbox_id r) f)) (Err SandboxError.NotFound)).

Inductive source_host_gone (r : Row) : cevent → Prop :=
| gone_host h : host_gone h = true →
    source_host_gone r (Ev (Meta (MGetHost (TeleportRow.source_host_id r))) (Ok h)).

Inductive source_destroyed (r : Row) : cevent → Prop :=
| destroyed_ok f :
    source_destroyed r (Ev (Host (TeleportRow.source_host_id r)
                              (HDestroy (TeleportRow.source_sandbox_id r) f)) (Ok tt))
| destroyed_absent f :
    source_destroyed r (Ev (Host (TeleportRow.source_host_id r)
                              (HDestroy (TeleportRow.source_sandbox_id r) f))
                          (Err SandboxError.NotFound)).

(** [backend_for] answers [NotFound] when the pool lost the channel it just
    warmed; the release reads the answer as the sandbox's.  The store entombs
    the source in either case, so the sandbox is still destroyed later. *)
Inductive taken_as_absent (r : Row) : cevent → Prop :=
| pool_missed : taken_as_absent r (Ev (BackendFor (TeleportRow.source_host_id r)) (Err SandboxError.NotFound)).

Inductive dest_drained (r : Row) : cevent → Prop :=
| drained sb a b c d :
    dest_drained r (Ev (Host (TeleportRow.dest_host_id r) (HDrainWait sb)) (Ok (DrainOutcome.Done a b c d))).

(** The destination host is gone, or its guest lost its peer. *)
Inductive dest_failed (r : Row) : cevent → Prop :=
| failed_host h : host_gone h = true →
    dest_failed r (Ev (Meta (MGetHost (TeleportRow.dest_host_id r))) (Ok h))
| failed_peer sb n m :
    dest_failed r (Ev (Host (TeleportRow.dest_host_id r) (HDrainWait sb)) (Ok (DrainOutcome.PeerLost n m))).

(** The destination's restore answered an error. *)
Inductive restore_failed (e : SandboxError.t) : cevent → Prop :=
| failed_restore h m f : restore_failed e (Ev (Host h (HRestore m f)) (Err e))
| failed_join : restore_failed e (Ev JoinRestore (Ok (Err e))).

(** The destination runs a harness of the binding, or the session has none. *)
Inductive harness_ready (r : Row) : cevent → Prop :=
| ready_attached e a e0 : (e0 ≤ a)%Z →
    harness_ready r (Ev (Meta (MBindingGenerations (TeleportRow.session_id r))) (Ok (e, a)))
| ready_none s sb e : harness_ready r (Ev (MaterializeResume s sb e) (Ok HarnessPlan.None_)).

Definition saw (P : cevent → Prop) (seg : list cevent) : Prop := Exists P seg.

Definition refusal_seen (seg : list cevent) : Prop :=
  ∃ e, image_refused e = true ∧ saw (restore_failed e) seg.
Definition failure_seen (seg : list cevent) : Prop := ∃ e, saw (restore_failed e) seg.

(** ** The discipline *)

(** The guest has left the source for the destination: the row can be read at
    admission, with an export, before the driver itself moved it on. *)
Definition in_blackout (r : Row) : Prop :=
  TeleportRow.phase r = TeleportPhase.Captured ∨
  TeleportRow.phase r = TeleportPhase.Admitted_ ∧ is_Some (TeleportRow.export_id r).

Definition at_source (r : Row) (h : HostId) (sb : SandboxId) (f : SessionFence) : Prop :=
  h = TeleportRow.source_host_id r ∧ sb = TeleportRow.source_sandbox_id r ∧ f = fence ctx.

(** A host call while the row [r] was read and [seg] happened since. *)
Definition host_allowed (r : Row) (seg : list cevent) (h : HostId) {A} (q : hreq A) : Prop :=
  match q with
  | HDestroy sb f =>
      at_source r h sb f ∧ TeleportRow.phase r = TeleportPhase.Attached ∧
        (TeleportRow.kind r = Live → saw (dest_drained r) seg) ∨
      h = TeleportRow.dest_host_id r ∧ TeleportRow.dest_sandbox_id r = Some sb ∧ f = fence ctx ∧
        (TeleportRow.phase r = TeleportPhase.RollingBack ∨ saw (dest_failed r) seg ∨
         in_blackout r ∧ failure_seen seg)
  | HResume sb f => at_source r h sb f ∧ TeleportRow.phase r = TeleportPhase.RollingBack
  | HMigrationAbort sb x f =>
      at_source r h sb f ∧ TeleportRow.export_id r = Some x ∧
      (TeleportRow.phase r = TeleportPhase.RollingBack ∨ in_blackout r ∧ refusal_seen seg)
  | HAbortUnserved sb x f =>
      at_source r h sb f ∧ TeleportRow.export_id r = Some x ∧ in_blackout r ∧ failure_seen seg
  | HMigrationCommit sb x f =>
      at_source r h sb f ∧ TeleportRow.export_id r = Some x ∧
      TeleportRow.phase r = TeleportPhase.Attached ∧ saw (dest_drained r) seg
  | HStartAgent sb _ _ f =>
      h = TeleportRow.dest_host_id r ∧ TeleportRow.dest_sandbox_id r = Some sb ∧ f = fence ctx ∧
      TeleportRow.phase r = TeleportPhase.Committed
  | HRestore _ f =>
      h = TeleportRow.dest_host_id r ∧ f = fence ctx ∧ TeleportRow.phase r = TeleportPhase.Captured
  | HDrainWait sb =>
      h = TeleportRow.dest_host_id r ∧ TeleportRow.dest_sandbox_id r = Some sb ∧
      TeleportRow.phase r = TeleportPhase.Attached
  | HSnapshotHold sb f | HPresetup sb f =>
      at_source r h sb f ∧ TeleportRow.phase r = TeleportPhase.Admitted_
  | HCapturePostcopy sb x f =>
      at_source r h sb f ∧ TeleportRow.export_id r = Some x ∧
      TeleportRow.phase r = TeleportPhase.Admitted_
  | HPing | HProbe _ => False
  end.

(** The session is made active again: the source runs, or the destination
    has its harness. *)
Definition active_allowed (r : Row) (seg : list cevent) (s : SessionId) (to : SessionState) : Prop :=
  s = TeleportRow.session_id r ∧
  match to with
  | Active => TeleportRow.phase r = TeleportPhase.RollingBack ∧ saw (source_acked r) seg ∨
              TeleportRow.phase r = TeleportPhase.Committed ∧ saw (harness_ready r) seg
  | Created => TeleportRow.phase r = TeleportPhase.Committed
  | Evacuating => saw (dest_failed r) seg ∨ in_blackout r ∧ failure_seen seg
  | _ => False
  end.

(** What an advance may write. *)
Definition advance_allowed (r : Row) (from to : TeleportPhase.t) (p : TeleportPatch.t) : Prop :=
  (from = TeleportRow.phase r ∨ from = TeleportPhase.Captured ∧ in_blackout r) ∧
  (TeleportPatch.kind p = None ∨ TeleportPatch.kind p = Some Snapshot) ∧
  match to with
  | TeleportPhase.Admitted_ => from = TeleportPhase.Admitted_ ∧ TeleportPatch.dest_sandbox_id p = None
  | TeleportPhase.Captured =>
      from = TeleportPhase.Admitted_ ∧ TeleportPatch.dest_sandbox_id p = None ∧
      (TeleportRow.kind r = Live → is_Some (TeleportRow.export_id r))
  | TeleportPhase.Restored =>
      from = TeleportPhase.Captured ∧ is_Some (TeleportPatch.dest_sandbox_id p)
  | TeleportPhase.Attached => from = TeleportPhase.Committed
  | TeleportPhase.RollingBack => True
  | _ => False
  end.

Definition meta_allowed (r : Row) (seg : list cevent) {A} (m : mreq A) : Prop :=
  match m with
  | MTeleportAdvance t from to p e =>
      t = TeleportRow.id r ∧ e = ctx_epoch ctx ∧ advance_allowed r from to p
  | MTeleportCommit t e =>
      t = TeleportRow.id r ∧ e = ctx_epoch ctx ∧ TeleportRow.phase r = TeleportPhase.Restored
  | MTeleportRelease t e how =>
      t = TeleportRow.id r ∧ e = ctx_epoch ctx ∧ TeleportRow.phase r = TeleportPhase.Attached ∧
      match how with
      | DestroyAcked => saw (source_destroyed r) seg ∨ saw (taken_as_absent r) seg
      | SourceHostGone => saw (source_host_gone r) seg
      end
  | MTeleportAbort t e =>
      t = TeleportRow.id r ∧ e = ctx_epoch ctx ∧ TeleportRow.phase r = TeleportPhase.RollingBack ∧
      saw (source_acked r) seg
  | MTeleportSettle t e s =>
      t = TeleportRow.id r ∧ e = ctx_epoch ctx ∧
      (TeleportSettle.entomb_source s = true →
       TeleportRow.phase r = TeleportPhase.RollingBack ∧ saw (source_lost r) seg ∨
       saw (dest_failed r) seg ∨ in_blackout r ∧ failure_seen seg)
  | MFencedTransitionEvents s e to _ _ => active_allowed r seg s to
  | MFencedTransition s e to _ => active_allowed r seg s to
  | MTransition s to _ => active_allowed r seg s to
  | MTombstone h sb _ =>
      h = TeleportRow.dest_host_id r ∧ TeleportRow.dest_sandbox_id r = Some sb
  | MTeleportAdmit _ | MOpenTeleport _ | MMarkDead _ | MAssignGuarded _ _ _ _ | MAssignHost _ _ => False
  | _ => True
  end.

(** Any request under row [r]. *)
Definition allowed (r : Row) (seg : list cevent) (X : Type) (q : creq X) : Prop :=
  match q with
  | Meta m => meta_allowed r seg m
  | Host h q => host_allowed r seg h q
  | SpawnRestore h _ f =>
      h = TeleportRow.dest_host_id r ∧ f = fence ctx ∧
      TeleportRow.phase r = TeleportPhase.Admitted_ ∧ is_Some (TeleportRow.export_id r)
  | Panic _ => False
  | _ => True
  end.

(** Without an open row: no host call, and no write but the admission. *)
Definition idle_allowed (X : Type) (q : creq X) : Prop :=
  match q with
  | Meta m =>
      match m with
      | MGetSession _ | MGetHost _ | MFcVersion _ | MListActiveHosts | MTeleportAdmit _ => True
      | _ => False
      end
  | Host _ _ | SpawnRestore _ _ _ | Panic _ => False
  | _ => True
  end.

Definition is_read {X} (q : creq X) : bool :=
  match q with Meta m => match m with MOpenTeleport _ => true | _ => false end | _ => false end.

Definition disciplined (h : list cevent) (X : Type) (q : creq X) : Prop :=
  if is_read q then True
  else match cur h with
       | Some (r, seg) => allowed r seg X q
       | None => idle_allowed X q
       end.

(** Rows as the drivers leave them: a live row has its export from the capture
    on, and a restored one its destination sandbox. *)
Definition live_ok (r : Row) : Prop := TeleportRow.kind r = Live → is_Some (TeleportRow.export_id r).

Definition row_ok (r : Row) : Prop :=
  match TeleportRow.phase r with
  | TeleportPhase.Captured => live_ok r
  | TeleportPhase.Restored | TeleportPhase.Committed | TeleportPhase.Attached | TeleportPhase.Done =>
      live_ok r ∧ is_Some (TeleportRow.dest_sandbox_id r)
  | _ => True
  end.

(** Answers: only well-formed rows are read. *)
Definition row_answers (h : list cevent) (X : Type) (q : creq X) (x : X) : Prop :=
  match read_of (Ev q x) with Some (Some r) => row_ok r | _ => True end.

(** *** From a segment to the whole history *)

Lemma allowed_no_read r seg X (q : creq X) : allowed r seg X q → is_read q = false.
Proof. destruct q as [A m| | | | | | | | | | | | | | | | | | | | | | | | | | | |]; try done. by destruct m. Qed.

Lemma read_of_other X (q : creq X) x : is_read q = false → read_of (Ev q x) = None.
Proof. destruct q as [A m| | | | | | | | | | | | | | | | | | | | | | | | | | | |]; try done. by destruct m. Qed.

Lemma wp_segment {A} r seg h (p : prog creq A) (Q : A → Prop) :
  cur h = Some (r, seg) →
  wp (fun _ _ _ _ => True) (allowed r) seg p (fun _ a => Q a) →
  wp row_answers disciplined h p (fun _ a => Q a).
Proof.
  revert seg h. induction p as [a|X q k IH]; intros seg h Hc; [done|]. intros [Hq Hk].
  pose proof (allowed_no_read _ _ _ _ Hq) as Hr. split.
  - unfold disciplined. by rewrite Hr, Hc.
  - intros x _. apply (IH x (seg ++ [Ev q x])); [|by apply Hk].
    rewrite cur_snoc. unfold cur_step. by rewrite read_of_other, Hc.
Qed.

Lemma wp_idle {A} h (p : prog creq A) (Q : A → Prop) :
  cur h = None → wp (fun _ _ _ _ => True) (fun _ => idle_allowed) [] p (fun _ a => Q a) →
  wp row_answers disciplined h p (fun _ a => Q a).
Proof.
  enough (∀ seg, cur h = None → wp (fun _ _ _ _ => True) (fun _ => idle_allowed) seg p (fun _ a => Q a) →
    wp row_answers disciplined h p (fun _ a => Q a)) by eauto.
  revert h. induction p as [a|X q k IH]; intros h seg Hc; [done|]. intros [Hq Hk].
  assert (Hr : is_read q = false).
  { destruct q as [B m| | | | | | | | | | | | | | | | | | | | | | | | | | | |]; try done. by destruct m. }
  split; [unfold disciplined; by rewrite Hr, Hc|].
  intros x _. eapply (IH x); [|by apply Hk]. rewrite cur_snoc. unfold cur_step. by rewrite read_of_other, Hc.
Qed.

(** *** One turn, step by step *)

Lemma saw_here P seg e : P e → saw P (seg ++ [e]).
Proof. intros H. unfold saw. rewrite Exists_app. right. by constructor. Qed.
Lemma saw_app P seg t : saw P seg → saw P (seg ++ t).
Proof. intros H. unfold saw. rewrite Exists_app. by left. Qed.
Lemma refusal_app seg t : refusal_seen seg → refusal_seen (seg ++ t).
Proof. intros (e&He&H). exists e. split; [done|by apply saw_app]. Qed.
Lemma failure_app seg t : failure_seen seg → failure_seen (seg ++ t).
Proof. intros (e&H). exists e. by apply saw_app. Qed.

Ltac seen := first
  [ assumption
  | apply saw_here; econstructor; first [done | eassumption]
  | apply saw_app; seen | apply refusal_app; seen | apply failure_app; seen ].

(** Every answer is possible. *)
Notation wpr r seg p Q := (wp (fun _ _ _ _ => True) (allowed r) seg p Q).
Notation any_result := (fun _ _ => True).

Lemma wp_expect {A} r seg (o : option A) msg Q :
  is_Some o → (∀ a, o = Some a → Q seg a) → wpr r seg (expect o msg) Q.
Proof. intros [a ->] H. by apply H. Qed.

(** Run the program to its next request. *)
Ltac wp_step :=
  lazymatch goal with
  | |- wp _ _ _ (Ret _) _ => apply wp_ret; cbv beta
  | |- wp _ _ _ (okay _) _ => apply wp_ret; cbv beta
  | |- wp _ _ _ (api_fail _) _ => apply wp_ret; cbv beta
  | |- wp _ _ _ (try_ _ _) _ => apply wp_try
  | |- wp _ _ _ (mbind _ _) _ => apply wp_bind
  | |- wp _ _ _ (ask _) _ => apply wp_ask; [|intros ? _; cbv beta]
  | |- wp _ _ _ (ask_err _ _) _ => apply wp_ask_err; [|intros [?|?] _; cbv beta iota]
  | |- wp _ _ _ (meta _) _ => unfold meta
  | |- wp _ _ _ (host _ _) _ => unfold host
  | |- wp _ _ _ (backend _) _ => unfold backend
  | |- wp _ _ _ (expect _ _) _ => apply wp_expect; [|intros ? ?; cbv beta]
  | |- wp _ _ _ (match ?x with _ => _ end) _ => destruct x eqn:?
  | |- match ?x with Ok _ => _ | Err _ => _ end => destruct x eqn:?
  | |- True => exact I
  end.
Ltac wps := repeat wp_step.

Section steps.
Context (r : Row).
Notation wpr' seg p Q := (wp (fun _ _ _ _ => True) (allowed r) seg p Q).

Lemma emit_all_wp seg s l :
  wpr' seg (emit_all s l) (fun seg' _ => ∃ t, seg' = seg ++ t).
Proof.
  revert seg. induction l as [|e l IH]; intros seg; cbn [emit_all].
  { wps. exists []. by rewrite app_nil_r. }
  apply wp_bind. unfold emit. apply wp_bind, wp_ask; [done|]. intros x _.
  assert (∀ t, wpr' (seg ++ t) (emit_all s l) (fun seg' _ => ∃ t, seg' = seg ++ t)) as IH'.
  { intros t. eapply wp_mono, IH. intros h _ (t'&->). exists (t ++ t'). by rewrite app_assoc. }
  wps; try done; rewrite <- ?app_assoc; apply IH'.
Qed.

Lemma publish_all_wp seg s l :
  wpr' seg (publish_all s l) (fun seg' _ => ∃ t, seg' = seg ++ t).
Proof.
  revert seg. induction l as [|[i e] l IH]; intros seg; cbn [publish_all].
  { wps. exists []. by rewrite app_nil_r. }
  wps; [done|]. eapply wp_mono, IH. intros h _ (t&->). eexists. by rewrite <- app_assoc.
Qed.

(** A fenced transition is one request the store sees. *)
Lemma transition_wp seg s f to disp Q :
  active_allowed r seg s to → (∀ t x, Q (seg ++ t) x) →
  wpr' seg (api (transition_with_fence s f to disp)) Q.
Proof.
  intros Ha HQ. unfold api, transition_with_fence. apply wp_bind. wps; try done; apply HQ.
Qed.

Lemma transition_emitting_wp seg s f to disp evs Q :
  active_allowed r seg s to → (∀ t x, Q (seg ++ t) x) →
  wpr' seg (api (transition_with_fence_emitting s f to disp evs)) Q.
Proof.
  intros Ha HQ. unfold api, transition_with_fence_emitting. apply wp_bind. wps; try done; try apply HQ.
  - eapply wp_mono, emit_all_wp. intros h _ (t&->). wps. rewrite <- app_assoc. apply HQ.
  - eapply wp_mono, publish_all_wp. intros h _ (t&->). wps. rewrite <- app_assoc. apply HQ.
Qed.

(** The row a step works on: the one read, or the one it just moved on. *)
Definition works_on (r' : Row) : Prop :=
  r' = r ∨ in_blackout r ∧ r' = r <| TeleportRow.phase := TeleportPhase.Captured |>.

Ltac at_row H := destruct H as [->|[? ->]]; cbn.

Lemma advance_wp r' seg to p Q :
  TeleportRow.id r' = TeleportRow.id r → advance_allowed r (TeleportRow.phase r') to p →
  (∀ t x, Q (seg ++ t) x) → wpr' seg (advance ctx r' to p) Q.
Proof. intros Hi Ha HQ. unfold advance. wps; try apply HQ. by cbn. Qed.

Lemma rollback_begin_wp r' seg e : works_on r' → wpr' seg (rollback_begin ctx r' e) any_result.
Proof.
  intros Hr. apply advance_wp; [by at_row Hr| |done].
  split; [|split; [by left|done]]. at_row Hr; auto.
Qed.

Definition move_failed (seg : list cevent) : Prop :=
  saw (dest_failed r) seg ∨ in_blackout r ∧ failure_seen seg.

Lemma move_failed_app seg t : move_failed seg → move_failed (seg ++ t).
Proof. intros [H|[? H]]; [left|right; split; [done|]]; seen. Qed.

Lemma destroy_destination_wp r' seg :
  works_on r' → (TeleportRow.phase r = TeleportPhase.RollingBack ∨ move_failed seg) →
  wpr' seg (destroy_destination ctx r') (fun seg' _ => ∃ t, seg' = seg ++ t).
Proof.
  intros Hr Hw. unfold destroy_destination, destination_gone.
  assert (Hw' : ∀ t, TeleportRow.phase r = TeleportPhase.RollingBack ∨ move_failed (seg ++ t)).
  { intros t. destruct Hw; [by left|right; by apply move_failed_app]. }
  wps; rewrite <- ?app_assoc; try done; try (exists []; by rewrite app_nil_r); try (by eexists).
  all: at_row Hr; solve [done | right; repeat split; [done..|apply Hw']].
Qed.

Lemma settle_target_wp r' seg session b :
  wpr' seg (settle_target r' session b) (fun seg' _ => ∃ t, seg' = seg ++ t).
Proof.
  unfold settle_target. wps; try done; try (by eexists). exists []. by rewrite app_nil_r.
Qed.

Lemma fail_move_wp r' seg e b :
  works_on r' → move_failed seg → wpr' seg (fail_move ctx r' e b) any_result.
Proof.
  intros Hr Hf. unfold fail_move. apply wp_try.
  eapply wp_mono, destroy_destination_wp; [|done|by right]. intros h [u|err] (t&->); [|done].
  assert (Hid : TeleportRow.id r' = TeleportRow.id r ∧
                TeleportRow.session_id r' = TeleportRow.session_id r) by (at_row Hr; done).
  destruct Hid as [Hi Hs].
  assert (Hend : ∀ t session, wpr' (seg ++ t) (settle_target r' session b)
    (fun h x => match x with
                | Ok target =>
                    wpr' h (do! _ := meta (MTeleportSettle (TeleportRow.id r') (ctx_epoch ctx)
                                             (TeleportSettle.Mk e (Some target) true)) in
                            okay (Some OpOutcome.Done)) any_result
                | Err _ => True
                end)).
  { clear t. intros t session. eapply wp_mono, settle_target_wp.
    intros h [x|x] (t'&->); [|done]. rewrite <- app_assoc. wps. split; [done|]. split; [done|].
    intros _. right. by apply move_failed_app. }
  wps; try done; rewrite <- ?app_assoc; [|apply Hend].
  apply transition_wp.
  - split; [done|]. by apply move_failed_app.
  - intros t' [x|x]; wps; try done. rewrite <- ?app_assoc. apply Hend.
Qed.

Lemma settle_lost_source_wp seg :
  TeleportRow.phase r = TeleportPhase.RollingBack → saw (source_lost r) seg →
  wpr' seg (settle_lost_source ctx r) any_result.
Proof.
  intros Hp Hl. unfold settle_lost_source. wps; [done|].
  eapply wp_mono, settle_target_wp. intros h [x|x] (t&->); wps.
  split; [done|]. split; [done|]. intros _. left. split; [done|]. seen.
Qed.

Lemma wait_attached_wp turns seg epoch started :
  wpr' seg (wait_attached turns r epoch started)
    (fun seg' x => ∃ t, seg' = seg ++ t ∧ (x = Ok true → saw (harness_ready r) seg')).
Proof.
  revert seg. induction turns as [|n IH]; intros seg; cbn [wait_attached].
  { wps. exists []. by rewrite app_nil_r. }
  wps; try done.
  - eexists. split; [done|]. intros _. destruct a as [e a]. case_bool_decide; [|done]. cbn in *.
    apply saw_here. by eapply ready_attached.
  - eexists. by rewrite <- app_assoc.
  - eapply wp_mono, IH. intros h b' (t&->&Hb). eexists. rewrite <- ?app_assoc in *. eauto.
  - by eexists.
Qed.

Lemma finish_attach_wp seg :
  TeleportRow.phase r = TeleportPhase.Committed → saw (harness_ready r) seg →
  wpr' seg (finish_attach ctx r) any_result.
Proof.
  intros Hp Hh. unfold finish_attach.
  assert (Hend : ∀ t evs, wpr' (seg ++ t)
    (api (transition_with_fence_emitting (TeleportRow.session_id r) (fence ctx) Active Retain evs))
    (fun h x => match x with
                | Ok _ => wpr' h (advance ctx r TeleportPhase.Attached TeleportPatch.default) any_result
                | Err _ => True
                end)).
  { intros t evs. apply transition_emitting_wp.
    - split; [done|]. right. split; [done|]. seen.
    - intros t' [x|x]; [|done]. apply advance_wp; [done| |done].
      split; [by left|]. split; [by left|done]. }
  wps; try done; rewrite <- ?app_assoc; apply Hend.
Qed.

Lemma finish_live_restore_wp r' seg x :
  works_on r' → in_blackout r → is_Some (TeleportRow.export_id r) →
  TeleportRow.phase r' = TeleportPhase.Captured →
  (∀ e, x = Err e → saw (restore_failed e) seg) →
  wpr' seg (finish_live_restore ctx r' x) any_result.
Proof.
  intros Hr Hb [xp Hx] Hp Hf. unfold finish_live_restore.
  assert (Hid : TeleportRow.id r' = TeleportRow.id r ∧
      TeleportRow.source_host_id r' = TeleportRow.source_host_id r ∧
      TeleportRow.source_sandbox_id r' = TeleportRow.source_sandbox_id r ∧
      TeleportRow.export_id r' = Some xp) by (at_row Hr; done).
  destruct Hid as (Hi&Hh&Hs&Hx').
  destruct x as [sb|e].
  { wps; [done|]. apply advance_wp; [done| |done]. rewrite Hp.
    split; [by auto|]. split; [by left|]. by eauto. }
  specialize (Hf e eq_refl).
  assert (Hg : wpr' seg (if image_refused e then
        do! _ := backend (TeleportRow.source_host_id r') in
        export ← expect (TeleportRow.export_id r') "live export";
        do! _ := host (TeleportRow.source_host_id r')
                   (HMigrationAbort (TeleportRow.source_sandbox_id r') export (fence ctx)) in
        rollback_begin ctx r' (SandboxError.to_string e)
      else
        unserved ← abort_unserved ctx r';
        match unserved with
        | Ok true => rollback_begin ctx r' (SandboxError.to_string e)
        | Ok false | Err _ =>
            if decide (SessionOp.attempts (ctx_op ctx) ≤ 3)%Z then
              okay (Some (OpOutcome.Retry (SandboxError.to_string e)))
            else fail_move ctx r' ("dest_lost_after_blackout: " +:+ SandboxError.to_string e) false
        end) any_result).
  { destruct (image_refused e) eqn:Hi'.
    - wps; try done; [|by apply rollback_begin_wp].
      rewrite Hh, Hs. split; [done|]. split; [congruence|]. right. split; [done|].
      exists e. split; [done|]. seen.
    - unfold abort_unserved. rewrite Hh, Hs, Hx'.
      wps; try done; try (by apply rollback_begin_wp).
      1: split; [done|]; split; [congruence|]; split; [done|]; exists e; seen.
      all: apply fail_move_wp; [done|]; right; split; [done|]; exists e; seen. }
  by destruct e; try apply Hg; apply rollback_begin_wp.
Qed.

Lemma resume_source_wp seg :
  TeleportRow.phase r = TeleportPhase.RollingBack →
  wpr' seg (resume_source ctx r)
    (fun h x => match x with
                | Ok _ => saw (source_acked r) h
                | Err SandboxError.NotFound => saw (source_lost r) h
                | _ => True
                end).
Proof.
  intros Hp. unfold resume_source.
  wps; try (repeat split; try done; by left).
  all: try match goal with x : () |- _ => destruct x end.
  all: repeat case_match; simplify_eq; try done; apply saw_here; constructor.
Qed.

Lemma rollback_wp seg :
  TeleportRow.phase r = TeleportPhase.RollingBack → wpr' seg (rollback ctx r) any_result.
Proof.
  intros Hp. unfold rollback. apply wp_try. eapply wp_mono, destroy_destination_wp; [|by left|by left].
  intros h [u|e] (t&->); [|done]. unfold source_gone. wps; try done.
  { apply settle_lost_source_wp; [done|]. apply saw_here. by constructor. }
  eapply wp_mono, resume_source_wp; [|done]. clear t. intros seg' [u'|e] Hs; [|destruct e; wps].
  2: by apply settle_lost_source_wp.
  wps; try done.
  - apply transition_emitting_wp; [split; [done|]; left; split; [done|seen]|].
    intros t' [x'|x']; wps. by (repeat split; try done; seen).
  - by (repeat split; try done; seen).
Qed.

Lemma release_source_wp seg :
  TeleportRow.phase r = TeleportPhase.Attached →
  (TeleportRow.kind r = Live → saw (dest_drained r) seg) →
  wpr' seg (release_source ctx r) any_result.
Proof.
  intros Hp Hd. unfold release_source, source_gone. wps; try done.
  all: try (left; repeat split; [done..|]; intros Hl; specialize (Hd Hl); seen).
  all: repeat split; try done.
  all: repeat match goal with x : () |- _ => destruct x end.
  all: repeat case_match; simplify_eq; try done.
  all: solve [ left; apply saw_here; constructor | right; apply saw_here; constructor
             | apply saw_here; by constructor ].
Qed.

Lemma release_wp seg :
  TeleportRow.phase r = TeleportPhase.Attached → row_ok r → wpr' seg (release ctx r) any_result.
Proof.
  intros Hp Hok. unfold row_ok in Hok. rewrite Hp in Hok. destruct Hok as [Hl [sb Hsb]].
  unfold release, destination_gone. wps; try done.
  { apply fail_move_wp; [by left|]. left. apply saw_here. by constructor. }
  - apply release_source_wp; [done|]. congruence.
  - destruct (Hl Heqt) as [xp Hx]. unfold release_live, source_gone. rewrite Hsb, Hx.
    wps; try done.
    all: try (apply release_source_wp; [done|]; intros _; seen).
    all: try (apply fail_move_wp; [by left|]; left; seen).
    all: by repeat split; try congruence; seen.
Qed.

Lemma attach_spawn_wp seg agent policy epoch :
  TeleportRow.phase r = TeleportPhase.Committed → is_Some (TeleportRow.dest_sandbox_id r) →
  wpr' seg (attach_spawn ctx r agent policy epoch) any_result.
Proof.
  intros Hp [sb Hsb]. unfold attach_spawn. rewrite Hsb. wps; try done.
  - by repeat split; congruence.
  - eapply wp_mono, wait_attached_wp. intros h [[]|e] (t&->&Hs); [| |done].
    + by apply finish_attach_wp; [|apply Hs].
    + wps; [done|]. apply finish_attach_wp; [done|]. apply saw_here. destruct a2 as [e a2].
      case_bool_decide; [done|]. eapply ready_attached. done.
  - apply transition_emitting_wp; [by split|]. intros t [y|y]; [|done].
    apply advance_wp; [done| |done]. split; [by left|]. split; [by left|done].
Qed.

Lemma attach_wp seg :
  TeleportRow.phase r = TeleportPhase.Committed → row_ok r → wpr' seg (attach ctx r) any_result.
Proof.
  intros Hp Hok. unfold row_ok in Hok. rewrite Hp in Hok. destruct Hok as [_ Hsb].
  unfold attach, destination_gone, attach_plan. wps; try done.
  - apply fail_move_wp; [by left|]. left. apply saw_here. by constructor.
  - apply advance_wp; [done| |done]. split; [by left|]. split; [by left|done].
  - apply finish_attach_wp; [done|]. apply saw_here. case_bool_decide; [|done]. by eapply ready_attached.
  - by apply attach_spawn_wp.
  - apply finish_attach_wp; [done|]. apply saw_here. by constructor.
Qed.

Lemma commit_wp seg :
  TeleportRow.phase r = TeleportPhase.Restored → wpr' seg (commit ctx r) any_result.
Proof. intros Hp. unfold commit. wps; try done. apply rollback_begin_wp. by left. Qed.

Lemma restore_wp seg :
  TeleportRow.phase r = TeleportPhase.Captured → row_ok r →
  wpr' seg (restore from_value placement_ttl ctx r) any_result.
Proof.
  intros Hp Hok. unfold row_ok in Hok. rewrite Hp in Hok. unfold restore.
  destruct (TeleportRow.kind r) eqn:Hk.
  - unfold restore_snapshot. wps; try done; try (apply rollback_begin_wp; by left).
    all: apply advance_wp; [done| |done]; rewrite Hp; split; [by left|]; split; [by left|]; by eauto.
  - wps; try done. apply finish_live_restore_wp; [by left|by left|by apply Hok|done|].
    intros e ->. apply saw_here. constructor.
Qed.

Lemma capture_postcopy_wp seg :
  TeleportRow.phase r = TeleportPhase.Admitted_ → is_Some (TeleportRow.export_id r) →
  wpr' seg (capture_postcopy from_value ctx r) any_result.
Proof.
  intros Hp [xp Hx]. unfold capture_postcopy. rewrite Hx.
  assert (Hb : in_blackout r) by (right; by eauto).
  wps; try done.
  - by repeat split; congruence.
  - unfold advance. wps; try done.
    + split; [done|]. split; [done|]. split; [by left|]. split; [by left|]. by rewrite Hx.
    + apply finish_live_restore_wp; [by right|done|by eauto|done|]. intros e ->. seen.
    + apply finish_live_restore_wp; [by right|done|by eauto|done|]. intros e ->. seen.
  - apply rollback_begin_wp. by left.
Qed.

Lemma capture_wp seg :
  TeleportRow.phase r = TeleportPhase.Admitted_ → wpr' seg (capture to_value from_value ctx r) any_result.
Proof.
  intros Hp. unfold capture, capture_live, capture_snapshot, capture_presetup.
  wps; try done; try (apply rollback_begin_wp; by left).
  all: try (apply capture_postcopy_wp; by eauto).
  all: apply advance_wp; [done| |done]; rewrite Hp; split; [by left|]; split; [by auto|].
  all: repeat split; congruence.
Qed.

Lemma drive_row_wp seg :
  row_ok r → wpr' seg (drive_row to_value from_value placement_ttl ctx r) any_result.
Proof.
  intros Hok. unfold drive_row, step. wps; try done. unfold phase_step.
  destruct (TeleportRow.phase r) eqn:Hp.
  - by apply capture_wp.
  - by apply restore_wp.
  - by apply commit_wp.
  - by apply attach_wp.
  - by apply release_wp.
  - wps.
  - by apply rollback_wp.
  - wps.
  - wps.
Qed.

End steps.

Lemma admit_idle target reason :
  all_req idle_allowed (admit_step caps_of sha256_of pool_floor_env placement_ttl ctx target reason).
Proof.
  unfold admit_step, admit_kind, admit_candidates, candidates_for, meta, api_fail.
  cbv zeta. requests; done.
Qed.

Lemma drive_admit_idle :
  all_req idle_allowed
    (drive_admit host_of_json reason_of_json caps_of sha256_of pool_floor_env placement_ttl ctx).
Proof.
  unfold drive_admit, meta. cbv zeta. case_bool_decide; [done|].
  apply all_req_try; [by apply all_req_ask_err|]. intros s. destruct (_ || _); [done|].
  apply all_req_try; [apply admit_idle|]. by intros [].
Qed.

Lemma drive_inner_wp turns h :
  wp row_answers disciplined h
    (drive_inner to_value from_value host_of_json reason_of_json caps_of sha256_of pool_floor_env
       placement_ttl turns ctx) any_result.
Proof.
  revert h. induction turns as [|turns IH]; intros h; cbn [drive_inner].
  { apply wp_bind, wp_ask; [|by intros []]. unfold disciplined. cbn. by destruct (cur h) as [[]|]. }
  apply wp_try. unfold meta. apply wp_ask_err; [done|]. intros [o|e] Hr; cbv beta iota; [|done].
  apply wp_try.
  assert (Hc : cur (h ++ [Ev (Meta (MOpenTeleport (SessionOp.session_id (ctx_op ctx)))) (Ok o)]) =
               (fun r => (r, [])) <$> o).
  { rewrite cur_snoc. by destruct o. }
  destruct o as [r|].
  - eapply wp_mono; [|apply (wp_segment r [] _ _ (fun _ => True)); [exact Hc|]; apply drive_row_wp, Hr].
    intros h' [[o|]|e] _; [done|apply IH|done].
  - eapply wp_mono; [|apply (wp_idle _ _ (fun _ => True)); [exact Hc|]; apply wp_only; [apply drive_admit_idle|done]].
    intros h' [[o|]|e] _; [done|apply IH|done].
Qed.

Lemma drive_wp turns h :
  wp row_answers disciplined h
    (drive to_value from_value host_of_json reason_of_json caps_of sha256_of pool_floor_env
       placement_ttl turns ctx) any_result.
Proof. apply wp_bind. eapply wp_mono, drive_inner_wp. done. Qed.

End discipline.
