(* ===== verification/TeleportPool.v ===== *)
(** * Several teleport drivers on one store

    Drivers run side by side, are cut anywhere and are started again under
    other epochs, while every other client calls the store.  The rows evolve
    along the phase table, stay well formed, and what a driver once read stays
    true; so no driver panics, and for one move the source is never resumed by
    one driver and given up by another. *)

From S2P Require Import Prelude Session Teleport OpLogSpec MetaTypes Placement MetaOps MetaSession.
From S2P Require Import MetaTeleport MetaHost MetaOutbox MetaStep MetaCalls HostProps Scenario.
From S2P Require Import Text Manifest Prog Rank Coord TeleportDriver TeleportSafe.
From Stdlib Require Import QArith.

(** ** What the teleport methods write *)

Definition writes_teleports (c : call) : bool :=
  match c with
  | TeleportAdmit _ _ | TeleportAdvance _ _ _ _ _ _ | TeleportCommit _ _ _ | TeleportRelease _ _ _ _
  | TeleportSettleC _ _ _ _ | TeleportAbort _ _ _ => true
  | _ => false
  end.

Lemma strikes_teleports grace l acc :
  teleports (fold_left (MetaSession.strike grace) l acc).2 = teleports acc.2.
Proof.
  apply (fold_keeps (fun acc => teleports acc.2)). intros [c d] id. cbn.
  destruct (sessions d !! id); [|done]. by destruct (bool_decide _).
Qed.

Lemma clear_strikes_teleports l d : teleports (fold_left MetaSession.clear_strikes l d) = teleports d.
Proof.
  apply (fold_keeps teleports). intros d' id. unfold MetaSession.clear_strikes.
  by destruct (sessions d' !! id).
Qed.

Lemma append_events_teleports id now l acc :
  teleports (fold_left (MetaSession.append_event id now) l acc).2 = teleports acc.2.
Proof.
  apply (fold_keeps (fun acc => teleports acc.2)). intros [c d] ev. cbn.
  by destruct (sessions d !! id).
Qed.

Lemma finished_teleports t now d :
  teleports (MetaTeleport.append_teleport_finished t now d).2 = teleports d.
Proof.
  unfold MetaTeleport.append_teleport_finished. destruct (teleports d !! t) as [r|]; [|done].
  destruct (negb _); [done|]. by destruct (sessions d !! _).
Qed.

Ltac frame_loops_tel :=
  repeat match goal with H : _ = (_, ?d) |- context [?d] =>
    apply (f_equal snd) in H; cbn [snd] in H; subst d end;
  unfold log_transition; cbn [teleports setter];
  rewrite ?strikes_teleports, ?append_events_teleports; cbn [snd];
  rewrite ?clear_strikes_teleports; try done.

Lemma other_call_frame c st :
  writes_teleports c = false → teleports (db (MetaCalls.exec c st)) = teleports (db st).
Proof.
  intros Hc. destruct (is_op_call c) eqn:Ec; [apply (of_tel _ _ (op_call_frame c st Ec))|].
  destruct c; try done; cbn [MetaCalls.exec];
    try match goal with |- context [MetaOutbox.exec ?c st] => destruct c; cbn [MetaOutbox.exec] end;
    match goal with |- teleports (db (?m st).2) = _ =>
      assert (Hk : keeps teleports (teleports (db st)) m); [unfold_head m; keep|by apply Hk] end;
    frame_loops_tel; try (repeat case_match; done).
  all: etrans; [apply (fold_keeps teleports); intros d' s; cbn; by repeat case_match|done].
Qed.

(** A teleport method writes the row it names, if it writes one. *)
Definition row_write (t : TeleportId) (W : TeleportRow.t → TeleportRow.t → Prop) (d d' : SimDb) : Prop :=
  teleports d' = teleports d ∨
  ∃ r r', teleports d !! t = Some r ∧ W r r' ∧ teleports d' = <[t := r']> (teleports d).

Definition advanced (from to : TeleportPhase.t) (patch : TeleportPatch.t) (r r' : TeleportRow.t) : Prop :=
  TeleportRow.phase r = from ∧ TeleportPhase.can_transition_to from to = true ∧
  ∃ now, r' = r <| TeleportRow.phase := to |>
      <| TeleportRow.dest_sandbox_id ::= MetaTeleport.or_else (TeleportPatch.dest_sandbox_id patch) |>
      <| TeleportRow.snapshot_id ::= MetaTeleport.or_else (TeleportPatch.snapshot_id patch) |>
      <| TeleportRow.export_id ::= MetaTeleport.or_else (TeleportPatch.export_id patch) |>
      <| TeleportRow.live_payload ::= MetaTeleport.or_else (TeleportPatch.live_payload patch) |>
      <| TeleportRow.kind := default (TeleportRow.kind r) (TeleportPatch.kind patch) |>
      <| TeleportRow.error := TeleportPatch.error patch |>
      <| TeleportRow.attempts ::= Z.succ |> <| TeleportRow.updated_at := now |>
      <| TeleportRow.finished_at := if TeleportPhase.is_terminal to then Some now else None |>.

(** A write of the phase and of bookkeeping fields. *)
Definition moved_to (P : TeleportRow.t → Prop) (to : TeleportPhase.t) (r r' : TeleportRow.t) : Prop :=
  P r ∧ TeleportRow.phase r' = to ∧ TeleportRow.id r' = TeleportRow.id r ∧
  TeleportRow.session_id r' = TeleportRow.session_id r ∧
  TeleportRow.source_host_id r' = TeleportRow.source_host_id r ∧
  TeleportRow.source_sandbox_id r' = TeleportRow.source_sandbox_id r ∧
  TeleportRow.dest_host_id r' = TeleportRow.dest_host_id r ∧
  TeleportRow.kind r' = TeleportRow.kind r ∧ TeleportRow.export_id r' = TeleportRow.export_id r ∧
  TeleportRow.dest_sandbox_id r' = TeleportRow.dest_sandbox_id r.

Lemma advance_writes t from to patch e now st :
  row_write t (advanced from to patch) (db st) (db (MetaTeleport.teleport_advance t from to patch e now st).2).
Proof.
  unfold MetaTeleport.teleport_advance. gated st; [by left|].
  destruct (negb (TeleportPhase.can_transition_to from to)) eqn:Ec; [by left|]. cbn beta iota.
  destruct (teleports (db st) !! t) as [r|] eqn:Et; [|by left].
  destruct (_ || _) eqn:Eg; [by left|]. bool_prop.
  match goal with |- context [MetaTeleport.finish_event t now ?x st] =>
    destruct (finish_event_run t now x st) as (st'&->&Hd) end.
  cbn [snd]. right. exists r. eexists. split; [done|]. rewrite Hd, finished_teleports.
  split; [|reflexivity]. split; [done|]. split; [done|]. by exists now.
Qed.

Lemma abort_writes t e now st : ∃ err,
  row_write t (advanced TeleportPhase.RollingBack TeleportPhase.Aborted
                 (TeleportPatch.Mk None None None None None err))
    (db st) (db (MetaTeleport.teleport_abort t e now st).2).
Proof.
  unfold MetaTeleport.teleport_abort. run_m. destruct (outage st) eqn:Eo; cbn beta iota.
  - exists None. by left.
  - eexists. apply advance_writes.
Qed.

Lemma commit_writes t e now st :
  row_write t (moved_to (fun r => TeleportRow.phase r = TeleportPhase.Restored ∧
                                  is_Some (TeleportRow.dest_sandbox_id r)) TeleportPhase.Committed)
    (db st) (db (MetaTeleport.teleport_commit t e now st).2).
Proof.
  unfold MetaTeleport.teleport_commit. gated st; [by left|].
  destruct (teleports (db st) !! t) as [r|] eqn:Et; cbn beta iota; [|by left].
  destruct (_ && _) eqn:Ep; cbn beta iota; [|by left]. bool_prop.
  destruct (sessions (db st) !! TeleportRow.session_id r) as [s|] eqn:Es; cbn beta iota; [|by left].
  destruct (_ && _ && _ && _); cbn beta iota; [|by left]. cbn [snd].
  db_red. right. exists r. eexists. split; [done|]. split; [|reflexivity]. split; [done|].
  done.
Qed.

Lemma release_writes t e how now st :
  row_write t (moved_to (fun r => TeleportRow.phase r = TeleportPhase.Attached) TeleportPhase.Done)
    (db st) (db (MetaTeleport.teleport_release_source t e how now st).2).
Proof.
  unfold MetaTeleport.teleport_release_source. gated st; [by left|].
  destruct (teleports (db st) !! t) as [r|] eqn:Et; [|by left].
  destruct (_ || _) eqn:Eg; [by left|]. destruct (match how with DestroyAcked => _ | _ => _ end); [by left|].
  bool_prop.
  match goal with |- context [MetaTeleport.finish_event t now ?x st] =>
    destruct (finish_event_run t now x st) as (st'&->&Hd) end.
  cbn [snd]. rewrite Hd. right. exists r. eexists. rewrite finished_teleports.
  split; [done|]. split; [|reflexivity]. done.
Qed.

Lemma settle_teleport_tel t r settle ev now st :
  ∃ r', moved_to (fun _ => True) TeleportPhase.Failed r r' ∧
  teleports (db (MetaTeleport.settle_teleport t r settle ev now st).2) = <[t := r']> (teleports (db st)).
Proof.
  unfold MetaTeleport.settle_teleport.
  assert (Hw : ∃ st1, when (TeleportSettle.entomb_source settle)
    (modify_db (entomb (TeleportRow.source_host_id r) (TeleportRow.source_sandbox_id r)
       (Some (TeleportRow.session_id r)) now)) st = (Ok tt, st1) ∧
    teleports (db st1) = teleports (db st)).
  { run_m. by destruct (TeleportSettle.entomb_source settle); eexists. }
  destruct Hw as (st1&Hrun&Ht1). unfold mbind at 1, M_bind. rewrite Hrun. run_m.
  match goal with |- context [MetaTeleport.append_teleport_finished t now (put_teleport t ?r' ?d)] =>
    exists r'; pose proof (finished_teleports t now (put_teleport t r' d)) as Hf end.
  split; [done|].
  destruct (MetaTeleport.append_teleport_finished _ _ _) as [fin d3].
  match goal with |- context [for_each ?l _ ?x] =>
    destruct (for_each_notify_db l "session_events" (fun si => PEvent si.1 si.2) x)
      as (st4&Hfe&Hd4) end.
  unfold notify in Hfe. rewrite Hfe. cbn beta iota.
  assert (Hgoal : teleports (db st4) = teleports d3) by (by rewrite Hd4).
  cbn in Hf. rewrite Ht1 in Hf. rewrite <- Hf, <- Hgoal. by destruct (bool_decide _).
Qed.

Lemma settle_writes t e settle now st :
  row_write t (moved_to (fun r => TeleportPhase.is_terminal (TeleportRow.phase r) = false) TeleportPhase.Failed)
    (db st) (db (MetaTeleport.teleport_settle t e settle now st).2).
Proof.
  unfold MetaTeleport.teleport_settle. gated st; [by left|].
  destruct (teleports (db st) !! t) as [r|] eqn:Et; [|by left].
  destruct (_ || _) eqn:Eg; [by left|]. apply orb_false_iff in Eg as [Hterm _].
  destruct (settle_session_run t r settle now st) as [[x ->]|(o&st'&->&Hp&Ht)]; [by left|].
  destruct (settle_teleport_tel t r settle o now st') as (r'&[_ Hr']&E). rewrite Ht in E.
  right. by exists r, r'.
Qed.

(** The admission adds a row of an id that was not there. *)
Lemma admit_writes req now st :
  hosts_keyed (db st) →
  let d := db st in let d' := db (MetaTeleport.teleport_admit req now st).2 in
  teleports d' = teleports d ∨
  ∃ r, TeleportRow.id r = TeleportAdmitRequest.id req ∧ teleports d !! TeleportRow.id r = None ∧
       TeleportRow.phase r = TeleportPhase.Admitted_ ∧
       TeleportRow.dest_host_id r ≠ TeleportRow.source_host_id r ∧
       teleports d' = <[TeleportRow.id r := r]> (teleports d).
Proof.
  intros Hkeyed. unfold MetaTeleport.teleport_admit. gated st; [by left|].
  set (sid := TeleportAdmitRequest.session_id req).
  destruct (sessions (db st) !! sid) as [s|] eqn:Es; cbn beta iota; [|by left].
  destruct (bool_decide _); cbn beta iota; [|by left].
  destruct (existsb _ _) eqn:Eo; [by left|]. destruct (negb _) eqn:Ea; [by left|].
  destruct (SessRow.host_id s) as [src|]; [|by left].
  destruct (SessRow.sandbox_id s) as [sb|]; [|by left].
  destruct (pick_host_2d _ _ _ _ _ _) as [dest|] eqn:Ep; [|by left].
  destruct (bool_decide (is_Some (teleports _ !! _))) eqn:Et; [by left|]. bool_prop.
  apply eq_None_not_Some in Et.
  destruct (i32_try_from _) as [cpu|]; cbn beta iota; [|by left]. cbn [snd].
  db_red. right. match goal with |- context [put_teleport _ ?row _] => exists row end.
  repeat (split; [try done|]); [|reflexivity]. cbn.
  pose proof (pick_host_2d_spec (env_cpu_overcommit st) (db st) (TeleportAdmitRequest.mem_budget_mib req)
    (TeleportAdmitRequest.cpu_budget_vcpus req)) as Hs.
  match type of Ep with pick_host_2d _ _ _ _ ?c ?k = _ => specialize (Hs c k Hkeyed) end.
  rewrite Ep in Hs. apply placement_spec_elem in Hs as [Hin _]; [|apply take_sub].
  apply elem_of_filterb in Hin as [_ Hc]. bool_prop. done.
Qed.

(** ** How rows evolve *)

(** An edge of the phase table, or the failure of an open move. *)
Definition phase_next (p q : TeleportPhase.t) : Prop :=
  TeleportPhase.can_transition_to p q = true ∨
  TeleportPhase.is_terminal p = false ∧ q = TeleportPhase.Failed.

Definition committed_side (p : TeleportPhase.t) : bool :=
  match p with
  | TeleportPhase.Committed | TeleportPhase.Attached | TeleportPhase.Done | TeleportPhase.Failed => true
  | _ => false
  end.

Definition rolled_side (p : TeleportPhase.t) : bool :=
  match p with
  | TeleportPhase.RollingBack | TeleportPhase.Aborted | TeleportPhase.Failed => true
  | _ => false
  end.

Lemma sides_closed p q :
  rtc phase_next p q →
  (committed_side p = true → committed_side q = true) ∧ (rolled_side p = true → rolled_side q = true).
Proof.
  induction 1 as [p|p q s H _ [IH1 IH2]]; [done|].
  split; intros Hp; [apply IH1|apply IH2]; destruct H as [H|[_ ->]]; try done; by destruct p, q.
Qed.

(** A later version of a row. *)
Record evolves (r r' : TeleportRow.t) : Prop := {
  ev_id : TeleportRow.id r' = TeleportRow.id r;
  ev_session : TeleportRow.session_id r' = TeleportRow.session_id r;
  ev_source : TeleportRow.source_host_id r' = TeleportRow.source_host_id r;
  ev_sandbox : TeleportRow.source_sandbox_id r' = TeleportRow.source_sandbox_id r;
  ev_dest : TeleportRow.dest_host_id r' = TeleportRow.dest_host_id r;
  ev_phase : rtc phase_next (TeleportRow.phase r) (TeleportRow.phase r');
  ev_kind : TeleportRow.kind r' = Live → TeleportRow.kind r = Live;
  ev_export : is_Some (TeleportRow.export_id r) → is_Some (TeleportRow.export_id r');
}.

Lemma row_evolves_refl r : evolves r r.
Proof. by split. Qed.

Lemma row_evolves_trans r1 r2 r3 : evolves r1 r2 → evolves r2 r3 → evolves r1 r3.
Proof. intros [] []. split; try congruence; try by eauto. by etrans. Qed.

Lemma evolves_live r r' : evolves r r' → live_ok r → live_ok r'.
Proof. intros [] H Hk. auto. Qed.

(** Every row is still there, in a later version. *)
Definition rows_evolve (d d' : SimDb) : Prop :=
  ∀ t r, teleports d !! t = Some r → ∃ r', teleports d' !! t = Some r' ∧ evolves r r'.

Definition row_inv (r : TeleportRow.t) : Prop :=
  row_ok r ∧ TeleportRow.dest_host_id r ≠ TeleportRow.source_host_id r.
Definition rows_inv (d : SimDb) : Prop := ∀ t r, teleports d !! t = Some r → row_inv r.

Definition good_change (d d' : SimDb) : Prop := rows_evolve d d' ∧ rows_inv d'.

Lemma same_rows_good d d' : rows_inv d → teleports d' = teleports d → good_change d d'.
Proof.
  intros Hi E. split; intros t r Ht; rewrite E in *; [|by eapply Hi].
  exists r. split; [done|apply row_evolves_refl].
Qed.

Lemma row_write_good t W d d' :
  rows_inv d → (∀ r r', teleports d !! t = Some r → row_inv r → W r r' → evolves r r' ∧ row_ok r') →
  row_write t W d d' → good_change d d'.
Proof.
  intros Hi HW [E|(r&r'&Ht&Hw&E)]; [by apply same_rows_good|].
  destruct (HW r r' Ht (Hi _ _ Ht) Hw) as [He Hok]. split; intros t0 r0; rewrite E.
  - intros Ht0. rewrite lookup_insert. case_decide as Hd; subst; simplify_eq; [by eauto|].
    exists r0. split; [done|apply row_evolves_refl].
  - intros [[<- <-]|[_ Ht0]]%lookup_insert_Some; [|by eapply Hi].
    split; [done|]. rewrite (ev_dest _ _ He), (ev_source _ _ He). by apply (Hi _ _ Ht).
Qed.

(** A phase write that keeps the rest of the row. *)
Lemma moved_good P to r r' :
  moved_to P to r r' → phase_next (TeleportRow.phase r) to →
  (row_ok r → P r → row_ok (r <| TeleportRow.phase := to |>)) → row_ok r →
  evolves r r' ∧ row_ok r'.
Proof.
  intros (HP&Hph&Hid&Hs&Hsrc&Hsb&Hd&Hk&Hx&Hdsb) Hn Hok Hr. split.
  - split; try congruence. rewrite Hph. by apply rtc_once.
  - specialize (Hok Hr HP). unfold row_ok, live_ok in *. cbn in Hok. rewrite Hph, Hk, Hx, Hdsb. done.
Qed.

Lemma advanced_evolves from to p r r' :
  advanced from to p r r' → (TeleportPatch.kind p = None ∨ TeleportPatch.kind p = Some Snapshot) →
  evolves r r' ∧ TeleportRow.phase r' = to.
Proof.
  intros (Hf&Ht&now&->) Hk. split; [|done]. split; try done; cbn.
  - apply rtc_once. left. by rewrite Hf.
  - destruct Hk as [->| ->]; done.
  - by destruct (TeleportPatch.export_id p).
Qed.

(** What a driver's advance may write is well formed, given that the row it
    read is an earlier version of the stored one. *)
Lemma advance_good r0 from to p r r' :
  advance_allowed r0 from to p → evolves r0 r → row_ok r → advanced from to p r r' → row_ok r'.
Proof.
  intros (Hfrom&Hkind&Hto) He Hok Ha. destruct (advanced_evolves _ _ _ _ _ Ha Hkind) as [He' Hp'].
  destruct Ha as (Hf&Hedge&now&Er'). unfold row_ok in *. rewrite Hp'. rewrite Hf in Hok.
  destruct to; try done.
  - apply (evolves_live r); [done|]. apply (evolves_live r0); [done|]. exact (proj2 (proj2 Hto)).
  - destruct Hto as [-> [sb Hsb]]. split; [by apply (evolves_live r)|]. subst r'. cbn. rewrite Hsb. by eauto.
  - subst from. destruct Hok as [Hl Hd]. split; [by apply (evolves_live r)|]. subst r'. cbn.
    by destruct (TeleportPatch.dest_sandbox_id p); [eauto|].
Qed.

(** ** The pool *)

Section pool.
Context (to_value : SnapshotMetadata.t → result json string)
  (from_value : json → result SnapshotMetadata.t string)
  (host_of_json : json → option HostId) (reason_of_json : json → option TeleportReason).
Context (caps_of : json → HostCapabilities.t) (sha256_of : json → string)
  (pool_floor_env : option Z) (placement_ttl : Duration).

(** A driver: its op, what it asked and was answered, and what is left. *)
Record driver := MkDriver { d_ctx : OpCtx; d_hist : list cevent; d_prog : prog creq OpOutcome.t }.
Record world := MkWorld { w_store : Store; w_drivers : list driver }.

(** A method of the store: applied and answered, applied and the answer lost,
    or never applied. *)
Inductive method {A} (m : DateTime → M A) (st : Store) : result A MetaError → Store → Prop :=
| m_answered now : method m st (m now st).1 (m now st).2
| m_lost now e : method m st (Err e) (m now st).2
| m_unsent e : method m st (Err e) st.

(** The teleport methods are the store's.  Any other request is answered
    anyhow; what it does to the store is one of the calls of other clients. *)
Definition mstep {A} (m : mreq A) (st : Store) (x : result A MetaError) (st' : Store) : Prop :=
  match m in mreq A return result A MetaError → Prop with
  | MOpenTeleport s => fun x => method (fun _ => MetaTeleport.open_teleport_for_session s) st x st'
  | MTeleportAdmit req => fun x => method (MetaTeleport.teleport_admit req) st x st'
  | MTeleportAdvance t from to p e => fun x => method (MetaTeleport.teleport_advance t from to p e) st x st'
  | MTeleportCommit t e => fun x => method (MetaTeleport.teleport_commit t e) st x st'
  | MTeleportRelease t e how => fun x => method (MetaTeleport.teleport_release_source t e how) st x st'
  | MTeleportSettle t e s => fun x => method (MetaTeleport.teleport_settle t e s) st x st'
  | MTeleportAbort t e => fun x => method (MetaTeleport.teleport_abort t e) st x st'
  | _ => fun _ => st' = st
  end x.

Definition answer {X} (q : creq X) (st : Store) (x : X) (st' : Store) : Prop :=
  match q in creq X return X → Prop with
  | Meta m => fun x => mstep m st x st'
  | _ => fun _ => st' = st
  end x.

Inductive wstep : world → world → Prop :=
| w_start st ds ctx turns :
    wstep (MkWorld st ds)
      (MkWorld st (ds ++ [MkDriver ctx []
        (drive to_value from_value host_of_json reason_of_json caps_of sha256_of pool_floor_env
           placement_ttl turns ctx)]))
| w_call st ds c :
    writes_teleports c = false → call_ok c st → wstep (MkWorld st ds) (MkWorld (MetaCalls.exec c st) ds)
| w_ask st ds i ctx h X (q : creq X) k x st' :
    ds !! i = Some (MkDriver ctx h (Do q k)) → answer q st x st' →
    wstep (MkWorld st ds) (MkWorld st' (<[i := MkDriver ctx (h ++ [Ev q x]) (k x)]> ds)).

(** Driver [d] made request [q] while the row it worked on was [r], after [seg]
    had happened since it read the row. *)
Definition asked_after (d : driver) (r : TeleportRow.t) (seg : list cevent) {X} (q : creq X) : Prop :=
  ∃ h1 x h2, d_hist d = h1 ++ Ev q x :: h2 ∧ cur h1 = Some (r, seg).
Definition asked (d : driver) (r : TeleportRow.t) {X} (q : creq X) : Prop := ∃ seg, asked_after d r seg q.

(** *** The invariant *)

Definition seen_in (d : SimDb) (r : TeleportRow.t) : Prop :=
  ∃ r', teleports d !! TeleportRow.id r = Some r' ∧ evolves r r'.

Record driver_inv (st : Store) (d : driver) : Prop := {
  di_wp : wp row_answers (disciplined (d_ctx d)) (d_hist d) (d_prog d) (fun _ _ => True);
  di_allowed : Prog.allowed (disciplined (d_ctx d)) (d_hist d);
  di_reads : ∀ e r, e ∈ d_hist d → read_of e = Some (Some r) → seen_in (db st) r;
}.

(** Some driver read [r]. *)
Definition was_read (w : world) (r : TeleportRow.t) : Prop :=
  ∃ d e, d ∈ w_drivers w ∧ e ∈ d_hist d ∧ read_of e = Some (Some r).

Record pool_inv (w : world) : Prop := {
  pi_store : minv (db (w_store w));
  pi_rows : rows_inv (db (w_store w));
  pi_drivers : ∀ i d, w_drivers w !! i = Some d → driver_inv (w_store w) d;
  (* the versions of one row that were read are ordered *)
  pi_order : ∀ r1 r2, was_read w r1 → was_read w r2 → TeleportRow.id r1 = TeleportRow.id r2 →
    evolves r1 r2 ∨ evolves r2 r1;
}.

Lemma seen_later d d' r : rows_evolve d d' → seen_in d r → seen_in d' r.
Proof.
  intros He (r1&H1&E1). destruct (He _ _ H1) as (r2&H2&E2). exists r2.
  split; [done|by eapply row_evolves_trans].
Qed.

Lemma driver_later st st' d : rows_evolve (db st) (db st') → driver_inv st d → driver_inv st' d.
Proof. intros He []. split; [done..|]. intros. by eapply seen_later, di_reads0. Qed.

Lemma cur_read h r seg : cur h = Some (r, seg) → ∃ e, e ∈ h ∧ read_of e = Some (Some r).
Proof.
  revert r seg. induction h as [|e h IH] using rev_ind; [done|]. intros r seg. rewrite cur_snoc.
  unfold cur_step. destruct (read_of e) as [[r0|]|] eqn:Er.
  - intros [= <- <-]. exists e. split; [|done]. apply elem_of_app. right. by apply list_elem_of_singleton.
  - done.
  - destruct (cur h) as [[r1 s1]|]; [|done]. intros [= <- <-].
    destruct (IH r1 s1 eq_refl) as (e0&Hin&?). exists e0. rewrite elem_of_app. auto.
Qed.

(** What the store reads is one of its rows. *)
Lemma read_row s st x st' :
  method (fun _ => MetaTeleport.open_teleport_for_session s) st x st' →
  st' = st ∧ ∀ r, x = Ok (Some r) → ∃ t, teleports (db st) !! t = Some r.
Proof.
  assert (Hs : ∀ now : DateTime, (MetaTeleport.open_teleport_for_session s st).2 = st).
  { intros now. unfold MetaTeleport.open_teleport_for_session. by gated st. }
  intros H. destruct H as [now|now e|e]; (split; [by try apply Hs|]); try done.
  intros r. unfold MetaTeleport.open_teleport_for_session. gated st. intros [= Hf].
  apply find_some in Hf as [Hin _]. apply list_elem_of_In, elem_of_values in Hin. exact Hin.
Qed.

Lemma method_cases {A} (m : DateTime → M A) st x st' (P : Store → Prop) :
  method m st x st' → P st → (∀ now, P (m now st).2) → P st'.
Proof. intros [] Hst Hm; auto. Qed.

Definition step_ok (st st' : Store) : Prop := minv (db st') ∧ good_change (db st) (db st').

Lemma step_ok_refl st : minv (db st) → rows_inv (db st) → step_ok st st.
Proof. intros Hm Hr. split; [done|]. by apply same_rows_good. Qed.

Lemma method_ok {A} (m : DateTime → M A) (c : DateTime → call) st x st' :
  minv (db st) → rows_inv (db st) → method m st x st' →
  (∀ now, MetaCalls.exec (c now) st = (m now st).2) → (∀ now, call_ok (c now) st) →
  (∀ now, good_change (db st) (db (m now st).2)) → step_ok st st'.
Proof.
  intros Hm Hr H Hc Hok Hg. apply (method_cases m st x st' (step_ok st)); [done|by apply step_ok_refl|].
  intros now. split; [|apply Hg]. rewrite <- Hc. by apply exec_inv.
Qed.

Lemma admit_ok req st x st' :
  minv (db st) → rows_inv (db st) → method (MetaTeleport.teleport_admit req) st x st' → step_ok st st'.
Proof.
  intros Hm Hr H. apply (method_ok _ (TeleportAdmit req) _ _ _ Hm Hr H); [done..|].
  intros now. destruct (admit_writes req now st (mi_hosts_keyed _ Hm)) as [E|(r&_&Hn&Hp&Hd&E)].
  - by apply same_rows_good.
  - split; intros t r0; rewrite E; [|intros [[<- <-]|[_ H0]]%lookup_insert_Some].
    + intros H0. rewrite lookup_insert_ne by congruence. exists r0. split; [done|apply row_evolves_refl].
    + split; [|done]. unfold row_ok. by rewrite Hp.
    + by eapply Hr.
Qed.

Lemma open_next p : TeleportPhase.is_terminal p = false → phase_next p TeleportPhase.Failed.
Proof. by right. Qed.

(** What a disciplined driver asks of the store keeps the rows. *)
Lemma row_call_ok ctx r seg st {A} (m : mreq A) x st' :
  minv (db st) → rows_inv (db st) → seen_in (db st) r → meta_allowed ctx r seg m →
  mstep m st x st' → step_ok st st'.
Proof.
  intros Hm Hr (r1&Ht1&He1) Ha H. destruct m; try (cbn in H; subst st'; by apply step_ok_refl); try done.
  - destruct Ha as (->&->&Ha). apply (method_ok _ (TeleportAdvance (TeleportRow.id r) from to patch (ctx_epoch ctx)) _ _ _ Hm Hr H);
      [done..|]. intros now. eapply row_write_good, advance_writes; [done|].
    intros r2 r3 Ht2 [Hok _] Hw. simplify_eq. split; [|by eapply advance_good].
    eapply (advanced_evolves _ _ _ _ _ Hw). apply Ha.
  - destruct Ha as (->&->&Ha). apply (method_ok _ (TeleportCommit (TeleportRow.id r) (ctx_epoch ctx)) _ _ _ Hm Hr H);
      [done..|]. intros now. eapply row_write_good, commit_writes; [done|].
    intros r2 r3 Ht2 [Hok _] Hw. eapply moved_good; [done| | |done].
    + left. destruct Hw as [[-> _] _]. done.
    + unfold row_ok. cbn. intros H2 [Hp Hd]. rewrite Hp in H2. done.
  - destruct Ha as (->&->&Ha). apply (method_ok _ (TeleportRelease (TeleportRow.id r) (ctx_epoch ctx) how) _ _ _ Hm Hr H);
      [done..|]. intros now. eapply row_write_good, release_writes; [done|].
    intros r2 r3 Ht2 [Hok _] Hw. eapply moved_good; [done| | |done].
    + left. destruct Hw as [-> _]. done.
    + unfold row_ok. cbn. intros H2 Hp. rewrite Hp in H2. done.
  - destruct Ha as (->&->&Ha). apply (method_ok _ (TeleportSettleC (TeleportRow.id r) (ctx_epoch ctx) settle) _ _ _ Hm Hr H);
      [done..|]. intros now. eapply row_write_good, settle_writes; [done|].
    intros r2 r3 Ht2 [Hok _] Hw. eapply moved_good; [done| |done|done].
    apply open_next. by destruct Hw.
  - destruct Ha as (->&->&Ha). apply (method_ok _ (TeleportAbort (TeleportRow.id r) (ctx_epoch ctx)) _ _ _ Hm Hr H);
      [done..|]. intros now. destruct (abort_writes (TeleportRow.id r) (ctx_epoch ctx) now st) as [err Hw].
    eapply row_write_good, Hw; [done|]. clear Hw. intros r2 r3 Ht2 [Hok _] Hw.
    destruct (advanced_evolves _ _ _ _ _ Hw) as [? Hp]; [by left|]. split; [done|].
    unfold row_ok. by rewrite Hp.
Qed.

Lemma disciplined_ok ctx h st {X} (q : creq X) x st' :
  minv (db st) → rows_inv (db st) →
  (∀ e r, e ∈ h → read_of e = Some (Some r) → seen_in (db st) r) →
  disciplined ctx h X q → answer q st x st' → step_ok st st'.
Proof.
  intros Hm Hr Hseen Hd H. destruct q as [A m| | | | | | | | | | | | | | | | | | | | | | | | | | | |];
    try (cbn in H; subst st'; by apply step_ok_refl).
  cbn in H. unfold disciplined in Hd. destruct (is_read (Meta m)) eqn:Er.
  { destruct m; try done. apply read_row in H as [-> _]. by apply step_ok_refl. }
  destruct (cur h) as [[r seg]|] eqn:Ec.
  - destruct (cur_read _ _ _ Ec) as (e&Hin&He). eapply row_call_ok; eauto.
  - destruct m; try done; try (cbn in H; subst st'; by apply step_ok_refl). by eapply admit_ok.
Qed.

(** An answer the store gives is one the driver's reads expect. *)
Lemma answer_row st h {X} (q : creq X) x st' :
  minv (db st) → rows_inv (db st) → answer q st x st' →
  row_answers h X q x ∧
  ∀ r, read_of (Ev q x) = Some (Some r) → teleports (db st) !! TeleportRow.id r = Some r.
Proof.
  intros Hm Hr H. destruct q as [A m| | | | | | | | | | | | | | | | | | | | | | | | | | | |]; try done.
  destruct m; try done. cbn in H. apply read_row in H as [-> H].
  destruct x as [[r|]|e]; try done. destruct (H r eq_refl) as [t Ht].
  split; [by apply (Hr _ _ Ht)|]. intros r' [= <-]. by rewrite (mi_tele_keyed _ Hm _ _ Ht).
Qed.

(** A row that is read now is later than every version read before. *)
Lemma order_ask st ds i ctx h X (q : creq X) k x st' r1 r2 :
  pool_inv (MkWorld st ds) → ds !! i = Some (MkDriver ctx h (Do q k)) →
  (∀ r, read_of (Ev q x) = Some (Some r) → teleports (db st) !! TeleportRow.id r = Some r) →
  let w' := MkWorld st' (<[i := MkDriver ctx (h ++ [Ev q x]) (k x)]> ds) in
  was_read w' r1 → was_read w' r2 → TeleportRow.id r1 = TeleportRow.id r2 →
  evolves r1 r2 ∨ evolves r2 r1.
Proof.
  intros [_ _ Hd Ho] Hi Hx w'.
  assert (Hold : ∀ r, was_read w' r → was_read (MkWorld st ds) r ∨ teleports (db st) !! TeleportRow.id r = Some r).
  { intros r (d&e&[j Hj]%list_elem_of_lookup&He&Hr). cbn in Hj.
    apply list_lookup_insert_Some in Hj as [(->&<-&_)|[_ Hj]]; cbn in He.
    - apply elem_of_app in He as [He|He%list_elem_of_singleton]; [|subst e; right; by apply Hx].
      left. exists (MkDriver ctx h (Do q k)), e. split; [|done]. cbn. by eapply list_elem_of_lookup_2.
    - left. exists d, e. split; [|done]. by eapply list_elem_of_lookup_2. }
  assert (Hlate : ∀ r r', was_read (MkWorld st ds) r → teleports (db st) !! TeleportRow.id r = Some r' → evolves r r').
  { intros r r' (d&e&[j Hj]%list_elem_of_lookup&He&Hr) Ht.
    destruct (di_reads _ _ (Hd _ _ Hj) e r He Hr) as (r0&Ht0&E). cbn in Ht0. by simplify_eq. }
  intros [H1|H1]%Hold [H2|H2]%Hold E.
  - by apply Ho.
  - left. apply Hlate; [done|]. by rewrite E.
  - right. apply Hlate; [done|]. by rewrite <- E.
  - left. rewrite E in H1. replace r2 with r1 by congruence. apply row_evolves_refl.
Qed.

Lemma pool_step w w' : wstep w w' → pool_inv w → pool_inv w'.
Proof.
  intros Hs Hw. destruct Hs as [st ds ctx turns|st ds c Hc Hok|st ds i ctx h X q k x st' Hi Ha].
  all: pose proof Hw as [Hm Hr Hd Ho]; cbn in *.
  - split; [done..| |]; cbn.
    + intros i d [H|[_ H]]%lookup_app_Some; [by eapply Hd|].
      apply list_lookup_singleton_Some in H as [_ <-]. split; cbn; [apply drive_wp|apply allowed_nil|].
      intros e r He. by apply not_elem_of_nil in He.
    + assert (Hold : ∀ p r, was_read (MkWorld st (ds ++ [MkDriver ctx [] p])) r →
                            was_read (MkWorld st ds) r).
      { intros p r (d&e&[H| ->%list_elem_of_singleton]%elem_of_app&He&Hre); [by exists d, e|].
        by apply not_elem_of_nil in He. }
      intros r1 r2 ?%Hold ?%Hold. by apply Ho.
  - pose proof (same_rows_good _ _ Hr (other_call_frame c st Hc)) as [He Hr'].
    split; [by apply exec_inv|done| |done]. cbn. intros i d Hi. by eapply driver_later, Hd.
  - destruct (Hd _ _ Hi) as [[Hq Hk] Hal Hrd]. cbn in *.
    destruct (disciplined_ok ctx h st q x st' Hm Hr Hrd Hq Ha) as [Hm' [He Hr']].
    destruct (answer_row st h q x st' Hm Hr Ha) as [Hx Hsee].
    split; [done..| |]; cbn; [|by intros; eapply order_ask].
    intros j d [(->&<-&_)|[_ Hj]]%list_lookup_insert_Some; [|by eapply driver_later, Hd].
    split; cbn; [by apply Hk|by apply allowed_snoc|].
    intros e r [Hin| ->%list_elem_of_singleton]%elem_of_app Hre; eapply seen_later; eauto.
    exists r. split; [by apply Hsee|apply row_evolves_refl].
Qed.

Lemma pool_reach env w : rtc wstep (MkWorld (Store_new env) []) w → pool_inv w.
Proof.
  intros H. assert (Hi : pool_inv (MkWorld (Store_new env) [])).
  { split; [apply minv_init|..]; cbn; [|done|].
    - intros t r. cbn. by rewrite lookup_empty.
    - intros r1 r2 (d&e&Hd&_). by apply not_elem_of_nil in Hd. }
  revert Hi. induction H as [w|w w1 w2 Hs _ IH]; [done|]. intros Hi. by eapply IH, pool_step.
Qed.

(** A request was allowed under the row, and the row is in the store. *)
Lemma asked_allowed w d r seg X (q : creq X) :
  pool_inv w → d ∈ w_drivers w → asked_after d r seg q → is_read q = false →
  ∃ r', TeleportSafe.allowed (d_ctx d) r seg X q ∧
    teleports (db (w_store w)) !! TeleportRow.id r = Some r' ∧ evolves r r' ∧ row_inv r'.
Proof.
  intros [Hm Hr Hd] [i Hi]%list_elem_of_lookup (h1&x&h2&Eh&Hc) Hq.
  destruct (Hd _ _ Hi) as [_ Hal Hrd]. destruct (cur_read _ _ _ Hc) as (e&Hin&He).
  destruct (Hrd e r) as (r'&Ht&Hev); [rewrite Eh; apply elem_of_app; by left|done|].
  specialize (Hal h1 _ h2 Eh). unfold disciplined in Hal. cbn in Hal. rewrite Hq, Hc in Hal.
  exists r'. split; [done|]. split; [done|]. split; [done|]. by eapply Hr.
Qed.

Lemma asked_read w d r seg X (q : creq X) : d ∈ w_drivers w → asked_after d r seg q → was_read w r.
Proof.
  intros Hd (h1&x&h2&Eh&Hc). destruct (cur_read _ _ _ Hc) as (e&Hin&He).
  exists d, e. split; [done|]. split; [|done]. rewrite Eh. apply elem_of_app. by left.
Qed.

(** *** The theorems *)

(** Requests that take the guest back to the source: every call that resumes it
    there, the end of the move as aborted, and the session made active from a
    rolling-back row. *)
Definition takes_back (r : TeleportRow.t) {X} (q : creq X) : bool :=
  let active to := bool_decide (to = Active) && bool_decide (TeleportRow.phase r = TeleportPhase.RollingBack) in
  match q with
  | Host _ hq =>
      match hq with
      | HResume _ _ | HMigrationAbort _ _ _ | HAbortUnserved _ _ _ => true
      | _ => false
      end
  | Meta m =>
      match m with
      | MTeleportAbort _ _ => true
      | MFencedTransitionEvents _ _ to _ _ => active to
      | MFencedTransition _ _ to _ => active to
      | MTransition _ to _ => active to
      | _ => false
      end
  | _ => false
  end.

(** The aborts of a move whose destination failed to load the paused guest: one
    for good after it refused the image, and one the source carries out only if
    no destination has fetched the state. *)
Definition blackout_abort (r : TeleportRow.t) (seg : list cevent) {X} (q : creq X) : Prop :=
  in_blackout r ∧
  match q with
  | Host h hq =>
      h = TeleportRow.source_host_id r ∧
      match hq with
      | HMigrationAbort _ _ _ => refusal_seen seg
      | HAbortUnserved _ _ _ => failure_seen seg
      | _ => False
      end
  | _ => False
  end.

(** Requests that give the source up. *)
Definition gives_up (r : TeleportRow.t) {X} (q : creq X) : bool :=
  match q with
  | Host h hq =>
      match hq with
      | HDestroy _ _ => bool_decide (h = TeleportRow.source_host_id r)
      | HMigrationCommit _ _ _ => true
      | _ => false
      end
  | Meta m => match m with MTeleportRelease _ _ _ => true | _ => false end
  | _ => false
  end.

Lemma takes_back_phase ctx r seg X (q : creq X) :
  TeleportSafe.allowed ctx r seg X q → takes_back r q = true →
  TeleportRow.phase r = TeleportPhase.RollingBack ∨ blackout_abort r seg q.
Proof.
  destruct q as [A m|A h hq| | | | | | | | | | | | | | | | | | | | | | | | | | |]; try done.
  - destruct m; try done; try (by intros (_&_&?&_); left);
      intros _ [_ Hp%bool_decide_eq_true]%andb_true_iff; by left.
  - destruct hq; try done; cbn.
    + intros [_ ?]. by left.
    + intros ((->&_)&_&[?|[]]) _; [by left|by right].
    + intros ((->&_)&_&[]) _. by right.
Qed.

Lemma gives_up_phase ctx r seg X (q : creq X) :
  TeleportRow.dest_host_id r ≠ TeleportRow.source_host_id r →
  TeleportSafe.allowed ctx r seg X q → gives_up r q = true →
  TeleportRow.phase r = TeleportPhase.Attached.
Proof.
  intros Hne. destruct q as [A m|A h hq| | | | | | | | | | | | | | | | | | | | | | | | | | |]; try done.
  - destruct m; try done. by intros (_&_&?&_).
  - destruct hq; try done; [|by intros (_&_&?&_)].
    cbn. intros [(_&?&_)|(->&_)]; [done|]. intros Hb. by apply bool_decide_eq_true in Hb.
Qed.

(** C4. Drivers of one move, in any number, cut and restarted anywhere under
    any epochs: if one of them takes the guest back to the source, by any call
    that resumes it there, and one gives the source up, in whatever order and
    even if one works from a row it read long ago, then the first is the abort
    of a failed load: its driver had read a row of the blackout that moved on
    later, and was answered that the destination refused the image or failed to
    restore it.  What keeps that case from running the guest twice is the
    source's host, which checks the fence and, unless the image was refused,
    that nobody fetched the state.  From a rolling-back row nothing gives the
    source up. *)
Theorem moves_exclusive env w d1 r1 X1 (q1 : creq X1) d2 r2 X2 (q2 : creq X2) :
  rtc wstep (MkWorld (Store_new env) []) w →
  d1 ∈ w_drivers w → d2 ∈ w_drivers w → asked d1 r1 q1 → asked d2 r2 q2 →
  TeleportRow.id r1 = TeleportRow.id r2 →
  takes_back r1 q1 = true → gives_up r2 q2 = true →
  ∃ seg, asked_after d1 r1 seg q1 ∧ blackout_abort r1 seg q1 ∧ evolves r1 r2.
Proof.
  intros Hw%pool_reach Hd1 Hd2 [s1 Ha1] [s2 Ha2] Hid Ht Hg.
  assert (Hr1 : is_read q1 = false).
  { destruct q1 as [A m| | | | | | | | | | | | | | | | | | | | | | | | | | | |]; try done. by destruct m. }
  assert (Hr2 : is_read q2 = false).
  { destruct q2 as [A m| | | | | | | | | | | | | | | | | | | | | | | | | | | |]; try done. by destruct m. }
  destruct (asked_allowed w d1 r1 s1 X1 q1 Hw Hd1 Ha1 Hr1) as (_&Hal1&_).
  destruct (asked_allowed w d2 r2 s2 X2 q2 Hw Hd2 Ha2 Hr2) as (r'&Hal2&_&Hev&[_ Hne]).
  rewrite (ev_dest _ _ Hev), (ev_source _ _ Hev) in Hne.
  pose proof (takes_back_phase _ _ _ _ _ Hal1 Ht) as P1.
  pose proof (gives_up_phase _ _ _ _ _ Hne Hal2 Hg) as P2.
  pose proof (asked_read w d1 r1 s1 X1 q1 Hd1 Ha1) as Hw1.
  pose proof (asked_read w d2 r2 s2 X2 q2 Hd2 Ha2) as Hw2.
  destruct (pi_order _ Hw r1 r2 Hw1 Hw2 Hid) as [E|E]; destruct P1 as [P1|P1].
  - apply ev_phase, sides_closed in E as [E1 E2]. rewrite P1, P2 in *. naive_solver.
  - by exists s1.
  - apply ev_phase, sides_closed in E as [E1 E2]. rewrite P1, P2 in *. naive_solver.
  - apply ev_phase, sides_closed in E as [E1 _]. rewrite P2 in E1. destruct P1 as [[P1|[P1 _]] _]; rewrite P1 in E1;
      naive_solver.
Qed.

(** C40. No driver ever reaches an [expect] on a missing field: whatever the
    hosts answer and wherever drivers are cut, the next request of a driver is
    not a panic. *)
Theorem drivers_never_panic env w ctx h msg k :
  rtc wstep (MkWorld (Store_new env) []) w →
  MkDriver ctx h (Do (Panic msg) k) ∉ w_drivers w.
Proof.
  intros Hw%pool_reach [i Hi]%list_elem_of_lookup. destruct (pi_drivers _ Hw _ _ Hi) as [[Hq _] _ _].
  unfold disciplined in Hq. cbn in Hq. by destruct (fold_left _ _ _) as [[]|] in Hq.
Qed.


End pool.

(** ** A move that is rolled back *)

(** Executions against a fleet are steps of the pool. *)
Lemma fleet_steps tv fv hj rj caps sha floor ttl (fleet : ∀ X, creq X → Store → option X * Store) :
  (∀ X (q : creq X) st x st', fleet X q st = (Some x, st') → answer q st x st') →
  (∀ X (q : creq X) st st', fleet X q st = (None, st') → st' = st) →
  ∀ (p : prog creq OpOutcome.t) st ds i ctx h,
  ds !! i = Some (MkDriver ctx h p) →
  ∃ p', rtc (wstep tv fv hj rj caps sha floor ttl) (MkWorld st ds)
    (MkWorld (Prog.exec fleet p st).2 (<[i := MkDriver ctx (h ++ trace fleet p st) p']> ds)).
Proof.
  intros Ha Hn p. induction p as [a|X q k IH]; intros st ds i ctx h Hi.
  { exists (Ret a). cbn. rewrite app_nil_r, list_insert_id by done. done. }
  unfold Prog.exec. cbn [trace]. fold (@Prog.exec creq Store fleet OpOutcome.t).
  destruct (fleet X q st) as [[x|] st'] eqn:E; last first.
  { exists (Do q k). rewrite (Hn _ _ _ _ E). cbn. rewrite app_nil_r, list_insert_id by done. done. }
  destruct (IH x st' (<[i := MkDriver ctx (h ++ [Ev q x]) (k x)]> ds) i ctx (h ++ [Ev q x])) as [p' Hp].
  { apply list_lookup_insert_eq. by eapply lookup_lt_Some. }
  exists p'. eapply rtc_l; [by eapply w_ask, Ha|]. rewrite list_insert_insert_eq, <- app_assoc in Hp.
  exact Hp.
Qed.

Lemma calls_steps tv fv hj rj caps sha floor ttl cs st :
  runb cs st = true → forallb (fun c => negb (writes_teleports c)) cs = true →
  rtc (wstep tv fv hj rj caps sha floor ttl) (MkWorld st []) (MkWorld (execs cs st) []).
Proof.
  revert st. induction cs as [|c cs IH]; intros st; cbn; [done|]. intros Hr Hw. bool_prop.
  eapply rtc_l; [|by apply IH]. apply w_call; [done|by apply call_okb_sound].
Qed.

(** The store answers; host 1 is unreachable until the row rolls back. *)
Definition stored {A} (p : result A MetaError * Store) : option (result A MetaError) * Store :=
  (Some p.1, p.2).

Definition demo_meta {A} (m : mreq A) (st : Store) : option (result A MetaError) * Store :=
  match m in mreq A return option (result A MetaError) * Store with
  | MOpenTeleport s => stored (MetaTeleport.open_teleport_for_session s st)
  | MTeleportAdmit req => stored (MetaTeleport.teleport_admit req 7%Z st)
  | MTeleportAdvance t from to p e => stored (MetaTeleport.teleport_advance t from to p e 8%Z st)
  | MGetSession s =>
      (Some match sessions (db st) !! s with
            | Some r => Ok (SessRow.session r) | None => Err NotFound end, st)
  | MGetHost h => (Some (Ok (hosts (db st) !! h)), st)
  | MListActiveHosts => (Some (Ok [rank_host 2]), st)
  | MFcVersion _ => (Some (Ok None), st)
  | MRecordStep _ _ _ => (Some (Ok true), st)
  | _ => (None, st)
  end.

Definition rolling_back (st : Store) : bool :=
  existsb (fun r => bool_decide (TeleportRow.phase r = TeleportPhase.RollingBack)) (values (teleports (db st))).

Definition demo_hosts (X : Type) (q : creq X) (st : Store) : option X * Store :=
  match q in creq X return option X * Store with
  | Meta m => demo_meta m st
  | @Host A h hq =>
      (match hq in hreq A return option (result A SandboxError.t) with
       | HResume _ _ => Some (Ok tt) | _ => None end, st)
  | BackendFor h => (Some (if rolling_back st then Ok tt else Err SandboxError.HostLost), st)
  | Now => (Some 3%Z, st)
  | FreshUuid => (Some 7%N, st)
  | ResumeBudget _ => (Some (Some (2048, 1)%Z), st)
  | _ => (None, st)
  end.

Lemma demo_hosts_answer X (q : creq X) st x st' :
  demo_hosts X q st = (Some x, st') → answer q st x st'.
Proof.
  destruct q; cbn; try (by intros [= _ <-]); try done.
  destruct m; cbn; try (by intros [= _ <-]); try done; intros [= <- <-]; [..|by constructor|by constructor].
  by apply (m_answered (fun _ => MetaTeleport.open_teleport_for_session s) st 0%Z).
Qed.

Lemma demo_hosts_silent X (q : creq X) st st' : demo_hosts X q st = (None, st') → st' = st.
Proof.
  destruct q as [A m|A h hq| | | | | | | | | | | | | | | | | | | | | | | | | | |]; cbn; try (by intros [= <-]); try done.
  - destruct m; cbn; by intros [= <-].
  - intros [= _ <-]. done.
Qed.

Definition demo_op : SessionOp.t :=
  SessionOp.Mk 1 10 Teleport (JObj [("source_host"%string, JNum 1)]) OpState.Running None (Some 1%Z) 0 None None
    (Some "a"%string) None 6 None.
Definition demo_ctx : OpCtx := MkOpCtx demo_op 1.

Definition demo_host_of (v : json) : option HostId :=
  match v with JNum z => Some (Z.to_N z) | _ => None end.

Definition demo_driver : prog creq OpOutcome.t :=
  drive (fun _ => Err "opaque"%string) (fun _ => Err "opaque"%string) demo_host_of (fun _ => None) demo_caps demo_sha
    None 60 5 demo_ctx.

Definition demo_trace : list cevent := trace demo_hosts demo_driver (demo demo_boot).

Notation demo_steps := (wstep (fun _ => Err "opaque"%string) (fun _ => Err "opaque"%string) demo_host_of
  (fun _ => None) demo_caps demo_sha None 60).

Definition demo_world (p : prog creq OpOutcome.t) : world :=
  MkWorld (Prog.exec demo_hosts demo_driver (demo demo_boot)).2 [MkDriver demo_ctx demo_trace p].

Lemma demo_reached : ∃ p, rtc demo_steps (MkWorld (Store_new None) []) (demo_world p).
Proof.
  destruct (fleet_steps (fun _ => Err "opaque"%string) (fun _ => Err "opaque"%string) demo_host_of
    (fun _ => None) demo_caps demo_sha None 60 demo_hosts demo_hosts_answer demo_hosts_silent
    demo_driver (demo demo_boot) [MkDriver demo_ctx [] demo_driver] 0 demo_ctx [] eq_refl) as [p Hp].
  exists p. etrans; [apply (calls_steps _ _ _ _ _ _ _ _ demo_boot); vm_compute; reflexivity|].
  eapply rtc_l; [apply (w_start _ _ _ _ _ _ _ _ _ _ demo_ctx 5)|]. exact Hp.
Qed.

(** The driver that asked to resume the source does not give it up. *)
Lemma moves_exclusive_witness : ∃ w d r h sb f,
  d ∈ w_drivers w ∧ asked d r (Host h (HResume sb f)) ∧
  ∀ r2 X2 (q2 : creq X2), asked d r2 q2 → TeleportRow.id r = TeleportRow.id r2 → gives_up r2 q2 ≠ true.
Proof.
  destruct demo_reached as [p Hp].
  assert (Ha : ∃ r, asked (MkDriver demo_ctx demo_trace p) r (Host 1 (HResume 100 (fence demo_ctx)))).
  { destruct (cur (take 19 demo_trace)) as [[r seg]|] eqn:E; [|exfalso; vm_compute in E; discriminate].
    exists r, seg, (take 19 demo_trace), (Ok tt), (drop 20 demo_trace). split; [|exact E].
    cbn [d_hist]. vm_compute. reflexivity. }
  destruct Ha as [r Ha]. assert (Hin : MkDriver demo_ctx demo_trace p ∈ w_drivers (demo_world p)).
  { apply list_elem_of_here. }
  exists (demo_world p), (MkDriver demo_ctx demo_trace p), r, 1%N, 100%N, (fence demo_ctx).
  split; [exact Hin|]. split; [exact Ha|]. intros r2 X2 q2 Ha2 Hid Hg.
  destruct (moves_exclusive _ _ _ _ _ _ _ _ None (demo_world p) _ r _ _ _ r2 _ q2 Hp Hin Hin Ha Ha2 Hid
    eq_refl Hg) as (seg&_&[_ [_ []]]&_).
Defined.

Lemma drivers_never_panic_witness : ∃ p, ∀ h msg k,
  MkDriver demo_ctx h (Do (Panic msg) k) ∉ w_drivers (demo_world p).
Proof.
  destruct demo_reached as [p Hp]. exists p. intros h msg k.
  exact (drivers_never_panic _ _ _ _ _ _ _ _ None (demo_world p) demo_ctx h msg k Hp).
Defined.

