(* ===== verification/HostLoss.v ===== *)
(** * Lost hosts and lost sandboxes

    [engram-coordinator/src/dead_host.rs]: the detector that marks hosts with an
    expired lease dead and settles their sessions, the sweep for sessions left
    in [HostLost], and the tombstone leg of a heartbeat; and
    [engram-coordinator/src/reconcile.rs]: the pass that flips sessions whose
    sandbox a host no longer runs. *)

From S2P Require Import Prelude Session Teleport OpLogSpec MetaTypes MetaOps MetaSession.
From S2P Require Import MetaTeleport MetaHost Text Manifest Prog Rank Coord TeleportDriver.

(** ** Settling a lost session *)

(** [emit_status_changed], alike in both files. *)
Definition emit_status_changed (s : SessionId) (from to : SessionState) (now : DateTime) : cprog unit :=
  emit s (status_changed from to now).

Definition snapshot_recoverable (snap : option SnapshotRecord.t) : bool :=
  match snap with Some s => SnapshotRecord.recoverable s | None => false end.

Definition settle_host_lost (s : SessionId) (now : DateTime) : cprog unit :=
  snapshot ← ask (Meta (MLatestSnapshot s));
  match snapshot with
  | Err _ => Ret tt
  | Ok snap =>
      let target := recovery_target (snapshot_recoverable snap) in
      moved ← ask (Meta (MTransition s target RequireUnbound));
      match moved with
      | Ok prev => emit_status_changed s prev target now
      | Err _ => Ret tt
      end
  end.

(** ** The sweep of [HostLost] rows *)

(** Whether the host affirms the sandbox alive. *)
Definition probe_serving (host : option HostId) (sb : SandboxId) : cprog bool :=
  match host with
  | None => Ret false
  | Some h =>
      known ← ask (BackendOf h);
      if (known : bool) then
        p ← ask (Host h (HProbe sb));
        Ret (match p with Ok p => process_alive p | Err _ => false end)
      else Ret false
  end.

(** The destroy of a sandbox that no host affirmed. *)
Definition belt_destroy (host : option HostId) (sb : SandboxId) : cprog unit :=
  match host with
  | None => Ret tt
  | Some h =>
      known ← ask (BackendOf h);
      if (known : bool) then _ ← ask (Host h (HDestroy sb unfenced)); Ret tt else Ret tt
  end.

(** The bound half of one row: entomb, forget, probe, destroy, clear.
    [false]: [continue]. *)
Definition straggler_unbind (session : Session.t) (sb : SandboxId) : cprog bool :=
  entombed ← match Session.host_id session with
             | Some h => r ← ask (Meta (MTombstone h sb (Some (Session.id session)))); Ret (is_ok r)
             | None => Ret true
             end;
  if negb entombed then Ret false
  else
    _ ← ask (InvalidateSandbox sb);
    serving ← probe_serving (Session.host_id session) sb;
    _ ← (if (serving : bool) then Ret tt else belt_destroy (Session.host_id session) sb);
    cleared ← ask (Meta (MAssignGuarded (Session.id session) None (Some (Some sb)) []));
    Ret (is_ok cleared).

Definition straggler_one (session : Session.t) : cprog unit :=
  now ← ask Now;
  if decide (now - Session.last_active_at session ≤ nanos_of_secs 60)%Z then Ret tt
  else
    unbound ← match Session.sandbox_id session with
              | Some sb => straggler_unbind session sb
              | None => Ret true
              end;
    if negb unbound then Ret tt
    else
      freed ← (if bool_decide (is_Some (Session.host_id session)) then
                 r ← ask (Meta (MAssignHost (Session.id session) None)); Ret (is_ok r)
               else Ret true);
      if negb freed then Ret tt else settle_host_lost (Session.id session) now.

Fixpoint for_all {A} (l : list A) (f : A → cprog unit) : cprog unit :=
  match l with
  | [] => Ret tt
  | a :: l => _ ← f a; for_all l f
  end.

Definition host_lost_straggler_sweep : cprog (result unit MetaError) :=
  sessions ← ask (Meta MListHostLost);
  match sessions with
  | Err e => Ret (Err e)
  | Ok sessions => _ ← for_all sessions straggler_one; Ret (Ok tt)
  end.

(** ** The tombstone leg of a heartbeat *)

Definition UNBOUND_ENTOMB_GRACE_SECS : Z := 30.

Definition process_sandbox_tombstones (h : HostId) (running : list SandboxId) (running_known : bool) :
    cprog (list SandboxId) :=
  _ ← (if running_known then
         _ ← ask (Meta (MEntombUnbound h running UNBOUND_ENTOMB_GRACE_SECS));
         _ ← ask (Meta (MAckTombstones h running)); Ret tt
       else Ret tt);
  r ← ask (Meta (MTombstones h));
  Ret (match r with Ok l => l | Err _ => [] end).

(** ** The dead-host detector *)

Section detector.
(** [config::host_lease_ttl()] and [DeadHostConfig::lease_stale_after]. *)
Context (host_lease_ttl lease_stale_after : Duration).

Definition host_responds (h : HostId) : cprog bool :=
  r ← ask (Host h HPing); Ret (is_ok r).

(** Dial the host: through the registry, the pool, or a fresh channel. *)
Definition probe_host (h : HostId) (addr : option string) : cprog bool :=
  known ← ask (BackendOf h);
  if (known : bool) then host_responds h
  else
    pooled ← ask (PoolGet h);
    if (pooled : bool) then host_responds h
    else
      match addr with
      | None => Ret false
      | Some addr =>
          warmed ← ask (PoolWarm h addr);
          match warmed with
          | Err _ => Ret false
          | Ok _ => got ← ask (PoolGet h); if (got : bool) then host_responds h else Ret false
          end
      end.

Definition evict_host_locked (h : HostId) (addr : option string) : cprog (result unit MetaError) :=
  do! status := ask (Meta (MHostStatus h)) in
  if bool_decide (status = Some HostStatus.Dead ∨ status = None) then okay tt
  else
    rescued ← probe_host h addr;
    if (rescued : bool) then
      now ← ask Now;
      _ ← ask (Meta (MRenewLease h (now + host_lease_ttl)%Z));
      okay tt
    else
      marked ← ask (Meta (MMarkDead h));
      match marked with
      | Err (Conflict _) => okay tt
      | Err e => Ret (Err e)
      | Ok affected =>
          do! _ := ask (Meta (MNotifyHostDead h)) in
          _ ← for_all affected (fun '(s, prev) => now ← ask Now; emit_status_changed s prev HostLost now);
          _ ← for_all affected (fun '(s, _) => now ← ask Now; settle_host_lost s now);
          _ ← ask (UnregisterHost h);
          okay tt
      end.

Definition evict_host (claimant : string) (h : HostId) (addr : option string) :
    cprog (result unit MetaError) :=
  do! acquired := ask (Meta (MAcquireDeadLease h claimant lease_stale_after)) in
  if negb acquired then okay tt
  else
    result ← evict_host_locked h addr;
    _ ← ask (Meta (MReleaseDeadLease h claimant));
    Ret result.

Definition run_once (claimant : string) : cprog (result unit MetaError) :=
  do! candidates := ask (Meta MListLeaseExpired) in
  do! _ := host_lost_straggler_sweep in
  _ ← for_all candidates (fun host =>
        _ ← evict_host claimant (HostRecord.id host) (HostRecord.host_addr host); Ret tt);
  okay tt.

End detector.

(** ** Reconciliation with what a host runs *)

Definition DEFAULT_GRACE_TICKS : Z := 3.

(** [Reconciler::new]. *)
Definition grace_ticks (n : Z) : Z := Z.max n 1.

Definition strike_eligible (s : SessionState) : bool :=
  match s with Active | Parked | Unreachable => true | _ => false end.

(** The rescue: the process is alive. *)
Definition probe_missing (h : HostId) (sandbox : option SandboxId) : cprog bool :=
  match sandbox with
  | None => Ret false
  | Some sb =>
      known ← ask (BackendOf h);
      if (known : bool) then
        p ← ask (Host h (HProbe sb));
        Ret (match p with Ok p => process_alive p | Err _ => false end)
      else Ret false
  end.

Definition flip_missing (s : SessionId) (h : HostId) (sandbox : option SandboxId) (now : DateTime) :
    cprog bool :=
  got ← ask (Meta (MGetSession s));
  match got with
  | Err _ => Ret false
  | Ok session =>
      let prev := Session.status session in
      if is_terminal prev || bool_decide (prev = Idle ∨ prev = HostLost) then Ret false
      else
        alive ← probe_missing h sandbox;
        if (alive : bool) then _ ← ask (Meta (MStrikes [s] [] 1)); Ret false
        else
          let sandbox := match sandbox with Some sb => Some sb | None => Session.sandbox_id session end in
          _ ← match sandbox with
              | Some sb => _ ← ask (InvalidateSandbox sb); Ret tt
              | None => Ret tt
              end;
          cleared ← ask (Meta (MAssignGuarded s None (Some sandbox) []));
          match cleared with
          | Err (Conflict _) => Ret false
          | _ =>
              moved ← ask (Meta (MTransition s HostLost RequireUnbound));
              match moved with
              | Err _ => Ret false
              | Ok prev =>
                  _ ← emit_status_changed s prev HostLost now;
                  _ ← settle_host_lost s now;
                  Ret true
              end
          end
  end.

(** The loop over the sessions that struck out. *)
Fixpoint flip_all (h : HostId) (sandbox_of : SessionId → option SandboxId) (now : DateTime)
    (l : list SessionId) : cprog (list SessionId) :=
  match l with
  | [] => Ret []
  | s :: l =>
      flipped ← flip_missing s h (sandbox_of s) now;
      rest ← flip_all h sandbox_of now l;
      Ret (if (flipped : bool) then s :: rest else rest)
  end.

(** [assignments.iter().collect()] into a map: the last entry of a key stays. *)
Definition sandbox_by_session (assignments : list (SessionId * SandboxId)) (s : SessionId) :
    option SandboxId :=
  snd <$> List.find (fun p => bool_decide (p.1 = s)) (rev assignments).

Definition reconcile_with_deps (grace : Z) (h : HostId) (running : list SandboxId) :
    cprog (list SessionId) :=
  r ← ask (Meta (MListResident h));
  match r with
  | Err _ => Ret []
  | Ok l =>
      let assignments := List.map (fun '(s, sb, _) => (s, sb))
        (List.filter (fun '(_, _, status) => strike_eligible status) l) in
      let runs p := bool_decide (p.2 ∈ running) in
      let present := List.map fst (List.filter runs assignments) in
      let missing := List.map fst (List.filter (fun p => negb (runs p)) assignments) in
      struck ← ask (Meta (MStrikes present missing grace));
      match struck with
      | Err _ => Ret []
      | Ok to_flip =>
          now ← ask Now;
          flip_all h (sandbox_by_session assignments) now to_flip
      end
  end.

(** ** What the passes may ask *)

Notation anything := (fun _ _ _ _ => True) (only parsing).

(** A probe that was answered: the host, the sandbox and whether it is alive. *)
Definition probe_of (e : event creq) : option (HostId * SandboxId * bool) :=
  match e with
  | Ev q x =>
      match q in creq X return X → option (HostId * SandboxId * bool) with
      | Host host hq =>
          match hq in hreq A return result A SandboxError.t → option (HostId * SandboxId * bool) with
          | HProbe sb => fun x => match x with Ok p => Some (host, sb, process_alive p) | Err _ => None end
          | _ => fun _ => None
          end
      | _ => fun _ => None
      end x
  end.

(** A ping that was answered. *)
Definition ping_of (e : event creq) : option HostId :=
  match e with
  | Ev q x =>
      match q in creq X return X → option HostId with
      | Host host hq =>
          match hq in hreq A return result A SandboxError.t → option HostId with
          | HPing => fun x => match x with Ok _ => Some host | Err _ => None end
          | _ => fun _ => None
          end
      | _ => fun _ => None
      end x
  end.

(** The host was asked for the sandbox and did not affirm it, or the registry
    had no client to ask with. *)
Definition probed (h : list (event creq)) (host : HostId) (sb : SandboxId) : Prop :=
  (∃ x, Ev (Host host (HProbe sb)) x ∈ h ∧ ∀ p, x = Ok p → process_alive p = false) ∨
  Ev (BackendOf host) false ∈ h.

(** Since its tombstone was recorded the sandbox was probed, and the host
    affirmed nothing of it. *)
Definition entombed_unaffirmed (h : list (event creq)) (host : HostId) (sb : SandboxId) : Prop :=
  ∃ h1 sid h2, h = h1 ++ Ev (Meta (MTombstone host sb sid)) (Ok tt) :: h2 ∧ probed h2 host sb ∧
    Forall (fun e => probe_of e ≠ Some (host, sb, true)) h2.

Definition entombed_in (h : list (event creq)) (host : HostId) (sb : SandboxId) : Prop :=
  ∃ sid, Ev (Meta (MTombstone host sb sid)) (Ok tt) ∈ h.

Definition listed_lost (h : list (event creq)) (s : Session.t) : Prop :=
  ∃ l, Ev (Meta MListHostLost) (Ok l) ∈ h ∧ s ∈ l.

(** The host was listed with an expired lease, at this address. *)
Definition listed_expired (h : list (event creq)) (host : HostId) (addr : option string) : Prop :=
  ∃ l r, Ev (Meta MListLeaseExpired) (Ok l) ∈ h ∧ r ∈ l ∧
    HostRecord.id r = host ∧ HostRecord.host_addr r = addr.

(** The host was dialed: a ping was sent and failed, or there was no client to
    send it with, in the registry or in the pool, and the row's address, if it
    has one, gave none. *)
Definition dialed (h : list (event creq)) (host : HostId) (addr : option string) : Prop :=
  (∃ err, Ev (Host host HPing) (Err err) ∈ h) ∨
  Ev (BackendOf host) false ∈ h ∧ Ev (PoolGet host) false ∈ h ∧
  ∀ a, addr = Some a →
    (∃ err, Ev (PoolWarm host a) (Err err) ∈ h) ∨
    ∃ h1 h2, h = h1 ++ Ev (PoolWarm host a) (Ok tt) :: h2 ∧ Ev (PoolGet host) false ∈ h2.

Definition releases (host : HostId) (e : event creq) : bool :=
  match ev_req e with
  | Meta m => match m with MReleaseDeadLease h _ => bool_decide (h = host) | _ => false end
  | _ => false
  end.

(** This replica took the eviction lease of a host listed as expired and has
    not released it, read a status that is not dead, and dialed the host after
    that, with no ping answered. *)
Definition silent_since_lease (h : list (event creq)) (claimant : string) (host : HostId) : Prop :=
  ∃ h1 stale h2 st h3 addr,
    h = h1 ++ Ev (Meta (MAcquireDeadLease host claimant stale)) (Ok true) :: h2 ++
          Ev (Meta (MHostStatus host)) (Ok (Some st)) :: h3 ∧
    listed_expired h1 host addr ∧ st ≠ HostStatus.Dead ∧ dialed h3 host addr ∧
    Forall (fun e => ping_of e ≠ Some host ∧ releases host e = false) (h2 ++ h3).

(** The target of a settle follows the snapshot read just before. *)
Definition settles (h : list (event creq)) (s : SessionId) (to : SessionState) : Prop :=
  ∃ h1 snap, h = h1 ++ [Ev (Meta (MLatestSnapshot s)) (Ok snap)] ∧
    to = recovery_target (snapshot_recoverable snap).

Definition detector_allowed (claimant : string) (h : list (event creq)) (X : Type) (q : creq X) : Prop :=
  match q with
  | Meta m =>
      match m with
      | MTransition s to disp => disp = RequireUnbound ∧ settles h s to
      | MAssignGuarded s sb expected _ =>
          ∃ session old, listed_lost h session ∧ Session.id session = s ∧ sb = None ∧
            Session.sandbox_id session = Some old ∧ expected = Some (Some old) ∧
            ∀ host, Session.host_id session = Some host → entombed_in h host old
      | MAssignHost s host =>
          ∃ session, listed_lost h session ∧ Session.id session = s ∧ host = None ∧
            ∀ old, Session.sandbox_id session = Some old →
              ∃ h1 x, h = h1 ++ [Ev (Meta (MAssignGuarded s None (Some (Some old)) [])) (Ok x)]
      | MMarkDead host => silent_since_lease h claimant host
      | MRenewLease host _ => Ev (Host host HPing) (Ok tt) ∈ h
      | MReleaseDeadLease host c => c = claimant ∧ ∃ stale, Ev (Meta (MAcquireDeadLease host c stale)) (Ok true) ∈ h
      | MFencedTransition _ _ _ _ | MFencedTransitionEvents _ _ _ _ _ | MTeleportAdmit _
      | MTeleportAdvance _ _ _ _ _ | MTeleportCommit _ _ | MTeleportRelease _ _ _
      | MTeleportSettle _ _ _ | MTeleportAbort _ _ | MStrikes _ _ _ | MAckTombstones _ _
      | MEntombUnbound _ _ _ => False
      | _ => True
      end
  | Host host hq =>
      match hq with
      | HPing | HProbe _ => True
      | HDestroy sb f => f = unfenced ∧ entombed_unaffirmed h host sb
      | _ => False
      end
  | SpawnRestore _ _ _ | RunVerb _ _ | Panic _ | Spin => False
  | _ => True
  end.

Section detector_wp.
Context (host_lease_ttl lease_stale_after : Duration) (claimant : string).
Notation wpd h p Q := (wp (fun _ _ _ _ => True) (detector_allowed claimant) h p Q).

Ltac wp_go :=
  repeat lazymatch goal with
  | |- wp _ _ _ (Ret _) _ => apply wp_ret; cbv beta
  | |- wp _ _ _ (okay _) _ => apply wp_ret; cbv beta
  | |- wp _ _ _ (try_ _ _) _ => apply wp_try
  | |- wp _ _ _ (mbind _ _) _ => apply wp_bind
  | |- wp _ _ _ (ask _) _ => apply wp_ask; [|intros ? _; cbv beta]
  | |- wp _ _ _ (match ?x with _ => _ end) _ => destruct x eqn:?
  | |- match ?x with Ok _ => _ | Err _ => _ end => destruct x eqn:?
  | |- True => exact I
  end.

Lemma for_all_wp {A} (P : list (event creq) → Prop) (l : list A) f h :
  (∀ h t, P h → P (h ++ t)) → P h →
  (∀ a h, a ∈ l → P h → wpd h (f a) (fun _ _ => True)) → wpd h (for_all l f) (fun _ _ => True).
Proof.
  intros Hmono. revert h. induction l as [|a l IH]; intros h Hh Hf; cbn; [done|].
  apply wp_bind. eapply wp_mono; [|apply wp_grows, Hf; [apply list_elem_of_here|done]].
  cbn. intros h' _ [[t ->] _]. apply IH; [by apply Hmono|]. intros b h'' Hb. apply Hf.
  by apply list_elem_of_further.
Qed.

Lemma emit_wp h s ev : wpd h (emit s ev) (fun _ _ => True).
Proof. unfold emit. by wp_go. Qed.

Lemma settle_wp h s now : wpd h (settle_host_lost s now) (fun _ _ => True).
Proof.
  unfold settle_host_lost. wp_go; try done.
  - split; [done|]. by eexists _, _.
  - apply emit_wp.
Qed.

Lemma listed_lost_app h t s : listed_lost h s → listed_lost (h ++ t) s.
Proof. intros (l&Hl&Hs). exists l. split; [|done]. apply elem_of_app. by left. Qed.

Lemma entombed_app h t host sb : entombed_in h host sb → entombed_in (h ++ t) host sb.
Proof. intros (sid&Hl). exists sid. apply elem_of_app. by left. Qed.

(** The probe: what it answers is what the history shows. *)
Lemma probe_serving_wp h host sb :
  wpd h (probe_serving host sb)
    (fun h' b => ∃ t, h' = h ++ t ∧ ∀ hst, host = Some hst → b = false →
       probed t hst sb ∧ Forall (fun e => probe_of e ≠ Some (hst, sb, true)) t).
Proof.
  unfold probe_serving. wp_go; try done; rewrite <- ?app_assoc.
  3: exists []; by rewrite app_nil_r.
  all: eexists; (split; [done|]); intros hst [= <-] Hb; split;
    try (repeat constructor; cbn; repeat case_match; congruence).
  left. eexists. split; [apply list_elem_of_further, list_elem_of_here|]. intros p ->. exact Hb.
Qed.

Lemma probed_app t t' host sb : probed t host sb → probed (t ++ t') host sb.
Proof.
  intros [(x&Hx&Hp)|Hb]; [left; exists x; split; [|done]|right]; apply elem_of_app; by left.
Qed.

Lemma belt_destroy_wp h host sb :
  (∀ hst, host = Some hst → entombed_unaffirmed h hst sb) →
  wpd h (belt_destroy host sb) (fun _ _ => True).
Proof.
  intros Hh. unfold belt_destroy. wp_go; try done. split; [done|].
  destruct (Hh n eq_refl) as (h1&sid&h2&->&Hp&Hf). exists h1, sid, (h2 ++ [Ev (BackendOf n) true]).
  rewrite <- app_assoc. split; [done|]. split; [by apply probed_app|].
  apply Forall_app. split; [done|]. by repeat constructor.
Qed.

(** The tombstone was recorded in the request just before. *)
Definition just_entombed (h : list (event creq)) (host : HostId) (sb : SandboxId) : Prop :=
  ∃ h1 sid, h = h1 ++ [Ev (Meta (MTombstone host sb sid)) (Ok tt)].

Lemma straggler_unbind_wp h session sb :
  listed_lost h session → Session.sandbox_id session = Some sb →
  wpd h (straggler_unbind session sb)
    (fun h' b => listed_lost h' session ∧
       (b = true → ∃ h1 x, h' = h1 ++ [Ev (Meta (MAssignGuarded (Session.id session) None (Some (Some sb)) [])) (Ok x)])).
Proof.
  intros Hl Hsb. unfold straggler_unbind. apply wp_bind.
  apply (wp_mono _ _ _ _ (fun h' (b : bool) => listed_lost h' session ∧ (b = true →
    ∀ hst, Session.host_id session = Some hst → just_entombed h' hst sb))).
  2:{ wp_go; try done; (split; [by try apply listed_lost_app|]); intros Hb hst [= <-].
      destruct x as [[]|]; [|done]. by exists h, (Some (Session.id session)). }
  intros h' [|] [Hl' Hent]; cbn [negb]; [|by wp_go; split].
  specialize (Hent eq_refl). wp_go; [done|].
  eapply wp_mono, probe_serving_wp. intros h2 b (t&->&Ht). apply wp_bind.
  apply (wp_mono _ _ _ _ (fun h'' (_ : unit) => listed_lost h'' session ∧
    ∀ hst, Session.host_id session = Some hst → entombed_in h'' hst sb)).
  { intros h3 _ [Hl3 Hin]. wp_go.
    - exists session, sb. done.
    - split; [by apply listed_lost_app|]. destruct x0 as [x0|]; [|done]. by eexists _, _. }
  assert (Hin : ∀ hst, Session.host_id session = Some hst → entombed_in h' hst sb).
  { intros hst Hh. destruct (Hent hst Hh) as (h1&sid&->). exists sid.
    apply elem_of_app. right. apply list_elem_of_here. }
  assert (Hall : ∀ h'', (∃ t', h'' = ((h' ++ [Ev (InvalidateSandbox sb) x]) ++ t) ++ t') →
    listed_lost h'' session ∧ ∀ hst, Session.host_id session = Some hst → entombed_in h'' hst sb).
  { intros h'' [t' ->]. split; [by do 3 apply listed_lost_app|]. intros. by do 3 apply entombed_app; auto. }
  destruct b.
  - apply wp_ret, Hall. exists []. by rewrite app_nil_r.
  - eapply wp_mono; [|apply wp_grows, belt_destroy_wp].
    + intros h4 _ [Ht' _]. by apply Hall.
    + intros hst Hh. destruct (Hent hst Hh) as (h1&sid&->). destruct (Ht hst Hh eq_refl) as [Hp Hf].
      exists h1, sid, (Ev (InvalidateSandbox sb) x :: t).
      rewrite <- !app_assoc. split; [done|]. split; [|by constructor].
      destruct Hp as [(y&Hy&Hp)|Hb]; [left; exists y; split; [|done]|right]; by apply list_elem_of_further.
Qed.

Lemma straggler_one_wp h session :
  listed_lost h session → wpd h (straggler_one session) (fun _ _ => True).
Proof.
  intros Hl. unfold straggler_one. apply wp_bind, wp_ask; [done|]. intros now _.
  destruct (decide _); [done|]. apply wp_bind.
  apply (wp_mono _ _ _ _ (fun h' (b : bool) => listed_lost h' session ∧ (b = true →
    ∀ old, Session.sandbox_id session = Some old →
      ∃ h1 x, h' = h1 ++ [Ev (Meta (MAssignGuarded (Session.id session) None (Some (Some old)) [])) (Ok x)]))).
  2:{ destruct (Session.sandbox_id session) as [sb|] eqn:Hsb.
      - eapply wp_mono, straggler_unbind_wp; [|by apply listed_lost_app|done].
        intros h' b [H1 H2]. split; [done|]. intros Hb old [= <-]. auto.
      - apply wp_ret. split; [by apply listed_lost_app|done]. }
  intros h' [|] [Hl' Hc]; [|by wp_go]. cbn [negb]. wp_go; try apply settle_wp.
  exists session. split; [done|]. split; [done|]. split; [done|]. by apply Hc.
Qed.

Lemma probe_host_wp h host addr :
  wpd h (probe_host host addr)
    (fun h' b => ∃ t, h' = h ++ t ∧
       (b = false → dialed t host addr ∧ Forall (fun e => ping_of e ≠ Some host ∧ releases host e = false) t) ∧
       (b = true → Ev (Host host HPing) (Ok tt) ∈ h')).
Proof.
  unfold probe_host, host_responds. wp_go; try done; rewrite <- ?app_assoc; eexists; (split; [done|]).
  all: try match goal with x : result unit SandboxError.t |- _ => destruct x as [[]|] end.
  all: split; intros Hb; try done; try (rewrite !elem_of_app, !list_elem_of_singleton; by eauto 10).
  all: split; [|repeat constructor; cbn; try congruence; by repeat case_match].
  all: cbn [app]; first
    [ left; eexists; by repeat first [apply list_elem_of_here | apply list_elem_of_further]
    | right; split_and!; [by repeat constructor..|]; intros ? [=]; subst ].
  - right. match goal with u : unit |- _ => destruct u end. eexists [_; _], [_]. split; [done|constructor].
  - left. eexists. by repeat first [apply list_elem_of_here | apply list_elem_of_further].
Qed.

Lemma evict_locked_wp h1 stale host addr :
  listed_expired h1 host addr →
  wpd (h1 ++ [Ev (Meta (MAcquireDeadLease host claimant stale)) (Ok true)])
    (evict_host_locked host_lease_ttl host addr) (fun _ _ => True).
Proof.
  intros Hex. unfold evict_host_locked. apply wp_try, wp_ask; [done|]. intros [st|e] _; [|done].
  case_bool_decide as Hst; [done|]. destruct st as [st|]; [|by destruct Hst; right]. apply wp_bind.
  eapply wp_mono, probe_host_wp. intros h' b (t&->&Hf&Ht). destruct b.
  { wp_go; [done|]. apply elem_of_app. left. by apply Ht. }
  apply wp_bind, wp_ask.
  { destruct (Hf eq_refl) as [Hd Hs]. eexists h1, stale, [], st, t, addr. rewrite <- !app_assoc.
    split; [done|]. split; [done|]. split; [intros ->; by destruct Hst; left|done]. }
  intros [affected|e] _; [|by destruct e].
  apply wp_try, wp_ask; [done|]. intros [[]|e] _; [|done]. apply wp_bind.
  eapply wp_mono; [|apply (for_all_wp (fun _ => True)); [done|done|]].
  - cbv beta. intros h3 _ _. apply wp_bind. eapply wp_mono; [|apply (for_all_wp (fun _ => True)); [done|done|]].
    + cbv beta. intros h4 _ _. by wp_go.
    + intros [s prev] h4 _ _. cbv beta iota. apply wp_bind, wp_ask; [done|]. intros now _. apply settle_wp.
  - intros [s prev] h4 _ _. cbv beta iota. apply wp_bind, wp_ask; [done|]. intros now _. apply emit_wp.
Qed.

Lemma evict_wp h host addr :
  listed_expired h host addr →
  wpd h (evict_host host_lease_ttl lease_stale_after claimant host addr) (fun _ _ => True).
Proof.
  intros Hex. unfold evict_host. apply wp_try, wp_ask; [done|]. intros [[|]|e] _; try done. cbn [negb].
  apply wp_bind. eapply wp_mono; [|by apply wp_grows, evict_locked_wp]. cbv beta.
  intros h' x [[t ->] _]. wp_go. split; [done|]. exists lease_stale_after.
  rewrite !elem_of_app, list_elem_of_singleton. by auto.
Qed.

Lemma run_once_wp h :
  wpd h (run_once host_lease_ttl lease_stale_after claimant) (fun _ _ => True).
Proof.
  unfold run_once. apply wp_try, wp_ask; [done|]. intros [cands|e] _; [|done]. apply wp_try.
  unfold host_lost_straggler_sweep. apply wp_bind, wp_ask; [done|]. intros [l|e] _; [|done].
  apply wp_bind.
  eapply wp_mono; [|apply wp_grows, (for_all_wp (fun h => ∀ s, s ∈ l → listed_lost h s))].
  - cbv beta. intros h' _ [[t ->] _]. apply wp_ret. apply wp_bind.
    eapply wp_mono; [|apply (for_all_wp (fun h => Ev (Meta MListLeaseExpired) (Ok cands) ∈ h))].
    + cbv beta. intros h'' _ _. by wp_go.
    + intros h1 t1 H1. apply elem_of_app. by left.
    + rewrite !elem_of_app, list_elem_of_singleton. by auto.
    + intros host h'' Hin Hl. apply wp_bind. eapply wp_mono, evict_wp; [done|]. by exists cands, host.
  - intros h' t Hh s Hs. apply listed_lost_app. auto.
  - intros s Hs. exists l. split; [|done]. apply elem_of_app. right. by apply list_elem_of_singleton.
  - intros s h' Hs Hh. apply straggler_one_wp. auto.
Qed.

End detector_wp.


(** ** What a reconciliation may ask *)

(** Sessions the host was told to run and does not, by one listing. *)
Definition missing_by (h : list (event creq)) (host : HostId) (running : list SandboxId) (s : SessionId) : Prop :=
  ∃ l sb st, Ev (Meta (MListResident host)) (Ok l) ∈ h ∧ (s, sb, st) ∈ l ∧
    strike_eligible st = true ∧ sb ∉ running.

(** The session struck out, was read in a state that can lose its host, and no
    probe affirmed the sandbox since. *)
Definition unaffirmed_since_read (h : list (event creq)) (s : SessionId) (sb : option SandboxId) : Prop :=
  (∃ present missing grace l, Ev (Meta (MStrikes present missing grace)) (Ok l) ∈ h ∧ s ∈ l) ∧
  ∃ h1 session h2, h = h1 ++ Ev (Meta (MGetSession s)) (Ok session) :: h2 ∧
    is_terminal (Session.status session) = false ∧ Session.status session ≠ Idle ∧
    Session.status session ≠ HostLost ∧
    ∀ host sb', sb = Some sb' → Forall (fun e => probe_of e ≠ Some (host, sb', true)) h2.

(** The binding was cleared, or the clear failed otherwise than by a changed
    binding, in the request just before. *)
Definition cleared_before (h : list (event creq)) (s : SessionId) : Prop :=
  ∃ h1 o x, h = h1 ++ [Ev (Meta (MAssignGuarded s None (Some o) [])) x] ∧ ∀ msg, x ≠ Err (Conflict msg).

Definition reconcile_allowed (host : HostId) (running : list SandboxId) (h : list (event creq))
    (X : Type) (q : creq X) : Prop :=
  match q with
  | Meta m =>
      match m with
      | MListResident h' => h' = host
      | MStrikes present missing _ =>
          (∀ s, s ∈ missing → missing_by h host running s) ∨
          missing = [] ∧ ∃ s sb, present = [s] ∧
            ∃ e, e ∈ h ∧ probe_of e = Some (host, sb, true)
      | MGetSession _ | MLatestSnapshot _ | MAppendEvent _ _ _ => True
      | MAssignGuarded s sb expected states =>
          sb = None ∧ states = [] ∧ ∃ o, expected = Some o ∧ unaffirmed_since_read h s o
      | MTransition s to disp =>
          disp = RequireUnbound ∧ (to = HostLost ∧ cleared_before h s ∨ settles h s to)
      | _ => False
      end
  | Host h' hq => match hq with HProbe _ => h' = host | _ => False end
  | Now | BackendOf _ | InvalidateSandbox _ | PublishEvent _ _ _ => True
  | _ => False
  end.

Section reconcile_wp.
Context (host : HostId) (running : list SandboxId).
Notation wpc h p Q := (wp (fun _ _ _ _ => True) (reconcile_allowed host running) h p Q).

Ltac wp_go :=
  repeat lazymatch goal with
  | |- wp _ _ _ (Ret _) _ => apply wp_ret; cbv beta
  | |- wp _ _ _ (mbind _ _) _ => apply wp_bind
  | |- wp _ _ _ (ask _) _ => apply wp_ask; [|intros ? _; cbv beta]
  | |- wp _ _ _ (match ?x with _ => _ end) _ => destruct x eqn:?
  | |- True => exact I
  end.

Lemma probe_missing_wp h sandbox :
  wpc h (probe_missing host sandbox)
    (fun h' b => ∃ t, h' = h ++ t ∧
       (b = false → ∀ hst sb, sandbox = Some sb → Forall (fun e => probe_of e ≠ Some (hst, sb, true)) t) ∧
       (b = true → ∃ sb e, e ∈ t ∧ probe_of e = Some (host, sb, true)) ∧
       (sandbox = None → t = [])).
Proof.
  unfold probe_missing. wp_go; try done; rewrite <- ?app_assoc.
  3: exists []; by rewrite app_nil_r.
  all: eexists; (split; [done|]); split_and!; try done; intros Hb.
  - intros hst sb [= <-]. repeat constructor; cbn; repeat case_match; congruence.
  - destruct x0 as [p|]; [|done]. eexists _, _. split; [apply list_elem_of_further, list_elem_of_here|].
    cbn. by rewrite Hb.
  - intros hst sb [= <-]. by repeat constructor.
Qed.

Lemma settle_wpc h s now : wpc h (settle_host_lost s now) (fun _ _ => True).
Proof.
  unfold settle_host_lost, emit_status_changed, emit. wp_go; try done.
  split; [done|]. right. by eexists _, _.
Qed.

Lemma flip_missing_wp h s sandbox now :
  (∃ present missing grace l, Ev (Meta (MStrikes present missing grace)) (Ok l) ∈ h ∧ s ∈ l) →
  wpc h (flip_missing s host sandbox now) (fun _ _ => True).
Proof.
  intros (pr&mi&gr&l&Hl&Hs). unfold flip_missing. apply wp_bind, wp_ask; [done|].
  intros [session|e] _; [|done]. destruct (is_terminal _) eqn:Ht; [done|]. cbn [orb].
  case_bool_decide as Hst; [done|]. apply wp_bind. eapply wp_mono, probe_missing_wp.
  intros h' b (t&->&Hf&Ha&Hn). destruct b.
  { wp_go. right. split; [done|]. destruct (Ha eq_refl) as (sb&e&He&Hp). exists s, sb.
    split; [done|]. exists e. split; [|done]. apply elem_of_app. by right. }
  specialize (Hf eq_refl). cbv zeta.
  set (o := match sandbox with Some sb => Some sb | None => Session.sandbox_id session end).
  apply wp_bind. apply (wp_mono _ _ _ _ (fun h' (_ : unit) =>
    unaffirmed_since_read h' s o)).
  2:{ assert (Hu : ∀ t', (∀ hst sb', o = Some sb' → Forall (fun e => probe_of e ≠ Some (hst, sb', true)) t') →
        unaffirmed_since_read ((h ++ [Ev (Meta (MGetSession s)) (Ok session)]) ++ t ++ t') s o).
      { intros t' Ht'. split.
        - exists pr, mi, gr, l. split; [|done]. rewrite !elem_of_app. by auto.
        - exists h, session, (t ++ t'). rewrite <- !app_assoc. split; [done|]. split; [done|].
          split; [by intros E; destruct Hst; left|]. split; [by intros E; destruct Hst; right|].
          intros hst sb' E. apply Forall_app. split; [|by eapply Ht'].
          destruct sandbox as [sb|]; [by apply Hf|]. by rewrite Hn. }
      destruct o; wp_go; try done.
      - rewrite <- app_assoc. apply Hu. by repeat constructor.
      - specialize (Hu []). rewrite app_nil_r in Hu. apply Hu. done. }
  intros h2 _ Hu. apply wp_bind, wp_ask; [split; [done|]; split; [done|]; by exists o|]. intros x _.
  assert (Hgo : (∀ msg, x ≠ Err (Conflict msg)) → wpc (h2 ++ [Ev (Meta (MAssignGuarded s None (Some o) [])) x])
    (moved ← ask (Meta (MTransition s HostLost RequireUnbound));
     match moved with
     | Err _ => Ret false
     | Ok prev =>
         _ ← emit_status_changed s prev HostLost now;
         _ ← settle_host_lost s now;
         Ret true
     end) (fun _ _ => True)).
  { intros Hx. apply wp_bind, wp_ask; [split; [done|]; left; split; [done|]; by eexists _, _, _|].
    intros [prev|e] _; [|done]. apply wp_bind. unfold emit_status_changed, emit. wp_go; try done.
    all: eapply wp_mono, settle_wpc; done. }
  destruct x as [x|e]; [by apply Hgo|]. destruct e; try (by apply Hgo). done.
Qed.

Lemma flip_all_wp h sandbox_of now l :
  (∀ s, s ∈ l → ∃ present missing grace l', Ev (Meta (MStrikes present missing grace)) (Ok l') ∈ h ∧ s ∈ l') →
  wpc h (flip_all host sandbox_of now l) (fun _ _ => True).
Proof.
  revert h. induction l as [|s l IH]; intros h Hl; cbn [flip_all]; [done|].
  apply wp_bind. eapply wp_mono; [|apply wp_grows, flip_missing_wp, Hl, list_elem_of_here].
  cbv beta. intros h' b [[t ->] _]. apply wp_bind. eapply wp_mono, IH; [intros; by wp_go|].
  intros s' Hs'. destruct (Hl s') as (p&m&g&l'&Hin&?); [by apply list_elem_of_further|].
  exists p, m, g, l'. split; [|done]. apply elem_of_app. by left.
Qed.

Lemma reconcile_wp grace h : wpc h (reconcile_with_deps grace host running) (fun _ _ => True).
Proof.
  unfold reconcile_with_deps. apply wp_bind, wp_ask; [done|]. intros [l|e] _; [|done]. cbv zeta.
  apply wp_bind, wp_ask.
  { left. intros s Hs. apply list_elem_of_In, in_map_iff in Hs as ([s' sb]&<-&Hin).
    apply filter_In in Hin as [Hin Hr]. apply in_map_iff in Hin as ([[s0 sb0] st]&[= <- <-]&Hin).
    apply filter_In in Hin as [Hin He]. bool_prop. exists l, sb0, st. split.
    - apply elem_of_app. right. by apply list_elem_of_singleton.
    - split; [by apply list_elem_of_In|]. done. }
  intros [to_flip|e] _; [|done]. apply wp_bind, wp_ask; [done|]. intros now _.
  apply flip_all_wp. intros s Hs. eexists _, _, _, to_flip. split; [|done].
  rewrite !elem_of_app, !list_elem_of_singleton. by auto.
Qed.

End reconcile_wp.

(** Whatever is answered and wherever it is cut, a reconciliation counts a
    strike only against a session whose sandbox is eligible and absent from the
    host's report, and moves a session to [HostLost] only after it struck out,
    was read in a state that can lose its host, no probe affirmed its process
    since, and the clear of exactly that binding was not refused; it destroys
    nothing, and resets strikes only after a probe that affirmed the process. *)
Theorem reconcile_disciplined grace host running h o :
  runs (fun _ _ _ _ => True) [] (reconcile_with_deps grace host running) h o →
  ∀ h1 e h2, h = h1 ++ e :: h2 → reconcile_allowed host running h1 _ (ev_req e).
Proof.
  intros Hr. eapply (wp_adequate _ _ _ _ (fun _ _ => True)) in Hr as [H _];
    [exact H|apply reconcile_wp|apply allowed_nil].
Qed.
