(* ===== verification/HostLossRun.v ===== *)
(** * The sweep of lost sessions on the store

    The sweep of [HostLoss] against the transactions of the store and hosts
    that answer anything: every row it finds old enough is settled in one pass,
    its binding entombed before it is let go. *)

From S2P Require Import Prelude Session Teleport OpLogSpec MetaTypes MetaOps MetaSession.
From S2P Require Import MetaTeleport MetaHost MetaStep MetaCalls Scenario Text Manifest Prog Rank Coord TeleportDriver HostLoss.

(** ** Store methods only these passes use *)

Module MetaLost.

Definition list_host_lost_sessions : M (list Session.t) :=
  gate;;
  d ← get_db;
  mret (List.map SessRow.session
          (List.filter (fun r => bool_decide (SessRow.status r = HostLost)) (values (sessions d)))).

Definition append_session_event (id : SessionId) (kind : string) (payload : json) (now : DateTime) : M Z :=
  gate;;
  d ← get_db;
  row ← ok_or (sessions d !! id) NotFound;
  let idx := SessRow.next_event_idx row in
  let row' := row <| SessRow.next_event_idx ::= Z.succ |>
                  <| SessRow.session ::= fun s => s <| Session.last_event_at := Some now |> |>
                  <| SessRow.updated_at := now |> in
  put_db (push_event id (PersistedEvent.Mk idx kind payload now (SessRow.recovery_epoch row) None)
            (put_session id row' d));;
  notify "session_events" (PEvent id idx);;
  mret idx.

Definition list_resident_sandbox_assignments_on_host (h : HostId) :
    M (list (SessionId * SandboxId * SessionState)) :=
  gate;;
  d ← get_db;
  mret (omap (fun r =>
          if bool_decide (SessRow.host_id r = Some h) && reserves_host_memory (SessRow.status r)
          then (fun sb => (Session.id (SessRow.session r), sb, SessRow.status r)) <$> SessRow.sandbox_id r
          else None) (values (sessions d))).

End MetaLost.

Section sweep.
(** The snapshots of the store, the instant of the pass, which hosts are
    registered here and what they answer. *)
Context (snaps : SessionId → option SnapshotRecord.t) (now : DateTime) (known : HostId → bool)
  (probe : HostId → SandboxId → result SandboxProbe SandboxError.t)
  (destroy : HostId → SandboxId → result unit SandboxError.t).

Definition ran {A} (p : result A MetaError * Store) : option (result A MetaError) * Store := (Some p.1, p.2).

Definition lost_meta {A} (m : mreq A) (st : Store) : option (result A MetaError) * Store :=
  match m in mreq A return option (result A MetaError) * Store with
  | MListHostLost => ran (MetaLost.list_host_lost_sessions st)
  | MTombstone h sb sid => ran (MetaHost.record_sandbox_tombstone h sb sid now st)
  | MAssignGuarded s sb expected states =>
      ran (MetaSession.assign_session_sandbox_guarded s sb expected states now st)
  | MAssignHost s h => ran (MetaSession.assign_session_host s h now st)
  | MTransition s to disp => ran (MetaSession.transition_session s to disp now st)
  | MAppendEvent s kind payload => ran (MetaLost.append_session_event s kind payload now st)
  | MLatestSnapshot s => (Some (Ok (snaps s)), st)
  | _ => (None, st)
  end.

Definition lost_fleet (X : Type) (q : creq X) (st : Store) : option X * Store :=
  match q in creq X return option X * Store with
  | Meta m => lost_meta m st
  | @Host A h hq =>
      (match hq in hreq A return option (result A SandboxError.t) with
       | HProbe sb => Some (probe h sb)
       | HDestroy sb _ => Some (destroy h sb)
       | _ => None
       end, st)
  | Now => (Some now, st)
  | BackendOf h => (Some (known h), st)
  | InvalidateSandbox _ => (Some None, st)
  | PublishEvent _ _ _ => (Some tt, st)
  | _ => (None, st)
  end.

Notation run p st := (exec lost_fleet p st).

(** Only the row of one session changed, and no tombstone was lost. *)
Record writes_row (s : SessionId) (r : SessRow.t) (st st' : Store) : Prop := {
  wr_row : sessions (db st') = <[s := r]> (sessions (db st));
  wr_outage : outage st' = outage st;
  wr_tombs : ∀ k, is_Some (sandbox_tombstones (db st) !! k) → is_Some (sandbox_tombstones (db st') !! k);
}.

Lemma writes_row_trans s r1 r2 st st1 st2 :
  writes_row s r1 st st1 → writes_row s r2 st1 st2 → writes_row s r2 st st2.
Proof.
  intros [H1 O1 T1] [H2 O2 T2]. split; [|congruence|by eauto]. by rewrite H2, H1, insert_insert_eq.
Qed.

Lemma clear_run s sb r st :
  outage st = false → sessions (db st) !! s = Some r → SessRow.sandbox_id r = Some sb →
  ∃ r' st', MetaSession.assign_session_sandbox_guarded s None (Some (Some sb)) [] now st = (Ok None, st') ∧
    writes_row s r' st st' ∧ SessRow.sandbox_id r' = None ∧ SessRow.host_id r' = SessRow.host_id r ∧
    SessRow.status r' = SessRow.status r ∧ sandbox_tombstones (db st') = sandbox_tombstones (db st).
Proof.
  intros Ho Hs Hsb. unfold MetaSession.assign_session_sandbox_guarded. run_m. rewrite Ho, Hs. cbn beta iota.
  rewrite Hsb, bool_decide_eq_true_2 by done. cbn.
  eexists _, _. split; [reflexivity|]. split; [split; [reflexivity|done|by cbn]|]. done.
Qed.

Lemma free_run s r st :
  outage st = false → sessions (db st) !! s = Some r →
  ∃ r' st', MetaSession.assign_session_host s None now st = (Ok tt, st') ∧
    writes_row s r' st st' ∧ SessRow.sandbox_id r' = SessRow.sandbox_id r ∧ SessRow.host_id r' = None ∧
    SessRow.status r' = SessRow.status r.
Proof.
  intros Ho Hs. unfold MetaSession.assign_session_host. run_m. rewrite Ho, Hs. cbn beta iota.
  eexists _, _. split; [reflexivity|]. split; [split; [reflexivity|done|by cbn]|]. done.
Qed.

Lemma append_run s kind payload r st :
  outage st = false → sessions (db st) !! s = Some r →
  ∃ idx r' st', MetaLost.append_session_event s kind payload now st = (Ok idx, st') ∧
    writes_row s r' st st' ∧ SessRow.sandbox_id r' = SessRow.sandbox_id r ∧
    SessRow.host_id r' = SessRow.host_id r ∧ SessRow.status r' = SessRow.status r.
Proof.
  intros Ho Hs. unfold MetaLost.append_session_event. run_m. rewrite Ho, Hs. cbn beta iota.
  eexists _, _, _. split; [reflexivity|]. split; [split; [reflexivity|done|by cbn]|]. done.
Qed.

Lemma transition_run s b r st :
  outage st = false → sessions (db st) !! s = Some r → SessRow.sandbox_id r = None →
  SessRow.status r = HostLost →
  ∃ r' st', MetaSession.transition_session s (recovery_target b) RequireUnbound now st = (Ok HostLost, st') ∧
    writes_row s r' st st' ∧ SessRow.sandbox_id r' = None ∧ SessRow.host_id r' = SessRow.host_id r ∧
    SessRow.status r' = recovery_target b.
Proof.
  intros Ho Hs Hsb Hst. unfold MetaSession.transition_session, MetaSession.check_transition,
    MetaSession.notify_freed. run_m. rewrite Ho, Hs. cbn beta iota. rewrite Hst, Hsb.
  destruct b; cbn; (eexists _, _; split; [reflexivity|]; split; [split; [reflexivity|done|by cbn]|]; done).
Qed.

(** *** The program on the store *)

Lemma asked_meta {A} (m : mreq A) st x st' :
  lost_meta m st = (Some x, st') → run (ask (Meta m)) st = (Some x, st').
Proof. intros H. by rewrite exec_ask. Qed.

Lemma emit_run s ev r st :
  outage st = false → sessions (db st) !! s = Some r →
  ∃ r' st', run (emit s ev) st = (Some tt, st') ∧ writes_row s r' st st' ∧
    SessRow.sandbox_id r' = SessRow.sandbox_id r ∧ SessRow.host_id r' = SessRow.host_id r ∧
    SessRow.status r' = SessRow.status r.
Proof.
  intros Ho Hs. destruct (append_run s ev.1 ev.2 r st Ho Hs) as (idx&r'&st'&E&Hw&?).
  exists r', st'. split; [|done]. unfold emit. rewrite exec_bind.
  rewrite (asked_meta _ _ (Ok idx) st'); [done|]. cbn. by rewrite E.
Qed.

Lemma settle_run s r st :
  outage st = false → sessions (db st) !! s = Some r → SessRow.sandbox_id r = None →
  SessRow.status r = HostLost →
  ∃ r' st', run (settle_host_lost s now) st = (Some tt, st') ∧ writes_row s r' st st' ∧
    SessRow.sandbox_id r' = None ∧ SessRow.host_id r' = SessRow.host_id r ∧
    SessRow.status r' = recovery_target (snapshot_recoverable (snaps s)).
Proof.
  intros Ho Hs Hsb Hst.
  destruct (transition_run s (snapshot_recoverable (snaps s)) r st Ho Hs Hsb Hst) as (r1&st1&E1&W1&?&Hh&?).
  destruct (emit_run s (status_changed HostLost (recovery_target (snapshot_recoverable (snaps s))) now) r1 st1)
    as (r2&st2&E2&W2&S2&H2&T2).
  { rewrite (wr_outage _ _ _ _ W1). done. }
  { rewrite (wr_row _ _ _ _ W1). apply lookup_insert_eq. }
  exists r2, st2. split; [|split; [by eapply writes_row_trans|]; split_and!; congruence].
  unfold settle_host_lost. rewrite exec_bind, (asked_meta _ _ (Ok (snaps s)) st) by done.
  rewrite exec_bind, (asked_meta _ _ (Ok HostLost) st1); [exact E2|]. cbn. by rewrite E1.
Qed.

(** Probes and destroys leave the store alone and end. *)
Lemma probe_run host sb st : ∃ b, run (probe_serving host sb) st = (Some b, st).
Proof.
  unfold probe_serving. destruct host as [h|]; [|by eexists].
  rewrite exec_bind, exec_ask. cbn [lost_fleet]. destruct (known h); [|by eexists].
  rewrite exec_bind, exec_ask. by eexists.
Qed.

Lemma belt_run host sb st : run (belt_destroy host sb) st = (Some tt, st).
Proof.
  unfold belt_destroy. destruct host as [h|]; [|done]. rewrite exec_bind, exec_ask. cbn [lost_fleet].
  destruct (known h); [|done]. by rewrite exec_bind, exec_ask.
Qed.

Lemma unbind_run s sb r st :
  outage st = false → sessions (db st) !! s = Some r → Session.id (SessRow.session r) = s →
  SessRow.sandbox_id r = Some sb →
  ∃ r' st', run (straggler_unbind (SessRow.session r) sb) st = (Some true, st') ∧ writes_row s r' st st' ∧
    SessRow.sandbox_id r' = None ∧ SessRow.host_id r' = SessRow.host_id r ∧
    SessRow.status r' = SessRow.status r ∧
    ∀ h, SessRow.host_id r = Some h → is_Some (sandbox_tombstones (db st') !! (h, sb)).
Proof.
  intros Ho Hs Hid Hsb. unfold straggler_unbind. rewrite exec_bind, Hid.
  assert (Hent : ∃ st1, run (match Session.host_id (SessRow.session r) with
      | Some h => x ← ask (Meta (MTombstone h sb (Some s))); Ret (is_ok x)
      | None => Ret true end) st = (Some true, st1) ∧ sessions (db st1) = sessions (db st) ∧
      outage st1 = outage st ∧
      (∀ k, is_Some (sandbox_tombstones (db st) !! k) → is_Some (sandbox_tombstones (db st1) !! k)) ∧
      ∀ h, SessRow.host_id r = Some h → is_Some (sandbox_tombstones (db st1) !! (h, sb))).
  { destruct (Session.host_id (SessRow.session r)) as [h|] eqn:Eh.
    - exists (st <| db ::= entomb h sb (Some s) now |>). split.
      + rewrite exec_bind, (asked_meta _ _ (Ok tt) (st <| db ::= entomb h sb (Some s) now |>)); [done|].
        unfold lost_meta, ran, MetaHost.record_sandbox_tombstone. run_m. by rewrite Ho.
      + cbn. split; [done|]. split; [done|]. split.
        * intros k [v Hk]. exists v. apply lookup_or_insert. by left.
        * intros h' E. unfold SessRow.host_id in E. rewrite Eh in E. injection E as <-. unfold or_insert.
          destruct (sandbox_tombstones (db st) !! (h, sb)) eqn:Et; [by rewrite Et|].
          by rewrite lookup_insert_eq.
    - exists st. split; [done|]. split_and!; try done. intros h E. unfold SessRow.host_id in E. congruence. }
  destruct Hent as (st1&->&Hs1&Ho1&Ht1&Hk1). cbn [negb]. rewrite exec_bind, exec_ask. cbn [lost_fleet].
  rewrite exec_bind. destruct (probe_run (Session.host_id (SessRow.session r)) sb st1) as [b ->].
  rewrite exec_bind. replace (run (if b then Ret tt else belt_destroy (Session.host_id (SessRow.session r)) sb) st1)
    with (Some tt, st1) by (destruct b; [done|by rewrite belt_run]).
  destruct (clear_run s sb r st1) as (r'&st'&E&W&?&?&?&Htomb); [congruence..|done|].
  exists r', st'. rewrite exec_bind, (asked_meta _ _ (Ok None) st'); [|cbn; by rewrite E].
  split; [done|]. split.
  { destruct W as [W1 W2 W3]. split; [by rewrite W1, Hs1|congruence|by eauto]. }
  split_and!; try done. intros h Hh. rewrite Htomb. by apply Hk1.
Qed.

(** A row is old when it rested for more than a minute. *)
Definition stale_row (r : SessRow.t) : Prop :=
  (nanos_of_secs 60 < now - Session.last_active_at (SessRow.session r))%Z.

(** What the sweep leaves of the row [r] of session [s]. *)
Record settled_row (s : SessionId) (r : SessRow.t) (st : Store) : Prop := {
  sr_row : ∃ r', sessions (db st) !! s = Some r' ∧ SessRow.sandbox_id r' = None ∧
    SessRow.host_id r' = None ∧ SessRow.status r' = recovery_target (snapshot_recoverable (snaps s));
  sr_tomb : ∀ h sb, SessRow.host_id r = Some h → SessRow.sandbox_id r = Some sb →
    is_Some (sandbox_tombstones (db st) !! (h, sb));
}.

Lemma one_run s r st :
  outage st = false → sessions (db st) !! s = Some r → Session.id (SessRow.session r) = s →
  SessRow.status r = HostLost →
  ∃ r' st', run (straggler_one (SessRow.session r)) st = (Some tt, st') ∧ writes_row s r' st st' ∧
    (stale_row r → settled_row s r st') ∧ (¬ stale_row r → r' = r).
Proof.
  intros Ho Hs Hid Hst. unfold straggler_one. rewrite exec_bind, exec_ask. cbn [lost_fleet].
  unfold stale_row. destruct (decide _) as [Hy|Hy].
  { exists r, st. split; [done|]. split; [split; [by rewrite insert_id|done|done]|]. split; [lia|done]. }
  rewrite exec_bind.
  assert (Hun : ∃ r1 st1, run (match Session.sandbox_id (SessRow.session r) with
      | Some sb => straggler_unbind (SessRow.session r) sb | None => Ret true end) st = (Some true, st1) ∧
      writes_row s r1 st st1 ∧ SessRow.sandbox_id r1 = None ∧ SessRow.host_id r1 = SessRow.host_id r ∧
      SessRow.status r1 = HostLost ∧
      ∀ h sb, SessRow.host_id r = Some h → SessRow.sandbox_id r = Some sb →
        is_Some (sandbox_tombstones (db st1) !! (h, sb))).
  { destruct (Session.sandbox_id (SessRow.session r)) as [sb|] eqn:Esb.
    - destruct (unbind_run s sb r st Ho Hs Hid Esb) as (r1&st1&E&W&?&?&?&Ht). exists r1, st1.
      split_and!; try done; [congruence|]. intros h sb' Hh Hsb'. unfold SessRow.sandbox_id in Hsb'.
      simplify_eq. by apply Ht.
    - exists r, st. split; [done|]. split; [split; [by rewrite insert_id|done|done]|].
      split_and!; try done. intros h sb' _ Hsb'. unfold SessRow.sandbox_id in Hsb'. congruence. }
  destruct Hun as (r1&st1&->&W1&Hsb1&Hh1&Hst1&Ht1). cbn [negb]. rewrite exec_bind, Hid.
  assert (Hl1 : sessions (db st1) !! s = Some r1) by (rewrite (wr_row _ _ _ _ W1); apply lookup_insert_eq).
  assert (Ho1 : outage st1 = false) by (by rewrite (wr_outage _ _ _ _ W1)).
  assert (Hfree : ∃ r2 st2, run (if bool_decide (is_Some (Session.host_id (SessRow.session r)))
      then x ← ask (Meta (MAssignHost s None)); Ret (is_ok x) else Ret true) st1 = (Some true, st2) ∧
      writes_row s r2 st1 st2 ∧ SessRow.sandbox_id r2 = None ∧ SessRow.host_id r2 = None ∧
      SessRow.status r2 = HostLost).
  { case_bool_decide as Eh.
    - destruct (free_run s r1 st1 Ho1 Hl1) as (r2&st2&E&W&?&?&?). exists r2, st2.
      rewrite exec_bind, (asked_meta _ _ (Ok tt) st2); [|cbn; by rewrite E].
      split; [done|]. split_and!; try done; congruence.
    - exists r1, st1. split; [done|]. split; [split; [by rewrite insert_id|done|done]|].
      split_and!; try done. rewrite Hh1. unfold SessRow.host_id. by apply eq_None_not_Some. }
  destruct Hfree as (r2&st2&->&W2&Hsb2&Hh2&Hst2). cbn [negb].
  destruct (settle_run s r2 st2) as (r3&st3&E3&W3&?&?&?).
  { rewrite (wr_outage _ _ _ _ W2). done. }
  { rewrite (wr_row _ _ _ _ W2). apply lookup_insert_eq. }
  { done. } { done. }
  exists r3, st3. split; [exact E3|].
  split; [eapply writes_row_trans; [exact W1|]; by eapply writes_row_trans|]. split; [|lia].
  intros _. split.
  - exists r3. rewrite (wr_row _ _ _ _ W3), lookup_insert_eq. split_and!; try done. congruence.
  - intros h sb Hh Hsb. apply (wr_tombs _ _ _ _ W3), (wr_tombs _ _ _ _ W2). by apply Ht1.
Qed.

Lemma settled_later s r st st' :
  settled_row s r st → sessions (db st') !! s = sessions (db st) !! s →
  (∀ k, is_Some (sandbox_tombstones (db st) !! k) → is_Some (sandbox_tombstones (db st') !! k)) →
  settled_row s r st'.
Proof. intros [(r'&H&?) Ht] Hs Hk. split; [exists r'; by rewrite Hs|]. by eauto. Qed.

(** The loop over rows with distinct ids. *)
Lemma loop_run (l : list (SessionId * SessRow.t)) st :
  outage st = false → NoDup l.*1 →
  (∀ s r, (s, r) ∈ l → sessions (db st) !! s = Some r ∧ Session.id (SessRow.session r) = s ∧
                       SessRow.status r = HostLost) →
  ∃ st', run (for_all (List.map (fun p => SessRow.session p.2) l) straggler_one) st = (Some tt, st') ∧
    (∀ k, is_Some (sandbox_tombstones (db st) !! k) → is_Some (sandbox_tombstones (db st') !! k)) ∧
    (∀ s, s ∉ l.*1 → sessions (db st') !! s = sessions (db st) !! s) ∧
    (∀ s r, (s, r) ∈ l → (stale_row r → settled_row s r st') ∧
                         (¬ stale_row r → sessions (db st') !! s = Some r)).
Proof.
  revert st. induction l as [|[s r] l IH]; intros st Ho Hnd Hl; cbn [for_all List.map fst snd].
  { exists st. split; [done|]. split; [done|]. split; [done|]. intros s r H. by apply not_elem_of_nil in H. }
  apply NoDup_cons in Hnd as [Hns Hnd].
  destruct (Hl s r (list_elem_of_here _ _)) as (Hs&Hid&Hst).
  destruct (one_run s r st Ho Hs Hid Hst) as (r1&st1&E1&W1&Hold&Hnew). rewrite exec_bind, E1.
  assert (Hne : ∀ s' r', (s', r') ∈ l → s' ≠ s).
  { intros s' r' Hin ->. apply Hns, list_elem_of_fmap. by exists (s, r'). }
  destruct (IH st1) as (st2&E2&Ht2&Hf2&Hl2); [by rewrite (wr_outage _ _ _ _ W1)|done| |].
  { intros s' r' Hin. rewrite (wr_row _ _ _ _ W1), lookup_insert_ne by (intros ->; by eapply Hne).
    apply Hl. by apply list_elem_of_further. }
  exists st2. split; [done|]. split; [intros k Hk; by apply Ht2, (wr_tombs _ _ _ _ W1)|]. split.
  - intros s' Hs'. cbn in Hs'. rewrite elem_of_cons in Hs'. rewrite Hf2 by tauto.
    rewrite (wr_row _ _ _ _ W1), lookup_insert_ne; [done|]. intros ->. tauto.
  - intros s' r' [[= -> ->]|Hin]%elem_of_cons; [|by apply Hl2]. split; intros Hstale.
    + eapply settled_later; [by apply Hold|by apply Hf2|done].
    + rewrite Hf2 by done. rewrite (wr_row _ _ _ _ W1), lookup_insert_eq. by rewrite Hnew.
Qed.

Lemma filterb_snd_map {A B C} (P : B → bool) (f : B → C) (l : list (A * B)) :
  List.map f (List.filter P l.*2) = List.map (fun p => f p.2) (List.filter (fun p => P p.2) l).
Proof. induction l as [|[a b] l IH]; [done|]. cbn. destruct (P b); cbn; by rewrite IH. Qed.

(** C34. One sweep on a store that answers settles every session that rested in
    [HostLost] for more than a minute, whatever the hosts answer: to [Idle] or
    [Dead] as its snapshot says, unbound, with the sandbox it was bound to
    entombed; every other session row is left as it was. *)
Theorem sweep_settles st :
  minv (db st) → outage st = false →
  ∃ st', run host_lost_straggler_sweep st = (Some (Ok tt), st') ∧
  ∀ s r, sessions (db st) !! s = Some r →
    (SessRow.status r = HostLost ∧ stale_row r → settled_row s r st') ∧
    (¬ (SessRow.status r = HostLost ∧ stale_row r) → sessions (db st') !! s = Some r).
Proof.
  intros Hm Ho. set (lost := fun p : SessionId * SessRow.t => bool_decide (SessRow.status p.2 = HostLost)).
  set (l := List.filter lost (btree (sessions (db st)))).
  assert (Hin : ∀ s r, (s, r) ∈ l ↔ sessions (db st) !! s = Some r ∧ SessRow.status r = HostLost).
  { intros s r. unfold l. rewrite elem_of_filterb, elem_of_btree. unfold lost. cbn.
    by rewrite bool_decide_eq_true. }
  destruct (loop_run l st Ho) as (st'&E&_&Hf&Hl).
  { unfold l. eapply sublist_NoDup; [|apply fmap_sublist, Manifest.filterb_sublist].
    rewrite btree_perm. apply NoDup_fst_map_to_list. }
  { intros s r [Hs Hst]%Hin. split; [done|]. split; [by apply (mi_sess_keyed _ Hm)|done]. }
  exists st'. split.
  - unfold host_lost_straggler_sweep. rewrite exec_bind.
    rewrite (asked_meta _ _ (Ok (List.map (fun p => SessRow.session p.2) l)) st).
    + rewrite exec_bind, E. done.
    + unfold lost_meta, ran, MetaLost.list_host_lost_sessions. run_m. rewrite Ho. cbn.
      unfold values, l, lost. by rewrite filterb_snd_map.
  - intros s r Hs. destruct (decide (SessRow.status r = HostLost)) as [Hst|Hst].
    + assert (Hsr : (s, r) ∈ l) by (by apply Hin). destruct (Hl s r Hsr) as [H1 H2]. split.
      * intros [_ ?]. by apply H1.
      * intros Hn. apply H2. tauto.
    + split; [tauto|]. intros _. rewrite Hf; [done|].
      intros ([s' r']&->&[Hs' ?]%Hin)%list_elem_of_fmap. cbn in Hs. congruence.
Qed.
End sweep.

(** Session 10 is stranded in [HostLost], still bound to sandbox 100 of host 1,
    which nobody can reach. *)
Definition demo_lost : list call := demo_boot ++ [TransitionSession 10 HostLost Retain 7].

Lemma sweep_settles_witness : ∃ st',
  exec (lost_fleet (fun _ => None) 100000000000 (fun _ => false) (fun _ _ => Err SandboxError.HostLost)
          (fun _ _ => Err SandboxError.HostLost)) host_lost_straggler_sweep (demo demo_lost) = (Some (Ok tt), st') ∧
  (SessRow.status <$> sessions (db st') !! 10%N) = Some Dead ∧
  is_Some (sandbox_tombstones (db st') !! (1, 100)%N).
Proof.
  destruct (sweep_settles (fun _ => None) 100000000000 (fun _ => false) (fun _ _ => Err SandboxError.HostLost)
    (fun _ _ => Err SandboxError.HostLost) (demo demo_lost)
    (run_inv None demo_lost _ (demo_run demo_lost ltac:(vm_compute; reflexivity)))
    ltac:(vm_compute; reflexivity)) as (st'&E&H).
  exists st'. split; [exact E|].
  destruct (sessions (db (demo demo_lost)) !! 10%N) as [r|] eqn:Er; [|exfalso; vm_compute in Er; discriminate].
  assert (Hr : SessRow.status r = HostLost ∧ stale_row 100000000000 r ∧ SessRow.host_id r = Some 1%N ∧
               SessRow.sandbox_id r = Some 100%N).
  { vm_compute in Er. injection Er as <-. repeat split. }
  destruct (proj1 (H 10%N r Er) (conj (proj1 Hr) (proj1 (proj2 Hr)))) as [(r'&Hr'&_&_&Hs) Ht].
  split; [rewrite Hr'; cbn; by rewrite Hs|]. apply Ht; apply Hr.
Defined.

(** ** The passes on the fleet *)

Definition det_meta (now : DateTime) {A} (m : mreq A) (st : Store) : option (result A MetaError) * Store :=
  match m in mreq A return option (result A MetaError) * Store with
  | MListLeaseExpired => ran (MetaHost.list_lease_expired_hosts now st)
  | MAcquireDeadLease _ _ _ => (Some (Ok true), st)
  | MReleaseDeadLease _ _ => (Some (Ok tt), st)
  | MHostStatus h => ran (MetaHost.host_status h st)
  | MMarkDead h => ran (MetaHost.mark_host_dead_if_lease_expired h now st)
  | MNotifyHostDead _ => (Some (Ok tt), st)
  | MListResident h => ran (MetaLost.list_resident_sandbox_assignments_on_host h st)
  | MStrikes present missing grace => ran (MetaSession.apply_missing_sandbox_strikes present missing grace st)
  | MGetSession s => ran (MetaSession.get_session s st)
  | m => lost_meta (fun _ => None) now m st
  end.

(** Nobody can be reached. *)
Definition silent_fleet (now : DateTime) (X : Type) (q : creq X) (st : Store) : option X * Store :=
  match q in creq X return option X * Store with
  | Meta m => det_meta now m st
  | PoolGet _ => (Some false, st)
  | UnregisterHost _ => (Some tt, st)
  | q => lost_fleet (fun _ => None) now (fun _ => false) (fun _ _ => Err SandboxError.HostLost)
           (fun _ _ => Err SandboxError.HostLost) _ q st
  end.

Lemma silent_runs {A} now (p : prog creq A) st :
  runs (fun _ _ _ _ => True) [] p (trace (silent_fleet now) p st) (exec (silent_fleet now) p st).1.
Proof. exact (proj1 (exec_runs (silent_fleet now) _ (fun _ _ => True) p st [] (fun _ _ _ _ _ _ _ _ => conj I I) I)). Qed.

Definition demo_detection : list (event creq) :=
  trace (silent_fleet 2000) (run_once 45 180 "a") (demo demo_boot).

Definition demo_reconcile : list (event creq) :=
  trace (silent_fleet 20) (reconcile_with_deps 1 1 []) (demo demo_boot).

(** Split a history at an index. *)
Lemma split_at {A} (l : list A) i x : l !! i = Some x → l = take i l ++ x :: drop (S i) l.
Proof. intros H. by rewrite take_drop_middle. Qed.



(** Session 10 struck out and its binding is cleared. *)
Lemma reconcile_disciplined_witness :
  (∃ x, demo_reconcile !! 6%nat = Some (Ev (Meta (MAssignGuarded 10 None (Some (Some 100%N)) [])) x)) ∧
  unaffirmed_since_read (take 6 demo_reconcile) 10 (Some 100%N).
Proof.
  assert (E : ∃ x, demo_reconcile !! 6%nat = Some (Ev (Meta (MAssignGuarded 10 None (Some (Some 100%N)) [])) x))
    by (eexists; vm_compute; reflexivity).
  split; [exact E|]. destruct E as [x E].
  pose proof (reconcile_disciplined 1 1 [] demo_reconcile _ (silent_runs 20 _ _) _ _ _ (split_at _ _ _ E)) as H.
  destruct H as (_&_&o&[= <-]&H). exact H.
Defined.
