(* ===== verification/Executor.v ===== *)
(** * The op executor

    [engram-coordinator/src/session_ops.rs]: claim the head of a session's op
    lane, run its verb under a deadline, write the outcome back under the claim's
    epoch, and go on until the lane has nothing due. *)

From S2P Require Import Prelude Session Teleport OpLogSpec MetaTypes MetaOps MetaSession.
From S2P Require Import MetaTeleport MetaHost Text Manifest Prog Rank Coord TeleportDriver.

(** [Duration::as_secs] of the constants, in nanoseconds. *)
Definition backoff (attempts : Z) : Duration :=
  let secs := ((Z.max attempts 0 + 1) * 2)%Z in nanos_of_secs (Z.min secs 60).

Definition base_deadline (k : OpKind) : option Duration :=
  match k with
  | Resume | CreateBoot => Some (nanos_of_secs 600)
  | Deliver | Destroy => Some (nanos_of_secs 120)
  | Evict | CheckpointFinalize | Teleport => None
  end.

Section executor.
(** [pod_id()], and [ENGRAM_OP_DEADLINE_SECS] where it parses. *)
Context (pod_id : string) (deadline_env : option Z).

Definition op_deadline (k : OpKind) : option Duration :=
  (fun d => match deadline_env with
            | Some n => if decide (0 < n)%Z then nanos_of_secs n else d
            | None => d
            end) <$> base_deadline k.

(** [attempt_elapsed]: zero when the clock reads backwards. *)
Definition attempt_elapsed (started : DateTime) : cprog Duration :=
  now ← ask Now; Ret (Z.max 0 (now - started))%Z.

Definition op_finish (op : SessionOp.t) (e : Z) (final : OpState.t) (err : option string) :
    cprog (result bool MetaError) :=
  ask (Meta (MOpFinish (SessionOp.id op) e final err)).

(** The retry arms: paced by the attempt's own duration. *)
Definition requeue (op : SessionOp.t) (e : Z) (started : DateTime) (delay : Duration) (err : string) :
    cprog (result bool MetaError) :=
  elapsed ← attempt_elapsed started;
  let paced := (elapsed + delay)%Z in
  requeued ← ask (Meta (MOpRequeue (SessionOp.id op) e paced err));
  _ ← match requeued with Ok true => ask (ArmWake paced) | _ => Ret tt end;
  Ret requeued.

Definition write_outcome (op : SessionOp.t) (e : Z) (started : DateTime) (o : OpOutcome.t) :
    cprog (result bool MetaError) :=
  match o with
  | OpOutcome.Done => op_finish op e OpState.Done None
  | OpOutcome.Cancelled => op_finish op e OpState.Cancelled None
  | OpOutcome.Failed err => op_finish op e OpState.Failed (Some err)
  | OpOutcome.Retry err => requeue op e started (backoff (SessionOp.attempts op)) err
  | OpOutcome.RetryAfter delay err => requeue op e started delay err
  end.

Definition terminal_outcome (o : OpOutcome.t) : bool :=
  match o with OpOutcome.Retry _ | OpOutcome.RetryAfter _ _ => false | _ => true end.

(** A move waiting for its harness was woken while it was still running. *)
Definition recheck_attach (op : SessionOp.t) (o : OpOutcome.t) (written : result bool MetaError) :
    cprog unit :=
  if bool_decide (SessionOp.kind op = Teleport)
     && match o with OpOutcome.RetryAfter _ _ => true | _ => false end
     && match written with Ok b => b | Err _ => false end
  then
    open ← ask (Meta (MOpenTeleport (SessionOp.session_id op)));
    match open with
    | Ok (Some row) =>
        if bool_decide (TeleportRow.phase row = TeleportPhase.Committed) then
          gens ← ask (Meta (MBindingGenerations (SessionOp.session_id op)));
          match gens with
          | Ok (generation, attached) =>
              if bool_decide (generation ≤ attached)%Z then
                _ ← ask (Meta (MOpWake (SessionOp.session_id op) Teleport)); Ret tt
              else Ret tt
          | Err _ => Ret tt
          end
        else Ret tt
    | _ => Ret tt
    end
  else Ret tt.

Definition wakes_sibling_deliver (op : SessionOp.t) : bool :=
  match SessionOp.kind op with
  | CreateBoot => true
  | Resume => bool_decide (json_get "flavor" (SessionOp.payload op) ≫= json_as_str = Some "for_delivery"%string)
  | _ => false
  end.

(** The prompt that waits for a boot. *)
Definition wake_deliver (op : SessionOp.t) (o : OpOutcome.t) : cprog unit :=
  if terminal_outcome o && wakes_sibling_deliver op then
    wake ← match o with
           | OpOutcome.Done => Ret true
           | _ =>
               s ← ask (Meta (MGetSession (SessionOp.session_id op)));
               Ret (match s with Ok s => is_terminal (Session.status s) | Err _ => false end)
           end;
    if (wake : bool) then
      now ← ask Now;
      _ ← ask (StampGrace (SessionOp.session_id op) now);
      _ ← ask (Meta (MOpWake (SessionOp.session_id op) Deliver));
      Ret tt
    else Ret tt
  else Ret tt.

Definition deadline_message : string :=
  "op exceeded wall-clock deadline {deadline:?} at step {:?} (executor alive but wedged); requeued with backoff".

Definition drive_one (op : SessionOp.t) : cprog unit :=
  e ← expect (SessionOp.epoch op) "claimed op carries its epoch";
  _ ← ask Now;
  started ← ask Now;
  ran ← ask (RunVerb op (op_deadline (SessionOp.kind op)));
  let outcome := default (OpOutcome.Retry deadline_message) ran in
  written ← write_outcome op e started outcome;
  _ ← (if terminal_outcome outcome then ask (PublishOpFinished (SessionOp.id op)) else Ret tt);
  _ ← recheck_attach op outcome written;
  wake_deliver op outcome.

Fixpoint drive_session (turns : nat) (s : SessionId) : cprog unit :=
  match turns with
  | O => x ← ask Spin; match x : Empty_set with end
  | S turns =>
      claimed ← ask (Meta (MClaimHead s pod_id));
      match claimed with
      | Ok (Some op) => _ ← drive_one op; drive_session turns s
      | Ok None | Err _ => Ret tt
      end
  end.

Definition drive_claimed (turns : nat) (op : SessionOp.t) : cprog unit :=
  _ ← drive_one op; drive_session turns (SessionOp.session_id op).

End executor.
