(* ===== verification/Lane.v ===== *)
(** * A lane of retrying ops

    The executor of [Executor] on the store, with verbs that take time and ask
    to be retried.  The lane of a session is the [not_before] instants of its
    queued ops; a turn of the loop picks the lowest due op and moves its instant
    past the end of the attempt by the attempt's duration and the delay. *)

From S2P Require Import Prelude Session Teleport OpLogSpec MetaTypes MetaOps MetaSession.
From S2P Require Import MetaTeleport MetaHost MetaStep MetaCalls Scenario Text Manifest Prog Rank Coord TeleportDriver Executor.

(** ** The lane *)

Definition queued_at (s : SessionId) (o : OpRow.t) : option (option DateTime) :=
  if bool_decide (OpRow.session_id o = s) && bool_decide (OpRow.state o = OpState.Queued)
  then Some (OpRow.not_before o) else None.

Definition lane (s : SessionId) (d : SimDb) : gmap Z (option DateTime) := omap (queued_at s) (session_ops d).

Definition due (c : DateTime) (nb : option DateTime) : bool :=
  match nb with None => true | Some nb => bool_decide (nb ≤ c)%Z end.

(** The op the loop claims at instant [c], if any. *)
Definition picks (L : gmap Z (option DateTime)) (c : DateTime) (o : option Z) : Prop :=
  match o with
  | None => ∀ i nb, L !! i = Some nb → due c nb = false
  | Some i => (∃ nb, L !! i = Some nb ∧ due c nb = true) ∧
              ∀ j nb, L !! j = Some nb → due c nb = true → (i ≤ j)%Z
  end.

(** One retried attempt: it takes [b], and is queued again after [b + delay]. *)
Inductive turn (D dmin : Duration) : gmap Z (option DateTime) * DateTime → gmap Z (option DateTime) * DateTime → Prop :=
| turn_retry L c i b delay :
    picks L c (Some i) → (0 ≤ b ≤ D)%Z → (dmin ≤ delay)%Z →
    turn D dmin (L, c) (<[i := Some (c + b + (b + delay))%Z]> L, (c + b)%Z).

Lemma picks_due L c i : picks L c (Some i) → ∃ nb, L !! i = Some nb ∧ due c nb = true.
Proof. by intros [H _]. Qed.

(** *** Two ops *)

(** The ops of a lane are among these. *)
Definition among (L : gmap Z (option DateTime)) (i j : Z) : Prop := ∀ k, is_Some (L !! k) → k = i ∨ k = j.

Inductive turns (D dmin : Duration) : nat → gmap Z (option DateTime) * DateTime → gmap Z (option DateTime) * DateTime → Prop :=
| turns_nil x : turns D dmin 0 x x
| turns_cons n x y z : turn D dmin x y → turns D dmin n y z → turns D dmin (S n) x z.

Lemma turns_snoc D dmin n x y z : turns D dmin n x y → turn D dmin y z → turns D dmin (S n) x z.
Proof. induction 1; intros Ht; econstructor; eauto using turns_nil. Qed.

(** After an attempt of [b], [i] waits longer than [b]: the other op can only
    bring it back by a longer attempt. *)
Lemma pair_bounded D dmin n : ∀ L c b delay i j z,
  (0 < dmin)%Z → (0 ≤ b ≤ D)%Z → (dmin ≤ delay)%Z → among L i j →
  L !! i = Some (Some (c + b + delay)%Z) → turns D dmin n (L, c) z →
  (Z.of_nat n ≤ (D - b) / dmin + 1)%Z.
Proof.
  induction n as [|n IH]; intros L c b delay i j z Hd Hb Hdel Ham Hi Hz.
  { assert (0 ≤ (D - b) / dmin)%Z by (apply Z.div_pos; lia). lia. }
  inversion Hz as [|? ? y ? Ht Hn]; subst. inversion Ht as [L' c' k bk dk Hp Hbk Hdk]; subst.
  destruct (picks_due _ _ _ Hp) as (nb&Hk&Hdue).
  assert (Hkj : k = j ∧ k ≠ i).
  { destruct (Ham k (ex_intro _ _ Hk)) as [->| ->].
    - exfalso. rewrite Hi in Hk. injection Hk as <-. cbn in Hdue. case_bool_decide; [lia|done].
    - split; [done|]. intros ->. rewrite Hi in Hk. injection Hk as <-. cbn in Hdue.
      case_bool_decide; [lia|done]. }
  destruct Hkj as [-> Hne].
  destruct n as [|n].
  { assert (0 ≤ (D - b) / dmin)%Z by (apply Z.div_pos; lia). lia. }
  assert (Hgrow : (b + dmin ≤ bk)%Z).
  { inversion Hn as [|? ? y ? Ht2 _]; subst. inversion Ht2 as [L' c' m bm dm Hp2 Hbm Hdm]; subst.
    destruct (picks_due _ _ _ Hp2) as (nb2&Hm&Hdue2).
    destruct (Ham m) as [->| ->].
    - destruct (decide (m = j)) as [->|]; [by eexists|]. rewrite lookup_insert_ne in Hm by done. by eexists.
    - rewrite lookup_insert_ne in Hm by done. rewrite Hi in Hm. injection Hm as <-. cbn in Hdue2.
      case_bool_decide; [lia|done].
    - rewrite lookup_insert_eq in Hm. injection Hm as <-. cbn in Hdue2. case_bool_decide; [lia|done]. }
  assert (Hrec : (Z.of_nat (S n) ≤ (D - bk) / dmin + 1)%Z).
  { eapply (IH _ _ bk dk j i); [done|done|exact Hdk| | |exact Hn].
    - intros k Hk'. destruct (decide (k = j)) as [->|Hkj]; [by left|].
      rewrite lookup_insert_ne in Hk' by done. destruct (Ham k Hk'); auto.
    - rewrite lookup_insert_eq. do 2 f_equal. lia. }
  assert ((D - bk) / dmin + 1 ≤ (D - b) / dmin)%Z; [|lia].
  rewrite <- Z.div_add by lia. apply Z.div_le_mono; lia.
Qed.

(** The claims a lane of at most two ops can take before it has nothing due. *)
Definition pair_claims (D dmin : Duration) : nat := Z.to_nat (D / dmin + 2).

Lemma pair_turns D dmin n L c i j z :
  (0 < dmin)%Z → (0 ≤ D)%Z → among L i j → turns D dmin n (L, c) z → (n ≤ pair_claims D dmin)%nat.
Proof.
  intros Hd HD Ham Hz. assert (0 ≤ D / dmin)%Z by (apply Z.div_pos; lia). unfold pair_claims.
  destruct n as [|n]; [lia|]. inversion Hz as [|? ? y ? Ht Hn]; subst.
  inversion Ht as [L' c' k bk dk Hp Hbk Hdk]; subst.
  destruct (picks_due _ _ _ Hp) as (nb&Hk&_).
  assert (∃ j', among (<[k:=Some (c + bk + (bk + dk))%Z]> L) k j') as [j' Ham'].
  { assert (Hother : ∃ j', ∀ m, is_Some (L !! m) → m = k ∨ m = j').
    { destruct (Ham k (ex_intro _ _ Hk)) as [->| ->]; [by exists j|].
      exists i. intros m Hm. destruct (Ham m Hm); auto. }
    destruct Hother as [j' Hj']. exists j'. intros m Hm. destruct (decide (m = k)) as [->|]; [by left|].
    rewrite lookup_insert_ne in Hm by done. by apply Hj'. }
  assert (Z.of_nat n ≤ (D - bk) / dmin + 1)%Z.
  { eapply (pair_bounded D dmin n _ _ bk dk k j'); try done. rewrite lookup_insert_eq. do 2 f_equal. lia. }
  assert ((D - bk) / dmin ≤ D / dmin)%Z by (apply Z.div_le_mono; lia). lia.
Qed.

(** ** The executor on the store *)

Section busy.
Context (pod : string) (deadline_env : option Z).
(** Attempt [n] at an op: how long it takes and what it answers. *)
Context (verb : nat → SessionOp.t → Duration * option OpOutcome.t).

(** The store, the clock, and the attempts made. *)
Record lane_world := MkLW { lw_store : Store; lw_clock : DateTime; lw_tries : nat }.

Definition at_clock {A} (m : DateTime → M A) (w : lane_world) : option (result A MetaError) * lane_world :=
  let p := m (lw_clock w) (lw_store w) in (Some p.1, MkLW p.2 (lw_clock w) (lw_tries w)).

Definition busy_meta {A} (m : mreq A) (w : lane_world) : option (result A MetaError) * lane_world :=
  match m in mreq A return option (result A MetaError) * lane_world with
  | MClaimHead s by_ => at_clock (MetaOps.op_claim_head s by_) w
  | MOpFinish i e final err => at_clock (MetaOps.op_finish i e final err) w
  | MOpRequeue i e paced err => at_clock (MetaOps.op_requeue_with_backoff i e paced err) w
  | MOpWake s k => at_clock (MetaOps.op_wake_queued_kind s k) w
  | MOpenTeleport s => (Some (Ok None), w)
  | _ => (None, w)
  end.

(** The loop bound of the model is never answered. *)
Definition busy (X : Type) (q : creq X) (w : lane_world) : option X * lane_world :=
  match q in creq X return option X * lane_world with
  | Meta m => busy_meta m w
  | Now => (Some (lw_clock w), w)
  | RunVerb op _ =>
      let '(b, o) := verb (lw_tries w) op in
      (Some o, MkLW (lw_store w) (lw_clock w + b)%Z (S (lw_tries w)))
  | PublishOpFinished _ => (Some tt, w)
  | ArmWake _ => (Some tt, w)
  | StampGrace _ _ => (Some tt, w)
  | _ => (None, w)
  end.

Notation run p w := (exec busy p w).

Lemma busy_ask {A} (m : mreq A) w : run (ask (Meta m)) w = busy_meta m w.
Proof. by rewrite exec_ask. Qed.

(** The outcome asks for another attempt after [delay]. *)
Definition retry_delay (op : SessionOp.t) (o : option OpOutcome.t) : option Duration :=
  match o with
  | None | Some (OpOutcome.Retry _) => Some (backoff (SessionOp.attempts op))
  | Some (OpOutcome.RetryAfter delay _) => Some delay
  | Some _ => None
  end.

(** *** Claims *)

Lemma lookup_lane s d i nb :
  lane s d !! i = Some nb ↔
  ∃ o, session_ops d !! i = Some o ∧ OpRow.session_id o = s ∧ OpRow.state o = OpState.Queued ∧
       OpRow.not_before o = nb.
Proof.
  unfold lane. rewrite lookup_omap. unfold queued_at.
  destruct (session_ops d !! i) as [o|]; cbn; [|naive_solver].
  do 2 case_bool_decide; cbn; naive_solver.
Qed.

(** No op of the session runs. *)
Definition idle_lane (s : SessionId) (d : SimDb) : Prop :=
  ∀ i o, session_ops d !! i = Some o → OpRow.session_id o = s → OpRow.state o ≠ OpState.Running.

Record lane_ok (s : SessionId) (st : Store) : Prop := {
  lo_on : outage st = false;
  lo_wf : MetaOps.wf (db st);
  lo_idle : idle_lane s (db st);
  lo_session : is_Some (sessions (db st) !! s);
}.

Lemma due_row c o : OpRow.state o = OpState.Queued → MetaOps.row_due c o = due c (OpRow.not_before o).
Proof. intros H. unfold MetaOps.row_due, due. by rewrite H. Qed.

(** What [op_claim_head] picks. *)
Lemma claim_picks s c st :
  lane_ok s st →
  picks (lane s (db st)) c
    (min_id (OpRow.id <$> List.filter (fun o => bool_decide (OpRow.session_id o = s) && MetaOps.row_due c o)
               (values (session_ops (db st))))).
Proof.
  intros [Ho Hwf Hidle Hs].
  set (l := List.filter _ _).
  assert (Hin : ∀ i, i ∈ OpRow.id <$> l ↔ ∃ nb, lane s (db st) !! i = Some nb ∧ due c nb = true).
  { intros i. rewrite list_elem_of_fmap. setoid_rewrite lookup_lane. split.
    - intros (o&->&Ho'). unfold l in Ho'. apply elem_of_filterb in Ho' as [[k Hk]%elem_of_values Hd].
      bool_prop. destruct (MetaOps.wf_id _ Hwf k o Hk) as [-> _].
      assert (Hq : OpRow.state o = OpState.Queued).
      { unfold MetaOps.row_due in H0. by bool_prop. }
      exists (OpRow.not_before o). split; [by exists o|]. by rewrite <- due_row.
    - intros (nb&(o&Hk&Hsid&Hq&<-)&Hd). exists o. destruct (MetaOps.wf_id _ Hwf i o Hk) as [-> _].
      split; [done|]. unfold l. apply elem_of_filterb. split; [apply elem_of_values; by exists i|].
      rewrite due_row by done. by rewrite bool_decide_eq_true_2. }
  destruct (min_id (OpRow.id <$> l)) as [i|] eqn:E.
  - apply min_id_Some in E as [Hi Hmin]. split; [by apply Hin|].
    intros j nb Hj Hd. apply Hmin, Hin. by exists nb.
  - intros i nb Hi. apply not_true_is_false. intros Hd.
    assert (Hc : i ∈ OpRow.id <$> l) by (apply Hin; by exists nb).
    destruct (OpRow.id <$> l); [by apply not_elem_of_nil in Hc|done].
Qed.

Lemma idle_no_running s d : idle_lane s d → existsb (MetaOps.lane_running s) (values (session_ops d)) = false.
Proof.
  intros Hi. apply not_true_is_false. intros (i&o&Hk&Hr)%existsb_values. unfold MetaOps.lane_running in Hr.
  bool_prop. by eapply Hi.
Qed.

(** Claim op [i] of the lane and write it back as queued at [nb]. *)
Record requeued (s : SessionId) (i : Z) (nb : DateTime) (st st' : Store) : Prop := {
  rq_lane : lane s (db st') = <[i := Some nb]> (lane s (db st));
  rq_ok : lane_ok s st';
}.

Lemma claim_run s c st i :
  lane_ok s st →
  min_id (OpRow.id <$> List.filter (fun o => bool_decide (OpRow.session_id o = s) && MetaOps.row_due c o)
            (values (session_ops (db st)))) = Some i →
  ∃ o e st1, MetaOps.op_claim_head s pod c st = (Ok (Some (op_row_to_domain o)), st1) ∧
    session_ops (db st1) = <[i := o]> (session_ops (db st)) ∧ MetaOps.wf (db st1) ∧ outage st1 = false ∧
    is_Some (sessions (db st1) !! s) ∧ OpRow.id o = i ∧ OpRow.session_id o = s ∧
    OpRow.epoch o = Some e ∧ OpRow.state o = OpState.Running.
Proof.
  intros Hok Hmin. pose proof (claim_picks s c st Hok) as Hp. rewrite Hmin in Hp.
  destruct (picks_due _ _ _ Hp) as (nb&(o&Hi&Hs&Hq&_)%lookup_lane&_).
  destruct Hok as [Ho Hwf Hidle [sess Hsess]]. unfold MetaOps.op_claim_head. run_m. rewrite Ho. cbn beta iota.
  rewrite idle_no_running by done. rewrite Hmin, Hsess. cbn beta iota. cbn [session_ops put_session].
  change (session_ops (put_session s _ (db st))) with (session_ops (db st)). rewrite Hi.
  eexists _, (SessRow.current_epoch sess + 1)%Z, _. split; [reflexivity|]. cbn.
  destruct (MetaOps.wf_id _ Hwf i o Hi) as [Hid Hser].
  split_and!; try done.
  - split; cbn.
    + intros k o'. rewrite lookup_insert_Some. intros [[<- <-]|[_ Hk]]; [done|by apply (MetaOps.wf_id _ Hwf)].
    + intros s' r. rewrite lookup_insert_Some. pose proof (MetaOps.wf_epoch _ Hwf) as He.
      intros [[<- <-]|[_ Hk]]; [cbn; specialize (He _ _ Hsess); lia|by eapply He].
  - rewrite lookup_insert_eq. by eexists.
Qed.

Lemma requeue_run s i o e paced err c st st1 :
  lane_ok s st → session_ops (db st1) = <[i := o]> (session_ops (db st)) → MetaOps.wf (db st1) →
  outage st1 = false → is_Some (sessions (db st1) !! s) →
  OpRow.session_id o = s → OpRow.epoch o = Some e → OpRow.state o = OpState.Running →
  (paced ≤ i64_max * 1000000)%Z →
  ∃ st2, MetaOps.op_requeue_with_backoff i e paced err c st1 = (Ok true, st2) ∧
         requeued s i (c + paced)%Z st st2.
Proof.
  intros [Ho Hwf Hidle Hs] Hops Hwf1 Ho1 Hs1 Hsid He Hst Hp.
  unfold MetaOps.op_requeue_with_backoff, MetaOps.fenced_write, MetaOps.fenced_row. run_m.
  rewrite Ho1, Hops, lookup_insert_eq. cbn beta iota. rewrite He, Hst. cbn.
  rewrite !bool_decide_eq_true_2 by done. cbn. eexists. split; [reflexivity|].
  assert (Hid : OpRow.id o = i ∧ (i ≤ serial (db st1))%Z).
  { apply (MetaOps.wf_id _ Hwf1). by rewrite Hops, lookup_insert_eq. }
  split; [|split]; cbn; try done.
  - unfold lane. cbn. rewrite Hops, insert_insert_eq. apply omap_insert_Some. unfold queued_at. cbn.
    rewrite !bool_decide_eq_true_2 by done. cbn. unfold from_std_or_zero. by rewrite decide_True.
  - split; cbn; [|apply (MetaOps.wf_epoch _ Hwf1)].
    intros k o'. rewrite lookup_insert_Some. intros [[<- <-]|[_ Hk]]; [done|by apply (MetaOps.wf_id _ Hwf1)].
  - intros k o'. cbn. rewrite Hops, insert_insert_eq, lookup_insert_Some.
    intros [[<- <-]|[_ Hk]]; [done|by eapply Hidle].
Qed.

(** The retry arms against the store. *)
Lemma requeue_prog op e started delay err w st2 :
  let paced := (Z.max 0 (lw_clock w - started) + delay)%Z in
  MetaOps.op_requeue_with_backoff (SessionOp.id op) e paced err (lw_clock w) (lw_store w) = (Ok true, st2) →
  run (requeue op e started delay err) w = (Some (Ok true), MkLW st2 (lw_clock w) (lw_tries w)).
Proof.
  intros paced H. unfold requeue, attempt_elapsed. rewrite exec_bind, exec_bind, exec_ask. cbn [busy].
  rewrite exec_ret. cbv zeta. rewrite exec_bind, busy_ask. unfold busy_meta, at_clock.
  fold paced. rewrite H. cbn [fst snd]. by rewrite exec_bind, exec_ask.
Qed.

Lemma drive_one_run op e c n st1 st2 b out delay err :
  SessionOp.epoch op = Some e → verb n op = (b, out) → (0 ≤ b)%Z →
  retry_delay op out = Some delay →
  err = match out with Some (OpOutcome.Retry err) | Some (OpOutcome.RetryAfter _ err) => err
        | _ => deadline_message end →
  MetaOps.op_requeue_with_backoff (SessionOp.id op) e (b + delay) err (c + b) st1 = (Ok true, st2) →
  run (drive_one deadline_env op) (MkLW st1 c n) = (Some tt, MkLW st2 (c + b) (S n)).
Proof.
  intros He Hv Hb Hd Herr Hrq. unfold drive_one. rewrite He. cbn [expect]. rewrite exec_bind, exec_ret.
  rewrite exec_bind, exec_ask. cbn [busy]. rewrite exec_bind, exec_ask. cbn [busy].
  rewrite exec_bind, exec_ask. cbn [busy lw_tries lw_store lw_clock]. rewrite Hv. cbv zeta.
  set (o := default _ out). rewrite exec_bind.
  assert (Hw : run (write_outcome op e c o) (MkLW st1 (c + b) (S n)) =
               (Some (Ok true), MkLW st2 (c + b) (S n)) ∧ terminal_outcome o = false).
  { assert (Hpaced : (Z.max 0 (c + b - c) + delay = b + delay)%Z) by lia.
    destruct out as [[| | | |]|]; cbn in Hd; simplify_eq; (split; [|done]);
      (apply (requeue_prog op e c _ _ (MkLW st1 (c + b)%Z (S n))); cbn; by rewrite Hpaced). }
  destruct Hw as [-> Ht]. rewrite Ht, exec_bind, exec_ret, exec_bind.
  assert (Hr : run (recheck_attach op o (Ok true)) (MkLW st2 (c + b)%Z (S n)) = (Some tt, MkLW st2 (c + b)%Z (S n))).
  { unfold recheck_attach. destruct (_ && _); [|done]. by rewrite exec_bind, busy_ask. }
  rewrite Hr. unfold wake_deliver. by rewrite Ht.
Qed.

(** ** The loop refines the lane *)

(** Every attempt takes at most [D] and is retried after [dmin] to [dmax]. *)
Definition retries (D dmin dmax : Duration) : Prop :=
  ∀ n op, (0 ≤ (verb n op).1 ≤ D)%Z ∧
    ∃ delay, retry_delay op (verb n op).2 = Some delay ∧ (dmin ≤ delay ≤ dmax)%Z.

Notation session_loop := (drive_session pod deadline_env).

(** One turn of the loop is the end of the lane or one attempt. *)
Lemma loop_attempt D dmin dmax k s w :
  retries D dmin dmax → (D + dmax ≤ i64_max * 1000000)%Z → lane_ok s (lw_store w) →
  let L := lane s (db (lw_store w)) in let c := lw_clock w in
  (picks L c None ∧ run (session_loop (S k) s) w = (Some tt, w)) ∨
  ∃ i op b out delay w', picks L c (Some i) ∧ verb (lw_tries w) op = (b, out) ∧
    retry_delay op out = Some delay ∧ lane s (db (lw_store w')) = <[i := Some (c + b + (b + delay))%Z]> L ∧
    lw_clock w' = (c + b)%Z ∧ lane_ok s (lw_store w') ∧ lw_tries w' = S (lw_tries w) ∧
    run (session_loop (S k) s) w = run (session_loop k s) w'.
Proof.
  intros Hret Hmax Hok L c0. destruct w as [st c n]. cbn [lw_store lw_clock lw_tries] in *.
  pose proof (claim_picks s c st Hok) as Hp. cbn [drive_session]. rewrite exec_bind, busy_ask.
  unfold busy_meta, at_clock. cbn [lw_clock lw_store lw_tries].
  destruct (min_id _) as [i|] eqn:Hmin.
  - right. destruct (claim_run s c st i Hok Hmin) as (o&e&st1&->&Hops&Hwf1&Ho1&Hs1&Hid&Hsid&He&Hrun).
    cbn [fst snd]. set (op := op_row_to_domain o).
    destruct (Hret n op) as [Hb (delay&Hd&Hdel)]. destruct (verb n op) as [b out] eqn:Hv. cbn in Hb, Hd.
    set (err := match out with Some (OpOutcome.Retry err) | Some (OpOutcome.RetryAfter _ err) => err
                | _ => deadline_message end).
    destruct (requeue_run s i o e (b + delay) err (c + b) st st1) as (st2&Hrq&[Hlane Hok2]); try done; [lia|].
    exists i, op, b, out, delay, (MkLW st2 (c + b)%Z (S n)). split_and!; try done.
    rewrite exec_bind, (drive_one_run op e c n st1 st2 b out delay err); try done; [lia|].
    cbn. by rewrite Hid.
  - left. split; [done|]. destruct Hok as [Ho Hwf Hidle _]. unfold MetaOps.op_claim_head. run_m. rewrite Ho.
    cbn beta iota. rewrite idle_no_running by done. rewrite Hmin. done.
Qed.

Lemma loop_turn D dmin dmax k s w :
  retries D dmin dmax → (D + dmax ≤ i64_max * 1000000)%Z → lane_ok s (lw_store w) →
  let L := lane s (db (lw_store w)) in
  (picks L (lw_clock w) None ∧ run (session_loop (S k) s) w = (Some tt, w)) ∨
  ∃ w', turn D dmin (L, lw_clock w) (lane s (db (lw_store w')), lw_clock w') ∧ lane_ok s (lw_store w') ∧
        lw_tries w' = S (lw_tries w) ∧ run (session_loop (S k) s) w = run (session_loop k s) w'.
Proof.
  intros Hret Hmax Hok L.
  destruct (loop_attempt D dmin dmax k s w Hret Hmax Hok)
    as [H|(i&op&b&out&delay&w'&Hp&Hv&Hd&Hl&Hc&Hok'&Ht&E)]; [by left|]. right. exists w'.
  split; [|done]. rewrite Hl, Hc. destruct (Hret (lw_tries w) op) as [Hb (delay'&Hd'&Hdel)].
  rewrite Hv in Hb, Hd'. cbn in Hb, Hd'. simplify_eq. apply turn_retry; [exact Hp|lia|lia].
Qed.

(** C12. The executor's loop on a lane of at most two ops ends, with nothing
    due, after a number of claims fixed by the longest attempt and the shortest
    delay: retries are paced by their own duration, so neither op can keep the
    other due for ever. *)
Theorem pair_drains D dmin dmax s i j w :
  (0 < dmin)%Z → (0 ≤ D)%Z → retries D dmin dmax → (D + dmax ≤ i64_max * 1000000)%Z →
  lane_ok s (lw_store w) → among (lane s (db (lw_store w))) i j →
  ∃ w', run (session_loop (S (pair_claims D dmin)) s) w = (Some tt, w') ∧
        (lw_tries w' ≤ lw_tries w + pair_claims D dmin)%nat ∧
        picks (lane s (db (lw_store w'))) (lw_clock w') None.
Proof.
  intros Hd HD Hret Hmax Hok Ham.
  assert (Hloop : ∀ k w1 m, lane_ok s (lw_store w1) → (m + k = pair_claims D dmin)%nat →
    turns D dmin m (lane s (db (lw_store w)), lw_clock w) (lane s (db (lw_store w1)), lw_clock w1) →
    ∃ w', run (session_loop (S k) s) w1 = (Some tt, w') ∧ (lw_tries w' ≤ lw_tries w1 + k)%nat ∧
          picks (lane s (db (lw_store w'))) (lw_clock w') None); last first.
  { destruct (Hloop (pair_claims D dmin) w 0%nat) as (w'&E&Ht&Hp); [done|lia|constructor|]. by exists w'. }
  induction k as [|k IH]; intros w1 m Hok1 Hm Ht;
    [pose proof (loop_turn D dmin dmax 0 s w1 Hret Hmax Hok1) as Hl
    |pose proof (loop_turn D dmin dmax (S k) s w1 Hret Hmax Hok1) as Hl];
    destruct Hl as [[Hp E]|(w2&Hturn&Hok2&Hn&E)].
  - exists w1. split; [exact E|]. split; [lia|done].
  - exfalso. assert (S m ≤ pair_claims D dmin)%nat; [|lia].
    eapply (pair_turns D dmin (S m) _ _ i j); [done..|]. by eapply turns_snoc.
  - exists w1. split; [exact E|]. split; [lia|done].
  - rewrite E. destruct (IH w2 (S m)) as (w'&E'&?&?); [done|lia|by eapply turns_snoc|].
    exists w'. split; [done|]. split; [lia|done].
Qed.

(** *** Three ops *)

Definition before (nb : option DateTime) (x : DateTime) : Prop :=
  match nb with None => True | Some v => (v ≤ x)%Z end.

(** One op is due, the second within an attempt, the third within two. *)
Definition rolling (B : Duration) (L : gmap Z (option DateTime)) (c : DateTime) : Prop :=
  ∃ p q r np nq nr, p ≠ q ∧ p ≠ r ∧ q ≠ r ∧
    L !! p = Some np ∧ L !! q = Some nq ∧ L !! r = Some nr ∧ (∀ k, is_Some (L !! k) → k = p ∨ k = q ∨ k = r) ∧
    before np c ∧ before nq (c + B)%Z ∧ before nr (c + 2 * B)%Z.

Lemma before_later nb x y : before nb x → (x ≤ y)%Z → before nb y.
Proof. destruct nb; cbn; [lia|done]. Qed.

Lemma rolling_due B L c : rolling B L c → ¬ picks L c None.
Proof.
  intros (p&q&r&np&nq&nr&_&_&_&Hp&_&_&_&Hd&_) Hn. specialize (Hn p np Hp).
  destruct np; cbn in *; [case_bool_decide; done|done].
Qed.

Lemma rolling_turn B delay L c i :
  (0 ≤ B)%Z → (delay ≤ B)%Z → rolling B L c → picks L c (Some i) →
  rolling B (<[i := Some (c + B + (B + delay))%Z]> L) (c + B)%Z.
Proof.
  intros HB Hdel (p&q&r&np&nq&nr&Hpq&Hpr&Hqr&Hp&Hq&Hr&Hall&Bp&Bq&Br) Hi.
  destruct (picks_due _ _ _ Hi) as (nb&Hnb&_).
  assert (Hcov : ∀ k, is_Some (<[i := Some (c + B + (B + delay))%Z]> L !! k) → k = p ∨ k = q ∨ k = r).
  { intros k. rewrite lookup_insert. case_decide as Hd; [intros _; subst k; by apply Hall; exists nb|apply Hall]. }
  destruct (Hall i (ex_intro _ _ Hnb)) as [->|[->| ->]].
  - exists q, r, p. eexists _, _, _. rewrite !lookup_insert_ne, lookup_insert_eq by done.
    split_and!; try done; [intros k Hk; destruct (Hcov k Hk) as [|[|]]; auto|..];
      [by eapply before_later; [exact Br|lia]|cbn; lia].
  - exists p, r, q. eexists _, _, _. rewrite !lookup_insert_ne, lookup_insert_eq by done.
    split_and!; try done; [intros k Hk; destruct (Hcov k Hk) as [|[|]]; auto|..];
      [by eapply before_later; [exact Bp|lia]|by eapply before_later; [exact Br|lia]|cbn; lia].
  - exists p, q, r. eexists _, _, _. rewrite !lookup_insert_ne, lookup_insert_eq by done.
    split_and!; try done; [by eapply before_later; [exact Bp|lia]|by eapply before_later; [exact Bq|lia]|cbn; lia].
Qed.

(** Three ops keep the loop busy for ever: when every attempt takes as long
    as the delay or longer, the lane is never without a due op, and no number of
    turns drains it. *)
Theorem trio_churns B delay msg s w n :
  (0 ≤ delay ≤ B)%Z → (B + delay ≤ i64_max * 1000000)%Z →
  (∀ n op, verb n op = (B, Some (OpOutcome.RetryAfter delay msg))) →
  lane_ok s (lw_store w) → rolling B (lane s (db (lw_store w))) (lw_clock w) →
  ∃ w', run (session_loop n s) w = (None, w') ∧ lw_tries w' = (lw_tries w + n)%nat.
Proof.
  intros Hdel Hmax Hv. assert (Hret : retries B delay delay).
  { intros m op. rewrite Hv. split; [cbn; lia|]. exists delay. split; [done|lia]. }
  revert w. induction n as [|n IH]; intros w Hok Hroll.
  { exists w. split; [done|lia]. }
  destruct (loop_attempt B delay delay n s w Hret Hmax Hok)
    as [[Hp _]|(i&op&b&out&d&w'&Hp&Hvb&Hd&Hl&Hc&Hok'&Ht&E)]; [by apply rolling_due in Hroll|].
  rewrite Hv in Hvb. injection Hvb as <- <-. cbn in Hd. injection Hd as <-.
  destruct (IH w' Hok') as (w2&E2&Ht2).
  { rewrite Hl, Hc. apply rolling_turn; [lia|lia|done|done]. }
  exists w2. rewrite E, E2. split; [done|lia].
Qed.

End busy.

(** ** A session with waiting ops *)

(** Ops 1, 2 and, with [more], 3 of session 10 are queued. *)
Definition demo_lane (more : bool) : list call :=
  demo_boot ++ [OpEnqueue 10 Deliver JNull (Some "a"%string) "a" 7] ++
  (if more then [OpEnqueue 10 Resume JNull (Some "b"%string) "a" 8] else []) ++ [OpRequeue 1 1 0 "busy" 9].

Lemma demo_lane_ok more : lane_ok 10 (demo (demo_lane more)).
Proof.
  pose proof (run_inv None (demo_lane more) (demo (demo_lane more))
    (demo_run (demo_lane more) ltac:(destruct more; vm_compute; reflexivity))) as Hm.
  split; [by destruct more; vm_compute|apply Hm| |by destruct more; vm_compute; eexists].
  assert (H : map_Forall (fun _ o => OpRow.session_id o = 10%N → OpRow.state o ≠ OpState.Running)
    (session_ops (db (demo (demo_lane more))))) by (destruct more; apply (bool_decide_unpack _); vm_compute; exact I).
  exact H.
Qed.

Lemma demo_pair : among (lane 10 (db (demo (demo_lane false)))) 1 2.
Proof.
  assert (H : map_Forall (fun k (_ : option DateTime) => k = 1%Z ∨ k = 2%Z) (lane 10 (db (demo (demo_lane false)))))
    by (apply (bool_decide_unpack _); vm_compute; exact I).
  intros k [nb Hk]. by apply (H k nb).
Qed.

Lemma demo_trio : rolling (nanos_of_secs 120) (lane 10 (db (demo (demo_lane true)))) 10.
Proof.
  assert (H : map_Forall (fun k (_ : option DateTime) => k = 1%Z ∨ k = 2%Z ∨ k = 3%Z)
    (lane 10 (db (demo (demo_lane true))))) by (apply (bool_decide_unpack _); vm_compute; exact I).
  exists 1%Z, 2%Z, 3%Z, (Some 9%Z), None, None. split_and!; try done; try (vm_compute; reflexivity).
  intros k [nb Hk]. by apply (H k nb).
Qed.

(** Every attempt takes two minutes and asks for another in two seconds. *)
Definition demo_verb (n : nat) (op : SessionOp.t) : Duration * option OpOutcome.t :=
  (nanos_of_secs 120, Some (OpOutcome.RetryAfter (nanos_of_secs 2) "host gone")).

Lemma pair_drains_witness : ∃ w',
  exec (busy demo_verb) (drive_session "a" None (S (pair_claims (nanos_of_secs 120) (nanos_of_secs 2))) 10)
    (MkLW (demo (demo_lane false)) 10 0) = (Some tt, w') ∧ (lw_tries w' ≤ 62)%nat.
Proof.
  destruct (pair_drains "a" None demo_verb (nanos_of_secs 120) (nanos_of_secs 2) (nanos_of_secs 60) 10 1 2
    (MkLW (demo (demo_lane false)) 10 0)) as (w'&E&Ht&_).
  - reflexivity.
  - discriminate.
  - intros n op. split; [split; discriminate|]. eexists. split; [reflexivity|split; discriminate].
  - discriminate.
  - apply demo_lane_ok.
  - exact demo_pair.
  - exists w'. split; [exact E|]. exact Ht.
Defined.

(** With a third op the lane is still busy after a thousand claims. *)
Lemma trio_churns_witness : ∃ w',
  exec (busy demo_verb) (drive_session "a" None 1000 10) (MkLW (demo (demo_lane true)) 10 0) = (None, w') ∧
  lw_tries w' = 1000%nat.
Proof.
  apply (trio_churns "a" None demo_verb (nanos_of_secs 120) (nanos_of_secs 2) "host gone" 10
    (MkLW (demo (demo_lane true)) 10 0) 1000).
  - split; discriminate.
  - discriminate.
  - intros. reflexivity.
  - apply demo_lane_ok.
  - exact demo_trio.
Defined.
