(* ===== verification/OpFront.v ===== *)
(** * Entering an op lane

    The front of [engram-coordinator/src/session_ops.rs]: enqueueing an op, the
    claims that handlers hold inline, the tasks they detach, and the sweep that
    takes over dead executors and revives sessions without a boot. *)

From S2P Require Import Prelude Session Teleport OpLogSpec MetaTypes MetaOps MetaSession.
From S2P Require Import MetaTeleport MetaHost Text Manifest Prog Rank Coord TeleportDriver HostLoss Executor.
Local Open Scope string_scope.

Definition RECLAIM_STALE : Duration := nanos_of_secs 180.
Definition PENDING_ORPHAN_GRACE : Duration := nanos_of_secs 120.

Section front.
Context (pod_id : string).

Definition enqueue_claim (s : SessionId) (k : OpKind) (payload : json) (key : option string) :
    cprog (result EnqueueOutcome MetaError) :=
  ask (Meta (MEnqueue s k payload key pod_id)).

(** The claimed op is driven by a task of its own. *)
Definition enqueue (s : SessionId) (k : OpKind) (payload : json) (key : option string) :
    cprog (result EnqueueOutcome MetaError) :=
  do! outcome := enqueue_claim s k payload key in
  _ ← match outcome with Claimed op => ask (SpawnTask (DriveClaimed op)) | _ => Ret tt end;
  okay outcome.

(** ** Inline claims

    An [OpClaim] is its op and epoch; [as_ctx] is the identity, and the
    [finished] flag is whether [claim_finish] or [claim_drop] ends it. *)

Definition try_acquire (s : SessionId) (k : OpKind) (payload : json) :
    cprog (result (option OpCtx) MetaError) :=
  do! got := ask (Meta (MEnqueueExclusive s k payload pod_id)) in
  match got with
  | Some op =>
      e ← expect (SessionOp.epoch op) "claimed op carries its epoch";
      okay (Some (MkOpCtx op e))
  | None => okay None
  end.

Definition claim_finish (c : OpCtx) (outcome : OpState.t) (err : option string) : cprog unit :=
  _ ← ask (Meta (MOpFinish (SessionOp.id (ctx_op c)) (ctx_epoch c) outcome err));
  _ ← ask (PublishOpFinished (SessionOp.id (ctx_op c)));
  ask (SpawnTask (DriveSession (SessionOp.session_id (ctx_op c)))).

(** [Drop] of a claim that was not finished. *)
Definition claim_drop (c : OpCtx) : cprog unit :=
  ask (SpawnTask (DropClaim (ctx_op c) (ctx_epoch c))).

(** What a detached task does. *)
Definition run_task (deadline_env : option Z) (turns : nat) (t : task) : cprog unit :=
  match t with
  | DriveSession s => drive_session pod_id deadline_env turns s
  | DriveClaimed op => drive_claimed pod_id deadline_env turns op
  | DropClaim op e =>
      _ ← ask (Meta (MOpFinish (SessionOp.id op) e OpState.Failed
                 (Some "inline claim dropped without an explicit finish")));
      _ ← ask (PublishOpFinished (SessionOp.id op));
      drive_session pod_id deadline_env turns (SessionOp.session_id op)
  end.

(** ** The reclaim sweep *)

Definition revive_orphan (s : SessionId) : cprog unit :=
  _ ← enqueue s CreateBoot (JObj [("recovered", JBool true)]) (Some ("boot-recover:" +:+ uuid_str s));
  Ret tt.

(** One turn of the loop, after its sleep. *)
Definition reclaim_sweep : cprog unit :=
  reclaimed ← ask (Meta (MReclaimStale RECLAIM_STALE pod_id));
  _ ← match reclaimed with
      | Ok ops => for_all ops (fun op => ask (SpawnTask (DriveClaimed op)))
      | Err _ => Ret tt
      end;
  orphans ← ask (Meta (MOrphanedPending PENDING_ORPHAN_GRACE));
  match orphans with
  | Ok ids => for_all ids revive_orphan
  | Err _ => Ret tt
  end.

End front.
