(* ===== verification/TeleportPlan.v ===== *)
(** * Planning moves

    The other half of [engram-coordinator/src/teleport.rs]: the scan that plans
    the sessions of retiring hosts and takes up moves without an op, and the
    admission of a move by request. *)

From S2P Require Import Prelude Session Teleport OpLogSpec MetaTypes MetaOps MetaSession.
From S2P Require Import MetaTeleport MetaHost MetaStep MetaCalls Scenario Text Manifest Prog Rank Coord.
From S2P Require Import TeleportDriver HostLoss HostLossRun Executor OpFront.
Local Open Scope string_scope.

Definition reason_str (r : TeleportReason) : string :=
  match r with RetireHost => "retire_host" | AdminDrain => "admin_drain" | Ui => "ui" end.

Record PlanReport := MkReport {
  planned : list SessionId;
  descended : list SessionId;
  skipped : Z;
}.
#[global] Instance PlanReport_eta : Eta PlanReport := fun r =>
  MkReport (planned r) (descended r) (skipped r).

Definition json_id (i : Uuid) : json := JStr (uuid_str i).

Section plan.
Context (pod_id : string).

(** The op is queued at once: a claim is given back. *)
Definition enqueue_deferred (s : SessionId) (k : OpKind) (payload : json) (key : option string) :
    cprog (result unit MetaError) :=
  do! outcome := enqueue_claim pod_id s k payload key in
  match outcome with
  | Claimed op =>
      e ← expect (SessionOp.epoch op) "claimed epoch";
      do! _ := ask (Meta (MOpRequeue (SessionOp.id op) e 0%Z "teleport scheduled")) in
      okay tt
  | _ => okay tt
  end.

(** [t.timestamp_millis()], as text; instants are after the epoch. *)
Definition descent_key (session : Session.t) : string :=
  "evict-descend:" +:+
  dec (Z.to_N (default 0%Z ((fun t => t / 1000000)%Z <$> Session.parked_at session))).

(** [descend_parked_session] of [idle_evictor.rs]. *)
Definition descend_parked_session (session : Session.t) : cprog (result bool MetaError) :=
  moved ← ask (Meta (MTransition (Session.id session) Evicting Retain));
  match moved with
  | Err _ => okay false
  | Ok prev =>
      now ← ask Now;
      _ ← emit (Session.id session) (status_changed prev Evicting now);
      do! _ := enqueue pod_id (Session.id session) Evict
                 (JObj [("target", JStr "idle"); ("allow_park", JBool false); ("nominated", JBool true)])
                 (Some (descent_key session)) in
      okay true
  end.

(** One resident session of the host. *)
Definition plan_one (host : HostId) (reason : TeleportReason) (max_open : Z) (report : PlanReport)
    (a : SessionId * SandboxId * SessionState) : cprog PlanReport :=
  let '(s, _, status) := a in
  let skip := report <| skipped ::= Z.succ |> in
  match status with
  | Active =>
      r ← enqueue_deferred s Teleport
            (JObj [("source_host", json_id host); ("reason", JStr (reason_str reason));
                   ("max_open_per_dest", JNum max_open)])
            (Some ("teleport:" +:+ uuid_str host +:+ ":" +:+ uuid_str s));
      Ret (match r with
           | Ok _ => report <| planned ::= fun l => (l ++ [s])%list |>
           | Err _ => skip
           end)
  | Parked =>
      got ← ask (Meta (MGetSession s));
      match got with
      | Err _ => Ret skip
      | Ok session =>
          done ← descend_parked_session session;
          Ret (match done with
               | Ok true => report <| descended ::= fun l => (l ++ [s])%list |>
               | Ok false | Err _ => skip
               end)
      end
  | _ => Ret skip
  end.

Fixpoint plan_all (host : HostId) (reason : TeleportReason) (max_open : Z) (report : PlanReport)
    (l : list (SessionId * SandboxId * SessionState)) : cprog PlanReport :=
  match l with
  | [] => Ret report
  | a :: l =>
      report ← plan_one host reason max_open report a;
      plan_all host reason max_open report l
  end.

Definition plan_host_teleports_with_limit (host : HostId) (reason : TeleportReason) (max_open : Z) :
    cprog PlanReport :=
  let report := MkReport [] [] 0 in
  assignments ← ask (Meta (MListResident host));
  match assignments with
  | Err _ => Ret report
  | Ok rows => plan_all host reason max_open report rows
  end.

Definition plan_host_teleports (host : HostId) (reason : TeleportReason) : cprog PlanReport :=
  plan_host_teleports_with_limit host reason default_max_open_per_dest.

(** A loop whose body ends it with [?]. *)
Fixpoint try_all {A} (l : list A) (f : A → cprog (result unit MetaError)) :
    cprog (result unit MetaError) :=
  match l with
  | [] => okay tt
  | a :: l => do! _ := f a in try_all l f
  end.

Definition retire_step (max_open : Z) (host : HostRecord.t) : cprog (result unit MetaError) :=
  _ ← plan_host_teleports_with_limit (HostRecord.id host) RetireHost max_open;
  now ← ask Now;
  do! _ := ask (Meta (MGrantRetirement (HostRecord.id host) now)) in
  okay tt.

Definition resume_step (max_open : Z) (r : TeleportRow.t) : cprog (result unit MetaError) :=
  do! pending := ask (Meta (MOpPending (TeleportRow.session_id r) Teleport)) in
  if (pending : bool) then okay tt
  else
    enqueue_deferred (TeleportRow.session_id r) Teleport
      (JObj [("teleport_id", json_id (TeleportRow.id r)); ("max_open_per_dest", JNum max_open)])
      (Some ("teleport:" +:+ uuid_str (TeleportRow.id r))).

Definition plan_once (max_open : Z) : cprog (result unit MetaError) :=
  do! hosts := ask (Meta MListRetiring) in
  do! _ := try_all hosts (retire_step max_open) in
  do! rows := ask (Meta MListOpenTeleports) in
  try_all rows (resume_step max_open).

End plan.

(** ** Admission by request *)

Section admission.
Context (pod_id : string).
Context (caps_of : json → HostCapabilities.t) (sha256_of : json → string)
  (pool_floor_env : option Z) (placement_ttl : Duration).

(** The last arm is [unreachable!()]. *)
Definition refusal (o : result TeleportAdmitOutcome ApiError.t) : capi TeleportRow.t :=
  match o with
  | Err e => api_fail e
  | Ok NoFit => api_fail (ApiError.Conflict "no_fit")
  | Ok (SessionNotActive _) => api_fail (ApiError.Conflict "not_active")
  | Ok Fenced => api_fail (ApiError.Conflict "busy_lane")
  | Ok (Admitted_ _) =>
      x ← ask (Panic "internal error: entered unreachable code"); match x : Empty_set with end
  end.

(** A [?] between the claim and its end drops the claim. *)
Definition admit_for_rpc (s : SessionId) (target : option HostId) : capi TeleportRow.t :=
  do! session := meta (MGetSession s) in
  do! claim := api (try_acquire pod_id s Teleport
                 (JObj [("source_host", match Session.host_id session with
                                        | Some h => json_id h | None => JNull end);
                        ("reason", JStr (reason_str Ui))])) in
  match claim with
  | None => api_fail (ApiError.Conflict "busy_lane")
  | Some ctx =>
      admitted ← admit_step caps_of sha256_of pool_floor_env placement_ttl ctx target Ui;
      match admitted with
      | Ok (Admitted_ row) =>
          queued ← enqueue_deferred pod_id s Teleport
                     (JObj [("teleport_id", json_id (TeleportRow.id row))])
                     (Some ("teleport:" +:+ uuid_str (TeleportRow.id row)));
          match queued with
          | Ok _ => _ ← claim_finish ctx OpState.Done None; okay row
          | Err e => _ ← claim_drop ctx; api_fail (ApiError.of_meta e)
          end
      | other => _ ← claim_finish ctx OpState.Done None; refusal other
      end
  end.

End admission.
