(* ===== verification/PlanRun.v ===== *)
(** * Planning on the store

    What a scan of the planner and a turn of the reclaim sweep achieve on a
    store that answers: no open move, no session of a retiring host and no
    pending session is left without the op that carries it on. *)

From S2P Require Import Prelude Session Teleport OpLogSpec MetaTypes MetaOps MetaSession.
From S2P Require Import MetaTeleport MetaHost MetaStep MetaCalls Scenario Text Manifest Prog Rank Coord.
From S2P Require Import TeleportDriver HostLoss HostLossRun Executor OpFront TeleportPlan.

(** An op of the kind is queued or running. *)
Definition pending (d : SimDb) (s : SessionId) (k : OpKind) : Prop :=
  ∃ i o, session_ops d !! i = Some o ∧ OpRow.session_id o = s ∧ OpRow.kind o = k ∧
         OpState.active (OpRow.state o) = true.

(** A session row up to its clocks and epochs; a parked one may descend if [D]. *)
Record row_keeps (D : Prop) (r r' : SessRow.t) : Prop := {
  rk_id : Session.id (SessRow.session r') = Session.id (SessRow.session r);
  rk_host : SessRow.host_id r' = SessRow.host_id r;
  rk_sandbox : SessRow.sandbox_id r' = SessRow.sandbox_id r;
  rk_status : SessRow.status r' = SessRow.status r ∧
              Session.last_active_at (SessRow.session r') = Session.last_active_at (SessRow.session r) ∨
              D ∧ SessRow.status r = Parked ∧ SessRow.status r' = Evicting;
}.

(** Nothing the planner reads is changed, but for descents of sessions in [P]
    and ops that are added. *)
Record keeps (P : SessionId → Prop) (st st' : Store) : Prop := {
  k_on : outage st' = outage st;
  k_wf : MetaOps.wf (db st) → MetaOps.wf (db st');
  k_pending : ∀ s k, pending (db st) s k → pending (db st') s k;
  k_tele : teleports (db st') = teleports (db st);
  k_sess : ∀ s, option_Forall2 (row_keeps (P s)) (sessions (db st) !! s) (sessions (db st') !! s);
}.

Lemma row_keeps_refl D r : row_keeps D r r.
Proof. by split; auto. Qed.

Lemma row_keeps_trans D r1 r2 r3 : row_keeps D r1 r2 → row_keeps D r2 r3 → row_keeps D r1 r3.
Proof.
  intros [? ? ? H1] [? ? ? H2]. split; try congruence.
  destruct H1 as [[E1 ?]|(?&E1&E1')], H2 as [[E2 ?]|(?&E2&E2')]; [left|right..]; split_and!; congruence.
Qed.

#[global] Instance keeps_preorder P : PreOrder (keeps P).
Proof.
  split.
  - intros st. split; try done. intros s. destruct (sessions (db st) !! s); constructor. apply row_keeps_refl.
  - intros st1 st2 st3 [O1 W1 P1 T1 S1] [O2 W2 P2 T2 S2]. split; try congruence; auto.
    intros s. specialize (S1 s). specialize (S2 s). inversion S1 as [r1 r2 H12 E1 E2|E1 E2]; rewrite <- E2 in S2;
      inversion S2 as [r2' r3 H23|]; subst; constructor. by eapply row_keeps_trans.
Qed.

Lemma keeps_mono (P Q : SessionId → Prop) st st' : (∀ s, P s → Q s) → keeps P st st' → keeps Q st st'.
Proof.
  intros HPQ [O W Pe T S]. split; try done. intros s. destruct (S s) as [r r' [? ? ? H]|]; constructor.
  split; try done. naive_solver.
Qed.

Lemma keeps_row P st st' s r :
  keeps P st st' → sessions (db st) !! s = Some r →
  ∃ r', sessions (db st') !! s = Some r' ∧ row_keeps (P s) r r'.
Proof.
  intros K Hs. pose proof (k_sess _ _ _ K s) as H. rewrite Hs in H. inversion H as [r0 r' Hr E0 E|]; subst.
  by exists r'.
Qed.

(** Ops that are put in place of themselves, active as before. *)
Lemma pending_insert d d' i o o' :
  session_ops d' = <[i := o']> (session_ops d) → session_ops d !! i = Some o →
  OpRow.session_id o' = OpRow.session_id o → OpRow.kind o' = OpRow.kind o →
  (OpState.active (OpRow.state o) = true → OpState.active (OpRow.state o') = true) → ∀ s k, pending d s k → pending d' s k.
Proof.
  intros E Hi Hs Hk Ha s k (j&oj&Hj&Hsj&Hkj&Haj). destruct (decide (j = i)) as [->|Hne].
  - exists i, o'. rewrite E, lookup_insert_eq. rewrite Hi in Hj. injection Hj as ->. split_and!; auto; congruence.
  - exists j, oj. by rewrite E, lookup_insert_ne by done.
Qed.

Lemma pending_new d d' i o' :
  session_ops d' = <[i := o']> (session_ops d) → session_ops d !! i = None →
  ∀ s k, pending d s k → pending d' s k.
Proof.
  intros E Hi s k (j&oj&Hj&?). exists j, oj. rewrite E, lookup_insert_ne by congruence. done.
Qed.

(** Calls of the op log keep what the planner reads. *)
Lemma op_keeps P c st :
  is_op_call c = true → call_ok c st → outage (MetaCalls.exec c st) = outage st →
  (∀ s k, pending (db st) s k → pending (db (MetaCalls.exec c st)) s k) → keeps P st (MetaCalls.exec c st).
Proof.
  intros Hc Hok Ho Hp. pose proof (op_call_frame c st Hc) as [Hs Ht _ _ _]. split; try done.
  - intros Hwf. by apply (op_call_refines c st Hc Hok Hwf).
  - intros s. specialize (Hs s). destruct (sessions (db st) !! s) as [r|], (sessions _ !! s) as [r'|]; try done;
      [|constructor]. destruct Hs as [_ ->]. constructor. by split; auto.
Qed.

(** A write of one session row. *)
Lemma session_keeps (P : SessionId → Prop) s r r' st st' :
  sessions (db st) !! s = Some r → sessions (db st') = <[s := r']> (sessions (db st)) →
  outage st' = outage st → session_ops (db st') = session_ops (db st) → serial (db st') = serial (db st) →
  teleports (db st') = teleports (db st) → SessRow.current_epoch r' = SessRow.current_epoch r →
  row_keeps (P s) r r' → keeps P st st'.
Proof.
  intros Hs Es Ho Hops Hser Ht He Hr. split; try done.
  - intros [Hid Hep]. split; rewrite ?Hops, ?Hser; [done|]. intros s' r0. rewrite Es, lookup_insert_Some.
    intros [[<- <-]|[_ H]]; [rewrite He; by eapply Hep|by eapply Hep].
  - intros s' k. unfold pending. by rewrite Hops.
  - intros s'. rewrite Es. destruct (decide (s' = s)) as [->|Hne].
    + rewrite lookup_insert_eq, Hs. by constructor.
    + rewrite lookup_insert_ne by done. destruct (sessions (db st) !! s'); constructor. apply row_keeps_refl.
Qed.

(** ** The methods *)

Section planner.
Context (pod : string) (now : DateTime).

Lemma serial_fresh d : MetaOps.wf d → session_ops d !! (Z.succ (serial d)) = None.
Proof.
  intros Hwf. apply eq_None_not_Some. intros [o Ho]. destruct (MetaOps.wf_id _ Hwf _ _ Ho). lia.
Qed.

Lemma enqueue_keeps P s k p key st :
  outage st = false → MetaOps.wf (db st) → is_Some (sessions (db st) !! s) →
  ∃ out st', MetaOps.op_enqueue_and_claim s k p key pod now st = (Ok out, st') ∧ keeps P st st' ∧
    pending (db st') s k ∧
    match out with
    | Claimed op => ∃ e o, SessionOp.epoch op = Some e ∧ session_ops (db st') !! SessionOp.id op = Some o ∧
        OpRow.session_id o = s ∧ OpRow.epoch o = Some e ∧ OpRow.state o = OpState.Running
    | _ => True
    end.
Proof.
  intros Ho Hwf [sess Hs]. destruct (MetaOps.op_enqueue_and_claim s k p key pod now st) as [res st'] eqn:E.
  assert (Hk : outage st' = outage st → (∀ s k, pending (db st) s k → pending (db st') s k) → keeps P st st').
  { intros H1 H2. pose proof (op_keeps P (OpEnqueue s k p key pod now) st eq_refl I) as H.
    cbn in H. rewrite E in H. by apply H. }
  revert E. unfold MetaOps.op_enqueue_and_claim. run_m. rewrite Ho. cbn beta iota.
  destruct (match key with Some _ => _ | None => _ end) eqn:Edup.
  { intros [= <- <-]. exists Duplicate, st. split; [done|]. split; [reflexivity|]. split; [|done].
    destruct key as [key|]; [|done]. apply existsb_values in Edup as (i&o&Hi&Hb). bool_prop.
    exists i, o. done. }
  unfold next_serial. cbn beta iota zeta.
  pose proof (serial_fresh (db st) Hwf) as Hfresh.
  destruct (_ && _).
  - change (sessions ((db st) <| serial ::= Z.succ |>)) with (sessions (db st)). rewrite Hs. cbn beta iota.
    intros [= <- <-]. eexists (Claimed _), _. split; [reflexivity|]. split.
    { apply Hk; [done|]. eapply pending_new; [reflexivity|]. exact Hfresh. }
    split.
    + eexists _, _. cbn. rewrite lookup_insert_eq. done.
    + eexists _, _. cbn. rewrite lookup_insert_eq. done.
  - intros [= <- <-]. eexists (QueuedAs _), _. split; [reflexivity|]. split.
    { apply Hk; [done|]. eapply pending_new; [reflexivity|]. exact Hfresh. }
    split; [|done]. eexists _, _. cbn. rewrite lookup_insert_eq. done.
Qed.

Lemma requeue_keeps P i o e paced err st :
  outage st = false → session_ops (db st) !! i = Some o → OpRow.epoch o = Some e →
  OpRow.state o = OpState.Running →
  ∃ st', MetaOps.op_requeue_with_backoff i e paced err now st = (Ok true, st') ∧ keeps P st st'.
Proof.
  intros Ho Hi He Hst. destruct (MetaOps.op_requeue_with_backoff i e paced err now st) as [res st'] eqn:E.
  assert (Hk : outage st' = outage st → (∀ s k, pending (db st) s k → pending (db st') s k) → keeps P st st').
  { intros H1 H2. pose proof (op_keeps P (OpRequeue i e paced err now) st eq_refl I) as H.
    cbn in H. rewrite E in H. by apply H. }
  revert E. unfold MetaOps.op_requeue_with_backoff, MetaOps.fenced_write, MetaOps.fenced_row. run_m.
  rewrite Ho, Hi. cbn beta iota. rewrite He, Hst, !bool_decide_eq_true_2 by done. cbn.
  intros [= <- <-]. eexists. split; [done|]. apply Hk; [done|].
  by eapply pending_insert; [reflexivity|exact Hi|..].
Qed.

(** ** The programs *)

Definition plan_meta {A} (m : mreq A) (st : Store) : option (result A MetaError) * Store :=
  match m in mreq A return option (result A MetaError) * Store with
  | MEnqueue s k p key by_ => ran (MetaOps.op_enqueue_and_claim s k p key by_ now st)
  | MOpRequeue i e paced err => ran (MetaOps.op_requeue_with_backoff i e paced err now st)
  | MOpPending s k => ran (MetaOps.op_pending_exists s k st)
  | MReclaimStale stale by_ => ran (MetaOps.op_reclaim_stale stale by_ now st)
  | MOrphanedPending older => ran (MetaOps.orphaned_pending_sessions older now st)
  | MListRetiring => ran (MetaHost.list_retiring_hosts st)
  | MGrantRetirement h at_ => ran (MetaHost.grant_host_retirement h at_ st)
  | MListOpenTeleports => ran (MetaTeleport.list_open_teleports st)
  | MListResident h => ran (MetaLost.list_resident_sandbox_assignments_on_host h st)
  | MGetSession s => ran (MetaSession.get_session s st)
  | MTransition s to disp => ran (MetaSession.transition_session s to disp now st)
  | MAppendEvent s kind payload => ran (MetaLost.append_session_event s kind payload now st)
  | _ => (None, st)
  end.

(** Detached tasks do not run here. *)
Definition plan_world (X : Type) (q : creq X) (st : Store) : option X * Store :=
  match q in creq X return option X * Store with
  | Meta m => plan_meta m st
  | Now => (Some now, st)
  | PublishEvent _ _ _ => (Some tt, st)
  | SpawnTask _ => (Some tt, st)
  | _ => (None, st)
  end.

Notation run p st := (exec plan_world p st).

Lemma plan_ask {A} (m : mreq A) st : run (ask (Meta m)) st = plan_meta m st.
Proof. by rewrite exec_ask. Qed.

Lemma deferred_run P s k p key st :
  outage st = false → MetaOps.wf (db st) → is_Some (sessions (db st) !! s) →
  ∃ st', run (enqueue_deferred pod s k p key) st = (Some (Ok tt), st') ∧ keeps P st st' ∧
    pending (db st') s k.
Proof.
  intros Ho Hwf Hs. destruct (enqueue_keeps P s k p key st Ho Hwf Hs) as (out&st1&E&K&Hp&Hc).
  unfold enqueue_deferred, enqueue_claim. rewrite exec_try, plan_ask. cbn [plan_meta]. rewrite E. cbn [ran fst snd].
  destruct out as [op|op|]; [|by exists st1..].
  destruct Hc as (e&o&He&Hi&_&Heo&Hst). rewrite He. cbn [expect]. rewrite exec_bind, exec_ret.
  destruct (requeue_keeps P (SessionOp.id op) o e 0 "teleport scheduled" st1) as (st2&E2&K2); try done.
  { by rewrite (k_on _ _ _ K). }
  exists st2. rewrite exec_try, plan_ask. cbn [plan_meta]. rewrite E2. cbn [ran fst snd].
  split; [done|]. split; [by etrans|]. by apply (k_pending _ _ _ K2).
Qed.

Lemma enqueue_run P s k p key st :
  outage st = false → MetaOps.wf (db st) → is_Some (sessions (db st) !! s) →
  ∃ out st', run (enqueue pod s k p key) st = (Some (Ok out), st') ∧ keeps P st st' ∧
    pending (db st') s k.
Proof.
  intros Ho Hwf Hs. destruct (enqueue_keeps P s k p key st Ho Hwf Hs) as (out&st1&E&K&Hp&_).
  exists out, st1. unfold enqueue, enqueue_claim. rewrite exec_try, plan_ask. cbn [plan_meta]. rewrite E.
  cbn [ran fst snd]. split; [|done]. rewrite exec_bind. destruct out; [|done..]. by rewrite exec_ask.
Qed.

(** *** Descents *)

Lemma descend_move s r st :
  outage st = false → sessions (db st) !! s = Some r → SessRow.status r = Parked →
  ∃ st', MetaSession.transition_session s Evicting Retain now st = (Ok Parked, st') ∧ keeps (eq s) st st' ∧
    ∃ r', sessions (db st') !! s = Some r' ∧ SessRow.status r' = Evicting.
Proof.
  intros Ho Hs Hst. unfold MetaSession.transition_session, MetaSession.check_transition,
    MetaSession.notify_freed. run_m. rewrite Ho, Hs. cbn beta iota. rewrite Hst.
  replace (binding_disposition_legal Evicting _ Retain) with true by (by destruct (bool_decide _)). cbn.
  eexists. split; [reflexivity|]. split.
  - eapply session_keeps; [exact Hs|reflexivity|done..|]. split; try done. right. by rewrite Hst.
  - eexists. cbn. rewrite lookup_insert_eq. done.
Qed.

Lemma append_keeps P s kind payload r st :
  outage st = false → sessions (db st) !! s = Some r →
  ∃ idx st', MetaLost.append_session_event s kind payload now st = (Ok idx, st') ∧ keeps P st st'.
Proof.
  intros Ho Hs. unfold MetaLost.append_session_event. run_m. rewrite Ho, Hs. cbn beta iota.
  eexists _, _. split; [reflexivity|]. eapply session_keeps; [exact Hs|reflexivity|done..|].
  split; try done. by left.
Qed.

Lemma emit_keeps P s ev r st :
  outage st = false → sessions (db st) !! s = Some r →
  ∃ st', run (emit s ev) st = (Some tt, st') ∧ keeps P st st'.
Proof.
  intros Ho Hs. destruct (append_keeps P s ev.1 ev.2 r st Ho Hs) as (idx&st'&E&K). exists st'.
  split; [|done]. unfold emit. rewrite exec_bind, plan_ask. cbn [plan_meta]. rewrite E. cbn [ran fst snd]. by rewrite exec_ask.
Qed.

Lemma descend_run s r st :
  outage st = false → MetaOps.wf (db st) → sessions (db st) !! s = Some r →
  Session.id (SessRow.session r) = s → SessRow.status r = Parked →
  ∃ st', run (descend_parked_session pod (SessRow.session r)) st = (Some (Ok true), st') ∧
    keeps (eq s) st st' ∧ pending (db st') s Evict ∧
    ∃ r', sessions (db st') !! s = Some r' ∧ SessRow.status r' = Evicting.
Proof.
  intros Ho Hwf Hs Hid Hst. destruct (descend_move s r st Ho Hs Hst) as (st1&E1&K1&r1&Hs1&Hst1).
  destruct (emit_keeps (eq s) s (status_changed Parked Evicting now) r1 st1) as (st2&E2&K2);
    [by rewrite (k_on _ _ _ K1)|done|].
  destruct (keeps_row _ _ _ s r1 K2 Hs1) as (r2&Hs2&R2).
  unfold descend_parked_session. rewrite exec_bind, plan_ask, Hid. cbn [plan_meta]. rewrite E1. cbn [ran fst snd].
  rewrite exec_bind, exec_ask. cbn [plan_world]. rewrite exec_bind, E2. rewrite exec_try.
  destruct (enqueue_run (eq s) s Evict (JObj [("target"%string, JStr "idle"); ("allow_park"%string, JBool false);
    ("nominated"%string, JBool true)]) (Some (descent_key (SessRow.session r))) st2) as (out&st3&E3&K3&Hp).
  { by rewrite (k_on _ _ _ K2), (k_on _ _ _ K1). }
  { by apply (k_wf _ _ _ K2), (k_wf _ _ _ K1). }
  { by exists r2. }
  rewrite E3. exists st3. split; [done|]. split; [by etrans; [exact K1|]; etrans|]. split; [done|].
  destruct (keeps_row _ _ _ s r2 K3 Hs2) as (r3&Hs3&R3). exists r3. split; [done|].
  destruct (rk_status _ _ _ R2) as [[H _]|(_&H&_)], (rk_status _ _ _ R3) as [[H' _]|(_&H'&?)]; congruence.
Qed.

(** *** Plans *)

(** What carries a resident session on. *)
Definition carried (st : Store) (s : SessionId) (status : SessionState) : Prop :=
  match status with
  | Active => pending (db st) s Teleport
  | Parked => pending (db st) s Evict ∧ ∃ r, sessions (db st) !! s = Some r ∧ SessRow.status r = Evicting
  | _ => True
  end.

Lemma carried_later P st st' s status : keeps P st st' → carried st s status → carried st' s status.
Proof.
  intros K. destruct status; try done; cbn.
  - by apply (k_pending _ _ _ K).
  - intros [Hp (r&Hs&Hst)]. split; [by apply (k_pending _ _ _ K)|].
    destruct (keeps_row _ _ _ _ _ K Hs) as (r'&Hs'&R). exists r'. split; [done|].
    destruct (rk_status _ _ _ R) as [[? _]|(_&?&?)]; congruence.
Qed.

(** A row of the listing that is as it was listed. *)
Definition listed_row (st : Store) (a : SessionId * SandboxId * SessionState) : Prop :=
  ∃ r, sessions (db st) !! a.1.1 = Some r ∧ Session.id (SessRow.session r) = a.1.1 ∧ SessRow.status r = a.2.

Lemma plan_one_run host reason m report a st :
  outage st = false → MetaOps.wf (db st) → listed_row st a →
  ∃ report' st', run (plan_one pod host reason m report a) st = (Some report', st') ∧
    keeps (eq a.1.1) st st' ∧ carried st' a.1.1 a.2.
Proof.
  destruct a as [[s sb] status]. intros Ho Hwf (r&Hs&Hid&Hst). cbn [fst snd] in *. unfold plan_one.
  destruct status; try (eexists _, st; split; [reflexivity|]; split; [reflexivity|done]).
  - match goal with |- context [enqueue_deferred _ _ _ ?p ?key] =>
      destruct (deferred_run (eq s) s Teleport p key st Ho Hwf) as (st'&E&K&Hp); [by exists r|] end.
    rewrite exec_bind, E. eexists _, st'. by split.
  - assert (E0 : MetaSession.get_session s st = (Ok (SessRow.session r), st)).
    { unfold MetaSession.get_session. run_m. by rewrite Ho, Hs. }
    rewrite exec_bind, plan_ask. cbn [plan_meta]. rewrite E0. cbn [ran fst snd]. destruct (descend_run s r st Ho Hwf Hs Hid Hst) as (st'&E&K&Hp&Hr).
    rewrite exec_bind, E. eexists _, st'. split; [reflexivity|]. by split.
Qed.

Lemma plan_all_run host reason m report l st :
  outage st = false → MetaOps.wf (db st) → NoDup l.*1.*1 → Forall (listed_row st) l →
  ∃ report' st', run (plan_all pod host reason m report l) st = (Some report', st') ∧
    keeps (fun s => s ∈ l.*1.*1) st st' ∧ Forall (fun a => carried st' a.1.1 a.2) l.
Proof.
  revert report st. induction l as [|a l IH]; intros report st Ho Hwf Hnd Hl; cbn [plan_all].
  { exists report, st. split; [done|]. split; [reflexivity|constructor]. }
  apply Forall_cons in Hl as [Ha Hl]. cbn in Hnd. apply NoDup_cons in Hnd as [Hni Hnd].
  destruct (plan_one_run host reason m report a st Ho Hwf Ha) as (rep1&st1&E1&K1&C1).
  destruct (IH rep1 st1) as (rep2&st2&E2&K2&C2).
  { by rewrite (k_on _ _ _ K1). } { by apply (k_wf _ _ _ K1). } { done. }
  { apply Forall_forall. intros b Hb. apply (Forall_forall _ _) with (x := b) in Hl as (r&Hs&Hid&Hst); [|done].
    destruct (keeps_row _ _ _ _ _ K1 Hs) as (r'&Hs'&R). exists r'.
    split; [done|]. rewrite (rk_id _ _ _ R). split; [done|].
    destruct (rk_status _ _ _ R) as [[H _]|(Hd&_)]; [congruence|]. exfalso. apply Hni.
    rewrite Hd. apply list_elem_of_fmap_2, list_elem_of_fmap_2. done. }
  exists rep2, st2. rewrite exec_bind, E1. split; [done|]. split.
  - etrans; [eapply keeps_mono, K1|eapply keeps_mono, K2]; cbn.
    + intros s <-. apply list_elem_of_here.
    + intros s Hin. by apply list_elem_of_further.
  - constructor; [by eapply carried_later|done].
Qed.

(** *** Hosts *)

Definition keyed (st : Store) : Prop :=
  ∀ s r, sessions (db st) !! s = Some r → Session.id (SessRow.session r) = s.

Lemma keyed_later P st st' : keeps P st st' → keyed st → keyed st'.
Proof.
  intros K Hk s r' Hs'. pose proof (k_sess _ _ _ K s) as H. rewrite Hs' in H.
  inversion H as [r r0 R E1 E2|]; subst. rewrite (rk_id _ _ _ R). by apply Hk.
Qed.

Definition on_host (st : Store) (h : HostId) (s : SessionId) : Prop :=
  ∃ r, sessions (db st) !! s = Some r ∧ SessRow.host_id r = Some h.

Definition resident (h : HostId) (r : SessRow.t) : option (SessionId * SandboxId * SessionState) :=
  if bool_decide (SessRow.host_id r = Some h) && reserves_host_memory (SessRow.status r)
  then (fun sb => (Session.id (SessRow.session r), sb, SessRow.status r)) <$> SessRow.sandbox_id r
  else None.

Lemma resident_Some h r a :
  resident h r = Some a ↔ SessRow.host_id r = Some h ∧ reserves_host_memory (SessRow.status r) = true ∧
    a.1.1 = Session.id (SessRow.session r) ∧ SessRow.sandbox_id r = Some a.1.2 ∧ a.2 = SessRow.status r.
Proof.
  unfold resident. destruct a as [[s sb] status]. cbn.
  case_bool_decide; cbn; [|naive_solver]. destruct (reserves_host_memory _); [|naive_solver].
  destruct (SessRow.sandbox_id r); cbn; naive_solver.
Qed.

Lemma omap_ids h (l : list (SessionId * SessRow.t)) :
  NoDup l.*1 → (∀ p, p ∈ l → Session.id (SessRow.session p.2) = p.1) →
  NoDup (omap (fun p => resident h p.2) l).*1.*1 ∧
  ∀ s, s ∈ (omap (fun p => resident h p.2) l).*1.*1 → s ∈ l.*1.
Proof.
  induction l as [|[s r] l IH]; intros Hnd Hid; cbn; [by split; [constructor|]|].
  apply NoDup_cons in Hnd as [Hni Hnd]. destruct IH as [IHn IHs]; [done|intros p Hp; apply Hid; by right|].
  destruct (resident h r) as [a|] eqn:E; cbn.
  - apply resident_Some in E as (_&_&Ea&_). pose proof (Hid (s, r) (list_elem_of_here _ _)) as Hr.
    cbn in Hr. rewrite Ea, Hr.
    split; [constructor; [|done]; intros Hs; by apply Hni, IHs|].
    intros s' [->|H]%elem_of_cons; [by left|right; by apply IHs].
  - split; [done|]. intros s' H. right. by apply IHs.
Qed.

Lemma omap_values h st :
  omap (resident h) (values (sessions (db st))) = omap (fun p => resident h p.2) (btree (sessions (db st))).
Proof. unfold values. induction (btree _) as [|p l IH]; [done|]. cbn. rewrite IH. by destruct (resident h p.2). Qed.

Lemma resident_list h st :
  outage st = false → keyed st →
  ∃ l, MetaLost.list_resident_sandbox_assignments_on_host h st = (Ok l, st) ∧ NoDup l.*1.*1 ∧
    Forall (listed_row st) l ∧ (∀ s, s ∈ l.*1.*1 → on_host st h s) ∧
    ∀ s r a, sessions (db st) !! s = Some r → resident h r = Some a → a ∈ l.
Proof.
  intros Ho Hk. exists (omap (resident h) (values (sessions (db st)))). split.
  { unfold MetaLost.list_resident_sandbox_assignments_on_host. run_m. by rewrite Ho. }
  assert (Hin : ∀ a, a ∈ omap (resident h) (values (sessions (db st))) →
    ∃ r, sessions (db st) !! a.1.1 = Some r ∧ resident h r = Some a).
  { intros a (r&[s Hs]%elem_of_values&Ha)%list_elem_of_omap. exists r. split; [|done].
    apply resident_Some in Ha as (_&_&->&_). by rewrite (Hk s r Hs). }
  split_and!.
  - rewrite omap_values. apply omap_ids.
    + rewrite btree_perm. apply NoDup_fst_map_to_list.
    + intros [s r] Hp%elem_of_btree. by apply Hk.
  - apply Forall_forall. intros a (r&Hs&Ha)%Hin. apply resident_Some in Ha as (_&_&?&_&?). by exists r.
  - intros s (p&->&(a&->&Ha)%list_elem_of_fmap)%list_elem_of_fmap. apply Hin in Ha as (r&Hs&Ha).
    apply resident_Some in Ha as (?&_). by exists r.
  - intros s r a Hs Ha. apply list_elem_of_omap. exists r. split; [|done]. apply elem_of_values. by exists s.
Qed.

Lemma plan_host_run host reason m st :
  outage st = false → MetaOps.wf (db st) → keyed st →
  ∃ report st', run (plan_host_teleports_with_limit pod host reason m) st = (Some report, st') ∧
    keeps (on_host st host) st st' ∧
    ∀ s r a, sessions (db st) !! s = Some r → resident host r = Some a → carried st' s (SessRow.status r).
Proof.
  intros Ho Hwf Hk. destruct (resident_list host st Ho Hk) as (l&E&Hnd&Hl&Hon&Hall).
  destruct (plan_all_run host reason m (MkReport [] [] 0) l st Ho Hwf Hnd Hl) as (rep&st'&E'&K&C).
  exists rep, st'. unfold plan_host_teleports_with_limit. rewrite exec_bind, plan_ask. cbn [plan_meta].
  rewrite E. cbn [ran fst snd]. split; [exact E'|]. split; [by eapply keeps_mono, K|].
  intros s r a Hs Ha. pose proof (Hall _ _ _ Hs Ha) as Hin. apply resident_Some in Ha as (_&_&Ea&_&Ea').
  apply (Forall_forall _ _) with (x := a) in C; [|done]. by rewrite Ea, Ea', (Hk _ _ Hs) in C.
Qed.

Lemma grant_keeps P h at_ st :
  outage st = false → ∃ g st', MetaHost.grant_host_retirement h at_ st = (Ok g, st') ∧ keeps P st st'.
Proof.
  intros Ho. unfold MetaHost.grant_host_retirement, MetaHost.retirement_status. run_m. rewrite Ho. cbn beta iota.
  destruct (hosts (db st) !! h) as [hr|]; cbn; [|by eexists _, st].
  repeat (case_bool_decide; [by eexists _, st|]).
  destruct (match HostRecord.retired_at hr with Some _ => _ | None => _ end); [|by eexists _, st].
  eexists _, _. split; [reflexivity|]. split; try done; cbn; [by intros [? ?]|].
  intros s. destruct (sessions (db st) !! s); constructor. apply row_keeps_refl.
Qed.

(** The sessions of the hosts in [l] are carried on. *)
Lemma retire_all_run m (l : list HostRecord.t) st :
  outage st = false → MetaOps.wf (db st) → keyed st →
  ∃ st', run (try_all l (retire_step pod m)) st = (Some (Ok tt), st') ∧ keeps (fun _ => True) st st' ∧
    ∀ hr s r a, hr ∈ l → sessions (db st) !! s = Some r → resident (HostRecord.id hr) r = Some a →
      carried st' s (SessRow.status r).
Proof.
  revert st. induction l as [|hr l IH]; intros st Ho Hwf Hk; cbn [try_all].
  { exists st. split; [done|]. split; [reflexivity|]. intros hr s r a H. by apply not_elem_of_nil in H. }
  destruct (plan_host_run (HostRecord.id hr) RetireHost m st Ho Hwf Hk) as (rep&st1&E1&K1&C1).
  destruct (grant_keeps (on_host st (HostRecord.id hr)) (HostRecord.id hr) now st1) as (g&st2&E2&K2);
    [by rewrite (k_on _ _ _ K1)|].
  assert (K12 : keeps (on_host st (HostRecord.id hr)) st st2) by (by etrans).
  destruct (IH st2) as (st3&E3&K3&C3).
  { by rewrite (k_on _ _ _ K12). } { by apply (k_wf _ _ _ K12). } { by eapply keyed_later. }
  exists st3. rewrite exec_try. unfold retire_step. rewrite exec_bind, E1, exec_bind, exec_ask. cbn [plan_world].
  rewrite exec_try, plan_ask. cbn [plan_meta]. rewrite E2. cbn [ran fst snd]. split; [exact E3|].
  split; [etrans; [by eapply keeps_mono, K12|done]|].
  assert (Hhead : ∀ s r a, sessions (db st) !! s = Some r → resident (HostRecord.id hr) r = Some a →
    carried st3 s (SessRow.status r)).
  { intros s r a Hs Ha. eapply carried_later; [exact K3|]. eapply carried_later; [exact K2|]. by eapply C1. }
  intros hr' s r a [->|Hin]%elem_of_cons Hs Ha; [by eapply Hhead|].
  destruct (keeps_row _ _ _ _ _ K12 Hs) as (r2&Hs2&R2).
  destruct (rk_status _ _ _ R2) as [[Est _]|((r0&Hr0&Hh0)&_)].
  - rewrite <- Est. eapply (C3 hr' s r2 (a.1, SessRow.status r2)); [done..|].
    apply resident_Some in Ha as (?&Hres&?&?&?). apply resident_Some.
    rewrite (rk_host _ _ _ R2), (rk_id _ _ _ R2), (rk_sandbox _ _ _ R2), Est. by split_and!.
  - rewrite Hs in Hr0. injection Hr0 as <-. eapply (Hhead s r (a.1, SessRow.status r)); [done|].
    apply resident_Some in Ha as (?&Hres&?&?&?). apply resident_Some. by split_and!.
Qed.

(** *** Moves without an op *)

Lemma pending_exists s k st :
  outage st = false → ∃ b, MetaOps.op_pending_exists s k st = (Ok b, st) ∧ (b = true → pending (db st) s k).
Proof.
  intros Ho. unfold MetaOps.op_pending_exists. run_m. rewrite Ho. eexists. split; [reflexivity|].
  intros (i&o&Hi&Hb)%existsb_values. bool_prop. by exists i, o.
Qed.

Lemma resume_all_run m (l : list TeleportRow.t) st :
  outage st = false → MetaOps.wf (db st) →
  (∀ r, r ∈ l → is_Some (sessions (db st) !! TeleportRow.session_id r)) →
  ∃ st', run (try_all l (resume_step pod m)) st = (Some (Ok tt), st') ∧ keeps (fun _ => False) st st' ∧
    ∀ r, r ∈ l → pending (db st') (TeleportRow.session_id r) Teleport.
Proof.
  revert st. induction l as [|r l IH]; intros st Ho Hwf Hs; cbn [try_all].
  { exists st. split; [done|]. split; [reflexivity|]. intros r H. by apply not_elem_of_nil in H. }
  assert (H1 : ∃ st1, run (resume_step pod m r) st = (Some (Ok tt), st1) ∧ keeps (fun _ => False) st st1 ∧
    pending (db st1) (TeleportRow.session_id r) Teleport).
  { unfold resume_step. rewrite exec_try, plan_ask. cbn [plan_meta].
    destruct (pending_exists (TeleportRow.session_id r) Teleport st Ho) as (b&->&Hb). cbn [ran fst snd].
    destruct b; [exists st; split; [done|]; split; [reflexivity|by apply Hb]|].
    apply deferred_run; [done..|]. apply Hs, list_elem_of_here. }
  destruct H1 as (st1&E1&K1&P1). destruct (IH st1) as (st2&E2&K2&P2).
  { by rewrite (k_on _ _ _ K1). } { by apply (k_wf _ _ _ K1). }
  { intros r' Hr'. destruct (Hs r') as [x Hx]; [by apply list_elem_of_further|].
    destruct (keeps_row _ _ _ _ _ K1 Hx) as (x'&Hx'&_). by exists x'. }
  exists st2. rewrite exec_try, E1. split; [done|]. split; [by etrans|].
  intros r' [->|Hr']%elem_of_cons; [by apply (k_pending _ _ _ K2)|by apply P2].
Qed.

(** C35. A scan of the planner leaves nothing behind.  On a store that answers and
    whose open moves belong to existing sessions, after it every open move has an
    op that drives it; every active session bound on a host that is to retire has
    an op that moves it; and every parked one there is on its way down, evicting
    with the op that evicts it. *)
Theorem planner_covers m st :
  minv (db st) → outage st = false →
  (∀ t r, teleports (db st) !! t = Some r → TeleportRow.is_open r = true →
          is_Some (sessions (db st) !! TeleportRow.session_id r)) →
  ∃ st', run (plan_once pod m) st = (Some (Ok tt), st') ∧
    (∀ t r, teleports (db st) !! t = Some r → TeleportRow.is_open r = true →
            pending (db st') (TeleportRow.session_id r) Teleport) ∧
    (∀ h hr s r, hosts (db st) !! h = Some hr → is_Some (HostRecord.retire_requested_at hr) →
       HostStatus.live (HostRecord.status hr) = true → sessions (db st) !! s = Some r →
       SessRow.host_id r = Some h → is_Some (SessRow.sandbox_id r) → carried st' s (SessRow.status r)).
Proof.
  intros Hm Ho Hopen. unfold plan_once. rewrite exec_try, plan_ask. cbn [plan_meta].
  set (hs := List.filter (fun h => bool_decide (is_Some (HostRecord.retire_requested_at h))
    && HostStatus.live (HostRecord.status h)) (values (hosts (db st)))).
  assert (Eh : MetaHost.list_retiring_hosts st = (Ok hs, st)).
  { unfold MetaHost.list_retiring_hosts. run_m. by rewrite Ho. }
  rewrite Eh. cbn [ran fst snd].
  destruct (retire_all_run m hs st Ho (mi_ops_wf _ Hm) (mi_sess_keyed _ Hm)) as (st1&E1&K1&C1).
  set (rows := merge_sort MetaTeleport.created_le (List.filter TeleportRow.is_open (values (teleports (db st))))).
  assert (Er : MetaTeleport.list_open_teleports st1 = (Ok rows, st1)).
  { unfold MetaTeleport.list_open_teleports. run_m. rewrite (k_on _ _ _ K1), Ho, (k_tele _ _ _ K1). done. }
  assert (Hin : ∀ r, r ∈ rows ↔ TeleportRow.is_open r = true ∧ ∃ t, teleports (db st) !! t = Some r).
  { intros r. unfold rows. rewrite merge_sort_Permutation, elem_of_filterb, elem_of_values. naive_solver. }
  destruct (resume_all_run m rows st1) as (st2&E2&K2&P2).
  { by rewrite (k_on _ _ _ K1). } { apply (k_wf _ _ _ K1), Hm. }
  { intros r [Hr [t Ht]]%Hin. destruct (Hopen t r Ht Hr) as [x Hx].
    destruct (keeps_row _ _ _ _ _ K1 Hx) as (x'&Hx'&_). by exists x'. }
  exists st2. rewrite exec_try, E1, exec_try, plan_ask. cbn [plan_meta]. rewrite Er. cbn [ran fst snd].
  split; [exact E2|]. split; [intros t r Ht Hr; apply P2, Hin; eauto|].
  intros h hr s r Hh Hreq Hlive Hs Hon [sb Hsb]. eapply carried_later; [exact K2|].
  destruct (decide (SessRow.status r = Active ∨ SessRow.status r = Parked)) as [Hst|Hst].
  - eapply (C1 hr s r (s, sb, SessRow.status r)); [|done|].
    + unfold hs. apply elem_of_filterb. rewrite bool_decide_eq_true_2 by done. split; [|done].
      apply elem_of_values. by exists h.
    + apply resident_Some. rewrite (mi_hosts_keyed _ Hm _ _ Hh), (mi_sess_keyed _ Hm _ _ Hs). cbn.
      split_and!; try done. by destruct Hst as [-> | ->].
  - by destruct (SessRow.status r); try tauto.
Qed.

(** *** The reclaim sweep *)

Lemma reclaim_fold_pending by_ ids out d s k :
  pending d s k → pending (fold_left (MetaOps.reclaim_one by_ now) ids (out, d)).2 s k.
Proof.
  revert out d. induction ids as [|i ids IH]; intros out d Hp; cbn [fold_left]; [done|].
  unfold MetaOps.reclaim_one at 2. destruct (session_ops d !! i) as [o|] eqn:Ei; [|by apply IH].
  destruct (sessions d !! OpRow.session_id o) as [sess|]; [|by apply IH]. cbv zeta. apply IH.
  eapply pending_insert; [reflexivity|exact Ei|done..|]. exact Hp.
Qed.

Lemma reclaim_keeps P stale by_ st :
  outage st = false →
  ∃ ops st', MetaOps.op_reclaim_stale stale by_ now st = (Ok ops, st') ∧ keeps P st st'.
Proof.
  intros Ho. destruct (MetaOps.op_reclaim_stale stale by_ now st) as [res st'] eqn:E.
  assert (Hk : outage st' = outage st → (∀ s k, pending (db st) s k → pending (db st') s k) → keeps P st st').
  { intros H1 H2. pose proof (op_keeps P (OpReclaim stale by_ now) st eq_refl I) as H.
    cbn in H. rewrite E in H. by apply H. }
  revert E. unfold MetaOps.op_reclaim_stale. run_m. rewrite Ho. cbn beta iota zeta.
  match goal with |- context [fold_left ?f ?ids ([], ?d)] =>
    pose proof (reclaim_fold_pending by_ ids [] d) as Hp end.
  destruct (fold_left _ _ _) as [out d']. intros [= <- <-]. eexists _, _. split; [done|]. by apply Hk.
Qed.

Lemma spawn_all_run (ops : list SessionOp.t) st :
  run (for_all ops (fun op => ask (SpawnTask (DriveClaimed op)))) st = (Some tt, st).
Proof. induction ops as [|op ops IH]; cbn [for_all]; [done|]. by rewrite exec_bind, exec_ask. Qed.

Lemma revive_all_run ids st :
  outage st = false → MetaOps.wf (db st) → (∀ s, s ∈ ids → is_Some (sessions (db st) !! s)) →
  ∃ st', run (for_all ids (revive_orphan pod)) st = (Some tt, st') ∧ keeps (fun _ => False) st st' ∧
    ∀ s, s ∈ ids → pending (db st') s CreateBoot.
Proof.
  revert st. induction ids as [|s ids IH]; intros st Ho Hwf Hs; cbn [for_all].
  { exists st. split; [done|]. split; [reflexivity|]. intros s H. by apply not_elem_of_nil in H. }
  destruct (enqueue_run (fun _ => False) s CreateBoot (JObj [("recovered"%string, JBool true)])
    (Some ("boot-recover:" +:+ uuid_str s)%string) st) as (out&st1&E1&K1&P1); [done|done|apply Hs, list_elem_of_here|].
  destruct (IH st1) as (st2&E2&K2&P2).
  { by rewrite (k_on _ _ _ K1). } { by apply (k_wf _ _ _ K1). }
  { intros s' Hs'. destruct (Hs s') as [x Hx]; [by apply list_elem_of_further|].
    destruct (keeps_row _ _ _ _ _ K1 Hx) as (x'&Hx'&_). by exists x'. }
  exists st2. rewrite exec_bind. unfold revive_orphan at 1. rewrite exec_bind, E1, exec_ret.
  split; [exact E2|]. split; [by etrans|].
  intros s' [->|H]%elem_of_cons; [by apply (k_pending _ _ _ K2)|by apply P2].
Qed.

(** A turn of the reclaim sweep on a store that answers leaves no session
    behind that was placed and lost its boot: every session that rested in
    [Pending] for more than two minutes has a boot op afterwards. *)
Theorem orphans_recovered st :
  minv (db st) → outage st = false →
  ∃ st', run (reclaim_sweep pod) st = (Some tt, st') ∧
    ∀ s r, sessions (db st) !! s = Some r → SessRow.status r = Pending →
      (Session.last_active_at (SessRow.session r) < now - PENDING_ORPHAN_GRACE)%Z →
      pending (db st') s CreateBoot.
Proof.
  intros Hm Ho. destruct (reclaim_keeps (fun _ => False) RECLAIM_STALE pod st Ho) as (ops&st1&E1&K1).
  unfold reclaim_sweep. rewrite exec_bind, plan_ask. cbn [plan_meta]. rewrite E1. cbn [ran fst snd].
  rewrite exec_bind, spawn_all_run, exec_bind, plan_ask. cbn [plan_meta].
  destruct (MetaOps.orphaned_pending_sessions PENDING_ORPHAN_GRACE now st1) as [res st1'] eqn:Eo.
  revert Eo. unfold MetaOps.orphaned_pending_sessions. run_m. rewrite (k_on _ _ _ K1), Ho.
  set (ids := _ <$> _). intros [= <- <-]. cbn [ran fst snd].
  assert (Hk1 : keyed st1) by (exact (keyed_later _ _ _ K1 (mi_sess_keyed _ Hm))).
  destruct (revive_all_run ids st1) as (st2&E2&K2&P2).
  { by rewrite (k_on _ _ _ K1). } { apply (k_wf _ _ _ K1), Hm. }
  { intros s (r&->&Hr)%list_elem_of_fmap. apply elem_of_filterb in Hr as [[s Hs]%elem_of_values _].
    rewrite (Hk1 s r Hs). by exists r. }
  exists st2. split; [exact E2|]. intros s r Hs Hst Hold.
  destruct (keeps_row _ _ _ _ _ K1 Hs) as (r1&Hs1&R1).
  destruct (rk_status _ _ _ R1) as [[Est Eact]|([]&_)].
  destruct (existsb (fun o => bool_decide (OpRow.session_id o = Session.id (SessRow.session r1))
      && bool_decide (OpRow.kind o = CreateBoot) && OpState.active (OpRow.state o))
      (values (session_ops (db st1)))) eqn:Eb.
  - apply existsb_values in Eb as (i&o&Hi&Hb). rewrite (Hk1 _ _ Hs1) in Hb. bool_prop.
    apply (k_pending _ _ _ K2). by exists i, o.
  - apply P2. apply list_elem_of_fmap. exists r1. rewrite (Hk1 _ _ Hs1). split; [done|].
    apply elem_of_filterb. split; [apply elem_of_values; by exists s|].
    rewrite Est, Eact, Hst, Eb, !bool_decide_eq_true_2; [done| |done].
    unfold from_std_or_zero. by rewrite decide_True.
Qed.

End planner.

(** ** Admission by request, whatever is answered *)

(** A claimed op carries its epoch. *)
Definition claims_carry (h : list (event creq)) (X : Type) (q : creq X) (x : X) : Prop :=
  match q in creq X return X → Prop with
  | Meta m =>
      match m in mreq A return result A MetaError → Prop with
      | MEnqueue _ _ _ _ _ => fun x => ∀ op, x = Ok (Claimed op) → is_Some (SessionOp.epoch op)
      | MEnqueueExclusive _ _ _ _ => fun x => ∀ op, x = Ok (Some op) → is_Some (SessionOp.epoch op)
      | _ => fun _ => True
      end
  | _ => fun _ => True
  end x.

(** The inline claim an event took. *)
Definition claim_of (e : event creq) : option SessionOp.t :=
  match e with
  | Ev q x =>
      match q in creq X return X → option SessionOp.t with
      | Meta m =>
          match m in mreq A return result A MetaError → option SessionOp.t with
          | MEnqueueExclusive _ _ _ _ => fun x => match x with Ok o => o | Err _ => None end
          | _ => fun _ => None
          end
      | _ => fun _ => None
      end x
  end.

(** The code's last use of the claim: it asks the store to finish the op, or
    leaves that to a detached task. *)
Inductive ends_claim (op : SessionOp.t) : event creq → Prop :=
| ends_finished e final err x :
    SessionOp.epoch op = Some e → ends_claim op (Ev (Meta (MOpFinish (SessionOp.id op) e final err)) x)
| ends_dropped e x : SessionOp.epoch op = Some e → ends_claim op (Ev (SpawnTask (DropClaim op e)) x).

(** An admission takes a move up only under a claim it still holds, finishes no
    other op, calls no host and never panics. *)
Definition admission_allowed (s : SessionId) (h : list (event creq)) (X : Type) (q : creq X) : Prop :=
  let held op := (∃ e, e ∈ h ∧ claim_of e = Some op) ∧ Forall (fun e => ¬ ends_claim op e) h in
  match q with
  | Meta m =>
      match m with
      | MTeleportAdmit req =>
          ∃ op, held op ∧ SessionOp.epoch op = Some (TeleportAdmitRequest.epoch req)
      | MEnqueue s' k _ _ _ => s' = s ∧ k = Teleport ∧ ∃ op, held op
      | MOpFinish i e _ _ => ∃ op, held op ∧ SessionOp.id op = i ∧ SessionOp.epoch op = Some e
      | MEnqueueExclusive s' k _ _ => s' = s ∧ k = Teleport ∧ Forall (fun e => claim_of e = None) h
      | MGetSession _ | MGetHost _ | MListActiveHosts | MFcVersion _ | MOpRequeue _ _ _ _ => True
      | _ => False
      end
  | Host _ _ | Panic _ => False
  | _ => True
  end.

Section admission.
Context (pod : string) (caps_of : json → HostCapabilities.t) (sha256_of : json → string)
  (floor : option Z) (ttl : Duration) (s : SessionId).

Notation wpa h p Q := (wp claims_carry (admission_allowed s) h p Q).

(** Requests of the admission itself. *)
Definition admits (ctx : OpCtx) (X : Type) (q : creq X) : Prop :=
  match q with
  | Meta m =>
      match m with
      | MTeleportAdmit req => TeleportAdmitRequest.epoch req = ctx_epoch ctx
      | MGetSession _ | MGetHost _ | MListActiveHosts | MFcVersion _ => True
      | _ => False
      end
  | Now | FreshUuid | ResumeBudget _ => True
  | _ => False
  end.

Lemma admit_requests ctx target :
  all_req (admits ctx) (admit_step caps_of sha256_of floor ttl ctx target Ui).
Proof.
  unfold admit_step, admit_kind, admit_candidates, candidates_for, meta, api_fail. requests; done.
Qed.

(** The claim [op] is held in [h] and nothing else was claimed. *)
Record holding (op : SessionOp.t) (h : list (event creq)) : Prop := {
  ho_claim : ∃ e, e ∈ h ∧ claim_of e = Some op;
  ho_only : Forall (fun e => ∀ op', claim_of e = Some op' → op' = op) h;
  ho_open : Forall (fun e => ¬ ends_claim op e) h;
}.

Lemma holding_app op h t :
  holding op h → Forall (fun e => claim_of e = None ∧ ¬ ends_claim op e) t → holding op (h ++ t).
Proof.
  intros [(e&He&Hc) Ho Hn] Ht. apply Forall_and in Ht as [Ht1 Ht2]. split.
  - exists e. split; [apply elem_of_app; by left|done].
  - apply Forall_app. split; [done|]. eapply Forall_impl; [exact Ht1|]. intros e' He'. cbn. congruence.
  - by apply Forall_app.
Qed.

Lemma admits_quiet ctx op e : admits ctx _ (ev_req e) → claim_of e = None ∧ ¬ ends_claim op e.
Proof.
  destruct e as [X q x]. cbn. destruct q as [A m| | | | | | | | | | | | | | | | | | | | | | | | | | | |]; try done.
  - destruct m; try done; intros _; (split; [done|]); inversion 1.
  - intros _. split; [done|]. inversion 1.
  - intros _. split; [done|]. inversion 1.
  - intros _. split; [done|]. inversion 1.
Qed.

Lemma holding_wp {A} op ctx h (p : prog creq A) :
  SessionOp.epoch op = Some (ctx_epoch ctx) → all_req (admits ctx) p → holding op h →
  wpa h p (fun h' _ => holding op h').
Proof.
  intros He. revert h. induction p as [a|X q k IH]; intros h; [done|]. intros [Hq Hk] Hh. split.
  - destruct Hh as [Hc _ Ho].
    destruct q as [B m| | | | | | | | | | | | | | | | | | | | | | | | | | | |]; try done.
    destruct m; try done. cbn in *. exists op. by rewrite Hq.
  - intros x _. apply IH; [done|]. apply holding_app; [done|]. constructor; [|constructor].
    by eapply admits_quiet.
Qed.

(** The requests of one reading and the results of another. *)
Lemma wp_both {A} ans can h (p : prog creq A) Q Q' :
  wp ans can h p Q → wp ans (fun _ _ _ => True) h p Q' → wp ans can h p (fun h' a => Q h' a ∧ Q' h' a).
Proof.
  revert h. induction p as [a|X q k IH]; intros h; [done|]. intros [Hc Hk] [_ Hk'].
  split; [done|]. intros x Hx. apply IH; auto.
Qed.

Lemma admitted_wp ctx target h :
  wp claims_carry (fun _ _ _ => True) h (admit_step caps_of sha256_of floor ttl ctx target Ui)
    (fun h' r => ∀ row, r = Ok (Admitted_ row) →
       ∃ req, Ev (Meta (MTeleportAdmit req)) (Ok (Admitted_ row)) ∈ h').
Proof.
  assert (Hany : ∀ A h (p : prog creq A) (Q : list (event creq) → A → Prop),
    (∀ h' a, Q h' a) → wp claims_carry (fun _ _ _ => True) h p Q).
  { intros A h0 p Q HQ. revert h0. induction p; intros h0; [apply HQ|]. split; auto. }
  unfold admit_step, meta, api_fail. apply wp_try, Hany. intros h1 [session|]; [|done].
  destruct (negb _); [by apply wp_ret|]. apply wp_bind, Hany. intros h2 [[mem cpu]|]; [|by apply wp_ret].
  apply wp_try, Hany. intros h3 [fc|]; [|done]. apply wp_try, Hany. intros h4 [[[kind cands]|]|]; [|by apply wp_ret|done].
  apply wp_bind, Hany. intros h5 id. apply wp_ask_err; [done|]. intros x _ row.
  destruct x as [a|]; [|done]. intros [= ->]. eexists. apply elem_of_app. right. by apply list_elem_of_singleton.
Qed.

(** The store was asked to finish the claim's op as done, under its epoch. *)
Definition finish_asked (op : SessionOp.t) (h : list (event creq)) : Prop :=
  ∃ e x, SessionOp.epoch op = Some e ∧ Ev (Meta (MOpFinish (SessionOp.id op) e OpState.Done None)) x ∈ h.

(** The claim was dropped: a task was spawned for it. *)
Definition left_to_task (op : SessionOp.t) (h : list (event creq)) : Prop :=
  ∃ e x, SessionOp.epoch op = Some e ∧ Ev (SpawnTask (DropClaim op e)) x ∈ h.

(** The store failed to queue the move's op, or to put it back after a claim. *)
Definition queue_failed (h : list (event creq)) : Prop :=
  (∃ payload key e, Ev (Meta (MEnqueue s Teleport payload key pod)) (Err e) ∈ h) ∨
  (∃ i e' delay text e, Ev (Meta (MOpRequeue i e' delay text)) (Err e) ∈ h).

(** What an admission that returned [res] did with its claim. *)
Definition claim_settled (h : list (event creq)) (res : result TeleportRow.t ApiError.t) (op : SessionOp.t) : Prop :=
  finish_asked op h ∨ (left_to_task op h ∧ queue_failed h ∧ is_ok res = false).

(** What the admission returns, and what it did with its claim before. *)
Definition settled (h : list (event creq)) (res : result TeleportRow.t ApiError.t) : Prop :=
  (∀ e op, e ∈ h → claim_of e = Some op → claim_settled h res op) ∧
  match res with
  | Ok row =>
      (∃ req, Ev (Meta (MTeleportAdmit req)) (Ok (Admitted_ row)) ∈ h) ∧
      (∃ key out, Ev (Meta (MEnqueue s Teleport (JObj [("teleport_id"%string, json_id (TeleportRow.id row))]) key pod))
                    (Ok out) ∈ h)
  | Err _ => True
  end.

Lemma queue_failed_app h t : queue_failed h → queue_failed (h ++ t).
Proof.
  intros [(p&k&e&H)|(i&e'&n&m&e&H)]; [left; exists p, k, e|right; exists i, e', n, m, e]; apply elem_of_app; by left.
Qed.

Lemma holding_ends op h t res :
  holding op h → Forall (fun e => claim_of e = None) t → claim_settled (h ++ t) res op →
  ∀ e op', e ∈ h ++ t → claim_of e = Some op' → claim_settled (h ++ t) res op'.
Proof.
  intros [_ Ho _] Ht He e op' [Hin|Hin]%elem_of_app Hc.
  - apply (Forall_forall _ _) with (x := e) in Ho; [|done]. by rewrite (Ho _ Hc).
  - apply (Forall_forall _ _) with (x := e) in Ht; [|done]. congruence.
Qed.

(** The end of a claim that is held. *)
Lemma finish_wp op e h (Q : list (event creq) → unit → Prop) :
  SessionOp.epoch op = Some e → holding op h →
  (∀ x1 x2 x3, Q (h ++ [Ev (Meta (MOpFinish (SessionOp.id op) e OpState.Done None)) x1;
                        Ev (PublishOpFinished (SessionOp.id op)) x2;
                        Ev (SpawnTask (DriveSession (SessionOp.session_id op))) x3]) tt) →
  wpa h (claim_finish (MkOpCtx op e) OpState.Done None) Q.
Proof.
  intros He [Hc _ Ho] HQ. unfold claim_finish. apply wp_bind, wp_ask; [by exists op|]. intros x1 _.
  apply wp_bind, wp_ask; [done|]. intros x2 _. apply wp_ask; [done|]. intros [] _.
  specialize (HQ x1 x2 tt). by rewrite <- !app_assoc.
Qed.

Lemma deferred_wp op h payload key :
  holding op h →
  wpa h (enqueue_deferred pod s Teleport payload key)
    (fun h' r => holding op h' ∧
       (is_ok r = true → ∃ out, Ev (Meta (MEnqueue s Teleport payload key pod)) (Ok out) ∈ h') ∧
       (is_ok r = false → queue_failed h')).
Proof.
  intros Hh. pose proof Hh as [Hc _ Ho]. unfold enqueue_deferred, enqueue_claim.
  assert (Hh' : ∀ x, holding op (h ++ [Ev (Meta (MEnqueue s Teleport payload key pod)) x])).
  { intros x. apply holding_app; [done|]. constructor; [|constructor]. split; [done|]. inversion 1. }
  apply wp_try, wp_ask; [by split_and!; [..|exists op]|]. intros [out|e] Hx.
  2: { split_and!; [done..|]. intros _. left. eexists _, _, _. apply elem_of_app. right. by apply list_elem_of_singleton. }
  assert (Hin : ∃ out', Ev (Meta (MEnqueue s Teleport payload key pod)) (Ok out') ∈
                        h ++ [Ev (Meta (MEnqueue s Teleport payload key pod)) (Ok out)]).
  { exists out. apply elem_of_app. right. by apply list_elem_of_singleton. }
  destruct out as [op'|op'|]; [|by apply wp_ret..].
  destruct (Hx op' eq_refl) as [e ->]. cbn [expect]. apply wp_bind, wp_ret, wp_try, wp_ask; [done|].
  intros x _. assert (Hh2 : holding op ((h ++ [Ev (Meta (MEnqueue s Teleport payload key pod)) (Ok (Claimed op'))])
    ++ [Ev (Meta (MOpRequeue (SessionOp.id op') e 0%Z "teleport scheduled")) x])).
  { apply holding_app; [done|]. constructor; [|constructor]. split; [done|]. inversion 1. }
  destruct x as [b|]; [apply wp_ret|]; split_and!; try done; intros _.
  - destruct Hin as [out Hin]. exists out. apply elem_of_app. by left.
  - right. eexists _, _, _, _, _. apply elem_of_app. right. by apply list_elem_of_singleton.
Qed.

Lemma refusal_wp h (o : result TeleportAdmitOutcome ApiError.t) Q :
  (∀ row, o ≠ Ok (Admitted_ row)) → (∀ e, Q h (Err e)) → wpa h (refusal o) Q.
Proof. intros Hn HQ. destruct o as [[row| | |]|e]; [by destruct (Hn row)|apply wp_ret, HQ..]. Qed.

Lemma admission_wp target :
  wpa [] (admit_for_rpc pod caps_of sha256_of floor ttl s target) settled.
Proof.
  unfold admit_for_rpc, meta. apply wp_try, wp_ask_err; [done|]. intros x1 _. cbn [app].
  set (h1 := [Ev _ x1]).
  assert (Hnone : ∀ res, settled h1 (Err res)).
  { intros res. split; [|done]. intros e op [->|H%not_elem_of_nil]%elem_of_cons; done. }
  destruct x1 as [session|e1]; [|apply Hnone].
  apply wp_try. unfold api, try_acquire. apply wp_bind, wp_try, wp_ask.
  { split_and!; [done|done|]. by constructor. }
  intros x2 Hx2. set (h2 := h1 ++ _).
  assert (Hnone2 : ∀ res, (∀ op, x2 ≠ Ok (Some op)) → settled h2 (Err res)).
  { intros res Hx. split; [|done]. intros e op [Hin|Hin]%elem_of_app Hc; [by apply list_elem_of_singleton in Hin as ->|].
    apply list_elem_of_singleton in Hin as ->. cbn in Hc. destruct x2 as [[op'|]|]; [|done..].
    by destruct (Hx op'). }
  destruct x2 as [[op|]|e2]; [|apply wp_ret, wp_ret; by apply Hnone2|apply wp_ret; by apply Hnone2].
  destruct (Hx2 op eq_refl) as [e He]. rewrite He. cbn [expect]. apply wp_bind, wp_ret, wp_ret, wp_ret.
  assert (Hh : holding op h2).
  { split.
    - eexists. split; [apply elem_of_app; right; by apply list_elem_of_singleton|done].
    - apply Forall_app. split; (constructor; [|constructor]); [done|]. cbn. congruence.
    - apply Forall_app. split; (constructor; [|constructor]); inversion 1. }
  apply wp_bind. eapply wp_mono; [|apply wp_both; [apply (holding_wp op (MkOpCtx op e));
    [done|apply admit_requests|done]|apply admitted_wp]]. cbv beta. intros h3 admitted [Hh3 Hadm].
  assert (Hfin : ∀ h res x1 x2 x3, holding op h → let h' := h ++
    [Ev (Meta (MOpFinish (SessionOp.id op) e OpState.Done None)) x1; Ev (PublishOpFinished (SessionOp.id op)) x2;
     Ev (SpawnTask (DriveSession (SessionOp.session_id op))) x3] in
    ∀ ev op', ev ∈ h' → claim_of ev = Some op' → claim_settled h' res op').
  { intros h res y1 y2 y3 Hhh. apply holding_ends with op; [done|by repeat constructor|]. left.
    exists e, y1. split; [done|]. apply elem_of_app. right. apply list_elem_of_here. }
  assert (Href : (∀ row, admitted ≠ Ok (Admitted_ row)) →
    wpa h3 (_ ← claim_finish (MkOpCtx op e) OpState.Done None; refusal admitted) settled).
  { intros Hn. apply wp_bind, (finish_wp op e); [done..|]. intros y1 y2 y3. apply refusal_wp; [done|].
    intros e'. split; [|done]. by apply Hfin. }
  destruct admitted as [[row| | |]|e3]; [|by apply Href..]. clear Href.
  destruct (Hadm row eq_refl) as [req Hreq]. apply wp_bind.
  eapply wp_mono; [|apply wp_grows, (deferred_wp op); done]. cbv beta.
  intros h4 [b|e4] [[t Ht] (Hh4&Hq&Hf)].
  - apply wp_bind, (finish_wp op e); [done..|]. intros y1 y2 y3. apply wp_ret. split.
    + by apply Hfin.
    + destruct (Hq eq_refl) as [out Hout]. split; [exists req|eexists _, out]; apply elem_of_app; left; [|exact Hout].
      rewrite Ht. apply elem_of_app. by left.
  - apply wp_bind, wp_ask; [done|]. intros y _. apply wp_ret. split; [|done].
    apply holding_ends with op; [done|by repeat constructor|]. right. split_and!; [|by apply queue_failed_app, Hf|done].
    exists e, y. split; [done|]. apply elem_of_app. right. by apply list_elem_of_singleton.
Qed.

End admission.

(** The op of a claim after the store answered a request to finish it: it no
    longer runs under the claim's epoch. *)
Lemma finish_ends_claim i e final err now st b st' o :
  final ≠ OpState.Running → MetaOps.op_finish i e final err now st = (Ok b, st') →
  session_ops (db st') !! i = Some o → ¬ (OpRow.state o = OpState.Running ∧ OpRow.epoch o = Some e).
Proof.
  intros Hf. unfold MetaOps.op_finish, MetaOps.fenced_write, MetaOps.fenced_row. run_m.
  destruct (outage st); [done|]. destruct (session_ops (db st) !! i) as [r|] eqn:Er; cbn.
  - destruct (_ && _) eqn:Eb; cbn.
    + intros [= <- <-]. cbn. rewrite lookup_insert_eq. intros [= <-]. cbn. by intros [? _].
    + intros [= <- <-] Ho [Hs He]. rewrite Er in Ho. injection Ho as ->.
      rewrite Hs, He, !bool_decide_eq_true_2 in Eb; done.
  - intros [= <- <-]. congruence.
Qed.

(** C36. Whatever the store answers, an admission by request takes the move up only
    under a claim of the session's lane that it took and has not ended; a row it
    returns was admitted and its op was queued before that end; it calls no host
    and does not panic. Before it returns it has asked the store to finish the
    claim's op, under the claim's epoch, except in one case: when the store
    failed to queue the move's op, the request fails and the claim is left to a
    detached task, whose first request is that finish, as failed. The answer of a
    finish is not looked at; on any store that does answer it, the op does not
    run under the claim's epoch afterwards. *)
Theorem admission_settles pod caps_of sha256_of floor ttl s target h o :
  runs claims_carry [] (admit_for_rpc pod caps_of sha256_of floor ttl s target) h o →
  (∀ h1 e h2, h = h1 ++ e :: h2 → admission_allowed s h1 _ (ev_req e)) ∧
  match o with Some res => settled pod s h res | None => True end ∧
  (∀ ev op e, ev ∈ h → claim_of ev = Some op → SessionOp.epoch op = Some e →
     (∀ deadline turns, ∃ k, run_task pod deadline turns (DropClaim op e) =
        Do (Meta (MOpFinish (SessionOp.id op) e OpState.Failed
                    (Some "inline claim dropped without an explicit finish"%string))) k) ∧
     (∀ final err now st b st' row, final ≠ OpState.Running →
        MetaOps.op_finish (SessionOp.id op) e final err now st = (Ok b, st') →
        session_ops (db st') !! SessionOp.id op = Some row →
        ¬ (OpRow.state row = OpState.Running ∧ OpRow.epoch row = Some e))).
Proof.
  intros Hr. apply and_assoc. split.
  - eapply wp_adequate; [exact Hr|apply admission_wp|apply allowed_nil].
  - intros _ op e _ _ _. split; [intros; by eexists|]. intros. by eapply finish_ends_claim.
Qed.

(** ** On the fleet *)

(** The move of session 10 is open and its op is gone. *)
Definition demo_stranded : list call := demo_move ++ [OpFinish 1 1 OpState.Done None 10].

Lemma planner_covers_witness : ∃ st',
  exec (plan_world 20) (plan_once "b" 1) (demo demo_stranded) = (Some (Ok tt), st') ∧
  ¬ pending (db (demo demo_stranded)) 10 Teleport ∧ pending (db st') 10 Teleport.
Proof.
  assert (Hopen : map_Forall (fun _ r => is_Some (sessions (db (demo demo_stranded)) !! TeleportRow.session_id r))
                    (teleports (db (demo demo_stranded)))).
  { apply (bool_decide_unpack _). vm_compute. exact I. }
  destruct (planner_covers "b" 20 1 (demo demo_stranded)
    (run_inv None demo_stranded _ (demo_run demo_stranded ltac:(vm_compute; reflexivity)))
    ltac:(vm_compute; reflexivity) (fun t r Ht _ => Hopen t r Ht)) as (st'&E&H&_).
  exists st'. split; [exact E|]. split.
  - intros (i&o&Hi&_&_&Ha).
    assert (Hno : map_Forall (fun _ o => OpState.active (OpRow.state o) = false) (session_ops (db (demo demo_stranded)))).
    { apply (bool_decide_unpack _). vm_compute. exact I. }
    specialize (Hno i o Hi). cbn in Hno. congruence.
  - destruct (teleports (db (demo demo_stranded)) !! 7%N) as [r|] eqn:Er; [|exfalso; vm_compute in Er; discriminate].
    assert (Hr : TeleportRow.session_id r = 10%N ∧ TeleportRow.is_open r = true).
    { vm_compute in Er. injection Er as <-. by split. }
    destruct Hr as [Hs Ho]. specialize (H 7%N r Er Ho). by rewrite Hs in H.
Defined.

(** Session 10 was placed and its boot op is gone. *)
Definition demo_orphan : list call := demo_fleet ++ [ReserveCreate (demo_create 10) [1; 2]%N 0 3].

Lemma orphans_recovered_witness : ∃ st',
  exec (plan_world 1000000000000) (reclaim_sweep "b") (demo demo_orphan) = (Some tt, st') ∧
  pending (db st') 10 CreateBoot.
Proof.
  destruct (orphans_recovered "b" 1000000000000 (demo demo_orphan)
    (run_inv None demo_orphan _ (demo_run demo_orphan ltac:(vm_compute; reflexivity)))
    ltac:(vm_compute; reflexivity)) as (st'&E&H).
  exists st'. split; [exact E|].
  destruct (sessions (db (demo demo_orphan)) !! 10%N) as [r|] eqn:Er; [|exfalso; vm_compute in Er; discriminate].
  assert (Hr : SessRow.status r = Pending ∧ (Session.last_active_at (SessRow.session r) < 1000000000000 - PENDING_ORPHAN_GRACE)%Z).
  { vm_compute in Er. injection Er as <-. by split. }
  exact (H 10%N r Er (proj1 Hr) (proj2 Hr)).
Defined.

(** The store and the requests of an admission. *)
Definition rpc_world (X : Type) (q : creq X) (st : Store) : option X * Store :=
  match q in creq X return option X * Store with
  | Meta m =>
      match m in mreq A return option (result A MetaError) * Store with
      | MEnqueueExclusive s k p by_ => ran (MetaOps.op_enqueue_and_claim_exclusive s k p by_ 20 st)
      | MTeleportAdmit req => ran (MetaTeleport.teleport_admit req 20%Z st)
      | MOpFinish i e final err => ran (MetaOps.op_finish i e final err 20 st)
      | MListActiveHosts => (Some (Ok [rank_host 2]), st)
      | MFcVersion _ => (Some (Ok None), st)
      | m => plan_meta 20 m st
      end
  | ResumeBudget _ => (Some (Some (2048, 1)%Z), st)
  | FreshUuid => (Some 7%N, st)
  | PublishOpFinished _ => (Some tt, st)
  | q => plan_world 20 _ q st
  end.

Lemma rpc_carry h X (q : creq X) st x st' : rpc_world X q st = (Some x, st') → claims_carry h X q x.
Proof.
  destruct q as [A m| | | | | | | | | | | | | | | | | | | | | | | | | | | |]; try done. destruct m; try done; cbn.
  - unfold MetaOps.op_enqueue_and_claim. run_m. destruct (outage st); [intros [= <- _]; done|].
    destruct (match key with Some _ => _ | None => _ end); [intros [= <- _]; done|].
    unfold next_serial. cbn beta iota zeta. destruct (_ && _); [|intros [= <- _]; done].
    destruct (sessions _ !! s); intros [= <- _]; [|done]. intros op [= <-]. by eexists.
  - unfold MetaOps.op_enqueue_and_claim_exclusive. run_m. destruct (outage st); [intros [= <- _]; done|].
    destruct (existsb _ _); [intros [= <- _]; done|].
    destruct (sessions _ !! s); [|intros [= <- _]; done]. unfold next_serial. cbn beta iota zeta.
    intros [= <- _] op [= <-]. by eexists.
Qed.

(** Session 10 is active and its lane is free. *)
Definition demo_free : list call := demo_boot ++ [OpFinish 1 1 OpState.Done None 10].

Definition demo_rpc := admit_for_rpc "b" demo_caps demo_sha None 60 10 None.

(** The request is admitted, and its claim is finished. *)
Lemma admission_settles_witness : ∃ row,
  (exec rpc_world demo_rpc (demo demo_free)).1 = Some (Ok row) ∧
  settled "b" 10 (trace rpc_world demo_rpc (demo demo_free)) (Ok row).
Proof.
  assert (E : ∃ row, (exec rpc_world demo_rpc (demo demo_free)).1 = Some (Ok row))
    by (eexists; vm_compute; reflexivity).
  destruct E as [row E]. exists row. split; [exact E|].
  pose proof (exec_runs rpc_world claims_carry (fun _ _ => True) demo_rpc (demo demo_free) []) as Hr.
  assert (Hr' : runs claims_carry [] demo_rpc (trace rpc_world demo_rpc (demo demo_free)) (Some (Ok row))).
  { rewrite <- E. apply Hr; [|done]. intros. split; [by eapply rpc_carry|done]. }
  exact (proj1 (proj2 (admission_settles "b" demo_caps demo_sha None 60 10 None _ _ Hr'))).
Defined.
