(* ===== verification/Journal.v ===== *)
(** * The exec journal of the guest agent

    [engram-agentd/src/exec_journal.rs] and the reattachment of
    [engram-agentd/src/handler.rs]: a command run in the guest is recorded in a
    directory named by its id, which is the marker that keeps a retry from
    running it twice; a wrapper process owns the command, captures its output and
    writes the exit marker; a client that lost its connection is replayed the
    files.  Files, processes and clocks answer through requests; the JSON codec
    of the records is a parameter. *)

From S2P Require Import Prelude Prog Bytes.
Local Open Scope Z_scope.

Module Journal.

Definition OUTPUT_CAP_BYTES : N := 64 * 1024 * 1024.
Definition OUTPUT_TRUNCATED_MARKER : bytes :=
  [LF] ++ lit "[engram: output truncated at 64 MiB]" ++ [LF].
Definition DEFAULT_TTL : Duration := 24 * 60 * 60 * 1000000000.
Definition DEFAULT_MAX_ACTIVE : N := 32.
Definition READ_BUF_BYTES : N := 8 * 1024.

(** ** Paths *)

(** A path is its components, as [Path::components] gives them. *)
Notation path := (list (list N)).

Definition dot : bytes := [46]%N.
Definition dotdot : bytes := [46; 46]%N.

(** The components of a relative path; [.] and empty ones are dropped. *)
Definition components (s : bytes) : path :=
  List.filter (fun c => negb (bool_decide (c = [])) && negb (bool_decide (c = dot))) (split_byte 47 s).

(** [Path::join]: an absolute path replaces the base. *)
Definition join (p : path) (s : bytes) : path :=
  if starts_with [47]%N s then components s else p ++ components s.

(** ** Records *)

Inductive io_kind : Type := NotFound | AlreadyExists | InvalidData | InvalidInput | Other.
#[export] Instance io_kind_eq_dec : EqDecision io_kind.
Proof. solve_decision. Defined.

Record io_error := IoErr { kind : io_kind; text : bytes }.
Notation io A := (result A io_error).

Record ExecJournal := MkJournal { root : path; ttl : Duration; max_active : N }.

Record JournalEntry := MkEntry { dir : path; exec_id : bytes }.

Record RequestRecord := MkRequest { command : list bytes; created_at_unix_ms : Z }.

Record ExitRecord := MkExit { exit_code : option Z; finished_at_unix_ms : Z }.

Inductive AttachState : Type :=
| Running
| Died (reason : bytes)
| Complete (exit : ExitRecord)
| Mismatch (recorded_command : list bytes).

Inductive AttachOrStart : Type :=
| Start (entry : JournalEntry)
| Attach (entry : JournalEntry)
| Missing
| DegradedStart (entry : JournalEntry) (reason : bytes).

Inductive WireExecEvent : Type :=
| Stdout (b : bytes)
| Stderr (b : bytes)
| Exit (code : option Z)
| Started (id : bytes)
| Degraded (reason : bytes)
| Refused (reason : bytes).

Record FileMeta := MkMeta { is_dir : bool; len : N; modified : io Z }.

(** The two pipes of a command. *)
Inductive Pipe : Type := OutPipe | ErrPipe.

Inductive Errno : Type := ESRCH | OtherErrno (text : bytes).

(** Instants are nanoseconds since the epoch; [ReadDir] answers the names its
    iterator yields until it ends or fails; a file that was opened is a number. *)
Inductive jreq : Type → Type :=
| CreateDirAll (p : path) : jreq (io unit)
| CreateDir (p : path) : jreq (io unit)
| RemoveDirAll (p : path) : jreq (io unit)
| ReadDir (p : path) : jreq (io (list bytes))
| FileType (p : path) : jreq (io bool)
| Metadata (p : path) : jreq (io FileMeta)
| ReadFile (p : path) : jreq (io bytes)
| CreateFile (p : path) : jreq (io N)
| OpenFile (p : path) : jreq (io N)
| WriteAll (f : N) (b : bytes) : jreq (io unit)
| Flush (f : N) : jreq (io unit)
| SyncAll (f : N) : jreq (io unit)
| FileLen (f : N) : jreq (io N)
| Seek (f : N) (offset : N) : jreq (io unit)
| ReadExact (f : N) (n : N) : jreq (io bytes)
| Rename (p q : path) : jreq (io unit)
| SystemNow : jreq Z
| Sleep (d : Duration) : jreq unit
| Signal0 (pid : N) : jreq bool
| ProcStat (pid : N) : jreq (io bytes)
| KillGroup (pid : N) : jreq (result unit Errno)
| OwnPid : jreq N
| SpawnCommand (command : list bytes) : jreq (io unit)
| ChildId : jreq (option N)
| TakePipe (p : Pipe) : jreq bool
| SpawnCapture (p : Pipe) : jreq unit
| JoinCapture (p : Pipe) : jreq unit
| WaitChild : jreq (io (option Z))
| WaitTimeout (d : Duration) : jreq (option (io (option Z)))
| StartKill : jreq (io unit)
| ReadPipe : jreq (io bytes)
| WriteLive (b : bytes) : jreq (io unit)
| Send (ev : WireExecEvent) : jreq (io unit)
| Spin : jreq Empty_set.

Notation jprog A := (prog jreq A).

Definition fail {A} (k : io_kind) (t : string) : jprog (io A) := Ret (Err (IoErr k (lit t))).
Definition spin {A} : jprog A := x ← ask Spin; match x : Empty_set with end.

(** ** Numbers, clocks and processes *)

Definition u32_max : N := 4294967295.
Definition u64_max : N := 18446744073709551615.
Definition i32_max : N := 2147483647.

(** [as_millis() as u64] of nanoseconds. *)
Definition millis (ns : Z) : Z := (ns / 1000000) mod 2 ^ 64.
Definition saturating_sub (a b : Z) : Z := Z.max 0 (a - b).

(** [unwrap_or_default]: before the epoch the clock reads zero. *)
Definition unix_ms : jprog Z := now ← ask SystemNow; Ret (millis (Z.max 0 now)).

(** [SystemTime::elapsed]; [None] for an instant in the future. *)
Definition elapsed (t : Z) : jprog (option Z) :=
  now ← ask SystemNow; Ret (if now <? t then None else Some (now - t)).

Definition process_is_alive (pid : N) : jprog bool :=
  if (i32_max <? pid)%N then Ret false else ask (Signal0 pid).

(** [tokio::fs::read_to_string]. *)
Definition utf8_text (r : io bytes) : io bytes :=
  match r with
  | Ok b => match from_utf8 b with
            | Some s => Ok s
            | None => Err (IoErr InvalidData (lit "stream did not contain valid UTF-8"))
            end
  | Err e => Err e
  end.

Definition read_to_string (p : path) : jprog (io bytes) :=
  r ← ask (ReadFile p); Ret (utf8_text r).

(** [str::split_whitespace]. *)
Fixpoint split_ws (fuel : nat) (s : bytes) (cur : bytes) : list bytes :=
  let word := match cur with [] => [] | _ => [reverse cur] end in
  match fuel, s with
  | S fuel', b :: s' =>
      match List.find (fun w => starts_with w s) white_space with
      | Some w => word ++ split_ws fuel' (drop (length w) s) []
      | None => split_ws fuel' s' (b :: cur)
      end
  | _, _ => word
  end.
Definition split_whitespace (s : bytes) : list bytes := split_ws (length s) s [].

(** What follows the last [c]. *)
Definition after_last (c : N) (s : bytes) : option bytes :=
  match find_byte c (reverse s) with
  | Some i => Some (reverse (take i (reverse s)))
  | None => None
  end.

(** Field 22 of [/proc/pid/stat]. *)
Definition start_ticks (stat : bytes) : option N :=
  rest ← after_last 41 stat;
  w ← split_whitespace rest !! 19%nat;
  from_str_radix 10 u64_max w.

Definition process_start_ticks (pid : N) : jprog (option N) :=
  r ← ask (ProcStat pid);
  Ret (match utf8_text r with Ok stat => start_ticks stat | Err _ => None end).

Definition kill_process_group (pid : option N) : jprog (io unit) :=
  match pid with
  | Some p =>
      if (i32_max <? p)%N then fail InvalidInput "invalid process-group pid"
      else
        r ← ask (KillGroup p);
        Ret (match r with
             | Ok _ | Err ESRCH => Ok tt
             | Err (OtherErrno t) => Err (IoErr Other t)
             end)
  | None => fail InvalidInput "invalid process-group pid"
  end.

(** ** Ids *)

Definition is_ascii_alphanumeric (b : N) : bool :=
  in_range 48 57 b || in_range 65 90 b || in_range 97 122 b.

Definition valid_exec_id (id : bytes) : bool :=
  negb (bool_decide (id = [])) && (N.of_nat (length id) <=? 200)%N &&
  negb (starts_with dot id) && negb (starts_with (lit "__engram_") id) &&
  forallb (fun b => is_ascii_alphanumeric b || existsb (N.eqb b) [45; 95; 46; 58]%N) id.

Definition validate_exec_id (id : bytes) : io unit :=
  if valid_exec_id id then Ok tt
  else Err (IoErr InvalidInput (lit
    "exec_id must be 1..=200 ASCII [A-Za-z0-9_.:-] bytes, not start with '.', and not use the reserved __engram_ prefix")).

Definition existing_entry (j : ExecJournal) (id : bytes) : io JournalEntry :=
  match validate_exec_id id with
  | Ok _ => Ok (MkEntry (join (root j) id) id)
  | Err e => Err e
  end.

(** [Path::file_name]: the last component, if it is a name. *)
Definition file_name (p : path) : option bytes :=
  match last p with
  | Some c => if bool_decide (c = dotdot) then None else Some c
  | None => None
  end.

Definition from_dir (d : path) : io JournalEntry :=
  if existsb (fun c => bool_decide (c = dotdot)) d
  then Err (IoErr InvalidInput (lit "journal path must not contain '..'"))
  else match file_name d ≫= from_utf8 with
       | None => Err (IoErr InvalidInput (lit "journal has no exec id"))
       | Some id => match validate_exec_id id with
                    | Ok _ => Ok (MkEntry d id)
                    | Err e => Err e
                    end
       end.

(** ** Files of a record *)

(** [path.with_extension("{ext}.tmp")]; the last component is a name of the
    journal, with at most one dot, which is not its first byte. *)
Definition tmp_name (name : bytes) : bytes :=
  match split_once dot name with
  | Some (stem, ext) => stem ++ dot ++ ext ++ lit ".tmp"
  | None => name ++ lit ".record.tmp"
  end.

Definition atomic_write (d : path) (name : bytes) (b : bytes) : jprog (io unit) :=
  let tmp := d ++ [tmp_name name] in
  do! f := ask (CreateFile tmp) in
  do! _ := ask (WriteAll f b) in
  do! _ := ask (Flush f) in
  do! _ := ask (SyncAll f) in
  ask (Rename tmp (d ++ [name])).

(** [read_to_string], [trim] and [parse] of an unsigned type. *)
Definition parse_number (max : N) (r : io bytes) : io N :=
  match utf8_text r with
  | Ok raw => match from_str_radix 10 max (trim raw) with
              | Some n => Ok n
              | None => Err (IoErr InvalidData (lit "invalid number"))
              end
  | Err e => Err e
  end.

Definition read_number (max : N) (p : path) : jprog (io N) :=
  r ← ask (ReadFile p); Ret (parse_number max r).

Definition request_json : bytes := lit "request.json".
Definition exit_json : bytes := lit "exit.json".

Definition write_pid (e : JournalEntry) (pid : N) : jprog (io unit) :=
  atomic_write (dir e) (lit "pid") (dec_bytes pid).
Definition write_pid_start (e : JournalEntry) (ticks : N) : jprog (io unit) :=
  atomic_write (dir e) (lit "pid_start") (dec_bytes ticks).
Definition write_owner_pid (e : JournalEntry) (pid : N) : jprog (io unit) :=
  atomic_write (dir e) (lit "owner_pid") (dec_bytes pid).
Definition pid (e : JournalEntry) : jprog (io N) := read_number u32_max (dir e ++ [lit "pid"]).
Definition pid_start (e : JournalEntry) : jprog (io N) := read_number u64_max (dir e ++ [lit "pid_start"]).
Definition owner_pid (e : JournalEntry) : jprog (io N) := read_number u32_max (dir e ++ [lit "owner_pid"]).
Definition stdout_path (e : JournalEntry) : path := dir e ++ [lit "stdout"].
Definition stderr_path (e : JournalEntry) : path := dir e ++ [lit "stderr"].

Definition mark_degraded (e : JournalEntry) (reason : bytes) : jprog unit :=
  _ ← atomic_write (dir e) (lit "degraded") reason; Ret tt.
Definition degraded_reason (e : JournalEntry) : jprog (io bytes) :=
  read_to_string (dir e ++ [lit "degraded"]).

Section journal.

Context (enc_request : RequestRecord → result bytes bytes) (dec_request : bytes → result RequestRecord bytes)
  (enc_exit : ExitRecord → result bytes bytes) (dec_exit : bytes → result ExitRecord bytes).

(** [read_json] of what was read. *)
Definition parse_json {A} (dec : bytes → result A bytes) (r : io bytes) : io A :=
  match r with
  | Ok b => match dec b with Ok a => Ok a | Err t => Err (IoErr InvalidData t) end
  | Err e => Err e
  end.

Definition read_json {A} (dec : bytes → result A bytes) (p : path) : jprog (io A) :=
  r ← ask (ReadFile p); Ret (parse_json dec r).

Definition atomic_write_json (d : path) (name : bytes) (b : result bytes bytes) : jprog (io unit) :=
  match b with
  | Ok b => atomic_write d name b
  | Err t => Ret (Err (IoErr InvalidData t))
  end.

Definition write_request (e : JournalEntry) (r : RequestRecord) : jprog (io unit) :=
  atomic_write_json (dir e) request_json (enc_request r).
Definition request (e : JournalEntry) : jprog (io RequestRecord) :=
  read_json dec_request (dir e ++ [request_json]).
Definition exit (e : JournalEntry) : jprog (io ExitRecord) :=
  read_json dec_exit (dir e ++ [exit_json]).

Definition finish (e : JournalEntry) (code : option Z) : jprog (io unit) :=
  now ← unix_ms;
  atomic_write_json (dir e) exit_json (enc_exit (MkExit code now)).

(** ** Liveness *)

(** Neither pid has landed: how long ago the record was made. *)
Definition since_created (e : JournalEntry) : jprog (option Z) :=
  r ← request e;
  match r with
  | Ok r => now ← unix_ms; Ret (Some (saturating_sub now (created_at_unix_ms r)))
  | Err _ =>
      m ← ask (Metadata (dir e));
      match m with
      | Ok (MkMeta _ _ (Ok t)) => d ← elapsed t; Ret (Some (match d with Some d => millis d | None => 0 end))
      | _ => Ret None
      end
  end.

Definition command_live (e : JournalEntry) : jprog bool :=
  p ← pid e;
  match p with
  | Ok p => process_is_alive p
  | Err err =>
      if bool_decide (kind err = NotFound) then
        s ← since_created e;
        Ret (match s with Some s => s <? 5000 | None => false end)
      else Ret false
  end.

(** A dead wrapper does not decide: the command may outlive it. *)
Definition appears_live (e : JournalEntry) : jprog bool :=
  owner ← owner_pid e;
  match owner with
  | Ok p => alive ← process_is_alive p; if (alive : bool) then Ret true else command_live e
  | Err err => if bool_decide (kind err = NotFound) then command_live e else Ret false
  end.

(** No exit marker: by the command's pid. *)
Definition command_state (e : JournalEntry) (r : RequestRecord) : jprog AttachState :=
  p ← pid e;
  match p with
  | Ok p =>
      alive ← process_is_alive p;
      Ret (if (alive : bool) then Running
           else Died (lit "pid " ++ dec_bytes p ++ lit " is dead and exit.json is absent"))
  | Err err =>
      now ← unix_ms;
      Ret (if saturating_sub now (created_at_unix_ms r) <? 5000 then Running
           else Died (lit "pid missing or corrupt and exit.json is absent: " ++ text err))
  end.

(** No exit marker: by the wrapper's pid first. *)
Definition wrapper_state (e : JournalEntry) (r : RequestRecord) : jprog AttachState :=
  owner ← owner_pid e;
  match owner with
  | Ok p =>
      alive ← process_is_alive p;
      Ret (if (alive : bool) then Running
           else Died (lit "wrapper pid " ++ dec_bytes p ++ lit " is dead and exit.json is absent"))
  | Err err =>
      if bool_decide (kind err = NotFound) then command_state e r
      else Ret (Died (lit "owner_pid corrupt and exit.json is absent: " ++ text err))
  end.

Definition state_for (e : JournalEntry) (cmd : list bytes) : jprog AttachState :=
  r ← request e;
  match r with
  | Err err => Ret (Died (lit "request.json missing or corrupt: " ++ text err))
  | Ok r =>
      if negb (bool_decide (command r = cmd)) then Ret (Mismatch (command r))
      else
        x ← exit e;
        match x with
        | Ok x => Ret (Complete x)
        | Err err =>
            if bool_decide (kind err = NotFound) then wrapper_state e r
            else Ret (Died (lit "exit.json corrupt: " ++ text err))
        end
  end.

(** ** Collection *)

Fixpoint newest_of (d : path) (names : list bytes) (newest : option Z) : jprog (option Z) :=
  match names with
  | [] => Ret newest
  | n :: names =>
      m ← ask (Metadata (d ++ [n]));
      newest_of d names
        match m with
        | Ok (MkMeta _ _ (Ok t)) => Some (match newest with Some c => Z.max c t | None => t end)
        | _ => newest
        end
  end.

Definition newest_activity_unix_ms (d : path) : jprog (option Z) :=
  l ← ask (ReadDir d);
  match l with
  | Err _ => Ret None
  | Ok names =>
      newest ← newest_of d names None;
      Ret (t ← newest; if t <? 0 then None else Some (millis t))
  end.

Definition dead_record_age_ms (d : path) (now : Z) : jprog (option Z) :=
  match from_dir d with
  | Err _ => Ret None
  | Ok e =>
      live ← appears_live e;
      if (live : bool) then Ret None
      else
        activity ← newest_activity_unix_ms d;
        match activity with
        | Some a => Ret (Some (saturating_sub now a))
        | None =>
            r ← request e;
            match r with
            | Ok r => Ret (Some (saturating_sub now (created_at_unix_ms r)))
            | Err _ =>
                m ← ask (Metadata d);
                match m with
                | Ok (MkMeta _ _ (Ok t)) => past ← elapsed t; Ret (option_map millis past)
                | _ => Ret None
                end
            end
        end
  end.

Definition record_age_ms (d : path) (now : Z) : jprog (option Z) :=
  x ← ask (ReadFile (d ++ [exit_json]));
  match x with
  | Ok b => match dec_exit b with
            | Ok x => Ret (Some (saturating_sub now (finished_at_unix_ms x)))
            | Err _ => dead_record_age_ms d now
            end
  | Err _ => dead_record_age_ms d now
  end.

Definition gc_one (now ttl_ms : Z) (d : path) : jprog unit :=
  kind ← ask (FileType d);
  match kind with
  | Ok true =>
      age ← record_age_ms d now;
      match age with
      | Some a => if ttl_ms <=? a then _ ← ask (RemoveDirAll d); Ret tt else Ret tt
      | None => Ret tt
      end
  | _ => Ret tt
  end.

Fixpoint each {A} (l : list A) (f : A → jprog unit) : jprog unit :=
  match l with
  | [] => Ret tt
  | a :: l => _ ← f a; each l f
  end.

Definition gc_expired (j : ExecJournal) : jprog unit :=
  l ← ask (ReadDir (root j));
  match l with
  | Err _ => Ret tt
  | Ok names =>
      now ← unix_ms;
      each names (fun n => gc_one now (millis (ttl j)) (root j ++ [n]))
  end.

(** Whether a directory of the journal holds a slot of the cap. *)
Definition active_one (d : path) : jprog bool :=
  kind ← ask (FileType d);
  match kind with
  | Ok true =>
      x ← ask (Metadata (d ++ [exit_json]));
      match x with
      | Ok _ => Ret false
      | Err _ =>
          g ← ask (Metadata (d ++ [lit "degraded"]));
          match g with
          | Ok _ => Ret false
          | Err _ => match from_dir d with Ok e => appears_live e | Err _ => Ret false end
          end
      end
  | _ => Ret false
  end.

Fixpoint count_active (r : path) (names : list bytes) (count : N) : jprog N :=
  match names with
  | [] => Ret count
  | n :: names =>
      a ← active_one (r ++ [n]);
      count_active r names (if (a : bool) then count + 1 else count)%N
  end.

Definition active_count (j : ExecJournal) : jprog N :=
  l ← ask (ReadDir (root j));
  match l with
  | Err _ => Ret 0%N
  | Ok names => count_active (root j) names 0
  end.

(** ** Starting and attaching *)

(** The directory of the entry is the marker: who makes it records the command. *)
Definition claim_marker (j : ExecJournal) (entry : JournalEntry) (cmd : list bytes) : jprog (io AttachOrStart) :=
  marker ← ask (CreateDir (dir entry));
  match marker with
  | Ok _ =>
      active ← active_count j;
      if (max_active j <? active)%N then
        let reason := lit "concurrent journal cap (" ++ dec_bytes (max_active j) ++
                      lit ") reached; durable recording disabled" in
        _ ← mark_degraded entry reason;
        okay (DegradedStart entry reason)
      else
        now ← unix_ms;
        w ← write_request entry (MkRequest cmd now);
        match w with
        | Ok _ => okay (Start entry)
        | Err e =>
            let reason := lit "write request.json: " ++ text e in
            _ ← mark_degraded entry reason;
            okay (DegradedStart entry reason)
        end
  | Err e =>
      if bool_decide (kind e = AlreadyExists) then okay (Attach entry)
      else okay (DegradedStart entry (lit "mkdir spawn marker: " ++ text e))
  end.

Definition attach_or_start (j : ExecJournal) (id : bytes) (cmd : list bytes) : jprog (io AttachOrStart) :=
  match validate_exec_id id with
  | Err e => Ret (Err e)
  | Ok _ =>
      let entry := MkEntry (join (root j) id) id in
      made ← ask (CreateDirAll (root j));
      match made with
      | Err e => okay (DegradedStart entry (lit "create journal root: " ++ text e))
      | Ok _ =>
          _ ← gc_expired j;
          claim_marker j entry cmd
      end
  end.

Definition attach_existing (j : ExecJournal) (id : bytes) : jprog (io AttachOrStart) :=
  match validate_exec_id id with
  | Err e => Ret (Err e)
  | Ok _ =>
      let entry := MkEntry (join (root j) id) id in
      m ← ask (Metadata (dir entry));
      match m with
      | Ok m =>
          if is_dir m then okay (Attach entry)
          else fail InvalidData "exec journal marker is not a directory"
      | Err e => if bool_decide (kind e = NotFound) then okay Missing else Ret (Err e)
      end
  end.

(** ** Cancelling *)

Definition sleep_25ms : jprog unit := ask (Sleep 25000000).

(** One turn; [Err]: no pid could be read, and the turn is repeated. *)
Definition cancel_turn (e : JournalEntry) : jprog (result (io unit) io_error) :=
  x ← exit e;
  match x with
  | Ok _ => Ret (Ok (Ok tt))
  | Err _ =>
      p ← pid e;
      match p with
      | Ok p =>
          recorded ← pid_start e;
          current ← process_start_ticks p;
          match recorded, current with
          | Ok r, Some c =>
              if negb (N.eqb c r) then Ret (Ok (Ok tt))
              else k ← kill_process_group (Some p); Ret (Ok k)
          | _, _ => k ← kill_process_group (Some p); Ret (Ok k)
          end
      | Err err => Ret (Err err)
      end
  end.

Fixpoint cancel_from (turns : nat) (e : JournalEntry) (last_error : option io_error) : jprog (io unit) :=
  match turns with
  | O => Ret (Err (default (IoErr NotFound (lit "pid absent")) last_error))
  | S turns =>
      r ← cancel_turn e;
      match r with
      | Ok res => Ret res
      | Err err => _ ← sleep_25ms; cancel_from turns e (Some err)
      end
  end.

Definition cancel (e : JournalEntry) : jprog (io unit) := cancel_from 10 e None.

(** ** The wrapper *)

Definition degrade_on (e : JournalEntry) (what : string) (r : io unit) : jprog unit :=
  match r with
  | Ok _ => Ret tt
  | Err err => mark_degraded e (lit what ++ text err)
  end.

Definition record_child (e : JournalEntry) : jprog unit :=
  id ← ask ChildId;
  match id with
  | Some p =>
      w ← write_pid e p;
      _ ← degrade_on e "write pid: " w;
      ticks ← process_start_ticks p;
      match ticks with
      | Some t => _ ← write_pid_start e t; Ret tt
      | None => Ret tt
      end
  | None => Ret tt
  end.

Definition await_child (timeout : option Duration) : jprog (io (option Z)) :=
  match timeout with
  | Some d =>
      r ← ask (WaitTimeout d);
      match r with
      | Some status => Ret status
      | None =>
          id ← ask ChildId;
          _ ← kill_process_group id;
          _ ← ask StartKill;
          ask WaitChild
      end
  | None => ask WaitChild
  end.

Definition run_wrapper (e : JournalEntry) (cmd : list bytes) (timeout : option Duration) :
    jprog (io (option Z)) :=
  own ← ask OwnPid;
  w ← write_owner_pid e own;
  _ ← degrade_on e "write wrapper owner pid: " w;
  match cmd with
  | [] => fail InvalidInput "exec wrapper command is empty"
  | _ :: _ =>
      do! _ := ask (SpawnCommand cmd) in
      _ ← record_child e;
      out ← ask (TakePipe OutPipe);
      if negb out then fail Other "exec wrapper stdout pipe missing"
      else
        err ← ask (TakePipe ErrPipe);
        if negb err then fail Other "exec wrapper stderr pipe missing"
        else
          _ ← ask (SpawnCapture OutPipe);
          _ ← ask (SpawnCapture ErrPipe);
          do! code := await_child timeout in
          _ ← ask (JoinCapture OutPipe);
          _ ← ask (JoinCapture ErrPipe);
          f ← finish e code;
          _ ← degrade_on e "write exit completeness marker: " f;
          okay code
  end.

(** [OUTPUT_CAP_BYTES] less the length of the marker. *)
Definition data_cap : N := OUTPUT_CAP_BYTES - N.of_nat (length OUTPUT_TRUNCATED_MARKER).

(** The file of a capture loop after a chunk, and what it has persisted. *)
Definition capture_chunk (e : JournalEntry) (name : bytes) (f : N) (persisted : N) (chunk : bytes) :
    jprog (option N * N) :=
  let count := N.of_nat (length chunk) in
  let truncate (persisted : N) : jprog (option N * N) :=
    w ← ask (WriteAll f OUTPUT_TRUNCATED_MARKER);
    _ ← degrade_on e "write truncation marker: " w;
    Ret (None, persisted) in
  if (persisted <? data_cap)%N then
    let keep := N.min (data_cap - persisted) count in
    w ← ask (WriteAll f (take (N.to_nat keep) chunk));
    match w with
    | Err err => _ ← mark_degraded e (lit "write " ++ name ++ lit ": " ++ text err); Ret (None, persisted)
    | Ok _ =>
        let persisted := (persisted + keep)%N in
        if (keep <? count)%N then truncate persisted else Ret (Some f, persisted)
    end
  else truncate persisted.

Fixpoint capture_loop (turns : nat) (e : JournalEntry) (name : bytes) (file : option N)
    (persisted : N) (live_open : bool) : jprog (option N) :=
  match turns with
  | O => spin
  | S turns =>
      r ← ask ReadPipe;
      match r with
      | Ok [] | Err _ => Ret file
      | Ok chunk =>
          live_open ← (if live_open then w ← ask (WriteLive chunk); Ret (is_ok w) else Ret false);
          match file with
          | None => capture_loop turns e name None persisted live_open
          | Some f =>
              next ← capture_chunk e name f persisted chunk;
              capture_loop turns e name next.1 next.2 live_open
          end
      end
  end.

Definition capture_output (turns : nat) (e : JournalEntry) (name : bytes) : jprog unit :=
  created ← ask (CreateFile (dir e ++ [name]));
  file ← match created with
         | Ok f => Ret (Some f)
         | Err err => _ ← mark_degraded e (lit "create " ++ name ++ lit ": " ++ text err); Ret None
         end;
  file ← capture_loop turns e name file 0 true;
  match file with
  | Some f => _ ← ask (Flush f); _ ← ask (SyncAll f); Ret tt
  | None => Ret tt
  end.

(** ** Reattaching *)

Definition read_journal_chunk (p : path) (offset : N) : jprog (io (option bytes)) :=
  opened ← ask (OpenFile p);
  match opened with
  | Err e => if bool_decide (kind e = NotFound) then okay None else Ret (Err e)
  | Ok f =>
      do! n := ask (FileLen f) in
      if (n <=? offset)%N then okay None
      else
        do! _ := ask (Seek f offset) in
        do! b := ask (ReadExact f (N.min (n - offset) READ_BUF_BYTES)) in
        okay (Some b)
  end.

Definition send (ev : WireExecEvent) : jprog (io unit) := ask (Send ev).

(** The commands of the texts are left out. *)
Definition mismatch_text (e : JournalEntry) : bytes :=
  lit "exec_id " ++ exec_id e ++ lit " already belongs to another command; refusing (first writer wins)" ++ [LF].
Definition degraded_text (e : JournalEntry) (what : string) (reason : bytes) : bytes :=
  lit "exec_id " ++ exec_id e ++ lit what ++ reason ++ [LF].

Definition send_degraded (e : JournalEntry) (what : string) (reason : bytes) : jprog (io unit) :=
  do! _ := send (Degraded reason) in
  do! _ := send (Stderr (degraded_text e what reason)) in
  do! _ := send (Exit None) in
  okay tt.

Definition refuse (e : JournalEntry) : jprog (io unit) :=
  do! _ := send (Refused (mismatch_text e)) in okay tt.

Definition request_missing (s : AttachState) : bool :=
  match s with Died reason => starts_with (lit "request.json missing") reason | _ => false end.

Fixpoint settle_state (turns : nat) (e : JournalEntry) (cmd : list bytes) (s : AttachState) :
    jprog AttachState :=
  match turns with
  | O => Ret s
  | S turns =>
      if negb (request_missing s) then Ret s
      else _ ← sleep_25ms; s ← state_for e cmd; settle_state turns e cmd s
  end.

(** One file of the drain: what is sent, and the offset after it. *)
Definition drain (p : path) (mk : bytes → WireExecEvent) (offset : N) : jprog (io (bool * N)) :=
  do! got := read_journal_chunk p offset in
  match got with
  | Some b => do! _ := send (mk b) in okay (true, offset + N.of_nat (length b))%N
  | None => okay (false, offset)
  end.

Fixpoint tail_loop (turns : nat) (e : JournalEntry) (cmd : list bytes) (o1 o2 : N) : jprog (io unit) :=
  match turns with
  | O => spin
  | S turns =>
      g ← degraded_reason e;
      match g with
      | Ok reason => send_degraded e " journal degraded while attached and cannot provide a complete replay: " reason
      | Err _ =>
          do! d1 := drain (stdout_path e) Stdout o1 in
          do! d2 := drain (stderr_path e) Stderr o2 in
          let progressed := d1.1 || d2.1 in
          s ← state_for e cmd;
          let again : jprog (io unit) :=
            _ ← (if progressed then Ret tt else sleep_25ms); tail_loop turns e cmd d1.2 d2.2 in
          match s with
          | Complete x => if negb progressed then do! _ := send (Exit (exit_code x)) in okay tt else again
          | Mismatch _ => refuse e
          | Died reason =>
              if negb progressed then
                do! _ := send (Stderr (degraded_text e " died without exit.json; no exit was fabricated: " reason)) in
                do! _ := send (Exit None) in
                okay tt
              else again
          | Running => again
          end
      end
  end.

Definition tail_journal (turns : nat) (e : JournalEntry) (cmd : list bytes) (o1 o2 : N) : jprog (io unit) :=
  r ← request e;
  if match r with Ok r => negb (bool_decide (command r = cmd)) | Err _ => false end then refuse e
  else
    g ← degraded_reason e;
    match g with
    | Ok reason => send_degraded e " journal is degraded and cannot be re-attached safely: " reason
    | Err _ =>
        s ← state_for e cmd;
        s ← settle_state 40 e cmd s;
        match s with
        | Mismatch _ => refuse e
        | _ => tail_loop turns e cmd o1 o2
        end
    end.

End journal.
End Journal.
