(* ===== verification/JournalProps.v ===== *)
(** * The exec journal against any answers

    Where the journal writes, which records its collection keeps, what a
    cancellation kills, what a capture persists and what a reattached client is
    sent, whatever files, processes and clocks answer. *)

From S2P Require Import Prelude Prog Bytes Journal.
Import Journal.
Local Open Scope Z_scope.
#[local] Set Default Proof Using "Type".

Notation hist := (list (event jreq)).

(** Any answer. *)
Definition anything (h : hist) (X : Type) (q : jreq X) (x : X) : Prop := True.

(** ** Ids are names *)

Lemma split_byte_free c s : c ∉ s → split_byte c s = [s].
Proof.
  induction s as [|b s IH]; [done|]. intros [Hb Hs]%not_elem_of_cons. simpl.
  rewrite (proj2 (N.eqb_neq b c)) by congruence. by rewrite IH.
Qed.

(** An id that is accepted is one component below the root. *)
Lemma valid_id_joins r id :
  valid_exec_id id = true → join r id = r ++ [id] ∧ id ≠ dotdot ∧ id ≠ dot ∧ 47%N ∉ id.
Proof.
  unfold valid_exec_id. rewrite !andb_true_iff, !negb_true_iff. intros [[[[Hne _] Hdot] _] Hall].
  apply bool_decide_eq_false in Hne.
  assert (H47 : 47%N ∉ id).
  { intros Hin. rewrite forallb_forall in Hall. apply list_elem_of_In in Hin.
    specialize (Hall _ Hin). vm_compute in Hall. discriminate. }
  assert (Hd : id ≠ dot) by (intros ->; vm_compute in Hdot; discriminate).
  split; [|split; [intros ->; vm_compute in Hdot; discriminate|done]].
  unfold join. replace (starts_with [47]%N id) with false.
  - unfold components. rewrite split_byte_free by done. simpl.
    by rewrite !bool_decide_eq_false_2.
  - destruct id as [|b id]; [done|]. apply not_elem_of_cons in H47 as [Hb _].
    change (false = (47 =? b)%N && starts_with [] id). by rewrite (proj2 (N.eqb_neq _ _) Hb).
Qed.

(** ** Where the journal writes *)

Definition below (r p : path) : Prop := ∃ t, p = r ++ t.

(** The request changes only paths of which [W] holds, and removes only trees of
    which [R] holds. *)
Definition writes_in (W R : path → Prop) (X : Type) (q : jreq X) : Prop :=
  match q with
  | CreateDirAll p | CreateDir p | CreateFile p => W p
  | Rename p p' => W p ∧ W p'
  | RemoveDirAll p => R p
  | _ => True
  end.

Lemma below_app r t : below r (r ++ t).
Proof. by exists t. Qed.
#[local] Hint Resolve below_app : core.

(** Programs that only read. *)
Definition reads (X : Type) (q : jreq X) : Prop := ∀ W R, writes_in W R X q.

Ltac all_requests :=
  repeat first
    [ progress requests
    | progress cbn zeta
    | match goal with
      | |- all_req _ (Do _ _) => split
      | |- all_req _ (if ?b then _ else _) => destruct b
      | |- ∀ _, _ => intro
      end
    | done ].

Section confined.
Context (enc_request : RequestRecord → result bytes bytes) (dec_request : bytes → result RequestRecord bytes)
  (enc_exit : ExitRecord → result bytes bytes) (dec_exit : bytes → result ExitRecord bytes).

Lemma atomic_confined R d name b : all_req (writes_in (below d) R) (atomic_write d name b).
Proof. unfold atomic_write. all_requests; cbn; auto. Qed.

Lemma degraded_confined R e reason : all_req (writes_in (below (dir e)) R) (mark_degraded e reason).
Proof. unfold mark_degraded. apply all_req_bind; [apply atomic_confined|by intros]. Qed.

Lemma json_confined R d name b : all_req (writes_in (below d) R) (atomic_write_json d name b).
Proof. destruct b; [apply atomic_confined|done]. Qed.

Lemma alive_reads e : all_req reads (appears_live dec_request e).
Proof.
  unfold appears_live, command_live, owner_pid, pid, read_number, process_is_alive, since_created, request, read_json,
    unix_ms, elapsed. all_requests.
Qed.

Lemma state_reads e cmd : all_req reads (state_for dec_request dec_exit e cmd).
Proof.
  unfold state_for, wrapper_state, command_state, owner_pid, pid, read_number, process_is_alive, request, exit,
    read_json, unix_ms.
  all_requests.
Qed.

Lemma newest_reads d l n : all_req reads (newest_of d l n).
Proof. revert n. induction l as [|x l IH]; intros n; [done|]. apply all_req_bind; [done|intros; apply IH]. Qed.

Lemma age_reads d now : all_req reads (record_age_ms dec_request dec_exit d now).
Proof.
  assert (Hd : all_req reads (dead_record_age_ms dec_request d now)).
  { unfold dead_record_age_ms. destruct (from_dir d) as [e|]; [|done].
    apply all_req_bind; [apply alive_reads|]. intros []; [done|].
    apply all_req_bind.
    { unfold newest_activity_unix_ms. apply all_req_bind; [done|]. intros []; [|done].
      apply all_req_bind; [apply newest_reads|done]. }
    intros []; [done|]. unfold request, read_json, elapsed. all_requests. }
  unfold record_age_ms. apply all_req_bind; [done|]. intros [b|]; [|done]. by destruct (dec_exit b).
Qed.

Lemma active_reads j : all_req reads (active_count dec_request j).
Proof.
  unfold active_count. apply all_req_bind; [done|]. intros [l|]; [|done]. generalize 0%N.
  induction l as [|n l IH]; intros c; [done|]. apply all_req_bind; [|intros; apply IH].
  unfold active_one. apply all_req_bind; [done|]. intros [[]|]; [|done..].
  apply all_req_bind; [done|]. intros []; [done|]. apply all_req_bind; [done|]. intros []; [done|].
  destruct (from_dir _); [apply alive_reads|done].
Qed.

Lemma reads_confined {A} W R (p : jprog A) : all_req reads p → all_req (writes_in W R) p.
Proof. apply all_req_mono. intros X q Hq. apply Hq. Qed.

Lemma gc_confined j W :
  all_req (writes_in W (fun p => ∃ n, p = root j ++ [n])) (gc_expired dec_request dec_exit j).
Proof.
  unfold gc_expired. apply all_req_bind; [done|]. intros [l|]; [|done].
  apply all_req_bind; [by unfold unix_ms; all_requests|]. intros now.
  induction l as [|n l IH]; [done|]. apply all_req_bind; [|intros; apply IH].
  unfold gc_one. apply all_req_bind; [done|]. intros [[]|]; [|done..].
  apply all_req_bind; [apply reads_confined, age_reads|]. intros [a|]; [|done].
  destruct (_ <=? _); [|done]. apply all_req_bind; [|done]. split; [by exists n|done].
Qed.

Lemma finish_confined R e code : all_req (writes_in (below (dir e)) R) (finish enc_exit e code).
Proof. unfold finish, unix_ms. apply all_req_bind; [by all_requests|]. intros. apply json_confined. Qed.

Lemma degrade_confined R e what r : all_req (writes_in (below (dir e)) R) (degrade_on e what r).
Proof. destruct r; [done|apply degraded_confined]. Qed.

Lemma wrapper_confined R e cmd timeout :
  all_req (writes_in (below (dir e)) R) (run_wrapper enc_exit e cmd timeout).
Proof.
  unfold run_wrapper. apply all_req_bind; [done|]. intros own.
  apply all_req_bind; [apply atomic_confined|]. intros w. apply all_req_bind; [apply degrade_confined|].
  intros _. destruct cmd; [done|]. apply all_req_try; [done|]. intros _.
  apply all_req_bind.
  { unfold record_child. apply all_req_bind; [done|]. intros [p|]; [|done].
    apply all_req_bind; [apply atomic_confined|]. intros w'. apply all_req_bind; [apply degrade_confined|].
    intros _. apply all_req_bind; [by unfold process_start_ticks; all_requests|]. intros [t|]; [|done].
    apply all_req_bind; [apply atomic_confined|done]. }
  intros _. apply all_req_bind; [done|]. intros []; [|done]. apply all_req_bind; [done|]. intros []; [|done].
  do 2 (apply all_req_bind; [done|intros _]).
  apply all_req_try; [by unfold await_child, kill_process_group; all_requests|]. intros code.
  do 2 (apply all_req_bind; [done|intros _]). apply all_req_bind; [apply finish_confined|]. intros f.
  apply all_req_bind; [apply degrade_confined|done].
Qed.

Lemma chunk_confined R e name f n chunk :
  all_req (writes_in (below (dir e)) R) (capture_chunk e name f n chunk).
Proof.
  unfold capture_chunk. destruct (_ <? _)%N.
  - apply all_req_bind; [done|]. intros []; [destruct (_ <? _)%N; [|done]|].
    + apply all_req_bind; [done|]. intros w. apply all_req_bind; [apply degrade_confined|done].
    + apply all_req_bind; [apply degraded_confined|done].
  - apply all_req_bind; [done|]. intros w. apply all_req_bind; [apply degrade_confined|done].
Qed.

Lemma capture_confined R turns e name :
  all_req (writes_in (below (dir e)) R) (capture_output turns e name).
Proof.
  unfold capture_output. apply all_req_bind; [split; [cbn; auto|done]|]. intros c.
  apply all_req_bind; [destruct c; [done|apply all_req_bind; [apply degraded_confined|done]]|]. intros file.
  apply all_req_bind; [|intros []; all_requests].
  generalize 0%N true. revert file. induction turns as [|turns IH]; intros file n live; [by apply all_req_bind|].
  apply all_req_bind; [done|]. intros [[|b chunk]|]; [done| |done].
  apply all_req_bind; [by destruct live; all_requests|]. intros live'. destruct file as [f|]; [|apply IH].
  apply all_req_bind; [apply chunk_confined|]. intros. apply IH.
Qed.

Lemma cancel_reads e : all_req reads (cancel dec_exit e).
Proof.
  unfold cancel. generalize (None : option io_error). generalize 10%nat. intros n. induction n as [|n IH]; intros err; [done|].
  apply all_req_bind; [|intros [|]; [done|]; apply all_req_bind; [done|intros; apply IH]].
  unfold cancel_turn, exit, read_json, pid, pid_start, read_number, process_start_ticks, kill_process_group.
  all_requests.
Qed.

Lemma marker_confined R j e cmd :
  all_req (writes_in (below (dir e)) R) (claim_marker enc_request dec_request j e cmd).
Proof.
  unfold claim_marker. apply all_req_bind; [split; [exists []; by rewrite app_nil_r|done]|].
  intros []; [|by case_bool_decide].
  apply all_req_bind; [apply reads_confined, active_reads|]. intros n. destruct (_ <? _)%N.
  - apply all_req_bind; [apply degraded_confined|done].
  - apply all_req_bind; [by unfold unix_ms; all_requests|]. intros now.
    apply all_req_bind; [apply json_confined|]. intros []; [done|].
    apply all_req_bind; [apply degraded_confined|done].
Qed.

(** Requests only reach the journal's own directories.  Starting under an id
    makes the root, removes only entries of the root, and writes only in the
    entry of the id; an id that is accepted for a cancellation names one entry
    below the root and nothing else, a cancellation writes nothing, and a wrapper
    and its captures write only in their entry. *)
Theorem journal_confined j :
  (∀ id cmd,
     all_req (writes_in (fun p => p = root j ∨ below (root j ++ [id]) p) (fun p => ∃ n, p = root j ++ [n]))
       (attach_or_start enc_request dec_request dec_exit j id cmd)) ∧
  (∀ id e, existing_entry j id = Ok e →
     dir e = root j ++ [id] ∧ id ≠ dotdot ∧ id ≠ dot ∧ 47%N ∉ id ∧
     all_req reads (cancel dec_exit e) ∧
     ∀ cmd timeout turns name,
       all_req (writes_in (below (dir e)) (fun _ => False)) (run_wrapper enc_exit e cmd timeout) ∧
       all_req (writes_in (below (dir e)) (fun _ => False)) (capture_output turns e name)).
Proof.
  split.
  - intros id cmd. unfold attach_or_start, validate_exec_id. destruct (valid_exec_id id) eqn:Hv; [|done].
    apply (valid_id_joins (root j)) in Hv as [-> _]. set (e := MkEntry (root j ++ [id]) id).
    apply all_req_bind; [split; [by left|done]|]. intros []; [|done].
    apply all_req_bind; [apply gc_confined|]. intros _.
    eapply all_req_mono, (marker_confined (fun p => ∃ n, p = root j ++ [n])).
    intros X []; cbn; intuition.
  - intros id e. unfold existing_entry, validate_exec_id. destruct (valid_exec_id id) eqn:Hv; [|done].
    apply (valid_id_joins (root j)) in Hv as (->&?&?&?). intros [= <-].
    split_and!; [done..|apply cancel_reads|]. split; [apply wrapper_confined|apply capture_confined].
Qed.

End confined.

(** ** Records the collection keeps *)

(** Instants whose milliseconds fit 64 bits. *)
Definition INSTANTS : Z := 2 ^ 64 * 1000000.

Lemma millis_small t : 0 ≤ t < INSTANTS → millis t = t / 1000000.
Proof.
  unfold INSTANTS, millis. intros Ht. apply Z.mod_small. split; [apply Z.div_pos; lia|].
  apply Z.div_lt_upper_bound; lia.
Qed.

Lemma millis_mono a b : 0 ≤ a ≤ b → b < INSTANTS → millis a ≤ millis b.
Proof. intros Ha Hb. rewrite !millis_small by lia. apply Z.div_le_mono; lia. Qed.

Lemma millis_pos a : 0 ≤ millis a.
Proof. apply Z.mod_pos_bound. lia. Qed.

(** Why a record is to be kept: its command runs, its directory was made a
    moment ago, it is complete, or a file of it was written. *)
Inductive protection : Type :=
| Recording (p : N)
| Starting (made : Z)
| Finished (x : ExitRecord)
| WrittenAt (name : bytes) (t : Z).

Section kept.
Context (enc_request : RequestRecord → result bytes bytes) (dec_request : bytes → result RequestRecord bytes)
  (enc_exit : ExitRecord → result bytes bytes) (dec_exit : bytes → result ExitRecord bytes).
Context (d : path) (prot : protection) (T : Z).


Definition not_found {A} (r : io A) : Prop :=
  match r with Err e => kind e = NotFound | Ok _ => False end.

(** What a file of the record reads as while it is protected. *)
Definition reads_as (name : bytes) (r : io bytes) : Prop :=
  (name = exit_json →
     match prot with
     | Finished x => parse_json dec_exit r = Ok x
     | _ => ∀ x, parse_json dec_exit r ≠ Ok x
     end) ∧
  match prot with
  | Recording p =>
      (name = lit "pid" → parse_number u32_max r = Ok p) ∧
      (name = lit "owner_pid" → match parse_number u32_max r with Ok _ => True | Err e => kind e = NotFound end)
  | Starting _ =>
      (name = lit "pid" → not_found (parse_number u32_max r)) ∧
      (name = lit "owner_pid" → not_found (parse_number u32_max r)) ∧
      (name = request_json → ∀ x, parse_json dec_request r ≠ Ok x)
  | _ => True
  end.

(** The answers while the record at [d] is protected, until the instant [T]. *)
Definition protects (h : hist) (X : Type) (q : jreq X) : X → Prop :=
  match q in jreq X return X → Prop with
  | SystemNow => fun now => 0 ≤ now ≤ T
  | Signal0 p => fun alive => prot = Recording p → alive = true
  | ReadFile f => fun r => ∀ name, f = d ++ [name] → reads_as name r
  | ReadDir p => fun r =>
      match prot with
      | WrittenAt n _ => p = d → ∃ l, r = Ok l ∧ n ∈ l
      | _ => True
      end
  | Metadata p => fun r =>
      (∀ m t, r = Ok m → modified m = Ok t → t < INSTANTS) ∧
      match prot with
      | Starting t => p = d → ∃ m t', r = Ok m ∧ modified m = Ok t' ∧ t ≤ t'
      | WrittenAt n t => p = d ++ [n] → ∃ m t', r = Ok m ∧ modified m = Ok t' ∧ t ≤ t'
      | _ => True
      end
  | _ => fun _ => True
  end.

(** The protection lasts until [T]. *)
Definition lasts (ttl : Duration) : Prop :=
  0 ≤ T < INSTANTS ∧
  match prot with
  | Recording p => (p ≤ i32_max)%N
  | Starting t => 0 ≤ T - t < 5000 * 1000000
  | Finished x => saturating_sub (millis T) (finished_at_unix_ms x) < millis ttl
  | WrittenAt _ t => 0 ≤ t ∧ saturating_sub (millis T) (millis t) < millis ttl
  end.

Definition not_removed (h : hist) (X : Type) (q : jreq X) : Prop :=
  match q with RemoveDirAll p => p ≠ d | _ => True end.

Lemma wp_reads {A} h (p : jprog A) : all_req reads p → wp protects not_removed h p (fun _ _ => True).
Proof.
  intros Hp. eapply wp_can, wp_only; [|exact Hp|done]. intros h' X q Hq.
  specialize (Hq (fun _ => True) (fun p => p ≠ d)). by destruct q.
Qed.

(** The name of a file of the record says which it is. *)
Lemma wp_read h name (Q : hist → io bytes → Prop) :
  (∀ h r, reads_as name r → Q h r) → wp protects not_removed h (ask (ReadFile (d ++ [name]))) Q.
Proof. intros HQ. apply wp_ask; [done|]. intros r Hr. apply HQ, Hr. done. Qed.

Lemma wp_read_number h max name (Q : hist → io N → Prop) :
  (∀ h r, reads_as name r → Q h (parse_number max r)) →
  wp protects not_removed h (read_number max (d ++ [name])) Q.
Proof. intros HQ. apply wp_bind, wp_read. intros h' r Hr. by apply wp_ret, HQ. Qed.

Lemma wp_now h (Q : hist → Z → Prop) :
  0 ≤ T < INSTANTS → (∀ h now, 0 ≤ now ≤ millis T → Q h now) →
  wp protects not_removed h unix_ms Q.
Proof.
  intros HT HQ. apply wp_bind, wp_ask; [done|]. intros now Hn. cbn in Hn. apply wp_ret, HQ. rewrite Z.max_r by lia.
  split; [apply millis_pos|]. apply millis_mono; lia.
Qed.

(** The pids of a record that is running, and of one that starts. *)
Lemma recorded_pid p r : prot = Recording p → reads_as (lit "pid") r → parse_number u32_max r = Ok p.
Proof. intros E [_ H]. rewrite E in H. by apply H. Qed.

Lemma recorded_owner p r :
  prot = Recording p → reads_as (lit "owner_pid") r →
  match parse_number u32_max r with Ok _ => True | Err e => kind e = NotFound end.
Proof. intros E [_ H]. rewrite E in H. by apply H. Qed.

Lemma unrecorded t name r :
  prot = Starting t → name = lit "pid" ∨ name = lit "owner_pid" → reads_as name r →
  ∃ e, parse_number u32_max r = Err e ∧ kind e = NotFound.
Proof.
  intros E Hn [_ H]. rewrite E in H. destruct H as (H1&H2&_).
  assert (Hf : not_found (parse_number u32_max r)) by (destruct Hn; auto).
  destruct (parse_number u32_max r) as [|e]; [done|by exists e].
Qed.

(** A record whose command runs is seen live. *)
Lemma recording_live p id h :
  prot = Recording p → (p ≤ i32_max)%N →
  wp protects not_removed h (appears_live dec_request (MkEntry d id)) (fun _ live => live = true).
Proof.
  intros Ep Hp. unfold appears_live.
  assert (Hcmd : ∀ h, wp protects not_removed h (command_live dec_request (MkEntry d id)) (fun _ live => live = true)).
  { intros h'. apply wp_bind, wp_read_number. intros h2 r Hr. rewrite (recorded_pid _ _ Ep Hr).
    unfold process_is_alive. replace (i32_max <? p)%N with false by (symmetry; by apply N.ltb_ge).
    apply wp_ask; [done|]. intros b Hb. by apply Hb. }
  apply wp_bind, wp_read_number. intros h' r Hr. pose proof (recorded_owner _ _ Ep Hr) as Ho.
  destruct (parse_number u32_max r) as [o|e].
  - apply wp_bind. eapply wp_mono; [|apply wp_reads; by unfold process_is_alive; all_requests].
    intros h2 [] _; [by apply wp_ret|apply Hcmd].
  - rewrite bool_decide_eq_true_2 by done. apply Hcmd.
Qed.

(** The directory of a start is seen live for five seconds. *)
Lemma starting_live t id h :
  prot = Starting t → 0 ≤ T - t < 5000 * 1000000 →
  wp protects not_removed h (appears_live dec_request (MkEntry d id)) (fun _ live => live = true).
Proof.
  intros Ep Ht. unfold appears_live, command_live. apply wp_bind, wp_read_number. intros h' r Hr.
  destruct (unrecorded t _ r Ep (or_intror eq_refl) Hr) as (e&->&He).
  rewrite bool_decide_eq_true_2 by done. apply wp_bind, wp_read_number. intros h2 r2 Hr2.
  destruct (unrecorded t _ r2 Ep (or_introl eq_refl) Hr2) as (e2&->&He2).
  rewrite bool_decide_eq_true_2 by done. apply wp_bind. unfold since_created, request, read_json.
  apply wp_bind, wp_bind, wp_read. intros h3 r3 [_ Hr3]. rewrite Ep in Hr3. apply wp_ret.
  destruct (parse_json dec_request r3) as [q|e3]; [by destruct (proj2 (proj2 Hr3) eq_refl q)|].
  apply wp_bind, wp_ask; [done|]. intros m [_ Hm]. rewrite Ep in Hm.
  destruct (Hm eq_refl) as ([a b c]&t'&->&Ht'&Hle). cbn in Ht'. subst c.
  apply wp_bind. unfold elapsed. apply wp_bind, wp_ask; [done|]. intros now Hn. cbn in Hn.
  apply wp_ret, wp_ret, wp_ret. destruct (now <? t') eqn:E; [done|]. apply Z.ltb_ge in E. apply Z.ltb_lt.
  rewrite millis_small by (unfold INSTANTS; lia). apply Z.div_lt_upper_bound; lia.
Qed.

(** A file that was written bounds the newest activity. *)
Lemma newest_seen n t h l acc :
  prot = WrittenAt n t → (∀ c, acc = Some c → c < INSTANTS) →
  n ∈ l ∨ (∃ c, acc = Some c ∧ t ≤ c) →
  wp protects not_removed h (newest_of d l acc) (fun _ r => ∃ c, r = Some c ∧ t ≤ c < INSTANTS).
Proof.
  intros Ep. revert h acc. induction l as [|x l IH]; intros h acc Hacc Hn.
  { destruct Hn as [Hn|(c&->&Hc)]; [by apply not_elem_of_nil in Hn|]. apply wp_ret. exists c. auto. }
  apply wp_bind, wp_ask; [done|]. intros r [Hr Hw]. rewrite Ep in Hw. apply IH.
  - intros c. destruct r as [[a b [m|]]|]; [|apply Hacc..]. specialize (Hr _ m eq_refl eq_refl).
    destruct acc as [c'|]; intros [= <-]; [specialize (Hacc c' eq_refl); lia|done].
  - destruct Hn as [[->|Hn]%elem_of_cons|(c&->&Hc)]; [|by left|].
    + right. destruct (Hw eq_refl) as ([a b m]&t'&->&Ht'&Hle). cbn in Ht'. subst m.
      destruct acc; eexists; (split; [reflexivity|lia]).
    + right. destruct r as [[a b [m|]]|]; eexists; (split; [reflexivity|lia]).
Qed.

Lemma written_age n t h now :
  prot = WrittenAt n t → 0 ≤ t →
  wp protects not_removed h (newest_activity_unix_ms d)
    (fun _ a => ∃ c, a = Some c ∧ saturating_sub now c ≤ saturating_sub now (millis t)).
Proof.
  intros Ep Ht. apply wp_bind, wp_ask; [done|]. intros l Hl. cbn in Hl. rewrite Ep in Hl.
  destruct (Hl eq_refl) as (names&->&Hn). apply wp_bind. eapply wp_mono.
  2: { apply (newest_seen n t); [done..|by left]. }
  intros h' a (c&->&Hc). apply wp_ret. exists (millis c). simpl.
  replace (c <? 0) with false by (symmetry; apply Z.ltb_ge; lia). split; [done|].
  assert (millis t ≤ millis c) by (apply millis_mono; lia). unfold saturating_sub. lia.
Qed.

Lemma from_dir_at e : from_dir d = Ok e → e = MkEntry d (exec_id e).
Proof.
  unfold from_dir. destruct (existsb _ d); [done|]. destruct (file_name d ≫= from_utf8) as [i|]; [|done].
  destruct (validate_exec_id i); [|done]. by intros [= <-].
Qed.

(** A protected record has no age at which it is collected. *)
Lemma protected_dead_age ttl h now :
  lasts ttl → (∀ x, prot ≠ Finished x) → 0 ≤ now ≤ millis T →
  wp protects not_removed h (dead_record_age_ms dec_request d now)
    (fun _ a => match a with Some a => a < millis ttl | None => True end).
Proof.
  intros [HT Hl] Hx Hn. unfold dead_record_age_ms. destruct (from_dir d) as [e|] eqn:Ef; [|by apply wp_ret].
  rewrite (from_dir_at e Ef). apply wp_bind. destruct prot as [p|t|x|n t] eqn:Ep; [| |by destruct (Hx x)|].
  - eapply wp_mono, (recording_live p _ _ Ep Hl). intros h' ? ->. by apply wp_ret.
  - eapply wp_mono, (starting_live t _ _ Ep Hl). intros h' ? ->. by apply wp_ret.
  - eapply wp_mono, wp_reads, alive_reads. intros h' [] _; [by apply wp_ret|]. apply wp_bind.
    destruct Hl as [Ht Hl]. eapply wp_mono, (written_age n t _ now Ep Ht). intros h2 a (c&->&Hc).
    apply wp_ret. unfold saturating_sub in *. lia.
Qed.

Lemma protected_age ttl h now :
  lasts ttl → 0 ≤ now ≤ millis T →
  wp protects not_removed h (record_age_ms dec_request dec_exit d now)
    (fun _ a => match a with Some a => a < millis ttl | None => True end).
Proof.
  intros Hl Hn. apply wp_bind, wp_read. intros h' r [Hr _]. specialize (Hr eq_refl).
  destruct prot as [p|t|x|n t] eqn:Ep.
  3: { destruct r as [b|]; [|done]. cbn in Hr. destruct (dec_exit b) as [y|]; [|done]. injection Hr as ->.
       apply wp_ret. destruct Hl as [_ Hl]. rewrite Ep in Hl. unfold saturating_sub in *. lia. }
  all: assert (Hd : ∀ x, prot ≠ Finished x) by (by rewrite Ep).
  all: destruct r as [b|]; [|by apply protected_dead_age].
  all: cbn in Hr; destruct (dec_exit b) as [y|]; [by destruct (Hr y)|by apply protected_dead_age].
Qed.

(** Nothing else of a start removes a directory. *)
Lemma gc_keeps j h : lasts (ttl j) → wp protects not_removed h (gc_expired dec_request dec_exit j) (fun _ _ => True).
Proof.
  intros Hl. apply wp_bind, wp_ask; [done|]. intros [l|] _; [|by apply wp_ret].
  apply wp_bind, wp_now; [apply Hl|]. intros h' now Hn. revert h'.
  induction l as [|n l IH]; intros h'; [by apply wp_ret|]. apply wp_bind.
  apply (wp_mono _ _ _ _ (fun _ _ => True)); [intros; apply IH|]. apply wp_bind, wp_ask; [done|]. intros [[]|] _; [|by apply wp_ret..].
  apply wp_bind. destruct (decide (root j ++ [n] = d)) as [->|Hne].
  - eapply wp_mono, (protected_age (ttl j)); [|done..]. intros h2 [a|] Ha; [|by apply wp_ret].
    replace (_ <=? a) with false by (symmetry; by apply Z.leb_gt). by apply wp_ret.
  - eapply wp_mono, wp_reads, age_reads. intros h2 [a|] _; [|by apply wp_ret].
    destruct (_ <=? a); [|by apply wp_ret]. by apply wp_bind, wp_ask.
Qed.

Lemma start_keeps j id cmd h :
  lasts (ttl j) →
  wp protects not_removed h (attach_or_start enc_request dec_request dec_exit j id cmd) (fun _ _ => True).
Proof.
  intros Hl. unfold attach_or_start. destruct (validate_exec_id id); [|by apply wp_ret].
  apply wp_bind, wp_ask; [done|]. intros [] _; [|by apply wp_ret].
  apply wp_bind. eapply wp_mono, gc_keeps, Hl. intros h' _ _.
  eapply wp_can, wp_only; [|apply (marker_confined _ _ (fun _ => False))|done].
  intros h2 X q Hq. by destruct q.
Qed.

End kept.

(** ** What a cancellation kills *)

Section cancelled.
Context (dec_exit : bytes → result ExitRecord bytes) (e : JournalEntry).

Definition is_kill (ev : event jreq) : bool :=
  match ev_req ev with KillGroup _ => true | _ => false end.

(** The recorded identity of [p] and the one it has now do not differ. *)
Definition same_process (recorded stat : io bytes) : Prop :=
  ∀ a s c, parse_number u64_max recorded = Ok a → utf8_text stat = Ok s → start_ticks s = Some c → a = c.

(** The four readings that precede a kill. *)
Definition about_to_kill (h : hist) (p : N) : Prop := ∃ h0 r0 r1 r2 r3,
  h = h0 ++ [Ev (ReadFile (dir e ++ [exit_json])) r0; Ev (ReadFile (dir e ++ [lit "pid"])) r1;
             Ev (ReadFile (dir e ++ [lit "pid_start"])) r2; Ev (ProcStat p) r3] ∧
  (∀ x, parse_json dec_exit r0 ≠ Ok x) ∧ parse_number u32_max r1 = Ok p ∧ (p ≤ i32_max)%N ∧
  same_process r2 r3.

(** Nothing follows a kill, and a kill follows its readings. *)
Definition kills_ours (h : hist) (X : Type) (q : jreq X) : Prop :=
  existsb is_kill h = false ∧
  match q with KillGroup p => about_to_kill h p | _ => True end.

(** Why a cancellation succeeds: the command has ended, its pid is another
    process now, or its group was killed or is gone. *)
Definition cancelled (h : hist) (res : io unit) : Prop :=
  res = Ok tt → ∃ h0,
    (∃ r x, h = h0 ++ [Ev (ReadFile (dir e ++ [exit_json])) r] ∧ parse_json dec_exit r = Ok x) ∨
    (∃ p r2 r3, h = h0 ++ [Ev (ReadFile (dir e ++ [lit "pid_start"])) r2; Ev (ProcStat p) r3] ∧
                ¬ same_process r2 r3) ∨
    (∃ p r, h = h0 ++ [Ev (KillGroup p) r] ∧ (r = Ok tt ∨ r = Err ESRCH)).

Lemma no_kill_snoc h ev : existsb is_kill h = false → is_kill ev = false → existsb is_kill (h ++ [ev]) = false.
Proof. intros H1 H2. rewrite existsb_app, H1. simpl. by rewrite H2. Qed.

Lemma kill_wp h p :
  existsb is_kill h = false → ((p ≤ i32_max)%N → about_to_kill h p) →
  wp anything kills_ours h (kill_process_group (Some p)) cancelled.
Proof.
  intros Hk Ha. unfold kill_process_group. destruct (i32_max <? p)%N eqn:Hp; [by apply wp_ret|].
  apply N.ltb_ge in Hp. apply wp_bind, wp_ask; [by split; auto|]. intros r _. apply wp_ret. intros Hr.
  exists h. right. right. exists p, r. split; [done|]. destruct r as [[]|[|t]]; auto. done.
Qed.

(** A turn ends the cancellation, or has killed nothing. *)
Definition turned (h : hist) (r : result (io unit) io_error) : Prop :=
  match r with Ok res => cancelled h res | Err _ => existsb is_kill h = false end.

Lemma turn_wp h :
  existsb is_kill h = false →
  wp anything kills_ours h (cancel_turn dec_exit e) turned.
Proof.
  intros Hk. unfold cancel_turn, exit, read_json, pid, pid_start, read_number, process_start_ticks.
  apply wp_bind, wp_bind, wp_ask; [done|]. intros r0 _. apply wp_ret.
  assert (Hk0 := no_kill_snoc h (Ev (ReadFile (dir e ++ [exit_json])) r0) Hk eq_refl).
  destruct (parse_json dec_exit r0) as [x|err] eqn:E0.
  { apply wp_ret. intros _. exists h. left. by exists r0, x. }
  apply wp_bind, wp_bind, wp_ask; [done|]. intros r1 _. apply wp_ret.
  assert (Hk1 := no_kill_snoc _ (Ev (ReadFile (dir e ++ [lit "pid"])) r1) Hk0 eq_refl).
  destruct (parse_number u32_max r1) as [p|err1] eqn:E1; [|by apply wp_ret].
  apply wp_bind, wp_bind, wp_ask; [done|]. intros r2 _. apply wp_ret.
  assert (Hk2 := no_kill_snoc _ (Ev (ReadFile (dir e ++ [lit "pid_start"])) r2) Hk1 eq_refl).
  apply wp_bind, wp_bind, wp_ask; [done|]. intros r3 _. apply wp_ret.
  assert (Hk3 := no_kill_snoc _ (Ev (ProcStat p) r3) Hk2 eq_refl).
  assert (Hkill : same_process r2 r3 → wp anything kills_ours
    ((((h ++ [Ev (ReadFile (dir e ++ [exit_json])) r0]) ++ [Ev (ReadFile (dir e ++ [lit "pid"])) r1]) ++
      [Ev (ReadFile (dir e ++ [lit "pid_start"])) r2]) ++ [Ev (ProcStat p) r3])
    (k ← kill_process_group (Some p); Ret (Ok k))
    turned).
  { intros Hs. apply wp_bind. eapply wp_mono, kill_wp; [intros h' k Hc; by apply wp_ret|done|].
    intros Hp. exists h, r0, r1, r2, r3. rewrite <- !app_assoc. split_and!; try done. intros x. by rewrite E0. }
  destruct (parse_number u64_max r2) as [a|] eqn:E2; [|apply Hkill; intros ???; congruence].
  destruct (utf8_text r3) as [s|] eqn:E3; [|apply Hkill; intros ????; congruence].
  destruct (start_ticks s) as [c|] eqn:E4; [|apply Hkill; intros ?????; congruence].
  destruct (c =? a)%N eqn:Ec; simpl.
  - apply N.eqb_eq in Ec as ->. apply Hkill. intros ??????. congruence.
  - apply wp_ret. intros _. eexists. right. left. exists p, r2, r3. rewrite <- (app_assoc _ [_] [_]). split; [done|].
    intros Hs. apply N.eqb_neq in Ec. specialize (Hs a s c E2 E3 E4). done.
Qed.

Lemma cancel_wp h : existsb is_kill h = false → wp anything kills_ours h (cancel dec_exit e) cancelled.
Proof.
  unfold cancel. generalize (None : option io_error). generalize 10%nat. intros n. revert h.
  induction n as [|n IH]; intros h last Hk; [by apply wp_ret|].
  apply wp_bind. eapply wp_mono, turn_wp, Hk. intros h' [res|err] H'; [by apply wp_ret|].
  apply wp_bind, wp_ask; [done|]. intros u _. apply IH. by apply no_kill_snoc.
Qed.

End cancelled.

(** ** What a capture persists *)

(** The output a capture has read. *)
Definition ev_read (ev : event jreq) : bytes :=
  match ev with
  | @Ev _ X q x =>
      match q in jreq X return X → bytes with
      | ReadPipe => fun r => match r with Ok b => b | Err _ => [] end
      | _ => fun _ => []
      end x
  end.

(** What it has written to the file [f], and to the live stream. *)
Definition ev_written (f : N) (ev : event jreq) : bytes :=
  match ev_req ev with WriteAll g b => if (g =? f)%N then b else [] | _ => [] end.
Definition ev_live (ev : event jreq) : bytes :=
  match ev_req ev with WriteLive b => b | _ => [] end.

(** A write to [f], or to the live stream, failed. *)
Definition ev_failed (f : N) (ev : event jreq) : bool :=
  match ev with
  | @Ev _ X q x =>
      match q in jreq X return X → bool with
      | WriteAll g _ => fun r => (g =? f)%N && negb (is_ok r)
      | _ => fun _ => false
      end x
  end.
Definition ev_live_failed (ev : event jreq) : bool :=
  match ev with
  | @Ev _ X q x =>
      match q in jreq X return X → bool with
      | WriteLive _ => fun r => negb (is_ok r)
      | _ => fun _ => false
      end x
  end.

Definition read_of (h : hist) : bytes := concat (ev_read <$> h).
Definition written_of (f : N) (h : hist) : bytes := concat (ev_written f <$> h).
Definition live_of (h : hist) : bytes := concat (ev_live <$> h).
Definition failed_of (f : N) (h : hist) : bool := existsb (ev_failed f) h.
Definition live_failed_of (h : hist) : bool := existsb ev_live_failed h.

Definition ev_creates (ev : event jreq) : option N :=
  match ev with
  | @Ev _ X q x =>
      match q in jreq X return X → option N with
      | CreateFile _ => fun r => match r with Ok f => Some f | Err _ => None end
      | _ => fun _ => None
      end x
  end.

(** A handle that is answered was not answered before. *)
Definition fresh_handles (h : hist) (X : Type) (q : jreq X) (x : X) : Prop :=
  ∀ f, ev_creates (Ev q x) = Some f → Forall (fun ev => ev_creates ev ≠ Some f) h.

(** The output, or its first [data_cap] bytes and the marker. *)
Definition capped (out : bytes) : bytes :=
  if (N.of_nat (length out) <=? data_cap)%N then out
  else take (N.to_nat data_cap) out ++ OUTPUT_TRUNCATED_MARKER.

Lemma cap_room : (data_cap + N.of_nat (length OUTPUT_TRUNCATED_MARKER) = OUTPUT_CAP_BYTES)%N.
Proof. reflexivity. Qed.

Lemma concat_snoc {A B} (g : A → list B) h x : concat (g <$> h ++ [x]) = concat (g <$> h) ++ g x.
Proof. rewrite fmap_app, concat_app. cbn. by rewrite app_nil_r. Qed.

Lemma exists_snoc {A} (g : A → bool) h x : existsb g (h ++ [x]) = existsb g h || g x.
Proof. rewrite existsb_app. cbn. by rewrite orb_false_r. Qed.

(** Output past the cap changes nothing. *)
Lemma capped_more out more :
  (data_cap < N.of_nat (length out))%N → capped (out ++ more) = capped out.
Proof.
  intros H. unfold capped. rewrite length_app.
  rewrite !(proj2 (N.leb_gt _ _)) by lia. by rewrite take_app_le by lia.
Qed.

Lemma capped_over out chunk :
  (N.of_nat (length out) ≤ data_cap)%N → (data_cap < N.of_nat (length (out ++ chunk)))%N →
  capped (out ++ chunk) =
    (out ++ take (N.to_nat (data_cap - N.of_nat (length out))) chunk) ++ OUTPUT_TRUNCATED_MARKER.
Proof.
  intros H1 H2. unfold capped. rewrite (proj2 (N.leb_gt _ _)) by lia. f_equal.
  rewrite take_app_ge by lia. do 2 f_equal. lia.
Qed.

Lemma capped_bound out : (N.of_nat (length (capped out)) ≤ OUTPUT_CAP_BYTES)%N.
Proof.
  rewrite <- cap_room. unfold capped. destruct (_ <=? _)%N eqn:E; [apply N.leb_le in E; lia|].
  rewrite length_app, length_take. lia.
Qed.

Section captured.
Context (f : N).

(** The events that are not the capture's own: files of other handles. *)
Definition aside (ev : event jreq) : Prop :=
  ev_read ev = [] ∧ ev_written f ev = [] ∧ ev_live ev = [] ∧ ev_failed f ev = false ∧ ev_live_failed ev = false.

Lemma concat_nils {A B} (g : A → list B) t : Forall (fun x => g x = []) t → concat (g <$> t) = [].
Proof. induction 1 as [|x t Hx _ IH]; [done|]. cbn. by rewrite Hx. Qed.

Lemma exists_none {A} (g : A → bool) t : Forall (fun x => g x = false) t → existsb g t = false.
Proof. induction 1 as [|x t Hx _ IH]; [done|]. cbn. by rewrite Hx. Qed.

Lemma aside_app h t :
  Forall aside t →
  read_of (h ++ t) = read_of h ∧ written_of f (h ++ t) = written_of f h ∧ live_of (h ++ t) = live_of h ∧
  failed_of f (h ++ t) = failed_of f h ∧ live_failed_of (h ++ t) = live_failed_of h.
Proof.
  intros Ht. unfold read_of, written_of, live_of, failed_of, live_failed_of.
  rewrite !fmap_app, !concat_app, !existsb_app.
  rewrite !(concat_nils _ t) by (eapply Forall_impl; [exact Ht|]; intros ev H; apply H).
  rewrite !(exists_none _ t) by (eapply Forall_impl; [exact Ht|]; intros ev H; apply H).
  by rewrite !app_nil_r, !orb_false_r.
Qed.

(** Marking a record degraded, while [f] is open. *)
Lemma mark_aside h e reason (Q : hist → unit → Prop) :
  Exists (fun ev => ev_creates ev = Some f) h →
  (∀ t, Forall aside t → Q (h ++ t) tt) →
  wp fresh_handles (fun _ _ _ => True) h (mark_degraded e reason) Q.
Proof.
  intros Hf HQ. unfold mark_degraded, atomic_write. apply wp_bind, wp_try, wp_ask; [done|].
  intros [g|err] Hg.
  2: { apply wp_ret. apply (HQ [_]). by repeat constructor. }
  assert (Hne : g ≠ f).
  { intros ->. specialize (Hg f eq_refl). apply Exists_exists in Hf as (ev&Hin&Hev).
    rewrite Forall_forall in Hg. by apply (Hg ev). }
  assert (Ha : ∀ b r, aside (Ev (WriteAll g b) r)).
  { intros b r. unfold aside, ev_written, ev_failed. cbn. rewrite (proj2 (N.eqb_neq _ _) Hne). done. }
  apply wp_try, wp_ask; [done|]. intros [[]|err] _.
  2: { apply wp_ret. rewrite <- app_assoc. apply HQ. repeat constructor; apply Ha. }
  apply wp_try, wp_ask; [done|]. intros [[]|err] _.
  2: { apply wp_ret. rewrite <- !app_assoc. apply HQ. repeat constructor; apply Ha. }
  apply wp_try, wp_ask; [done|]. intros [[]|err] _.
  2: { apply wp_ret. rewrite <- !app_assoc. apply HQ. repeat constructor; apply Ha. }
  apply wp_ask; [done|]. intros r _. apply wp_ret. rewrite <- !app_assoc. apply HQ.
  repeat constructor; apply Ha.
Qed.

(** The file of the loop, what it has persisted and whether the live stream is
    open, against what was read. *)
Definition file_inv (h : hist) (file : option N) (persisted : N) : Prop :=
  match file with
  | Some g => g = f ∧ failed_of f h = false ∧ written_of f h = read_of h ∧
              persisted = N.of_nat (length (read_of h)) ∧ (persisted ≤ data_cap)%N
  | None => (N.of_nat (length (written_of f h)) ≤ OUTPUT_CAP_BYTES)%N ∧
            (failed_of f h = true ∨
             written_of f h = capped (read_of h) ∧ (data_cap < N.of_nat (length (read_of h)))%N)
  end.

Definition live_inv (h : hist) (live : bool) : Prop :=
  if live then live_failed_of h = false ∧ live_of h = read_of h else live_failed_of h = true.

Definition made (h : hist) : Prop := Exists (fun ev => ev_creates ev = Some f) h.

Lemma made_app h t : made h → made (h ++ t).
Proof. unfold made. rewrite Exists_app. by left. Qed.

(** A write to the file. *)
Lemma write_adds h b r :
  let h' := h ++ [Ev (WriteAll f b) r] in
  read_of h' = read_of h ∧ written_of f h' = written_of f h ++ b ∧ live_of h' = live_of h ∧
  failed_of f h' = failed_of f h || negb (is_ok r) ∧ live_failed_of h' = live_failed_of h.
Proof.
  unfold read_of, written_of, live_of, failed_of, live_failed_of. cbn zeta.
  rewrite !concat_snoc, !exists_snoc. unfold ev_written. cbn. rewrite N.eqb_refl. cbn.
  by rewrite !app_nil_r, orb_false_r.
Qed.

(** The chunk has been read and is not in the file yet; [done]: the rest of the
    loop. *)
Definition pending_chunk (h : hist) (persisted : N) (out chunk : bytes) : Prop :=
  read_of h = out ++ chunk ∧ failed_of f h = false ∧ written_of f h = out ∧
  persisted = N.of_nat (length out) ∧ (persisted ≤ data_cap)%N.

Lemma truncate_wp h e what persisted out (live : bool) :
  made h → live_inv h live → failed_of f h = false → capped (read_of h) = out ++ OUTPUT_TRUNCATED_MARKER →
  written_of f h = out → (data_cap < N.of_nat (length (read_of h)))%N →
  wp fresh_handles (fun _ _ _ => True) h
    (w ← ask (WriteAll f OUTPUT_TRUNCATED_MARKER); _ ← degrade_on e what w; Ret (None, persisted))
    (fun h' next => made h' ∧ live_inv h' live ∧ file_inv h' next.1 next.2).
Proof.
  intros Hm Hl Hf Hc Hw Hr. apply wp_bind, wp_ask; [done|]. intros w _.
  destruct (write_adds h OUTPUT_TRUNCATED_MARKER w) as (E1&E2&E3&E4&E5). apply wp_bind.
  set (h1 := h ++ [_]) in *.
  assert (Hend : ∀ t, Forall aside t →
    made (h1 ++ t) ∧ live_inv (h1 ++ t) live ∧ file_inv (h1 ++ t) None persisted).
  { intros t Ht. destruct (aside_app h1 t Ht) as (F1&F2&F3&F4&F5). split; [by apply made_app, made_app|].
    unfold live_inv, file_inv. rewrite F1, F2, F3, F4, F5, E1, E2, E3, E4, E5. split; [done|].
    rewrite Hw, <- Hc. split; [apply capped_bound|]. by right. }
  destruct w as [[]|err]; cbn [degrade_on].
  - apply wp_ret, wp_ret. rewrite <- (app_nil_r h1). by apply Hend.
  - apply mark_aside; [by apply made_app|]. intros t Ht. by apply wp_ret, Hend.
Qed.

Lemma chunk_wp h e name persisted out chunk live :
  made h → live_inv h live → chunk ≠ [] → pending_chunk h persisted out chunk →
  wp fresh_handles (fun _ _ _ => True) h (capture_chunk e name f persisted chunk)
    (fun h' next => made h' ∧ live_inv h' live ∧ file_inv h' next.1 next.2).
Proof.
  intros Hm Hl Hne (Hr&Hf&Hw&->&Hp). unfold capture_chunk. cbn zeta.
  assert (Hlen : (0 < length chunk)%nat) by (destruct chunk; [done|simpl; lia]).
  destruct (_ <? data_cap)%N eqn:Ec.
  2: { apply N.ltb_ge in Ec. apply (truncate_wp _ _ _ _ out); [done..| |done|].
       - rewrite Hr, capped_over; rewrite ?length_app; [|lia..]. f_equal.
         by replace (data_cap - N.of_nat (length out))%N with 0%N by lia; rewrite app_nil_r.
       - rewrite Hr, length_app. lia. }
  apply N.ltb_lt in Ec. set (keep := N.min _ _). apply wp_bind, wp_ask; [done|]. intros w _.
  destruct (write_adds h (take (N.to_nat keep) chunk) w) as (E1&E2&E3&E4&E5). set (h1 := h ++ [_]) in *.
  assert (Hm1 : made h1) by (by apply made_app).
  assert (Hl1 : live_inv h1 live) by (by unfold live_inv; rewrite E1, E3, E5).
  rewrite Hr in E1. rewrite Hw in E2. rewrite Hf in E4. destruct w as [[]|err].
  - destruct (keep <? N.of_nat (length chunk))%N eqn:Ek.
    + apply N.ltb_lt in Ek. apply (truncate_wp _ _ _ _ (out ++ take (N.to_nat keep) chunk)); [done..| |done|].
      * rewrite E1, capped_over; rewrite ?length_app; [|lia..]. do 3 f_equal. unfold keep. lia.
      * rewrite E1, length_app. lia.
    + apply N.ltb_ge in Ek. apply wp_ret. split_and!; [done..|].
      rewrite firstn_all2 in E2 by lia. cbn [file_inv fst snd]. rewrite E1, E2, E4, length_app.
      split_and!; try done; lia.
  - apply wp_bind, mark_aside; [done|]. intros t Ht. destruct (aside_app h1 t Ht) as (F1&F2&F3&F4&F5).
    apply wp_ret. split_and!; [by apply made_app|by unfold live_inv; rewrite F1, F3, F5|].
    cbn [file_inv fst snd]. rewrite F2, E2, F4, E4. split; [|by left].
    rewrite <- cap_room, length_app, length_take. lia.
Qed.

(** A chunk is read and sent on. *)
Lemma live_wp h chunk (live : bool) :
  made h → live_inv h live →
  wp fresh_handles (fun _ _ _ => True) (h ++ [Ev ReadPipe (Ok chunk)])
    (if live then w ← ask (WriteLive chunk); Ret (is_ok w) else Ret false)
    (fun h' live' => made h' ∧ live_inv h' live' ∧ read_of h' = read_of h ++ chunk ∧
       written_of f h' = written_of f h ∧ failed_of f h' = failed_of f h).
Proof.
  intros Hm Hl. set (h1 := h ++ [_]).
  assert (H1 : read_of h1 = read_of h ++ chunk ∧ written_of f h1 = written_of f h ∧ live_of h1 = live_of h ∧
    failed_of f h1 = failed_of f h ∧ live_failed_of h1 = live_failed_of h).
  { unfold read_of, written_of, live_of, failed_of, live_failed_of, h1.
    rewrite !concat_snoc, !exists_snoc. cbn. by rewrite !app_nil_r, !orb_false_r. }
  destruct H1 as (E1&E2&E3&E4&E5). destruct live.
  2: { apply wp_ret. split_and!; try done; [by apply made_app|]. unfold live_inv in *. by rewrite E5. }
  apply wp_bind, wp_ask; [done|]. intros w _. apply wp_ret. set (h2 := h1 ++ [_]).
  assert (H2 : read_of h2 = read_of h1 ∧ written_of f h2 = written_of f h1 ∧ live_of h2 = live_of h1 ++ chunk ∧
    failed_of f h2 = failed_of f h1 ∧ live_failed_of h2 = live_failed_of h1 || negb (is_ok w)).
  { unfold read_of, written_of, live_of, failed_of, live_failed_of, h2.
    rewrite !concat_snoc, !exists_snoc. cbn. by rewrite !app_nil_r, orb_false_r. }
  destruct H2 as (F1&F2&F3&F4&F5). split; [by do 2 apply made_app|]. rewrite F1, F2, F4, E1, E2, E4.
  split; [|done]. destruct Hl as [Hl1 Hl2]. unfold live_inv. rewrite F1, F3, F5, E1, E3, E5, Hl1, Hl2.
  by destruct w.
Qed.

Lemma loop_wp turns h e name file persisted live :
  made h → live_inv h live → file_inv h file persisted →
  wp fresh_handles (fun _ _ _ => True) h (capture_loop turns e name file persisted live)
    (fun h' file' => ∃ persisted' live', live_inv h' live' ∧ file_inv h' file' persisted').
Proof.
  revert h file persisted live. induction turns as [|turns IH]; intros h file persisted live Hm Hl Hi.
  { apply wp_bind, wp_ask; [done|]. by intros []. }
  apply wp_bind, wp_ask; [done|]. intros r _.
  destruct (decide (ev_read (Ev ReadPipe r) = [])) as [Hz|Hz].
  { assert (Ha : Forall aside [Ev ReadPipe r]) by (repeat constructor; done).
    destruct (aside_app h _ Ha) as (F1&F2&F3&F4&F5).
    assert (Hq : live_inv (h ++ [Ev ReadPipe r]) live ∧ file_inv (h ++ [Ev ReadPipe r]) file persisted).
    { unfold live_inv, file_inv. by rewrite F1, F2, F3, F4, F5. }
    destruct r as [[|b c]|]; [|done|]; apply wp_ret; eauto. }
  destruct r as [[|b c]|]; [done| |done]. apply wp_bind. eapply wp_mono, live_wp; [|done..].
  intros h2 live2 (Hm2&Hl2&E1&E2&E3). destruct file as [g|].
  - destruct Hi as (->&Hf&Hw&->&Hp). apply wp_bind. eapply wp_mono.
    2: { apply (chunk_wp h2 e name _ (read_of h)); [done|exact Hl2|done|]. split_and!; try done; congruence. }
    intros h3 next (Hm3&Hl3&Hi3). by apply IH.
  - apply IH; [done..|]. destruct Hi as [Hb Hi]. unfold file_inv. rewrite E1, E2, E3. split; [done|].
    destruct Hi as [Hf|[Hw Hlen]]; [by left|]. right. rewrite capped_more by done. split; [done|].
    rewrite length_app. lia.
Qed.

End captured.

(** Nothing is asked of a program, and nothing said of it. *)
Lemma wp_any {R : Type → Type} {A} ans h (p : prog R A) : wp ans (fun _ _ _ => True) h p (fun _ _ => True).
Proof. revert h. induction p as [a|X q k IH]; intros h; [done|]. by split; auto. Qed.

Definition first_handle (h : hist) : option N := match h with ev :: _ => ev_creates ev | [] => None end.

Lemma captured_wp turns e name :
  wp fresh_handles (fun _ _ _ => True) [] (capture_output turns e name)
    (fun h _ => ∀ f t, h = Ev (CreateFile (dir e ++ [name])) (Ok f) :: t →
       (N.of_nat (length (written_of f h)) ≤ OUTPUT_CAP_BYTES)%N ∧
       (failed_of f h = false → written_of f h = capped (read_of h)) ∧
       (live_failed_of h = false → live_of h = read_of h)).
Proof.
  unfold capture_output. apply wp_bind, wp_ask; [done|]. intros [f|err] _.
  2: { eapply wp_mono, wp_grows, wp_any. intros h _ ([t ->]&_) f t' E. by apply (f_equal first_handle) in E. }
  apply wp_bind, wp_ret, wp_bind. set (h0 := [] ++ _).
  eapply wp_mono, wp_grows, (loop_wp f); [|by left|by split|].
  2: { split_and!; try done. }
  intros h file ([t ->]&n&live&Hl&Hi).
  assert (Hend : ∀ t', Forall (aside f) t' → ∀ f' t2,
    (h0 ++ t) ++ t' = Ev (CreateFile (dir e ++ [name])) (Ok f') :: t2 →
    (N.of_nat (length (written_of f' ((h0 ++ t) ++ t'))) ≤ OUTPUT_CAP_BYTES)%N ∧
    (failed_of f' ((h0 ++ t) ++ t') = false → written_of f' ((h0 ++ t) ++ t') = capped (read_of ((h0 ++ t) ++ t'))) ∧
    (live_failed_of ((h0 ++ t) ++ t') = false → live_of ((h0 ++ t) ++ t') = read_of ((h0 ++ t) ++ t'))).
  { intros t' Ht' f' t2 Ee. apply (f_equal first_handle) in Ee as [= <-]. destruct (aside_app f (h0 ++ t) t' Ht') as (->&->&->&->&->).
    unfold live_inv in Hl. destruct file as [g|].
    - destruct Hi as (->&Hf&Hw&->&Hp). rewrite Hw. unfold capped. rewrite (proj2 (N.leb_le _ _) Hp).
      split_and!; [rewrite <- cap_room; lia|done|]. intros Hlf. destruct live; [apply Hl|congruence].
    - destruct Hi as [Hb Hi]. split_and!; [done| |intros Hlf; destruct live; [apply Hl|congruence]].
      intros Hf. destruct Hi as [Hf'|[Hw _]]; [congruence|done]. }
  destruct file as [g|].
  - apply wp_bind, wp_ask; [done|]. intros r1 _. apply wp_bind, wp_ask; [done|]. intros r2 _. apply wp_ret.
    rewrite <- (app_assoc _ [_] [_]). apply Hend. by repeat constructor.
  - apply wp_ret. rewrite <- (app_nil_r (h0 ++ t)). by apply Hend.
Qed.

(** ** What a reattached client is sent *)

Definition ev_out (ev : event jreq) : bytes := match ev_req ev with Send (Stdout b) => b | _ => [] end.
Definition ev_err (ev : event jreq) : bytes := match ev_req ev with Send (Stderr b) => b | _ => [] end.
Definition ev_end (ev : event jreq) : bool :=
  match ev_req ev with Send (Exit _) | Send (Refused _) => true | _ => false end.

Definition out_of (h : hist) : bytes := concat (ev_out <$> h).
Definition err_of (h : hist) : bytes := concat (ev_err <$> h).
Definition ended (h : hist) : bool := existsb ev_end h.

Definition ev_open (ev : event jreq) : option (path * N) :=
  match ev with
  | @Ev _ X q x =>
      match q in jreq X return X → option (path * N) with
      | OpenFile p => fun r => match r with Ok f => Some (p, f) | Err _ => None end
      | _ => fun _ => None
      end x
  end.
Definition ev_seek (ev : event jreq) : option (N * N) :=
  match ev_req ev with Seek f o => Some (f, o) | _ => None end.

(** The file, handle and place of a read after [h]. *)
Definition reading (h : hist) : option (path * N * N) :=
  match reverse h with
  | c :: _ :: a :: _ =>
      match ev_open a, ev_seek c with
      | Some (p, f), Some (g, o) => if (f =? g)%N then Some (p, f, o) else None
      | _, _ => None
      end
  | _ => None
  end.

Lemma reading_end h p f m o :
  reading (h ++ [Ev (OpenFile p) (Ok f); Ev (FileLen f) m; Ev (Seek f o) (Ok tt)]) = Some (p, f, o).
Proof. unfold reading. rewrite reverse_app. cbn. by rewrite N.eqb_refl. Qed.

Section tailed.
Context (dec_request : bytes → result RequestRecord bytes) (dec_exit : bytes → result ExitRecord bytes).
Context (e : JournalEntry) (cmd : list bytes).
(** What the files of the record will hold in the end: they are only added to. *)
Context (final : path → bytes).

(** A reading of the request of the record that names another command. *)
Definition foreign (ev : event jreq) : Prop :=
  match ev with
  | @Ev _ X q x =>
      match q in jreq X return X → Prop with
      | ReadFile f => fun r =>
          f = dir e ++ [request_json] ∧ ∃ q, parse_json dec_request r = Ok q ∧ command q ≠ cmd
      | _ => fun _ => False
      end x
  end.

(** Every reading of the request named the client's command. *)
Definition ours (h : hist) : Prop := Forall (fun ev => ¬ foreign ev) h.

(** A read of an open file gives its bytes at the place it was moved to. *)
Definition appended (h : hist) (X : Type) (q : jreq X) : X → Prop :=
  match q in jreq X return X → Prop with
  | ReadExact f n => fun r => ∀ p o b, reading h = Some (p, f, o) → r = Ok b →
      b = take (N.to_nat n) (drop (N.to_nat o) (final p)) ∧ N.of_nat (length b) = n
  | _ => fun _ => True
  end.

(** What may be sent after [h] to a client at the offsets [o1] and [o2]. *)
Definition sends (o1 o2 : N) (h : hist) (ev : WireExecEvent) : Prop :=
  ended h = false ∧
  match ev with
  | Stdout b => ours h ∧ out_of h ++ b `prefix_of` drop (N.to_nat o1) (final (stdout_path e))
  | Stderr b =>
      (ours h ∧ err_of h ++ b `prefix_of` drop (N.to_nat o2) (final (stderr_path e))) ∨
      ∃ what reason, b = degraded_text e what reason
  | Exit (Some c) => ours h ∧
      ∃ h0 r x, h = h0 ++ [Ev (ReadFile (dir e ++ [exit_json])) r] ∧
        parse_json dec_exit r = Ok x ∧ exit_code x = Some c
  | Refused _ => ¬ ours h
  | Exit None | Degraded _ => True
  | Started _ => False
  end.

Definition tails (o1 o2 : N) (h : hist) (X : Type) (q : jreq X) : Prop :=
  reads X q ∧ match q with Send ev => sends o1 o2 h ev | _ => True end.

Definition silent (X : Type) (q : jreq X) : Prop := reads X q ∧ match q with Send _ => False | _ => True end.

Lemma silent_tails o1 o2 h X q : silent X q → tails o1 o2 h X q.
Proof. intros [Hr Hs]. split; [done|]. by destruct q. Qed.

Definition quiet (t : hist) : Prop := Forall (fun ev => silent _ (ev_req ev)) t.

Lemma quiet_app h t : quiet t → out_of (h ++ t) = out_of h ∧ err_of (h ++ t) = err_of h ∧ ended (h ++ t) = ended h.
Proof.
  intros Ht. unfold out_of, err_of, ended. rewrite !fmap_app, !concat_app, existsb_app.
  assert (Hs : Forall (fun ev => ev_out ev = [] ∧ ev_err ev = [] ∧ ev_end ev = false) t).
  { eapply Forall_impl; [exact Ht|]. intros ev [_ Hs]. unfold ev_out, ev_err, ev_end. by destruct (ev_req ev). }
  rewrite !(concat_nils _ t), (exists_none _ t) by (eapply Forall_impl; [exact Hs|]; intros ev H; apply H).
  by rewrite !app_nil_r, orb_false_r.
Qed.

Lemma ours_app h t : ours (h ++ t) ↔ ours h ∧ ours t.
Proof. apply Forall_app. Qed.

(** A reading of the request. *)
Lemma request_wp o1 o2 h (Q : hist → io RequestRecord → Prop) :
  (∀ r, let h' := h ++ [Ev (ReadFile (dir e ++ [request_json])) r] in
     Q h' (parse_json dec_request r)) →
  wp appended (tails o1 o2) h (request dec_request e) Q.
Proof.
  intros HQ. apply wp_bind, wp_ask; [by apply silent_tails|]. intros r _. apply wp_ret, HQ.
Qed.

(** Requests that neither send nor read the request of the record. *)
Definition calm (X : Type) (q : jreq X) : Prop :=
  silent X q ∧ match q with ReadFile f => f ≠ dir e ++ [request_json] | _ => True end.

Lemma calm_silent t : Forall (fun ev => calm _ (ev_req ev)) t → quiet t ∧ ours t.
Proof.
  intros Ht. split; (eapply Forall_impl; [exact Ht|]); intros [X q x] [Hs Hn]; [done|].
  destruct q; by intros [].
Qed.

Lemma calm_wp {A} o1 o2 h (p : jprog A) (Q : A → Prop) :
  all_req calm p → wp appended (tails o1 o2) h p (fun _ => Q) →
  wp appended (tails o1 o2) h p (fun h' a => ∃ t, h' = h ++ t ∧ quiet t ∧ ours t ∧ Q a).
Proof.
  intros Hp HQ. eapply wp_mono, wp_keeps; [|exact Hp|exact HQ]. intros h' a [(t&->&Ht) Ha].
  exists t. by destruct (calm_silent t Ht).
Qed.

Lemma silent_wp {A} o1 o2 h (p : jprog A) :
  all_req silent p → wp appended (tails o1 o2) h p (fun _ _ => True).
Proof.
  intros Hp. eapply wp_can, wp_only; [|exact Hp|done]. intros h' X q Hq. by apply silent_tails.
Qed.

Lemma number_silent max p : all_req silent (read_number max p).
Proof. unfold read_number. by all_requests. Qed.

Lemma alive_silent p : all_req silent (process_is_alive p).
Proof. unfold process_is_alive. by all_requests. Qed.

Lemma other_file name : lit name ≠ request_json → dir e ++ [lit name] ≠ dir e ++ [request_json].
Proof. intros Hn H%app_inv_head. apply Hn. congruence. Qed.

(** A state that was read, and what was seen of the record. *)
Definition stated (h h' : hist) (s : AttachState) : Prop :=
  ∃ t, h' = h ++ t ∧ quiet t ∧
  match s with
  | Mismatch _ => ¬ ours h'
  | Complete x => ours h → ours h' ∧ ∃ h0 r, h' = h0 ++ [Ev (ReadFile (dir e ++ [exit_json])) r] ∧
                                             parse_json dec_exit r = Ok x
  | _ => ours h → ours h'
  end.

Lemma wrapper_state_wp o1 o2 h q :
  wp appended (tails o1 o2) h (wrapper_state e q)
    (fun h' s => ∃ t, h' = h ++ t ∧ quiet t ∧ ours t ∧ (s = Running ∨ ∃ reason, s = Died reason)).
Proof.
  apply (calm_wp _ _ _ _ (fun s => s = Running ∨ ∃ reason, s = Died reason)).
  { unfold wrapper_state, command_state, owner_pid, pid, read_number, process_is_alive, unix_ms.
    all_requests; by repeat split; try (apply other_file; by vm_compute). }
  apply wp_bind. eapply wp_mono, silent_wp, number_silent. intros h' [p|err'] _.
  - apply wp_bind. eapply wp_mono, silent_wp, alive_silent. intros h3 [] _; apply wp_ret; eauto.
  - case_bool_decide; [|apply wp_ret; eauto]. apply wp_bind. eapply wp_mono, silent_wp, number_silent.
    intros h3 [p|err3] _.
    + apply wp_bind. eapply wp_mono, silent_wp, alive_silent. intros h4 [] _; apply wp_ret; eauto.
    + apply wp_bind. eapply wp_mono, silent_wp; [|by unfold unix_ms; all_requests].
      intros h4 now _. apply wp_ret. destruct (_ <? _); eauto.
Qed.

Lemma state_wp o1 o2 h :
  wp appended (tails o1 o2) h (state_for dec_request dec_exit e cmd) (stated h).
Proof.
  unfold state_for. apply wp_bind, request_wp. intros r h1.
  assert (Hq : quiet [Ev (ReadFile (dir e ++ [request_json])) r]) by (by repeat constructor).
  destruct (parse_json dec_request r) as [q|err] eqn:Er.
  2: { apply wp_ret. exists [Ev (ReadFile (dir e ++ [request_json])) r]. split_and!; [done..|].
       intros Ho. apply ours_app. split; [done|]. repeat constructor. intros (_&q&Hq'&_). congruence. }
  case_bool_decide as Hc; cbn [negb].
  2: { apply wp_ret. exists [Ev (ReadFile (dir e ++ [request_json])) r]. split_and!; [done..|].
       intros [_ Ho]%ours_app. apply Forall_inv in Ho. apply Ho. split; [done|by exists q]. }
  assert (Ho1 : ours h → ours h1).
  { intros Ho. apply ours_app. split; [done|]. repeat constructor. intros (_&q'&Hq'&Hn). congruence. }
  apply wp_bind. unfold exit, read_json. apply wp_bind, wp_ask; [by apply silent_tails|]. intros x _. apply wp_ret.
  set (h2 := h1 ++ [_]).
  assert (H2 : h2 = h ++ [Ev (ReadFile (dir e ++ [request_json])) r; Ev (ReadFile (dir e ++ [exit_json])) x])
    by (unfold h2, h1; by rewrite <- app_assoc).
  assert (Hne : dir e ++ [exit_json] ≠ dir e ++ [request_json]) by (intros H%app_inv_head; by vm_compute in H).
  assert (Ho2 : ours h → ours h2).
  { intros Ho. apply ours_app. split; [by apply Ho1|]. repeat constructor. by intros [? _]. }
  assert (Hq2 : quiet [Ev (ReadFile (dir e ++ [request_json])) r; Ev (ReadFile (dir e ++ [exit_json])) x])
    by (by repeat constructor).
  assert (Hend : ∀ s, s = Running ∨ (∃ reason, s = Died reason) → ∀ t, quiet t → ours t → stated h (h2 ++ t) s).
  { intros s Hs t Ht Hot. rewrite H2. eexists. rewrite <- app_assoc. split_and!; [done|by apply Forall_app|].
    rewrite app_assoc, <- H2. destruct Hs as [->|[? ->]]; intros Ho; apply ours_app; auto. }
  destruct (parse_json dec_exit x) as [y|err] eqn:Ex.
  { apply wp_ret. rewrite H2. eexists. split_and!; [done..|]. rewrite <- H2. intros Ho. split; [auto|].
    by exists h1, x. }
  case_bool_decide as Hk.
  2: { apply wp_ret. rewrite <- (app_nil_r h2). apply Hend; [by right; eexists|constructor..]. }
  eapply wp_mono, wrapper_state_wp. intros h' s (t&->&Ht&Hot&Hs). by apply Hend.
Qed.

(** What a chunk that was read is of its file. *)
Definition chunk_of (p : path) (o : N) (r : io (option bytes)) : Prop :=
  match r with
  | Ok (Some b) => drop (N.to_nat o) (final p) = b ++ drop (N.to_nat (o + N.of_nat (length b))) (final p)
  | _ => True
  end.

(** The end of a calm stretch. *)
Lemma calm_end {A} h t (a : A) (P : A → Prop) :
  Forall (fun ev => calm _ (ev_req ev)) t → P a →
  ∃ t', h ++ t = h ++ t' ∧ quiet t' ∧ ours t' ∧ P a.
Proof. intros Ht Ha. exists t. by destruct (calm_silent t Ht). Qed.

Lemma read_chunk_wp o1 o2 h p o :
  wp appended (tails o1 o2) h (read_journal_chunk p o)
    (fun h' r => ∃ t, h' = h ++ t ∧ quiet t ∧ ours t ∧ chunk_of p o r).
Proof.
  unfold read_journal_chunk. apply wp_bind, wp_ask; [by apply silent_tails|]. intros [f|err] _.
  2: { case_bool_decide; apply wp_ret, calm_end; by repeat constructor. }
  apply wp_try, wp_ask; [by apply silent_tails|]. intros [m|err] _; rewrite <- !app_assoc.
  2: { apply calm_end; by repeat constructor. }
  destruct (_ <=? _)%N; [apply wp_ret, calm_end; by repeat constructor|].
  apply wp_try, wp_ask; [by apply silent_tails|]. intros [[]|err] _; rewrite <- !app_assoc.
  2: { apply calm_end; by repeat constructor. }
  apply wp_try, wp_ask; [by apply silent_tails|]. intros [b|err] Hr; rewrite <- !app_assoc.
  2: { apply calm_end; by repeat constructor. }
  destruct (Hr p o b (reading_end _ _ _ _ _) eq_refl) as [Hb Hlen]. apply wp_ret, calm_end; [by repeat constructor|].
  cbn [chunk_of]. replace (N.to_nat (o + _)) with (N.to_nat o + length b)%nat by lia.
  rewrite <- drop_drop. rewrite <- (take_drop (length b) (drop (N.to_nat o) (final p))) at 1. f_equal.
  rewrite Hb at 2. f_equal. lia.
Qed.

(** The client is at [a] and [b]: it was sent the files up to there. *)
Definition sent_up (o1 o2 : N) (h : hist) (a b : N) : Prop :=
  ended h = false ∧ ours h ∧
  drop (N.to_nat o1) (final (stdout_path e)) = out_of h ++ drop (N.to_nat a) (final (stdout_path e)) ∧
  drop (N.to_nat o2) (final (stderr_path e)) = err_of h ++ drop (N.to_nat b) (final (stderr_path e)).

Lemma sent_up_quiet o1 o2 h t a b : quiet t → ours t → sent_up o1 o2 h a b → sent_up o1 o2 (h ++ t) a b.
Proof.
  intros Ht Ho (H1&H2&H3&H4). destruct (quiet_app h t Ht) as (E1&E2&E3).
  unfold sent_up. rewrite E1, E2, E3. split_and!; try done. by apply ours_app.
Qed.

Lemma send_adds h ev x :
  out_of (h ++ [Ev (Send ev) x]) = out_of h ++ match ev with Stdout b => b | _ => [] end ∧
  err_of (h ++ [Ev (Send ev) x]) = err_of h ++ match ev with Stderr b => b | _ => [] end ∧
  ended (h ++ [Ev (Send ev) x]) = ended h || match ev with Exit _ | Refused _ => true | _ => false end.
Proof.
  unfold out_of, err_of, ended. rewrite !concat_snoc, exists_snoc. unfold ev_out, ev_err, ev_end. cbn.
  by destruct ev.
Qed.

Lemma ours_send h ev x : ours h → ours (h ++ [Ev (Send ev) x]).
Proof. intros Ho. apply ours_app. split; [done|]. constructor; [by intros []|constructor]. Qed.

Lemma drain_out_wp o1 o2 h a b :
  sent_up o1 o2 h a b →
  wp appended (tails o1 o2) h (drain (stdout_path e) Stdout a)
    (fun h' r => match r with Ok d => sent_up o1 o2 h' d.2 b | Err _ => True end).
Proof.
  intros Hs. apply wp_try. eapply wp_mono, read_chunk_wp. intros h' r (t&->&Ht&Ho&Hr).
  apply (sent_up_quiet _ _ _ _ _ _ Ht Ho) in Hs. set (h1 := h ++ t) in *. clearbody h1.
  destruct r as [[c|]|err]; [|by apply wp_ret|done]. destruct Hs as (H1&H2&H3&H4). cbn [chunk_of] in Hr.
  apply wp_try, wp_ask.
  { split; [done|]. split; [done|]. split; [done|]. rewrite H3, Hr, app_assoc. by apply prefix_app_r. }
  intros [[]|err] _; [|done]. apply wp_ret. cbn [snd]. destruct (send_adds h1 (Stdout c) (Ok ())) as (E1&E2&E3).
  unfold sent_up. rewrite E1, E2, E3, H1, app_nil_r, H3, Hr, <- app_assoc. split_and!; [done|by apply ours_send|done..].
Qed.

Lemma drain_err_wp o1 o2 h a b :
  sent_up o1 o2 h a b →
  wp appended (tails o1 o2) h (drain (stderr_path e) Stderr b)
    (fun h' r => match r with Ok d => sent_up o1 o2 h' a d.2 | Err _ => True end).
Proof.
  intros Hs. apply wp_try. eapply wp_mono, read_chunk_wp. intros h' r (t&->&Ht&Ho&Hr).
  apply (sent_up_quiet _ _ _ _ _ _ Ht Ho) in Hs. set (h1 := h ++ t) in *. clearbody h1.
  destruct r as [[c|]|err]; [|by apply wp_ret|done]. destruct Hs as (H1&H2&H3&H4). cbn [chunk_of] in Hr.
  apply wp_try, wp_ask.
  { split; [done|]. split; [done|]. left. split; [done|]. rewrite H4, Hr, app_assoc. by apply prefix_app_r. }
  intros [[]|err] _; [|done]. apply wp_ret. cbn [snd]. destruct (send_adds h1 (Stderr c) (Ok ())) as (E1&E2&E3).
  unfold sent_up. rewrite E1, E2, E3, H1, app_nil_r, H4, Hr, <- app_assoc. split_and!; [done|by apply ours_send|done..].
Qed.

(** The two ends without an exit code, and the refusal. *)
Lemma message_wp o1 o2 h what reason :
  ended h = false →
  wp appended (tails o1 o2) h
    (do! _ := send (Stderr (degraded_text e what reason)) in do! _ := send (Exit None) in okay tt)
    (fun _ _ => True).
Proof.
  intros He. apply wp_try, wp_ask; [split; [done|split; [done|right; eauto]]|]. intros [[]|] _; [|done].
  apply wp_try, wp_ask; [|by intros []].
  split; [done|]. split; [|done]. destruct (send_adds h (Stderr (degraded_text e what reason)) (Ok ())) as (_&_&->).
  by rewrite He.
Qed.

Lemma send_degraded_wp o1 o2 h what reason :
  ended h = false → wp appended (tails o1 o2) h (send_degraded e what reason) (fun _ _ => True).
Proof.
  intros He. apply wp_try, wp_ask; [by split|]. intros [[]|] _; [|done]. apply message_wp.
  destruct (send_adds h (Degraded reason) (Ok ())) as (_&_&->). by rewrite He.
Qed.

Lemma refuse_wp o1 o2 h :
  ended h = false → ¬ ours h → wp appended (tails o1 o2) h (refuse e) (fun _ _ => True).
Proof. intros He Ho. apply wp_try, wp_ask; [by split|]. by intros []. Qed.

Lemma degraded_read o1 o2 h (Q : hist → io bytes → Prop) :
  (∀ t r, quiet t → ours t → Q (h ++ t) r) → wp appended (tails o1 o2) h (degraded_reason e) Q.
Proof.
  intros HQ. eapply wp_mono, (calm_wp _ _ _ _ (fun _ => True)).
  - intros h' r (t&->&Ht&Ho&_). by apply HQ.
  - unfold degraded_reason, read_to_string. all_requests. split; [done|]. apply other_file. by vm_compute.
  - apply silent_wp. unfold degraded_reason, read_to_string. by all_requests.
Qed.

Lemma sleep_wp o1 o2 h (Q : hist → unit → Prop) :
  (∀ t, quiet t → ours t → Q (h ++ t) tt) → wp appended (tails o1 o2) h sleep_25ms Q.
Proof.
  intros HQ. apply wp_ask; [by apply silent_tails|]. intros [] _.
  destruct (calm_silent [Ev (Sleep 25000000) ()]); [by repeat constructor|by apply HQ].
Qed.

Lemma tail_loop_wp turns o1 o2 h a b :
  sent_up o1 o2 h a b →
  wp appended (tails o1 o2) h (tail_loop dec_request dec_exit turns e cmd a b) (fun _ _ => True).
Proof.
  revert h a b. induction turns as [|turns IH]; intros h a b Hs.
  { apply wp_bind, wp_ask; [by split|]. by intros []. }
  apply wp_bind, degraded_read. intros t g Ht Ho. apply (sent_up_quiet _ _ _ _ _ _ Ht Ho) in Hs.
  generalize dependent (h ++ t). clear h t Ht Ho. intros h Hs.
  destruct g as [reason|_]; [apply send_degraded_wp, Hs|].
  apply wp_try. eapply wp_mono, drain_out_wp, Hs. intros h1 [d1|] H1; [|done].
  apply wp_try. eapply wp_mono, drain_err_wp, H1. intros h2 [d2|] H2; [|done]. cbn zeta.
  apply wp_bind. eapply wp_mono, state_wp. intros h3 s (t&->&Ht&Hst).
  assert (Hkeep : ours (h2 ++ t) → sent_up o1 o2 (h2 ++ t) d1.2 d2.2).
  { intros [_ Ho]%ours_app. by apply sent_up_quiet. }
  destruct (quiet_app h2 t Ht) as (_&_&Eend). rewrite (proj1 H2) in Eend. set (h3 := h2 ++ t) in *.
  assert (Hagain : ours h3 → wp appended (tails o1 o2) h3
    (_ ← (if d1.1 || d2.1 then Ret tt else sleep_25ms); tail_loop dec_request dec_exit turns e cmd d1.2 d2.2)
    (fun _ _ => True)).
  { intros Ho. apply wp_bind. destruct (d1.1 || d2.1); [by apply wp_ret, IH, Hkeep|].
    apply sleep_wp. intros t2 Ht2 Ho2. by apply IH, sent_up_quiet, Hkeep. }
  destruct H2 as (_&Ho2&_). destruct s as [|reason|x|c].
  - apply Hagain, Hst, Ho2.
  - destruct (d1.1 || d2.1); [apply Hagain, Hst, Ho2|]. by apply message_wp.
  - destruct (Hst Ho2) as (Ho3&h0&r&Eh&Er). destruct (d1.1 || d2.1); [by apply Hagain|].
    apply wp_try, wp_ask; [|by intros []]. split; [done|]. split; [done|].
    destruct (exit_code x) as [c|] eqn:Ec; [|done]. split; [done|]. by exists h0, r, x.
  - by apply refuse_wp.
Qed.

(** A state that was read before anything of the files was sent. *)
Definition started (o1 o2 : N) (h : hist) (s : AttachState) : Prop :=
  match s with
  | Mismatch _ => ended h = false ∧ ¬ ours h
  | _ => sent_up o1 o2 h o1 o2
  end.

Lemma started_wp o1 o2 h :
  sent_up o1 o2 h o1 o2 →
  wp appended (tails o1 o2) h (state_for dec_request dec_exit e cmd) (started o1 o2).
Proof.
  intros Hs. eapply wp_mono, state_wp. intros h' s (t&->&Ht&Hst).
  assert (Hk : ours (h ++ t) → sent_up o1 o2 (h ++ t) o1 o2).
  { intros [_ Ho]%ours_app. by apply sent_up_quiet. }
  destruct (quiet_app h t Ht) as (_&_&Ee), Hs as (Hend&Ho&_).
  destruct s; cbn [started]; [by apply Hk, Hst..| |].
  - apply Hk, (Hst Ho).
  - by rewrite Ee.
Qed.

Lemma settle_state_wp turns o1 o2 h s :
  started o1 o2 h s →
  wp appended (tails o1 o2) h (settle_state dec_request dec_exit turns e cmd s) (started o1 o2).
Proof.
  revert h s. induction turns as [|turns IH]; intros h s Hs; [by apply wp_ret|]. cbn [settle_state].
  destruct (request_missing s) eqn:E; [|by apply wp_ret]. cbn [negb]. destruct s as [|reason| |]; try done.
  apply wp_bind, sleep_wp. intros t Ht Ho. apply wp_bind.
  eapply wp_mono, started_wp; [intros; by apply IH|by apply sent_up_quiet].
Qed.

Lemma tail_wp turns o1 o2 :
  wp appended (tails o1 o2) [] (tail_journal dec_request dec_exit turns e cmd o1 o2) (fun _ _ => True).
Proof.
  unfold tail_journal. apply wp_bind, request_wp. intros r. cbn zeta.
  set (h := [] ++ _). assert (Hq : quiet h) by (by repeat constructor).
  assert (He : ended h = false) by done.
  destruct (parse_json dec_request r) as [q|err] eqn:Er; [case_bool_decide as Hc|]; cbn [negb].
  2: { apply refuse_wp; [done|]. intros Ho%Forall_inv. apply Ho. split; [done|by exists q]. }
  all: assert (Ho : ours h) by (repeat constructor; intros (_&q'&Hq'&Hn); congruence).
  all: assert (Hs : sent_up o1 o2 h o1 o2) by done.
  all: apply wp_bind, degraded_read; intros t g Ht Hot; apply (sent_up_quiet _ _ _ _ _ _ Ht Hot) in Hs.
  all: destruct g as [reason|_]; [apply send_degraded_wp, Hs|].
  all: apply wp_bind; eapply wp_mono, started_wp, Hs; intros h1 s1 H1.
  all: apply wp_bind; eapply wp_mono, settle_state_wp, H1; intros h2 [] H2; try (by apply tail_loop_wp).
  all: apply refuse_wp; apply H2.
Qed.

End tailed.
