(* ===== verification/JournalRun.v ===== *)
(** * The exec journal on a file system

    A file system with directories, files and handles that answers the journal's
    requests, and what the journal does on it: a complete record is replayed
    whole, and the interleavings the comments rule out. *)

From S2P Require Import Prelude Prog Bytes Journal JournalProps.
Import Journal.
Local Open Scope Z_scope.
#[local] Set Default Proof Using "Type".

Inductive node : Type := DirNode (mtime : Z) | FileNode (ino : N).

(** Names, file contents with their times, open handles with their places,
    processes, the clock, what pipes still hold and what was sent. *)
Record FS := MkFS {
  nodes : gmap path node;
  inodes : gmap N (bytes * Z);
  handles : gmap N (N * N);
  next : N;
  procs : list N;
  clock : Z;
  pipe : list bytes;
  sent : list WireExecEvent;
}.
#[global] Instance FS_eta : Eta FS := fun s =>
  MkFS (nodes s) (inodes s) (handles s) (next s) (procs s) (clock s) (pipe s) (sent s).

Definition absent {A} : io A := Err (IoErr NotFound (lit "no such file or directory")).
Definition exists_err {A} : io A := Err (IoErr AlreadyExists (lit "file exists")).
Definition other_err {A} : io A := Err (IoErr Other (lit "not possible")).

(** The bytes of the file at a path. *)
Definition content (s : FS) (p : path) : option bytes :=
  match nodes s !! p with Some (FileNode i) => fst <$> inodes s !! i | _ => None end.

Definition is_directory (s : FS) (p : path) : bool :=
  match nodes s !! p with Some (DirNode _) => true | _ => false end.

(** The entries of a directory. *)
Definition children (s : FS) (p : path) : list bytes :=
  omap (fun k => match last k with
                 | Some n => if bool_decide (k = p ++ [n]) then Some n else None
                 | None => None
                 end) (fst <$> map_to_list (nodes s)).

Definition parent_ok (s : FS) (p : path) : bool := is_directory s (removelast p).

Definition open_at (s : FS) (i : N) : io N * FS :=
  (Ok (next s), s <| handles ::= <[next s := (i, 0%N)]> |> <| next ::= N.succ |>).

Definition create_file (s : FS) (p : path) : io N * FS :=
  match nodes s !! p with
  | Some (DirNode _) => (other_err, s)
  | Some (FileNode i) => open_at (s <| inodes ::= <[i := ([], clock s)]> |>) i
  | None =>
      if parent_ok s p then
        let i := next s in
        open_at (s <| nodes ::= <[p := FileNode i]> |> <| inodes ::= <[i := ([], clock s)]> |>
                   <| next ::= N.succ |>) i
      else (absent, s)
  end.

Definition metadata (s : FS) (p : path) : io FileMeta :=
  match nodes s !! p with
  | Some (DirNode t) => Ok (MkMeta true 0 (Ok t))
  | Some (FileNode i) =>
      match inodes s !! i with
      | Some (b, t) => Ok (MkMeta false (N.of_nat (length b)) (Ok t))
      | None => other_err
      end
  | None => absent
  end.

(** The file of a handle and its place there. *)
Definition opened (s : FS) (f : N) : option (N * bytes * N) :=
  match handles s !! f with
  | Some (i, o) => match inodes s !! i with Some (b, _) => Some (i, b, o) | None => None end
  | None => None
  end.

Definition fs_handle (X : Type) (q : jreq X) (s : FS) : option X * FS :=
  match q in jreq X return option X * FS with
  | CreateDirAll p => (Some (Ok tt), if is_directory s p then s else s <| nodes ::= <[p := DirNode (clock s)]> |>)
  | CreateDir p =>
      match nodes s !! p with
      | Some _ => (Some exists_err, s)
      | None => if parent_ok s p then (Some (Ok tt), s <| nodes ::= <[p := DirNode (clock s)]> |>)
                else (Some absent, s)
      end
  | RemoveDirAll p =>
      match nodes s !! p with
      | Some _ => (Some (Ok tt), s <| nodes ::= filter (fun kv => ¬ p `prefix_of` kv.1) |>)
      | None => (Some absent, s)
      end
  | ReadDir p => (Some (if is_directory s p then Ok (children s p) else absent), s)
  | FileType p => (Some (match nodes s !! p with Some (DirNode _) => Ok true | Some _ => Ok false | None => absent end), s)
  | Metadata p => (Some (metadata s p), s)
  | ReadFile p => (Some (match content s p with Some b => Ok b | None => absent end), s)
  | CreateFile p => let '(r, s') := create_file s p in (Some r, s')
  | OpenFile p =>
      match nodes s !! p with
      | Some (FileNode i) => let '(r, s') := open_at s i in (Some r, s')
      | Some (DirNode _) => (Some other_err, s)
      | None => (Some absent, s)
      end
  | WriteAll f b =>
      match opened s f with
      | Some (i, old, _) => (Some (Ok tt), s <| inodes ::= <[i := (old ++ b, clock s)]> |>)
      | None => (Some other_err, s)
      end
  | Flush _ | SyncAll _ => (Some (Ok tt), s)
  | FileLen f => (Some (match opened s f with Some (_, b, _) => Ok (N.of_nat (length b)) | None => other_err end), s)
  | Seek f o =>
      match opened s f with
      | Some (i, _, _) => (Some (Ok tt), s <| handles ::= <[f := (i, o)]> |>)
      | None => (Some other_err, s)
      end
  | ReadExact f n =>
      match opened s f with
      | Some (i, b, o) =>
          let c := take (N.to_nat n) (drop (N.to_nat o) b) in
          if (N.of_nat (length c) =? n)%N then (Some (Ok c), s <| handles ::= <[f := (i, o + n)%N]> |>)
          else (Some other_err, s)
      | None => (Some other_err, s)
      end
  | Rename p p' =>
      match nodes s !! p with
      | Some n => if parent_ok s p' then (Some (Ok tt), s <| nodes ::= fun m => <[p' := n]> (delete p m) |>)
                  else (Some absent, s)
      | None => (Some absent, s)
      end
  | SystemNow => (Some (clock s), s)
  | Sleep d => (Some tt, s <| clock ::= Z.add d |>)
  | Signal0 p => (Some (bool_decide (p ∈ procs s)), s)
  | ProcStat _ => (Some absent, s)
  | KillGroup p =>
      if bool_decide (p ∈ procs s) then (Some (Ok tt), s <| procs ::= List.filter (fun q => negb (N.eqb p q)) |>)
      else (Some (Err ESRCH), s)
  | ReadPipe =>
      match pipe s with
      | [] => (Some (Ok []), s)
      | b :: l => (Some (Ok b), s <| pipe := l |>)
      end
  | WriteLive _ => (Some (Ok tt), s)
  | Send ev => (Some (Ok tt), s <| sent ::= fun l => l ++ [ev] |>)
  | OwnPid | SpawnCommand _ | ChildId | TakePipe _ | SpawnCapture _ | JoinCapture _
  | WaitChild | WaitTimeout _ | StartKill | Spin => (None, s)
  end.

(** ** A codec and a journal to run *)

Module DemoJournal.

Definition enc_exit (x : ExitRecord) : result bytes bytes :=
  Ok (dec_bytes (Z.to_N (finished_at_unix_ms x)) ++
      match exit_code x with Some c => [32%N] ++ dec_bytes (Z.to_N c) | None => [] end).

Definition dec_exit (b : bytes) : result ExitRecord bytes :=
  let '(t, c) := match split_once [32%N] b with Some (t, c) => (t, from_str_radix 10 u64_max c) | None => (b, None) end in
  match from_str_radix 10 u64_max t with
  | Some t => Ok (MkExit (Z.of_N <$> c) (Z.of_N t))
  | None => Err (lit "not an exit record")
  end.

(** One word per command. *)
Definition enc_request (r : RequestRecord) : result bytes bytes :=
  Ok (dec_bytes (Z.to_N (created_at_unix_ms r)) ++ concat ((fun w => [32%N] ++ w) <$> command r)).

Definition dec_request (b : bytes) : result RequestRecord bytes :=
  match split_byte 32 b with
  | t :: cmd => match from_str_radix 10 u64_max t with
                | Some t => Ok (MkRequest cmd (Z.of_N t))
                | None => Err (lit "not a request")
                end
  | [] => Err (lit "not a request")
  end.

Definition R : path := [lit "execs"].
Definition J : ExecJournal := MkJournal R DEFAULT_TTL DEFAULT_MAX_ACTIVE.
Definition id : bytes := lit "job-1".
Definition entry : JournalEntry := MkEntry (R ++ [id]) id.
Definition cmd : list bytes := [lit "make"].

Definition start := attach_or_start enc_request dec_request dec_exit J id cmd.

(** The journal with the files of the record; its directory was made at 0, and
    it is the third day. *)
Definition with_files (files : list (bytes * bytes)) (ps : list N) (input : list bytes) : FS :=
  let add (m : gmap path node * gmap N (bytes * Z) * N) (f : bytes * bytes) :=
    let '(ns, cs, i) := m in
    (<[dir entry ++ [f.1] := FileNode i]> ns, <[i := (f.2, 0)]> cs, N.succ i) in
  let '(ns, cs, i) := foldl add ({[ R := DirNode 0; dir entry := DirNode 0 ]}, ∅, 0%N) files in
  MkFS ns cs ∅ i ps (3 * 24 * 60 * 60 * 1000000000) input [].

End DemoJournal.

(** *** A capture ends with its pipe *)

(** Requests the file system answers without the pipe. *)
Definition plain (X : Type) (q : jreq X) : Prop :=
  match q with
  | OwnPid | SpawnCommand _ | ChildId | TakePipe _ | SpawnCapture _ | JoinCapture _
  | WaitChild | WaitTimeout _ | StartKill | Spin | ReadPipe => False
  | _ => True
  end.

Lemma plain_step s X (q : jreq X) :
  plain X q → pipe (fs_handle X q s).2 = pipe s ∧ (fs_handle X q s).1 ≠ None.
Proof.
  intros Hq. destruct q; try done; cbn [fs_handle]; unfold create_file, open_at;
    repeat case_match; simplify_eq/=; done.
Qed.

Lemma plain_run {A} (p : jprog A) s :
  all_req plain p → ∃ a s', exec fs_handle p s = (Some a, s') ∧ pipe s' = pipe s.
Proof.
  intros Hp.
  pose proof (exec_ends fs_handle plain p s (fun s X q H => proj2 (plain_step s X q H)) Hp) as He.
  pose proof (exec_all_req fs_handle plain (fun s s' => pipe s' = pipe s) p s (fun _ => eq_refl)
    (fun s1 s2 s3 H1 H2 => eq_trans H2 H1) (fun s X q H => proj1 (plain_step s X q H)) Hp) as Hk.
  destruct (exec fs_handle p s) as [[a|] s']; [|done]. by exists a, s'.
Qed.

Lemma mark_plain e reason : all_req plain (mark_degraded e reason).
Proof. unfold mark_degraded, atomic_write. by all_requests. Qed.

Lemma chunk_plain e name f n chunk : all_req plain (capture_chunk e name f n chunk).
Proof.
  unfold capture_chunk. destruct (_ <? _)%N.
  - apply all_req_bind; [done|]. intros []; [destruct (_ <? _)%N; [|done]|].
    + apply all_req_bind; [done|]. intros w. apply all_req_bind; [destruct w; [done|apply mark_plain]|done].
    + apply all_req_bind; [apply mark_plain|done].
  - apply all_req_bind; [done|]. intros w. apply all_req_bind; [destruct w; [done|apply mark_plain]|done].
Qed.

Lemma capture_loop_ends turns e name file n live s :
  (length (pipe s) < turns)%nat →
  ∃ f s', exec fs_handle (capture_loop turns e name file n live) s = (Some f, s').
Proof.
  revert file n live s. induction turns as [|turns IH]; intros file n live s Hn; [lia|]. cbn [capture_loop].
  rewrite exec_bind, exec_ask. cbn [fs_handle]. destruct (pipe s) as [|b l] eqn:Ep; [by eexists _, _|].
  destruct b as [|b chunk]; [by eexists _, _|]. set (s1 := s <| pipe := l |>).
  assert (H1 : (length (pipe s1) < turns)%nat) by (cbn in *; lia). rewrite exec_bind.
  destruct (plain_run (if live then w ← ask (WriteLive (b :: chunk)); Ret (is_ok w) else Ret false) s1)
    as (lo&s2&->&E2); [by destruct live|]. rewrite <- E2 in H1.
  destruct file as [f|]; [|by apply IH]. rewrite exec_bind.
  destruct (plain_run (capture_chunk e name f n (b :: chunk)) s2) as (nx&s3&->&E3); [apply chunk_plain|].
  apply IH. by rewrite E3.
Qed.

Lemma capture_ends turns e name s :
  (length (pipe s) < turns)%nat → (exec fs_handle (capture_output turns e name) s).1 = Some tt.
Proof.
  intros Hn. unfold capture_output. rewrite exec_bind.
  destruct (plain_run (ask (CreateFile (dir e ++ [name]))) s) as (c&s1&->&E1); [done|]. rewrite exec_bind.
  destruct (plain_run (match c with
    | Ok f => Ret (Some f)
    | Err err => _ ← mark_degraded e (lit "create " ++ name ++ lit ": " ++ text err); Ret None
    end) s1) as (file&s2&->&E2).
  { destruct c; [done|]. apply all_req_bind; [apply mark_plain|done]. }
  rewrite exec_bind. destruct (capture_loop_ends turns e name file 0 true s2) as (f&s3&->); [by rewrite E2, E1|].
  by destruct f.
Qed.

(** ** Against any answers *)

Section claims.
Context (enc_request : RequestRecord → result bytes bytes) (dec_request : bytes → result RequestRecord bytes)
  (enc_exit : ExitRecord → result bytes bytes) (dec_exit : bytes → result ExitRecord bytes).

(** A start does not collect a record that every answer it gets shows is to be
    kept, for one reason throughout: its command runs, and its files of pids are
    read as such or are absent; its directory was made less than five seconds
    ago; it was completed within the TTL; or one of its files was written within
    the TTL.  Nothing is said of a record that changes meanwhile
    ([journal_double_start]), or of one with a pid file that cannot be read. *)
Theorem records_kept j id cmd d prot T h o :
  lasts prot T (ttl j) →
  runs (protects dec_request dec_exit d prot T) []
    (attach_or_start enc_request dec_request dec_exit j id cmd) h o →
  ∀ e, e ∈ h → not_removed d [] _ (ev_req e).
Proof.
  intros Hl Hr. destruct (wp_adequate _ (not_removed d) _ _ (fun _ _ => True) _ _ Hr) as [Ha _].
  - by apply start_keeps.
  - apply allowed_nil.
  - intros e (h1&h2&->)%list_elem_of_split. exact (Ha h1 e h2 eq_refl).
Qed.


(** C26. What a capture persists.  If every write succeeds the file of a finished
    capture is the output that was read, or its first bytes and the marker when
    it is longer than the cap allows; it is never asked to hold more than 64 MiB;
    the live stream was sent everything unless it failed; and on a file system
    that answers a capture ends when its pipe does. *)
Theorem capture_exact turns e name :
  (∀ h, runs fresh_handles [] (capture_output turns e name) h (Some tt) →
     ∀ f t, h = Ev (CreateFile (dir e ++ [name])) (Ok f) :: t →
       (N.of_nat (length (written_of f h)) ≤ OUTPUT_CAP_BYTES)%N ∧
       (failed_of f h = false → written_of f h = capped (read_of h)) ∧
       (live_failed_of h = false → live_of h = read_of h)) ∧
  (∀ s, (length (pipe s) < turns)%nat → (exec fs_handle (capture_output turns e name) s).1 = Some tt).
Proof.
  split; [|by apply capture_ends].
  intros h Hr. exact (proj2 (wp_adequate _ _ _ _ _ _ _ Hr (captured_wp turns e name) (allowed_nil _))).
Qed.

(** C24. What a reattached client is sent, while the files of the record are only
    added to: the bytes of each file from the client's offset on, in order and
    without a gap; an exit code only as the exit marker gives it; nothing of a
    record whose request was read to name another command, which is what a
    refusal says; and nothing after the frame that ends the stream. *)
Theorem tail_disciplined turns e cmd final o1 o2 h o :
  runs (appended final) [] (tail_journal dec_request dec_exit turns e cmd o1 o2) h o →
  ∀ h1 ev h2, h = h1 ++ ev :: h2 → tails dec_request dec_exit e cmd final o1 o2 h1 _ (ev_req ev).
Proof.
  intros Hr. exact (proj1 (wp_adequate _ _ _ _ _ _ _ Hr (tail_wp _ _ _ _ _ _ _ _) (allowed_nil _))).
Qed.

End claims.

(** ** On the file system *)

Import DemoJournal.

(** A record of the first day whose command, process 8, still runs without its
    wrapper. *)
Definition demo_running : FS :=
  with_files [(request_json, lit "0 make"); (lit "owner_pid", lit "7"); (lit "pid", lit "8")] [8%N] [].

(** What the answers to a demonstration are. *)
Ltac answered :=
  vm_compute; repeat match goal with
    | |- _ ∧ _ => split
    | |- True => exact I
    | |- ∀ _, _ => intro
    | H : _ :: _ = _ :: _ |- _ => injection H as H
    | H : Ok _ = Ok _ |- _ => injection H as H
    | H : Some _ = Some _ |- _ => injection H as H
    | H : (_, _) = (_, _) |- _ => injection H as H
    | H : [] = _ :: _ |- _ => discriminate H
    | H : None = Some _ |- _ => discriminate H
    | |- Forall _ [] => constructor
    | |- _ => progress subst
    | |- _ => first [reflexivity | discriminate | congruence]
    end.

Lemma records_kept_witness :
  Forall (fun e => not_removed (dir entry) [] _ (ev_req e)) (trace fs_handle start demo_running).
Proof.
  apply Forall_forall. refine (records_kept enc_request dec_request dec_exit J id cmd (dir entry) (Recording 8)
    (3 * 24 * 60 * 60 * 1000000000) _ (exec fs_handle start demo_running).1 _ _).
  - by vm_compute.
  - apply (trace_runs fs_handle _ start demo_running []). answered.
Defined.


(** Output in two reads. *)
Definition demo_output : FS := with_files [] [] [lit "ab"; lit "cd"].

Lemma capture_exact_witness :
  let h := trace fs_handle (capture_output 5 entry (lit "stdout")) demo_output in
  failed_of 1 h = false ∧ written_of 1 h = capped (lit "abcd").
Proof.
  assert (Hr : runs fresh_handles [] (capture_output 5 entry (lit "stdout"))
    (trace fs_handle (capture_output 5 entry (lit "stdout")) demo_output) (Some tt)).
  { apply (trace_runs fs_handle _ (capture_output 5 entry (lit "stdout")) demo_output []). answered. }
  split; [by vm_compute|].
  exact (proj1 (proj2 (proj1 (capture_exact 5 entry (lit "stdout")) _ Hr 1%N _ eq_refl)) eq_refl).
Defined.

(** A complete record with both files. *)
Definition demo_complete : FS :=
  with_files [(request_json, lit "0 make"); (exit_json, lit "1 0"); (lit "stdout", lit "abcd"); (lit "stderr", lit "xy")] [] [].

Definition demo_final (p : path) : bytes := default [] (content demo_complete p).

Definition demo_tail := tail_journal dec_request dec_exit 3 entry cmd 1 0.

(** The exit code is the last frame, and may be sent there. *)
Lemma tail_disciplined_witness : ∃ h1,
  trace fs_handle demo_tail demo_complete = h1 ++ [Ev (Send (Exit (Some 0))) (Ok tt)] ∧
  sends dec_request dec_exit entry cmd demo_final 1 0 h1 (Exit (Some 0)).
Proof.
  eexists (removelast (trace fs_handle demo_tail demo_complete)).
  assert (E : trace fs_handle demo_tail demo_complete =
    removelast (trace fs_handle demo_tail demo_complete) ++ [Ev (Send (Exit (Some 0))) (Ok tt)]) by (by vm_compute).
  split; [exact E|].
  refine (proj2 (tail_disciplined dec_request dec_exit 3 entry cmd demo_final 1 0 _
    (exec fs_handle demo_tail demo_complete).1 _ _ _ [] E)).
  apply (trace_runs fs_handle _ demo_tail demo_complete []). answered.
Defined.

(** ** Interleavings the comments rule out *)

(** A record that was completed two days ago. *)
Definition demo_expired : FS := with_files [(exit_json, lit "0 0"); (request_json, lit "0 make")] [7%N] [].

(** A start, and the first thing its wrapper does. *)
Definition start_wrapped : jprog (io AttachOrStart) :=
  r ← start;
  match r with
  | Ok (Start e) => _ ← write_owner_pid e 7; Ret r
  | _ => Ret r
  end.

(** A schedule under which the marker does not keep a command from being started
    twice.  Of two starts
    of an id whose record has expired, the first reads its exit marker; the
    second collects the record, starts the command anew and its wrapper, process
    7, is alive and recorded; then the first collects that live record as the
    one it read, makes the marker again and starts the command too. *)
Theorem journal_double_start :
  let sched := repeat true 5 ++ repeat false 60 in
  let '(_, _, s1) := interleave fs_handle sched start start_wrapped demo_expired in
  (exec fs_handle (appears_live dec_request entry) s1).1 = Some true ∧
  let '(p, q, s2) := interleave fs_handle (sched ++ repeat true 60) start start_wrapped demo_expired in
  p = okay (Start entry) ∧ q = okay (Start entry) ∧ content s2 (dir entry ++ [lit "owner_pid"]) = None.
Proof. vm_compute. auto. Qed.

(** A command that has printed half of its output, its wrapper and a client. *)
Definition demo_printing : FS :=
  with_files [(request_json, lit "0 make"); (lit "owner_pid", lit "7"); (lit "pid", lit "8")]
    [7%N; 8%N] [lit "ab"; lit "cd"].
Definition demo_wrapper : jprog (io unit) :=
  _ ← capture_output 10 entry (lit "stdout"); finish enc_exit entry (Some 0).
Definition demo_client : jprog (io unit) := tail_journal dec_request dec_exit 10 entry cmd 0 0.

(** A schedule that loses the end of the output to a client.  The client finds nothing new
    in the files; the wrapper writes the rest of the output and the exit marker;
    the client then reads the marker, and as its drain, which was earlier, made no
    progress it ends the stream: it is told of a clean exit and was sent half of
    what the journal holds. *)
Theorem tail_loses_end :
  let '(w, c, s) :=
    interleave fs_handle (repeat true 4 ++ repeat false 22 ++ repeat true 30 ++ repeat false 60)
      demo_wrapper demo_client demo_printing in
  w = okay tt ∧ c = okay tt ∧ sent s = [Stdout (lit "ab"); Exit (Some 0)] ∧
  content s (stdout_path entry) = Some (lit "abcd").
Proof. vm_compute. auto. Qed.

(** The two ladders differ on a record whose wrapper is dead and whose command
    runs: it counts as live, and a client is told that it died. *)
Theorem ladders_differ :
  (exec fs_handle (appears_live dec_request entry) demo_running).1 = Some true ∧
  (exec fs_handle (state_for dec_request dec_exit entry cmd) demo_running).1 =
    Some (Died (lit "wrapper pid 7 is dead and exit.json is absent")).
Proof. vm_compute. auto. Qed.

(** ** A complete record is replayed whole *)

Definition chunk_out (ev : WireExecEvent) : bytes := match ev with Stdout b => b | _ => [] end.
Definition chunk_err (ev : WireExecEvent) : bytes := match ev with Stderr b => b | _ => [] end.
Definition is_chunk (ev : WireExecEvent) : bool := match ev with Stdout _ | Stderr _ => true | _ => false end.

Section replay.
Context (dec_request : bytes → result RequestRecord bytes) (dec_exit : bytes → result ExitRecord bytes).
Context (e : JournalEntry) (cmd : list bytes) (x : ExitRecord) (out err : bytes).

(** The record of the command, with its files and its exit marker. *)
Definition complete (s : FS) : Prop :=
  (∃ b r, content s (dir e ++ [request_json]) = Some b ∧ dec_request b = Ok r ∧ command r = cmd) ∧
  (∃ b, content s (dir e ++ [exit_json]) = Some b ∧ dec_exit b = Ok x) ∧
  content s (dir e ++ [lit "degraded"]) = None ∧
  content s (stdout_path e) = Some out ∧ content s (stderr_path e) = Some err.

(** The same files. *)
Definition same_files (s s' : FS) : Prop := nodes s' = nodes s ∧ inodes s' = inodes s.

Lemma complete_same s s' : same_files s s' → complete s → complete s'.
Proof. intros [E1 E2]. unfold complete, content. by rewrite E1, E2. Qed.

Lemma read_file_run s p : exec fs_handle (ask (ReadFile p)) s =
  (Some (match content s p with Some b => Ok b | None => absent end), s).
Proof. by rewrite exec_ask. Qed.

Lemma content_node s p c :
  content s p = Some c → ∃ i t, nodes s !! p = Some (FileNode i) ∧ inodes s !! i = Some (c, t).
Proof.
  unfold content. destruct (nodes s !! p) as [[|i]|] eqn:En; [done| |done].
  destruct (inodes s !! i) as [[b t]|] eqn:Ei; [|done]. intros [= <-]. by exists i, t.
Qed.

Lemma opened_at s i c t o :
  inodes s !! i = Some (c, t) → handles s !! (next s) = Some (i, o) → opened s (next s) = Some (i, c, o).
Proof. intros H1 H2. unfold opened. by rewrite H2, H1. Qed.

(** A chunk of a file. *)
Definition chunk_at (c : bytes) (o : N) : option bytes :=
  if (N.of_nat (length c) <=? o)%N then None
  else Some (take (N.to_nat READ_BUF_BYTES) (drop (N.to_nat o) c)).

Lemma take_available {A} (l : list A) n : take (Nat.min (length l) n) l = take n l.
Proof.
  destruct (Nat.le_ge_cases (length l) n) as [H|H].
  - by rewrite Nat.min_l, firstn_all, take_ge.
  - by rewrite Nat.min_r.
Qed.

Lemma chunk_run s p c o :
  content s p = Some c →
  ∃ s', exec fs_handle (read_journal_chunk p o) s = (Some (Ok (chunk_at c o)), s') ∧
        same_files s s' ∧ sent s' = sent s.
Proof.
  intros (i&t&Hn&Hi)%content_node. unfold read_journal_chunk, chunk_at.
  rewrite exec_bind, exec_ask. cbn [fs_handle]. rewrite Hn. cbn [open_at].
  set (s1 := s <| handles ::= _ |> <| next ::= _ |>).
  assert (H1 : opened s1 (next s) = Some (i, c, 0%N)).
  { unfold opened, s1. cbn. by rewrite lookup_insert_eq, Hi. }
  rewrite exec_try, exec_ask. cbn [fs_handle]. rewrite H1.
  destruct (_ <=? o)%N eqn:Eo; [by exists s1|]. apply N.leb_gt in Eo.
  rewrite exec_try, exec_ask. cbn [fs_handle]. rewrite H1.
  set (s2 := s1 <| handles ::= _ |>).
  assert (H2 : opened s2 (next s) = Some (i, c, o)).
  { unfold opened, s2, s1. cbn. by rewrite lookup_insert_eq, Hi. }
  rewrite exec_try, exec_ask. cbn [fs_handle]. rewrite H2. cbn zeta.
  replace (N.to_nat (N.min _ _)) with (Nat.min (length (drop (N.to_nat o) c)) (N.to_nat READ_BUF_BYTES))
    by (rewrite length_drop; lia).
  rewrite take_available. replace (_ =? _)%N with true; [by eexists|].
  symmetry. apply N.eqb_eq. rewrite length_take, length_drop. lia.
Qed.

(** The state of the record is read as complete. *)
Lemma complete_run s : complete s → exec fs_handle (state_for dec_request dec_exit e cmd) s = (Some (Complete x), s).
Proof.
  intros ((b&r&Hb&Hr&Hc)&(b'&Hb'&Hx)&_). unfold state_for, request, exit, read_json.
  rewrite exec_bind, exec_bind, read_file_run, Hb. cbn [exec_ret parse_json]. rewrite exec_ret.
  unfold parse_json at 1. rewrite Hr, bool_decide_eq_true_2 by done. cbn [negb].
  rewrite exec_bind, exec_bind, read_file_run, Hb', exec_ret. unfold parse_json. by rewrite Hx, exec_ret.
Qed.

Lemma degraded_run s : complete s → ∃ er, exec fs_handle (degraded_reason e) s = (Some (Err er), s).
Proof.
  intros (_&_&Hd&_). unfold degraded_reason, read_to_string. rewrite exec_bind, read_file_run, Hd, exec_ret. by eexists.
Qed.

(** One file of the drain. *)
Lemma drain_run s p mk c o :
  content s p = Some c →
  ∃ s', exec fs_handle (drain p mk o) s =
    (Some (Ok match chunk_at c o with
              | Some b => (true, o + N.of_nat (length b))%N
              | None => (false, o)
              end), s') ∧
    same_files s s' ∧ sent s' = sent s ++ match chunk_at c o with Some b => [mk b] | None => [] end.
Proof.
  intros Hc. destruct (chunk_run s p c o Hc) as (s1&E1&Hs1&Hsent). unfold drain. rewrite exec_try, E1.
  destruct (chunk_at c o) as [b|].
  - rewrite exec_try. unfold send. rewrite exec_ask. cbn [fs_handle]. eexists. split; [reflexivity|].
    split; [done|]. cbn. by rewrite Hsent.
  - exists s1. by rewrite app_nil_r.
Qed.

(** What is left of a file after a chunk. *)
Lemma chunk_rest c o :
  match chunk_at c o with
  | Some b => drop (N.to_nat o) c = b ++ drop (N.to_nat (o + N.of_nat (length b))) c ∧ (0 < length b)%nat ∧
              (N.to_nat o + length b ≤ length c)%nat
  | None => drop (N.to_nat o) c = [] ∧ (length c - N.to_nat o = 0)%nat
  end.
Proof.
  unfold chunk_at. destruct (_ <=? o)%N eqn:Eo.
  - apply N.leb_le in Eo. split; [apply drop_ge|]; lia.
  - apply N.leb_gt in Eo. set (b := take _ _).
    assert (Hb : length b = Nat.min (N.to_nat READ_BUF_BYTES) (length c - N.to_nat o))
      by (unfold b; by rewrite length_take, length_drop).
    assert (0 < N.to_nat READ_BUF_BYTES)%nat by (vm_compute; lia).
    split; [|lia]. replace (N.to_nat (o + _)) with (N.to_nat o + length b)%nat by lia.
    rewrite <- drop_drop. rewrite <- (take_drop (length b) (drop (N.to_nat o) c)) at 1. f_equal.
    unfold b at 1. rewrite length_take, Nat.min_comm. apply take_available.
Qed.

(** What the chunks of a stream say. *)
Definition replays (evs : list WireExecEvent) (a b : N) : Prop :=
  forallb is_chunk evs = true ∧
  concat (chunk_out <$> evs) = drop (N.to_nat a) out ∧ concat (chunk_err <$> evs) = drop (N.to_nat b) err.

Lemma tail_loop_run turns s a b :
  complete s → (length out - N.to_nat a + (length err - N.to_nat b) < turns)%nat →
  ∃ s' evs, exec fs_handle (tail_loop dec_request dec_exit turns e cmd a b) s = (Some (Ok tt), s') ∧
    sent s' = sent s ++ evs ++ [Exit (exit_code x)] ∧ replays evs a b.
Proof.
  revert s a b. induction turns as [|turns IH]; intros s a b Hc Hn; [lia|]. cbn [tail_loop].
  destruct (degraded_run s Hc) as [er Er]. rewrite exec_bind, Er.
  destruct (drain_run s (stdout_path e) Stdout out a) as (s1&E1&H1&S1); [apply Hc|]. rewrite exec_try, E1.
  apply (complete_same _ _ H1) in Hc.
  destruct (drain_run s1 (stderr_path e) Stderr err b) as (s2&E2&H2&S2); [apply Hc|]. rewrite exec_try, E2.
  apply (complete_same _ _ H2) in Hc. cbn zeta. rewrite exec_bind, (complete_run s2 Hc). rewrite S1 in S2. clear E1 E2.
  pose proof (chunk_rest out a) as C1. pose proof (chunk_rest err b) as C2.
  assert (Hgo : ∀ a' b' l, sent s2 = sent s ++ l → forallb is_chunk l = true →
    (length out - N.to_nat a' + (length err - N.to_nat b') < turns)%nat →
    drop (N.to_nat a) out = concat (chunk_out <$> l) ++ drop (N.to_nat a') out →
    drop (N.to_nat b) err = concat (chunk_err <$> l) ++ drop (N.to_nat b') err →
    ∃ s' evs, exec fs_handle (_ ← Ret tt; tail_loop dec_request dec_exit turns e cmd a' b') s2 = (Some (Ok tt), s') ∧
      sent s' = sent s ++ evs ++ [Exit (exit_code x)] ∧ replays evs a b).
  { intros a' b' l Hl Hcl Hm D1 D2. rewrite exec_bind, exec_ret.
    destruct (IH s2 a' b' Hc Hm) as (s'&evs&E&Hs'&Hch&R1&R2). exists s', (l ++ evs). split; [done|].
    rewrite Hs', Hl, <- !app_assoc. split; [done|]. unfold replays. rewrite forallb_app, Hcl, Hch.
    rewrite !fmap_app, !concat_app, R1, R2. done. }
  destruct (chunk_at out a) as [c1|], (chunk_at err b) as [c2|]; cbn [fst snd orb negb].
  - apply (Hgo _ _ [Stdout c1; Stderr c2]); cbn; rewrite ?app_nil_r; try done; [by rewrite S2, <- app_assoc|lia|apply C1|apply C2].
  - apply (Hgo _ _ [Stdout c1]); cbn; rewrite ?app_nil_r; try done; [by rewrite S2, app_nil_r|lia|apply C1].
  - apply (Hgo _ _ [Stderr c2]); cbn; rewrite ?app_nil_r; try done; [by rewrite S2, app_nil_r|lia|apply C2].
  - rewrite exec_try. unfold send. rewrite exec_ask. cbn [fs_handle]. eexists _, []. split; [reflexivity|].
    cbn. rewrite S2, !app_nil_r. split; [done|]. split; [done|]. by rewrite (proj1 C1), (proj1 C2).
Qed.

(** C25. A complete record is replayed whole: on a file system that answers, a client
    that reattaches at any offsets is sent, in turns bounded by what is left of
    the files, each file from its offset on and then the exit code of the
    marker, and nothing else. *)
Theorem complete_replayed turns s a b :
  complete s → (length out - N.to_nat a + (length err - N.to_nat b) < turns)%nat →
  ∃ s' evs, exec fs_handle (tail_journal dec_request dec_exit turns e cmd a b) s = (Some (Ok tt), s') ∧
    sent s' = sent s ++ evs ++ [Exit (exit_code x)] ∧ replays evs a b.
Proof.
  intros Hc Hn. unfold tail_journal. rewrite exec_bind. destruct Hc as ((bs&r&Hb&Hr&Hcm)&Hc').
  assert (Hc : complete s) by (split; [by exists bs, r|done]).
  unfold request, read_json. rewrite exec_bind, read_file_run, Hb, exec_ret. unfold parse_json. rewrite Hr.
  rewrite bool_decide_eq_true_2 by done. cbn [negb]. destruct (degraded_run s Hc) as [er Er].
  rewrite exec_bind, Er, exec_bind, (complete_run s Hc), exec_bind.
  change (exec fs_handle (settle_state dec_request dec_exit 40 e cmd (Complete x)) s) with (Some (Complete x), s).
  by apply tail_loop_run.
Qed.

End replay.

Lemma complete_replayed_witness : ∃ s' evs,
  exec fs_handle (tail_journal dec_request dec_exit 7 entry cmd 1 0) demo_complete = (Some (Ok tt), s') ∧
  sent s' = evs ++ [Exit (Some 0)] ∧ replays (lit "abcd") (lit "xy") evs 1 0.
Proof.
  destruct (complete_replayed dec_request dec_exit entry cmd (MkExit (Some 0) 1) (lit "abcd") (lit "xy") 7
    demo_complete 1 0) as (s'&evs&E&Hs&Hr).
  - split; [exists (lit "0 make"), (MkRequest cmd 0); by vm_compute|].
    split; [exists (lit "1 0"); by vm_compute|by vm_compute].
  - vm_compute. lia.
  - by exists s', evs.
Defined.
